(* ===== verification/_CoqProject ===== *)
-Q . S2P
Prelude.v
Words.v
Outcome.v
Crc.v
CrcCatalog.v
CrcTheorems.v
Layout.v
Hash.v
HashStore.v
HashStoreRefine.v
HashStoreTheorems.v
Alloc.v
Random.v
Doubles.v
RandomDouble.v
Zipf.v
ZipfTheorems.v
Latency.v
LatencyTheorems.v
Locks.v
Meta.v
MetaTheorems.v
Micro.v
MicroTheorems.v
Server.v
ServerTheorems.v
Verbs.v
Scheduler.v
SchedulerFacts.v
SchedulerInvariant.v
SchedulerTheorems.v
Doorbell.v
DoorbellTheorems.v
AddrCache.v
ComputeNode.v
ComputeNodeTheorems.v
Json.v
Connect.v
ConnectTheorems.v
Dmc.v
DmcTheorems.v
DmcSets.v
EndToEnd.v
Buckets.v
Cuckoo.v
CuckooFacts.v
CuckooView.v
CuckooLocks.v
CuckooTable.v
CuckooSearch.v
CuckooMove.v
CuckooDouble.v
CuckooInsert.v
CuckooOps.v
CuckooSpec.v
CuckooTheorems.v
CuckooRehash.v
AddrCacheMaps.v
SplitOrder.v
Atomic.v
Hazard.v
Ct.v
CtWorld.v
CtMoves.v
CtRules.v
CtHazard.v
CtSearch.v
CtLink.v
CtBuckets.v
CtThreads.v
CtRuns.v
CtTheorems.v
Solo.v
SoloHazard.v
SoloCells.v
SoloList.v
SoloBuckets.v
SoloTable.v
SoloTheorems.v
