(* ===== verification/Prelude.v ===== *)
(** * Disaggregated metadata service: a verification development

    The program is a file-system metadata service on disaggregated memory. Memory
    nodes register a region of memory, build hash tables of data items in it and
    publish where the tables are; they do no other work. Compute nodes run threads
    of coroutines that look items up with one-sided RDMA reads. This library models
    the program's own C++ code under src/ and proves what makes it correct, or shows
    where it is not.

    ** How the parts of the program interact

    A memory node (memory_pool/server) maps its region, lets the workload
    (workload/micro) create and fill a HashStore (core/memstore), and sends the
    addresses of the tables to each compute node. There, MetaManager
    (core/connection) parses the message. Each thread of a compute node
    (compute_pool/worker) has a scheduler of coroutines (core/scheduler): coroutine 0
    polls for completions, the others run clients (core/metadata, class DMC) that
    compute the address of a bucket, post reads, yield, and check what arrived.
    Buffers come from core/allocator, several verbs in one post from the doorbell
    batches of core/metadata, hashes, checksums, random numbers, statistics and
    locks from core/util.

    ** Conventions

    Integers are in [Z]; the wrap-around of an unsigned type of [w] bits is
    [wrap w] and the signed reading of a pattern [to_signed w] (Words). Code that can
    fail returns an [outcome] (Outcome): [Ok], [Exit] for a failed assertion,
    [Fault] for an access that the code does not own, [OutOfFuel] for a loop that
    was not given enough fuel. State is passed explicitly. A pointer into an array is an
    index, a pointer into the registered region its address. Each file with
    definitions of the program is followed by files with facts and theorems; a
    theorem whose comment starts with C and a number is a property of the program,
    and its witness is a use of it at a concrete input.

    ** The files

    - Prelude, Words, Outcome: tactics, rewrite base, machine words, the error monad.
    - Crc, CrcCatalog, CrcTheorems (core/util/crc.h): bit-by-bit and
      table-driven checksums, the overloads that append, reflection, the branch-free
      variant and the catalogue of parameters. Both ways agree for all widths and
      data; appending composes; a damaged byte is noticed; each catalogue entry has
      its documented values; the append overload of CalculateBits restarts.
    - Layout (data_item.h, hash_store.h, inode.h): offsets and sizes of the structs,
      computed by the rules of the ABI.
    - Hash (core/util/hash.h, dmc.h): the Murmur hashes and the hash of paths.
      MurmurHash64A is injective; MurmurHash64ALen reads out of bounds.
    - HashStore, HashStoreRefine, HashStoreTheorems (core/memstore):
      the heap of nodes, the constructor, LocalGet, LocalInsert, LocalPut,
      LocalDelete. The specification is a finite map from keys to items;
      [store_inv] relates it to the chains, and [hash_store_refines_map] says that
      any sequence of operations is answered as the map answers it.
    - Alloc (core/allocator): buffers, regions of threads and log entries are
      disjoint and inside their bounds.
    - Random (fast_random.h): periods and ranges of the generators.
    - Doubles: the type [double] as binary64, with its conversions, and what rounding
      does to sums, products and quotients of numbers that are not negative. RandomDouble
      has the generators of doubles and [RandNumber], which may stop at its own assertion;
      Zipf, ZipfTheorems (zipf.h) the generator of Zipf-distributed numbers, whose numbers
      lie in their range but for two cases that are shown.
    - Latency, LatencyTheorems (latency.h): the histogram against the
      multiset of its samples.
    - Locks (spinlock.h, seqlock.h): interleavings of atomic steps; the spin lock
      excludes nobody.
    - Meta, MetaTheorems (meta_manager, server.cc): the message and its parser; the
      parser inverts the format it expects, which the server does not send.
    - Micro, MicroTheorems (workload/micro): rounding to powers of two and loading of
      the table, proved with the lemmas of the hash store.
    - Server, ServerTheorems (memory_pool/server): the memory node from its
      configuration to the last round that the operator asks for. Every round starts with
      a freshly loaded table, whatever clients wrote before, and the same message.
    - Json (core/util/json_config.h): documents and the handles that read settings from
      them.
    - Connect, ConnectTheorems: what the nodes read from their files, the constructor of
      MetaManager, which asks every memory node for its tables and regions
      (meta_manager.cc), and the queue pairs of a thread (qp_manager). Reading succeeds
      exactly for a document that has the settings ([settings_from_files]), and the files
      of the repository have them ([shipped_settings]).
      Threads connect to nodes that send the expected message ([threads_connect]) and never
      to a memory node of the repository ([service_never_connects]).
    - ComputeNode, ComputeNodeTheorems (compute_pool): the rewriting of the configuration,
      the parameters of the threads, what a thread sets up (scheduler, allocators, random
      generators, buffers), the barrier behind which the threads wait for each other, the
      coroutines of a thread and the statistics. The threads of a cluster share no seed, no
      log and no buffer ([cluster_threads_isolated]), and all of them start
      ([threads_start_together]); no program reports a result ([programs_never_report]).
    - Verbs: requests, and the network card as the type class [Nic] with the laws
      [NicLaws]; [fifo_nic] and [retry_nic] are cards that obey them.
    - Scheduler, SchedulerFacts, SchedulerInvariant, SchedulerTheorems
      (core/scheduler): the ring of coroutines and the counts of pending requests.
      A thread is a transition system; [wf_sched] is its invariant. No wake-up is
      lost, no assertion fails, and with a card that reports at once every round
      runs every coroutine; a completion with exhausted retries is dropped.
    - Doorbell, DoorbellTheorems (doorbell.h, doorbell.cc): the six batch classes,
      with the union of the request that RDMA and atomic verbs share.
    - AddrCache (addr_cache.h): the cache of inodes, over finite maps.
    - Buckets (bucket_container.hh) and Cuckoo (cuckoohash_map.hh): the cuckoo map,
      operation by operation, as programs of a monad of states, errors and
      exceptions ([M]); [catch] and [finally] are its try blocks and destructors.
      CuckooFacts has the rules of its weakest preconditions ([wp]). CuckooView says
      what the map contains ([view]: an entry of an old bucket that is still to be
      migrated counts where it will go) and what well formed is ([table_ok], [shape],
      [rep]; [represents] joins them). CuckooLocks, CuckooTable, CuckooSearch,
      CuckooMove, CuckooDouble, CuckooInsert, CuckooOps treat the parts in the order
      of their calls: locks with lazy migration, lookups, the breadth-first search,
      moves along a path, doubling, insertion, the operations. CuckooSpec puts the
      operations beside a finite map; CuckooTheorems says that the map refines it,
      that stale paths and doublings lose nothing, that the search finds a shortest
      path, and where the map ends: at the ninth key of one hash value the table
      grows until memory is exhausted, and [swap] during a lazy migration loses it.
      CuckooRehash is [rehash] and [reserve].
    - AddrCacheMaps: the address cache over any map that obeys the class [ItemMap];
      the cuckoo map is an instance, and the cache over cuckoo maps refines AddrCache.
    - SplitOrder, Atomic, Hazard, Ct (core/util/ct.h, core/util/hazard_pointer.h): the
      lock-free hash table, which the service does not use yet. SplitOrder has the
      reversed hashes, the order of nodes and the indices of buckets; the order fits
      every size of the table. Atomic has programs as trees of atomic actions on a
      shared memory of objects and atomic variables, and runs of many of them along a
      schedule. Hazard and Ct are the reclaimer of a thread and the table as such
      programs, one definition per function.
    - CtWorld, CtMoves, CtRules, CtHazard, CtSearch, CtLink, CtBuckets, CtThreads: the
      proof for all interleavings, by rely and guarantee. CtWorld has worlds (the memory,
      the list of nodes, the role of each object and the log of changes of the map), the
      invariant [Inv], the relations [grows] and [frame] that steps of other threads
      obey, and [safe], which says what a program may rely on and guarantees. CtMoves
      has the steps that change a world (a new object, its publication, linking, marking,
      unlinking, replacing a value), CtRules the rules of [safe] for each action, and the
      other files one specification per function, in the order of the calls. CtThreads
      ends with requests: [explained] says how the log accounts for an answer.
    - CtRuns, CtTheorems: the constructor establishes the invariant; a run of
      threads is simulated by worlds; [contents] reads the map off the memory. Many
      threads never fail and their answers are explained by one log that grows
      ([concurrent_table]); so do those of one thread ([one_thread_schedules]). Both speak
      of runs in which nothing is deleted. Deleting is where the table fails: two
      schedules lead a thread to memory that was deleted.
    - Solo, SoloHazard, SoloCells, SoloList, SoloBuckets, SoloTable, SoloTheorems: the
      lock-free table when one thread runs alone, with deletions, by a separation logic. Solo has its resources (atomic variables, objects, the right to
      make objects), a weakest precondition of total correctness, which is a recursion on
      the program, the rules of the actions and the adequacy theorem. SoloHazard is the
      reclaimer of the thread, whose assertion [mine] counts what waits for its deletion;
      SoloCells the list of nodes as pure data, with the items and the heads of buckets
      that are in it; SoloList the list in memory, searches and links; SoloBuckets the tree
      of segments and the recursive initialization of buckets; SoloTable the
      operations against the assertion [table], which holds a finite map; SoloTheorems the
      constructor and the destructor. The theorem [one_thread_map] follows a table from the
      one to the other: the thread ends, its answers are those of the map, sizes included,
      and nothing that was allocated is left but hazard pointers.
    - Dmc, DmcTheorems (dmc.h, dmc.cc, dmc_issue.cc, dmc_check.cc,
      dmc_check_reader.cc, inode.h): sets of items, issuing and checking of reads,
      paths. The client is proved against the class [ReadNetwork], which
      [scheduler_network] derives from the invariant of the scheduler. The theorems
      connect both sides: the client computes the server's bucket address, and its
      lookup answers by the map that the server's store represents, unless the item
      lies behind the first node, where the check does not return.
    - DmcSets: a lookup of several items at once, each in the store of its own server: how
      the verdicts of the items make the verdict of the set, and when the check returns.
    - EndToEnd: from the memory of a server to the answer of a client: LoadTable fills the
      table, the message names it, MetaManager parses the message, and a lookup of any keys
      with the parsed metadata delivers the records that were loaded, in every round of
      the memory node.

    ** Fuel

    Traversals of chains take [heap_fuel], one more than the number of nodes; a
    chain has no cycle ([chain_NoDup]), so that is enough ([chain_fuel]). The loops
    of polling take one unit per pending queue pair when the card reports at once
    ([poll_loop_prompt], [poll_loop_spec]). The rounds of a lookup take one unit per
    node of the chain ([next_rounds_absent]). An insertion into the cuckoo map takes 64
    rounds at most, since each one that fails doubles the table, which ends at 2^63
    buckets; the search for a path takes [MAX_CUCKOO_COUNT] rounds, the bound of its
    queue. A loop of the lock-free table that is out of fuel stops its thread, so that
    each execution of the code is a run for some fuel; the theorems hold for every
    fuel. [InitializeBucket] calls itself at most 64 times, since the parent of a bucket
    has fewer bits. The loop of the Zipf generator's powers takes 32 rounds, one per bit of
    an [int], and the memory node one round per character of its input and one more. The
    loops that repeat a question to a memory node until it is answered take one unit per
    question, and the theorems need the answer within the fuel. For a
    thread that runs alone 25 rounds per request are enough, since a
    request adds at most 24 buckets and one item to the list ([table_length]). Where the
    code does not terminate, the theorem is that every amount of fuel runs out.

    ** What is not modelled

    The vendored RDMA library (thirdparty/rlib) is the interface [Nic]: posting and
    polling, with each signaled request reported once; memory is read atomically
    when a read completes, and a lookup sees one state of the server's memory. The
    cuckoo map is run by one thread: its locks are taken and checked, the retries for a
    table that another thread doubles are there and never needed, and what other
    threads may change between the search of a path and the moves is treated by
    [stale_path_harmless]. Its locked_table, iterators, copies, streams, extra worker
    threads and failing allocations of lock arrays are left out. The calls of sockets, of
    the mapping of memory and of connecting are answers that the definitions take as
    arguments, and so are the texts of files and their parsing by rapidjson; the library
    of threads, timers, the shell and output are left out, as are the operations that
    build a document, which the program does not call.
    The actions of the lock-free table are sequentially consistent, stronger than the
    orders that the code asks for. Its theorems for all interleavings exclude deletions
    by the reclaimer, which are unsafe as they are, and more than 2^24 buckets, where an
    assertion of the code fails; that the threads end and that the size that they report
    is right is shown for a thread that runs alone, without spurious failures. The bits of
    a NaN are a parameter of the Zipf generator, and its skewed mode is in range under the
    hypothesis [fair] on the numbers that it computes from n and theta. The second server
    (infinifs_server.cc) is not part of the build. The operations of the client whose
    bodies only return true are left out.

    ** Next

    In this order: lookups interleaved with writes of the server; locked_table; the
    orders of the atomic actions of the lock-free table. *)
From stdpp Require Export base tactics list gmap.
From Stdlib Require Export ZArith Lia Bool.

Export ListNotations.
#[global] Open Scope Z_scope.

(** ** Rewrite base for bit-level reasoning *)

Create Rewrite HintDb zbits.

(** [bits_ext i] proves an equation of integers bit by bit. *)
Ltac bits_ext i := apply Z.bits_inj'; intros i ?.

(** [zbool] proves the value of a comparison of integers by arithmetic, and
    [test e is b] replaces the comparison [e] by [b] in the goal. *)
Ltac zbool :=
  lazymatch goal with
  | |- true = _ => symmetry; zbool
  | |- false = _ => symmetry; zbool
  | |- _ = true => first [apply Z.ltb_lt | apply Z.leb_le | apply Z.eqb_eq]; lia
  | |- _ = false => first [apply Z.ltb_ge | apply Z.leb_gt | apply Z.eqb_neq]; lia
  end.

Tactic Notation "test" constr(e) "is" constr(b) := replace e with b by zbool.

Lemma testbit_neg (x i : Z) : i < 0 -> Z.testbit x i = false.
Proof. intros. destruct i; try lia. apply Z.testbit_neg_r; lia. Qed.

Lemma shiftl_testbit (x n i : Z) :
  0 <= n -> Z.testbit (Z.shiftl x n) i = Z.testbit x (i - n).
Proof.
  intros Hn. destruct (Z.lt_ge_cases i 0).
  - rewrite !testbit_neg by lia. done.
  - apply Z.shiftl_spec. lia.
Qed.

Lemma shiftr_testbit (x n i : Z) :
  0 <= i -> Z.testbit (Z.shiftr x n) i = Z.testbit x (i + n).
Proof. intros. by apply Z.shiftr_spec. Qed.

Lemma ones_testbit (n i : Z) :
  0 <= n -> Z.testbit (Z.ones n) i = (0 <=? i) && (i <? n).
Proof.
  intros Hn. destruct (Z.leb_spec 0 i); [|by rewrite testbit_neg].
  by rewrite Z.testbit_ones_nonneg by lia.
Qed.

#[export] Hint Rewrite Z.lxor_spec Z.land_spec Z.lor_spec Z.bits_0 : zbits.
#[export] Hint Rewrite shiftl_testbit shiftr_testbit ones_testbit using lia : zbits.

(** ** Sums *)

Definition zsum (l : list Z) : Z := foldr Z.add 0 l.

Lemma zsum_nonneg l : Forall (fun x => 0 < x) l -> 0 <= zsum l.
Proof. induction 1; simpl; lia. Qed.

Lemma zsum_app l1 l2 : zsum (l1 ++ l2) = zsum l1 + zsum l2.
Proof. induction l1 as [|x l1 IH]; simpl; [done|]. rewrite IH. lia. Qed.

(** ** Searches *)

Lemma find_split {A} (f : A -> bool) l x :
  find f l = Some x -> exists l1 l2, l = l1 ++ x :: l2 /\ f x = true /\ Forall (fun y => f y = false) l1.
Proof.
  induction l as [|y l IH]; cbn [find]; [done|]. destruct (f y) eqn:Ef.
  - intros [= ->]. by exists [], l.
  - intros Hl. destruct (IH Hl) as (l1 & l2 & -> & Hx & Hl1). exists (y :: l1), l2. by repeat constructor.
Qed.

Lemma find_none_Forall {A} (f : A -> bool) l : find f l = None <-> Forall (fun y => f y = false) l.
Proof.
  induction l as [|y l IH]; cbn [find]; [by split|]. rewrite Forall_cons.
  destruct (f y); [|tauto]. by split; [|intros []].
Qed.

Lemma find_ext {A} (f g : A -> bool) l : Forall (fun y => f y = g y) l -> find f l = find g l.
Proof. induction 1 as [|y l Hy _ IH]; cbn [find]; [done|]. by rewrite Hy, IH. Qed.
