(* ===== verification/Words.v ===== *)
(** Machine words: unsigned integers of a fixed width as integers in [Z],
    with the wrap-around of the C++ unsigned types written out, and equality
    of the low bits of two integers as a setoid. *)
From S2P Require Import Prelude.

(** The value of [x] converted to an unsigned type with [w] value bits. *)
Definition wrap (w x : Z) : Z := x mod 2 ^ w.

Abbreviation u8 := (wrap 8).
Abbreviation u16 := (wrap 16).
Abbreviation u32 := (wrap 32).
Abbreviation u64 := (wrap 64).

(** Conversion of a [w]-bit pattern to the signed type of the same width. *)
Definition to_signed (w x : Z) : Z :=
  if wrap w x <? 2 ^ (w - 1) then wrap w x else wrap w x - 2 ^ w.

Abbreviation i32 := (to_signed 32).
Abbreviation i64 := (to_signed 64).

Lemma wrap_range w x : 0 <= w -> 0 <= wrap w x < 2 ^ w.
Proof. intros. apply Z.mod_pos_bound. lia. Qed.

Lemma wrap_small w x : 0 <= x < 2 ^ w -> wrap w x = x.
Proof. apply Z.mod_small. Qed.

Lemma wrap_testbit w x i :
  0 <= w -> Z.testbit (wrap w x) i = (i <? w) && Z.testbit x i.
Proof.
  intros Hw. unfold wrap. destruct (Z.ltb_spec i w); simpl.
  - destruct (Z.lt_ge_cases i 0); [by rewrite !testbit_neg|].
    by apply Z.mod_pow2_bits_low.
  - apply Z.mod_pow2_bits_high. lia.
Qed.

#[export] Hint Rewrite wrap_testbit using lia : zbits.

Lemma wrap_wrap w x : 0 <= w -> wrap w (wrap w x) = wrap w x.
Proof. intros. apply wrap_small, wrap_range. done. Qed.

Lemma wrap_0 w : wrap w 0 = 0.
Proof. apply Zmod_0_l. Qed.

(** An integer is below [2 ^ n] exactly when its high bits are clear. *)
Lemma high_bits_zero n x :
  0 <= n -> 0 <= x -> (forall i, n <= i -> Z.testbit x i = false) <-> x < 2 ^ n.
Proof.
  intros Hn Hx. split.
  - intros H. assert (x = wrap n x) as ->; [|by apply wrap_range].
    bits_ext i. rewrite wrap_testbit by lia.
    destruct (Z.ltb_spec i n); [done|]. by rewrite H.
  - intros H i Hi. rewrite <- (wrap_small n x) by lia.
    rewrite wrap_testbit by lia. by test (i <? n) is false.
Qed.

Lemma testbit_high n x i : 0 <= x < 2 ^ n -> 0 <= n <= i -> Z.testbit x i = false.
Proof. intros [??] [??]. by eapply high_bits_zero with (n := n). Qed.

Lemma lxor_range n x y :
  0 <= n -> 0 <= x < 2 ^ n -> 0 <= y < 2 ^ n -> 0 <= Z.lxor x y < 2 ^ n.
Proof.
  intros Hn Hx Hy. assert (0 <= Z.lxor x y) by (apply Z.lxor_nonneg; lia).
  split; [done|]. apply high_bits_zero; [lia..|]. intros i Hi.
  rewrite Z.lxor_spec, (testbit_high n x), (testbit_high n y) by lia. done.
Qed.

Lemma shiftr_range n k x :
  0 <= k -> 0 <= n -> 0 <= x < 2 ^ n -> 0 <= Z.shiftr x k < 2 ^ n.
Proof.
  intros Hk Hn Hx. rewrite Z.shiftr_div_pow2 by lia. split.
  - apply Z.div_pos; lia.
  - apply Z.le_lt_trans with x; [|lia]. apply Z.div_le_upper_bound; [lia|].
    assert (1 <= 2 ^ k) by lia. nia.
Qed.

Lemma land_1_testbit x : (Z.land x 1 =? 0) = negb (Z.testbit x 0).
Proof.
  change 1 with (Z.ones 1). rewrite Z.land_ones, Z.bit0_odd, Zodd_mod by lia.
  rewrite Z.pow_1_r. pose proof (Z.mod_pos_bound x 2). destruct (Z.eqb_spec (x mod 2) 1); lia.
Qed.

Lemma land_pow2_testbit x n :
  0 <= n -> (Z.land x (Z.shiftl 1 n) =? 0) = negb (Z.testbit x n).
Proof.
  intros Hn. destruct (Z.testbit x n) eqn:E; simpl.
  - apply Z.eqb_neq. intros H.
    assert (Z.testbit (Z.land x (Z.shiftl 1 n)) n = true) as Hb.
    { autorewrite with zbits. by rewrite E, Z.sub_diag. }
    by rewrite H, Z.bits_0 in Hb.
  - apply Z.eqb_eq. bits_ext i. autorewrite with zbits.
    destruct (Z.eq_dec i n) as [->|Hne]; [by rewrite E|].
    replace (Z.testbit 1 (i - n)) with false; [by rewrite andb_false_r|].
    symmetry. destruct (Z.lt_ge_cases (i - n) 0); [by apply testbit_neg|].
    apply (testbit_high 1); lia.
Qed.

(** ** Equality of the low [n] bits *)

Definition eqm (n x y : Z) : Prop :=
  forall i, 0 <= i < n -> Z.testbit x i = Z.testbit y i.

#[export] Instance eqm_equiv n : Equivalence (eqm n).
Proof.
  split.
  - intros x i Hi. done.
  - intros x y H i Hi. symmetry. by apply H.
  - intros x y z H1 H2 i Hi. rewrite H1 by done. by apply H2.
Qed.

#[export] Instance eqm_lxor n : Proper (eqm n ==> eqm n ==> eqm n) Z.lxor.
Proof. intros x x' Hx y y' Hy i Hi. rewrite !Z.lxor_spec, (Hx i), (Hy i) by done. done. Qed.

#[export] Instance eqm_land n : Proper (eqm n ==> eqm n ==> eqm n) Z.land.
Proof. intros x x' Hx y y' Hy i Hi. rewrite !Z.land_spec, (Hx i), (Hy i) by done. done. Qed.

Lemma eqm_shiftl n k x y : 0 <= k -> eqm n x y -> eqm n (Z.shiftl x k) (Z.shiftl y k).
Proof.
  intros Hk H i Hi. autorewrite with zbits.
  destruct (Z.lt_ge_cases (i - k) 0); [by rewrite !testbit_neg|]. apply H. lia.
Qed.

Lemma eqm_wrap n w x : 0 <= w -> n <= w -> eqm n (wrap w x) x.
Proof. intros Hw Hn i Hi. autorewrite with zbits. by test (i <? w) is true. Qed.

Lemma eqm_le n m x y : m <= n -> eqm n x y -> eqm m x y.
Proof. intros Hm H i Hi. apply H. lia. Qed.

Lemma eqm_eq n x y :
  0 <= n -> 0 <= x < 2 ^ n -> 0 <= y < 2 ^ n -> eqm n x y -> x = y.
Proof.
  intros Hn Hx Hy H. bits_ext i. destruct (Z.lt_ge_cases i n).
  - apply H. lia.
  - by rewrite (testbit_high n x), (testbit_high n y) by lia.
Qed.
