(* ===== verification/Outcome.v ===== *)
(** The outcomes of code that can fail: an error monad shared by the components
    that check assertions, follow pointers or loop. *)
From S2P Require Import Prelude.

(** [Ok a]: the code returns [a]. [Exit]: it stops the process (a failed
    [assert], [RDMA_ASSERT] or a fatal log line). [Fault]: it reads or writes
    memory it does not own. [OutOfFuel]: the loops had no fuel left. *)
Inductive outcome (A : Type) :=
| Ok (a : A)
| Exit
| Fault
| OutOfFuel.
Arguments Ok {_} _.
Arguments Exit {_}.
Arguments Fault {_}.
Arguments OutOfFuel {_}.

#[export] Instance outcome_ret : MRet outcome := fun A a => Ok a.

#[export] Instance outcome_bind : MBind outcome := fun A B f m =>
  match m with
  | Ok a => f a
  | Exit => Exit
  | Fault => Fault
  | OutOfFuel => OutOfFuel
  end.

(** [assert(b)]. *)
Definition assert_ (b : bool) : outcome () := if b then Ok () else Exit.

(** A dereference: reading what is not there is a fault. *)
Definition deref {A} (m : option A) : outcome A :=
  match m with Some a => Ok a | None => Fault end.

Definition is_Ok {A} (m : outcome A) : Prop := exists a, m = Ok a.

Lemma bind_Ok {A B} (m : outcome A) (f : A -> outcome B) b :
  m ≫= f = Ok b <-> exists a, m = Ok a /\ f a = Ok b.
Proof.
  destruct m as [a| | |]; simpl; split; try done.
  - intros H. by exists a.
  - by intros (a' & [= <-] & H).
  - by intros (a' & ? & _).
  - by intros (a' & ? & _).
  - by intros (a' & ? & _).
Qed.

Lemma assert_Ok b u : assert_ b = Ok u <-> b = true.
Proof. destruct u, b; done. Qed.

Lemma deref_Ok {A} (m : option A) a : deref m = Ok a <-> m = Some a.
Proof. destruct m; split; intros H; by inversion H. Qed.

(** [ok_inv] splits every hypothesis that says that a sequence of steps
    succeeded into its steps. *)
Ltac ok_inv :=
  repeat match goal with
  | H : _ ≫= _ = Ok _ |- _ => apply bind_Ok in H as (? & ? & ?)
  | H : assert_ _ = Ok _ |- _ => apply assert_Ok in H
  | H : deref _ = Ok _ |- _ => apply deref_Ok in H
  | H : Ok _ = Ok _ |- _ => injection H as H
  | H : mret _ = Ok _ |- _ => injection H as H
  end.
