(* ===== verification/Crc.v ===== *)
(** CRC computation of core/util/crc.h: the bit-by-bit and the table-driven
    algorithms over the templates' [CRCType] (an unsigned type of [tw] bits) and
    [CRCWidth] ([w] bits), multi-part CRCs and CRCs over a number of bits. *)
From S2P Require Import Prelude Words.

(** ** Data *)

(** [struct Parameters<CRCType, CRCWidth>]: the template arguments are the
    indices of the record. *)
Record Parameters (CRCType CRCWidth : Z) := MkParameters {
  polynomial : Z;
  initialValue : Z;
  finalXOR : Z;
  reflectInput : bool;
  reflectOutput : bool;
}.
Arguments MkParameters {_ _} _ _ _ _ _.
Arguments polynomial {_ _} _.
Arguments initialValue {_ _} _.
Arguments finalXOR {_ _} _.
Arguments reflectInput {_ _} _.
Arguments reflectOutput {_ _} _.

(** [struct Table<CRCType, CRCWidth>]. *)
Record Table (CRCType CRCWidth : Z) := MkTable {
  parameters : Parameters CRCType CRCWidth;
  table : list Z;
}.
Arguments MkTable {_ _} _ _.
Arguments parameters {_ _} _.
Arguments table {_ _} _.

Definition CHAR_BIT : Z := 8.

(** ** Operations *)

(** [CRC::Reflect]: the loop over [numBits], with the shifts cast to the type. *)
Fixpoint Reflect_loop (tw : Z) (n : nat) (reversedValue value : Z) : Z :=
  match n with
  | O => reversedValue
  | S n =>
      Reflect_loop tw n
        (wrap tw (Z.lor (Z.shiftl reversedValue 1) (Z.land value 1)))
        (wrap tw (Z.shiftr value 1))
  end.

Definition Reflect (tw value numBits : Z) : Z := Reflect_loop tw (Z.to_nat numBits) 0 value.

Definition BIT_MASK (w : Z) : Z :=
  Z.lor (Z.shiftl 1 (w - 1)) (Z.shiftl 1 (w - 1) - 1).

Section Algorithm.
Context {tw w : Z}.
Implicit Types p : Parameters tw w.
Implicit Types data : list Z.

Definition Finalize (remainder finalXOR : Z) (reflectOutput : bool) : Z :=
  let remainder := if reflectOutput then Reflect tw remainder w else remainder in
  Z.land (Z.lxor remainder finalXOR) (BIT_MASK w).

Definition UndoFinalize (crc finalXOR : Z) (reflectOutput : bool) : Z :=
  let crc := Z.lxor (Z.land crc (BIT_MASK w)) finalXOR in
  if reflectOutput then Reflect tw crc w else crc.

(** The inner loop bodies: one bit of a reflected CRC, and one bit of a
    non-reflected CRC whose highest bit is bit [top]. *)
Definition step_reflected (polynomial remainder : Z) : Z :=
  wrap tw (if Z.land remainder 1 =? 0 then Z.shiftr remainder 1
           else Z.lxor (Z.shiftr remainder 1) polynomial).

Definition step_high (top polynomial remainder : Z) : Z :=
  wrap tw (if Z.land remainder (Z.shiftl 1 top) =? 0 then Z.shiftl remainder 1
           else Z.lxor (Z.shiftl remainder 1) polynomial).

(** The same loop bodies under [CRCPP_BRANCHLESS]. *)
Definition step_reflected_branchless (polynomial remainder : Z) : Z :=
  wrap tw (Z.lxor (Z.shiftr remainder 1) (Z.land remainder 1 * polynomial)).

Definition step_high_branchless (top polynomial remainder : Z) : Z :=
  wrap tw (Z.lxor (Z.shiftl remainder 1)
                  (Z.land (Z.shiftr remainder top) 1 * polynomial)).

(** [CalculateRemainder(data, size, parameters, remainder)]: [data] holds the
    [size] bytes. *)
Definition CalculateRemainder data p (remainder : Z) : Z :=
  if reflectInput p then
    let polynomial := Reflect tw (polynomial p) w in
    foldl (fun remainder byte =>
             Nat.iter (Z.to_nat CHAR_BIT) (step_reflected polynomial)
               (wrap tw (Z.lxor remainder byte))) remainder data
  else if CHAR_BIT <=? w then
    let SHIFT := if CHAR_BIT <=? w then w - CHAR_BIT else 0 in
    foldl (fun remainder byte =>
             Nat.iter (Z.to_nat CHAR_BIT) (step_high (w - 1) (polynomial p))
               (wrap tw (Z.lxor remainder (Z.shiftl (wrap tw byte) SHIFT)))) remainder data
  else
    let SHIFT := if w <=? CHAR_BIT then CHAR_BIT - w else 0 in
    let polynomial := wrap tw (Z.shiftl (polynomial p) SHIFT) in
    let remainder := wrap tw (Z.shiftl remainder SHIFT) in
    let remainder :=
      foldl (fun remainder byte =>
               Nat.iter (Z.to_nat CHAR_BIT) (step_high (CHAR_BIT - 1) polynomial)
                 (wrap tw (Z.lxor remainder byte))) remainder data in
    wrap tw (Z.shiftr remainder SHIFT).

(** [CalculateRemainder] when [CRCPP_BRANCHLESS] is defined. *)
Definition CalculateRemainder_branchless data p (remainder : Z) : Z :=
  if reflectInput p then
    let polynomial := Reflect tw (polynomial p) w in
    foldl (fun remainder byte =>
             Nat.iter (Z.to_nat CHAR_BIT) (step_reflected_branchless polynomial)
               (wrap tw (Z.lxor remainder byte))) remainder data
  else if CHAR_BIT <=? w then
    let SHIFT := if CHAR_BIT <=? w then w - CHAR_BIT else 0 in
    foldl (fun remainder byte =>
             Nat.iter (Z.to_nat CHAR_BIT) (step_high_branchless (w - 1) (polynomial p))
               (wrap tw (Z.lxor remainder (Z.shiftl (wrap tw byte) SHIFT)))) remainder data
  else
    let SHIFT := if w <=? CHAR_BIT then CHAR_BIT - w else 0 in
    let polynomial := wrap tw (Z.shiftl (polynomial p) SHIFT) in
    let remainder := wrap tw (Z.shiftl remainder SHIFT) in
    let remainder :=
      foldl (fun remainder byte =>
               Nat.iter (Z.to_nat CHAR_BIT) (step_high_branchless (CHAR_BIT - 1) polynomial)
                 (wrap tw (Z.lxor remainder byte))) remainder data in
    wrap tw (Z.shiftr remainder SHIFT).

(** The entry that one iteration of [InitTable]'s loop stores at [byte]. *)
Definition InitTable_entry p (byte : Z) : Z :=
  let SHIFT := if w <=? CHAR_BIT then CHAR_BIT - w else 0 in
  let crc := Z.land (CalculateRemainder [byte] p 0) (BIT_MASK w) in
  if negb (reflectInput p) && (w <? CHAR_BIT) then wrap tw (Z.shiftl crc SHIFT) else crc.

(** [InitTable]: [do { table[byte] = ... } while (++byte)] on an unsigned char;
    one unit of fuel is one iteration. *)
Fixpoint InitTable_loop (fuel : nat) p (byte : Z) (table : list Z) : option (list Z) :=
  match fuel with
  | O => None
  | S fuel =>
      let table := <[Z.to_nat byte := InitTable_entry p byte]> table in
      let byte := u8 (byte + 1) in
      if byte =? 0 then Some table else InitTable_loop fuel p byte table
  end.

Definition InitTable p : option (list Z) :=
  InitTable_loop 256 p 0 (replicate (Z.to_nat (Z.shiftl 1 CHAR_BIT)) 0).

Definition MakeTable p : Table tw w := MkTable p (default [] (InitTable p)).

Definition table_get (t : Table tw w) (index : Z) : Z := nth (Z.to_nat index) (table t) 0.

(** [CalculateRemainder(data, size, lookupTable, remainder)]. *)
Definition CalculateRemainder_table data (t : Table tw w) (remainder : Z) : Z :=
  if reflectInput (parameters t) then
    foldl (fun remainder byte =>
             wrap tw (Z.lxor (Z.shiftr remainder CHAR_BIT)
                             (table_get t (u8 (Z.lxor remainder byte))))) remainder data
  else if CHAR_BIT <=? w then
    let SHIFT := if CHAR_BIT <=? w then w - CHAR_BIT else 0 in
    foldl (fun remainder byte =>
             wrap tw (Z.lxor (Z.shiftl remainder CHAR_BIT)
                             (table_get t (u8 (Z.lxor (Z.shiftr remainder SHIFT) byte)))))
      remainder data
  else
    let SHIFT := if w <=? CHAR_BIT then CHAR_BIT - w else 0 in
    let remainder := wrap tw (Z.shiftl remainder SHIFT) in
    let remainder :=
      foldl (fun remainder byte => table_get t (u8 (Z.lxor remainder byte))) remainder data in
    wrap tw (Z.shiftr remainder SHIFT).

Definition reflections_differ p : bool := negb (Bool.eqb (reflectInput p) (reflectOutput p)).

(** The four overloads of [Calculate]. *)
Definition Calculate data p : Z :=
  Finalize (CalculateRemainder data p (initialValue p)) (finalXOR p) (reflections_differ p).

Definition Calculate_append data p (crc : Z) : Z :=
  let remainder := UndoFinalize crc (finalXOR p) (reflections_differ p) in
  Finalize (CalculateRemainder data p remainder) (finalXOR p) (reflections_differ p).

Definition Calculate_table data (t : Table tw w) : Z :=
  let p := parameters t in
  Finalize (CalculateRemainder_table data t (initialValue p)) (finalXOR p) (reflections_differ p).

Definition Calculate_table_append data (t : Table tw w) (crc : Z) : Z :=
  let p := parameters t in
  let remainder := UndoFinalize crc (finalXOR p) (reflections_differ p) in
  Finalize (CalculateRemainder_table data t remainder) (finalXOR p) (reflections_differ p).

(** [CalculateRemainderBits]: [numBits] bits of one byte. *)
Definition CalculateRemainderBits (byte numBits : Z) p (remainder : Z) : Z :=
  if reflectInput p then
    let polynomial := Reflect tw (polynomial p) w in
    Nat.iter (Z.to_nat numBits) (step_reflected polynomial) (wrap tw (Z.lxor remainder byte))
  else if CHAR_BIT <=? w then
    let SHIFT := if CHAR_BIT <=? w then w - CHAR_BIT else 0 in
    Nat.iter (Z.to_nat numBits) (step_high (w - 1) (polynomial p))
      (wrap tw (Z.lxor remainder (Z.shiftl (wrap tw byte) SHIFT)))
  else
    let SHIFT := if w <=? CHAR_BIT then CHAR_BIT - w else 0 in
    let polynomial := wrap tw (Z.shiftl (polynomial p) SHIFT) in
    let remainder :=
      Nat.iter (Z.to_nat numBits) (step_high (CHAR_BIT - 1) polynomial)
        (wrap tw (Z.lxor (Z.shiftl remainder SHIFT) byte)) in
    wrap tw (Z.shiftr remainder SHIFT).

(** The common tail of the [CalculateBits] overloads: the bits after the whole
    bytes of [data]. *)
Definition remaining_bits data (size : Z) p (remainder : Z) : Z :=
  let wholeNumberOfBytes := size / CHAR_BIT in
  let remainingNumberOfBits := size mod CHAR_BIT in
  if negb (remainingNumberOfBits =? 0) then
    CalculateRemainderBits (nth (Z.to_nat wholeNumberOfBytes) data 0) remainingNumberOfBits p remainder
  else remainder.

(** The four overloads of [CalculateBits]; [size] counts bits. *)
Definition CalculateBits data (size : Z) p : Z :=
  let remainder := initialValue p in
  let wholeNumberOfBytes := size / CHAR_BIT in
  let remainder :=
    if 0 <? wholeNumberOfBytes
    then CalculateRemainder (take (Z.to_nat wholeNumberOfBytes) data) p remainder
    else remainder in
  Finalize (remaining_bits data size p remainder) (finalXOR p) (reflections_differ p).

Definition CalculateBits_append data (size : Z) p (crc : Z) : Z :=
  let remainder := UndoFinalize crc (finalXOR p) (reflections_differ p) in
  let wholeNumberOfBytes := size / CHAR_BIT in
  let remainder :=
    if 0 <? wholeNumberOfBytes
    then CalculateRemainder (take (Z.to_nat wholeNumberOfBytes) data) p (initialValue p)
    else remainder in
  Finalize (remaining_bits data size p remainder) (finalXOR p) (reflections_differ p).

Definition CalculateBits_table data (size : Z) (t : Table tw w) : Z :=
  let p := parameters t in
  let remainder := initialValue p in
  let wholeNumberOfBytes := size / CHAR_BIT in
  let remainder :=
    if 0 <? wholeNumberOfBytes
    then CalculateRemainder_table (take (Z.to_nat wholeNumberOfBytes) data) t remainder
    else remainder in
  Finalize (remaining_bits data size p remainder) (finalXOR p) (reflections_differ p).

Definition CalculateBits_table_append data (size : Z) (t : Table tw w) (crc : Z) : Z :=
  let p := parameters t in
  let remainder := UndoFinalize crc (finalXOR p) (reflections_differ p) in
  let wholeNumberOfBytes := size / CHAR_BIT in
  let remainder :=
    if 0 <? wholeNumberOfBytes
    then CalculateRemainder_table (take (Z.to_nat wholeNumberOfBytes) data) t (initialValue p)
    else remainder in
  Finalize (remaining_bits data size p remainder) (finalXOR p) (reflections_differ p).

End Algorithm.
