(* ===== verification/CrcCatalog.v ===== *)
(** The catalogue of CRC parameters of core/util/crc.h: for each function that
    returns a set of parameters, the parameters of the code and, in the
    definition with the suffix [_doc], the parameters and the check value that
    its comment states. *)
From S2P Require Import Prelude Words Crc.
From stdpp Require Import strings.
#[local] Open Scope Z_scope.

(** What a comment of the catalogue states. *)
Record Documented := MkDocumented {
  doc_name : string;
  doc_polynomial : Z;
  doc_initialValue : Z;
  doc_finalXOR : Z;
  doc_reflectInput : bool;
  doc_reflectOutput : bool;
  doc_check : Z;
}.

Definition CRC_4_ITU_doc : Documented :=
  MkDocumented "CRC-4 ITU" 0x3 0x0 0x0 true true 0x7.

Definition CRC_4_ITU : Parameters 8 4 :=
  MkParameters 0x3 0x0 0x0 true true.

Definition CRC_5_EPC_doc : Documented :=
  MkDocumented "CRC-5 EPC" 0x09 0x09 0x00 false false 0x00.

Definition CRC_5_EPC : Parameters 8 5 :=
  MkParameters 0x09 0x09 0x00 false false.

Definition CRC_5_ITU_doc : Documented :=
  MkDocumented "CRC-5 ITU" 0x15 0x00 0x00 true true 0x07.

Definition CRC_5_ITU : Parameters 8 5 :=
  MkParameters 0x15 0x00 0x00 true true.

Definition CRC_5_USB_doc : Documented :=
  MkDocumented "CRC-5 USB" 0x05 0x1F 0x1F true true 0x19.

Definition CRC_5_USB : Parameters 8 5 :=
  MkParameters 0x05 0x1F 0x1F true true.

Definition CRC_6_CDMA2000A_doc : Documented :=
  MkDocumented "CRC-6 CDMA2000-A" 0x27 0x3F 0x00 false false 0x0D.

Definition CRC_6_CDMA2000A : Parameters 8 6 :=
  MkParameters 0x27 0x3F 0x00 false false.

Definition CRC_6_CDMA2000B_doc : Documented :=
  MkDocumented "CRC-6 CDMA2000-A" 0x07 0x3F 0x00 false false 0x3B.

Definition CRC_6_CDMA2000B : Parameters 8 6 :=
  MkParameters 0x07 0x3F 0x00 false false.

Definition CRC_6_ITU_doc : Documented :=
  MkDocumented "CRC-6 ITU" 0x03 0x00 0x00 true true 0x06.

Definition CRC_6_ITU : Parameters 8 6 :=
  MkParameters 0x03 0x00 0x00 true true.

Definition CRC_6_NR_doc : Documented :=
  MkDocumented "CRC-6 NR" 0x21 0x00 0x00 false false 0x15.

Definition CRC_6_NR : Parameters 8 6 :=
  MkParameters 0x21 0x00 0x00 false false.

Definition CRC_7_doc : Documented :=
  MkDocumented "CRC-7 JEDEC" 0x09 0x00 0x00 false false 0x75.

Definition CRC_7 : Parameters 8 7 :=
  MkParameters 0x09 0x00 0x00 false false.

Definition CRC_8_doc : Documented :=
  MkDocumented "CRC-8 SMBus" 0x07 0x00 0x00 false false 0xF4.

Definition CRC_8 : Parameters 8 8 :=
  MkParameters 0x07 0x00 0x00 false false.

Definition CRC_8_EBU_doc : Documented :=
  MkDocumented "CRC-8 EBU" 0x1D 0xFF 0x00 true true 0x97.

Definition CRC_8_EBU : Parameters 8 8 :=
  MkParameters 0x1D 0xFF 0x00 true true.

Definition CRC_8_MAXIM_doc : Documented :=
  MkDocumented "CRC-8 MAXIM" 0x31 0x00 0x00 true true 0xA1.

Definition CRC_8_MAXIM : Parameters 8 8 :=
  MkParameters 0x31 0x00 0x00 true true.

Definition CRC_8_WCDMA_doc : Documented :=
  MkDocumented "CRC-8 WCDMA" 0x9B 0x00 0x00 true true 0x25.

Definition CRC_8_WCDMA : Parameters 8 8 :=
  MkParameters 0x9B 0x00 0x00 true true.

Definition CRC_8_LTE_doc : Documented :=
  MkDocumented "CRC-8 LTE" 0x9B 0x00 0x00 false false 0xEA.

Definition CRC_8_LTE : Parameters 8 8 :=
  MkParameters 0x9B 0x00 0x00 false false.

Definition CRC_10_doc : Documented :=
  MkDocumented "CRC-10 ITU" 0x233 0x000 0x000 false false 0x199.

Definition CRC_10 : Parameters 16 10 :=
  MkParameters 0x233 0x000 0x000 false false.

Definition CRC_10_CDMA2000_doc : Documented :=
  MkDocumented "CRC-10 CDMA2000" 0x3D9 0x3FF 0x000 false false 0x233.

Definition CRC_10_CDMA2000 : Parameters 16 10 :=
  MkParameters 0x3D9 0x3FF 0x000 false false.

Definition CRC_11_doc : Documented :=
  MkDocumented "CRC-11 FlexRay" 0x385 0x01A 0x000 false false 0x5A3.

Definition CRC_11 : Parameters 16 11 :=
  MkParameters 0x385 0x01A 0x000 false false.

Definition CRC_11_NR_doc : Documented :=
  MkDocumented "CRC-11 NR" 0x621 0x000 0x000 false false 0x5CA.

Definition CRC_11_NR : Parameters 16 11 :=
  MkParameters 0x621 0x000 0x000 false false.

Definition CRC_12_CDMA2000_doc : Documented :=
  MkDocumented "CRC-12 CDMA2000" 0xF13 0xFFF 0x000 false false 0xD4D.

Definition CRC_12_CDMA2000 : Parameters 16 12 :=
  MkParameters 0xF13 0xFFF 0x000 false false.

Definition CRC_12_DECT_doc : Documented :=
  MkDocumented "CRC-12 DECT" 0x80F 0x000 0x000 false false 0xF5B.

Definition CRC_12_DECT : Parameters 16 12 :=
  MkParameters 0x80F 0x000 0x000 false false.

Definition CRC_12_UMTS_doc : Documented :=
  MkDocumented "CRC-12 UMTS" 0x80F 0x000 0x000 false true 0xDAF.

Definition CRC_12_UMTS : Parameters 16 12 :=
  MkParameters 0x80F 0x000 0x000 false true.

Definition CRC_13_BBC_doc : Documented :=
  MkDocumented "CRC-13 BBC" 0x1CF5 0x0000 0x0000 false false 0x04FA.

Definition CRC_13_BBC : Parameters 16 13 :=
  MkParameters 0x1CF5 0x0000 0x0000 false false.

Definition CRC_15_doc : Documented :=
  MkDocumented "CRC-15 CAN" 0x4599 0x0000 0x0000 false false 0x059E.

Definition CRC_15 : Parameters 16 15 :=
  MkParameters 0x4599 0x0000 0x0000 false false.

Definition CRC_15_MPT1327_doc : Documented :=
  MkDocumented "CRC-15 MPT1327" 0x6815 0x0000 0x0001 false false 0x2566.

Definition CRC_15_MPT1327 : Parameters 16 15 :=
  MkParameters 0x6815 0x0000 0x0001 false false.

Definition CRC_16_ARC_doc : Documented :=
  MkDocumented "CRC-16 ARC" 0x8005 0x0000 0x0000 true true 0xBB3D.

Definition CRC_16_ARC : Parameters 16 16 :=
  MkParameters 0x8005 0x0000 0x0000 true true.

Definition CRC_16_BUYPASS_doc : Documented :=
  MkDocumented "CRC-16 BUYPASS" 0x8005 0x0000 0x0000 false false 0xFEE8.

Definition CRC_16_BUYPASS : Parameters 16 16 :=
  MkParameters 0x8005 0x0000 0x0000 false false.

Definition CRC_16_CCITTFALSE_doc : Documented :=
  MkDocumented "CRC-16 CCITT FALSE" 0x1021 0xFFFF 0x0000 false false 0x29B1.

Definition CRC_16_CCITTFALSE : Parameters 16 16 :=
  MkParameters 0x1021 0xFFFF 0x0000 false false.

Definition CRC_16_MCRF4XX_doc : Documented :=
  MkDocumented "CRC-16 MCRF4XX" 0x1021 0xFFFF 0x0000 true true 0x6F91.

Definition CRC_16_MCRF4XX : Parameters 16 16 :=
  MkParameters 0x1021 0xFFFF 0x0000 true true.

Definition CRC_16_CDMA2000_doc : Documented :=
  MkDocumented "CRC-16 CDMA2000" 0xC867 0xFFFF 0x0000 false false 0x4C06.

Definition CRC_16_CDMA2000 : Parameters 16 16 :=
  MkParameters 0xC867 0xFFFF 0x0000 false false.

Definition CRC_16_CMS_doc : Documented :=
  MkDocumented "CRC-16 CMS" 0x8005 0xFFFF 0x0000 false false 0xAEE7.

Definition CRC_16_CMS : Parameters 16 16 :=
  MkParameters 0x8005 0xFFFF 0x0000 false false.

Definition CRC_16_DECTR_doc : Documented :=
  MkDocumented "CRC-16 DECT-R" 0x0589 0x0000 0x0001 false false 0x007E.

Definition CRC_16_DECTR : Parameters 16 16 :=
  MkParameters 0x0589 0x0000 0x0001 false false.

Definition CRC_16_DECTX_doc : Documented :=
  MkDocumented "CRC-16 DECT-X" 0x0589 0x0000 0x0000 false false 0x007F.

Definition CRC_16_DECTX : Parameters 16 16 :=
  MkParameters 0x0589 0x0000 0x0000 false false.

Definition CRC_16_DNP_doc : Documented :=
  MkDocumented "CRC-16 DNP" 0x3D65 0x0000 0xFFFF true true 0xEA82.

Definition CRC_16_DNP : Parameters 16 16 :=
  MkParameters 0x3D65 0x0000 0xFFFF true true.

Definition CRC_16_GENIBUS_doc : Documented :=
  MkDocumented "CRC-16 GENIBUS" 0x1021 0xFFFF 0xFFFF false false 0xD64E.

Definition CRC_16_GENIBUS : Parameters 16 16 :=
  MkParameters 0x1021 0xFFFF 0xFFFF false false.

Definition CRC_16_KERMIT_doc : Documented :=
  MkDocumented "CRC-16 KERMIT" 0x1021 0x0000 0x0000 true true 0x2189.

Definition CRC_16_KERMIT : Parameters 16 16 :=
  MkParameters 0x1021 0x0000 0x0000 true true.

Definition CRC_16_MAXIM_doc : Documented :=
  MkDocumented "CRC-16 MAXIM" 0x8005 0x0000 0xFFFF true true 0x44C2.

Definition CRC_16_MAXIM : Parameters 16 16 :=
  MkParameters 0x8005 0x0000 0xFFFF true true.

Definition CRC_16_MODBUS_doc : Documented :=
  MkDocumented "CRC-16 MODBUS" 0x8005 0xFFFF 0x0000 true true 0x4B37.

Definition CRC_16_MODBUS : Parameters 16 16 :=
  MkParameters 0x8005 0xFFFF 0x0000 true true.

Definition CRC_16_T10DIF_doc : Documented :=
  MkDocumented "CRC-16 T10-DIF" 0x8BB7 0x0000 0x0000 false false 0xD0DB.

Definition CRC_16_T10DIF : Parameters 16 16 :=
  MkParameters 0x8BB7 0x0000 0x0000 false false.

Definition CRC_16_USB_doc : Documented :=
  MkDocumented "CRC-16 USB" 0x8005 0xFFFF 0xFFFF true true 0xB4C8.

Definition CRC_16_USB : Parameters 16 16 :=
  MkParameters 0x8005 0xFFFF 0xFFFF true true.

Definition CRC_16_X25_doc : Documented :=
  MkDocumented "CRC-16 X-25" 0x1021 0xFFFF 0xFFFF true true 0x906E.

Definition CRC_16_X25 : Parameters 16 16 :=
  MkParameters 0x1021 0xFFFF 0xFFFF true true.

Definition CRC_16_XMODEM_doc : Documented :=
  MkDocumented "CRC-16 XMODEM" 0x1021 0x0000 0x0000 false false 0x31C3.

Definition CRC_16_XMODEM : Parameters 16 16 :=
  MkParameters 0x1021 0x0000 0x0000 false false.

Definition CRC_17_CAN_doc : Documented :=
  MkDocumented "CRC-17 CAN" 0x1685B 0x00000 0x00000 false false 0x04F03.

Definition CRC_17_CAN : Parameters 32 17 :=
  MkParameters 0x1685B 0x00000 0x00000 false false.

Definition CRC_21_CAN_doc : Documented :=
  MkDocumented "CRC-21 CAN" 0x102899 0x000000 0x000000 false false 0x0ED841.

Definition CRC_21_CAN : Parameters 32 21 :=
  MkParameters 0x102899 0x000000 0x000000 false false.

Definition CRC_24_doc : Documented :=
  MkDocumented "CRC-24 OPENPGP" 0x864CFB 0xB704CE 0x000000 false false 0x21CF02.

Definition CRC_24 : Parameters 32 24 :=
  MkParameters 0x864CFB 0xB704CE 0x000000 false false.

Definition CRC_24_FLEXRAYA_doc : Documented :=
  MkDocumented "CRC-24 FlexRay-A" 0x5D6DCB 0xFEDCBA 0x000000 false false 0x7979BD.

Definition CRC_24_FLEXRAYA : Parameters 32 24 :=
  MkParameters 0x5D6DCB 0xFEDCBA 0x000000 false false.

Definition CRC_24_FLEXRAYB_doc : Documented :=
  MkDocumented "CRC-24 FlexRay-B" 0x5D6DCB 0xABCDEF 0x000000 false false 0x1F23B8.

Definition CRC_24_FLEXRAYB : Parameters 32 24 :=
  MkParameters 0x5D6DCB 0xABCDEF 0x000000 false false.

Definition CRC_24_LTEA_doc : Documented :=
  MkDocumented "CRC-24 LTE-A" 0x864CFB 0x000000 0x000000 false false 0xCDE703.

Definition CRC_24_LTEA : Parameters 32 24 :=
  MkParameters 0x864CFB 0x000000 0x000000 false false.

Definition CRC_24_LTEB_doc : Documented :=
  MkDocumented "CRC-24 LTE-B" 0x800063 0x000000 0x000000 false false 0x23EF52.

Definition CRC_24_LTEB : Parameters 32 24 :=
  MkParameters 0x800063 0x000000 0x000000 false false.

Definition CRC_24_NRC_doc : Documented :=
  MkDocumented "CRC-24 NR-C" 0xB2B117 0x000000 0x000000 false false 0xF48279.

Definition CRC_24_NRC : Parameters 32 24 :=
  MkParameters 0xB2B117 0x000000 0x000000 false false.

Definition CRC_30_doc : Documented :=
  MkDocumented "CRC-30 CDMA" 0x2030B9C7 0x3FFFFFFF 0x00000000 false false 0x3B3CB540.

Definition CRC_30 : Parameters 32 30 :=
  MkParameters 0x2030B9C7 0x3FFFFFFF 0x00000000 false false.

Definition CRC_32_doc : Documented :=
  MkDocumented "CRC-32" 0x04C11DB7 0xFFFFFFFF 0xFFFFFFFF true true 0xCBF43926.

Definition CRC_32 : Parameters 32 32 :=
  MkParameters 0x04C11DB7 0xFFFFFFFF 0xFFFFFFFF true true.

Definition CRC_32_BZIP2_doc : Documented :=
  MkDocumented "CRC-32 BZIP2" 0x04C11DB7 0xFFFFFFFF 0xFFFFFFFF false false 0xFC891918.

Definition CRC_32_BZIP2 : Parameters 32 32 :=
  MkParameters 0x04C11DB7 0xFFFFFFFF 0xFFFFFFFF false false.

Definition CRC_32_C_doc : Documented :=
  MkDocumented "CRC-32 C" 0x1EDC6F41 0xFFFFFFFF 0xFFFFFFFF true true 0xE3069283.

Definition CRC_32_C : Parameters 32 32 :=
  MkParameters 0x1EDC6F41 0xFFFFFFFF 0xFFFFFFFF true true.

Definition CRC_32_MPEG2_doc : Documented :=
  MkDocumented "CRC-32 MPEG-2" 0x04C11DB7 0xFFFFFFFF 0x00000000 false false 0x0376E6E7.

Definition CRC_32_MPEG2 : Parameters 32 32 :=
  MkParameters 0x04C11DB7 0xFFFFFFFF 0x00000000 false false.

Definition CRC_32_POSIX_doc : Documented :=
  MkDocumented "CRC-32 POSIX" 0x04C11DB7 0x00000000 0xFFFFFFFF false false 0x765E7680.

Definition CRC_32_POSIX : Parameters 32 32 :=
  MkParameters 0x04C11DB7 0x00000000 0xFFFFFFFF false false.

Definition CRC_32_Q_doc : Documented :=
  MkDocumented "CRC-32 Q" 0x814141AB 0x00000000 0x00000000 false false 0x3010BF7F.

Definition CRC_32_Q : Parameters 32 32 :=
  MkParameters 0x814141AB 0x00000000 0x00000000 false false.

Definition CRC_40_GSM_doc : Documented :=
  MkDocumented "CRC-40 GSM" 0x0004820009 0x0000000000 0xFFFFFFFFFF false false 0xD4164FC646.

Definition CRC_40_GSM : Parameters 64 40 :=
  MkParameters 0x0004820009 0x0000000000 0xFFFFFFFFFF false false.

Definition CRC_64_doc : Documented :=
  MkDocumented "CRC-64 ECMA" 0x42F0E1EBA9EA3693 0x0000000000000000 0x0000000000000000 false false 0x6C40DF5F0B497347.

Definition CRC_64 : Parameters 64 64 :=
  MkParameters 0x42F0E1EBA9EA3693 0x0000000000000000 0x0000000000000000 false false.

(** ** The catalogue as a list *)

(** The template arguments, the parameters and the comment of a function. *)
Record Entry := MkEntry {
  entry_tw : Z;
  entry_w : Z;
  entry_parameters : Parameters entry_tw entry_w;
  entry_doc : Documented;
}.
Arguments MkEntry {_ _} _ _.

Definition catalogue : list Entry :=
  [MkEntry CRC_4_ITU CRC_4_ITU_doc;
   MkEntry CRC_5_EPC CRC_5_EPC_doc;
   MkEntry CRC_5_ITU CRC_5_ITU_doc;
   MkEntry CRC_5_USB CRC_5_USB_doc;
   MkEntry CRC_6_CDMA2000A CRC_6_CDMA2000A_doc;
   MkEntry CRC_6_CDMA2000B CRC_6_CDMA2000B_doc;
   MkEntry CRC_6_ITU CRC_6_ITU_doc;
   MkEntry CRC_6_NR CRC_6_NR_doc;
   MkEntry CRC_7 CRC_7_doc;
   MkEntry CRC_8 CRC_8_doc;
   MkEntry CRC_8_EBU CRC_8_EBU_doc;
   MkEntry CRC_8_MAXIM CRC_8_MAXIM_doc;
   MkEntry CRC_8_WCDMA CRC_8_WCDMA_doc;
   MkEntry CRC_8_LTE CRC_8_LTE_doc;
   MkEntry CRC_10 CRC_10_doc;
   MkEntry CRC_10_CDMA2000 CRC_10_CDMA2000_doc;
   MkEntry CRC_11 CRC_11_doc;
   MkEntry CRC_11_NR CRC_11_NR_doc;
   MkEntry CRC_12_CDMA2000 CRC_12_CDMA2000_doc;
   MkEntry CRC_12_DECT CRC_12_DECT_doc;
   MkEntry CRC_12_UMTS CRC_12_UMTS_doc;
   MkEntry CRC_13_BBC CRC_13_BBC_doc;
   MkEntry CRC_15 CRC_15_doc;
   MkEntry CRC_15_MPT1327 CRC_15_MPT1327_doc;
   MkEntry CRC_16_ARC CRC_16_ARC_doc;
   MkEntry CRC_16_BUYPASS CRC_16_BUYPASS_doc;
   MkEntry CRC_16_CCITTFALSE CRC_16_CCITTFALSE_doc;
   MkEntry CRC_16_MCRF4XX CRC_16_MCRF4XX_doc;
   MkEntry CRC_16_CDMA2000 CRC_16_CDMA2000_doc;
   MkEntry CRC_16_CMS CRC_16_CMS_doc;
   MkEntry CRC_16_DECTR CRC_16_DECTR_doc;
   MkEntry CRC_16_DECTX CRC_16_DECTX_doc;
   MkEntry CRC_16_DNP CRC_16_DNP_doc;
   MkEntry CRC_16_GENIBUS CRC_16_GENIBUS_doc;
   MkEntry CRC_16_KERMIT CRC_16_KERMIT_doc;
   MkEntry CRC_16_MAXIM CRC_16_MAXIM_doc;
   MkEntry CRC_16_MODBUS CRC_16_MODBUS_doc;
   MkEntry CRC_16_T10DIF CRC_16_T10DIF_doc;
   MkEntry CRC_16_USB CRC_16_USB_doc;
   MkEntry CRC_16_X25 CRC_16_X25_doc;
   MkEntry CRC_16_XMODEM CRC_16_XMODEM_doc;
   MkEntry CRC_17_CAN CRC_17_CAN_doc;
   MkEntry CRC_21_CAN CRC_21_CAN_doc;
   MkEntry CRC_24 CRC_24_doc;
   MkEntry CRC_24_FLEXRAYA CRC_24_FLEXRAYA_doc;
   MkEntry CRC_24_FLEXRAYB CRC_24_FLEXRAYB_doc;
   MkEntry CRC_24_LTEA CRC_24_LTEA_doc;
   MkEntry CRC_24_LTEB CRC_24_LTEB_doc;
   MkEntry CRC_24_NRC CRC_24_NRC_doc;
   MkEntry CRC_30 CRC_30_doc;
   MkEntry CRC_32 CRC_32_doc;
   MkEntry CRC_32_BZIP2 CRC_32_BZIP2_doc;
   MkEntry CRC_32_C CRC_32_C_doc;
   MkEntry CRC_32_MPEG2 CRC_32_MPEG2_doc;
   MkEntry CRC_32_POSIX CRC_32_POSIX_doc;
   MkEntry CRC_32_Q CRC_32_Q_doc;
   MkEntry CRC_40_GSM CRC_40_GSM_doc;
   MkEntry CRC_64 CRC_64_doc].
