(* ===== verification/CrcTheorems.v ===== *)
(** The CRC component: the table-driven computation is the bit-by-bit one, a CRC continues
    over parts, [UndoFinalize] inverts [Finalize], a corrupted byte changes the CRC, and the
    catalogue is as documented. *)
From S2P Require Import Prelude Words Crc CrcCatalog.

Definition byte_range (b : Z) : Prop := 0 <= b < 256.

(** Parameters whose values fit their declared width. *)
Definition wf_parameters {tw w} (p : Parameters tw w) : Prop :=
  0 <= polynomial p < 2 ^ w /\ 0 <= initialValue p < 2 ^ w /\ 0 <= finalXOR p < 2 ^ w.

Lemma iter_swap {A} n (f : A -> A) x : Nat.iter n f (f x) = f (Nat.iter n f x).
Proof. induction n as [|n IH]; simpl; [done|by rewrite IH]. Qed.

Lemma BIT_MASK_ones w : 1 <= w -> BIT_MASK w = Z.ones w.
Proof.
  intros Hw. unfold BIT_MASK. rewrite Z.shiftl_1_l.
  replace (2 ^ (w - 1) - 1) with (Z.ones (w - 1)) by (rewrite Z.ones_equiv; lia).
  rewrite <- Z.shiftl_1_l. bits_ext i. autorewrite with zbits.
  test (0 <=? i) is true. simpl.
  destruct (Z.lt_trichotomy i (w - 1)) as [|[->|]].
  - test (i <? w - 1) is true. rewrite orb_true_r. lia.
  - rewrite Z.sub_diag. by test (w - 1 <? w) is true.
  - rewrite (testbit_high 1) by lia. test (i <? w - 1) is false.
    by test (i <? w) is false.
Qed.

Section Facts.
Context {tw w : Z}.
Context (Hw : 1 <= w <= tw) (Htw : 8 <= tw).
Implicit Types p : Parameters tw w.
Implicit Types data : list Z.

(** ** Reflection *)

Lemma Reflect_loop_testbit n rev v i :
  Z.of_nat n <= tw -> 0 <= i < tw -> 0 <= v < 2 ^ tw -> 0 <= rev ->
  Z.testbit (Reflect_loop tw n rev v) i =
    if i <? Z.of_nat n then Z.testbit v (Z.of_nat n - 1 - i)
    else Z.testbit rev (i - Z.of_nat n).
Proof using All.
  intros Hn Hi. revert rev v i Hn Hi. induction n as [|n IH]; intros rev v i Hn Hi Hv Hrev.
  { simpl. rewrite Z.sub_0_r. by test (i <? Z.of_nat 0) is false. }
  simpl Reflect_loop. rewrite IH; [|lia|lia|apply wrap_range; lia|apply wrap_range; lia].
  destruct (Z.ltb_spec i (Z.of_nat n)).
  - test (i <? Z.of_nat (S n)) is true. autorewrite with zbits.
    replace (Z.of_nat n - 1 - i + 1) with (Z.of_nat (S n) - 1 - i) by lia.
    by test (Z.of_nat n - 1 - i <? tw) is true.
  - autorewrite with zbits. test (i - Z.of_nat n <? tw) is true. simpl.
    change 1 with (Z.ones 1) at 2. autorewrite with zbits.
    destruct (Z.ltb_spec i (Z.of_nat (S n))).
    + replace i with (Z.of_nat n) by lia. rewrite Z.sub_diag. simpl.
      replace (Z.of_nat (S n) - 1 - Z.of_nat n) with 0 by lia. by rewrite andb_true_r.
    + test (i - Z.of_nat n <? 1) is false. rewrite !andb_false_r, orb_false_r.
      f_equal. lia.
Qed.

Lemma Reflect_testbit v n i :
  0 <= n <= tw -> 0 <= i < tw -> 0 <= v < 2 ^ tw ->
  Z.testbit (Reflect tw v n) i = (i <? n) && Z.testbit v (n - 1 - i).
Proof using All.
  intros. unfold Reflect. rewrite Reflect_loop_testbit by lia. rewrite Z2Nat.id by lia.
  destruct (i <? n); [done|]. apply Z.bits_0.
Qed.

Lemma Reflect_loop_range n rev v :
  0 <= rev < 2 ^ tw -> 0 <= Reflect_loop tw n rev v < 2 ^ tw.
Proof using All.
  revert rev v. induction n as [|n IH]; intros rev v Hr; simpl; [done|].
  apply IH, wrap_range. lia.
Qed.

Lemma Reflect_range v : 0 <= v < 2 ^ tw -> 0 <= Reflect tw v w < 2 ^ w.
Proof using All.
  intros Hv. pose proof (Reflect_loop_range (Z.to_nat w) 0 v ltac:(lia)) as Hr.
  fold (Reflect tw v w) in Hr. split; [lia|]. apply high_bits_zero; [lia..|].
  intros i Hi. destruct (Z.lt_ge_cases i tw).
  - rewrite Reflect_testbit by lia. by test (i <? w) is false.
  - apply (testbit_high tw); lia.
Qed.

Lemma lt_pow_tw x : 0 <= x < 2 ^ w -> 0 <= x < 2 ^ tw.
Proof using All. intros. assert (2 ^ w <= 2 ^ tw) by (apply Z.pow_le_mono_r; lia). lia. Qed.

Lemma Reflect_eqm x y :
  0 <= x < 2 ^ tw -> 0 <= y < 2 ^ tw -> eqm w x y -> Reflect tw x w = Reflect tw y w.
Proof using All.
  intros Hx Hy H. apply (eqm_eq w); [lia|by apply Reflect_range..|].
  intros i Hi. rewrite !Reflect_testbit by lia. test (i <? w) is true. simpl.
  apply H. lia.
Qed.

Lemma Reflect_involutive x : 0 <= x < 2 ^ w -> Reflect tw (Reflect tw x w) w = x.
Proof using All.
  intros Hx. pose proof (lt_pow_tw _ Hx).
  pose proof (Reflect_range x ltac:(done)). pose proof (lt_pow_tw (Reflect tw x w) ltac:(done)).
  apply (eqm_eq w); [lia|by apply Reflect_range|done|].
  intros i Hi. rewrite !Reflect_testbit by lia.
  test (i <? w) is true. test (w - 1 - i <? w) is true. simpl.
  f_equal. lia.
Qed.

(** ** Finalize *)

Lemma Finalize_eqm x y f r :
  0 <= x < 2 ^ tw -> 0 <= y < 2 ^ tw -> eqm w x y ->
  Finalize (tw:=tw) (w:=w) x f r = Finalize (tw:=tw) (w:=w) y f r.
Proof using All.
  intros Hx Hy H. unfold Finalize. rewrite BIT_MASK_ones by lia.
  assert (eqm w (if r then Reflect tw x w else x) (if r then Reflect tw y w else y)) as H'.
  { destruct r; [|done]. by rewrite (Reflect_eqm x y). }
  bits_ext i. autorewrite with zbits. test (0 <=? i) is true. simpl.
  destruct (Z.ltb_spec i w); [|by rewrite !andb_false_r].
  by rewrite H' by lia.
Qed.

Lemma Finalize_range x f r : 0 <= Finalize (tw:=tw) (w:=w) x f r < 2 ^ w.
Proof using All.
  unfold Finalize. rewrite BIT_MASK_ones, Z.land_ones by lia. apply Z.mod_pos_bound. lia.
Qed.

Lemma UndoFinalize_Finalize_lemma x f r :
  0 <= x < 2 ^ w -> 0 <= f < 2 ^ w ->
  UndoFinalize (tw:=tw) (w:=w) (Finalize (tw:=tw) (w:=w) x f r) f r = x.
Proof using All.
  intros Hx Hf. unfold UndoFinalize, Finalize. rewrite BIT_MASK_ones, !Z.land_ones by lia.
  rewrite Z.mod_mod by lia.
  assert (0 <= (if r then Reflect tw x w else x) < 2 ^ w).
  { destruct r; [|done]. apply Reflect_range, lt_pow_tw, Hx. }
  rewrite (Z.mod_small (Z.lxor _ _)) by (apply lxor_range; [lia|done|done]).
  rewrite Z.lxor_assoc, Z.lxor_nilpotent, Z.lxor_0_r.
  destruct r; [|done]. by apply Reflect_involutive.
Qed.

Lemma Finalize_UndoFinalize_lemma x f r :
  0 <= x < 2 ^ w -> 0 <= f < 2 ^ w ->
  Finalize (tw:=tw) (w:=w) (UndoFinalize (tw:=tw) (w:=w) x f r) f r = x.
Proof using All.
  intros Hx Hf. unfold UndoFinalize, Finalize. rewrite BIT_MASK_ones, !Z.land_ones by lia.
  rewrite (Z.mod_small x) by done.
  assert (0 <= Z.lxor x f < 2 ^ w) by (apply lxor_range; [lia|done|done]).
  assert ((if r then Reflect tw (if r then Reflect tw (Z.lxor x f) w else Z.lxor x f) w
           else if r then Reflect tw (Z.lxor x f) w else Z.lxor x f) = Z.lxor x f) as ->.
  { destruct r; [|done]. by apply Reflect_involutive. }
  rewrite Z.lxor_assoc, Z.lxor_nilpotent, Z.lxor_0_r. by apply Z.mod_small.
Qed.

Lemma UndoFinalize_range x f r :
  0 <= x -> 0 <= f < 2 ^ w -> 0 <= UndoFinalize (tw:=tw) (w:=w) x f r < 2 ^ w.
Proof using All.
  intros Hx Hf. unfold UndoFinalize. rewrite BIT_MASK_ones, Z.land_ones by lia.
  assert (0 <= Z.lxor (x mod 2 ^ w) f < 2 ^ w).
  { apply lxor_range; [lia| |done]. apply Z.mod_pos_bound. lia. }
  destruct r; [|done]. by apply Reflect_range, lt_pow_tw.
Qed.

(** ** One bit *)

Lemma step_high_testbit top q r i :
  0 <= top -> 0 <= i < tw ->
  Z.testbit (step_high (tw:=tw) top q r) i =
    xorb (Z.testbit r (i - 1)) (Z.testbit r top && Z.testbit q i).
Proof using All.
  intros Ht Hi. unfold step_high. rewrite land_pow2_testbit by lia.
  autorewrite with zbits. test (i <? tw) is true. cbn [andb].
  destruct (Z.testbit r top); cbn [negb andb]; autorewrite with zbits; [done|].
  by rewrite xorb_false_r.
Qed.

Lemma step_reflected_testbit q r i :
  0 <= i < tw ->
  Z.testbit (step_reflected (tw:=tw) q r) i =
    xorb (Z.testbit r (i + 1)) (Z.testbit r 0 && Z.testbit q i).
Proof using All.
  intros Hi. unfold step_reflected. rewrite land_1_testbit.
  autorewrite with zbits. test (i <? tw) is true. cbn [andb].
  destruct (Z.testbit r 0); cbn [negb andb]; autorewrite with zbits; [done|].
  by rewrite xorb_false_r.
Qed.

Lemma step_high_range top q r : 0 <= step_high (tw:=tw) top q r < 2 ^ tw.
Proof using All. apply wrap_range. lia. Qed.

Lemma step_reflected_range q r : 0 <= step_reflected (tw:=tw) q r < 2 ^ tw.
Proof using All. apply wrap_range. lia. Qed.

Lemma iter_range n f r :
  (forall r, 0 <= f r < 2 ^ tw) -> 0 <= r < 2 ^ tw -> 0 <= Nat.iter n f r < 2 ^ tw.
Proof using All. intros Hf Hr. destruct n; simpl; [done|apply Hf]. Qed.

(** ** Eight bits of a non-reflected CRC of width [m] *)

Section High.
Context (m q : Z) (Hm : 8 <= m <= tw).
#[local] Abbreviation step := (step_high (tw:=tw) (m - 1) q).

#[local] Instance step_high_eqm : Proper (eqm m ==> eqm m) step.
Proof using All.
  intros x y H i Hi. rewrite !step_high_testbit by lia. rewrite (H (m - 1)) by lia.
  f_equal. destruct (Z.eq_dec i 0) as [->|]; [done|]. apply H. lia.
Qed.

#[local] Instance iter_high_eqm n : Proper (eqm m ==> eqm m) (Nat.iter n step).
Proof using All. intros x y H. induction n as [|n IH]; simpl; [done|]. by rewrite IH. Qed.

Lemma step_high_lxor x y : eqm m (step (Z.lxor x y)) (Z.lxor (step x) (step y)).
Proof using All.
  intros i Hi. rewrite Z.lxor_spec, !step_high_testbit, !Z.lxor_spec by lia.
  destruct (Z.testbit x _), (Z.testbit y _), (Z.testbit x (m - 1)),
    (Z.testbit y (m - 1)), (Z.testbit q i); done.
Qed.

Lemma iter_high_lxor n x y :
  eqm m (Nat.iter n step (Z.lxor x y)) (Z.lxor (Nat.iter n step x) (Nat.iter n step y)).
Proof using All.
  induction n as [|n IH]; simpl; [done|]. by rewrite IH, step_high_lxor.
Qed.

(** The bits below the topmost [n] are only shifted. *)
Lemma iter_high_shift n x :
  Z.of_nat n <= m -> 0 <= x < 2 ^ (m - Z.of_nat n) ->
  eqm m (Nat.iter n step x) (Z.shiftl x (Z.of_nat n)).
Proof using All.
  intros Hn Hx. induction n as [|n IH]; simpl.
  { by rewrite Z.shiftl_0_r. }
  assert (0 <= x < 2 ^ (m - Z.of_nat n)).
  { assert (2 ^ (m - Z.of_nat (S n)) <= 2 ^ (m - Z.of_nat n)) by (apply Z.pow_le_mono_r; lia). lia. }
  rewrite IH by lia. intros i Hi. rewrite step_high_testbit by lia.
  autorewrite with zbits.
  rewrite (testbit_high (m - Z.of_nat (S n)) x (m - 1 - Z.of_nat n)) by lia. simpl.
  rewrite xorb_false_r. f_equal. lia.
Qed.

(** A byte leaves at the top, and the entry of that byte enters. *)
Lemma iter_high_byte x :
  eqm m (Nat.iter 8 step x)
    (Z.lxor (Z.shiftl x 8)
       (Nat.iter 8 step (Z.shiftl (wrap 8 (Z.shiftr x (m - 8))) (m - 8)))).
Proof using All.
  assert (eqm m x (Z.lxor (wrap (m - 8) x)
                     (Z.shiftl (wrap 8 (Z.shiftr x (m - 8))) (m - 8)))) as Hx.
  { intros i Hi. autorewrite with zbits.
    destruct (Z.lt_ge_cases i (m - 8)).
    - test (i <? m - 8) is true. rewrite (testbit_neg _ (i - (m - 8))) by lia.
      by rewrite andb_false_r, xorb_false_r.
    - test (i <? m - 8) is false. test (i - (m - 8) <? 8) is true.
      autorewrite with zbits. simpl. f_equal. lia. }
  rewrite Hx at 1. rewrite iter_high_lxor.
  apply eqm_lxor; [|done].
  rewrite (iter_high_shift 8); [|lia|apply wrap_range; lia].
  intros i Hi. autorewrite with zbits. by test (i - Z.of_nat 8 <? m - 8) is true.
Qed.

(** The low bits that the polynomial does not reach stay clear. *)
Lemma iter_high_low_zero k n x :
  0 <= k -> eqm k q 0 ->
  forall i, 0 <= i < k -> i < Z.of_nat n -> i < tw -> Z.testbit (Nat.iter n step x) i = false.
Proof using All.
  intros Hk Hq. induction n as [|n IH]; simpl; intros i Hi Hin Hitw; [lia|].
  rewrite step_high_testbit, (Hq i), Z.bits_0, andb_false_r, xorb_false_r by lia.
  destruct (Z.eq_dec i 0) as [->|]; [done|]. apply IH; lia.
Qed.

(** With an odd polynomial a step loses nothing. *)
Lemma step_high_inj x y :
  Z.testbit q 0 = true -> eqm m (step x) (step y) -> eqm m x y.
Proof using All.
  intros Hq H. assert (Z.testbit x (m - 1) = Z.testbit y (m - 1)) as Htop.
  { specialize (H 0 ltac:(lia)). rewrite !step_high_testbit, Hq, !andb_true_r in H by lia.
    rewrite !testbit_neg in H by lia. by rewrite !xorb_false_l in H. }
  intros i Hi. destruct (Z.eq_dec i (m - 1)) as [->|]; [done|].
  specialize (H (i + 1) ltac:(lia)). rewrite !step_high_testbit, Htop in H by lia.
  replace (i + 1 - 1) with i in H by lia.
  by destruct (Z.testbit x i), (Z.testbit y i), (Z.testbit y (m - 1)), (Z.testbit q (i + 1)).
Qed.

Lemma iter_high_inj n x y :
  Z.testbit q 0 = true -> eqm m (Nat.iter n step x) (Nat.iter n step y) -> eqm m x y.
Proof using All.
  intros Hq. induction n as [|n IH]; simpl; [done|]. intros H. by apply IH, step_high_inj.
Qed.
End High.

Lemma step_high_poly_eqm m q q' x :
  8 <= m <= tw -> eqm m q q' ->
  eqm m (step_high (tw:=tw) (m - 1) q x) (step_high (tw:=tw) (m - 1) q' x).
Proof using All.
  intros Hm Hq i Hi. rewrite !step_high_testbit by lia. by rewrite (Hq i) by done.
Qed.

(** ** Eight bits of a reflected CRC *)

Section Reflected.
Context (q : Z) (Hq : 0 <= q < 2 ^ w).
#[local] Abbreviation step := (step_reflected (tw:=tw) q).

Lemma step_reflected_lxor x y :
  step (Z.lxor x y) = Z.lxor (step x) (step y).
Proof using All.
  apply (eqm_eq tw); [lia|apply step_reflected_range| |].
  { apply lxor_range; [lia|apply step_reflected_range..]. }
  intros i Hi. rewrite Z.lxor_spec, !step_reflected_testbit, !Z.lxor_spec by lia.
  destruct (Z.testbit x (i + 1)), (Z.testbit y (i + 1)), (Z.testbit x 0),
    (Z.testbit y 0), (Z.testbit q i); done.
Qed.

Lemma iter_reflected_lxor n x y :
  Nat.iter n step (Z.lxor x y) = Z.lxor (Nat.iter n step x) (Nat.iter n step y).
Proof using All.
  induction n as [|n IH]; simpl; [done|]. by rewrite IH, step_reflected_lxor.
Qed.

Lemma step_reflected_even x :
  0 <= x < 2 ^ tw -> Z.testbit x 0 = false -> step x = Z.shiftr x 1.
Proof using All.
  intros Hx H0. apply (eqm_eq tw); [lia|apply step_reflected_range| |].
  { apply shiftr_range; lia. }
  intros i Hi. rewrite step_reflected_testbit, H0 by lia. autorewrite with zbits.
  by rewrite xorb_false_r.
Qed.

Lemma iter_reflected_shift n x :
  0 <= x < 2 ^ tw -> eqm (Z.of_nat n) x 0 -> Nat.iter n step x = Z.shiftr x (Z.of_nat n).
Proof using All.
  intros Hx. induction n as [|n IH]; intros H0.
  { simpl. by rewrite Z.shiftr_0_r. }
  rewrite Nat.iter_succ, IH; [|by eapply eqm_le; [|done]; lia].
  rewrite step_reflected_even; [|apply shiftr_range; lia|].
  - rewrite Z.shiftr_shiftr by lia. f_equal. lia.
  - autorewrite with zbits. rewrite H0 by lia. apply Z.bits_0.
Qed.

Lemma iter_reflected_byte x :
  0 <= x < 2 ^ tw ->
  Nat.iter 8 step x = Z.lxor (Z.shiftr x 8) (Nat.iter 8 step (u8 x)).
Proof using All.
  intros Hx. assert (x = Z.lxor (Z.shiftl (Z.shiftr x 8) 8) (u8 x)) as Hd.
  { bits_ext i. autorewrite with zbits. destruct (Z.ltb_spec i 8).
    - rewrite (testbit_neg (Z.shiftr x 8)) by lia. by destruct (Z.testbit x i).
    - autorewrite with zbits. simpl. rewrite xorb_false_r. f_equal. lia. }
  assert (0 <= Z.shiftl (Z.shiftr x 8) 8 < 2 ^ tw) as Hr.
  { rewrite Z.shiftl_mul_pow2, Z.shiftr_div_pow2 by lia.
    pose proof (Z.mul_div_le x (2 ^ 8)). split; [|lia].
    assert (0 <= x / 2 ^ 8) by (apply Z.div_pos; lia). lia. }
  rewrite Hd at 1. rewrite iter_reflected_lxor. f_equal.
  rewrite (iter_reflected_shift 8) by
    (done || (intros i Hi; autorewrite with zbits; rewrite testbit_neg by lia; done)).
  bits_ext i. autorewrite with zbits. f_equal. lia.
Qed.

(** After [n] steps only the top part of a byte is still above the width. *)
Lemma iter_reflected_high_zero n x i :
  0 <= x < 2 ^ Z.max w 8 -> w <= i < tw -> 8 - Z.of_nat n <= i ->
  Z.testbit (Nat.iter n step x) i = false.
Proof using All.
  intros Hx. revert i. induction n as [|n IH]; intros i Hi Hin; simpl.
  - apply (testbit_high (Z.max w 8)); lia.
  - rewrite step_reflected_testbit, (testbit_high w q), andb_false_r, xorb_false_r by lia.
    destruct (Z.eq_dec (i + 1) tw) as [->|]; [|apply IH; lia].
    apply (testbit_high tw); [|lia].
    apply iter_range; [apply step_reflected_range|].
    assert (2 ^ Z.max w 8 <= 2 ^ tw) by (apply Z.pow_le_mono_r; lia). lia.
Qed.

Lemma iter_reflected_range x :
  0 <= x < 2 ^ Z.max w 8 -> 0 <= Nat.iter 8 step x < 2 ^ w.
Proof using All.
  intros Hx. assert (2 ^ Z.max w 8 <= 2 ^ tw) by (apply Z.pow_le_mono_r; lia).
  pose proof (iter_range 8 step x (step_reflected_range q) ltac:(lia)) as Hr.
  split; [lia|]. apply high_bits_zero; [lia..|]. intros i Hi.
  destruct (Z.lt_ge_cases i tw); [|by apply (testbit_high tw); lia].
  apply iter_reflected_high_zero; lia.
Qed.

Lemma step_reflected_inj x y :
  Z.testbit q (w - 1) = true -> 0 <= x < 2 ^ w -> 0 <= y < 2 ^ w ->
  step x = step y -> x = y.
Proof using All.
  intros Htop Hx Hy H. assert (Z.testbit x 0 = Z.testbit y 0) as H0.
  { assert (Z.testbit (step x) (w - 1) = Z.testbit (step y) (w - 1)) as Hb by by rewrite H.
    rewrite !step_reflected_testbit, Htop, !andb_true_r in Hb by lia.
    rewrite (testbit_high w x), (testbit_high w y) in Hb by lia.
    by rewrite !xorb_false_l in Hb. }
  apply (eqm_eq w); [lia|done..|]. intros i Hi.
  destruct (Z.eq_dec i 0) as [->|]; [done|].
  assert (Z.testbit (step x) (i - 1) = Z.testbit (step y) (i - 1)) as Hb by by rewrite H.
  rewrite !step_reflected_testbit, H0 in Hb by lia. replace (i - 1 + 1) with i in Hb by lia.
  by destruct (Z.testbit x i), (Z.testbit y i), (Z.testbit y 0), (Z.testbit q (i - 1)).
Qed.

Lemma step_reflected_range_w x : 8 <= w -> 0 <= x < 2 ^ w -> 0 <= step x < 2 ^ w.
Proof using All.
  intros H8 Hx. pose proof (step_reflected_range q x). split; [lia|].
  apply high_bits_zero; [lia..|]. intros i Hi.
  destruct (Z.lt_ge_cases i tw); [|by apply (testbit_high tw); lia].
  rewrite step_reflected_testbit, (testbit_high w x), (testbit_high w q) by lia.
  by rewrite andb_false_r.
Qed.

Lemma iter_reflected_inj n x y :
  8 <= w -> Z.testbit q (w - 1) = true -> 0 <= x < 2 ^ w -> 0 <= y < 2 ^ w ->
  Nat.iter n step x = Nat.iter n step y -> x = y.
Proof using All.
  intros H8 Htop. revert x y. induction n as [|n IH]; intros x y Hx Hy; [done|].
  rewrite !Nat.iter_succ_r. intros H.
  apply step_reflected_inj; [done..|].
  apply IH; [by apply step_reflected_range_w..|done].
Qed.
End Reflected.

(** ** The lookup table *)

Lemma InitTable_loop_spec p n byte tbl :
  0 <= byte -> byte + Z.of_nat n = 256 -> (0 < n)%nat -> length tbl = 256%nat ->
  exists res, InitTable_loop n p byte tbl = Some res /\ length res = 256%nat /\
    forall i : nat, (i < 256)%nat ->
      res !! i = if decide (byte <= Z.of_nat i) then Some (InitTable_entry p (Z.of_nat i))
                 else tbl !! i.
Proof using All.
  revert byte tbl. induction n as [|n IH]; intros byte tbl Hb Hn Hpos Hlen; [lia|].
  simpl. set (tbl' := <[_ := _]> tbl).
  assert (length tbl' = 256%nat) as Hlen' by (unfold tbl'; by rewrite length_insert).
  assert (forall i : nat, (i < 256)%nat ->
    tbl' !! i = if decide (byte = Z.of_nat i) then Some (InitTable_entry p (Z.of_nat i))
                else tbl !! i) as Hget.
  { intros i Hi. unfold tbl'. case_decide as E.
    - rewrite E, Nat2Z.id. apply list_lookup_insert_eq. lia.
    - apply list_lookup_insert_ne. lia. }
  destruct (Z.eq_dec (byte + 1) 256) as [E|E].
  - rewrite E. simpl. eexists; split_and!; [done..|]. intros i Hi. rewrite Hget by done.
    repeat case_decide; done || lia.
  - rewrite (wrap_small 8) by lia. test (byte + 1 =? 0) is false.
    destruct (IH (byte + 1) tbl') as (res & Hres & Hl & Hi); [lia..|].
    exists res; split_and!; [done..|]. intros i Hi'. rewrite Hi, Hget by done.
    repeat case_decide; done || lia.
Qed.

Lemma InitTable_spec p :
  exists tbl, InitTable p = Some tbl /\ length tbl = 256%nat /\
    forall i : nat, (i < 256)%nat -> tbl !! i = Some (InitTable_entry p (Z.of_nat i)).
Proof using All.
  destruct (InitTable_loop_spec p 256 0 (replicate (Z.to_nat (Z.shiftl 1 CHAR_BIT)) 0))
    as (res & Hr & Hl & Hi); [lia..|by rewrite length_replicate|].
  exists res. split_and!; [done..|]. intros i Hi'. rewrite Hi by done. by case_decide; [|lia].
Qed.

Lemma table_get_MakeTable p i :
  0 <= i < 256 -> table_get (MakeTable p) i = InitTable_entry p i.
Proof using All.
  intros Hi. destruct (InitTable_spec p) as (tbl & Ht & Hl & Hg).
  unfold table_get, MakeTable. cbn [table]. rewrite Ht. cbn [default from_option].
  rewrite nth_lookup, Hg by lia. by rewrite Z2Nat.id by lia.
Qed.

Lemma u8_range x : 0 <= u8 x < 256.
Proof using. pose proof (wrap_range 8 x). lia. Qed.

(** ** Byte by byte *)

Lemma reflected_byte_table p r b :
  reflectInput p = true -> 0 <= polynomial p < 2 ^ tw -> 0 <= r < 2 ^ tw -> byte_range b ->
  Nat.iter 8 (step_reflected (tw:=tw) (Reflect tw (polynomial p) w)) (wrap tw (Z.lxor r b)) =
  wrap tw (Z.lxor (Z.shiftr r CHAR_BIT) (table_get (MakeTable p) (u8 (Z.lxor r b)))).
Proof using All.
  intros Hrefl Hp Hr Hb. pose proof (Reflect_range _ Hp) as Hq.
  assert (256 <= 2 ^ tw) by (change 256 with (2 ^ 8); apply Z.pow_le_mono_r; lia).
  assert (0 <= Z.lxor r b < 2 ^ tw) as Hx.
  { apply lxor_range; [lia|done|]. unfold byte_range in Hb. lia. }
  rewrite (wrap_small tw) by done. rewrite iter_reflected_byte by done.
  rewrite table_get_MakeTable by apply u8_range. unfold InitTable_entry, CalculateRemainder.
  rewrite Hrefl. cbn [foldl negb andb]. rewrite Z.lxor_0_l, BIT_MASK_ones by lia.
  pose proof (u8_range (Z.lxor r b)).
  rewrite (wrap_small tw (u8 _)) by lia.
  assert (256 <= 2 ^ Z.max w 8) by (change 256 with (2 ^ 8); apply Z.pow_le_mono_r; lia).
  pose proof (iter_reflected_range (Reflect tw (polynomial p) w) Hq (u8 (Z.lxor r b)) ltac:(lia)) as HS.
  rewrite Z.land_ones, Z.mod_small by (done || lia).
  assert (Z.shiftr (Z.lxor r b) 8 = Z.shiftr r 8) as ->.
  { bits_ext i. autorewrite with zbits. rewrite (testbit_high 8 b); [|done|lia].
    by rewrite xorb_false_r. }
  symmetry. apply wrap_small, lxor_range; [lia|apply shiftr_range; lia|].
  apply lt_pow_tw. done.
Qed.

Lemma normal_byte_table p r r' b :
  8 <= w -> reflectInput p = false -> eqm w r r' ->
  eqm w
    (Nat.iter 8 (step_high (tw:=tw) (w - 1) (polynomial p))
       (wrap tw (Z.lxor r (Z.shiftl (wrap tw b) (w - CHAR_BIT)))))
    (wrap tw (Z.lxor (Z.shiftl r' CHAR_BIT)
       (table_get (MakeTable p) (u8 (Z.lxor (Z.shiftr r' (w - CHAR_BIT)) b))))).
Proof using All.
  intros H8 Hrefl Hr. rewrite (eqm_wrap w tw (Z.lxor (Z.shiftl r' _) _)) by lia.
  rewrite iter_high_byte by lia. unfold CHAR_BIT.
  apply eqm_lxor.
  - intros i Hi. autorewrite with zbits.
    destruct (Z.lt_ge_cases i 8).
    { rewrite !(testbit_neg _ (i - 8)), (testbit_neg b) by lia. by rewrite !andb_false_r. }
    test (i - 8 <? tw) is true. rewrite <- Hr, (testbit_neg _ (i - 8 - (w - 8))) by lia.
    by rewrite andb_false_r, xorb_false_r.
  - rewrite table_get_MakeTable by apply u8_range. unfold InitTable_entry, CalculateRemainder.
    rewrite Hrefl. unfold CHAR_BIT. test (8 <=? w) is true. test (w <? 8) is false.
    cbn [foldl negb andb]. rewrite Z.lxor_0_l, BIT_MASK_ones by lia.
    assert (u8 (Z.shiftr (wrap tw (Z.lxor r (Z.shiftl (wrap tw b) (w - 8)))) (w - 8))
            = u8 (Z.lxor (Z.shiftr r' (w - 8)) b)) as ->.
    { bits_ext i. autorewrite with zbits. destruct (Z.ltb_spec i 8); [|done].
      autorewrite with zbits. test (i + (w - 8) <? tw) is true.
      test (i + (w - 8) - (w - 8) <? tw) is true. rewrite Hr by lia. cbn [andb].
      do 2 f_equal. lia. }
    set (k := u8 _). intros i Hi. autorewrite with zbits.
    test (i <? w) is true. test (0 <=? i) is true. rewrite andb_true_r.
    apply (iter_high_eqm w (polynomial p) ltac:(lia) 8); [|done].
    intros j Hj. autorewrite with zbits. test (j <? tw) is true. test (j - (w - 8) <? tw) is true.
    done.
Qed.

Lemma narrow_byte_table p x y b :
  w < 8 -> reflectInput p = false -> eqm 8 x y ->
  eqm 8
    (Nat.iter 8 (step_high (tw:=tw) (CHAR_BIT - 1)
        (wrap tw (Z.shiftl (polynomial p) (CHAR_BIT - w)))) (wrap tw (Z.lxor x b)))
    (table_get (MakeTable p) (u8 (Z.lxor y b))).
Proof using All.
  intros H8 Hrefl Hxy. rewrite table_get_MakeTable by apply u8_range.
  unfold InitTable_entry, CalculateRemainder, CHAR_BIT.
  rewrite Hrefl. test (8 <=? w) is false. test (w <? 8) is true. test (w <=? 8) is true.
  cbn [foldl negb andb]. rewrite Z.shiftl_0_l, wrap_0, Z.lxor_0_l, BIT_MASK_ones by lia.
  set (q := wrap tw (Z.shiftl (polynomial p) (8 - w))).
  set (S8 := Nat.iter 8 (step_high (tw:=tw) (8 - 1) q)).
  assert (eqm 8 (S8 (wrap tw (Z.lxor x b))) (S8 (wrap tw (u8 (Z.lxor y b))))) as ->.
  { apply (iter_high_eqm 8 q ltac:(lia) 8). intros i Hi. autorewrite with zbits.
    test (i <? 8) is true. by rewrite Hxy by lia. }
  set (k := wrap tw (u8 _)). intros i Hi. autorewrite with zbits.
  test (i <? tw) is true.
  destruct (Z.lt_ge_cases i (8 - w)).
  - rewrite (testbit_neg _ (i - (8 - w))) by lia. rewrite andb_false_r.
    apply (iter_high_low_zero 8 q ltac:(lia) (8 - w)); [lia| |lia..].
    intros j Hj. unfold q. autorewrite with zbits. rewrite testbit_neg by lia.
    by rewrite andb_false_r.
  - autorewrite with zbits. test (i - (8 - w) <? w) is true. test (0 <=? i - (8 - w)) is true.
    test (i - (8 - w) <? tw) is true. cbn [andb]. rewrite andb_true_r. f_equal. lia.
Qed.

(** Agreement of two running remainders: equal when the input is reflected,
    equal on the bits of the CRC otherwise. *)
Definition agree p (x y : Z) : Prop := if reflectInput p then x = y else eqm w x y.

Lemma agree_eqm p x y : agree p x y -> eqm w x y.
Proof using. unfold agree. destruct (reflectInput p); [by intros ->|done]. Qed.

Lemma CalculateRemainder_table_agree p data r :
  0 <= polynomial p < 2 ^ tw -> 0 <= r < 2 ^ tw -> Forall byte_range data ->
  agree p (CalculateRemainder data p r) (CalculateRemainder_table data (MakeTable p) r).
Proof using All.
  intros Hp Hr Hdata. unfold agree, CalculateRemainder, CalculateRemainder_table.
  change (parameters (MakeTable p)) with p.
  destruct (reflectInput p) eqn:Hrefl; [|destruct (Z.leb_spec CHAR_BIT w)].
  - revert r Hr. induction Hdata as [|b data Hb Hdata IH]; intros r Hr; cbn [foldl]; [done|].
    rewrite <- reflected_byte_table by done. apply IH.
    apply iter_range; [apply step_reflected_range|apply wrap_range; lia].
  - unfold CHAR_BIT in *. assert (eqm w r r) as Hrr by done.
    revert Hrr. generalize r at 1 3. generalize r. clear r Hr.
    induction Hdata as [|b data Hb Hdata IH]; intros r r' Hrr; cbn [foldl]; [done|].
    apply IH. by apply normal_byte_table.
  - unfold CHAR_BIT in *. test (w <=? 8) is true.
    set (x := wrap tw (Z.shiftl r (8 - w))). assert (eqm 8 x x) as Hxx by done.
    assert (forall x y, eqm 8 x y -> eqm w (wrap tw (Z.shiftr x (8 - w))) (wrap tw (Z.shiftr y (8 - w))))
      as Hout.
    { intros u v Huv i Hi. autorewrite with zbits. by rewrite Huv by lia. }
    apply Hout. revert Hxx. generalize x at 1 3. generalize x.
    clear x r Hr Hout. induction Hdata as [|b data Hb Hdata IH]; intros x y Hxy; cbn [foldl]; [done|].
    apply IH. by apply narrow_byte_table.
Qed.

(** ** Whole messages *)

Lemma foldl_range (f : Z -> Z -> Z) data r :
  (forall r b, 0 <= f r b < 2 ^ tw) -> 0 <= r < 2 ^ tw -> 0 <= foldl f r data < 2 ^ tw.
Proof using All. intros Hf. revert r. induction data as [|b data IH]; intros r Hr; [done|]. by apply IH. Qed.

Lemma CalculateRemainder_range data p r :
  0 <= r < 2 ^ tw -> 0 <= CalculateRemainder data p r < 2 ^ tw.
Proof using All.
  intros Hr. unfold CalculateRemainder.
  destruct (reflectInput p); [|destruct (CHAR_BIT <=? w)].
  - apply foldl_range; [|done]. intros x b.
    apply iter_range; [apply step_reflected_range|apply wrap_range; lia].
  - apply foldl_range; [|done]. intros x b.
    apply iter_range; [apply step_high_range|apply wrap_range; lia].
  - apply wrap_range; lia.
Qed.

Lemma InitTable_entry_range p b : 0 <= InitTable_entry p b < 2 ^ tw.
Proof using All.
  unfold InitTable_entry. destruct (negb (reflectInput p) && (w <? CHAR_BIT)).
  - apply wrap_range; lia.
  - rewrite BIT_MASK_ones, Z.land_ones by lia. apply lt_pow_tw, Z.mod_pos_bound. lia.
Qed.

Lemma CalculateRemainder_table_range data p r :
  0 <= r < 2 ^ tw -> 0 <= CalculateRemainder_table data (MakeTable p) r < 2 ^ tw.
Proof using All.
  intros Hr. unfold CalculateRemainder_table. change (parameters (MakeTable p)) with p.
  destruct (reflectInput p); [|destruct (CHAR_BIT <=? w); [|apply wrap_range; lia]];
    (apply foldl_range; [|done]; intros x b; apply wrap_range; lia).
Qed.

Lemma CalculateRemainderBits_range b n p r :
  0 <= CalculateRemainderBits (tw:=tw) b n p r < 2 ^ tw.
Proof using All.
  unfold CalculateRemainderBits.
  destruct (reflectInput p); [|destruct (CHAR_BIT <=? w)]; [| |apply wrap_range; lia];
    (apply iter_range; [intros; apply wrap_range; lia|apply wrap_range; lia]).
Qed.

Lemma CalculateRemainderBits_agree b n p r r' :
  agree p r r' -> agree p (CalculateRemainderBits b n p r) (CalculateRemainderBits b n p r').
Proof using All.
  unfold agree, CalculateRemainderBits. destruct (reflectInput p); [by intros ->|]. intros Hr.
  destruct (Z.leb_spec CHAR_BIT w); unfold CHAR_BIT in *.
  - apply iter_high_eqm; [lia|]. intros i Hi. autorewrite with zbits. by rewrite Hr by lia.
  - test (w <=? 8) is true. intros i Hi. autorewrite with zbits. test (i <? tw) is true.
    apply (iter_high_eqm 8); [lia| |lia]. intros j Hj. autorewrite with zbits. do 2 f_equal.
    destruct (Z.lt_ge_cases (j - (8 - w)) 0); [by rewrite !testbit_neg|]. apply Hr. lia.
Qed.

Lemma remaining_bits_agree data size p r r' :
  agree p r r' -> agree p (remaining_bits data size p r) (remaining_bits data size p r').
Proof using All.
  intros Hr. unfold remaining_bits. destruct (negb _); [|done]. by apply CalculateRemainderBits_agree.
Qed.

Lemma remaining_bits_range data size p r :
  0 <= r < 2 ^ tw -> 0 <= remaining_bits data size p r < 2 ^ tw.
Proof using All.
  intros Hr. unfold remaining_bits. destruct (negb _); [apply CalculateRemainderBits_range|done].
Qed.

Lemma Finalize_agree p x y f r :
  0 <= x < 2 ^ tw -> 0 <= y < 2 ^ tw -> agree p x y ->
  Finalize (tw:=tw) (w:=w) x f r = Finalize (tw:=tw) (w:=w) y f r.
Proof using All. intros Hx Hy H. apply Finalize_eqm; [done..|]. by apply (agree_eqm p). Qed.

(** The remainder of a non-reflected CRC depends on the bits of the CRC only. *)
Lemma CalculateRemainder_eqm data p r r' :
  reflectInput p = false -> eqm w r r' ->
  eqm w (CalculateRemainder data p r) (CalculateRemainder data p r').
Proof using All.
  intros Hrefl Hr. unfold CalculateRemainder. rewrite Hrefl.
  destruct (Z.leb_spec CHAR_BIT w) as [H8|H8]; unfold CHAR_BIT in *.
  - revert r r' Hr. induction data as [|b data IH]; intros r r' Hr; cbn [foldl]; [done|].
    apply IH, iter_high_eqm; [lia|]. intros i Hi. autorewrite with zbits. by rewrite Hr by lia.
  - test (w <=? 8) is true.
    assert (eqm 8 (wrap tw (Z.shiftl r (8 - w))) (wrap tw (Z.shiftl r' (8 - w)))) as H.
    { intros i Hi. autorewrite with zbits. f_equal.
      destruct (Z.lt_ge_cases (i - (8 - w)) 0); [by rewrite !testbit_neg|]. apply Hr. lia. }
    revert H. generalize (wrap tw (Z.shiftl r (8 - w))), (wrap tw (Z.shiftl r' (8 - w))).
    clear r r' Hr.
    induction data as [|b data IH]; intros r r' Hr; cbn [foldl].
    + intros i Hi. autorewrite with zbits. by rewrite Hr by lia.
    + apply IH, iter_high_eqm; [lia|]. intros i Hi. autorewrite with zbits. by rewrite Hr by lia.
Qed.

(** The remainder of a reflected CRC fits the width. *)
Lemma CalculateRemainder_reflected_range data p r :
  reflectInput p = true -> 0 <= polynomial p < 2 ^ tw -> 0 <= r < 2 ^ w ->
  Forall byte_range data -> 0 <= CalculateRemainder data p r < 2 ^ w.
Proof using All.
  intros Hrefl Hp Hr Hdata. unfold CalculateRemainder. rewrite Hrefl.
  pose proof (Reflect_range _ Hp) as Hq.
  revert r Hr. induction Hdata as [|b data Hb _ IH]; intros r Hr; cbn [foldl]; [done|].
  apply IH. apply iter_reflected_range; [done|].
  assert (2 ^ w <= 2 ^ Z.max w 8) by (apply Z.pow_le_mono_r; lia).
  assert (2 ^ 8 <= 2 ^ Z.max w 8) by (apply Z.pow_le_mono_r; lia).
  assert (2 ^ Z.max w 8 <= 2 ^ tw) by (apply Z.pow_le_mono_r; lia).
  assert (0 <= Z.lxor r b < 2 ^ Z.max w 8) by (apply lxor_range; unfold byte_range in Hb; lia).
  rewrite wrap_small; lia.
Qed.

(** The low bits of the shifted remainder of a CRC below a byte are clear. *)
Lemma narrow_low_zero data q x :
  w < 8 -> eqm (8 - w) q 0 -> eqm (8 - w) x 0 ->
  eqm (8 - w)
    (foldl (fun remainder byte => Nat.iter 8 (step_high (tw:=tw) (8 - 1) q)
              (wrap tw (Z.lxor remainder byte))) x data) 0.
Proof using All.
  intros H8 Hq. revert x. induction data as [|b data IH]; intros x Hx; cbn [foldl]; [done|].
  apply IH. intros i Hi. rewrite Z.bits_0.
  apply (iter_high_low_zero 8 q ltac:(lia) (8 - w)); done || lia.
Qed.

Lemma CalculateRemainder_app d1 d2 p r :
  eqm w (CalculateRemainder (d1 ++ d2) p r) (CalculateRemainder d2 p (CalculateRemainder d1 p r)).
Proof using All.
  destruct (Z.leb_spec CHAR_BIT w) as [H8|H8]; unfold CalculateRemainder at 1 3.
  { test (CHAR_BIT <=? w) is true. unfold CalculateRemainder. test (CHAR_BIT <=? w) is true.
    destruct (reflectInput p); by rewrite foldl_app. }
  destruct (reflectInput p) eqn:Hrefl.
  { unfold CalculateRemainder. by rewrite Hrefl, foldl_app. }
  unfold CalculateRemainder. rewrite Hrefl. test (CHAR_BIT <=? w) is false. unfold CHAR_BIT in *.
  test (w <=? 8) is true. rewrite foldl_app.
  set (q := wrap tw (Z.shiftl (polynomial p) (8 - w))).
  set (x := wrap tw (Z.shiftl r (8 - w))).
  pose proof (fun data => narrow_low_zero data q x ltac:(lia)) as Hlow.
  change (Nat.iter 8) with (Nat.iter (A:=Z) (Z.to_nat 8)) in Hlow.
  set (f := fun remainder byte : Z => _) in *.
  assert (eqm 8 (foldl f x d1) (wrap tw (Z.shiftl (wrap tw (Z.shiftr (foldl f x d1) (8 - w))) (8 - w)))) as H1.
  { intros i Hi. autorewrite with zbits. test (i <? tw) is true. cbn [andb].
    destruct (Z.lt_ge_cases i (8 - w)).
    - rewrite (testbit_neg _ (i - (8 - w))) by lia.
      rewrite (Hlow d1), Z.bits_0; [by rewrite andb_false_r| | |lia].
      + intros j Hj. unfold q. autorewrite with zbits. rewrite testbit_neg by lia. by rewrite andb_false_r.
      + intros j Hj. unfold x. autorewrite with zbits. rewrite testbit_neg by lia. by rewrite andb_false_r.
    - autorewrite with zbits. test (i - (8 - w) <? tw) is true. cbn [andb]. f_equal. lia. }
  revert H1. generalize (wrap tw (Z.shiftl (wrap tw (Z.shiftr (foldl f x d1) (8 - w))) (8 - w))).
  generalize (foldl f x d1). induction d2 as [|b d2 IH]; intros u v Huv; cbn [foldl].
  - intros i Hi. autorewrite with zbits. by rewrite Huv by lia.
  - apply IH. unfold f. apply (iter_high_eqm 8 q ltac:(lia)).
    intros i Hi. autorewrite with zbits. by rewrite Huv by lia.
Qed.

Lemma CalculateRemainder_branchless_lemma data p r :
  CalculateRemainder_branchless data p r = CalculateRemainder data p r.
Proof using All.
  assert (forall x b, Z.lxor x (Z.land b 1 * 0) = x) as H0 by (intros; by rewrite Z.mul_0_r, Z.lxor_0_r).
  assert (forall b q x, Z.lxor x (Z.land b 1 * q) = if Z.testbit b 0 then Z.lxor x q else x) as Hm.
  { intros b q x. pose proof (land_1_testbit b) as Hl.
    assert (Z.land b 1 = b mod 2) as Hmod by (change 1 with (Z.ones 1); rewrite Z.land_ones; [done|lia]).
    pose proof (Z.mod_pos_bound b 2 ltac:(lia)).
    destruct (Z.testbit b 0); cbn [negb] in Hl; [apply Z.eqb_neq in Hl|apply Z.eqb_eq in Hl].
    - replace (Z.land b 1) with 1 by lia. by rewrite Z.mul_1_l.
    - rewrite Hl. by rewrite Z.mul_0_l, Z.lxor_0_r. }
  assert (forall q x, step_reflected_branchless (tw:=tw) q x = step_reflected (tw:=tw) q x) as HR.
  { intros q x. unfold step_reflected_branchless, step_reflected. rewrite Hm, land_1_testbit.
    by destruct (Z.testbit x 0). }
  assert (forall top q x, 0 <= top ->
    step_high_branchless (tw:=tw) top q x = step_high (tw:=tw) top q x) as HH.
  { intros top q x Ht. unfold step_high_branchless, step_high. rewrite Hm, land_pow2_testbit by done.
    rewrite shiftr_testbit, Z.add_0_l by lia. by destruct (Z.testbit x top). }
  assert (forall n (f g : Z -> Z) x, (forall x, f x = g x) -> Nat.iter n f x = Nat.iter n g x) as Hiter.
  { intros n f g x Hfg. induction n as [|n IH]; simpl; [done|]. by rewrite IH, Hfg. }
  assert (forall (f g : Z -> Z -> Z) x, (forall x b, f x b = g x b) -> foldl f x data = foldl g x data) as Hf.
  { intros f g x Hfg. revert x. induction data as [|b d IH]; intros x; simpl; [done|].
    rewrite Hfg. apply IH. }
  unfold CalculateRemainder_branchless, CalculateRemainder.
  destruct (reflectInput p); [|destruct (CHAR_BIT <=? w); [|f_equal; f_equal]]; apply Hf;
    intros x b; apply Hiter; intros y; auto; apply HH; unfold CHAR_BIT; lia.
Qed.
(** ** The four overloads *)

Lemma table_agree_ranges p data r :
  wf_parameters p -> Forall byte_range data -> 0 <= r < 2 ^ tw ->
  0 <= CalculateRemainder_table data (MakeTable p) r < 2 ^ tw /\
  0 <= CalculateRemainder data p r < 2 ^ tw /\
  agree p (CalculateRemainder_table data (MakeTable p) r) (CalculateRemainder data p r).
Proof using All.
  intros (Hp & _ & _) Hd Hr. split; [by apply CalculateRemainder_table_range|].
  split; [by apply CalculateRemainder_range|].
  pose proof (CalculateRemainder_table_agree p data r (lt_pow_tw _ Hp) Hr Hd) as H.
  unfold agree in *. by destruct (reflectInput p).
Qed.

Lemma Calculate_table_lemma p data :
  wf_parameters p -> Forall byte_range data ->
  Calculate_table data (MakeTable p) = Calculate data p.
Proof using All.
  intros Hp Hd. pose proof Hp as (_ & Hi & _).
  destruct (table_agree_ranges p data (initialValue p) Hp Hd (lt_pow_tw _ Hi)) as (? & ? & ?).
  by apply (Finalize_agree p).
Qed.

Lemma Calculate_table_append_lemma p data crc :
  wf_parameters p -> Forall byte_range data -> 0 <= crc ->
  Calculate_table_append data (MakeTable p) crc = Calculate_append data p crc.
Proof using All.
  intros Hp Hd Hc. pose proof Hp as (_ & _ & Hf).
  destruct (table_agree_ranges p data
    (UndoFinalize (tw:=tw) (w:=w) crc (finalXOR p) (reflections_differ p)) Hp Hd) as (? & ? & ?).
  { by apply lt_pow_tw, UndoFinalize_range. }
  by apply (Finalize_agree p).
Qed.

Lemma CalculateBits_table_lemma p data size :
  wf_parameters p -> Forall byte_range data ->
  CalculateBits_table data size (MakeTable p) = CalculateBits data size p.
Proof using All.
  intros Hp Hd. pose proof Hp as (_ & Hi & _).
  unfold CalculateBits, CalculateBits_table. change (parameters (MakeTable p)) with p.
  destruct (0 <? size / CHAR_BIT); [|done].
  destruct (table_agree_ranges p (take (Z.to_nat (size / CHAR_BIT)) data) (initialValue p) Hp)
    as (? & ? & ?); [by apply Forall_take|by apply lt_pow_tw|].
  apply (Finalize_agree p); [by apply remaining_bits_range..|]. by apply remaining_bits_agree.
Qed.

Lemma Calculate_append_lemma p d1 d2 :
  wf_parameters p -> Forall byte_range d1 -> Forall byte_range d2 ->
  Calculate_append d2 p (Calculate d1 p) = Calculate (d1 ++ d2) p.
Proof using All.
  intros (Hp & Hi & Hf) H1 H2. unfold Calculate_append, Calculate.
  set (r1 := CalculateRemainder d1 p (initialValue p)).
  assert (0 <= r1 < 2 ^ tw) as Hr1 by by apply CalculateRemainder_range, lt_pow_tw.
  assert (0 <= wrap w r1 < 2 ^ w) as Hwr by (apply wrap_range; lia).
  rewrite (Finalize_eqm r1 (wrap w r1));
    [|done|by apply lt_pow_tw|by symmetry; apply eqm_wrap; lia].
  rewrite UndoFinalize_Finalize_lemma by done.
  apply Finalize_eqm; [by apply CalculateRemainder_range, lt_pow_tw..|].
  rewrite CalculateRemainder_app. destruct (reflectInput p) eqn:Hrefl.
  - rewrite wrap_small; [done|]. by apply CalculateRemainder_reflected_range; [|apply lt_pow_tw|..].
  - apply CalculateRemainder_eqm; [done|]. apply eqm_wrap; lia.
Qed.

(** ** Error detection *)

Lemma Reflect_top v : 0 <= v < 2 ^ tw -> Z.testbit (Reflect tw v w) (w - 1) = Z.testbit v 0.
Proof using All.
  intros Hv. rewrite Reflect_testbit by lia. test (w - 1 <? w) is true. by rewrite Z.sub_diag.
Qed.

Lemma normal_foldl_inj p data x y :
  8 <= w -> Z.testbit (polynomial p) 0 = true ->
  let f := fun r b => Nat.iter 8 (step_high (tw:=tw) (w - 1) (polynomial p))
                        (wrap tw (Z.lxor r (Z.shiftl (wrap tw b) (w - 8)))) in
  eqm w (foldl f x data) (foldl f y data) -> eqm w x y.
Proof using All.
  intros H8 Hodd f. revert x y. induction data as [|b data IH]; intros x y; cbn [foldl]; [done|].
  intros H. apply IH, (iter_high_inj w (polynomial p)) in H; [|lia|done].
  intros i Hi. specialize (H i Hi). autorewrite with zbits in H.
  revert H. test (i <? tw) is true. cbn [andb].
  by destruct (Z.testbit x i), (Z.testbit y i), ((i - (w - 8) <? tw) && Z.testbit b (i - (w - 8))).
Qed.

Lemma reflected_foldl_inj p data x y :
  8 <= w -> Z.testbit (polynomial p) 0 = true -> 0 <= polynomial p < 2 ^ tw ->
  Forall byte_range data -> 0 <= x < 2 ^ w -> 0 <= y < 2 ^ w ->
  let f := fun r b => Nat.iter 8 (step_reflected (tw:=tw) (Reflect tw (polynomial p) w))
                        (wrap tw (Z.lxor r b)) in
  foldl f x data = foldl f y data -> x = y.
Proof using All.
  intros H8 Hodd Hp Hd Hx Hy f. pose proof (Reflect_range _ Hp) as Hq.
  assert (forall r b, 0 <= r < 2 ^ w -> byte_range b -> 0 <= Z.lxor r b < 2 ^ w) as Hxor.
  { intros r b Hr Hb. assert (2 ^ 8 <= 2 ^ w) by (apply Z.pow_le_mono_r; lia).
    apply lxor_range; unfold byte_range in Hb; lia. }
  assert (forall r b, 0 <= r < 2 ^ w -> byte_range b -> 0 <= f r b < 2 ^ w) as Hf.
  { intros r b Hr Hb. unfold f. rewrite wrap_small by (apply lt_pow_tw, Hxor; done).
    apply iter_reflected_range; [done|]. rewrite Z.max_l by lia. by apply Hxor. }
  revert x y Hx Hy. induction Hd as [|b data Hb Hd IH]; intros x y Hx Hy; cbn [foldl]; [done|].
  intros H. apply IH in H; [|by apply Hf..]. unfold f in H.
  rewrite !wrap_small in H by (apply lt_pow_tw, Hxor; done).
  apply iter_reflected_inj in H; [|done|done|by rewrite Reflect_top|by apply Hxor..].
  bits_ext i. apply (f_equal (fun z => Z.testbit z i)) in H. rewrite !Z.lxor_spec in H.
  by destruct (Z.testbit x i), (Z.testbit y i), (Z.testbit b i).
Qed.

Lemma Finalize_inj x y f r :
  0 <= x < 2 ^ tw -> 0 <= y < 2 ^ tw -> 0 <= f < 2 ^ w ->
  Finalize (tw:=tw) (w:=w) x f r = Finalize (tw:=tw) (w:=w) y f r -> eqm w x y.
Proof using All.
  intros Hx Hy Hf H.
  rewrite (Finalize_eqm x (wrap w x)), (Finalize_eqm y (wrap w y)) in H;
    try done; try (apply lt_pow_tw, wrap_range; lia); try (symmetry; apply eqm_wrap; lia).
  apply (f_equal (fun z => UndoFinalize (tw:=tw) (w:=w) z f r)) in H.
  rewrite !UndoFinalize_Finalize_lemma in H by (done || apply wrap_range; lia).
  rewrite <- (eqm_wrap w w x), <- (eqm_wrap w w y) by lia. by rewrite H.
Qed.

(** A changed byte acts as a changed remainder before it. *)
Lemma reflected_corruption p post x b b' :
  8 <= w -> Z.testbit (polynomial p) 0 = true -> 0 <= polynomial p < 2 ^ tw ->
  Forall byte_range post -> byte_range b -> byte_range b' -> 0 <= x < 2 ^ w ->
  let f := fun r b => Nat.iter 8 (step_reflected (tw:=tw) (Reflect tw (polynomial p) w))
                        (wrap tw (Z.lxor r b)) in
  foldl f x (b :: post) = foldl f x (b' :: post) -> b = b'.
Proof using All.
  intros H8 Hodd Hp Hpost Hb Hb' Hx f H. unfold byte_range in *.
  assert (2 ^ 8 <= 2 ^ w) by (apply Z.pow_le_mono_r; lia).
  assert (0 <= Z.lxor x b < 2 ^ w) by (apply lxor_range; lia).
  assert (f x b = f (Z.lxor (Z.lxor x b) b') b') as Hfb.
  { unfold f. by rewrite Z.lxor_assoc, Z.lxor_nilpotent, Z.lxor_0_r. }
  cbn [foldl] in H. rewrite Hfb in H.
  apply (reflected_foldl_inj p (b' :: post)) in H;
    [|done|done|done|by constructor|apply lxor_range; lia|done].
  bits_ext i. apply (f_equal (fun z => Z.testbit z i)) in H. rewrite !Z.lxor_spec in H.
  by destruct (Z.testbit x i), (Z.testbit b i), (Z.testbit b' i).
Qed.

Lemma normal_corruption p post x b b' :
  8 <= w -> Z.testbit (polynomial p) 0 = true -> byte_range b -> byte_range b' ->
  let f := fun r b => Nat.iter 8 (step_high (tw:=tw) (w - 1) (polynomial p))
                        (wrap tw (Z.lxor r (Z.shiftl (wrap tw b) (w - 8)))) in
  eqm w (foldl f x (b :: post)) (foldl f x (b' :: post)) -> b = b'.
Proof using All.
  intros H8 Hodd Hb Hb' f H. unfold byte_range in *.
  set (s b := Z.shiftl (wrap tw b) (w - 8)) in *.
  assert (f x b = f (Z.lxor (Z.lxor x (s b)) (s b')) b') as Hfb.
  { unfold f, s. by rewrite Z.lxor_assoc, Z.lxor_nilpotent, Z.lxor_0_r. }
  cbn [foldl] in H. rewrite Hfb in H.
  apply (normal_foldl_inj p (b' :: post)) in H; [|done|done].
  apply (eqm_eq 8); [lia..|]. intros i Hi. specialize (H (i + (w - 8)) ltac:(lia)).
  unfold s in H. autorewrite with zbits in H. revert H.
  replace (i + (w - 8) - (w - 8)) with i by lia. test (i <? tw) is true. cbn [andb].
  by destruct (Z.testbit x _), (Z.testbit b i), (Z.testbit b' i).
Qed.

Lemma corruption_lemma p pre post b b' :
  wf_parameters p -> 8 <= w -> Z.testbit (polynomial p) 0 = true ->
  Forall byte_range pre -> Forall byte_range post -> byte_range b -> byte_range b' ->
  Calculate (pre ++ b :: post) p = Calculate (pre ++ b' :: post) p -> b = b'.
Proof using All.
  intros (Hp & Hi & Hf) H8 Hodd Hpre Hpost Hb Hb' H. unfold Calculate in H.
  pose proof (lt_pow_tw _ Hp) as Hp'. pose proof (lt_pow_tw _ Hi) as Hi'.
  apply Finalize_inj in H; [|by apply CalculateRemainder_range..|done].
  destruct (reflectInput p) eqn:Hrefl.
  - apply eqm_eq in H; [|lia|apply CalculateRemainder_reflected_range; try done;
      apply Forall_app; split; [done|by constructor]..].
    pose proof (CalculateRemainder_reflected_range pre p _ Hrefl Hp' Hi Hpre) as Hx.
    unfold CalculateRemainder in H, Hx. rewrite Hrefl in H, Hx.
    rewrite !foldl_app in H. by apply reflected_corruption in H.
  - unfold CalculateRemainder in H. rewrite Hrefl in H. revert H.
    unfold CHAR_BIT. test (8 <=? w) is true. cbn zeta. rewrite !foldl_app.
    by apply normal_corruption.
Qed.

(** On a whole number of bytes [CalculateBits] is [Calculate]; without data it
    does not enter the remainder loop at all. *)
Lemma CalculateBits_whole_lemma p data :
  wf_parameters p ->
  CalculateBits data (8 * Z.of_nat (length data)) p = Calculate data p.
Proof using All.
  intros (_ & Hi & _). pose proof (lt_pow_tw _ Hi) as Hi'.
  unfold CalculateBits, Calculate, remaining_bits, CHAR_BIT.
  rewrite (Z.mul_comm 8), Z.div_mul, Z.mod_mul by lia. cbn [negb Z.eqb].
  rewrite Nat2Z.id, firstn_all. destruct data as [|b data]; [|done].
  apply Finalize_eqm; [done|by apply CalculateRemainder_range|].
  unfold CalculateRemainder, CHAR_BIT. destruct (reflectInput p); [done|].
  destruct (Z.leb_spec 8 w); [done|]. cbn [foldl]. test (w <=? 8) is true.
  intros i Hb. autorewrite with zbits. test (i <? tw) is true.
  test (i + (8 - w) <? tw) is true. cbn [andb]. f_equal. lia.
Qed.

Lemma CalculateBits_append_lemma p data size crc :
  8 <= size -> CalculateBits_append data size p crc = CalculateBits data size p.
Proof using .
  intros Hs. unfold CalculateBits_append, CalculateBits, CHAR_BIT.
  assert (1 <= size / 8) by (apply Z.div_le_lower_bound; lia).
  by test (0 <? size / 8) is true.
Qed.
End Facts.

(** Template arguments that the header's static assertion accepts: a width that
    fits the type, and a type of at least a byte. *)
Definition valid_widths (tw w : Z) : Prop := 1 <= w <= tw /\ 8 <= tw.

(** CRC-32, the parameters the service uses for inodes. *)
Definition crc32_sample : Parameters 32 32 :=
  MkParameters 0x04C11DB7 0xFFFFFFFF 0xFFFFFFFF true true.

(** A non-reflected CRC narrower than a byte. *)
Definition crc5_sample : Parameters 8 5 := MkParameters 0x09 0x09 0x00 false false.

Definition ascii_123 : list Z := [0x31; 0x32; 0x33].

(** ** The catalogue *)

(** The bytes of the string "123456789", on which check values are computed. *)
Definition check_input : list Z := [0x31; 0x32; 0x33; 0x34; 0x35; 0x36; 0x37; 0x38; 0x39].

Definition documented_parameters (tw w : Z) (d : Documented) : Parameters tw w :=
  MkParameters (doc_polynomial d) (doc_initialValue d) (doc_finalXOR d)
    (doc_reflectInput d) (doc_reflectOutput d).

(** An entry of the catalogue that is right: its template arguments pass the
    header's static assertion and hold its values, the polynomial has a constant
    term, the parameters are the documented ones, and both ways to compute the CRC
    of [check_input] give the documented check value. *)
Definition entry_correct (e : Entry) : Prop :=
  let p := entry_parameters e in
  let d := entry_doc e in
  valid_widths (entry_tw e) (entry_w e) /\ wf_parameters p /\
  Z.testbit (polynomial p) 0 = true /\
  p = documented_parameters (entry_tw e) (entry_w e) d /\
  Calculate check_input p = doc_check d /\
  Calculate_table check_input (MakeTable p) = doc_check d.

Definition in_range_b (x n : Z) : bool := (0 <=? x) && (x <? n).

Definition entry_check (e : Entry) : bool :=
  let p := entry_parameters e in
  let d := entry_doc e in
  let n := 2 ^ entry_w e in
  (1 <=? entry_w e) && (entry_w e <=? entry_tw e) && (8 <=? entry_tw e) &&
  in_range_b (polynomial p) n && in_range_b (initialValue p) n && in_range_b (finalXOR p) n &&
  Z.testbit (polynomial p) 0 &&
  (polynomial p =? doc_polynomial d) && (initialValue p =? doc_initialValue d) &&
  (finalXOR p =? doc_finalXOR d) && Bool.eqb (reflectInput p) (doc_reflectInput d) &&
  Bool.eqb (reflectOutput p) (doc_reflectOutput d) &&
  (Calculate check_input p =? doc_check d) &&
  (Calculate_table check_input (MakeTable p) =? doc_check d).

Lemma entry_check_correct (e : Entry) : entry_check e = true -> entry_correct e.
Proof.
  unfold entry_check, entry_correct, in_range_b, valid_widths, wf_parameters, documented_parameters.
  intros H. repeat (apply andb_prop in H as [H ?]).
  repeat match goal with
  | H : _ && _ = true |- _ => apply andb_prop in H as [? ?]
  | H : (_ <=? _) = true |- _ => apply Z.leb_le in H
  | H : (_ <? _) = true |- _ => apply Z.ltb_lt in H
  | H : (_ =? _) = true |- _ => apply Z.eqb_eq in H
  | H : Bool.eqb _ _ = true |- _ => apply Bool.eqb_prop in H
  end.
  destruct (entry_parameters e); simpl in *. subst. repeat split; lia || done.
Qed.

Lemma catalogue_check : forallb entry_check catalogue = true.
Proof. vm_compute. reflexivity. Qed.

(** C28. The table-driven CRC is the bit-by-bit CRC: for every CRC width and every
    integer type that holds it, for reflected and non-reflected parameters and for
    CRCs narrower than a byte, the table built by [InitTable] makes each overload
    of [Calculate] and [CalculateBits] return the value of its bit-by-bit
    counterpart, on all data. *)
Theorem table_lookup_equivalent {tw w : Z} (p : Parameters tw w) (data : list Z) (size crc : Z) :
  valid_widths tw w -> wf_parameters p -> Forall byte_range data -> 0 <= crc < 2 ^ w ->
  Calculate_table data (MakeTable p) = Calculate data p /\
  Calculate_table_append data (MakeTable p) crc = Calculate_append data p crc /\
  CalculateBits_table data size (MakeTable p) = CalculateBits data size p.
Proof.
  intros [Hw Htw] Hp Hdata Hcrc. split; [|split].
  - by apply Calculate_table_lemma.
  - by apply Calculate_table_append_lemma; [..|lia].
  - by apply CalculateBits_table_lemma.
Qed.

Lemma table_lookup_equivalent_witness :
  Calculate_table ascii_123 (MakeTable crc5_sample) = Calculate ascii_123 crc5_sample /\
  Calculate_table_append ascii_123 (MakeTable crc5_sample) 7 = Calculate_append ascii_123 crc5_sample 7 /\
  CalculateBits_table ascii_123 19 (MakeTable crc5_sample) = CalculateBits ascii_123 19 crc5_sample.
Proof.
  apply (table_lookup_equivalent crc5_sample ascii_123 19 7).
  - unfold valid_widths. lia.
  - unfold wf_parameters, crc5_sample; simpl. lia.
  - unfold ascii_123, byte_range. repeat constructor; lia.
  - lia.
Defined.

(** C29. A CRC continues over parts: appending [d2] to the CRC of [d1] gives the CRC
    of [d1] followed by [d2], bit by bit and with the lookup table. *)
Theorem multipart {tw w : Z} (p : Parameters tw w) (d1 d2 : list Z) :
  valid_widths tw w -> wf_parameters p -> Forall byte_range d1 -> Forall byte_range d2 ->
  Calculate_append d2 p (Calculate d1 p) = Calculate (d1 ++ d2) p /\
  Calculate_table_append d2 (MakeTable p) (Calculate_table d1 (MakeTable p)) =
    Calculate_table (d1 ++ d2) (MakeTable p).
Proof.
  intros [Hw Htw] Hp H1 H2.
  rewrite !Calculate_table_lemma by (done || by apply Forall_app).
  rewrite Calculate_table_append_lemma by (done || apply Finalize_range; done).
  split; by apply Calculate_append_lemma.
Qed.

Lemma multipart_witness :
  Calculate_append [0x33] crc5_sample (Calculate [0x31; 0x32] crc5_sample) =
    Calculate ([0x31; 0x32] ++ [0x33]) crc5_sample /\
  Calculate_table_append [0x33] (MakeTable crc5_sample)
      (Calculate_table [0x31; 0x32] (MakeTable crc5_sample)) =
    Calculate_table ([0x31; 0x32] ++ [0x33]) (MakeTable crc5_sample).
Proof.
  apply (multipart crc5_sample [0x31; 0x32] [0x33]).
  - unfold valid_widths. lia.
  - unfold wf_parameters, crc5_sample; simpl. lia.
  - unfold byte_range. repeat constructor; lia.
  - unfold byte_range. repeat constructor; lia.
Defined.

(** C30. A CRC of at least a byte whose polynomial has a constant term detects the
    corruption of any one byte of a message, whatever comes before and after. *)
Theorem single_byte_corruption_detected {tw w : Z} (p : Parameters tw w) (pre post : list Z) (b b' : Z) :
  valid_widths tw w -> wf_parameters p -> 8 <= w -> Z.testbit (polynomial p) 0 = true ->
  Forall byte_range pre -> Forall byte_range post -> byte_range b -> byte_range b' -> b <> b' ->
  Calculate (pre ++ b :: post) p <> Calculate (pre ++ b' :: post) p.
Proof.
  intros [Hw Htw] Hp H8 Hodd Hpre Hpost Hb Hb' Hne Heq. apply Hne.
  by apply (corruption_lemma Hw Htw p pre post b b').
Qed.

Lemma single_byte_corruption_detected_witness :
  Calculate ([1; 2] ++ 3 :: [4]) crc32_sample <> Calculate ([1; 2] ++ 0 :: [4]) crc32_sample.
Proof.
  apply (single_byte_corruption_detected crc32_sample [1; 2] [4] 3 0).
  - unfold valid_widths. lia.
  - unfold wf_parameters, crc32_sample; simpl. lia.
  - lia.
  - reflexivity.
  - unfold byte_range. repeat constructor; lia.
  - unfold byte_range. repeat constructor; lia.
  - unfold byte_range. lia.
  - unfold byte_range. lia.
  - lia.
Defined.

(** [Finalize] and [UndoFinalize] are inverse to each other on the values of the
    CRC's width, whatever the final XOR and the reflection. *)
Theorem finalize_roundtrip {tw w : Z} (x f : Z) (r : bool) :
  valid_widths tw w -> 0 <= x < 2 ^ w -> 0 <= f < 2 ^ w ->
  UndoFinalize (tw:=tw) (w:=w) (Finalize (tw:=tw) (w:=w) x f r) f r = x /\
  Finalize (tw:=tw) (w:=w) (UndoFinalize (tw:=tw) (w:=w) x f r) f r = x.
Proof.
  intros [Hw Htw] Hx Hf. split.
  - by apply UndoFinalize_Finalize_lemma.
  - by apply Finalize_UndoFinalize_lemma.
Qed.

Lemma finalize_roundtrip_witness :
  UndoFinalize (tw:=16) (w:=12) (Finalize (tw:=16) (w:=12) 0xABC 0xF0F true) 0xF0F true = 0xABC /\
  Finalize (tw:=16) (w:=12) (UndoFinalize (tw:=16) (w:=12) 0xABC 0xF0F true) 0xF0F true = 0xABC.
Proof. apply (finalize_roundtrip (tw:=16) (w:=12)); unfold valid_widths; lia. Defined.

(** The implementation that [CRCPP_BRANCHLESS] selects computes the same
    remainder as the branching one, on every path of the algorithm. *)
Theorem branchless_equivalent {tw w : Z} (p : Parameters tw w) (data : list Z) (remainder : Z) :
  valid_widths tw w ->
  CalculateRemainder_branchless data p remainder = CalculateRemainder data p remainder.
Proof. intros [Hw Htw]. by apply CalculateRemainder_branchless_lemma. Qed.

Lemma branchless_equivalent_witness :
  CalculateRemainder_branchless ascii_123 crc5_sample 9 = CalculateRemainder ascii_123 crc5_sample 9.
Proof. apply (branchless_equivalent crc5_sample ascii_123 9). unfold valid_widths. lia. Defined.

(** [CalculateBits] on a whole number of bytes is [Calculate]; and its overload
    that appends to a previous CRC, when there is at least one whole byte to
    append, restarts from the initial value: it returns the CRC of the appended
    data alone whatever the previous CRC was, so it does not continue a CRC. *)
Theorem bits_whole_bytes_and_append_restarts {tw w : Z} (p : Parameters tw w) (data : list Z) :
  valid_widths tw w -> wf_parameters p ->
  CalculateBits data (8 * Z.of_nat (length data)) p = Calculate data p /\
  (forall size crc, 8 <= size -> CalculateBits_append data size p crc = CalculateBits data size p) /\
  CalculateBits_append [0x33] 8 crc32_sample (CalculateBits [0x31; 0x32] 16 crc32_sample) <>
    CalculateBits ascii_123 24 crc32_sample.
Proof.
  intros [Hw Htw] Hp. split; [|split].
  - by apply CalculateBits_whole_lemma.
  - intros size crc Hsize. apply CalculateBits_append_lemma, Hsize.
  - vm_compute. discriminate.
Qed.

Lemma bits_whole_bytes_and_append_restarts_witness :
  CalculateBits ascii_123 (8 * Z.of_nat (length ascii_123)) crc5_sample = Calculate ascii_123 crc5_sample /\
  (forall size crc, 8 <= size ->
     CalculateBits_append ascii_123 size crc5_sample crc = CalculateBits ascii_123 size crc5_sample) /\
  CalculateBits_append [0x33] 8 crc32_sample (CalculateBits [0x31; 0x32] 16 crc32_sample) <>
    CalculateBits ascii_123 24 crc32_sample.
Proof.
  apply (bits_whole_bytes_and_append_restarts crc5_sample ascii_123).
  - unfold valid_widths. lia.
  - unfold wf_parameters, crc5_sample; simpl. lia.
Defined.

(** C36. Every function of the catalogue of CRC parameters returns the parameters its
    comment documents; they satisfy the conditions of the theorems above, and the
    CRC of "123456789" computed with them, bit by bit and with a table, is the
    documented check value. *)
Theorem catalogue_matches_documentation : Forall entry_correct catalogue.
Proof.
  apply Forall_forall. intros e He. apply entry_check_correct.
  pose proof (proj1 (forallb_forall _ _) catalogue_check) as H.
  by apply H, list_elem_of_In.
Qed.
