(* ===== verification/Layout.v ===== *)
(** Memory layout of the structs that clients and memory servers exchange by
    one-sided RDMA: offsets and sizes by the rules of the C++ ABI, and the
    address arithmetic of core/memstore/data_item.h that must agree with them. *)
From S2P Require Import Prelude Words.
From stdpp Require Import strings.
#[local] Open Scope Z_scope.

(** ** Layout of a standard-layout struct *)

Record CField := MkField { field_name : string; field_size : Z; field_align : Z }.

Definition scalar (name : string) (size : Z) : CField := MkField name size size.
Definition array (name : string) (elem_size elem_align count : Z) : CField :=
  MkField name (elem_size * count) elem_align.

Definition align_up (x a : Z) : Z := (x + a - 1) / a * a.

(** The fields with their offsets, placed from offset [off] on, and the end of
    the last one. *)
Fixpoint place (off : Z) (fields : list CField) : list (string * Z) * Z :=
  match fields with
  | [] => ([], off)
  | f :: fields =>
      let o := align_up off (field_align f) in
      let r := place (o + field_size f) fields in
      ((field_name f, o) :: fst r, snd r)
  end.

Definition offset_of (fields : list CField) (name : string) : option Z :=
  snd <$> find (fun x => String.eqb (fst x) name) (fst (place 0 fields)).

Definition alignof (attribute : Z) (fields : list CField) : Z :=
  foldr (fun f a => Z.max (field_align f) a) attribute fields.

Definition sizeof (attribute : Z) (fields : list CField) : Z :=
  align_up (snd (place 0 fields)) (alignof attribute fields).

(** ** The structs *)

Definition MAX_ITEM_SIZE : Z := 664.

Definition DataItem_fields : list CField :=
  [scalar "table_id" 8; scalar "value_size" 8; scalar "key" 8;
   scalar "remote_offset" 8; scalar "version" 8; scalar "lock" 8;
   array "value" 1 1 MAX_ITEM_SIZE; scalar "valid" 1; scalar "user_insert" 1].

Definition DataItemSize : Z := sizeof 8 DataItem_fields.

Definition ITEM_NUM_PER_NODE : nat := 22.

Definition HashNode_fields : list CField :=
  [array "data_items" DataItemSize 8 (Z.of_nat ITEM_NUM_PER_NODE); scalar "next" 8].

Definition HashNodeSize : Z := sizeof 8 HashNode_fields.

Definition HashMeta_fields : list CField :=
  [scalar "table_id" 8; scalar "data_ptr" 8; scalar "base_off" 8;
   scalar "bucket_num" 8; scalar "node_size" 8].

Definition HashMetaSize : Z := sizeof 8 HashMeta_fields.

Definition Inode_fields : list CField :=
  [scalar "permission" 8; scalar "atime" 2; scalar "ctime" 2; scalar "mtime" 2;
   scalar "is_dir" 1].

Definition inode_size : Z := sizeof 1 Inode_fields.

(** ** Remote addresses of the fields of an item *)

Definition sizeof_field (fields : list CField) (name : string) : Z :=
  default 0 (field_size <$> find (fun f => String.eqb (field_name f) name) fields).

(** [GetRemoteVersionAddr] and [GetRemoteLockAddr], which add the sizes of the
    fields before the one they address, in [uint64_t]. *)
Definition GetRemoteVersionAddr (remote_item_off : Z) : Z :=
  let size := sizeof_field DataItem_fields in
  u64 (remote_item_off + size "table_id"%string + size "value_size"%string + size "key"%string
       + size "remote_offset"%string).

Definition GetRemoteLockAddr (remote_item_off : Z) : Z :=
  let size := sizeof_field DataItem_fields in
  u64 (remote_item_off + size "table_id"%string + size "value_size"%string + size "key"%string
       + size "remote_offset"%string + size "version"%string).

(** ** Facts *)

Lemma DataItemSize_720 : DataItemSize = 720.
Proof. reflexivity. Qed.

Lemma HashNodeSize_15848 : HashNodeSize = 15848.
Proof. reflexivity. Qed.

Lemma align_up_spec x a :
  0 < a -> x <= align_up x a < x + a /\ (a | align_up x a).
Proof.
  intros Ha. unfold align_up. split; [|by apply Z.divide_factor_r].
  pose proof (Z.div_mod (x + a - 1) a ltac:(lia)).
  pose proof (Z.mod_pos_bound (x + a - 1) a Ha). lia.
Qed.
