(* ===== verification/Hash.v ===== *)
(** Hash functions: MurmurHash64A and MurmurHash64ALen of core/util/hash.h and the
    polynomial string hash of core/metadata/dmc.h. *)
From S2P Require Import Prelude Words Outcome.

Definition murmur_m : Z := 0xc6a4a7935bd1e995.
Definition murmur_r : Z := 47.

(** ** MurmurHash64A *)

(** The loop body, which mixes one 64-bit word [k] of the key into [h]. *)
Definition murmur_mix_word (h k : Z) : Z :=
  let k := u64 (k * murmur_m) in
  let k := Z.lxor k (Z.shiftr k murmur_r) in
  let k := u64 (k * murmur_m) in
  u64 (Z.lxor h k * murmur_m).

(** The final three lines. *)
Definition murmur_finish (h : Z) : Z :=
  let h := Z.lxor h (Z.shiftr h murmur_r) in
  let h := u64 (h * murmur_m) in
  Z.lxor h (Z.shiftr h murmur_r).

(** [while (data != end)] with [data = &key] and [end = data + 1] runs once. *)
Definition MurmurHash64A (key seed : Z) : Z :=
  let h := Z.lxor (u32 seed) (u64 (8 * murmur_m)) in
  let h := foldl murmur_mix_word h [key] in
  murmur_finish h.

(** ** MurmurHash64ALen *)

(** Little-endian load of the 8 bytes at index [i] of the buffer; a load that is
    not inside the buffer is a fault. *)
Fixpoint le_word (bytes : list Z) : Z :=
  match bytes with
  | [] => 0
  | b :: bytes => b + 256 * le_word bytes
  end.

Definition load_u64 (buf : list Z) (i : nat) : outcome Z :=
  if (i + 8 <=? length buf)%nat then Ok (le_word (take 8 (drop i buf))) else Fault.

Definition load_u8 (buf : list Z) (i : nat) : outcome Z := deref (buf !! i).

(** [while (_len < len)]: [n] iterations are left, [data] is at index [i]. *)
Fixpoint murmur_len_loop (n : nat) (buf : list Z) (i : nat) (h : Z) : outcome (Z * nat) :=
  match n with
  | O => Ok (h, i)
  | S n => k ← load_u64 buf i; murmur_len_loop n buf (i + 8)%nat (murmur_mix_word h k)
  end.

(** The switch falls through from [case n] down to [case 1]. *)
Fixpoint murmur_tail (n : nat) (buf : list Z) (i : nat) (h : Z) : outcome Z :=
  match n with
  | O => Ok h
  | S n =>
      b ← load_u8 buf (i + n)%nat;
      murmur_tail n buf i (Z.lxor h (Z.shiftl b (8 * Z.of_nat n)))
  end.

Definition MurmurHash64ALen (buf : list Z) (len seed : Z) : outcome Z :=
  let h := Z.lxor (u64 seed) (u64 (len * murmur_m)) in
  r ← murmur_len_loop (Z.to_nat len) buf 0 h;
  let '(h, data2) := r in
  let tail := Z.land len 7 in
  h ← murmur_tail (Z.to_nat tail) buf data2 h;
  let h := if tail =? 0 then h else u64 (h * murmur_m) in
  Ok (murmur_finish h).

(** ** DMC::compute_hash *)

Definition hash_p : Z := 31.
Definition hash_m : Z := 1000000009.

(** One iteration; [c - 'a' + 1] is an [int] converted to [uint64_t], [c] is a
    [signed char]. *)
Definition compute_hash_step (s : Z * Z) (c : Z) : Z * Z :=
  let '(hash_value, p_pow) := s in
  (u64 (hash_value + u64 (u64 (c - 97 + 1) * p_pow)) mod hash_m, u64 (p_pow * hash_p) mod hash_m).

Definition compute_hash (s : list Z) : Z := fst (foldl compute_hash_step (0, 1) s).

(** ** MurmurHash64A is a bijection of the 64-bit keys *)

(** Multiplication by the constant is undone by its inverse modulo 2^64. *)
Definition murmur_m_inv : Z := 0x5f7a0ea7e59b19bd.

Lemma murmur_m_inv_spec : u64 (murmur_m * murmur_m_inv) = 1.
Proof. reflexivity. Qed.

Lemma mul_m_inj x y :
  0 <= x < 2 ^ 64 -> 0 <= y < 2 ^ 64 -> u64 (x * murmur_m) = u64 (y * murmur_m) -> x = y.
Proof.
  intros Hx Hy H.
  assert (forall z, 0 <= z < 2 ^ 64 -> u64 (u64 (z * murmur_m) * murmur_m_inv) = z) as Hinv.
  { intros z Hz. unfold wrap. rewrite Zmult_mod_idemp_l, <- Z.mul_assoc, <- Zmult_mod_idemp_r.
    fold (u64 (murmur_m * murmur_m_inv)). rewrite murmur_m_inv_spec, Z.mul_1_r.
    by apply Z.mod_small. }
  rewrite <- (Hinv x), <- (Hinv y), H; done.
Qed.

(** [h ^= h >> r] loses nothing: the bits from the top down determine [h]. *)
Lemma xorshift_inj n x y :
  0 < n -> 0 <= x < 2 ^ 64 -> 0 <= y < 2 ^ 64 ->
  Z.lxor x (Z.shiftr x n) = Z.lxor y (Z.shiftr y n) -> x = y.
Proof.
  intros Hn Hx Hy H. apply (eqm_eq 64); [lia|done|done|].
  assert (forall k, 0 <= k -> forall i, 0 <= i -> 64 - k <= i -> Z.testbit x i = Z.testbit y i) as Hk.
  { intros k Hk0. pattern k. apply Z_lt_induction; [|done]. clear k Hk0. intros k IH i Hi Hki.
    destruct (Z.lt_ge_cases i 64); [|by rewrite (testbit_high 64 x), (testbit_high 64 y) by lia].
    apply (f_equal (fun z => Z.testbit z i)) in H. rewrite !Z.lxor_spec, !shiftr_testbit in H by lia.
    assert (Z.testbit x (i + n) = Z.testbit y (i + n)) as E.
    { destruct (Z.lt_ge_cases (i + n) 64).
      - apply (IH (64 - (i + n))); lia.
      - by rewrite (testbit_high 64 x), (testbit_high 64 y) by lia. }
    rewrite E in H. by destruct (Z.testbit x i), (Z.testbit y i), (Z.testbit y (i + n)). }
  intros i Hi. apply (Hk 64); lia.
Qed.

Lemma lxor_shiftr_range x n : 0 <= n -> 0 <= x < 2 ^ 64 -> 0 <= Z.lxor x (Z.shiftr x n) < 2 ^ 64.
Proof. intros Hn Hx. apply lxor_range; [lia|done|]. by apply shiftr_range. Qed.

Lemma lxor_cancel_l h x y : Z.lxor h x = Z.lxor h y -> x = y.
Proof.
  intros H. bits_ext i. apply (f_equal (fun z => Z.testbit z i)) in H. rewrite !Z.lxor_spec in H.
  by destruct (Z.testbit h i), (Z.testbit x i), (Z.testbit y i).
Qed.

Lemma murmur_mix_word_inj h x y :
  0 <= h < 2 ^ 64 -> 0 <= x < 2 ^ 64 -> 0 <= y < 2 ^ 64 ->
  murmur_mix_word h x = murmur_mix_word h y -> x = y.
Proof.
  intros Hh Hx Hy H. unfold murmur_mix_word in H.
  pose proof (wrap_range 64) as R.
  apply mul_m_inj in H; [|apply lxor_range; [lia|done|apply R; lia]..].
  apply lxor_cancel_l in H.
  apply mul_m_inj in H; [|apply lxor_shiftr_range; [unfold murmur_r; lia|apply R; lia]..].
  apply xorshift_inj in H; [|unfold murmur_r; lia|apply R; lia..].
  by apply mul_m_inj in H.
Qed.

Lemma murmur_finish_inj x y :
  0 <= x < 2 ^ 64 -> 0 <= y < 2 ^ 64 -> murmur_finish x = murmur_finish y -> x = y.
Proof.
  intros Hx Hy H. unfold murmur_finish in H. pose proof (wrap_range 64) as R.
  apply xorshift_inj in H; [|unfold murmur_r; lia|apply R; lia..].
  apply mul_m_inj in H; [|apply lxor_shiftr_range; [unfold murmur_r; lia|done]..].
  by apply xorshift_inj in H; [|unfold murmur_r; lia|..].
Qed.

Lemma murmur_mix_word_range h k : 0 <= murmur_mix_word h k < 2 ^ 64.
Proof. apply wrap_range. lia. Qed.

Lemma MurmurHash64A_inj_lemma k1 k2 seed :
  0 <= k1 < 2 ^ 64 -> 0 <= k2 < 2 ^ 64 -> MurmurHash64A k1 seed = MurmurHash64A k2 seed -> k1 = k2.
Proof.
  intros H1 H2 H. apply murmur_finish_inj in H; [|apply murmur_mix_word_range..].
  apply murmur_mix_word_inj in H; [done| |done|done].
  apply lxor_range; [lia|pose proof (wrap_range 32 seed); lia|apply wrap_range; lia].
Qed.

Lemma MurmurHash64A_range k seed : 0 <= MurmurHash64A k seed < 2 ^ 64.
Proof. apply lxor_shiftr_range; [unfold murmur_r; lia|]. apply wrap_range. lia. Qed.

(** ** What MurmurHash64ALen reads *)

Lemma murmur_len_loop_Ok n buf i h :
  (i + 8 * n <= length buf)%nat -> exists h', murmur_len_loop n buf i h = Ok (h', (i + 8 * n)%nat).
Proof.
  revert i h. induction n as [|n IH]; intros i h Hn; simpl.
  { exists h. by rewrite Nat.add_0_r. }
  unfold load_u64. rewrite (proj2 (Nat.leb_le _ _)) by lia. cbn [mbind outcome_bind].
  destruct (IH (i + 8)%nat (murmur_mix_word h (le_word (take 8 (drop i buf)))) ltac:(lia)) as [h' ->].
  exists h'. f_equal. f_equal. lia.
Qed.

Lemma murmur_len_loop_bound n buf i h r :
  murmur_len_loop n buf i h = Ok r -> (n = 0 \/ i + 8 * n <= length buf)%nat /\ snd r = (i + 8 * n)%nat.
Proof.
  revert i h. induction n as [|n IH]; intros i h H; simpl in H.
  { injection H as <-. simpl. lia. }
  apply bind_Ok in H as (k & Hk & H). unfold load_u64 in Hk.
  destruct (Nat.leb_spec (i + 8) (length buf)); [|done]. apply IH in H. lia.
Qed.

Lemma murmur_tail_Ok n buf i h :
  (i + n <= length buf)%nat -> exists h', murmur_tail n buf i h = Ok h'.
Proof.
  revert h. induction n as [|n IH]; intros h Hn; simpl; [by exists h|].
  destruct (lookup_lt_is_Some_2 buf (i + n)) as [b Hb]; [lia|].
  unfold load_u8. rewrite Hb. cbn [mbind outcome_bind deref]. apply IH. lia.
Qed.

Lemma murmur_tail_bound n buf i h h' :
  murmur_tail n buf i h = Ok h' -> (n = 0 \/ i + n <= length buf)%nat.
Proof.
  destruct n as [|n]; simpl; [lia|]. intros H. apply bind_Ok in H as (b & Hb & _).
  apply deref_Ok, lookup_lt_Some in Hb. lia.
Qed.

Lemma land_7_mod len : Z.land len 7 = len mod 8.
Proof. change 7 with (Z.ones 3). by rewrite Z.land_ones by lia. Qed.

(** ** The string hash *)

(** The polynomial that compute_hash evaluates, over the letters' ranks. *)
Fixpoint string_polynomial (s : list Z) : Z :=
  match s with
  | [] => 0
  | c :: s => (c - 96) + hash_p * string_polynomial s
  end.

Definition lower_case (c : Z) : Prop := 97 <= c <= 122.

Lemma compute_hash_fold s v pp :
  Forall lower_case s -> 0 <= v < hash_m -> 0 <= pp < hash_m ->
  fst (foldl compute_hash_step (v, pp) s) = (v + pp * string_polynomial s) mod hash_m.
Proof.
  intros Hs. revert v pp. induction Hs as [|c s Hc Hs IH]; intros v pp Hv Hpp; cbn [foldl string_polynomial].
  { simpl. rewrite Z.mul_0_r, Z.add_0_r, Z.mod_small; lia. }
  unfold lower_case in Hc. unfold compute_hash_step at 2. unfold hash_m, hash_p in *.
  rewrite (wrap_small 64 (c - 97 + 1)) by lia.
  rewrite (wrap_small 64 ((c - 97 + 1) * pp)) by nia.
  rewrite !wrap_small by nia.
  rewrite IH by (apply Z.mod_pos_bound; lia).
  rewrite Z.add_mod, Z.mod_mod, (Z.mul_mod ((pp * 31) mod _)), Z.mod_mod by lia.
  rewrite <- Z.mul_mod, <- Z.add_mod by lia. f_equal. ring.
Qed.

Lemma compute_hash_range s : 0 <= compute_hash s < hash_m.
Proof.
  unfold compute_hash.
  assert (forall v pp, 0 <= v < hash_m -> 0 <= fst (foldl compute_hash_step (v, pp) s) < hash_m) as H.
  { induction s as [|c s IH]; intros v pp Hv; cbn [foldl]; [done|].
    unfold compute_hash_step at 2 4. apply IH. apply Z.mod_pos_bound. unfold hash_m. lia. }
  apply H. unfold hash_m. lia.
Qed.

(** ** Properties *)

(** C33. For a given seed [MurmurHash64A] is injective on the 64-bit keys: two
    different keys never have the same 64-bit hash, so the only collisions in a
    hash store come from taking the hash modulo the number of buckets. *)
Theorem MurmurHash64A_injective (k1 k2 seed : Z) :
  0 <= k1 < 2 ^ 64 -> 0 <= k2 < 2 ^ 64 -> MurmurHash64A k1 seed = MurmurHash64A k2 seed -> k1 = k2.
Proof. apply MurmurHash64A_inj_lemma. Qed.

Lemma MurmurHash64A_injective_witness : 7 = 3 + 4.
Proof.
  apply (MurmurHash64A_injective 7 (3 + 4) 0xdeadbeef).
  - lia.
  - lia.
  - vm_compute. reflexivity.
Defined.

(** [MurmurHash64ALen] on a key of [len] bytes succeeds exactly on buffers that
    hold [8 * len + len mod 8] bytes, because its loop runs [len] times instead of
    [len / 8] times: on a buffer of exactly [len >= 1] bytes it reads past the end. *)
Theorem MurmurHash64ALen_reads (buf : list Z) (len seed : Z) :
  0 <= len < 2 ^ 31 ->
  (is_Ok (MurmurHash64ALen buf len seed) <-> 8 * len + len mod 8 <= Z.of_nat (length buf)) /\
  (1 <= len -> Z.of_nat (length buf) = len -> MurmurHash64ALen buf len seed = Fault).
Proof.
  intros Hlen. pose proof (Z.mod_pos_bound len 8 ltac:(lia)) as Hm.
  assert (is_Ok (MurmurHash64ALen buf len seed) <-> 8 * len + len mod 8 <= Z.of_nat (length buf)) as Hiff.
  { unfold is_Ok, MurmurHash64ALen. rewrite land_7_mod. split.
    - intros [h H]. apply bind_Ok in H as ([h1 d] & Hl & H).
      apply bind_Ok in H as (h2 & Ht & _).
      apply murmur_len_loop_bound in Hl as [Hl Hd]. simpl in Hd. subst d.
      apply murmur_tail_bound in Ht. destruct (Z.eq_dec len 0) as [->|]; [simpl; lia|]. lia.
    - intros H.
      destruct (murmur_len_loop_Ok (Z.to_nat len) buf 0 (Z.lxor (u64 seed) (u64 (len * murmur_m))))
        as [h1 ->]; [lia|]. cbn [mbind outcome_bind].
      destruct (murmur_tail_Ok (Z.to_nat (len mod 8)) buf (0 + 8 * Z.to_nat len) h1) as [h2 ->]; [lia|].
      cbn [mbind outcome_bind]. eauto. }
  split; [done|]. intros H1 Hl.
  assert (forall n i h, murmur_len_loop n buf i h = Fault \/ exists r, murmur_len_loop n buf i h = Ok r) as Hloop.
  { induction n as [|n IH]; intros i h; simpl; [eauto|]. unfold load_u64.
    destruct (_ <=? _)%nat; [apply IH|by left]. }
  assert (forall n i h, murmur_tail n buf i h = Fault \/ exists r, murmur_tail n buf i h = Ok r) as Htail.
  { induction n as [|n IH]; intros i h; simpl; [eauto|]. unfold load_u8.
    destruct (buf !! _); [apply IH|by left]. }
  assert (~ is_Ok (MurmurHash64ALen buf len seed)) as Hnot by (rewrite Hiff; lia).
  revert Hnot. unfold is_Ok, MurmurHash64ALen.
  destruct (Hloop (Z.to_nat len) 0%nat (Z.lxor (u64 seed) (u64 (len * murmur_m)))) as [->|[[h1 d] ->]]; [done|].
  cbn [mbind outcome_bind].
  destruct (Htail (Z.to_nat (Z.land len 7)) d h1) as [->|[h2 ->]]; [done|].
  intros Hnot. exfalso. apply Hnot. eexists. reflexivity.
Qed.

Lemma MurmurHash64ALen_reads_witness :
  (is_Ok (MurmurHash64ALen [1; 2; 3] 3 5) <-> 8 * 3 + 3 mod 8 <= Z.of_nat (length [1; 2; 3])) /\
  (1 <= 3 -> Z.of_nat (length [1; 2; 3]) = 3 -> MurmurHash64ALen [1; 2; 3] 3 5 = Fault).
Proof. apply (MurmurHash64ALen_reads [1; 2; 3] 3 5). lia. Defined.

(** On a path of lower-case letters [compute_hash] is the polynomial of the
    letters' ranks at 31 modulo 1000000009, without overflow of the 64-bit
    intermediate values; on any string it is below the modulus. *)
Theorem compute_hash_polynomial (s t : list Z) :
  Forall lower_case s ->
  compute_hash s = string_polynomial s mod hash_m /\ 0 <= compute_hash t < hash_m.
Proof.
  intros Hs. split; [|apply compute_hash_range].
  unfold compute_hash. rewrite compute_hash_fold by (done || unfold hash_m; lia).
  by rewrite Z.mul_1_l.
Qed.

Lemma compute_hash_polynomial_witness :
  compute_hash [97; 122; 109] = string_polynomial [97; 122; 109] mod hash_m /\
  0 <= compute_hash [47; 97] < hash_m.
Proof.
  apply (compute_hash_polynomial [97; 122; 109] [47; 97]).
  unfold lower_case. repeat constructor; lia.
Defined.
