(* ===== verification/HashStore.v ===== *)
(** The memory server's hash store (core/memstore/hash_store.h, mem_store.h,
    data_item.h): buckets of [ITEM_NUM_PER_NODE] slots in the RDMA region,
    chained to overflow nodes in the reserved space. *)
From S2P Require Import Prelude Words Outcome Layout Hash.

(** ** Data *)

(** [struct DataItem]; the value is its bytes. *)
Record DataItem := MkDataItem {
  di_table_id : Z;
  di_value_size : Z;
  di_key : Z;
  di_remote_offset : Z;
  di_version : Z;
  di_lock : Z;
  di_value : list Z;
  di_valid : Z;
  di_user_insert : Z;
}.

(** An item all of whose bytes are 0. *)
Definition zero_item : DataItem :=
  MkDataItem 0 0 0 0 0 0 (replicate (Z.to_nat MAX_ITEM_SIZE) 0) 0 0.

(** The constructor for data that the server loads: [memcpy(value, d, s)] over an
    uninitialised value [v]. *)
Definition DataItem_load (v : list Z) (t s k : Z) (d : list Z) : outcome DataItem :=
  if (Z.to_nat s <=? length d)%nat && (s <=? MAX_ITEM_SIZE)
  then Ok (MkDataItem t s k 0 0 0 (take (Z.to_nat s) d ++ drop (Z.to_nat s) v) 1 0)
  else Fault.

Definition set_valid (valid : Z) (i : DataItem) : DataItem :=
  MkDataItem (di_table_id i) (di_value_size i) (di_key i) (di_remote_offset i)
    (di_version i) (di_lock i) (di_value i) valid (di_user_insert i).

(** [struct HashNode]; the null pointer is 0. *)
Record HashNode := MkHashNode { data_items : list DataItem; next : Z }.

Definition zero_node : HashNode := MkHashNode (replicate ITEM_NUM_PER_NODE zero_item) 0.

(** The nodes of the registered memory region by their addresses. *)
Abbreviation heap := (gmap Z HashNode).

(** A [DataItem*] into a node: the node's address and the slot. *)
Definition ItemPtr : Type := Z * nat.

Definition item_address (ptr : ItemPtr) : Z := fst ptr + Z.of_nat (snd ptr) * DataItemSize.

Record MemStoreAllocParam := MkAllocParam {
  mem_region_start : Z;
  mem_store_start : Z;
  mem_store_alloc_offset : Z;
  alloc_mem_store_reserve : Z;
}.

Record MemStoreReserveParam := MkReserveParam {
  mem_store_reserve : Z;
  mem_store_reserve_offset : Z;
  mem_store_end : Z;
}.

Record HashStore := MkHashStore {
  hs_table_id : Z;
  base_off : Z;
  bucket_num : Z;
  data_ptr : Z;
  node_num : Z;
  table_size : Z;
  region_start_ptr : Z;
}.

(** ** Operations *)

(** [memset(p, 0, n * sizeof(HashNode))]. *)
Fixpoint memset_nodes (n : nat) (p : Z) (h : heap) : heap :=
  match n with
  | O => h
  | S n => <[p := zero_node]> (memset_nodes n (p + HashNodeSize) h)
  end.

(** The constructor. *)
Definition new_HashStore (table_id bucket_num : Z) (param : MemStoreAllocParam) (h : heap)
    : outcome (HashStore * MemStoreAllocParam * heap) :=
  _ ← assert_ (0 <? bucket_num);
  let table_size := u64 (bucket_num * HashNodeSize) in
  let region_start_ptr := mem_region_start param in
  _ ← assert_ (u64 (mem_store_start param + mem_store_alloc_offset param + table_size)
                 <=? alloc_mem_store_reserve param);
  let data_ptr := mem_store_start param + mem_store_alloc_offset param in
  let param := MkAllocParam (mem_region_start param) (mem_store_start param)
                 (i64 (mem_store_alloc_offset param + table_size)) (alloc_mem_store_reserve param) in
  let base_off := i64 (u64 (data_ptr - region_start_ptr)) in
  _ ← assert_ (0 <=? base_off);
  _ ← assert_ (negb (data_ptr =? 0));
  let h := memset_nodes (Z.to_nat bucket_num) data_ptr h in
  Ok (MkHashStore table_id base_off bucket_num data_ptr 0 table_size region_start_ptr, param, h).

Definition GetItemRemoteOffset (st : HashStore) (ptr : ItemPtr) : Z :=
  i64 (u64 (item_address ptr - region_start_ptr st)).

Definition GetHash (st : HashStore) (key : Z) : Z :=
  MurmurHash64A key 0xdeadbeef mod bucket_num st.

(** [(HashNode* )(hash * sizeof(HashNode) + data_ptr)]. *)
Definition bucket_address (st : HashStore) (hash : Z) : Z :=
  u64 (hash * HashNodeSize) + data_ptr st.

(** [data_item.valid && data_item.key == key]. *)
Definition matches (key : Z) (i : DataItem) : bool :=
  negb (di_valid i =? 0) && (di_key i =? key).

Definition is_free (i : DataItem) : bool := di_valid i =? 0.

(** The [for] loop over [node->data_items] that stops at the first item with [f]. *)
Fixpoint find_slot (f : DataItem -> bool) (items : list DataItem) : option nat :=
  match items with
  | [] => None
  | i :: items => if f i then Some O else S <$> find_slot f items
  end.

(** Reading and writing [*ptr]. *)
Definition read_item (h : heap) (ptr : ItemPtr) : option DataItem :=
  n ← h !! fst ptr; data_items n !! snd ptr.

Definition write_item (h : heap) (ptr : ItemPtr) (i : DataItem) : heap :=
  match h !! fst ptr with
  | Some n => <[fst ptr := MkHashNode (<[snd ptr := i]> (data_items n)) (next n)]> h
  | None => h
  end.

(** The traversals visit each node once, so the number of nodes bounds them. *)
Definition heap_fuel (h : heap) : nat := S (size h).

(** [while (node) { for (...) if (...) return &data_item; node = node->next; }]. *)
Fixpoint find_loop (fuel : nat) (f : DataItem -> bool) (h : heap) (node : Z) : outcome (option ItemPtr) :=
  match fuel with
  | O => OutOfFuel
  | S fuel =>
      if node =? 0 then Ok None
      else
        n ← deref (h !! node);
        match find_slot f (data_items n) with
        | Some i => Ok (Some (node, i))
        | None => find_loop fuel f h (next n)
        end
  end.

Definition LocalGet (st : HashStore) (key : Z) (h : heap) : outcome (option ItemPtr) :=
  find_loop (heap_fuel h) (matches key) h (bucket_address st (GetHash st key)).

(** The search of LocalInsert: a free slot, or the last node of the chain. *)
Fixpoint insert_loop (fuel : nat) (h : heap) (node : Z) : outcome (ItemPtr + Z) :=
  match fuel with
  | O => OutOfFuel
  | S fuel =>
      if node =? 0 then Ok (inr node)
      else
        n ← deref (h !! node);
        match find_slot is_free (data_items n) with
        | Some i => Ok (inl (node, i))
        | None => if next n =? 0 then Ok (inr node) else insert_loop fuel h (next n)
        end
  end.

Definition LocalInsert (st : HashStore) (key : Z) (data_item : DataItem)
    (param : MemStoreReserveParam) (h : heap)
    : outcome (ItemPtr * HashStore * MemStoreReserveParam * heap) :=
  r ← insert_loop (heap_fuel h) h (bucket_address st (GetHash st key));
  match r with
  | inl ptr => Ok (ptr, st, param, write_item h ptr (set_valid 1 data_item))
  | inr node =>
      _ ← assert_ (u64 (mem_store_reserve param + mem_store_reserve_offset param)
                     <=? mem_store_end param);
      let new_node := mem_store_reserve param + mem_store_reserve_offset param in
      let param := MkReserveParam (mem_store_reserve param)
                     (mem_store_reserve_offset param + HashNodeSize) (mem_store_end param) in
      let h := <[new_node := zero_node]> h in
      let h := write_item h (new_node, O) (set_valid 1 data_item) in
      n ← deref (h !! node);
      let h := <[node := MkHashNode (data_items n) new_node]> h in
      let st := MkHashStore (hs_table_id st) (base_off st) (bucket_num st) (data_ptr st)
                  (u64 (node_num st + 1)) (table_size st) (region_start_ptr st) in
      Ok ((new_node, O), st, param, h)
  end.

Definition LocalPut (st : HashStore) (key : Z) (data_item : DataItem)
    (param : MemStoreReserveParam) (h : heap)
    : outcome (ItemPtr * HashStore * MemStoreReserveParam * heap) :=
  res ← LocalGet st key h;
  match res with
  | Some res => Ok (res, st, param, write_item h res data_item)
  | None => LocalInsert st key data_item param h
  end.

(** The first node of the bucket is searched before the loop over the others. *)
Definition LocalDelete (st : HashStore) (key : Z) (h : heap) : outcome (bool * heap) :=
  let node := bucket_address st (GetHash st key) in
  let invalidate ptr := match read_item h ptr with
                        | Some i => write_item h ptr (set_valid 0 i)
                        | None => h
                        end in
  n ← deref (h !! node);
  match find_slot (matches key) (data_items n) with
  | Some i => Ok (true, invalidate (node, i))
  | None =>
      r ← find_loop (heap_fuel h) (matches key) h (next n);
      match r with
      | Some ptr => Ok (true, invalidate ptr)
      | None => Ok (false, h)
      end
  end.
