(* ===== verification/HashStoreRefine.v ===== *)
(** The hash store implements a finite map: what the traversals of its chains return and
    what a write or a new node changes; its invariant, the abstraction of a bucket to a map,
    and the refinement of the operations. *)
From S2P Require Import Prelude Words Outcome Layout Hash HashStore.

(** ** Slots of a node *)

Lemma find_slot_Some f items i :
  find_slot f items = Some i ->
  exists item, items !! i = Some item /\ f item = true /\ Forall (fun x => f x = false) (take i items).
Proof.
  revert i. induction items as [|x items IH]; intros i H; simpl in H; [done|].
  destruct (f x) eqn:E.
  - injection H as <-. exists x. by repeat split.
  - destruct (find_slot f items) as [j|]; [|done]. injection H as <-.
    destruct (IH j eq_refl) as (item & ? & ? & ?). exists item. repeat split; [done|done|by constructor].
Qed.

Lemma find_slot_None f items : find_slot f items = None -> Forall (fun x => f x = false) items.
Proof.
  induction items as [|x items IH]; simpl; [constructor|].
  destruct (f x) eqn:E; [done|]. destruct (find_slot f items); [done|]. constructor; auto.
Qed.

(** ** Chains *)

(** From address [a] the [next] pointers visit exactly the nodes [l]. *)
Fixpoint chain (h : heap) (a : Z) (l : list Z) : Prop :=
  match l with
  | [] => a = 0
  | b :: l =>
      a = b /\ a <> 0 /\
      exists n, h !! a = Some n /\ length (data_items n) = ITEM_NUM_PER_NODE /\ chain h (next n) l
  end.

Definition node_items (h : heap) (a : Z) : list DataItem :=
  match h !! a with Some n => data_items n | None => [] end.

(** The slots of a chain, in the order of the traversals. *)
Definition slots (h : heap) (l : list Z) : list DataItem := concat (map (node_items h) l).

Lemma slots_app h l1 l2 : slots h (l1 ++ l2) = slots h l1 ++ slots h l2.
Proof. unfold slots. by rewrite map_app, concat_app. Qed.

Lemma slots_cons h a l : slots h (a :: l) = node_items h a ++ slots h l.
Proof. done. Qed.

Lemma slots_ext h h' l : (forall a, a ∈ l -> h !! a = h' !! a) -> slots h l = slots h' l.
Proof.
  intros H. unfold slots. f_equal. apply map_ext_in. intros a Ha. unfold node_items.
  rewrite H; [done|by apply list_elem_of_In].
Qed.

Lemma chain_ext h h' a l : (forall a, a ∈ l -> h !! a = h' !! a) -> chain h a l -> chain h' a l.
Proof.
  revert a. induction l as [|b l IH]; intros a H; simpl; [done|].
  intros (-> & ? & n & Hn & ? & Hc). repeat split; [done|]. exists n.
  rewrite <- H by apply list_elem_of_here. repeat split; [done|done|].
  apply IH; [|done]. intros x Hx. apply H. by apply list_elem_of_further.
Qed.

Lemma chain_det h a l1 l2 : chain h a l1 -> chain h a l2 -> l1 = l2.
Proof.
  revert a l2. induction l1 as [|x l1 IH]; intros a [|y l2]; simpl; try done.
  - by intros -> (? & ? & _).
  - by intros (? & ? & _) ->.
  - intros (<- & _ & n & Hn & _ & H1) (<- & _ & n' & Hn' & _ & H2). f_equal.
    simplify_eq. by eapply IH.
Qed.

Lemma chain_suffix h a l1 b l2 : chain h a (l1 ++ b :: l2) -> chain h b (b :: l2).
Proof.
  revert a. induction l1 as [|x l1 IH]; intros a; cbn [app].
  - intros H. by destruct (proj1 H).
  - intros (_ & _ & n & _ & _ & H). by eapply IH.
Qed.

(** The code's null pointer ends a chain, so it has no cycle. *)
Lemma chain_NoDup h a l : chain h a l -> NoDup l.
Proof.
  revert a. induction l as [|b l IH]; intros a H; [constructor|].
  constructor.
  - intros Hin. apply list_elem_of_split in Hin as (l1 & l2 & ->).
    pose proof (chain_suffix h a [] b _ H) as H1.
    pose proof (chain_suffix h a (b :: l1) b l2 H) as H2.
    pose proof (chain_det _ _ _ _ H1 H2) as E. apply (f_equal length) in E.
    simpl in E. rewrite length_app in E. simpl in E. lia.
  - destruct H as (_ & _ & n & _ & _ & H). by eapply IH.
Qed.

Lemma chain_dom h a l b : chain h a l -> b ∈ l -> b ∈ dom h /\ b <> 0.
Proof.
  revert a. induction l as [|x l IH]; intros a H Hb; [by apply not_elem_of_nil in Hb|].
  destruct H as (-> & H0 & n & Hn & _ & H). apply elem_of_cons in Hb as [->|Hb].
  - split; [by eapply elem_of_dom_2|done].
  - by eapply IH.
Qed.

Lemma chain_fuel h a l : chain h a l -> (length l < heap_fuel h)%nat.
Proof.
  intros H. unfold heap_fuel. apply Nat.lt_succ_r.
  rewrite <- (size_list_to_set (C:=gset Z) l) by by eapply chain_NoDup.
  rewrite <- size_dom. apply subseteq_size. intros x Hx.
  apply elem_of_list_to_set in Hx. by eapply chain_dom.
Qed.

(** ** A slot of a chain *)

(** [ptr] is the slot of the chain [l] that holds [item], with the slots [pre]
    before and [post] after it. *)
Definition located (h : heap) (l : list Z) (ptr : ItemPtr) (pre : list DataItem)
    (item : DataItem) (post : list DataItem) : Prop :=
  exists l1 n l2,
    l = l1 ++ fst ptr :: l2 /\ h !! fst ptr = Some n /\
    data_items n !! snd ptr = Some item /\
    pre = slots h l1 ++ take (snd ptr) (data_items n) /\
    post = drop (S (snd ptr)) (data_items n) ++ slots h l2.

Lemma located_slots h l ptr pre item post :
  located h l ptr pre item post -> slots h l = pre ++ item :: post.
Proof.
  intros (l1 & n & l2 & -> & Hn & Hi & -> & ->).
  rewrite slots_app, slots_cons. unfold node_items. rewrite Hn.
  rewrite <- (take_drop_middle _ _ _ Hi) at 1. by rewrite <- !app_assoc.
Qed.

Lemma located_read h l ptr pre item post :
  located h l ptr pre item post -> read_item h ptr = Some item.
Proof. intros (l1 & n & l2 & _ & Hn & Hi & _). unfold read_item. by rewrite Hn. Qed.

Lemma located_elem h l ptr pre item post : located h l ptr pre item post -> fst ptr ∈ l.
Proof. intros (l1 & n & l2 & -> & _). set_solver. Qed.

Lemma write_item_other h ptr i a : a <> fst ptr -> write_item h ptr i !! a = h !! a.
Proof.
  intros Ha. unfold write_item. destruct (h !! fst ptr); [|done]. by apply lookup_insert_ne.
Qed.

Lemma read_write_other h ptr ptr' i : ptr' <> ptr -> read_item (write_item h ptr i) ptr' = read_item h ptr'.
Proof.
  intros Hne. unfold read_item. destruct (decide (fst ptr' = fst ptr)) as [E|E].
  - unfold write_item. rewrite E. destruct (h !! fst ptr) as [n|] eqn:Hn; [|by rewrite Hn].
    rewrite lookup_insert_eq. cbn [mbind option_bind data_items]. apply list_lookup_insert_ne.
    intros E2. apply Hne. destruct ptr, ptr'. cbn [fst snd] in *. congruence.
  - by rewrite write_item_other.
Qed.

Lemma write_item_dom h ptr i : dom (write_item h ptr i) = dom h.
Proof.
  unfold write_item. destruct (h !! fst ptr) as [n|] eqn:E; [|done].
  rewrite dom_insert_L. apply elem_of_dom_2 in E. set_solver.
Qed.

Lemma located_write h l ptr pre item post i :
  NoDup l -> located h l ptr pre item post -> located (write_item h ptr i) l ptr pre i post.
Proof.
  intros Hl (l1 & n & l2 & -> & Hn & Hi & -> & ->).
  apply NoDup_app in Hl as (_ & Hl1 & Hl2). apply NoDup_cons in Hl2 as [Hl2 _].
  assert (forall l', fst ptr ∉ l' -> slots (write_item h ptr i) l' = slots h l') as Hs.
  { intros l' Hnot. apply slots_ext. intros a Ha. apply write_item_other. congruence. }
  exists l1, (MkHashNode (<[snd ptr := i]> (data_items n)) (next n)), l2. split; [done|].
  repeat split.
  - unfold write_item. rewrite Hn. apply lookup_insert_eq.
  - simpl. apply list_lookup_insert_eq. by eapply lookup_lt_Some.
  - simpl. rewrite Hs by (intros Hx; apply (Hl1 _ Hx); set_solver).
    by rewrite take_insert_ge by lia.
  - simpl. rewrite Hs by done. by rewrite drop_insert_lt by lia.
Qed.

Lemma chain_write h a l ptr i : chain h a l -> chain (write_item h ptr i) a l.
Proof.
  revert a. induction l as [|b l IH]; intros a; simpl; [done|].
  intros (-> & H0 & n & Hn & Hlen & H). repeat split; [done|].
  destruct (decide (b = fst ptr)) as [->|Hne].
  - unfold write_item at 1. rewrite Hn. rewrite lookup_insert_eq. eexists. split; [done|].
    simpl. rewrite length_insert. split; [done|]. by apply IH.
  - rewrite write_item_other by done. exists n. repeat split; [done|done|]. by apply IH.
Qed.

(** ** The traversals *)

Lemma located_here h a n l i item :
  h !! a = Some n -> data_items n !! i = Some item ->
  located h (a :: l) (a, i) (take i (data_items n)) item (drop (S i) (data_items n) ++ slots h l).
Proof. intros Hn Hi. by exists [], n, l. Qed.

Lemma located_further h a n l ptr pre item post :
  h !! a = Some n -> located h l ptr pre item post ->
  located h (a :: l) ptr (data_items n ++ pre) item post.
Proof.
  intros Hn (l1 & n' & l2 & -> & Hn' & Hi & -> & ->). exists (a :: l1), n', l2.
  repeat split; [done|done|]. rewrite slots_cons. unfold node_items. by rewrite Hn, <- app_assoc.
Qed.

Lemma find_loop_spec fuel f h a l :
  chain h a l -> (length l < fuel)%nat ->
  (find_loop fuel f h a = Ok None /\ Forall (fun x => f x = false) (slots h l)) \/
  (exists ptr pre item post,
     find_loop fuel f h a = Ok (Some ptr) /\ located h l ptr pre item post /\
     f item = true /\ Forall (fun x => f x = false) pre).
Proof.
  revert a l. induction fuel as [|fuel IH]; intros a [|b l] Hc Hf; simpl in Hf; try lia.
  - left. simpl in Hc. subst a. split; [done|constructor].
  - destruct Hc as (-> & H0 & n & Hn & _ & Hc). simpl. rewrite (proj2 (Z.eqb_neq _ _) H0), Hn.
    cbn [mbind outcome_bind deref]. destruct (find_slot f (data_items n)) as [i|] eqn:E.
    + right. apply find_slot_Some in E as (item & Hi & Hm & Hpre).
      exists (b, i), (take i (data_items n)), item, (drop (S i) (data_items n) ++ slots h l).
      split; [done|]. split; [by apply located_here|done].
    + apply find_slot_None in E. destruct (IH _ _ Hc ltac:(lia)) as [[-> Hnone]|Hsome].
      * left. split; [done|]. rewrite slots_cons. unfold node_items. rewrite Hn. by apply Forall_app.
      * destruct Hsome as (ptr & pre & item & post & -> & Hl & Hm & Hpre). right.
        exists ptr, (data_items n ++ pre), item, post. split; [done|].
        split; [by apply located_further|]. split; [done|by apply Forall_app].
Qed.

Lemma insert_loop_spec fuel h a l :
  chain h a l -> l <> [] -> (length l < fuel)%nat ->
  (exists ptr pre item post,
     insert_loop fuel h a = Ok (inl ptr) /\ located h l ptr pre item post /\ di_valid item = 0) \/
  (exists l1 z, l = l1 ++ [z] /\ insert_loop fuel h a = Ok (inr z) /\
     Forall (fun x => di_valid x <> 0) (slots h l)).
Proof.
  revert a l. induction fuel as [|fuel IH]; intros a [|b l] Hc Hne Hf; simpl in Hf; try lia; [done|].
  destruct Hc as (-> & H0 & n & Hn & _ & Hc). simpl. rewrite (proj2 (Z.eqb_neq _ _) H0), Hn.
  cbn [mbind outcome_bind deref]. destruct (find_slot is_free (data_items n)) as [i|] eqn:E.
  { left. apply find_slot_Some in E as (item & Hi & Hm & Hpre).
    exists (b, i), (take i (data_items n)), item, (drop (S i) (data_items n) ++ slots h l).
    split; [done|]. split; [by apply located_here|by apply Z.eqb_eq]. }
  apply find_slot_None in E.
  assert (Forall (fun x => di_valid x <> 0) (data_items n)) as Hfull.
  { eapply Forall_impl; [exact E|]. intros x Hx. by apply Z.eqb_neq. }
  destruct l as [|c l].
  { simpl in Hc. rewrite Hc. cbn [Z.eqb]. right. exists [], b. repeat split.
    unfold slots. simpl. unfold node_items. by rewrite Hn, app_nil_r. }
  rewrite (proj2 (Z.eqb_neq _ _)) by (destruct Hc as (-> & ? & _); done).
  destruct (IH _ _ Hc ltac:(done) ltac:(lia)) as [Hsome|Hfull'].
  - left. destruct Hsome as (ptr & pre & item & post & -> & Hl & Hm).
    exists ptr, (data_items n ++ pre), item, post. split; [done|].
    split; [by apply located_further|done].
  - right. destruct Hfull' as (l1 & z & -> & -> & Hs). exists (b :: l1), z. repeat split.
    rewrite slots_cons. unfold node_items. rewrite Hn. by apply Forall_app.
Qed.

(** A new node [z'] linked behind the last node of a chain. *)
Lemma chain_snoc h a l1 z n z' items :
  chain h a (l1 ++ [z]) -> h !! z = Some n -> z' ∉ dom h -> z' <> 0 ->
  length items = ITEM_NUM_PER_NODE ->
  let h' := <[z := MkHashNode (data_items n) z']> (<[z' := MkHashNode items 0]> h) in
  chain h' a ((l1 ++ [z]) ++ [z']) /\ slots h' ((l1 ++ [z]) ++ [z']) = slots h (l1 ++ [z]) ++ items.
Proof.
  intros Hc Hn Hfresh H0 Hlen h'.
  assert (z <> z') as Hne by (intros ->; apply Hfresh; by eapply elem_of_dom_2).
  assert (forall b, b ∈ l1 ++ [z] -> b <> z' /\ (b ∈ l1 -> b <> z)) as Hother.
  { intros b Hb. pose proof (chain_NoDup _ _ _ Hc) as Hnd. split.
    - intros ->. apply Hfresh. by eapply chain_dom.
    - intros Hb1 ->. apply NoDup_app in Hnd as (_ & Hd & _). apply (Hd z Hb1). set_solver. }
  assert (h' !! z' = Some (MkHashNode items 0)) as Hz'.
  { unfold h'. by rewrite lookup_insert_ne, lookup_insert_eq. }
  split.
  - clear Hfresh. revert a Hc Hother. induction l1 as [|b l1 IH]; intros a Hc Hother; cbn [app] in *.
    + destruct Hc as (-> & Hz & m & Hm & Hl & _). repeat split; [done|]. simplify_eq.
      exists (MkHashNode (data_items n) z'). unfold h' at 1. rewrite lookup_insert_eq.
      repeat split; [done|done|]. exists (MkHashNode items 0). by repeat split.
    + destruct Hc as (-> & Hb & m & Hm & Hl & Hc). repeat split; [done|]. exists m.
      destruct (Hother b) as [Hb1 Hb2]; [set_solver|].
      split; [|split; [done|]].
      * unfold h'. by rewrite !lookup_insert_ne by (apply not_eq_sym; first [done|apply Hb2; set_solver]).
      * apply IH; [done|]. intros x Hx. destruct (Hother x) as [? Hx2]; [set_solver|].
        split; [done|]. intros Hx1. apply Hx2. set_solver.
  - rewrite slots_app. f_equal.
    + unfold slots. f_equal. apply map_ext_in. intros b Hb. apply list_elem_of_In in Hb.
      destruct (Hother b Hb) as [Hb1 _]. unfold node_items, h'.
      destruct (decide (b = z)) as [->|Hbz].
      * by rewrite lookup_insert_eq, Hn.
      * by rewrite !lookup_insert_ne by done.
    + unfold slots. simpl. unfold node_items. by rewrite Hz', app_nil_r.
Qed.

(** ** The map of a list of slots *)

Definition entry (i : DataItem) : option (Z * DataItem) :=
  if di_valid i =? 0 then None else Some (di_key i, i).

Definition entries (items : list DataItem) : list (Z * DataItem) := omap entry items.

(** The first valid slot of a key counts. *)
Definition bucket_map (items : list DataItem) : gmap Z DataItem := list_to_map (entries items).

Lemma entries_app l1 l2 : entries (l1 ++ l2) = entries l1 ++ entries l2.
Proof. apply omap_app. Qed.

Lemma entries_cons_valid i l :
  di_valid i <> 0 -> entries (i :: l) = (di_key i, i) :: entries l.
Proof.
  intros H. unfold entries. cbn [omap list_omap]. unfold entry at 1.
  by rewrite (proj2 (Z.eqb_neq _ _) H).
Qed.

Lemma entries_cons_free i l : di_valid i = 0 -> entries (i :: l) = entries l.
Proof.
  intros H. unfold entries. cbn [omap list_omap]. unfold entry at 1. by rewrite H.
Qed.

Lemma entries_zero n : entries (replicate n zero_item) = [].
Proof. induction n as [|n IH]; [done|]. by rewrite replicate_S, entries_cons_free. Qed.

Lemma matches_true key i : matches key i = true <-> di_valid i <> 0 /\ di_key i = key.
Proof.
  unfold matches. rewrite andb_true_iff, negb_true_iff, Z.eqb_neq, Z.eqb_eq. done.
Qed.

Lemma not_matches_entries key l :
  Forall (fun i => matches key i = false) l -> key ∉ (entries l).*1.
Proof.
  induction 1 as [|i l Hi _ IH]; [by apply not_elem_of_nil|].
  destruct (Z.eq_dec (di_valid i) 0) as [H0|H0].
  - by rewrite entries_cons_free.
  - rewrite entries_cons_valid by done. cbn [fmap list_fmap fst].
    apply not_elem_of_cons. split; [|done]. intros ->.
    assert (matches (di_key i) i = true) by by apply matches_true. congruence.
Qed.

(** The three ways an operation changes the slots of a bucket. *)
Section Slots.
Context (pre post : list DataItem) (old : DataItem).
#[local] Abbreviation before := (pre ++ old :: post).

Lemma entries_middle i : di_valid i <> 0 ->
  entries (pre ++ i :: post) ≡ₚ (di_key i, i) :: entries (pre ++ post).
Proof using All.
  intros H. rewrite !entries_app, entries_cons_valid by done. by rewrite Permutation_middle.
Qed.

Lemma bucket_get key :
  matches key old = true -> Forall (fun i => matches key i = false) pre ->
  bucket_map before !! key = Some old.
Proof using All.
  intros (Hv & <-)%matches_true Hpre. unfold bucket_map.
  rewrite entries_app, entries_cons_valid by done.
  rewrite list_to_map_app, lookup_union_r.
  - simpl. apply lookup_insert_eq.
  - apply not_elem_of_list_to_map_1. by apply not_matches_entries.
Qed.

Lemma bucket_overwrite i :
  NoDup (entries before).*1 -> di_valid old <> 0 -> di_valid i <> 0 -> di_key i = di_key old ->
  NoDup (entries (pre ++ i :: post)).*1 /\
  bucket_map (pre ++ i :: post) = <[di_key i := i]> (bucket_map before).
Proof using All.
  intros Hnd Ho Hi Hk.
  assert (NoDup (entries (pre ++ i :: post)).*1) as Hnd'.
  { rewrite entries_middle in Hnd |- * by done. cbn [fmap list_fmap fst] in *. by rewrite Hk. }
  split; [done|]. unfold bucket_map.
  rewrite (list_to_map_proper _ _ Hnd' (entries_middle i Hi)).
  rewrite (list_to_map_proper _ _ Hnd (entries_middle old Ho)).
  simpl. by rewrite Hk, insert_insert_eq.
Qed.

Lemma bucket_fill i :
  NoDup (entries before).*1 -> di_valid old = 0 -> di_valid i <> 0 ->
  di_key i ∉ (entries before).*1 ->
  NoDup (entries (pre ++ i :: post)).*1 /\
  bucket_map (pre ++ i :: post) = <[di_key i := i]> (bucket_map before).
Proof using All.
  intros Hnd Ho Hi Hk. rewrite entries_app, (entries_cons_free old), <- entries_app in Hnd, Hk by done.
  assert (NoDup (entries (pre ++ i :: post)).*1) as Hnd'.
  { rewrite entries_middle by done. cbn [fmap list_fmap fst]. by constructor. }
  split; [done|]. unfold bucket_map.
  rewrite (list_to_map_proper _ _ Hnd' (entries_middle i Hi)).
  by rewrite (entries_app pre (old :: post)), entries_cons_free, <- entries_app by done.
Qed.

Lemma bucket_invalidate :
  NoDup (entries before).*1 -> di_valid old <> 0 ->
  NoDup (entries (pre ++ set_valid 0 old :: post)).*1 /\
  bucket_map (pre ++ set_valid 0 old :: post) = delete (di_key old) (bucket_map before).
Proof using All.
  intros Hnd Ho. unfold bucket_map.
  rewrite (list_to_map_proper _ _ Hnd (entries_middle old Ho)).
  rewrite entries_middle in Hnd by done.
  rewrite (entries_app pre (set_valid 0 old :: post)), (entries_cons_free (set_valid 0 old)), <- entries_app by done.
  cbn [fmap list_fmap fst] in Hnd. apply NoDup_cons in Hnd as [Hk Hnd]. split; [done|].
  simpl. rewrite delete_insert_id; [done|]. by apply not_elem_of_list_to_map_1.
Qed.
End Slots.

Lemma bucket_snoc items i n :
  NoDup (entries items).*1 -> di_valid i <> 0 -> di_key i ∉ (entries items).*1 ->
  NoDup (entries (items ++ i :: replicate n zero_item)).*1 /\
  bucket_map (items ++ i :: replicate n zero_item) = <[di_key i := i]> (bucket_map items).
Proof.
  intros Hnd Hi Hk.
  assert (entries (items ++ i :: replicate n zero_item) ≡ₚ (di_key i, i) :: entries items) as HP.
  { rewrite entries_app, entries_cons_valid, entries_zero by done.
    rewrite Permutation_app_comm. done. }
  assert (NoDup (entries (items ++ i :: replicate n zero_item)).*1) as Hnd'.
  { rewrite HP. cbn [fmap list_fmap fst]. by constructor. }
  split; [done|]. unfold bucket_map. by rewrite (list_to_map_proper _ _ Hnd' HP).
Qed.

Lemma bucket_get_none items key :
  Forall (fun i => matches key i = false) items -> bucket_map items !! key = None.
Proof. intros H. apply not_elem_of_list_to_map_1. by apply not_matches_entries. Qed.

Lemma bucket_not_elem items key : bucket_map items !! key = None -> key ∉ (entries items).*1.
Proof. apply not_elem_of_list_to_map_2. Qed.

(** ** The invariant of a store *)

Definition is_key (key : Z) : Prop := 0 <= key < 2 ^ 64.

Definition bucket_of (st : HashStore) (key : Z) : nat := Z.to_nat (GetHash st key).

(** The chains [L] of the buckets of [st] in the heap. *)
Record wf_store (st : HashStore) (h : heap) (L : list (list Z)) : Prop := {
  wf_buckets : 0 < bucket_num st /\ length L = Z.to_nat (bucket_num st);
  wf_chain b l : L !! b = Some l -> chain h (bucket_address st (Z.of_nat b)) l /\ l <> [];
  wf_disjoint : NoDup (concat L);
  wf_unique b l : L !! b = Some l -> NoDup (entries (slots h l)).*1;
}.

(** No node lies behind the allocation pointer of the reserved space, and its
    arithmetic does not wrap. *)
Definition wf_reserve (param : MemStoreReserveParam) (h : heap) : Prop :=
  0 < mem_store_reserve param + mem_store_reserve_offset param /\
  mem_store_reserve param + mem_store_reserve_offset param <= mem_store_end param + HashNodeSize < 2 ^ 64 /\
  forall a, a ∈ dom h -> a < mem_store_reserve param + mem_store_reserve_offset param.

(** The store holds the map [m]. *)
Definition represents (st : HashStore) (h : heap) (L : list (list Z)) (m : gmap Z DataItem) : Prop :=
  forall key, is_key key ->
    m !! key = bucket_map (slots h (default [] (L !! bucket_of st key))) !! key.

Definition store_inv (st : HashStore) (param : MemStoreReserveParam) (h : heap)
    (L : list (list Z)) (m : gmap Z DataItem) : Prop :=
  wf_store st h L /\ wf_reserve param h /\ represents st h L m.

Lemma bucket_of_lookup st h L key :
  wf_store st h L -> exists l, L !! bucket_of st key = Some l /\
    Z.of_nat (bucket_of st key) = GetHash st key.
Proof.
  intros [[Hb HL] _ _ _]. unfold bucket_of, GetHash.
  pose proof (Z.mod_pos_bound (MurmurHash64A key 0xdeadbeef) (bucket_num st) Hb).
  destruct (lookup_lt_is_Some_2 L (Z.to_nat (MurmurHash64A key 0xdeadbeef mod bucket_num st))) as [l Hl].
  { lia. }
  exists l. split; [done|]. rewrite Z2Nat.id; lia.
Qed.

Lemma chains_disjoint (L : list (list Z)) b b' l l' a :
  NoDup (concat L) -> L !! b = Some l -> L !! b' = Some l' -> b <> b' -> a ∈ l -> a ∉ l'.
Proof.
  revert b b'. induction L as [|x L IH]; intros b b' Hnd Hb Hb' Hne Ha Ha'; [done|].
  simpl in Hnd. apply NoDup_app in Hnd as (_ & Hd & Hnd).
  assert (forall c k, L !! c = Some k -> a ∈ k -> a ∈ concat L) as Hin.
  { intros c k Hc Hk. apply list_elem_of_In, in_concat. exists k.
    split; [|by apply list_elem_of_In]. apply list_elem_of_In. by eapply list_elem_of_lookup_2. }
  destruct b as [|b], b' as [|b']; simpl in Hb, Hb'; simplify_eq.
  - apply (Hd a Ha). by eapply Hin.
  - apply (Hd a Ha'). by eapply Hin.
  - apply (IH b b'); [done|done|done|congruence|done|done].
Qed.

Lemma NoDup_concat_lookup (L : list (list Z)) b l : NoDup (concat L) -> L !! b = Some l -> NoDup l.
Proof.
  revert b. induction L as [|x L IH]; intros b Hnd Hb; [done|].
  simpl in Hnd. apply NoDup_app in Hnd as (Hx & _ & Hnd).
  destruct b as [|b]; simpl in Hb; [by simplify_eq|by eapply IH].
Qed.

(** ** Steps that change one bucket *)

(** The store's operations change only [node_num]. *)
Definition same_buckets (st st' : HashStore) : Prop :=
  bucket_num st' = bucket_num st /\ data_ptr st' = data_ptr st.

Lemma same_buckets_refl st : same_buckets st st.
Proof. done. Qed.

Lemma same_buckets_bucket_of st st' key : same_buckets st st' -> bucket_of st' key = bucket_of st key.
Proof. intros [H _]. unfold bucket_of, GetHash. by rewrite H. Qed.

Lemma same_buckets_address st st' b : same_buckets st st' -> bucket_address st' b = bucket_address st b.
Proof. intros [_ H]. unfold bucket_address. by rewrite H. Qed.

(** Bucket [b] has the slots [items] in [h'] and every other bucket is as before. *)
Definition bucket_changed (h : heap) (L : list (list Z)) (b : nat) (items : list DataItem)
    (h' : heap) (L' : list (list Z)) : Prop :=
  slots h' (default [] (L' !! b)) = items /\
  forall b', b' <> b -> slots h' (default [] (L' !! b')) = slots h (default [] (L !! b')).

Definition set_key (key : Z) (o : option DataItem) (m : gmap Z DataItem) : gmap Z DataItem :=
  match o with Some i => <[key := i]> m | None => delete key m end.

Lemma lookup_set_key key o m key' :
  set_key key o m !! key' = if decide (key = key') then o else m !! key'.
Proof.
  destruct o; simpl; case_decide as E.
  - subst. apply lookup_insert_eq.
  - by apply lookup_insert_ne.
  - subst. apply lookup_delete_eq.
  - by apply lookup_delete_ne.
Qed.

Lemma represents_set st st' h L m key o items h' L' :
  same_buckets st st' -> represents st h L m ->
  bucket_changed h L (bucket_of st key) items h' L' ->
  bucket_map items = set_key key o (bucket_map (slots h (default [] (L !! bucket_of st key)))) ->
  represents st' h' L' (set_key key o m).
Proof.
  intros Hst Hm [Hb Hother] Hset key' Hkey'.
  rewrite (same_buckets_bucket_of _ _ _ Hst), lookup_set_key.
  destruct (decide (bucket_of st key' = bucket_of st key)) as [E|Hne].
  - rewrite E, Hb, Hset, lookup_set_key, <- E. case_decide; [done|by apply Hm].
  - rewrite (Hother _ Hne), <- (Hm _ Hkey'). case_decide; [congruence|done].
Qed.

Lemma wf_write st h L b l ptr pre old post i :
  wf_store st h L -> L !! b = Some l -> located h l ptr pre old post ->
  NoDup (entries (pre ++ i :: post)).*1 ->
  wf_store st (write_item h ptr i) L /\
  bucket_changed h L b (pre ++ i :: post) (write_item h ptr i) L /\
  read_item (write_item h ptr i) ptr = Some i.
Proof.
  intros [Hbuckets Hchain Hdis Huniq] Hb Hl Hnd.
  pose proof (NoDup_concat_lookup _ _ _ Hdis Hb) as Hndl.
  pose proof (located_write _ _ _ _ _ _ i Hndl Hl) as Hl'.
  pose proof (located_slots _ _ _ _ _ _ Hl') as Hs'.
  assert (forall b' l', b' <> b -> L !! b' = Some l' -> slots (write_item h ptr i) l' = slots h l') as Hother.
  { intros b' l' Hne Hb'. apply slots_ext. intros a Ha. apply write_item_other. intros ->.
    by apply (chains_disjoint L b b' l l' (fst ptr) Hdis Hb Hb' (not_eq_sym Hne)
                (located_elem _ _ _ _ _ _ Hl)). }
  split; [|split].
  - split; [done| |done|].
    + intros b' l' Hb'. destruct (Hchain _ _ Hb') as [Hc Hne]. split; [by apply chain_write|done].
    + intros b' l' Hb'. destruct (decide (b' = b)) as [->|Hne].
      * assert (l' = l) as -> by congruence. by rewrite Hs'.
      * rewrite (Hother _ _ Hne Hb'). by eapply Huniq.
  - split; [by rewrite Hb|]. intros b' Hne. destruct (L !! b') as [l'|] eqn:Hb'; [|done].
    by apply (Hother b').
  - by eapply located_read.
Qed.

Lemma wf_reserve_dom param h h' : dom h' = dom h -> wf_reserve param h -> wf_reserve param h'.
Proof. intros E (? & ? & H). unfold wf_reserve. by rewrite E. Qed.

Lemma concat_snoc_Permutation (L : list (list Z)) b l x :
  L !! b = Some l -> concat (<[b := l ++ [x]]> L) ≡ₚ x :: concat L.
Proof.
  intros Hb. rewrite insert_take_drop by by eapply lookup_lt_Some.
  rewrite <- (take_drop_middle _ _ _ Hb) at 3.
  rewrite !concat_app. cbn [concat].
  rewrite <- !app_assoc. cbn [app]. rewrite !(app_assoc (concat _)).
  symmetry. apply Permutation_middle.
Qed.

Lemma wf_extend st st' h L b l1 z n new items :
  same_buckets st st' -> wf_store st h L -> L !! b = Some (l1 ++ [z]) -> h !! z = Some n ->
  new ∉ dom h -> new <> 0 -> length items = ITEM_NUM_PER_NODE ->
  NoDup (entries (slots h (l1 ++ [z]) ++ items)).*1 ->
  let h' := <[z := MkHashNode (data_items n) new]> (<[new := MkHashNode items 0]> h) in
  let L' := <[b := (l1 ++ [z]) ++ [new]]> L in
  wf_store st' h' L' /\ bucket_changed h L b (slots h (l1 ++ [z]) ++ items) h' L'.
Proof.
  intros Hst [Hbuckets Hchain Hdis Huniq] Hb Hz Hfresh H0 Hlen Hnd h' L'.
  destruct (chain_snoc h (bucket_address st (Z.of_nat b)) l1 z n new items) as [Hc' Hs'];
    [by apply Hchain|done..|]. fold h' in Hc', Hs'.
  assert (forall a, a ∈ concat L -> a ∈ dom h) as Hdom.
  { intros a Ha. apply list_elem_of_In, in_concat in Ha as (l' & Hl' & Ha).
    apply list_elem_of_In, list_elem_of_lookup_1 in Hl' as [b' Hb'].
    eapply (proj1 (chain_dom h _ l' a (proj1 (Hchain _ _ Hb')) (proj2 (list_elem_of_In _ _) Ha))). }
  assert (forall b' l', b' <> b -> L !! b' = Some l' -> forall a, a ∈ l' -> h !! a = h' !! a) as Hother.
  { intros b' l' Hne Hb' a Ha. unfold h'. rewrite !lookup_insert_ne; [done| |].
    - intros <-. apply Hfresh. by eapply chain_dom; [apply (Hchain _ _ Hb')|].
    - intros <-. apply (chains_disjoint L b' b l' (l1 ++ [z]) z Hdis Hb' Hb Hne Ha). set_solver. }
  assert (L' !! b = Some ((l1 ++ [z]) ++ [new])) as HbL'.
  { apply list_lookup_insert_eq. by eapply lookup_lt_Some. }
  split.
  - split.
    + destruct Hst as [-> _]. unfold L'. by rewrite length_insert.
    + intros b' l' Hb'. rewrite (same_buckets_address _ _ _ Hst).
      destruct (decide (b' = b)) as [->|Hne].
      * rewrite HbL' in Hb'. injection Hb' as <-. split; [done|]. by destruct l1.
      * unfold L' in Hb'. rewrite list_lookup_insert_ne in Hb' by done.
        destruct (Hchain _ _ Hb') as [Hc Hl']. split; [|done].
        eapply chain_ext; [|exact Hc]. by eapply Hother.
    + unfold L'. rewrite (concat_snoc_Permutation _ _ _ _ Hb). constructor; [|done].
      intros Hin. by apply Hfresh, Hdom.
    + intros b' l' Hb'. destruct (decide (b' = b)) as [->|Hne].
      * rewrite HbL' in Hb'. injection Hb' as <-. by rewrite Hs'.
      * unfold L' in Hb'. rewrite list_lookup_insert_ne in Hb' by done.
        rewrite <- (slots_ext h h' l') by by eapply Hother. by eapply Huniq.
  - split; [by rewrite HbL'|]. intros b' Hne. unfold L'. rewrite list_lookup_insert_ne by done.
    destruct (L !! b') as [l'|] eqn:Hb'; [|done]. cbn [default]. symmetry. apply slots_ext.
    by eapply Hother.
Qed.
