(* ===== verification/HashStoreTheorems.v ===== *)
(** The operations of the hash store refine those of a finite map. *)
From S2P Require Import Prelude Words Outcome Layout Hash HashStore HashStoreRefine.

(** More fuel does not change a result. *)
Lemma find_loop_mono fuel fuel' f h a r :
  (fuel <= fuel')%nat -> find_loop fuel f h a = Ok r -> find_loop fuel' f h a = Ok r.
Proof.
  revert fuel' a. induction fuel as [|fuel IH]; intros fuel' a Hf H; [done|].
  destruct fuel' as [|fuel']; [lia|]. simpl in *. destruct (a =? 0); [done|].
  destruct (h !! a) as [n|]; [|done]. cbn [mbind outcome_bind deref] in *.
  destruct (find_slot f (data_items n)); [done|]. apply IH; [lia|done].
Qed.

Lemma find_loop_S fuel f h a :
  find_loop (S fuel) f h a =
    if a =? 0 then Ok None
    else n ← deref (h !! a);
         match find_slot f (data_items n) with
         | Some i => Ok (Some (a, i))
         | None => find_loop fuel f h (next n)
         end.
Proof. done. Qed.

(** An item to store under [key]. *)
Definition valid_item (key : Z) (i : DataItem) : Prop := di_key i = key /\ di_valid i = 1.

Lemma set_valid_id key i : valid_item key i -> set_valid 1 i = i.
Proof. intros [_ H]. destruct i; simpl in *. by subst. Qed.

(** There is room for one more node in the reserved space. *)
Definition has_room (param : MemStoreReserveParam) : Prop :=
  mem_store_reserve param + mem_store_reserve_offset param <= mem_store_end param.

(** What a step does to the reserved space: at most one node more. *)
Definition reserve_step (param param' : MemStoreReserveParam) : Prop :=
  mem_store_reserve param' = mem_store_reserve param /\ mem_store_end param' = mem_store_end param /\
  mem_store_reserve_offset param <= mem_store_reserve_offset param' <= mem_store_reserve_offset param + HashNodeSize.

Lemma reserve_step_refl param : reserve_step param param.
Proof. unfold reserve_step. rewrite HashNodeSize_15848. lia. Qed.

Section Operations.
Context (st : HashStore) (param : MemStoreReserveParam) (h : heap) (L : list (list Z)).
Context (m : gmap Z DataItem) (Hinv : store_inv st param h L m).
Context (key : Z) (Hkey : is_key key).

Lemma bucket_chain :
  exists l, L !! bucket_of st key = Some l /\ chain h (bucket_address st (GetHash st key)) l /\
    l <> [] /\ NoDup (entries (slots h l)).*1 /\ m !! key = bucket_map (slots h l) !! key.
Proof using All.
  destruct Hinv as (Hwf & _ & Hm). destruct (bucket_of_lookup st h L key Hwf) as (l & Hl & Hb).
  destruct (wf_chain _ _ _ Hwf _ _ Hl) as [Hc Hne]. rewrite Hb in Hc.
  exists l. repeat split; [done..| |].
  - by apply (wf_unique _ _ _ Hwf _ _ Hl).
  - rewrite (Hm key Hkey), Hl. done.
Qed.

Lemma LocalGet_lemma :
  (LocalGet st key h = Ok None /\ m !! key = None) \/
  (exists l ptr pre item post,
     LocalGet st key h = Ok (Some ptr) /\ m !! key = Some item /\ matches key item = true /\
     L !! bucket_of st key = Some l /\ located h l ptr pre item post /\
     Forall (fun i => matches key i = false) pre).
Proof using All.
  destruct bucket_chain as (l & Hl & Hc & _ & _ & Hm).
  destruct (find_loop_spec (heap_fuel h) (matches key) h _ l Hc (chain_fuel _ _ _ Hc))
    as [[Hr Hnone]|(ptr & pre & item & post & Hr & Hloc & Hmatch & Hpre)].
  - left. split; [done|]. rewrite Hm. by apply bucket_get_none.
  - right. exists l, ptr, pre, item, post. repeat split; [done| |done..].
    rewrite Hm, (located_slots _ _ _ _ _ _ Hloc). by apply bucket_get.
Qed.

(** Overwriting or filling a located slot with [i]. *)
Lemma write_lemma l ptr pre old post i o :
  L !! bucket_of st key = Some l -> located h l ptr pre old post ->
  NoDup (entries (pre ++ i :: post)).*1 ->
  bucket_map (pre ++ i :: post) = set_key key o (bucket_map (pre ++ old :: post)) ->
  store_inv st param (write_item h ptr i) L (set_key key o m) /\
  read_item (write_item h ptr i) ptr = Some i.
Proof using All.
  intros Hl Hloc Hnd Hmap. destruct Hinv as (Hwf & Hres & Hm).
  destruct (wf_write st h L _ l ptr pre old post i Hwf Hl Hloc Hnd) as (Hwf' & Hch & Hread).
  split; [|done]. split; [done|split].
  - by eapply wf_reserve_dom; [apply write_item_dom|].
  - eapply represents_set; [apply same_buckets_refl|done|done|].
    rewrite Hl. simpl. by rewrite (located_slots _ _ _ _ _ _ Hloc).
Qed.

(** The slots other than [ptr] that are in use were so before. *)
Definition only_adds (h h' : heap) (ptr : ItemPtr) : Prop :=
  forall ptr' x, ptr' <> ptr -> read_item h' ptr' = Some x -> di_valid x <> 0 -> read_item h ptr' = Some x.

(** What a successful insertion establishes. *)
Record inserted (i : DataItem) (ptr : ItemPtr) (st' : HashStore) (param' : MemStoreReserveParam)
    (h' : heap) (L' : list (list Z)) : Prop := {
  ins_inv : store_inv st' param' h' L' (<[key := i]> m);
  ins_buckets : same_buckets st st';
  ins_region : region_start_ptr st' = region_start_ptr st;
  ins_reserve : reserve_step param param';
  ins_read : read_item h' ptr = Some i;
  ins_located : exists l pre post, L' !! bucket_of st' key = Some l /\ located h' l ptr pre i post;
  ins_frame : only_adds h h' ptr;
}.

(** A free slot of the chain is filled. *)
Lemma insert_fill l ptr pre old post i :
  L !! bucket_of st key = Some l -> located h l ptr pre old post -> di_valid old = 0 ->
  valid_item key i -> m !! key = None -> inserted i ptr st param (write_item h ptr i) L.
Proof using All.
  intros Hl Hloc Hfree [Hk Hv] Hnone.
  destruct bucket_chain as (l' & Hl' & Hc & Hne & Hnd & Hm). assert (l' = l) as -> by congruence.
  rewrite Hnone in Hm. symmetry in Hm. apply bucket_not_elem in Hm.
  rewrite (located_slots _ _ _ _ _ _ Hloc) in Hnd, Hm.
  destruct (bucket_fill pre post old i Hnd Hfree ltac:(lia) ltac:(by rewrite Hk)) as [Hnd' Hmap].
  rewrite Hk in Hmap.
  destruct (write_lemma l ptr pre old post i (Some i) Hl Hloc Hnd' Hmap) as [Hinv' Hread].
  split; [exact Hinv'|done|done|apply reserve_step_refl|done| |].
  - exists l, pre, post. split; [done|]. eapply located_write; [by eapply chain_NoDup|exact Hloc].
  - intros ptr' x Hp Hx _. by rewrite <- (read_write_other h ptr ptr' i).
Qed.

(** A new node is linked behind the last one of a full chain. *)
Lemma insert_extend l1 z n i :
  let new := mem_store_reserve param + mem_store_reserve_offset param in
  let h1 := <[new := MkHashNode (i :: replicate 21 zero_item) 0]> h in
  let h' := <[z := MkHashNode (data_items n) new]> h1 in
  let param' := MkReserveParam (mem_store_reserve param) (mem_store_reserve_offset param + HashNodeSize)
                  (mem_store_end param) in
  let st' := MkHashStore (hs_table_id st) (base_off st) (bucket_num st) (data_ptr st)
               (u64 (node_num st + 1)) (table_size st) (region_start_ptr st) in
  L !! bucket_of st key = Some (l1 ++ [z]) -> h !! z = Some n -> new <= mem_store_end param ->
  valid_item key i -> m !! key = None ->
  inserted i (new, O) st' param' h' (<[bucket_of st key := (l1 ++ [z]) ++ [new]]> L).
Proof using All.
  intros new h1 h' param' st' Hl Hn Hroom [Hk Hv] Hnone.
  destruct bucket_chain as (l' & Hl' & Hc & Hne & Hnd & Hm).
  assert (l' = l1 ++ [z]) as -> by congruence.
  rewrite Hnone in Hm. symmetry in Hm. apply bucket_not_elem in Hm.
  destruct Hinv as (Hwf & (Hpos & Hend & Hdom) & Hrep). fold new in Hpos, Hend, Hdom.
  assert (new ∉ dom h) as Hfresh by (intros Hin%Hdom; lia).
  assert (z <> new) as Hzn by (intros ->; apply Hfresh; by eapply elem_of_dom_2).
  destruct (bucket_snoc _ i 21 Hnd ltac:(lia) ltac:(by rewrite Hk)) as [Hnd' Hmap]. rewrite Hk in Hmap.
  destruct (wf_extend st st' h L _ l1 z n new (i :: replicate 21 zero_item) ltac:(done) Hwf Hl Hn Hfresh
              ltac:(lia) ltac:(done) Hnd') as [Hwf' Hch].
  assert (h' !! new = Some (MkHashNode (i :: replicate 21 zero_item) 0)) as Hnew.
  { unfold h', h1. by rewrite lookup_insert_ne, lookup_insert_eq. }
  split.
  - split; [exact Hwf'|split].
    + unfold wf_reserve, param'. cbn [mem_store_reserve mem_store_reserve_offset mem_store_end].
      unfold new in *. rewrite HashNodeSize_15848 in *. split; [lia|]. split; [lia|].
      intros a. unfold h', h1. rewrite !dom_insert_L, !elem_of_union, !elem_of_singleton.
      intros [->|[->|Ha%Hdom]]; [|lia|lia]. apply elem_of_dom_2, Hdom in Hn. lia.
    + eapply (represents_set st st' h L m key (Some i)); [done|done|exact Hch|]. by rewrite Hl.
  - done.
  - done.
  - unfold reserve_step, param'. cbn [mem_store_reserve mem_store_reserve_offset mem_store_end]. rewrite HashNodeSize_15848. lia.
  - unfold read_item. cbn [fst snd]. by rewrite Hnew.
  - exists ((l1 ++ [z]) ++ [new]), (slots h' (l1 ++ [z]) ++ []), (replicate 21 zero_item ++ []).
    rewrite (same_buckets_bucket_of st st') by done.
    split; [apply list_lookup_insert_eq; by eapply lookup_lt_Some|].
    exists (l1 ++ [z]), (MkHashNode (i :: replicate 21 zero_item) 0), []. by repeat split.
  - intros [a j] x Hp Hx Hxv. unfold read_item in *. cbn [fst snd] in *. unfold h', h1 in Hx.
    destruct (decide (a = z)) as [->|Haz].
    { rewrite lookup_insert_eq in Hx. by rewrite Hn. }
    rewrite lookup_insert_ne in Hx by done. destruct (decide (a = new)) as [->|Han].
    + rewrite lookup_insert_eq in Hx. cbn [mbind option_bind data_items] in Hx.
      destruct j as [|j]; [by destruct Hp|]. cbn [lookup list_lookup] in Hx.
      apply lookup_replicate in Hx as [-> _]. done.
    + by rewrite lookup_insert_ne in Hx.
Qed.

Lemma LocalInsert_strong i :
  valid_item key i -> m !! key = None ->
  (has_room param ->
   exists ptr st' param' h' L',
     LocalInsert st key i param h = Ok (ptr, st', param', h') /\ inserted i ptr st' param' h' L') /\
  (~ has_room param ->
   is_Ok (LocalInsert st key i param h) \/ LocalInsert st key i param h = Exit).
Proof using All.
  intros Hi Hnone. destruct bucket_chain as (l & Hl & Hc & Hne & _ & _). unfold LocalInsert.
  destruct (insert_loop_spec (heap_fuel h) h _ l Hc Hne (chain_fuel _ _ _ Hc))
    as [(ptr & pre & old & post & -> & Hloc & Hfree)|(l1 & z & -> & -> & Hfull)];
    cbn [mbind outcome_bind]; rewrite (set_valid_id _ _ Hi).
  { split; [intros _|by left; eexists]. exists ptr, st, param, (write_item h ptr i), L.
    split; [done|by eapply insert_fill]. }
  pose proof Hinv as (_ & (Hpos & Hend & Hdom) & _). pose proof insert_extend as Hext. cbv zeta in Hext.
  unfold has_room. revert Hext. set (new := mem_store_reserve param + mem_store_reserve_offset param) in *.
  intros Hext. rewrite HashNodeSize_15848 in Hend. rewrite (wrap_small 64 new) by lia.
  assert (exists n, h !! z = Some n) as [n Hn].
  { apply elem_of_dom. apply (chain_dom _ _ _ z Hc). apply elem_of_app. right. constructor. }
  assert (z <> new) as Hzn by (intros ->; apply elem_of_dom_2, Hdom in Hn; lia).
  split; intros Hroom.
  - test (new <=? mem_store_end param) is true. cbn [mbind outcome_bind assert_].
    assert (write_item (<[new:=zero_node]> h) (new, O) i =
              <[new := MkHashNode (i :: replicate 21 zero_item) 0]> h) as ->.
    { unfold write_item. cbn [fst snd]. rewrite lookup_insert_eq. by rewrite insert_insert_eq. }
    rewrite lookup_insert_ne, Hn by done. cbn [deref mbind outcome_bind].
    eexists _, _, _, _, _. split; [done|]. by apply Hext.
  - right. by test (new <=? mem_store_end param) is false.
Qed.

Lemma LocalInsert_lemma i :
  valid_item key i -> m !! key = None ->
  (has_room param ->
   exists ptr st' param' h' L',
     LocalInsert st key i param h = Ok (ptr, st', param', h') /\
     store_inv st' param' h' L' (<[key := i]> m) /\ same_buckets st st' /\
     reserve_step param param' /\ read_item h' ptr = Some i) /\
  (~ has_room param ->
   is_Ok (LocalInsert st key i param h) \/ LocalInsert st key i param h = Exit).
Proof using All.
  intros Hi Hnone. destruct (LocalInsert_strong i Hi Hnone) as [H1 H2]. split; [|done].
  intros Hroom. destruct (H1 Hroom) as (ptr & st' & param' & h' & L' & E & []).
  by exists ptr, st', param', h', L'.
Qed.

(** Overwriting the item of the key. *)
Lemma overwrite_lemma l ptr pre item post i :
  L !! bucket_of st key = Some l -> located h l ptr pre item post -> matches key item = true ->
  valid_item key i ->
  store_inv st param (write_item h ptr i) L (<[key := i]> m) /\
  read_item (write_item h ptr i) ptr = Some i.
Proof using All.
  intros Hl Hloc (Hv & Hk)%matches_true [Hik Hiv]. pose proof Hinv as (Hwf & _ & _).
  pose proof (wf_unique _ _ _ Hwf _ _ Hl) as Hnd. rewrite (located_slots _ _ _ _ _ _ Hloc) in Hnd.
  destruct (bucket_overwrite pre post item i Hnd Hv ltac:(lia) ltac:(congruence)) as [Hnd' Hmap].
  rewrite Hik in Hmap.
  exact (write_lemma l ptr pre item post i (Some i) Hl Hloc Hnd' Hmap).
Qed.

Lemma LocalPut_lemma i :
  valid_item key i ->
  (has_room param ->
   exists ptr st' param' h' L',
     LocalPut st key i param h = Ok (ptr, st', param', h') /\
     store_inv st' param' h' L' (<[key := i]> m) /\ same_buckets st st' /\
     reserve_step param param' /\ read_item h' ptr = Some i) /\
  (~ has_room param ->
   is_Ok (LocalPut st key i param h) \/ LocalPut st key i param h = Exit).
Proof using All.
  intros Hi. unfold LocalPut.
  destruct LocalGet_lemma as [[-> Hnone]|(l & ptr & pre & item & post & -> & Hm & Hmatch & Hl & Hloc & Hpre)];
    cbn [mbind outcome_bind]; [by apply LocalInsert_lemma|].
  split; [intros _|by left; eexists].
  destruct (overwrite_lemma l ptr pre item post i Hl Hloc Hmatch Hi) as [Hinv' Hread].
  exists ptr, st, param, (write_item h ptr i), L.
  split; [done|]. split; [exact Hinv'|]. split; [done|]. split; [apply reserve_step_refl|done].
Qed.

(** The search of LocalDelete is that of LocalGet, one node unrolled. *)
Lemma LocalDelete_search :
  LocalDelete st key h =
    match LocalGet st key h with
    | Ok (Some ptr) =>
        Ok (true, match read_item h ptr with
                  | Some i => write_item h ptr (set_valid 0 i)
                  | None => h
                  end)
    | Ok None => Ok (false, h)
    | Exit => Exit
    | Fault => Fault
    | OutOfFuel => OutOfFuel
    end.
Proof using All.
  destruct bucket_chain as (l & Hl & Hc & Hne & _ & _).
  unfold LocalGet, LocalDelete. pose proof (chain_fuel _ _ _ Hc) as Hf. revert Hc Hf.
  generalize (bucket_address st (GetHash st key)). intros a Hc Hf.
  destruct l as [|b l]; [done|]. destruct Hc as (-> & H0 & n & Hn & _ & Hc).
  unfold heap_fuel in *. rewrite (find_loop_S _ _ _ b), (proj2 (Z.eqb_neq _ _) H0), Hn.
  cbn [mbind outcome_bind deref]. destruct (find_slot _ _).
  { unfold read_item. by cbn [fst]. }
  change (length (b :: l)) with (S (length l)) in Hf.
  destruct (find_loop_spec (S (size h)) (matches key) h _ l Hc ltac:(lia))
    as [[E _]|(ptr & pre & item & post & E & _)];
  destruct (find_loop_spec (size h) (matches key) h _ l Hc ltac:(lia))
    as [[E' _]|(ptr' & pre' & item' & post' & E' & _)];
    pose proof (find_loop_mono (size h) (S (size h)) _ _ _ _ ltac:(lia) E') as E2;
    rewrite E in E2; simplify_eq; rewrite E, E'; done.
Qed.

Lemma LocalDelete_lemma :
  exists b h', LocalDelete st key h = Ok (b, h') /\ b = bool_decide (is_Some (m !! key)) /\
    store_inv st param h' L (delete key m).
Proof using All.
  rewrite LocalDelete_search.
  destruct LocalGet_lemma as [[-> Hnone]|(l & ptr & pre & item & post & -> & Hm & Hmatch & Hl & Hloc & Hpre)].
  - exists false, h. rewrite Hnone. split; [done|]. split; [done|]. by rewrite delete_id.
  - rewrite (located_read _ _ _ _ _ _ Hloc). exists true, (write_item h ptr (set_valid 0 item)).
    split; [done|]. split; [by rewrite Hm|].
    apply matches_true in Hmatch as [Hv Hk]. destruct Hinv as (Hwf & _ & _).
    pose proof (wf_unique _ _ _ Hwf _ _ Hl) as Hnd. rewrite (located_slots _ _ _ _ _ _ Hloc) in Hnd.
    destruct (bucket_invalidate pre post item Hnd Hv) as [Hnd' Hmap]. rewrite Hk in Hmap.
    apply (write_lemma l ptr pre item post (set_valid 0 item) None Hl Hloc Hnd' Hmap).
Qed.
End Operations.

(** ** The constructor *)

Lemma memset_nodes_hit n p h (i : nat) :
  (i < n)%nat -> memset_nodes n p h !! (p + Z.of_nat i * HashNodeSize) = Some zero_node.
Proof.
  revert p i. induction n as [|n IH]; intros p i Hi; [lia|]. simpl. destruct i as [|i].
  - rewrite Z.mul_0_l, Z.add_0_r. apply lookup_insert_eq.
  - rewrite lookup_insert_ne by (rewrite HashNodeSize_15848; lia).
    rewrite <- (IH (p + HashNodeSize) i) by lia. f_equal. lia.
Qed.

Lemma memset_nodes_dom n p h a :
  a ∈ dom (memset_nodes n p h) -> a ∈ dom h \/ p <= a <= p + (Z.of_nat n - 1) * HashNodeSize.
Proof.
  rewrite HashNodeSize_15848. revert p. induction n as [|n IH]; intros p; cbn [memset_nodes]; [by left|].
  rewrite dom_insert_L, elem_of_union, elem_of_singleton. intros [->|Ha]; [right; lia|].
  apply IH in Ha as [|Ha]; [by left|]. rewrite HashNodeSize_15848 in Ha. right. lia.
Qed.

(** The chains of a fresh store: one node each. *)
Definition fresh_chains (d : Z) (n : nat) : list (list Z) :=
  map (fun i => [d + Z.of_nat i * HashNodeSize]) (seq 0 n).

Lemma fresh_chains_lookup d n b l :
  fresh_chains d n !! b = Some l <-> (b < n)%nat /\ l = [d + Z.of_nat b * HashNodeSize].
Proof.
  unfold fresh_chains. rewrite list_lookup_fmap. split.
  - destruct (seq 0 n !! b) as [x|] eqn:E; [|done]. apply lookup_seq in E as [-> Hb].
    intros [= <-]. done.
  - intros [Hb ->]. by rewrite lookup_seq_lt.
Qed.

Lemma fresh_chains_NoDup d n : NoDup (concat (fresh_chains d n)).
Proof.
  unfold fresh_chains. assert (forall k, NoDup (concat (map (fun i => [d + Z.of_nat i * HashNodeSize]) (seq k n)))) as H; [|apply H].
  induction n as [|n IH]; intros k; simpl; [constructor|]. constructor; [|apply IH].
  intros Hin. apply list_elem_of_In, in_concat in Hin as (l & Hl & Hin).
  apply in_map_iff in Hl as (i & <- & Hi%in_seq). destruct Hin as [Hin|[]].
  rewrite HashNodeSize_15848 in Hin. lia.
Qed.

(** The server's parameters describe a table inside its address space. *)
Definition valid_alloc (bucket_num : Z) (param : MemStoreAllocParam) : Prop :=
  let d := mem_store_start param + mem_store_alloc_offset param in
  0 < bucket_num /\ 0 <= mem_region_start param <= d /\ 0 < d /\
  0 <= mem_store_alloc_offset param /\ 0 <= mem_store_start param /\
  d + bucket_num * HashNodeSize <= alloc_mem_store_reserve param < 2 ^ 63.

Lemma new_HashStore_lemma t bn param h :
  valid_alloc bn param ->
  let d := mem_store_start param + mem_store_alloc_offset param in
  exists st param',
    new_HashStore t bn param h = Ok (st, param', memset_nodes (Z.to_nat bn) d h) /\
    base_off st = d - mem_region_start param /\ data_ptr st = d /\ bucket_num st = bn /\
    mem_store_alloc_offset param' = mem_store_alloc_offset param + bn * HashNodeSize /\
    wf_store st (memset_nodes (Z.to_nat bn) d h) (fresh_chains d (Z.to_nat bn)) /\
    represents st (memset_nodes (Z.to_nat bn) d h) (fresh_chains d (Z.to_nat bn)) ∅.
Proof.
  intros (Hbn & Hreg & Hd & Ho & Hs & Hend) d. fold d in Hreg, Hd, Hend.
  unfold new_HashStore. rewrite HashNodeSize_15848 in Hend. test (0 <? bn) is true. cbn [assert_ mbind outcome_bind].
  rewrite HashNodeSize_15848, (wrap_small 64 (bn * 15848)) by lia. fold d.
  rewrite (wrap_small 64 (d + _)) by lia.
  test (d + bn * 15848 <=? alloc_mem_store_reserve param) is true. cbn [assert_ mbind outcome_bind].
  assert (forall x, 0 <= x < 2 ^ 63 -> i64 x = x) as Hi.
  { intros x Hx. unfold to_signed. rewrite wrap_small by lia. by test (x <? 2 ^ (64 - 1)) is true. }
  rewrite (wrap_small 64 (d - _)), (Hi (d - _)) by lia.
  test (0 <=? d - mem_region_start param) is true. test (d =? 0) is false.
  cbn [assert_ mbind outcome_bind negb].
  set (h' := memset_nodes _ _ _).
  assert (forall i : nat, (i < Z.to_nat bn)%nat -> h' !! (d + Z.of_nat i * HashNodeSize) = Some zero_node) as Hh'.
  { intros i Hb. by apply memset_nodes_hit. }
  eexists _, _. split; [done|]. cbn [base_off data_ptr bucket_num mem_store_alloc_offset].
  split; [done|]. split; [done|]. split; [done|]. split; [by rewrite Hi by lia|].
  assert (forall b l, fresh_chains d (Z.to_nat bn) !! b = Some l -> slots h' l = replicate ITEM_NUM_PER_NODE zero_item) as Hslots.
  { intros b l [Hb ->]%fresh_chains_lookup. unfold slots. cbn [map concat]. unfold node_items.
    by rewrite Hh', app_nil_r. }
  split.
  - split; cbn [bucket_num].
    + unfold fresh_chains. rewrite length_map, length_seq. done.
    + intros b l [Hb ->]%fresh_chains_lookup. split; [|done].
      unfold bucket_address. cbn [data_ptr].
      rewrite wrap_small, Z.add_comm by (rewrite HashNodeSize_15848; lia).
      split; [done|]. split; [rewrite HashNodeSize_15848; lia|]. exists zero_node. by rewrite Hh'.
    + apply fresh_chains_NoDup.
    + intros b l Hl. rewrite (Hslots _ _ Hl), entries_zero. constructor.
  - intros key _. rewrite lookup_empty. destruct (fresh_chains d (Z.to_nat bn) !! _) as [l|] eqn:E.
    + cbn [default]. simpl. rewrite (Hslots _ _ E). unfold bucket_map. by rewrite entries_zero.
    + done.
Qed.

(** ** Sequences of operations *)

Inductive command :=
| Get (key : Z)
| Put (key : Z) (item : DataItem)
| Delete (key : Z).

Inductive reply :=
| ItemReply (item : option DataItem)
| BoolReply (b : bool).

Definition server : Type := HashStore * MemStoreReserveParam * heap.

(** An operation and what its caller reads through the pointer it returns. *)
Definition run_command (c : command) (s : server) : outcome (reply * server) :=
  let '(st, param, h) := s in
  match c with
  | Get key =>
      r ← LocalGet st key h;
      Ok (ItemReply (r ≫= read_item h), s)
  | Put key item =>
      r ← LocalPut st key item param h;
      let '(ptr, st, param, h) := r in
      Ok (ItemReply (read_item h ptr), (st, param, h))
  | Delete key =>
      r ← LocalDelete st key h;
      let '(b, h) := r in
      Ok (BoolReply b, (st, param, h))
  end.

Fixpoint run_commands (cs : list command) (s : server) : outcome (list reply * server) :=
  match cs with
  | [] => Ok ([], s)
  | c :: cs =>
      r ← run_command c s;
      rs ← run_commands cs (snd r);
      Ok (fst r :: fst rs, snd rs)
  end.

(** The abstract specification: the operations of a finite map. *)
Definition map_command (c : command) (m : gmap Z DataItem) : reply * gmap Z DataItem :=
  match c with
  | Get key => (ItemReply (m !! key), m)
  | Put key item => (ItemReply (Some item), <[key := item]> m)
  | Delete key => (BoolReply (bool_decide (is_Some (m !! key))), delete key m)
  end.

Fixpoint map_commands (cs : list command) (m : gmap Z DataItem) : list reply :=
  match cs with
  | [] => []
  | c :: cs => fst (map_command c m) :: map_commands cs (snd (map_command c m))
  end.

Definition valid_command (c : command) : Prop :=
  match c with
  | Get key | Delete key => is_key key
  | Put key item => is_key key /\ valid_item key item
  end.

Definition server_inv (s : server) (m : gmap Z DataItem) : Prop :=
  let '(st, param, h) := s in exists L, store_inv st param h L m.

Definition server_room (n : nat) (s : server) : Prop :=
  let '(_, param, _) := s in
  mem_store_reserve param + mem_store_reserve_offset param + Z.of_nat n * HashNodeSize
    <= mem_store_end param.

Lemma run_command_lemma c s m n :
  valid_command c -> server_inv s m -> server_room (S n) s ->
  exists s', run_command c s = Ok (fst (map_command c m), s') /\
    server_inv s' (snd (map_command c m)) /\ server_room n s'.
Proof.
  destruct s as [[st param] h]. unfold server_inv, server_room. intros Hc [L Hinv] Hroom.
  rewrite HashNodeSize_15848 in *.
  destruct c as [key|key item|key]; cbn [run_command map_command fst snd].
  - destruct (LocalGet_lemma st param h L m Hinv key Hc)
      as [[-> Hnone]|(l & ptr & pre & item & post & -> & Hm & _ & _ & Hloc & _)];
      cbn [mbind outcome_bind option_bind].
    + exists (st, param, h). rewrite Hnone. split; [done|]. split; [by exists L|lia].
    + exists (st, param, h). rewrite (located_read _ _ _ _ _ _ Hloc), Hm.
      split; [done|]. split; [by exists L|lia].
  - destruct Hc as [Hkey Hitem].
    destruct (proj1 (LocalPut_lemma st param h L m Hinv key Hkey item Hitem))
      as (ptr & st' & param' & h' & L' & -> & Hinv' & _ & (Hr & He & Ho) & Hread).
    { unfold has_room. lia. }
    cbn [mbind outcome_bind]. exists (st', param', h'). rewrite Hread.
    split; [done|]. split; [by exists L'|]. rewrite HashNodeSize_15848 in Ho. lia.
  - destruct (LocalDelete_lemma st param h L m Hinv key Hc) as (b & h' & -> & -> & Hinv').
    cbn [mbind outcome_bind]. exists (st, param, h'). split; [done|]. split; [by exists L|lia].
Qed.

Lemma run_commands_lemma cs s m :
  Forall valid_command cs -> server_inv s m -> server_room (length cs) s ->
  exists s', run_commands cs s = Ok (map_commands cs m, s').
Proof.
  intros Hcs. revert s m. induction Hcs as [|c cs Hc _ IH]; intros s m Hinv Hroom.
  { by exists s. }
  destruct (run_command_lemma c s m (length cs) Hc Hinv Hroom) as (s' & Hr & Hinv' & Hroom').
  destruct (IH s' _ Hinv' Hroom') as [s'' Hrs]. exists s''.
  cbn [run_commands map_commands]. rewrite Hr. cbn [mbind outcome_bind snd fst]. by rewrite Hrs.
Qed.

Lemma new_HashStore_names t bn param h st param' h' :
  new_HashStore t bn param h = Ok (st, param', h') ->
  hs_table_id st = t /\ region_start_ptr st = mem_region_start param.
Proof.
  unfold new_HashStore. intros Hst. do 4 (apply bind_Ok in Hst as (? & _ & Hst)). by injection Hst as <- _ _.
Qed.

(** The region behind a new store: room for the conflict nodes of [n]
    operations, and no node of another store in or behind the reserved space. *)
Definition valid_region (n : nat) (param : MemStoreAllocParam) (rparam : MemStoreReserveParam)
    (h : heap) : Prop :=
  mem_store_reserve rparam = alloc_mem_store_reserve param /\
  0 <= mem_store_reserve_offset rparam /\
  mem_store_reserve rparam + mem_store_reserve_offset rparam + Z.of_nat n * HashNodeSize
    <= mem_store_end rparam /\
  mem_store_end rparam + HashNodeSize < 2 ^ 64 /\
  forall a, a ∈ dom h -> a < alloc_mem_store_reserve param.

Lemma new_server_inv t bn param rparam h n :
  valid_alloc bn param -> valid_region n param rparam h ->
  exists st param' h',
    new_HashStore t bn param h = Ok (st, param', h') /\
    server_inv (st, rparam, h') ∅ /\ server_room n (st, rparam, h').
Proof.
  intros Halloc (Hres & Hoff & Hroom & Hend & Hdom).
  destruct (new_HashStore_lemma t bn param h Halloc) as (st & param' & E & _ & _ & _ & _ & Hwf & Hm).
  destruct Halloc as (Hbn & _ & Hd & _ & _ & Hfit). rewrite HashNodeSize_15848 in *.
  eexists st, param', _. split; [exact E|]. split; [|unfold server_room; rewrite HashNodeSize_15848; lia].
  eexists. split; [exact Hwf|]. split; [|exact Hm]. unfold wf_reserve.
  rewrite HashNodeSize_15848. split; [lia|]. split; [lia|].
  intros a [Ha|Ha]%memset_nodes_dom.
  - apply Hdom in Ha. lia.
  - rewrite HashNodeSize_15848 in Ha. lia.
Qed.

(** ** Properties *)

(** C1. The hash store implements a finite map: from a new store, every sequence
    of [LocalGet], [LocalPut] and [LocalDelete] on 64-bit keys terminates without
    a bad memory access or a failed assertion, as long as the reserved space has
    room for one node per operation, and the items and answers that the callers
    see are those of a map from keys to items. *)
Theorem hash_store_refines_map (t bn : Z) (param : MemStoreAllocParam)
    (rparam : MemStoreReserveParam) (h : heap) (cs : list command) :
  valid_alloc bn param -> valid_region (length cs) param rparam h -> Forall valid_command cs ->
  exists st param' h' s',
    new_HashStore t bn param h = Ok (st, param', h') /\
    run_commands cs (st, rparam, h') = Ok (map_commands cs ∅, s').
Proof.
  intros Halloc Hreg Hcs.
  destruct (new_server_inv t bn param rparam h _ Halloc Hreg) as (st & param' & h' & E & Hinv & Hroom).
  destruct (run_commands_lemma cs _ _ Hcs Hinv Hroom) as [s' Hs]. by exists st, param', h', s'.
Qed.

Definition item_a : DataItem := MkDataItem 1 2 5 0 0 0 [10; 11] 1 0.
Definition item_b : DataItem := MkDataItem 1 2 5 0 9 0 [12; 13] 1 0.
Definition alloc_sample : MemStoreAllocParam := MkAllocParam 4096 8192 0 200000.
Definition reserve_sample : MemStoreReserveParam := MkReserveParam 200000 0 400000.

Lemma hash_store_refines_map_witness :
  exists st param' h' s',
    new_HashStore 1 3 alloc_sample ∅ = Ok (st, param', h') /\
    run_commands [Put 5 item_a; Put 5 item_b; Get 5; Delete 5; Get 5] (st, reserve_sample, h') =
      Ok (map_commands [Put 5 item_a; Put 5 item_b; Get 5; Delete 5; Get 5] ∅, s').
Proof.
  apply (hash_store_refines_map 1 3 alloc_sample reserve_sample ∅).
  - unfold valid_alloc, alloc_sample; simpl. rewrite HashNodeSize_15848. lia.
  - unfold valid_region, alloc_sample, reserve_sample; simpl. rewrite HashNodeSize_15848.
    repeat split; try lia. intros a Ha. by apply elem_of_empty in Ha.
  - unfold is_key, valid_item. repeat constructor; simpl; unfold is_key; lia.
Defined.

(** [LocalInsert] of an item whose key the store does not hold adds it: with
    room in the reserved space it returns a pointer to the stored item, the store
    then holds the old map extended with the item, the chains stay disjoint and
    without cycles, and at most one node is taken from the reserved space; without
    room it stores the item or stops at its assertion. *)
Theorem LocalInsert_adds (st : HashStore) (param : MemStoreReserveParam) (h : heap)
    (L : list (list Z)) (m : gmap Z DataItem) (key : Z) (i : DataItem) :
  store_inv st param h L m -> is_key key -> valid_item key i -> m !! key = None ->
  (has_room param ->
   exists ptr st' param' h' L',
     LocalInsert st key i param h = Ok (ptr, st', param', h') /\
     store_inv st' param' h' L' (<[key := i]> m) /\ same_buckets st st' /\
     reserve_step param param' /\ read_item h' ptr = Some i) /\
  (~ has_room param ->
   is_Ok (LocalInsert st key i param h) \/ LocalInsert st key i param h = Exit).
Proof. intros Hinv Hkey Hi Hnone. by apply (LocalInsert_lemma st param h L m). Qed.

Definition sample_heap : heap := memset_nodes 3 8192 ∅.
Definition sample_store : HashStore := MkHashStore 1 4096 3 8192 0 47544 4096.

Lemma sample_inv : store_inv sample_store reserve_sample sample_heap (fresh_chains 8192 3) ∅.
Proof.
  destruct (new_HashStore_lemma 1 3 alloc_sample ∅) as (st & param' & E & _ & _ & _ & _ & Hwf & Hm).
  { unfold valid_alloc, alloc_sample; simpl. rewrite HashNodeSize_15848. lia. }
  assert (st = sample_store) as -> by (vm_compute in E; by injection E as <- _).
  split; [exact Hwf|]. split; [|exact Hm]. unfold wf_reserve, reserve_sample; simpl.
  rewrite HashNodeSize_15848. split; [lia|]. split; [lia|].
  intros a [Ha%elem_of_empty|Ha]%memset_nodes_dom; [done|].
  rewrite HashNodeSize_15848 in Ha. lia.
Qed.

Lemma LocalInsert_adds_witness :
  (has_room reserve_sample ->
   exists ptr st' param' h' L',
     LocalInsert sample_store 5 item_a reserve_sample sample_heap = Ok (ptr, st', param', h') /\
     store_inv st' param' h' L' (<[5 := item_a]> ∅) /\ same_buckets sample_store st' /\
     reserve_step reserve_sample param' /\ read_item h' ptr = Some item_a) /\
  (~ has_room reserve_sample ->
   is_Ok (LocalInsert sample_store 5 item_a reserve_sample sample_heap) \/
   LocalInsert sample_store 5 item_a reserve_sample sample_heap = Exit).
Proof.
  apply (LocalInsert_adds sample_store reserve_sample sample_heap (fresh_chains 8192 3) ∅).
  - apply sample_inv.
  - unfold is_key. lia.
  - split; reflexivity.
  - reflexivity.
Defined.

(** C32. When every slot of the bucket's chain is in use, [LocalInsert] places a new
    node at the start of the free reserved space exactly if that start is not
    behind [mem_store_end], and otherwise stops. The check does not count the
    node's size: a node placed at [mem_store_end] lies outside of the store. *)
Theorem LocalInsert_full_bucket (st : HashStore) (param : MemStoreReserveParam) (h : heap)
    (l : list Z) (key : Z) (i : DataItem) :
  let new := mem_store_reserve param + mem_store_reserve_offset param in
  chain h (bucket_address st (GetHash st key)) l -> l <> [] ->
  Forall (fun x => di_valid x <> 0) (slots h l) -> 0 <= new < 2 ^ 64 -> new ∉ dom h ->
  (mem_store_end param < new -> LocalInsert st key i param h = Exit) /\
  (new <= mem_store_end param ->
   exists st' param' h',
     LocalInsert st key i param h = Ok ((new, O), st', param', h') /\
     read_item h' (new, O) = Some (set_valid 1 i) /\
     (mem_store_end param - HashNodeSize < new ->
      mem_store_end param < item_address (new, ITEM_NUM_PER_NODE) + 8)).
Proof.
  intros new Hc Hne Hfull Hnew Hfresh. unfold LocalInsert. fold new.
  rewrite (wrap_small 64 new) by done.
  destruct (insert_loop_spec (heap_fuel h) h _ l Hc Hne (chain_fuel _ _ _ Hc))
    as [(ptr & pre & old & post & _ & Hloc & Hfree)|(l1 & z & -> & -> & _)].
  { rewrite (located_slots _ _ _ _ _ _ Hloc) in Hfull. apply Forall_app in Hfull as [_ Hfull].
    by apply Forall_inv in Hfull. }
  cbn [mbind outcome_bind]. split.
  - intros Hend. by test (new <=? mem_store_end param) is false.
  - intros Hend. test (new <=? mem_store_end param) is true. cbn [assert_ mbind outcome_bind].
    assert (exists n, h !! z = Some n) as [n Hn].
    { apply elem_of_dom. apply (chain_dom _ _ _ z Hc). apply elem_of_app. right. constructor. }
    assert (z <> new) as Hzn by (intros ->; apply Hfresh; by eapply elem_of_dom_2).
    unfold write_item. cbn [fst snd]. rewrite lookup_insert_eq, insert_insert_eq, lookup_insert_ne, Hn by done.
    cbn [deref mbind outcome_bind]. eexists _, _, _. split; [done|]. split.
    + unfold read_item. cbn [fst snd]. rewrite lookup_insert_ne, lookup_insert_eq by done. done.
    + intros Hover. unfold item_address. cbn [fst snd]. rewrite HashNodeSize_15848 in Hover.
      rewrite DataItemSize_720. unfold ITEM_NUM_PER_NODE. lia.
Qed.

Definition full_heap : heap := {[ 64 := MkHashNode (replicate 22 item_a) 0 ]}.
Definition one_bucket : HashStore := MkHashStore 1 0 1 64 0 HashNodeSize 0.
Definition exhausted : MemStoreReserveParam := MkReserveParam 20000 10000 30000.

Lemma LocalInsert_full_bucket_witness :
  (mem_store_end exhausted < 20000 + 10000 -> LocalInsert one_bucket 7 item_b exhausted full_heap = Exit) /\
  (20000 + 10000 <= mem_store_end exhausted ->
   exists st' param' h',
     LocalInsert one_bucket 7 item_b exhausted full_heap = Ok ((20000 + 10000, O), st', param', h') /\
     read_item h' (20000 + 10000, O) = Some (set_valid 1 item_b) /\
     (mem_store_end exhausted - HashNodeSize < 20000 + 10000 ->
      mem_store_end exhausted < item_address (20000 + 10000, ITEM_NUM_PER_NODE) + 8)).
Proof.
  apply (LocalInsert_full_bucket one_bucket exhausted full_heap [64] 7 item_b).
  - split; [reflexivity|]. split; [vm_compute; discriminate|].
    exists (MkHashNode (replicate 22 item_a) 0). repeat split.
  - discriminate.
  - repeat constructor; discriminate.
  - simpl. lia.
  - apply not_elem_of_dom_2. reflexivity.
Defined.

(** [LocalDelete] removes exactly its key: it reports whether the store held the
    key, and afterwards the store holds the old map without it, in the same chains. *)
Theorem LocalDelete_removes (st : HashStore) (param : MemStoreReserveParam) (h : heap)
    (L : list (list Z)) (m : gmap Z DataItem) (key : Z) :
  store_inv st param h L m -> is_key key ->
  exists b h', LocalDelete st key h = Ok (b, h') /\ b = bool_decide (is_Some (m !! key)) /\
    store_inv st param h' L (delete key m).
Proof. intros Hinv Hkey. by apply (LocalDelete_lemma st param h L m). Qed.

Lemma LocalDelete_removes_witness :
  exists b h', LocalDelete sample_store 5 sample_heap = Ok (b, h') /\
    b = bool_decide (is_Some ((∅ : gmap Z DataItem) !! 5)) /\
    store_inv sample_store reserve_sample h' (fresh_chains 8192 3) (delete 5 ∅).
Proof.
  apply (LocalDelete_removes sample_store reserve_sample sample_heap (fresh_chains 8192 3) ∅ 5).
  - apply sample_inv.
  - unfold is_key. lia.
Defined.
