(* ===== verification/Alloc.v ===== *)
(** The allocators of core/allocator: thread-local RDMA buffers, the regions of the
    threads, and the offsets of log entries on the memory nodes. *)
From S2P Require Import Prelude Words Outcome.

(** ** RDMABufferAllocator *)

Record RDMABufferAllocator := MkBufferAllocator {
  start : Z;
  end_ : Z;
  cur_offset : Z;
}.

Definition new_RDMABufferAllocator (s e : Z) : RDMABufferAllocator := MkBufferAllocator s e 0.

Definition Alloc (a : RDMABufferAllocator) (size : Z) : Z * RDMABufferAllocator :=
  let cur_offset := if end_ a <? start a + cur_offset a + size then 0 else cur_offset a in
  let ret := start a + cur_offset in
  (ret, MkBufferAllocator (start a) (end_ a) (u64 (cur_offset + size))).

Fixpoint Alloc_all (a : RDMABufferAllocator) (sizes : list Z) : list (Z * Z) * RDMABufferAllocator :=
  match sizes with
  | [] => ([], a)
  | size :: sizes =>
      let '(ret, a) := Alloc a size in
      let '(rets, a) := Alloc_all a sizes in
      ((ret, size) :: rets, a)
  end.

(** ** RDMARegionAllocator *)

Definition PER_THREAD_ALLOC_SIZE : Z := 500 * 1024 * 1024.

Record RDMARegionAllocator := MkRegionAllocator { global_mr : Z; thread_num : Z }.

Section Region.
(** The address that [malloc] returns, and the success of [register_memory] of
    the RDMA library. *)
Context (malloc : Z -> Z) (register_memory : Z -> Z -> bool).

Definition new_RDMARegionAllocator (thread_num_per_machine : Z) : outcome RDMARegionAllocator :=
  let global_mr_size := u64 (u32 thread_num_per_machine * PER_THREAD_ALLOC_SIZE) in
  let global_mr := malloc global_mr_size in
  _ ← assert_ (register_memory global_mr global_mr_size);
  Ok (MkRegionAllocator global_mr (u32 thread_num_per_machine)).
End Region.

Definition GetThreadLocalRegion (a : RDMARegionAllocator) (tid : Z) : outcome (Z * Z) :=
  _ ← assert_ (tid <? thread_num a);
  Ok (global_mr a + u64 (tid * PER_THREAD_ALLOC_SIZE),
      global_mr a + u64 (u32 (tid + 1) * PER_THREAD_ALLOC_SIZE)).

(** ** LogOffsetAllocator *)

Definition LOG_BUFFER_SIZE : Z := 1024 * 1024 * 1024.
Definition BACKUP_DEGREE : Z := 2.
Definition NUM_MEMORY_NODES : nat := Z.to_nat (BACKUP_DEGREE + 1).

Record LogOffsetAllocator := MkLogAllocator {
  start_log_offsets : list Z;
  end_log_offsets : list Z;
  current_log_offsets : list Z;
}.

Definition new_LogOffsetAllocator (tid num_thread : Z) : LogOffsetAllocator :=
  let per_thread_remote_log_buffer_size := LOG_BUFFER_SIZE / num_thread in
  MkLogAllocator
    (replicate NUM_MEMORY_NODES (tid * per_thread_remote_log_buffer_size))
    (replicate NUM_MEMORY_NODES (u32 (tid + 1) * per_thread_remote_log_buffer_size))
    (replicate NUM_MEMORY_NODES 0).

(** The arrays have [NUM_MEMORY_NODES] elements; a node id outside of them is a
    bad access. *)
Definition GetNextLogOffset (a : LogOffsetAllocator) (node_id : nat) (log_entry_size : Z)
    : outcome (Z * LogOffsetAllocator) :=
  s ← deref (start_log_offsets a !! node_id);
  e ← deref (end_log_offsets a !! node_id);
  c ← deref (current_log_offsets a !! node_id);
  let c := if e <? u64 (s + c + log_entry_size) then 0 else c in
  let offset := s + c in
  Ok (offset, MkLogAllocator (start_log_offsets a) (end_log_offsets a)
                (<[node_id := i64 (c + log_entry_size)]> (current_log_offsets a))).

Fixpoint log_offsets (a : LogOffsetAllocator) (reqs : list (nat * Z)) : outcome (list (nat * Z * Z)) :=
  match reqs with
  | [] => Ok []
  | (node_id, size) :: reqs =>
      r ← GetNextLogOffset a node_id size;
      rs ← log_offsets (snd r) reqs;
      Ok ((node_id, fst r, size) :: rs)
  end.

(** ** Facts *)

(** Address ranges [[fst r, fst r + snd r)]. *)
Definition disjoint_ranges (r1 r2 : Z * Z) : Prop :=
  fst r1 + snd r1 <= fst r2 \/ fst r2 + snd r2 <= fst r1.

Definition inside (s e : Z) (r : Z * Z) : Prop := s <= fst r /\ fst r + snd r <= e.

Lemma inside_disjoint s1 e1 s2 e2 r1 r2 :
  inside s1 e1 r1 -> inside s2 e2 r2 -> e1 <= s2 \/ e2 <= s1 -> disjoint_ranges r1 r2.
Proof. unfold inside, disjoint_ranges. lia. Qed.

(** The state between calls: the offset is inside of the region. *)
Definition wf_buffer (a : RDMABufferAllocator) : Prop :=
  0 <= start a <= end_ a /\ end_ a < 2 ^ 63 /\ 0 <= cur_offset a <= end_ a - start a.

Lemma Alloc_spec a size :
  wf_buffer a -> 0 < size <= end_ a - start a ->
  exists c, (c = cur_offset a /\ start a + cur_offset a + size <= end_ a \/
             c = 0 /\ end_ a < start a + cur_offset a + size) /\
  Alloc a size = (start a + c, MkBufferAllocator (start a) (end_ a) (c + size)) /\
  wf_buffer (snd (Alloc a size)) /\ inside (start a) (end_ a) (fst (Alloc a size), size).
Proof.
  intros (Hs & He & Hc) Hsize. unfold Alloc, wf_buffer, inside. simpl.
  destruct (Z.ltb_spec (end_ a) (start a + cur_offset a + size)).
  - exists 0. rewrite wrap_small by lia. split; [by right|]. split; [done|]. lia.
  - exists (cur_offset a). rewrite wrap_small by lia. split; [by left|]. split; [done|]. lia.
Qed.

(** Where the buffers of a sequence lie, given what it allocates in total. *)
Lemma Alloc_all_spec a sizes :
  wf_buffer a -> Forall (fun x => 0 < x) sizes ->
  cur_offset a + zsum sizes <= end_ a - start a ->
  let r := Alloc_all a sizes in
  Forall (inside (start a + cur_offset a) (start a + cur_offset a + zsum sizes)) (fst r) /\
  ForallOrdPairs disjoint_ranges (fst r).
Proof.
  intros Hwf Hs. revert a Hwf. induction Hs as [|size sizes Hsize Hs IH]; intros a Hwf Hsum; cbn [Alloc_all].
  { split; constructor. }
  pose proof (zsum_nonneg _ Hs). simpl in Hsum. pose proof Hwf as (? & ? & ?).
  destruct (Alloc_spec a size Hwf ltac:(lia)) as (c & Hc & -> & Hwf' & _).
  destruct Hc as [[-> _]|[-> ?]]; [|lia].
  assert (wf_buffer (MkBufferAllocator (start a) (end_ a) (cur_offset a + size))) as Hwf2.
  { unfold wf_buffer. simpl. lia. }
  destruct (IH _ Hwf2 ltac:(simpl; lia)) as [Hin Hd]. simpl in Hin.
  destruct (Alloc_all _ sizes) as [rets a'] eqn:E. cbn [fst] in *. cbn [zsum foldr].
  fold (zsum sizes). split.
  - constructor; [unfold inside; simpl; lia|]. eapply Forall_impl; [exact Hin|].
    unfold inside. simpl. lia.
  - constructor; [|done]. eapply Forall_impl; [exact Hin|].
    unfold inside, disjoint_ranges. simpl. lia.
Qed.

(** Any sequence from any state: the buffers before the wrap lie behind the offset,
    the buffers after it at the front. *)
Lemma Alloc_all_half a sizes :
  wf_buffer a -> Forall (fun x => 0 < x) sizes -> 2 * zsum sizes <= end_ a - start a ->
  let r := Alloc_all a sizes in
  Forall (inside (start a) (end_ a)) (fst r) /\
  ForallOrdPairs disjoint_ranges (fst r) /\
  Forall (fun x => inside (start a + cur_offset a) (end_ a) x \/
                   end_ a - start a < cur_offset a + zsum sizes /\
                   inside (start a) (start a + zsum sizes) x) (fst r).
Proof.
  intros Hwf Hs. revert a Hwf. induction Hs as [|size sizes Hsize Hs IH]; intros a Hwf Hsum; cbn [Alloc_all].
  { repeat split; constructor. }
  pose proof (zsum_nonneg _ Hs). simpl in Hsum. fold (zsum sizes) in Hsum. pose proof Hwf as (? & ? & ?).
  destruct (Alloc_spec a size Hwf ltac:(lia)) as (c & Hc & -> & Hwf' & _).
  assert (wf_buffer (MkBufferAllocator (start a) (end_ a) (c + size))) as Hwf2.
  { unfold wf_buffer. simpl. lia. }
  destruct Hc as [[-> Hfit]|[-> Hwrap]].
  - destruct (IH _ Hwf2 ltac:(simpl; lia)) as (Hin & Hd & Hplace). simpl in Hin, Hplace.
    destruct (Alloc_all _ sizes) as [rets a'] eqn:E. cbn [fst] in *. cbn [zsum foldr].
    fold (zsum sizes). split; [|split].
    + constructor; [|done]. unfold inside. simpl. lia.
    + constructor; [|done]. eapply Forall_impl; [exact Hplace|].
      unfold inside, disjoint_ranges. simpl. intros. lia.
    + constructor; [left; unfold inside; simpl; lia|]. eapply Forall_impl; [exact Hplace|].
      unfold inside. simpl. intros. lia.
  - assert (0 + size + zsum sizes <= end_ a - start a) as Hfit by lia.
    destruct (Alloc_all_spec _ sizes Hwf2 Hs Hfit) as [Hin Hd]. simpl in Hin.
    destruct (Alloc_all _ sizes) as [rets a'] eqn:E. cbn [fst] in *. cbn [zsum foldr].
    fold (zsum sizes). split; [|split].
    + constructor; [unfold inside; simpl; lia|]. eapply Forall_impl; [exact Hin|].
      unfold inside. simpl. intros. lia.
    + constructor; [|done]. eapply Forall_impl; [exact Hin|].
      unfold inside, disjoint_ranges. simpl. intros. lia.
    + constructor; [right; unfold inside; simpl; lia|]. eapply Forall_impl; [exact Hin|].
      unfold inside. simpl. intros. lia.
Qed.

(** Any sequence whose sizes fit the region stays inside of it. *)
Lemma Alloc_all_inside a sizes :
  wf_buffer a -> Forall (fun x => 0 < x <= end_ a - start a) sizes ->
  Forall (inside (start a) (end_ a)) (fst (Alloc_all a sizes)).
Proof.
  intros Hwf Hs. revert a Hwf Hs. induction sizes as [|size sizes IH]; intros a Hwf Hs; cbn [Alloc_all].
  { constructor. }
  apply Forall_cons in Hs as [Hsize Hs].
  destruct (Alloc_spec a size Hwf Hsize) as (c & _ & E & Hwf' & Hin). rewrite E in *.
  cbn [fst snd] in *. specialize (IH _ Hwf' Hs). simpl in IH.
  destruct (Alloc_all _ sizes) as [rets a']. by constructor.
Qed.

Definition per_thread_log (num_thread : Z) : Z := LOG_BUFFER_SIZE / num_thread.

(** The state of the log allocator of the thread whose part of the log is [s, e). *)
Definition wf_log (s e : Z) (a : LogOffsetAllocator) : Prop :=
  start_log_offsets a = replicate NUM_MEMORY_NODES s /\
  end_log_offsets a = replicate NUM_MEMORY_NODES e /\
  length (current_log_offsets a) = NUM_MEMORY_NODES /\
  Forall (fun c => 0 <= c <= e - s) (current_log_offsets a).

Lemma GetNextLogOffset_spec s e a node size :
  0 <= s <= e -> e < 2 ^ 62 -> wf_log s e a -> (node < NUM_MEMORY_NODES)%nat -> 0 < size <= e - s ->
  exists offset a', GetNextLogOffset a node size = Ok (offset, a') /\ wf_log s e a' /\
    inside s e (offset, size).
Proof.
  intros Hs He (Hst & Hen & Hlen & Hc) Hnode Hsize.
  destruct (lookup_lt_is_Some_2 (current_log_offsets a) node) as [c Hcur]; [lia|].
  pose proof (Forall_lookup_1 _ _ _ _ Hc Hcur) as Hcr. simpl in Hcr.
  unfold GetNextLogOffset. rewrite Hst, Hen, !lookup_replicate_2, Hcur by done.
  cbn [deref mbind outcome_bind]. rewrite wrap_small by lia.
  assert (forall x, 0 <= x < 2 ^ 63 -> i64 x = x) as Hi.
  { intros x Hx. unfold to_signed. rewrite wrap_small by lia. by test (x <? 2 ^ (64 - 1)) is true. }
  eexists _, _. split; [done|]. unfold wf_log, inside. cbn [start_log_offsets end_log_offsets current_log_offsets fst snd].
  rewrite length_insert. destruct (Z.ltb_spec e (s + c + size)).
  - split; [|lia]. split; [done|split; [done|split; [done|]]].
    apply Forall_insert; [done|]. rewrite Hi; lia.
  - split; [|lia]. split; [done|split; [done|split; [done|]]].
    apply Forall_insert; [done|]. rewrite Hi; lia.
Qed.

Lemma log_offsets_spec s e a reqs :
  0 <= s <= e -> e < 2 ^ 62 -> wf_log s e a ->
  Forall (fun r => (fst r < NUM_MEMORY_NODES)%nat /\ 0 < snd r <= e - s) reqs ->
  exists os, log_offsets a reqs = Ok os /\
    map (fun o => (fst (fst o), snd o)) os = reqs /\
    Forall (fun o => inside s e (snd (fst o), snd o)) os.
Proof.
  intros Hs He Hwf Hreqs. revert a Hwf.
  induction Hreqs as [|[node size] reqs [Hn Hsz] _ IH]; intros a Hwf; cbn [log_offsets].
  { by exists []. }
  destruct (GetNextLogOffset_spec s e a node size Hs He Hwf Hn Hsz) as (o & a' & -> & Hwf' & Hin).
  cbn [mbind outcome_bind snd fst]. destruct (IH a' Hwf') as (os & -> & Hmap & Hall).
  cbn [mbind outcome_bind]. exists ((node, o, size) :: os). split; [done|]. split.
  - simpl. by rewrite Hmap.
  - by constructor.
Qed.

Lemma new_log_wf tid n :
  0 <= tid < n -> n < 2 ^ 32 ->
  let per := per_thread_log n in
  wf_log (tid * per) ((tid + 1) * per) (new_LogOffsetAllocator tid n) /\
  0 <= per /\ n * per <= LOG_BUFFER_SIZE.
Proof.
  intros Ht Hn per. unfold per, per_thread_log.
  assert (0 <= LOG_BUFFER_SIZE / n) by (apply Z.div_pos; unfold LOG_BUFFER_SIZE; lia).
  assert (n * (LOG_BUFFER_SIZE / n) <= LOG_BUFFER_SIZE) by (apply Z.mul_div_le; lia).
  split; [|lia]. unfold wf_log, new_LogOffsetAllocator. simpl. rewrite wrap_small by lia.
  split; [done|]. split; [done|]. split; [done|].
  repeat constructor; nia.
Qed.

Lemma parts_disjoint t1 t2 per : 0 <= per -> t1 <> t2 -> (t1 + 1) * per <= t2 * per \/ (t2 + 1) * per <= t1 * per.
Proof. intros. destruct (Z.lt_trichotomy t1 t2) as [|[|]]; nia. Qed.

Lemma GetThreadLocalRegion_spec mr n tid :
  0 <= tid < n -> n < 2 ^ 32 ->
  GetThreadLocalRegion (MkRegionAllocator mr n) tid =
    Ok (mr + tid * PER_THREAD_ALLOC_SIZE, mr + (tid + 1) * PER_THREAD_ALLOC_SIZE).
Proof.
  intros Ht Hn. unfold GetThreadLocalRegion. simpl. test (tid <? n) is true.
  cbn [assert_ mbind outcome_bind]. unfold PER_THREAD_ALLOC_SIZE.
  rewrite (wrap_small 32), !wrap_small by lia. done.
Qed.

(** ** Properties *)

(** A thread's buffer allocator never hands out memory outside of its region,
    and buffers whose sizes add up to at most half of the region are pairwise
    disjoint, also when the allocation wraps around between them: a buffer is
    reused only after the thread has allocated more than half of the region. *)
Theorem Alloc_disjoint (a : RDMABufferAllocator) (sizes : list Z) :
  wf_buffer a -> Forall (fun x => 0 < x) sizes -> 2 * zsum sizes <= end_ a - start a ->
  Forall (inside (start a) (end_ a)) (fst (Alloc_all a sizes)) /\
  ForallOrdPairs disjoint_ranges (fst (Alloc_all a sizes)).
Proof. intros Hwf Hs Hsum. by destruct (Alloc_all_half a sizes Hwf Hs Hsum) as (? & ? & _). Qed.

Lemma Alloc_disjoint_witness :
  Forall (inside 1000 1100) (fst (Alloc_all (MkBufferAllocator 1000 1100 70) [20; 20; 10])) /\
  ForallOrdPairs disjoint_ranges (fst (Alloc_all (MkBufferAllocator 1000 1100 70) [20; 20; 10])).
Proof.
  apply (Alloc_disjoint (MkBufferAllocator 1000 1100 70) [20; 20; 10]).
  - unfold wf_buffer. simpl. lia.
  - repeat constructor; lia.
  - simpl. lia.
Defined.

(** The buffers of different threads never overlap: the regions that
    [GetThreadLocalRegion] gives to two threads are inside of the registered memory
    and disjoint, and so are all buffers that the two threads allocate from them. *)
Theorem thread_buffers_disjoint (mr n t1 t2 : Z) (sizes1 sizes2 : list Z) (b1 b2 : Z * Z) :
  0 <= mr -> mr + n * PER_THREAD_ALLOC_SIZE < 2 ^ 63 -> n < 2 ^ 32 ->
  0 <= t1 < n -> 0 <= t2 < n -> t1 <> t2 ->
  Forall (fun x => 0 < x <= PER_THREAD_ALLOC_SIZE) sizes1 ->
  Forall (fun x => 0 < x <= PER_THREAD_ALLOC_SIZE) sizes2 ->
  exists s1 e1 s2 e2,
    GetThreadLocalRegion (MkRegionAllocator mr n) t1 = Ok (s1, e1) /\
    GetThreadLocalRegion (MkRegionAllocator mr n) t2 = Ok (s2, e2) /\
    (b1 ∈ fst (Alloc_all (new_RDMABufferAllocator s1 e1) sizes1) ->
     b2 ∈ fst (Alloc_all (new_RDMABufferAllocator s2 e2) sizes2) ->
     disjoint_ranges b1 b2 /\ inside mr (mr + n * PER_THREAD_ALLOC_SIZE) b1).
Proof.
  intros Hmr Hend Hn H1 H2 Hne Hs1 Hs2. rewrite !GetThreadLocalRegion_spec by done.
  eexists _, _, _, _. split; [done|]. split; [done|].
  set (per := PER_THREAD_ALLOC_SIZE) in *. assert (0 < per) by (unfold per, PER_THREAD_ALLOC_SIZE; lia).
  assert (forall t sizes b, 0 <= t < n -> Forall (fun x => 0 < x <= per) sizes ->
    b ∈ fst (Alloc_all (new_RDMABufferAllocator (mr + t * per) (mr + (t + 1) * per)) sizes) ->
    inside (mr + t * per) (mr + (t + 1) * per) b) as Hin.
  { intros t sizes b Ht Hs Hb.
    assert (wf_buffer (new_RDMABufferAllocator (mr + t * per) (mr + (t + 1) * per))) as Hwf.
    { unfold wf_buffer; simpl. nia. }
    refine (proj1 (Forall_forall _ _) (Alloc_all_inside _ sizes Hwf _) b Hb).
    eapply Forall_impl; [exact Hs|]. intros x Hx. simpl in *. lia. }
  intros Hb1 Hb2. pose proof (Hin _ _ _ H1 Hs1 Hb1) as Hi1. pose proof (Hin _ _ _ H2 Hs2 Hb2) as Hi2.
  split.
  - apply (inside_disjoint _ _ _ _ _ _ Hi1 Hi2).
    destruct (parts_disjoint t1 t2 per ltac:(lia) Hne); [left|right]; lia.
  - unfold inside in *. nia.
Qed.

Lemma thread_buffers_disjoint_witness :
  exists s1 e1 s2 e2,
    GetThreadLocalRegion (MkRegionAllocator 4096 3) 0 = Ok (s1, e1) /\
    GetThreadLocalRegion (MkRegionAllocator 4096 3) 2 = Ok (s2, e2) /\
    ((4096, 64) ∈ fst (Alloc_all (new_RDMABufferAllocator s1 e1) [64]) ->
     (1048580096, 64) ∈ fst (Alloc_all (new_RDMABufferAllocator s2 e2) [64]) ->
     disjoint_ranges (4096, 64) (1048580096, 64) /\
     inside 4096 (4096 + 3 * PER_THREAD_ALLOC_SIZE) (4096, 64)).
Proof.
  apply (thread_buffers_disjoint 4096 3 0 2 [64] [64]); unfold PER_THREAD_ALLOC_SIZE;
    try lia; repeat constructor; lia.
Defined.

(** Log entries of different threads never overlap on a memory node: for the
    threads of a compute node, any entries of at most a thread's share of the log
    buffer get offsets inside of the buffer and inside of the thread's share. *)
Theorem thread_logs_disjoint (n t1 t2 : Z) (reqs1 reqs2 : list (nat * Z)) :
  n < 2 ^ 32 -> 0 <= t1 < n -> 0 <= t2 < n -> t1 <> t2 ->
  Forall (fun r => (fst r < NUM_MEMORY_NODES)%nat /\ 0 < snd r <= per_thread_log n) reqs1 ->
  Forall (fun r => (fst r < NUM_MEMORY_NODES)%nat /\ 0 < snd r <= per_thread_log n) reqs2 ->
  exists os1 os2,
    log_offsets (new_LogOffsetAllocator t1 n) reqs1 = Ok os1 /\
    log_offsets (new_LogOffsetAllocator t2 n) reqs2 = Ok os2 /\
    forall o1 o2, o1 ∈ os1 -> o2 ∈ os2 ->
      disjoint_ranges (snd (fst o1), snd o1) (snd (fst o2), snd o2) /\
      inside 0 LOG_BUFFER_SIZE (snd (fst o1), snd o1).
Proof.
  intros Hn H1 H2 Hne Hr1 Hr2.
  destruct (new_log_wf t1 n H1 Hn) as (Hwf1 & Hper & Hsum).
  destruct (new_log_wf t2 n H2 Hn) as (Hwf2 & _ & _).
  set (per := per_thread_log n) in *. unfold LOG_BUFFER_SIZE in *.
  assert (forall t reqs, 0 <= t < n -> wf_log (t * per) ((t + 1) * per) (new_LogOffsetAllocator t n) ->
    Forall (fun r => (fst r < NUM_MEMORY_NODES)%nat /\ 0 < snd r <= per) reqs ->
    exists os, log_offsets (new_LogOffsetAllocator t n) reqs = Ok os /\
      Forall (fun o => inside (t * per) ((t + 1) * per) (snd (fst o), snd o)) os) as Hspec.
  { intros t reqs Ht Hwf Hr.
    destruct (log_offsets_spec (t * per) ((t + 1) * per) (new_LogOffsetAllocator t n) reqs)
      as (os & Hos & _ & Hall); [nia|nia|done| |by exists os].
    eapply Forall_impl; [exact Hr|]. intros r [? ?]. split; [done|]. lia. }
  destruct (Hspec t1 reqs1 H1 Hwf1 Hr1) as (os1 & Ho1 & Hin1).
  destruct (Hspec t2 reqs2 H2 Hwf2 Hr2) as (os2 & Ho2 & Hin2).
  exists os1, os2. split; [done|]. split; [done|]. intros o1 o2 He1 He2.
  rewrite Forall_forall in Hin1, Hin2. pose proof (Hin1 _ He1) as Hi1. pose proof (Hin2 _ He2) as Hi2.
  split.
  - apply (inside_disjoint _ _ _ _ _ _ Hi1 Hi2). by apply parts_disjoint.
  - unfold inside in *. nia.
Qed.

Lemma thread_logs_disjoint_witness :
  exists os1 os2,
    log_offsets (new_LogOffsetAllocator 0 4) [(0%nat, 100); (2%nat, 200)] = Ok os1 /\
    log_offsets (new_LogOffsetAllocator 3 4) [(0%nat, 300)] = Ok os2 /\
    forall o1 o2, o1 ∈ os1 -> o2 ∈ os2 ->
      disjoint_ranges (snd (fst o1), snd o1) (snd (fst o2), snd o2) /\
      inside 0 LOG_BUFFER_SIZE (snd (fst o1), snd o1).
Proof.
  apply (thread_logs_disjoint 4 0 3 [(0%nat, 100); (2%nat, 200)] [(0%nat, 300)]).
  - lia.
  - lia.
  - lia.
  - lia.
  - repeat constructor; vm_compute; done.
  - repeat constructor; vm_compute; done.
Defined.
