(* ===== verification/Random.v ===== *)
(** The pseudo-random generators of core/util/fast_random.h: linear congruential
    generators modulo a power of two. *)
From S2P Require Import Prelude Words.
From Stdlib Require Import Zdivisibility Zpow_facts.

(** ** Operations *)

(** [FastRand(uint64_t* seed)]: the result and the new seed. *)
Definition FastRand (seed : Z) : Z * Z :=
  let seed := u64 (u64 (seed * 1103515245) + 12345) in
  (u32 (Z.shiftr seed 32), seed).

(** The mask (1UL << 48) - 1. *)
Definition mask48 : Z := Z.shiftl 1 48 - 1.

(** The state update that [Rand] and [FastRandom] share. *)
Definition step48 (state : Z) : Z := Z.land (u64 (u64 (state * 0x5deece66d) + 0xb)) mask48.

(** [Rand::next_u32]. *)
Definition Rand_next_u32 (state : Z) : Z * Z :=
  let state := step48 state in
  (u32 (Z.shiftr state (48 - 32)), state).

Definition SetSeed0 (sed : Z) : Z := Z.land (Z.lxor sed 0x5deece66d) mask48.

(** [FastRandom::Next(bits)]. *)
Definition Next_bits (bits seed : Z) : Z * Z :=
  let seed := step48 seed in
  (Z.shiftr seed (48 - bits), seed).

(** [FastRandom::Next()], with the operands evaluated from left to right. *)
Definition Next (seed : Z) : Z * Z :=
  let '(hi, seed) := Next_bits 32 seed in
  let '(lo, seed) := Next_bits 32 seed in
  (u64 (u64 (Z.shiftl hi 32) + lo), seed).

Definition NextU32 (seed : Z) : Z * Z := let '(x, seed) := Next_bits 32 seed in (u32 x, seed).
Definition NextU16 (seed : Z) : Z * Z := let '(x, seed) := Next_bits 16 seed in (u16 x, seed).

(** [NextChar]: the byte of the [char]. *)
Definition NextChar (seed : Z) : Z * Z :=
  let '(x, seed) := Next_bits 8 seed in (x mod 256, seed).

Fixpoint NextString (len : nat) (seed : Z) : list Z * Z :=
  match len with
  | O => ([], seed)
  | S len =>
      let '(c, seed) := NextChar seed in
      let '(s, seed) := NextString len seed in
      (c :: s, seed)
  end.

(** ** Linear congruential generators modulo a power of two *)

Definition lcg (a c k x : Z) : Z := (a * x + c) mod 2 ^ k.

(** The sum of the powers of [a] below [n]. *)
Fixpoint geometric (a : Z) (n : nat) : Z :=
  match n with O => 0 | S n => a * geometric a n + 1 end.

Lemma geometric_spec a n : (a - 1) * geometric a n = a ^ Z.of_nat n - 1.
Proof.
  induction n as [|n IH]; [cbn; lia|]. cbn [geometric].
  rewrite Nat2Z.inj_succ, Z.pow_succ_r by lia. nia.
Qed.

Lemma geometric_add a n m :
  geometric a (n + m) = geometric a n + a ^ Z.of_nat n * geometric a m.
Proof.
  induction n as [|n IH]; [cbn [Nat.add geometric]; rewrite Z.pow_0_r; lia|].
  cbn [Nat.add geometric]. rewrite IH, Nat2Z.inj_succ, Z.pow_succ_r by lia. ring.
Qed.

Lemma iter_lcg a c k n x :
  0 <= k -> 0 <= x < 2 ^ k ->
  Nat.iter n (lcg a c k) x = (a ^ Z.of_nat n * x + c * geometric a n) mod 2 ^ k.
Proof.
  intros Hk Hx. induction n as [|n IH].
  { cbn [geometric]. cbv [Nat.iter nat_rect]. rewrite Z.pow_0_r, Z.mod_small; lia. }
  rewrite Nat.iter_succ, IH. unfold lcg. rewrite <- Zplus_mod_idemp_l, Zmult_mod_idemp_r, Zplus_mod_idemp_l.
  f_equal. cbn [geometric]. rewrite Nat2Z.inj_succ, Z.pow_succ_r by lia. ring.
Qed.

Lemma odd_cancel k x d : 0 <= k -> Z.odd d = true -> (2 ^ k | x * d) <-> (2 ^ k | x).
Proof.
  intros Hk Hd. split; [|apply Z.divide_mul_l].
  rewrite Z.mul_comm. intros H. apply Z.gauss with d; [done|].
  apply Z.coprime_pow_l; [done|]. apply Z.odd_spec in Hd as [q ->].
  replace (2 * q + 1) with (1 + q * 2) by lia. apply Z.gcd_add_mult_diag_r.
Qed.

Lemma geometric_odd a n : Z.odd a = true -> Z.odd (geometric a n) = Nat.odd n.
Proof.
  intros Ha. induction n as [|n IH]; [done|]. cbn [geometric].
  rewrite Z.odd_add, Z.odd_mul, Ha, IH, Nat.odd_succ, <- Nat.negb_odd. by destruct (Nat.odd n).
Qed.

(** A power of two divides the geometric sum exactly if it divides its length. *)
Lemma geometric_divide a k n :
  0 <= k -> a mod 4 = 1 -> (2 ^ k | geometric a n) <-> (2 ^ k | Z.of_nat n).
Proof.
  intros Hk Ha. assert (Z.odd a = true) as Hodd.
  { rewrite Zodd_mod. apply Zeq_is_eq_bool. rewrite (Z.div_mod a 4), Ha by lia.
    replace (4 * (a / 4) + 1) with (1 + (2 * (a / 4)) * 2) by lia. by rewrite Z_mod_plus_full. }
  revert n. pattern k. apply natlike_ind; [intros n|intros j Hj IH n|done].
  { rewrite Z.pow_0_r. split; intros; apply Z.divide_1_l. }
  rewrite Z.pow_succ_r by done.
  destruct (Nat.Even_or_Odd n) as [[m ->]|[m ->]].
  - replace (2 * m)%nat with (m + m)%nat by lia. rewrite geometric_add.
    assert (exists q, a ^ Z.of_nat m = 4 * q + 1) as [q Hq].
    { exists ((a ^ Z.of_nat m) / 4). rewrite (Z.div_mod (a ^ Z.of_nat m) 4) at 1 by lia.
      f_equal. rewrite Zpow_facts.Zpower_mod, Ha, Z.pow_1_l by lia. done. }
    rewrite Hq. replace (geometric a m + (4 * q + 1) * geometric a m)
      with (2 * (geometric a m * (2 * q + 1))) by ring.
    replace (Z.of_nat (m + m)) with (2 * Z.of_nat m) by lia.
    rewrite !Z.mul_divide_cancel_l by lia. rewrite odd_cancel; [apply IH|done|].
    apply Z.odd_spec. by exists q.
  - assert (forall x, Z.odd x = true -> ~ (2 * 2 ^ j | x)) as Hno.
    { intros x Hx [y Hy]. rewrite Hy, !Z.odd_mul in Hx. by rewrite andb_false_r in Hx. }
    split; intros H; exfalso; (eapply Hno; [|exact H]).
    + rewrite geometric_odd by done. apply Nat.odd_spec. by exists m.
    + apply Z.odd_spec. exists (Z.of_nat m). lia.
Qed.

(** The full period of Hull and Dobell for a modulus that is a power of two. *)
Lemma lcg_period a c k n x :
  0 <= k -> a mod 4 = 1 -> Z.odd c = true -> 0 <= x < 2 ^ k ->
  Nat.iter n (lcg a c k) x = x <-> (2 ^ k | Z.of_nat n).
Proof.
  intros Hk Ha Hc Hx. rewrite iter_lcg by done. rewrite <- geometric_divide with (a := a) by done.
  rewrite <- (odd_cancel k (geometric a n) ((a - 1) * x + c)); [|done|].
  - replace (geometric a n * ((a - 1) * x + c)) with ((a ^ Z.of_nat n * x + c * geometric a n) - x).
    + split.
      * intros H. apply Z.cong_iff_ex. rewrite H. symmetry. by apply Z.mod_small.
      * intros H. apply Z.cong_iff_ex in H. rewrite H. by apply Z.mod_small.
    + replace (geometric a n * ((a - 1) * x + c))
        with ((a - 1) * geometric a n * x + c * geometric a n) by ring.
      rewrite geometric_spec. ring.
  - rewrite Z.odd_add, Z.odd_mul, Hc, Z.odd_sub, Zodd_mod.
    replace (a mod 2) with 1.
    + done.
    + rewrite (Z.div_mod a 4), Ha by lia. replace (4 * (a / 4) + 1) with (1 + (2 * (a / 4)) * 2) by lia.
      by rewrite Z_mod_plus_full.
Qed.

Lemma iter_ext (f g : Z -> Z) n x : (forall y, f y = g y) -> Nat.iter n f x = Nat.iter n g x.
Proof. intros H. induction n as [|n IH]; [done|]. by rewrite !Nat.iter_succ, IH, H. Qed.

Lemma step48_lcg x : step48 x = lcg 0x5deece66d 0xb 48 x.
Proof.
  unfold step48, lcg, wrap. change mask48 with (Z.ones 48). rewrite Z.land_ones by lia.
  rewrite Zplus_mod_idemp_l, Z.mod_mod_divide by (by exists (2 ^ 16)).
  f_equal. ring.
Qed.

Lemma FastRand_lcg x : snd (FastRand x) = lcg 1103515245 12345 64 x.
Proof.
  unfold FastRand, lcg, wrap. cbn [snd]. rewrite Zplus_mod_idemp_l. f_equal. ring.
Qed.

Lemma step48_range x : 0 <= step48 x < 2 ^ 48.
Proof. rewrite step48_lcg. apply Z.mod_pos_bound. lia. Qed.

(** ** Properties *)

(** The generators run through all of their states before they repeat one:
    [Rand] and [FastRandom] return to a state after [n] steps exactly if 2^48
    divides [n], and [FastRand] returns to a seed exactly if 2^64 divides [n]. *)
Theorem generators_full_period (n : nat) (state seed : Z) :
  0 <= state < 2 ^ 48 -> 0 <= seed < 2 ^ 64 ->
  (Nat.iter n step48 state = state <-> (2 ^ 48 | Z.of_nat n)) /\
  (Nat.iter n (fun s => snd (FastRand s)) seed = seed <-> (2 ^ 64 | Z.of_nat n)).
Proof.
  intros Hst Hseed. split.
  - rewrite (iter_ext _ _ n _ step48_lcg). by apply lcg_period.
  - rewrite (iter_ext _ _ n _ FastRand_lcg). by apply lcg_period.
Qed.

Lemma generators_full_period_witness :
  (Nat.iter 3 step48 42 = 42 <-> (2 ^ 48 | Z.of_nat 3)) /\
  (Nat.iter 3 (fun s => snd (FastRand s)) 42 = 42 <-> (2 ^ 64 | Z.of_nat 3)).
Proof. apply (generators_full_period 3 42 42); lia. Defined.

(** Whatever the state, the results of [FastRandom] and [Rand] fit the width
    that the caller asked for, and the new state is one of 48 bits; the seed
    functions establish that range. *)
Theorem random_ranges (bits seed sed : Z) :
  0 <= bits <= 48 ->
  0 <= fst (Next_bits bits seed) < 2 ^ bits /\ 0 <= snd (Next_bits bits seed) < 2 ^ 48 /\
  fst (NextU32 seed) = fst (Next_bits 32 seed) /\ fst (NextU16 seed) = fst (Next_bits 16 seed) /\
  fst (Rand_next_u32 seed) = fst (Next_bits 32 seed) /\ 0 <= SetSeed0 sed < 2 ^ 48.
Proof.
  intros Hb. pose proof (step48_range seed) as Hs.
  assert (forall b, 0 <= b <= 48 -> 0 <= fst (Next_bits b seed) < 2 ^ b) as H.
  { intros b Hb'. unfold Next_bits. cbn [fst]. rewrite Z.shiftr_div_pow2 by lia. split.
    - apply Z.div_pos; lia.
    - apply Z.div_lt_upper_bound; [lia|]. rewrite <- Z.pow_add_r by lia.
      replace (48 - b + b) with 48 by lia. lia. }
  split; [by apply H|]. split; [exact Hs|].
  pose proof (H 32 ltac:(lia)). pose proof (H 16 ltac:(lia)).
  split; [|split; [|split]].
  - unfold NextU32. destruct (Next_bits 32 seed); cbn [fst] in *. by apply wrap_small.
  - unfold NextU16. destruct (Next_bits 16 seed); cbn [fst] in *. by apply wrap_small.
  - unfold Rand_next_u32. cbn [fst]. by apply wrap_small.
  - unfold SetSeed0. change mask48 with (Z.ones 48). rewrite Z.land_ones by lia.
    apply Z.mod_pos_bound. lia.
Qed.

Lemma random_ranges_witness :
  0 <= fst (Next_bits 26 12345) < 2 ^ 26 /\ 0 <= snd (Next_bits 26 12345) < 2 ^ 48 /\
  fst (NextU32 12345) = fst (Next_bits 32 12345) /\ fst (NextU16 12345) = fst (Next_bits 16 12345) /\
  fst (Rand_next_u32 12345) = fst (Next_bits 32 12345) /\ 0 <= SetSeed0 7 < 2 ^ 48.
Proof. apply (random_ranges 26 12345 7). lia. Defined.
