(* ===== verification/Doubles.v ===== *)
(** Binary64 arithmetic as the code uses it: conversions between [double] and
    integers, and the bounds that rounding to nearest even keeps. *)
From S2P Require Import Prelude Outcome.
From Stdlib Require Export Floats.SpecFloat.

(** ** Conversions and arithmetic *)

(** Rounding to nearest even, and truncation towards zero. *)
Definition double_of_Z (x : Z) : spec_float := binary_normalize 53 1024 x 0 false.

Definition Z_of_double (x : spec_float) : Z :=
  match x with
  | S754_finite s m e =>
      let v := if 0 <=? e then Z.pos m * 2 ^ e else Z.pos m / 2 ^ (- e) in
      if s then - v else v
  | _ => 0
  end.

Definition double_le (x y : spec_float) : bool :=
  match SFcompare x y with Some Lt | Some Eq => true | _ => false end.

Definition double_lt (x y : spec_float) : bool := SFltb x y.
Definition double_eq (x y : spec_float) : bool := SFeqb x y.

Abbreviation dadd := (SFadd 53 1024).
Abbreviation dsub := (SFsub 53 1024).
Abbreviation dmul := (SFmul 53 1024).
Abbreviation ddiv := (SFdiv 53 1024).

(** The conversion of a double to an integer type with the values from [lo] to
    [hi]: the truncated value has to be one of them. *)
Definition integer_of_double (lo hi : Z) (x : spec_float) : outcome Z :=
  match x with
  | S754_infinity _ | S754_nan => Fault
  | _ => let v := Z_of_double x in if (lo <=? v) && (v <=? hi) then Ok v else Fault
  end.

Definition uint64_of_double : spec_float -> outcome Z := integer_of_double 0 (2 ^ 64 - 1).
Definition int_of_double : spec_float -> outcome Z := integer_of_double (- 2 ^ 31) (2 ^ 31 - 1).

(** A step that succeeds; unlike [cbn] it leaves the rest of the program as it is. *)
Lemma bind_value {A B} (a : A) (f : A -> outcome B) : Ok a ≫= f = f a.
Proof. done. Qed.

(** ** Shifting *)

Lemma digits2_pos_log2 p : Z.pos (digits2_pos p) = Z.log2 (Z.pos p) + 1.
Proof.
  induction p as [p IH|p IH|]; cbn [digits2_pos]; [| |done].
  - rewrite Pos2Z.inj_succ, IH. rewrite (Pos2Z.inj_xI p), Z.log2_succ_double by lia. lia.
  - rewrite Pos2Z.inj_succ, IH. rewrite (Pos2Z.inj_xO p), Z.log2_double by lia. lia.
Qed.

Lemma Zdigits2_log2 x : 0 < x -> Zdigits2 x = Z.log2 x + 1.
Proof. destruct x as [|p|p]; [lia| |lia]. intros _. apply digits2_pos_log2. Qed.

(** Does the record say that bits are lost? *)
Definition inexact (r : shr_record) : bool := shr_r r || shr_s r.

Lemma iter_pos_nat {A} (f : A -> A) p x : iter_pos f p x = Nat.iter (Pos.to_nat p) f x.
Proof.
  revert x. induction p as [p IH|p IH|]; intros x; cbn [iter_pos]; rewrite ?IH; [| |done].
  - rewrite Pos2Nat.inj_xI, Nat.iter_succ_r, <- Nat.iter_add. f_equal. lia.
  - rewrite Pos2Nat.inj_xO, <- Nat.iter_add. f_equal. lia.
Qed.

Lemma shr_1_spec r :
  0 <= shr_m r -> shr_m (shr_1 r) = shr_m r / 2 /\ inexact (shr_1 r) = inexact r || Z.odd (shr_m r).
Proof.
  destruct r as [[|[p|p|]|p] a b]; intros H; cbn [shr_1 shr_m shr_r shr_s inexact] in *; try lia;
    (split; [|by destruct a, b]); try done.
  - rewrite Pos2Z.inj_xI, Z.add_comm, Z.mul_comm, Z.div_add by lia. done.
  - rewrite Pos2Z.inj_xO, Z.mul_comm, Z.div_mul by lia. done.
Qed.

Lemma shr_iter_spec n r :
  0 <= shr_m r ->
  shr_m (Nat.iter n shr_1 r) = shr_m r / 2 ^ Z.of_nat n /\
  inexact (Nat.iter n shr_1 r) = inexact r || negb (shr_m r mod 2 ^ Z.of_nat n =? 0).
Proof.
  intros H. induction n as [|n [IH1 IH2]].
  { rewrite Z.pow_0_r, Z.div_1_r, Z.mod_1_r. cbn. by rewrite orb_false_r. }
  set (q := Nat.iter n shr_1 r) in *. change (Nat.iter (S n) shr_1 r) with (shr_1 q).
  assert (0 < 2 ^ Z.of_nat n) as Hp by lia.
  destruct (shr_1_spec q) as [E1 E2]; [rewrite IH1; by apply Z.div_pos|].
  rewrite Nat2Z.inj_succ, Z.pow_succ_r, (Z.mul_comm 2) by lia. split.
  - rewrite E1, IH1, Z.div_div by lia. done.
  - rewrite E2, IH1, IH2, <- orb_assoc. f_equal.
    rewrite Z.rem_mul_r by lia. pose proof (Z.mod_pos_bound (shr_m r) (2 ^ Z.of_nat n) Hp).
    rewrite Zodd_mod. pose proof (Z.mod_pos_bound (shr_m r / 2 ^ Z.of_nat n) 2 ltac:(lia)).
    destruct (Z.eqb_spec (shr_m r mod 2 ^ Z.of_nat n) 0), (Z.eqb_spec ((shr_m r / 2 ^ Z.of_nat n) mod 2) 1),
      (Z.eqb_spec (shr_m r mod 2 ^ Z.of_nat n + 2 ^ Z.of_nat n * ((shr_m r / 2 ^ Z.of_nat n) mod 2)) 0); nia.
Qed.

(** ** Rounding *)

Definition lossy (l : location) : bool := match l with loc_Exact => false | _ => true end.

Lemma record_of_loc m l : shr_m (shr_record_of_loc m l) = m /\ inexact (shr_record_of_loc m l) = lossy l.
Proof. by destruct l as [|[]]. Qed.

Lemma round_nearest_even_cases r :
  round_nearest_even (shr_m r) (loc_of_shr_record r) = shr_m r \/
  inexact r = true /\ round_nearest_even (shr_m r) (loc_of_shr_record r) = shr_m r + 1.
Proof. destruct r as [m [] []]; cbn; [|destruct (Z.even m)|..]; auto. Qed.

(** The number of bits that [shr_fexp] drops. *)
Definition dropped (mx ex : Z) : Z := Z.max 0 (Z.max (Z.log2 mx - 52) (-1074 - ex)).

Lemma shr_fexp_spec mx ex l :
  0 <= mx ->
  exists r, shr_fexp 53 1024 mx ex l = (r, ex + dropped mx ex) /\
    shr_m r = mx / 2 ^ dropped mx ex /\ inexact r = lossy l || negb (mx mod 2 ^ dropped mx ex =? 0).
Proof.
  intros Hm. unfold shr_fexp. destruct (record_of_loc mx l) as [E1 E2].
  assert (Z.max 0 (fexp 53 1024 (Zdigits2 mx + ex) - ex) = dropped mx ex) as Hd.
  { unfold dropped, fexp, emin. destruct (Z.eq_dec mx 0) as [->|]; [cbn; lia|]. rewrite Zdigits2_log2 by lia. lia. }
  rewrite <- Hd. destruct (fexp 53 1024 (Zdigits2 mx + ex) - ex) as [|p|p]; cbn [shr];
    [| |]; [exists (shr_record_of_loc mx l)|exists (iter_pos shr_1 p (shr_record_of_loc mx l))|exists (shr_record_of_loc mx l)].
  1,3: rewrite Z.max_l, Z.add_0_r, E1, E2, Z.pow_0_r, Z.div_1_r, Z.mod_1_r by lia; cbn; by rewrite orb_false_r.
  rewrite Z.max_r by lia.
  destruct (shr_iter_spec (Pos.to_nat p) (shr_record_of_loc mx l)) as [S1 S2]; [by rewrite E1; lia|].
  rewrite positive_nat_Z, E1 in S1. rewrite positive_nat_Z, E1, E2 in S2. rewrite iter_pos_nat. by split.
Qed.

Lemma div_dropped mx ex :
  0 <= mx ->
  0 <= mx / 2 ^ dropped mx ex < 2 ^ 53 /\
  (0 < dropped mx ex -> 2 ^ 52 <= mx / 2 ^ dropped mx ex \/ ex + dropped mx ex = -1074).
Proof.
  intros Hm. destruct (Z.eq_dec mx 0) as [->|Hm0].
  { rewrite Z.div_0_l by (unfold dropped; lia). unfold dropped. cbn. lia. }
  destruct (Z.log2_spec mx ltac:(lia)) as [L1 L2]. pose proof (Z.log2_nonneg mx) as L0.
  set (k := dropped mx ex). assert (0 < 2 ^ k) as Hk by (unfold k, dropped; lia). split; [split|].
  - by apply Z.div_pos.
  - apply Z.div_lt_upper_bound; [done|]. rewrite <- Z.pow_add_r by (unfold k, dropped; lia).
    apply Z.lt_le_trans with (2 ^ Z.succ (Z.log2 mx)); [done|]. apply Z.pow_le_mono_r; unfold k, dropped; lia.
  - intros Hpos. destruct (Z.eq_dec (ex + k) (-1074)) as [|Hne]; [by right|left].
    assert (k = Z.log2 mx - 52) as -> by (unfold k, dropped in *; lia).
    apply Z.div_le_lower_bound; [lia|]. rewrite <- Z.pow_add_r by lia.
    by replace (Z.log2 mx - 52 + 52) with (Z.log2 mx) by lia.
Qed.

(** The multiples of 2^-1074 that are doubles, up to 2^100. *)
Definition representable (y : Z) : Prop :=
  exists b eb, 0 <= b <= 2 ^ 53 /\ -1074 <= eb <= 100 /\ y = b * 2 ^ (eb + 1074).

(** Rounding keeps the side of a double: [q] is what is left of [mx] without its last
    [k] bits, and [m'] is [q], or one more if what was cut off is not 0. *)
Lemma kept_bounds mx ex k (c : bool) m' b eb :
  -2148 <= ex -> 0 <= k -> -1074 <= ex + k -> -1074 <= eb -> 0 <= mx -> 0 <= b <= 2 ^ 53 ->
  (0 < k -> 2 ^ 52 <= mx / 2 ^ k \/ ex + k = -1074) ->
  m' = mx / 2 ^ k \/ (c || negb (mx mod 2 ^ k =? 0) = true /\ m' = mx / 2 ^ k + 1) ->
  ((mx + Z.b2z c) * 2 ^ (ex + 2148) <= b * 2 ^ (eb + 2148) -> m' * 2 ^ (ex + k + 1074) <= b * 2 ^ (eb + 1074)) /\
  (b * 2 ^ (eb + 2148) <= mx * 2 ^ (ex + 2148) -> b * 2 ^ (eb + 1074) <= m' * 2 ^ (ex + k + 1074)).
Proof.
  intros Hex Hk Hek Heb Hm Hb Hbig Hm'. set (q := mx / 2 ^ k) in *. set (E := 2 ^ (ex + 2148)).
  set (K := 2 ^ k) in *. set (B := b * 2 ^ (eb + 2148)).
  assert (0 < E /\ 0 < K) as [HE HK] by (unfold E, K; lia).
  pose proof (Z.div_mod mx K ltac:(lia)) as Hq. fold q in Hq. pose proof (Z.mod_pos_bound mx K HK) as Hr.
  assert (forall y, y * (E * K) <= B <-> y * 2 ^ (ex + k + 1074) <= b * 2 ^ (eb + 1074)) as Hup.
  { intros y. assert (E * K = 2 ^ (ex + k + 1074) * 2 ^ 1074) as -> by (unfold E, K; rewrite <- !Z.pow_add_r by lia; f_equal; lia).
    unfold B. replace (eb + 2148) with (eb + 1074 + 1074) by lia.
    rewrite (Z.pow_add_r 2 (eb + 1074) 1074), !Z.mul_assoc by lia. symmetry. apply Z.mul_le_mono_pos_r. lia. }
  assert (forall y, B <= y * (E * K) <-> b * 2 ^ (eb + 1074) <= y * 2 ^ (ex + k + 1074)) as Hlo.
  { intros y. assert (E * K = 2 ^ (ex + k + 1074) * 2 ^ 1074) as -> by (unfold E, K; rewrite <- !Z.pow_add_r by lia; f_equal; lia).
    unfold B. replace (eb + 2148) with (eb + 1074 + 1074) by lia.
    rewrite (Z.pow_add_r 2 (eb + 1074) 1074), !Z.mul_assoc by lia. symmetry. apply Z.mul_le_mono_pos_r. lia. }
  rewrite <- Hup, <- Hlo. clear Hup Hlo.
  assert (q * K <= mx < (q + 1) * K) as Hqk by (clearbody q K; nia).
  assert (m' = q \/ (c = true \/ mx mod K <> 0) /\ m' = q + 1) as Hcase.
  { destruct Hm' as [|[Hc%orb_true_iff ->]]; [by left|right]. split; [|done].
    destruct Hc as [|Hc%negb_true_iff%Z.eqb_neq]; auto. }
  assert ((c = true \/ mx mod K <> 0) -> q * K < mx + Z.b2z c) as Hstrict.
  { intros [->|Hne]; [cbn; lia|]. assert (0 <= Z.b2z c) by (by destruct c). lia. }
  assert (0 <= Z.b2z c) as Hc0 by (by destruct c). clear Hm'.
  destruct (Z.le_gt_cases (ex + k) eb) as [Hge|Hlt]; [|destruct (Z.eq_dec k 0) as [Hk0|Hk0]].
  - assert (exists b', B = b' * (E * K)) as [b' HB].
    { exists (b * 2 ^ (eb - ex - k)). unfold B, E, K. rewrite <- Z.pow_add_r, <- Z.mul_assoc, <- Z.pow_add_r by lia.
      do 2 f_equal. lia. }
    rewrite HB. assert (0 <= E * K) by lia.
    split; intros H1; replace (b' * (E * K)) with (b' * K * E) in H1 by ring; apply Z.mul_le_mono_pos_r in H1; try done;
      apply Z.mul_le_mono_nonneg_r; try done.
    + destruct Hcase as [->|[Hc ->]]; [apply (Z.mul_le_mono_pos_r _ _ K); lia|].
      specialize (Hstrict Hc). assert (q < b'); [apply (Z.mul_lt_mono_pos_r K)|]; lia.
    + assert (b' < q + 1) by (apply (Z.mul_lt_mono_pos_r K); lia). lia.
  - assert (K = 1) as HK1 by (unfold K; by rewrite Hk0). rewrite HK1, Z.mod_1_r in *.
    assert (q = mx) as Hqm by lia. clearbody E B.
    split; intros H1; destruct Hcase as [->|[[->|] ->]]; rewrite ?Hqm, ?Z.mul_1_r; cbn [Z.b2z] in *; nia.
  - destruct (Hbig ltac:(lia)) as [H52|]; [|lia].
    assert (B <= q * (E * K)) as HB.
    { apply Z.le_trans with (2 ^ 53 * 2 ^ (ex + k - 1 + 2148)).
      - apply Z.mul_le_mono_nonneg; [lia|lia|apply Z.pow_nonneg; lia|apply Z.pow_le_mono_r; lia].
      - assert (E * K = 2 * 2 ^ (ex + k - 1 + 2148)) as ->.
        { unfold E, K. rewrite <- Z.pow_add_r, <- Z.pow_succ_r by lia. f_equal. lia. }
        assert (0 < 2 ^ (ex + k - 1 + 2148)) by (apply Z.pow_pos_nonneg; lia). nia. }
    clearbody B E K. split; intros H1; destruct Hcase as [->|[Hc ->]]; try nia.
    exfalso. specialize (Hstrict Hc). nia.
Qed.

(** ** Values *)

(** The value of a finite double in units of the smallest one, 2^-1074. *)
Definition scaled (x : spec_float) : Z :=
  match x with
  | S754_finite s m e => let v := Z.pos m * 2 ^ (e + 1074) in if s then - v else v
  | _ => 0
  end.

Abbreviation one := (2 ^ 1074).

(** The doubles from 0 to 2^150. *)
Inductive plain : spec_float -> Prop :=
| plain_zero : plain (S754_zero false)
| plain_finite m e : -1074 <= e <= 100 -> Z.pos m < 2 ^ 53 -> plain (S754_finite false m e).

Lemma one_pos : 0 < one.
Proof. by apply Z.pow_pos_nonneg. Qed.

Lemma scaled_nonneg x : plain x -> 0 <= scaled x.
Proof. intros [|m e He Hm]; cbn [scaled]; [done|]. assert (0 <= 2 ^ (e + 1074)) by (apply Z.pow_nonneg; lia). nia. Qed.

Lemma scaled_representable x : plain x -> representable (scaled x).
Proof.
  intros [|m e He Hm].
  - exists 0, 0. done.
  - exists (Z.pos m), e. cbn [scaled]. split; [lia|done].
Qed.

Lemma representable_Z n : 0 <= n <= 2 ^ 53 -> representable (n * one).
Proof. intros Hn. exists n, 0. done. Qed.

Lemma representable_one : representable one.
Proof. rewrite <- (Z.mul_1_l one). by apply representable_Z. Qed.

Lemma representable_below k b : 0 <= k <= 1074 -> 0 <= b <= 2 ^ 53 -> representable (b * 2 ^ (1074 - k)).
Proof. intros Hk Hb. exists b, (- k). split; [done|]. split; [lia|]. do 2 f_equal. lia. Qed.

(** What rounding makes of [mx * 2^ex], of which [mx] is cut off if [c]: a double that
    lies on the same side of every other double. *)
Record rounded (mx ex : Z) (c : bool) (r : spec_float) : Prop := {
  rd_plain : plain r;
  rd_upper : forall y, representable y -> (mx + Z.b2z c) * 2 ^ (ex + 2148) <= y * one -> scaled r <= y;
  rd_lower : forall y, representable y -> y * one <= mx * 2 ^ (ex + 2148) -> y <= scaled r;
}.

(** Twice [shr_fexp]: the second time it only moves the exponent. *)
Lemma shr_fexp_carry m' e' :
  0 <= m' <= 2 ^ 53 -> -1074 <= e' ->
  exists r e, shr_fexp 53 1024 m' e' loc_Exact = (r, e) /\ e' <= e <= e' + 1 /\
    0 <= shr_m r < 2 ^ 53 /\ shr_m r * 2 ^ (e - e') = m'.
Proof.
  intros Hm He. destruct (shr_fexp_spec m' e' loc_Exact) as (r & -> & Hr & _); [lia|].
  exists r, (e' + dropped m' e'). split; [done|]. replace (e' + dropped m' e' - e') with (dropped m' e') by lia.
  rewrite Hr. unfold dropped. destruct (Z.eq_dec m' (2 ^ 53)) as [->|Hne].
  - change (Z.log2 (2 ^ 53)) with 53. replace (Z.max 0 (Z.max (53 - 52) (-1074 - e'))) with 1 by lia.
    split; [lia|]. by vm_compute.
  - assert (Z.log2 m' < 53).
    { destruct (Z.eq_dec m' 0) as [->|]; [done|]. apply Z.log2_lt_pow2; lia. }
    replace (Z.max 0 _) with 0 by lia. rewrite Z.pow_0_r, Z.div_1_r. lia.
Qed.

Lemma rounded_value mx ex k c m' r (m2 e2 : Z) :
  -2148 <= ex -> 0 <= k -> -1074 <= ex + k -> 0 <= mx ->
  (0 < k -> 2 ^ 52 <= mx / 2 ^ k \/ ex + k = -1074) ->
  m' = mx / 2 ^ k \/ (c || negb (mx mod 2 ^ k =? 0) = true /\ m' = mx / 2 ^ k + 1) ->
  ex + k <= e2 -> m2 * 2 ^ (e2 - (ex + k)) = m' -> plain r -> scaled r = m2 * 2 ^ (e2 + 1074) ->
  rounded mx ex c r.
Proof.
  intros Hex Hk Hek Hm Hbig Hm' He2 Hval Hr Hs.
  assert (scaled r = m' * 2 ^ (ex + k + 1074)) as E.
  { rewrite Hs, <- Hval, <- Z.mul_assoc, <- Z.pow_add_r by lia. do 2 f_equal. lia. }
  split; [done|..]; intros y (b & eb & Hb & Heb & ->) Hle; rewrite E;
    destruct (kept_bounds mx ex k c m' b eb) as [B1 B2]; try done; try lia;
    [apply B1|apply B2]; replace (eb + 2148) with (eb + 1074 + 1074) by lia;
    rewrite (Z.pow_add_r 2 (eb + 1074) 1074), Z.mul_assoc by lia; done.
Qed.

(** A value that has a double up to 2^60 above it is rounded to a plain one. *)
Definition bounded_by (mx ex : Z) (c : bool) : Prop := (mx + Z.b2z c) * 2 ^ (ex + 2148) <= 2 ^ 60 * one * one.

Lemma bounded_exp mx ex c : 0 < mx + Z.b2z c -> -2148 <= ex -> bounded_by mx ex c -> ex <= 60.
Proof.
  unfold bounded_by. intros Hm Hex Hle. rewrite <- !Z.pow_add_r in Hle by lia.
  assert (1 * 2 ^ (ex + 2148) <= 2 ^ (60 + 1074 + 1074)) as H.
  { eapply Z.le_trans; [|exact Hle]. apply Z.mul_le_mono_nonneg_r; [apply Z.pow_nonneg|]; lia. }
  rewrite Z.mul_1_l in H. apply Z.pow_le_mono_r_iff in H; lia.
Qed.

Lemma binary_round_aux_spec mx ex l :
  0 <= mx -> -2148 <= ex <= 60 -> bounded_by mx ex (lossy l) ->
  rounded mx ex (lossy l) (binary_round_aux 53 1024 false mx ex l).
Proof.
  intros Hm He Hmax. unfold binary_round_aux. set (k := dropped mx ex).
  destruct (shr_fexp_spec mx ex l Hm) as (r & -> & Hr & Hi). fold k in Hr, Hi |- *.
  destruct (div_dropped mx ex Hm) as [[H1 H2] H3]. fold k in H1, H2, H3.
  assert (0 <= k /\ -1074 <= ex + k) as [Hk Hek] by (unfold k, dropped; lia).
  set (m' := round_nearest_even (shr_m r) (loc_of_shr_record r)).
  assert (m' = mx / 2 ^ k \/ (lossy l || negb (mx mod 2 ^ k =? 0) = true /\ m' = mx / 2 ^ k + 1)) as Hm'.
  { rewrite <- Hi, <- Hr. apply round_nearest_even_cases. }
  destruct (shr_fexp_carry m' (ex + k)) as (r2 & e2 & -> & He2 & Hr2 & Hval); [lia|done|].
  assert (ex + k <= 99) as Hsmall.
  { destruct (Z.le_gt_cases k 0) as [|Hkp]; [lia|]. destruct (H3 Hkp) as [H52|]; [|lia].
    assert (bounded_by (2 ^ k) ex false) as Hb.
    { unfold bounded_by in *. eapply Z.le_trans; [|exact Hmax]. assert (0 <= Z.b2z (lossy l)) by (by destruct l).
      apply Z.mul_le_mono_nonneg_r; [apply Z.pow_nonneg; lia|]. cbn [Z.b2z].
      assert (2 ^ k * (mx / 2 ^ k) <= mx) by (apply Z.mul_div_le; lia). nia. }
    unfold bounded_by in Hb. cbn [Z.b2z] in Hb. rewrite Z.add_0_r, <- !Z.pow_add_r in Hb by lia.
    apply Z.pow_le_mono_r_iff in Hb; lia. }
  destruct (shr_m r2) as [|m|m] eqn:Em; [| |lia].
  - apply (rounded_value mx ex k _ m' _ 0 e2); try done; try lia. constructor.
  - rewrite (proj2 (Z.leb_le _ _)) by lia.
    apply (rounded_value mx ex k _ m' _ (Z.pos m) e2); try done; try lia. constructor; lia.
Qed.

(** ** Operations on plain doubles *)

(** [r] is [P / Q] units, rounded: it lies on the same side of every double. *)
Record nearest (P Q : Z) (r : spec_float) : Prop := {
  nr_plain : plain r;
  nr_upper : forall y, representable y -> P <= y * Q -> scaled r <= y;
  nr_lower : forall y, representable y -> y * Q <= P -> y <= scaled r;
}.

Lemma rounded_nearest mx ex P r :
  mx * 2 ^ (ex + 2148) = P * one -> rounded mx ex false r -> nearest P 1 r.
Proof.
  pose proof one_pos. intros E [Hp Hu Hl]. cbn [Z.b2z] in Hu. rewrite Z.add_0_r, E in Hu. rewrite E in Hl.
  split; [done|..]; intros y Hy Hle; [apply Hu|apply Hl]; try done; nia.
Qed.

(** A double is the rounding of itself. *)
Lemma nearest_exact P Q r : 0 < Q -> representable P -> nearest (P * Q) Q r -> scaled r = P.
Proof.
  intros HQ HP [_ Hu Hl]. pose proof (Hu P HP ltac:(lia)). pose proof (Hl P HP ltac:(lia)). lia.
Qed.

Lemma binary_round_aux_opp m e l :
  binary_round_aux 53 1024 true m e l = SFopp (binary_round_aux 53 1024 false m e l).
Proof.
  unfold binary_round_aux. destruct (shr_fexp 53 1024 m e l) as [r e']. destruct (shr_fexp 53 1024 _ e' loc_Exact) as [r2 e2].
  destruct (shr_m r2); [done| |done]. by destruct (e2 <=? 1024 - 53).
Qed.

Lemma pos_iter_xO p d : Z.pos (Pos.iter xO p d) = Z.pos p * 2 ^ Z.pos d.
Proof.
  induction d as [|d IH] using Pos.peano_ind; [by rewrite Z.pow_1_r; cbn; lia|].
  rewrite Pos.iter_succ, Pos2Z.inj_xO, IH, Pos2Z.inj_succ, Z.pow_succ_r by lia. lia.
Qed.

Lemma shl_align_spec p ex ez :
  ez <= ex -> exists q, shl_align p ex ez = (q, ez) /\ Z.pos q = Z.pos p * 2 ^ (ex - ez).
Proof.
  intros He. unfold shl_align. destruct (ez - ex) as [|d|d] eqn:E; [|lia|].
  - exists p. replace (ex - ez) with 0 by lia. rewrite Z.pow_0_r. split; [f_equal; lia|lia].
  - exists (Pos.iter xO p d). split; [done|]. rewrite pos_iter_xO. do 2 f_equal. lia.
Qed.

Lemma binary_round_opp p ex : binary_round 53 1024 true p ex = SFopp (binary_round 53 1024 false p ex).
Proof. unfold binary_round. destruct (shl_align p ex _). apply binary_round_aux_opp. Qed.

Lemma pow_2148 x e : 0 <= e + 1074 -> x * 2 ^ (e + 2148) = x * 2 ^ (e + 1074) * one.
Proof. intros He. rewrite <- Z.mul_assoc, <- Z.pow_add_r by lia. do 2 f_equal. lia. Qed.

(** [P] units as a mantissa and an exponent. *)
Lemma binary_round_nearest p ex P :
  -1074 <= ex <= 100 -> P = Z.pos p * 2 ^ (ex + 1074) -> P <= 2 ^ 60 * one ->
  nearest P 1 (binary_round 53 1024 false p ex).
Proof.
  intros He EP Hmax. unfold binary_round. set (ez := fexp 53 1024 _).
  assert (-1074 <= ez) by (unfold ez, fexp, emin; lia). pose proof one_pos.
  assert (exists q ez', shl_align p ex ez = (q, ez') /\ -1074 <= ez' /\ Z.pos q * 2 ^ (ez' + 1074) = P) as (q & ez' & -> & Hez & Hq).
  { destruct (Z.le_gt_cases ez ex) as [Hle|Hgt].
    - destruct (shl_align_spec p ex ez Hle) as (q & -> & Hq). exists q, ez. split; [done|]. split; [done|].
      rewrite EP, Hq, <- Z.mul_assoc, <- Z.pow_add_r by lia. do 2 f_equal. lia.
    - exists p, ex. split; [|split; [lia|done]]. unfold shl_align. destruct (ez - ex) eqn:E; [done|done|lia]. }
  assert (Z.pos q * 2 ^ (ez' + 2148) = P * one) as HP by (rewrite pow_2148, Hq by lia; done).
  assert (bounded_by (Z.pos q) ez' false) as Hb.
  { unfold bounded_by. cbn [Z.b2z]. rewrite Z.add_0_r, HP. by apply Z.mul_le_mono_pos_r. }
  apply (rounded_nearest (Z.pos q) ez' P); [done|]. apply binary_round_aux_spec with (l := loc_Exact); [lia| |done].
  pose proof (bounded_exp (Z.pos q) ez' false ltac:(cbn; lia) ltac:(lia) Hb). lia.
Qed.

Lemma representable_nonneg y : representable y -> 0 <= y.
Proof. intros (b & eb & Hb & Heb & ->). assert (0 <= 2 ^ (eb + 1074)) by (apply Z.pow_nonneg; lia). nia. Qed.

Lemma nearest_zero Q : 0 < Q -> nearest 0 Q (S754_zero false).
Proof.
  intros HQ. split; [constructor|..]; intros y Hy%representable_nonneg H; cbn [scaled]; nia.
Qed.

Lemma dmul_nearest x y :
  plain x -> plain y -> scaled x * scaled y <= 2 ^ 60 * one * one -> nearest (scaled x * scaled y) one (dmul x y).
Proof.
  pose proof one_pos. intros [|m1 e1 H1 Hm1] [|m2 e2 H2 Hm2] Hmax; cbn [scaled SFmul xorb] in *.
  1,2,3: rewrite ?Z.mul_0_l, ?Z.mul_0_r; by apply nearest_zero.
  rewrite Pos2Z.inj_mul.
  assert (Z.pos m1 * 2 ^ (e1 + 1074) * (Z.pos m2 * 2 ^ (e2 + 1074)) = Z.pos m1 * Z.pos m2 * 2 ^ (e1 + e2 + 2148)) as E.
  { replace (e1 + e2 + 2148) with (e1 + 1074 + (e2 + 1074)) by lia.
    rewrite (Z.pow_add_r 2 (e1 + 1074) (e2 + 1074)) by lia. ring. }
  rewrite E in *.
  assert (bounded_by (Z.pos m1 * Z.pos m2) (e1 + e2) false) as Hb by (unfold bounded_by; cbn [Z.b2z]; by rewrite Z.add_0_r).
  destruct (binary_round_aux_spec (Z.pos m1 * Z.pos m2) (e1 + e2) loc_Exact) as [Hp Hu Hl]; [lia| |done|].
  { pose proof (bounded_exp (Z.pos m1 * Z.pos m2) (e1 + e2) false ltac:(cbn; lia) ltac:(lia) Hb). lia. }
  cbn [lossy Z.b2z] in Hu, Hl. rewrite Z.add_0_r in Hu. by split.
Qed.

(** The sum and the difference. *)
Lemma dadd_nearest x y :
  plain x -> plain y -> scaled x + scaled y <= 2 ^ 60 * one -> nearest (scaled x + scaled y) 1 (dadd x y).
Proof.
  intros Hx Hy Hmax.
  assert (forall r, plain r -> nearest (scaled r) 1 r) as Hself by (intros r Hr; split; [done|lia..]).
  destruct Hx as [|m1 e1 H1 Hm1]; [by destruct Hy; apply Hself; constructor|].
  destruct Hy as [|m2 e2 H2 Hm2].
  { cbn [SFadd]. replace (_ + _) with (scaled (S754_finite false m1 e1)) by (cbn; lia). by apply Hself; constructor. }
  cbn [SFadd]. set (ez := Z.min e1 e2).
  destruct (shl_align_spec m1 e1 ez) as (q1 & -> & Hq1); [lia|].
  destruct (shl_align_spec m2 e2 ez) as (q2 & -> & Hq2); [lia|]. cbn [fst cond_Zopp].
  rewrite <- Pos2Z.inj_add. cbn [binary_normalize]. apply binary_round_nearest; [lia| |done].
  rewrite Pos2Z.inj_add, Z.mul_add_distr_r, Hq1, Hq2. cbn [scaled].
  rewrite <- !Z.mul_assoc, <- !Z.pow_add_r by lia. f_equal; do 2 f_equal; lia.
Qed.

Lemma dsub_nearest x y :
  plain x -> plain y -> scaled y <= scaled x <= 2 ^ 60 * one -> nearest (scaled x - scaled y) 1 (dsub x y).
Proof.
  intros Hx Hy [Hle Hmax].
  assert (forall r, plain r -> nearest (scaled r) 1 r) as Hself by (intros r Hr; split; [done|lia..]).
  destruct Hy as [|m2 e2 H2 Hm2].
  { cbn [scaled]. rewrite Z.sub_0_r. destruct Hx; apply Hself; by constructor. }
  destruct Hx as [|m1 e1 H1 Hm1].
  { pose proof (scaled_nonneg _ (plain_finite _ _ H2 Hm2)). cbn [scaled] in *.
    assert (0 < 2 ^ (e2 + 1074)) by (apply Z.pow_pos_nonneg; lia). nia. }
  cbn [SFsub]. set (ez := Z.min e1 e2).
  destruct (shl_align_spec m1 e1 ez) as (q1 & -> & Hq1); [lia|].
  destruct (shl_align_spec m2 e2 ez) as (q2 & -> & Hq2); [lia|]. cbn [fst cond_Zopp].
  assert (scaled (S754_finite false m1 e1) - scaled (S754_finite false m2 e2) = (Z.pos q1 - Z.pos q2) * 2 ^ (ez + 1074)) as E.
  { rewrite Z.mul_sub_distr_r, Hq1, Hq2. cbn [scaled].
    rewrite <- !Z.mul_assoc, <- !Z.pow_add_r by lia. f_equal; do 2 f_equal; lia. }
  pose proof (scaled_nonneg _ (plain_finite _ _ H2 Hm2)).
  assert (0 < 2 ^ (ez + 1074)) by (apply Z.pow_pos_nonneg; lia).
  destruct (Z.pos q1 - Z.pos q2) as [|p|p]; cbn [binary_normalize].
  - rewrite E, Z.mul_0_l. change 0 with (scaled (S754_zero false)). apply Hself. constructor.
  - apply binary_round_nearest; [lia|done|lia].
  - lia.
Qed.

(** The quotient. *)
Lemma new_location_lossy n k : lossy (new_location n k) = negb (k =? 0).
Proof. unfold new_location, new_location_even, new_location_odd. by destruct (Z.even n), (k =? 0). Qed.

(** The quotient [q] of the mantissas at the exponent [e'] lies on the same side of
    every double [b * 2^eb] as [M / m2]. *)
Lemma quotient_bounds M m2 e' b eb :
  0 <= M -> 0 < m2 -> -2148 <= e' -> 0 <= b <= 2 ^ 53 -> -1074 <= eb ->
  (2 ^ 52 <= M / m2 \/ e' <= -1074) ->
  (M * 2 ^ (e' + 2148) <= b * 2 ^ (eb + 2148) * m2 ->
   (M / m2 + Z.b2z (negb (M mod m2 =? 0))) * 2 ^ (e' + 2148) <= b * 2 ^ (eb + 2148)) /\
  (b * 2 ^ (eb + 2148) * m2 <= M * 2 ^ (e' + 2148) -> b * 2 ^ (eb + 2148) <= M / m2 * 2 ^ (e' + 2148)).
Proof.
  intros HM Hm2 He' Hb Heb Hbig. set (U := 2 ^ (e' + 2148)). assert (0 < U) as HU by (apply Z.pow_pos_nonneg; lia).
  pose proof (Z.div_mod M m2 ltac:(lia)) as Hq. pose proof (Z.mod_pos_bound M m2 Hm2) as Hr.
  set (q := M / m2) in *. set (r := M mod m2) in *.
  destruct (Z.le_gt_cases e' eb) as [Hle|Hgt].
  - assert (b * 2 ^ (eb + 2148) = b * 2 ^ (eb - e') * U) as ->.
    { unfold U. rewrite <- Z.mul_assoc, <- Z.pow_add_r by lia. do 2 f_equal. lia. }
    set (B := b * 2 ^ (eb - e')). clearbody B U. split; intros H1.
    + apply Z.mul_le_mono_nonneg_r; [lia|].
      assert (M <= B * m2) by (apply (Z.mul_le_mono_pos_r _ _ U); [done|lia]).
      destruct (Z.eqb_spec r 0); cbn [negb Z.b2z]; nia.
    + apply Z.mul_le_mono_nonneg_r; [lia|].
      assert (B * m2 <= M) by (apply (Z.mul_le_mono_pos_r _ _ U); [done|lia]). apply Z.div_le_lower_bound; lia.
  - destruct Hbig as [Hbig|]; [|lia].
    assert (b * 2 ^ (eb + 2148) <= 2 ^ 52 * U) as HB.
    { apply Z.le_trans with (2 ^ 53 * 2 ^ (e' - 1 + 2148)).
      - apply Z.mul_le_mono_nonneg; [lia|lia|apply Z.pow_nonneg; lia|apply Z.pow_le_mono_r; lia].
      - assert (U = 2 * 2 ^ (e' - 1 + 2148)) as ->.
        { unfold U. rewrite <- Z.pow_succ_r by lia. f_equal. lia. } lia. }
    set (B := b * 2 ^ (eb + 2148)) in *. clearbody B U. split; intros H1; [|nia].
    assert (M * U <= 2 ^ 52 * m2 * U) as H2 by nia. apply Z.mul_le_mono_pos_r in H2; [|done].
    assert (q = 2 ^ 52 /\ r = 0) as [-> ->] by nia. cbn [Z.eqb negb Z.b2z]. nia.
Qed.

Lemma SFdiv_core_binary_spec m1 e1 m2 e2 :
  -1074 <= e1 <= 100 -> -1074 <= e2 <= 100 -> Z.pos m1 < 2 ^ 53 -> Z.pos m2 < 2 ^ 53 ->
  exists M e', SFdiv_core_binary 53 1024 (Z.pos m1) e1 (Z.pos m2) e2 =
      (M / Z.pos m2, e', new_location (Z.pos m2) (M mod Z.pos m2)) /\
    0 <= M /\ -2148 <= e' /\ (2 ^ 52 <= M / Z.pos m2 \/ e' <= -1074) /\
    M * 2 ^ (e' + 2148) * 2 ^ (e2 + 1074) = Z.pos m1 * 2 ^ (e1 + 1074) * one * one.
Proof.
  intros H1 H2 Hm1 Hm2. unfold SFdiv_core_binary. rewrite !Zdigits2_log2 by lia.
  set (d := Z.log2 (Z.pos m1) + 1 + e1 - (Z.log2 (Z.pos m2) + 1 + e2)).
  set (e' := Z.min (fexp 53 1024 d) (e1 - e2)). set (s := e1 - e2 - e').
  assert (0 <= s) as Hs by lia. set (M := Z.pos m1 * 2 ^ s).
  assert (match s with Z0 => Z.pos m1 | Z.pos _ => Z.shiftl (Z.pos m1) s | Z.neg _ => 0 end = M) as ->.
  { unfold M. destruct s; [by rewrite Z.pow_0_r, Z.mul_1_r|by rewrite Z.shiftl_mul_pow2 by lia|lia]. }
  assert (Z.div_eucl M (Z.pos m2) = (M / Z.pos m2, M mod Z.pos m2)) as ->.
  { unfold Z.div, Z.modulo. by destruct (Z.div_eucl _ _). }
  pose proof (Z.log2_nonneg (Z.pos m1)). pose proof (Z.log2_nonneg (Z.pos m2)).
  assert (Z.log2 (Z.pos m1) < 53 /\ Z.log2 (Z.pos m2) < 53) as [L1 L2] by (split; apply Z.log2_lt_pow2; lia).
  assert (-2148 <= e') as He' by (unfold e', fexp, emin; lia).
  exists M, e'. split; [done|]. split; [unfold M; assert (0 < 2 ^ s) by lia; nia|]. split; [done|]. split.
  - destruct (Z.le_gt_cases e' (-1074)) as [|Hgt]; [by right|left].
    assert (s = 52 + Z.succ (Z.log2 (Z.pos m2)) - Z.log2 (Z.pos m1)) as Hse by (unfold s, e', fexp, emin, d in *; lia).
    destruct (Z.log2_spec (Z.pos m1)) as [A1 _]; [lia|]. destruct (Z.log2_spec (Z.pos m2)) as [_ A2]; [lia|].
    apply Z.div_le_lower_bound; [lia|]. unfold M.
    apply Z.le_trans with (2 ^ Z.log2 (Z.pos m1) * 2 ^ s); [|apply Z.mul_le_mono_nonneg_r; lia].
    rewrite <- Z.pow_add_r by lia. rewrite Hse.
    replace (Z.log2 (Z.pos m1) + _) with (Z.succ (Z.log2 (Z.pos m2)) + 52) by lia. rewrite Z.pow_add_r by lia. nia.
  - unfold M. rewrite <- !Z.mul_assoc, <- !Z.pow_add_r by lia. do 2 f_equal. unfold s. lia.
Qed.

Lemma ddiv_nearest x y :
  plain x -> plain y -> 0 < scaled y -> scaled x <= 2 ^ 60 * scaled y ->
  nearest (scaled x * one) (scaled y) (ddiv x y).
Proof.
  pose proof one_pos as Hone. intros Hx [|m2 e2 H2 Hm2] Hy Hmax; [by cbn in Hy|].
  destruct Hx as [|m1 e1 H1 Hm1]; [by apply nearest_zero|]. cbn [SFdiv xorb].
  destruct (SFdiv_core_binary_spec m1 e1 m2 e2 H1 H2 Hm1 Hm2) as (M & e' & -> & HM & He' & Hbig & EM).
  set (U := 2 ^ (e' + 2148)) in *. set (W := 2 ^ (e2 + 1074)) in *.
  assert (0 < W) as HW by (apply Z.pow_pos_nonneg; lia).
  assert (scaled (S754_finite false m2 e2) = Z.pos m2 * W) as Esy by done.
  change (Z.pos m1 * 2 ^ (e1 + 1074)) with (scaled (S754_finite false m1 e1)) in EM.
  set (sx := scaled (S754_finite false m1 e1)) in *. set (sy := scaled (S754_finite false m2 e2)) in *. clearbody sx sy.
  assert (forall z, representable z ->
    (sx * one <= z * sy -> (M / Z.pos m2 + Z.b2z (negb (M mod Z.pos m2 =? 0))) * U <= z * one) /\
    (z * sy <= sx * one -> z * one <= M / Z.pos m2 * U)) as Hq.
  { intros z (b & eb & Hb & Heb & ->).
    rewrite (Z.mul_le_mono_pos_r (sx * one) _ one), (Z.mul_le_mono_pos_r _ (sx * one) one), <- EM, Esy by done.
    replace (b * 2 ^ (eb + 1074) * (Z.pos m2 * W) * one) with (b * 2 ^ (eb + 1074) * one * Z.pos m2 * W) by ring.
    rewrite <- !Z.mul_le_mono_pos_r, <- !pow_2148 by (lia || done). apply quotient_bounds; (lia || done). }
  rewrite <- (new_location_lossy (Z.pos m2)) in Hq. set (q := M / Z.pos m2) in *. set (l := new_location _ _) in *.
  assert (0 <= q) as Hq0 by (apply Z.div_pos; lia).
  assert (bounded_by q e' (lossy l)) as Hb.
  { unfold bounded_by. fold U. apply Hq; [exists 1, 60; lia|nia]. }
  assert (e' <= 60) as He60.
  { destruct (Z.le_gt_cases e' (-1074)) as [|Hgt]; [lia|]. destruct Hbig as [Hbig|]; [|lia].
    apply (bounded_exp q e' (lossy l)); [|lia|done]. destruct l; cbn [lossy Z.b2z]; lia. }
  destruct (binary_round_aux_spec q e' l Hq0 ltac:(lia) Hb) as [Hp Hu Hl]. fold U in Hu, Hl.
  split; [done|..]; intros z Hr Hle; destruct (Hq z Hr) as [Q1 Q2]; auto.
Qed.

(** ** Integers as doubles *)

(** An integer up to 2^53 is a double. *)
Lemma double_of_Z_plain n : 0 <= n <= 2 ^ 53 -> plain (double_of_Z n) /\ scaled (double_of_Z n) = n * one.
Proof.
  intros Hn. destruct n as [|p|p]; [by split; [constructor|]| |lia]. pose proof one_pos.
  destruct (binary_round_nearest p 0 (Z.pos p * one)) as [Hp Hu Hl]; [lia|done|nia|]. split; [done|].
  pose proof (representable_Z (Z.pos p) Hn) as Hr. apply Z.le_antisymm; [apply Hu|apply Hl]; (lia || done).
Qed.

(** ** Truncation *)

Lemma Z_of_double_scaled x : plain x -> Z_of_double x = scaled x / one.
Proof.
  intros [|m e He Hm]; [done|]. cbn [Z_of_double scaled]. destruct (Z.leb_spec 0 e) as [H|H].
  - rewrite Z.pow_add_r, Z.mul_assoc, Z.div_mul by lia. done.
  - replace one with (2 ^ (- e) * 2 ^ (e + 1074)) by (rewrite <- Z.pow_add_r by lia; f_equal; lia).
    rewrite Z.div_mul_cancel_r; [done| |]; apply Z.pow_nonzero; lia.
Qed.

(** The conversion of a double between two integers to a type that has them. *)
Lemma integer_of_plain lo hi x k n :
  plain x -> lo <= 0 -> k * one <= scaled x <= n * one -> n <= hi ->
  exists v, integer_of_double lo hi x = Ok v /\ 0 <= v /\ k <= v <= n /\ v * one <= scaled x < (v + 1) * one /\
    (scaled x < n * one -> v < n).
Proof.
  intros Hx Hlo [Hk Hn] Hhi. pose proof (scaled_nonneg x Hx) as H0. pose proof one_pos as Hone.
  assert (0 <= scaled x / one) by by apply Z.div_pos.
  pose proof (Z.mul_div_le (scaled x) one Hone). pose proof (Z.mul_succ_div_gt (scaled x) one Hone).
  assert (k <= scaled x / one) by (apply Z.div_le_lower_bound; lia).
  assert (scaled x / one <= n) by (apply Z.lt_succ_r, Z.div_lt_upper_bound; nia).
  exists (scaled x / one). split.
  - unfold integer_of_double. rewrite (Z_of_double_scaled x Hx).
    rewrite (proj2 (Z.leb_le _ _)) by lia. rewrite (proj2 (Z.leb_le _ _)) by lia. by destruct Hx.
  - split; [done|]. split; [done|]. split; [lia|]. intros Hlt. apply Z.div_lt_upper_bound; lia.
Qed.
(** ** Doubles from 0 to 1, and negative ones *)

Definition unit_double (x : spec_float) : Prop := plain x /\ scaled x <= one.

Lemma unit_zero : unit_double (S754_zero false).
Proof. split; [constructor|]. pose proof one_pos. cbn [scaled]. lia. Qed.

Lemma unit_one : unit_double (double_of_Z 1).
Proof. destruct (double_of_Z_plain 1) as [H1 H2]; [lia|]. split; [done|]. rewrite H2. lia. Qed.

(** The product of a number up to 1 with one up to [n]. *)
Lemma dmul_unit_integer x y n :
  unit_double x -> plain y -> scaled y <= n * one -> 0 <= n <= 2 ^ 53 -> plain (dmul x y) /\ scaled (dmul x y) <= n * one.
Proof.
  intros [Hx Hle] Hy Hn Hr. pose proof one_pos. pose proof (scaled_nonneg x Hx). pose proof (scaled_nonneg y Hy).
  assert (scaled x * scaled y <= n * one * one) as Hp.
  { rewrite (Z.mul_comm (n * one)). apply Z.mul_le_mono_nonneg; lia. }
  destruct (dmul_nearest x y Hx Hy) as [Q1 Q2 _].
  - apply Z.le_trans with (n * one * one); [done|]. repeat apply Z.mul_le_mono_nonneg_r; lia.
  - split; [done|]. apply Q2; [by apply representable_Z|done].
Qed.

Lemma dmul_unit x y : unit_double x -> unit_double y -> unit_double (dmul x y).
Proof.
  intros Hx [Hy Hle]. destruct (dmul_unit_integer x y 1 Hx Hy) as [H1 H2]; [lia|lia|]. split; [done|]. lia.
Qed.

Lemma dsub_unit x y : unit_double x -> plain y -> scaled y <= scaled x -> unit_double (dsub x y).
Proof.
  intros [Hx Hle] Hy Hyx. pose proof one_pos. pose proof (scaled_nonneg y Hy).
  destruct (dsub_nearest x y Hx Hy) as [Q1 Q2 _]; [nia|].
  split; [done|]. apply Q2; [apply representable_one|lia].
Qed.

Lemma dmul_comm x y : plain x -> plain y -> dmul x y = dmul y x.
Proof.
  intros [|m e _ _] [|m' e' _ _]; cbn [SFmul xorb]; try done. by rewrite (Pos.mul_comm m m'), (Z.add_comm e e').
Qed.

(** Negative results are the opposites of positive ones. *)
Lemma dmul_opp_r x y : plain x -> plain y -> dmul x (SFopp y) = SFopp (dmul x y).
Proof. intros [|m e _ _] [|m' e' _ _]; cbn [SFopp SFmul xorb negb]; try done. apply binary_round_aux_opp. Qed.

Lemma dsub_swap x y :
  plain x -> plain y -> scaled x <= scaled y -> dsub x y = SFopp (dsub y x) \/ dsub x y = S754_zero false.
Proof.
  intros [|m e H1 Hm] [|m' e' H2 Hm'] Hle; cbn [SFsub SFopp negb]; auto.
  set (ez := Z.min e e'). replace (Z.min e' e) with ez by lia.
  destruct (shl_align_spec m e ez) as (q & -> & Hq); [lia|].
  destruct (shl_align_spec m' e' ez) as (q' & -> & Hq'); [lia|]. cbn [fst cond_Zopp].
  assert (Z.pos q <= Z.pos q') as Hqq.
  { apply (Z.mul_le_mono_pos_r _ _ (2 ^ (ez + 1074))); [apply Z.pow_pos_nonneg; lia|].
    rewrite Hq, Hq', <- !Z.mul_assoc, <- !Z.pow_add_r by lia.
    replace (e - ez + (ez + 1074)) with (e + 1074) by lia. by replace (e' - ez + (ez + 1074)) with (e' + 1074) by lia. }
  destruct (Z.pos q' - Z.pos q) as [|p|p] eqn:E; [right|left|lia].
  - by replace (Z.pos q - Z.pos q') with 0 by lia.
  - replace (Z.pos q - Z.pos q') with (Z.neg p) by lia. apply binary_round_opp.
Qed.

Lemma dadd_opp_l x y : plain x -> plain y -> 0 < scaled y -> dadd (SFopp x) y = dsub y x.
Proof.
  intros Hx [|m e _ _] Hy; [by cbn in Hy|]. destruct Hx as [|m' e' _ _]; cbn [SFopp SFadd SFsub negb]; [done|].
  rewrite (Z.min_comm e' e). cbn [cond_Zopp]. by f_equal; rewrite ?Z.add_comm.
Qed.

Lemma double_of_Z_opp n : 0 < n -> double_of_Z (- n) = SFopp (double_of_Z n).
Proof. intros Hn. destruct n as [|p|p]; [lia| |lia]. apply binary_round_opp. Qed.

(** [a * (u - 1) + 1] stays between 0 and 1. *)
Lemma convex_unit a u :
  unit_double a -> unit_double u ->
  unit_double (dadd (dmul a (dsub u (double_of_Z 1))) (double_of_Z 1)).
Proof.
  intros Ha [Hu Hle]. destruct unit_one as [H1 H1le]. destruct (double_of_Z_plain 1) as [_ E1]; [lia|].
  destruct (dsub_swap u (double_of_Z 1) Hu H1) as [->| ->]; [rewrite E1; lia| |].
  - assert (unit_double (dsub (double_of_Z 1) u)) as Hw by (apply dsub_unit; [apply unit_one|done|rewrite E1; lia]).
    rewrite dmul_opp_r by (apply Ha || apply Hw). pose proof (dmul_unit _ _ Ha Hw) as [Hp Hple].
    rewrite dadd_opp_l by (done || rewrite E1; lia). apply dsub_unit; [apply unit_one|done|rewrite E1; lia].
  - assert (dmul a (S754_zero false) = S754_zero false) as -> by by destruct Ha as [[] _]. apply unit_one.
Qed.
