(* ===== verification/RandomDouble.v ===== *)
(** The random doubles of core/util/fast_random.h, and the integers that are made
    from them. *)
From S2P Require Import Prelude Words Outcome Doubles Random.

(** ** Operations *)

(** [Rand::next_f64]: the double and the new state. *)
Definition Rand_next_f64 (state : Z) : spec_float * Z :=
  let state := step48 state in
  (ddiv (double_of_Z state) (double_of_Z (Z.shiftl 1 48 - 1)), state).

(** [FastRandom::NextUniform], with the operands evaluated from left to right. *)
Definition NextUniform (seed : Z) : spec_float * Z :=
  let '(hi, seed) := Next_bits 26 seed in
  let '(lo, seed) := Next_bits 27 seed in
  (ddiv (double_of_Z (u64 (u64 (Z.shiftl hi 27) + lo))) (double_of_Z (Z.shiftl 1 53)), seed).

Definition CheckBetweenInclusive (v min max : Z) : outcome Z :=
  _ ← assert_ (min <=? v);
  _ ← assert_ (v <=? max);
  Ok v.

(** The value of an expression of type [int]: an overflow is undefined. *)
Definition int_value (x : Z) : outcome Z :=
  if (- 2 ^ 31 <=? x) && (x <? 2 ^ 31) then Ok x else Fault.

(** [FastRandom::RandNumber]: [max - min + 1] is of type [int]. *)
Definition RandNumber (min max seed : Z) : outcome (Z * Z) :=
  d ← int_value (max - min);
  range ← int_value (d + 1);
  let '(u, seed) := NextUniform seed in
  v ← uint64_of_double (dadd (dmul u (double_of_Z range)) (double_of_Z min));
  v ← CheckBetweenInclusive v (u64 min) (u64 max);
  Ok (v, seed).

(** ** Ranges *)

Lemma mask48_value : Z.shiftl 1 48 - 1 = 2 ^ 48 - 1.
Proof. done. Qed.

Lemma one_split k : 0 <= k <= 1074 -> one = 2 ^ k * 2 ^ (1074 - k).
Proof. intros. rewrite <- Z.pow_add_r by lia. f_equal. lia. Qed.

(** [next_f64] is at most 1, and below 1 by 2^-48 unless all bits of the new state
    are 1. *)
Lemma next_f64_range state :
  let '(u, state') := Rand_next_f64 state in
  state' = step48 state /\ plain u /\ scaled u <= one /\
  (state' <> 2 ^ 48 - 1 -> scaled u <= (2 ^ 48 - 1) * 2 ^ (1074 - 48)) /\
  (state' = 2 ^ 48 - 1 -> u = double_of_Z 1).
Proof.
  unfold Rand_next_f64. rewrite mask48_value. pose proof (step48_range state) as Hr.
  set (x := step48 state) in *. clearbody x. pose proof one_pos as Hone.
  destruct (double_of_Z_plain x) as [Hx Ex]; [lia|]. destruct (double_of_Z_plain (2 ^ 48 - 1)) as [Hd Ed]; [lia|].
  destruct (ddiv_nearest _ _ Hx Hd) as [Hp Hu _]; rewrite ?Ex, ?Ed in *; [lia|nia|].
  split; [done|]. split; [done|]. split; [|split].
  - apply Hu; [apply representable_one|]. rewrite Z.mul_assoc. apply Z.mul_le_mono_nonneg_r; nia.
  - intros Hne. apply Hu; [apply (representable_below 48); lia|]. rewrite (one_split 48) by lia.
    assert (0 < 2 ^ (1074 - 48)) as Hs by lia. set (t := 2 ^ (1074 - 48)) in *. clearbody t.
    replace (x * (2 ^ 48 * t) * (2 ^ 48 * t)) with (x * 2 ^ 48 * (2 ^ 48 * t * t)) by ring.
    replace ((2 ^ 48 - 1) * t * ((2 ^ 48 - 1) * (2 ^ 48 * t))) with ((2 ^ 48 - 1) * (2 ^ 48 - 1) * (2 ^ 48 * t * t)) by ring.
    apply Z.mul_le_mono_nonneg_r; [repeat apply Z.mul_nonneg_nonneg; lia|lia].
  - intros ->. reflexivity.
Qed.

Lemma Next_bits_range bits seed : 0 <= bits <= 48 -> 0 <= fst (Next_bits bits seed) < 2 ^ bits.
Proof.
  intros Hb. unfold Next_bits. cbn [fst]. rewrite Z.shiftr_div_pow2 by lia. pose proof (step48_range seed). split.
  - apply Z.div_pos; lia.
  - apply Z.div_lt_upper_bound; [lia|]. rewrite <- Z.pow_add_r by lia. replace (48 - bits + bits) with 48 by lia. lia.
Qed.

(** [NextUniform] is a multiple of 2^-53 below 1. *)
Lemma NextUniform_range seed :
  plain (fst (NextUniform seed)) /\
  exists x, 0 <= x < 2 ^ 53 /\ scaled (fst (NextUniform seed)) = x * 2 ^ (1074 - 53).
Proof.
  unfold NextUniform. pose proof (Next_bits_range 26 seed ltac:(lia)) as H1.
  destruct (Next_bits 26 seed) as [hi s]. pose proof (Next_bits_range 27 s ltac:(lia)) as H2.
  destruct (Next_bits 27 s) as [lo s']. cbn [fst] in *. rewrite Z.shiftl_mul_pow2 by lia.
  rewrite (wrap_small 64 (hi * 2 ^ 27)), wrap_small by lia.
  change (Z.shiftl 1 53) with (2 ^ 53). set (x := hi * 2 ^ 27 + lo). assert (0 <= x < 2 ^ 53) as Hx by lia.
  pose proof one_pos as Hone. destruct (double_of_Z_plain x) as [Hp Ex]; [lia|].
  destruct (double_of_Z_plain (2 ^ 53)) as [Hd Ed]; [lia|].
  assert (nearest (scaled (double_of_Z x) * one) (scaled (double_of_Z (2 ^ 53))) (ddiv (double_of_Z x) (double_of_Z (2 ^ 53)))) as Hn.
  { apply ddiv_nearest; rewrite ?Ex, ?Ed; (done || nia). }
  rewrite Ex, Ed in Hn. split; [apply Hn|]. exists x. split; [done|].
  apply nearest_exact with (2 ^ 53 * one); [nia|apply representable_below; lia|].
  replace (x * 2 ^ (1074 - 53) * (2 ^ 53 * one)) with (x * one * one); [done|].
  rewrite (one_split 53) by lia. ring.
Qed.

(** The number before its check lies in the interval, or is the next one. *)
Lemma RandNumber_value min max seed :
  0 <= min <= max -> max - min + 1 < 2 ^ 31 -> max < 2 ^ 31 ->
  let '(u, s) := NextUniform seed in
  exists v, uint64_of_double (dadd (dmul u (double_of_Z (max - min + 1))) (double_of_Z min)) = Ok v /\
    min <= v <= max + 1.
Proof.
  intros Hmin Hr Hmax. destruct (NextUniform_range seed) as (Hu & x & Hx & Hs).
  destruct (NextUniform seed) as [u s]. cbn [fst] in *. pose proof one_pos as Hone.
  assert (scaled u <= one) as Hle by (rewrite Hs, (one_split 53) by lia; nia).
  pose proof (scaled_nonneg _ Hu) as H0.
  destruct (double_of_Z_plain (max - min + 1)) as [Hk Ek]; [lia|].
  destruct (double_of_Z_plain min) as [Hm Em]; [lia|].
  destruct (dmul_nearest u _ Hu Hk) as [Hp Hpu Hpl]; rewrite ?Ek in *.
  { rewrite Z.mul_assoc. apply Z.mul_le_mono_nonneg_r; nia. }
  set (p := dmul u _) in *. clearbody p.
  assert (scaled p <= (max - min + 1) * one) as Hple by (apply Hpu; [apply representable_Z; lia|nia]).
  pose proof (scaled_nonneg _ Hp) as Hp0.
  destruct (dadd_nearest p _ Hp Hm) as [Hq Hqu Hql]; rewrite ?Em in *; [nia|].
  unfold uint64_of_double.
  destruct (integer_of_plain 0 (2 ^ 64 - 1) _ min (max + 1) Hq) as (v & -> & _ & Hv & _); [lia| |lia|by exists v].
  split; [apply Hql|apply Hqu]; try (apply representable_Z; lia); nia.
Qed.

(** The state before the one whose bits are all 1. *)
Definition last_seed : Z := 142368275371844.

(** ** Properties *)

(** For an interval of non-negative numbers of type [int] whose size fits the type
    as well, [RandNumber] returns a number of the interval, or its product and its sum
    were rounded up to the number behind the interval, and its own assertion stops the
    process. It never converts a double that does not fit. *)
Theorem RandNumber_interval (min max seed : Z) :
  0 <= min <= max -> max - min + 1 < 2 ^ 31 -> max < 2 ^ 31 ->
  match RandNumber min max seed with
  | Ok (v, seed') => min <= v <= max /\ seed' = snd (NextUniform seed)
  | Exit =>
      let u := fst (NextUniform seed) in
      uint64_of_double (dadd (dmul u (double_of_Z (max - min + 1))) (double_of_Z min)) = Ok (max + 1)
  | _ => False
  end.
Proof.
  intros Hmin Hr Hmax. pose proof (RandNumber_value min max seed Hmin Hr Hmax) as Hv.
  unfold RandNumber, int_value. rewrite (proj2 (andb_true_iff _ _)) by (rewrite Z.leb_le, Z.ltb_lt; lia).
  cbn [mbind outcome_bind]. rewrite (proj2 (andb_true_iff _ _)) by (rewrite Z.leb_le, Z.ltb_lt; lia).
  cbn [mbind outcome_bind]. destruct (NextUniform seed) as [u s]. cbn [fst snd].
  destruct Hv as (v & E & Hv). rewrite E. cbn [mbind outcome_bind]. unfold CheckBetweenInclusive.
  rewrite (wrap_small 64 min), (wrap_small 64 max), (proj2 (Z.leb_le min v)) by lia. cbn [assert_ mbind outcome_bind].
  destruct (Z.leb_spec v max); cbn [assert_ mbind outcome_bind]; [split; [lia|done]|].
  f_equal. lia.
Qed.

Lemma RandNumber_interval_witness :
  match RandNumber (2 ^ 30) (2 ^ 30 + 1) last_seed with
  | Ok (v, seed') => 2 ^ 30 <= v <= 2 ^ 30 + 1 /\ seed' = snd (NextUniform last_seed)
  | Exit =>
      let u := fst (NextUniform last_seed) in
      uint64_of_double (dadd (dmul u (double_of_Z (2 ^ 30 + 1 - 2 ^ 30 + 1))) (double_of_Z (2 ^ 30))) = Ok (2 ^ 30 + 1 + 1)
  | _ => False
  end.
Proof. apply (RandNumber_interval (2 ^ 30) (2 ^ 30 + 1) last_seed); lia. Defined.

(** The two rounding errors, for one state: a number behind the interval, and 1.0 from
    a generator of doubles below 1. *)
Lemma last_seed_rounds_up :
  step48 last_seed = 2 ^ 48 - 1 /\ RandNumber (2 ^ 30) (2 ^ 30 + 1) last_seed = Exit /\
  fst (Rand_next_f64 last_seed) = double_of_Z 1.
Proof. by vm_compute. Qed.
