(* ===== verification/Zipf.v ===== *)
(** The generator of Zipf-distributed numbers of core/util/zipf.h: its four modes,
    with the arithmetic of [double] as binary64. *)
From S2P Require Import Prelude Words Outcome Doubles Random RandomDouble.

(** ** The bits of a double *)

(** The 64 bits of a double. The bits of a NaN are the hardware's choice, [nan_bits]. *)
Definition bits_of_double (nan_bits : Z) (x : spec_float) : Z :=
  let sign (s : bool) := if s then 2 ^ 63 else 0 in
  match x with
  | S754_zero s => sign s
  | S754_infinity s => sign s + 2047 * 2 ^ 52
  | S754_nan => nan_bits
  | S754_finite s m e =>
      sign s + (if Z.pos m <? 2 ^ 52 then Z.pos m else (e + 1075) * 2 ^ 52 + (Z.pos m - 2 ^ 52))
  end.

Definition double_of_bits (b : Z) : spec_float :=
  let s := Z.testbit b 63 in
  let e := (b / 2 ^ 52) mod 2 ^ 11 in
  let f := b mod 2 ^ 52 in
  if e =? 2047 then (if f =? 0 then S754_infinity s else S754_nan)
  else if e =? 0 then match f with Z.pos m => S754_finite s m (-1074) | _ => S754_zero s end
  else match f + 2 ^ 52 with Z.pos m => S754_finite s m (e - 1075) | _ => S754_nan end.

(** ** Data *)

Record ZipfGen := MkZipf {
  n_ : Z;
  theta_ : spec_float;
  alpha_ : spec_float;
  thres_ : spec_float;
  last_n_ : Z;
  dbl_n_ : spec_float;
  zetan_ : spec_float;
  eta_ : spec_float;
  seq_ : Z;
  rand_ : Z;
}.

(** ** Constants *)

Definition d0 : spec_float := S754_zero false.
Definition d1 : spec_float := double_of_Z 1.
Definition d2 : spec_float := double_of_Z 2.
Definition d40 : spec_float := double_of_Z 40.
Definition d_minus1 : spec_float := double_of_Z (-1).
Definition d_half : spec_float := ddiv d1 d2.

(** [theta > 0. && theta < 1.] *)
Definition between_0_1 (theta : spec_float) : bool := double_lt d0 theta && double_lt theta d1.

(** ** Operations *)

Section Zipf.
Context (nan_bits : Z).

(** [while (e) { if (e & 1) r *= a; a *= a; e >>= 1; }] *)
Fixpoint power_loop (fuel : nat) (e : Z) (r a : spec_float) : outcome spec_float :=
  if e =? 0 then Ok r
  else match fuel with
  | O => OutOfFuel
  | S fuel => power_loop fuel (Z.shiftr e 1) (if Z.odd e then dmul r a else r) (dmul a a)
  end.

(** [x[1]] is the upper half of the double. 32 rounds are enough for every [e] that
    is not negative. *)
Definition pow_approx (a b : spec_float) : outcome spec_float :=
  e ← int_of_double b;
  let x1 := i32 (Z.shiftr (bits_of_double nan_bits a) 32) in
  d ← int_value (x1 - 1072632447);
  x1 ← int_of_double (dadd (dmul (dsub b (double_of_Z e)) (double_of_Z d)) (double_of_Z 1072632447));
  r ← power_loop 32 e d1 a;
  Ok (dmul r (double_of_bits (Z.shiftl (u32 x1) 32))).

(** The loop of [zeta], [n] more times. *)
Fixpoint zeta_loop (n : nat) (last_n : Z) (last_sum theta : spec_float) : outcome spec_float :=
  match n with
  | O => Ok last_sum
  | S n =>
      p ← pow_approx (dadd (double_of_Z last_n) d1) theta;
      zeta_loop n (last_n + 1) (dadd last_sum (ddiv d1 p)) theta
  end.

Definition zeta (last_n : Z) (last_sum : spec_float) (n : Z) (theta : spec_float) : outcome spec_float :=
  let '(last_n, last_sum) := if n <? last_n then (0, d0) else (last_n, last_sum) in
  zeta_loop (Z.to_nat (n - last_n)) last_n last_sum theta.

(** The constructor; [dbl_n] is what the memory of [dbl_n_] held before. *)
Definition new_ZipfGen (dbl_n : spec_float) (n : Z) (theta : spec_float) (rand_seed : Z) : outcome ZipfGen :=
  _ ← assert_ (0 <? n);
  if double_le d1 theta && double_lt theta d40 then Exit
  else
    _ ← assert_ (double_eq theta d_minus1 || (double_le d0 theta && double_lt theta d1) || double_le d40 theta);
    r ←
      (if double_eq theta d_minus1 then Ok (rand_seed mod n, d0, d0)
       else if between_0_1 theta then
         p ← pow_approx d_half theta;
         Ok (0, ddiv d1 (dsub d1 theta), dadd d1 p)
       else Ok (0, d0, d0));
    let '(seq, alpha, thres) := r in
    _ ← assert_ (rand_seed <? Z.shiftl 1 48);
    Ok (MkZipf n theta alpha thres 0 dbl_n d0 d0 seq rand_seed).

(** The copy constructor and [operator=]. *)
Definition copy_ZipfGen (src : ZipfGen) : ZipfGen :=
  MkZipf (n_ src) (theta_ src) (alpha_ src) (thres_ src) (last_n_ src) (dbl_n_ src) (zetan_ src) (eta_ src)
    (seq_ src) (rand_ src).

(** The copy with another seed. *)
Definition reseed_ZipfGen (src : ZipfGen) (rand_seed : Z) : outcome ZipfGen :=
  _ ← assert_ (rand_seed <? Z.shiftl 1 48);
  Ok (MkZipf (n_ src) (theta_ src) (alpha_ src) (thres_ src) (last_n_ src) (dbl_n_ src) (zetan_ src) (eta_ src)
    (seq_ src) rand_seed).

Definition change_n (n : Z) (z : ZipfGen) : ZipfGen :=
  MkZipf n (theta_ z) (alpha_ z) (thres_ z) (last_n_ z) (dbl_n_ z) (zetan_ z) (eta_ z) (seq_ z) (rand_ z).

Definition set_rand (rand : Z) (z : ZipfGen) : ZipfGen :=
  MkZipf (n_ z) (theta_ z) (alpha_ z) (thres_ z) (last_n_ z) (dbl_n_ z) (zetan_ z) (eta_ z) (seq_ z) rand.

Definition set_seq (seq : Z) (z : ZipfGen) : ZipfGen :=
  MkZipf (n_ z) (theta_ z) (alpha_ z) (thres_ z) (last_n_ z) (dbl_n_ z) (zetan_ z) (eta_ z) seq (rand_ z).

(** The first part of [next]: what depends on the number of items. *)
Definition refresh (z : ZipfGen) : outcome ZipfGen :=
  if negb (last_n_ z =? n_ z) then
    r ←
      (if between_0_1 (theta_ z) then
         zetan ← zeta (last_n_ z) (zetan_ z) (n_ z) (theta_ z);
         p ← pow_approx (ddiv d2 (double_of_Z (n_ z))) (dsub d1 (theta_ z));
         zeta2 ← zeta 0 d0 2 (theta_ z);
         Ok (zetan, ddiv (dsub d1 p) (dsub d1 (ddiv zeta2 zetan)))
       else Ok (zetan_ z, eta_ z));
    let '(zetan, eta) := r in
    Ok (MkZipf (n_ z) (theta_ z) (alpha_ z) (thres_ z) (n_ z) (double_of_Z (n_ z)) zetan eta (seq_ z) (rand_ z))
  else Ok z.

Definition next (z : ZipfGen) : outcome (Z * ZipfGen) :=
  z ← refresh z;
  if double_eq (theta_ z) d_minus1 then
    let v := seq_ z in
    let seq := u64 (seq_ z + 1) in
    Ok (v, set_seq (if n_ z <=? seq then 0 else seq) z)
  else if double_eq (theta_ z) d0 then
    let '(u, rand) := Rand_next_f64 (rand_ z) in
    v ← uint64_of_double (dmul (dbl_n_ z) u);
    Ok (v, set_rand rand z)
  else if double_le d40 (theta_ z) then Ok (0, z)
  else
    let '(u, rand) := Rand_next_f64 (rand_ z) in
    let z := set_rand rand z in
    let uz := dmul u (zetan_ z) in
    if double_lt uz d1 then Ok (0, z)
    else if double_lt uz (thres_ z) then Ok (1, z)
    else
      p ← pow_approx (dadd (dmul (eta_ z) (dsub u d1)) d1) (alpha_ z);
      v ← uint64_of_double (dmul (dbl_n_ z) p);
      Ok (if n_ z <=? v then n_ z - 1 else v, z).

(** The first [k] numbers of a generator. *)
Fixpoint draws (k : nat) (z : ZipfGen) : outcome (list Z * ZipfGen) :=
  match k with
  | O => Ok ([], z)
  | S k =>
      r ← next z;
      let '(v, z) := r in
      r ← draws k z;
      let '(vs, z) := r in
      Ok (v :: vs, z)
  end.
End Zipf.
