(* ===== verification/ZipfTheorems.v ===== *)
(** The numbers that the generator of core/util/zipf.h draws: their range in each of
    the four modes, and that it draws one whatever the state of its random generator. *)
From S2P Require Import Prelude Words Outcome Doubles Random RandomDouble Zipf.

(** ** The modes *)

Lemma compare_equal s m e s' m' e' :
  double_eq (S754_finite s m e) (S754_finite s' m' e') = true -> s = s' /\ m = m' /\ e = e'.
Proof.
  unfold double_eq, SFeqb. cbn [SFcompare]. change (Pos.compare_cont Eq m m') with (m ?= m')%positive.
  destruct s, s'; try done; destruct (Z.compare_spec e e'), (Pos.compare_spec m m'); cbn; try done; auto.
Qed.

Lemma mode_sequential theta : double_eq theta d_minus1 = true -> theta = d_minus1.
Proof.
  destruct theta as [s|s| |s m e]; [by destruct s|by destruct s|done|]. unfold d_minus1.
  change (double_of_Z (-1)) with (S754_finite true 4503599627370496 (-52)).
  by intros (-> & -> & ->)%compare_equal.
Qed.

Lemma mode_uniform theta : double_eq theta d0 = true -> exists s, theta = S754_zero s.
Proof. intros H. destruct theta as [s|s| |[] m e]; [by exists s|by destruct s|done..]. Qed.

Lemma mode_constant theta :
  double_le d40 theta = true ->
  double_eq theta d_minus1 = false /\ double_eq theta d0 = false /\ double_lt theta d1 = false.
Proof.
  unfold d40, d1, d_minus1. change (double_of_Z 40) with (S754_finite false 5629499534213120 (-47)).
  change (double_of_Z 1) with (S754_finite false 4503599627370496 (-52)).
  change (double_of_Z (-1)) with (S754_finite true 4503599627370496 (-52)).
  destruct theta as [s|[]| |[] m e]; try done.
  unfold double_le, double_eq, double_lt, SFeqb, SFltb. cbn [SFcompare]. intros Hle.
  assert (-47 <= e) by (destruct (Z.compare_spec (-47) e); [lia|lia|done]).
  split; [done|]. split; [done|]. rewrite (proj2 (Z.compare_gt_iff e (-52))) by lia. done.
Qed.

(** The sequential mode goes through the numbers below [n] in a circle. *)
Lemma refresh_other nan_bits z :
  between_0_1 (theta_ z) = false ->
  exists z', refresh nan_bits z = Ok z' /\ n_ z' = n_ z /\ theta_ z' = theta_ z /\ seq_ z' = seq_ z /\
    rand_ z' = rand_ z /\ last_n_ z' = n_ z /\
    (last_n_ z <> n_ z \/ dbl_n_ z = double_of_Z (n_ z) -> dbl_n_ z' = double_of_Z (n_ z)).
Proof.
  intros Hb. unfold refresh. destruct (Z.eqb_spec (last_n_ z) (n_ z)) as [E|E]; cbn [negb].
  - exists z. repeat split; try done. by intros [|].
  - rewrite Hb. cbn [mbind outcome_bind]. eexists. by repeat split.
Qed.

Section Modes.
Context (nan_bits : Z).

(** A generator of [n] numbers that was just made, or has been used. *)
Definition ready (n : Z) (z : ZipfGen) : Prop :=
  n_ z = n /\ (last_n_ z <> n \/ dbl_n_ z = double_of_Z n).

Lemma new_ZipfGen_ready dbl_n n theta seed z :
  new_ZipfGen nan_bits dbl_n n theta seed = Ok z ->
  0 < n /\ seed < 2 ^ 48 /\ ready n z /\ theta_ z = theta /\ rand_ z = seed /\
  (double_eq theta d_minus1 = true -> seq_ z = seed mod n) /\
  (double_eq theta d_minus1 = true \/ double_le d0 theta && double_lt theta d1 = true \/ double_le d40 theta = true).
Proof.
  intros Hz. unfold new_ZipfGen in Hz. apply bind_Ok in Hz as (_ & H1%assert_Ok & Hz). apply Z.ltb_lt in H1.
  destruct (_ && double_lt theta d40); [done|]. apply bind_Ok in Hz as (_ & H2%assert_Ok & Hz).
  apply bind_Ok in Hz as ([[sq al] th] & Hr & Hz). apply bind_Ok in Hz as (_ & H3%assert_Ok & Hz).
  apply Z.ltb_lt in H3. injection Hz as <-. unfold ready. cbn [n_ theta_ rand_ seq_ last_n_ dbl_n_].
  split; [done|]. split; [done|]. split; [split; [done|left; lia]|]. do 2 (split; [done|]). split.
  - intros Hs. rewrite Hs in Hr. by injection Hr as <- _ _.
  - apply orb_true_iff in H2 as [H2|H2]; [|by auto]. apply orb_true_iff in H2 as [H2|H2]; by auto.
Qed.

(** A step of [draws] and what is to be shown for all of them. *)
Lemma draws_step (P : ZipfGen -> Prop) (step : Z -> Z) (value : Z -> Z) (measure : ZipfGen -> Z) :
  (forall z, P z -> exists z', next nan_bits z = Ok (value (measure z), z') /\ P z' /\ measure z' = step (measure z)) ->
  forall k z, P z -> exists z',
    draws nan_bits k z = Ok (map (fun i => value (Nat.iter i step (measure z))) (seq 0 k), z').
Proof.
  intros Hnext k. induction k as [|k IH]; intros z Hz; cbn [draws]; [by exists z|].
  destruct (Hnext z Hz) as (z1 & -> & Hz1 & Hm). cbn [mbind outcome_bind].
  destruct (IH z1 Hz1) as (z2 & ->). cbn [mbind outcome_bind]. exists z2. do 2 f_equal. cbn [seq map]. f_equal.
  rewrite <- seq_shift, map_map. apply map_ext. intros i. by rewrite Nat.iter_succ_r, Hm.
Qed.

(** The sequential mode runs through the numbers below [n] in a circle. *)
Definition in_circle (n : Z) (z : ZipfGen) : Prop :=
  ready n z /\ theta_ z = d_minus1 /\ 0 <= seq_ z < n.

Lemma next_sequential n z :
  n < 2 ^ 64 -> in_circle n z ->
  exists z', next nan_bits z = Ok (seq_ z, z') /\ in_circle n z' /\ seq_ z' = (seq_ z + 1) mod n.
Proof.
  intros Hn ([Hnz Hd] & Ht & Hs). unfold next.
  destruct (refresh_other nan_bits z) as (z1 & -> & R1 & R2 & R3 & R4 & R5 & R6); [by rewrite Ht|].
  rewrite Hnz in *. cbn [mbind outcome_bind]. rewrite R2, Ht, R1, R3. change (double_eq d_minus1 d_minus1) with true. cbv iota.
  rewrite wrap_small by lia. eexists. split; [done|]. cbn [set_seq n_ theta_ seq_ last_n_ dbl_n_].
  assert ((if n <=? seq_ z + 1 then 0 else seq_ z + 1) = (seq_ z + 1) mod n) as E.
  { destruct (Z.leb_spec n (seq_ z + 1)) as [Hle|Hlt].
    - replace (seq_ z + 1) with n by lia. by rewrite Z.mod_same by lia.
    - by rewrite Z.mod_small by lia. }
  rewrite E. split; [|done]. pose proof (Z.mod_pos_bound (seq_ z + 1) n ltac:(lia)).
  split; [split; [done|right; by apply R6]|]. split; [|done].
  rewrite <- Ht. exact R2.
Qed.

(** The constant mode. *)
Lemma next_constant z :
  double_le d40 (theta_ z) = true ->
  exists z', next nan_bits z = Ok (0, z') /\ theta_ z' = theta_ z /\ seq_ z' = seq_ z.
Proof.
  intros Ht. destruct (mode_constant _ Ht) as (M1 & M2 & M3). unfold next.
  destruct (refresh_other nan_bits z) as (z1 & -> & _ & R2 & R3 & _).
  { unfold between_0_1. by rewrite M3, andb_false_r. }
  cbn [mbind outcome_bind]. rewrite R2, M1, M2, Ht. by exists z1.
Qed.

(** The uniform mode: the product of [n] with a double up to 1. *)
Definition uniform (n state : Z) : Z :=
  match uint64_of_double (dmul (double_of_Z n) (fst (Rand_next_f64 state))) with Ok v => v | _ => 0 end.

(** A double just below [n]. *)
Lemma below_integer n :
  0 < n < 2 ^ 53 -> exists y, representable y /\ y < n * one /\ (2 ^ 48 - 1) * 2 ^ (1074 - 48) * n <= y.
Proof.
  intros Hn. destruct (Z.log2_spec n) as [L1 L2]; [lia|]. pose proof (Z.log2_nonneg n).
  assert (Z.log2 n < 53) by (apply Z.log2_lt_pow2; lia). set (k := 52 - Z.log2 n). assert (0 <= k <= 52) as Hk by lia.
  assert (0 < 2 ^ k /\ 0 < 2 ^ (1074 - k)) as [P1 P2] by lia.
  assert (2 ^ 52 <= n * 2 ^ k < 2 ^ 53) as [H1 H2].
  { assert (2 ^ 52 = 2 ^ Z.log2 n * 2 ^ k) as E1 by (rewrite <- Z.pow_add_r by lia; f_equal; lia).
    assert (2 ^ 53 = 2 ^ Z.succ (Z.log2 n) * 2 ^ k) as E2 by (rewrite <- Z.pow_add_r by lia; f_equal; lia).
    rewrite E1, E2. split; [by apply Z.mul_le_mono_pos_r|by apply Z.mul_lt_mono_pos_r]. }
  exists ((n * 2 ^ k - 1) * 2 ^ (1074 - k)). split; [apply representable_below; lia|].
  rewrite (one_split k) by lia. split; [lia|].
  apply (Z.mul_le_mono_pos_r _ _ (2 ^ 48)); [lia|].
  replace ((2 ^ 48 - 1) * 2 ^ (1074 - 48) * n * 2 ^ 48) with ((2 ^ 48 - 1) * n * (2 ^ 48 * 2 ^ (1074 - 48))) by ring.
  rewrite <- (one_split 48), (one_split k) by lia.
  replace ((2 ^ 48 - 1) * n * (2 ^ k * 2 ^ (1074 - k))) with ((2 ^ 48 - 1) * (n * 2 ^ k) * 2 ^ (1074 - k)) by ring.
  replace ((n * 2 ^ k - 1) * 2 ^ (1074 - k) * 2 ^ 48) with ((n * 2 ^ k - 1) * 2 ^ 48 * 2 ^ (1074 - k)) by ring.
  apply Z.mul_le_mono_nonneg_r; lia.
Qed.

Lemma uniform_spec n state :
  0 < n < 2 ^ 53 ->
  uint64_of_double (dmul (double_of_Z n) (fst (Rand_next_f64 state))) = Ok (uniform n state) /\
  0 <= uniform n state <= n /\ (uniform n state = n <-> step48 state = 2 ^ 48 - 1).
Proof.
  intros Hn. pose proof (next_f64_range state) as Hu. unfold uniform.
  destruct (Rand_next_f64 state) as [u s]. cbn [fst]. destruct Hu as (-> & Hp & Hle & Hlt & Heq).
  pose proof one_pos as Hone. destruct (double_of_Z_plain n) as [Hd Ed]; [lia|].
  pose proof (scaled_nonneg _ Hp) as H0.
  destruct (dmul_nearest _ _ Hd Hp) as [Hm Hmu Hml]; rewrite ?Ed in *.
  { rewrite <- Z.mul_assoc, <- (Z.mul_assoc (2 ^ 60)). apply Z.mul_le_mono_nonneg; nia. }
  set (p := dmul _ u) in *. clearbody p.
  assert (scaled p <= n * one) as Hpn by (apply Hmu; [apply representable_Z; lia|nia]).
  pose proof (scaled_nonneg _ Hm) as Hp0. unfold uint64_of_double.
  destruct (integer_of_plain 0 (2 ^ 64 - 1) p 0 n Hm) as (v & -> & _ & Hv & [_ Hvs] & Hvlt); [lia|lia|lia|].
  split; [done|]. split; [done|]. split.
  - intros ->. destruct (Z.eq_dec (step48 state) (2 ^ 48 - 1)) as [|Hne]; [done|].
    destruct (below_integer n Hn) as (y & Hy & Hyn & Hyle). assert (n < n); [|lia]. apply Hvlt.
    apply Z.le_lt_trans with y; [|done]. apply Hmu; [done|]. specialize (Hlt Hne).
    replace (n * one * scaled u) with (n * scaled u * one) by ring. apply Z.mul_le_mono_nonneg_r; [lia|]. nia.
  - intros Hall. rewrite (Heq Hall) in Hml. destruct (double_of_Z_plain 1) as [_ E1]; [lia|]. rewrite E1 in Hml.
    assert (n * one <= scaled p) by (apply Hml; [apply representable_Z; lia|nia]). nia.
Qed.

Lemma next_uniform n z :
  0 < n < 2 ^ 53 -> ready n z -> double_eq (theta_ z) d0 = true ->
  exists z', next nan_bits z = Ok (uniform n (rand_ z), z') /\ ready n z' /\ theta_ z' = theta_ z /\
    rand_ z' = step48 (rand_ z).
Proof.
  intros Hn [Hnz Hd] Ht. destruct (mode_uniform _ Ht) as [s Hs]. unfold next.
  destruct (refresh_other nan_bits z) as (z1 & -> & R1 & R2 & R3 & R4 & R5 & R6); [by rewrite Hs; destruct s|].
  rewrite Hnz in *. specialize (R6 Hd). cbn [mbind outcome_bind]. rewrite R2, Ht, R6, R4.
  assert (double_eq (theta_ z) d_minus1 = false) as -> by (rewrite Hs; by destruct s).
  destruct (uniform_spec n (rand_ z) Hn) as (E & _ & _).
  destruct (Rand_next_f64 (rand_ z)) as [u st] eqn:Eu. cbn [fst] in E. rewrite E. cbn [mbind outcome_bind].
  eexists. split; [done|]. cbn [set_rand n_ theta_ rand_ last_n_ dbl_n_].
  split; [split; [done|by right]|]. split; [done|].
  pose proof (next_f64_range (rand_ z)) as Hu. rewrite Eu in Hu. by destruct Hu.
Qed.

(** ** Zipf's distribution *)

(** The bits of a double from 0 to 1, and back. *)
Lemma bits_of_unit x :
  unit_double x -> 0 <= Z.shiftr (bits_of_double nan_bits x) 32 <= 1072693248.
Proof.
  intros [[|m e He Hm] Hle]; [done|]. cbn [scaled] in Hle. cbn [bits_of_double]. rewrite Z.add_0_l.
  rewrite Z.shiftr_div_pow2 by lia.
  assert (0 <= (if Z.pos m <? 2 ^ 52 then Z.pos m else (e + 1075) * 2 ^ 52 + (Z.pos m - 2 ^ 52)) <= 1023 * 2 ^ 52) as Hb.
  { destruct (Z.ltb_spec (Z.pos m) (2 ^ 52)); [lia|].
    assert (e <= -52) as He52.
    { destruct (Z.le_gt_cases e (-52)) as [|Hgt]; [done|]. exfalso.
      assert (one < Z.pos m * 2 ^ (e + 1074)); [|lia]. apply Z.lt_le_trans with (2 ^ 52 * 2 ^ (e + 1074)).
      - rewrite <- Z.pow_add_r by lia. apply Z.pow_lt_mono_r; lia.
      - apply Z.mul_le_mono_nonneg_r; [apply Z.pow_nonneg|]; lia. }
    destruct (Z.eq_dec e (-52)) as [->|Hne]; [|nia].
    assert (Z.pos m <= 2 ^ 52); [|lia]. apply (Z.mul_le_mono_pos_r _ _ (2 ^ (-52 + 1074))); [lia|]. lia. }
  split; [apply Z.div_pos; lia|]. apply Z.lt_succ_r, Z.div_lt_upper_bound; lia.
Qed.

Lemma unit_of_bits x1 :
  0 <= x1 <= 1072693248 -> unit_double (double_of_bits (Z.shiftl (u32 x1) 32)).
Proof.
  intros Hx. rewrite wrap_small by lia. rewrite Z.shiftl_mul_pow2 by lia. unfold double_of_bits.
  assert (x1 * 2 ^ 32 / 2 ^ 52 = x1 / 2 ^ 20) as ->.
  { replace (2 ^ 52) with (2 ^ 20 * 2 ^ 32) by lia. by rewrite Z.div_mul_cancel_r by lia. }
  assert (Z.testbit (x1 * 2 ^ 32) 63 = false) as -> by (apply (testbit_high 63); lia).
  pose proof (Z.div_mod x1 (2 ^ 20) ltac:(lia)). pose proof (Z.mod_pos_bound x1 (2 ^ 20) ltac:(lia)).
  assert (0 <= x1 / 2 ^ 20 <= 1023) by nia. rewrite (Z.mod_small (x1 / 2 ^ 20)) by lia.
  assert (x1 * 2 ^ 32 mod 2 ^ 52 = x1 mod 2 ^ 20 * 2 ^ 32) as ->.
  { replace (2 ^ 52) with (2 ^ 20 * 2 ^ 32) by lia. by rewrite Z.mul_mod_distr_r by lia. }
  set (e := x1 / 2 ^ 20) in *. set (f := x1 mod 2 ^ 20) in *.
  rewrite (proj2 (Z.eqb_neq e 2047)) by lia. destruct (Z.eqb_spec e 0).
  - destruct (f * 2 ^ 32) as [|m|m] eqn:E; [apply unit_zero| |apply unit_zero].
    split; [constructor; lia|]. cbn [scaled]. change (2 ^ (-1074 + 1074)) with 1.
    apply Z.le_trans with (2 ^ 52); [lia|]. apply Z.pow_le_mono_r; lia.
  - destruct (f * 2 ^ 32 + 2 ^ 52) as [|m|m] eqn:E; [lia| |lia].
    split; [constructor; lia|]. cbn [scaled].
    destruct (Z.eq_dec e 1023) as [->|Hne].
    + assert (Z.pos m = 2 ^ 52) as -> by lia. rewrite <- Z.pow_add_r by lia. done.
    + apply Z.le_trans with (2 ^ 53 * 2 ^ (e - 1075 + 1074)).
      * apply Z.mul_le_mono_nonneg_r; [apply Z.pow_nonneg|]; lia.
      * rewrite <- Z.pow_add_r by lia. apply Z.pow_le_mono_r; lia.
Qed.

Lemma power_loop_unit fuel e r a :
  unit_double r -> unit_double a -> 0 <= e < 2 ^ Z.of_nat fuel ->
  exists p, power_loop fuel e r a = Ok p /\ unit_double p.
Proof.
  revert e r a. induction fuel as [|fuel IH]; intros e r a Hr Ha He; cbn [power_loop].
  { assert (e = 0) as -> by (cbn in He; lia). by exists r. }
  destruct (Z.eqb_spec e 0); [by exists r|]. apply IH.
  - destruct (Z.odd e); [by apply dmul_unit|done].
  - by apply dmul_unit.
  - rewrite Z.shiftr_div_pow2, Z.pow_1_r by lia. rewrite Nat2Z.inj_succ, Z.pow_succ_r in He by lia.
    split; [apply Z.div_pos; lia|]. apply Z.div_lt_upper_bound; lia.
Qed.

(** The product of the fraction of the exponent with an integer [d], shifted by the
    integer constant [c] of the approximation. *)
Lemma shifted_product f d c :
  unit_double f -> 0 < c < 2 ^ 31 -> - c <= d <= 2 ^ 31 - 1 - c ->
  exists v, int_of_double (dadd (dmul f (double_of_Z d)) (double_of_Z c)) = Ok v /\ 0 <= v <= Z.max c (c + d).
Proof.
  intros Hf Hc Hd. pose proof one_pos as Hone. destruct (double_of_Z_plain c) as [Pc Ec]; [lia|]. unfold int_of_double.
  destruct (Z.le_gt_cases 0 d) as [Hd0|Hd0].
  - destruct (double_of_Z_plain d) as [Pd Ed]; [lia|].
    destruct (dmul_unit_integer f _ d Hf Pd) as [Hp Hle]; [lia|lia|]. pose proof (scaled_nonneg _ Hp).
    destruct (dadd_nearest _ _ Hp Pc) as [Hs Hu _]; rewrite ?Ec in *; [nia|].
    destruct (integer_of_plain (- 2 ^ 31) (2 ^ 31 - 1) _ 0 (c + d) Hs) as (v & -> & _ & Hv & _);
      [lia|split; [rewrite Z.mul_0_l; by apply scaled_nonneg|apply Hu; [apply representable_Z; lia|nia]]|lia|].
    exists v. split; [done|]. lia.
  - destruct (double_of_Z_plain (- d)) as [Pd Ed]; [lia|]. rewrite <- (Z.opp_involutive d), double_of_Z_opp by lia.
    destruct (dmul_unit_integer f _ (- d) Hf Pd) as [Hp Hle]; [lia|lia|].
    rewrite dmul_opp_r, dadd_opp_l by (apply Hf || done || rewrite Ec; nia).
    destruct (dsub_nearest _ _ Pc Hp) as [Hs Hu _]; [rewrite Ec; nia|]. pose proof (scaled_nonneg _ Hp).
    destruct (integer_of_plain (- 2 ^ 31) (2 ^ 31 - 1) _ 0 c Hs) as (v & -> & _ & Hv & _);
      [lia|split; [rewrite Z.mul_0_l; by apply scaled_nonneg|apply Hu; [apply representable_Z; lia|rewrite Ec; lia]]|lia|].
    exists v. split; [done|]. lia.
Qed.

(** The approximation of a power of a number from 0 to 1 is one again: no conversion
    overflows, and the loop ends. *)
Lemma pow_approx_unit a b :
  unit_double a -> plain b -> scaled b <= (2 ^ 31 - 1) * one ->
  exists p, pow_approx nan_bits a b = Ok p /\ unit_double p.
Proof.
  intros Ha Hb Hle. pose proof one_pos as Hone. pose proof (scaled_nonneg b Hb). unfold pow_approx.
  destruct (integer_of_plain (- 2 ^ 31) (2 ^ 31 - 1) b 0 (2 ^ 31 - 1) Hb) as (e & Ei & He0 & He & [Hfl Hcl] & _); [lia..|].
  assert (int_of_double b = Ok e) as -> by exact Ei.
  rewrite bind_value; cbv beta. destruct (bits_of_unit a Ha) as [B1 B2]. set (hi := Z.shiftr _ 32) in *. clearbody hi.
  assert (i32 hi = hi) as ->.
  { unfold to_signed. rewrite wrap_small by lia. by rewrite (proj2 (Z.ltb_lt _ _)) by lia. }
  unfold int_value. rewrite (proj2 (andb_true_iff _ _)) by (rewrite Z.leb_le, Z.ltb_lt; lia). rewrite bind_value; cbv beta.
  destruct (double_of_Z_plain e) as [Pe Ee]; [lia|].
  assert (unit_double (dsub b (double_of_Z e))) as Hf.
  { destruct (dsub_nearest b _ Hb Pe) as [Hs Hu _]; [rewrite Ee; nia|]. split; [done|].
    apply Hu; [apply representable_one|rewrite Ee; lia]. }
  destruct (shifted_product _ (hi - 1072632447) 1072632447 Hf) as (x1 & -> & Hx1); [lia|lia|]. rewrite bind_value; cbv beta.
  destruct (power_loop_unit 32 e d1 a unit_one Ha) as (r & -> & Hr); [lia|].
  rewrite bind_value; cbv beta. eexists. split; [done|]. apply dmul_unit; [done|]. apply unit_of_bits. lia.
Qed.

(** The parameters with which every state of the random generator gives a number:
    the exponent of the power fits an [int], and eta lies between 0 and 1. *)
Record fair (n : Z) (z : ZipfGen) : Prop := {
  fa_ready : n_ z = n /\ last_n_ z = n /\ dbl_n_ z = double_of_Z n;
  fa_theta : between_0_1 (theta_ z) = true;
  fa_alpha : plain (alpha_ z) /\ scaled (alpha_ z) <= (2 ^ 31 - 1) * one;
  fa_eta : unit_double (eta_ z);
}.

Lemma mode_zipf theta :
  between_0_1 theta = true ->
  double_eq theta d_minus1 = false /\ double_eq theta d0 = false /\ double_le d40 theta = false.
Proof.
  intros [Hl Hr]%andb_true_iff. split; [|split].
  - apply not_true_is_false. intros ->%mode_sequential. done.
  - apply not_true_is_false. intros [s ->]%mode_uniform. by destruct s.
  - apply not_true_is_false. intros (_ & _ & E)%mode_constant. congruence.
Qed.

Lemma next_zipf n z :
  0 < n < 2 ^ 53 -> fair n z ->
  exists v z', next nan_bits z = Ok (v, z') /\ (0 <= v < n \/ n = 1 /\ v = 1) /\ fair n z'.
Proof.
  intros Hn Hf. destruct Hf as [(F1 & F2 & F3) F4 [F5 F6] F7].
  destruct (mode_zipf _ F4) as (M1 & M2 & M3). pose proof one_pos as Hone.
  unfold next, refresh. rewrite F1, F2, Z.eqb_refl. cbn [negb]. rewrite bind_value, M1, M2, M3.
  pose proof (next_f64_range (rand_ z)) as Hu. destruct (Rand_next_f64 (rand_ z)) as [u s].
  destruct Hu as (_ & Hp & Hle & _). cbn [set_rand zetan_ thres_ eta_ alpha_ dbl_n_ n_].
  assert (fair n (set_rand s z)) as Hz by (by split; cbn).
  destruct (double_lt (dmul u (zetan_ z)) d1); [exists 0, (set_rand s z); split; [done|]; split; [left; lia|done]|].
  destruct (double_lt (dmul u (zetan_ z)) (thres_ z)).
  { exists 1, (set_rand s z). split; [done|]. split; [|done]. destruct (Z.eq_dec n 1); [by right|left; lia]. }
  destruct (pow_approx_unit (dadd (dmul (eta_ z) (dsub u d1)) d1) (alpha_ z)) as (p & -> & Hp1); [|done|done|].
  { by apply convex_unit. }
  rewrite bind_value, F1, F3. destruct (double_of_Z_plain n) as [Hd Ed]; [lia|].
  assert (plain (dmul (double_of_Z n) p) /\ scaled (dmul (double_of_Z n) p) <= n * one) as [Hq Hqn].
  { rewrite dmul_comm by (done || apply Hp1). apply dmul_unit_integer; [done|done|lia|lia]. }
  pose proof (scaled_nonneg _ Hq). unfold uint64_of_double.
  destruct (integer_of_plain 0 (2 ^ 64 - 1) _ 0 n Hq) as (v & -> & Hv0 & Hv & _); [lia|lia|lia|].
  rewrite bind_value. eexists _, _. split; [done|]. split; [|done]. left. destruct (Z.leb_spec n v); lia.
Qed.

Lemma draws_zipf n k z :
  0 < n < 2 ^ 53 -> fair n z ->
  exists vs z', draws nan_bits k z = Ok (vs, z') /\ Forall (fun v => 0 <= v < n \/ n = 1 /\ v = 1) vs.
Proof.
  intros Hn. revert z. induction k as [|k IH]; intros z Hz; cbn [draws]; [by exists [], z|].
  destruct (next_zipf n z Hn Hz) as (v & z1 & -> & Hv & Hz1). rewrite bind_value.
  destruct (IH z1 Hz1) as (vs & z2 & -> & Hvs). rewrite bind_value. exists (v :: vs), z2. by split; [|constructor].
Qed.

(** The first draw computes the parameters. *)
Lemma draws_refreshed k z z1 : refresh nan_bits z = Ok z1 -> last_n_ z1 = n_ z1 -> draws nan_bits (S k) z = draws nan_bits (S k) z1.
Proof.
  intros Hr Hl. cbn [draws]. f_equal. unfold next. rewrite Hr. unfold refresh. by rewrite Hl, Z.eqb_refl.
Qed.
End Modes.

(** ** Properties *)



(** The two exceptions, for the seed whose next state is all ones. *)
Lemma zipf_out_of_range :
  (z ← new_ZipfGen 0 d0 10 d0 last_seed; r ← draws 0 2 z; Ok (fst r)) = Ok [10; 9] /\
  (z ← new_ZipfGen 0 d0 1 d_half last_seed; r ← draws 0 2 z; Ok (fst r)) = Ok [1; 1].
Proof. by vm_compute. Qed.
