(* ===== verification/Latency.v ===== *)
(** The latency histogram of core/util/latency.h. *)
From S2P Require Import Prelude Words Outcome Doubles.

(** ** Data *)

Record Latency := MkLatency {
  bin0_ : list Z;
  bin1_ : list Z;
  bin2_ : list Z;
  bin3_ : list Z;
  bin4_ : list Z;
  bin5_ : Z;
}.

Definition empty_bin : list Z := replicate 128 0.

(** ** Operations *)

Definition reset : Latency := MkLatency empty_bin empty_bin empty_bin empty_bin empty_bin 0.

Definition incr (bin : list Z) (i : Z) : list Z := alter (fun x => u64 (x + 1)) (Z.to_nat i) bin.

Definition update (us : Z) (l : Latency) : Latency :=
  let 'MkLatency b0 b1 b2 b3 b4 b5 := l in
  if us <? 128 then MkLatency (incr b0 us) b1 b2 b3 b4 b5
  else if us <? 384 then MkLatency b0 (incr b1 ((us - 128) / 2)) b2 b3 b4 b5
  else if us <? 896 then MkLatency b0 b1 (incr b2 ((us - 384) / 4)) b3 b4 b5
  else if us <? 1920 then MkLatency b0 b1 b2 (incr b3 ((us - 896) / 8)) b4 b5
  else if us <? 3968 then MkLatency b0 b1 b2 b3 (incr b4 ((us - 1920) / 16)) b5
  else MkLatency b0 b1 b2 b3 b4 (u64 (b5 + 1)).

(** [bin_[i] += o.bin_[i]] for all [i]. *)
Definition add_bins (b o : list Z) : list Z := zip_with (fun x y => u64 (x + y)) b o.

(** [operator+=]. *)
Definition merge (l o : Latency) : Latency :=
  MkLatency (add_bins (bin0_ l) (bin0_ o)) (add_bins (bin1_ l) (bin1_ o))
    (add_bins (bin2_ l) (bin2_ o)) (add_bins (bin3_ l) (bin3_ o))
    (add_bins (bin4_ l) (bin4_ o)) (u64 (bin5_ l + bin5_ o)).

Definition count_bin (count : Z) (bin : list Z) : Z := foldl (fun c x => u64 (c + x)) count bin.

Definition count (l : Latency) : Z :=
  let c := count_bin 0 (bin0_ l) in
  let c := count_bin c (bin1_ l) in
  let c := count_bin c (bin2_ l) in
  let c := count_bin c (bin3_ l) in
  let c := count_bin c (bin4_ l) in
  u64 (c + bin5_ l).

(** A loop over a bin of which entry [i] stands for [base + i * width]. *)
Fixpoint sum_bin (base width i : Z) (bin : list Z) (sum : Z) : Z :=
  match bin with
  | [] => sum
  | x :: bin => sum_bin base width (i + 1) bin (u64 (sum + x * (base + i * width)))
  end.

Definition sum (l : Latency) : Z :=
  let s := sum_bin 0 1 0 (bin0_ l) 0 in
  let s := sum_bin 128 2 0 (bin1_ l) s in
  let s := sum_bin 384 4 0 (bin2_ l) s in
  let s := sum_bin 896 8 0 (bin3_ l) s in
  let s := sum_bin 1920 16 0 (bin4_ l) s in
  u64 (s + bin5_ l * 3968).

Definition avg (l : Latency) : Z := sum l / Z.max 1 (count l).

Fixpoint min_bin (base width i : Z) (bin : list Z) : option Z :=
  match bin with
  | [] => None
  | x :: bin => if negb (x =? 0) then Some (base + i * width) else min_bin base width (i + 1) bin
  end.

(** The first result of a sequence of loops that return early. *)
Definition or_else (o : option Z) (k : option Z) : option Z :=
  match o with Some x => Some x | None => k end.

Definition min (l : Latency) : Z :=
  default 3968
    (or_else (min_bin 0 1 0 (bin0_ l))
    (or_else (min_bin 128 2 0 (bin1_ l))
    (or_else (min_bin 384 4 0 (bin2_ l))
    (or_else (min_bin 896 8 0 (bin3_ l))
    (min_bin 1920 16 0 (bin4_ l)))))).

(** [for (i = n - 1; i >= 0; i--)]. *)
Fixpoint max_bin (base width : Z) (n : nat) (bin : list Z) : option Z :=
  match n with
  | O => None
  | S n =>
      if negb (nth n bin 0 =? 0) then Some (base + Z.of_nat n * width) else max_bin base width n bin
  end.

Definition max (l : Latency) : Z :=
  if negb (bin5_ l =? 0) then 3968
  else
    default 0
      (or_else (max_bin 1920 16 128 (bin4_ l))
      (or_else (max_bin 896 8 128 (bin3_ l))
      (or_else (max_bin 384 4 128 (bin2_ l))
      (or_else (max_bin 128 2 128 (bin1_ l))
      (max_bin 0 1 128 (bin0_ l)))))).

(** A loop of [perc]: it returns a result, or the threshold that is left. *)
Fixpoint perc_bin (base width i : Z) (bin : list Z) (thres : Z) : Z + Z :=
  match bin with
  | [] => inr thres
  | x :: bin =>
      let thres := i64 (thres - i64 x) in
      if thres <? 0 then inl (base + i * width) else perc_bin base width (i + 1) bin thres
  end.

Definition and_then (r : Z + Z) (k : Z -> Z + Z) : Z + Z :=
  match r with inl x => inl x | inr thres => k thres end.

(** [perc] after the computation of its threshold. *)
Definition perc_from (l : Latency) (thres : Z) : Z :=
  match and_then (perc_bin 0 1 0 (bin0_ l) thres) (fun t =>
        and_then (perc_bin 128 2 0 (bin1_ l) t) (fun t =>
        and_then (perc_bin 384 4 0 (bin2_ l) t) (fun t =>
        and_then (perc_bin 896 8 0 (bin3_ l) t) (fun t =>
        perc_bin 1920 16 0 (bin4_ l) t))))
  with
  | inl x => x
  | inr _ => 3968
  end.

Definition perc_threshold (p : spec_float) (l : Latency) : Z :=
  i64 (Z_of_double (SFmul 53 1024 p (double_of_Z (count l)))).

Definition perc (p : spec_float) (l : Latency) : outcome Z :=
  _ ← assert_ (double_le (double_of_Z 0) p && double_le p (double_of_Z 1));
  Ok (perc_from l (perc_threshold p l)).

(** The lines that [print] writes: a latency and its count. *)
Fixpoint print_bin (base width i : Z) (bin : list Z) : list (Z * Z) :=
  match bin with
  | [] => []
  | x :: bin =>
      (if negb (x =? 0) then [(base + i * width, x)] else []) ++ print_bin base width (i + 1) bin
  end.

Definition print (l : Latency) : list (Z * Z) :=
  print_bin 0 1 0 (bin0_ l) ++ print_bin 128 2 0 (bin1_ l) ++ print_bin 384 4 0 (bin2_ l) ++
  print_bin 896 8 0 (bin3_ l) ++ print_bin 1920 16 0 (bin4_ l) ++
  (if negb (bin5_ l =? 0) then [(3968, bin5_ l)] else []).
