(* ===== verification/LatencyTheorems.v ===== *)
(** The histogram of Latency.v as the table of the frequencies of its samples, and what its
    queries return for the recorded samples. *)
From S2P Require Import Prelude Words Outcome Latency Doubles.

(** ** The values that the histogram distinguishes *)

(** The values [base + j * width] for [i <= j < i + n]. *)
Fixpoint vals (base width i : Z) (n : nat) : list Z :=
  match n with
  | O => []
  | S n => base + i * width :: vals base width (i + 1) n
  end.

Definition bins_values : list Z :=
  vals 0 1 0 128 ++ vals 128 2 0 128 ++ vals 384 4 0 128 ++ vals 896 8 0 128 ++ vals 1920 16 0 128.

Definition all_values : list Z := bins_values ++ [3968].

(** The value that stands for a sample. *)
Definition quantize (us : Z) : Z :=
  if us <? 128 then us
  else if us <? 384 then 128 + (us - 128) / 2 * 2
  else if us <? 896 then 384 + (us - 384) / 4 * 4
  else if us <? 1920 then 896 + (us - 896) / 8 * 8
  else if us <? 3968 then 1920 + (us - 1920) / 16 * 16
  else 3968.

Lemma elem_of_vals base width i n v :
  v ∈ vals base width i n <-> exists j, i <= j < i + Z.of_nat n /\ v = base + j * width.
Proof.
  revert i. induction n as [|n IH]; intros i; cbn [vals].
  - split; [by intros ?%not_elem_of_nil|]. intros (j & ? & _). lia.
  - rewrite elem_of_cons, IH. split.
    + intros [->|(j & ? & ->)]; [exists i|exists j]; split; lia.
    + intros (j & ? & ->). destruct (Z.eq_dec j i) as [->|]; [by left|].
      right. exists j. split; [lia|done].
Qed.

Lemma length_vals base width i n : length (vals base width i n) = n.
Proof. revert i. induction n as [|n IH]; intros i; simpl; [done|]. by rewrite IH. Qed.

Lemma vals_snoc base width i n :
  vals base width i (S n) = vals base width i n ++ [base + (i + Z.of_nat n) * width].
Proof.
  revert i. induction n as [|n IH]; intros i.
  - simpl. by rewrite Z.add_0_r.
  - change (vals base width i (S (S n))) with (base + i * width :: vals base width (i + 1) (S n)).
    rewrite IH. cbn [vals app]. do 3 f_equal. lia.
Qed.

(** Each sample's case: the bin it belongs to. *)
Lemma quantize_cases us :
  0 <= us ->
  (us < 128 /\ quantize us = 0 + us * 1) \/
  (128 <= us < 384 /\ quantize us = 128 + (us - 128) / 2 * 2) \/
  (384 <= us < 896 /\ quantize us = 384 + (us - 384) / 4 * 4) \/
  (896 <= us < 1920 /\ quantize us = 896 + (us - 896) / 8 * 8) \/
  (1920 <= us < 3968 /\ quantize us = 1920 + (us - 1920) / 16 * 16) \/
  (3968 <= us /\ quantize us = 3968).
Proof.
  intros H. unfold quantize.
  destruct (Z.ltb_spec us 128); [lia|]. destruct (Z.ltb_spec us 384); [lia|].
  destruct (Z.ltb_spec us 896); [lia|]. destruct (Z.ltb_spec us 1920); [lia|].
  destruct (Z.ltb_spec us 3968); lia.
Qed.

Lemma div_index us base width : 0 < width -> base <= us < base + 128 * width ->
  0 <= (us - base) / width < 128.
Proof. intros. split; [apply Z.div_pos; lia|apply Z.div_lt_upper_bound; lia]. Qed.

Lemma quantize_bin us base width n :
  0 < width -> base <= us < base + 128 * width -> n = 128%nat ->
  base + (us - base) / width * width ∈ vals base width 0 n.
Proof.
  intros Hw Hus ->. apply elem_of_vals. exists ((us - base) / width). split; [|done].
  pose proof (div_index us base width Hw Hus). lia.
Qed.

Lemma quantize_in us : 0 <= us -> quantize us ∈ all_values.
Proof.
  intros Hus. unfold all_values, bins_values. rewrite !elem_of_app.
  destruct (quantize_cases us Hus) as [[? ->]|[[? ->]|[[? ->]|[[? ->]|[[? ->]|[? ->]]]]]].
  - do 2 left. apply elem_of_vals. exists us. split; [lia|done].
  - left. right. left. by apply quantize_bin; [lia|lia|].
  - left. do 2 right. left. by apply quantize_bin; [lia|lia|].
  - left. do 3 right. left. by apply quantize_bin; [lia|lia|].
  - left. do 4 right. by apply quantize_bin; [lia|lia|].
  - right. apply list_elem_of_singleton. done.
Qed.

(** The values ascend. *)
Fixpoint ascending (l : list Z) : bool :=
  match l with
  | x :: (y :: _) as l' => (x <? y) && ascending l'
  | _ => true
  end.

Lemma all_values_ascending : ascending all_values = true.
Proof. vm_compute. reflexivity. Qed.

Lemma ascending_tail x l : ascending (x :: l) = true -> ascending l = true /\ Forall (Z.lt x) l.
Proof.
  revert x. induction l as [|y l IH]; intros x H; [done|].
  apply andb_prop in H as [Hxy H]. apply Z.ltb_lt in Hxy. split; [done|].
  constructor; [done|]. eapply Forall_impl; [apply (IH _ H)|]. intros z Hz. simpl in *. lia.
Qed.

Lemma ascending_middle pre v post :
  ascending (pre ++ v :: post) = true -> Forall (fun x => x < v) pre /\ Forall (Z.lt v) post.
Proof.
  induction pre as [|x pre IH]; cbn [app]; intros H; apply ascending_tail in H as [H Hall].
  - by split.
  - apply IH in H as [Hpre Hpost]. split; [|done]. constructor; [|done].
    apply Forall_app in Hall as [_ Hall]. by apply Forall_inv in Hall.
Qed.

Lemma ascending_NoDup l : ascending l = true -> NoDup l.
Proof.
  induction l as [|x l IH]; intros H; [constructor|]. apply ascending_tail in H as [H Hall].
  constructor; [|by apply IH]. intros Hin. rewrite Forall_forall in Hall. specialize (Hall x Hin). lia.
Qed.

(** ** Frequencies *)

Definition freq (samples : list Z) (v : Z) : Z :=
  Z.of_nat (length (filter (fun us => quantize us = v) samples)).

Lemma freq_cons us samples v :
  freq (us :: samples) v = (if decide (quantize us = v) then 1 else 0) + freq samples v.
Proof. unfold freq. rewrite filter_cons. case_decide; [|done]. simpl length. lia. Qed.

Lemma freq_app s1 s2 v : freq (s1 ++ s2) v = freq s1 v + freq s2 v.
Proof. unfold freq. rewrite filter_app, length_app. lia. Qed.

Lemma freq_range samples v : 0 <= freq samples v <= Z.of_nat (length samples).
Proof. unfold freq. pose proof (length_filter (fun us => quantize us = v) samples). lia. Qed.

Lemma freq_pos samples v : freq samples v <> 0 <-> exists us, us ∈ samples /\ quantize us = v.
Proof.
  unfold freq. split.
  - intros H. destruct (filter _ samples) as [|us l] eqn:E; [simpl in H; lia|].
    exists us. assert (us ∈ filter (fun us => quantize us = v) samples) as Hin by (rewrite E; constructor).
    apply list_elem_of_filter in Hin as [? ?]. done.
  - intros (us & Hin & Hq) H. assert (us ∈ filter (fun us => quantize us = v) samples) as Hf.
    { by apply list_elem_of_filter. }
    destruct (filter _ samples); [by apply not_elem_of_nil in Hf|]. simpl in H. lia.
Qed.

(** Summing the frequencies over distinct values counts the samples that have one
    of them, each with its weight. *)
Lemma zsum_freq (g : Z -> Z) vs samples :
  NoDup vs ->
  zsum (map (fun v => freq samples v * g v) vs) =
    zsum (map (fun us => g (quantize us)) (filter (fun us => quantize us ∈ vs) samples)).
Proof.
  intros Hnd. induction samples as [|us samples IH].
  { clear Hnd. induction vs as [|v vs IHv]; [done|]. cbn [map zsum foldr]. exact IHv. }
  rewrite filter_cons.
  assert (forall vs, NoDup vs ->
    zsum (map (fun v => freq (us :: samples) v * g v) vs) =
    (if decide (quantize us ∈ vs) then g (quantize us) else 0) +
    zsum (map (fun v => freq samples v * g v) vs)) as Hstep.
  { clear. intros vs Hnd. induction Hnd as [|v vs Hv _ IHv]; [by rewrite decide_False by apply not_elem_of_nil|].
    cbn [map zsum foldr] in *. fold (zsum (map (fun v => freq (us :: samples) v * g v) vs)).
    fold (zsum (map (fun v => freq samples v * g v) vs)).
    unfold zsum in IHv |- *. rewrite IHv, freq_cons. destruct (decide (quantize us = v)) as [E|E].
    - rewrite E. rewrite (decide_False (P:=v ∈ vs)) by done.
      rewrite decide_True by apply list_elem_of_here. lia.
    - destruct (decide (quantize us ∈ vs)).
      + rewrite decide_True by by apply list_elem_of_further. lia.
      + rewrite decide_False by by apply not_elem_of_cons. lia. }
  rewrite Hstep by done. rewrite IH. by case_decide.
Qed.

Lemma zsum_ones (l : list Z) : zsum (map (fun _ => 1) l) = Z.of_nat (length l).
Proof. induction l as [|x l IH]; [done|]. cbn [map zsum foldr length] in *. unfold zsum in IH. lia. Qed.

Lemma zsum_freq_count vs samples :
  NoDup vs ->
  zsum (map (freq samples) vs) = Z.of_nat (length (filter (fun us => quantize us ∈ vs) samples)).
Proof.
  intros Hnd. rewrite <- zsum_ones, <- (zsum_freq (fun _ => 1) vs samples Hnd).
  f_equal. apply map_ext. intros v. lia.
Qed.

Lemma filter_all {A} (P : A -> Prop) `{forall x, Decision (P x)} l : Forall P l -> filter P l = l.
Proof. induction 1 as [|x l Hx _ IH]; [done|]. by rewrite filter_cons, decide_True, IH. Qed.

Lemma filter_iff_in (P Q : Z -> Prop) `{forall x, Decision (P x)} `{forall x, Decision (Q x)} (l : list Z) :
  (forall x, x ∈ l -> P x <-> Q x) -> filter P l = filter Q l.
Proof.
  induction l as [|x l IH]; intros HPQ; [done|]. rewrite !filter_cons.
  rewrite IH by (intros y Hy; apply HPQ; by apply list_elem_of_further).
  pose proof (HPQ x (list_elem_of_here _ _)). repeat case_decide; tauto.
Qed.

(** ** The state as a table of frequencies *)

Definition histogram (samples : list Z) : Latency :=
  MkLatency (map (freq samples) (vals 0 1 0 128)) (map (freq samples) (vals 128 2 0 128))
    (map (freq samples) (vals 384 4 0 128)) (map (freq samples) (vals 896 8 0 128))
    (map (freq samples) (vals 1920 16 0 128)) (freq samples 3968).

Lemma incr_hit base width us samples n :
  0 < width -> n = 128%nat -> base <= us < base + 128 * width ->
  quantize us = base + (us - base) / width * width -> Z.of_nat (length samples) < 2 ^ 63 ->
  incr (map (freq samples) (vals base width 0 n)) ((us - base) / width) =
    map (freq (us :: samples)) (vals base width 0 n).
Proof.
  intros Hw Hn Hus Hq Hlen. pose proof (div_index us base width Hw Hus) as Hj.
  unfold incr. set (j := (us - base) / width) in *.
  assert (forall i m, 0 <= i -> i + Z.of_nat m <= 128 -> forall k : nat, i + Z.of_nat k = j -> (k < m)%nat ->
    alter (fun x => u64 (x + 1)) k (map (freq samples) (vals base width i m)) =
    map (freq (us :: samples)) (vals base width i m)) as H.
  { intros i m. revert i. induction m as [|m IH]; intros i Hi Him k Hk Hkm; [lia|].
    assert (forall i' m', j < i' -> map (freq samples) (vals base width i' m') =
      map (freq (us :: samples)) (vals base width i' m')) as Hmiss.
    { intros i' m' Hi'. apply map_ext_in. intros v Hv. apply list_elem_of_In, elem_of_vals in Hv as (j' & Hj' & ->).
      rewrite freq_cons, decide_False; [done|]. rewrite Hq. nia. }
    cbn [vals map]. destruct k as [|k].
    - cbn [alter list_alter]. replace i with j by lia. rewrite freq_cons, decide_True by done.
      rewrite <- Hmiss by lia. f_equal. pose proof (freq_range samples (base + j * width)).
      rewrite wrap_small; lia.
    - cbn [alter list_alter]. f_equal.
      + rewrite freq_cons, decide_False; [done|]. rewrite Hq. nia.
      + apply IH; lia. }
  apply (H 0 n); lia.
Qed.

Lemma map_miss us samples base width n :
  (forall j, 0 <= j < Z.of_nat n -> quantize us <> base + j * width) ->
  map (freq samples) (vals base width 0 n) = map (freq (us :: samples)) (vals base width 0 n).
Proof.
  intros H. apply map_ext_in. intros v Hv. apply list_elem_of_In, elem_of_vals in Hv as (j & Hj & ->).
  rewrite freq_cons, decide_False; [done|]. apply H. lia.
Qed.

Lemma update_histogram us samples :
  0 <= us -> Z.of_nat (length samples) < 2 ^ 63 ->
  update us (histogram samples) = histogram (us :: samples).
Proof.
  intros Hus Hlen. unfold update, histogram.
  assert (forall b w, 0 < w -> quantize us < b \/ b + 128 * w <= quantize us ->
    map (freq samples) (vals b w 0 128) = map (freq (us :: samples)) (vals b w 0 128)) as Hmiss.
  { intros b w Hw Hout. apply map_miss. intros j Hj. nia. }
  assert (quantize us <> 3968 -> freq samples 3968 = freq (us :: samples) 3968) as Hmiss5.
  { intros Hq. by rewrite freq_cons, decide_False. }
  destruct (quantize_cases us Hus) as [[Hr Hq]|[[Hr Hq]|[[Hr Hq]|[[Hr Hq]|[[Hr Hq]|[Hr Hq]]]]]].
  - test (us <? 128) is true. rewrite <- (incr_hit 0 1 us); try lia.
    2: rewrite Hq; rewrite Z.div_1_r; lia.
    rewrite Z.sub_0_r, Z.div_1_r. rewrite <- !Hmiss, <- Hmiss5 by lia. done.
  - pose proof (div_index us 128 2 ltac:(lia) ltac:(lia)).
    test (us <? 128) is false. test (us <? 384) is true. rewrite <- (incr_hit 128 2 us) by lia.
    rewrite <- !Hmiss, <- Hmiss5 by lia. done.
  - pose proof (div_index us 384 4 ltac:(lia) ltac:(lia)).
    test (us <? 128) is false. test (us <? 384) is false. test (us <? 896) is true.
    rewrite <- (incr_hit 384 4 us) by lia. rewrite <- !Hmiss, <- Hmiss5 by lia. done.
  - pose proof (div_index us 896 8 ltac:(lia) ltac:(lia)).
    test (us <? 128) is false. test (us <? 384) is false. test (us <? 896) is false.
    test (us <? 1920) is true.
    rewrite <- (incr_hit 896 8 us) by lia. rewrite <- !Hmiss, <- Hmiss5 by lia. done.
  - pose proof (div_index us 1920 16 ltac:(lia) ltac:(lia)).
    test (us <? 128) is false. test (us <? 384) is false. test (us <? 896) is false.
    test (us <? 1920) is false. test (us <? 3968) is true.
    rewrite <- (incr_hit 1920 16 us) by lia. rewrite <- !Hmiss, <- Hmiss5 by lia. done.
  - test (us <? 128) is false. test (us <? 384) is false. test (us <? 896) is false.
    test (us <? 1920) is false. test (us <? 3968) is false.
    rewrite <- !Hmiss by lia. rewrite freq_cons, decide_True by done. f_equal.
    pose proof (freq_range samples 3968). rewrite wrap_small; lia.
Qed.

(** ** Recording *)

Definition record (samples : list Z) : Latency := foldl (fun l us => update us l) reset samples.

Lemma freq_perm s1 s2 v : s1 ≡ₚ s2 -> freq s1 v = freq s2 v.
Proof. intros H. unfold freq. by rewrite H. Qed.

Lemma histogram_perm s1 s2 : s1 ≡ₚ s2 -> histogram s1 = histogram s2.
Proof.
  intros H. unfold histogram. assert (forall v, freq s1 v = freq s2 v) as E by (intros; by apply freq_perm).
  f_equal; [apply map_ext; done..|done].
Qed.

Lemma record_histogram samples :
  Forall (fun us => 0 <= us) samples -> Z.of_nat (length samples) < 2 ^ 63 ->
  record samples = histogram samples.
Proof.
  intros Hs Hlen. unfold record.
  assert (forall l acc, Forall (fun us => 0 <= us) l -> Z.of_nat (length (acc ++ l)) < 2 ^ 63 ->
    foldl (fun l us => update us l) (histogram acc) l = histogram (acc ++ l)) as H.
  { induction l as [|us l IH]; intros acc Hl Hn; [by rewrite app_nil_r|].
    apply Forall_cons in Hl as [Hus Hl]. rewrite length_app in Hn. simpl in Hn. cbn [foldl].
    rewrite update_histogram by lia. rewrite IH; [|done|].
    - apply histogram_perm. apply Permutation_middle.
    - rewrite length_app. simpl. lia. }
  exact (H samples [] Hs Hlen).
Qed.

(** ** The loops over one bin *)

Section Bins.
Context (f : Z -> Z).

Lemma count_bin_map vs c :
  0 <= c < 2 ^ 64 -> count_bin c (map f vs) = u64 (c + zsum (map f vs)).
Proof.
  unfold count_bin. revert c. induction vs as [|v vs IH]; intros c Hc; cbn [map foldl zsum foldr].
  { by rewrite Z.add_0_r, wrap_small. }
  rewrite IH by (apply wrap_range; lia). unfold wrap. rewrite Zplus_mod_idemp_l.
  f_equal. unfold zsum. lia.
Qed.

Lemma sum_bin_map base width i n s :
  0 <= s < 2 ^ 64 ->
  sum_bin base width i (map f (vals base width i n)) s =
    u64 (s + zsum (map (fun v => f v * v) (vals base width i n))).
Proof.
  revert i s. induction n as [|n IH]; intros i s Hs; cbn [vals map sum_bin zsum foldr].
  { by rewrite Z.add_0_r, wrap_small. }
  rewrite IH by (apply wrap_range; lia). unfold wrap. rewrite Zplus_mod_idemp_l.
  f_equal. unfold zsum. lia.
Qed.

Definition nonzero (v : Z) : bool := negb (f v =? 0).

Lemma min_bin_map base width i n :
  min_bin base width i (map f (vals base width i n)) = find nonzero (vals base width i n).
Proof.
  revert i. induction n as [|n IH]; intros i; [done|]. cbn [vals map min_bin find].
  unfold nonzero at 1. destruct (negb _); [done|apply IH].
Qed.

Lemma max_bin_map base width n N :
  (n <= N)%nat ->
  max_bin base width n (map f (vals base width 0 N)) = find nonzero (rev (vals base width 0 n)).
Proof.
  induction n as [|n IH]; intros Hn; [done|]. cbn [max_bin].
  rewrite vals_snoc, rev_app_distr. cbn [rev app find].
  assert (nth n (map f (vals base width 0 N)) 0 = f (base + (0 + Z.of_nat n) * width)) as ->.
  { assert (forall i m k, (k < m)%nat -> nth k (map f (vals base width i m)) 0 = f (base + (i + Z.of_nat k) * width)) as H.
    { intros i m. revert i. induction m as [|m IHm]; intros i k Hk; [lia|]. cbn [vals map].
      destruct k as [|k]; cbn [nth]; [f_equal; lia|]. rewrite IHm by lia. f_equal. lia. }
    by apply H. }
  unfold nonzero at 1. destruct (negb _); [by rewrite Z.add_0_l|]. apply IH. lia.
Qed.

Fixpoint perc_walk (vs : list Z) (thres : Z) : Z + Z :=
  match vs with
  | [] => inr thres
  | v :: vs => if thres - f v <? 0 then inl v else perc_walk vs (thres - f v)
  end.

Lemma perc_bin_map base width i n t :
  (forall v, 0 <= f v < 2 ^ 63) -> 0 <= t < 2 ^ 63 ->
  perc_bin base width i (map f (vals base width i n)) t = perc_walk (vals base width i n) t.
Proof.
  intros Hf. revert i t. induction n as [|n IH]; intros i t Ht; [done|].
  cbn [vals map perc_bin perc_walk]. set (v := base + i * width).
  assert (forall x, - 2 ^ 63 <= x < 2 ^ 63 -> i64 x = x) as Hi.
  { intros x Hx. unfold to_signed. destruct (Z.lt_ge_cases x 0).
    - assert (u64 x = x + 2 ^ 64) as -> by (symmetry; apply Z.mod_unique with (-1); lia).
      test (x + 2 ^ 64 <? 2 ^ (64 - 1)) is false. lia.
    - rewrite wrap_small by lia. by test (x <? 2 ^ (64 - 1)) is true. }
  pose proof (Hf v). rewrite (Hi (f v)), (Hi (t - f v)) by lia.
  destruct (Z.ltb_spec (t - f v) 0); [done|]. apply IH. lia.
Qed.

Lemma perc_walk_app vs1 vs2 t :
  perc_walk (vs1 ++ vs2) t = and_then (perc_walk vs1 t) (perc_walk vs2).
Proof.
  revert t. induction vs1 as [|v vs1 IH]; intros t; cbn [app perc_walk]; [done|].
  destruct (_ <? 0); [done|apply IH].
Qed.

Lemma perc_walk_rest vs t t' :
  (forall v, 0 <= f v) -> 0 <= t -> perc_walk vs t = inr t' -> t' = t - zsum (map f vs) /\ 0 <= t'.
Proof.
  intros Hf. revert t. induction vs as [|v vs IH]; intros t Ht H; cbn [perc_walk map zsum foldr] in *.
  { injection H as <-. lia. }
  destruct (Z.ltb_spec (t - f v) 0); [done|]. apply IH in H; [|lia]. unfold zsum in H. lia.
Qed.

Lemma perc_walk_found vs t x :
  perc_walk vs t = inl x ->
  exists pre post, vs = pre ++ x :: post /\ zsum (map f pre) <= t < zsum (map f pre) + f x \/
    (t < 0 /\ exists post, vs = x :: post).
Proof.
  revert t. induction vs as [|v vs IH]; intros t H; cbn [perc_walk] in H; [done|].
  destruct (Z.ltb_spec (t - f v) 0).
  - injection H as ->. destruct (Z.lt_ge_cases t 0).
    + exists [], []. right. split; [done|]. by exists vs.
    + exists [], vs. left. split; [done|]. simpl. lia.
  - apply IH in H as (pre & post & [[-> Hb]|[Hneg _]]); [|lia].
    exists (v :: pre), post. left. split; [done|]. cbn [map zsum foldr]. unfold zsum in Hb. lia.
Qed.
End Bins.

Lemma some_sample (l : list Z) : l = [] \/ exists x, x ∈ l.
Proof. destruct l as [|x l]; [by left|]. right. exists x. constructor. Qed.

(** ** The queries on a histogram *)

Section Queries.
Context (samples : list Z).
Context (Hpos : Forall (fun us => 0 <= us) samples).
Context (Hlen : Z.of_nat (length samples) < 2 ^ 63).

Lemma all_values_NoDup : NoDup all_values.
Proof. apply ascending_NoDup, all_values_ascending. Qed.

Lemma samples_in_values : filter (fun us => quantize us ∈ all_values) samples = samples.
Proof using All.
  apply filter_all. eapply Forall_impl; [exact Hpos|]. intros us. apply quantize_in.
Qed.

Lemma count_lemma : count (histogram samples) = Z.of_nat (length samples).
Proof using All.
  unfold count, histogram. cbn [bin0_ bin1_ bin2_ bin3_ bin4_ bin5_].
  rewrite !count_bin_map by (try apply wrap_range; lia).
  pose proof (zsum_freq_count all_values samples all_values_NoDup) as H.
  rewrite samples_in_values in H. unfold all_values, bins_values in H.
  rewrite !map_app, !zsum_app in H. cbn [map] in H. simpl (zsum [_]) in H.
  rewrite <- (wrap_small 64 (Z.of_nat (length samples))) by lia. rewrite <- H.
  unfold wrap. repeat (rewrite Zplus_mod_idemp_l || rewrite <- Z.add_assoc). f_equal. ring.
Qed.

Lemma sum_lemma : sum (histogram samples) = u64 (zsum (map quantize samples)).
Proof using All.
  unfold sum, histogram. cbn [bin0_ bin1_ bin2_ bin3_ bin4_ bin5_].
  rewrite !sum_bin_map by (try apply wrap_range; lia).
  pose proof (zsum_freq (fun v => v) all_values samples all_values_NoDup) as H.
  rewrite samples_in_values in H. change (map (fun us => quantize us) samples) with (map quantize samples) in H.
  rewrite <- H. unfold all_values, bins_values.
  rewrite !map_app, !zsum_app. cbn [map]. simpl (zsum [_]).
  unfold wrap. repeat (rewrite Zplus_mod_idemp_l || rewrite <- Z.add_assoc). f_equal. ring.
Qed.

Lemma find_app_or {A} (p : A -> bool) l1 l2 :
  find p (l1 ++ l2) = match find p l1 with Some x => Some x | None => find p l2 end.
Proof. induction l1 as [|x l1 IH]; simpl; [done|]. by destruct (p x). Qed.

Lemma min_find : min (histogram samples) = default 3968 (find (nonzero (freq samples)) bins_values).
Proof using .
  unfold min, histogram. cbn [bin0_ bin1_ bin2_ bin3_ bin4_ bin5_].
  rewrite !min_bin_map. unfold bins_values. by rewrite !find_app_or.
Qed.

Lemma max_find : max (histogram samples) = default 0 (find (nonzero (freq samples)) (rev all_values)).
Proof using .
  unfold max, histogram. cbn [bin0_ bin1_ bin2_ bin3_ bin4_ bin5_].
  rewrite !max_bin_map by lia. unfold all_values, bins_values.
  rewrite !rev_app_distr. cbn [rev app find]. change (negb (freq samples 3968 =? 0)) with (nonzero (freq samples) 3968).
  destruct (nonzero (freq samples) 3968); [done|]. by rewrite <- !app_assoc, !find_app_or.
Qed.

Lemma nonzero_sample v : nonzero (freq samples) v = true <-> exists us, us ∈ samples /\ quantize us = v.
Proof. unfold nonzero. rewrite negb_true_iff, Z.eqb_neq. apply freq_pos. Qed.

Lemma zero_sample v us : nonzero (freq samples) v = false -> us ∈ samples -> quantize us <> v.
Proof using .
  intros H Hus Hq. assert (nonzero (freq samples) v = true) by (apply nonzero_sample; eauto). congruence.
Qed.

Lemma sample_value us : us ∈ samples -> quantize us ∈ all_values.
Proof using All. intros Hus. apply quantize_in. rewrite Forall_forall in Hpos. by apply Hpos. Qed.

(** The minimum of the samples' values, or the last value without samples. *)
Lemma min_lemma :
  (samples = [] /\ min (histogram samples) = 3968) \/
  ((exists us, us ∈ samples /\ quantize us = min (histogram samples)) /\
   forall us, us ∈ samples -> min (histogram samples) <= quantize us).
Proof using All.
  rewrite min_find. destruct (find _ bins_values) as [v|] eqn:E; cbn [default]; simpl.
  - right. apply find_split in E as (pre & post & Hs & Hv & Hpre). split; [by apply nonzero_sample|].
    intros us Hus. pose proof all_values_ascending as Ha. unfold all_values in Ha.
    rewrite Hs, <- app_assoc in Ha. cbn [app] in Ha. apply ascending_middle in Ha as [_ Hpost].
    pose proof (sample_value us Hus) as Hin. unfold all_values in Hin.
    rewrite Hs, <- app_assoc in Hin. cbn [app] in Hin. apply elem_of_app in Hin as [Hin|Hin].
    + rewrite Forall_forall in Hpre. exfalso. by apply (zero_sample (quantize us) us); [apply Hpre|..].
    + apply elem_of_cons in Hin as [->|Hin]; [lia|]. rewrite Forall_forall in Hpost.
      specialize (Hpost _ Hin). lia.
  - destruct (some_sample samples) as [->|[us Hin0]]; [by left|]. right.
    assert (forall x, x ∈ samples -> quantize x = 3968) as Hall.
    { intros x Hx. pose proof (sample_value x Hx) as Hin. unfold all_values in Hin.
      apply elem_of_app in Hin as [Hin|Hin]; [|by apply list_elem_of_singleton in Hin].
      exfalso. apply list_elem_of_In in Hin. pose proof (find_none _ _ E _ Hin) as Hz.
      by apply (zero_sample _ x Hz). }
    split.
    + exists us. split; [done|]. rewrite (Hall us Hin0). done.
    + intros x Hx. rewrite (Hall x Hx). lia.
Qed.

Lemma max_lemma :
  (samples = [] /\ max (histogram samples) = 0) \/
  ((exists us, us ∈ samples /\ quantize us = max (histogram samples)) /\
   forall us, us ∈ samples -> quantize us <= max (histogram samples)).
Proof using All.
  rewrite max_find. destruct (find _ (rev all_values)) as [v|] eqn:E; cbn [default]; simpl.
  - right. apply find_split in E as (pre & post & Hs & Hv & Hpre). split; [by apply nonzero_sample|].
    intros us Hus. apply (f_equal (@rev Z)) in Hs. rewrite rev_involutive, rev_app_distr in Hs.
    cbn [rev] in Hs. rewrite <- app_assoc in Hs. cbn [app] in Hs.
    pose proof all_values_ascending as Ha. rewrite Hs in Ha. apply ascending_middle in Ha as [Hlow _].
    pose proof (sample_value us Hus) as Hin. rewrite Hs in Hin. apply elem_of_app in Hin as [Hin|Hin].
    + rewrite Forall_forall in Hlow. specialize (Hlow _ Hin). simpl in Hlow. lia.
    + apply elem_of_cons in Hin as [->|Hin]; [lia|].
      apply list_elem_of_In, in_rev, list_elem_of_In in Hin.
      rewrite Forall_forall in Hpre. exfalso. by apply (zero_sample (quantize us) us); [apply Hpre|..].
  - left. destruct (some_sample samples) as [->|[us Hus]]; [done|]. exfalso.
    assert (In (quantize us) (rev all_values)) as Hin.
    { apply in_rev. rewrite rev_involutive. apply list_elem_of_In. by apply sample_value. }
    by apply (zero_sample _ us (find_none _ _ E _ Hin)).
Qed.

Definition below (v : Z) : list Z := filter (fun us => quantize us < v) samples.

Lemma zsum_below pre v post :
  all_values = pre ++ v :: post -> zsum (map (freq samples) pre) = Z.of_nat (length (below v)).
Proof using All.
  intros Hs. pose proof all_values_ascending as Ha. rewrite Hs in Ha.
  apply ascending_middle in Ha as [Hpre Hpost].
  rewrite zsum_freq_count.
  - f_equal. f_equal. unfold below. apply filter_iff_in. intros us Hus.
    rewrite Forall_forall in Hpre, Hpost. split; [by intros Hin%Hpre|]. intros Hlt.
    pose proof (sample_value us Hus) as Hin. rewrite Hs in Hin. apply elem_of_app in Hin as [Hin|Hin]; [done|].
    apply elem_of_cons in Hin as [Hin|Hin]; [lia|]. apply Hpost in Hin. lia.
  - pose proof all_values_NoDup as Hnd. rewrite Hs in Hnd. by apply NoDup_app in Hnd as [? _].
Qed.

Lemma perc_walk_eq t :
  0 <= t < 2 ^ 63 ->
  perc_from (histogram samples) t =
    match perc_walk (freq samples) bins_values t with inl x => x | inr _ => 3968 end.
Proof using All.
  intros Ht. unfold perc_from, histogram. cbn [bin0_ bin1_ bin2_ bin3_ bin4_ bin5_].
  assert (forall v, 0 <= freq samples v < 2 ^ 63) as Hf by (intros v; pose proof (freq_range samples v); lia).
  assert (forall vs u u', 0 <= u < 2 ^ 63 -> perc_walk (freq samples) vs u = inr u' -> 0 <= u' < 2 ^ 63) as Hrest.
  { intros vs u u' Hu E. apply perc_walk_rest in E; [|intros v; apply Hf|lia].
    assert (0 <= zsum (map (freq samples) vs)); [|lia].
    clear E. induction vs as [|v vs IH]; [done|]. cbn [map zsum foldr]. unfold zsum in IH.
    specialize (Hf v). lia. }
  unfold bins_values. rewrite !perc_walk_app. rewrite perc_bin_map by done.
  destruct (perc_walk _ (vals 0 1 0 128) t) as [x|t1] eqn:E1; [done|]. apply Hrest in E1; [|done].
  cbn [and_then]. rewrite !perc_walk_app, perc_bin_map by done.
  destruct (perc_walk _ (vals 128 2 0 128) t1) as [x|t2] eqn:E2; [done|]. apply Hrest in E2; [|done].
  cbn [and_then]. rewrite !perc_walk_app, perc_bin_map by done.
  destruct (perc_walk _ (vals 384 4 0 128) t2) as [x|t3] eqn:E3; [done|]. apply Hrest in E3; [|done].
  cbn [and_then]. rewrite !perc_walk_app, perc_bin_map by done.
  destruct (perc_walk _ (vals 896 8 0 128) t3) as [x|t4] eqn:E4; [done|]. apply Hrest in E4; [|done].
  cbn [and_then]. by rewrite perc_bin_map by done.
Qed.

(** The value that [perc] returns for the rank [t] is the value of the sample of
    that rank; from the number of samples on it is 3968. *)
Lemma perc_lemma t :
  0 <= t < 2 ^ 63 ->
  (t < Z.of_nat (length samples) ->
   let v := perc_from (histogram samples) t in
   Z.of_nat (length (below v)) <= t < Z.of_nat (length (below v)) + freq samples v) /\
  (Z.of_nat (length samples) <= t -> perc_from (histogram samples) t = 3968).
Proof using All.
  intros Ht. rewrite perc_walk_eq by done.
  assert (zsum (map (freq samples) all_values) = Z.of_nat (length samples)) as Hall.
  { rewrite zsum_freq_count, samples_in_values by apply all_values_NoDup. done. }
  destruct (perc_walk _ bins_values t) as [x|t'] eqn:E; cbn zeta iota.
  - apply perc_walk_found in E as (pre & post & [[Hs Hb]|[? _]]); [|lia].
    assert (all_values = pre ++ x :: (post ++ [3968])) as Hs'.
    { unfold all_values. rewrite Hs, <- app_assoc. done. }
    pose proof (zsum_below _ _ _ Hs') as Hbelow. split; [intros _; lia|]. intros Hn.
    rewrite Hs', map_app, zsum_app in Hall. cbn [map zsum foldr] in Hall.
    assert (forall vs, 0 <= zsum (map (freq samples) vs)) as Hnn.
    { intros vs. induction vs as [|v vs IH]; [done|]. cbn [map zsum foldr]. unfold zsum in IH.
      pose proof (freq_range samples v). lia. }
    specialize (Hnn (post ++ [3968])). unfold zsum in Hnn. lia.
  - apply perc_walk_rest in E as [-> Hge]; [|intros v; pose proof (freq_range samples v); lia|lia].
    unfold all_values in Hall. rewrite map_app, zsum_app in Hall. cbn [map] in Hall.
    simpl (zsum [_]) in Hall. split; [|done]. intros Hlt.
    pose proof (zsum_below bins_values 3968 [] eq_refl). lia.
Qed.
End Queries.

Lemma add_bins_map s1 s2 vs :
  Z.of_nat (length s1) + Z.of_nat (length s2) < 2 ^ 63 ->
  add_bins (map (freq s1) vs) (map (freq s2) vs) = map (freq (s1 ++ s2)) vs.
Proof.
  intros H. induction vs as [|v vs IH]; [done|]. cbn [map]. unfold add_bins in *. cbn [zip_with].
  rewrite IH. f_equal. rewrite freq_app. pose proof (freq_range s1 v). pose proof (freq_range s2 v).
  apply wrap_small. lia.
Qed.

Lemma quantize_error us :
  0 <= us -> quantize us <= us /\ (us < 3968 -> 128 * (us - quantize us) <= us).
Proof.
  intros Hus.
  assert (forall b w, 0 < w -> b <= us -> 128 * (w - 1) <= b ->
    b + (us - b) / w * w <= us /\ 128 * (us - (b + (us - b) / w * w)) <= us) as H.
  { intros b w Hw Hb Hbw. pose proof (Z.div_mod (us - b) w ltac:(lia)).
    pose proof (Z.mod_pos_bound (us - b) w Hw). nia. }
  destruct (quantize_cases us Hus) as [[? ->]|[[? ->]|[[? ->]|[[? ->]|[[? ->]|[? ->]]]]]].
  - lia.
  - destruct (H 128 2); lia.
  - destruct (H 384 4); lia.
  - destruct (H 896 8); lia.
  - destruct (H 1920 16); lia.
  - lia.
Qed.

(** ** Properties *)

(** C34. After recording any samples, [count] is their number, [sum] the sum of
    their values (modulo 2^64), [min] and [max] the smallest and the largest value;
    the value of a sample below 3968 is at most the sample and within 1/128 of it. *)
Theorem latency_queries (samples : list Z) :
  Forall (fun us => 0 <= us) samples -> Z.of_nat (length samples) < 2 ^ 63 -> samples <> [] ->
  let l := record samples in
  count l = Z.of_nat (length samples) /\
  sum l = u64 (zsum (map quantize samples)) /\
  avg l = sum l / Z.of_nat (length samples) /\
  (exists us, us ∈ samples /\ quantize us = min l) /\
  (exists us, us ∈ samples /\ quantize us = max l) /\
  forall us, us ∈ samples ->
    min l <= quantize us <= max l /\ quantize us <= us /\
    (us < 3968 -> 128 * (us - quantize us) <= us).
Proof.
  intros Hs Hlen Hne l. unfold l. rewrite record_histogram by done.
  destruct (min_lemma samples Hs Hlen) as [[? _]|[Hmin Hmin']]; [done|].
  destruct (max_lemma samples Hs Hlen) as [[? _]|[Hmax Hmax']]; [done|].
  split; [by apply count_lemma|]. split; [by apply sum_lemma|]. split; [|split; [done|split; [done|]]].
  - unfold avg. rewrite count_lemma by done. destruct samples as [|us s]; [done|].
    simpl length. by rewrite Z.max_r by lia.
  - intros us Hus. rewrite Forall_forall in Hs. pose proof (quantize_error us (Hs us Hus)) as [? ?].
    split; [|done]. split; [by apply Hmin'|by apply Hmax'].
Qed.

Lemma latency_queries_witness :
  let l := record [5; 200; 131; 5000] in
  count l = Z.of_nat (length [5; 200; 131; 5000]) /\
  sum l = u64 (zsum (map quantize [5; 200; 131; 5000])) /\
  avg l = sum l / Z.of_nat (length [5; 200; 131; 5000]) /\
  (exists us, us ∈ [5; 200; 131; 5000] /\ quantize us = min l) /\
  (exists us, us ∈ [5; 200; 131; 5000] /\ quantize us = max l) /\
  forall us, us ∈ [5; 200; 131; 5000] ->
    min l <= quantize us <= max l /\ quantize us <= us /\
    (us < 3968 -> 128 * (us - quantize us) <= us).
Proof.
  apply (latency_queries [5; 200; 131; 5000]).
  - repeat constructor; lia.
  - simpl. lia.
  - discriminate.
Defined.

(** [operator+=] of two histograms is the histogram of all samples of both, so
    merging the histograms of threads loses nothing. *)
Theorem latency_merge (s1 s2 : list Z) :
  Forall (fun us => 0 <= us) (s1 ++ s2) -> Z.of_nat (length (s1 ++ s2)) < 2 ^ 63 ->
  merge (record s1) (record s2) = record (s1 ++ s2).
Proof.
  intros Hs Hlen. pose proof Hlen as Hlen'. rewrite length_app in Hlen'.
  apply Forall_app in Hs as [H1 H2].
  rewrite !record_histogram by (done || lia || by apply Forall_app).
  unfold merge, histogram. cbn [bin0_ bin1_ bin2_ bin3_ bin4_ bin5_].
  rewrite !add_bins_map by lia. f_equal. rewrite freq_app.
  pose proof (freq_range s1 3968). pose proof (freq_range s2 3968). apply wrap_small. lia.
Qed.

Lemma latency_merge_witness : merge (record [1; 700]) (record [4000]) = record ([1; 700] ++ [4000]).
Proof. apply (latency_merge [1; 700] [4000]); [repeat constructor; lia|simpl; lia]. Defined.

(** C35. [perc] returns the value of the sample whose rank is its threshold: fewer or
    as many samples than the threshold have a smaller value, and more than the
    threshold have that value or a smaller one. From the number of samples on it
    returns 3968 instead: the percentile 1.0 that its assertion admits is 3968 for
    samples that are all 5. *)
Theorem latency_percentile (samples : list Z) (t : Z) :
  Forall (fun us => 0 <= us) samples -> Z.of_nat (length samples) < 2 ^ 63 -> 0 <= t < 2 ^ 63 ->
  (t < Z.of_nat (length samples) ->
   let v := perc_from (record samples) t in
   Z.of_nat (length (filter (fun us => quantize us < v) samples)) <= t <
     Z.of_nat (length (filter (fun us => quantize us < v) samples)) +
     Z.of_nat (length (filter (fun us => quantize us = v) samples))) /\
  (Z.of_nat (length samples) <= t -> perc_from (record samples) t = 3968) /\
  perc (double_of_Z 1) (record [5; 5; 5]) = Ok 3968.
Proof.
  intros Hs Hlen Ht. rewrite record_histogram by done.
  destruct (perc_lemma samples Hs Hlen t Ht) as [H1 H2]. split; [exact H1|]. split; [exact H2|].
  vm_compute. reflexivity.
Qed.

Lemma latency_percentile_witness :
  (1 < Z.of_nat (length [5; 9; 700]) ->
   let v := perc_from (record [5; 9; 700]) 1 in
   Z.of_nat (length (filter (fun us => quantize us < v) [5; 9; 700])) <= 1 <
     Z.of_nat (length (filter (fun us => quantize us < v) [5; 9; 700])) +
     Z.of_nat (length (filter (fun us => quantize us = v) [5; 9; 700]))) /\
  (Z.of_nat (length [5; 9; 700]) <= 1 -> perc_from (record [5; 9; 700]) 1 = 3968) /\
  perc (double_of_Z 1) (record [5; 5; 5]) = Ok 3968.
Proof.
  apply (latency_percentile [5; 9; 700] 1).
  - repeat constructor; lia.
  - simpl. lia.
  - lia.
Defined.
