(* ===== verification/Locks.v ===== *)
(** The locks of core/util/spinlock.h and core/util/seqlock.h as transition systems
    over the threads that use them; every atomic operation is one step. *)
From S2P Require Import Prelude Words.

(** ** SpinLock *)

(** [compare_exchange_strong(expected, desired)]: the result, the new value of the
    atomic and the new value of [expected]. *)
Definition compare_exchange_strong (counter expected desired : Z) : bool * Z * Z :=
  if counter =? expected then (true, desired, expected) else (false, counter, counter).

(** Where a thread is: outside, in the loop of [Lock] with the variable [locked],
    between [Lock] and [Unlock], and the same for a reader of the sequence lock. *)
Inductive pc :=
| Outside
| Locking (locked : Z)
| Holding
| ReadWait
| Reading.

#[export] Instance pc_eq_dec : EqDecision pc.
Proof. solve_decision. Defined.

Record lock_state := MkLockState { counter : Z; threads : list pc }.

(** [SpinLock()]: [counter] is 0. *)
Definition SpinLock_init (n : nat) : lock_state := MkLockState 0 (replicate n Outside).

(** One evaluation of the condition of the loop in [Lock]. *)
Definition Lock_step (c locked : Z) : Z * pc :=
  let unlocked := 0 in
  let '(success, c, locked) := compare_exchange_strong c locked unlocked in
  if success then (c, Locking locked) else (c, Holding).

(** [Unlock]: [counter.exchange(unlocked)]. *)
Definition Unlock_step (c : Z) : Z * pc := let unlocked := 0 in (unlocked, Outside).

(** ** SeqLock *)

(** [%] truncates towards zero. *)
Definition IsWriting (c : Z) : bool := Z.rem c 2 =? 1.

(** One evaluation of the condition of the loop in [BeginRead]. *)
Definition BeginRead_step (c : Z) : Z * pc := if IsWriting c then (c, ReadWait) else (c, Reading).

(** [BeginWrite] and [EndWrite] are [Lock] and [Unlock]; [EndRead] does nothing. *)
Definition thread_step (c : Z) (t : pc) : list (Z * pc) :=
  match t with
  | Outside => [(c, Locking 1); (c, ReadWait)]
  | Locking locked => [Lock_step c locked]
  | Holding => [Unlock_step c]
  | ReadWait => [BeginRead_step c]
  | Reading => [(c, Outside)]
  end.

(** The threads' steps interleave. *)
Inductive lock_step : lock_state -> lock_state -> Prop :=
| lock_step_thread c ts i t c' t' :
    ts !! i = Some t -> (c', t') ∈ thread_step c t ->
    lock_step (MkLockState c ts) (MkLockState c' (<[i := t']> ts)).

Definition reachable (n : nat) : lock_state -> Prop := rtc lock_step (SpinLock_init n).

(** ** Facts *)

(** The counter stays 0: the loop of [Lock] compares it with 1. *)
Lemma lock_counter_zero n s :
  reachable n s -> counter s = 0 /\ length (threads s) = n /\
    Forall (fun t => forall l, t = Locking l -> l = 1) (threads s).
Proof.
  intros H. unfold reachable in H. remember (SpinLock_init n) as s0 eqn:E.
  assert (counter s0 = 0 /\ length (threads s0) = n /\
    Forall (fun t => forall l, t = Locking l -> l = 1) (threads s0)) as Hinv.
  { subst s0. split; [done|]. split; [apply length_replicate|]. by apply Forall_replicate. }
  clear E. induction H as [|s1 s2 s3 Hstep _ IH]; [done|]. apply IH. clear IH.
  destruct Hstep as [c ts i t c' t' Hi Ht]. destruct Hinv as (Hc & Hn & Hl). cbn [counter threads] in *.
  subst c. rewrite length_insert.
  enough (c' = 0 /\ forall l, t' = Locking l -> l = 1) as [-> Hl'].
  { split; [done|]. split; [done|]. by apply Forall_insert. }
  pose proof (Forall_lookup_1 _ _ _ _ Hl Hi) as Ht1. simpl in Ht1.
  destruct t as [|l| | |]; cbn [thread_step] in Ht.
  - apply elem_of_cons in Ht as [[= -> ->]|Ht]; [split; [done|by intros l [= <-]]|].
    apply list_elem_of_singleton in Ht as [= -> ->]. done.
  - apply list_elem_of_singleton in Ht. rewrite (Ht1 l eq_refl) in Ht.
    by injection Ht as -> ->.
  - by apply list_elem_of_singleton in Ht as [= -> ->].
  - by apply list_elem_of_singleton in Ht as [= -> ->].
  - by apply list_elem_of_singleton in Ht as [= -> ->].
Qed.

(** Every thread can enter the critical section, whatever the others do. *)
Lemma lock_enter c ts i :
  c = 0 -> ts !! i = Some Outside ->
  rtc lock_step (MkLockState c ts) (MkLockState 0 (<[i := Holding]> ts)).
Proof.
  intros -> Hi. assert (i < length ts)%nat by by eapply lookup_lt_Some.
  eapply rtc_l; [eapply lock_step_thread with (t' := Locking 1); [exact Hi|by left]|].
  eapply rtc_l; [eapply lock_step_thread with (i := i) (t' := Holding) (c' := 0);
    [by apply list_lookup_insert_eq|by left]|].
  rewrite list_insert_insert_eq. apply rtc_refl.
Qed.

Lemma all_enter n k :
  (k <= n)%nat ->
  rtc lock_step (SpinLock_init n) (MkLockState 0 (replicate k Holding ++ replicate (n - k) Outside)).
Proof.
  induction k as [|k IH]; intros Hk.
  { rewrite Nat.sub_0_r. apply rtc_refl. }
  etrans; [apply IH; lia|].
  replace (n - k)%nat with (S (n - S k)) by lia. rewrite replicate_S.
  etrans; [apply (lock_enter 0 _ k); [done|]|].
  - rewrite lookup_app_r by (rewrite length_replicate; lia).
    by rewrite length_replicate, Nat.sub_diag.
  - rewrite insert_app_r_alt by (rewrite length_replicate; lia).
    rewrite length_replicate, Nat.sub_diag. cbn [insert list_insert].
    rewrite replicate_S_end, <- app_assoc. apply rtc_refl.
Qed.

(** ** Properties *)

(** The spin lock does not exclude: [Lock] compares the counter with the value
    for "locked" and never stores it, so the counter is 0 in every reachable
    state, [Lock] returns at its first attempt, all threads can hold the lock at
    the same time, and [BeginRead] of the sequence lock never waits for a writer. *)
Theorem spinlock_excludes_nobody (n : nat) (s : lock_state) :
  reachable n s ->
  counter s = 0 /\ IsWriting (counter s) = false /\
  (forall i l, threads s !! i = Some (Locking l) -> Lock_step (counter s) l = (0, Holding)) /\
  BeginRead_step (counter s) = (0, Reading) /\
  reachable n (MkLockState 0 (replicate n Holding)).
Proof.
  intros H. destruct (lock_counter_zero n s H) as (Hc & _ & Hl). rewrite Hc.
  split; [done|]. split; [done|]. split; [|split; [done|]].
  - intros i l Hi. pose proof (Forall_lookup_1 _ _ _ _ Hl Hi) as Hl1. by rewrite (Hl1 l eq_refl).
  - pose proof (all_enter n n ltac:(lia)) as Hall. rewrite Nat.sub_diag in Hall.
    cbn [replicate] in Hall. by rewrite app_nil_r in Hall.
Qed.

Lemma spinlock_excludes_nobody_witness :
  counter (SpinLock_init 2) = 0 /\ IsWriting (counter (SpinLock_init 2)) = false /\
  (forall i l, threads (SpinLock_init 2) !! i = Some (Locking l) ->
     Lock_step (counter (SpinLock_init 2)) l = (0, Holding)) /\
  BeginRead_step (counter (SpinLock_init 2)) = (0, Reading) /\
  reachable 2 (MkLockState 0 (replicate 2 Holding)).
Proof. apply (spinlock_excludes_nobody 2 (SpinLock_init 2)). apply rtc_refl. Defined.
