(* ===== verification/Meta.v ===== *)
(** The metadata exchange between a memory server and the compute nodes: the
    message that the server prepares (memory_pool/server/server.cc), and what
    MetaManager makes of the received bytes (core/connection/meta_manager.cc). *)
From S2P Require Import Prelude Words Outcome Layout Hash HashStore.
From stdpp Require Import strings.
#[local] Open Scope Z_scope.

(** ** Data *)

Definition MEM_STORE_META_END : Z := 0xE0FF0E0F.
Definition MAX_REMOTE_NODE_NUM : Z := 100.
Definition MAX_DB_TABLE_NUM : nat := 15.

Record HashMeta := MkHashMeta {
  hm_table_id : Z;
  hm_data_ptr : Z;
  hm_base_off : Z;
  hm_bucket_num : Z;
  hm_node_size : Z;
}.

(** The constructor, whose parameters have another order than the fields. *)
Definition new_HashMeta (table_id data_ptr bucket_num node_size base_off : Z) : HashMeta :=
  MkHashMeta table_id data_ptr base_off bucket_num node_size.

Record MetaManager := MkMetaManager {
  primary_hash_metas : gmap Z HashMeta;
  backup_hash_metas : list (list HashMeta);
  primary_table_nodes : gmap Z Z;
  backup_table_nodes : list (list Z);
}.

Definition new_MetaManager : MetaManager :=
  MkMetaManager ∅ (replicate MAX_DB_TABLE_NUM []) ∅ (replicate MAX_DB_TABLE_NUM []).

(** ** Bytes *)

(** The [n] bytes of an integer in the memory of a little-endian machine. *)
Fixpoint le_bytes (n : nat) (x : Z) : list Z :=
  match n with
  | O => []
  | S n => x mod 256 :: le_bytes n (x / 256)
  end.

(** A load of [n] bytes at offset [off] of a buffer. *)
Definition load (n : nat) (buf : list Z) (off : Z) : outcome Z :=
  if (0 <=? off) && (off + Z.of_nat n <=? Z.of_nat (length buf))
  then Ok (le_word (take n (drop (Z.to_nat off) buf)))
  else Fault.

(** The bytes of a [HashMeta], in the order of its layout. *)
Definition HashMeta_bytes (m : HashMeta) : list Z :=
  le_bytes 8 (hm_table_id m) ++ le_bytes 8 (hm_data_ptr m) ++ le_bytes 8 (u64 (hm_base_off m)) ++
  le_bytes 8 (hm_bucket_num m) ++ le_bytes 8 (hm_node_size m).

(** [memcpy(&meta, p, sizeof(HashMeta))]. *)
Definition load_HashMeta (buf : list Z) (off : Z) : outcome HashMeta :=
  t ← load 8 buf off;
  d ← load 8 buf (off + 8);
  b ← load 8 buf (off + 16);
  n ← load 8 buf (off + 24);
  s ← load 8 buf (off + 32);
  Ok (MkHashMeta t d (i64 b) n s).

(** ** The server: Server::PrepareHashMeta *)

Definition meta_of_table (hash_table : HashStore) : HashMeta :=
  new_HashMeta (hs_table_id hash_table) (data_ptr hash_table) (bucket_num hash_table)
    HashNodeSize (base_off hash_table).

Definition PrepareHashMeta (machine_id : Z) (all_priamry_tables : list HashStore) : list Z :=
  let primary_hash_meta_vec := map meta_of_table all_priamry_tables in
  let primary_hash_meta_num := Z.of_nat (length primary_hash_meta_vec) in
  le_bytes 8 primary_hash_meta_num ++ le_bytes 4 (u32 machine_id) ++
  concat (map HashMeta_bytes primary_hash_meta_vec) ++ le_bytes 8 MEM_STORE_META_END.

(** ** The client: MetaManager::GetMemStoreMeta *)

Definition push_back {A} (i : Z) (x : A) (arrays : list (list A)) : outcome (list (list A)) :=
  l ← deref (if 0 <=? i then arrays !! Z.to_nat i else None);
  Ok (<[Z.to_nat i := l ++ [x]]> arrays).

Fixpoint primary_loop (n : nat) (buf : list Z) (snooper node : Z) (m : MetaManager) : outcome MetaManager :=
  match n with
  | O => Ok m
  | S n =>
      meta ← load_HashMeta buf snooper;
      primary_loop n buf (snooper + HashMetaSize) node
        (MkMetaManager (<[hm_table_id meta := meta]> (primary_hash_metas m)) (backup_hash_metas m)
           (<[hm_table_id meta := node]> (primary_table_nodes m)) (backup_table_nodes m))
  end.

Fixpoint backup_loop (n : nat) (buf : list Z) (snooper node : Z) (m : MetaManager) : outcome MetaManager :=
  match n with
  | O => Ok m
  | S n =>
      meta ← load_HashMeta buf snooper;
      metas ← push_back (hm_table_id meta) meta (backup_hash_metas m);
      nodes ← push_back (hm_table_id meta) node (backup_table_nodes m);
      backup_loop n buf (snooper + HashMetaSize) node
        (MkMetaManager (primary_hash_metas m) metas (primary_table_nodes m) nodes)
  end.

(** The header of a message: the numbers of tables and the node id. *)
Definition load_header (recv_buf : list Z) : outcome (Z * Z * Z) :=
  primary_meta_num ← load 8 recv_buf 0;
  backup_meta_num ← load 8 recv_buf 8;
  id ← load 4 recv_buf 16;
  Ok (primary_meta_num, backup_meta_num, i32 id).

(** Where the client looks for the end marker. *)
Definition eof_offset (primary_meta_num backup_meta_num : Z) : Z :=
  20 + u64 (HashMetaSize * u64 (primary_meta_num + backup_meta_num)).

(** [recv_buf] holds the received bytes and what [malloc] left behind them. *)
Definition GetMemStoreMeta (recv_buf : list Z) (m : MetaManager) : outcome (Z * MetaManager) :=
  h ← load_header recv_buf;
  let '(primary_meta_num, backup_meta_num, remote_machine_id) := h in
  _ ← assert_ (remote_machine_id <? MAX_REMOTE_NODE_NUM);
  eof ← load 8 recv_buf (eof_offset primary_meta_num backup_meta_num);
  if eof =? MEM_STORE_META_END then
    m ← primary_loop (Z.to_nat primary_meta_num) recv_buf 20 remote_machine_id m;
    m ← backup_loop (Z.to_nat backup_meta_num) recv_buf (20 + HashMetaSize * primary_meta_num)
          remote_machine_id m;
    Ok (remote_machine_id, m)
  else Ok (-1, m).

(** ** The getters *)

Definition GetPrimaryHashMetaWithTableID (m : MetaManager) (table_id : Z) : outcome HashMeta :=
  let search := primary_hash_metas m !! table_id in
  _ ← assert_ (bool_decide (is_Some search));
  deref search.

Definition GetPrimaryNodeID (m : MetaManager) (table_id : Z) : outcome Z :=
  let search := primary_table_nodes m !! table_id in
  _ ← assert_ (bool_decide (is_Some search));
  deref search.

Definition GetBackupHashMetasWithTableID (m : MetaManager) (table_id : Z) : outcome (list HashMeta) :=
  deref (if 0 <=? table_id then backup_hash_metas m !! Z.to_nat table_id else None).

Definition GetBackupNodeID (m : MetaManager) (table_id : Z) : outcome (list Z) :=
  deref (if 0 <=? table_id then backup_table_nodes m !! Z.to_nat table_id else None).
