(* ===== verification/MetaTheorems.v ===== *)
(** The metadata message: what the client's parser accepts, and what it makes of
    the message that the server prepares. *)
From S2P Require Import Prelude Words Outcome Layout Hash HashStore Meta.

(** ** Bytes *)

Lemma length_le_bytes n x : length (le_bytes n x) = n.
Proof. revert x. induction n as [|n IH]; intros x; simpl; [done|]. by rewrite IH. Qed.

Lemma le_word_bytes n x : 0 <= x < 256 ^ Z.of_nat n -> le_word (le_bytes n x) = x.
Proof.
  revert x. induction n as [|n IH]; intros x Hx; cbn [le_bytes le_word].
  { rewrite Z.pow_0_r in Hx. lia. }
  rewrite Nat2Z.inj_succ, Z.pow_succ_r in Hx by lia. rewrite IH.
  - pose proof (Z.div_mod x 256). lia.
  - split; [apply Z.div_pos; lia|apply Z.div_lt_upper_bound; lia].
Qed.

Lemma load_at n pre x post :
  0 <= x < 256 ^ Z.of_nat n ->
  load n (pre ++ le_bytes n x ++ post) (Z.of_nat (length pre)) = Ok x.
Proof.
  intros Hx. unfold load. rewrite !length_app, length_le_bytes.
  test (0 <=? Z.of_nat (length pre)) is true.
  test (Z.of_nat (length pre) + Z.of_nat n <=? Z.of_nat (length pre + (n + length post))) is true.
  cbn [andb]. rewrite Nat2Z.id, drop_app_length.
  rewrite take_app_le by (rewrite length_le_bytes; lia).
  rewrite take_ge by (rewrite length_le_bytes; lia). by rewrite le_word_bytes.
Qed.

(** The same, for a position that is given by the equal sums of lengths. *)
Lemma load_at' n buf off pre x post :
  buf = pre ++ le_bytes n x ++ post -> off = Z.of_nat (length pre) ->
  0 <= x < 256 ^ Z.of_nat n -> load n buf off = Ok x.
Proof. intros -> -> Hx. by apply load_at. Qed.

Definition wf_meta (m : HashMeta) : Prop :=
  0 <= hm_table_id m < 2 ^ 64 /\ 0 <= hm_data_ptr m < 2 ^ 64 /\ - 2 ^ 63 <= hm_base_off m < 2 ^ 63 /\
  0 <= hm_bucket_num m < 2 ^ 64 /\ 0 <= hm_node_size m < 2 ^ 64.

Lemma length_HashMeta_bytes m : length (HashMeta_bytes m) = 40%nat.
Proof. unfold HashMeta_bytes. by rewrite !length_app, !length_le_bytes. Qed.

Lemma i64_u64 x : - 2 ^ 63 <= x < 2 ^ 63 -> i64 (u64 x) = x.
Proof.
  intros Hx. unfold to_signed. rewrite wrap_wrap by lia. destruct (Z.lt_ge_cases x 0).
  - assert (u64 x = x + 2 ^ 64) as -> by (symmetry; apply Z.mod_unique with (-1); lia).
    test (x + 2 ^ 64 <? 2 ^ (64 - 1)) is false. lia.
  - rewrite wrap_small by lia. by test (x <? 2 ^ (64 - 1)) is true.
Qed.

Lemma load_HashMeta_at pre m post :
  wf_meta m -> load_HashMeta (pre ++ HashMeta_bytes m ++ post) (Z.of_nat (length pre)) = Ok m.
Proof.
  intros (Ht & Hd & Hb & Hn & Hs). unfold load_HashMeta, HashMeta_bytes. rewrite <- !app_assoc.
  change (2 ^ 64) with (256 ^ Z.of_nat 8) in *.
  rewrite (load_at' 8 _ (Z.of_nat (length pre)) pre (hm_table_id m) _ eq_refl eq_refl) by done. cbn [mbind outcome_bind].
  rewrite (load_at' 8 _ (Z.of_nat (length pre) + 8) (pre ++ le_bytes 8 (hm_table_id m)) (hm_data_ptr m)
    (le_bytes 8 (u64 (hm_base_off m)) ++ le_bytes 8 (hm_bucket_num m) ++ le_bytes 8 (hm_node_size m) ++ post));
    [|by rewrite <- !app_assoc|rewrite length_app, length_le_bytes; lia|done]. cbn [mbind outcome_bind].
  rewrite (load_at' 8 _ (Z.of_nat (length pre) + 16) (pre ++ le_bytes 8 (hm_table_id m) ++ le_bytes 8 (hm_data_ptr m)) (u64 (hm_base_off m))
    (le_bytes 8 (hm_bucket_num m) ++ le_bytes 8 (hm_node_size m) ++ post));
    [|by rewrite <- !app_assoc|rewrite !length_app, !length_le_bytes; lia|apply wrap_range; lia].
  cbn [mbind outcome_bind].
  rewrite (load_at' 8 _ (Z.of_nat (length pre) + 24) (pre ++ le_bytes 8 (hm_table_id m) ++ le_bytes 8 (hm_data_ptr m) ++
    le_bytes 8 (u64 (hm_base_off m))) (hm_bucket_num m) (le_bytes 8 (hm_node_size m) ++ post));
    [|by rewrite <- !app_assoc|rewrite !length_app, !length_le_bytes; lia|done]. cbn [mbind outcome_bind].
  rewrite (load_at' 8 _ (Z.of_nat (length pre) + 32) (pre ++ le_bytes 8 (hm_table_id m) ++ le_bytes 8 (hm_data_ptr m) ++
    le_bytes 8 (u64 (hm_base_off m)) ++ le_bytes 8 (hm_bucket_num m)) (hm_node_size m) post);
    [|by rewrite <- !app_assoc|rewrite !length_app, !length_le_bytes; lia|done]. cbn [mbind outcome_bind].
  rewrite i64_u64 by done. by destruct m.
Qed.

(** ** The message that the client expects *)

(** Both counts, the node id, the metas of the primary and of the backup tables,
    and the end marker. *)
Definition client_message (mid : Z) (primary backup : list HashMeta) : list Z :=
  le_bytes 8 (Z.of_nat (length primary)) ++ le_bytes 8 (Z.of_nat (length backup)) ++
  le_bytes 4 (u32 mid) ++ concat (map HashMeta_bytes primary) ++ concat (map HashMeta_bytes backup) ++
  le_bytes 8 MEM_STORE_META_END.

Definition add_primary (node : Z) (m : MetaManager) (meta : HashMeta) : MetaManager :=
  MkMetaManager (<[hm_table_id meta := meta]> (primary_hash_metas m)) (backup_hash_metas m)
    (<[hm_table_id meta := node]> (primary_table_nodes m)) (backup_table_nodes m).

Definition snoc_at {A} (i : nat) (x : A) (arrays : list (list A)) : list (list A) :=
  alter (fun l => l ++ [x]) i arrays.

Definition add_backup (node : Z) (m : MetaManager) (meta : HashMeta) : MetaManager :=
  MkMetaManager (primary_hash_metas m) (snoc_at (Z.to_nat (hm_table_id meta)) meta (backup_hash_metas m))
    (primary_table_nodes m) (snoc_at (Z.to_nat (hm_table_id meta)) node (backup_table_nodes m)).

Lemma length_metas ms : length (concat (map HashMeta_bytes ms)) = (40 * length ms)%nat.
Proof.
  induction ms as [|m ms IH]; [done|]. cbn [map concat]. rewrite length_app, length_HashMeta_bytes, IH.
  simpl. lia.
Qed.

Lemma HashMetaSize_40 : HashMetaSize = 40.
Proof. reflexivity. Qed.

Lemma primary_loop_spec ms pre post node m :
  Forall wf_meta ms ->
  primary_loop (length ms) (pre ++ concat (map HashMeta_bytes ms) ++ post) (Z.of_nat (length pre)) node m =
    Ok (foldl (add_primary node) m ms).
Proof.
  intros Hms. revert pre m. induction Hms as [|x ms Hx _ IH]; intros pre m; [done|].
  cbn [length primary_loop map concat foldl]. rewrite <- app_assoc, load_HashMeta_at by done.
  cbn [mbind outcome_bind]. rewrite <- (IH (pre ++ HashMeta_bytes x)), <- !app_assoc.
  rewrite length_app, length_HashMeta_bytes, HashMetaSize_40.
  replace (Z.of_nat (length pre) + 40) with (Z.of_nat (length pre + 40)) by lia. done.
Qed.

Lemma push_back_spec {A} i (x : A) arrays :
  0 <= i < Z.of_nat (length arrays) -> push_back i x arrays = Ok (snoc_at (Z.to_nat i) x arrays).
Proof.
  intros Hi. unfold push_back. test (0 <=? i) is true.
  destruct (lookup_lt_is_Some_2 arrays (Z.to_nat i)) as [l Hl]; [lia|]. rewrite Hl.
  cbn [deref mbind outcome_bind]. f_equal. unfold snoc_at. apply list_eq. intros j.
  destruct (decide (Z.to_nat i = j)) as [<-|Hne].
  - rewrite list_lookup_alter_eq, Hl. apply list_lookup_insert_eq. by eapply lookup_lt_Some.
  - by rewrite list_lookup_alter_ne, list_lookup_insert_ne.
Qed.

Lemma length_snoc_at {A} i (x : A) arrays : length (snoc_at i x arrays) = length arrays.
Proof. apply length_alter. Qed.

Definition arrays_ok (m : MetaManager) : Prop :=
  length (backup_hash_metas m) = MAX_DB_TABLE_NUM /\ length (backup_table_nodes m) = MAX_DB_TABLE_NUM.

Definition table_in_arrays (m : HashMeta) : Prop := hm_table_id m < Z.of_nat MAX_DB_TABLE_NUM.

Lemma backup_loop_spec ms pre post node m :
  Forall wf_meta ms -> Forall table_in_arrays ms -> arrays_ok m ->
  backup_loop (length ms) (pre ++ concat (map HashMeta_bytes ms) ++ post) (Z.of_nat (length pre)) node m =
    Ok (foldl (add_backup node) m ms).
Proof.
  intros Hms. revert pre m. induction Hms as [|x ms Hx _ IH]; intros pre m Htab Hm; [done|].
  apply Forall_cons in Htab as [Ht Htab]. destruct Hm as [Hm1 Hm2]. unfold table_in_arrays in Ht.
  cbn [length backup_loop map concat foldl]. rewrite <- app_assoc, load_HashMeta_at by done.
  cbn [mbind outcome_bind]. destruct Hx as (Htid & _).
  rewrite !push_back_spec by lia. cbn [mbind outcome_bind].
  rewrite <- (IH (pre ++ HashMeta_bytes x)), <- ?app_assoc; [|done|].
  - rewrite length_app, length_HashMeta_bytes, HashMetaSize_40.
    replace (Z.of_nat (length pre) + 40) with (Z.of_nat (length pre + 40)) by lia. done.
  - unfold arrays_ok, add_backup. cbn [backup_hash_metas backup_table_nodes].
    by rewrite !length_snoc_at.
Qed.

Lemma foldl_add_primary_arrays node m ms :
  backup_hash_metas (foldl (add_primary node) m ms) = backup_hash_metas m /\
  backup_table_nodes (foldl (add_primary node) m ms) = backup_table_nodes m.
Proof. revert m. induction ms as [|x ms IH]; intros m; [done|]. cbn [foldl]. by destruct (IH (add_primary node m x)) as [-> ->]. Qed.

Lemma i32_u32 x : - 2 ^ 31 <= x < 2 ^ 31 -> i32 (u32 x) = x.
Proof.
  intros Hx. unfold to_signed. rewrite wrap_wrap by lia. destruct (Z.lt_ge_cases x 0).
  - assert (u32 x = x + 2 ^ 32) as -> by (symmetry; apply Z.mod_unique with (-1); lia).
    test (x + 2 ^ 32 <? 2 ^ (32 - 1)) is false. lia.
  - rewrite wrap_small by lia. by test (x <? 2 ^ (32 - 1)) is true.
Qed.

(** A message of the expected format is read as a whole. *)
Lemma GetMemStoreMeta_client_message mid primary backup rest m :
  - 2 ^ 31 <= mid < MAX_REMOTE_NODE_NUM ->
  40 * (Z.of_nat (length primary) + Z.of_nat (length backup)) < 2 ^ 63 ->
  Forall wf_meta primary -> Forall wf_meta backup -> Forall table_in_arrays backup -> arrays_ok m ->
  GetMemStoreMeta (client_message mid primary backup ++ rest) m =
    Ok (mid, foldl (add_backup mid) (foldl (add_primary mid) m primary) backup).
Proof.
  intros Hmid Hlen Hp Hb Htab Hm. unfold MAX_REMOTE_NODE_NUM in Hmid.
  set (np := Z.of_nat (length primary)) in *. set (nb := Z.of_nat (length backup)) in *.
  assert (0 <= np /\ 0 <= nb) as [Hnp Hnb] by lia.
  unfold GetMemStoreMeta, load_header, client_message. fold np nb. rewrite <- !app_assoc.
  set (P := concat (map HashMeta_bytes primary)). set (B := concat (map HashMeta_bytes backup)).
  set (E := le_bytes 8 MEM_STORE_META_END).
  assert (256 ^ Z.of_nat 8 = 2 ^ 64) as H8 by done.
  rewrite (load_at' 8 _ 0 [] np (le_bytes 8 nb ++ le_bytes 4 (u32 mid) ++ P ++ B ++ E ++ rest)) by (done || lia).
  cbn [mbind outcome_bind].
  rewrite (load_at' 8 _ 8 (le_bytes 8 np) nb (le_bytes 4 (u32 mid) ++ P ++ B ++ E ++ rest))
    by (done || rewrite ?length_le_bytes; lia).
  cbn [mbind outcome_bind].
  rewrite (load_at' 4 _ 16 (le_bytes 8 np ++ le_bytes 8 nb) (u32 mid) (P ++ B ++ E ++ rest));
    [|by rewrite <- !app_assoc|by rewrite length_app, !length_le_bytes|apply (wrap_range 32); lia].
  cbn [mbind outcome_bind]. rewrite i32_u32 by lia. unfold MAX_REMOTE_NODE_NUM.
  test (mid <? 100) is true. cbn [assert_ mbind outcome_bind].
  unfold eof_offset. rewrite HashMetaSize_40, (wrap_small 64 (np + nb)), (wrap_small 64 (40 * (np + nb))) by lia.
  rewrite (load_at' 8 _ (20 + 40 * (np + nb)) (le_bytes 8 np ++ le_bytes 8 nb ++ le_bytes 4 (u32 mid) ++ P ++ B)
    MEM_STORE_META_END rest); [|by rewrite <- !app_assoc| |by unfold MEM_STORE_META_END].
  2: { unfold P, B. rewrite !length_app, !length_le_bytes, !length_metas. lia. }
  cbn [mbind outcome_bind]. rewrite Z.eqb_refl.
  assert (Z.to_nat np = length primary) as -> by apply Nat2Z.id.
  assert (Z.to_nat nb = length backup) as -> by apply Nat2Z.id.
  pose proof (primary_loop_spec primary (le_bytes 8 np ++ le_bytes 8 nb ++ le_bytes 4 (u32 mid))
    (B ++ E ++ rest) mid m Hp) as Hprim. fold P in Hprim. rewrite <- !app_assoc in Hprim.
  rewrite !length_app, !length_le_bytes in Hprim. change (Z.of_nat (8 + (8 + 4))) with 20 in Hprim.
  rewrite Hprim. cbn [mbind outcome_bind].
  pose proof (backup_loop_spec backup (le_bytes 8 np ++ le_bytes 8 nb ++ le_bytes 4 (u32 mid) ++ P)
    (E ++ rest) mid (foldl (add_primary mid) m primary) Hb Htab) as Hback.
  fold B in Hback. rewrite <- !app_assoc in Hback.
  rewrite !length_app, !length_le_bytes in Hback. unfold P at 2 in Hback. rewrite length_metas in Hback.
  replace (Z.of_nat (8 + (8 + (4 + 40 * length primary)))) with (20 + 40 * np) in Hback by lia.
  rewrite Hback; [done|]. unfold arrays_ok. by destruct (foldl_add_primary_arrays mid m primary) as [-> ->].
Qed.

(** ** What the getters return afterwards *)

Lemma foldl_add_primary_other node ms m t :
  Forall (fun x => hm_table_id x <> t) ms ->
  primary_hash_metas (foldl (add_primary node) m ms) !! t = primary_hash_metas m !! t /\
  primary_table_nodes (foldl (add_primary node) m ms) !! t = primary_table_nodes m !! t.
Proof.
  intros Hms. revert m. induction Hms as [|x ms Hx _ IH]; intros m; [done|]. cbn [foldl].
  destruct (IH (add_primary node m x)) as [-> ->]. unfold add_primary.
  cbn [primary_hash_metas primary_table_nodes]. by rewrite !lookup_insert_ne.
Qed.

Lemma foldl_add_primary_lookup node ms m x :
  NoDup (map hm_table_id ms) -> x ∈ ms ->
  primary_hash_metas (foldl (add_primary node) m ms) !! hm_table_id x = Some x /\
  primary_table_nodes (foldl (add_primary node) m ms) !! hm_table_id x = Some node.
Proof.
  revert m. induction ms as [|y ms IH]; intros m Hnd Hx; [by apply not_elem_of_nil in Hx|].
  cbn [map] in Hnd. apply NoDup_cons in Hnd as [Hy Hnd]. cbn [foldl].
  apply elem_of_cons in Hx as [->|Hx]; [|by apply IH].
  destruct (foldl_add_primary_other node ms (add_primary node m y) (hm_table_id y)) as [-> ->].
  { apply Forall_forall. intros z Hz E. apply Hy. apply list_elem_of_In, in_map_iff.
    exists z. split; [done|by apply list_elem_of_In]. }
  unfold add_primary. cbn [primary_hash_metas primary_table_nodes]. by rewrite !lookup_insert_eq.
Qed.

Lemma foldl_add_backup_primary node ms m :
  primary_hash_metas (foldl (add_backup node) m ms) = primary_hash_metas m /\
  primary_table_nodes (foldl (add_backup node) m ms) = primary_table_nodes m.
Proof. revert m. induction ms as [|x ms IH]; intros m; [done|]. cbn [foldl]. by destruct (IH (add_backup node m x)) as [-> ->]. Qed.

Lemma snoc_at_lookup {A} (i j : nat) (x : A) arrays :
  snoc_at i x arrays !! j = (fun l => if decide (i = j) then l ++ [x] else l) <$> arrays !! j.
Proof.
  unfold snoc_at. destruct (decide (i = j)) as [->|Hne].
  - by rewrite list_lookup_alter_eq.
  - rewrite list_lookup_alter_ne by done. by destruct (arrays !! j).
Qed.

Definition of_table (t : Z) (m : HashMeta) : Prop := hm_table_id m = t.
#[export] Instance of_table_dec t m : Decision (of_table t m).
Proof. unfold of_table. apply _. Defined.

Lemma foldl_add_backup_lookup node ms m t :
  Forall (fun x => 0 <= hm_table_id x) ms -> 0 <= t ->
  backup_hash_metas (foldl (add_backup node) m ms) !! Z.to_nat t =
    (fun l => l ++ filter (of_table t) ms) <$> backup_hash_metas m !! Z.to_nat t /\
  backup_table_nodes (foldl (add_backup node) m ms) !! Z.to_nat t =
    (fun l => l ++ map (fun _ => node) (filter (of_table t) ms)) <$> backup_table_nodes m !! Z.to_nat t.
Proof.
  intros Hms Ht. revert m. induction Hms as [|x ms Hx _ IH]; intros m; cbn [foldl].
  { destruct (backup_hash_metas m !! _), (backup_table_nodes m !! _); cbn; by rewrite ?app_nil_r. }
  destruct (IH (add_backup node m x)) as [-> ->]. unfold add_backup.
  cbn [backup_hash_metas backup_table_nodes]. rewrite !snoc_at_lookup, filter_cons.
  destruct (decide (Z.to_nat (hm_table_id x) = Z.to_nat t)) as [E|E].
  - rewrite decide_True by (unfold of_table; lia).
    destruct (backup_hash_metas m !! _), (backup_table_nodes m !! _); cbn; by rewrite <- ?app_assoc.
  - rewrite decide_False by (unfold of_table; lia).
    by destruct (backup_hash_metas m !! _), (backup_table_nodes m !! _).
Qed.

(** ** The message that the server prepares *)

Lemma le_bytes_split n k x : le_bytes (n + k) x = le_bytes n x ++ le_bytes k (x / 256 ^ Z.of_nat n).
Proof.
  revert x. induction n as [|n IH]; intros x.
  - cbn [Nat.add le_bytes app]. by rewrite Z.pow_0_r, Z.div_1_r.
  - cbn [Nat.add le_bytes app]. rewrite IH, Nat2Z.inj_succ, Z.pow_succ_r, Z.div_div by lia. done.
Qed.

Lemma le_bytes_mod n x : le_bytes n (x mod 256 ^ Z.of_nat n) = le_bytes n x.
Proof.
  revert x. induction n as [|n IH]; intros x; [done|]. cbn [le_bytes].
  rewrite Nat2Z.inj_succ, Z.pow_succ_r by lia. f_equal.
  - rewrite Z.mod_mod_divide; [done|]. apply Z.divide_factor_l.
  - rewrite Z.rem_mul_r by lia. rewrite Z.mul_comm, Z.div_add by lia.
    rewrite (Z.div_small (x mod 256)) by (apply Z.mod_pos_bound; lia). by rewrite Z.add_0_l, IH.
Qed.

Lemma le_word_app l1 l2 : le_word (l1 ++ l2) = le_word l1 + 256 ^ Z.of_nat (length l1) * le_word l2.
Proof.
  induction l1 as [|b l1 IH]; cbn [app le_word length]; [rewrite Z.pow_0_r; lia|].
  rewrite IH, Nat2Z.inj_succ, Z.pow_succ_r by lia. ring.
Qed.

Lemma load_prefix n pre bytes post off :
  off = Z.of_nat (length pre) -> length bytes = n ->
  load n (pre ++ bytes ++ post) off = Ok (le_word bytes).
Proof.
  intros -> Hn. unfold load. rewrite !length_app.
  test (0 <=? Z.of_nat (length pre)) is true.
  test (Z.of_nat (length pre) + Z.of_nat n <=? Z.of_nat (length pre + (length bytes + length post))) is true.
  cbn [andb]. rewrite Nat2Z.id, drop_app_length, take_app_le by lia. by rewrite take_ge by lia.
Qed.

Lemma load_front n bytes post : length bytes = n -> load n (bytes ++ post) 0 = Ok (le_word bytes).
Proof. by apply (load_prefix n []). Qed.

Lemma load_behind n pre rest off :
  Z.of_nat (length pre) <= off -> load n (pre ++ rest) off = load n rest (off - Z.of_nat (length pre)).
Proof.
  intros Hoff. unfold load. rewrite length_app.
  test (0 <=? off) is true. test (0 <=? off - Z.of_nat (length pre)) is true. cbn [andb].
  replace (off + Z.of_nat n <=? Z.of_nat (length pre + length rest))
    with (off - Z.of_nat (length pre) + Z.of_nat n <=? Z.of_nat (length rest)).
  - destruct (_ <=? _); [|done]. do 3 f_equal. rewrite drop_app_ge by lia. f_equal. lia.
  - destruct (Z.leb_spec (off - Z.of_nat (length pre) + Z.of_nat n) (Z.of_nat (length rest))); symmetry; zbool.
Qed.

(** The number of backup tables that the client reads from the server's message:
    the machine id and the low half of the first table's id. *)
Definition misread_backup_num (machine_id table_id : Z) : Z := u32 machine_id + 2 ^ 32 * u32 table_id.

(** The first bytes of the server's message. *)
Lemma server_message_prefix mid t ts :
  exists tail,
    PrepareHashMeta mid (t :: ts) =
      le_bytes 8 (Z.of_nat (length (t :: ts))) ++ le_bytes 4 (u32 mid) ++ le_bytes 4 (hs_table_id t) ++
      le_bytes 4 (hs_table_id t / 2 ^ 32) ++ tail.
Proof.
  eexists. unfold PrepareHashMeta. rewrite length_map. cbn [map concat].
  unfold HashMeta_bytes at 1. cbn [meta_of_table new_HashMeta hm_table_id].
  change (le_bytes 8 (hs_table_id t)) with (le_bytes (4 + 4) (hs_table_id t)).
  rewrite (le_bytes_split 4 4 (hs_table_id t)), <- !app_assoc. reflexivity.
Qed.

Lemma load_header_of_server mid t ts rest :
  0 <= hs_table_id t < 2 ^ 32 -> Z.of_nat (length (t :: ts)) < 2 ^ 32 ->
  load_header (PrepareHashMeta mid (t :: ts) ++ rest) =
    Ok (Z.of_nat (length (t :: ts)), misread_backup_num mid (hs_table_id t), 0).
Proof.
  intros Ht Hn. destruct (server_message_prefix mid t ts) as [tail ->].
  set (n := Z.of_nat (length (t :: ts))) in *. set (tid := hs_table_id t) in *.
  assert (0 <= n) by lia. pose proof (wrap_range 32 mid ltac:(lia)).
  rewrite <- !app_assoc. unfold load_header.
  rewrite (load_front 8 (le_bytes 8 n)) by apply length_le_bytes.
  cbn [mbind outcome_bind]. rewrite le_word_bytes by (change (256 ^ Z.of_nat 8) with (2 ^ 64); lia).
  rewrite (app_assoc (le_bytes 4 (u32 mid))).
  rewrite (load_prefix 8 (le_bytes 8 n) (le_bytes 4 (u32 mid) ++ le_bytes 4 tid) _ 8)
    by (rewrite ?length_app, ?length_le_bytes; done).
  cbn [mbind outcome_bind]. rewrite le_word_app, length_le_bytes.
  rewrite !le_word_bytes by (change (256 ^ Z.of_nat 4) with (2 ^ 32); lia).
  rewrite (app_assoc (le_bytes 8 n)).
  rewrite (load_prefix 4 (le_bytes 8 n ++ le_bytes 4 (u32 mid) ++ le_bytes 4 tid)
    (le_bytes 4 (tid / 2 ^ 32)) _ 16) by (rewrite ?length_app, ?length_le_bytes; done).
  cbn [mbind outcome_bind]. rewrite Z.div_small by lia. unfold misread_backup_num.
  rewrite (wrap_small 32 tid) by lia. done.
Qed.

Lemma length_PrepareHashMeta mid ts :
  Z.of_nat (length (PrepareHashMeta mid ts)) = 20 + 40 * Z.of_nat (length ts).
Proof.
  unfold PrepareHashMeta. rewrite !length_app, !length_le_bytes, length_metas, !length_map. lia.
Qed.

Lemma GetMemStoreMeta_of_server mid t ts rest m :
  0 <= hs_table_id t < 2 ^ 25 -> Z.of_nat (length (t :: ts)) < 2 ^ 32 ->
  let b := misread_backup_num mid (hs_table_id t) in
  load 8 (PrepareHashMeta mid (t :: ts) ++ rest)
    (eof_offset (Z.of_nat (length (t :: ts))) b) = load 8 rest (40 * b) /\
  (load 8 rest (40 * b) <> Ok MEM_STORE_META_END ->
   GetMemStoreMeta (PrepareHashMeta mid (t :: ts) ++ rest) m = Ok (-1, m) \/
   GetMemStoreMeta (PrepareHashMeta mid (t :: ts) ++ rest) m = Fault).
Proof.
  intros Ht Hn b. pose proof (wrap_range 32 mid ltac:(lia)).
  assert (0 <= b < 2 ^ 58) as Hb.
  { unfold b, misread_backup_num. rewrite (wrap_small 32 (hs_table_id t)) by lia. lia. }
  assert (load 8 (PrepareHashMeta mid (t :: ts) ++ rest)
    (eof_offset (Z.of_nat (length (t :: ts))) b) = load 8 rest (40 * b)) as E.
  { unfold eof_offset. rewrite HashMetaSize_40.
    rewrite (wrap_small 64 (Z.of_nat (length (t :: ts)) + b)) by lia.
    rewrite (wrap_small 64 (40 * _)) by lia. pose proof (length_PrepareHashMeta mid (t :: ts)) as Hl.
    rewrite load_behind by lia. f_equal. lia. }
  split; [done|]. intros Hno. unfold GetMemStoreMeta.
  rewrite load_header_of_server by lia. cbn [mbind outcome_bind]. unfold MAX_REMOTE_NODE_NUM.
  test (0 <? 100) is true. cbn [assert_ mbind outcome_bind]. fold b. rewrite E.
  destruct (load 8 rest (40 * b)) as [x| | |] eqn:El; cbn [mbind outcome_bind].
  - left. destruct (Z.eqb_spec x MEM_STORE_META_END); [congruence|done].
  - exfalso. unfold load in El. by destruct (_ && _).
  - by right.
  - exfalso. unfold load in El. by destruct (_ && _).
Qed.

(** ** Properties *)

(** C31. The parser accepts every message of its format (counts, node id, the metas
    of the primary and backup tables, end marker), whatever lies behind it in the
    receive buffer: afterwards the getters return each primary table's meta and the
    node that sent it, and the backup metas and nodes are appended in order. *)
Theorem GetMemStoreMeta_roundtrip (mid : Z) (primary backup : list HashMeta) (rest : list Z) (m : MetaManager) :
  - 2 ^ 31 <= mid < MAX_REMOTE_NODE_NUM ->
  40 * (Z.of_nat (length primary) + Z.of_nat (length backup)) < 2 ^ 63 ->
  Forall wf_meta primary -> Forall wf_meta backup -> Forall table_in_arrays backup ->
  NoDup (map hm_table_id primary) -> arrays_ok m ->
  exists m', GetMemStoreMeta (client_message mid primary backup ++ rest) m = Ok (mid, m') /\
    (forall x, x ∈ primary ->
       GetPrimaryHashMetaWithTableID m' (hm_table_id x) = Ok x /\
       GetPrimaryNodeID m' (hm_table_id x) = Ok mid) /\
    (forall t metas nodes, 0 <= t ->
       GetBackupHashMetasWithTableID m t = Ok metas -> GetBackupNodeID m t = Ok nodes ->
       GetBackupHashMetasWithTableID m' t = Ok (metas ++ filter (of_table t) backup) /\
       GetBackupNodeID m' t = Ok (nodes ++ map (fun _ => mid) (filter (of_table t) backup))).
Proof.
  intros Hmid Hlen Hp Hb Htab Hnd Hm. eexists.
  split; [by apply GetMemStoreMeta_client_message|]. split.
  - intros x Hx. unfold GetPrimaryHashMetaWithTableID, GetPrimaryNodeID.
    destruct (foldl_add_backup_primary mid backup (foldl (add_primary mid) m primary)) as [-> ->].
    destruct (foldl_add_primary_lookup mid primary m x Hnd Hx) as [-> ->]. done.
  - intros t metas nodes Ht H1 H2.
    unfold GetBackupHashMetasWithTableID, GetBackupNodeID in *.
    rewrite (proj2 (Z.leb_le 0 t) Ht) in *. apply deref_Ok in H1, H2.
    assert (Forall (fun x => 0 <= hm_table_id x) backup) as Hpos.
    { eapply Forall_impl; [exact Hb|]. intros x Hx. apply Hx. }
    destruct (foldl_add_backup_lookup mid backup (foldl (add_primary mid) m primary) t Hpos Ht) as [-> ->].
    destruct (foldl_add_primary_arrays mid m primary) as [-> ->]. rewrite H1, H2. done.
Qed.

Definition meta_sample (t : Z) : HashMeta := MkHashMeta t 8192 4096 3 15848.

Lemma GetMemStoreMeta_roundtrip_witness :
  exists m', GetMemStoreMeta (client_message 1 [meta_sample 0] [meta_sample 2] ++ [7; 7]) new_MetaManager = Ok (1, m') /\
    (forall x, x ∈ [meta_sample 0] ->
       GetPrimaryHashMetaWithTableID m' (hm_table_id x) = Ok x /\
       GetPrimaryNodeID m' (hm_table_id x) = Ok 1) /\
    (forall t metas nodes, 0 <= t ->
       GetBackupHashMetasWithTableID new_MetaManager t = Ok metas -> GetBackupNodeID new_MetaManager t = Ok nodes ->
       GetBackupHashMetasWithTableID m' t = Ok (metas ++ filter (of_table t) [meta_sample 2]) /\
       GetBackupNodeID m' t = Ok (nodes ++ map (fun _ => 1) (filter (of_table t) [meta_sample 2]))).
Proof.
  apply (GetMemStoreMeta_roundtrip 1 [meta_sample 0] [meta_sample 2] [7; 7] new_MetaManager).
  - unfold MAX_REMOTE_NODE_NUM. lia.
  - simpl. lia.
  - repeat constructor; simpl; lia.
  - repeat constructor; simpl; lia.
  - repeat constructor.
  - repeat constructor. apply not_elem_of_nil.
  - split; reflexivity.
Defined.

(** The message that the server prepares is not of that format: it lacks the
    count of the backup tables. The client takes the machine id and the low half of
    the first table's id for that count, and looks for the end marker behind the
    end of the message; unless the bytes that lie there by chance are the marker,
    it registers no table: it reports failure or reads outside of its buffer. *)
Theorem server_message_not_understood (mid : Z) (t : HashStore) (ts : list HashStore)
    (rest : list Z) (m : MetaManager) :
  0 <= hs_table_id t < 2 ^ 25 -> Z.of_nat (length (t :: ts)) < 2 ^ 32 ->
  let msg := PrepareHashMeta mid (t :: ts) in
  let b := misread_backup_num mid (hs_table_id t) in
  load_header (msg ++ rest) = Ok (Z.of_nat (length (t :: ts)), b, 0) /\
  Z.of_nat (length msg) <= eof_offset (Z.of_nat (length (t :: ts))) b /\
  (load 8 rest (40 * b) <> Ok MEM_STORE_META_END ->
   GetMemStoreMeta (msg ++ rest) m = Ok (-1, m) \/ GetMemStoreMeta (msg ++ rest) m = Fault).
Proof.
  intros Ht Hn msg b. pose proof (wrap_range 32 mid ltac:(lia)).
  assert (0 <= b < 2 ^ 58) as Hb.
  { unfold b, misread_backup_num. rewrite (wrap_small 32 (hs_table_id t)) by lia. lia. }
  split; [apply load_header_of_server; lia|]. split.
  - unfold msg, eof_offset. rewrite HashMetaSize_40, length_PrepareHashMeta.
    rewrite (wrap_small 64 (Z.of_nat (length (t :: ts)) + b)) by lia.
    rewrite (wrap_small 64 (40 * _)) by lia. lia.
  - by apply (GetMemStoreMeta_of_server mid t ts rest m Ht Hn).
Qed.

Definition table_sample : HashStore := MkHashStore 0 4096 3 8192 0 47544 4096.

Lemma server_message_not_understood_witness :
  let msg := PrepareHashMeta 0 [table_sample] in
  let b := misread_backup_num 0 (hs_table_id table_sample) in
  load_header (msg ++ [0; 0; 0; 0; 0; 0; 0; 0]) = Ok (Z.of_nat (length [table_sample]), b, 0) /\
  Z.of_nat (length msg) <= eof_offset (Z.of_nat (length [table_sample])) b /\
  (load 8 [0; 0; 0; 0; 0; 0; 0; 0] (40 * b) <> Ok MEM_STORE_META_END ->
   GetMemStoreMeta (msg ++ [0; 0; 0; 0; 0; 0; 0; 0]) new_MetaManager = Ok (-1, new_MetaManager) \/
   GetMemStoreMeta (msg ++ [0; 0; 0; 0; 0; 0; 0; 0]) new_MetaManager = Fault).
Proof.
  apply (server_message_not_understood 0 table_sample [] [0; 0; 0; 0; 0; 0; 0; 0] new_MetaManager).
  - simpl. lia.
  - simpl. lia.
Defined.
