(* ===== verification/Micro.v ===== *)
(** The micro benchmark's table (workload/micro/micro_db.h, micro_db.cc): rounding
    of the number of keys and loading of the hash store by the memory server. *)
From S2P Require Import Prelude Words Outcome Layout Hash HashStore Meta.

(** ** Data *)

Definition micro_magic : Z := 97.

(** [micro_val_t]: five 64-bit words. *)
Definition micro_val (magic : Z -> Z) : list Z :=
  concat (map (fun i => le_bytes 8 (magic i)) [0; 1; 2; 3; 4]).

Definition sizeof_micro_val_t : Z := 40.

Definition kMicroTable : Z := 0.

(** The members that the server uses: the table is a pointer, null before it is
    loaded. *)
Record MICRO := MkMicro {
  num_keys_global : Z;
  micro_table : option HashStore;
  primary_table_ptrs : list HashStore;
}.

(** ** Operations *)

(** The smallest power of two that is not below [v], on [uint64_t]. *)
Definition align_pow2 (v : Z) : Z :=
  let v := u64 (v - 1) in
  let v := Z.lor v (Z.shiftr v 1) in
  let v := Z.lor v (Z.shiftr v 2) in
  let v := Z.lor v (Z.shiftr v 4) in
  let v := Z.lor v (Z.shiftr v 8) in
  let v := Z.lor v (Z.shiftr v 16) in
  let v := Z.lor v (Z.shiftr v 32) in
  u64 (v + 1).

(** The constructor; [num_keys] comes from the configuration. *)
Definition new_MICRO (num_keys : Z) : MICRO := MkMicro (align_pow2 (u64 num_keys)) None [].

Definition set_remote_offset (off : Z) (i : DataItem) : DataItem :=
  MkDataItem (di_table_id i) (di_value_size i) (di_key i) off
    (di_version i) (di_lock i) (di_value i) (di_valid i) (di_user_insert i).

(** A server's table: the store, the reserved space and the memory. *)
Abbreviation server_state := (HashStore * MemStoreReserveParam * heap)%type.

(** [uninit] is what the memory of the item's value held before. *)
Definition LoadRecord (uninit : list Z) (item_key : Z) (val : list Z) (val_size table_id : Z)
    (s : server_state) : outcome server_state :=
  let '(table, param, h) := s in
  _ ← assert_ (val_size <=? MAX_ITEM_SIZE);
  item_to_be_inserted ← DataItem_load uninit table_id val_size item_key val;
  r ← LocalInsert table item_key item_to_be_inserted param h;
  let '(inserted_item, table, param, h) := r in
  i ← deref (read_item h inserted_item);
  Ok (table, param,
      write_item h inserted_item (set_remote_offset (GetItemRemoteOffset table inserted_item) i)).

(** The loop over the keys: [n] of them from [id] on. *)
Fixpoint populate_loop (uninit : Z -> list Z) (n : nat) (id : Z) (s : server_state)
    : outcome server_state :=
  match n with
  | O => Ok s
  | S n =>
      s ← LoadRecord (uninit id) id (micro_val (fun i => micro_magic + i)) sizeof_micro_val_t
            kMicroTable s;
      populate_loop uninit n (id + 1) s
  end.

Definition PopulateMicroTable (uninit : Z -> list Z) (num_keys_global : Z) (s : server_state)
    : outcome server_state :=
  populate_loop uninit (Z.to_nat num_keys_global) 0 s.

(** [bkt_num] comes from the configuration of the table. A remainder by 0 is a
    fault. *)
Definition LoadTable (uninit : Z -> list Z) (node_id num_server bkt_num : Z) (m : MICRO)
    (alloc : MemStoreAllocParam) (reserve : MemStoreReserveParam) (h : heap)
    : outcome (MICRO * MemStoreAllocParam * MemStoreReserveParam * heap) :=
  if num_server =? 0 then Fault
  else if Z.rem kMicroTable num_server =? node_id then
    r ← new_HashStore kMicroTable bkt_num alloc h;
    let '(table, alloc, h) := r in
    s ← PopulateMicroTable uninit (num_keys_global m) (table, reserve, h);
    let '(table, reserve, h) := s in
    Ok (MkMicro (num_keys_global m) (Some table) (primary_table_ptrs m ++ [table]), alloc, reserve, h)
  else Ok (m, alloc, reserve, h).
