(* ===== verification/MicroTheorems.v ===== *)
(** The loading of the micro benchmark's table: the rounding of the number of keys,
    and that the server's table holds every key with its place in the region. *)
From S2P Require Import Prelude Words Outcome Layout Hash HashStore HashStoreRefine.
From S2P Require Import HashStoreTheorems Meta Micro.

(** ** Rounding up to a power of two *)

(** Bit [i] of [v] tells whether [x] has a bit among the [w] bits from [i] on. *)
Definition smeared (w x v : Z) : Prop :=
  forall i, 0 <= i -> Z.testbit v i = true <-> exists j, i <= j < i + w /\ Z.testbit x j = true.

Lemma smeared_1 x : smeared 1 x x.
Proof.
  intros i Hi. split; [intros Hb; exists i; split; [lia|done]|].
  intros (j & Hj & Hb). by replace i with j by lia.
Qed.

Lemma smeared_double w x v :
  0 < w -> smeared w x v -> smeared (2 * w) x (Z.lor v (Z.shiftr v w)).
Proof.
  intros Hw Hv i Hi. rewrite Z.lor_spec, Z.shiftr_spec, orb_true_iff by done.
  rewrite (Hv i Hi), (Hv (i + w) ltac:(lia)). split.
  - intros [(j & Hj & Hb)|(j & Hj & Hb)]; exists j; (split; [lia|done]).
  - intros (j & Hj & Hb). destruct (Z.lt_ge_cases j (i + w)); [left|right]; exists j; (split; [lia|done]).
Qed.

Lemma smeared_ones x v : 0 < x < 2 ^ 64 -> smeared 64 x v -> 0 <= v -> v = Z.ones (Z.log2 x + 1).
Proof.
  intros Hx Hv H0. pose proof (Z.log2_nonneg x). assert (Z.log2 x < 64) by (apply Z.log2_lt_pow2; lia).
  apply Z.bits_inj'. intros i Hi. rewrite ones_testbit by lia.
  apply eq_true_iff_eq. rewrite (Hv i Hi), andb_true_iff, Z.leb_le, Z.ltb_lt. split.
  - intros (j & Hj & Hb). split; [done|].
    destruct (Z.le_gt_cases j (Z.log2 x)); [lia|]. by rewrite Z.bits_above_log2 in Hb by lia.
  - intros [_ Hlt]. exists (Z.log2 x). split; [lia|]. apply Z.bit_log2. lia.
Qed.

Lemma lor_shiftr_nonneg v k : 0 <= v -> 0 <= Z.lor v (Z.shiftr v k).
Proof. intros. apply Z.lor_nonneg. split; [done|]. by apply Z.shiftr_nonneg. Qed.

Lemma align_pow2_spec v :
  1 <= v <= 2 ^ 63 -> align_pow2 v = 2 ^ Z.log2_up v.
Proof.
  intros Hv. unfold align_pow2. rewrite (wrap_small 64 (v - 1)) by lia.
  destruct (Z.eq_dec v 1) as [->|Hne]; [done|].
  set (x := v - 1). pose proof (smeared_1 x) as H1.
  apply smeared_double in H1; [|lia]. apply smeared_double in H1; [|lia].
  apply smeared_double in H1; [|lia]. apply smeared_double in H1; [|lia].
  apply smeared_double in H1; [|lia]. apply smeared_double in H1; [|lia].
  change (2 * (2 * (2 * (2 * (2 * (2 * 1)))))) with 64 in H1.
  change (2 * (2 * (2 * (2 * (2 * 1))))) with 32 in H1. change (2 * (2 * (2 * (2 * 1)))) with 16 in H1.
  change (2 * (2 * (2 * 1))) with 8 in H1. change (2 * (2 * 1)) with 4 in H1. change (2 * 1) with 2 in H1.
  apply smeared_ones in H1; [|unfold x; lia|repeat apply lor_shiftr_nonneg; unfold x; lia].
  rewrite H1. rewrite Z.ones_equiv. unfold Z.log2_up. rewrite (proj2 (Z.compare_lt_iff 1 v)) by lia.
  fold x. replace (Z.pred v) with x by (unfold x; lia).
  replace (Z.pred (2 ^ (Z.log2 x + 1)) + 1) with (2 ^ Z.succ (Z.log2 x)) by (rewrite <- Z.add_1_r; lia).
  apply wrap_small. split; [apply Z.pow_nonneg; lia|].
  apply Z.pow_lt_mono_r; [lia|lia|]. assert (Z.log2 x < 63); [|lia].
  apply Z.log2_lt_pow2; unfold x; lia.
Qed.

(** ** Loading a record *)

(** Every item in use is of the table and knows its own offset in the region. *)
Definition addressed (st : HashStore) (h : heap) : Prop :=
  forall ptr x, read_item h ptr = Some x -> di_valid x <> 0 ->
    di_remote_offset x = GetItemRemoteOffset st ptr /\ di_table_id x = kMicroTable.

(** The place of a store in its region, which the operations leave as it is, and
    the addresses of nodes, which are not negative. *)
Definition same_place (st st' : HashStore) : Prop :=
  hs_table_id st' = hs_table_id st /\ base_off st' = base_off st /\ bucket_num st' = bucket_num st /\
  data_ptr st' = data_ptr st /\ region_start_ptr st' = region_start_ptr st.

Definition above (lo : Z) (h : heap) : Prop := forall a, a ∈ dom h -> lo <= a.

Lemma same_place_trans st1 st2 st3 : same_place st1 st2 -> same_place st2 st3 -> same_place st1 st3.
Proof. unfold same_place. intuition congruence. Qed.

Lemma above_write lo h ptr i : above lo h -> above lo (write_item h ptr i).
Proof. intros Hh a. rewrite write_item_dom. apply Hh. Qed.

Lemma LocalInsert_place lo st key i param h ptr st' param' h' :
  lo <= mem_store_reserve param + mem_store_reserve_offset param ->
  LocalInsert st key i param h = Ok (ptr, st', param', h') ->
  same_place st st' /\ (above lo h -> above lo h').
Proof.
  intros Hpos Hins. unfold LocalInsert in Hins. apply bind_Ok in Hins as ([p|node] & _ & Hins).
  - injection Hins as _ <- _ <-. split; [done|]. apply above_write.
  - apply bind_Ok in Hins as (? & _ & Hins). apply bind_Ok in Hins as (n & Hn & Hins).
    injection Hins as _ <- _ <-. split; [done|]. intros Hh a. apply deref_Ok in Hn.
    assert (above lo (write_item (<[mem_store_reserve param + mem_store_reserve_offset param := zero_node]> h)
              (mem_store_reserve param + mem_store_reserve_offset param, O) (set_valid 1 i))) as Hw.
    { apply above_write. intros b. rewrite dom_insert_L, elem_of_union, elem_of_singleton.
      intros [->|Hb]; [done|by apply Hh]. }
    rewrite dom_insert_L, elem_of_union, elem_of_singleton. intros [->|Ha]; [|by apply Hw].
    apply Hw. by eapply elem_of_dom_2.
Qed.

(** The record of a key: the bytes of the five magic words, and behind them what
    the memory held. *)
Definition micro_bytes : list Z := micro_val (fun i => micro_magic + i).

Definition micro_record (uninit : list Z) (key off : Z) : DataItem :=
  MkDataItem kMicroTable sizeof_micro_val_t key off 0 0 (micro_bytes ++ drop 40 uninit) 1 0.

Lemma GetItemRemoteOffset_same st st' ptr :
  region_start_ptr st' = region_start_ptr st -> GetItemRemoteOffset st' ptr = GetItemRemoteOffset st ptr.
Proof. intros E. unfold GetItemRemoteOffset. by rewrite E. Qed.

Lemma LoadRecord_lemma uninit key st param h L m :
  store_inv st param h L m -> addressed st h -> is_key key -> m !! key = None -> has_room param ->
  exists st' param' h' L' off,
    LoadRecord uninit key micro_bytes sizeof_micro_val_t kMicroTable (st, param, h) = Ok (st', param', h') /\
    store_inv st' param' h' L' (<[key := micro_record uninit key off]> m) /\ addressed st' h' /\
    same_place st st' /\
    (forall lo, lo <= mem_store_reserve param + mem_store_reserve_offset param -> above lo h -> above lo h') /\
    reserve_step param param'.
Proof.
  intros Hinv Haddr Hkey Hnone Hroom. unfold LoadRecord.
  change (sizeof_micro_val_t <=? MAX_ITEM_SIZE) with true. cbn [assert_ mbind outcome_bind].
  change (DataItem_load _ _ _ _ _) with (Ok (micro_record uninit key 0)). cbn [mbind outcome_bind].
  assert (valid_item key (micro_record uninit key 0)) as Hval by done.
  destruct (LocalInsert_strong st param h L m Hinv key Hkey _ Hval Hnone) as [Hins _].
  destruct (Hins Hroom) as (ptr & st' & param' & h' & L' & E & [I1 I2 I3 I4 I5 I6 I7]).
  pose proof Hinv as (_ & (Hpos & _) & _).
  destruct (LocalInsert_place _ _ _ _ _ _ _ _ _ _ (Z.lt_le_incl _ _ Hpos) E) as [Hsame _].
  pose proof (fun lo Hlo => proj2 (LocalInsert_place lo _ _ _ _ _ _ _ _ _ Hlo E)) as Hz. rewrite E.
  cbn [mbind outcome_bind]. rewrite I5. cbn [deref mbind outcome_bind].
  destruct I6 as (l & pre & post & Hl & Hloc). set (off := GetItemRemoteOffset st' ptr).
  destruct (overwrite_lemma st' param' h' L' _ I1 key Hkey l ptr pre _ post (micro_record uninit key off) Hl Hloc)
    as [Hinv' Hread]; [by apply matches_true|done|].
  rewrite insert_insert_eq in Hinv'.
  exists st', param', (write_item h' ptr (micro_record uninit key off)), L', off.
  split; [done|]. split; [exact Hinv'|]. split.
  2: { split; [done|]. split; [|done]. intros lo Hlo Hh. by apply above_write, Hz. }
  intros ptr' x Hx Hxv. destruct (decide (ptr' = ptr)) as [->|Hne].
  - rewrite Hread in Hx. by injection Hx as <-.
  - rewrite read_write_other in Hx by done. rewrite (GetItemRemoteOffset_same st st') by done.
    apply Haddr; [|done]. by apply (I7 ptr').
Qed.

(** ** Loading the table *)

(** The keys below [id] are loaded, and no others. *)
Definition loaded (uninit : Z -> list Z) (id : Z) (m : gmap Z DataItem) : Prop :=
  forall key, is_key key ->
    (key < id -> exists off, m !! key = Some (micro_record (uninit key) key off)) /\
    (id <= key -> m !! key = None).

Lemma populate_lemma uninit n id st param h L m :
  store_inv st param h L m -> addressed st h -> loaded uninit id m -> 0 <= id ->
  id + Z.of_nat n <= 2 ^ 64 ->
  mem_store_reserve param + mem_store_reserve_offset param + Z.of_nat n * HashNodeSize <= mem_store_end param ->
  exists st' param' h' L' m',
    populate_loop uninit n id (st, param, h) = Ok (st', param', h') /\
    store_inv st' param' h' L' m' /\ addressed st' h' /\ loaded uninit (id + Z.of_nat n) m' /\
    same_place st st' /\
    (forall lo, lo <= mem_store_reserve param + mem_store_reserve_offset param -> above lo h -> above lo h') /\
    mem_store_reserve param' + mem_store_reserve_offset param' <= mem_store_end param.
Proof.
  revert id st param h L m. induction n as [|n IH]; intros id st param h L m Hinv Haddr Hload H0 Hn Hroom.
  { exists st, param, h, L, m. rewrite Z.add_0_r. do 4 (split; [done|]). split; [done|]. split; [done|lia]. }
  rewrite HashNodeSize_15848 in Hroom.
  assert (is_key id) as Hkey by (unfold is_key; lia).
  assert (m !! id = None) as Hnone by (apply (Hload id Hkey); lia).
  destruct (LoadRecord_lemma (uninit id) id st param h L m Hinv Haddr Hkey Hnone)
    as (st1 & param1 & h1 & L1 & off & E & Hinv1 & Haddr1 & Hreg1 & Hz1 & Hres & Hend & Hoff);
    [unfold has_room; lia|].
  rewrite HashNodeSize_15848 in Hoff.
  assert (loaded uninit (id + 1) (<[id := micro_record (uninit id) id off]> m)) as Hload1.
  { intros key Hk. destruct (decide (key = id)) as [->|Hne].
    - rewrite lookup_insert_eq. split; [by eauto|lia].
    - rewrite lookup_insert_ne by done. split; intros; apply (Hload key Hk); lia. }
  destruct (IH (id + 1) st1 param1 h1 L1 _ Hinv1 Haddr1 Hload1)
    as (st2 & param2 & h2 & L2 & m2 & E2 & Hinv2 & Haddr2 & Hload2 & Hreg2 & Hz2 & Hend2);
    [lia|lia|rewrite HashNodeSize_15848; lia|].
  exists st2, param2, h2, L2, m2. cbn [populate_loop]. fold micro_bytes. rewrite E. cbn [mbind outcome_bind].
  split; [exact E2|]. split; [done|]. split; [done|].
  split; [by replace (id + Z.of_nat (S n)) with (id + 1 + Z.of_nat n) by lia|].
  split; [by eapply same_place_trans|]. split; [|lia]. intros lo Hlo Hh. apply Hz2; [lia|by apply Hz1].
Qed.

(** No slot of the memory is in use. *)
Definition blank (h : heap) : Prop := forall ptr x, read_item h ptr = Some x -> di_valid x = 0.

Lemma memset_blank n p h : blank h -> blank (memset_nodes n p h).
Proof.
  intros Hh. revert p. induction n as [|n IH]; intros p; [done|]. cbn [memset_nodes].
  intros [a j] x Hx. unfold read_item in Hx. cbn [fst snd] in Hx.
  destruct (decide (a = p)) as [->|Hne].
  - rewrite lookup_insert_eq in Hx. cbn [mbind option_bind data_items zero_node] in Hx.
    by apply lookup_replicate in Hx as [-> _].
  - rewrite lookup_insert_ne in Hx by done. by apply (IH (p + HashNodeSize) (a, j)).
Qed.

(** What the server has when the table is loaded. *)
Record table_loaded (uninit : Z -> list Z) (bkt_num n : Z) (alloc : MemStoreAllocParam) (st : HashStore)
    (reserve : MemStoreReserveParam) (h : heap) (L : list (list Z)) (m : gmap Z DataItem) : Prop := {
  tl_inv : store_inv st reserve h L m;
  tl_loaded : loaded uninit n m;
  tl_addressed : addressed st h;
  tl_table : hs_table_id st = kMicroTable /\ bucket_num st = bkt_num;
  tl_region : region_start_ptr st = mem_region_start alloc;
  tl_data : data_ptr st = mem_store_start alloc + mem_store_alloc_offset alloc;
  tl_base : base_off st = data_ptr st - region_start_ptr st;
}.

Lemma LoadTable_lemma (uninit : Z -> list Z) (num_server bkt_num : Z) (mi : MICRO)
    (alloc : MemStoreAllocParam) (reserve : MemStoreReserveParam) (h : heap) :
  num_server <> 0 -> 0 <= num_keys_global mi < 2 ^ 64 -> blank h ->
  valid_alloc bkt_num alloc -> valid_region (Z.to_nat (num_keys_global mi)) alloc reserve h ->
  exists table alloc' reserve' h' L m,
    LoadTable uninit 0 num_server bkt_num mi alloc reserve h =
      Ok (MkMicro (num_keys_global mi) (Some table) (primary_table_ptrs mi ++ [table]), alloc', reserve', h') /\
    table_loaded uninit bkt_num (num_keys_global mi) alloc table reserve' h' L m /\
    (forall lo, lo <= mem_store_start alloc + mem_store_alloc_offset alloc -> above lo h -> above lo h') /\
    (forall a, a ∈ dom h' -> a < mem_store_end reserve).
Proof.
  intros Hns Hkeys Hblank Halloc (Hres & Hoff & Hroom & Hend & Hdom).
  destruct (new_HashStore_lemma kMicroTable bkt_num alloc h Halloc)
    as (st & alloc' & E & Hbase & Hdata & Hbn & _ & Hwf & Hm).
  destruct (new_HashStore_names _ _ _ _ _ _ _ E) as [Ht Hregion].
  set (h0 := memset_nodes _ _ _) in *. pose proof Halloc as (Hbn' & Hr0 & Hd & _ & _ & Hfit).
  assert (store_inv st reserve h0 (fresh_chains (mem_store_start alloc + mem_store_alloc_offset alloc)
            (Z.to_nat bkt_num)) ∅) as Hinv.
  { split; [exact Hwf|split; [|exact Hm]]. unfold wf_reserve. rewrite HashNodeSize_15848 in *.
    split; [lia|]. split; [lia|]. intros a [Ha|Ha]%memset_nodes_dom.
    - apply Hdom in Ha. lia.
    - rewrite HashNodeSize_15848 in Ha. lia. }
  assert (blank h0) as Hb0 by by apply memset_blank.
  destruct (populate_lemma uninit (Z.to_nat (num_keys_global mi)) 0 st reserve h0 _ ∅ Hinv)
    as (st' & reserve' & h' & L' & m' & Hp & Hinv' & Haddr & Hload & (P1 & P2 & P3 & P4 & P5) & Hz & Hend').
  { intros ptr x Hx Hxv. by apply Hb0 in Hx. }
  { intros key Hk. rewrite lookup_empty. split; [unfold is_key in Hk; lia|done]. }
  { lia. } { lia. } { lia. }
  rewrite Z.add_0_l, Z2Nat.id in Hload by lia.
  exists st', alloc', reserve', h', L', m'. unfold LoadTable, PopulateMicroTable.
  rewrite (proj2 (Z.eqb_neq _ _) Hns). unfold kMicroTable at 1. rewrite Z.rem_0_l by done.
  cbn [Z.eqb]. rewrite E. cbn [mbind outcome_bind]. fold h0. rewrite Hp. cbn [mbind outcome_bind].
  split; [done|]. split.
  - split; try done; [split; congruence|congruence|congruence|congruence].
  - split.
    + intros lo Hlo Hh. apply Hz; [rewrite HashNodeSize_15848 in *; lia|]. intros a [Ha|Ha]%memset_nodes_dom; [by apply Hh|lia].
    + intros a Ha. destruct Hinv' as (_ & (_ & _ & Hdom') & _). apply Hdom' in Ha. lia.
Qed.

(** ** Properties *)

(** [align_pow2] returns the least power of two that is not below its argument,
    for arguments from 1 to 2^63; for 0 it wraps around to 0. *)
Theorem align_pow2_least (v : Z) :
  0 <= v < 2 ^ 64 ->
  (1 <= v <= 2 ^ 63 ->
   exists k, 0 <= k <= 63 /\ align_pow2 v = 2 ^ k /\ v <= 2 ^ k /\ forall j, 0 <= j -> v <= 2 ^ j -> k <= j) /\
  (v = 0 -> align_pow2 v = 0).
Proof.
  intros Hv. split; [|by intros ->]. intros Hr. exists (Z.log2_up v).
  pose proof (Z.log2_up_nonneg v). split; [|split; [by apply align_pow2_spec|split]].
  - split; [done|]. rewrite <- (Z.log2_up_pow2 63) by lia. apply Z.log2_up_le_mono. lia.
  - destruct (Z.eq_dec v 1) as [->|Hne]; [done|]. apply (Z.log2_up_spec v). lia.
  - intros j Hj Hle. rewrite <- (Z.log2_up_pow2 j) by done. by apply Z.log2_up_le_mono.
Qed.

Lemma align_pow2_least_witness :
  (1 <= 1000000 <= 2 ^ 63 ->
   exists k, 0 <= k <= 63 /\ align_pow2 1000000 = 2 ^ k /\ 1000000 <= 2 ^ k /\
     forall j, 0 <= j -> 1000000 <= 2 ^ j -> k <= j) /\
  (1000000 = 0 -> align_pow2 1000000 = 0).
Proof. apply (align_pow2_least 1000000). lia. Defined.

(** The server that owns the table loads it: for a region with room for one
    conflict node per key, [LoadTable] succeeds, and afterwards [LocalGet] finds
    exactly the keys below [num_keys_global], each with its record, whose
    [remote_offset] is the place of its slot in the registered region. *)
Theorem LoadTable_loads_every_key (uninit : Z -> list Z) (num_server bkt_num : Z) (mi : MICRO)
    (alloc : MemStoreAllocParam) (reserve : MemStoreReserveParam) (h : heap) :
  num_server <> 0 -> 0 <= num_keys_global mi < 2 ^ 64 -> blank h ->
  valid_alloc bkt_num alloc -> valid_region (Z.to_nat (num_keys_global mi)) alloc reserve h ->
  exists table alloc' reserve' h',
    LoadTable uninit 0 num_server bkt_num mi alloc reserve h =
      Ok (MkMicro (num_keys_global mi) (Some table) (primary_table_ptrs mi ++ [table]),
          alloc', reserve', h') /\
    forall key, is_key key ->
      (num_keys_global mi <= key -> LocalGet table key h' = Ok None) /\
      (key < num_keys_global mi ->
       exists ptr off, LocalGet table key h' = Ok (Some ptr) /\
         read_item h' ptr = Some (micro_record (uninit key) key off) /\
         off = GetItemRemoteOffset table ptr).
Proof.
  intros Hns Hkeys Hblank Halloc Hreg.
  destruct (LoadTable_lemma uninit num_server bkt_num mi alloc reserve h Hns Hkeys Hblank Halloc Hreg)
    as (st' & alloc' & reserve' & h' & L' & m' & E & [Hinv' Hload Haddr _ _ _ _] & _).
  exists st', alloc', reserve', h'. split; [done|]. intros key Hk. destruct (Hload key Hk) as [Hin Hout].
  destruct (LocalGet_lemma st' reserve' h' L' m' Hinv' key Hk)
    as [[-> Hnone]|(l & ptr & pre & item & post & -> & Hsome & Hmatch & _ & Hloc & _)].
  - split; [done|]. intros Hlt. destruct (Hin Hlt) as [off Hoff']. congruence.
  - split; [intros Hge; rewrite (Hout Hge) in Hsome; done|]. intros Hlt.
    destruct (Hin Hlt) as [off Hoff']. assert (item = micro_record (uninit key) key off) as -> by congruence.
    pose proof (located_read _ _ _ _ _ _ Hloc) as Hread.
    exists ptr, off. split; [done|]. split; [done|]. by apply (Haddr ptr) in Hread as [? _].
Qed.

Definition micro_sample : MICRO := new_MICRO 5.

Lemma LoadTable_loads_every_key_witness :
  exists table alloc' reserve' h',
    LoadTable (fun _ => []) 0 2 3 micro_sample alloc_sample reserve_sample ∅ =
      Ok (MkMicro 8 (Some table) [table], alloc', reserve', h') /\
    forall key, is_key key ->
      (8 <= key -> LocalGet table key h' = Ok None) /\
      (key < 8 ->
       exists ptr off, LocalGet table key h' = Ok (Some ptr) /\
         read_item h' ptr = Some (micro_record [] key off) /\ off = GetItemRemoteOffset table ptr).
Proof.
  apply (LoadTable_loads_every_key (fun _ => []) 2 3 micro_sample alloc_sample reserve_sample ∅).
  - lia.
  - vm_compute. split; [discriminate|reflexivity].
  - intros ptr x Hx. unfold read_item in Hx. by rewrite lookup_empty in Hx.
  - unfold valid_alloc, alloc_sample; simpl. rewrite HashNodeSize_15848. lia.
  - replace (num_keys_global micro_sample) with 8 by (vm_compute; reflexivity).
    unfold valid_region, alloc_sample, reserve_sample; simpl. rewrite HashNodeSize_15848.
    repeat split; try lia. intros a Ha. by apply elem_of_empty in Ha.
Defined.
