(* ===== verification/Server.v ===== *)
(** The memory node (memory_pool/server/server.cc, server.h): it allocates and clears its
    region, loads the table of the workload, sends the metadata to the compute nodes
    and waits for the operator, round after round. *)
From S2P Require Import Prelude Words Outcome Doubles Layout HashStore Meta Micro.
From stdpp Require Import strings.
From Stdlib Require Import Ascii.
#[local] Open Scope Z_scope.

(** ** Data *)

(** The values of the configuration files that [main] reads. *)
Record memory_node_config := MkMemoryNodeConfig {
  cfg_machine_num : Z;
  cfg_machine_id : Z;
  cfg_use_pm : Z;
  cfg_workload : string;
  cfg_mem_size_GB : Z;
  cfg_log_buf_size_GB : Z;
  cfg_compute_node_num : nat;
  cfg_num_keys : Z;  (* micro_config.json *)
  cfg_bkt_num : Z;  (* workload/micro/micro_tables/micro.json *)
}.

(** What the operating system answers: the addresses of the mapped file and of the
    allocated buffers, or nothing if the call fails. *)
Record os_answers := MkAnswers {
  os_mmap : option Z;
  os_malloc_hash : option Z;
  os_malloc_log : option Z;
  os_register_hash : bool;
  os_register_log : bool;
}.

(** [class Server], without what only the network needs. [hash_mapped] tells whether
    [hash_buffer] is memory of the process; the nodes in it are [memory]. *)
Record Server := MkServer {
  hash_buf_size : Z;
  log_buf_size : Z;
  use_pm : Z;
  hash_buffer : Z;
  hash_mapped : bool;
  hash_reserve_buffer : Z;
  log_buffer : Z;
  micro_server : option MICRO;
  memory : heap;
}.

Definition MAP_FAILED : Z := 2 ^ 64 - 1.

(** ** Operations *)

(** The constructor: the null pointers are 0. *)
Definition new_Server (hash_buf_size log_buf_size use_pm : Z) : Server :=
  MkServer hash_buf_size log_buf_size use_pm 0 false 0 0 None ∅.

(** [hash_buf_size * 0.75], converted to [offset_t], a signed 64-bit integer. *)
Definition reserve_start (hash_buf_size : Z) : outcome Z :=
  integer_of_double (- 2 ^ 63) (2 ^ 63 - 1)
    (dmul (double_of_Z hash_buf_size) (ddiv (double_of_Z 3) (double_of_Z 4))).

Definition AllocMem (os : os_answers) (s : Server) : outcome Server :=
  let buffer := if negb (use_pm s =? 0) then default MAP_FAILED (os_mmap os) else default 0 (os_malloc_hash os) in
  let mapped := if negb (use_pm s =? 0) then bool_decide (is_Some (os_mmap os)) else bool_decide (is_Some (os_malloc_hash os)) in
  _ ← assert_ (negb (buffer =? 0));
  start ← reserve_start (hash_buf_size s);
  let log := default 0 (os_malloc_log os) in
  _ ← assert_ (negb (log =? 0));
  Ok (MkServer (hash_buf_size s) (log_buf_size s) (use_pm s) buffer mapped (u64 (buffer + start)) log (micro_server s) (memory s)).

Definition set_memory (h : heap) (s : Server) : Server :=
  MkServer (hash_buf_size s) (log_buf_size s) (use_pm s) (hash_buffer s) (hash_mapped s) (hash_reserve_buffer s)
    (log_buffer s) (micro_server s) h.

Definition set_micro_server (m : MICRO) (s : Server) : Server :=
  MkServer (hash_buf_size s) (log_buf_size s) (use_pm s) (hash_buffer s) (hash_mapped s) (hash_reserve_buffer s)
    (log_buffer s) (Some m) (memory s).

Definition in_region (s : Server) (a : Z) : Prop := hash_buffer s <= a < hash_buffer s + hash_buf_size s.

(** [memset] of the whole region: no node is left in it. *)
Definition InitMem (s : Server) : outcome Server :=
  if hash_mapped s then Ok (set_memory (filter (fun '(a, _) => ~ in_region s a) (memory s)) s) else Fault.

(** [uninit] is what the memory of the items' values held before. The [MICRO] of an
    earlier round is not deleted. *)
Definition LoadData (cfg : memory_node_config) (uninit : Z -> list Z) (s : Server) : outcome Server :=
  let alloc := MkAllocParam (hash_buffer s) (hash_buffer s) 0 (hash_reserve_buffer s) in
  let reserve := MkReserveParam (hash_reserve_buffer s) 0 (hash_buffer s + hash_buf_size s) in
  if String.eqb (cfg_workload cfg) "MICRO" then
    r ← LoadTable uninit (i32 (cfg_machine_id cfg)) (i32 (cfg_machine_num cfg)) (cfg_bkt_num cfg)
          (new_MICRO (cfg_num_keys cfg)) alloc reserve (memory s);
    let '(m, _, _, h) := r in
    Ok (set_micro_server m (set_memory h s))
  else Ok s.

(** The tables that the message of [PrepareHashMeta] lists. *)
Definition all_primary_tables (cfg : memory_node_config) (s : Server) : outcome (list HashStore) :=
  if String.eqb (cfg_workload cfg) "MICRO" then
    m ← deref (micro_server s);
    Ok (primary_table_ptrs m)
  else Ok [].

(** [SendHashMeta]: a call of the socket library that fails is logged, and nothing is
    sent. *)
Definition SendHashMeta (connected : bool) (hash_meta_buffer : list Z) : option (list Z) :=
  if connected then Some hash_meta_buffer else None.

(** [SendMeta]: what each compute node is sent. *)
Definition SendMeta (cfg : memory_node_config) (connected : nat -> bool) (s : Server)
    : outcome (list (option (list Z))) :=
  tables ← all_primary_tables cfg s;
  let hash_meta_buffer := PrepareHashMeta (i32 (cfg_machine_id cfg)) tables in
  Ok (map (fun index => SendHashMeta (connected index) hash_meta_buffer) (seq 0 (cfg_compute_node_num cfg))).

Definition InitRDMA (os : os_answers) : outcome () :=
  _ ← assert_ (os_register_hash os);
  assert_ (os_register_log os).

(** [Run] reads the characters that the operator types. At the end of the input
    [scanf] leaves [ch] as it was, without a value. *)
Fixpoint Run (input : list Ascii.ascii) : outcome (bool * list Ascii.ascii) :=
  match input with
  | [] => Fault
  | ch :: input =>
      if Ascii.eqb ch "q"%char then Ok (false, input)
      else if Ascii.eqb ch "c"%char then Ok (true, input)
      else Run input
  end.

(** What a round was like: the messages, and the server while it waits. *)
Record round := MkRound { sent : list (option (list Z)); waiting_server : Server }.

(** A round up to [Run]. *)
Definition start_round (cfg : memory_node_config) (uninit : Z -> list Z) (connected : nat -> bool) (s : Server)
    : outcome round :=
  s ← InitMem s;
  s ← LoadData cfg uninit s;
  sent ← SendMeta cfg connected s;
  Ok (MkRound sent s).

Section Main.
Context (cfg : memory_node_config) (os : os_answers).
Context (uninit : nat -> Z -> list Z) (connected : nat -> nat -> bool).

(** [clients i h] is the memory after the requests of the clients in round [i]. *)
Context (clients : nat -> heap -> heap).

(** The loop of [main] from the call of [Run] in round [i] on: it ends with the input. *)
Fixpoint run_rounds (fuel : nat) (i : nat) (r : round) (input : list Ascii.ascii) : outcome (list round) :=
  match fuel with
  | O => OutOfFuel
  | S fuel =>
      a ← Run input;
      let '(run_next_round, input) := a in
      if run_next_round : bool then
        let s := set_memory (clients i (memory (waiting_server r))) (waiting_server r) in
        r' ← start_round cfg (uninit (S i)) (connected (S i)) s;
        rs ← run_rounds fuel (S i) r' input;
        Ok (r :: rs)
      else Ok [r]
  end.

Definition main (input : list Ascii.ascii) : outcome (list round) :=
  let machine_num := i32 (cfg_machine_num cfg) in
  let machine_id := i32 (cfg_machine_id cfg) in
  _ ← assert_ ((0 <=? machine_id) && (machine_id <? machine_num));
  let mem_size := u64 (2 ^ 30 * cfg_mem_size_GB cfg) in
  let log_buf_size := u64 (2 ^ 30 * cfg_log_buf_size_GB cfg) in
  s ← AllocMem os (new_Server mem_size log_buf_size (i32 (cfg_use_pm cfg)));
  r ← start_round cfg (uninit O) (connected O) s;
  _ ← InitRDMA os;
  run_rounds (S (length input)) O r input.
End Main.
