(* ===== verification/ServerTheorems.v ===== *)
(** The rounds of the memory node: whatever the clients did to the memory, each round
    sends the same metadata and starts with a freshly loaded table. *)
From stdpp Require Import strings.
From Stdlib Require Import Ascii.
From S2P Require Import Prelude Words Outcome Doubles Layout HashStore HashStoreRefine HashStoreTheorems.
From S2P Require Import Meta Micro MicroTheorems Server.
#[local] Open Scope Z_scope.

(** ** The reserved quarter *)

(** The product with 0.75 is exact for sizes up to 2^51 that 4 divides. *)
Lemma reserve_start_exact size :
  0 <= size <= 2 ^ 51 -> (4 | size) -> reserve_start size = Ok (size / 4 * 3).
Proof.
  intros Hs [q ->]. rewrite Z.div_mul by lia. pose proof one_pos as Hone. unfold reserve_start.
  change (ddiv (double_of_Z 3) (double_of_Z 4)) with (S754_finite false 6755399441055744 (-53)).
  assert (plain (S754_finite false 6755399441055744 (-53))) as Hq by by constructor.
  assert (scaled (S754_finite false 6755399441055744 (-53)) * 4 = 3 * one) as Eq by by vm_compute.
  set (t := scaled _) in *. destruct (double_of_Z_plain (q * 4)) as [Hd Ed]; [lia|].
  assert (nearest (q * 4 * one * t) one (dmul (double_of_Z (q * 4)) (S754_finite false 6755399441055744 (-53))))
    as [Hp Hu Hl].
  { rewrite <- Ed. apply dmul_nearest; [done|done|]. fold t. rewrite Ed, <- Z.mul_assoc, <- (Z.mul_assoc (2 ^ 60)).
    apply Z.mul_le_mono_nonneg; nia. }
  pose proof (representable_Z (q * 3) ltac:(lia)) as Hr.
  assert (q * 4 * one * t = q * 3 * one * one) as E by nia.
  assert (scaled (dmul (double_of_Z (q * 4)) (S754_finite false 6755399441055744 (-53))) = q * 3 * one) as Es.
  { apply Z.le_antisymm; [apply Hu|apply Hl]; (done || lia). }
  destruct (integer_of_plain (- 2 ^ 63) (2 ^ 63 - 1) _ (q * 3) (q * 3) Hp) as (v & -> & _ & Hv & _); [lia|lia|lia|].
  f_equal. lia.
Qed.

(** ** A node that owns the table *)

Definition region_size (cfg : memory_node_config) : Z := 2 ^ 30 * cfg_mem_size_GB cfg.

Definition keys_of (cfg : memory_node_config) : Z := num_keys_global (new_MICRO (cfg_num_keys cfg)).

(** The node 0 of a cluster, at most 2^21 GB of memory at the address [hb], with room
    for the buckets in three quarters of it and for a node per key in the last one. *)
Record table_node (cfg : memory_node_config) (os : os_answers) (hb : Z) : Prop := {
  tn_ids : i32 (cfg_machine_id cfg) = 0 /\ 0 < i32 (cfg_machine_num cfg);
  tn_workload : cfg_workload cfg = "MICRO"%string;
  tn_size : 0 < cfg_mem_size_GB cfg <= 2 ^ 21;
  tn_buffer : (if negb (i32 (cfg_use_pm cfg) =? 0) then os_mmap os else os_malloc_hash os) = Some hb;
  tn_address : 0 < hb /\ hb + region_size cfg + HashNodeSize < 2 ^ 63;
  tn_log : exists log, os_malloc_log os = Some log /\ log <> 0;
  tn_register : os_register_hash os = true /\ os_register_log os = true;
  tn_buckets : 0 < cfg_bkt_num cfg /\ cfg_bkt_num cfg * HashNodeSize <= region_size cfg / 4 * 3;
  tn_keys : keys_of cfg * HashNodeSize <= region_size cfg / 4;
}.

Section Rounds.
Context (cfg : memory_node_config) (os : os_answers) (hb : Z) (Hnode : table_node cfg os hb).

Abbreviation size := (region_size cfg).

(** The nodes lie in the region. *)
Definition in_bounds (h : heap) : Prop := forall a, a ∈ dom h -> hb <= a < hb + size.

(** The server after [AllocMem]. *)
Record allocated (s : Server) : Prop := {
  al_mapped : hash_mapped s = true;
  al_buffer : hash_buffer s = hb;
  al_size : hash_buf_size s = size;
  al_reserve : hash_reserve_buffer s = hb + size / 4 * 3;
  al_memory : in_bounds (memory s);
}.

Definition micro_alloc : MemStoreAllocParam := MkAllocParam hb hb 0 (hb + size / 4 * 3).

(** Where the table is, in every round. *)
Definition table_place : HashStore := MkHashStore kMicroTable 0 (cfg_bkt_num cfg) hb 0 0 hb.

Definition table_message : list Z := PrepareHashMeta 0 [table_place].

(** The server waits with the table that it has just loaded. *)
Definition freshly_loaded (uninit : Z -> list Z) (s : Server) : Prop :=
  exists st reserve L m,
    micro_server s = Some (MkMicro (keys_of cfg) (Some st) [st]) /\
    table_loaded uninit (cfg_bkt_num cfg) (keys_of cfg) micro_alloc st reserve (memory s) L m /\
    meta_of_table st = meta_of_table table_place /\ above hb (memory s).

Lemma size_facts : 2 ^ 30 <= size <= 2 ^ 51 /\ (4 | size).
Proof using Hnode.
  destruct Hnode as [_ _ Hs _ _ _ _ _ _]. unfold region_size. split; [lia|].
  exists (2 ^ 28 * cfg_mem_size_GB cfg). lia.
Qed.

Lemma AllocMem_allocated log_size :
  exists s, AllocMem os (new_Server (u64 size) log_size (i32 (cfg_use_pm cfg))) = Ok s /\ allocated s.
Proof using Hnode.
  destruct size_facts as [Hs Hdiv]. destruct Hnode as [_ _ _ Hb [Hhb Hend] (log & Hlog & Hlog0) _ _ _].
  rewrite HashNodeSize_15848 in Hend. unfold AllocMem, new_Server. cbn [use_pm hash_buf_size Server.log_buf_size micro_server memory].
  rewrite wrap_small, (reserve_start_exact size) by (done || lia).
  assert ((if negb (i32 (cfg_use_pm cfg) =? 0) then default MAP_FAILED (os_mmap os) else default 0 (os_malloc_hash os)) = hb) as ->.
  { by destruct (negb _); rewrite Hb. }
  rewrite (proj2 (Z.eqb_neq hb 0)) by lia. cbn [negb assert_ mbind outcome_bind].
  rewrite Hlog. change (default 0 (Some log)) with log. rewrite (proj2 (Z.eqb_neq log 0)) by done. cbn [negb assert_ mbind outcome_bind].
  eexists. split; [done|]. split; cbn [hash_mapped hash_buffer hash_buf_size hash_reserve_buffer memory]; try done.
  - destruct (negb _); rewrite Hb; done.
  - apply wrap_small. assert (0 <= size / 4 * 3 <= size); [|lia]. destruct Hdiv as [q Hq]. rewrite Hq, Z.div_mul by lia. lia.
Qed.

Lemma micro_alloc_valid : valid_alloc (cfg_bkt_num cfg) micro_alloc.
Proof using Hnode.
  destruct size_facts as [Hs [q Hq]]. destruct Hnode as [_ _ _ _ [Hhb Hend] _ _ [Hb0 Hb] _].
  unfold valid_alloc, micro_alloc. cbn [mem_store_start mem_store_alloc_offset mem_region_start alloc_mem_store_reserve].
  rewrite HashNodeSize_15848 in *. rewrite Hq, Z.div_mul in * by lia. lia.
Qed.

Lemma InitMem_clears s : allocated s -> InitMem s = Ok (set_memory ∅ s).
Proof using.
  intros [H1 H2 H3 _ H5]. unfold InitMem. rewrite H1. do 2 f_equal. apply map_empty. intros a.
  apply map_lookup_filter_None_2. destruct (memory s !! a) as [n|] eqn:E; [right|by left].
  intros n' Hn'. cbn. intros Hno. apply Hno. unfold in_region. rewrite H2, H3. apply H5. by eapply elem_of_dom_2.
Qed.

Lemma in_bounds_blank s : allocated s -> memory s = ∅ -> blank (memory s) /\ above hb (memory s).
Proof using.
  intros _ ->. split; [intros ptr x Hx; unfold read_item in Hx; by rewrite lookup_empty in Hx|].
  intros a Ha. by apply elem_of_empty in Ha.
Qed.

Lemma LoadData_loads uninit s :
  allocated s -> memory s = ∅ ->
  exists s', LoadData cfg uninit s = Ok s' /\ allocated s' /\ freshly_loaded uninit s'.
Proof using Hnode.
  intros Hal Hempty. destruct size_facts as [Hs Hdiv]. pose proof (in_bounds_blank s Hal Hempty) as [Hblank Habove].
  destruct Hnode as [[Hid Hnum] Hw Hgb _ [Hhb Hend] _ _ [Hb0 Hb] Hk]. destruct Hal as [A1 A2 A3 A4 A5].
  rewrite HashNodeSize_15848 in *. destruct Hdiv as [q Hq].
  assert (size / 4 = q) as Hq4 by (rewrite Hq; by apply Z.div_mul). rewrite Hq4 in *.
  unfold LoadData. rewrite Hw, Hid. cbn [String.eqb Ascii.eqb Bool.eqb]. rewrite A2, A3, A4.
  assert (0 <= keys_of cfg < 2 ^ 64) as Hkeys by (apply wrap_range; lia).
  assert (exists mi, new_MICRO (cfg_num_keys cfg) = mi /\ num_keys_global mi = keys_of cfg /\ primary_table_ptrs mi = [])
    as (mi & -> & Ek & Ep).
  { exists (new_MICRO (cfg_num_keys cfg)). split; [reflexivity|]. split; [unfold keys_of|unfold new_MICRO]; reflexivity. }
  destruct (LoadTable_lemma uninit (i32 (cfg_machine_num cfg)) (cfg_bkt_num cfg) mi
    (MkAllocParam hb hb 0 (hb + q * 3)) (MkReserveParam (hb + q * 3) 0 (hb + size)) (memory s))
    as (st & alloc' & reserve' & h' & L & m & E & Hl & Hab & Hbe); [lia|by rewrite Ek|done| | |].
  { unfold valid_alloc. cbn. rewrite HashNodeSize_15848. lia. }
  { unfold valid_region. cbn [mem_store_reserve mem_store_reserve_offset mem_store_end alloc_mem_store_reserve].
    rewrite Ek, HashNodeSize_15848, Z2Nat.id by lia.
    split; [done|]. split; [done|]. split; [lia|]. split; [lia|]. intros a Ha. rewrite Hempty in Ha. by apply elem_of_empty in Ha. }
  rewrite E. cbn [mbind outcome_bind]. eexists. split; [done|]. rewrite Ek, Ep in *. cbn [mem_store_start mem_store_alloc_offset mem_store_end] in Hab, Hbe.
  assert (above hb h') as Hab' by (apply Hab; [lia|done]). split.
  - split; cbn [set_micro_server set_memory hash_mapped hash_buffer hash_buf_size hash_reserve_buffer memory]; try done.
    + by rewrite Hq4.
    + intros a Ha. split; [by apply Hab'|by apply Hbe].
  - exists st, reserve', L, m. cbn [set_micro_server set_memory micro_server memory]. split; [done|].
    unfold micro_alloc. rewrite Hq4. split; [done|]. split; [|done].
    destruct Hl as [_ _ _ [T1 T2] T3 T4 T5]. cbn in T3, T4. unfold meta_of_table, table_place, new_HashMeta. cbn.
    rewrite T1, T2, T5, T4, T3. f_equal; lia.
Qed.

Definition messages (connected : nat -> bool) : list (option (list Z)) :=
  map (fun index => SendHashMeta (connected index) table_message) (seq 0 (cfg_compute_node_num cfg)).

Lemma PrepareHashMeta_meta id ts ts' :
  map meta_of_table ts = map meta_of_table ts' -> PrepareHashMeta id ts = PrepareHashMeta id ts'.
Proof using. intros E. unfold PrepareHashMeta. by rewrite E. Qed.

Lemma start_round_fresh uninit connected s :
  allocated s ->
  exists r, start_round cfg uninit connected s = Ok r /\ sent r = messages connected /\
    allocated (waiting_server r) /\ freshly_loaded uninit (waiting_server r).
Proof using Hnode.
  intros Hal. unfold start_round. rewrite (InitMem_clears s Hal), bind_value.
  assert (allocated (set_memory ∅ s)) as Hal0.
  { destruct Hal as [A1 A2 A3 A4 _]. split; cbn [set_memory hash_mapped hash_buffer hash_buf_size hash_reserve_buffer memory];
      try done. }
  destruct (LoadData_loads uninit _ Hal0 eq_refl) as (s' & -> & Hal' & Hfresh). rewrite bind_value.
  pose proof Hfresh as (st & reserve & L & m & Hm & _ & Hmeta & _).
  destruct Hnode as [[Hid _] Hw _ _ _ _ _ _ _].
  unfold SendMeta, all_primary_tables. rewrite Hw, Hid, Hm. cbn [String.eqb Ascii.eqb Bool.eqb deref primary_table_ptrs].
  rewrite !bind_value. eexists. split; [done|]. cbn [sent waiting_server]. split; [|done].
  unfold messages, table_message. cbv zeta. cbn [primary_table_ptrs]. rewrite (PrepareHashMeta_meta 0 [st] [table_place]); [done|]. cbn [map]. by rewrite Hmeta.
Qed.

(** ** The operator's input *)

(** The number of further rounds that the operator asks for: the letters c before the
    first q, or nothing if there is no q. *)
Fixpoint rounds_asked (input : list Ascii.ascii) : option nat :=
  match input with
  | [] => None
  | ch :: input =>
      if Ascii.eqb ch "q" then Some O
      else if Ascii.eqb ch "c" then S <$> rounds_asked input
      else rounds_asked input
  end.

Lemma Run_asked input :
  match rounds_asked input with
  | Some O => exists rest, Run input = Ok (false, rest)
  | Some (S k) => exists rest, Run input = Ok (true, rest) /\ rounds_asked rest = Some k /\ (length rest < length input)%nat
  | None => Run input = Fault \/
      exists rest, Run input = Ok (true, rest) /\ rounds_asked rest = None /\ (length rest < length input)%nat
  end.
Proof using.
  induction input as [|ch input IH]; cbn [rounds_asked Run length]; [by left|].
  destruct (Ascii.eqb ch "q"); [by exists input|]. destruct (Ascii.eqb ch "c").
  - destruct (rounds_asked input) as [k|] eqn:E; cbn [fmap option_fmap option_map]; [|right]; exists input; (split; [done|split; [done|lia]]).
  - destruct (rounds_asked input) as [[|k]|]; [done| |].
    + destruct IH as (rest & H1 & H2 & H3). exists rest. split; [done|split; [done|lia]].
    + destruct IH as [|(rest & H1 & H2 & H3)]; [by left|right]. exists rest. split; [done|split; [done|lia]].
Qed.

(** ** The rounds *)

Context (uninit : nat -> Z -> list Z) (connected : nat -> nat -> bool) (clients : nat -> heap -> heap).
Context (Hclients : forall i h, in_bounds h -> in_bounds (clients i h)).

(** The [i]-th round as it should be. *)
Definition good_round (i : nat) (r : round) : Prop :=
  sent r = messages (connected i) /\ freshly_loaded (uninit i) (waiting_server r).

Lemma run_rounds_good fuel i r input :
  good_round i r -> allocated (waiting_server r) -> (length input < fuel)%nat ->
  match rounds_asked input with
  | Some k => exists rs, run_rounds cfg uninit connected clients fuel i r input = Ok rs /\
      length rs = S k /\ forall j r', rs !! j = Some r' -> good_round (i + j) r'
  | None => run_rounds cfg uninit connected clients fuel i r input = Fault
  end.
Proof using Hnode Hclients.
  revert i r input. induction fuel as [|fuel IH]; intros i r input Hgood Hal Hfuel; [lia|].
  cbn [run_rounds]. pose proof (Run_asked input) as HR.
  assert (allocated (set_memory (clients i (memory (waiting_server r))) (waiting_server r))) as Hal'.
  { destruct Hal as [A1 A2 A3 A4 A5]. split; cbn [set_memory hash_mapped hash_buffer hash_buf_size hash_reserve_buffer memory];
      try done. by apply Hclients. }
  destruct (start_round_fresh (uninit (S i)) (connected (S i)) _ Hal') as (r1 & Er & Hs & Hal1 & Hf).
  assert (good_round (S i) r1) as Hg1 by done.
  destruct (rounds_asked input) as [[|k]|].
  - destruct HR as [rest ->]. rewrite bind_value. exists [r]. split; [done|]. split; [done|].
    intros [|j] r' Hj; [|done]. injection Hj as <-. by rewrite Nat.add_0_r.
  - destruct HR as (rest & -> & Hrest & Hlen). rewrite !bind_value, Er, bind_value.
    specialize (IH (S i) r1 rest Hg1 Hal1 ltac:(lia)). rewrite Hrest in IH.
    destruct IH as (rs & -> & Hl & Hall). rewrite bind_value. exists (r :: rs). split; [done|]. split; [cbn; by rewrite Hl|].
    intros [|j] r' Hj; [injection Hj as <-; by rewrite Nat.add_0_r|]. rewrite Nat.add_succ_r. by apply Hall.
  - destruct HR as [->|(rest & -> & Hrest & Hlen)]; [done|]. rewrite bind_value, Er, bind_value.
    specialize (IH (S i) r1 rest Hg1 Hal1 ltac:(lia)). rewrite Hrest in IH. by rewrite IH.
Qed.

Lemma main_good input :
  match rounds_asked input with
  | Some k => exists rs, main cfg os uninit connected clients input = Ok rs /\
      length rs = S k /\ forall i r, rs !! i = Some r -> good_round i r
  | None => main cfg os uninit connected clients input = Fault
  end.
Proof using Hnode Hclients.
  unfold main. destruct (tn_ids _ _ _ Hnode) as [-> Hnum].
  rewrite (proj2 (Z.ltb_lt 0 _)) by done. cbn [Z.leb Z.compare andb assert_]. rewrite bind_value.
  destruct (AllocMem_allocated (u64 (2 ^ 30 * cfg_log_buf_size_GB cfg))) as (s & Es & Hal).
  change (2 ^ 30 * cfg_mem_size_GB cfg) with size. rewrite Es, bind_value.
  destruct (start_round_fresh (uninit 0%nat) (connected 0%nat) s Hal) as (r & -> & Hs & Hal' & Hf). rewrite bind_value.
  unfold InitRDMA. destruct (tn_register _ _ _ Hnode) as [-> ->]. cbn [assert_]. rewrite !bind_value.
  apply (run_rounds_good (S (length input)) 0 r input); [done|done|lia].
Qed.
End Rounds.

(** ** Properties *)

(** C8. The memory node that owns the table runs as many rounds as the operator asks
    for, one more than the letters c before the first q. In every round it sends the
    same message to every compute node whose connection succeeds, and waits with a
    table that has just been loaded at the same place: nothing that the clients wrote
    in the round before is left. When the input ends without a q, [Run] reads a character
    without a value. *)
Theorem every_round_starts_afresh (cfg : memory_node_config) (os : os_answers) (hb : Z)
    (uninit : nat -> Z -> list Z) (connected : nat -> nat -> bool) (clients : nat -> heap -> heap)
    (input : list Ascii.ascii) :
  table_node cfg os hb -> (forall i h, in_bounds cfg hb h -> in_bounds cfg hb (clients i h)) ->
  match rounds_asked input with
  | Some k => exists rs, main cfg os uninit connected clients input = Ok rs /\ length rs = S k /\
      forall i r, rs !! i = Some r ->
        sent r = messages cfg hb (connected i) /\ freshly_loaded cfg hb (uninit i) (waiting_server r)
  | None => main cfg os uninit connected clients input = Fault
  end.
Proof. intros Hnode Hclients. by apply main_good. Qed.

(** A node with 1 GB, two buckets and eight keys, whose clients remove everything. *)
Definition sample_config : memory_node_config := MkMemoryNodeConfig 2 0 0 "MICRO" 1 0 2 5 2.

Definition sample_os : os_answers := MkAnswers None (Some 4096) (Some 64) true true.

Lemma every_round_starts_afresh_witness :
  exists rs, main sample_config sample_os (fun _ _ => []) (fun _ _ => true) (fun _ _ => ∅)
      (map Ascii.ascii_of_nat [10; 99; 10; 99; 113; 99]%nat) = Ok rs /\ length rs = 3%nat /\
    forall i r, rs !! i = Some r ->
      sent r = messages sample_config 4096 (fun _ => true) /\ freshly_loaded sample_config 4096 (fun _ => []) (waiting_server r).
Proof.
  apply (every_round_starts_afresh sample_config sample_os 4096 (fun _ _ => []) (fun _ _ => true) (fun _ _ => ∅)
    (map Ascii.ascii_of_nat [10; 99; 10; 99; 113; 99]%nat)).
  - split; first [by exists 64|vm_compute; intuition congruence].
  - intros i h _ a Ha. by apply elem_of_empty in Ha.
Defined.

(** [assert(hash_buffer)] does not notice that the mapping of the file failed, since
    [mmap] reports that by the address -1; clearing the region is the first access. *)
Lemma failed_mapping_unnoticed size log os :
  os_mmap os = None -> os_malloc_log os = Some log -> log <> 0 -> 0 <= size <= 2 ^ 51 -> (4 | size) ->
  exists s, AllocMem os (new_Server size 0 1) = Ok s /\ InitMem s = Fault.
Proof.
  intros Hm Hl Hl0 Hs Hd. unfold AllocMem, new_Server. cbn [use_pm hash_buf_size Server.log_buf_size micro_server memory].
  rewrite Hm, Hl, (reserve_start_exact size) by done. change (default 0 (Some log)) with log.
  rewrite (proj2 (Z.eqb_neq log 0)) by done. eexists. split; [reflexivity|]. done.
Qed.
