(* ===== verification/Verbs.v ===== *)
(** The data of the verbs interface that the components exchange with the network
    card: work requests with their union of operation parameters, scatter
    elements, completions; and the card as a type class, with the laws of reliable
    connections that the scheduler relies on. *)
From S2P Require Import Prelude Words.

(** ** Work requests *)

Inductive ibv_wr_opcode :=
| IBV_WR_RDMA_WRITE
| IBV_WR_SEND
| IBV_WR_RDMA_READ
| IBV_WR_ATOMIC_CMP_AND_SWP.

#[export] Instance ibv_wr_opcode_eq_dec : EqDecision ibv_wr_opcode.
Proof. solve_decision. Defined.

Definition IBV_SEND_SIGNALED : Z := 2.
Definition IBV_SEND_INLINE : Z := 8.

(** [union wr]: the members [rdma] ([remote_addr], [rkey]) and [atomic]
    ([remote_addr], [compare_add], [swap], [rkey]) share their memory:
    [rdma.rkey] is the low half of [atomic.compare_add]. *)
Record wr_union := MkWr { remote_addr : Z; compare_add : Z; swap : Z; atomic_rkey : Z }.

Definition rdma_rkey (u : wr_union) : Z := u32 (compare_add u).

Definition set_remote_addr (x : Z) (u : wr_union) : wr_union :=
  MkWr x (compare_add u) (swap u) (atomic_rkey u).

Definition set_rdma_rkey (k : Z) (u : wr_union) : wr_union :=
  MkWr (remote_addr u) (Z.shiftl (Z.shiftr (compare_add u) 32) 32 + u32 k) (swap u) (atomic_rkey u).

Definition set_compare_add (x : Z) (u : wr_union) : wr_union :=
  MkWr (remote_addr u) x (swap u) (atomic_rkey u).

Definition set_swap (x : Z) (u : wr_union) : wr_union :=
  MkWr (remote_addr u) (compare_add u) x (atomic_rkey u).

Definition set_atomic_rkey (k : Z) (u : wr_union) : wr_union :=
  MkWr (remote_addr u) (compare_add u) (swap u) k.

(** [struct ibv_send_wr] as an element of an array: [next] and [sg_list] are
    indices of the arrays of requests and of scatter elements. *)
Record ibv_send_wr := MkSendWr {
  wr_id : Z;
  next : option nat;
  sg_list : nat;
  num_sge : Z;
  opcode : ibv_wr_opcode;
  send_flags : Z;
  wr : wr_union;
}.

Record ibv_sge := MkSge { addr : Z; length_ : Z; lkey : Z }.

Definition is_signaled (flags : Z) : bool := negb (Z.land flags IBV_SEND_SIGNALED =? 0).

(** ** What is posted to a queue pair *)

(** [post_send] and [post_cas] post a single request; [post_batch] posts the chain
    of requests that starts at the first one of an array. *)
Inductive request :=
| PostSend (op : ibv_wr_opcode) (local_buf remote_offset size flags wr_id : Z)
| PostSendToMr (op : ibv_wr_opcode) (local_buf remote_offset size flags wr_id local_mr remote_mr : Z)
| PostCas (local_buf remote_offset compare swap flags wr_id : Z)
| PostBatch (send_sr : list ibv_send_wr).

(** The requests of a batch in the order of their [next] pointers; the chain
    visits each request at most once. *)
Fixpoint chain_from (fuel : nat) (send_sr : list ibv_send_wr) (i : nat) : list ibv_send_wr :=
  match fuel with
  | O => []
  | S fuel =>
      match send_sr !! i with
      | None => []
      | Some w => w :: match next w with Some j => chain_from fuel send_sr j | None => [] end
      end
  end.

Definition batch_chain (send_sr : list ibv_send_wr) : list ibv_send_wr :=
  chain_from (length send_sr) send_sr 0.

(** The completions that a posted request produces: one for each signaled one. *)
Definition completions_of (r : request) : list Z :=
  match r with
  | PostSend _ _ _ _ flags id | PostSendToMr _ _ _ _ flags id _ _ | PostCas _ _ _ _ flags id =>
      if is_signaled flags then [id] else []
  | PostBatch sr => map wr_id (filter (fun w => is_signaled (send_flags w) = true) (batch_chain sr))
  end.

(** ** The network card *)

Inductive ibv_wc_status := IBV_WC_SUCCESS | IBV_WC_RETRY_EXC_ERR | IBV_WC_OTHER_ERR.

#[export] Instance ibv_wc_status_eq_dec : EqDecision ibv_wc_status.
Proof. solve_decision. Defined.

Record ibv_wc := MkWc { wc_status : ibv_wc_status; wc_wr_id : Z }.

(** The queue pairs are numbered. [poll_cq] is [poll_send_completion] with its
    result 0 as [None]; [post] says whether posting succeeded; [outstanding] are
    the signaled requests (queue pair, id) that have not been reported. *)
Class Nic (E : Type) := {
  outstanding : E -> list (Z * Z);
  poll_cq : E -> Z -> option ibv_wc * E;
  post : E -> Z -> request -> bool * E;
}.

(** A card reports each signaled request once, on its own queue pair. *)
Class NicLaws (E : Type) `{Nic E} := {
  poll_none e e' qp : poll_cq e qp = (None, e') -> outstanding e' = outstanding e;
  poll_some e e' qp wc : poll_cq e qp = (Some wc, e') ->
    outstanding e ≡ₚ (qp, wc_wr_id wc) :: outstanding e';
  post_success e e' qp r : post e qp r = (true, e') ->
    outstanding e' ≡ₚ map (pair qp) (completions_of r) ++ outstanding e;
  post_failure e e' qp r : post e qp r = (false, e') -> outstanding e' = outstanding e;
}.

(** A card that reports an outstanding request as soon as it is asked. *)
Definition prompt {E} `{Nic E} : Prop :=
  forall e qp id, (qp, id) ∈ outstanding e ->
    exists wc e', poll_cq e qp = (Some wc, e') /\ wc_status wc = IBV_WC_SUCCESS.

(** An instance that satisfies the laws: the requests in the order of posting. *)
Record fifo_nic := MkFifo { fifo : list (Z * Z) }.

Fixpoint take_first (qp : Z) (l : list (Z * Z)) : option (Z * list (Z * Z)) :=
  match l with
  | [] => None
  | x :: l =>
      if fst x =? qp then Some (snd x, l)
      else match take_first qp l with Some (id, l) => Some (id, x :: l) | None => None end
  end.

#[export] Instance fifo_Nic : Nic fifo_nic := {
  outstanding e := fifo e;
  poll_cq e qp :=
    match take_first qp (fifo e) with
    | Some (id, l) => (Some (MkWc IBV_WC_SUCCESS id), MkFifo l)
    | None => (None, e)
    end;
  post e qp r := (true, MkFifo (fifo e ++ map (pair qp) (completions_of r)));
}.

Lemma take_first_Some qp l id l' :
  take_first qp l = Some (id, l') -> l ≡ₚ (qp, id) :: l'.
Proof.
  revert id l'. induction l as [|[q i] l IH]; intros id l' H; simpl in H; [done|].
  destruct (Z.eqb_spec q qp) as [->|_]; [by injection H as -> ->|].
  destruct (take_first qp l) as [[id1 l1]|]; [|done]. injection H as -> <-.
  rewrite (IH _ _ eq_refl). apply Permutation_swap.
Qed.

Lemma take_first_elem qp id l : (qp, id) ∈ l -> exists id' l', take_first qp l = Some (id', l').
Proof.
  induction l as [|[q i] l IH]; intros Hin; simpl; [by apply not_elem_of_nil in Hin|].
  destruct (Z.eqb_spec q qp) as [->|Hne]; [eauto|].
  apply elem_of_cons in Hin as [[= -> _]|Hin]; [done|].
  destruct (IH Hin) as (id' & l' & ->). eauto.
Qed.

#[export] Instance fifo_NicLaws : NicLaws fifo_nic.
Proof.
  split.
  - intros e e' qp. cbn. destruct (take_first qp (fifo e)) as [[id l]|]; [done|]. by intros [= <-].
  - intros e e' qp wc. cbn. destruct (take_first qp (fifo e)) as [[id l]|] eqn:E; [|done].
    intros [= <- <-]. by apply take_first_Some.
  - intros e e' qp r [= <-]. cbn. by rewrite Permutation_app_comm.
  - intros e e' qp r [=].
Qed.

Lemma fifo_prompt : prompt (E := fifo_nic).
Proof.
  intros e qp id Hin. destruct (take_first_elem qp id (fifo e) Hin) as (id' & l' & E).
  eexists _, _. cbn. by rewrite E.
Qed.
