(* ===== verification/Scheduler.v ===== *)
(** The coroutine scheduler of core/scheduler: the ring of runnable coroutines, the
    pending queue pairs and their counts, and the operations that post requests. *)
From S2P Require Import Prelude Words Outcome Verbs.

(** ** Arrays with indices in [Z]; an index outside is a bad access. *)

Definition get {A} (a : list A) (i : Z) : option A := if 0 <=? i then a !! Z.to_nat i else None.
Definition set {A} (a : list A) (i : Z) (x : A) : list A := <[Z.to_nat i := x]> a.

Definition modify {A} (a : list A) (i : Z) (f : A -> A) : outcome (list A) :=
  x ← deref (get a i);
  Ok (set a i (f x)).

(** ** Data *)

(** A [Coroutine*] is an index of [coro_array]. The coroutine's function is the
    code that runs; it is not part of the state. *)
Record Coroutine := MkCoroutine {
  is_wait_poll : bool;
  coro_id : Z;
  prev_coro : Z;
  next_coro : Z;
}.

Definition set_wait (b : bool) (c : Coroutine) : Coroutine :=
  MkCoroutine b (coro_id c) (prev_coro c) (next_coro c).
Definition set_id (i : Z) (c : Coroutine) : Coroutine :=
  MkCoroutine (is_wait_poll c) i (prev_coro c) (next_coro c).
Definition set_prev (p : Z) (c : Coroutine) : Coroutine :=
  MkCoroutine (is_wait_poll c) (coro_id c) p (next_coro c).
Definition set_next (n : Z) (c : Coroutine) : Coroutine :=
  MkCoroutine (is_wait_poll c) (coro_id c) (prev_coro c) n.

Record CoroutineScheduler := MkScheduler {
  coro_array : list Coroutine;
  coro_head : Z;
  coro_tail : Z;
  pending_qps : list Z;
  pending_counts : list Z;
  pending_log_qps : list Z;
  pending_log_counts : list Z;
}.

Definition set_array (a : list Coroutine) (s : CoroutineScheduler) : CoroutineScheduler :=
  MkScheduler a (coro_head s) (coro_tail s) (pending_qps s) (pending_counts s)
    (pending_log_qps s) (pending_log_counts s).
Definition set_tail (t : Z) (s : CoroutineScheduler) : CoroutineScheduler :=
  MkScheduler (coro_array s) (coro_head s) t (pending_qps s) (pending_counts s)
    (pending_log_qps s) (pending_log_counts s).
Definition set_pending (qps counts : list Z) (s : CoroutineScheduler) : CoroutineScheduler :=
  MkScheduler (coro_array s) (coro_head s) (coro_tail s) qps counts
    (pending_log_qps s) (pending_log_counts s).
Definition set_log_pending (qps counts : list Z) (s : CoroutineScheduler) : CoroutineScheduler :=
  MkScheduler (coro_array s) (coro_head s) (coro_tail s) (pending_qps s) (pending_counts s) qps counts.

(** The constructor; -1 stands for the pointers that it leaves uninitialised. *)
Definition new_CoroutineScheduler (coro_num : nat) : CoroutineScheduler :=
  MkScheduler (replicate coro_num (MkCoroutine false (-1) (-1) (-1))) (-1) (-1)
    [] (replicate coro_num 0) [] (replicate coro_num 0).

(** The loop of run_thread (compute_pool/worker/worker.cc) that numbers them. *)
Definition init_coro_ids (s : CoroutineScheduler) : CoroutineScheduler :=
  set_array (imap (fun i c => set_id (Z.of_nat i) c) (coro_array s)) s.

(** ** The ring of coroutines *)

Definition LoopLinkCoroutine (coro_num : Z) (s : CoroutineScheduler) : outcome CoroutineScheduler :=
  let a := imap (fun i c => if Z.of_nat i <? coro_num
                            then set_next (Z.of_nat i + 1) (set_prev (Z.of_nat i - 1) c) else c)
             (coro_array s) in
  let coro_head := 0 in
  let coro_tail := coro_num - 1 in
  a ← modify a 0 (set_prev coro_tail);
  a ← modify a (coro_num - 1) (set_next coro_head);
  Ok (MkScheduler a coro_head coro_tail (pending_qps s) (pending_counts s)
        (pending_log_qps s) (pending_log_counts s)).

(** [RunCoroutine]: the caller switches to the coroutine [coro]. *)
Definition RunCoroutine (coro : Z) (s : CoroutineScheduler) : outcome (CoroutineScheduler * Z) :=
  a ← modify (coro_array s) coro (set_wait false);
  Ok (set_array a s, coro).

Definition AppendCoroutine (coro : Z) (s : CoroutineScheduler) : outcome CoroutineScheduler :=
  c ← deref (get (coro_array s) coro);
  if negb (is_wait_poll c) then Ok s
  else
    let prev := coro_tail s in
    a ← modify (coro_array s) prev (set_next coro);
    a ← modify a coro (set_next (coro_head s));
    a ← modify a coro (set_prev prev);
    Ok (set_tail coro (set_array a s)).

(** [Yield]: [None] if it returns to the caller, else the coroutine that runs. *)
Definition Yield (cid : Z) (s : CoroutineScheduler) : outcome (CoroutineScheduler * option Z) :=
  count ← deref (get (pending_counts s) cid);
  if count =? 0 then Ok (s, None)
  else
    coro ← deref (get (coro_array s) cid);
    _ ← assert_ (Bool.eqb (is_wait_poll coro) false);
    let next := next_coro coro in
    a ← modify (coro_array s) (prev_coro coro) (set_next next);
    a ← modify a next (set_prev (prev_coro coro));
    let tail := if coro_tail s =? cid then prev_coro coro else coro_tail s in
    a ← modify a cid (set_wait true);
    r ← RunCoroutine next (set_tail tail (set_array a s));
    Ok (fst r, Some (snd r)).

(** ** Requests *)

Definition AddPendingQP (coro_id qp : Z) (s : CoroutineScheduler) : outcome CoroutineScheduler :=
  counts ← modify (pending_counts s) coro_id (Z.add 1);
  Ok (set_pending (pending_qps s ++ [qp]) counts s).

Definition AddPendingLogQP (coro_id qp : Z) (s : CoroutineScheduler) : outcome CoroutineScheduler :=
  counts ← modify (pending_log_counts s) coro_id (Z.add 1);
  Ok (set_log_pending (pending_log_qps s ++ [qp]) counts s).

Definition set_wr_id (id : Z) (w : ibv_send_wr) : ibv_send_wr :=
  MkSendWr id (next w) (sg_list w) (num_sge w) (opcode w) (send_flags w) (wr w).

Section Requests.
Context {E : Type} `{Nic E}.

(** The common shape of the posting operations: post, and count the queue pair as
    pending if that succeeds. *)
Definition post_and_count (coro_id qp : Z) (r : request) (s : CoroutineScheduler) (e : E)
    : outcome (bool * CoroutineScheduler * E) :=
  let '(rc, e) := post e qp r in
  if negb rc then Ok (false, s, e)
  else s ← AddPendingQP coro_id qp s; Ok (true, s, e).

Definition RDMABatch (coro_id qp : Z) (send_sr : list ibv_send_wr) (doorbell_num : Z)
    (s : CoroutineScheduler) (e : E) : outcome (bool * CoroutineScheduler * E) :=
  send_sr ← modify send_sr doorbell_num (set_wr_id coro_id);
  post_and_count coro_id qp (PostBatch send_sr) s e.

Definition RDMAWrite (coro_id qp wt_data remote_offset size : Z) :=
  post_and_count coro_id qp
    (PostSend IBV_WR_RDMA_WRITE wt_data remote_offset size IBV_SEND_SIGNALED coro_id).

(** The overload with explicit memory regions. *)
Definition RDMAWrite_mr (coro_id qp wt_data remote_offset size local_mr remote_mr : Z) :=
  post_and_count coro_id qp
    (PostSendToMr IBV_WR_RDMA_WRITE wt_data remote_offset size IBV_SEND_SIGNALED coro_id
       local_mr remote_mr).

Definition RDMARead (coro_id qp rd_data remote_offset size : Z) :=
  post_and_count coro_id qp
    (PostSend IBV_WR_RDMA_READ rd_data remote_offset size IBV_SEND_SIGNALED coro_id).

Definition RDMASend (coro_id qp rd_data remote_offset size : Z) :=
  post_and_count coro_id qp
    (PostSend IBV_WR_SEND rd_data remote_offset size IBV_SEND_SIGNALED coro_id).

Definition RDMARPC (coro_id qp rd_data result remote_offset size : Z) :=
  post_and_count coro_id qp
    (PostSend IBV_WR_SEND rd_data remote_offset size IBV_SEND_SIGNALED coro_id).

Definition RDMACAS (coro_id qp local_buf remote_offset compare swap : Z) :=
  post_and_count coro_id qp
    (PostCas local_buf remote_offset compare swap IBV_SEND_SIGNALED coro_id).

(** The read without a completion. *)
Definition RDMAReadInv (coro_id qp rd_data remote_offset size : Z) (s : CoroutineScheduler) (e : E)
    : outcome (bool * CoroutineScheduler * E) :=
  let '(rc, e) := post e qp (PostSend IBV_WR_RDMA_READ rd_data remote_offset size 0 0) in
  Ok (rc, s, e).

(** A failure to post a log entry is fatal. *)
Definition RDMALog (coro_id tx_id qp wt_data remote_offset size : Z) (s : CoroutineScheduler) (e : E)
    : outcome (bool * CoroutineScheduler * E) :=
  let '(rc, e) := post e qp
    (PostSend IBV_WR_RDMA_WRITE wt_data remote_offset size IBV_SEND_SIGNALED coro_id) in
  if negb rc then Exit
  else s ← AddPendingLogQP coro_id qp s; Ok (true, s, e).

(** [poll_till_completion] without timeout: it polls until a completion arrives. *)
Fixpoint poll_till_completion (fuel : nat) (qp : Z) (e : E) : outcome (ibv_wc * E) :=
  match fuel with
  | O => OutOfFuel
  | S fuel =>
      match poll_cq e qp with
      | (Some wc, e) => Ok (wc, e)
      | (None, e) => poll_till_completion fuel qp e
      end
  end.

Definition RDMABatchSync (fuel : nat) (coro_id qp : Z) (send_sr : list ibv_send_wr) (doorbell_num : Z)
    (s : CoroutineScheduler) (e : E) : outcome (bool * CoroutineScheduler * E) :=
  send_sr ← modify send_sr doorbell_num (set_wr_id coro_id);
  let '(rc, e) := post e qp (PostBatch send_sr) in
  if negb rc then Ok (false, s, e)
  else
    r ← poll_till_completion fuel qp e;
    Ok (bool_decide (wc_status (fst r) = IBV_WC_SUCCESS), s, snd r).

Definition RDMAReadSync (fuel : nat) (coro_id qp rd_data remote_offset size : Z)
    (s : CoroutineScheduler) (e : E) : outcome (bool * CoroutineScheduler * E) :=
  let '(rc, e) := post e qp
    (PostSend IBV_WR_RDMA_READ rd_data remote_offset size IBV_SEND_SIGNALED coro_id) in
  if negb rc then Ok (false, s, e)
  else
    r ← poll_till_completion fuel qp e;
    Ok (bool_decide (wc_status (fst r) = IBV_WC_SUCCESS), s, snd r).

(** ** Polling *)

(** The loop of PollRegularCompletion: [before] are the queue pairs that the
    iterator has passed, [rest] those from the iterator on. *)
Fixpoint PollRegular_loop (fuel : nat) (before rest : list Z) (s : CoroutineScheduler) (e : E)
    : outcome (CoroutineScheduler * E) :=
  match fuel with
  | O => OutOfFuel
  | S fuel =>
      match rest with
      | [] => Ok (set_pending before (pending_counts s) s, e)
      | qp :: rest' =>
          match poll_cq e qp with
          | (None, e) => PollRegular_loop fuel (before ++ [qp]) rest' s e
          | (Some wc, e) =>
              match wc_status wc with
              | IBV_WC_OTHER_ERR => Exit
              | IBV_WC_RETRY_EXC_ERR => PollRegular_loop fuel (before ++ [qp]) rest' s e
              | IBV_WC_SUCCESS =>
                  let coro_id := wc_wr_id wc in
                  if coro_id =? 0 then PollRegular_loop fuel before rest s e
                  else
                    count ← deref (get (pending_counts s) coro_id);
                    _ ← assert_ (0 <? count);
                    let s := set_pending (pending_qps s) (set (pending_counts s) coro_id (count - 1)) s in
                    s ← (if count - 1 =? 0 then AppendCoroutine coro_id s else Ok s);
                    PollRegular_loop fuel before rest' s e
              end
          end
      end
  end.

Definition PollRegularCompletion (fuel : nat) (s : CoroutineScheduler) (e : E)
    : outcome (CoroutineScheduler * E) :=
  PollRegular_loop fuel [] (pending_qps s) s e.

Definition PollCompletion (fuel : nat) (s : CoroutineScheduler) (e : E) := PollRegularCompletion fuel s e.

Fixpoint PollLog_loop (fuel : nat) (before rest : list Z) (s : CoroutineScheduler) (e : E)
    : outcome (CoroutineScheduler * E) :=
  match fuel with
  | O => OutOfFuel
  | S fuel =>
      match rest with
      | [] => Ok (set_log_pending before (pending_log_counts s) s, e)
      | qp :: rest' =>
          match poll_cq e qp with
          | (None, e) => PollLog_loop fuel (before ++ [qp]) rest' s e
          | (Some wc, e) =>
              match wc_status wc with
              | IBV_WC_OTHER_ERR => Exit
              | IBV_WC_RETRY_EXC_ERR => PollLog_loop fuel (before ++ [qp]) rest' s e
              | IBV_WC_SUCCESS =>
                  let coro_id := wc_wr_id wc in
                  if coro_id =? 0 then PollLog_loop fuel before rest s e
                  else
                    count ← deref (get (pending_log_counts s) coro_id);
                    _ ← assert_ (0 <? count);
                    let s := set_log_pending (pending_log_qps s)
                               (set (pending_log_counts s) coro_id (count - 1)) s in
                    PollLog_loop fuel before rest' s e
              end
          end
      end
  end.

Definition PollLogCompletion (fuel : nat) (s : CoroutineScheduler) (e : E) :=
  PollLog_loop fuel [] (pending_log_qps s) s e.

Definition CheckLogAck (fuel : nat) (c_id : Z) (s : CoroutineScheduler) (e : E)
    : outcome (bool * CoroutineScheduler * E) :=
  count ← deref (get (pending_log_counts s) c_id);
  if count =? 0 then Ok (true, s, e)
  else
    r ← PollLogCompletion fuel s e;
    count ← deref (get (pending_log_counts (fst r)) c_id);
    Ok (count =? 0, fst r, snd r).

(** One round of the polling coroutine (PollCompletion of worker.cc): the
    coroutine that it switches to, if any. *)
Definition poll_round (fuel : nat) (s : CoroutineScheduler) (e : E)
    : outcome (CoroutineScheduler * E * option Z) :=
  r ← PollCompletion fuel s e;
  let '(s, e) := r in
  head ← deref (get (coro_array s) (coro_head s));
  next ← deref (get (coro_array s) (next_coro head));
  if negb (coro_id next =? 0) then
    r ← RunCoroutine (next_coro head) s;
    Ok (fst r, e, Some (snd r))
  else Ok (s, e, None).
End Requests.
