(* ===== verification/SchedulerFacts.v ===== *)
(** The ring of runnable coroutines as a doubly linked list in the array, and its
    changes by Yield, AppendCoroutine and RunCoroutine. *)
From S2P Require Import Prelude Words Outcome Verbs Scheduler.

(** ** Arrays *)

Section Arrays.
Context {A : Type}.
Implicit Types (a : list A) (i j : Z).

Lemma get_bounds a i x : get a i = Some x -> 0 <= i < Z.of_nat (length a).
Proof.
  unfold get. destruct (Z.leb_spec 0 i); [|done]. intros Hl%lookup_lt_Some. lia.
Qed.

Lemma get_is_Some a i : 0 <= i < Z.of_nat (length a) -> exists x, get a i = Some x.
Proof.
  intros Hi. unfold get. test (0 <=? i) is true. apply lookup_lt_is_Some_2. lia.
Qed.

Lemma get_set a i j x y :
  get a i = Some y -> get (set a i x) j = if decide (j = i) then Some x else get a j.
Proof.
  intros H. pose proof (get_bounds _ _ _ H) as Hi. unfold get, set in *.
  destruct (decide (j = i)) as [->|Hne].
  - test (0 <=? i) is true. apply list_lookup_insert_eq. lia.
  - destruct (Z.leb_spec 0 j); [|done]. apply list_lookup_insert_ne. lia.
Qed.

Lemma length_set a i x : length (set a i x) = length a.
Proof. apply length_insert. Qed.

Lemma modify_spec a i f x : get a i = Some x -> modify a i f = Ok (set a i (f x)).
Proof. intros H. unfold modify. by rewrite H. Qed.
End Arrays.

(** ** Views of the coroutine array *)

Definition nx (a : list Coroutine) (i : Z) : option Z := next_coro <$> get a i.
Definition pv (a : list Coroutine) (i : Z) : option Z := prev_coro <$> get a i.
Definition wt (a : list Coroutine) (i : Z) : option bool := is_wait_poll <$> get a i.
Definition ci (a : list Coroutine) (i : Z) : option Z := coro_id <$> get a i.

(** What a write to one coroutine does to the views. *)
Lemma write_views a i f c :
  get a i = Some c ->
  modify a i f = Ok (set a i (f c)) /\ length (set a i (f c)) = length a /\
  forall j,
    nx (set a i (f c)) j = (if decide (j = i) then Some (next_coro (f c)) else nx a j) /\
    pv (set a i (f c)) j = (if decide (j = i) then Some (prev_coro (f c)) else pv a j) /\
    wt (set a i (f c)) j = (if decide (j = i) then Some (is_wait_poll (f c)) else wt a j) /\
    ci (set a i (f c)) j = (if decide (j = i) then Some (coro_id (f c)) else ci a j).
Proof.
  intros H. split; [by apply modify_spec|]. split; [apply length_set|].
  intros j. unfold nx, pv, wt, ci. rewrite !(get_set a i j (f c) c H). by case_decide.
Qed.

(** ** The linked list *)

(** From [x] the [next_coro] pointers visit [l] and return to the head, coroutine
    0; the [prev_coro] pointers of [l] lead back. *)
Fixpoint dl (a : list Coroutine) (x : Z) (l : list Z) : Prop :=
  match l with
  | [] => nx a x = Some 0
  | y :: l => nx a x = Some y /\ pv a y = Some x /\ dl a y l
  end.

Lemma dl_ext a a' x l :
  nx a' x = nx a x -> (forall y, y ∈ l -> nx a' y = nx a y /\ pv a' y = pv a y) ->
  dl a x l -> dl a' x l.
Proof.
  revert x. induction l as [|y l IH]; intros x Hx Hl; cbn [dl]; [by rewrite Hx|].
  intros (H1 & H2 & H3). destruct (Hl y) as [Hn Hp]; [constructor|].
  split; [by rewrite Hx|]. split; [by rewrite Hp|].
  apply IH; [done| |done]. intros z Hz. apply Hl. by constructor.
Qed.

Definition last_of (x : Z) (l : list Z) : Z := List.last l x.

Lemma last_of_cons x y l : last_of x (y :: l) = last_of y l.
Proof.
  unfold last_of. revert x y. induction l as [|z l IH]; intros x y; [done|].
  change (List.last (y :: z :: l) x) with (List.last (z :: l) x). by rewrite !IH.
Qed.

Lemma last_of_snoc x l y : last_of x (l ++ [y]) = y.
Proof. unfold last_of. apply last_last. Qed.

Lemma last_of_app_cons x l1 y l2 : last_of x (l1 ++ y :: l2) = last_of y l2.
Proof.
  revert x. induction l1 as [|z l1 IH]; intros x; cbn [app]; rewrite last_of_cons; [done|apply IH].
Qed.

Lemma last_of_elem x l : last_of x l = x \/ last_of x l ∈ l.
Proof.
  revert x. induction l as [|y l IH]; intros x; [by left|]. rewrite last_of_cons. right.
  destruct (IH y) as [->|H]; by constructor.
Qed.

Lemma dl_get a x l : dl a x l -> forall y, y ∈ x :: l -> exists c, get a y = Some c.
Proof.
  assert (forall y z, nx a y = Some z -> exists c, get a y = Some c) as Hnx.
  { intros y z. unfold nx. destruct (get a y); [eauto|done]. }
  revert x. induction l as [|z l IH]; intros x H y Hy; cbn [dl] in H.
  - apply elem_of_cons in Hy as [->|Hy]; [eauto|by apply not_elem_of_nil in Hy].
  - destruct H as (H1 & _ & H3). apply elem_of_cons in Hy as [->|Hy]; [eauto|]. by apply (IH z).
Qed.

(** A member's pointers. *)
Lemma dl_member a x l1 c l2 :
  dl a x (l1 ++ c :: l2) -> nx a c = Some (hd 0 l2) /\ pv a c = Some (last_of x l1).
Proof.
  revert x. induction l1 as [|y l1 IH]; intros x; cbn [app dl].
  - intros (_ & Hp & H). split; [|done]. destruct l2; cbn [dl] in H; [done|]. apply H.
  - intros (_ & _ & H). rewrite last_of_cons. by apply IH.
Qed.

(** Removing a member. *)
Lemma dl_remove a a' x l1 c l2 :
  NoDup (x :: l1 ++ c :: l2) -> 0 ∉ l1 ++ c :: l2 ->
  (forall j, nx a' j = if decide (j = last_of x l1) then Some (hd 0 l2) else nx a j) ->
  (forall j, pv a' j = if decide (j = hd 0 l2) then Some (last_of x l1) else pv a j) ->
  dl a x (l1 ++ c :: l2) -> dl a' x (l1 ++ l2).
Proof.
  revert x. induction l1 as [|y l1 IH]; intros x Hnd H0 Hn Hp; cbn [app dl] in *.
  - intros (Hx & Hc & H). unfold last_of in *. cbn [List.last] in *.
    apply NoDup_cons in Hnd as [Hx' Hnd]. apply NoDup_cons in Hnd as [Hc' Hnd].
    destruct l2 as [|y l2]; cbn [dl hd] in *.
    + by rewrite Hn, decide_True.
    + destruct H as (_ & _ & H). split; [by rewrite Hn, decide_True|].
      split; [by rewrite Hp, decide_True|]. apply NoDup_cons in Hnd as [Hy Hnd].
      eapply dl_ext; [| |exact H].
      * rewrite Hn, decide_False; [done|]. intros ->. apply Hx'. do 2 constructor.
      * intros z Hz. rewrite Hn, Hp, !decide_False; [done| |].
        -- intros ->. done.
        -- intros ->. apply Hx'. by do 2 constructor.
  - intros (Hx & Hy & H). rewrite last_of_cons in *.
    apply NoDup_cons in Hnd as [Hx' Hnd].
    assert (last_of y l1 <> x) as Hlx.
    { intros E. apply Hx'. destruct (last_of_elem y l1) as [E'|E'].
      - rewrite E' in E. subst. constructor.
      - rewrite E in E'. constructor. apply elem_of_app. by left. }
    split; [by rewrite Hn, decide_False by done|]. split.
    + rewrite Hp, decide_False; [done|]. destruct l2 as [|z l2]; cbn [hd].
      * intros ->. apply H0. constructor.
      * intros <-. apply NoDup_cons in Hnd as [Hz _]. apply Hz. apply elem_of_app. right.
        do 2 constructor.
    + apply IH; [done| |done|done|done]. intros Hin. apply H0. by constructor.
Qed.

(** Appending behind the last member. *)
Lemma dl_snoc a a' x l c :
  NoDup (x :: l) -> c ∉ x :: l ->
  (forall j, nx a' j = if decide (j = c) then Some 0 else if decide (j = last_of x l) then Some c else nx a j) ->
  (forall j, pv a' j = if decide (j = c) then Some (last_of x l) else pv a j) ->
  dl a x l -> dl a' x (l ++ [c]).
Proof.
  revert x. induction l as [|y l IH]; intros x Hnd Hc Hn Hp; cbn [app dl] in *.
  - intros Hx. unfold last_of in *. cbn [List.last] in *. apply not_elem_of_cons in Hc as [Hc _].
    split; [by rewrite Hn, decide_False, decide_True|]. split; [by rewrite Hp, decide_True|].
    by rewrite Hn, decide_True.
  - intros (Hx & Hy & H). rewrite last_of_cons in *.
    apply not_elem_of_cons in Hc as [Hcx Hc]. apply NoDup_cons in Hnd as [Hx' Hnd].
    assert (last_of y l <> x) as Hlx.
    { intros E. apply Hx'. destruct (last_of_elem y l) as [E'|E'].
      - rewrite E' in E. subst. constructor.
      - rewrite E in E'. by constructor. }
    split; [by rewrite Hn, !decide_False by done|]. split.
    + rewrite Hp, decide_False; [done|]. intros ->. apply Hc. constructor.
    + by apply IH.
Qed.

(** ** The ring *)

(** [R] are the runnable coroutines besides coroutine 0, in the order of the ring. *)
Record ring (s : CoroutineScheduler) (R : list Z) : Prop := {
  ring_head : coro_head s = 0;
  ring_tail : coro_tail s = last_of 0 R;
  ring_links : dl (coro_array s) 0 R;
  ring_NoDup : NoDup (0 :: R);
}.

(** Changes of the array that leave the pointers alone keep the ring. *)
Lemma ring_ext s s' R :
  coro_head s' = coro_head s -> coro_tail s' = coro_tail s ->
  (forall j, nx (coro_array s') j = nx (coro_array s) j /\ pv (coro_array s') j = pv (coro_array s) j) ->
  ring s R -> ring s' R.
Proof.
  intros Hh Ht Hv [H1 H2 H3 H4]. split; [congruence|congruence| |done].
  eapply dl_ext; [apply Hv| |exact H3]. intros y _. apply Hv.
Qed.

(** RunCoroutine clears one flag. *)
Lemma RunCoroutine_spec s c :
  0 <= c < Z.of_nat (length (coro_array s)) ->
  exists a, RunCoroutine c s = Ok (set_array a s, c) /\ length a = length (coro_array s) /\
    forall j, nx a j = nx (coro_array s) j /\ pv a j = pv (coro_array s) j /\
      ci a j = ci (coro_array s) j /\
      wt a j = if decide (j = c) then Some false else wt (coro_array s) j.
Proof.
  intros Hc. destruct (get_is_Some _ _ Hc) as [x Hx].
  destruct (write_views (coro_array s) c (set_wait false) x Hx) as (Hm & Hlen & Hv).
  exists (set (coro_array s) c (set_wait false x)). unfold RunCoroutine. rewrite Hm.
  split; [done|]. split; [done|]. intros j. destruct (Hv j) as (-> & -> & -> & ->).
  unfold nx, pv, ci. destruct (decide (j = c)) as [->|]; [by rewrite Hx|done].
Qed.

(** AppendCoroutine puts a waiting coroutine at the end of the ring. *)
Lemma AppendCoroutine_spec s R c :
  ring s R -> c ∉ 0 :: R -> wt (coro_array s) c = Some true ->
  exists a, AppendCoroutine c s = Ok (set_tail c (set_array a s)) /\
    length a = length (coro_array s) /\ ring (set_tail c (set_array a s)) (R ++ [c]) /\
    forall j, wt a j = wt (coro_array s) j /\ ci a j = ci (coro_array s) j.
Proof.
  intros [Hhead Htail Hlinks Hnd] Hc Hw.
  unfold wt in Hw. destruct (get (coro_array s) c) as [x|] eqn:Hx; [|done].
  injection Hw as Hw. unfold AppendCoroutine. rewrite Hx. cbn [deref mbind outcome_bind]. rewrite Hw.
  cbn [negb]. set (p := coro_tail s) in *.
  assert (p ∈ 0 :: R) as Hp.
  { rewrite Htail. destruct (last_of_elem 0 R) as [->|]; by constructor. }
  assert (p <> c) as Hpc by (intros ->; done).
  destruct (dl_get _ _ _ Hlinks p Hp) as [y Hy].
  destruct (write_views _ p (set_next c) y Hy) as (Hm1 & Hlen1 & Hv1). rewrite Hm1.
  cbn [mbind outcome_bind]. set (a1 := set (coro_array s) p (set_next c y)) in *.
  assert (get a1 c = Some x) as Hx1.
  { unfold a1. rewrite (get_set _ _ _ _ _ Hy), decide_False by (intros ->; done). done. }
  destruct (write_views a1 c (set_next (coro_head s)) x Hx1) as (Hm2 & Hlen2 & Hv2). rewrite Hm2.
  cbn [mbind outcome_bind]. set (a2 := set a1 c _) in *.
  assert (get a2 c = Some (set_next (coro_head s) x)) as Hx2.
  { unfold a2. by rewrite (get_set _ _ _ _ _ Hx1), decide_True. }
  destruct (write_views a2 c (set_prev p) _ Hx2) as (Hm3 & Hlen3 & Hv3). rewrite Hm3.
  cbn [mbind outcome_bind]. set (a3 := set a2 c _) in *.
  assert (forall j, nx a3 j = (if decide (j = c) then Some 0 else if decide (j = p) then Some c else nx (coro_array s) j)
    /\ pv a3 j = (if decide (j = c) then Some p else pv (coro_array s) j)
    /\ wt a3 j = wt (coro_array s) j /\ ci a3 j = ci (coro_array s) j) as Hv.
  { intros j. destruct (Hv3 j) as (-> & -> & -> & ->), (Hv2 j) as (-> & -> & -> & ->),
      (Hv1 j) as (-> & -> & -> & ->). cbn [next_coro prev_coro is_wait_poll coro_id set_prev set_next].
    rewrite Hhead. unfold pv, wt, ci.
    destruct (decide (j = c)) as [->|]; [rewrite Hx; cbn; by destruct x|].
    destruct (decide (j = p)) as [->|]; [|done]. rewrite Hy. by destruct y. }
  exists a3. split; [done|]. split; [by rewrite Hlen3, Hlen2, Hlen1|]. split.
  - split; cbn [set_tail set_array coro_head coro_tail coro_array].
    + done.
    + by rewrite last_of_snoc.
    + eapply (dl_snoc (coro_array s)); [done|done| | |done].
      * intros j. rewrite <- Htail. apply Hv.
      * intros j. rewrite <- Htail. apply Hv.
    + rewrite app_comm_cons. apply NoDup_app. split; [done|]. split; [|apply NoDup_singleton].
      intros z Hz ->%list_elem_of_singleton. done.
  - intros j. split; apply Hv.
Qed.

(** The neighbours of a member of the ring are other coroutines. *)
Lemma neighbours l1 c l2 :
  NoDup (0 :: l1 ++ c :: l2) ->
  let p := last_of 0 l1 in
  let n := hd 0 l2 in
  p ∈ 0 :: l1 ++ c :: l2 /\ n ∈ 0 :: l1 ++ c :: l2 /\ p <> c /\ n <> c.
Proof.
  intros Hnd p n. pose proof (NoDup_cons_1_1 _ _ Hnd) as H0. pose proof (NoDup_cons_1_2 _ _ Hnd) as HndR.
  assert (c ∈ l1 ++ c :: l2) as Hc by (apply elem_of_app; right; constructor).
  apply NoDup_app in HndR as (_ & Hd & Hnd2). apply NoDup_cons in Hnd2 as [Hc2 _].
  assert (p = 0 \/ p ∈ l1) as Hp by apply last_of_elem.
  assert (n = 0 \/ n ∈ l2) as Hn by (unfold n; destruct l2; [by left|right; constructor]).
  split; [|split; [|split]].
  - destruct Hp as [->|Hp]; constructor; [by apply elem_of_app; left].
  - destruct Hn as [->|Hn]; constructor. apply elem_of_app. right. by constructor.
  - intros E. rewrite E in Hp. destruct Hp as [->|Hp]; [done|]. apply (Hd c Hp). constructor.
  - intros E. rewrite E in Hn. destruct Hn as [->|Hn]; done.
Qed.

(** Taking a member out leaves a ring without duplicates. *)
Lemma NoDup_remove_member (l1 l2 : list Z) c : NoDup (0 :: l1 ++ c :: l2) -> NoDup (0 :: l1 ++ l2).
Proof.
  intros [H0 HndR]%NoDup_cons. apply NoDup_app in HndR as (Ha & Hb & Hc). apply NoDup_cons in Hc as [_ Hc].
  apply NoDup_cons. split.
  - intros Hin. apply H0. apply elem_of_app in Hin as [|]; apply elem_of_app; [by left|right]. by constructor.
  - apply NoDup_app. split; [done|]. split; [|done]. intros u Hu Hu2. apply (Hb u Hu). by constructor.
Qed.

(** The tail after a member was taken out. *)
Lemma tail_remove (l1 l2 : list Z) c :
  NoDup (l1 ++ c :: l2) ->
  (if last_of 0 (l1 ++ c :: l2) =? c then last_of 0 l1 else last_of 0 (l1 ++ c :: l2)) = last_of 0 (l1 ++ l2).
Proof.
  intros HndR. destruct l2 as [|w l2].
  { by rewrite last_of_snoc, Z.eqb_refl, app_nil_r. }
  assert (last_of 0 (l1 ++ c :: w :: l2) = last_of 0 (l1 ++ w :: l2)) as ->.
  { by rewrite !last_of_app_cons, last_of_cons. }
  rewrite (proj2 (Z.eqb_neq _ _)); [done|]. intros E.
  assert (last_of 0 (l1 ++ w :: l2) ∈ w :: l2) as Hl.
  { rewrite last_of_app_cons. destruct (last_of_elem w l2) as [->|]; by constructor. }
  rewrite E in Hl. apply NoDup_app in HndR as (_ & _ & Hd). by apply NoDup_cons in Hd as [Hd _].
Qed.

(** Linking the coroutines [p] and [n] to each other. *)
Lemma link_views a p n y z :
  get a p = Some y -> get a n = Some z ->
  exists a1 a2, modify a p (set_next n) = Ok a1 /\ modify a1 n (set_prev p) = Ok a2 /\
    length a2 = length a /\
    forall j, nx a2 j = (if decide (j = p) then Some n else nx a j) /\
      pv a2 j = (if decide (j = n) then Some p else pv a j) /\ ci a2 j = ci a j /\ wt a2 j = wt a j.
Proof.
  intros Hy Hz. destruct (write_views a p (set_next n) y Hy) as (Hm1 & Hlen1 & Hv1).
  set (a1 := set a p _) in *.
  destruct (get_is_Some a1 n) as [z1 Hz1]; [rewrite Hlen1; by eapply get_bounds|].
  destruct (write_views a1 n (set_prev p) z1 Hz1) as (Hm2 & Hlen2 & Hv2).
  exists a1, (set a1 n (set_prev p z1)). split; [done|]. split; [done|]. split; [by rewrite Hlen2, Hlen1|].
  intros j. destruct (Hv2 j) as (-> & -> & -> & ->). pose proof (Hv1 n) as Hv1n.
  destruct (Hv1 j) as (-> & -> & -> & ->).
  unfold nx, pv, ci, wt in *. rewrite Hz1, Hz in Hv1n. cbn [fmap option_fmap option_map] in Hv1n.
  destruct Hv1n as (E1 & E2 & E3 & E4). destruct (decide (j = n)) as [->|Hjn].
  - rewrite Hz. cbn [fmap option_fmap option_map set_prev next_coro prev_coro is_wait_poll coro_id].
    revert E1 E2 E3 E4. destruct (decide (n = p)) as [Enp|Enp]; intros E1 E2 E3 E4.
    + assert (y = z) as -> by (rewrite Enp in Hz; congruence).
      split; [exact E1|]. split; [done|]. split; [exact E4|exact E3].
    + split; [exact E1|]. split; [done|]. split; [exact E4|exact E3].
  - destruct (decide (j = p)) as [->|]; [|done]. rewrite Hy. by destruct y.
Qed.

(** Setting the flag of a coroutine. *)
Lemma wait_views a c :
  0 <= c < Z.of_nat (length a) ->
  exists a', modify a c (set_wait true) = Ok a' /\ length a' = length a /\
    forall j, nx a' j = nx a j /\ pv a' j = pv a j /\ ci a' j = ci a j /\
      wt a' j = if decide (j = c) then Some true else wt a j.
Proof.
  intros Hc. destruct (get_is_Some _ _ Hc) as [x Hx].
  destruct (write_views a c (set_wait true) x Hx) as (Hm & Hlen & Hv). exists (set a c (set_wait true x)).
  split; [done|]. split; [done|]. intros j. destruct (Hv j) as (-> & -> & -> & ->).
  unfold nx, pv, ci. destruct (decide (j = c)) as [->|]; [by rewrite Hx|done].
Qed.

(** Yield takes the running coroutine out of the ring and runs its successor. *)
Lemma Yield_spec s R cid count :
  ring s R -> cid ∈ R -> get (pending_counts s) cid = Some count -> count <> 0 ->
  wt (coro_array s) cid = Some false ->
  exists l1 l2 tail a,
    R = l1 ++ cid :: l2 /\
    Yield cid s = Ok (set_tail tail (set_array a s), Some (hd 0 l2)) /\
    length a = length (coro_array s) /\ ring (set_tail tail (set_array a s)) (l1 ++ l2) /\
    forall j, ci a j = ci (coro_array s) j /\
      wt a j = (if decide (j = hd 0 l2) then Some false
                else if decide (j = cid) then Some true else wt (coro_array s) j).
Proof.
  intros [Hhead Htail Hlinks Hnd] Hin Hcount H0 Hw.
  apply list_elem_of_split in Hin as (l1 & l2 & ->).
  destruct (dl_member _ _ _ _ _ Hlinks) as [Hnext Hprev]. destruct (neighbours _ _ _ Hnd) as (Hp & Hn & Hpc & Hnc).
  unfold nx, pv, wt in Hnext, Hprev, Hw.
  destruct (get (coro_array s) cid) as [x|] eqn:Hx; [|done].
  injection Hnext as Hnext. injection Hprev as Hprev. injection Hw as Hw.
  unfold Yield. rewrite Hcount. cbn [deref mbind outcome_bind]. rewrite (proj2 (Z.eqb_neq _ _) H0).
  rewrite Hx. cbn [deref mbind outcome_bind]. rewrite Hw. cbn [Bool.eqb assert_ mbind outcome_bind].
  rewrite Hnext, Hprev. set (p := last_of 0 l1) in *. set (n := hd 0 l2) in *.
  destruct (dl_get _ _ _ Hlinks p Hp) as [y Hy]. destruct (dl_get _ _ _ Hlinks n Hn) as [z Hz].
  destruct (link_views _ p n y z Hy Hz) as (a1 & a2 & -> & Hm2 & Hlen2 & Hv2).
  cbn [mbind outcome_bind]. rewrite Hm2. cbn [mbind outcome_bind].
  destruct (wait_views a2 cid) as (a3 & -> & Hlen3 & Hv3); [rewrite Hlen2; by eapply get_bounds|].
  cbn [mbind outcome_bind]. set (tail := if coro_tail s =? cid then p else coro_tail s).
  destruct (RunCoroutine_spec (set_tail tail (set_array a3 s)) n) as (a4 & Hr & Hlen4 & Hv4).
  { cbn [coro_array set_tail set_array]. rewrite Hlen3, Hlen2. by eapply get_bounds. }
  cbn [coro_array set_tail set_array] in Hlen4, Hv4. rewrite Hr. cbn [mbind outcome_bind fst snd].
  exists l1, l2, tail, a4. split; [done|]. split; [done|]. split; [by rewrite Hlen4, Hlen3, Hlen2|]. split.
  - split; cbn [set_tail set_array coro_head coro_tail coro_array].
    + done.
    + unfold tail. rewrite Htail. apply tail_remove. by apply NoDup_cons in Hnd as [_ Hnd].
    + eapply (dl_remove (coro_array s));
        [exact Hnd|by apply NoDup_cons in Hnd as [Hnd _]| | |exact Hlinks]; intros j;
        destruct (Hv4 j) as (E1 & E2 & _), (Hv3 j) as (E3 & E4 & _), (Hv2 j) as (E5 & E6 & _); first [rewrite E1, E3; exact E5|rewrite E2, E4; exact E6].
    + by eapply NoDup_remove_member.
  - intros j. destruct (Hv4 j) as (_ & _ & -> & ->), (Hv3 j) as (_ & _ & -> & ->), (Hv2 j) as (_ & _ & -> & ->). done.
Qed.
