(* ===== verification/SchedulerInvariant.v ===== *)
(** The scheduler's invariant: what the ring, the counts and the flags say about
    the requests that are not acknowledged, and that every operation keeps it. *)
From S2P Require Import Prelude Words Outcome Verbs Scheduler SchedulerFacts.

(** ** Counting completions *)

Definition of_coro (c : Z) (x : Z * Z) : Prop := snd x = c.
#[export] Instance of_coro_dec c x : Decision (of_coro c x).
Proof. unfold of_coro. apply _. Defined.

(** The number of requests in [l] whose completion names coroutine [c]. *)
Definition count_of (c : Z) (l : list (Z * Z)) : Z := Z.of_nat (length (filter (of_coro c) l)).

Lemma count_of_cons c qp id l :
  count_of c ((qp, id) :: l) = (if decide (id = c) then 1 else 0) + count_of c l.
Proof.
  unfold count_of. destruct (decide (id = c)) as [E|E].
  - rewrite filter_cons_True by exact E. cbn [length]. lia.
  - rewrite filter_cons_False by exact E. lia.
Qed.

Lemma count_of_perm c l1 l2 : l1 ≡ₚ l2 -> count_of c l1 = count_of c l2.
Proof. intros H. unfold count_of. by rewrite H. Qed.

Lemma count_of_nonneg c l : 0 <= count_of c l.
Proof. unfold count_of. lia. Qed.

Lemma count_of_elem c qp l : (qp, c) ∈ l -> 0 < count_of c l.
Proof.
  intros H. unfold count_of. assert ((qp, c) ∈ filter (of_coro c) l) as Hf by by apply list_elem_of_filter.
  destruct (filter _ l); [by apply not_elem_of_nil in Hf|]. cbn [length]. lia.
Qed.

Lemma count_of_pos c l : 0 < count_of c l -> exists qp, (qp, c) ∈ l.
Proof.
  intros Hp. unfold count_of in Hp. destruct (filter (of_coro c) l) as [|[qp i] f] eqn:Ef; [done|].
  assert ((qp, i) ∈ filter (of_coro c) l) as Hin by (rewrite Ef; constructor).
  apply list_elem_of_filter in Hin as [Hi Hin]. unfold of_coro in Hi. cbn in Hi. subst. by exists qp.
Qed.

Lemma count_of_app c l1 l2 : count_of c (l1 ++ l2) = count_of c l1 + count_of c l2.
Proof. unfold count_of. rewrite filter_app, length_app. lia. Qed.

(** ** The invariant *)

Section System.
Context {E : Type} `{NicLaws E}.
Context (n : nat) (Hn : (0 < n)%nat).

Definition is_coro (c : Z) : Prop := 0 <= c < Z.of_nat n.

(** [unacked] are the requests whose acknowledgement the scheduler still counts:
    the outstanding ones, and those that a failed completion has dropped. *)
Record wf_sched (s : CoroutineScheduler) (unacked : list (Z * Z)) (R : list Z) : Prop := {
  wf_lengths : length (coro_array s) = n /\ length (pending_counts s) = n;
  wf_ids c : is_coro c -> ci (coro_array s) c = Some c;
  wf_ring : ring s R;
  wf_members c : c ∈ R -> 0 < c < Z.of_nat n;
  wf_counts c : is_coro c -> get (pending_counts s) c = Some (count_of c unacked);
  wf_unacked x : x ∈ unacked -> 0 < snd x < Z.of_nat n;
  wf_waiting c : 0 < c < Z.of_nat n -> c ∉ R ->
    wt (coro_array s) c = Some true /\ 0 < count_of c unacked;
  wf_runnable c : c ∈ R -> wt (coro_array s) c = Some true -> count_of c unacked = 0;
  wf_poller : wt (coro_array s) 0 = Some false;
}.

(** The queue pairs that the scheduler polls are those of the unacknowledged
    requests. *)
Definition wf_state (s : CoroutineScheduler) (e : E) (lost : list (Z * Z)) (R : list Z) : Prop :=
  wf_sched s (outstanding e ++ lost) R /\ pending_qps s ≡ₚ map fst (outstanding e ++ lost).

Lemma wf_sched_perm s u u' R : u ≡ₚ u' -> wf_sched s u R -> wf_sched s u' R.
Proof.
  intros Hp [H1 H2 H3 H4 H5 H6 H7 H8 H9]. split; try done.
  - intros c Hc. rewrite <- (count_of_perm c _ _ Hp). by apply H5.
  - intros x Hx. apply H6. by rewrite Hp.
  - intros c Hc Hout. rewrite <- (count_of_perm c _ _ Hp). by apply H7.
  - intros c Hc Hw. rewrite <- (count_of_perm c _ _ Hp). by apply H8.
Qed.

#[local] Instance wf_sched_proper s : Proper ((≡ₚ) ==> (=) ==> iff) (wf_sched s).
Proof. intros u u' Hu R _ <-. split; apply wf_sched_perm; [done|by symmetry]. Qed.

(** The invariant reads the list of queue pairs nowhere. *)
Lemma wf_sched_set_pending s u R qps :
  wf_sched s u R -> wf_sched (set_pending qps (pending_counts s) s) u R.
Proof.
  intros [H1 H2 H3 H4 H5 H6 H7 H8 H9]. split; try done. by apply (ring_ext s).
Qed.

(** Running a member of the ring. *)
Lemma wf_sched_run s u R c :
  wf_sched s u R -> c = 0 \/ c ∈ R ->
  exists s', RunCoroutine c s = Ok (s', c) /\ wf_sched s' u R /\
    pending_qps s' = pending_qps s /\ wt (coro_array s') c = Some false.
Proof.
  intros [H1 H2 H3 H4 H5 H6 H7 H8 H9] Hc.
  assert (is_coro c) as Hcn by (destruct Hc as [->|Hc%H4]; unfold is_coro; lia).
  destruct (RunCoroutine_spec s c) as (a & -> & Hlen & Hv).
  { rewrite (proj1 H1). exact Hcn. }
  exists (set_array a s). split; [done|]. split; [|split; [done|]].
  - split; cbn [set_array coro_array pending_counts]; try done.
    + by rewrite Hlen.
    + intros c' Hc'. destruct (Hv c') as (_ & _ & -> & _). by apply H2.
    + apply (ring_ext s); [done|done| |done]. intros j. destruct (Hv j) as (H1' & H2' & _ & _). by split.
    + intros c' Hc' Hout. destruct (Hv c') as (_ & _ & _ & ->).
      rewrite decide_False; [by apply H7|]. intros ->. destruct Hc as [->|Hc]; [lia|done].
    + intros c' Hc' Hw. destruct (Hv c') as (_ & _ & _ & Hw'). rewrite Hw' in Hw.
      case_decide; [done|]. by apply H8.
    + destruct (Hv 0) as (_ & _ & _ & ->). by case_decide.
  - cbn [set_array coro_array]. destruct (Hv c) as (_ & _ & _ & ->). by rewrite decide_True.
Qed.

(** A coroutine that yields leaves the ring; what runs next was in it. *)
Lemma wf_sched_yield s u R c :
  wf_sched s u R -> c ∈ R -> wt (coro_array s) c = Some false ->
  (count_of c u = 0 /\ Yield c s = Ok (s, None)) \/
  (exists s' R' nxt, Yield c s = Ok (s', Some nxt) /\ wf_sched s' u R' /\ c ∉ R' /\
     pending_qps s' = pending_qps s /\ (nxt = 0 \/ nxt ∈ R') /\ wt (coro_array s') nxt = Some false /\
     (exists l1 l2, R = l1 ++ c :: l2 /\ R' = l1 ++ l2 /\ nxt = hd 0 l2)).
Proof.
  intros [H1 H2 H3 H4 H5 H6 H7 H8 H9] Hc Hw. pose proof (H4 c Hc) as Hcn.
  pose proof (H5 c ltac:(unfold is_coro; lia)) as Hcount.
  destruct (Z.eq_dec (count_of c u) 0) as [E0|E0].
  { left. split; [done|]. unfold Yield. rewrite Hcount. cbn [deref mbind outcome_bind]. by rewrite E0. }
  right. destruct (Yield_spec s R c _ H3 Hc Hcount E0 Hw) as (l1 & l2 & tail & a & -> & -> & Hlen & Hring & Hv).
  pose proof (ring_NoDup _ _ H3) as Hnd. apply NoDup_cons in Hnd as [Hr0 Hnd].
  assert (c ∉ l1 ++ l2) as Hcout.
  { apply NoDup_app in Hnd as (_ & Hd & Hnd2). apply NoDup_cons in Hnd2 as [Hc2 _].
    rewrite elem_of_app. intros [Hin|Hin]; [|done]. apply (Hd c Hin). constructor. }
  assert (hd 0 l2 = 0 \/ hd 0 l2 ∈ l1 ++ l2) as Hnxt.
  { destruct l2 as [|y l2]; [by left|right]. apply elem_of_app. right. constructor. }
  assert (forall y, y ∈ l1 ++ l2 -> y ∈ l1 ++ c :: l2) as Hsub.
  { intros y. rewrite !elem_of_app. intros [|]; [by left|right]. by constructor. }
  assert (hd 0 l2 <> c) as Hhd by (intros Ehd; rewrite Ehd in Hnxt; destruct Hnxt; [lia|done]).
  exists (set_tail tail (set_array a s)), (l1 ++ l2), (hd 0 l2). split; [done|].
  split; [|split; [done|split; [done|split; [done|split; [|by exists l1, l2]]]]].
  - split; cbn [set_array set_tail coro_array pending_counts]; try done.
    + by rewrite Hlen.
    + intros c' Hc'. destruct (Hv c') as [-> _]. by apply H2.
    + intros c' Hc'. by apply H4, Hsub.
    + intros c' Hc' Hout. destruct (Hv c') as [_ ->].
      rewrite decide_False by (intros Eh; rewrite <- Eh in Hnxt; destruct Hnxt as [Eh0|]; [lia|done]).
      destruct (decide (c' = c)) as [->|Hne].
      * pose proof (count_of_nonneg c u). split; [done|lia].
      * apply H7; [done|]. rewrite elem_of_app, elem_of_cons. rewrite elem_of_app in Hout. tauto.
    + intros c' Hc' Hw'. destruct (Hv c') as [_ Hv']. rewrite Hv' in Hw'.
      case_decide as E1; [done|]. case_decide as E2; [by subst|]. apply H8; [by apply Hsub|done].
    + destruct (Hv 0) as [_ ->]. case_decide; [done|]. by rewrite decide_False by lia.
  - cbn [set_array set_tail coro_array]. destruct (Hv (hd 0 l2)) as [_ ->]. by rewrite decide_True.
Qed.

(** A posted request with one completion for a running coroutine. *)
Lemma wf_sched_add s u R c qp :
  wf_sched s u R -> c ∈ R -> wt (coro_array s) c = Some false ->
  exists s', AddPendingQP c qp s = Ok s' /\ wf_sched s' ((qp, c) :: u) R /\
    pending_qps s' = pending_qps s ++ [qp] /\ coro_array s' = coro_array s.
Proof.
  intros [H1 H2 H3 H4 H5 H6 H7 H8 H9] Hc Hw. pose proof (H4 c Hc) as Hcn.
  assert (is_coro c) as Hcc by (unfold is_coro; lia).
  unfold AddPendingQP. rewrite (modify_spec _ _ _ _ (H5 c Hcc)). cbn [mbind outcome_bind].
  eexists. split; [done|]. split; [|by split].
  split; cbn [set_pending coro_array pending_counts]; try done.
  - by rewrite length_set.
  - by apply (ring_ext s).
  - intros c' Hc'. rewrite (get_set _ _ _ _ _ (H5 c Hcc)), count_of_cons.
    case_decide as E1; [subst; by rewrite decide_True|].
    rewrite decide_False by congruence. by rewrite Z.add_0_l, H5.
  - intros x [->|Hx]%elem_of_cons; [done|by apply H6].
  - intros c' Hc' Hout. destruct (H7 c' Hc' Hout). rewrite count_of_cons. split; [done|].
    case_decide; lia.
  - intros c' Hc' Hw'. rewrite count_of_cons. case_decide as E1; [subst; congruence|].
    rewrite H8; [lia|done|done].
Qed.

(** The state after the count of [c] has been decremented to [k]. *)
Definition with_count (s : CoroutineScheduler) (c k : Z) : CoroutineScheduler :=
  set_pending (pending_qps s) (set (pending_counts s) c k) s.

Section Acknowledge.
Context (s : CoroutineScheduler) (u : list (Z * Z)) (R : list Z) (qp c : Z).
Context (Hwf : wf_sched s ((qp, c) :: u) R).

Lemma acked_coro : 0 < c < Z.of_nat n.
Proof using Hn Hwf. exact (wf_unacked _ _ _ Hwf (qp, c) ltac:(constructor)). Qed.

Lemma acked_count : get (pending_counts s) c = Some (1 + count_of c u).
Proof using Hn Hwf.
  rewrite (wf_counts _ _ _ Hwf) by (pose proof acked_coro; unfold is_coro; lia).
  by rewrite count_of_cons, decide_True.
Qed.

Lemma acked_counts c' :
  is_coro c' -> get (pending_counts (with_count s c (count_of c u))) c' = Some (count_of c' u).
Proof using Hn Hwf.
  intros Hc'. unfold with_count. cbn [set_pending pending_counts]. rewrite (get_set _ _ _ _ _ acked_count).
  case_decide as E1; [by subst|]. rewrite (wf_counts _ _ _ Hwf) by done.
  by rewrite count_of_cons, decide_False by congruence.
Qed.

Lemma acked_other c' : c' <> c -> count_of c' ((qp, c) :: u) = count_of c' u.
Proof. intros Hne. by rewrite count_of_cons, decide_False by congruence. Qed.

(** Nothing else happens if the coroutine runs, or waits for more. *)
Lemma acked_keep : count_of c u <> 0 \/ c ∈ R -> wf_sched (with_count s c (count_of c u)) u R.
Proof using Hn Hwf.
  intros Hcase. pose proof acked_counts as Hcounts. destruct Hwf as [H1 H2 H3 H4 H5 H6 H7 H8 H9]. split; try done.
  - unfold with_count. cbn [set_pending coro_array pending_counts]. by rewrite length_set.
  - by apply (ring_ext s).
  - intros x Hx. apply H6. by constructor.
  - intros c' Hc' Hout. destruct (H7 c' Hc' Hout) as [Hw' Hpos]. split; [done|].
    destruct (decide (c' = c)) as [->|Hne]; [|by rewrite <- acked_other].
    pose proof (count_of_nonneg c u). destruct Hcase; [lia|done].
  - intros c' Hc' Hw'. pose proof (H8 c' Hc' Hw') as E0. rewrite count_of_cons in E0.
    pose proof (count_of_nonneg c' u). case_decide; lia.
Qed.

(** A member of the ring with a request is not waiting. *)
Lemma acked_running : c ∈ R -> wt (coro_array s) c = Some false.
Proof using Hn Hwf.
  intros Hin. pose proof acked_coro. destruct (wt (coro_array s) c) as [[]|] eqn:Ew; [|done|].
  - pose proof (wf_runnable _ _ _ Hwf c Hin Ew) as Hz. rewrite count_of_cons, decide_True in Hz by done.
    pose proof (count_of_nonneg c u). lia.
  - exfalso. destruct (get_is_Some (coro_array s) c) as [x Hx].
    { rewrite (proj1 (wf_lengths _ _ _ Hwf)). lia. }
    unfold wt in Ew. by rewrite Hx in Ew.
Qed.

(** The last acknowledgement puts a waiting coroutine at the end of the ring. *)
Lemma acked_append :
  count_of c u = 0 -> c ∉ R ->
  exists s', AppendCoroutine c (with_count s c (count_of c u)) = Ok s' /\ wf_sched s' u (R ++ [c]).
Proof using Hn Hwf.
  intros E0 Hout. pose proof acked_coro as Hcn. pose proof acked_counts as Hcounts.
  set (s1 := with_count s c (count_of c u)) in *.
  destruct Hwf as [H1 H2 H3 H4 H5 H6 H7 H8 H9]. destruct (H7 c Hcn Hout) as [Hw _].
  assert (c ∉ 0 :: R) as Hout' by (apply not_elem_of_cons; split; [lia|done]).
  destruct (AppendCoroutine_spec s1 R c ltac:(by apply (ring_ext s)) Hout' Hw) as (a & Happ & Hlen & Hring' & Hv).
  exists (set_tail c (set_array a s1)). split; [done|].
  split; cbn [set_tail set_array coro_array pending_counts]; try done.
  - rewrite Hlen. unfold s1, with_count. cbn [set_pending coro_array pending_counts]. by rewrite length_set.
  - intros c' Hc'. destruct (Hv c') as [_ ->]. by apply H2.
  - intros c' [Hc'|Hc'%list_elem_of_singleton]%elem_of_app; [by apply H4|by subst].
  - intros x Hx. apply H6. by constructor.
  - intros c' Hc' Hout2. rewrite elem_of_app in Hout2. destruct (Hv c') as [-> _].
    assert (c' <> c) as Hne by (intros ->; apply Hout2; right; constructor).
    destruct (H7 c' Hc') as [Hw' Hpos]; [tauto|]. split; [done|]. by rewrite <- acked_other.
  - intros c' Hc' Hw'. destruct (Hv c') as [Hv' _]. rewrite Hv' in Hw'.
    destruct (decide (c' = c)) as [->|Hne]; [done|].
    apply elem_of_app in Hc' as [Hc'|Hc'%list_elem_of_singleton]; [|done].
    rewrite <- acked_other by done. by apply H8.
  - destruct (Hv 0) as [-> _]. done.
Qed.
End Acknowledge.

(** An acknowledged request. *)
Lemma wf_sched_ack s u R qp c :
  wf_sched s ((qp, c) :: u) R ->
  exists count s' R',
    get (pending_counts s) c = Some count /\ 0 < count /\
    (if count - 1 =? 0
     then AppendCoroutine c (set_pending (pending_qps s) (set (pending_counts s) c (count - 1)) s)
     else Ok (set_pending (pending_qps s) (set (pending_counts s) c (count - 1)) s)) = Ok s' /\
    wf_sched s' u R' /\ (forall x, x ∈ R -> x ∈ R') /\
    (forall x, x ∈ R' -> x ∈ R \/ count_of x u = 0).
Proof.
  intros Hwf. pose proof (count_of_nonneg c u) as Hnn. exists (1 + count_of c u).
  replace (1 + count_of c u - 1) with (count_of c u) by lia. fold (with_count s c (count_of c u)).
  destruct (Z.eqb_spec (count_of c u) 0) as [E0|E0]; [destruct (decide (c ∈ R)) as [Hin|Hout]|].
  - exists (with_count s c (count_of c u)), R. split; [by eapply acked_count|]. split; [lia|].
    split; [|split; [apply (acked_keep s u R qp c Hwf); by right|split; [done|by left]]].
    pose proof (acked_running s u R qp c Hwf Hin) as Hw. unfold wt in Hw.
    unfold AppendCoroutine, with_count. cbn [set_pending coro_array].
    destruct (get (coro_array s) c) as [x|]; [|done]. injection Hw as Hw.
    cbn [deref mbind outcome_bind]. by rewrite Hw.
  - destruct (acked_append s u R qp c Hwf E0 Hout) as (s' & Happ & Hwf'). exists s', (R ++ [c]).
    split; [by eapply acked_count|]. split; [lia|]. split; [done|]. split; [done|].
    split; [intros x Hx; apply elem_of_app; by left|].
    intros x [Hx|Hx%list_elem_of_singleton]%elem_of_app; [by left|right; by subst].
  - exists (with_count s c (count_of c u)), R. split; [by eapply acked_count|]. split; [lia|]. split; [done|].
    split; [apply (acked_keep s u R qp c Hwf); by left|]. split; [done|]. by left.
Qed.

(** ** The poll loop *)

(** A card that has reported an error which stops the process. *)
Definition fatal_completion : Prop :=
  exists (e e' : E) qp wc, poll_cq e qp = (Some wc, e') /\ wc_status wc = IBV_WC_OTHER_ERR.

(** A card whose completions are all successful. *)
Definition reliable : Prop :=
  forall (e e' : E) qp wc, poll_cq e qp = (Some wc, e') -> wc_status wc = IBV_WC_SUCCESS.

Lemma prompt_reliable : prompt (E := E) -> reliable.
Proof.
  intros Hp e e' qp wc Hpoll. pose proof (poll_some _ _ _ _ Hpoll) as Hout.
  destruct (Hp e qp (wc_wr_id wc)) as (wc' & e2 & Hpoll' & Hst); [rewrite Hout; constructor|].
  congruence.
Qed.

(** What polling does to the ring: waiting coroutines are added when nothing of
    theirs is unacknowledged, none leaves, and dropped requests stay dropped. *)
Record polled (s' : CoroutineScheduler) (e' : E) (lost R lost' R' : list _) : Prop := {
  polled_wf : wf_state s' e' lost' R';
  polled_ring x : x ∈ R -> x ∈ R';
  polled_new x : x ∈ R' -> x ∈ R \/ count_of x (outstanding e' ++ lost') = 0;
  polled_lost x : x ∈ lost -> x ∈ lost';
  polled_reliable : reliable -> lost' = lost;
}.

Lemma poll_loop_spec fuel before rest s e lost R :
  wf_sched s (outstanding e ++ lost) R -> before ++ rest ≡ₚ map fst (outstanding e ++ lost) ->
  match PollRegular_loop fuel before rest s e with
  | Ok (s', e') => exists lost' R', polled s' e' lost R lost' R' /\
      (forall x, count_of x (outstanding e' ++ lost') <= count_of x (outstanding e ++ lost))
  | Exit => fatal_completion
  | Fault => False
  | OutOfFuel => (fuel <= length rest)%nat
  end.
Proof.
  revert before rest s e lost R. induction fuel as [|fuel IH]; intros before rest s e lost R Hwf Hq; [cbn; lia|].
  cbn [PollRegular_loop]. destruct rest as [|qp rest].
  { exists lost, R. split; [|done]. split; [split| | | |]; [by apply wf_sched_set_pending| |done|by left|done|done].
    by rewrite app_nil_r in Hq. }
  destruct (poll_cq e qp) as [[wc|] e1] eqn:Hpoll.
  2: { apply poll_none in Hpoll. specialize (IH (before ++ [qp]) rest s e1 lost R).
    rewrite Hpoll, <- app_assoc in IH. specialize (IH Hwf Hq).
    destruct (PollRegular_loop fuel (before ++ [qp]) rest s e1) as [[s' e']| | |]; [done|done|done|].
    cbn [length]. lia. }
  pose proof (poll_some _ _ _ _ Hpoll) as Hout. destruct wc as [st c]. cbn [wc_wr_id wc_status] in *.
  set (u := outstanding e1 ++ lost).
  assert (outstanding e ++ lost ≡ₚ (qp, c) :: u) as Hperm by by rewrite Hout.
  pose proof (wf_sched_perm _ _ _ _ Hperm Hwf) as Hwf1.
  destruct st.
  - destruct (Z.eqb_spec c 0) as [->|Hc0].
    { pose proof (wf_unacked _ _ _ Hwf1 (qp, 0) ltac:(constructor)) as Hb. cbn in Hb. lia. }
    destruct (wf_sched_ack _ _ _ _ _ Hwf1) as (count & s1 & R1 & Hget & Hpos & Hs1 & Hwf2 & Hsub & Hnew).
    rewrite Hget. cbn [deref mbind outcome_bind]. test (0 <? count) is true.
    cbn [assert_ mbind outcome_bind]. rewrite Hs1. cbn [mbind outcome_bind].
    assert (before ++ rest ≡ₚ map fst u) as Hq1.
    { rewrite Hperm in Hq. cbn [map fst] in Hq. rewrite <- Permutation_middle in Hq.
      by apply Permutation_cons_inv in Hq. }
    specialize (IH before rest s1 e1 lost R1 Hwf2 Hq1).
    destruct (PollRegular_loop fuel before rest s1 e1) as [[s' e']| | |]; [|done|done|cbn [length]; lia].
    destruct IH as (lost' & R' & [P1 P2 P3 P4 P5] & Hle). exists lost', R'.
    assert (forall x, count_of x u <= count_of x (outstanding e ++ lost)) as Hle1.
    { intros x. rewrite (count_of_perm _ _ _ Hperm), count_of_cons. case_decide; lia. }
    split; [split; [done|by eauto| |done|done]|].
    + intros x Hx. destruct (P3 x Hx) as [Hx1|]; [|by right]. destruct (Hnew x Hx1); [by left|right].
      pose proof (Hle x) as Hl. pose proof (count_of_nonneg x (outstanding e' ++ lost')). fold u in Hl. lia.
    + intros x. etransitivity; [apply Hle|apply Hle1].
  - specialize (IH (before ++ [qp]) rest s e1 ((qp, c) :: lost) R).
    assert ((qp, c) :: u ≡ₚ outstanding e1 ++ (qp, c) :: lost) as Hp2 by apply Permutation_middle.
    assert (before ++ [qp] ++ rest ≡ₚ map fst (outstanding e1 ++ (qp, c) :: lost)) as Hq2
      by (rewrite Hq; apply Permutation_map; by rewrite Hperm).
    rewrite <- app_assoc in IH. specialize (IH (wf_sched_perm _ _ _ _ Hp2 Hwf1) Hq2).
    destruct (PollRegular_loop fuel (before ++ [qp]) rest s e1) as [[s' e']| | |]; [|done|done|cbn [length]; lia].
    destruct IH as (lost' & R' & [P1 P2 P3 P4 P5] & Hle). exists lost', R'. split.
    + split; [done|done|done| |].
      * intros x Hx. apply P4. by constructor.
      * intros Hrel. by specialize (Hrel _ _ _ _ Hpoll).
    + intros x. rewrite (count_of_perm _ _ _ Hperm), (count_of_perm _ _ _ Hp2). apply Hle.
  - by exists e, e1, qp, (MkWc IBV_WC_OTHER_ERR c).
Qed.

(** With a prompt card and nothing dropped, the loop acknowledges everything. *)
Lemma poll_loop_prompt fuel rest s e R :
  prompt (E := E) -> wf_sched s (outstanding e) R -> rest ≡ₚ map fst (outstanding e) ->
  (length rest < fuel)%nat ->
  exists s' e' R', PollRegular_loop fuel [] rest s e = Ok (s', e') /\
    wf_sched s' [] R' /\ outstanding e' = [] /\ pending_qps s' = [].
Proof.
  intros Hprompt. revert rest s e R. induction fuel as [|fuel IH]; intros rest s e R Hwf Hq Hfuel; [lia|].
  cbn [PollRegular_loop]. destruct rest as [|qp rest].
  { apply Permutation_nil_l in Hq. symmetry in Hq. apply map_eq_nil in Hq. rewrite Hq in Hwf.
    eexists _, _, R. split; [done|]. by split; [apply wf_sched_set_pending|]. }
  assert (exists c, (qp, c) ∈ outstanding e) as [c Hin].
  { assert (qp ∈ map fst (outstanding e)) as Hin by (rewrite <- Hq; constructor).
    apply list_elem_of_In, in_map_iff in Hin as ([q c] & Hqc & Hin). cbn in Hqc. subst.
    exists c. by apply list_elem_of_In. }
  destruct (Hprompt e qp c Hin) as (wc & e1 & Hpoll & Hst). rewrite Hpoll, Hst.
  pose proof (poll_some _ _ _ _ Hpoll) as Hout. destruct wc as [st c']. cbn [wc_wr_id wc_status] in *.
  pose proof (wf_sched_perm _ _ _ _ Hout Hwf) as Hwf1.
  pose proof (wf_unacked _ _ _ Hwf1 (qp, c') ltac:(constructor)) as Hb. cbn [snd] in Hb.
  test (c' =? 0) is false.
  destruct (wf_sched_ack _ _ _ _ _ Hwf1) as (count & s1 & R1 & Hget & Hpos & Hs1 & Hwf2 & _ & _).
  rewrite Hget. cbn [deref mbind outcome_bind]. test (0 <? count) is true.
  cbn [assert_ mbind outcome_bind]. rewrite Hs1. cbn [mbind outcome_bind].
  apply (IH rest s1 e1 R1 Hwf2); [|cbn [length] in Hfuel; lia].
  rewrite Hout in Hq. cbn [map fst] in Hq. by apply Permutation_cons_inv in Hq.
Qed.
End System.
