(* ===== verification/SchedulerTheorems.v ===== *)
(** The scheduler as a transition system: one thread of a compute node with its
    coroutines, posting requests, yielding and polling. The theorems: no reachable
    state violates an assertion or follows a bad pointer, no wake-up is lost, and
    polling a prompt card makes every coroutine runnable. *)
From S2P Require Import Prelude Words Outcome Verbs Scheduler SchedulerFacts SchedulerInvariant.

(** ** The transition system *)

(** The state of run_thread: the scheduler, the card and the coroutine that runs. *)
Record thread (E : Type) := MkThread {
  sched : CoroutineScheduler;
  nic : E;
  current : Z;
}.
Arguments MkThread {E} _ _ _.
Arguments sched {E} _.
Arguments nic {E} _.
Arguments current {E} _.

(** What the running coroutine does next. *)
Inductive action :=
| ARead (qp rd_data remote_offset size : Z)
| AReadInv (qp rd_data remote_offset size : Z)
| AWrite (qp wt_data remote_offset size : Z)
| ACas (qp local_buf remote_offset compare swap : Z)
| ABatch (qp : Z) (send_sr : list ibv_send_wr) (doorbell_num : Z)
| AYield
| APoll.

Section System.
Context {E : Type} `{Nic E}.

Definition after_post (cur : Z) (r : bool * CoroutineScheduler * E) : thread E :=
  MkThread (snd (fst r)) (snd r) cur.

Definition exec (fuel : nat) (a : action) (t : thread E) : outcome (thread E) :=
  let '(MkThread s e cur) := t in
  match a with
  | ARead qp d o sz => r ← RDMARead cur qp d o sz s e; Ok (after_post cur r)
  | AReadInv qp d o sz => r ← RDMAReadInv cur qp d o sz s e; Ok (after_post cur r)
  | AWrite qp d o sz => r ← RDMAWrite cur qp d o sz s e; Ok (after_post cur r)
  | ACas qp b o c w => r ← RDMACAS cur qp b o c w s e; Ok (after_post cur r)
  | ABatch qp sr d => r ← RDMABatch cur qp sr d s e; Ok (after_post cur r)
  | AYield => r ← Yield cur s; Ok (MkThread (fst r) e (default cur (snd r)))
  | APoll => r ← poll_round fuel s e; Ok (MkThread (fst (fst r)) (snd (fst r)) (default cur (snd r)))
  end.

(** A batch whose only signaled request is the one that gets the coroutine's id. *)
Definition batch_signals (cid : Z) (sr : list ibv_send_wr) (d : Z) : Prop :=
  exists sr', modify sr d (set_wr_id cid) = Ok sr' /\ completions_of (PostBatch sr') = [cid].

(** Coroutine 0 polls; the others post and yield. *)
Definition enabled (a : action) (t : thread E) : Prop :=
  match a with
  | APoll => current t = 0
  | ABatch _ sr d => current t <> 0 /\ batch_signals (current t) sr d
  | _ => current t <> 0
  end.

(** The start of run_thread: coroutine 0 runs and nothing is outstanding. *)
Definition initial (n : nat) (t : thread E) : Prop :=
  LoopLinkCoroutine (Z.of_nat n) (init_coro_ids (new_CoroutineScheduler n)) = Ok (sched t) /\
  outstanding (nic t) = [] /\ current t = 0.

Inductive reachable (n : nat) : thread E -> Prop :=
| reach_init t : initial n t -> reachable n t
| reach_step t t' a fuel :
    reachable n t -> enabled a t -> exec fuel a t = Ok t' -> reachable n t'.

(** A later state of the same thread. *)
Inductive steps : thread E -> thread E -> Prop :=
| steps_refl t : steps t t
| steps_step t t' t'' a fuel :
    enabled a t -> exec fuel a t = Ok t' -> steps t' t'' -> steps t t''.
End System.

(** ** The initial ring *)

Lemma dl_seqZ a x k :
  (forall i, x <= i < x + Z.of_nat k -> nx a i = Some (i + 1)) -> nx a (x + Z.of_nat k) = Some 0 ->
  (forall i, x < i <= x + Z.of_nat k -> pv a i = Some (i - 1)) ->
  dl a x (seqZ (x + 1) (Z.of_nat k)).
Proof.
  revert x. induction k as [|k IH]; intros x Hn Hlast Hp.
  - cbn [dl seqZ seq fmap list_fmap Z.of_nat]. by rewrite Z.add_0_r in Hlast.
  - rewrite seqZ_cons by lia. cbn [dl].
    rewrite Hn, Hp by lia. split; [done|]. split; [f_equal; lia|].
    replace (Z.pred (Z.of_nat (S k))) with (Z.of_nat k) by lia. apply IH.
    + intros i Hi. apply Hn. lia.
    + rewrite <- Hlast. f_equal. lia.
    + intros i Hi. apply Hp. lia.
Qed.

Definition linked_coro (n i : Z) : Coroutine :=
  MkCoroutine false i (if i =? 0 then n - 1 else i - 1) (if i =? n - 1 then 0 else i + 1).

Lemma LoopLink_init n :
  (0 < n)%nat ->
  exists a, LoopLinkCoroutine (Z.of_nat n) (init_coro_ids (new_CoroutineScheduler n)) =
      Ok (MkScheduler a 0 (Z.of_nat n - 1) [] (replicate n 0) [] (replicate n 0)) /\
    length a = n /\ forall i, 0 <= i < Z.of_nat n -> get a i = Some (linked_coro (Z.of_nat n) i).
Proof.
  intros Hn. unfold LoopLinkCoroutine.
  cbn [init_coro_ids new_CoroutineScheduler set_array coro_array pending_qps pending_counts
       pending_log_qps pending_log_counts].
  set (a0 := imap _ (imap _ _)).
  assert (length a0 = n) as Hlen by (unfold a0; by rewrite !length_imap, length_replicate).
  assert (forall i, 0 <= i < Z.of_nat n -> get a0 i = Some (MkCoroutine false i (i - 1) (i + 1))) as H0.
  { intros i Hi. unfold get. test (0 <=? i) is true. unfold a0.
    rewrite !list_lookup_imap, lookup_replicate_2 by lia. cbn [fmap option_fmap option_map].
    rewrite Z2Nat.id by lia. test (i <? Z.of_nat n) is true. done. }
  clearbody a0.
  rewrite (modify_spec a0 0 _ _ (H0 0 ltac:(lia))). cbn [mbind outcome_bind].
  set (a1 := set a0 0 (set_prev (Z.of_nat n - 1) (MkCoroutine false 0 (0 - 1) (0 + 1)))).
  assert (forall i, 0 <= i < Z.of_nat n -> get a1 i =
    Some (MkCoroutine false i (if i =? 0 then Z.of_nat n - 1 else i - 1) (i + 1))) as H1.
  { intros i Hi. unfold a1. rewrite (get_set _ _ _ _ _ (H0 0 ltac:(lia))).
    case_decide as Ei; [by rewrite Ei|]. test (i =? 0) is false. by apply H0. }
  rewrite (modify_spec a1 _ _ _ (H1 (Z.of_nat n - 1) ltac:(lia))). cbn [mbind outcome_bind].
  eexists. split; [done|]. split; [unfold a1; by rewrite !length_set|].
  intros i Hi. rewrite (get_set _ _ _ _ _ (H1 (Z.of_nat n - 1) ltac:(lia))). unfold linked_coro.
  case_decide as Ei; [by rewrite Ei, Z.eqb_refl|]. test (i =? Z.of_nat n - 1) is false. by apply H1.
Qed.

Lemma last_of_seqZ x k : last_of x (seqZ (x + 1) (Z.of_nat k)) = x + Z.of_nat k.
Proof.
  revert x. induction k as [|k IH]; intros x; [by rewrite Z.add_0_r|].
  rewrite seqZ_cons, last_of_cons by lia. replace (Z.pred _) with (Z.of_nat k) by lia.
  replace (Z.succ (x + 1)) with (x + 1 + 1) by lia. rewrite IH. lia.
Qed.

Lemma initial_wf n s :
  (0 < n)%nat -> LoopLinkCoroutine (Z.of_nat n) (init_coro_ids (new_CoroutineScheduler n)) = Ok s ->
  wf_sched n s [] (seqZ 1 (Z.of_nat n - 1)) /\ pending_qps s = [].
Proof.
  intros Hn Hs. destruct (LoopLink_init n Hn) as (a & Ha & Hlen & Hget). rewrite Ha in Hs.
  injection Hs as <-. split; [|done].
  split; cbn [coro_array pending_counts].
  - by rewrite length_replicate.
  - intros c Hc. unfold ci. by rewrite Hget.
  - replace (Z.of_nat n - 1) with (Z.of_nat (n - 1)) by lia.
    split; cbn [coro_head coro_tail coro_array].
    + done.
    + rewrite (last_of_seqZ 0). lia.
    + apply (dl_seqZ a 0).
      * intros i Hi. unfold nx. rewrite Hget by lia. cbn. test (i =? Z.of_nat n - 1) is false. done.
      * unfold nx. rewrite Hget by lia. cbn [linked_coro next_coro fmap option_fmap option_map].
        test (0 + Z.of_nat (n - 1) =? Z.of_nat n - 1) is true. done.
      * intros i Hi. unfold pv. rewrite Hget by lia. cbn. test (i =? 0) is false. done.
    + apply NoDup_cons. split; [rewrite elem_of_seqZ; lia|apply NoDup_seqZ].
  - intros c Hc%elem_of_seqZ. lia.
  - intros c Hc. unfold get. unfold is_coro in Hc. test (0 <=? c) is true.
    rewrite lookup_replicate_2 by lia. done.
  - intros x Hx. by apply not_elem_of_nil in Hx.
  - intros c Hc Hout. exfalso. apply Hout. apply elem_of_seqZ. lia.
  - intros c Hc _. done.
  - unfold wt. by rewrite Hget by lia.
Qed.

(** ** The invariant of the thread *)

Section Invariant.
Context {E : Type} `{NicLaws E}.
Context (n : nat) (Hn : (0 < n)%nat).
Implicit Types (t : thread E) (R : list Z).

Record wf_thread t (lost : list (Z * Z)) R : Prop := {
  wf_thread_state : wf_state n (sched t) (nic t) lost R;
  wf_current : current t = 0 \/ current t ∈ R;
  wf_running : wt (coro_array (sched t)) (current t) = Some false;
}.

(** The requests that the thread still waits for. *)
Abbreviation unacked t lost := (outstanding (nic t) ++ lost).

(** What a step preserves and adds. *)
Record stepped t' (lost : list (Z * Z)) R (lost' : list (Z * Z)) R' : Prop := {
  stepped_wf : wf_thread t' lost' R';
  stepped_new x : x ∈ R' -> x ∈ R \/ count_of x (unacked t' lost') = 0;
  stepped_lost x : x ∈ lost -> x ∈ lost';
  stepped_reliable : reliable (E := E) -> lost' = lost;
}.

Lemma split_sub c R R' nxt :
  (exists l1 l2, R = l1 ++ c :: l2 /\ R' = l1 ++ l2 /\ nxt = hd 0 l2) -> forall x, x ∈ R' -> x ∈ R.
Proof.
  intros (l1 & l2 & -> & -> & _) x. rewrite !elem_of_app. intros [|]; [by left|right; by constructor].
Qed.

Lemma post_spec s e cur lost R qp r :
  wf_thread (MkThread s e cur) lost R -> cur <> 0 -> completions_of r = [cur] ->
  exists p, post_and_count cur qp r s e = Ok p /\ stepped (after_post cur p) lost R lost R.
Proof.
  intros [[Hwf Hq] Hcur Hrun] Hc0 Hr. cbn [sched nic current] in *.
  destruct Hcur as [|Hcur]; [done|].
  unfold post_and_count. destruct (post e qp r) as [[] e1] eqn:Hp; cbn [negb].
  - apply post_success in Hp. rewrite Hr in Hp. cbn [map app] in Hp.
    destruct (wf_sched_add n Hn s _ R cur qp Hwf Hcur Hrun) as (s1 & -> & Hwf1 & Hq1 & Harr).
    cbn [mbind outcome_bind]. eexists. split; [done|]. unfold after_post. cbn [fst snd].
    split; [split; [split| |]|by left|done|done]; cbn [sched nic current].
    + eapply wf_sched_perm; [|exact Hwf1]. by rewrite Hp.
    + rewrite Hq1, Hq, Hp. cbn [map fst app]. by rewrite Permutation_app_comm.
    + by right.
    + by rewrite Harr.
  - apply post_failure in Hp. eexists. split; [done|]. unfold after_post. cbn [fst snd].
    split; [split; [split| |]|by left|done|done]; cbn [sched nic current]; rewrite ?Hp; auto.
Qed.

(** The rest of poll_round: coroutine 0 switches to its successor. *)
Lemma switch_spec s e lost R :
  wf_state n s e lost R -> (0 < n)%nat ->
  exists t nxt,
    (head ← deref (get (coro_array s) (coro_head s));
     next ← deref (get (coro_array s) (next_coro head));
     if negb (coro_id next =? 0)
     then r ← RunCoroutine (next_coro head) s; Ok (fst r, e, Some (snd r))
     else Ok (s, e, None)) = Ok (sched t, nic t, nxt) /\
    current t = default 0 nxt /\ current t = hd 0 R /\ nic t = e /\
    pending_qps (sched t) = pending_qps s /\ wf_thread t lost R.
Proof.
  intros [Hwf Hq] _. pose proof (wf_ring _ _ _ _ Hwf) as Hring.
  rewrite (ring_head _ _ Hring). pose proof (ring_links _ _ Hring) as Hdl.
  assert (nx (coro_array s) 0 = Some (hd 0 R)) as Hnx.
  { destruct R; cbn [dl] in Hdl; [done|]. apply Hdl. }
  unfold nx in Hnx. destruct (get (coro_array s) 0) as [h|] eqn:Hh; [|done]. injection Hnx as Hnx.
  cbn [deref mbind outcome_bind]. rewrite Hnx.
  assert (hd 0 R = 0 \/ hd 0 R ∈ R) as Hhd by (destruct R; [by left|right; constructor]).
  assert (is_coro n (hd 0 R)) as Hc.
  { unfold is_coro. destruct Hhd as [->|Hin%(wf_members _ _ _ _ Hwf)]; lia. }
  pose proof (wf_ids _ _ _ _ Hwf _ Hc) as Hid. unfold ci in Hid.
  destruct (get (coro_array s) (hd 0 R)) as [x|] eqn:Hx; [|done]. injection Hid as Hid.
  cbn [deref mbind outcome_bind]. rewrite Hid. destruct (Z.eqb_spec (hd 0 R) 0) as [E0|E0]; cbn [negb].
  - exists (MkThread s e 0), None. split; [done|]. cbn [sched nic current default].
    split; [done|]. split; [done|]. split; [done|]. split; [done|].
    split; [by split|by left|by apply (wf_poller _ _ _ _ Hwf)].
  - destruct (wf_sched_run n Hn s _ R (hd 0 R) Hwf Hhd) as (s' & -> & Hwf' & Hq' & Hrun).
    cbn [mbind outcome_bind fst snd]. exists (MkThread s' e (hd 0 R)), (Some (hd 0 R)).
    split; [done|]. cbn [sched nic current default]. repeat (split; [done|]).
    split; cbn [sched nic current]; [split; [done|by rewrite Hq']|done|done].
Qed.

Lemma exec_spec fuel a t lost R :
  wf_thread t lost R -> enabled a t ->
  match exec fuel a t with
  | Ok t' => exists lost' R', stepped t' lost R lost' R'
  | Exit => a = APoll /\ fatal_completion (E := E)
  | Fault => False
  | OutOfFuel => a = APoll /\ (fuel <= length (pending_qps (sched t)))%nat
  end.
Proof.
  intros Hwf He. destruct t as [s e cur].
  destruct a; cbn [exec enabled current] in *.
  1, 3, 4: unfold RDMARead, RDMAWrite, RDMACAS;
    match goal with |- context [post_and_count _ _ ?r _ _] =>
      destruct (post_spec _ _ _ _ _ qp r Hwf He eq_refl) as (p & -> & Hst) end;
    cbn [mbind outcome_bind]; by eauto.
  - unfold RDMAReadInv. destruct (post e qp _) as [rc e1] eqn:Hp. cbn [mbind outcome_bind].
    assert (outstanding e1 ≡ₚ outstanding e) as Ho.
    { destruct rc; [apply (post_success _ _ _ _ Hp)|by rewrite (post_failure _ _ _ _ Hp)]. }
    destruct Hwf as [[Hs Hq] Hcur Hrun]. exists lost, R. unfold after_post. cbn [fst snd].
    split; [split; [split| |]|by left|done|done]; cbn [sched nic current] in *; try done.
    + eapply wf_sched_perm; [|exact Hs]. by rewrite Ho.
    + by rewrite Ho.
  - destruct He as [He (sr' & Hm & Hc)]. unfold RDMABatch. rewrite Hm. cbn [mbind outcome_bind].
    destruct (post_spec _ _ _ _ _ qp _ Hwf He Hc) as (p & Hp & Hst). rewrite Hp.
    cbn [mbind outcome_bind]. by eauto.
  - destruct Hwf as [[Hs Hq] Hcur Hrun]. cbn [sched nic current] in *. destruct Hcur as [|Hcur]; [done|].
    destruct (wf_sched_yield n Hn s _ R cur Hs Hcur Hrun) as
      [[_ ->]|(s' & R' & nxt & -> & Hs' & Hout & Hq' & Hnxt & Hw & Hsplit)];
      cbn [mbind outcome_bind fst snd default].
    + exists lost, R. split; [|by left|done|done]. split; cbn [sched nic current]; [by split|by right|done].
    + exists lost, R'. split; [|intros x Hx; left; by apply (split_sub _ _ _ _ Hsplit)|done|done].
      split; cbn [sched nic current]; [split; [done|by rewrite Hq']|done|done].
  - destruct Hwf as [[Hs Hq] _ _]. cbn [sched nic current] in *. subst cur.
    unfold poll_round, PollCompletion, PollRegularCompletion.
    pose proof (poll_loop_spec n Hn fuel [] (pending_qps s) s e lost R Hs Hq) as Hpoll.
    destruct (PollRegular_loop fuel [] (pending_qps s) s e) as [[s1 e1]| | |]; cbn [mbind outcome_bind];
      [|by split|done|by split].
    destruct Hpoll as (lost' & R' & [P1 P2 P3 P4 P5] & _).
    destruct (switch_spec s1 e1 lost' R' P1 Hn) as (t & nxt & -> & Hcur & _ & Hnic & _ & Hwf).
    cbn [mbind outcome_bind fst snd]. rewrite <- Hcur. exists lost', R'.
    destruct t as [s2 e2 c2]. cbn [sched nic current] in *. split; [done| |done|done].
    cbn [nic]. by rewrite Hnic.
Qed.

Lemma reachable_wf t : reachable n t ->
  exists lost R, wf_thread t lost R /\ (reliable (E := E) -> lost = []).
Proof.
  induction 1 as [t (Hi & Ho & Hc)|t t' a fuel _ (lost & R & Hwf & Hrel) He Hx].
  - destruct (initial_wf n _ Hn Hi) as [Hs Hq]. exists [], (seqZ 1 (Z.of_nat n - 1)).
    split; [|done]. split; [|by left|].
    + split; [by rewrite Ho|]. by rewrite Ho, Hq.
    + rewrite Hc. apply (wf_poller _ _ _ _ Hs).
  - pose proof (exec_spec fuel a t lost R Hwf He) as Hspec. rewrite Hx in Hspec.
    destruct Hspec as (lost' & R' & [S1 S2 S3 S4]). exists lost', R'. split; [done|].
    intros Hr. rewrite S4 by done. by apply Hrel.
Qed.

(** ** Rounds *)

Lemma dl_unique a x l1 l2 : dl a x l1 -> dl a x l2 -> 0 ∉ l1 -> 0 ∉ l2 -> l1 = l2.
Proof.
  revert x l2. induction l1 as [|y l1 IH]; intros x [|z l2] H1 H2 N1 N2; cbn [dl] in *; [done| | |].
  - destruct H2 as [H2 _]. rewrite H1 in H2. injection H2 as <-. exfalso. apply N2. constructor.
  - destruct H1 as [H1 _]. rewrite H2 in H1. injection H1 as <-. exfalso. apply N1. constructor.
  - destruct H1 as (E1 & _ & H1), H2 as (E2 & _ & H2). assert (z = y) as -> by congruence.
    f_equal. apply (IH y); [done|done| |]; intros Hin; [apply N1|apply N2]; by constructor.
Qed.

Lemma ring_unique s R1 R2 : ring s R1 -> ring s R2 -> R1 = R2.
Proof.
  intros [_ _ D1 N1] [_ _ D2 N2]. apply NoDup_cons in N1 as [N1 _], N2 as [N2 _].
  by apply (dl_unique (coro_array s) 0).
Qed.

(** Each coroutine of a round posts one read and yields; the round ends when the
    polling coroutine runs. The result lists the coroutines that ran. *)
Fixpoint round (qp d o sz : Z) (k : nat) (t : thread E) : outcome (list Z * thread E) :=
  match k with
  | O => Ok ([], t)
  | S k =>
      if current t =? 0 then Ok ([], t)
      else
        t1 ← exec 0 (ARead qp d o sz) t;
        t2 ← exec 0 AYield t1;
        r ← round qp d o sz k t2;
        Ok (current t :: fst r, snd r)
  end.

Lemma round_step qp d o sz t lost c R :
  (forall (e : E) qp r, fst (post e qp r) = true) ->
  wf_thread t lost (c :: R) -> current t = c ->
  exists t1 t2, exec 0 (ARead qp d o sz) t = Ok t1 /\ exec 0 AYield t1 = Ok t2 /\
    wf_thread t2 lost R /\ current t2 = hd 0 R.
Proof.
  intros Hpost [[Hs Hq] _ Hrun] Hc. destruct t as [s e cur]. cbn [sched nic current] in *. subst cur.
  assert (c ∈ c :: R) as Hin by constructor.
  cbn [exec]. unfold RDMARead, post_and_count.
  specialize (Hpost e qp (PostSend IBV_WR_RDMA_READ d o sz IBV_SEND_SIGNALED c)).
  destruct (post e qp _) as [rc e1] eqn:Hp. cbn [fst] in Hpost. subst rc. cbn [negb].
  apply post_success in Hp. change (completions_of _) with [c] in Hp. cbn [map app] in Hp.
  destruct (wf_sched_add n Hn s _ _ c qp Hs Hin Hrun) as (s1 & -> & Hs1 & Hq1 & Harr).
  cbn [mbind outcome_bind]. eexists. 
  assert (wt (coro_array s1) c = Some false) as Hrun1 by by rewrite Harr.
  destruct (wf_sched_yield n Hn s1 _ _ c Hs1 Hin Hrun1) as
    [[Hz _]|(s' & R' & nxt & Hy & Hs' & Hout & Hq' & Hnxt & Hw & (l1 & l2 & Hl & -> & ->))].
  { rewrite count_of_cons, decide_True in Hz by done. pose proof (count_of_nonneg c (outstanding e ++ lost)). lia. }
  assert (l1 = [] /\ R = l2) as [-> ->].
  { destruct l1 as [|z l1]; cbn [app] in Hl; [by injection Hl as ->|]. injection Hl as <- ->.
    pose proof (ring_NoDup _ _ (wf_ring _ _ _ _ Hs)) as Hnd. apply NoDup_cons in Hnd as [_ Hnd].
    apply NoDup_cons in Hnd as [Hnd _]. exfalso. apply Hnd. apply elem_of_app. right. constructor. }
  cbn [app] in *. eexists. split; [done|]. unfold after_post. cbn [fst snd exec]. rewrite Hy.
  cbn [mbind outcome_bind fst snd default]. split; [done|]. split; [|done].
  split; cbn [sched nic current]; [split|done|done].
  - eapply wf_sched_perm; [|exact Hs']. by rewrite Hp.
  - rewrite Hq', Hq1, Hq, Hp. cbn [map fst app]. by rewrite Permutation_app_comm.
Qed.

Lemma round_spec qp d o sz R t lost :
  (forall (e : E) qp r, fst (post e qp r) = true) ->
  wf_thread t lost R -> current t = hd 0 R ->
  exists t', round qp d o sz (length R) t = Ok (R, t') /\ wf_thread t' lost [] /\ current t' = 0.
Proof.
  intros Hpost. revert t. induction R as [|c R IH]; intros t Hwf Hc; cbn [length round].
  { by exists t. }
  cbn [hd] in Hc. pose proof (wf_members _ _ _ _ (proj1 (wf_thread_state _ _ _ Hwf)) c ltac:(constructor)) as Hb.
  rewrite Hc. test (c =? 0) is false.
  destruct (round_step qp d o sz t lost c R Hpost Hwf Hc) as (t1 & t2 & -> & H2 & Hwf2 & Hc2).
  cbn [mbind outcome_bind]. rewrite H2. cbn [mbind outcome_bind].
  destruct (IH t2 Hwf2 Hc2) as (t' & -> & Hwf' & Hc'). cbn [mbind outcome_bind fst snd]. by exists t'.
Qed.

(** A poll by coroutine 0 with a prompt card. *)
Lemma prompt_poll t fuel R :
  prompt (E := E) -> wf_thread t [] R -> current t = 0 ->
  (length (pending_qps (sched t)) < fuel)%nat ->
  exists t' R', exec fuel APoll t = Ok t' /\ wf_thread t' [] R' /\ current t' = hd 0 R' /\
    outstanding (nic t') = [] /\ pending_qps (sched t') = [] /\
    forall c, 0 < c < Z.of_nat n -> c ∈ R'.
Proof.
  intros Hp [[Hs Hq] _ _] H0' Hfuel. destruct t as [s e cur]. cbn [sched nic current] in *. subst cur.
  rewrite app_nil_r in Hs, Hq.
  destruct (poll_loop_prompt n Hn fuel _ s e R Hp Hs Hq Hfuel) as (s1 & e1 & R1 & Hl & Hs1 & Ho & Hq1).
  cbn [exec]. unfold poll_round, PollCompletion, PollRegularCompletion. rewrite Hl.
  cbn [mbind outcome_bind]. destruct (switch_spec s1 e1 [] R1) as (t & nxt & -> & Hc & Hh & Hn' & Hq2 & Hwf).
  { split; rewrite Ho; cbn [app map]; [done|by rewrite Hq1]. }
  { exact Hn. }
  cbn [mbind outcome_bind fst snd]. rewrite <- Hc. destruct t as [s2 e2 c2]. cbn [sched nic current] in *.
  eexists _, R1. split; [done|]. split; [done|]. cbn [sched nic current]. rewrite Hq2, Hn'.
  split; [done|]. split; [done|]. split; [done|]. intros c Hcn.
  destruct (decide (c ∈ R1)) as [|Hout]; [done|].
  destruct (wf_waiting _ _ _ _ Hs1 c Hcn Hout) as [_ Hpos]. unfold count_of in Hpos. cbn in Hpos. lia.
Qed.

Lemma members_perm t lost R :
  wf_thread t lost R -> (forall c, 0 < c < Z.of_nat n -> c ∈ R) -> R ≡ₚ seqZ 1 (Z.of_nat n - 1).
Proof.
  intros Hwf Hall. destruct (wf_thread_state _ _ _ Hwf) as [Hs _].
  apply NoDup_Permutation; [|apply NoDup_seqZ|].
  - pose proof (ring_NoDup _ _ (wf_ring _ _ _ _ Hs)) as Hnd. by apply NoDup_cons in Hnd as [_ Hnd].
  - intros c. rewrite elem_of_seqZ. split; [intros Hc%(wf_members _ _ _ _ Hs); lia|].
    intros. apply Hall. lia.
Qed.

(** A dropped request keeps its coroutine out of the ring. *)
Lemma dropped_stays t t' lost R qp c :
  wf_thread t lost R -> (qp, c) ∈ lost -> c ∉ R -> steps t t' ->
  exists lost' R', wf_thread t' lost' R' /\ c ∉ R'.
Proof.
  intros Hwf Hin Hout Hst. revert lost R Hwf Hin Hout.
  induction Hst as [t|t t1 t2 a fuel He Hx _ IH]; intros lost R Hwf Hin Hout; [by exists lost, R|].
  pose proof (exec_spec fuel a t lost R Hwf He) as Hspec. rewrite Hx in Hspec.
  destruct Hspec as (lost1 & R1 & [S1 S2 S3 S4]). apply (IH lost1 R1); [done|by apply S3|].
  intros Hc. destruct (S2 c Hc) as [|Hz]; [done|].
  assert (0 < count_of c (unacked t1 lost1)); [|lia].
  apply (count_of_elem c qp). apply elem_of_app. right. by apply S3.
Qed.
End Invariant.

(** ** Concrete threads, for the witnesses *)

(** A card whose every completion reports that its retries are exhausted. *)
Record retry_nic := MkRetry { retry_fifo : fifo_nic }.

#[export] Instance retry_Nic : Nic retry_nic := {
  outstanding e := outstanding (retry_fifo e);
  poll_cq e qp :=
    let '(wc, f) := poll_cq (retry_fifo e) qp in
    ((fun wc => MkWc IBV_WC_RETRY_EXC_ERR (wc_wr_id wc)) <$> wc, MkRetry f);
  post e qp r := let '(rc, f) := post (retry_fifo e) qp r in (rc, MkRetry f);
}.

#[export] Instance retry_NicLaws : NicLaws retry_nic.
Proof.
  split.
  - intros [e] e' qp. cbn [poll_cq outstanding retry_Nic retry_fifo].
    destruct (poll_cq e qp) as [[wc|] f] eqn:Hp; intros [= <-]. by apply poll_none in Hp.
  - intros [e] e' qp wc. cbn [poll_cq outstanding retry_Nic retry_fifo].
    destruct (poll_cq e qp) as [[wc0|] f] eqn:Hp; intros [= <- <-]. by apply poll_some in Hp.
  - intros [e] e' qp r. cbn [post outstanding retry_Nic retry_fifo].
    destruct (post e qp r) as [rc f] eqn:Hp; intros [= -> <-]. by apply post_success in Hp.
  - intros [e] e' qp r. cbn [post outstanding retry_Nic retry_fifo].
    destruct (post e qp r) as [rc f] eqn:Hp; intros [= -> <-]. by apply post_failure in Hp.
Qed.

Definition started {E} (n : nat) (e : E) : thread E :=
  MkThread (match LoopLinkCoroutine (Z.of_nat n) (init_coro_ids (new_CoroutineScheduler n)) with
            | Ok s => s | _ => new_CoroutineScheduler n end) e 0.

Fixpoint exec_all {E} `{Nic E} (fuel : nat) (l : list action) (t : thread E) : thread E :=
  match l with
  | [] => t
  | a :: l => match exec fuel a t with Ok t' => exec_all fuel l t' | _ => t end
  end.

(** Coroutine 0 polls; coroutine 1 reads twice and yields, coroutine 2 yields. *)
Definition trace : list action := [APoll; ARead 7 0 0 8; ARead 8 0 0 8; AYield; ARead 7 0 0 8; AYield].

(** Batches are left out of these traces. *)
Definition enabledb {E} (a : action) (t : thread E) : bool :=
  match a with
  | APoll => current t =? 0
  | ABatch _ _ _ => false
  | _ => negb (current t =? 0)
  end.

Lemma enabledb_ok {E} (a : action) (t : thread E) : enabledb a t = true -> enabled a t.
Proof. destruct a; cbn; intros Ha; zbool || (try apply negb_true_iff in Ha; lia || done). Qed.

Fixpoint all_enabled {E} `{Nic E} (l : list action) (t : thread E) : bool :=
  match l with
  | [] => true
  | a :: l =>
      enabledb a t && match exec 9 a t with Ok t' => all_enabled l t' | _ => false end
  end.

Lemma trace_reachable {E} `{Nic E} (n : nat) (e : E) (l : list action) :
  (0 < n)%nat -> outstanding e = [] -> all_enabled l (started n e) = true ->
  reachable n (exec_all 9 l (started n e)).
Proof.
  intros Hn He. assert (reachable n (started n e)) as Hr.
  { apply reach_init. unfold started. destruct (LoopLink_init n Hn) as (a & Ha & _).
    split; [cbn [sched]; by rewrite Ha|done]. }
  revert Hr. generalize (started n e) as t. induction l as [|a l IH]; intros t Hr Hl; [done|].
  cbn [exec_all all_enabled] in *. apply andb_prop in Hl as [Hen%enabledb_ok Hl].
  destruct (exec 9 a t) as [t'| | |] eqn:Hx; [|done..].
  apply IH; [by eapply reach_step|exact Hl].
Qed.

Lemma trace_steps {E} `{Nic E} (l : list action) (t : thread E) :
  all_enabled l t = true -> steps t (exec_all 9 l t).
Proof.
  revert t. induction l as [|a l IH]; intros t Hl; [apply steps_refl|].
  cbn [exec_all all_enabled] in *. apply andb_prop in Hl as [Hen%enabledb_ok Hl].
  destruct (exec 9 a t) as [t'| | |] eqn:Hx; [|done..].
  by eapply steps_step; [|exact Hx|apply IH].
Qed.

(** ** The theorems *)

(** C17. In every reachable state of a thread the linked list of coroutines is a
    ring that starts at the polling coroutine, the running coroutine is in it, the
    queue pairs to be polled are exactly those of the unacknowledged requests, and
    each coroutine's pending count is the number of its own unacknowledged requests;
    a coroutine that has left the ring has one, so no wake-up is lost. Nothing but
    a failed completion is ever dropped. *)
Theorem scheduler_loses_no_wakeup {E} `{NicLaws E} (n : nat) (t : thread E) :
  (0 < n)%nat -> reachable n t ->
  exists lost R,
    ring (sched t) R /\ (current t = 0 \/ current t ∈ R) /\
    pending_qps (sched t) ≡ₚ map fst (outstanding (nic t) ++ lost) /\
    (forall c, 0 < c < Z.of_nat n ->
       get (pending_counts (sched t)) c = Some (count_of c (outstanding (nic t) ++ lost)) /\
       (c ∈ R \/ 0 < count_of c (outstanding (nic t) ++ lost))) /\
    (reliable (E := E) -> lost = []).
Proof.
  intros Hn Hr. destruct (reachable_wf n Hn t Hr) as (lost & R & [[Hs Hq] Hc _] & Hrel).
  exists lost, R. split; [by apply (wf_ring _ _ _ _ Hs)|]. do 2 (split; [done|]). split; [|done].
  intros c Hcn. split; [apply (wf_counts _ _ _ _ Hs); unfold is_coro; lia|].
  destruct (decide (c ∈ R)); [by left|right]. by apply (wf_waiting _ _ _ _ Hs).
Qed.

Definition three : thread fifo_nic := exec_all 9 trace (started 3 (MkFifo [])).

Lemma scheduler_loses_no_wakeup_witness :
  current three = 0 /\ pending_counts (sched three) = [0; 2; 1] /\
  exists lost R,
    ring (sched three) R /\ (current three = 0 \/ current three ∈ R) /\
    pending_qps (sched three) ≡ₚ map fst (outstanding (nic three) ++ lost) /\
    (forall c, 0 < c < Z.of_nat 3 ->
       get (pending_counts (sched three)) c = Some (count_of c (outstanding (nic three) ++ lost)) /\
       (c ∈ R \/ 0 < count_of c (outstanding (nic three) ++ lost))) /\
    (reliable (E := fifo_nic) -> lost = []).
Proof.
  split; [vm_compute; reflexivity|]. split; [vm_compute; reflexivity|].
  apply (scheduler_loses_no_wakeup 3); [lia|]. unfold three.
  apply trace_reachable; [lia|reflexivity|].
  vm_compute; reflexivity.
Defined.

(** C18. No action of a reachable thread follows a bad pointer, runs out of the
    fuel of one iteration per pending queue pair, or violates an assertion: it
    succeeds, unless the card reports a fatal completion while polling. *)
Theorem scheduler_never_faults {E} `{NicLaws E} (n fuel : nat) (t : thread E) (a : action) :
  (0 < n)%nat -> reachable n t -> enabled a t -> (length (pending_qps (sched t)) < fuel)%nat ->
  (exists t', exec fuel a t = Ok t') \/
  (a = APoll /\ exec fuel a t = Exit /\ fatal_completion (E := E)).
Proof.
  intros Hn Hr He Hf. destruct (reachable_wf n Hn t Hr) as (lost & R & Hwf & _).
  pose proof (exec_spec n Hn fuel a t lost R Hwf He) as Hspec.
  destruct (exec fuel a t) as [t'| | |]; [left; by exists t'|right; tauto|done|lia].
Qed.

Lemma scheduler_never_faults_witness :
  (exists t', exec 4 APoll three = Ok t') \/
  (APoll = APoll /\ exec 4 APoll three = Exit /\ fatal_completion (E := fifo_nic)).
Proof.
  apply (scheduler_never_faults 3); [lia| |vm_compute; reflexivity|vm_compute; lia].
  unfold three. apply trace_reachable; [lia|reflexivity|].
  vm_compute; reflexivity.
Defined.

(** C19. With a card that answers promptly and accepts every request, one poll of
    the polling coroutine acknowledges all outstanding requests and makes every
    coroutine runnable; if each coroutine then posts a request and yields, the
    round runs every coroutine exactly once and ends in the polling coroutine. *)
Theorem every_round_runs_everyone {E} `{NicLaws E} (n fuel : nat) (t : thread E) (qp d o sz : Z) :
  (0 < n)%nat -> prompt (E := E) -> (forall (e : E) qp r, fst (post e qp r) = true) ->
  reachable n t -> current t = 0 -> (length (pending_qps (sched t)) < fuel)%nat ->
  exists t1 ran t2,
    exec fuel APoll t = Ok t1 /\ outstanding (nic t1) = [] /\ pending_qps (sched t1) = [] /\
    round qp d o sz (n - 1) t1 = Ok (ran, t2) /\ ran ≡ₚ seqZ 1 (Z.of_nat n - 1) /\ current t2 = 0.
Proof.
  intros Hn Hp Hpost Hr Hc Hf. destruct (reachable_wf n Hn t Hr) as (lost & R & Hwf & Hrel).
  rewrite (Hrel (prompt_reliable Hp)) in Hwf.
  destruct (prompt_poll n Hn t fuel R Hp Hwf Hc Hf) as (t1 & R1 & Hx & Hwf1 & Hc1 & Ho & Hq & Hall).
  pose proof (members_perm n Hn t1 [] R1 Hwf1 Hall) as Hperm.
  destruct (round_spec n Hn qp d o sz R1 t1 [] Hpost Hwf1 Hc1) as (t2 & Hround & _ & Hc2).
  exists t1, R1, t2. do 3 (split; [done|]). split; [|done].
  replace (n - 1)%nat with (length R1); [done|]. rewrite Hperm, length_seqZ. lia.
Qed.

Lemma every_round_runs_everyone_witness :
  exists t1 ran t2,
    exec 4 APoll three = Ok t1 /\ outstanding (nic t1) = [] /\ pending_qps (sched t1) = [] /\
    round 7 0 0 8 (3 - 1) t1 = Ok (ran, t2) /\ ran ≡ₚ seqZ 1 (Z.of_nat 3 - 1) /\ current t2 = 0.
Proof.
  apply (every_round_runs_everyone 3 4 three 7 0 0 8);
    [lia|exact fifo_prompt|reflexivity| |vm_compute; reflexivity|vm_compute; lia].
  unfold three. apply trace_reachable; [lia|reflexivity|].
  vm_compute; reflexivity.
Defined.

(** A completion that reports exhausted retries is consumed without an
    acknowledgement: a coroutine that waits, and for which nothing is outstanding
    any more, never runs again, whatever the thread does. *)
Theorem dropped_completion_waits_forever {E} `{NicLaws E} (n : nat) (t t' : thread E) (c : Z) :
  (0 < n)%nat -> reachable n t -> 0 < c < Z.of_nat n ->
  (forall R, ring (sched t) R -> c ∉ R) -> count_of c (outstanding (nic t)) = 0 ->
  steps t t' ->
  current t' <> c /\ forall R, ring (sched t') R -> c ∉ R.
Proof.
  intros Hn Hr Hcn Hring Hz Hst. destruct (reachable_wf n Hn t Hr) as (lost & R & Hwf & _).
  destruct (wf_thread_state _ _ _ _ Hwf) as [Hs _].
  pose proof (Hring R (wf_ring _ _ _ _ Hs)) as Hout.
  destruct (wf_waiting _ _ _ _ Hs c Hcn Hout) as [_ Hpos]. rewrite count_of_app, Hz in Hpos.
  destruct (count_of_pos c lost Hpos) as [qp Hin].
  destruct (dropped_stays n Hn t t' lost R qp c Hwf Hin Hout Hst) as (lost' & R' & [[Hs' _] Hcur' _] & Hout').
  split.
  - intros Ec. destruct Hcur' as [E0|Hin']; [lia|]. by rewrite Ec in Hin'.
  - intros R2 HR2. by rewrite (ring_unique _ _ _ HR2 (wf_ring _ _ _ _ Hs')).
Qed.

Definition stuck : thread retry_nic := exec_all 9 [APoll; ARead 7 0 0 8; AYield; APoll] (started 2 (MkRetry (MkFifo []))).

Lemma dropped_completion_waits_forever_witness :
  current (exec_all 9 [APoll; APoll] stuck) <> 1 /\
  forall R, ring (sched (exec_all 9 [APoll; APoll] stuck)) R -> 1 ∉ R.
Proof.
  apply (dropped_completion_waits_forever 2 stuck).
  - lia.
  - unfold stuck. apply trace_reachable; [lia|reflexivity|].
    vm_compute; reflexivity.
  - lia.
  - assert (ring (sched stuck) []) as Hr.
    { split; [vm_compute; reflexivity..|apply NoDup_singleton]. }
    intros R HR. rewrite (ring_unique _ _ _ HR Hr). apply not_elem_of_nil.
  - vm_compute; reflexivity.
  - apply trace_steps. vm_compute; reflexivity.
Defined.
