(* ===== verification/Doorbell.v ===== *)
(** The doorbell batches of core/metadata/doorbell: chains of two or three requests
    that are posted to a queue pair in one operation. *)
From S2P Require Import Prelude Words Outcome Verbs Scheduler.

(** ** Data *)

(** The arrays of a batch; [next] and [sg_list] are indices of them. *)
Record batch := MkBatch { sr : list ibv_send_wr; sge : list ibv_sge }.

(** What a batch reads of a queue pair: its memory regions. *)
Record MemoryAttr := MkMr { buf : Z; key : Z }.
Record RCQP := MkQp { qp_id : Z; remote_mr_ : MemoryAttr; local_mr_ : MemoryAttr }.

Definition upd_sr (i : nat) (f : ibv_send_wr -> ibv_send_wr) (b : batch) : batch :=
  MkBatch (alter f i (sr b)) (sge b).
Definition upd_sge (i : nat) (f : ibv_sge -> ibv_sge) (b : batch) : batch :=
  MkBatch (sr b) (alter f i (sge b)).

Definition set_opcode (o : ibv_wr_opcode) (w : ibv_send_wr) : ibv_send_wr :=
  MkSendWr (wr_id w) (next w) (sg_list w) (num_sge w) o (send_flags w) (wr w).
Definition or_flags (f : Z) (w : ibv_send_wr) : ibv_send_wr :=
  MkSendWr (wr_id w) (next w) (sg_list w) (num_sge w) (opcode w) (Z.lor (send_flags w) f) (wr w).
Definition upd_wr (f : wr_union -> wr_union) (w : ibv_send_wr) : ibv_send_wr :=
  MkSendWr (wr_id w) (next w) (sg_list w) (num_sge w) (opcode w) (send_flags w) (f (wr w)).
Definition set_buffer (a len : Z) (g : ibv_sge) : ibv_sge := MkSge a (u32 len) (lkey g).
Definition set_lkey (k : Z) (g : ibv_sge) : ibv_sge := MkSge (addr g) (length_ g) (u32 k).

(** A request of a constructor: the fields it leaves alone keep what the memory
    held, [w]. *)
Definition link (i : nat) (flags : Z) (nxt : option nat) (w : ibv_send_wr) : ibv_send_wr :=
  MkSendWr (wr_id w) nxt i 1 (opcode w) flags (wr w).

(** The constructors: two requests (DoorbellBatch and its subclasses) or three. *)
Definition DoorbellBatch (w0 w1 : ibv_send_wr) (g0 g1 : ibv_sge) : batch :=
  MkBatch [link 0 0 (Some 1%nat) w0; link 1 IBV_SEND_SIGNALED None w1] [g0; g1].

Definition InvisibleWriteFlushBatch (w0 w1 w2 : ibv_send_wr) (g0 g1 g2 : ibv_sge) : batch :=
  MkBatch [link 0 0 (Some 1%nat) w0; link 1 0 (Some 2%nat) w1; link 2 IBV_SEND_SIGNALED None w2]
    [g0; g1; g2].

Definition ComparatorUpdateRemote (w0 w1 w2 : ibv_send_wr) (g0 g1 g2 : ibv_sge) : batch :=
  MkBatch [link 0 0 (Some 1%nat) w0; link 1 0 (Some 2%nat) w1; link 2 IBV_SEND_SIGNALED None w2]
    [g0; g1; g2].

(** ** Filling in the requests of a batch *)

Definition sizeof_uint64_t : Z := 8.

(** The base of the remote region is added to the offset ([uint64_t]). *)
Definition add_base (base : Z) (u : wr_union) : wr_union :=
  set_remote_addr (u64 (remote_addr u + base)) u.

Definition fill_atomic (i : nat) (mr : MemoryAttr) (b : batch) : batch :=
  upd_sr i (upd_wr (fun u => set_atomic_rkey (u32 (key mr)) (add_base (buf mr) u))) b.
Definition fill_rdma (i : nat) (mr : MemoryAttr) (b : batch) : batch :=
  upd_sr i (upd_wr (fun u => set_rdma_rkey (key mr) (add_base (buf mr) u))) b.
Definition fill_either (use_cas : bool) (i : nat) (mr : MemoryAttr) (b : batch) : batch :=
  if use_cas then fill_atomic i mr b else fill_rdma i mr b.
Definition fill_lkey (i : nat) (qp : RCQP) (b : batch) : batch :=
  upd_sge i (set_lkey (key (local_mr_ qp))) b.

Module LockReadBatch.
Definition SetLockReq (local_addr remote_off compare swap : Z) (b : batch) : batch :=
  let b := upd_sr 0 (set_opcode IBV_WR_ATOMIC_CMP_AND_SWP) b in
  let b := upd_sr 0 (upd_wr (set_remote_addr remote_off)) b in
  let b := upd_sr 0 (upd_wr (set_compare_add compare)) b in
  let b := upd_sr 0 (upd_wr (set_swap swap)) b in
  upd_sge 0 (set_buffer local_addr sizeof_uint64_t) b.

Definition SetReadReq (local_addr remote_off size : Z) (b : batch) : batch :=
  let b := upd_sr 1 (set_opcode IBV_WR_RDMA_READ) b in
  let b := upd_sr 1 (upd_wr (set_remote_addr remote_off)) b in
  upd_sge 1 (set_buffer local_addr size) b.

(** FillParams and the first part of SendReqs are the same assignments. (FillParams
    is declared to return a [bool] and returns nothing.) *)
Definition FillParams (qp : RCQP) (b : batch) : batch :=
  let b := fill_lkey 0 qp (fill_atomic 0 (remote_mr_ qp) b) in
  fill_lkey 1 qp (fill_rdma 1 (remote_mr_ qp) b).

Definition SendReqs {E} `{Nic E} (coro_id : Z) (qp : RCQP) (b : batch) :=
  RDMABatch (E := E) coro_id (qp_id qp) (sr (FillParams qp b)) 1.
End LockReadBatch.

Module WriteUnlockBatch.
Definition SetWritePrimaryReq (local_addr remote_off size : Z) (b : batch) : batch :=
  let b := upd_sr 0 (set_opcode IBV_WR_RDMA_WRITE) b in
  let b := upd_sr 0 (upd_wr (set_remote_addr remote_off)) b in
  let b := upd_sge 0 (set_buffer local_addr size) b in
  if size <? 64 then upd_sr 0 (or_flags IBV_SEND_INLINE) b else b.

Definition SetUnLockReq (local_addr remote_off : Z) (b : batch) : batch :=
  let b := upd_sr 1 (set_opcode IBV_WR_RDMA_WRITE) b in
  let b := upd_sr 1 (or_flags IBV_SEND_INLINE) b in
  let b := upd_sr 1 (upd_wr (set_remote_addr remote_off)) b in
  upd_sge 1 (set_buffer local_addr sizeof_uint64_t) b.

(** The overload that unlocks with a compare-and-swap. *)
Definition SetUnLockReq_cas (local_addr remote_off compare swap : Z) (b : batch) : batch :=
  let b := upd_sr 1 (set_opcode IBV_WR_ATOMIC_CMP_AND_SWP) b in
  let b := upd_sr 1 (upd_wr (set_remote_addr remote_off)) b in
  let b := upd_sr 1 (upd_wr (set_compare_add compare)) b in
  let b := upd_sr 1 (upd_wr (set_swap swap)) b in
  upd_sge 1 (set_buffer local_addr sizeof_uint64_t) b.

(** The arrays that SendReqs posts. *)
Definition prepare (qp : RCQP) (use_cas : bool) (b : batch) : batch :=
  let b := fill_lkey 0 qp (fill_rdma 0 (remote_mr_ qp) b) in
  fill_lkey 1 qp (fill_either use_cas 1 (remote_mr_ qp) b).

Definition SendReqs {E} `{Nic E} (coro_id : Z) (qp : RCQP) (use_cas : bool) (b : batch) :=
  RDMABatch (E := E) coro_id (qp_id qp) (sr (prepare qp use_cas b)) 1.
End WriteUnlockBatch.

Module InvisibleWriteBatch.
Definition SetInvisibleReq_cas (local_addr remote_off compare swap : Z) (b : batch) : batch :=
  let b := upd_sr 0 (set_opcode IBV_WR_ATOMIC_CMP_AND_SWP) b in
  let b := upd_sr 0 (upd_wr (set_remote_addr remote_off)) b in
  let b := upd_sr 0 (upd_wr (set_compare_add compare)) b in
  let b := upd_sr 0 (upd_wr (set_swap swap)) b in
  upd_sge 0 (set_buffer local_addr sizeof_uint64_t) b.

Definition SetInvisibleReq (local_addr remote_off : Z) (b : batch) : batch :=
  let b := upd_sr 0 (set_opcode IBV_WR_RDMA_WRITE) b in
  let b := upd_sr 0 (or_flags IBV_SEND_INLINE) b in
  let b := upd_sr 0 (upd_wr (set_remote_addr remote_off)) b in
  upd_sge 0 (set_buffer local_addr sizeof_uint64_t) b.

Definition SetWriteRemoteReq (local_addr remote_off size : Z) (b : batch) : batch :=
  let b := upd_sr 1 (set_opcode IBV_WR_RDMA_WRITE) b in
  let b := upd_sr 1 (upd_wr (set_remote_addr remote_off)) b in
  let b := upd_sge 1 (set_buffer local_addr size) b in
  if size <? 64 then upd_sr 1 (or_flags IBV_SEND_INLINE) b else b.

Definition prepare (qp : RCQP) (use_cas : bool) (b : batch) : batch :=
  let b := fill_lkey 0 qp (fill_either use_cas 0 (remote_mr_ qp) b) in
  fill_lkey 1 qp (fill_rdma 1 (remote_mr_ qp) b).

Definition SendReqs {E} `{Nic E} (coro_id : Z) (qp : RCQP) (use_cas : bool) (b : batch) :=
  RDMABatch (E := E) coro_id (qp_id qp) (sr (prepare qp use_cas b)) 1.

Definition SendReqsSync {E} `{Nic E} (fuel : nat) (coro_id : Z) (qp : RCQP) (use_cas : bool) (b : batch) :=
  RDMABatchSync (E := E) fuel coro_id (qp_id qp) (sr (prepare qp use_cas b)) 1.
End InvisibleWriteBatch.

Module WriteFlushBatch.
Definition SetWriteRemoteReq (local_addr remote_off size : Z) (b : batch) : batch :=
  let b := upd_sr 0 (set_opcode IBV_WR_RDMA_WRITE) b in
  let b := upd_sr 0 (upd_wr (set_remote_addr remote_off)) b in
  let b := upd_sge 0 (set_buffer local_addr size) b in
  if size <? 64 then upd_sr 0 (or_flags IBV_SEND_INLINE) b else b.

Definition SetReadRemoteReq (local_addr remote_off size : Z) (b : batch) : batch :=
  let b := upd_sr 1 (set_opcode IBV_WR_RDMA_READ) b in
  let b := upd_sr 1 (upd_wr (set_remote_addr remote_off)) b in
  upd_sge 1 (set_buffer local_addr size) b.

(** The remote region is an argument here. *)
Definition prepare (qp : RCQP) (remote_mr : MemoryAttr) (b : batch) : batch :=
  let b := fill_lkey 0 qp (fill_rdma 0 remote_mr b) in
  fill_lkey 1 qp (fill_rdma 1 remote_mr b).

Definition SendReqs {E} `{Nic E} (coro_id : Z) (qp : RCQP) (remote_mr : MemoryAttr) (b : batch) :=
  RDMABatch (E := E) coro_id (qp_id qp) (sr (prepare qp remote_mr b)) 1.
End WriteFlushBatch.

(** The two batches of three requests. *)
Module InvisibleWriteFlush.
Definition SetInvisibleReq (local_addr remote_off : Z) (b : batch) : batch :=
  let b := upd_sr 0 (set_opcode IBV_WR_RDMA_WRITE) b in
  let b := upd_sr 0 (or_flags IBV_SEND_INLINE) b in
  let b := upd_sr 0 (upd_wr (set_remote_addr remote_off)) b in
  upd_sge 0 (set_buffer local_addr sizeof_uint64_t) b.

Definition SetWriteRemoteReq (local_addr remote_off size : Z) (b : batch) : batch :=
  let b := upd_sr 1 (set_opcode IBV_WR_RDMA_WRITE) b in
  let b := upd_sr 1 (upd_wr (set_remote_addr remote_off)) b in
  let b := upd_sge 1 (set_buffer local_addr size) b in
  if size <? 64 then upd_sr 1 (or_flags IBV_SEND_INLINE) b else b.

Definition SetReadRemoteReq (local_addr remote_off size : Z) (b : batch) : batch :=
  let b := upd_sr 2 (set_opcode IBV_WR_RDMA_READ) b in
  let b := upd_sr 2 (upd_wr (set_remote_addr remote_off)) b in
  upd_sge 2 (set_buffer local_addr size) b.

Definition prepare (qp : RCQP) (use_cas : bool) (b : batch) : batch :=
  let b := fill_lkey 0 qp (fill_either use_cas 0 (remote_mr_ qp) b) in
  let b := fill_lkey 1 qp (fill_rdma 1 (remote_mr_ qp) b) in
  fill_lkey 2 qp (fill_rdma 2 (remote_mr_ qp) b).

Definition SendReqs {E} `{Nic E} (coro_id : Z) (qp : RCQP) (use_cas : bool) (b : batch) :=
  RDMABatch (E := E) coro_id (qp_id qp) (sr (prepare qp use_cas b)) 2.
End InvisibleWriteFlush.

Module ComparatorUpdate.
Definition SetInvisibleReq (local_addr remote_off : Z) (b : batch) : batch :=
  let b := upd_sr 0 (set_opcode IBV_WR_RDMA_WRITE) b in
  let b := upd_sr 0 (or_flags IBV_SEND_INLINE) b in
  let b := upd_sr 0 (upd_wr (set_remote_addr remote_off)) b in
  upd_sge 0 (set_buffer local_addr sizeof_uint64_t) b.

Definition SetWriteRemoteReq (local_addr remote_off size : Z) (b : batch) : batch :=
  let b := upd_sr 1 (set_opcode IBV_WR_RDMA_WRITE) b in
  let b := upd_sr 1 (upd_wr (set_remote_addr remote_off)) b in
  let b := upd_sge 1 (set_buffer local_addr size) b in
  if size <? 64 then upd_sr 1 (or_flags IBV_SEND_INLINE) b else b.

Definition SetReleaseReq (local_addr remote_off : Z) (b : batch) : batch :=
  let b := upd_sr 2 (set_opcode IBV_WR_RDMA_WRITE) b in
  let b := upd_sr 2 (or_flags IBV_SEND_INLINE) b in
  let b := upd_sr 2 (upd_wr (set_remote_addr remote_off)) b in
  upd_sge 2 (set_buffer local_addr sizeof_uint64_t) b.

Definition prepare (qp : RCQP) (use_cas : bool) (b : batch) : batch :=
  let b := fill_lkey 0 qp (fill_either use_cas 0 (remote_mr_ qp) b) in
  let b := fill_lkey 1 qp (fill_rdma 1 (remote_mr_ qp) b) in
  fill_lkey 2 qp (fill_rdma 2 (remote_mr_ qp) b).

Definition SendReqs {E} `{Nic E} (coro_id : Z) (qp : RCQP) (use_cas : bool) (b : batch) :=
  RDMABatch (E := E) coro_id (qp_id qp) (sr (prepare qp use_cas b)) 2.
End ComparatorUpdate.
