(* ===== verification/DoorbellTheorems.v ===== *)
(** What the doorbell batches post: one chain in the order of the array whose last
    request alone is signaled, and the operations that the card executes for it. *)
From S2P Require Import Prelude Words Outcome Verbs Scheduler SchedulerFacts Doorbell.

(** ** The shape of a batch *)

(** Request [i] of a batch of [k] points to the next one and to its own scatter
    element; only the last one is signaled. *)
Definition shape_of (k i : nat) (w : ibv_send_wr) : Prop :=
  next w = (if decide (S i < k)%nat then Some (S i) else None) /\ sg_list w = i /\ num_sge w = 1 /\
  is_signaled (send_flags w) = bool_decide (S i = k).

Definition shaped (k : nat) (b : batch) : Prop :=
  length (sr b) = k /\ length (sge b) = k /\ forall i w, sr b !! i = Some w -> shape_of k i w.

(** Assignments that keep the links and the signaled flag. *)
Definition keeps_shape (f : ibv_send_wr -> ibv_send_wr) : Prop :=
  forall w, next (f w) = next w /\ sg_list (f w) = sg_list w /\ num_sge (f w) = num_sge w /\
    is_signaled (send_flags (f w)) = is_signaled (send_flags w).

Lemma shaped_upd_sr k i f b : keeps_shape f -> shaped k b -> shaped k (upd_sr i f b).
Proof.
  intros Hf (H1 & H2 & H3). split; [cbn; by rewrite length_alter|]. split; [done|].
  intros j w Hw. cbn [upd_sr sr] in Hw. rewrite list_lookup_alter in Hw.
  case_decide as Hij; [|by apply H3]. subst j.
  destruct (sr b !! i) as [w0|] eqn:Hw0; [|done]. injection Hw as <-.
  destruct (Hf w0) as (E1 & E2 & E3 & E4). unfold shape_of. rewrite E1, E2, E3, E4. by apply H3.
Qed.

Lemma shaped_upd_sge k i f b : shaped k b -> shaped k (upd_sge i f b).
Proof. intros (H1 & H2 & H3). split; [done|]. split; [cbn; by rewrite length_alter|done]. Qed.

Lemma keeps_set_opcode o : keeps_shape (set_opcode o).
Proof. by intros w. Qed.
Lemma keeps_upd_wr f : keeps_shape (upd_wr f).
Proof. by intros w. Qed.
Lemma keeps_set_wr_id i : keeps_shape (set_wr_id i).
Proof. by intros w. Qed.
Lemma keeps_inline : keeps_shape (or_flags IBV_SEND_INLINE).
Proof.
  intros w. do 3 (split; [done|]). unfold is_signaled, or_flags. cbn [send_flags].
  rewrite Z.land_lor_distr_l. by rewrite Z.lor_0_r.
Qed.

Create HintDb shape.
#[export] Hint Resolve keeps_set_opcode keeps_upd_wr keeps_set_wr_id keeps_inline
  shaped_upd_sr shaped_upd_sge : shape.

(** ** The chain of a batch *)

Lemma chain_from_shaped k sr fuel i :
  length sr = k -> (forall j w, sr !! j = Some w -> shape_of k j w) -> (k <= i + fuel)%nat -> (i < k)%nat ->
  chain_from fuel sr i = drop i sr.
Proof.
  intros Hlen Hsh. revert i. induction fuel as [|fuel IH]; intros i Hf Hi; [lia|].
  cbn [chain_from]. destruct (lookup_lt_is_Some_2 sr i) as [w Hw]; [lia|]. rewrite Hw.
  rewrite (drop_S sr w i Hw). f_equal. destruct (Hsh i w Hw) as (Hn & _). rewrite Hn.
  case_decide as Hd; [apply IH; lia|]. rewrite drop_ge by lia. done.
Qed.

Lemma batch_chain_shaped k sr :
  length sr = k -> (forall j w, sr !! j = Some w -> shape_of k j w) -> batch_chain sr = sr.
Proof.
  intros Hlen Hsh. unfold batch_chain. destruct sr as [|w sr]; [done|].
  rewrite (chain_from_shaped k) by (done || cbn [length] in *; lia). by rewrite drop_0.
Qed.

(** The completions of a shaped chain: the id of its last request. *)
Lemma completions_shaped k sr w :
  length sr = k -> (forall j w, sr !! j = Some w -> shape_of k j w) -> sr !! (k - 1)%nat = Some w ->
  completions_of (PostBatch sr) = [wr_id w].
Proof.
  intros Hlen Hsh Hw. cbn [completions_of]. rewrite (batch_chain_shaped k) by done.
  pose proof (lookup_lt_Some _ _ _ Hw) as Hlt.
  assert (sr = take (k - 1) sr ++ [w]) as Hsplit.
  { rewrite <- (take_drop (k - 1) sr) at 1. f_equal. rewrite (drop_S sr w (k - 1) Hw).
    rewrite drop_ge by lia. done. }
  assert (filter (fun w => is_signaled (send_flags w) = true) (take (k - 1) sr) = []) as Hnone.
  { apply elem_of_nil_inv. intros v Hv%list_elem_of_filter. destruct Hv as [Hs Hv].
    apply list_elem_of_lookup in Hv as [j Hj]. apply lookup_take_Some in Hj as [Hj Hjk].
    destruct (Hsh j v Hj) as (_ & _ & _ & Hsig). rewrite Hs in Hsig.
    symmetry in Hsig. apply bool_decide_eq_true in Hsig. lia. }
  destruct (Hsh _ _ Hw) as (_ & _ & _ & Hsig). rewrite bool_decide_eq_true_2 in Hsig by lia.
  rewrite Hsplit, filter_app, Hnone, filter_cons_True by done. done.
Qed.

(** ** Built batches *)

(** The assignments that a batch of [k] requests may undergo, in any order and
    number: the setters of its class, and the preparation for sending. *)
Inductive setter : nat -> (batch -> batch) -> Prop :=
| s_lock l o c w : setter 2 (LockReadBatch.SetLockReq l o c w)
| s_read l o n : setter 2 (LockReadBatch.SetReadReq l o n)
| s_fill qp : setter 2 (LockReadBatch.FillParams qp)
| s_primary l o n : setter 2 (WriteUnlockBatch.SetWritePrimaryReq l o n)
| s_unlock l o : setter 2 (WriteUnlockBatch.SetUnLockReq l o)
| s_unlock_cas l o c w : setter 2 (WriteUnlockBatch.SetUnLockReq_cas l o c w)
| s_wu_prepare qp u : setter 2 (WriteUnlockBatch.prepare qp u)
| s_inv_cas l o c w : setter 2 (InvisibleWriteBatch.SetInvisibleReq_cas l o c w)
| s_inv l o : setter 2 (InvisibleWriteBatch.SetInvisibleReq l o)
| s_write l o n : setter 2 (InvisibleWriteBatch.SetWriteRemoteReq l o n)
| s_iw_prepare qp u : setter 2 (InvisibleWriteBatch.prepare qp u)
| s_flush_write l o n : setter 2 (WriteFlushBatch.SetWriteRemoteReq l o n)
| s_flush_read l o n : setter 2 (WriteFlushBatch.SetReadRemoteReq l o n)
| s_wf_prepare qp mr : setter 2 (WriteFlushBatch.prepare qp mr)
| s_iwf_inv l o : setter 3 (InvisibleWriteFlush.SetInvisibleReq l o)
| s_iwf_write l o n : setter 3 (InvisibleWriteFlush.SetWriteRemoteReq l o n)
| s_iwf_read l o n : setter 3 (InvisibleWriteFlush.SetReadRemoteReq l o n)
| s_iwf_prepare qp u : setter 3 (InvisibleWriteFlush.prepare qp u)
| s_cu_inv l o : setter 3 (ComparatorUpdate.SetInvisibleReq l o)
| s_cu_write l o n : setter 3 (ComparatorUpdate.SetWriteRemoteReq l o n)
| s_cu_release l o : setter 3 (ComparatorUpdate.SetReleaseReq l o)
| s_cu_prepare qp u : setter 3 (ComparatorUpdate.prepare qp u).

Inductive built : nat -> batch -> Prop :=
| built_double w0 w1 g0 g1 : built 2 (DoorbellBatch w0 w1 g0 g1)
| built_flush w0 w1 w2 g0 g1 g2 : built 3 (InvisibleWriteFlushBatch w0 w1 w2 g0 g1 g2)
| built_update w0 w1 w2 g0 g1 g2 : built 3 (ComparatorUpdateRemote w0 w1 w2 g0 g1 g2)
| built_set k f b : setter k f -> built k b -> built k (f b).

Ltac unfold_setters :=
  unfold LockReadBatch.SetLockReq, LockReadBatch.SetReadReq, LockReadBatch.FillParams,
    WriteUnlockBatch.SetWritePrimaryReq, WriteUnlockBatch.SetUnLockReq, WriteUnlockBatch.SetUnLockReq_cas,
    WriteUnlockBatch.prepare, InvisibleWriteBatch.SetInvisibleReq_cas, InvisibleWriteBatch.SetInvisibleReq,
    InvisibleWriteBatch.SetWriteRemoteReq, InvisibleWriteBatch.prepare, WriteFlushBatch.SetWriteRemoteReq,
    WriteFlushBatch.SetReadRemoteReq, WriteFlushBatch.prepare, InvisibleWriteFlush.SetInvisibleReq,
    InvisibleWriteFlush.SetWriteRemoteReq, InvisibleWriteFlush.SetReadRemoteReq, InvisibleWriteFlush.prepare,
    ComparatorUpdate.SetInvisibleReq, ComparatorUpdate.SetWriteRemoteReq, ComparatorUpdate.SetReleaseReq,
    ComparatorUpdate.prepare,
    fill_either, fill_lkey, fill_atomic, fill_rdma; cbv zeta.

Lemma setter_shaped k f b : setter k f -> shaped k b -> shaped k (f b).
Proof.
  intros Hf Hb. destruct Hf;
    unfold_setters;
    repeat case_match; auto 12 with shape.
Qed.

Lemma built_shaped k b : built k b -> shaped k b.
Proof.
  induction 1 as [| | |k f b Hf _ IH]; [| | |by apply setter_shaped].
  all: split; [done|]; split; [done|]; intros i w Hw;
    do 3 (destruct i as [|i]; [first [discriminate Hw | injection Hw as <-; repeat split; reflexivity]|]); done.
Qed.

Lemma RDMABatch_shaped {E} `{Nic E} k b coro_id qp (s : CoroutineScheduler) (e : E) :
  shaped k b -> (0 < k)%nat ->
  exists sr',
    RDMABatch coro_id qp (sr b) (Z.of_nat (k - 1)) s e = post_and_count coro_id qp (PostBatch sr') s e /\
    length sr' = k /\ batch_chain sr' = sr' /\ completions_of (PostBatch sr') = [coro_id].
Proof.
  intros (H1 & H2 & H3) Hk. destruct (get_is_Some (sr b) (Z.of_nat (k - 1))) as [w Hw]; [lia|].
  unfold RDMABatch. rewrite (modify_spec _ _ _ _ Hw). cbn [mbind outcome_bind].
  eexists. split; [done|]. unfold get in Hw. 
  replace (0 <=? Z.of_nat (k - 1)) with true in Hw by zbool. rewrite Nat2Z.id in Hw. unfold set. rewrite Nat2Z.id.
  assert (forall j v, <[(k - 1)%nat:=set_wr_id coro_id w]> (sr b) !! j = Some v -> shape_of k j v) as Hsh.
  { intros j v Hv. apply list_lookup_insert_Some in Hv as [(<- & <- & _)|[_ Hv]]; [|by apply H3].
    by apply (H3 _ _ Hw). }
  split; [by rewrite length_insert|]. split; [apply (batch_chain_shaped k); [by rewrite length_insert|done]|].
  apply (completions_shaped k _ (set_wr_id coro_id w)); [by rewrite length_insert|done|].
  apply list_lookup_insert_eq. lia.
Qed.

(** A send operation that posts the whole batch as one chain, for which the card
    reports one completion, with the coroutine's id. *)
Definition sends_once {E} `{Nic E} (k : nat) (coro_id : Z) (qp : RCQP)
    (send : CoroutineScheduler -> E -> outcome (bool * CoroutineScheduler * E)) : Prop :=
  forall s e, exists posted,
    send s e = post_and_count coro_id (qp_id qp) (PostBatch posted) s e /\
    length posted = k /\ batch_chain posted = posted /\ completions_of (PostBatch posted) = [coro_id].

Lemma built_sends_once {E} `{Nic E} k f b coro_id qp :
  built k b -> setter k f -> (0 < k)%nat ->
  sends_once (E := E) k coro_id qp (RDMABatch coro_id (qp_id qp) (sr (f b)) (Z.of_nat (k - 1))).
Proof.
  intros Hb Hf Hk s e. apply RDMABatch_shaped; [|done]. apply setter_shaped; [done|by apply built_shaped].
Qed.

(** ** What the card executes *)

Inductive verb :=
| VWrite (remote_addr rkey local_addr len lkey : Z) (inline : bool)
| VRead (remote_addr rkey local_addr len lkey : Z)
| VCas (remote_addr rkey compare swap local_addr len lkey : Z)
| VSend.

(** A request as the card reads it: the opcode selects the member of the union. *)
Definition decode (gs : list ibv_sge) (w : ibv_send_wr) : option verb :=
  g ← gs !! sg_list w;
  Some match opcode w with
  | IBV_WR_RDMA_WRITE =>
      VWrite (remote_addr (wr w)) (rdma_rkey (wr w)) (addr g) (length_ g) (lkey g)
        (negb (Z.land (send_flags w) IBV_SEND_INLINE =? 0))
  | IBV_WR_RDMA_READ =>
      VRead (remote_addr (wr w)) (rdma_rkey (wr w)) (addr g) (length_ g) (lkey g)
  | IBV_WR_ATOMIC_CMP_AND_SWP =>
      VCas (remote_addr (wr w)) (atomic_rkey (wr w)) (compare_add (wr w)) (swap (wr w))
        (addr g) (length_ g) (lkey g)
  | IBV_WR_SEND => VSend
  end.

Definition decoded (b : batch) : list (option verb) := map (decode (sge b)) (batch_chain (sr b)).

Lemma rdma_rkey_set k u : rdma_rkey (set_rdma_rkey k u) = u32 k.
Proof.
  unfold rdma_rkey, set_rdma_rkey. cbn [compare_add]. unfold wrap.
  rewrite Z.shiftl_mul_pow2 by lia. rewrite Z.add_comm, Z_mod_plus_full. apply Z.mod_mod. lia.
Qed.

(** [decode_batch] evaluates the assignments, with and without the inline flag. *)
Ltac decode_batch :=
  unfold decoded; unfold_setters;
  repeat match goal with |- context [?n <? 64] => destruct (n <? 64) end;
  cbn -[u32 u64 wrap rdma_rkey set_rdma_rkey Z.add]; rewrite ?rdma_rkey_set; reflexivity.

(** ** The theorems *)

(** C20. Whatever its memory held before, a batch that went through its
    constructor and any sequence of setters and earlier sends posts, with each of
    the send operations, a chain that visits its requests in order and produces one
    completion, with the id of the coroutine: the only signaled request is the
    last one, the one that gets the id. *)
Theorem batches_send_once {E} `{Nic E} (b2 b3 : batch) (coro_id : Z) (qp : RCQP) (use_cas : bool)
    (mr : MemoryAttr) :
  built 2 b2 -> built 3 b3 ->
  sends_once (E := E) 2 coro_id qp (LockReadBatch.SendReqs coro_id qp b2) /\
  sends_once (E := E) 2 coro_id qp (WriteUnlockBatch.SendReqs coro_id qp use_cas b2) /\
  sends_once (E := E) 2 coro_id qp (InvisibleWriteBatch.SendReqs coro_id qp use_cas b2) /\
  sends_once (E := E) 2 coro_id qp (WriteFlushBatch.SendReqs coro_id qp mr b2) /\
  sends_once (E := E) 3 coro_id qp (InvisibleWriteFlush.SendReqs coro_id qp use_cas b3) /\
  sends_once (E := E) 3 coro_id qp (ComparatorUpdate.SendReqs coro_id qp use_cas b3).
Proof.
  intros H2 H3. repeat split; eapply built_sends_once; try done; try lia; constructor.
Qed.

Definition garbage : ibv_send_wr := MkSendWr 77 None 9 9 IBV_WR_SEND 15 (MkWr 5 6 7 8).
Definition garbage_sge : ibv_sge := MkSge 1 2 3.

Lemma batches_send_once_witness :
  let b2 := LockReadBatch.SetLockReq 64 128 0 1 (DoorbellBatch garbage garbage garbage_sge garbage_sge) in
  let b3 := ComparatorUpdate.SetReleaseReq 64 128
    (ComparatorUpdateRemote garbage garbage garbage garbage_sge garbage_sge garbage_sge) in
  let qp := MkQp 4 (MkMr 4096 11) (MkMr 8192 12) in
  sends_once (E := fifo_nic) 2 3 qp (LockReadBatch.SendReqs 3 qp b2) /\
  sends_once (E := fifo_nic) 2 3 qp (WriteUnlockBatch.SendReqs 3 qp true b2) /\
  sends_once (E := fifo_nic) 2 3 qp (InvisibleWriteBatch.SendReqs 3 qp true b2) /\
  sends_once (E := fifo_nic) 2 3 qp (WriteFlushBatch.SendReqs 3 qp (MkMr 0 1) b2) /\
  sends_once (E := fifo_nic) 3 3 qp (InvisibleWriteFlush.SendReqs 3 qp true b3) /\
  sends_once (E := fifo_nic) 3 3 qp (ComparatorUpdate.SendReqs 3 qp true b3).
Proof. apply batches_send_once; repeat constructor. Defined.

(** What each class sends: the verbs in order, at the remote base plus the offset,
    with the keys of the queue pair, the buffers given, and small writes inline. *)
Section Contracts.
Context (w0 w1 w2 : ibv_send_wr) (g0 g1 g2 : ibv_sge) (qp : RCQP) (mr : MemoryAttr).
Abbreviation base o := (u64 (o + buf (remote_mr_ qp))).
Abbreviation rk := (u32 (key (remote_mr_ qp))).
Abbreviation lk := (u32 (key (local_mr_ qp))).
Abbreviation double := (DoorbellBatch w0 w1 g0 g1).

Definition lock_then_read : Prop := forall l1 o1 c w l2 o2 n,
  decoded (LockReadBatch.FillParams qp (LockReadBatch.SetReadReq l2 o2 n
    (LockReadBatch.SetLockReq l1 o1 c w double))) =
  [Some (VCas (base o1) rk c w l1 8 lk); Some (VRead (base o2) rk l2 (u32 n) lk)].

Definition write_then_unlock : Prop := forall l1 o1 n l2 o2 c w,
  decoded (WriteUnlockBatch.prepare qp false (WriteUnlockBatch.SetUnLockReq l2 o2
    (WriteUnlockBatch.SetWritePrimaryReq l1 o1 n double))) =
  [Some (VWrite (base o1) rk l1 (u32 n) lk (n <? 64)); Some (VWrite (base o2) rk l2 8 lk true)] /\
  decoded (WriteUnlockBatch.prepare qp true (WriteUnlockBatch.SetUnLockReq_cas l2 o2 c w
    (WriteUnlockBatch.SetWritePrimaryReq l1 o1 n double))) =
  [Some (VWrite (base o1) rk l1 (u32 n) lk (n <? 64)); Some (VCas (base o2) rk c w l2 8 lk)].

Definition invisible_then_write : Prop := forall l1 o1 n l2 o2 c w,
  decoded (InvisibleWriteBatch.prepare qp false (InvisibleWriteBatch.SetWriteRemoteReq l2 o2 n
    (InvisibleWriteBatch.SetInvisibleReq l1 o1 double))) =
  [Some (VWrite (base o1) rk l1 8 lk true); Some (VWrite (base o2) rk l2 (u32 n) lk (n <? 64))] /\
  decoded (InvisibleWriteBatch.prepare qp true (InvisibleWriteBatch.SetWriteRemoteReq l2 o2 n
    (InvisibleWriteBatch.SetInvisibleReq_cas l1 o1 c w double))) =
  [Some (VCas (base o1) rk c w l1 8 lk); Some (VWrite (base o2) rk l2 (u32 n) lk (n <? 64))].

Definition write_then_flush : Prop := forall l1 o1 n1 l2 o2 n2,
  decoded (WriteFlushBatch.prepare qp mr (WriteFlushBatch.SetReadRemoteReq l2 o2 n2
    (WriteFlushBatch.SetWriteRemoteReq l1 o1 n1 double))) =
  [Some (VWrite (u64 (o1 + buf mr)) (u32 (key mr)) l1 (u32 n1) lk (n1 <? 64));
   Some (VRead (u64 (o2 + buf mr)) (u32 (key mr)) l2 (u32 n2) lk)].

Definition invisible_write_flush : Prop := forall l1 o1 l2 o2 n2 l3 o3 n3,
  decoded (InvisibleWriteFlush.prepare qp false (InvisibleWriteFlush.SetReadRemoteReq l3 o3 n3 (InvisibleWriteFlush.SetWriteRemoteReq l2 o2 n2
    (InvisibleWriteFlush.SetInvisibleReq l1 o1 (InvisibleWriteFlushBatch w0 w1 w2 g0 g1 g2))))) =
  [Some (VWrite (base o1) rk l1 8 lk true); Some (VWrite (base o2) rk l2 (u32 n2) lk (n2 <? 64));
   Some (VRead (base o3) rk l3 (u32 n3) lk)].

Definition invisible_write_release : Prop := forall l1 o1 l2 o2 n2 l3 o3,
  decoded (ComparatorUpdate.prepare qp false (ComparatorUpdate.SetReleaseReq l3 o3 (ComparatorUpdate.SetWriteRemoteReq l2 o2 n2
    (ComparatorUpdate.SetInvisibleReq l1 o1 (ComparatorUpdateRemote w0 w1 w2 g0 g1 g2))))) =
  [Some (VWrite (base o1) rk l1 8 lk true); Some (VWrite (base o2) rk l2 (u32 n2) lk (n2 <? 64));
   Some (VWrite (base o3) rk l3 8 lk true)].

(** C26. Each batch class, filled in by its setters and prepared with the matching
    [use_cas], makes the card execute the verbs that its name promises, in that
    order, at the remote base plus the given offsets and with the right keys and
    buffers, whatever the memory of the batch held before. *)
Theorem batches_verbs :
  lock_then_read /\ write_then_unlock /\ invisible_then_write /\ write_then_flush /\
  invisible_write_flush /\ invisible_write_release.
Proof.
  repeat split; hnf; intros; try split; decode_batch.
Qed.

(** The sends depend on the setters that were used, which nothing checks. A
    compare-and-swap that is sent with [use_cas] false has the low half of its
    comparand replaced by the remote key (the members of the union overlap) and is
    sent with whatever remote key the memory held. And the base is added again by
    each preparation: FillParams followed by SendReqs addresses the offset plus
    twice the base. *)
Theorem batches_misuse :
  (forall l1 o1 n l2 o2 c w,
    decoded (WriteUnlockBatch.prepare qp false (WriteUnlockBatch.SetUnLockReq_cas l2 o2 c w
      (WriteUnlockBatch.SetWritePrimaryReq l1 o1 n double))) =
    [Some (VWrite (base o1) rk l1 (u32 n) lk (n <? 64));
     Some (VCas (base o2) (atomic_rkey (wr w1)) (Z.shiftl (Z.shiftr c 32) 32 + rk) w l2 8 lk)]) /\
  (forall l1 o1 c w l2 o2 n,
    map (fun v => match v with Some (VCas a _ _ _ _ _ _) | Some (VRead a _ _ _ _) => a | _ => 0 end)
      (decoded (LockReadBatch.FillParams qp (LockReadBatch.FillParams qp (LockReadBatch.SetReadReq l2 o2 n
        (LockReadBatch.SetLockReq l1 o1 c w double))))) =
    [u64 (o1 + 2 * buf (remote_mr_ qp)); u64 (o2 + 2 * buf (remote_mr_ qp))]).
Proof.
  split; intros.
  - decode_batch.
  - unfold decoded. unfold_setters. cbn -[u32 u64 wrap rdma_rkey set_rdma_rkey Z.add Z.mul].
    unfold set_rdma_rkey. cbn [remote_addr add_base set_remote_addr].
    unfold wrap. rewrite !Zplus_mod_idemp_l, <- !Z.add_assoc, !Z.add_diag. reflexivity.
Qed.
End Contracts.
