(* ===== verification/AddrCache.v ===== *)
(** The client's cache of addresses and inodes (core/metadata/addr_cache.h): one
    map per memory node. The maps are cuckoo maps; here they are the finite maps that
    these stand for: [insert] does nothing when the key is present, [find] copies the
    value, [erase] removes the key. AddrCacheMaps.v puts the cuckoo maps in their place. *)
From S2P Require Import Prelude Outcome.

(** ** Data *)

Record Inode := MkInode { permission : Z; atime : Z; ctime : Z; mtime : Z; is_dir : bool }.

Record InodeCacheItem := MkCacheItem { addr : Z; inode : Inode }.

(** [cuckoohash_map<uint64_t, InodeCacheItem> addr_map[4]]. *)
Abbreviation AddrCache := (list (gmap Z InodeCacheItem)).

Definition new_AddrCache : AddrCache := replicate 4 ∅.

(** ** Operations *)

(** [addr_map[remote_node_id]]; an index outside of the array is a bad access. *)
Definition map_of (c : AddrCache) (remote_node_id : Z) : outcome (gmap Z InodeCacheItem) :=
  deref (if 0 <=? remote_node_id then c !! Z.to_nat remote_node_id else None).

Definition Insert (remote_node_id key : Z) (i : InodeCacheItem) (c : AddrCache) : outcome AddrCache :=
  m ← map_of c remote_node_id;
  let m := match m !! key with Some _ => m | None => <[key := i]> m end in
  Ok (<[Z.to_nat remote_node_id := m]> c).

Definition Remove (remote_node_id key : Z) (c : AddrCache) : outcome AddrCache :=
  m ← map_of c remote_node_id;
  Ok (<[Z.to_nat remote_node_id := delete key m]> c).

(** [None] if the item is not found. *)
Definition Search (remote_node_id key : Z) (c : AddrCache) : outcome (option InodeCacheItem) :=
  m ← map_of c remote_node_id;
  Ok (m !! key).

(** ** Theorems *)

(** The caches that the constructor and the operations produce. *)
Definition four_nodes (c : AddrCache) : Prop := length c = 4%nat.

Definition is_node (node : Z) : Prop := 0 <= node < 4.

Lemma map_of_spec c node :
  four_nodes c ->
  (is_node node /\ exists m, map_of c node = Ok m /\ c !! Z.to_nat node = Some m) \/
  (~ is_node node /\ map_of c node = Fault).
Proof.
  unfold four_nodes, is_node, map_of. intros Hc. destruct (Z.leb_spec 0 node) as [Hn|Hn]; [|right; split; [lia|done]].
  destruct (c !! Z.to_nat node) as [m|] eqn:Hm.
  - left. apply lookup_lt_Some in Hm as Hlt. split; [lia|]. by exists m.
  - right. apply lookup_ge_None in Hm. split; [lia|done].
Qed.

Lemma map_of_cases c node : (exists m, map_of c node = Ok m) \/ map_of c node = Fault.
Proof. unfold map_of. destruct (if _ : bool then _ else _); [left; by eexists|by right]. Qed.

(** Replacing the map of a node. *)
Lemma Search_set c node m node' key :
  four_nodes c -> is_node node -> is_node node' ->
  Search node' key (<[Z.to_nat node := m]> c) =
    if decide (node' = node) then Ok (m !! key) else Search node' key c.
Proof.
  unfold four_nodes, is_node, Search, map_of. intros Hc Hn Hn'. test (0 <=? node') is true.
  case_decide as E.
  - subst. by rewrite list_lookup_insert_eq by lia.
  - by rewrite list_lookup_insert_ne by lia.
Qed.

(** The operations of the address cache on the nodes 0 to 3. A search finds what the
    operations so far have left: an insertion does not replace an item that is
    already cached for the key, unlike its comment says, so the first address
    counts until the key is removed; other keys and nodes are not touched. Any other
    node id is an access outside of the array. *)
Theorem addr_cache_spec (c : AddrCache) (node key : Z) (i : InodeCacheItem) :
  four_nodes c ->
  (is_node node ->
   (exists old c1 c2, Search node key c = Ok old /\ Insert node key i c = Ok c1 /\ Remove node key c = Ok c2 /\
     four_nodes c1 /\ four_nodes c2 /\
     forall node' key', is_node node' ->
       Search node' key' c1 =
         (if decide (node' = node /\ key' = key) then Ok (Some (default i old)) else Search node' key' c) /\
       Search node' key' c2 =
         (if decide (node' = node /\ key' = key) then Ok None else Search node' key' c))) /\
  (~ is_node node ->
   Search node key c = Fault /\ Insert node key i c = Fault /\ Remove node key c = Fault).
Proof.
  intros Hc. destruct (map_of_spec c node Hc) as [(Hn & m & Hm & Hl)|(Hn & Hm)];
    (split; intros Hn'; [|]); try done; unfold Search, Insert, Remove; rewrite Hm; [|done].
  cbn [mbind outcome_bind]. eexists _, _, _. split; [done|]. split; [done|]. split; [done|].
  split; [unfold four_nodes; by rewrite length_insert|].
  split; [unfold four_nodes; by rewrite length_insert|]. intros node' key' Hnode'.
  assert (Search node key' c = Ok (m !! key')) as Hsame by (unfold Search; by rewrite Hm).
  fold (Search node' key' c).
  pose proof (Search_set c node (match m !! key with Some _ => m | None => <[key:=i]> m end) node' key' Hc Hn Hnode') as H1.
  pose proof (Search_set c node (delete key m) node' key' Hc Hn Hnode') as H2.
  unfold Search in H1, H2 |- *. rewrite H1, H2. clear H1 H2.
  destruct (decide (node' = node)) as [->|Hne].
  - unfold Search in Hsame. rewrite Hsame. destruct (decide (key' = key)) as [->|Hk].
    + rewrite !decide_True by done. rewrite lookup_delete_eq. split; [|done].
      destruct (m !! key) as [x|] eqn:Hx; cbn [default]; [by rewrite Hx|by rewrite lookup_insert_eq].
    + rewrite !decide_False by (by intros []). rewrite lookup_delete_ne by done. split; [|done].
      destruct (m !! key); [done|]. by rewrite lookup_insert_ne.
  - by rewrite !decide_False by (by intros []).
Qed.

Definition file_inode : InodeCacheItem := MkCacheItem 64 (MkInode 7 0 0 0 false).

Lemma addr_cache_spec_witness :
  Search 5 1 new_AddrCache = Fault /\
  exists c, Insert 2 1 file_inode new_AddrCache = Ok c /\ Search 2 1 c = Ok (Some file_inode).
Proof.
  split.
  - apply (proj2 (addr_cache_spec new_AddrCache 5 1 file_inode eq_refl) ltac:(unfold is_node; lia)).
  - destruct (proj1 (addr_cache_spec new_AddrCache 2 1 file_inode eq_refl) ltac:(unfold is_node; lia))
      as (old & c1 & c2 & Hs & Hi & _ & _ & _ & Hf).
    exists c1. split; [exact Hi|]. specialize (Hf 2 1 ltac:(unfold is_node; lia)) as [Hf _].
    rewrite decide_True in Hf by done. vm_compute in Hs. injection Hs as <-. exact Hf.
Defined.
