(* ===== verification/ComputeNode.v ===== *)
(** The compute node (compute_pool/worker/handler.cc, worker.cc, worker.h, run/run.cc,
    run/run_micro.cc): configuration, the parameters and the start of the threads, the
    barrier after the connections, and the statistics of a run. *)
From stdpp Require Import strings sorting.
From Stdlib Require Import Ascii.
From S2P Require Import Prelude Words Outcome Doubles Random Zipf Alloc Verbs Scheduler AddrCache Micro.

(** ** Configuration *)

(** [sed -i '<n>c <text>']: a file as its lines, of which the [n]-th is replaced if there
    is one. The arguments are without quotes, backslashes and line breaks, which the shell
    or sed would read. *)
Definition sed_change (n : nat) (text : string) (file : list string) : list string := <[pred n := text]> file.

(** A setting of a configuration file: its name in quotes, and its value. *)
Definition setting (name value : string) : string :=
  let q := String (ascii_of_nat 34) EmptyString in q +:+ name +:+ q +:+ ": " +:+ value +:+ ",".

(** [s.find(sub) != npos] *)
Definition contains (s sub : string) : bool := bool_decide (is_Some (String.index 0 sub s)).

Definition txn_system_value (system_name : string) : Z :=
  if contains system_name "farm" then 0
  else if contains system_name "drtm" then 1
  else if contains system_name "ford" then 2
  else if contains system_name "local" then 3
  else 0.

(** [std::to_string] of the values 0 to 3. *)
Definition digit (x : Z) : string := String (ascii_of_nat (48 + Z.to_nat x)) EmptyString.

Definition ConfigureComputeNode (argv : list string) (config_file : list string) : outcome (list string) :=
  system_name ← deref (argv !! 2%nat);
  config_file ←
    (if (length argv =? 5)%nat then
       threads ← deref (argv !! 3%nat);
       coroutines ← deref (argv !! 4%nat);
       Ok (sed_change 6 (setting "coroutine_num" coroutines)
            (sed_change 5 (setting "thread_num_per_machine" threads) config_file))
     else Ok config_file);
  Ok (sed_change 8 (setting "txn_system" (digit (txn_system_value system_name))) config_file).

(** [arg[0]] is the end of the string if the argument is empty, and [substr(2)] of a
    shorter argument throws an exception that nothing catches. *)
Definition ConfigureComputeNodeForMICRO (argv : list string) (workload_file : list string) : outcome (list string) :=
  arg ← deref (argv !! 1%nat);
  let access_type := String.get 0 arg in
  let workload_file :=
    if bool_decide (access_type = Some "s"%char) then sed_change 4 (setting "is_skewed" "true") workload_file
    else if bool_decide (access_type = Some "u"%char) then sed_change 4 (setting "is_skewed" "false") workload_file
    else workload_file in
  _ ← assert_ (2 <=? String.length arg)%nat;
  let write_ratio := String.substring 2 (String.length arg - 2) arg in
  Ok (sed_change 7 (setting "write_ratio" write_ratio) workload_file).

(** ** The threads *)

(** [struct thread_params], without the pointers to the shared objects. *)
Record thread_params := MkThreadParams {
  thread_local_id : Z;
  thread_global_id : Z;
  thread_num_per_machine : Z;
  total_thread_num : Z;
  coro_num : Z;
  bench_name : string;
}.

(** The values of compute_node_config.json. *)
Record compute_node_config := MkComputeNodeConfig {
  cn_machine_num : Z;
  cn_machine_id : Z;
  cn_thread_num_per_machine : Z;
  cn_coroutine_num : Z;
}.

(** The parameters of thread [i]; [machine_id * thread_num_per_machine] is unsigned. *)
Definition thread_param (machine_id machine_num threads coros : Z) (bench : string) (i : Z) : thread_params :=
  MkThreadParams i (u32 (u32 (machine_id * threads) + i)) threads (u32 (threads * machine_num)) coros bench.

(** [GenThreads] and [GenThreadsForMICRO] up to the start of the threads: the region of
    the machine and the parameters of its threads. *)
Definition GenThreads (malloc : Z -> Z) (register_memory : Z -> Z -> bool) (cfg : compute_node_config) (bench : string)
    : outcome (RDMARegionAllocator * list thread_params) :=
  let machine_num := i32 (cn_machine_num cfg) in
  let machine_id := i32 (cn_machine_id cfg) in
  let threads := u32 (cn_thread_num_per_machine cfg) in
  let coros := i32 (cn_coroutine_num cfg) in
  _ ← assert_ ((0 <=? machine_id) && (machine_id <? machine_num));
  global_rdma_region ← new_RDMARegionAllocator malloc register_memory threads;
  Ok (global_rdma_region,
      map (fun i => thread_param machine_id machine_num threads coros bench (Z.of_nat i)) (seq 0 (Z.to_nat threads))).

(** The values of micro_config.json that a thread reads. *)
Record micro_config := MkMicroConfig {
  mc_num_keys : Z;
  mc_zipf_theta : spec_float;
}.

(** What a thread sets up before its coroutines run. *)
Record worker := MkWorker {
  coro_sched : CoroutineScheduler;
  rdma_buffer_allocator : RDMABufferAllocator;
  log_offset_allocator : LogOffsetAllocator;
  addr_cache : AddrCache;
  seed : Z;
  random_generator : list Z;
  zipf_gen : option ZipfGen;
}.

(** [random_generator[coro_i].SetSeed(coro_seed)]. *)
Definition coro_seed (gid coro_i : Z) : Z := Z.lor (Z.shiftl gid 32) (u64 coro_i).

(** [run_thread] up to the connections. [cycle] is what [GetCPUCycle] reads, [dbl_n] what
    the memory of the Zipf generator held; a thread needs a coroutine for polling. *)
Definition run_thread_setup (nan_bits : Z) (dbl_n : spec_float) (cycle : Z) (mc : micro_config)
    (region : RDMARegionAllocator) (p : thread_params) : outcome worker :=
  let coros := Z.to_nat (coro_num p) in
  alloc_rdma_region_range ← GetThreadLocalRegion region (thread_local_id p);
  let '(s, e) := alloc_rdma_region_range in
  _ ← (if total_thread_num p =? 0 then Fault else Ok ());
  zipf ←
    (if String.eqb (bench_name p) "micro" then
       let zipf_seed := u64 (u32 (2 * thread_global_id p) * cycle) in
       z ← new_ZipfGen nan_bits dbl_n (align_pow2 (u64 (mc_num_keys mc))) (mc_zipf_theta mc)
             (Z.land zipf_seed (Z.shiftl 1 48 - 1));
       Ok (Some z)
     else Ok None);
  sched ← LoopLinkCoroutine (coro_num p) (init_coro_ids (new_CoroutineScheduler coros));
  Ok (MkWorker sched (new_RDMABufferAllocator s e)
        (new_LogOffsetAllocator (thread_global_id p) (total_thread_num p)) new_AddrCache
        (u32 (0xdeadbeef + thread_global_id p))
        (map (fun i => coro_seed (thread_global_id p) (Z.of_nat i)) (seq 0 coros)) zipf).

(** All threads of a machine up to their connections. [cycle] and [dbl_n] are the
    readings and the memory of each thread. *)
Definition start_threads (malloc : Z -> Z) (register_memory : Z -> Z -> bool) (nan_bits : Z) (dbl_n : Z -> spec_float)
    (cycle : Z -> Z) (mc : micro_config) (cfg : compute_node_config) (bench : string) : outcome (list worker) :=
  r ← GenThreads malloc register_memory cfg bench;
  mapM (fun p => run_thread_setup nan_bits (dbl_n (thread_global_id p)) (cycle (thread_global_id p)) mc (fst r) p) (snd r).

(** ** The coroutines of a thread *)

Section Coroutines.
Context {E : Type} `{Nic E}.

(** [func()] of coroutine 0, in which [PollCompletion] loops. [RunMICRO], the function
    of the other coroutines, does nothing: it returns, and the end of a symmetric
    coroutine returns to the thread that called [func()]. [stop_run] is set by the thread
    itself, after that. *)
Fixpoint run_coroutines (fuel poll_fuel : nat) (s : CoroutineScheduler) (e : E) : outcome (CoroutineScheduler * E) :=
  match fuel with
  | O => OutOfFuel
  | S fuel =>
      r ← poll_round poll_fuel s e;
      let '(s, e, switched) := r in
      match switched with
      | Some _ => Ok (s, e)
      | None => run_coroutines fuel poll_fuel s e
      end
  end.
End Coroutines.

(** ** The barrier after the connections *)

(** A thread builds its connections, has added itself to [connected_t_num] and waits, or
    runs its coroutines. *)
Inductive phase := Connecting | Waiting | Running.

Record barrier := MkBarrier { connected_t_num : Z; phases : list phase }.

Definition start_barrier (threads : nat) : barrier := MkBarrier 0 (replicate threads Connecting).

(** The steps of the threads: [connected_t_num += 1], and a test of
    [connected_t_num != thread_num] that fails; one that succeeds changes nothing. *)
Inductive barrier_step (threads : nat) : barrier -> barrier -> Prop :=
| barrier_connect b i :
    phases b !! i = Some Connecting ->
    barrier_step threads b (MkBarrier (u64 (connected_t_num b + 1)) (<[i := Waiting]> (phases b)))
| barrier_pass b i :
    phases b !! i = Some Waiting -> connected_t_num b = Z.of_nat threads ->
    barrier_step threads b (MkBarrier (connected_t_num b) (<[i := Running]> (phases b))).

(** ** Statistics *)

(** The vectors that the threads fill, one entry per thread. *)
Record statistics := MkStatistics {
  tid_vec : list Z;
  attemp_tp_vec : list spec_float;
  tp_vec : list spec_float;
  medianlat_vec : list spec_float;
  taillat_vec : list spec_float;
}.

Definition le_double (x y : spec_float) : Prop := double_le x y = true.

#[export] Instance le_double_dec : RelDecision le_double := fun x y => bool_eq_dec (double_le x y) true.

(** [std::sort] of an array of numbers that are not NaN. *)
Definition sort (l : list spec_float) : list spec_float := merge_sort le_double l.

(** [RecordTpLat], for the thread's array of latencies, whose first [committed] entries
    are sorted. [total_try_times] is never given an element, so the last loop does
    nothing. *)
Definition RecordTpLat (gid attempted committed : Z) (timer : list spec_float) (msr_sec : spec_float) (s : statistics)
    : outcome statistics :=
  let attemp_tput := ddiv (double_of_Z attempted) msr_sec in
  let tx_tput := ddiv (double_of_Z committed) msr_sec in
  let n := Z.to_nat committed in
  _ ← (if (length timer <? n)%nat then Fault else Ok ());
  let timer := sort (take n timer) ++ drop n timer in
  percentile_50 ← deref (timer !! Z.to_nat (committed / 2));
  percentile_99 ← deref (timer !! Z.to_nat (u64 (committed * 99) / 100));
  Ok (MkStatistics (tid_vec s ++ [gid]) (attemp_tp_vec s ++ [attemp_tput]) (tp_vec s ++ [tx_tput])
        (medianlat_vec s ++ [percentile_50]) (taillat_vec s ++ [percentile_99])).

(** The lines of a result: one per thread, and the last one. *)
Record results := MkResults {
  detail : list (Z * spec_float * spec_float * spec_float * spec_float);
  total_attemp_tp : spec_float;
  total_tp : spec_float;
  medians : spec_float * spec_float * spec_float;  (* least, greatest, average *)
  tails : spec_float * spec_float * spec_float;
}.

(** The loop over the threads: thread [i] and what is left of [tid_vec]. *)
Fixpoint detail_loop (i : nat) (tids : list Z) (s : statistics) (sums : spec_float * spec_float * spec_float * spec_float)
    : outcome (list (Z * spec_float * spec_float * spec_float * spec_float) * (spec_float * spec_float * spec_float * spec_float)) :=
  match tids with
  | [] => Ok ([], sums)
  | tid :: tids =>
      a ← deref (attemp_tp_vec s !! i);
      t ← deref (tp_vec s !! i);
      m ← deref (medianlat_vec s !! i);
      l ← deref (taillat_vec s !! i);
      let '(sa, st, sm, sl) := sums in
      r ← detail_loop (S i) tids s (dadd sa a, dadd st t, dadd sm m, dadd sl l);
      Ok ((tid, a, t, m, l) :: fst r, snd r)
  end.

Definition OutputResult (s : statistics) : outcome results :=
  r ← detail_loop 0 (tid_vec s) s (d0, d0, d0, d0);
  let '(rows, (total_attemp, total, total_median, total_tail)) := r in
  let thread_num := length (tid_vec s) in
  let avg_median := ddiv total_median (double_of_Z (Z.of_nat thread_num)) in
  let avg_tail := ddiv total_tail (double_of_Z (Z.of_nat thread_num)) in
  let medianlat_vec := sort (medianlat_vec s) in
  let taillat_vec := sort (taillat_vec s) in
  median_min ← deref (medianlat_vec !! 0%nat);
  median_max ← deref (get medianlat_vec (u64 (Z.of_nat thread_num - 1)));
  tail_min ← deref (taillat_vec !! 0%nat);
  tail_max ← deref (get taillat_vec (u64 (Z.of_nat thread_num - 1)));
  Ok (MkResults rows total_attemp total (median_min, median_max, avg_median) (tail_min, tail_max, avg_tail)).

(** ** The programs *)

(** No code calls [RecordTpLat]: after the threads have been joined the vectors are
    empty. *)
Definition no_statistics : statistics := MkStatistics [] [] [] [] [].

(** [main] of run/run.cc: [threads] is what the configuration file says when [GenThreads]
    reads it. *)
Definition run_main (malloc : Z -> Z) (register_memory : Z -> Z -> bool) (read_config : list string -> compute_node_config)
    (argv config_file : list string) : outcome (option results) :=
  if (length argv <? 3)%nat then Ok None
  else
    config_file ← ConfigureComputeNode argv config_file;
    bench ← deref (argv !! 1%nat);
    _ ← GenThreads malloc register_memory (read_config config_file) bench;
    r ← OutputResult no_statistics;
    Ok (Some r).

(** [main] of run/run_micro.cc. *)
Definition run_micro_main (malloc : Z -> Z) (register_memory : Z -> Z -> bool) (read_config : list string -> compute_node_config)
    (argv workload_file config_file : list string) : outcome results :=
  _ ← ConfigureComputeNodeForMICRO argv workload_file;
  let config_file := sed_change 8 (setting "txn_system" "2") config_file in
  _ ← GenThreads malloc register_memory (read_config config_file) "micro";
  OutputResult no_statistics.
