(* ===== verification/ComputeNodeTheorems.v ===== *)
(** The compute node: its threads share no generator state, buffer or log space; the
    barrier starts them together; a thread with one coroutine never ends; and what the
    statistics would say if the threads recorded any. *)
From stdpp Require Import strings sorting.
From S2P Require Import Prelude Words Outcome Doubles Random Zipf ZipfTheorems Alloc Verbs Scheduler SchedulerFacts.
From S2P Require Import SchedulerInvariant SchedulerTheorems AddrCache Micro MicroTheorems ComputeNode.

(** ** Generators never meet *)

Lemma lcg_injective a c k x y :
  0 <= k -> Z.odd a = true -> 0 <= x < 2 ^ k -> 0 <= y < 2 ^ k -> lcg a c k x = lcg a c k y -> x = y.
Proof.
  intros Hk Ha Hx Hy H. unfold lcg in H. apply Z.cong_iff_ex in H.
  replace (a * x + c - (a * y + c)) with ((x - y) * a) in H by ring.
  apply odd_cancel in H; [|done..]. apply Z.cong_iff_ex in H. by rewrite !Z.mod_small in H.
Qed.

Lemma lcg_range a c k x : 0 <= k -> 0 <= lcg a c k x < 2 ^ k.
Proof. intros Hk. apply Z.mod_pos_bound. lia. Qed.

Lemma iter_lcg_injective a c k n x y :
  0 <= k -> Z.odd a = true -> 0 <= x < 2 ^ k -> 0 <= y < 2 ^ k ->
  Nat.iter n (lcg a c k) x = Nat.iter n (lcg a c k) y -> x = y.
Proof.
  intros Hk Ha Hx Hy. assert (forall m z, 0 <= z < 2 ^ k -> 0 <= Nat.iter m (lcg a c k) z < 2 ^ k) as Hr.
  { intros [|m] z Hz; [done|]. by apply lcg_range. }
  induction n as [|n IH]; [done|]. rewrite !Nat.iter_succ. intros H. apply IH.
  eapply (lcg_injective a c k); eauto.
Qed.

(** Generators with different states have different states after any number of steps. *)
Lemma NoDup_iter_lcg (f : Z -> Z) a c k n (l : list Z) :
  0 <= k -> Z.odd a = true -> (forall x, f x = lcg a c k x) -> Forall (fun x => 0 <= x < 2 ^ k) l ->
  NoDup l -> NoDup (map (Nat.iter n f) l).
Proof.
  intros Hk Ha Hf Hl Hnd. apply NoDup_fmap_2_strong; [|done]. intros x y Hx Hy E.
  rewrite Forall_forall in Hl. rewrite !(iter_ext f (lcg a c k)) in E by done.
  eapply iter_lcg_injective; eauto.
Qed.

(** ** Lists of threads *)

Lemma mapM_Ok {A B} (f : A -> outcome B) (P : A -> B -> Prop) l :
  (forall x, x ∈ l -> exists y, f x = Ok y /\ P x y) -> exists l', mapM f l = Ok l' /\ Forall2 P l l'.
Proof.
  induction l as [|x l IH]; intros H; [by exists []|].
  destruct (H x) as (y & Hy & HP); [by left|]. destruct IH as (l' & Hl' & HPs); [intros z Hz; apply H; by right|].
  exists (y :: l'). split; [|by constructor]. cbn [mapM]. by rewrite Hy, bind_value, Hl'.
Qed.

Lemma Forall2_concat {A B C} (P : B -> C -> Prop) (f : A -> list B) (l : list A) (k : list (list C)) :
  Forall2 (fun x => Forall2 P (f x)) l k -> Forall2 P (concat (map f l)) (concat k).
Proof. induction 1; cbn [map concat]; [constructor|]. by apply Forall2_app. Qed.

(** The threads of all machines in order. *)
Lemma thread_ids m n :
  0 <= n -> concat (map (fun id => map (fun i => id * n + i) (seqZ 0 n)) (seqZ 0 (Z.of_nat m))) = seqZ 0 (Z.of_nat m * n).
Proof.
  intros Hn. induction m as [|m IH]; [done|].
  rewrite Nat2Z.inj_succ, <- Z.add_1_r, seqZ_app, map_app, concat_app, IH by lia.
  rewrite Z.mul_add_distr_r, Z.mul_1_l, seqZ_app by nia. f_equal.
  assert (forall x, seqZ x 1 = [x]) as Hone by done. rewrite Hone. cbn [map concat]. rewrite app_nil_r.
  replace (0 + Z.of_nat m * n) with (Z.of_nat m * n + 0) by lia.
  rewrite <- (fmap_add_seqZ (Z.of_nat m * n) 0 n). apply map_ext. intros i. lia.
Qed.

(** ** The constructor of the Zipf generator *)

Lemma lt_not_le x y : double_lt x y = true -> double_le y x = false.
Proof.
  unfold double_lt, double_le, SFltb. destruct x as [[]|[]| |[] mx ex], y as [[]|[]| |[] my ey]; try done;
    cbn [SFcompare];
    assert (Pos.compare_cont Eq my mx = CompOpp (Pos.compare_cont Eq mx my)) as ->
      by (symmetry; apply (Pos.compare_cont_antisym mx my Eq));
    rewrite (Z.compare_antisym ex ey); destruct (ex ?= ey); cbn; try done; by destruct (Pos.compare_cont Eq mx my).
Qed.

(** A theta that the constructor accepts. *)
Definition valid_theta (theta : spec_float) : Prop :=
  theta = d_minus1 \/ (exists s, theta = S754_zero s) \/ double_le d40 theta = true \/
  unit_double theta /\ between_0_1 theta = true.

Lemma new_ZipfGen_accepts nan_bits dbl_n n theta seed :
  0 < n -> seed < 2 ^ 48 -> valid_theta theta -> exists z, new_ZipfGen nan_bits dbl_n n theta seed = Ok z.
Proof.
  intros Hn Hs Ht. unfold new_ZipfGen. test (0 <? n) is true. cbn [assert_]. rewrite bind_value.
  change (Z.shiftl 1 48) with (2 ^ 48). test (seed <? 2 ^ 48) is true.
  assert (double_le d1 theta && double_lt theta d40 = false) as ->.
  { destruct Ht as [->|[[s ->]|[H40|[_ [_ H1]%andb_true_iff]]]]; [done|by destruct s| |].
    - apply andb_false_iff. right. apply not_true_is_false. intros E%lt_not_le. congruence.
    - by rewrite (lt_not_le _ _ H1). }
  assert (double_eq theta d_minus1 || (double_le d0 theta && double_lt theta d1) || double_le d40 theta = true) as ->.
  { destruct Ht as [->|[[s ->]|[->|[_ [H0 H1]%andb_true_iff]]]]; [done|by destruct s|by rewrite orb_true_r|].
    rewrite H1, andb_true_r. unfold double_lt, SFltb in H0. unfold double_le. 
    destruct (SFcompare d0 theta) as [[]|]; try done. by rewrite orb_true_r. }
  cbn [assert_]. rewrite bind_value.
  destruct (double_eq theta d_minus1); [rewrite !bind_value; by eexists|].
  destruct (between_0_1 theta) eqn:Hb; [|rewrite !bind_value; by eexists].
  assert (unit_double theta) as [Hp Hle].
  { destruct Ht as [->|[[s ->]|[H40|[Hu _]]]]; [done|by destruct s| |done].
    destruct (mode_zipf theta Hb) as (_ & _ & E). congruence. }
  pose proof one_pos. destruct (pow_approx_unit nan_bits d_half theta) as (r & -> & _); [|done|lia|].
  - split; [by constructor|]. apply Z.leb_le. by vm_compute.
  - rewrite !bind_value. by eexists.
Qed.

(** ** The start of a thread *)

Section Cluster.
Context (malloc : Z -> Z) (register_memory : Z -> Z -> bool) (nan_bits : Z) (dbl_n : Z -> spec_float) (cycle : Z -> Z).
Context (mc : micro_config) (bench : string).

(** The machines [m], the threads of a machine [n], the coroutines of a thread [c]. *)
Context (m n c : Z).

Definition machine_config (id : Z) : compute_node_config := MkComputeNodeConfig m id n c.

(** The sizes, the region of a machine, and what the Zipf generator of the micro
    benchmark needs. *)
Record cluster_ok : Prop := {
  co_machines : 0 < m;
  co_threads : 0 < n;
  co_total : m * n <= 2 ^ 16;
  co_coros : 0 < c < 2 ^ 31;
  co_region : 0 <= malloc (n * PER_THREAD_ALLOC_SIZE) /\ malloc (n * PER_THREAD_ALLOC_SIZE) + n * PER_THREAD_ALLOC_SIZE < 2 ^ 63;
  co_registered : register_memory (malloc (n * PER_THREAD_ALLOC_SIZE)) (n * PER_THREAD_ALLOC_SIZE) = true;
  co_micro : bench = "micro" ->
    1 <= mc_num_keys mc <= 2 ^ 63 - 1 /\
    valid_theta (mc_zipf_theta mc);
}.

(** What thread [i] of its machine, the [g]-th of the cluster, sets up. *)
Record set_up (i g : Z) (w : worker) : Prop := {
  su_seed : seed w = u32 (0xdeadbeef + g);
  su_generators : random_generator w = map (coro_seed g) (seqZ 0 c);
  su_buffers : rdma_buffer_allocator w =
    new_RDMABufferAllocator (malloc (n * PER_THREAD_ALLOC_SIZE) + i * PER_THREAD_ALLOC_SIZE)
      (malloc (n * PER_THREAD_ALLOC_SIZE) + (i + 1) * PER_THREAD_ALLOC_SIZE);
  su_logs : log_offset_allocator w = new_LogOffsetAllocator g (n * m);
  su_ring : wf_sched (Z.to_nat c) (coro_sched w) [] (seqZ 1 (c - 1));
  su_idle : pending_qps (coro_sched w) = [];
}.

Lemma GenThreads_spec id :
  cluster_ok -> 0 <= id < m ->
  GenThreads malloc register_memory (machine_config id) bench =
    Ok (MkRegionAllocator (malloc (n * PER_THREAD_ALLOC_SIZE)) n,
        map (fun i => MkThreadParams i (id * n + i) n (n * m) c bench) (seqZ 0 n)).
Proof.
  intros Hok Hid. pose proof (co_machines Hok). pose proof (co_threads Hok). pose proof (co_total Hok).
  pose proof (co_coros Hok). pose proof (co_registered Hok) as Hr. unfold GenThreads, machine_config.
  cbn [cn_machine_num cn_machine_id cn_thread_num_per_machine cn_coroutine_num].
  assert (forall x, 0 <= x < 2 ^ 31 -> i32 x = x) as Hsmall.
  { intros x Hx. unfold to_signed. rewrite wrap_small by lia. test (x <? 2 ^ (32 - 1)) is true. done. }
  assert (1 <= m <= 2 ^ 16 /\ 1 <= n <= 2 ^ 16) as [Hm Hn] by nia.
  rewrite !Hsmall, (wrap_small 32 n) by lia. test (0 <=? id) is true. test (id <? m) is true. cbn [andb assert_].
  rewrite bind_value. unfold new_RDMARegionAllocator. rewrite (wrap_small 32 n) by lia.
  rewrite (wrap_small 64) by (unfold PER_THREAD_ALLOC_SIZE; lia). rewrite Hr. cbn [assert_]. rewrite !bind_value.
  unfold seqZ. rewrite map_map. do 2 f_equal. apply map_ext_in. intros i [_ Hi]%in_seq. unfold thread_param.
  rewrite (wrap_small 32 (id * n)), (wrap_small 32 (id * n + _)), (wrap_small 32 (n * m)) by nia.
  by rewrite Z.add_0_r.
Qed.

Lemma run_thread_setup_spec id i :
  cluster_ok -> 0 <= id < m -> 0 <= i < n ->
  exists w, run_thread_setup nan_bits (dbl_n (id * n + i)) (cycle (id * n + i)) mc
    (MkRegionAllocator (malloc (n * PER_THREAD_ALLOC_SIZE)) n) (MkThreadParams i (id * n + i) n (n * m) c bench) = Ok w /\
    set_up i (id * n + i) w.
Proof.
  intros Hok Hid Hi. pose proof (co_machines Hok). pose proof (co_threads Hok). pose proof (co_total Hok).
  pose proof (co_coros Hok) as Hc. pose proof (co_region Hok). assert (1 <= m <= 2 ^ 16 /\ 1 <= n <= 2 ^ 16) as [Hm Hn] by nia.
  unfold run_thread_setup. cbn [thread_local_id thread_global_id total_thread_num coro_num bench_name].
  rewrite GetThreadLocalRegion_spec by lia. rewrite bind_value. test (n * m =? 0) is false. rewrite bind_value.
  set (zipf := if String.eqb bench "micro" then _ else _).
  assert (exists z, zipf = Ok z) as [z ->].
  { unfold zipf. destruct (String.eqb_spec bench "micro") as [Hb|]; [|by eexists].
    destruct (co_micro Hok Hb) as [Hk Ht]. edestruct new_ZipfGen_accepts as [z ->]; [| |exact Ht|by eexists].
    - rewrite wrap_small, align_pow2_spec by lia. apply Z.pow_pos_nonneg; [lia|apply Z.log2_up_nonneg].
    - change (Z.shiftl 1 48 - 1) with (Z.ones 48). rewrite Z.land_ones by lia. by apply Z.mod_pos_bound. }
  rewrite bind_value. destruct (LoopLink_init (Z.to_nat c)) as (a & Ha & _); [lia|]. rewrite Z2Nat.id in Ha by lia.
  rewrite Ha. rewrite bind_value. eexists. split; [done|].
  destruct (initial_wf (Z.to_nat c) (MkScheduler a 0 (Z.of_nat (Z.to_nat c) - 1) [] (replicate (Z.to_nat c) 0) []
    (replicate (Z.to_nat c) 0))) as [Hwf Hq]; [lia|by rewrite !Z2Nat.id by lia|].
  rewrite !Z2Nat.id in * by lia. split; cbn; try done.
  unfold seqZ. rewrite map_map. apply map_ext. intros j. by rewrite Z.add_0_r.
Qed.

Lemma start_threads_spec id :
  cluster_ok -> 0 <= id < m ->
  exists ws, start_threads malloc register_memory nan_bits dbl_n cycle mc (machine_config id) bench = Ok ws /\
    Forall2 (fun i w => set_up i (id * n + i) w) (seqZ 0 n) ws.
Proof.
  intros Hok Hid. unfold start_threads. rewrite GenThreads_spec by done. rewrite bind_value. cbn [fst snd].
  edestruct (mapM_Ok (fun p => run_thread_setup nan_bits (dbl_n (thread_global_id p)) (cycle (thread_global_id p)) mc
      (MkRegionAllocator (malloc (n * PER_THREAD_ALLOC_SIZE)) n) p)
    (fun p w => set_up (thread_local_id p) (id * n + thread_local_id p) w)) as (ws & -> & Hws).
  - intros p (i & -> & Hi%elem_of_seqZ)%list_elem_of_fmap. apply run_thread_setup_spec; cbn; [done..|lia].
  - exists ws. split; [done|]. by apply Forall2_fmap_l in Hws.
Qed.

(** The threads of the cluster in the order of their ids. *)
Lemma cluster_spec :
  cluster_ok ->
  exists wss, mapM (fun id => start_threads malloc register_memory nan_bits dbl_n cycle mc (machine_config id) bench) (seqZ 0 m) = Ok wss /\
    Forall2 (fun id ws => Forall2 (fun i w => set_up i (id * n + i) w) (seqZ 0 n) ws) (seqZ 0 m) wss /\
    Forall2 (fun g w => exists i, set_up i g w) (seqZ 0 (m * n)) (concat wss).
Proof.
  intros Hok. pose proof (co_machines Hok). pose proof (co_threads Hok).
  edestruct (mapM_Ok (fun id => start_threads malloc register_memory nan_bits dbl_n cycle mc (machine_config id) bench)
    (fun id ws => Forall2 (fun i w => set_up i (id * n + i) w) (seqZ 0 n) ws) (seqZ 0 m)) as (wss & H1 & H2).
  { intros id Hid%elem_of_seqZ. apply start_threads_spec; [done|lia]. }
  exists wss. split; [exact H1|]. split; [exact H2|].
  assert (seqZ 0 (m * n) = concat (map (fun id => map (fun i => id * n + i) (seqZ 0 n)) (seqZ 0 m))) as ->.
  { rewrite <- (Z2Nat.id m) by lia. by rewrite thread_ids by lia. }
  apply Forall2_concat. eapply Forall2_impl; [exact H2|]. intros id ws Hws. apply Forall2_fmap_l.
  eapply Forall2_impl; [exact Hws|]. intros i w Hw. by exists i.
Qed.

Lemma coro_seed_sum g k : 0 <= g -> 0 <= k < 2 ^ 32 -> coro_seed g k = g * 2 ^ 32 + k.
Proof.
  intros Hg Hk. unfold coro_seed. rewrite wrap_small by lia. rewrite <- Z.shiftl_mul_pow2 by lia.
  rewrite <- Z.lxor_lor, <- Z.add_nocarry_lxor; [done|..]; apply Z.bits_inj'; intros j Hj;
    rewrite Z.land_spec, Z.shiftl_spec, Z.bits_0 by done;
    (destruct (Z.lt_ge_cases j 32); [by rewrite (Z.testbit_neg_r g) by lia|by rewrite (testbit_high 32 k j), andb_false_r by lia]).
Qed.

(** All coroutines of the cluster have generators of their own. *)
Lemma generators_distinct ws :
  cluster_ok -> Forall2 (fun g w => exists i, set_up i g w) (seqZ 0 (m * n)) ws ->
  NoDup (concat (map random_generator ws)) /\ Forall (fun x => 0 <= x < 2 ^ 48) (concat (map random_generator ws)).
Proof.
  intros Hok Hws. pose proof (co_coros Hok). pose proof (co_total Hok).
  assert (concat (map random_generator ws) = seqZ 0 (m * n) ≫= fun g => map (coro_seed g) (seqZ 0 c)) as ->.
  { revert Hws. generalize (seqZ 0 (m * n)). intros gs Hws. induction Hws as [|g w gs ws [i Hw] _ IH]; [done|].
    cbn [map concat mbind list_bind]. by rewrite (su_generators _ _ _ Hw), IH. }
  split; [apply NoDup_bind|].
  - intros g1 g2 y H1%elem_of_seqZ H2%elem_of_seqZ (k1 & E1 & K1%elem_of_seqZ)%list_elem_of_fmap (k2 & E2 & K2%elem_of_seqZ)%list_elem_of_fmap.
    rewrite coro_seed_sum in E1, E2 by lia. nia.
  - intros g Hg%elem_of_seqZ. apply NoDup_fmap_2_strong; [|apply NoDup_seqZ].
    intros k1 k2 K1%elem_of_seqZ K2%elem_of_seqZ. rewrite !coro_seed_sum by lia. lia.
  - apply NoDup_seqZ.
  - apply Forall_forall. intros y (g & (k & -> & Hk%elem_of_seqZ)%list_elem_of_fmap & Hg%elem_of_seqZ)%list_elem_of_bind.
    rewrite coro_seed_sum by lia. nia.
Qed.

Lemma seeds_distinct ws :
  cluster_ok -> Forall2 (fun g w => exists i, set_up i g w) (seqZ 0 (m * n)) ws ->
  NoDup (map seed ws) /\ Forall (fun x => 0 <= x < 2 ^ 64) (map seed ws).
Proof.
  intros Hok Hws. pose proof (co_total Hok).
  assert (map seed ws = map (fun g => u32 (0xdeadbeef + g)) (seqZ 0 (m * n))) as ->.
  { revert Hws. generalize (seqZ 0 (m * n)). intros gs Hws. induction Hws as [|g w gs ws [i Hw] _ IH]; [done|].
    cbn [map]. by rewrite (su_seed _ _ _ Hw), IH. }
  split.
  - apply NoDup_fmap_2_strong; [|apply NoDup_seqZ]. intros g1 g2 H1%elem_of_seqZ H2%elem_of_seqZ E.
    rewrite !wrap_small in E by lia. lia.
  - apply Forall_map, Forall_forall. intros g Hg. pose proof (wrap_range 32 (0xdeadbeef + g)). lia.
Qed.

(** Two workers of the cluster have different ids. *)
Lemma worker_ids ws j w :
  Forall2 (fun g w => exists i, set_up i g w) (seqZ 0 (m * n)) ws -> ws !! j = Some w ->
  0 <= Z.of_nat j < m * n /\ exists i, set_up i (Z.of_nat j) w.
Proof.
  intros Hws Hj. destruct (Forall2_lookup_r _ _ _ _ _ Hws Hj) as (g & [Hg Hlt]%lookup_seqZ & Hw).
  subst g. split; [lia|exact Hw].
Qed.

(** C12. The threads of a cluster share nothing that they write. Every machine of the
    cluster starts its threads, and over all threads of all machines: the seeds of the
    threads differ and lead to different seeds after any number of steps; the same holds
    for the generators of all coroutines; the log entries of different threads are
    disjoint parts of the log buffer of a memory node; the buffers of different threads
    of a machine are disjoint parts of its registered region; and the coroutines of each
    thread form a ring in the order of their numbers, without a pending request. *)
Theorem cluster_threads_isolated :
  cluster_ok ->
  exists wss,
    mapM (fun id => start_threads malloc register_memory nan_bits dbl_n cycle mc (machine_config id) bench) (seqZ 0 m) = Ok wss /\
    (forall k, NoDup (map (fun w => Nat.iter k (fun x => snd (FastRand x)) (seed w)) (concat wss))) /\
    (forall k, NoDup (map (Nat.iter k step48) (concat (map random_generator (concat wss))))) /\
    (forall j1 j2 w1 w2 reqs1 reqs2,
      concat wss !! j1 = Some w1 -> concat wss !! j2 = Some w2 -> j1 <> j2 ->
      Forall (fun r => (fst r < NUM_MEMORY_NODES)%nat /\ 0 < snd r <= per_thread_log (n * m)) reqs1 ->
      Forall (fun r => (fst r < NUM_MEMORY_NODES)%nat /\ 0 < snd r <= per_thread_log (n * m)) reqs2 ->
      exists os1 os2,
        log_offsets (log_offset_allocator w1) reqs1 = Ok os1 /\ log_offsets (log_offset_allocator w2) reqs2 = Ok os2 /\
        forall o1 o2, o1 ∈ os1 -> o2 ∈ os2 ->
          disjoint_ranges (snd (fst o1), snd o1) (snd (fst o2), snd o2) /\ inside 0 LOG_BUFFER_SIZE (snd (fst o1), snd o1)) /\
    (forall ws i1 i2 w1 w2 sizes1 sizes2 b1 b2,
      ws ∈ wss -> ws !! i1 = Some w1 -> ws !! i2 = Some w2 -> i1 <> i2 ->
      Forall (fun x => 0 < x <= PER_THREAD_ALLOC_SIZE) sizes1 -> Forall (fun x => 0 < x <= PER_THREAD_ALLOC_SIZE) sizes2 ->
      b1 ∈ fst (Alloc_all (rdma_buffer_allocator w1) sizes1) -> b2 ∈ fst (Alloc_all (rdma_buffer_allocator w2) sizes2) ->
      let mr := malloc (n * PER_THREAD_ALLOC_SIZE) in
      disjoint_ranges b1 b2 /\ inside mr (mr + n * PER_THREAD_ALLOC_SIZE) b1) /\
    Forall (fun w => wf_sched (Z.to_nat c) (coro_sched w) [] (seqZ 1 (c - 1)) /\ pending_qps (coro_sched w) = []) (concat wss).
Proof.
  intros Hok. pose proof (co_total Hok) as Htot. pose proof (co_machines Hok) as Hm. pose proof (co_threads Hok) as Hn.
  destruct (co_region Hok) as [Hr0 Hr3]. destruct (cluster_spec Hok) as (wss & Hstart & Hmach & Hall). exists wss.
  split; [exact Hstart|]. split; [|split; [|split; [|split]]].
  - intros k. destruct (seeds_distinct _ Hok Hall) as [Hnd Hr].
    rewrite <- (map_map seed). apply (NoDup_iter_lcg _ 1103515245 12345 64); [done|done|apply FastRand_lcg|done|done].
  - intros k. destruct (generators_distinct _ Hok Hall) as [Hnd Hr].
    apply (NoDup_iter_lcg _ 0x5deece66d 0xb 48); [done|done|apply step48_lcg|done|done].
  - intros j1 j2 w1 w2 reqs1 reqs2 (R1 & i1 & S1)%(worker_ids _ _ _ Hall) (R2 & i2 & S2)%(worker_ids _ _ _ Hall) Hne Hr1 Hr2.
    rewrite (su_logs _ _ _ S1), (su_logs _ _ _ S2). apply thread_logs_disjoint; [lia..|done|done].
  - intros ws i1 i2 w1 w2 sizes1 sizes2 b1 b2 [id Hid]%list_elem_of_lookup H1 H2 Hne Hs1 Hs2 Hb1 Hb2 mr.
    destruct (Forall2_lookup_r _ _ _ _ _ Hmach Hid) as (g & _ & Hws).
    destruct (Forall2_lookup_r _ _ _ _ _ Hws H1) as (t1 & [-> L1]%lookup_seqZ & S1).
    destruct (Forall2_lookup_r _ _ _ _ _ Hws H2) as (t2 & [-> L2]%lookup_seqZ & S2).
    rewrite (su_buffers _ _ _ S1) in Hb1. rewrite (su_buffers _ _ _ S2) in Hb2.
    destruct (thread_buffers_disjoint mr n (0 + Z.of_nat i1) (0 + Z.of_nat i2) sizes1 sizes2 b1 b2)
      as (s1 & e1 & s2 & e2 & E1 & E2 & Hd); [done|done|nia|lia..|done|done|].
    rewrite GetThreadLocalRegion_spec in E1, E2 by nia. injection E1 as <- <-. injection E2 as <- <-. by apply Hd.
  - apply Forall_lookup. intros j w (_ & i & S)%(worker_ids _ _ _ Hall). split; apply S.
Qed.
End Cluster.

(** Two machines with three threads of two coroutines each. *)
Lemma cluster_threads_isolated_witness :
  let start id := start_threads (fun _ => 4096) (fun _ _ => true) 0 (fun _ => d0) (fun g => g) (MkMicroConfig 1000 d_half)
    (machine_config 2 3 2 id) "micro" in
  exists wss, mapM start [0; 1] = Ok wss /\ NoDup (concat (map random_generator (concat wss))) /\ length (concat wss) = 6%nat.
Proof.
  intros start. destruct (cluster_threads_isolated (fun _ => 4096) (fun _ _ => true) 0 (fun _ => d0) (fun g => g)
    (MkMicroConfig 1000 d_half) "micro" 2 3 2) as (wss & Hs & _ & Hg & _).
  - split; try done; cbn [mc_num_keys mc_zipf_theta]. intros _. split; [done|]. right. right. right.
    split; [split; [by constructor|]|]; [apply Z.leb_le; by vm_compute|by vm_compute].
  - exists wss. split; [exact Hs|]. specialize (Hg 0%nat). split; [by rewrite map_id in Hg|].
    change (mapM start [0; 1] = Ok wss) in Hs.
    assert (forall x, mapM start [0; 1] = Ok x -> length (concat x) = 6%nat) as Hlen; [|by apply Hlen].
    intros x. vm_compute. by intros [= <-].
Defined.

(** ** The barrier *)

#[export] Instance phase_eq_dec : EqDecision phase.
Proof. solve_decision. Defined.

(** The steps that a thread still has to make. *)
Definition steps_left (p : phase) : nat := match p with Connecting => 2 | Waiting => 1 | Running => 0 end.

Definition connected (p : phase) : nat := match p with Connecting => 0 | _ => 1 end.

Lemma sum_insert {A} (f : A -> nat) (l : list A) i x y :
  l !! i = Some x -> (sum_list_with f (<[i := y]> l) + f x = sum_list_with f l + f y)%nat.
Proof.
  revert i. induction l as [|z l IH]; intros [|i] H; try done; simplify_eq/=; [lia|].
  specialize (IH i H). lia.
Qed.

Lemma sum_bound {A} (f : A -> nat) (l : list A) k :
  (forall x, f x <= k)%nat -> (sum_list_with f l <= k * length l)%nat.
Proof. intros H. induction l as [|x l IH]; cbn; [lia|]. specialize (H x). lia. Qed.

Lemma all_connected l : sum_list_with connected l = length l -> Connecting ∉ l.
Proof.
  pose proof (fun l => sum_bound connected l 1) as Hb.
  induction l as [|p l IH]; intros H Hin; [by apply not_elem_of_nil in Hin|].
  assert (forall q, connected q <= 1)%nat as Hq by (intros []; cbn; lia). pose proof (Hb l Hq).
  cbn in H. apply elem_of_cons in Hin as [<-|Hin]; [cbn in H; lia|]. apply IH; [|done]. specialize (Hq p). lia.
Qed.

Section Barrier.
Context (n : nat).

Record barrier_ok (b : barrier) : Prop := {
  bo_threads : length (phases b) = n;
  bo_count : connected_t_num b = Z.of_nat (sum_list_with connected (phases b));
  bo_together : Running ∈ phases b -> Connecting ∉ phases b;
}.

Lemma start_ok : barrier_ok (start_barrier n).
Proof.
  split; cbn; [apply length_replicate| |].
  - induction n as [|k IH]; [done|]. by cbn.
  - by intros [? _]%elem_of_replicate.
Qed.

Lemma barrier_step_ok b b' :
  Z.of_nat n < 2 ^ 64 -> barrier_step n b b' -> barrier_ok b ->
  barrier_ok b' /\ sum_list_with steps_left (phases b) = S (sum_list_with steps_left (phases b')).
Proof.
  intros Hn Hs [H1 H2 H3]. destruct Hs as [b i Hi|b i Hi Hc].
  - pose proof (sum_insert steps_left _ i _ Waiting Hi) as Es. pose proof (sum_insert connected _ i _ Waiting Hi) as Ec.
    pose proof (sum_bound connected (<[i:=Waiting]> (phases b)) 1) as Hb. rewrite length_insert, H1 in Hb.
    assert (forall q, connected q <= 1)%nat as Hq by (intros []; cbn; lia). specialize (Hb Hq). cbn in *.
    split; [|lia]. split; cbn; [by rewrite length_insert|rewrite wrap_small by lia; lia|].
    intros [j Hj]%list_elem_of_lookup. destruct (decide (i = j)) as [->|Hne].
    + rewrite list_lookup_insert_eq in Hj by (by eapply lookup_lt_Some). done.
    + rewrite list_lookup_insert_ne in Hj by done. exfalso. apply H3; by eapply list_elem_of_lookup_2.
  - pose proof (sum_insert steps_left _ i _ Running Hi) as Es. pose proof (sum_insert connected _ i _ Running Hi) as Ec.
    cbn in *. split; [|lia]. split; cbn; [by rewrite length_insert|lia|].
    intros _. apply all_connected. rewrite length_insert. lia.
Qed.

Lemma barrier_progress b : barrier_ok b -> phases b = replicate n Running \/ exists b', barrier_step n b b'.
Proof.
  intros [H1 H2 _]. destruct (decide (Connecting ∈ phases b)) as [[i Hi]%list_elem_of_lookup|Hno].
  { right. eexists. by apply (barrier_connect n b i). }
  destruct (decide (Waiting ∈ phases b)) as [[i Hi]%list_elem_of_lookup|Hnw].
  - right. eexists. apply (barrier_pass n b i); [done|]. rewrite H2, <- H1. f_equal. clear -Hno.
    induction (phases b) as [|p l IH]; [done|]. apply not_elem_of_cons in Hno as [Hp Hno]. cbn. rewrite IH by done.
    by destruct p.
  - left. rewrite <- H1. clear -Hno Hnw. induction (phases b) as [|p l IH]; [done|].
    apply not_elem_of_cons in Hno as [Hp Hno], Hnw as [Hq Hnw]. cbn. destruct p; try done. by rewrite <- IH.
Qed.

Lemma barrier_run b : Z.of_nat n < 2 ^ 64 -> rtc (barrier_step n) (start_barrier n) b -> barrier_ok b.
Proof.
  intros Hn Hr. pose proof start_ok as H. induction Hr as [|x y z Hs _ IH]; [done|].
  apply IH. by apply (barrier_step_ok x).
Qed.

Lemma barrier_steps k b b' :
  Z.of_nat n < 2 ^ 64 -> barrier_ok b -> nsteps (barrier_step n) k b b' ->
  barrier_ok b' /\ sum_list_with steps_left (phases b) = (k + sum_list_with steps_left (phases b'))%nat.
Proof.
  intros Hn Hb Hs. induction Hs as [|k x y z Hxy _ IH]; [done|].
  destruct (barrier_step_ok x y Hn Hxy Hb) as [Hy E]. destruct (IH Hy) as [Hz E']. split; [done|]. lia.
Qed.

(** From every state the threads come to run, whatever the order of their steps. *)
Lemma barrier_ends b :
  Z.of_nat n < 2 ^ 64 -> barrier_ok b ->
  nsteps (barrier_step n) (sum_list_with steps_left (phases b)) b (MkBarrier (Z.of_nat n) (replicate n Running)).
Proof.
  intros Hn. remember (sum_list_with steps_left (phases b)) as k eqn:Hk. revert b Hk.
  induction k as [|k IH]; intros b Hk Hb; destruct (barrier_progress b Hb) as [Hall|[b' Hs]].
  - pose proof (bo_count _ Hb) as Hc. destruct b as [t ps]. cbn in Hc, Hall. rewrite Hc, Hall. cbn.
    assert (sum_list_with connected (replicate n Running) = n) as ->; [|constructor].
    clear. induction n as [|j IH]; [done|]. cbn. by rewrite IH.
  - destruct (barrier_step_ok b b' Hn Hs Hb). lia.
  - exfalso. rewrite Hall in Hk. clear -Hk. induction n as [|j IH]; [done|]. by apply IH.
  - destruct (barrier_step_ok b b' Hn Hs Hb) as [Hb' E]. eapply nsteps_l; [exact Hs|]. apply IH; [lia|done].
Qed.

(** C13. The threads of a compute node start together. In every state that the barrier
    reaches, [connected_t_num] is the number of threads that have their connections, and
    when a thread runs all of them have. No state is stuck before all threads run, every
    sequence of steps ends after two steps per thread at most, and from every state that is
    reached the threads come to the state in which all of them run. *)
Theorem threads_start_together (b : barrier) :
  Z.of_nat n < 2 ^ 64 -> rtc (barrier_step n) (start_barrier n) b ->
  connected_t_num b = Z.of_nat (length (filter (fun p => p <> Connecting) (phases b))) /\
  (Running ∈ phases b -> Connecting ∉ phases b) /\
  (phases b = replicate n Running \/ exists b', barrier_step n b b') /\
  (forall k b', nsteps (barrier_step n) k b b' -> (k <= 2 * n)%nat) /\
  rtc (barrier_step n) b (MkBarrier (Z.of_nat n) (replicate n Running)).
Proof.
  intros Hn Hr. pose proof (barrier_run b Hn Hr) as Hb. pose proof Hb as [H1 H2 H3]. split; [|split; [|split; [|split]]].
  - rewrite H2. f_equal. clear. induction (phases b) as [|p l IH]; [done|]. cbn [sum_list_with]. rewrite filter_cons.
    destruct p; cbn; by rewrite IH.
  - exact H3.
  - by apply barrier_progress.
  - intros k b' Hs. destruct (barrier_steps k b b' Hn Hb Hs) as [_ E].
    pose proof (sum_bound steps_left (phases b) 2) as Hle. rewrite H1 in Hle.
    assert (forall q, steps_left q <= 2)%nat as Hq by (intros []; cbn; lia). specialize (Hle Hq). lia.
  - apply (rtc_nsteps_2 _ _ _ (barrier_ends b Hn Hb)).
Qed.
End Barrier.

(** Two threads, of which the second has its connections. *)
Lemma threads_start_together_witness :
  rtc (barrier_step 2) (MkBarrier 1 [Connecting; Waiting]) (MkBarrier 2 [Running; Running]) /\
  ~ barrier_step 2 (MkBarrier 1 [Connecting; Waiting]) (MkBarrier 1 [Connecting; Running]).
Proof.
  assert (rtc (barrier_step 2) (start_barrier 2) (MkBarrier 1 [Connecting; Waiting])) as Hr.
  { eapply rtc_l; [apply (barrier_connect 2 (start_barrier 2) 1); reflexivity|]. apply rtc_refl. }
  destruct (threads_start_together 2 _ eq_refl Hr) as (_ & _ & _ & _ & H). split; [exact H|].
  intros Hs. assert (rtc (barrier_step 2) (start_barrier 2) (MkBarrier 1 [Connecting; Running])) as Hr' by (eapply rtc_r; [exact Hr|exact Hs]).
  destruct (threads_start_together 2 _ eq_refl Hr') as (_ & Ht & _). apply Ht; by repeat constructor.
Defined.

(** ** The coroutines of a thread *)

Section Coroutines.
Context {E : Type} `{Nic E}.

(** [PollCompletion] of a thread without pending requests changes nothing. *)
Lemma poll_nothing fuel (s : CoroutineScheduler) (e : E) :
  pending_qps s = [] -> PollCompletion (S fuel) s e = Ok (s, e).
Proof. intros Hp. unfold PollCompletion, PollRegularCompletion. rewrite Hp. cbn. do 2 f_equal. destruct s. cbn in *. by rewrite Hp. Qed.

(** What a thread does after the barrier: with several coroutines it switches to the first
    of them, whose function returns at once, and ends; a thread that has only the polling
    coroutine polls forever. *)
Lemma run_coroutines_spec (c : nat) (s : CoroutineScheduler) (e : E) fuel poll_fuel :
  (0 < c)%nat -> wf_sched c s [] (seqZ 1 (Z.of_nat c - 1)) -> pending_qps s = [] ->
  if (c =? 1)%nat then run_coroutines fuel (S poll_fuel) s e = OutOfFuel
  else exists a, run_coroutines (S fuel) (S poll_fuel) s e = Ok (set_array a s, e).
Proof.
  intros Hc Hwf Hp. destruct (wf_ring _ _ _ _ Hwf) as [Hhead _ Hlinks _].
  pose proof (wf_ids _ _ _ _ Hwf) as Hids. destruct (wf_lengths _ _ _ _ Hwf) as [Hlen _].
  destruct (get_is_Some (coro_array s) 0) as [c0 H0]; [lia|].
  destruct (Nat.eqb_spec c 1) as [->|Hne].
  - change (nx (coro_array s) 0 = Some 0) in Hlinks. rename Hlinks into Hn. unfold nx in Hn. rewrite H0 in Hn. injection Hn as Hn.
    specialize (Hids 0). unfold ci in Hids. rewrite H0 in Hids. injection Hids as Hi; [|unfold is_coro; lia].
    induction fuel as [|fuel IH]; [done|]. cbn [run_coroutines]. unfold poll_round.
    rewrite poll_nothing, !bind_value by done. rewrite Hhead, H0. cbn [deref]. rewrite bind_value.
    rewrite Hn, H0. cbn [deref]. rewrite bind_value, Hi. exact IH.
  - rewrite seqZ_cons in Hlinks by lia. destruct Hlinks as (Hn & _). unfold nx in Hn. rewrite H0 in Hn. injection Hn as Hn.
    destruct (get_is_Some (coro_array s) 1) as [c1 H1]; [lia|].
    specialize (Hids 1). unfold ci in Hids. rewrite H1 in Hids. injection Hids as Hi; [|unfold is_coro; lia].
    cbn [run_coroutines]. unfold poll_round. rewrite poll_nothing, !bind_value by done. rewrite Hhead, H0. cbn [deref]. rewrite bind_value.
    rewrite Hn, H1. cbn [deref]. rewrite bind_value, Hi. cbn [negb Z.eqb].
    destruct (RunCoroutine_spec s 1) as (a & -> & _); [lia|]. rewrite !bind_value. by exists a.
Qed.
End Coroutines.

(** ** Configuration *)

(** The command line changes three lines of the file, which keeps its other lines. *)
Lemma ConfigureComputeNode_lines run_name bench system_name threads coroutines file :
  (8 <= length file)%nat ->
  exists file', ConfigureComputeNode [run_name; bench; system_name; threads; coroutines] file = Ok file' /\
    length file' = length file /\
    file' !! 4%nat = Some (setting "thread_num_per_machine" threads) /\
    file' !! 5%nat = Some (setting "coroutine_num" coroutines) /\
    file' !! 7%nat = Some (setting "txn_system" (digit (txn_system_value system_name))) /\
    forall i, i <> 4%nat -> i <> 5%nat -> i <> 7%nat -> file' !! i = file !! i.
Proof.
  intros Hlen. eexists. split; [reflexivity|]. unfold sed_change. rewrite !length_insert. cbn [pred].
  split; [done|]. split; [|split; [|split]].
  - rewrite !list_lookup_insert_ne by done. rewrite list_lookup_insert_eq by lia. done.
  - rewrite list_lookup_insert_ne by done. rewrite list_lookup_insert_eq by (rewrite length_insert; lia). done.
  - rewrite list_lookup_insert_eq by (rewrite !length_insert; lia). done.
  - intros i H4 H5 H7. by rewrite !list_lookup_insert_ne by done.
Qed.

(** ** Statistics *)

Lemma sort_perm l : sort l ≡ₚ l.
Proof. apply merge_sort_Permutation. Qed.

(** The percentiles of a thread are latencies that it recorded. *)
Lemma RecordTpLat_spec gid attempted committed timer sec s :
  0 < committed <= Z.of_nat (length timer) -> committed * 99 < 2 ^ 64 ->
  exists p50 p99, p50 ∈ take (Z.to_nat committed) timer /\ p99 ∈ take (Z.to_nat committed) timer /\
    RecordTpLat gid attempted committed timer sec s =
      Ok (MkStatistics (tid_vec s ++ [gid]) (attemp_tp_vec s ++ [ddiv (double_of_Z attempted) sec])
            (tp_vec s ++ [ddiv (double_of_Z committed) sec]) (medianlat_vec s ++ [p50]) (taillat_vec s ++ [p99])).
Proof.
  intros Hc H99. unfold RecordTpLat. rewrite (proj2 (Nat.ltb_ge _ _)) by lia. rewrite bind_value.
  set (l := take (Z.to_nat committed) timer).
  assert (length (sort l) = Z.to_nat committed) as Hlen.
  { rewrite (Permutation_length (sort_perm l)). unfold l. rewrite length_take. lia. }
  assert (forall k, 0 <= k < committed -> exists p, p ∈ l /\ (sort l ++ drop (Z.to_nat committed) timer) !! Z.to_nat k = Some p) as Hget.
  { intros k Hk. destruct (lookup_lt_is_Some_2 (sort l) (Z.to_nat k)) as [p Hp]; [lia|]. exists p. split.
    - rewrite <- (sort_perm l). by eapply list_elem_of_lookup_2.
    - by rewrite lookup_app_l by lia. }
  destruct (Hget (committed / 2)) as (p50 & H50 & ->); [split; [apply Z.div_pos; lia|apply Z.div_lt_upper_bound; lia]|].
  rewrite wrap_small by lia.
  destruct (Hget (committed * 99 / 100)) as (p99 & Hp99 & ->); [split; [apply Z.div_pos; lia|apply Z.div_lt_upper_bound; lia]|].
  cbn [deref]. rewrite !bind_value. by exists p50, p99.
Qed.

Lemma detail_loop_spec s tids i sums :
  (i + length tids <= length (attemp_tp_vec s))%nat -> (i + length tids <= length (tp_vec s))%nat ->
  (i + length tids <= length (medianlat_vec s))%nat -> (i + length tids <= length (taillat_vec s))%nat ->
  exists rows sums', detail_loop i tids s sums = Ok (rows, sums') /\ map (fun row => row.1.1.1.1) rows = tids.
Proof.
  revert i sums. induction tids as [|tid tids IH]; intros i sums H1 H2 H3 H4; cbn [detail_loop]; [by exists [], sums|]. cbn in *.
  destruct (lookup_lt_is_Some_2 (attemp_tp_vec s) i) as [a ->]; [lia|].
  destruct (lookup_lt_is_Some_2 (tp_vec s) i) as [t ->]; [lia|].
  destruct (lookup_lt_is_Some_2 (medianlat_vec s) i) as [md ->]; [lia|].
  destruct (lookup_lt_is_Some_2 (taillat_vec s) i) as [l ->]; [lia|].
  cbn [deref]. rewrite !bind_value. destruct sums as [[[sa st] sm] sl].
  edestruct (IH (S i)) as (rows & sums' & -> & Hrows); [lia..|]. rewrite bind_value.
  eexists _, _. split; [done|]. cbn. by rewrite Hrows.
Qed.

(** The report has one line per thread that recorded its numbers, and its least and greatest
    latencies are among those recorded; without a thread it reads behind the vectors. *)
Lemma OutputResult_spec s :
  length (attemp_tp_vec s) = length (tid_vec s) -> length (tp_vec s) = length (tid_vec s) ->
  length (medianlat_vec s) = length (tid_vec s) -> length (taillat_vec s) = length (tid_vec s) ->
  Z.of_nat (length (tid_vec s)) < 2 ^ 64 ->
  if decide (tid_vec s = []) then OutputResult s = Fault
  else exists r, OutputResult s = Ok r /\ map (fun row => row.1.1.1.1) (detail r) = tid_vec s /\
    (medians r).1.1 ∈ medianlat_vec s /\ (medians r).1.2 ∈ medianlat_vec s /\
    (tails r).1.1 ∈ taillat_vec s /\ (tails r).1.2 ∈ taillat_vec s.
Proof.
  intros H1 H2 H3 H4 Hn. unfold OutputResult.
  destruct (detail_loop_spec s (tid_vec s) 0 (d0, d0, d0, d0)) as (rows & [[[sa st] sm] sl] & -> & Hrows); [cbn; lia..|].
  rewrite bind_value. case_decide as Hnil.
  { rewrite Hnil in *. apply nil_length_inv in H3 as ->. reflexivity. }
  assert (0 < length (tid_vec s))%nat by (destruct (tid_vec s); [done|cbn; lia]).
  rewrite wrap_small by lia.
  assert (forall l, length l = length (tid_vec s) -> exists a b, sort l !! 0%nat = Some a /\
    get (sort l) (Z.of_nat (length (tid_vec s)) - 1) = Some b /\ a ∈ l /\ b ∈ l) as Hends.
  { intros l Hl. pose proof (Permutation_length (sort_perm l)) as Hs.
    destruct (lookup_lt_is_Some_2 (sort l) 0) as [a Ha]; [lia|].
    destruct (get_is_Some (sort l) (Z.of_nat (length (tid_vec s)) - 1)) as [b Hb]; [lia|].
    exists a, b. do 2 (split; [done|]). split; rewrite <- (sort_perm l); [by eapply list_elem_of_lookup_2|].
    pose proof (get_bounds _ _ _ Hb). unfold get in Hb. case_match; [|done]. by eapply list_elem_of_lookup_2. }
  destruct (Hends _ H3) as (a & b & -> & -> & Ha & Hb), (Hends _ H4) as (a' & b' & -> & -> & Ha' & Hb').
  cbn [deref]. rewrite !bind_value. eexists. split; [done|]. by repeat split.
Qed.

(** No thread records anything: neither program ever writes a result. *)
Lemma programs_never_report malloc register_memory read_config argv workload_file config_file r :
  run_main malloc register_memory read_config argv config_file <> Ok (Some r) /\
  run_micro_main malloc register_memory read_config argv workload_file config_file <> Ok r.
Proof.
  split.
  - unfold run_main. case_match; [done|]. intros Hr. ok_inv. done.
  - unfold run_micro_main. intros Hr. ok_inv. done.
Qed.
