(* ===== verification/Json.v ===== *)
(** Configuration documents (core/util/json_config.h): the handles on the values of a
    document that the program reads its settings with. *)
From stdpp Require Import strings pretty.
From Stdlib Require Import Ascii.
From S2P Require Import Prelude Words Outcome Doubles.

(** ** Documents *)

(** The values of rapidjson as the program tells them apart: a number is an integer of 64
    bits, with or without a sign, or a double. *)
Inductive value :=
| JNull
| JBool (b : bool)
| JInt (z : Z)
| JDouble (d : spec_float)
| JString (s : string)
| JArray (elements : list value)
| JObject (members : list (string * value)).

(** [FindMember]: the first member of that name. *)
Fixpoint FindMember (name : string) (members : list (string * value)) : option value :=
  match members with
  | [] => None
  | (n, v) :: members => if String.eqb n name then Some v else FindMember name members
  end.

(** [c_str()]: what stands before the first byte that is 0. *)
Fixpoint c_str (s : string) : string :=
  match s with
  | EmptyString => EmptyString
  | String ch s => if (nat_of_ascii ch =? 0)%nat then EmptyString else String ch (c_str s)
  end.

(** ** Handles *)

(** [current_] is the value that the pointer leads to, if it is not null; [root_] keeps the
    document alive. *)
Record JsonConfig := MkJson {
  current_ : option value;
  path_ : string;
}.

Section Load.
(** [parse text] is what rapidjson parses a text to, with comments, and [read_file path]
    the contents of a file that can be opened. *)
Context (parse : string -> option value) (read_file : string -> option string).

(** A text with an error gives a handle on nothing. *)
Definition load (json_text path : string) : JsonConfig := MkJson (parse (c_str json_text)) path.

Definition load_file (path : string) : outcome JsonConfig :=
  match read_file path with
  | None => Exit
  | Some conf => Ok (load conf ("<" +:+ path +:+ ">"))
  end.
End Load.

Definition empty_array (path : string) : JsonConfig := MkJson (Some (JArray [])) path.
Definition empty_dict (path : string) : JsonConfig := MkJson (Some (JObject [])) path.

Definition get_path (c : JsonConfig) : string := path_ c.

(** [write v] is the text that the writer of rapidjson makes of a value. *)
Definition dump (write : value -> string) (c : JsonConfig) : outcome string :=
  v ← deref (current_ c);
  Ok (c_str (write v)).

Definition dump_file (write : value -> string) (writable : string -> bool) (path : string) (c : JsonConfig) : outcome string :=
  _ ← assert_ (bool_decide (is_Some (current_ c)));
  conf ← dump write c;
  if writable path then Ok conf else Exit.

(** ** Tests *)

Definition exists_ (c : JsonConfig) : bool := bool_decide (is_Some (current_ c)).

Definition is_bool (c : JsonConfig) : bool := match current_ c with Some (JBool _) => true | _ => false end.
Definition is_int64 (c : JsonConfig) : bool := match current_ c with Some (JInt z) => (- 2 ^ 63 <=? z) && (z <? 2 ^ 63) | _ => false end.
Definition is_uint64 (c : JsonConfig) : bool := match current_ c with Some (JInt z) => (0 <=? z) && (z <? 2 ^ 64) | _ => false end.
Definition is_double (c : JsonConfig) : bool := match current_ c with Some (JDouble _) => true | _ => false end.
Definition is_str (c : JsonConfig) : bool := match current_ c with Some (JString _) => true | _ => false end.
Definition is_array (c : JsonConfig) : bool := match current_ c with Some (JArray _) => true | _ => false end.
Definition is_dict (c : JsonConfig) : bool := match current_ c with Some (JObject _) => true | _ => false end.

(** ** Reading *)

Definition get_bool (c : JsonConfig) : outcome bool :=
  if negb (exists_ c) then Exit
  else if negb (is_bool c) then Exit
  else match current_ c with Some (JBool b) => Ok b | _ => Fault end.

Definition get_int64 (c : JsonConfig) : outcome Z :=
  if negb (exists_ c) then Exit
  else if negb (is_int64 c) then Exit
  else match current_ c with Some (JInt z) => Ok z | _ => Fault end.

Definition get_uint64 (c : JsonConfig) : outcome Z :=
  if negb (exists_ c) then Exit
  else if negb (is_uint64 c) then Exit
  else match current_ c with Some (JInt z) => Ok z | _ => Fault end.

Definition get_double (c : JsonConfig) : outcome spec_float :=
  if negb (exists_ c) then Exit
  else if negb (is_double c) then Exit
  else match current_ c with Some (JDouble d) => Ok d | _ => Fault end.

Definition get_str (c : JsonConfig) : outcome string :=
  if negb (exists_ c) then Exit
  else if negb (is_str c) then Exit
  else match current_ c with Some (JString s) => Ok s | _ => Fault end.

(** The getters with a value for what does not exist. *)
Definition get_bool_default (default_v : bool) (c : JsonConfig) : outcome bool :=
  if exists_ c then get_bool c else Ok default_v.
Definition get_int64_default (default_v : Z) (c : JsonConfig) : outcome Z :=
  if exists_ c then get_int64 c else Ok default_v.
Definition get_uint64_default (default_v : Z) (c : JsonConfig) : outcome Z :=
  if exists_ c then get_uint64 c else Ok default_v.
Definition get_double_default (default_v : spec_float) (c : JsonConfig) : outcome spec_float :=
  if exists_ c then get_double c else Ok default_v.
Definition get_str_default (default_v : string) (c : JsonConfig) : outcome string :=
  if exists_ c then get_str c else Ok default_v.

(** ** Arrays and dictionaries *)

Definition size (c : JsonConfig) : outcome Z :=
  _ ← assert_ (is_array c);
  match current_ c with Some (JArray l) => Ok (Z.of_nat (length l)) | _ => Fault end.

(** [get(size_t index)]: no error if the index is too large. *)
Definition get_at (index : Z) (c : JsonConfig) : outcome JsonConfig :=
  _ ← assert_ (is_array c);
  let path := path_ c +:+ "[" +:+ pretty index +:+ "]" in
  n ← size c;
  match current_ c with
  | Some (JArray l) => if n <=? index then Ok (MkJson None path) else Ok (MkJson (l !! Z.to_nat index) path)
  | _ => Fault
  end.

Definition keys (c : JsonConfig) : outcome (list string) :=
  _ ← assert_ (is_dict c);
  match current_ c with Some (JObject members) => Ok (map fst members) | _ => Fault end.

(** [get(std::string key)]: no error if there is no such member. *)
Definition get_key (key : string) (c : JsonConfig) : outcome JsonConfig :=
  _ ← assert_ (is_dict c);
  let q := String (ascii_of_nat 34) EmptyString in
  let path := path_ c +:+ "[" +:+ q +:+ key +:+ q +:+ "]" in
  if negb (exists_ c) then Ok (MkJson None path)
  else match current_ c with
  | Some (JObject members) => Ok (MkJson (FindMember (c_str key) members) path)
  | _ => Fault
  end.
