(* ===== verification/Connect.v ===== *)
(** The settings of the nodes and their connections: what the programs read from their
    configuration files (memory_pool/server/server.cc, compute_pool/worker, workload/micro),
    the constructor of MetaManager (core/connection/meta_manager.cc), and the queue pairs
    of a thread (core/connection/qp_manager.cc, qp_manager.h). *)
From stdpp Require Import strings.
From S2P Require Import Prelude Words Outcome Doubles Json Meta Server ComputeNode.

(** ** Configuration *)

Section Files.
Context (parse : string -> option value) (read_file : string -> option string).

Abbreviation load_file := (load_file parse read_file).

(** [conf.get(key).get_int64()] *)
Definition int64_of (key : string) (conf : JsonConfig) : outcome Z := c ← get_key key conf; get_int64 c.
Definition uint64_of (key : string) (conf : JsonConfig) : outcome Z := c ← get_key key conf; get_uint64 c.
Definition str_of (key : string) (conf : JsonConfig) : outcome string := c ← get_key key conf; get_str c.
Definition bool_of (key : string) (conf : JsonConfig) : outcome bool := c ← get_key key conf; get_bool c.
Definition double_of (key : string) (conf : JsonConfig) : outcome spec_float := c ← get_key key conf; get_double c.

(** The settings of a memory node, with the number of keys and of buckets that the
    workload reads later. *)
Definition read_memory_node (num_keys bkt_num : Z) : outcome memory_node_config :=
  json_config ← load_file "memory_node_config.json";
  local_node ← get_key "local_memory_node" json_config;
  machine_num ← int64_of "machine_num" local_node;
  machine_id ← int64_of "machine_id" local_node;
  _ ← assert_ ((0 <=? i32 machine_id) && (i32 machine_id <? i32 machine_num));
  local_port ← int64_of "local_port" local_node;
  local_meta_port ← int64_of "local_meta_port" local_node;
  use_pm ← int64_of "use_pm" local_node;
  pm_root ← str_of "pm_root" local_node;
  workload ← str_of "workload" local_node;
  mem_size_GB ← uint64_of "mem_size_GB" local_node;
  log_buf_size_GB ← uint64_of "log_buf_size_GB" local_node;
  compute_nodes ← get_key "remote_compute_nodes" json_config;
  compute_node_ips ← get_key "compute_node_ips" compute_nodes;
  compute_node_num ← size compute_node_ips;
  Ok (MkMemoryNodeConfig machine_num machine_id use_pm workload mem_size_GB log_buf_size_GB
        (Z.to_nat compute_node_num) num_keys bkt_num).

(** What the constructor of [MICRO] and [LoadTable] read. *)
Definition read_num_keys : outcome Z :=
  json_config ← load_file "micro_config.json";
  conf ← get_key "micro" json_config;
  int64_of "num_keys" conf.

Definition read_bkt_num : outcome Z :=
  json_config ← load_file "workload/micro/micro_tables/micro.json";
  table_config ← get_key "table" json_config;
  uint64_of "bkt_num" table_config.

(** What [GenThreads] reads. *)
Definition read_compute_node : outcome compute_node_config :=
  json_config ← load_file "compute_node_config.json";
  client_conf ← get_key "local_compute_node" json_config;
  machine_num ← int64_of "machine_num" client_conf;
  machine_id ← int64_of "machine_id" client_conf;
  thread_num_per_machine ← int64_of "thread_num_per_machine" client_conf;
  coro_num ← int64_of "coroutine_num" client_conf;
  Ok (MkComputeNodeConfig machine_num machine_id thread_num_per_machine coro_num).

(** What [run_thread] reads for every benchmark, and for the micro benchmark. *)
Definition read_attempted_num (bench_name : string) : outcome Z :=
  json_config ← load_file (bench_name +:+ "_config.json");
  conf ← get_key bench_name json_config;
  uint64_of "attempted_num" conf.

Definition read_micro : outcome micro_config :=
  json_config ← load_file "micro_config.json";
  micro_conf ← get_key "micro" json_config;
  num_keys ← int64_of "num_keys" micro_conf;
  zipf_theta ← double_of "zipf_theta" micro_conf;
  is_skewed ← bool_of "is_skewed" micro_conf;
  write_ratio ← uint64_of "write_ratio" micro_conf;
  data_set_size ← uint64_of "data_set_size" micro_conf;
  Ok (MkMicroConfig num_keys zipf_theta).

(** ** MetaManager *)

(** [MemoryAttr] of the RDMA library. *)
Record MemoryAttr := MkMemoryAttr { mr_buf : Z; mr_key : Z }.

Record RemoteNode := MkRemoteNode { node_id : Z; ip : string; port : Z }.

Definition SERVER_HASH_BUFF_ID : Z := 97.
Definition SERVER_LOG_BUFF_ID : Z := 98.

(** [class MetaManager], with the tables of Meta.v. *)
Record manager := MkManager {
  m_metas : MetaManager;
  m_local_machine_id : Z;
  m_txn_system : Z;
  m_remote_nodes : list RemoteNode;
  m_remote_log_mrs : gmap Z MemoryAttr;
  m_remote_hash_mrs : gmap Z MemoryAttr;
}.

(** The network: what a node sends when the client connects to it, if everything works, and
    what the [i]-th question for a region of a node is answered, if at all. *)
Context (recv_meta : string -> Z -> option (list Z)).
Context (get_remote_mr : string -> Z -> Z -> nat -> option MemoryAttr).

(** [MetaManager::GetMemStoreMeta]: -1 if a call of the socket library fails. *)
Definition GetMemStoreMeta_from (remote_ip : string) (remote_port : Z) (m : MetaManager) : outcome (Z * MetaManager) :=
  match recv_meta remote_ip remote_port with
  | None => Ok (-1, m)
  | Some recv_buf => GetMemStoreMeta recv_buf m
  end.

(** The loop over the memory nodes, [n] more of them from [index] on. *)
Fixpoint remote_loop (n : nat) (index : Z) (remote_ips remote_ports remote_meta_ports : JsonConfig)
    (nodes : list RemoteNode) (m : MetaManager) : outcome (list RemoteNode * MetaManager) :=
  match n with
  | O => Ok (nodes, m)
  | S n =>
      c ← get_at index remote_ips; remote_ip ← get_str c;
      c ← get_at index remote_meta_ports; remote_meta_port ← get_int64 c;
      r ← GetMemStoreMeta_from remote_ip (i32 remote_meta_port) m;
      let '(remote_machine_id, m) := r in
      c ← get_at index remote_ports; remote_port ← get_int64 c;
      remote_loop n (index + 1) remote_ips remote_ports remote_meta_ports
        (nodes ++ [MkRemoteNode remote_machine_id remote_ip (i32 remote_port)]) m
  end.

(** [while (QP::get_remote_mr(...) != SUCC)], from the [i]-th question on. *)
Fixpoint ask_mr (fuel i : nat) (node : RemoteNode) (id : Z) : outcome MemoryAttr :=
  match fuel with
  | O => OutOfFuel
  | S fuel =>
      match get_remote_mr (ip node) (port node) id i with
      | Some mr => Ok mr
      | None => ask_mr fuel (S i) node id
      end
  end.

Definition GetMRMeta (fuel : nat) (node : RemoteNode) (mrs : gmap Z MemoryAttr * gmap Z MemoryAttr)
    : outcome (gmap Z MemoryAttr * gmap Z MemoryAttr) :=
  remote_hash_mr ← ask_mr fuel 0 node SERVER_HASH_BUFF_ID;
  remote_log_mr ← ask_mr fuel 0 node SERVER_LOG_BUFF_ID;
  Ok (<[node_id node := remote_log_mr]> (fst mrs), <[node_id node := remote_hash_mr]> (snd mrs)).

Fixpoint mr_loop (fuel : nat) (nodes : list RemoteNode) (mrs : gmap Z MemoryAttr * gmap Z MemoryAttr)
    : outcome (gmap Z MemoryAttr * gmap Z MemoryAttr) :=
  match nodes with
  | [] => Ok mrs
  | node :: nodes => mrs ← GetMRMeta fuel node mrs; mr_loop fuel nodes mrs
  end.

(** The constructor. *)
Definition new_manager (fuel : nat) : outcome manager :=
  json_config ← load_file "compute_node_config.json";
  local_node ← get_key "local_compute_node" json_config;
  local_machine_id ← int64_of "machine_id" local_node;
  txn_system ← int64_of "txn_system" local_node;
  pm_nodes ← get_key "remote_pm_nodes" json_config;
  remote_ips ← get_key "remote_ips" pm_nodes;
  remote_ports ← get_key "remote_ports" pm_nodes;
  remote_meta_ports ← get_key "remote_meta_ports" pm_nodes;
  n ← size remote_ips;
  r ← remote_loop (Z.to_nat n) 0 remote_ips remote_ports remote_meta_ports [] new_MetaManager;
  local_port ← int64_of "local_port" local_node;
  mrs ← mr_loop fuel (fst r) (∅, ∅);
  Ok (MkManager (snd r) (i32 local_machine_id) txn_system (fst r) (fst mrs) (snd mrs)).
End Files.

Definition GetRemoteLogMR (m : manager) (node_id : Z) : outcome MemoryAttr :=
  let mrsearch := m_remote_log_mrs m !! node_id in
  _ ← assert_ (bool_decide (is_Some mrsearch));
  deref mrsearch.

Definition GetRemoteHashMR (m : manager) (node_id : Z) : outcome MemoryAttr :=
  let mrsearch := m_remote_hash_mrs m !! node_id in
  _ ← assert_ (bool_decide (is_Some mrsearch));
  deref mrsearch.

(** ** QPManager *)

(** A queue pair: its index of node and worker, and the remote region that it is bound to. *)
Record RCQP := MkRCQP { qp_node : Z; qp_worker : Z; qp_remote_mr : MemoryAttr }.

(** [class QPManager]: the arrays of pointers. *)
Record QPManager := MkQPManager {
  data_qps : list (option RCQP);
  log_qps : list (option RCQP);
  global_tid : Z;
}.

Definition new_QPManager (tid : Z) : QPManager :=
  MkQPManager (replicate (Z.to_nat MAX_REMOTE_NODE_NUM) None) (replicate (Z.to_nat MAX_REMOTE_NODE_NUM) None) tid.

(** A write of an element of an array. *)
Definition set_qp (qps : list (option RCQP)) (i : Z) (qp : RCQP) : outcome (list (option RCQP)) :=
  if (0 <=? i) && (i <? Z.of_nat (length qps)) then Ok (<[Z.to_nat i := Some qp]> qps) else Fault.

Definition get_qp (qps : list (option RCQP)) (i : Z) : outcome (option RCQP) :=
  if (0 <=? i) && (i <? Z.of_nat (length qps)) then deref (qps !! Z.to_nat i) else Fault.

Section QPs.
(** Whether the [i]-th attempt to connect a queue pair with its node succeeds. *)
Context (connect : RemoteNode -> Z -> nat -> bool).

(** [do { rc = qp->connect(...) ... } while (rc != SUCC)], from the [i]-th attempt on. *)
Fixpoint connect_loop (fuel i : nat) (node : RemoteNode) (worker : Z) : outcome () :=
  match fuel with
  | O => OutOfFuel
  | S fuel => if connect node worker i then Ok () else connect_loop fuel (S i) node worker
  end.

(** The body of the loop for one memory node. [create_rc_qp] makes the queue pair of that
    index, or finds it; the worker numbers are of type [int]. *)
Definition connect_node (fuel : nat) (m : manager) (qm : QPManager) (node : RemoteNode) : outcome QPManager :=
  remote_hash_mr ← GetRemoteHashMR m (node_id node);
  remote_log_mr ← GetRemoteLogMR m (node_id node);
  let data_worker := i32 (i32 (global_tid qm) * 2) in
  let log_worker := i32 (i32 (global_tid qm) * 2 + 1) in
  _ ← connect_loop fuel 0 node data_worker;
  data_qps ← set_qp (data_qps qm) (node_id node) (MkRCQP (node_id node) data_worker remote_hash_mr);
  _ ← connect_loop fuel 0 node log_worker;
  log_qps ← set_qp (log_qps qm) (node_id node) (MkRCQP (node_id node) log_worker remote_log_mr);
  Ok (MkQPManager data_qps log_qps (global_tid qm)).

Fixpoint connect_nodes (fuel : nat) (m : manager) (nodes : list RemoteNode) (qm : QPManager) : outcome QPManager :=
  match nodes with
  | [] => Ok qm
  | node :: nodes => qm ← connect_node fuel m qm node; connect_nodes fuel m nodes qm
  end.

Definition BuildQPConnection (fuel : nat) (m : manager) (qm : QPManager) : outcome QPManager :=
  connect_nodes fuel m (m_remote_nodes m) qm.
End QPs.

Definition GetRemoteDataQPWithNodeID (qm : QPManager) (node_id : Z) : outcome (option RCQP) := get_qp (data_qps qm) node_id.

Definition GetRemoteLogQPWithNodeID (qm : QPManager) (node_id : Z) : outcome (option RCQP) := get_qp (log_qps qm) node_id.

(** The queue pairs of the nodes that have one. *)
Fixpoint GetRemoteDataQPsWithNodeIDs (qm : QPManager) (node_ids : list Z) : outcome (list RCQP) :=
  match node_ids with
  | [] => Ok []
  | node_id :: node_ids =>
      qp ← get_qp (data_qps qm) node_id;
      qps ← GetRemoteDataQPsWithNodeIDs qm node_ids;
      Ok (option_list qp ++ qps)
  end.
