(* ===== verification/ConnectTheorems.v ===== *)
(** The settings and the connections of the nodes: reading a document of settings succeeds
    exactly if it has them, the files of the repository are such documents, the threads of a
    compute node connect to memory nodes that send the expected message, and never to one
    that sends what the server of the repository sends. *)
From stdpp Require Import strings.
From S2P Require Import Prelude Words Outcome Doubles Json Layout HashStore Meta MetaTheorems Server ComputeNode Connect.

(** ** Settings of a document *)

(** The value below the members [keys]. *)
Fixpoint at_path (keys : list string) (v : value) : option value :=
  match keys with
  | [] => Some v
  | key :: keys => match v with JObject ms => FindMember key ms ≫= at_path keys | _ => None end
  end.

Lemma at_path_snoc keys key doc :
  at_path (keys ++ [key]) doc = match at_path keys doc with Some (JObject ms) => FindMember key ms | _ => None end.
Proof.
  revert doc. induction keys as [|k keys IH]; intros doc; cbn.
  - destruct doc; try done. by destruct (FindMember key members).
  - destruct doc; try done. destruct (FindMember k members); [apply IH|done].
Qed.

(** ** Code that stops the process unless it finds what it needs *)

(** The code returns the only value with [P], or there is none and the process stops. *)
Definition decides {A} (r : outcome A) (P : A -> Prop) : Prop :=
  (exists x, r = Ok x /\ P x /\ forall y, P y -> y = x) \/ (r = Exit /\ forall y, ~ P y).

Lemma decides_ret {A} (x : A) : decides (Ok x) (fun y => y = x).
Proof. left. by exists x. Qed.

Lemma decides_iff {A} (r : outcome A) (P Q : A -> Prop) : (forall x, P x <-> Q x) -> decides r P -> decides r Q.
Proof.
  intros H [(x & E & Hx & Hu)|[E Hno]]; [left; exists x|right].
  - split; [done|]. split; [by apply H|]. intros y Hy%H. by apply Hu.
  - split; [done|]. intros y Hy%H. by apply (Hno y).
Qed.


Lemma decides_assert {A} b (r : outcome A) P :
  (b = true -> decides r P) -> decides (_ ← assert_ b; r) (fun y => b = true /\ P y).
Proof.
  destruct b; intros H; [|right; split; [done|]; by intros y [? _]].
  eapply decides_iff; [|by apply H]. intros x. by split; [|intros [_ ?]].
Qed.

Lemma decides_bind {A B} (r : outcome A) (f : A -> outcome B) P Q :
  decides r P -> (forall x, P x -> decides (f x) (Q x)) -> decides (r ≫= f) (fun y => exists x, P x /\ Q x y).
Proof.
  intros [(x & -> & Hx & Hu)|[-> Hno]] Hf.
  - rewrite bind_value. destruct (Hf x Hx) as [(y & Hy & HQ & Hv)|[Hy HQ]].
    + left. exists y. split; [done|]. split; [by exists x|]. intros z (x' & Hx' & Hz). rewrite (Hu x' Hx') in Hz. by apply Hv.
    + right. split; [done|]. intros y (x' & Hx' & Hz). rewrite (Hu x' Hx') in Hz. by apply (HQ y).
  - right. split; [done|]. intros y (x & Hx & _). by apply (Hno x).
Qed.

(** ** Handles *)

(** A handle on the value below [keys] of a document, if there is one. *)
Definition points (doc : value) (keys : list string) (c : JsonConfig) : Prop := current_ c = at_path keys doc.

Definition int64_value (v : value) (z : Z) : Prop := v = JInt z /\ - 2 ^ 63 <= z < 2 ^ 63.
Definition uint64_value (v : value) (z : Z) : Prop := v = JInt z /\ 0 <= z < 2 ^ 64.
Definition double_value (v : value) (d : spec_float) : Prop := v = JDouble d.
Definition bool_value (v : value) (b : bool) : Prop := v = JBool b.
Definition str_value (v : value) (s : string) : Prop := v = JString s.
Definition array_value (v : value) (l : list value) : Prop := v = JArray l.
Definition length_value (v : value) (n : Z) : Prop := exists l, array_value v l /\ n = Z.of_nat (length l).

(** The document has the setting [x] below [keys]. *)
Definition setting_at {A} (has : value -> A -> Prop) (doc : value) (keys : list string) (x : A) : Prop :=
  exists v, at_path keys doc = Some v /\ has v x.

(** What a getter reads from the value of its handle. *)
Definition getter {A} (get : JsonConfig -> outcome A) (has : value -> A -> Prop) : Prop :=
  forall c, decides (get c) (fun x => exists v, current_ c = Some v /\ has v x).

Lemma get_int64_spec : getter get_int64 int64_value.
Proof.
  intros [[v|] p]; [|right; split; [done|]; by intros y (v & ? & _)].
  destruct v as [| |z| | | |]; try (right; split; [done|]; by intros y (v & [= <-] & [=] & _)).
  unfold get_int64, is_int64. cbn. destruct (Z.leb_spec (- 2 ^ 63) z); [destruct (Z.ltb_spec z (2 ^ 63))|]; cbn.
  - left. exists z. split; [done|]. split; [by eexists|]. by intros y (v & [= <-] & [= ->] & _).
  - right. split; [done|]. intros y (v & [= <-] & [= ->] & ?). lia.
  - right. split; [done|]. intros y (v & [= <-] & [= ->] & ?). lia.
Qed.

Lemma get_uint64_spec : getter get_uint64 uint64_value.
Proof.
  intros [[v|] p]; [|right; split; [done|]; by intros y (v & ? & _)].
  destruct v as [| |z| | | |]; try (right; split; [done|]; by intros y (v & [= <-] & [=] & _)).
  unfold get_uint64, is_uint64. cbn. destruct (Z.leb_spec 0 z); [destruct (Z.ltb_spec z (2 ^ 64))|]; cbn.
  - left. exists z. split; [done|]. split; [by eexists|]. by intros y (v & [= <-] & [= ->] & _).
  - right. split; [done|]. intros y (v & [= <-] & [= ->] & ?). lia.
  - right. split; [done|]. intros y (v & [= <-] & [= ->] & ?). lia.
Qed.

(** The getters that only look at the kind of the value. *)
Ltac kind_getter :=
  intros [[v|] p]; [|right; split; [done|]; by intros y (v & ? & _)];
  destruct v; try (right; split; [done|]; by intros y (v & [= <-] & [=]));
  left; eexists; split; [reflexivity|]; split; [by eexists|]; by intros y (v & [= <-] & [= ->]).

Lemma get_bool_spec : getter get_bool bool_value.
Proof. kind_getter. Qed.

Lemma get_double_spec : getter get_double double_value.
Proof. kind_getter. Qed.

Lemma get_str_spec : getter get_str str_value.
Proof. kind_getter. Qed.

Lemma size_spec : getter size length_value.
Proof.
  intros [[v|] p]; [|right; split; [done|]; by intros y (v & ? & _)].
  destruct v; try (right; split; [done|]; by intros y (v & [= <-] & l & [=] & _)).
  left. eexists. split; [reflexivity|]. split; [eexists; split; [done|]; by eexists|]. by intros y (v & [= <-] & l & [= ->] & ->).
Qed.

Definition is_object (doc : value) (keys : list string) : Prop := exists ms, at_path keys doc = Some (JObject ms).

Lemma is_object_parent doc keys key more v : at_path (keys ++ key :: more) doc = Some v -> is_object doc keys.
Proof.
  revert doc. induction keys as [|k keys IH]; intros doc; cbn; destruct doc; try done.
  - intros _. by eexists.
  - destruct (FindMember k members) as [w|] eqn:E; [|done]. cbn. intros (ms & Hms)%IH. exists ms. cbn. by rewrite E.
Qed.

(** A member of a dictionary: the process stops if the handle is on something else. *)
Lemma get_key_spec doc keys key c :
  c_str key = key -> points doc keys c ->
  (is_object doc keys /\ exists c', get_key key c = Ok c' /\ points doc (keys ++ [key]) c') \/
  (~ is_object doc keys /\ get_key key c = Exit).
Proof.
  intros Hk Hc. unfold points, is_object in *. unfold get_key, is_dict, exists_. rewrite Hc, Hk.
  destruct (at_path keys doc) as [v|] eqn:E; [destruct v as [| | | | | |ms]|]; cbn; try (right; split; [by intros [ms' [=]]|done]).
  left. split; [by eexists|]. eexists. split; [done|]. cbn. by rewrite at_path_snoc, E.
Qed.

Lemma decides_member {A} doc keys key c (f : JsonConfig -> outcome A) P :
  c_str key = key -> points doc keys c -> (forall c', points doc (keys ++ [key]) c' -> decides (f c') P) ->
  decides (get_key key c ≫= f) (fun y => is_object doc keys /\ P y).
Proof.
  intros Hk Hc Hf. destruct (get_key_spec doc keys key c Hk Hc) as [(Ho & c' & -> & Hc')|[Ho ->]].
  - rewrite bind_value. eapply decides_iff; [|by apply Hf]. intros x. by split; [|intros [_ ?]].
  - right. split; [done|]. by intros y [? _].
Qed.

(** [conf.get(key)] and then a getter. *)
Lemma get_of_spec {A} (get : JsonConfig -> outcome A) has doc keys key c :
  getter get has -> c_str key = key -> points doc keys c ->
  decides (c' ← get_key key c; get c') (setting_at has doc (keys ++ [key])).
Proof.
  intros Hg Hk Hc. eapply decides_iff; [|apply (decides_member doc keys key c get (setting_at has doc (keys ++ [key])) Hk Hc)].
  2: { intros c' Hc'. eapply decides_iff; [|apply Hg]. intros x. unfold points in Hc'. rewrite Hc'. reflexivity. }
  intros x. split; [by intros [_ ?]|]. intros Hx. split; [|exact Hx]. destruct Hx as (v & Hv & _).
  by eapply is_object_parent.
Qed.

Lemma bind_assoc {A B C} (r : outcome A) (f : A -> outcome B) (g : B -> outcome C) :
  (r ≫= f) ≫= g = r ≫= fun x => f x ≫= g.
Proof. by destruct r. Qed.

(** The same, when the code goes on with what was read. *)
Lemma get_of_bind {A B} (get : JsonConfig -> outcome A) has doc keys key c (f : A -> outcome B) Q :
  getter get has -> c_str key = key -> points doc keys c ->
  (forall x, setting_at has doc (keys ++ [key]) x -> decides (f x) (Q x)) ->
  decides (c' ← get_key key c; x ← get c'; f x) (fun y => exists x, setting_at has doc (keys ++ [key]) x /\ Q x y).
Proof. intros Hg Hk Hc Hf. rewrite <- bind_assoc. apply decides_bind; [by apply get_of_spec|exact Hf]. Qed.

(** ** What the nodes read *)

Section Settings.
Context (parse : string -> option value) (read_file : string -> option string).

(** The document in a file. *)
Definition document (file : string) : option value :=
  match read_file file with Some text => parse (c_str text) | None => None end.

Lemma decides_file {A} file (f : JsonConfig -> outcome A) P :
  (forall c, current_ c = None -> f c = Exit) -> (forall doc c, points doc [] c -> decides (f c) (P doc)) ->
  decides (c ← load_file parse read_file file; f c) (fun x => exists doc, document file = Some doc /\ P doc x).
Proof.
  intros Hnone Hf. unfold load_file, document. destruct (read_file file) as [text|]; cbn.
  2: { right. split; [done|]. by intros y (doc & ? & _). }
  destruct (parse (c_str text)) as [doc|] eqn:E.
  - eapply decides_iff; [|apply (Hf doc)].
    + intros x. split; [by exists doc|]. by intros (doc' & [= <-] & Hx).
    + done.
  - right. split; [by apply Hnone|]. by intros y (doc & ? & _).
Qed.

Lemma no_document {A} key c (f : JsonConfig -> outcome A) : current_ c = None -> get_key key c ≫= f = Exit.
Proof. intros Hc. unfold get_key, is_dict. by rewrite Hc. Qed.

Definition memory_node_document (num_keys bkt_num : Z) (doc : value) (cfg : memory_node_config) : Prop :=
  let local key := ["local_memory_node"; key] in
  setting_at int64_value doc (local "machine_num") (cfg_machine_num cfg) /\
  setting_at int64_value doc (local "machine_id") (cfg_machine_id cfg) /\
  0 <= i32 (cfg_machine_id cfg) < i32 (cfg_machine_num cfg) /\
  (exists local_port, setting_at int64_value doc (local "local_port") local_port) /\
  (exists local_meta_port, setting_at int64_value doc (local "local_meta_port") local_meta_port) /\
  setting_at int64_value doc (local "use_pm") (cfg_use_pm cfg) /\
  (exists pm_root, setting_at str_value doc (local "pm_root") pm_root) /\
  setting_at str_value doc (local "workload") (cfg_workload cfg) /\
  setting_at uint64_value doc (local "mem_size_GB") (cfg_mem_size_GB cfg) /\
  setting_at uint64_value doc (local "log_buf_size_GB") (cfg_log_buf_size_GB cfg) /\
  (exists ips, setting_at array_value doc ["remote_compute_nodes"; "compute_node_ips"] ips /\
     cfg_compute_node_num cfg = length ips) /\
  cfg_num_keys cfg = num_keys /\ cfg_bkt_num cfg = bkt_num.

Create HintDb getters.
Hint Resolve get_int64_spec get_uint64_spec get_str_spec get_bool_spec get_double_spec size_spec : getters.

(** The next setting of the dictionary that the handle of [H] is on. *)
Ltac reads H := rewrite ?bind_assoc; eapply get_of_bind; [solve [auto with getters]|reflexivity|exact H|intros ? ?].

Lemma read_memory_node_spec num_keys bkt_num :
  decides (read_memory_node parse read_file num_keys bkt_num)
    (fun cfg => exists doc, document "memory_node_config.json" = Some doc /\ memory_node_document num_keys bkt_num doc cfg).
Proof.
  apply decides_file; [intros c Hc; by apply no_document|]. intros doc c Hc.
  eapply decides_iff; [|eapply decides_member; [reflexivity|exact Hc|]; intros local Hlocal].
  2: { unfold int64_of, uint64_of, str_of. do 2 reads Hlocal.
    eapply decides_assert. intros Hids. do 7 reads Hlocal.
    eapply decides_member; [reflexivity|exact Hc|]. intros nodes Hnodes. reads Hnodes. apply decides_ret. }
  intros cfg. cbn [app]. split.
  - intros (_ & num & Hnum & id & Hid & Hids%andb_true_iff & p1 & Hp1 & p2 & Hp2 & pm & Hpm & root & Hroot & w & Hw & ms & Hms &
      ls & Hls & _ & n & (v & Hv & l & Hl & ->) & ->).
    rewrite Z.leb_le, Z.ltb_lt in Hids. repeat split; cbn; try done; try (by eexists); try (destruct Hids; assumption).
    exists l. split; [by exists v|]. by rewrite Nat2Z.id.
  - intros (Hnum & Hid & Hids & [p1 Hp1] & [p2 Hp2] & Hpm & [root Hroot] & Hw & Hms & Hls & (l & (v & Hv & ->) & Hl) & Hk & Hb).
    split; [destruct Hnum as (v' & Hv' & _); by eapply (is_object_parent doc [] "local_memory_node")|].
    exists (cfg_machine_num cfg). split; [exact Hnum|]. exists (cfg_machine_id cfg). split; [exact Hid|].
    split; [rewrite andb_true_iff, Z.leb_le, Z.ltb_lt; exact Hids|].
    exists p1. split; [exact Hp1|]. exists p2. split; [exact Hp2|]. exists (cfg_use_pm cfg). split; [exact Hpm|].
    exists root. split; [exact Hroot|]. exists (cfg_workload cfg). split; [exact Hw|]. exists (cfg_mem_size_GB cfg). split; [exact Hms|].
    exists (cfg_log_buf_size_GB cfg). split; [exact Hls|].
    split; [by eapply (is_object_parent doc [] "remote_compute_nodes" ["compute_node_ips"])|].
    exists (Z.of_nat (length l)). split; [exists (JArray l); split; [exact Hv|by exists l]|].
    rewrite Nat2Z.id, <- Hl, <- Hk, <- Hb. by destruct cfg.
Qed.

Definition compute_node_document (doc : value) (cfg : compute_node_config) : Prop :=
  let local key := ["local_compute_node"; key] in
  setting_at int64_value doc (local "machine_num") (cn_machine_num cfg) /\
  setting_at int64_value doc (local "machine_id") (cn_machine_id cfg) /\
  setting_at int64_value doc (local "thread_num_per_machine") (cn_thread_num_per_machine cfg) /\
  setting_at int64_value doc (local "coroutine_num") (cn_coroutine_num cfg).

Lemma read_compute_node_spec :
  decides (read_compute_node parse read_file)
    (fun cfg => exists doc, document "compute_node_config.json" = Some doc /\ compute_node_document doc cfg).
Proof.
  apply decides_file; [intros c Hc; by apply no_document|]. intros doc c Hc.
  eapply decides_iff; [|eapply decides_member; [reflexivity|exact Hc|]; intros local Hlocal].
  2: { unfold int64_of. do 4 reads Hlocal. apply decides_ret. }
  intros cfg. cbn [app]. split.
  - by intros (_ & num & Hnum & id & Hid & t & Ht & k & Hk & ->).
  - intros (Hnum & Hid & Ht & Hk).
    split; [destruct Hnum as (v' & Hv' & _); by eapply (is_object_parent doc [] "local_compute_node")|].
    exists (cn_machine_num cfg). split; [exact Hnum|]. exists (cn_machine_id cfg). split; [exact Hid|].
    exists (cn_thread_num_per_machine cfg). split; [exact Ht|]. exists (cn_coroutine_num cfg). split; [exact Hk|]. by destruct cfg.
Qed.

Definition micro_document (doc : value) (cfg : micro_config) : Prop :=
  let micro key := ["micro"; key] in
  setting_at int64_value doc (micro "num_keys") (mc_num_keys cfg) /\
  setting_at double_value doc (micro "zipf_theta") (mc_zipf_theta cfg) /\
  (exists is_skewed, setting_at bool_value doc (micro "is_skewed") is_skewed) /\
  (exists write_ratio, setting_at uint64_value doc (micro "write_ratio") write_ratio) /\
  (exists data_set_size, setting_at uint64_value doc (micro "data_set_size") data_set_size).

Lemma read_micro_spec :
  decides (read_micro parse read_file)
    (fun cfg => exists doc, document "micro_config.json" = Some doc /\ micro_document doc cfg).
Proof.
  apply decides_file; [intros c Hc; by apply no_document|]. intros doc c Hc.
  eapply decides_iff; [|eapply decides_member; [reflexivity|exact Hc|]; intros micro Hmicro].
  2: { unfold int64_of, uint64_of, double_of, bool_of. do 5 reads Hmicro. apply decides_ret. }
  intros cfg. cbn [app]. split.
  - intros (_ & k & Hk & t & Ht & b & Hb & w & Hw & d & Hd & ->). repeat split; try done; by eexists.
  - intros (Hk & Ht & [b Hb] & [w Hw] & [d Hd]).
    split; [destruct Hk as (v' & Hv' & _); by eapply (is_object_parent doc [] "micro")|].
    exists (mc_num_keys cfg). split; [exact Hk|]. exists (mc_zipf_theta cfg). split; [exact Ht|].
    exists b. split; [exact Hb|]. exists w. split; [exact Hw|]. exists d. split; [exact Hd|]. by destruct cfg.
Qed.

End Settings.

(** ** The files of the repository *)

(** The files of src/config and src/workload/micro/micro_tables/micro.json, as documents. *)
Definition shipped_files (file : string) : option value :=
  if String.eqb file "memory_node_config.json" then Some (JObject [
    ("local_memory_node", JObject [
      ("machine_num", JInt 2); ("machine_id", JInt 0); ("local_port", JInt 12346); ("local_meta_port", JInt 12347);
      ("use_pm", JInt 0); ("mem_size_GB", JInt 8); ("log_buf_size_GB", JInt 0); ("pm_root", JString "/dev/dax0.1");
      ("workload", JString "TATP")]);
    ("remote_compute_nodes", JObject [
      ("compute_node_ips", JArray [JString "192.168.3.70"]); ("compute_node_ports", JArray [JInt 12345])])])
  else if String.eqb file "compute_node_config.json" then Some (JObject [
    ("local_compute_node", JObject [
      ("machine_num", JInt 1); ("machine_id", JInt 0); ("thread_num_per_machine", JInt 16); ("coroutine_num", JInt 8);
      ("local_port", JInt 12345); ("txn_system", JInt 2); ("comment", JString "0 is farm, 1 is drtmh, 2 is ford")]);
    ("remote_pm_nodes", JObject [
      ("remote_ips", JArray [JString "192.168.3.72"; JString "192.168.3.74"]);
      ("remote_ports", JArray [JInt 12346; JInt 12346]); ("remote_meta_ports", JArray [JInt 12347; JInt 12347])])])
  else if String.eqb file "micro_config.json" then Some (JObject [
    ("micro", JObject [
      ("num_keys", JInt 1000000); ("is_skewed", JBool true); ("zipf_theta", JDouble (ddiv (double_of_Z 99) (double_of_Z 100)));
      ("data_set_size", JInt 1); ("write_ratio", JInt 25); ("attempted_num", JInt 100000)])])
  else if String.eqb file "workload/micro/micro_tables/micro.json" then Some (JObject [
    ("table", JObject [("name", JString "MICRO"); ("bkt_num", JInt 200000)])])
  else if String.eqb file "tatp_config.json" then Some (JObject [
    ("tatp", JObject [("num_subscriber", JInt 100000); ("attempted_num", JInt 1000000)])])
  else if String.eqb file "smallbank_config.json" then Some (JObject [
    ("smallbank", JObject [("num_accounts", JInt 100000); ("num_hot_accounts", JInt 4000); ("attempted_num", JInt 1000000)])])
  else if String.eqb file "tpcc_config.json" then Some (JObject [("tpcc", JObject [("attempted_num", JInt 50000)])])
  else None.

(** A file that holds its own name stands for its document. *)
Lemma shipped_settings :
  read_memory_node shipped_files Some 1000000 200000 = Ok (MkMemoryNodeConfig 2 0 0 "TATP" 8 0 1 1000000 200000) /\
  read_compute_node shipped_files Some = Ok (MkComputeNodeConfig 1 0 16 8) /\
  read_micro shipped_files Some = Ok (MkMicroConfig 1000000 (ddiv (double_of_Z 99) (double_of_Z 100))) /\
  read_num_keys shipped_files Some = Ok 1000000 /\ read_bkt_num shipped_files Some = Ok 200000 /\
  map (read_attempted_num shipped_files Some) ["micro"; "tatp"; "smallbank"; "tpcc"] = [Ok 100000; Ok 1000000; Ok 1000000; Ok 50000].
Proof. by vm_compute. Qed.

(** An integer for theta is not accepted. *)
Lemma integer_theta_stops :
  read_micro (fun _ => Some (JObject [("micro", JObject [("num_keys", JInt 1000); ("is_skewed", JBool true); ("zipf_theta", JInt 0);
    ("data_set_size", JInt 1); ("write_ratio", JInt 25)])])) Some = Exit.
Proof. by vm_compute. Qed.

(** ** The memory nodes of a compute node *)

Lemma get_key_Ok doc keys key c c' :
  c_str key = key -> points doc keys c -> get_key key c = Ok c' -> points doc (keys ++ [key]) c'.
Proof. intros Hk Hc H. destruct (get_key_spec doc keys key c Hk Hc) as [(_ & c1 & E & Hc1)|[_ E]]; rewrite E in H; [by injection H as <-|done]. Qed.

Lemma get_at_array index c l :
  0 <= index -> current_ c = Some (JArray l) -> exists c', get_at index c = Ok c' /\ current_ c' = l !! Z.to_nat index.
Proof.
  intros Hi Hc. unfold get_at, size, is_array. rewrite Hc. cbn. destruct (Z.leb_spec (Z.of_nat (length l)) index).
  - eexists. split; [done|]. cbn. symmetry. apply lookup_ge_None. lia.
  - eexists. by split.
Qed.

Section Nodes.
Context (parse : string -> option value) (read_file : string -> option string).
Context (recv_meta : string -> Z -> option (list Z)).
Context (get_remote_mr : string -> Z -> Z -> nat -> option MemoryAttr).

(** The settings of the memory nodes in the document of a compute node. *)
Definition node_settings (doc : value) (ips ports meta_ports : list value) : Prop :=
  at_path ["remote_pm_nodes"; "remote_ips"] doc = Some (JArray ips) /\
  at_path ["remote_pm_nodes"; "remote_ports"] doc = Some (JArray ports) /\
  at_path ["remote_pm_nodes"; "remote_meta_ports"] doc = Some (JArray meta_ports).

(** Every node that the loop has asked is in its result, with the id that it sent. *)
Lemma remote_loop_asks n index ips ports mports li lp lm nodes metas nodes' metas' j p :
  0 <= index -> current_ ips = Some (JArray li) -> current_ ports = Some (JArray lp) -> current_ mports = Some (JArray lm) ->
  remote_loop recv_meta n index ips ports mports nodes metas = Ok (nodes', metas') ->
  index <= Z.of_nat j < index + Z.of_nat n -> li !! j = Some (JString p) ->
  exists q before id after node, lm !! j = Some (JInt q) /\ GetMemStoreMeta_from recv_meta p (i32 q) before = Ok (id, after) /\
    node ∈ nodes' /\ node_id node = id.
Proof.
  revert index nodes metas. induction n as [|n IH]; intros index nodes metas Hi Hips Hports Hm H Hj Hp; [lia|].
  cbn [remote_loop] in H. destruct (get_at_array index ips li Hi Hips) as (c1 & E1 & C1).
  destruct (get_at_array index mports lm Hi Hm) as (c2 & E2 & C2). destruct (get_at_array index ports lp Hi Hports) as (c3 & E3 & C3).
  rewrite E1, bind_value in H. apply bind_Ok in H as (p1 & P1 & H). rewrite E2, bind_value in H.
  apply bind_Ok in H as (q1 & Q1 & H). apply bind_Ok in H as ([id m1] & G1 & H). rewrite E3, bind_value in H.
  apply bind_Ok in H as (r1 & R1 & H).
  assert (forall k nodes metas, remote_loop recv_meta n k ips ports mports nodes metas = Ok (nodes', metas') ->
    forall x, x ∈ nodes -> x ∈ nodes') as Hkeep.
  { clear. induction n as [|n IH]; intros k nodes metas H x Hx; cbn [remote_loop] in H; [by injection H as <- <-|].
    do 4 apply bind_Ok in H as (? & _ & H). apply bind_Ok in H as ([id m1] & _ & H). do 2 apply bind_Ok in H as (? & _ & H).
    eapply IH; [exact H|]. apply elem_of_app. by left. }
  destruct (decide (Z.of_nat j = index)) as [Ej|Hne].
  - subst index. rewrite Nat2Z.id in C1, C2.
    destruct (get_str_spec c1) as [(s & Es & (v & Hv & Hs) & _)|[Es _]]; [|congruence].
    destruct (get_int64_spec c2) as [(z & Ez & (v2 & Hv2 & Hz & _) & _)|[Ez _]]; [|congruence].
    rewrite P1 in Es. injection Es as <-. rewrite Q1 in Ez. injection Ez as <-.
    unfold str_value in Hs. assert (p = p1) as -> by congruence.
    exists q1, metas, id, m1, (MkRemoteNode id p1 (i32 r1)). split; [congruence|]. split; [exact G1|]. split; [|done].
    eapply Hkeep; [exact H|]. apply elem_of_app. right. by left.
  - eapply (IH (index + 1)); [lia|done|done|done|exact H|lia|done].
Qed.

(** ** A node that is not understood *)

Section QueuePairs.
Context (connect : RemoteNode -> Z -> nat -> bool).

Lemma set_qp_Ok qps i qp qps' : set_qp qps i qp = Ok qps' -> 0 <= i < Z.of_nat (length qps) /\ length qps' = length qps.
Proof.
  unfold set_qp. destruct (Z.leb_spec 0 i), (Z.ltb_spec i (Z.of_nat (length qps))); cbn; try done.
  intros [= <-]. by rewrite length_insert.
Qed.

Lemma connect_nodes_ids fuel m nodes qm qm' :
  connect_nodes connect fuel m nodes qm = Ok qm' -> Forall (fun node => 0 <= node_id node < Z.of_nat (length (data_qps qm))) nodes.
Proof.
  revert qm. induction nodes as [|node nodes IH]; intros qm H; [constructor|].
  cbn [connect_nodes] in H. apply bind_Ok in H as (qm1 & H1 & H). unfold connect_node in H1. ok_inv. subst qm1.
  match goal with E : set_qp (data_qps qm) _ _ = Ok _ |- _ => apply set_qp_Ok in E as [Hi Hl] end.
  constructor; [exact Hi|]. apply IH in H. cbn [data_qps] in H. by rewrite Hl in H.
Qed.

(** C15. A compute node of the repository never connects to a memory node of the repository.
    If the file of a compute node lists a memory node whose message is the one that
    PrepareHashMeta builds for one or more tables, and the memory behind it does not hold
    the end marker by chance, then no thread of the compute node ever leaves
    BuildQPConnection, whatever else the network and the card do: the constructor of
    MetaManager fails or records the id -1, with which the thread writes before its array
    of queue pairs. *)
Theorem service_never_connects (doc : value) (ips ports meta_ports : list value) (j : nat) (p : string) (q : Z)
    (mid : Z) (t : HashStore) (ts : list HashStore) (rest : list Z) (fuel fuel' : nat) (tid : Z) (qm : QPManager) :
  document parse read_file "compute_node_config.json" = Some doc -> node_settings doc ips ports meta_ports ->
  ips !! j = Some (JString p) -> meta_ports !! j = Some (JInt q) ->
  recv_meta p (i32 q) = Some (PrepareHashMeta mid (t :: ts) ++ rest) ->
  0 <= hs_table_id t < 2 ^ 25 -> Z.of_nat (length (t :: ts)) < 2 ^ 32 ->
  load 8 rest (40 * misread_backup_num mid (hs_table_id t)) <> Ok MEM_STORE_META_END ->
  (m ← new_manager parse read_file recv_meta get_remote_mr fuel; BuildQPConnection connect fuel' m (new_QPManager tid)) <> Ok qm.
Proof.
  intros Hdoc (Hips & Hports & Hmeta) Hp Hq Hrecv Ht Hn Hmark (m & Hm & Hqm)%bind_Ok.
  unfold new_manager in Hm. apply bind_Ok in Hm as (c & Hc & Hm).
  assert (points doc [] c) as Pc.
  { unfold load_file in Hc. unfold document in Hdoc. destruct (read_file _) as [text|]; [|done]. injection Hc as <-.
    unfold points, Json.load. cbn. exact Hdoc. }
  apply bind_Ok in Hm as (local & _ & Hm). apply bind_Ok in Hm as (id & _ & Hm). apply bind_Ok in Hm as (sys & _ & Hm).
  apply bind_Ok in Hm as (pm & Epm & Hm). apply (get_key_Ok doc [] "remote_pm_nodes" c pm eq_refl Pc) in Epm.
  apply bind_Ok in Hm as (c1 & E1 & Hm). apply (get_key_Ok doc _ "remote_ips" pm c1 eq_refl Epm) in E1.
  apply bind_Ok in Hm as (c2 & E2 & Hm). apply (get_key_Ok doc _ "remote_ports" pm c2 eq_refl Epm) in E2.
  apply bind_Ok in Hm as (c3 & E3 & Hm). apply (get_key_Ok doc _ "remote_meta_ports" pm c3 eq_refl Epm) in E3.
  unfold points in E1, E2, E3. cbn [app] in E1, E2, E3. rewrite Hips in E1. rewrite Hports in E2. rewrite Hmeta in E3.
  apply bind_Ok in Hm as (n & Hsize & Hm). apply bind_Ok in Hm as ([nodes metas] & Hloop & Hm).
  apply bind_Ok in Hm as (lp & _ & Hm). apply bind_Ok in Hm as (mrs & _ & [= <-]).
  assert (n = Z.of_nat (length ips)) as ->.
  { unfold size, is_array in Hsize. rewrite E1 in Hsize. by injection Hsize. }
  pose proof (lookup_lt_Some _ _ _ Hp) as Hlt.
  destruct (remote_loop_asks _ 0 c1 c2 c3 _ _ _ _ _ _ _ j p ltac:(lia) E1 E2 E3 Hloop ltac:(lia) Hp)
    as (q' & before & id' & after & node & Hq' & Hget & Hin & Hid).
  rewrite Hq in Hq'. injection Hq' as <-. unfold GetMemStoreMeta_from in Hget. rewrite Hrecv in Hget.
  destruct (GetMemStoreMeta_of_server mid t ts rest before Ht Hn) as [_ Hlost].
  destruct (Hlost Hmark) as [E|E]; rewrite E in Hget; [|done]. injection Hget as Hid' _.
  apply connect_nodes_ids in Hqm. rewrite Forall_forall in Hqm. specialize (Hqm node Hin). lia.
Qed.

(** ** Memory nodes that send what the client expects *)

Record memory_node := MkMemoryNode {
  mn_ip : string;
  mn_port : Z;
  mn_meta_port : Z;
  mn_id : Z;
  mn_primary : list HashMeta;
  mn_backup : list HashMeta;
  mn_rest : list Z;  (* what lies behind the message in the buffer *)
  mn_hash_mr : MemoryAttr;
  mn_log_mr : MemoryAttr;
}.

Definition remote (x : memory_node) : RemoteNode := MkRemoteNode (mn_id x) (mn_ip x) (mn_port x).

(** The questions for a region are answered by it, one of the first [fuel] at least. *)
Definition answers (fuel : nat) (x : memory_node) (id : Z) (mr : MemoryAttr) : Prop :=
  (exists i, (i < fuel)%nat /\ is_Some (get_remote_mr (mn_ip x) (mn_port x) id i)) /\
  forall i mr', get_remote_mr (mn_ip x) (mn_port x) id i = Some mr' -> mr' = mr.

Record node_ok (fuel : nat) (x : memory_node) : Prop := {
  no_ports : 0 <= mn_port x < 2 ^ 16 /\ 0 <= mn_meta_port x < 2 ^ 16;
  no_id : 0 <= mn_id x < MAX_REMOTE_NODE_NUM;
  no_message : recv_meta (mn_ip x) (mn_meta_port x) = Some (client_message (mn_id x) (mn_primary x) (mn_backup x) ++ mn_rest x);
  no_length : 40 * (Z.of_nat (length (mn_primary x)) + Z.of_nat (length (mn_backup x))) < 2 ^ 63;
  no_metas : Forall wf_meta (mn_primary x) /\ Forall wf_meta (mn_backup x) /\ Forall table_in_arrays (mn_backup x);
  no_hash_mr : answers fuel x SERVER_HASH_BUFF_ID (mn_hash_mr x);
  no_log_mr : answers fuel x SERVER_LOG_BUFF_ID (mn_log_mr x);
}.

(** What the message of a node adds to the tables. *)
Definition add_node (m : MetaManager) (x : memory_node) : MetaManager :=
  foldl (add_backup (mn_id x)) (foldl (add_primary (mn_id x)) m (mn_primary x)) (mn_backup x).

Lemma add_node_arrays m x : arrays_ok m -> arrays_ok (add_node m x).
Proof.
  intros [H1 H2]. unfold arrays_ok, add_node. destruct (foldl_add_primary_arrays (mn_id x) m (mn_primary x)) as [E1 E2].
  rewrite <- E1 in H1. rewrite <- E2 in H2. revert H1 H2. generalize (foldl (add_primary (mn_id x)) m (mn_primary x)).
  induction (mn_backup x) as [|y l IH]; intros m' H1 H2; [done|]. cbn [foldl]. apply IH; cbn; by rewrite length_snoc_at.
Qed.

(** The tables of the nodes, whose ids differ, are found with their node. *)
Lemma add_nodes_lookup xs m x y :
  NoDup (map hm_table_id (concat (map mn_primary xs))) -> x ∈ xs -> y ∈ mn_primary x ->
  primary_hash_metas (foldl add_node m xs) !! hm_table_id y = Some y /\
  primary_table_nodes (foldl add_node m xs) !! hm_table_id y = Some (mn_id x).
Proof.
  induction xs as [|z xs IH] using rev_ind; intros Hnd Hx Hy; [by apply not_elem_of_nil in Hx|].
  rewrite map_app, concat_app, map_app in Hnd. cbn [map concat] in Hnd. rewrite app_nil_r in Hnd.
  apply NoDup_app in Hnd as (Hnd1 & Hdis & Hnd2).
  rewrite foldl_app. cbn [foldl]. unfold add_node at 1 3.
  destruct (foldl_add_backup_primary (mn_id z) (mn_backup z) (foldl (add_primary (mn_id z)) (foldl add_node m xs) (mn_primary z))) as [-> ->].
  apply elem_of_app in Hx as [Hx| ->%list_elem_of_singleton].
  - destruct (foldl_add_primary_other (mn_id z) (mn_primary z) (foldl add_node m xs) (hm_table_id y)) as [-> ->]; [|by apply IH].
    apply Forall_forall. intros w Hw E. apply (Hdis (hm_table_id y)).
    + apply list_elem_of_fmap. exists y. split; [done|]. apply list_elem_of_In, in_concat. exists (mn_primary x).
      split; [by apply in_map, list_elem_of_In|by apply list_elem_of_In].
    + apply list_elem_of_fmap. exists w. by split.
  - by apply foldl_add_primary_lookup.
Qed.

(** ** The constructor of MetaManager *)

Lemma decides_known {A} (r : outcome A) (P : A -> Prop) x : decides r P -> P x -> r = Ok x.
Proof. intros [(y & -> & _ & Hu)|[_ Hno]] Hx; [by rewrite (Hu x Hx)|by destruct (Hno x)]. Qed.

Lemma int64_of_known doc keys key c z :
  c_str key = key -> points doc keys c -> setting_at int64_value doc (keys ++ [key]) z -> int64_of key c = Ok z.
Proof. intros Hk Hc Hz. eapply decides_known; [|exact Hz]. by apply get_of_spec; [apply get_int64_spec| |]. Qed.

Lemma get_key_known doc keys key more v c :
  c_str key = key -> points doc keys c -> at_path (keys ++ key :: more) doc = Some v ->
  exists c', get_key key c = Ok c' /\ points doc (keys ++ [key]) c'.
Proof.
  intros Hk Hc Hv. destruct (get_key_spec doc keys key c Hk Hc) as [[_ H]|[Hno _]]; [exact H|].
  destruct Hno. by eapply is_object_parent.
Qed.

Lemma ask_mr_spec fuel x id mr : answers fuel x id mr -> ask_mr get_remote_mr fuel 0 (remote x) id = Ok mr.
Proof.
  intros [(k & Hk & Hs) Hmr]. assert (forall j, (j <= k)%nat -> ask_mr get_remote_mr (fuel - j) j (remote x) id = Ok mr) as H.
  { intros j. remember (k - j)%nat as d eqn:Hd. revert j Hd. induction d as [|d IH]; intros j Hd Hj.
    - assert (j = k) as -> by lia. destruct (fuel - k)%nat as [|f] eqn:E; [lia|]. cbn. destruct Hs as [mr' Hs]. cbn in Hs. rewrite Hs.
      by rewrite (Hmr _ _ Hs).
    - destruct (fuel - j)%nat as [|f] eqn:E; [lia|]. cbn. destruct (get_remote_mr _ _ id j) as [mr'|] eqn:Hg; [by rewrite (Hmr _ _ Hg)|].
      replace f with (fuel - S j)%nat by lia. apply IH; lia. }
  specialize (H 0%nat). rewrite Nat.sub_0_r in H. apply H. lia.
Qed.

Definition insert_all (mr : memory_node -> MemoryAttr) (m : gmap Z MemoryAttr) (xs : list memory_node) : gmap Z MemoryAttr :=
  foldl (fun m x => <[mn_id x := mr x]> m) m xs.

Lemma insert_all_lookup mr m xs x : NoDup (map mn_id xs) -> x ∈ xs -> insert_all mr m xs !! mn_id x = Some (mr x).
Proof.
  induction xs as [|y xs IH] using rev_ind; intros Hnd Hx; [by apply not_elem_of_nil in Hx|].
  rewrite map_app in Hnd. apply NoDup_app in Hnd as (Hnd & Hdis & _). unfold insert_all. rewrite foldl_app. cbn [foldl].
  apply elem_of_app in Hx as [Hx| ->%list_elem_of_singleton]; [|by rewrite lookup_insert_eq].
  rewrite lookup_insert_ne; [by apply IH|]. intros E. apply (Hdis (mn_id x)); [apply list_elem_of_fmap; by exists x|].
  rewrite <- E. by left.
Qed.

Lemma mr_loop_spec fuel xs mrs :
  Forall (node_ok fuel) xs ->
  mr_loop get_remote_mr fuel (map remote xs) mrs = Ok (insert_all mn_log_mr (fst mrs) xs, insert_all mn_hash_mr (snd mrs) xs).
Proof.
  intros Hxs. revert mrs. induction Hxs as [|x xs Hx _ IH]; intros mrs; [by destruct mrs|]. cbn [map mr_loop]. unfold GetMRMeta.
  rewrite (ask_mr_spec fuel x _ _ (no_hash_mr _ _ Hx)), bind_value, (ask_mr_spec fuel x _ _ (no_log_mr _ _ Hx)), !bind_value.
  rewrite IH. done.
Qed.

Lemma remote_loop_spec fuel ips ports mports pre xs nodes metas :
  current_ ips = Some (JArray (map (fun x => JString (mn_ip x)) (pre ++ xs))) ->
  current_ ports = Some (JArray (map (fun x => JInt (mn_port x)) (pre ++ xs))) ->
  current_ mports = Some (JArray (map (fun x => JInt (mn_meta_port x)) (pre ++ xs))) ->
  Forall (node_ok fuel) xs -> arrays_ok metas ->
  remote_loop recv_meta (length xs) (Z.of_nat (length pre)) ips ports mports nodes metas =
    Ok (nodes ++ map remote xs, foldl add_node metas xs).
Proof.
  intros Hips Hports Hm Hxs. revert pre nodes metas Hips Hports Hm. induction Hxs as [|x xs Hx _ IH]; intros pre nodes metas Hips Hports Hm Ha.
  { cbn. by rewrite app_nil_r. }
  cbn [length remote_loop]. pose proof (no_ports _ _ Hx) as [Hp Hmp]. pose proof (no_id _ _ Hx) as Hid. unfold MAX_REMOTE_NODE_NUM in Hid.
  assert (forall (f : memory_node -> value), map f (pre ++ x :: xs) !! length pre = Some (f x)) as Hnth.
  { intros f. by rewrite map_app, lookup_app_r, length_map, Nat.sub_diag by (by rewrite length_map). }
  destruct (get_at_array (Z.of_nat (length pre)) ips _ ltac:(lia) Hips) as (c1 & -> & C1).
  destruct (get_at_array (Z.of_nat (length pre)) mports _ ltac:(lia) Hm) as (c2 & -> & C2).
  destruct (get_at_array (Z.of_nat (length pre)) ports _ ltac:(lia) Hports) as (c3 & -> & C3).
  rewrite Nat2Z.id, Hnth in C1, C2, C3. rewrite bind_value.
  rewrite (decides_known (get_str c1) _ (mn_ip x) (get_str_spec c1)) by (by eexists). rewrite !bind_value.
  rewrite (decides_known (get_int64 c2) _ (mn_meta_port x) (get_int64_spec c2)) by (eexists; split; [exact C2|split; [done|lia]]).
  assert (forall z, 0 <= z < 2 ^ 16 -> i32 z = z) as Hsmall.
  { intros z Hz. rewrite <- (wrap_small 32 z) at 1 by lia. apply i32_u32. lia. }
  rewrite bind_value. unfold GetMemStoreMeta_from. rewrite Hsmall, (no_message _ _ Hx) by done.
  destruct (no_metas _ _ Hx) as (M1 & M2 & M3).
  rewrite GetMemStoreMeta_client_message by (done || (unfold MAX_REMOTE_NODE_NUM; lia) || apply (no_length _ _ Hx)).
  rewrite !bind_value.
  rewrite (decides_known (get_int64 c3) _ (mn_port x) (get_int64_spec c3)) by (eexists; split; [exact C3|split; [done|lia]]).
  rewrite bind_value, Hsmall by done.
  pose proof (IH (pre ++ [x]) (nodes ++ [remote x]) (add_node metas x)) as H. rewrite <- !app_assoc in H. cbn [app] in H.
  rewrite length_app in H. cbn [length] in H. replace (Z.of_nat (length pre + 1)) with (Z.of_nat (length pre) + 1) in H by lia.
  cbn [map foldl]. apply H; [done..|]. by apply add_node_arrays.
Qed.

Lemma new_manager_spec fuel doc xs id sys lport :
  document parse read_file "compute_node_config.json" = Some doc ->
  setting_at int64_value doc ["local_compute_node"; "machine_id"] id ->
  setting_at int64_value doc ["local_compute_node"; "txn_system"] sys ->
  setting_at int64_value doc ["local_compute_node"; "local_port"] lport ->
  node_settings doc (map (fun x => JString (mn_ip x)) xs) (map (fun x => JInt (mn_port x)) xs) (map (fun x => JInt (mn_meta_port x)) xs) ->
  Forall (node_ok fuel) xs ->
  new_manager parse read_file recv_meta get_remote_mr fuel =
    Ok (MkManager (foldl add_node new_MetaManager xs) (i32 id) sys (map remote xs)
          (insert_all mn_log_mr ∅ xs) (insert_all mn_hash_mr ∅ xs)).
Proof.
  intros Hdoc Hid Hsys Hport (Hips & Hports & Hmeta) Hxs. unfold new_manager.
  assert (exists c, load_file parse read_file "compute_node_config.json" = Ok c /\ points doc [] c) as (c & -> & Hc).
  { unfold load_file, document in *. destruct (read_file _) as [text|]; [|done]. eexists. by split. }
  rewrite bind_value. pose proof Hid as (v & Hv & _).
  destruct (get_key_known doc [] "local_compute_node" _ v c eq_refl Hc Hv) as (local & -> & Hlocal). rewrite bind_value.
  rewrite (int64_of_known doc _ "machine_id" local id eq_refl Hlocal Hid), bind_value.
  rewrite (int64_of_known doc _ "txn_system" local sys eq_refl Hlocal Hsys), bind_value.
  destruct (get_key_known doc [] "remote_pm_nodes" _ _ c eq_refl Hc Hips) as (pm & -> & Hpm). rewrite bind_value.
  destruct (get_key_known doc _ "remote_ips" [] _ pm eq_refl Hpm Hips) as (c1 & -> & C1). rewrite bind_value.
  destruct (get_key_known doc _ "remote_ports" [] _ pm eq_refl Hpm Hports) as (c2 & -> & C2). rewrite bind_value.
  destruct (get_key_known doc _ "remote_meta_ports" [] _ pm eq_refl Hpm Hmeta) as (c3 & -> & C3). rewrite bind_value.
  unfold points in C1, C2, C3. cbn [app] in C1, C2, C3. rewrite Hips in C1. rewrite Hports in C2. rewrite Hmeta in C3.
  rewrite (decides_known (size c1) _ (Z.of_nat (length xs)) (size_spec c1))
    by (eexists; split; [exact C1|]; eexists; split; [done|by rewrite length_map]).
  rewrite bind_value, Nat2Z.id. change 0 with (Z.of_nat (length (@nil memory_node))).
  rewrite (remote_loop_spec fuel c1 c2 c3 [] xs [] new_MetaManager) by (done || by split). rewrite bind_value.
  rewrite (int64_of_known doc _ "local_port" local lport eq_refl Hlocal Hport), bind_value. cbn [fst snd app].
  by rewrite mr_loop_spec, bind_value.
Qed.

(** ** The queue pairs of a thread *)

Lemma connect_loop_spec fuel node worker :
  (exists k, (k < fuel)%nat /\ connect node worker k = true) -> connect_loop connect fuel 0 node worker = Ok ().
Proof.
  intros (k & Hk & Hs). assert (forall d j, (j + d = k)%nat -> connect_loop connect (fuel - j) j node worker = Ok ()) as H.
  { induction d as [|d IH]; intros j Hj; (destruct (fuel - j)%nat as [|f] eqn:E; [lia|]); cbn.
    - assert (j = k) as -> by lia. by rewrite Hs.
    - destruct (connect node worker j); [done|]. replace f with (fuel - S j)%nat by lia. apply IH. lia. }
  specialize (H k 0%nat eq_refl). by rewrite Nat.sub_0_r in H.
Qed.

(** The array after the queue pairs of the nodes were stored. *)
Definition store_all (qp : memory_node -> RCQP) (qps : list (option RCQP)) (xs : list memory_node) : list (option RCQP) :=
  foldl (fun l x => <[Z.to_nat (mn_id x) := Some (qp x)]> l) qps xs.

Lemma length_store_all qp qps xs : length (store_all qp qps xs) = length qps.
Proof. revert qps. induction xs as [|x xs IH]; intros qps; [done|]. unfold store_all in *. cbn [foldl]. by rewrite IH, length_insert. Qed.

Lemma store_all_other qp qps xs i :
  0 <= i -> Forall (fun x => 0 <= mn_id x) xs -> i ∉ map mn_id xs -> store_all qp qps xs !! Z.to_nat i = qps !! Z.to_nat i.
Proof.
  intros Hi Hxs. revert qps. induction Hxs as [|x xs Hx _ IH]; intros qps Hni; [done|].
  cbn [map] in Hni. apply not_elem_of_cons in Hni as [Hne Hni]. unfold store_all in *. cbn [foldl]. rewrite IH by done.
  apply list_lookup_insert_ne. lia.
Qed.

Lemma store_all_lookup qp qps xs x :
  Forall (fun x => 0 <= mn_id x < Z.of_nat (length qps)) xs -> NoDup (map mn_id xs) -> x ∈ xs ->
  store_all qp qps xs !! Z.to_nat (mn_id x) = Some (Some (qp x)).
Proof.
  intros Hxs. revert qps Hxs. induction xs as [|y xs IH]; intros qps Hxs Hnd Hx; [by apply not_elem_of_nil in Hx|].
  apply Forall_cons in Hxs as [Hy Hxs]. cbn [map] in Hnd. apply NoDup_cons in Hnd as [Hni Hnd].
  apply elem_of_cons in Hx as [->|Hx].
  - unfold store_all. cbn [foldl]. change (store_all qp (<[Z.to_nat (mn_id y):=Some (qp y)]> qps) xs !! Z.to_nat (mn_id y) = Some (Some (qp y))).
    rewrite store_all_other; [by apply list_lookup_insert_eq; lia|lia| |done].
    eapply Forall_impl; [exact Hxs|]. intros z Hz. cbn in Hz. lia.
  - apply (IH (<[Z.to_nat (mn_id y) := Some (qp y)]> qps)); [|done|done]. by rewrite length_insert.
Qed.

Lemma get_qp_spec qps i qp : 0 <= i < Z.of_nat (length qps) -> qps !! Z.to_nat i = Some qp -> get_qp qps i = Ok qp.
Proof. intros Hi H. unfold get_qp. test (0 <=? i) is true. test (i <? Z.of_nat (length qps)) is true. cbn. by rewrite H. Qed.

Lemma set_qp_in qps i qp : 0 <= i < Z.of_nat (length qps) -> set_qp qps i qp = Ok (<[Z.to_nat i := Some qp]> qps).
Proof. intros Hi. unfold set_qp. test (0 <=? i) is true. by test (i <? Z.of_nat (length qps)) is true. Qed.

Lemma connect_nodes_spec fuel m xs qm :
  0 <= global_tid qm < 2 ^ 30 -> length (data_qps qm) = 100%nat -> length (log_qps qm) = 100%nat ->
  Forall (fun x => 0 <= mn_id x < 100 /\ m_remote_hash_mrs m !! mn_id x = Some (mn_hash_mr x) /\
    m_remote_log_mrs m !! mn_id x = Some (mn_log_mr x) /\
    forall worker, exists k, (k < fuel)%nat /\ connect (remote x) worker k = true) xs ->
  connect_nodes connect fuel m (map remote xs) qm =
    Ok (MkQPManager (store_all (fun x => MkRCQP (mn_id x) (2 * global_tid qm) (mn_hash_mr x)) (data_qps qm) xs)
          (store_all (fun x => MkRCQP (mn_id x) (2 * global_tid qm + 1) (mn_log_mr x)) (log_qps qm) xs) (global_tid qm)).
Proof.
  intros Ht Hd Hl Hxs. revert qm Ht Hd Hl. induction Hxs as [|x xs (Hid & Hh & Hlog & Hcon) _ IH]; intros qm Ht Hd Hl; [by destruct qm|].
  cbn [map connect_nodes]. unfold connect_node, GetRemoteHashMR, GetRemoteLogMR. cbn [node_id remote]. rewrite Hh, Hlog.
  rewrite !bool_decide_true by eauto. cbn [assert_ deref]. rewrite !bind_value.
  assert (forall z, 0 <= z < 2 ^ 31 -> i32 z = z) as Hsmall.
  { intros z Hz. rewrite <- (wrap_small 32 z) at 1 by lia. apply i32_u32. lia. }
  rewrite (Hsmall (global_tid qm)), !Hsmall by lia.
  rewrite (connect_loop_spec fuel (remote x) (global_tid qm * 2)) by apply Hcon.
  rewrite bind_value, (set_qp_in (data_qps qm)) by lia. rewrite bind_value.
  rewrite (connect_loop_spec fuel (remote x) (global_tid qm * 2 + 1)) by apply Hcon.
  rewrite bind_value, set_qp_in by lia. rewrite !bind_value.
  rewrite IH; [|done|by cbn; rewrite length_insert..]. cbn [global_tid data_qps log_qps store_all foldl].
  by rewrite (Z.mul_comm (global_tid qm) 2).
Qed.

Lemma insert_all_mrs xs :
  NoDup (map mn_id xs) -> Forall (fun x => insert_all mn_hash_mr ∅ xs !! mn_id x = Some (mn_hash_mr x) /\
    insert_all mn_log_mr ∅ xs !! mn_id x = Some (mn_log_mr x)) xs.
Proof. intros Hnd. apply Forall_forall. intros x Hx. by rewrite !insert_all_lookup. Qed.

(** What a thread has after it has connected: the queue pairs of every node, bound to its
    regions, no others, and the tables with the node that holds them. *)
Definition connected (tid : Z) (xs : list memory_node) (m : manager) (qm : QPManager) : Prop :=
  (forall x, x ∈ xs ->
    GetRemoteDataQPWithNodeID qm (mn_id x) = Ok (Some (MkRCQP (mn_id x) (2 * tid) (mn_hash_mr x))) /\
    GetRemoteLogQPWithNodeID qm (mn_id x) = Ok (Some (MkRCQP (mn_id x) (2 * tid + 1) (mn_log_mr x))) /\
    forall y, y ∈ mn_primary x ->
      GetPrimaryHashMetaWithTableID (m_metas m) (hm_table_id y) = Ok y /\ GetPrimaryNodeID (m_metas m) (hm_table_id y) = Ok (mn_id x)) /\
  forall i, 0 <= i < MAX_REMOTE_NODE_NUM -> i ∉ map mn_id xs ->
    GetRemoteDataQPWithNodeID qm i = Ok None /\ GetRemoteLogQPWithNodeID qm i = Ok None.

(** C14. Threads connect to memory nodes that send the message that the client parses. If the
    document of the compute node lists such nodes, with different ids and tables, and the
    network answers each question and each attempt to connect at last, the constructor of
    MetaManager and BuildQPConnection return, and afterwards the thread has, for every node,
    the queue pairs of workers 2 * tid and 2 * tid + 1, bound to the region of the table and
    to the region of the log of that node, has none for the other ids, and finds every table
    with the node that announced it. *)
Theorem threads_connect (fuel : nat) (doc : value) (xs : list memory_node) (id sys lport tid : Z) :
  document parse read_file "compute_node_config.json" = Some doc ->
  setting_at int64_value doc ["local_compute_node"; "machine_id"] id ->
  setting_at int64_value doc ["local_compute_node"; "txn_system"] sys ->
  setting_at int64_value doc ["local_compute_node"; "local_port"] lport ->
  node_settings doc (map (fun x => JString (mn_ip x)) xs) (map (fun x => JInt (mn_port x)) xs) (map (fun x => JInt (mn_meta_port x)) xs) ->
  Forall (node_ok fuel) xs -> NoDup (map mn_id xs) -> NoDup (map hm_table_id (concat (map mn_primary xs))) ->
  (forall x worker, x ∈ xs -> exists k, (k < fuel)%nat /\ connect (remote x) worker k = true) -> 0 <= tid < 2 ^ 30 ->
  exists m qm, new_manager parse read_file recv_meta get_remote_mr fuel = Ok m /\
    BuildQPConnection connect fuel m (new_QPManager tid) = Ok qm /\ connected tid xs m qm.
Proof.
  intros Hdoc Hid Hsys Hport Hset Hxs Hnd Hnt Hcon Htid.
  rewrite (new_manager_spec fuel doc xs id sys lport) by done. do 2 eexists. split; [done|].
  assert (Forall (fun x => 0 <= mn_id x < 100) xs) as Hids by (eapply Forall_impl; [exact Hxs|intros x Hx; apply (no_id _ _ Hx)]).
  unfold BuildQPConnection. cbn [m_remote_nodes]. split.
  - apply connect_nodes_spec; [done..|]. pose proof (insert_all_mrs xs Hnd) as Hmrs. rewrite Forall_forall in Hmrs, Hids |- *.
    intros x Hx. split; [by apply Hids|]. split; [by apply Hmrs|]. split; [by apply Hmrs|]. intros worker. by apply Hcon.
  - unfold connected, GetRemoteDataQPWithNodeID, GetRemoteLogQPWithNodeID. cbn [data_qps log_qps new_QPManager m_metas global_tid]. split.
    + intros x Hx. pose proof (proj1 (Forall_forall _ _) Hids x Hx) as Hi. cbn in Hi.
      split; [|split]; [apply get_qp_spec; [by rewrite length_store_all|by apply store_all_lookup]..|].
      intros y Hy. unfold GetPrimaryHashMetaWithTableID, GetPrimaryNodeID.
      destruct (add_nodes_lookup xs new_MetaManager x y Hnt Hx Hy) as [-> ->].
      by split.
    + unfold MAX_REMOTE_NODE_NUM. intros i Hi Hni.
      assert (Forall (fun x => 0 <= mn_id x) xs) by (eapply Forall_impl; [exact Hids|cbn; lia]).
      split; (apply get_qp_spec; [by rewrite length_store_all|]); rewrite store_all_other by (done || lia);
        apply lookup_replicate; split; try done; unfold MAX_REMOTE_NODE_NUM; lia.
Qed.
End QueuePairs.
End Nodes.

(** ** Two memory nodes, and the nodes of the repository *)

Definition sample_nodes : list memory_node :=
  [MkMemoryNode "192.168.3.72" 12346 12347 0 [meta_sample 9] [] [7] (MkMemoryAttr 4096 11) (MkMemoryAttr 8192 12);
   MkMemoryNode "192.168.3.74" 12346 12347 1 [] [meta_sample 9] [] (MkMemoryAttr 4096 21) (MkMemoryAttr 8192 22)].

(** The node with that address. *)
Definition sample_node (ip : string) : option memory_node := find (fun x => String.eqb (mn_ip x) ip) sample_nodes.

Definition sample_meta (ip : string) (port : Z) : option (list Z) :=
  x ← sample_node ip; Some (client_message (mn_id x) (mn_primary x) (mn_backup x) ++ mn_rest x).

(** The first question is lost, the second one is answered. *)
Definition sample_mr (ip : string) (port id : Z) (i : nat) : option MemoryAttr :=
  match i with
  | O => None
  | S _ => x ← sample_node ip; Some (if id =? SERVER_HASH_BUFF_ID then mn_hash_mr x else mn_log_mr x)
  end.

(** The third attempt to connect succeeds. *)
Definition sample_connect (node : RemoteNode) (worker : Z) (i : nat) : bool := Nat.eqb i 2.

Definition compute_document : value := default (JObject []) (shipped_files "compute_node_config.json").

Lemma sample_nodes_ok : Forall (node_ok sample_meta sample_mr 3) sample_nodes.
Proof.
  repeat constructor; cbn; try lia; try done; try (by vm_compute).
  all: first [by intros [|i] mr' [= <-]|exists 1%nat; split; [lia|by eexists]].
Qed.

Lemma threads_connect_witness :
  exists m qm, new_manager shipped_files Some sample_meta sample_mr 3 = Ok m /\
    BuildQPConnection sample_connect 3 m (new_QPManager 5) = Ok qm /\ connected 5 sample_nodes m qm.
Proof.
  apply (threads_connect shipped_files Some sample_meta sample_mr sample_connect 3 compute_document sample_nodes 0 2 12345 5).
  - reflexivity.
  - exists (JInt 0). split; [reflexivity|]. split; [reflexivity|lia].
  - exists (JInt 2). split; [reflexivity|]. split; [reflexivity|lia].
  - exists (JInt 12345). split; [reflexivity|]. split; [reflexivity|lia].
  - split; [reflexivity|]. split; reflexivity.
  - apply sample_nodes_ok.
  - apply (bool_decide_unpack _). vm_compute. exact I.
  - apply (bool_decide_unpack _). vm_compute. exact I.
  - intros x worker _. exists 2%nat. split; [lia|reflexivity].
  - lia.
Defined.

(** What the server of the repository sends for one table, with a buffer of zeros behind. *)
Definition server_meta (ip : string) (port : Z) : option (list Z) :=
  Some (PrepareHashMeta 0 [table_sample] ++ repeat 0 8).

Lemma service_never_connects_witness :
  (m ← new_manager shipped_files Some server_meta sample_mr 3; BuildQPConnection sample_connect 3 m (new_QPManager 5)) <>
    Ok (new_QPManager 5).
Proof.
  apply (service_never_connects shipped_files Some server_meta sample_mr sample_connect compute_document
    [JString "192.168.3.72"; JString "192.168.3.74"] [JInt 12346; JInt 12346] [JInt 12347; JInt 12347] 0 "192.168.3.72" 12347
    0 table_sample [] (repeat 0 8)).
  - reflexivity.
  - split; [reflexivity|]. split; reflexivity.
  - reflexivity.
  - reflexivity.
  - reflexivity.
  - simpl. lia.
  - simpl. lia.
  - vm_compute. discriminate.
Defined.

(** The write is the one before the array. *)
Lemma service_faults :
  (m ← new_manager shipped_files Some server_meta sample_mr 3; Ok (map node_id (m_remote_nodes m))) = Ok [-1; -1] /\
  (m ← new_manager shipped_files Some server_meta sample_mr 3; BuildQPConnection sample_connect 3 m (new_QPManager 5)) = Fault.
Proof. by vm_compute. Qed.
