(* ===== verification/Dmc.v ===== *)
(** The metadata client (core/metadata/dmc.h, dmc.cc, dmc_issue.cc, dmc_check.cc,
    dmc_check_reader.cc, inode.h): path resolution, the sets of items, and the
    one-sided lookups over the bucket chains of the memory servers. *)
From S2P Require Import Prelude Words Outcome Layout Hash Alloc Meta Verbs Scheduler HashStore AddrCache.

(** ** Paths *)

Record NameID := MkNameID { nid_key : Z; nid_name : list Z }.

Definition slash : Z := 47.

(** [path.find('/', pos)] as an [int]: [npos] becomes -1. *)
Fixpoint find_from (c : Z) (s : list Z) (i : Z) : Z :=
  match s with
  | [] => -1
  | x :: s => if x =? c then i32 i else find_from c s (i + 1)
  end.

Definition path_find (path : list Z) (pos : nat) : Z := find_from slash (drop pos path) (Z.of_nat pos).

Fixpoint path_loop (fuel : nat) (path : list Z) (path_ids : list NameID) : outcome (list NameID) :=
  match fuel with
  | O => OutOfFuel
  | S fuel =>
      let pos := path_find path 1 in
      if 0 <? pos then
        let name := take (Z.to_nat pos) path in
        path_loop fuel path (path_ids ++ [MkNameID (compute_hash name) name])
      else Ok path_ids
  end.

Definition path_resolution (fuel : nat) (path : list Z) : outcome (list NameID) := path_loop fuel path [].

(** ** Data *)

(** [NOT_FOUND], an [offset_t], compared with a [uint64_t]. *)
Definition NOT_FOUND : Z := u64 (-1).

(** [item_ptr] is an index of the items that the client has allocated. *)
Record DataSetItem := MkDataSetItem {
  item_ptr : nat;
  is_fetched : bool;
  offset : Z;
  read_which_node : Z;
}.

Definition set_fetched (x : DataSetItem) : DataSetItem :=
  MkDataSetItem (item_ptr x) true (offset x) (read_which_node x).
Definition set_node (n : Z) (x : DataSetItem) : DataSetItem :=
  MkDataSetItem (item_ptr x) (is_fetched x) (offset x) n.

(** The pending reads; [item] is an index of the set of the read. *)
Record DirectRead := MkDirectRead { dr_qp : Z; dr_item : nat; dr_buf : Z; dr_remote_node : Z }.

Record HashRead := MkHashRead {
  hr_qp : Z;
  hr_item : nat;
  hr_buf : Z;
  hr_remote_node : Z;
  hr_meta : HashMeta;
}.

Record CasRead := MkCasRead {
  cr_qp : Z;
  cr_item : nat;
  cr_cas_buf : Z;
  cr_data_buf : Z;
  cr_primary_node_id : Z;
}.

(** What a registered buffer holds after a read. *)
Inductive content := CItem (i : DataItem) | CNode (n : HashNode).

(** A posted read whose data has not arrived. *)
Record transfer := MkTransfer { t_qp : Z; t_buf : Z; t_off : Z; t_size : Z }.

(** The client's state: the scheduler and the card of its thread, the buffers, and
    the sets. *)
Record client (E : Type) := MkClient {
  c_sched : CoroutineScheduler;
  c_nic : E;
  c_alloc : RDMABufferAllocator;
  c_local : gmap Z (Z * content);
  c_transfers : list transfer;
  c_cache : AddrCache;
  c_items : list DataItem;
  reader_set : list DataSetItem;
  writer_set : list DataSetItem;
  updater_set : list DataSetItem;
  insert_set : list DataSetItem;
}.
Arguments MkClient {E} _ _ _ _ _ _ _ _ _ _ _.
Arguments c_sched {E} _.
Arguments c_nic {E} _.
Arguments c_alloc {E} _.
Arguments c_local {E} _.
Arguments c_transfers {E} _.
Arguments c_cache {E} _.
Arguments c_items {E} _.
Arguments reader_set {E} _.
Arguments writer_set {E} _.
Arguments updater_set {E} _.
Arguments insert_set {E} _.

(** What does not change during a client's life. *)
Record dmc_config := MkConfig {
  coro : Z;
  global_meta_man : MetaManager;
  data_qps : list (option Z);
  servers : Z;
  native : bool;
}.

Section Client.
Context {E : Type} `{Nic E}.
Implicit Types c : client E.

Definition upd_net (s : CoroutineScheduler) (e : E) (ts : list transfer) c : client E :=
  MkClient s e (c_alloc c) (c_local c) ts (c_cache c) (c_items c)
    (reader_set c) (writer_set c) (updater_set c) (insert_set c).
Definition upd_alloc (a : RDMABufferAllocator) c : client E :=
  MkClient (c_sched c) (c_nic c) a (c_local c) (c_transfers c) (c_cache c) (c_items c)
    (reader_set c) (writer_set c) (updater_set c) (insert_set c).
Definition upd_local (m : gmap Z (Z * content)) (ts : list transfer) c : client E :=
  MkClient (c_sched c) (c_nic c) (c_alloc c) m ts (c_cache c) (c_items c)
    (reader_set c) (writer_set c) (updater_set c) (insert_set c).
Definition upd_cache (x : AddrCache) c : client E :=
  MkClient (c_sched c) (c_nic c) (c_alloc c) (c_local c) (c_transfers c) x (c_items c)
    (reader_set c) (writer_set c) (updater_set c) (insert_set c).
Definition upd_items (l : list DataItem) c : client E :=
  MkClient (c_sched c) (c_nic c) (c_alloc c) (c_local c) (c_transfers c) (c_cache c) l
    (reader_set c) (writer_set c) (updater_set c) (insert_set c).
Definition upd_readers (l : list DataSetItem) c : client E :=
  MkClient (c_sched c) (c_nic c) (c_alloc c) (c_local c) (c_transfers c) (c_cache c) (c_items c)
    l (writer_set c) (updater_set c) (insert_set c).

(** ** The sets *)

Definition Begin c : client E :=
  MkClient (c_sched c) (c_nic c) (c_alloc c) (c_local c) (c_transfers c) (c_cache c) (c_items c)
    [] [] [] [].

(** The member [offset] is not initialised by name, so it is 0. *)
Definition new_set_item (ptr : nat) : DataSetItem := MkDataSetItem ptr false 0 (-1).

Definition AddToReaderSet (ptr : nat) c : client E :=
  upd_readers (reader_set c ++ [new_set_item ptr]) c.
Definition AddToUpdaterSet (ptr : nat) c : client E :=
  MkClient (c_sched c) (c_nic c) (c_alloc c) (c_local c) (c_transfers c) (c_cache c) (c_items c)
    (reader_set c) (writer_set c) (updater_set c ++ [new_set_item ptr]) (insert_set c).
Definition AddToWriterSet (ptr : nat) c : client E :=
  MkClient (c_sched c) (c_nic c) (c_alloc c) (c_local c) (c_transfers c) (c_cache c) (c_items c)
    (reader_set c) (writer_set c ++ [new_set_item ptr]) (updater_set c) (insert_set c).
Definition AddToInsertSet (ptr : nat) c : client E :=
  MkClient (c_sched c) (c_nic c) (c_alloc c) (c_local c) (c_transfers c) (c_cache c) (c_items c)
    (reader_set c) (writer_set c) (updater_set c) (insert_set c ++ [new_set_item ptr]).

(** [std::make_shared<DataItem>(t, k)]: an item to fetch; its value is not
    initialised. *)
Definition empty_item (t k : Z) : DataItem := MkDataItem t 0 k 0 0 0 [] 1 0.

Definition make_item (t k : Z) c : nat * client E :=
  (length (c_items c), upd_items (c_items c ++ [empty_item t k]) c).

(** ** Reads *)

Context (cfg : dmc_config).

(** The memory behind each queue pair: the base of the registered region, and the
    nodes by their addresses. *)
Context (memory : Z -> Z * heap).

(** The item at an address inside of a node. *)
Definition item_at (h : heap) (a : Z) : option DataItem :=
  let inside x := (fst x <=? a) && ((a - fst x) mod DataItemSize =? 0) &&
                  ((a - fst x) / DataItemSize <? Z.of_nat ITEM_NUM_PER_NODE) in
  match find inside (map_to_list h) with
  | Some (b, n) => data_items n !! Z.to_nat ((a - b) / DataItemSize)
  | None => None
  end.

(** The data of a read. *)
Definition fetch (qp off size : Z) : option content :=
  let '(base, h) := memory qp in
  let a := u64 (base + off) in
  if size =? HashNodeSize then CNode <$> h !! a
  else if size =? DataItemSize then CItem <$> item_at h a
  else None.

(** The data arrives in a buffer; what overlaps it is overwritten. *)
Definition store_buf (buf size : Z) (x : content) (m : gmap Z (Z * content)) : gmap Z (Z * content) :=
  <[buf := (size, x)]> (filter (fun p => fst p + fst (snd p) <= buf \/ buf + size <= fst p) m).

(** The arrival of all data; a read outside of the region is a fatal completion. *)
Fixpoint deliver (ts : list transfer) (m : gmap Z (Z * content)) : outcome (gmap Z (Z * content)) :=
  match ts with
  | [] => Ok m
  | t :: ts =>
      match fetch (t_qp t) (t_off t) (t_size t) with
      | Some x => deliver ts (store_buf (t_buf t) (t_size t) x m)
      | None => Exit
      end
  end.

(** [coro_sched->RDMARead(coro_id, qp, buf, off, size)]. *)
Definition issue_read (qp buf off size : Z) c : outcome (bool * client E) :=
  r ← RDMARead (coro cfg) qp buf (u64 off) size (c_sched c) (c_nic c);
  let '(ok, s, e) := r in
  Ok (ok, upd_net s e (if ok : bool then c_transfers c ++ [MkTransfer qp buf (u64 off) size]
                       else c_transfers c) c).

(** [coro_sched->Yield(yield, coro_id)]: [others] is what the other coroutines and
    the polling do until this coroutine runs again; then its reads have
    completed. *)
Context (others : CoroutineScheduler -> E -> CoroutineScheduler * E).

Definition await c : outcome (client E) :=
  r ← Yield (coro cfg) (c_sched c);
  match snd r with
  | None => Ok (upd_net (fst r) (c_nic c) (c_transfers c) c)
  | Some _ =>
      let '(s, e) := others (fst r) (c_nic c) in
      m ← deliver (c_transfers c) (c_local c);
      Ok (upd_local m [] (upd_net s e [] c))
  end.

Definition Alloc_buf (size : Z) c : Z * client E :=
  let '(buf, a) := Alloc (c_alloc c) size in (buf, upd_alloc a c).

Definition load_node (buf : Z) c : outcome HashNode :=
  match c_local c !! buf with Some (_, CNode n) => Ok n | _ => Fault end.
Definition load_item (buf : Z) c : outcome DataItem :=
  match c_local c !! buf with Some (_, CItem i) => Ok i | _ => Fault end.

Definition GetRemoteDataQPWithNodeID (node_id : Z) : outcome Z :=
  qp ← deref (if 0 <=? node_id then data_qps cfg !! Z.to_nat node_id else None);
  deref qp.

(** The item that a member of the reader set points to. *)
Definition reader_item (i : nat) c : outcome (DataSetItem * DataItem) :=
  x ← deref (reader_set c !! i);
  it ← deref (c_items c !! item_ptr x);
  Ok (x, it).

(** The offset of a key's bucket in the region of its server ([offset_t]). *)
Definition bucket_offset (meta : HashMeta) (key : Z) : outcome Z :=
  if hm_bucket_num meta =? 0 then Fault
  else
    let idx := MurmurHash64A key 0xdeadbeef mod hm_bucket_num meta in
    Ok (i64 (u64 (idx * hm_node_size meta + hm_base_off meta))).

(** ** Issuing *)

(** The body of IssueReader's loop for the member [i]. *)
Definition IssueReader_item (i : nat) (direct : list DirectRead) (hash : list HashRead) c
    : outcome (bool * list DirectRead * list HashRead * client E) :=
  r ← reader_item i c;
  let '(x, it) := r in
  if is_fetched x then Ok (true, direct, hash, c)
  else
    remote_node_id ← GetPrimaryNodeID (global_meta_man cfg) (di_table_id it);
    let c := upd_readers (<[i := set_node remote_node_id x]> (reader_set c)) c in
    qp ← GetRemoteDataQPWithNodeID remote_node_id;
    if negb (offset x =? NOT_FOUND) then
      let it := MkDataItem (di_table_id it) (di_value_size it) (di_key it) (i64 (offset x))
                  (di_version it) (di_lock it) (di_value it) (di_valid it) (di_user_insert it) in
      let c := upd_items (<[item_ptr x := it]> (c_items c)) c in
      let '(data_buf, c) := Alloc_buf DataItemSize c in
      let direct := direct ++ [MkDirectRead qp i data_buf remote_node_id] in
      r ← issue_read qp data_buf (offset x) DataItemSize c;
      Ok (fst r, direct, hash, snd r)
    else
      meta ← GetPrimaryHashMetaWithTableID (global_meta_man cfg) (di_table_id it);
      node_off ← bucket_offset meta (di_key it);
      let '(local_hash_node, c) := Alloc_buf HashNodeSize c in
      let hash := hash ++ [MkHashRead qp i local_hash_node remote_node_id meta] in
      r ← issue_read qp local_hash_node node_off HashNodeSize c;
      Ok (fst r, direct, hash, snd r).

Fixpoint IssueReader_loop (n : nat) (i : nat) (direct : list DirectRead) (hash : list HashRead) c
    : outcome (bool * list DirectRead * list HashRead * client E) :=
  match n with
  | O => Ok (true, direct, hash, c)
  | S n =>
      r ← IssueReader_item i direct hash c;
      let '(ok, direct, hash, c) := r in
      if negb ok then Ok (false, direct, hash, c) else IssueReader_loop n (S i) direct hash c
  end.

Definition IssueReader (direct : list DirectRead) (hash : list HashRead) c :=
  IssueReader_loop (length (reader_set c)) 0 direct hash c.

(** IssueUpdater only allocates buffers and records the reads. *)
Fixpoint IssueUpdater_loop (l : list DataSetItem) (i : nat) (pending : list CasRead) c
    : outcome (bool * list CasRead * client E) :=
  match l with
  | [] => Ok (true, pending, c)
  | x :: l =>
      if is_fetched x then IssueUpdater_loop l (S i) pending c
      else
        it ← deref (c_items c !! item_ptr x);
        remote_node_id ← GetPrimaryNodeID (global_meta_man cfg) (di_table_id it);
        qp ← GetRemoteDataQPWithNodeID remote_node_id;
        let '(cas_buf, c) := Alloc_buf 8 c in
        let '(data_buf, c) := Alloc_buf DataItemSize c in
        IssueUpdater_loop l (S i) (pending ++ [MkCasRead qp i cas_buf data_buf remote_node_id]) c
  end.

Definition IssueUpdater (pending : list CasRead) c := IssueUpdater_loop (updater_set c) 0 pending c.

(** ** Checking *)

Definition same_item (it x : DataItem) : bool := (di_key x =? di_key it) && (di_table_id x =? di_table_id it).

(** [*it = item; res.item->is_fetched = true]. *)
Definition fetched (i : nat) (item : DataItem) c : outcome (client E) :=
  x ← deref (reader_set c !! i);
  Ok (upd_readers (<[i := set_fetched x]> (reader_set c))
        (upd_items (<[item_ptr x := item]> (c_items c)) c)).

Fixpoint CheckDirectRO (pending : list DirectRead) (next : list HashRead) c
    : outcome (bool * list HashRead * client E) :=
  match pending with
  | [] => Ok (true, next, c)
  | res :: pending =>
      r ← reader_item (dr_item res) c;
      let it := snd r in
      fetched_item ← load_item (dr_buf res) c;
      if same_item it fetched_item then
        if negb (di_valid fetched_item =? 0) then
          c ← fetched (dr_item res) fetched_item c;
          CheckDirectRO pending next c
        else
          cache ← Remove (dr_remote_node res) (di_key it) (c_cache c);
          Ok (false, next, upd_cache cache c)
      else
        remote_node_id ← GetPrimaryNodeID (global_meta_man cfg) (di_table_id it);
        meta ← GetPrimaryHashMetaWithTableID (global_meta_man cfg) (di_table_id it);
        node_off ← bucket_offset meta (di_key it);
        let '(local_hash_node, c) := Alloc_buf HashNodeSize c in
        let next := next ++ [MkHashRead (dr_qp res) (dr_item res) local_hash_node remote_node_id meta] in
        r ← issue_read (dr_qp res) local_hash_node node_off HashNodeSize c;
        if negb (fst r) then Ok (false, next, snd r) else CheckDirectRO pending next (snd r)
  end.

(** [item.valid && item.key == it->key && item.table_id == it->table_id]. *)
Definition found (it x : DataItem) : bool := negb (di_valid x =? 0) && same_item it x.

(** The offset of the next node ([uint64_t]). *)
Definition next_offset (node : HashNode) (meta : HashMeta) : Z :=
  u64 (next node - hm_data_ptr meta + hm_base_off meta).

Fixpoint CheckHashRO (pending nexts : list HashRead) c : outcome (bool * list HashRead * client E) :=
  match pending with
  | [] => Ok (true, nexts, c)
  | res :: pending =>
      node ← load_node (hr_buf res) c;
      r ← reader_item (hr_item res) c;
      match find (found (snd r)) (data_items node) with
      | Some item => c ← fetched (hr_item res) item c; CheckHashRO pending nexts c
      | None =>
          if next node =? 0 then Ok (false, nexts, c)
          else
            let nexts := nexts ++ [MkHashRead (hr_qp res) (hr_item res) (hr_buf res)
                                     (hr_remote_node res) (hr_meta res)] in
            r ← issue_read (hr_qp res) (hr_buf res) (next_offset node (hr_meta res)) HashNodeSize c;
            if negb (fst r) then Ok (false, nexts, snd r) else CheckHashRO pending nexts (snd r)
      end
  end.

(** The iterator moves only when an item was not found. *)
Fixpoint CheckNextHashRO (fuel : nat) (pending : list HashRead) c : outcome (bool * client E) :=
  match fuel with
  | O => OutOfFuel
  | S fuel =>
      match pending with
      | [] => Ok (true, c)
      | res :: rest =>
          node ← load_node (hr_buf res) c;
          r ← reader_item (hr_item res) c;
          match find (found (snd r)) (data_items node) with
          | Some item => c ← fetched (hr_item res) item c; CheckNextHashRO fuel pending c
          | None =>
              if next node =? 0 then Ok (false, c)
              else
                r ← issue_read (hr_qp res) (hr_buf res) (next_offset node (hr_meta res)) HashNodeSize c;
                if negb (fst r) then Ok (false, snd r) else CheckNextHashRO fuel rest (snd r)
          end
      end
  end.

(** [while (!pending_next_hash_ro.empty())]: nothing removes an element. *)
Fixpoint next_rounds (fuel : nat) (nexts : list HashRead) c : outcome (bool * client E) :=
  match fuel with
  | O => OutOfFuel
  | S fuel =>
      match nexts with
      | [] => Ok (true, c)
      | _ =>
          c ← await c;
          r ← CheckNextHashRO fuel nexts c;
          if negb (fst r) then Ok (false, snd r) else next_rounds fuel nexts (snd r)
      end
  end.

Definition CheckReadRO (fuel : nat) (direct : list DirectRead) (hash nexts : list HashRead) c
    : outcome (bool * client E) :=
  r ← CheckDirectRO direct nexts c;
  let '(ok, nexts, c) := r in
  if negb ok then Ok (false, c)
  else
    r ← CheckHashRO hash nexts c;
    let '(ok, nexts, c) := r in
    if negb ok then Ok (false, c) else next_rounds fuel nexts c.

(** ** Operations on paths *)

(** The second half of stat_file: [None] if a read could not be posted, else the
    result of the check. *)
Definition read_sets (fuel : nat) c : outcome (option bool * client E) :=
  r ← IssueReader [] [] c;
  let '(ok, direct, hash, c) := r in
  if negb ok then Ok (None, c)
  else
    c ← await c;
    r ← CheckReadRO fuel direct hash [] c;
    Ok (Some (fst r), snd r).

(** The loop of stat_file over the resolved names. A remainder by 0 is a fault. *)
Fixpoint stat_names (paths : list NameID) c : outcome (client E) :=
  match paths with
  | [] => Ok c
  | id :: paths =>
      if servers cfg =? 0 then Fault
      else
        let node_id := nid_key id mod u64 (servers cfg) in
        let add c := let '(p, c) := make_item 0 (nid_key id) c in AddToReaderSet p c in
        cached ← Search node_id (nid_key id) (c_cache c);
        match cached with
        | Some cached => if is_dir (inode cached) then stat_names paths c else stat_names paths (add c)
        | None => stat_names paths (add c)
        end
  end.

Definition stat_file (fuel : nat) (path : list Z) c : outcome (bool * client E) :=
  paths ← path_resolution fuel path;
  c ← (if native cfg then Ok c else stat_names paths c);
  r ← read_sets fuel c;
  match fst r with
  | None => Ok (false, snd r)
  | Some _ => Ok (true, snd r)
  end.
End Client.
