(* ===== verification/DmcTheorems.v ===== *)
(** The metadata client: what a one-sided lookup returns in terms of the map that
    the server's store holds, and which lookups and paths never return. The
    client's proofs use the network only through the interface [ReadNetwork],
    which a thread of the scheduler implements. *)
From S2P Require Import Prelude Words Outcome Layout Hash Alloc Meta Verbs Scheduler SchedulerFacts.
From S2P Require Import SchedulerInvariant SchedulerTheorems HashStore HashStoreRefine HashStoreTheorems AddrCache.
From S2P Require Import Dmc.

(** ** The network as the client uses it *)

(** What the scheduler promises to the client of coroutine [cid]: in the states
    [run] and [wait] a read can be posted, which leads to a state [wait]; there the
    coroutine yields, and when it runs again the state is [run]. *)
Class ReadNetwork {E} `{Nic E} (cid : Z) (others : CoroutineScheduler -> E -> CoroutineScheduler * E)
    (run wait : CoroutineScheduler -> E -> Prop) := {
  net_read s e qp buf off size : run s e \/ wait s e ->
    exists s' e', RDMARead cid qp buf off size s e = Ok (true, s', e') /\ wait s' e';
  net_yield s e : wait s e ->
    exists s' next, Yield cid s = Ok (s', Some next) /\ run (fst (others s' e)) (snd (others s' e));
}.

(** ** A thread of the scheduler implements the interface *)

Section Network.
Context {E : Type} `{NicLaws E}.
Context (n : nat) (Hn : (0 < n)%nat) (cid : Z).
Context (others : CoroutineScheduler -> E -> CoroutineScheduler * E).

(** What the other coroutines do ends with a switch to [cid]. *)
Definition resumes : Prop :=
  forall s e next R, wf_thread n (MkThread s e next) [] R -> cid ∉ R ->
    steps (MkThread s e next) (MkThread (fst (others s e)) (snd (others s e)) cid).

Definition running (s : CoroutineScheduler) (e : E) : Prop :=
  exists R, wf_thread n (MkThread s e cid) [] R.

Definition waiting (s : CoroutineScheduler) (e : E) : Prop :=
  running s e /\ 0 < count_of cid (outstanding e).

Lemma steps_wf (t t' : thread E) R :
  reliable (E := E) -> wf_thread n t [] R -> steps t t' -> exists R', wf_thread n t' [] R'.
Proof.
  intros Hrel Hwf Hst. revert R Hwf.
  induction Hst as [t|t t1 t2 a fuel He Hx _ IH]; intros R Hwf; [by exists R|].
  pose proof (exec_spec n Hn fuel a t [] R Hwf He) as Hs. rewrite Hx in Hs.
  destruct Hs as (lost' & R' & [S1 _ _ S4]). rewrite (S4 Hrel) in S1. by apply (IH R').
Qed.

Lemma scheduler_network :
  cid <> 0 -> (forall (e : E) qp r, fst (post e qp r) = true) -> reliable (E := E) -> resumes ->
  ReadNetwork cid others running waiting.
Proof using Hn H0.
  intros Hc Hpost Hrel Hres. split.
  - intros s e qp buf off size Hrw. assert (running s e) as [R Hwf] by (destruct Hrw as [|[]]; done).
    destruct Hwf as [[Hs Hq] Hcur Hrun]. cbn [sched nic current] in *. destruct Hcur as [|Hin]; [done|].
    unfold RDMARead, post_and_count.
    specialize (Hpost e qp (PostSend IBV_WR_RDMA_READ buf off size IBV_SEND_SIGNALED cid)).
    destruct (post e qp _) as [rc e1] eqn:Hp. cbn [fst] in Hpost. subst rc. cbn [negb].
    apply post_success in Hp. change (completions_of _) with [cid] in Hp. cbn [map app] in Hp.
    destruct (wf_sched_add n Hn s _ _ cid qp Hs Hin Hrun) as (s1 & -> & Hs1 & Hq1 & Harr).
    cbn [mbind outcome_bind]. exists s1, e1. split; [done|]. split.
    + exists R. split; cbn [sched nic current]; [split|by right|by rewrite Harr].
      * eapply wf_sched_perm; [|exact Hs1]. by rewrite Hp.
      * rewrite Hq1, Hq, Hp. cbn [map fst app]. by rewrite Permutation_app_comm.
    + rewrite (count_of_perm _ _ _ Hp), count_of_cons, decide_True by done.
      pose proof (count_of_nonneg cid (outstanding e)). lia.
  - intros s e [[R [[Hs Hq] Hcur Hrun]] Hcount]. cbn [sched nic current] in *.
    destruct Hcur as [|Hin]; [done|].
    destruct (wf_sched_yield n Hn s _ R cid Hs Hin Hrun) as
      [[Hz _]|(s' & R' & nxt & Hy & Hs' & Hout & Hq' & Hnxt & Hw & _)]; [rewrite app_nil_r in Hz; lia|].
    exists s', nxt. split; [done|].
    assert (wf_thread n (MkThread s' e nxt) [] R') as Hwf.
    { split; cbn [sched nic current]; [split; [done|by rewrite Hq']|done|done]. }
    by apply (steps_wf _ _ _ Hrel Hwf), (Hres _ _ _ R').
Qed.

(** With two coroutines the other one only polls. *)
Definition poll_others (s : CoroutineScheduler) (e : E) : CoroutineScheduler * E :=
  match poll_round (S (length (pending_qps s))) s e with
  | Ok (s', e', _) => (s', e')
  | _ => (s, e)
  end.
End Network.

Lemma poll_others_resumes {E} `{NicLaws E} : prompt (E := E) -> resumes 2 1 (poll_others (E := E)).
Proof.
  intros Hp s e next R Hwf Hout.
  assert (forall R', R' = [] \/ 1 ∈ R' -> forall t, wf_thread 2 t [] R' -> R' = [] \/ R' = [1]) as Hsmall.
  { intros R' HR t Ht. destruct R' as [|x R']; [by left|right].
    pose proof (wf_members _ _ _ _ (proj1 (wf_thread_state _ _ _ _ Ht))) as Hm.
    pose proof (ring_NoDup _ _ (wf_ring _ _ _ _ (proj1 (wf_thread_state _ _ _ _ Ht)))) as Hnd.
    pose proof (Hm x ltac:(constructor)). assert (x = 1) as -> by lia.
    destruct R' as [|y R']; [done|]. pose proof (Hm y ltac:(right; constructor)).
    assert (y = 1) as -> by lia. exfalso.
    apply NoDup_cons in Hnd as [_ Hnd]. apply NoDup_cons in Hnd as [Hnd _]. apply Hnd. constructor. }
  assert (R = []) as ->.
  { destruct R as [|x R]; [done|]. pose proof (wf_members _ _ _ _ (proj1 (wf_thread_state _ _ _ _ Hwf)) x
      ltac:(constructor)). assert (x = 1) as -> by lia. exfalso. apply Hout. constructor. }
  assert (next = 0) as -> by (destruct (wf_current _ _ _ _ Hwf) as [|Hin]; [done|by apply not_elem_of_nil in Hin]).
  destruct (prompt_poll 2 ltac:(lia) (MkThread s e 0) (S (length (pending_qps s))) [] Hp Hwf eq_refl ltac:(cbn; lia))
    as (t' & R' & Hx & Hwf' & Hc & _ & _ & Hall).
  assert (1 ∈ R') as Hin by (apply Hall; lia).
  destruct (Hsmall R' (or_intror Hin) t' Hwf') as [->| ->]; [by apply not_elem_of_nil in Hin|].
  cbn [hd] in Hc. pose proof Hx as Hx'. cbn [exec] in Hx'. unfold poll_others.
  destruct (poll_round _ s e) as [[[s1 e1] r]| | |]; cbn [mbind outcome_bind fst snd] in *; try done.
  destruct t' as [s2 e2 c2]. cbn [current] in Hc. subst c2. injection Hx' as -> -> Hr.
  eapply steps_step; [|exact Hx|apply steps_refl]. done.
Qed.

(** ** What a node contains *)

(** The values with which a fetched item is searched again. *)
Lemma found_again it item items : find (found it) items = Some item -> find (found item) items = Some item.
Proof.
  intros Hf. pose proof (find_split _ _ _ Hf) as (_ & _ & _ & Hi & _).
  unfold found, same_item in Hi. apply andb_prop in Hi as [_ [Hk Ht]%andb_prop].
  rewrite <- Hf. clear Hf. induction items as [|y items IH]; cbn [find]; [done|]. rewrite IH.
  unfold found, same_item. by rewrite (proj1 (Z.eqb_eq _ _) Hk), (proj1 (Z.eqb_eq _ _) Ht).
Qed.

(** The valid slots of the store hold items of table [t]. *)
Definition of_table (t : Z) (items : list DataItem) : Prop :=
  Forall (fun y => di_valid y <> 0 -> di_table_id y = t) items.

Lemma found_matches it items :
  of_table (di_table_id it) items -> Forall (fun y => found it y = matches (di_key it) y) items.
Proof.
  intros Ht. eapply Forall_impl; [exact Ht|]. intros y Hy. unfold found, same_item, matches.
  destruct (Z.eqb_spec (di_valid y) 0) as [|Hv]; [done|]. cbn [negb andb].
  rewrite (Hy Hv), Z.eqb_refl. by rewrite andb_true_r.
Qed.

(** ** Addresses *)

(** The memory behind a queue pair is the region of the server of [st]. *)
Record serves (memory : Z -> Z * heap) (qp : Z) (st : HashStore) (h : heap) : Prop := {
  srv_memory : memory qp = (region_start_ptr st, h);
  srv_base : base_off st = data_ptr st - region_start_ptr st;
  srv_region : 0 <= region_start_ptr st <= data_ptr st;
  srv_buckets : 0 < bucket_num st;
  srv_end : data_ptr st + bucket_num st * HashNodeSize < 2 ^ 63;
  srv_dom a : a ∈ dom h -> 0 <= a < 2 ^ 64;
}.

Lemma u64_add_l x y : u64 (u64 x + y) = u64 (x + y).
Proof. unfold wrap. by rewrite Zplus_mod_idemp_l. Qed.

Lemma u64_add_r x y : u64 (x + u64 y) = u64 (x + y).
Proof. unfold wrap. by rewrite Zplus_mod_idemp_r. Qed.

Section Addresses.
Context (memory : Z -> Z * heap) (qp : Z) (st : HashStore) (h : heap) (Hs : serves memory qp st h).

Lemma fetch_node off : fetch memory qp off HashNodeSize = CNode <$> h !! u64 (region_start_ptr st + off).
Proof using All. unfold fetch. by rewrite (srv_memory _ _ _ _ Hs), Z.eqb_refl. Qed.

(** The client computes the address at which the server's bucket starts. *)
Lemma bucket_agrees key :
  exists off, bucket_offset (meta_of_table st) key = Ok off /\
    u64 (region_start_ptr st + u64 off) = bucket_address st (GetHash st key).
Proof using All.
  destruct Hs as [_ Hb Hr Hn Hend _]. unfold bucket_offset, bucket_address, GetHash.
  cbn [meta_of_table new_HashMeta hm_bucket_num hm_node_size hm_base_off].
  test (bucket_num st =? 0) is false. eexists. split; [done|].
  pose proof (Z.mod_pos_bound (MurmurHash64A key 0xdeadbeef) (bucket_num st) Hn) as Hi.
  revert Hi. generalize (MurmurHash64A key 0xdeadbeef mod bucket_num st). intros i Hi.
  rewrite HashNodeSize_15848 in *. rewrite Hb.
  rewrite (wrap_small 64 (i * 15848 + (data_ptr st - region_start_ptr st))) by nia.
  unfold to_signed. rewrite (wrap_small 64 (i * 15848 + _)) by nia.
  test (i * 15848 + (data_ptr st - region_start_ptr st) <? 2 ^ (64 - 1)) is true.
  rewrite (wrap_small 64 (i * 15848 + _)), (wrap_small 64 (i * 15848)) by nia.
  rewrite wrap_small by nia. lia.
Qed.

Lemma next_agrees n n' :
  h !! HashStore.next n = Some n' ->
  fetch memory qp (u64 (next_offset n (meta_of_table st))) HashNodeSize = Some (CNode n').
Proof using All.
  intros Hn. rewrite fetch_node. unfold next_offset.
  cbn [meta_of_table new_HashMeta hm_data_ptr hm_base_off].
  rewrite !u64_add_r, (srv_base _ _ _ _ Hs).
  replace (region_start_ptr st + _) with (HashStore.next n) by lia.
  rewrite wrap_small by (apply (srv_dom _ _ _ _ Hs); by eapply elem_of_dom_2). by rewrite Hn.
Qed.
End Addresses.

(** ** A lookup in progress *)

Section Lookup.
Context {E : Type} `{Nic E} (cfg : dmc_config) (memory : Z -> Z * heap).
Context (others : CoroutineScheduler -> E -> CoroutineScheduler * E).
Context (run wait : CoroutineScheduler -> E -> Prop).
Context `{Hnet : !ReadNetwork (coro cfg) others run wait}.
Implicit Types c : client E.

Abbreviation run_client c := (run (c_sched c) (c_nic c)).
Abbreviation wait_client c := (wait (c_sched c) (c_nic c)).

Lemma issue_read_spec c qp buf off size :
  run_client c \/ wait_client c ->
  exists s e, issue_read cfg qp buf off size c =
      Ok (true, upd_net s e (c_transfers c ++ [MkTransfer qp buf (u64 off) size]) c) /\ wait s e.
Proof using Hnet.
  intros Hc. destruct (net_read _ _ qp buf (u64 off) size Hc) as (s & e & Hr & Hw).
  exists s, e. split; [|done]. unfold issue_read. by rewrite Hr.
Qed.

Lemma await_spec c m :
  wait_client c -> deliver memory (c_transfers c) (c_local c) = Ok m ->
  exists s e, await cfg memory others c = Ok (upd_local m [] (upd_net s e [] c)) /\ run s e.
Proof using Hnet.
  intros Hc Hm. destruct (net_yield _ _ Hc) as (s & nxt & Hy & Hr).
  unfold await. rewrite Hy. cbn [mbind outcome_bind fst snd].
  destruct (others s (c_nic c)) as [s' e']. rewrite Hm. cbn [mbind outcome_bind]. by exists s', e'.
Qed.

(** What the checks leave as it is when they do not fetch. *)
Definition same_sets c c' : Prop := reader_set c' = reader_set c /\ c_items c' = c_items c.

(** The node [n] is on its way to the buffer of [res], whose item is [it]. *)
Record reading c (res : HashRead) (x : DataSetItem) (it : DataItem) (n : HashNode) : Prop := {
  rd_wait : wait_client c;
  rd_transfer : exists off, c_transfers c = [MkTransfer (hr_qp res) (hr_buf res) off HashNodeSize] /\
    fetch memory (hr_qp res) off HashNodeSize = Some (CNode n);
  rd_item : reader_item (hr_item res) c = Ok (x, it);
}.

(** It has arrived. *)
Record arrived c (res : HashRead) (x : DataSetItem) (it : DataItem) (n : HashNode) : Prop := {
  ar_run : run_client c;
  ar_transfers : c_transfers c = [];
  ar_node : load_node (hr_buf res) c = Ok n;
  ar_item : reader_item (hr_item res) c = Ok (x, it);
}.

Lemma await_node c res x it n :
  reading c res x it n ->
  exists c', await cfg memory others c = Ok c' /\ arrived c' res x it n /\ same_sets c c'.
Proof using Hnet.
  intros [Hw (off & Ht & Hf) Hi].
  destruct (await_spec c (store_buf (hr_buf res) HashNodeSize (CNode n) (c_local c)) Hw) as (s & e & -> & Hr).
  { rewrite Ht. cbn [deliver t_qp t_buf t_off t_size]. by rewrite Hf. }
  eexists. split; [done|]. split; [|done]. split; [done|done| |done].
  unfold load_node, store_buf. cbn [c_local upd_local]. by rewrite lookup_insert_eq.
Qed.

(** The state after [*it = item]. *)
Lemma fetched_spec i item c x it :
  reader_item i c = Ok (x, it) ->
  exists c', fetched i item c = Ok c' /\ reader_item i c' = Ok (set_fetched x, item) /\
    c_local c' = c_local c /\ c_sched c' = c_sched c /\ c_nic c' = c_nic c /\ c_transfers c' = c_transfers c /\
    reader_set c' = <[i := set_fetched x]> (reader_set c) /\ c_items c' = <[item_ptr x := item]> (c_items c).
Proof.
  unfold reader_item, fetched. intros Hi. apply bind_Ok in Hi as (x' & Hx & Hi).
  apply bind_Ok in Hi as (it' & Hit & Hi). injection Hi as -> ->. rewrite Hx.
  apply deref_Ok in Hx, Hit. cbn [mbind outcome_bind deref]. eexists. split; [done|].
  cbn [reader_set c_items upd_readers upd_items c_local c_sched c_nic c_transfers].
  rewrite list_lookup_insert_eq by by eapply lookup_lt_Some. cbn [mbind outcome_bind deref].
  change (item_ptr (set_fetched x)) with (item_ptr x).
  rewrite list_lookup_insert_eq by by eapply lookup_lt_Some. done.
Qed.

(** ** CheckNextHashRO on one pending read *)

(** The iterator stays at a read whose item was found. *)
Lemma CheckNext_stuck fuel c res rest x it n item :
  load_node (hr_buf res) c = Ok n -> reader_item (hr_item res) c = Ok (x, it) ->
  find (found it) (data_items n) = Some item ->
  CheckNextHashRO cfg fuel (res :: rest) c = OutOfFuel.
Proof.
  revert c x it. induction fuel as [|fuel IH]; intros c x it Hn Hi Hf; [done|].
  cbn [CheckNextHashRO]. rewrite Hn, Hi. cbn [mbind outcome_bind snd]. rewrite Hf.
  destruct (fetched_spec _ item _ _ _ Hi) as (c' & -> & Hi' & Hl & _). cbn [mbind outcome_bind].
  apply (IH c' (set_fetched x) item); [by unfold load_node; rewrite Hl|done|by eapply found_again].
Qed.

Lemma CheckNext_end fuel c res x it n :
  arrived c res x it n -> find (found it) (data_items n) = None -> HashStore.next n = 0 ->
  CheckNextHashRO cfg (S fuel) [res] c = Ok (false, c).
Proof.
  intros [_ _ Hn Hi] Hf H0'. cbn [CheckNextHashRO]. rewrite Hn, Hi. cbn [mbind outcome_bind snd].
  by rewrite Hf, H0'.
Qed.

Lemma CheckNext_next fuel c res x it n n' st h :
  serves memory (hr_qp res) st h -> hr_meta res = meta_of_table st ->
  arrived c res x it n -> find (found it) (data_items n) = None ->
  HashStore.next n <> 0 -> h !! HashStore.next n = Some n' ->
  (exists c', CheckNextHashRO cfg (S (S fuel)) [res] c = Ok (true, c') /\
     reading c' res x it n' /\ same_sets c c') /\
  CheckNextHashRO cfg 1 [res] c = OutOfFuel.
Proof using Hnet.
  intros Hs Hm [Hr Ht Hn Hi] Hf H0' Hn'. cbn [CheckNextHashRO]. rewrite Hn, Hi. cbn [mbind outcome_bind snd].
  rewrite Hf. test (HashStore.next n =? 0) is false.
  destruct (issue_read_spec c (hr_qp res) (hr_buf res) (next_offset n (hr_meta res)) HashNodeSize
              (or_introl Hr)) as (s & e & -> & Hw).
  cbn [mbind outcome_bind fst snd negb]. split; [|done]. eexists. split; [done|]. split; [|done].
  split; [done| |done]. rewrite Ht. cbn [c_transfers upd_net app]. eexists. split; [done|].
  rewrite Hm. by apply (next_agrees _ _ st h).
Qed.

(** ** The rounds of CheckReadRO along a chain *)

Section Chain.
Context (res : HashRead) (st : HashStore) (h : heap).
Context (Hs : serves memory (hr_qp res) st h) (Hmeta : hr_meta res = meta_of_table st).
Context (x : DataSetItem) (it : DataItem).

Lemma next_rounds_absent l fuel c n :
  (length l < fuel)%nat -> chain h (HashStore.next n) l -> find (found it) (data_items n) = None ->
  Forall (fun y => found it y = false) (slots h l) -> reading c res x it n ->
  exists c', next_rounds cfg memory others (S fuel) [res] c = Ok (false, c') /\ same_sets c c'.
Proof using Hnet Hs Hmeta.
  revert fuel c n. induction l as [|a l IH]; intros [|fuel] c n Hf Hc Hn Hl Hrd; cbn [length] in Hf; try lia;
    remember (S fuel) as f eqn:Ef; cbn [next_rounds];
    destruct (await_node c res x it n Hrd) as (c1 & -> & Har & H1); cbn [mbind outcome_bind].
  - cbn [chain] in Hc. subst f. rewrite (CheckNext_end fuel c1 res x it n Har Hn Hc).
    cbn [mbind outcome_bind fst snd negb]. by exists c1.
  - destruct Hc as (Ha & H0' & n' & Hn' & _ & Hc).
    destruct fuel as [|fuel]; [lia|]. subst f.
    destruct (CheckNext_next fuel c1 res x it n n' st h Hs Hmeta Har Hn H0' Hn') as [(c2 & -> & Hrd' & H2) _].
    cbn [mbind outcome_bind fst snd negb]. rewrite slots_cons in Hl. apply Forall_app in Hl as [Hl1 Hl2].
    unfold node_items in Hl1. rewrite <- Ha, Hn' in Hl1.
    destruct (IH (S fuel) c2 n' ltac:(lia) Hc (proj2 (find_none_Forall _ _) Hl1) Hl2 Hrd') as (c' & -> & H3).
    exists c'. split; [done|]. destruct H1, H2, H3. split; congruence.
Qed.

Lemma next_rounds_stuck l fuel c n :
  chain h (HashStore.next n) l -> Exists (fun y => found it y = true) (data_items n ++ slots h l) ->
  reading c res x it n -> next_rounds cfg memory others fuel [res] c = OutOfFuel.
Proof using Hnet Hs Hmeta.
  revert l c n. induction fuel as [|fuel IH]; intros l c n Hc Hex Hrd; [done|]. cbn [next_rounds].
  destruct (await_node c res x it n Hrd) as (c1 & -> & Har & _). cbn [mbind outcome_bind].
  destruct (find (found it) (data_items n)) as [item|] eqn:Hf.
  { by rewrite (CheckNext_stuck fuel c1 res [] x it n item (ar_node _ _ _ _ _ Har) (ar_item _ _ _ _ _ Har) Hf). }
  apply Exists_app in Hex as [Hex|Hex].
  { apply find_none_Forall in Hf. apply Exists_exists in Hex as (y & Hy & Hfy).
    rewrite Forall_forall in Hf. specialize (Hf y Hy). congruence. }
  destruct l as [|a l]; [by apply Exists_nil in Hex|].
  destruct Hc as (Ha & H0' & n' & Hn' & _ & Hc).
  destruct fuel as [|[|fuel]]; [done| |].
  - by rewrite (proj2 (CheckNext_next 0 c1 res x it n n' st h Hs Hmeta Har Hf H0' Hn')).
  - destruct (CheckNext_next fuel c1 res x it n n' st h Hs Hmeta Har Hf H0' Hn') as [(c2 & -> & Hrd' & _) _].
    cbn [mbind outcome_bind fst snd negb]. apply (IH l c2 n'); [done| |done].
    rewrite slots_cons in Hex. unfold node_items in Hex. by rewrite <- Ha, Hn' in Hex.
Qed.
End Chain.

(** ** One item in the reader set *)

Section Item.
Context (st : HashStore) (param : MemStoreReserveParam) (h : heap) (L : list (list Z)) (m : gmap Z DataItem).
Context (x : DataSetItem) (it : DataItem) (node qp : Z).

(** The client [c] looks for the item [it] of a table that the server of [st]
    holds, and knows the server. *)
Record target c : Prop := {
  tg_run : run_client c;
  tg_transfers : c_transfers c = [];
  tg_reader : reader_set c = [x] /\ is_fetched x = false;
  tg_item : c_items c !! item_ptr x = Some it;
  tg_node : GetPrimaryNodeID (global_meta_man cfg) (di_table_id it) = Ok node;
  tg_meta : GetPrimaryHashMetaWithTableID (global_meta_man cfg) (di_table_id it) = Ok (meta_of_table st);
  tg_qp : GetRemoteDataQPWithNodeID cfg node = Ok qp;
  tg_serves : serves memory qp st h;
}.

(** The server's store holds [m], items of one table. *)
Record table_of (t : Z) : Prop := {
  tb_inv : store_inv st param h L m;
  tb_table l : l ∈ L -> of_table t (slots h l);
}.

Abbreviation bucket := (bucket_address st (GetHash st (di_key it))).

(** The chain of the key's bucket, and what a search for the item finds in it. *)
Lemma bucket_search :
  table_of (di_table_id it) -> is_key (di_key it) ->
  exists n l, h !! bucket = Some n /\ chain h (HashStore.next n) l /\ (length l < heap_fuel h)%nat /\
    m !! di_key it = find (found it) (data_items n ++ slots h l).
Proof using.
  intros [Hinv Ht] Hkey.
  destruct (bucket_chain st param h L m Hinv (di_key it) Hkey) as (l & Hl & Hc & Hne & _ & Hm).
  pose proof (chain_fuel _ _ _ Hc) as Hf. pose proof (Ht l (list_elem_of_lookup_2 _ _ _ Hl)) as Htl.
  assert (m !! di_key it = find (found it) (slots h l)) as Hfind.
  { rewrite Hm, (find_ext _ _ _ (found_matches it _ Htl)).
    destruct (find (matches (di_key it)) (slots h l)) as [i|] eqn:Ef.
    - apply find_split in Ef as (l1 & l2 & -> & Hi & Hl1). by apply bucket_get.
    - apply bucket_get_none. by apply find_none_Forall. }
  destruct l as [|a l]; [done|]. destruct Hc as (Ha & _ & n & Hn & _ & Hc).
  exists n, l. split; [done|]. split; [done|]. split; [cbn [length] in Hf; lia|].
  rewrite slots_cons in Hfind. unfold node_items in Hfind. by rewrite <- Ha, Hn in Hfind.
Qed.

Lemma found_absent n l :
  find (found it) (data_items n ++ slots h l) = None ->
  find (found it) (data_items n) = None /\ Forall (fun y => found it y = false) (slots h l).
Proof using. rewrite !find_none_Forall. by rewrite Forall_app. Qed.

Lemma found_present n l item :
  find (found it) (data_items n ++ slots h l) = Some item ->
  (item ∈ data_items n -> find (found it) (data_items n) = Some item) /\
  (item ∉ data_items n -> find (found it) (data_items n) = None) /\
  Exists (fun y => found it y = true) (data_items n ++ slots h l).
Proof using.
  intros Hf. pose proof (find_split _ _ _ Hf) as (l1 & l2 & El & Hi & _).
  assert (forall y, find (found it) (data_items n) = Some y -> y = item /\ item ∈ data_items n) as Hfirst.
  { intros y Hy. assert (y = item) as ->.
    { revert Hf. clear El. induction (data_items n) as [|z zs IH]; cbn [find app] in *; [done|].
      destruct (found it z); [congruence|]. by apply IH. }
    split; [done|]. apply find_split in Hy as (z1 & z2 & -> & _).
    apply elem_of_app. right. constructor. }
  split; [|split].
  - intros Hin. destruct (find (found it) (data_items n)) as [y|] eqn:Ey.
    + by destruct (Hfirst y eq_refl) as [-> _].
    + apply find_none_Forall in Ey. rewrite Forall_forall in Ey. specialize (Ey _ Hin). congruence.
  - intros Hout. destruct (find (found it) (data_items n)) as [y|] eqn:Ey; [|done].
    by destruct (Hfirst y eq_refl) as [_ ?].
  - rewrite El. apply Exists_app. right. by constructor.
Qed.

(** The offset of the item is not known: the bucket's first node is read. *)
Lemma IssueReader_hash c n :
  target c -> offset x = NOT_FOUND -> h !! bucket = Some n ->
  exists c' res, IssueReader cfg [] [] c = Ok (true, [], [res], c') /\
    reading c' res (set_node node x) it n /\ hr_item res = 0%nat /\ hr_qp res = qp /\
    hr_meta res = meta_of_table st /\ c_items c' = c_items c.
Proof using Hnet.
  intros [Hr Ht [Hset Hfx] Hit Hnode Hmeta Hqp Hs] Hoff Hn.
  destruct (bucket_agrees memory qp st h Hs (di_key it)) as (off & Hoff' & Haddr).
  unfold IssueReader. rewrite Hset. cbn [length IssueReader_loop]. unfold IssueReader_item.
  assert (reader_item 0 c = Ok (x, it)) as Hx.
  { unfold reader_item. rewrite Hset. cbn [lookup list_lookup deref mbind outcome_bind]. by rewrite Hit. }
  rewrite Hx. cbn [mbind outcome_bind]. rewrite Hfx, Hnode. cbn [mbind outcome_bind]. rewrite Hqp.
  cbn [mbind outcome_bind]. rewrite Hoff, Z.eqb_refl, Hmeta. cbn [negb mbind outcome_bind].
  rewrite Hoff'. cbn [mbind outcome_bind]. unfold Alloc_buf. cbn [c_alloc upd_readers].
  destruct (Alloc (c_alloc c) HashNodeSize) as [buf a].
  match goal with |- context [issue_read cfg qp buf off HashNodeSize ?c1] =>
    destruct (issue_read_spec c1 qp buf off HashNodeSize (or_introl Hr)) as (s & e & -> & Hw) end.
  cbn [mbind outcome_bind fst snd negb app]. eexists _, _. split; [done|].
  cbn [hr_item hr_qp hr_meta c_items upd_net upd_alloc upd_readers]. split; [|done]. split.
  - exact Hw.
  - cbn [c_transfers upd_net upd_alloc upd_readers hr_qp hr_buf]. rewrite Ht. eexists. split; [done|].
    rewrite (fetch_node _ _ st h Hs), Haddr, Hn. done.
  - unfold reader_item. cbn [hr_item upd_net upd_alloc upd_readers reader_set]. rewrite Hset.
    cbn [lookup list_lookup insert list_insert deref mbind outcome_bind item_ptr set_node].
    change (c_items (upd_net _ _ _ _)) with (c_items c). by rewrite Hit.
Qed.

(** CheckHashRO on one pending read. *)
Lemma CheckHash_hit c res x' n item :
  arrived c res x' it n -> find (found it) (data_items n) = Some item ->
  exists c', CheckHashRO cfg [res] [] c = Ok (true, [], c') /\
    c_items c' = <[item_ptr x' := item]> (c_items c) /\
    reader_set c' = <[hr_item res := set_fetched x']> (reader_set c).
Proof.
  intros [_ _ Hn Hi] Hf. cbn [CheckHashRO]. rewrite Hn, Hi. cbn [mbind outcome_bind snd]. rewrite Hf.
  destruct (fetched_spec _ item _ _ _ Hi) as (c' & -> & _ & _ & _ & _ & _ & Hset & Hits).
  by exists c'.
Qed.

Lemma CheckHash_end c res x' n :
  arrived c res x' it n -> find (found it) (data_items n) = None -> HashStore.next n = 0 ->
  CheckHashRO cfg [res] [] c = Ok (false, [], c).
Proof.
  intros [_ _ Hn Hi] Hf H0'. cbn [CheckHashRO]. rewrite Hn, Hi. cbn [mbind outcome_bind snd].
  by rewrite Hf, H0'.
Qed.

Lemma CheckHash_next c res x' n n' :
  serves memory (hr_qp res) st h -> hr_meta res = meta_of_table st ->
  arrived c res x' it n -> find (found it) (data_items n) = None ->
  HashStore.next n <> 0 -> h !! HashStore.next n = Some n' ->
  exists c' res', CheckHashRO cfg [res] [] c = Ok (true, [res'], c') /\
    reading c' res' x' it n' /\ same_sets c c' /\ hr_qp res' = hr_qp res /\ hr_meta res' = hr_meta res.
Proof using Hnet.
  intros Hs Hm [Hr Ht Hn Hi] Hf H0' Hn'. cbn [CheckHashRO]. rewrite Hn, Hi. cbn [mbind outcome_bind snd].
  rewrite Hf. test (HashStore.next n =? 0) is false.
  destruct (issue_read_spec c (hr_qp res) (hr_buf res) (next_offset n (hr_meta res)) HashNodeSize
              (or_introl Hr)) as (s & e & -> & Hw).
  cbn [mbind outcome_bind fst snd negb app]. eexists _, _. split; [done|]. split; [|done].
  split; [done| |done]. rewrite Ht. cbn [c_transfers upd_net app hr_qp hr_buf]. eexists. split; [done|].
  rewrite Hm. by apply (next_agrees _ _ st h).
Qed.

(** The item when a read of it is under way: its offset is recorded. *)
Definition with_offset (i : DataItem) (off : Z) : DataItem :=
  MkDataItem (di_table_id i) (di_value_size i) (di_key i) off (di_version i) (di_lock i)
    (di_value i) (di_valid i) (di_user_insert i).

(** The offset of the item is known: a read of the item is posted. *)
Lemma IssueReader_direct c i :
  target c -> offset x <> NOT_FOUND -> fetch memory qp (u64 (offset x)) DataItemSize = Some (CItem i) ->
  exists c1 c2 buf, IssueReader cfg [] [] c = Ok (true, [MkDirectRead qp 0 buf node], [], c1) /\
    await cfg memory others c1 = Ok c2 /\ run_client c2 /\ c_transfers c2 = [] /\
    load_item buf c2 = Ok i /\
    reader_item 0 c2 = Ok (set_node node x, with_offset it (i64 (offset x))) /\
    c_items c2 = <[item_ptr x := with_offset it (i64 (offset x))]> (c_items c) /\
    c_cache c2 = c_cache c.
Proof using Hnet.
  intros [Hr Ht [Hset Hfx] Hit Hnode Hmeta Hqp Hs] Hoff Hi.
  unfold IssueReader. rewrite Hset. cbn [length IssueReader_loop]. unfold IssueReader_item.
  assert (reader_item 0 c = Ok (x, it)) as Hx.
  { unfold reader_item. rewrite Hset. cbn [lookup list_lookup deref mbind outcome_bind]. by rewrite Hit. }
  rewrite Hx. cbn [mbind outcome_bind]. rewrite Hfx, Hnode. cbn [mbind outcome_bind]. rewrite Hqp.
  cbn [mbind outcome_bind]. test (offset x =? NOT_FOUND) is false. cbn [negb].
  unfold Alloc_buf. cbn [c_alloc upd_items upd_readers].
  destruct (Alloc (c_alloc c) DataItemSize) as [buf a].
  match goal with |- context [issue_read cfg qp buf (offset x) DataItemSize ?c1] =>
    destruct (issue_read_spec c1 qp buf (offset x) DataItemSize (or_introl Hr)) as (s & e & -> & Hw) end.
  cbn [mbind outcome_bind fst snd negb app].
  match goal with |- context [Ok (true, _, _, ?c1)] =>
    destruct (await_spec c1 (store_buf buf DataItemSize (CItem i) (c_local c)) Hw) as (s' & e' & Ha & Hr');
    [|exists c1] end.
  { cbn [c_transfers c_local upd_net upd_alloc upd_items upd_readers]. rewrite Ht.
    cbn [app deliver t_qp t_off t_size t_buf]. by rewrite Hi. }
  eexists _, buf. split; [done|]. split; [exact Ha|]. split; [exact Hr'|]. split; [done|].
  split; [|split; [|by rewrite Hset]].
  - unfold load_item, store_buf. cbn [c_local upd_local]. by rewrite lookup_insert_eq.
  - unfold reader_item. cbn [upd_local upd_net upd_alloc upd_items upd_readers reader_set]. rewrite Hset.
    cbn [lookup list_lookup insert list_insert deref mbind outcome_bind item_ptr set_node].
    change (c_items (upd_local _ _ _)) with (<[item_ptr x := with_offset it (i64 (offset x))]> (c_items c)).
    by rewrite list_lookup_insert_eq by by eapply lookup_lt_Some.
Qed.

(** CheckDirectRO on one pending read whose address is stale. *)
Lemma CheckDirect_stale c buf x' it' i n :
  target c -> di_key it' = di_key it -> di_table_id it' = di_table_id it ->
  forall c', run_client c' -> c_transfers c' = [] -> load_item buf c' = Ok i ->
  reader_item 0 c' = Ok (x', it') -> same_item it i = false -> h !! bucket = Some n ->
  exists c2 res, CheckDirectRO cfg [MkDirectRead qp 0 buf node] [] c' = Ok (true, [res], c2) /\
    reading c2 res x' it' n /\ hr_qp res = qp /\ hr_meta res = meta_of_table st.
Proof using Hnet.
  intros [_ _ _ _ Hnode Hmeta _ Hs] Hk Htb c' Hr Ht Hl Hx Hd Hn.
  destruct (bucket_agrees memory qp st h Hs (di_key it)) as (off & Hoff' & Haddr).
  cbn [CheckDirectRO dr_item dr_buf dr_qp]. rewrite Hx. cbn [mbind outcome_bind snd]. rewrite Hl.
  cbn [mbind outcome_bind]. assert (same_item it' i = false) as ->.
  { unfold same_item. by rewrite Hk, Htb. }
  rewrite Htb, Hnode. cbn [mbind outcome_bind]. rewrite Hmeta. cbn [mbind outcome_bind].
  rewrite Hk, Hoff'. cbn [mbind outcome_bind]. unfold Alloc_buf.
  destruct (Alloc (c_alloc c') HashNodeSize) as [nbuf a].
  match goal with |- context [issue_read cfg qp nbuf off HashNodeSize ?c1] =>
    destruct (issue_read_spec c1 qp nbuf off HashNodeSize (or_introl Hr)) as (s & e & -> & Hw) end.
  cbn [mbind outcome_bind fst snd negb app]. eexists _, _. split; [done|]. split; [|done]. split.
  - exact Hw.
  - cbn [c_transfers upd_net upd_alloc hr_qp hr_buf]. rewrite Ht. eexists. split; [done|].
    rewrite (fetch_node _ _ st h Hs), Haddr, Hn. done.
  - exact Hx.
Qed.
(** An item that is not in the first node is in the rest of the chain. *)
Lemma present_later n l item :
  find (found it) (data_items n ++ slots h l) = Some item -> item ∉ data_items n ->
  chain h (HashStore.next n) l ->
  exists l' n', HashStore.next n <> 0 /\ h !! HashStore.next n = Some n' /\ chain h (HashStore.next n') l' /\
    Exists (fun y => found it y = true) (data_items n' ++ slots h l').
Proof using.
  intros Hf Hout Hc. destruct (found_present n l item Hf) as (_ & Hno & Hex). specialize (Hno Hout).
  apply find_none_Forall in Hno. rewrite Forall_forall in Hno.
  apply Exists_app in Hex as [(y & Hy & Hfy)%Exists_exists|Hex].
  { specialize (Hno y Hy). congruence. }
  destruct l as [|a l]; [by apply Exists_nil in Hex|].
  destruct Hc as (Ha & H0' & n' & Hn' & _ & Hc). exists l, n'. repeat (split; [done|]).
  rewrite slots_cons in Hex. unfold node_items in Hex. by rewrite <- Ha, Hn' in Hex.
Qed.

(** The check of one hash read of the item, by what the bucket contains. *)
Section Check.
Context (c : client E) (res : HashRead) (x' : DataSetItem) (n : HashNode) (l : list Z).
Context (Hs : serves memory (hr_qp res) st h) (Hm : hr_meta res = meta_of_table st).
Context (Hc : chain h (HashStore.next n) l) (Har : arrived c res x' it n).

Lemma CheckRead_first item fuel :
  find (found it) (data_items n) = Some item ->
  exists c', CheckReadRO cfg memory others (S fuel) [] [res] [] c = Ok (true, c') /\
    c_items c' = <[item_ptr x' := item]> (c_items c).
Proof using Har.
  intros Hf. unfold CheckReadRO. cbn [CheckDirectRO mbind outcome_bind negb].
  destruct (CheckHash_hit c res x' n item Har Hf) as (c' & -> & Hi & _).
  cbn [mbind outcome_bind negb next_rounds fst snd]. by exists c'.
Qed.

Lemma CheckRead_later item fuel :
  find (found it) (data_items n ++ slots h l) = Some item -> item ∉ data_items n ->
  CheckReadRO cfg memory others fuel [] [res] [] c = OutOfFuel.
Proof using Hnet Hs Hm Hc Har.
  intros Hf Hout. destruct (found_present n l item Hf) as (_ & Hno & _).
  destruct (present_later n l item Hf Hout Hc) as (l' & n' & H0' & Hn' & Hc' & Hex).
  unfold CheckReadRO. cbn [CheckDirectRO mbind outcome_bind negb].
  destruct (CheckHash_next c res x' n n' Hs Hm Har (Hno Hout) H0' Hn') as (c' & res' & -> & Hrd & _ & Hq & Hm').
  cbn [mbind outcome_bind negb]. rewrite <- Hq in Hs.
  apply (next_rounds_stuck res' st h Hs ltac:(congruence) x' it l' fuel c' n' Hc' Hex Hrd).
Qed.

Lemma CheckRead_absent fuel :
  find (found it) (data_items n ++ slots h l) = None -> (length l < fuel)%nat ->
  exists c', CheckReadRO cfg memory others (S fuel) [] [res] [] c = Ok (false, c') /\ same_sets c c'.
Proof using Hnet Hs Hm Hc Har.
  intros [Hno Hl]%found_absent Hfuel. unfold CheckReadRO. cbn [CheckDirectRO mbind outcome_bind negb].
  destruct l as [|a l'].
  { rewrite (CheckHash_end c res x' n Har Hno Hc). cbn [mbind outcome_bind negb]. by exists c. }
  destruct Hc as (Ha & H0' & n' & Hn' & _ & Hc').
  destruct (CheckHash_next c res x' n n' Hs Hm Har Hno H0' Hn') as (c1 & res' & -> & Hrd & [H1 H2] & Hq & Hm').
  cbn [mbind outcome_bind negb]. rewrite <- Hq in Hs. cbn [length] in Hfuel.
  rewrite slots_cons in Hl. apply Forall_app in Hl as [Hl1 Hl2]. unfold node_items in Hl1.
  rewrite <- Ha, Hn' in Hl1.
  destruct (next_rounds_absent res' st h Hs ltac:(congruence) x' it l' fuel c1 n' ltac:(lia) Hc'
    (proj2 (find_none_Forall _ _) Hl1) Hl2 Hrd) as (c2 & -> & [H3 H4]).
  exists c2. split; [done|]. split; congruence.
Qed.
End Check.
End Item.

(** C6. A one-sided lookup against the map [m] that the server's store holds. Reading
    the bucket of the key through the card, with a network that implements
    [ReadNetwork] and posts every read, the client reports the key absent exactly
    when the map does not have it, and fetches the item of the map when it lies in
    the first node of the bucket's chain. When it lies in a later node, no amount of
    fuel lets the check return: the iterator of CheckNextHashRO stays at a read
    whose item was found. *)
Theorem one_sided_lookup (st : HashStore) (param : MemStoreReserveParam) (h : heap) (L : list (list Z))
    (m : gmap Z DataItem) (x : DataSetItem) (it : DataItem) (node qp : Z) c :
  target st h x it node qp c -> table_of st param h L m (di_table_id it) -> is_key (di_key it) ->
  offset x = NOT_FOUND ->
  let first := node_items h (bucket_address st (GetHash st (di_key it))) in
  match m !! di_key it with
  | None => forall fuel, (heap_fuel h < fuel)%nat ->
      exists c', read_sets cfg memory others fuel c = Ok (Some false, c') /\ c_items c' = c_items c
  | Some item =>
      (item ∈ first -> forall fuel, (0 < fuel)%nat ->
       exists c', read_sets cfg memory others fuel c = Ok (Some true, c') /\
         c_items c' = <[item_ptr x := item]> (c_items c)) /\
      (item ∉ first -> forall fuel, read_sets cfg memory others fuel c = OutOfFuel)
  end.
Proof using Hnet.
  intros Htg Htb Hkey Hoff first.
  destruct (bucket_search st param h L m it Htb Hkey) as (n & l & Hn & Hc & Hfuel & Hm).
  destruct (IssueReader_hash st h x it node qp c n Htg Hoff Hn)
    as (c1 & res & Hiss & Hrd & Hr0 & Hqp & Hmt & Hits).
  destruct (await_node c1 res (set_node node x) it n Hrd) as (c2 & Haw & Har & [_ Hits2]).
  pose proof (tg_serves _ _ _ _ _ _ _ Htg) as Hs. rewrite <- Hqp in Hs.
  assert (forall fuel, read_sets cfg memory others fuel c =
    r ← CheckReadRO cfg memory others fuel [] [res] [] c2; Ok (Some (fst r), snd r)) as Hread.
  { intros fuel. unfold read_sets. rewrite Hiss. cbn [mbind outcome_bind negb]. by rewrite Haw. }
  assert (first = data_items n) as Hfirst by (unfold first, node_items; by rewrite Hn).
  destruct (m !! di_key it) as [item|]; symmetry in Hm; rewrite ?Hfirst.
  - destruct (found_present h it n l item Hm) as (Hin & _). split; intros Hi.
    + intros [|fuel] Hf; [lia|]. rewrite Hread.
      destruct (CheckRead_first it c2 res _ n Har item fuel (Hin Hi)) as (c3 & -> & Hi3).
      exists c3. split; [done|]. by rewrite Hi3, Hits2, Hits.
    + intros fuel. rewrite Hread. by rewrite (CheckRead_later st h it c2 res _ n l Hs Hmt Hc Har item fuel Hm Hi).
  - intros [|fuel] Hf; [lia|]. rewrite Hread.
    destruct (CheckRead_absent st h it c2 res _ n l Hs Hmt Hc Har fuel Hm ltac:(lia)) as (c3 & -> & [_ Hi3]).
    exists c3. split; [done|]. congruence.
Qed.

(** C27. A lookup whose item has an offset reads the item there. A valid item of the
    key and table is fetched; an invalid one makes the check fail and removes the
    cached address; any other item means that the address is stale, and the bucket
    is read again. That second lookup reports an absent key, but it never returns
    when the store holds the key: its reads are in the list of CheckNextHashRO from
    the start, which does not get past an item that was found. *)
Theorem direct_lookup (st : HashStore) (param : MemStoreReserveParam) (h : heap) (L : list (list Z))
    (m : gmap Z DataItem) (x : DataSetItem) (it : DataItem) (node qp : Z) (i : DataItem) c :
  target st h x it node qp c -> table_of st param h L m (di_table_id it) -> is_key (di_key it) ->
  offset x <> NOT_FOUND -> fetch memory qp (u64 (offset x)) DataItemSize = Some (CItem i) ->
  (same_item it i = true -> di_valid i <> 0 -> forall fuel, (0 < fuel)%nat ->
   exists c', read_sets cfg memory others fuel c = Ok (Some true, c') /\
     c_items c' = <[item_ptr x := i]> (c_items c)) /\
  (same_item it i = true -> di_valid i = 0 -> forall fuel,
   match Remove node (di_key it) (c_cache c) with
   | Ok cache => exists c', read_sets cfg memory others fuel c = Ok (Some false, c') /\ c_cache c' = cache
   | _ => read_sets cfg memory others fuel c = Fault
   end) /\
  (same_item it i = false -> m !! di_key it = None -> forall fuel, (heap_fuel h < fuel)%nat ->
   exists c', read_sets cfg memory others fuel c = Ok (Some false, c')) /\
  (same_item it i = false -> is_Some (m !! di_key it) -> forall fuel,
   read_sets cfg memory others fuel c = OutOfFuel).
Proof using Hnet.
  intros Htg Htb Hkey Hoff Hi.
  destruct (IssueReader_direct st h x it node qp c i Htg Hoff Hi)
    as (c1 & c2 & buf & Hiss & Haw & Hr2 & Ht2 & Hl2 & Hx2 & Hits2 & Hcache).
  assert (forall fuel, read_sets cfg memory others fuel c =
    r ← CheckReadRO cfg memory others fuel [MkDirectRead qp 0 buf node] [] [] c2;
    Ok (Some (fst r), snd r)) as Hread.
  { intros fuel. unfold read_sets. rewrite Hiss. cbn [mbind outcome_bind negb]. by rewrite Haw. }
  assert (same_item it i = true -> forall fuel, CheckReadRO cfg memory others fuel
      [MkDirectRead qp 0 buf node] [] [] c2 =
    if negb (di_valid i =? 0) then c ← fetched 0 i c2; next_rounds cfg memory others fuel [] c
    else cache ← Remove node (di_key it) (c_cache c2); Ok (false, upd_cache cache c2)) as Hsame.
  { intros Hsame fuel. unfold CheckReadRO. cbn [CheckDirectRO dr_item dr_buf dr_remote_node]. rewrite Hx2.
    cbn [mbind outcome_bind snd]. rewrite Hl2. cbn [mbind outcome_bind].
    change (same_item (with_offset it _) i) with (same_item it i). rewrite Hsame.
    destruct (negb _); [|by destruct (Remove _ _ _)]. destruct (fetched 0 i c2) as [c3| | |]; cbn [mbind outcome_bind]; done. }
  split; [|split; [|split]].
  - intros Hit Hv [|fuel] Hf; [lia|]. rewrite Hread, (Hsame Hit). test (di_valid i =? 0) is false. cbn [negb].
    destruct (fetched_spec 0 i c2 _ _ Hx2) as (c3 & -> & _ & _ & _ & _ & _ & _ & Hits3).
    cbn [mbind outcome_bind next_rounds fst snd]. exists c3. split; [done|].
    rewrite Hits3, Hits2. apply list_insert_insert_eq.
  - intros Hit Hv fuel. rewrite Hread, (Hsame Hit), Hv, Hcache. cbn [negb Z.eqb]. unfold Remove.
    destruct (map_of_cases (c_cache c) node) as [[m' ->]| ->]; cbn [mbind outcome_bind fst snd]; [by eexists|done].
  - intros Hit Hnone fuel Hf. 
    destruct (bucket_search st param h L m it Htb Hkey) as (n & l & Hn & Hc & Hfuel & Hm).
    rewrite Hnone in Hm. symmetry in Hm. apply found_absent in Hm as [Hno Hl].
    destruct (CheckDirect_stale st h x it node qp c buf _ (with_offset it (i64 (offset x))) i n Htg eq_refl eq_refl
                c2 Hr2 Ht2 Hl2 Hx2 Hit Hn) as (c3 & res & Hck & Hrd & Hq & Hmt).
    rewrite Hread. unfold CheckReadRO. rewrite Hck. cbn [mbind outcome_bind negb CheckHashRO].
    pose proof (tg_serves _ _ _ _ _ _ _ Htg) as Hs. rewrite <- Hq in Hs. destruct fuel as [|fuel]; [lia|].
    destruct (next_rounds_absent res st h Hs Hmt _ (with_offset it (i64 (offset x))) l fuel c3 n ltac:(lia) Hc Hno Hl Hrd) as (c4 & -> & _).
    cbn [mbind outcome_bind fst snd]. by exists c4.
  - intros Hit [item Hitem] fuel.
    destruct (bucket_search st param h L m it Htb Hkey) as (n & l & Hn & Hc & Hfuel & Hm).
    rewrite Hitem in Hm. symmetry in Hm. destruct (found_present h it n l item Hm) as (_ & _ & Hex).
    destruct (CheckDirect_stale st h x it node qp c buf _ (with_offset it (i64 (offset x))) i n Htg eq_refl eq_refl
                c2 Hr2 Ht2 Hl2 Hx2 Hit Hn) as (c3 & res & Hck & Hrd & Hq & Hmt).
    rewrite Hread. unfold CheckReadRO. rewrite Hck. cbn [mbind outcome_bind negb CheckHashRO].
    pose proof (tg_serves _ _ _ _ _ _ _ Htg) as Hs. rewrite <- Hq in Hs.
    by rewrite (next_rounds_stuck res st h Hs Hmt _ (with_offset it (i64 (offset x))) l fuel c3 n Hc Hex Hrd).
Qed.
End Lookup.

(** ** A fresh store is served *)

Lemma fresh_store_serves t bn param st param' h' (memory : Z -> Z * heap) (qp : Z) :
  valid_alloc bn param -> new_HashStore t bn param ∅ = Ok (st, param', h') ->
  memory qp = (region_start_ptr st, h') -> serves memory qp st h'.
Proof.
  intros Hv Hnew Hmem. destruct (new_HashStore_names _ _ _ _ _ _ _ Hnew) as [_ Hreg].
  destruct (new_HashStore_lemma t bn param ∅ Hv) as (st1 & p1 & Hnew1 & Hb & Hd & Hbn & _ & _).
  rewrite Hnew in Hnew1. injection Hnew1 as <- _ ->.
  destruct Hv as (Hn & Hr & Hp & _ & _ & Hend). split; [done|..].
  - by rewrite Hb, Hd, Hreg.
  - rewrite Hreg, Hd. lia.
  - by rewrite Hbn.
  - rewrite Hd, Hbn. lia.
  - intros a [Ha|Ha]%memset_nodes_dom; [by apply elem_of_empty in Ha|].
    rewrite HashNodeSize_15848 in *. lia.
Qed.

(** The address that a client computes for a key, from the metadata of a table that
    the server has just created, is the address at which the server looks for the
    key, and one read of a node there returns the bucket's first node. *)
Theorem client_addresses_bucket (t bn : Z) (param : MemStoreAllocParam) (st : HashStore)
    (param' : MemStoreAllocParam) (h : heap) (memory : Z -> Z * heap) (qp key : Z) :
  valid_alloc bn param -> new_HashStore t bn param ∅ = Ok (st, param', h) ->
  memory qp = (region_start_ptr st, h) ->
  exists off, bucket_offset (meta_of_table st) key = Ok off /\
    u64 (region_start_ptr st + u64 off) = bucket_address st (GetHash st key) /\
    fetch memory qp (u64 off) HashNodeSize = Some (CNode zero_node).
Proof.
  intros Hv Hnew Hmem. pose proof (fresh_store_serves t bn param st param' h memory qp Hv Hnew Hmem) as Hs.
  destruct (bucket_agrees memory qp st h Hs key) as (off & Hoff & Haddr).
  exists off. split; [done|]. split; [done|]. rewrite (fetch_node memory qp st h Hs), Haddr.
  destruct (new_HashStore_lemma t bn param ∅ Hv) as (st1 & p1 & Hnew1 & _ & Hd & Hbn & _ & _).
  rewrite Hnew in Hnew1. injection Hnew1 as <- _ ->.
  pose proof (Z.mod_pos_bound (MurmurHash64A key 0xdeadbeef) (bucket_num st) (srv_buckets _ _ _ _ Hs)) as Hi.
  unfold bucket_address, GetHash. revert Hi. generalize (MurmurHash64A key 0xdeadbeef mod bucket_num st).
  intros i Hi. rewrite Hd. destruct Hv as (_ & _ & ? & _ & _ & ?). rewrite HashNodeSize_15848 in *.
  rewrite (wrap_small 64 (i * 15848)) by lia.
  pose proof (memset_nodes_hit (Z.to_nat bn) (mem_store_start param + mem_store_alloc_offset param) ∅
    (Z.to_nat i) ltac:(lia)) as Hhit.
  rewrite Z2Nat.id, HashNodeSize_15848, Z.add_comm in Hhit by lia. by rewrite Hhit.
Qed.

Lemma client_addresses_bucket_witness :
  exists off, bucket_offset (meta_of_table sample_store) 5 = Ok off /\
    u64 (region_start_ptr sample_store + u64 off) = bucket_address sample_store (GetHash sample_store 5) /\
    fetch (fun _ => (4096, sample_heap)) 7 (u64 off) HashNodeSize = Some (CNode zero_node).
Proof.
  apply (client_addresses_bucket 1 3 alloc_sample sample_store
    (MkAllocParam 4096 8192 47544 200000) sample_heap (fun _ => (4096, sample_heap)) 7 5).
  - unfold valid_alloc, alloc_sample; simpl. rewrite HashNodeSize_15848. lia.
  - vm_compute. reflexivity.
  - reflexivity.
Defined.

(** ** Sets and paths *)

(** A lookup of an item that AddToReaderSet has added. *)
Definition from_root (t : transfer) : Prop := t_off t = 0 /\ t_size t = DataItemSize.

Section Sets.
Context {E : Type} `{Nic E} (cfg : dmc_config) (memory : Z -> Z * heap).
Context (others : CoroutineScheduler -> E -> CoroutineScheduler * E).
Implicit Types c : client E.

Abbreviation zero_offsets c := (Forall (fun x => offset x = 0) (reader_set c)).

Lemma stat_names_offsets paths c c' :
  stat_names cfg paths c = Ok c' -> zero_offsets c -> zero_offsets c' /\ c_transfers c' = c_transfers c.
Proof.
  revert c. induction paths as [|id paths IH]; intros c; cbn [stat_names]; [by intros [= ->]|].
  destruct (servers cfg =? 0); [done|].
  assert (forall c1, stat_names cfg paths (let '(p, c) := make_item 0 (nid_key id) c1 in AddToReaderSet p c) = Ok c' ->
    zero_offsets c1 -> zero_offsets c' /\ c_transfers c' = c_transfers c1) as Hadd.
  { intros c1 Hs H1. apply IH in Hs; [done|]. cbn [make_item AddToReaderSet reader_set upd_readers upd_items].
    apply Forall_app. split; [done|]. by repeat constructor. }
  destruct (Search _ _ _) as [[cached|]| | |]; cbn [mbind outcome_bind]; try done; [|apply Hadd].
  destruct (is_dir _); [apply IH|apply Hadd].
Qed.

Lemma IssueReader_item_direct i direct hash c ok direct' hash' c' :
  zero_offsets c -> IssueReader_item cfg i direct hash c = Ok (ok, direct', hash', c') ->
  zero_offsets c' /\ hash' = hash /\
  exists ts, c_transfers c' = c_transfers c ++ ts /\ Forall from_root ts.
Proof.
  unfold IssueReader_item, reader_item. intros Hz Hi. apply bind_Ok in Hi as ([x it] & Hx & Hi).
  apply bind_Ok in Hx as (x' & Hx & Hit). apply bind_Ok in Hit as (it' & Hit & E1). injection E1 as -> ->.
  apply deref_Ok in Hx. assert (offset x = 0) as Hoff by by apply (proj1 (Forall_lookup _ _) Hz i).
  destruct (is_fetched x).
  { injection Hi as <- <- <- <-. split; [done|]. split; [done|]. exists []. by rewrite app_nil_r. }
  apply bind_Ok in Hi as (nd & Hnd & Hi). apply bind_Ok in Hi as (qp & Hqp & Hi).
  rewrite Hoff in Hi. change (0 =? NOT_FOUND) with false in Hi. cbn [negb] in Hi.
  unfold Alloc_buf in Hi. cbn [c_alloc upd_items upd_readers] in Hi.
  destruct (Alloc (c_alloc c) DataItemSize) as [buf a].
  apply bind_Ok in Hi as (r & Hr & Hi). injection Hi as <- <- <- <-.
  unfold issue_read in Hr. apply bind_Ok in Hr as ([[rc s] e] & _ & E2). injection E2 as <-.
  split.
  { cbn [fst snd reader_set upd_net upd_alloc upd_items upd_readers]. by apply Forall_insert. }
  split; [done|]. cbn [snd c_transfers upd_net upd_alloc upd_items upd_readers].
  destruct rc; [|exists []; by rewrite app_nil_r]. eexists. split; [done|]. by repeat constructor.
Qed.

Lemma IssueReader_loop_direct k i direct hash c ok direct' hash' c' :
  zero_offsets c -> IssueReader_loop cfg k i direct hash c = Ok (ok, direct', hash', c') ->
  hash' = hash /\ exists ts, c_transfers c' = c_transfers c ++ ts /\ Forall from_root ts.
Proof.
  revert i direct hash c. induction k as [|k IH]; intros i direct hash c Hz; cbn [IssueReader_loop].
  { intros [= _ _ <- <-]. split; [done|]. exists []. by rewrite app_nil_r. }
  intros Hl. apply bind_Ok in Hl as ([[[ok1 d1] h1] c1] & Hi & Hl).
  destruct (IssueReader_item_direct _ _ _ _ _ _ _ _ Hz Hi) as (Hz1 & -> & ts & Ht & Hts).
  destruct ok1; cbn [negb] in Hl.
  - destruct (IH _ _ _ _ Hz1 Hl) as (-> & ts' & Ht' & Hts'). split; [done|]. exists (ts ++ ts').
    rewrite Ht', Ht, <- app_assoc. split; [done|]. by apply Forall_app.
  - injection Hl as <- <- <- <-. split; [done|]. by exists ts.
Qed.

(** The members that AddToReaderSet adds have the offset 0, not [NOT_FOUND]. Hence
    for the names of a path stat_file never reads a hash bucket and uses no cached
    address: IssueReader only posts reads of an item at the start of the region. *)
Theorem stat_reads_offset_0 (paths : list NameID) c c1 c2 (ok : bool) (direct : list DirectRead)
    (hash : list HashRead) :
  stat_names cfg paths (Begin c) = Ok c1 -> IssueReader cfg [] [] c1 = Ok (ok, direct, hash, c2) ->
  hash = [] /\ exists ts, c_transfers c2 = c_transfers c ++ ts /\ Forall from_root ts.
Proof.
  intros Hs Hi. destruct (stat_names_offsets _ _ _ Hs) as [Hz Ht]; [constructor|].
  destruct (IssueReader_loop_direct _ _ _ _ _ _ _ _ _ Hz Hi) as [-> (ts & Hts & Hf)].
  split; [done|]. exists ts. by rewrite Hts, Ht.
Qed.

Lemma find_from_None s i : slash ∉ s -> find_from slash s i = -1.
Proof.
  revert i. induction s as [|x s IH]; intros i Hs; [done|]. apply not_elem_of_cons in Hs as [Hx Hs].
  cbn [find_from]. test (x =? slash) is false. by apply IH.
Qed.

Lemma find_from_Some s i :
  slash ∈ s -> 0 <= i -> i + Z.of_nat (length s) <= 2 ^ 31 -> i <= find_from slash s i.
Proof.
  revert i. induction s as [|x s IH]; intros i Hs Hi Hl; [by apply not_elem_of_nil in Hs|].
  cbn [find_from length] in *. destruct (Z.eqb_spec x slash) as [_|Hx].
  - unfold to_signed. rewrite wrap_small by lia. by test (i <? 2 ^ (32 - 1)) is true.
  - apply elem_of_cons in Hs as [Ex|Hs]; [congruence|]. specialize (IH (i + 1) Hs ltac:(lia) ltac:(lia)). lia.
Qed.

(** The loop does not move the position. *)
Lemma path_loop_stuck fuel path ids : 0 < path_find path 1 -> path_loop fuel path ids = OutOfFuel.
Proof.
  intros Hp. revert ids. induction fuel as [|fuel IH]; intros ids; [done|]. cbn [path_loop].
  test (0 <? path_find path 1) is true. apply IH.
Qed.

(** C37. stat_file on a path with no '/' behind the first byte resolves no name, posts
    no request and reports success, whatever the store holds; on every other path
    it does not return, because path_resolution finds the same '/' again. *)
Theorem stat_file_behaviour (path : list Z) c :
  Z.of_nat (length path) <= 2 ^ 31 -> reader_set c = [] ->
  get (pending_counts (c_sched c)) (coro cfg) = Some 0 ->
  (slash ∉ drop 1 path -> forall fuel, (0 < fuel)%nat ->
   exists c', stat_file cfg memory others fuel path c = Ok (true, c') /\
     c_sched c' = c_sched c /\ c_nic c' = c_nic c /\ c_items c' = c_items c) /\
  (slash ∈ drop 1 path -> forall fuel, stat_file cfg memory others fuel path c = OutOfFuel).
Proof.
  intros Hlen Hset Hcount. split.
  - intros Hs [|fuel] Hf; [lia|]. unfold stat_file, path_resolution. cbn [path_loop]. unfold path_find.
    rewrite (find_from_None _ _ Hs). cbn [Z.ltb Z.compare mbind outcome_bind].
    assert ((if native cfg then Ok c else stat_names cfg [] c) = Ok c) as -> by by destruct (native cfg).
    cbn [mbind outcome_bind]. unfold read_sets, IssueReader. rewrite Hset.
    cbn [length IssueReader_loop mbind outcome_bind negb]. unfold await, Yield. rewrite Hcount.
    cbn [deref mbind outcome_bind Z.eqb fst snd]. by eexists.
  - intros Hs fuel. unfold stat_file, path_resolution. rewrite path_loop_stuck; [done|].
    unfold path_find. destruct path as [|x path]; [by apply not_elem_of_nil in Hs|]. cbn [drop] in *.
    cbn [length] in Hlen. pose proof (find_from_Some path 1 Hs ltac:(lia) ltac:(lia)).
    change (0 < find_from slash path 1). lia.
Qed.
End Sets.

(** ** A concrete client, for the witnesses *)

(** The server holds the item of key 5 in slot 0 of its second bucket. *)
Definition item_heap : heap := write_item sample_heap (24040, O) item_a.
Definition sample_memory : Z -> Z * heap := fun _ => (4096, item_heap).
Definition sample_cfg : dmc_config :=
  MkConfig 1 (MkMetaManager {[ 1 := meta_of_table sample_store ]} [] {[ 1 := 0 ]} []) [Some 7] 1 false.

(** Coroutine 1 of two runs. *)
Definition sample_thread : thread fifo_nic := exec_all 9 [APoll] (started 2 (MkFifo [])).

Definition sample_client (off : Z) : client fifo_nic :=
  MkClient (sched sample_thread) (nic sample_thread) (MkBufferAllocator 0 100000 0) ∅ [] new_AddrCache
    [empty_item 1 5] [MkDataSetItem 0 false off (-1)] [] [] [].

Lemma item_inv : store_inv sample_store reserve_sample item_heap (fresh_chains 8192 3) (<[5 := item_a]> ∅).
Proof.
  assert (is_key 5) as Hk by (unfold is_key; lia).
  pose proof (insert_fill sample_store reserve_sample sample_heap (fresh_chains 8192 3) ∅ sample_inv 5 Hk
    [24040] (24040, O) [] zero_item (replicate 21 zero_item) item_a) as Hins.
  apply Hins; try done. exists [], zero_node, []. by repeat split.
Qed.

Lemma item_table : table_of sample_store reserve_sample item_heap (fresh_chains 8192 3) (<[5 := item_a]> ∅) 1.
Proof.
  split; [exact item_inv|]. intros l Hl. unfold of_table.
  assert (Forall (fun l => forallb (fun y => (di_valid y =? 0) || (di_table_id y =? 1)) (slots item_heap l) = true)
    (fresh_chains 8192 3)) as Hall by (vm_compute; repeat constructor).
  rewrite Forall_forall in Hall. specialize (Hall l Hl). rewrite forallb_forall in Hall.
  apply Forall_forall. intros y Hy%list_elem_of_In Hv. specialize (Hall y Hy).
  apply orb_prop in Hall as [H0%Z.eqb_eq|H1%Z.eqb_eq]; done.
Qed.

Lemma sample_network : ReadNetwork 1 (poll_others (E := fifo_nic)) (running 2 1) (waiting 2 1).
Proof.
  apply scheduler_network; [lia|done|done|apply prompt_reliable, fifo_prompt|].
  apply poll_others_resumes, fifo_prompt.
Qed.

Lemma sample_target off :
  target sample_cfg sample_memory (running 2 1) sample_store item_heap
    (MkDataSetItem 0 false off (-1)) (empty_item 1 5) 0 7 (sample_client off).
Proof.
  split; try done.
  - destruct (reachable_wf (E := fifo_nic) 2 ltac:(lia) sample_thread) as (lost & R & Hwf & Hrel).
    { by apply trace_reachable; [lia| |vm_compute]. }
    rewrite (Hrel (prompt_reliable fifo_prompt)) in Hwf. by exists R.
  - split; try done.
    intros a Ha. unfold item_heap in Ha. rewrite write_item_dom in Ha.
      apply memset_nodes_dom in Ha as [Ha%elem_of_empty|Ha]; [done|]. rewrite HashNodeSize_15848 in Ha. lia.
Qed.

Lemma one_sided_lookup_witness :
  exists c', read_sets sample_cfg sample_memory poll_others 1 (sample_client NOT_FOUND) = Ok (Some true, c') /\
    c_items c' = [item_a].
Proof.
  apply (proj1 (one_sided_lookup sample_cfg sample_memory poll_others (running 2 1) (waiting 2 1)
    (Hnet := sample_network) sample_store reserve_sample item_heap (fresh_chains 8192 3) (<[5 := item_a]> ∅)
    (MkDataSetItem 0 false NOT_FOUND (-1)) (empty_item 1 5) 0 7 (sample_client NOT_FOUND)
    (sample_target NOT_FOUND) item_table ltac:(unfold is_key; simpl; lia) eq_refl)).
  - vm_compute. constructor.
  - lia.
Defined.

Lemma direct_lookup_witness :
  exists c', read_sets sample_cfg sample_memory poll_others 1 (sample_client 19944) = Ok (Some true, c') /\
    c_items c' = [item_a].
Proof.
  apply (proj1 (direct_lookup sample_cfg sample_memory poll_others (running 2 1) (waiting 2 1)
    (Hnet := sample_network) sample_store reserve_sample item_heap (fresh_chains 8192 3) (<[5 := item_a]> ∅)
    (MkDataSetItem 0 false 19944 (-1)) (empty_item 1 5) 0 7 item_a (sample_client 19944)
    (sample_target 19944) item_table ltac:(unfold is_key; simpl; lia) ltac:(discriminate)
    ltac:(vm_compute; reflexivity))).
  - reflexivity.
  - discriminate.
  - lia.
Defined.

Definition slash_path : list Z := [47; 97; 47; 98].
Definition flat_path : list Z := [47; 97].

Lemma stat_file_behaviour_witness :
  (exists c', stat_file sample_cfg sample_memory poll_others 1 flat_path (Begin (sample_client 0)) = Ok (true, c')) /\
  stat_file sample_cfg sample_memory poll_others 100 slash_path (Begin (sample_client 0)) = OutOfFuel.
Proof.
  split.
  - destruct (proj1 (stat_file_behaviour sample_cfg sample_memory poll_others flat_path (Begin (sample_client 0))
      ltac:(vm_compute; discriminate) eq_refl eq_refl)
      ltac:(vm_compute; intros H; inversion H as [|x y z H1]; inversion H1) 1%nat ltac:(lia)) as (c' & Hc & _).
    by exists c'.
  - apply (proj2 (stat_file_behaviour sample_cfg sample_memory poll_others slash_path (Begin (sample_client 0))
      ltac:(vm_compute; discriminate) eq_refl eq_refl)).
    vm_compute. right. constructor.
Defined.

(** Table 0, which stat_file looks names up in. *)
Definition stat_cfg : dmc_config :=
  MkConfig 1 (MkMetaManager {[ 0 := meta_of_table sample_store ]} [] {[ 0 := 0 ]} []) [Some 7] 1 false.

Definition stat_added : client fifo_nic :=
  match stat_names stat_cfg [MkNameID 5 flat_path] (Begin (sample_client 0)) with
  | Ok c => c
  | _ => sample_client 0
  end.

Definition stat_issued : client fifo_nic :=
  match IssueReader stat_cfg [] [] stat_added with
  | Ok (_, _, _, c) => c
  | _ => sample_client 0
  end.

Lemma stat_reads_offset_0_witness :
  @nil HashRead = [] /\
  exists ts, c_transfers stat_issued = c_transfers (sample_client 0) ++ ts /\ Forall from_root ts.
Proof.
  apply (stat_reads_offset_0 stat_cfg [MkNameID 5 flat_path] (sample_client 0) stat_added stat_issued
    true [MkDirectRead 7 0 0 0] []).
  - vm_compute. reflexivity.
  - vm_compute. reflexivity.
Defined.
