(* ===== verification/DmcSets.v ===== *)
(** Lookups of several items at once: the reads of a set are posted together, and
    the rounds of the check follow all chains side by side. *)
From S2P Require Import Prelude Words Outcome Layout Hash Alloc Meta Verbs Scheduler HashStore HashStoreRefine.
From S2P Require Import HashStoreRefine HashStoreTheorems AddrCache SchedulerFacts SchedulerInvariant.
From S2P Require Import SchedulerTheorems Dmc DmcTheorems.

(** ** Members of a set *)

(** An item that is searched: the member of the set, its server, and the map that
    the server's store holds. *)
Record member := MkMember {
  mb_x : DataSetItem;
  mb_it : DataItem;
  mb_node : Z;
  mb_qp : Z;
  mb_st : HashStore;
  mb_heap : heap;
  mb_map : gmap Z DataItem;
}.

Abbreviation mb_key mb := (di_key (mb_it mb)).
Abbreviation mb_bucket mb := (bucket_address (mb_st mb) (GetHash (mb_st mb) (mb_key mb))).

Definition in_map (mb : member) : Prop := is_Some (mb_map mb !! mb_key mb).

(** The item lies in the first node of its bucket's chain. *)
Definition in_first (mb : member) : Prop :=
  exists item, mb_map mb !! mb_key mb = Some item /\ item ∈ node_items (mb_heap mb) (mb_bucket mb).

Lemma Forall2_in_l {A B} (R : A -> B -> Prop) l k x : Forall2 R l k -> x ∈ l -> exists y, y ∈ k /\ R x y.
Proof.
  intros Hall [i Hi]%list_elem_of_lookup. destruct (Forall2_lookup_l _ _ _ _ _ Hall Hi) as (y & Hy & HR).
  exists y. split; [by eapply list_elem_of_lookup_2|done].
Qed.

Lemma Forall2_in_r {A B} (R : A -> B -> Prop) l k y : Forall2 R l k -> y ∈ k -> exists x, x ∈ l /\ R x y.
Proof. intros Hall%Forall2_flip. by apply (Forall2_in_l (flip R)). Qed.

(** ** Entries: the reads of a set *)

(** A pending read of the item [en_it], the node that it fetches, and the nodes
    behind it. *)
Record entry := MkEntry {
  en_res : HashRead;
  en_ptr : nat;
  en_it : DataItem;
  en_st : HashStore;
  en_heap : heap;
  en_node : HashNode;
  en_rest : list Z;
}.

Definition en_found (e : entry) : option DataItem := find (found (en_it e)) (data_items (en_node e)).
Definition missing (e : entry) : Prop := en_found e = None.
Definition ended (e : entry) : Prop := missing e /\ HashStore.next (en_node e) = 0.

#[export] Instance missing_dec e : Decision (missing e).
Proof. unfold missing. apply _. Defined.

Definition en_slots (e : entry) : list DataItem := data_items (en_node e) ++ slots (en_heap e) (en_rest e).
Definition absent (e : entry) : Prop := find (found (en_it e)) (en_slots e) = None.

(** The read of the next node. *)
Definition next_entry (e : entry) : entry :=
  MkEntry (en_res e) (en_ptr e) (en_it e) (en_st e) (en_heap e)
    (default zero_node (en_heap e !! HashStore.next (en_node e))) (tail (en_rest e)).

(** The items after those that were found are stored. *)
Definition fill (es : list entry) (items : list DataItem) : list DataItem :=
  foldl (fun items e => match en_found e with Some i => <[en_ptr e := i]> items | None => items end) items es.

Definition buffer_of (e : entry) : Z * Z := (hr_buf (en_res e), HashNodeSize).

Definition distinct (e e' : entry) : Prop :=
  hr_item (en_res e') <> hr_item (en_res e) /\ en_ptr e' <> en_ptr e /\
  disjoint_ranges (buffer_of e) (buffer_of e').

(** The reads have different members, items and buffers. *)
Record separate (es : list entry) : Prop := {
  sp_members : NoDup (map (fun e => hr_item (en_res e)) es);
  sp_items : NoDup (map en_ptr es);
  sp_buffers : ForallOrdPairs disjoint_ranges (map buffer_of es);
}.

Lemma separate_cons e es : separate (e :: es) ->
  separate es /\ Forall (distinct e) es.
Proof.
  intros [Hm Hi Hb]. cbn [map] in *. apply NoDup_cons in Hm as [Hm Hms]. apply NoDup_cons in Hi as [Hi His].
  inversion Hb as [|? ? Hb1 Hbs]; subst. split; [by split|]. apply Forall_forall. intros e' He'.
  rewrite List.Forall_map in Hb1. rewrite Forall_forall in Hb1. split; [|split; [|by apply Hb1]].
  - intros E. apply Hm. rewrite <- E. by apply (list_elem_of_fmap_2 (fun e => hr_item (en_res e))).
  - intros E. apply Hi. rewrite <- E. by apply list_elem_of_fmap_2.
Qed.

Lemma separate_sub es es' : es' `sublist_of` es -> separate es -> separate es'.
Proof.
  intros Hsub [Hm Hi Hb]. split.
  - eapply sublist_NoDup; [exact Hm|]. by apply fmap_sublist.
  - eapply sublist_NoDup; [exact Hi|]. by apply fmap_sublist.
  - clear Hm Hi. induction Hsub as [|e es1 es2 Hsub IH|e es1 es2 Hsub IH]; cbn [map] in *; [done| |].
    + inversion Hb as [|? ? Hb1 Hbs]; subst. constructor; [|by apply IH].
      rewrite List.Forall_map in *. rewrite Forall_forall in *. intros e' He'. apply Hb1.
      by eapply elem_of_sublist.
    + inversion Hb; subst. by apply IH.
Qed.

Lemma separate_next es : separate (map next_entry es) <-> separate es.
Proof.
  assert (forall B (f : entry -> B), (forall e, f (next_entry e) = f e) -> map f (map next_entry es) = map f es) as H.
  { intros B f Hf. rewrite map_map. by apply map_ext. }
  split; intros [Hm Hi Hb]; split; revert Hm Hi Hb; rewrite !H by done; done.
Qed.

Lemma next_reads es : map en_res (map next_entry es) = map en_res es.
Proof. rewrite map_map. by apply map_ext. Qed.

(** What was found later does not change another item. *)
Lemma fill_other es items p : Forall (fun e => en_ptr e <> p) es -> fill es items !! p = items !! p.
Proof.
  intros H. revert items. induction H as [|e es He _ IH]; intros items; [done|]. unfold fill in *. cbn [foldl].
  rewrite IH. destruct (en_found e); [by rewrite list_lookup_insert_ne|done].
Qed.

Lemma fill_lookup es items e :
  separate es -> e ∈ es -> (en_ptr e < length items)%nat ->
  fill es items !! en_ptr e = match en_found e with Some i => Some i | None => items !! en_ptr e end.
Proof.
  revert items. induction es as [|e' es IH]; intros items Hsep He Hlt; [by apply not_elem_of_nil in He|].
  apply separate_cons in Hsep as [Hsep Hne]. apply elem_of_cons in He as [->|He].
  - unfold fill. cbn [foldl]. fold (fill es).
    change (fill es (match en_found e' with Some i => <[en_ptr e':=i]> items | None => items end) !! en_ptr e' = 
      match en_found e' with Some i => Some i | None => items !! en_ptr e' end).
    rewrite fill_other by (eapply Forall_impl; [exact Hne|]; intros ? (_ & ? & _); done).
    destruct (en_found e'); [by rewrite list_lookup_insert_eq|done].
  - rewrite Forall_forall in Hne. destruct (Hne e He) as (_ & Hp & _).
    change (fill (e' :: es) items) with
      (fill es (match en_found e' with Some i => <[en_ptr e':=i]> items | None => items end)).
    rewrite IH; [|done|done|destruct (en_found e'); by rewrite ?length_insert].
    destruct (en_found e); [done|]. destruct (en_found e'); [by rewrite list_lookup_insert_ne|done].
Qed.

(** ** The reads in a client *)

Section Sets.
Context {E : Type} `{Nic E} (cfg : dmc_config) (memory : Z -> Z * heap).
Context (others : CoroutineScheduler -> E -> CoroutineScheduler * E).
Context (run wait : CoroutineScheduler -> E -> Prop).
Context `{Hnet : !ReadNetwork (coro cfg) others run wait}.
Implicit Types c : client E.
Implicit Types e : entry.

Abbreviation run_client c := (run (c_sched c) (c_nic c)).
Abbreviation wait_client c := (wait (c_sched c) (c_nic c)).

(** What holds of an entry in every state. *)
Record well_read e : Prop := {
  wr_serves : serves memory (hr_qp (en_res e)) (en_st e) (en_heap e);
  wr_meta : hr_meta (en_res e) = meta_of_table (en_st e);
  wr_chain : chain (en_heap e) (HashStore.next (en_node e)) (en_rest e);
}.

(** Its member of the set still points to the item that is searched. *)
Definition in_place c e : Prop :=
  exists x, reader_item (hr_item (en_res e)) c = Ok (x, en_it e) /\ item_ptr x = en_ptr e.

Definition loaded c e : Prop := load_node (hr_buf (en_res e)) c = Ok (en_node e).

(** The read that fetches the node of the entry. *)
Definition coming e (t : transfer) : Prop :=
  exists off, t = MkTransfer (hr_qp (en_res e)) (hr_buf (en_res e)) off HashNodeSize /\
    fetch memory (hr_qp (en_res e)) off HashNodeSize = Some (CNode (en_node e)).

Lemma well_read_next e :
  well_read e -> HashStore.next (en_node e) <> 0 ->
  well_read (next_entry e) /\ (length (en_rest (next_entry e)) < length (en_rest e))%nat /\
  en_heap e !! HashStore.next (en_node e) = Some (en_node (next_entry e)).
Proof using.
  intros [Hs Hm Hc] Hn. destruct e as [res p it st h n l]. unfold next_entry in *. cbn [en_res en_st en_heap en_node en_rest] in *.
  destruct l as [|a l]; [done|]. destruct Hc as (Ha & _ & n' & -> & _ & Hc). cbn [default tail length] in *.
  split; [by split|]. split; [lia|done].
Qed.

Lemma slots_next e :
  well_read e -> HashStore.next (en_node e) <> 0 -> en_slots e = data_items (en_node e) ++ en_slots (next_entry e).
Proof using.
  intros Hw Hn. destruct (well_read_next e Hw Hn) as (_ & _ & Hh). destruct Hw as [_ _ Hc].
  unfold en_slots. f_equal. revert Hh Hc. destruct e as [res p it st h n [|a l]]; cbn [en_heap en_node en_rest next_entry chain tail].
  - done.
  - intros Hh (Ha & _). rewrite slots_cons. f_equal. unfold node_items. by rewrite <- Ha, Hh at 1.
Qed.

(** The search goes on behind a node that does not have the item. *)
Lemma absent_next e :
  well_read e -> missing e -> HashStore.next (en_node e) <> 0 -> absent (next_entry e) <-> absent e.
Proof using.
  intros Hw Hm Hn. unfold absent. change (en_it (next_entry e)) with (en_it e).
  rewrite (slots_next e Hw Hn), !find_none_Forall, Forall_app. unfold missing, en_found in Hm.
  rewrite find_none_Forall in Hm. tauto.
Qed.

Lemma ended_absent e : well_read e -> ended e -> absent e.
Proof using.
  intros [_ _ Hc] [Hm Hn]. unfold absent, en_slots. rewrite Hn in Hc. unfold missing, en_found in Hm.
  destruct (en_rest e) as [|a l]; [by rewrite app_nil_r|]. destruct Hc as (<- & ? & _). done.
Qed.

Lemma absent_missing e : absent e -> missing e.
Proof using.
  unfold absent, missing, en_found, en_slots. rewrite !find_none_Forall, Forall_app. by intros [? _].
Qed.

(** ** Delivery *)

Lemma store_buf_other buf x m buf' y :
  m !! buf' = Some (HashNodeSize, y) -> disjoint_ranges (buf, HashNodeSize) (buf', HashNodeSize) ->
  store_buf buf HashNodeSize x m !! buf' = Some (HashNodeSize, y).
Proof using.
  intros Hm Hd. unfold store_buf. unfold disjoint_ranges in Hd. cbn [fst snd] in Hd.
  rewrite lookup_insert_ne by (rewrite HashNodeSize_15848 in *; lia).
  apply map_lookup_filter_Some. split; [done|]. cbn [fst snd]. lia.
Qed.

Lemma deliver_keeps es ts m m' buf y :
  Forall2 coming es ts -> deliver memory ts m = Ok m' -> m !! buf = Some (HashNodeSize, y) ->
  Forall (fun e => disjoint_ranges (buffer_of e) (buf, HashNodeSize)) es -> m' !! buf = Some (HashNodeSize, y).
Proof using.
  intros Hall. revert m. induction Hall as [|e t es ts (off & -> & Hf) _ IH]; intros m Hd Hm Hdis.
  { cbn [deliver] in Hd. by simplify_eq. }
  apply Forall_cons in Hdis as [He Hdis]. cbn [deliver t_qp t_off t_size t_buf] in Hd. rewrite Hf in Hd.
  apply (IH _ Hd); [|done]. by apply store_buf_other.
Qed.

Lemma deliver_all es ts m :
  separate es -> Forall2 coming es ts ->
  exists m', deliver memory ts m = Ok m' /\
    Forall (fun e => m' !! hr_buf (en_res e) = Some (HashNodeSize, CNode (en_node e))) es.
Proof using.
  intros Hsep Hall. revert m. induction Hall as [|e t es ts He Hall IH]; intros m; [by exists m|].
  apply separate_cons in Hsep as [Hsep Hne]. destruct He as (off & -> & Hf).
  cbn [deliver t_qp t_off t_size t_buf]. rewrite Hf.
  destruct (IH Hsep (store_buf (hr_buf (en_res e)) HashNodeSize (CNode (en_node e)) m)) as (m' & Hd & Hm').
  exists m'. split; [done|]. constructor; [|done].
  eapply deliver_keeps; [done|exact Hd|unfold store_buf; by rewrite lookup_insert_eq|].
  eapply Forall_impl; [exact Hne|]. intros e' (_ & _ & Hdis). unfold disjoint_ranges, buffer_of in *.
  cbn [fst snd] in *. lia.
Qed.

(** All nodes of the entries are under way, and have arrived. *)
Record reading_all c (es : list entry) : Prop := {
  ra_wait : wait_client c;
  ra_coming : Forall2 coming es (c_transfers c);
  ra_place : Forall (in_place c) es;
  ra_well : Forall well_read es;
  ra_separate : separate es;
}.

Record arrived_all c (es : list entry) : Prop := {
  aa_run : run_client c;
  aa_transfers : c_transfers c = [];
  aa_loaded : Forall (loaded c) es;
  aa_place : Forall (in_place c) es;
  aa_well : Forall well_read es;
  aa_separate : separate es;
}.

Lemma await_all c es :
  reading_all c es ->
  exists c', await cfg memory others c = Ok c' /\ arrived_all c' es /\ same_sets c c'.
Proof using Hnet.
  intros [Hw Hcm Hp Hwr Hsep]. destruct (deliver_all es _ (c_local c) Hsep Hcm) as (m & Hd & Hm).
  destruct (await_spec cfg memory others run wait c m Hw Hd) as (s & e & -> & Hr).
  eexists. split; [done|]. split; [|done]. split; try done.
  eapply Forall_impl; [exact Hm|]. intros e' He'. unfold loaded, load_node. cbn [c_local upd_local]. by rewrite He'.
Qed.

(** ** Steps that leave the other entries in place *)

Lemma in_place_sets c c' e : same_sets c c' -> in_place c e -> in_place c' e.
Proof using.
  intros [Hr Hi] (x & Hx & Hp). exists x. split; [|done]. unfold reader_item in *. by rewrite Hr, Hi.
Qed.

Lemma fetched_place c e item :
  in_place c e ->
  exists c', fetched (hr_item (en_res e)) item c = Ok c' /\
    (forall e', in_place c e' -> distinct e e' -> in_place c' e') /\
    c_local c' = c_local c /\ c_sched c' = c_sched c /\ c_nic c' = c_nic c /\ c_transfers c' = c_transfers c /\
    c_items c' = <[en_ptr e := item]> (c_items c).
Proof using.
  intros (x & Hx & Hp).
  destruct (fetched_spec _ item c x _ Hx) as (c' & Hf & _ & Hl & Hs & Hn & Ht & Hset & Hits).
  exists c'. rewrite Hp in Hits. repeat (split; [done|]). split; [|done].
  intros e' (x' & Hx' & Hp') (Hm & Hq & _). exists x'. split; [|done].
  unfold reader_item in *. rewrite Hset, Hits, list_lookup_insert_ne by done.
  destruct (reader_set c !! hr_item (en_res e')) as [y|]; [|done]. cbn [deref mbind outcome_bind] in *.
  rewrite list_lookup_insert_ne; [done|].
  destruct (c_items c !! item_ptr y); cbn [deref mbind outcome_bind] in Hx'; [|done].
  injection Hx' as -> _. congruence.
Qed.

Lemma issue_next c e :
  well_read e -> HashStore.next (en_node e) <> 0 -> run_client c \/ wait_client c ->
  exists c' t, issue_read cfg (hr_qp (en_res e)) (hr_buf (en_res e)) (next_offset (en_node e) (hr_meta (en_res e)))
      HashNodeSize c = Ok (true, c') /\
    wait_client c' /\ same_sets c c' /\ c_local c' = c_local c /\
    c_transfers c' = c_transfers c ++ [t] /\ coming (next_entry e) t.
Proof using Hnet.
  intros Hw Hn Hc. destruct (well_read_next e Hw Hn) as (_ & _ & Hh). destruct Hw as [Hs Hm _].
  destruct (issue_read_spec cfg others run wait c (hr_qp (en_res e)) (hr_buf (en_res e))
    (next_offset (en_node e) (hr_meta (en_res e))) HashNodeSize Hc) as (s & e1 & -> & Hw).
  eexists _, _. repeat (split; [done|]). eexists. split; [done|]. rewrite Hm.
  by apply (next_agrees _ _ (en_st e) (en_heap e)).
Qed.

Lemma hash_read_eta res : MkHashRead (hr_qp res) (hr_item res) (hr_buf res) (hr_remote_node res) (hr_meta res) = res.
Proof. by destruct res. Qed.

Definition kept (es : list entry) : list entry := filter missing es.

(** What a round of the check leaves: the reads of the next nodes of [es] are
    posted. *)
Record round c c' (es : list entry) : Prop := {
  rn_net : run_client c' \/ wait_client c';
  rn_wait : wait_client c \/ es <> [] -> wait_client c';
  rn_next : Forall (fun e => HashStore.next (en_node e) <> 0) es;
  rn_transfers : exists ts, c_transfers c' = c_transfers c ++ ts /\ Forall2 coming (map next_entry es) ts;
  rn_place : Forall (in_place c') es;
}.

(** CheckHashRO follows the chains of the items that it does not find, unless one of
    them ends. *)
Lemma check_hash es : forall nexts c,
  separate es -> Forall well_read es -> Forall (in_place c) es -> Forall (loaded c) es ->
  run_client c \/ wait_client c ->
  (exists nexts' c', CheckHashRO cfg (map en_res es) nexts c = Ok (false, nexts', c') /\ Exists ended es) \/
  (exists c', CheckHashRO cfg (map en_res es) nexts c = Ok (true, nexts ++ map en_res (kept es), c') /\
     round c c' (kept es) /\ c_items c' = fill es (c_items c) /\
     forall e0, in_place c e0 -> Forall (fun e => distinct e e0) es -> in_place c' e0).
Proof using Hnet.
  induction es as [|e es IH]; intros nexts c Hsep Hwr Hpl Hld Hnet'.
  { right. exists c. cbn. rewrite app_nil_r. split; [done|]. split; [|done].
    split; try done; [by intros [?|?]|]. exists []. rewrite app_nil_r. by split. }
  apply separate_cons in Hsep as [Hsep Hne]. apply Forall_cons in Hwr as [Hw Hwr].
  apply Forall_cons in Hpl as [Hp Hpl]. apply Forall_cons in Hld as [Hl Hld].
  pose proof Hp as (x & Hx & _). cbn [map CheckHashRO]. rewrite Hl, Hx. cbn [mbind outcome_bind snd].
  unfold kept. rewrite filter_cons. change (find (found (en_it e)) (data_items (en_node e))) with (en_found e).
  destruct (en_found e) as [item|] eqn:Ef.
  - rewrite decide_False by (unfold missing; congruence).
    destruct (fetched_place c e item Hp) as (c1 & -> & Hfr1 & Hl1 & Hs1 & Hn1 & Ht1 & Hi1).
    cbn [mbind outcome_bind]. destruct (IH nexts c1) as [(nx & c' & -> & Hex)|(c' & -> & Hr & Hi & Hfr)]; try done.
    { apply Forall_forall. intros e' He'. rewrite Forall_forall in Hpl, Hne. apply Hfr1; auto. }
    { eapply Forall_impl; [exact Hld|]. intros e' He'. unfold loaded, load_node in *. by rewrite Hl1. }
    { by rewrite Hs1, Hn1. }
    + left. exists nx, c'. split; [done|]. by right.
    + right. exists c'. split; [done|]. split; [|split].
      * destruct Hr as [R1 R2 R3 R4 R5]. rewrite Ht1 in R4. rewrite Hs1, Hn1 in R2. by split.
      * rewrite Hi, Hi1. unfold fill. cbn [foldl]. by rewrite Ef.
      * intros e0 He0 Hd. apply Forall_cons in Hd as [Hd Hds]. apply Hfr; [by apply Hfr1|done].
  - rewrite decide_True by done. destruct (Z.eqb_spec (HashStore.next (en_node e)) 0) as [Hz|Hz].
    { left. exists nexts, c. split; [done|]. left. by split. }
    destruct (issue_next c e Hw Hz Hnet') as (c1 & t & -> & Hw1 & Hs1 & Hl1 & Ht1 & Hc1).
    cbn [mbind outcome_bind fst snd negb]. rewrite hash_read_eta.
    destruct (IH (nexts ++ [en_res e]) c1) as [(nx & c' & -> & Hex)|(c' & -> & Hr & Hi & Hfr)]; try done.
    { eapply Forall_impl; [exact Hpl|]. intros e'. by apply in_place_sets. }
    { eapply Forall_impl; [exact Hld|]. intros e' He'. unfold loaded, load_node in *. by rewrite Hl1. }
    { by right. }
    + left. exists nx, c'. split; [done|]. by right.
    + right. exists c'. cbn [map]. rewrite <- app_assoc. split; [done|].
      assert (forall e0, in_place c e0 -> Forall (fun e1 => distinct e1 e0) es -> in_place c' e0) as Hfr'.
      { intros e0 He0. apply Hfr. by apply (in_place_sets c). }
      split; [|split].
      * destruct Hr as [R1 R2 R3 (ts & R4 & R5) R6]. split; try done.
        -- intros _. apply R2. by left.
        -- by constructor.
        -- exists (t :: ts). rewrite R4, Ht1, <- app_assoc. split; [done|]. by constructor.
        -- constructor; [|done]. apply Hfr'; [done|]. eapply Forall_impl; [exact Hne|].
           intros e1 (D1 & D2 & D3). unfold distinct, disjoint_ranges in *. repeat split; [done|done|]. lia.
      * rewrite Hi. unfold fill. cbn [foldl]. rewrite Ef. f_equal. by destruct Hs1.
      * intros e0 He0 Hd. apply Forall_cons in Hd as [_ Hd]. by apply Hfr'.
Qed.

(** A round of CheckNextHashRO: it does not get past an item that it finds. *)
Lemma check_next es : forall fuel c,
  Forall well_read es -> Forall (in_place c) es -> Forall (loaded c) es -> run_client c \/ wait_client c ->
  (CheckNextHashRO cfg fuel (map en_res es) c = OutOfFuel /\ ((length es < fuel)%nat -> ~ Forall missing es)) \/
  (exists c', CheckNextHashRO cfg fuel (map en_res es) c = Ok (false, c') /\ Exists ended es /\ c_items c' = c_items c) \/
  (exists c', CheckNextHashRO cfg fuel (map en_res es) c = Ok (true, c') /\ Forall missing es /\
     round c c' es /\ same_sets c c').
Proof using Hnet.
  induction es as [|e es IH]; intros [|fuel] c Hwr Hpl Hld Hn; try (left; split; [done|cbn [length]; lia]).
  { right. right. exists c. split; [done|]. split; [done|]. split; [|done]. split; [done|by intros [?|?]|done| |done].
    exists []. rewrite app_nil_r. by split. }
  apply Forall_cons in Hwr as [Hw Hwr]. apply Forall_cons in Hpl as [Hp Hpl]. apply Forall_cons in Hld as [Hl Hld].
  destruct Hp as (x & Hx & Hpp). destruct (en_found e) as [item|] eqn:Ef.
  { left. cbn [map]. split; [by apply (CheckNext_stuck cfg (S fuel) c (en_res e) _ x (en_it e) (en_node e) item)|].
    intros _ Hm. apply Forall_cons in Hm as [Hm _]. unfold missing in Hm. congruence. }
  assert (CheckNextHashRO cfg (S fuel) (map en_res (e :: es)) c =
    if HashStore.next (en_node e) =? 0 then Ok (false, c)
    else
      r ← issue_read cfg (hr_qp (en_res e)) (hr_buf (en_res e)) (next_offset (en_node e) (hr_meta (en_res e)))
            HashNodeSize c;
      if negb (fst r) then Ok (false, snd r) else CheckNextHashRO cfg fuel (map en_res es) (snd r)) as ->.
  { cbn [map CheckNextHashRO]. rewrite Hl, Hx. cbn [mbind outcome_bind snd].
    change (find (found (en_it e)) (data_items (en_node e))) with (en_found e). by rewrite Ef. }
  destruct (Z.eqb_spec (HashStore.next (en_node e)) 0) as [Hz|Hz].
  { right. left. exists c. split; [done|]. split; [|done]. left. by split. }
  destruct (issue_next c e Hw Hz Hn) as (c1 & t & -> & Hw1 & Hs1 & Hl1 & Ht1 & Hc1).
  cbn [mbind outcome_bind fst snd negb].
  destruct (IH fuel c1) as [[Ho Hm]|[(c' & -> & Hex & Hi)|(c' & -> & Hm & Hr & Hs)]]; try done.
  { eapply Forall_impl; [exact Hpl|]. intros e'. by apply in_place_sets. }
  { eapply Forall_impl; [exact Hld|]. intros e' He'. unfold loaded, load_node in *. by rewrite Hl1. }
  { by right. }
  - left. split; [done|]. cbn [length]. intros Hf [_ Hms]%Forall_cons. apply Hm; [lia|done].
  - right. left. exists c'. split; [done|]. split; [by right|]. destruct Hs1. congruence.
  - right. right. exists c'. split; [done|]. split; [by constructor|].
    assert (same_sets c c') as Hsame by (destruct Hs1, Hs; split; congruence). split; [|done].
    destruct Hr as [R1 R2 R3 (ts & R4 & R5) R6]. split; try done.
    + intros _. apply R2. by left.
    + by constructor.
    + exists (t :: ts). rewrite R4, Ht1, <- app_assoc. split; [done|]. by constructor.
    + constructor; [|done]. apply (in_place_sets c); [done|]. by exists x.
Qed.

(** After a round the reads of the next nodes are under way. *)
Lemma round_reading c c' es :
  round c c' es -> es <> [] -> c_transfers c = [] -> Forall well_read es -> separate es ->
  reading_all c' (map next_entry es).
Proof using.
  intros [_ R2 R3 (ts & R4 & R5) R6] Hne Ht Hw Hsep. rewrite Ht in R4. split.
  - apply R2. by right.
  - by rewrite R4.
  - by apply List.Forall_map.
  - apply List.Forall_map. rewrite Forall_forall in *. intros e He. apply well_read_next; auto.
  - by apply separate_next.
Qed.

(** The rounds of CheckReadRO over a set of reads never succeed; they report an
    absent item, and do so for certain when no item of the set is there. *)
Lemma rounds_verdict fuel : forall es c,
  es <> [] -> reading_all c es ->
  (next_rounds cfg memory others fuel (map en_res es) c = OutOfFuel /\
     forall e, e ∈ es -> (length (en_rest e) + length es + 1 < fuel)%nat -> ~ Forall absent es) \/
  (exists c', next_rounds cfg memory others fuel (map en_res es) c = Ok (false, c') /\ Exists absent es /\
     c_items c' = c_items c).
Proof using Hnet.
  induction fuel as [|fuel IH]; intros es c Hne Hra; [left; split; [done|intros; lia]|].
  destruct (await_all c es Hra) as (c1 & Haw & [A1 A2 A3 A4 A5 A6] & [_ Hs]). cbn [next_rounds]. rewrite Haw.
  assert (forall A (x y : A), match map en_res es with [] => x | _ => y end = y) as Hcase.
  { intros A x y. by destruct es. }
  rewrite Hcase. cbn [mbind outcome_bind].
  destruct (check_next es fuel c1 A5 A4 A3 ltac:(by left)) as [[-> Hm]|[(c' & -> & Hex & Hi)|(c' & -> & Hm & Hr & [_ Hi])]];
    cbn [mbind outcome_bind fst snd negb].
  - left. split; [done|]. intros e He Hf Hab. apply Hm; [lia|]. eapply Forall_impl; [exact Hab|]. apply absent_missing.
  - right. exists c'. split; [done|]. split; [|congruence]. apply Exists_exists in Hex as (e & He & Hend).
    apply Exists_exists. exists e. split; [done|]. rewrite Forall_forall in A5. by apply ended_absent; auto.
  - pose proof (rn_next _ _ _ Hr) as Hnx. rewrite Forall_forall in A5, Hm, Hnx.
    assert (forall e, e ∈ es -> absent (next_entry e) <-> absent e) as Hab by (intros; apply absent_next; auto).
    destruct (IH (map next_entry es) c') as [[Ho Hf]|(c2 & Ho & Hex & Hi2)].
    { by destruct es. }
    { apply (round_reading c1); try done. by apply Forall_forall. }
    + rewrite next_reads in Ho. left. split; [done|]. intros e He Hlt Hall.
      apply (Hf (next_entry e)); [by apply list_elem_of_fmap_2| |].
      * destruct (well_read_next e (A5 e He) (Hnx e He)) as (_ & ? & _). rewrite length_map. lia.
      * apply List.Forall_map, Forall_forall. intros e' He'. rewrite Forall_forall in Hall. by apply Hab, Hall.
    + rewrite next_reads in Ho. right. exists c2. split; [done|]. split; [|congruence].
      apply Exists_exists in Hex as (e' & He' & Hae). apply list_elem_of_fmap in He' as (e & -> & He).
      apply Exists_exists. exists e. split; [done|]. by apply Hab.
Qed.

(** ** CheckReadRO on a set of arrived nodes *)

Lemma kept_sublist es : kept es `sublist_of` es.
Proof. apply sublist_filter. Qed.

Lemma kept_Forall (P : entry -> Prop) es : Forall P es -> Forall P (kept es).
Proof.
  rewrite !Forall_forall. intros HP e He. apply HP. by apply list_elem_of_filter in He as [_ ?].
Qed.

Lemma check_reads_verdict es c fuel :
  arrived_all c es ->
  let r := CheckReadRO cfg memory others fuel [] (map en_res es) [] c in
  (r = OutOfFuel /\ (fuel = O \/ kept es <> [] /\
     forall e, e ∈ kept es -> (length (en_rest e) + length es + 1 < fuel)%nat -> ~ Forall absent (kept es))) \/
  (exists c', r = Ok (false, c') /\ Exists absent es) \/
  (exists c', r = Ok (true, c') /\ kept es = [] /\ c_items c' = fill es (c_items c)).
Proof using Hnet.
  intros [A1 A2 A3 A4 A5 A6]. unfold CheckReadRO. cbn [CheckDirectRO mbind outcome_bind negb].
  destruct (check_hash es [] c A6 A5 A4 A3 ltac:(by left)) as [(nx & c' & -> & Hex)|(c' & -> & Hr & Hi & _)];
    cbn [mbind outcome_bind negb app].
  { right. left. exists c'. split; [done|]. apply Exists_exists in Hex as (e & He & Hend).
    apply Exists_exists. exists e. split; [done|]. rewrite Forall_forall in A5. by apply ended_absent; auto. }
  destruct (decide (kept es = [])) as [Ek|Hne].
  { rewrite Ek. destruct fuel as [|fuel]; [left; split; [done|by left]|]. right. right. by exists c'. }
  pose proof (kept_Forall _ _ A5) as Hwr. pose proof (separate_sub _ _ (kept_sublist es) A6) as Hsep.
  pose proof (round_reading c c' (kept es) Hr Hne A2 Hwr Hsep) as Hra.
  assert (Forall missing (kept es)) as Hm by (apply Forall_forall; intros e He; by apply list_elem_of_filter in He as [? _]).
  pose proof (rn_next _ _ _ Hr) as Hnx. rewrite Forall_forall in Hwr, Hm, Hnx.
  assert (forall e, e ∈ kept es -> absent (next_entry e) <-> absent e) as Hab by (intros; apply absent_next; auto).
  destruct (rounds_verdict fuel (map next_entry (kept es)) c') as [[Ho Hf]|(c2 & Ho & Hex & _)]; [by destruct (kept es)|done| |].
  - rewrite next_reads in Ho. left. split; [done|]. right. split; [done|]. intros e He Hlt Hall.
    apply (Hf (next_entry e)); [by apply list_elem_of_fmap_2| |].
    + destruct (well_read_next e (Hwr e He) (Hnx e He)) as (_ & ? & _). rewrite length_map.
      pose proof (sublist_length _ _ (kept_sublist es)). lia.
    + apply List.Forall_map, Forall_forall. intros e' He'. rewrite Forall_forall in Hall. by apply Hab, Hall.
  - rewrite next_reads in Ho. right. left. exists c2. split; [done|].
    apply Exists_exists in Hex as (e' & He' & Hae). apply list_elem_of_fmap in He' as (e & -> & He).
    apply Exists_exists. exists e. split; [by eapply elem_of_sublist, kept_sublist|by apply Hab].
Qed.

(** ** Issuing the reads of a set *)

(** The client knows the server of the member, and has no address of its item. *)
Record known c (mb : member) : Prop := {
  kn_new : is_fetched (mb_x mb) = false /\ offset (mb_x mb) = NOT_FOUND;
  kn_item : c_items c !! item_ptr (mb_x mb) = Some (mb_it mb);
  kn_node : GetPrimaryNodeID (global_meta_man cfg) (di_table_id (mb_it mb)) = Ok (mb_node mb);
  kn_meta : GetPrimaryHashMetaWithTableID (global_meta_man cfg) (di_table_id (mb_it mb)) =
    Ok (meta_of_table (mb_st mb));
  kn_qp : GetRemoteDataQPWithNodeID cfg (mb_node mb) = Ok (mb_qp mb);
  kn_serves : serves memory (mb_qp mb) (mb_st mb) (mb_heap mb);
  kn_table : exists param L, table_of (mb_st mb) param (mb_heap mb) L (mb_map mb) (di_table_id (mb_it mb));
  kn_key : is_key (mb_key mb);
}.

(** The entry that reads the first node of the member's bucket. *)
Record entry_of (mb : member) e : Prop := {
  eo_ptr : en_ptr e = item_ptr (mb_x mb);
  eo_it : en_it e = mb_it mb;
  eo_heap : en_heap e = mb_heap mb;
  eo_node : mb_heap mb !! mb_bucket mb = Some (en_node e);
  eo_rest : (length (en_rest e) < heap_fuel (mb_heap mb))%nat;
  eo_map : mb_map mb !! mb_key mb = find (found (mb_it mb)) (en_slots e);
}.

(** The body of the loop for one member. *)
Lemma issue_member c mb i hash :
  known c mb -> reader_set c !! i = Some (mb_x mb) -> run_client c \/ wait_client c ->
  exists e c' t, IssueReader_item cfg i [] hash c = Ok (true, [], hash ++ [en_res e], c') /\
    entry_of mb e /\ well_read e /\ hr_item (en_res e) = i /\ coming e t /\
    c_transfers c' = c_transfers c ++ [t] /\ wait_client c' /\ c_items c' = c_items c /\
    reader_set c' = <[i := set_node (mb_node mb) (mb_x mb)]> (reader_set c) /\
    (hr_buf (en_res e), c_alloc c') = Alloc (c_alloc c) HashNodeSize.
Proof using Hnet.
  intros [[Hfx Hoff] Hit Hnode Hmeta Hqp Hs (param & L & Htb) Hk] Hx Hn.
  destruct (bucket_search _ _ _ _ _ (mb_it mb) Htb Hk) as (n & l & Hh & Hc & Hlen & Hm).
  destruct (bucket_agrees memory _ _ _ Hs (mb_key mb)) as (off & Hoff' & Haddr).
  unfold IssueReader_item, reader_item. rewrite Hx. cbn [deref mbind outcome_bind]. rewrite Hit.
  cbn [deref mbind outcome_bind]. rewrite Hfx, Hnode. cbn [mbind outcome_bind]. rewrite Hqp.
  cbn [mbind outcome_bind]. rewrite Hoff, Z.eqb_refl, Hmeta. cbn [negb mbind outcome_bind].
  rewrite Hoff'. cbn [mbind outcome_bind]. unfold Alloc_buf. cbn [c_alloc upd_readers].
  destruct (Alloc (c_alloc c) HashNodeSize) as [buf a] eqn:Ea.
  match goal with |- context [issue_read cfg ?q buf off HashNodeSize ?c1] =>
    destruct (issue_read_spec cfg others run wait c1 q buf off HashNodeSize Hn) as (s & e1 & -> & Hw) end.
  cbn [mbind outcome_bind fst snd negb].
  eexists (MkEntry (MkHashRead (mb_qp mb) i buf (mb_node mb) (meta_of_table (mb_st mb))) (item_ptr (mb_x mb)) (mb_it mb)
    (mb_st mb) (mb_heap mb) n l), _, _. split; [done|]. split; [by split|]. split; [by split|].
  split; [done|]. split; [|done]. eexists. split; [done|]. cbn [hr_qp en_res en_node].
  by rewrite (fetch_node _ _ _ _ Hs), Haddr, Hh.
Qed.

Lemma known_items c c' mb : c_items c' = c_items c -> known c mb -> known c' mb.
Proof using. intros Hi [? Hit ? ? ? ? ? ?]. split; try done. by rewrite Hi. Qed.

(** What the loop of IssueReader leaves, for the members from the index [i] on. *)
Record issued c c' (i : nat) (mbs : list member) (es : list entry) : Prop := {
  is_of : Forall2 entry_of mbs es;
  is_well : Forall well_read es;
  is_members : map (fun e => hr_item (en_res e)) es = seq i (length mbs);
  is_transfers : exists ts, c_transfers c' = c_transfers c ++ ts /\ Forall2 coming es ts;
  is_wait : wait_client c \/ mbs <> [] -> wait_client c';
  is_items : c_items c' = c_items c;
  is_place : Forall (in_place c') es;
  is_buffers : map buffer_of es = fst (Alloc_all (c_alloc c) (replicate (length mbs) HashNodeSize));
}.

Lemma issue_loop mbs : forall xs hash c,
  reader_set c = xs ++ map mb_x mbs -> Forall (known c) mbs -> run_client c \/ wait_client c ->
  exists es c' xs', IssueReader_loop cfg (length mbs) (length xs) [] hash c =
      Ok (true, [], hash ++ map en_res es, c') /\
    reader_set c' = xs ++ xs' /\ issued c c' (length xs) mbs es.
Proof using Hnet.
  induction mbs as [|mb mbs IH]; intros xs hash c Hset Hkn Hn.
  { exists [], c, []. cbn [length IssueReader_loop map]. rewrite !app_nil_r in *. repeat (split; [done|]). split; try done.
    - exists []. by rewrite app_nil_r.
    - by intros [?|?]. }
  apply Forall_cons in Hkn as [Hk Hkn]. cbn [map] in Hset.
  assert (reader_set c !! length xs = Some (mb_x mb)) as Hx by (rewrite Hset; by apply list_lookup_middle).
  destruct (issue_member c mb (length xs) hash Hk Hx Hn)
    as (e & c1 & t & Hi & He & Hw & Hm & Hcm & Ht & Hw1 & Hits & Hset1 & Ha).
  cbn [length IssueReader_loop]. rewrite Hi. cbn [mbind outcome_bind negb].
  set (x' := set_node (mb_node mb) (mb_x mb)) in *.
  assert (reader_set c1 = (xs ++ [x']) ++ map mb_x mbs) as Hset1'.
  { rewrite Hset1, Hset, insert_app_r_alt, Nat.sub_diag by lia. by rewrite <- app_assoc. }
  destruct (IH (xs ++ [x']) (hash ++ [en_res e]) c1 Hset1') as (es & c' & xs' & Hl & Hset' & [I1 I2 I3 I4 I5 I6 I7 I8]).
  { eapply Forall_impl; [exact Hkn|]. intros mb'. by apply known_items. }
  { by right. }
  rewrite length_app, Nat.add_1_r in *. exists (e :: es), c', (x' :: xs'). cbn [map]. rewrite <- app_assoc in Hl, Hset'. cbn [app] in Hl, Hset'.
  split; [done|]. split; [done|]. destruct I4 as (ts & Ht' & Hts). split; try by constructor.
  - cbn [map length seq]. by rewrite Hm, I3.
  - exists (t :: ts). rewrite Ht', Ht, <- app_assoc. split; [done|]. by constructor.
  - intros _. apply I5. by left.
  - congruence.
  - constructor; [|done]. exists x'. destruct He as [Hp Hit _ _ _ _]. rewrite Hp, Hit. split; [|done].
    unfold reader_item. rewrite Hm, Hset'. rewrite list_lookup_middle by done. cbn [deref mbind outcome_bind].
    rewrite I6, Hits. change (item_ptr x') with (item_ptr (mb_x mb)). by rewrite (kn_item _ _ Hk).
  - cbn [map length replicate Alloc_all]. rewrite <- Ha. unfold buffer_of at 1. rewrite I8.
    by destruct (Alloc_all (c_alloc c1) _).
Qed.

(** A set of lookups that the client is about to issue. *)
Record wanted c (mbs : list member) : Prop := {
  wt_run : run_client c;
  wt_transfers : c_transfers c = [];
  wt_readers : reader_set c = map mb_x mbs;
  wt_items : NoDup (map (fun mb => item_ptr (mb_x mb)) mbs);
  wt_known : Forall (known c) mbs;
  wt_buffers : wf_buffer (c_alloc c);
  wt_room : 2 * (Z.of_nat (length mbs) * HashNodeSize) <= end_ (c_alloc c) - start (c_alloc c);
}.

Lemma zsum_replicate n x : zsum (replicate n x) = Z.of_nat n * x.
Proof using. induction n as [|n IH]; [done|]. cbn [replicate zsum foldr] in *. unfold zsum in *. cbn [foldr]. lia. Qed.

Lemma members_separate mbs es c c' i :
  issued c c' i mbs es -> NoDup (map (fun mb => item_ptr (mb_x mb)) mbs) -> wf_buffer (c_alloc c) ->
  2 * (Z.of_nat (length mbs) * HashNodeSize) <= end_ (c_alloc c) - start (c_alloc c) -> separate es.
Proof using.
  intros [I1 _ I3 _ _ _ _ I8] Hnd Hwf Hroom. split.
  - rewrite I3. apply NoDup_ListNoDup, seq_NoDup.
  - assert (map en_ptr es = map (fun mb => item_ptr (mb_x mb)) mbs) as ->; [|done].
    clear - I1. induction I1 as [|mb e mbs es [Hp _ _ _ _ _] _ IH]; [done|]. cbn [map]. by rewrite Hp, IH.
  - rewrite I8. eapply Alloc_all_half; [done| |by rewrite zsum_replicate].
    apply Forall_replicate. rewrite HashNodeSize_15848. lia.
Qed.

(** The reads of the set are issued and arrive. *)
Lemma issue_and_await mbs c :
  wanted c mbs -> mbs <> [] ->
  exists es c1 c2, IssueReader cfg [] [] c = Ok (true, [], map en_res es, c1) /\
    await cfg memory others c1 = Ok c2 /\ arrived_all c2 es /\ Forall2 entry_of mbs es /\ c_items c2 = c_items c.
Proof using Hnet.
  intros [W1 W2 W3 W4 W5 W6 W7] Hne.
  destruct (issue_loop mbs [] [] c W3 W5 ltac:(by left)) as (es & c1 & xs' & Hl & _ & Hi).
  unfold IssueReader. rewrite W3, length_map. exists es, c1. 
  pose proof (members_separate _ _ _ _ _ Hi W4 W6 W7) as Hsep. destruct Hi as [I1 I2 I3 (ts & I4 & I4') I5 I6 I7 I8].
  destruct (await_all c1 es) as (c2 & Haw & Har & [_ Hs]).
  { split; [apply I5; by right|by rewrite I4, W2|done..]. }
  exists c2. repeat (split; [done|]). congruence.
Qed.

Lemma entry_absent mb e : entry_of mb e -> absent e <-> ~ in_map mb.
Proof using.
  intros [_ Hit _ _ _ Hm]. unfold absent, in_map. rewrite Hm, Hit.
  destruct (find _ _); split; try done. intros Hn. by destruct Hn.
Qed.

Lemma entry_found mb e : entry_of mb e ->
  (forall item, en_found e = Some item -> in_first mb /\ mb_map mb !! mb_key mb = Some item) /\
  (missing e -> ~ in_first mb).
Proof using.
  intros [_ Hit Hh Hn _ Hm]. unfold en_found, missing, in_first, node_items. rewrite Hn, Hm. unfold en_found. rewrite Hit.
  split.
  - intros item Hf. assert (find (found (mb_it mb)) (en_slots e) = Some item) as E1.
    { unfold en_slots. revert Hf. induction (data_items (en_node e)) as [|y ys IH]; cbn [find app]; [done|].
      by destruct (found (mb_it mb) y). }
    split; [|done]. exists item. split; [done|].
    apply find_split in Hf as (l1 & l2 & -> & _). apply elem_of_app. right. constructor.
  - intros Hno (item & Hs & Hin). destruct (found_present _ _ _ _ _ Hs) as (Hf & _ & _).
    rewrite (Hf Hin) in Hno. done.
Qed.

Lemma members_found mbs es items :
  Forall2 entry_of mbs es -> kept es = [] -> separate es ->
  Forall (fun mb => items !! item_ptr (mb_x mb) = Some (mb_it mb)) mbs ->
  Forall (fun mb => in_first mb /\ fill es items !! item_ptr (mb_x mb) = mb_map mb !! mb_key mb) mbs.
Proof using.
  intros Hall Hk Hsep Hit. apply Forall_forall. intros mb Hmb.
  destruct (Forall2_in_l _ _ _ _ Hall Hmb) as (e & He & Heo).
  rewrite Forall_forall in Hit. specialize (Hit mb Hmb). destruct (entry_found mb e Heo) as [Hf _].
  destruct (en_found e) as [item|] eqn:Ef.
  - destruct (Hf item eq_refl) as [H1 H2]. split; [done|]. rewrite <- (eo_ptr _ _ Heo), H2.
    rewrite fill_lookup by (try done; rewrite (eo_ptr _ _ Heo); by eapply lookup_lt_Some). by rewrite Ef.
  - assert (e ∈ kept es) as Hin by by apply list_elem_of_filter. rewrite Hk in Hin. by apply not_elem_of_nil in Hin.
Qed.

Lemma members_exist (P : entry -> Prop) (Q : member -> Prop) mbs es :
  Forall2 entry_of mbs es -> (forall mb e, entry_of mb e -> P e -> Q mb) -> Exists P es -> Exists Q mbs.
Proof using.
  intros Hall HPQ Hex. induction Hall as [|mb e mbs es He _ IH]; [by apply Exists_nil in Hex|].
  apply Exists_cons in Hex as [Hp|Hex]; [left; by eapply HPQ|right; by apply IH].
Qed.

Lemma kept_absent mbs es :
  Forall2 entry_of mbs es -> Forall (fun mb => in_map mb -> in_first mb) mbs -> Forall absent (kept es).
Proof using.
  intros Hall Hf. apply Forall_forall. intros e [Hm He]%list_elem_of_filter.
  destruct (Forall2_in_r _ _ _ _ Hall He) as (mb & Hmb & Heo). apply (entry_absent mb e Heo).
  rewrite Forall_forall in Hf. intros Hin. by apply (proj2 (entry_found mb e Heo) Hm), Hf.
Qed.

Lemma in_first_map mb : in_first mb -> in_map mb.
Proof using. intros (item & Hi & _). by exists item. Qed.

(** The outcomes of the whole lookup. *)
Lemma set_outcome mbs c :
  wanted c mbs -> mbs <> [] ->
  exists es c2, Forall2 entry_of mbs es /\ arrived_all c2 es /\ c_items c2 = c_items c /\
    forall fuel, read_sets cfg memory others fuel c =
      (r ← CheckReadRO cfg memory others fuel [] (map en_res es) [] c2; Ok (Some (fst r), snd r)).
Proof using Hnet.
  intros Hw Hne. destruct (issue_and_await mbs c Hw Hne) as (es & c1 & c2 & Hiss & Haw & Har & Hall & Hits).
  exists es, c2. repeat (split; [done|]). intros fuel. unfold read_sets. rewrite Hiss.
  cbn [mbind outcome_bind negb]. by rewrite Haw.
Qed.

Lemma set_verdict mbs c fuel :
  wanted c mbs -> mbs <> [] ->
  match read_sets cfg memory others fuel c with
  | Ok (Some true, c') => Forall (fun mb => in_first mb /\ c_items c' !! item_ptr (mb_x mb) = mb_map mb !! mb_key mb) mbs
  | Ok (Some false, _) => Exists (fun mb => ~ in_map mb) mbs
  | OutOfFuel => True
  | _ => False
  end.
Proof using Hnet.
  intros Hw Hne. destruct (set_outcome mbs c Hw Hne) as (es & c2 & Hall & Har & Hits & ->).
  destruct (check_reads_verdict es c2 fuel Har) as [[-> _]|[(c' & -> & Hex)|(c' & -> & Hk & Hi)]];
    cbn [mbind outcome_bind fst snd]; [done| |].
  - eapply members_exist; [done| |done]. intros mb e He. by apply entry_absent.
  - rewrite Hi, Hits. apply members_found; [done|done|apply Har|].
    eapply Forall_impl; [apply (wt_known _ _ Hw)|]. intros mb Hk'. apply Hk'.
Qed.

Lemma set_returns mbs c fuel :
  wanted c mbs -> mbs <> [] -> Forall (fun mb => in_map mb -> in_first mb) mbs ->
  Forall (fun mb => heap_fuel (mb_heap mb) + length mbs < fuel)%nat mbs ->
  read_sets cfg memory others fuel c <> OutOfFuel.
Proof using Hnet.
  intros Hw Hne Hfirst Hfuel. destruct (set_outcome mbs c Hw Hne) as (es & c2 & Hall & Har & _ & ->).
  pose proof (kept_absent _ _ Hall Hfirst) as Hab.
  destruct (check_reads_verdict es c2 fuel Har) as [[_ Hno]|[(c' & -> & _)|(c' & -> & _)]]; [|done..].
  rewrite Forall_forall in Hfuel. exfalso. destruct Hno as [->|[Hk Hno]].
  - destruct mbs as [|mb mbs]; [done|]. pose proof (Hfuel mb ltac:(constructor)). lia.
  - destruct (kept es) as [|e ks] eqn:Ek; [done|]. apply (Hno e); [constructor| |done].
    assert (e ∈ es) as He by (eapply elem_of_sublist, kept_sublist; rewrite Ek; constructor).
    destruct (Forall2_in_r _ _ _ _ Hall He) as (mb & Hmb & Heo). specialize (Hfuel mb Hmb).
    pose proof (eo_rest _ _ Heo). rewrite <- (Forall2_length _ _ _ Hall). lia.
Qed.

(** A lookup that returns, in terms of the maps. *)
Lemma set_answer mbs c fuel :
  wanted c mbs -> mbs <> [] -> Forall (fun mb => in_map mb -> in_first mb) mbs ->
  Forall (fun mb => heap_fuel (mb_heap mb) + length mbs < fuel)%nat mbs ->
  exists ok c', read_sets cfg memory others fuel c = Ok (Some ok, c') /\ (ok = true <-> Forall in_map mbs).
Proof using Hnet.
  intros Hw Hne Hfirst Hfuel. pose proof (set_verdict mbs c fuel Hw Hne) as Hv.
  pose proof (set_returns mbs c fuel Hw Hne Hfirst Hfuel) as Hret.
  destruct (read_sets cfg memory others fuel c) as [[[[|]|] c']| | |]; try done.
  - exists true, c'. split; [done|]. split; [|done]. intros _.
    eapply Forall_impl; [exact Hv|]. intros mb [? _]. by apply in_first_map.
  - exists false, c'. split; [done|]. split; [done|]. intros Hall. exfalso.
    apply Exists_exists in Hv as (mb & Hmb & Hno). rewrite Forall_forall in Hall. by apply Hno, Hall.
Qed.

(** C10. A lookup of several items, each in the store of its server, all read together.
    Whatever the check reports is right: if it reports success, every item was in
    the first node of its chain and the client holds what the maps hold; if it
    reports failure, some item is in no map. It returns, and never fails otherwise,
    when no item lies behind the first node of its chain; then success means that
    all items are there. When all items are there and one of them lies behind the
    first node, no amount of fuel is enough. *)
Theorem lookup_of_several (mbs : list member) c :
  wanted c mbs -> mbs <> [] ->
  (forall fuel, match read_sets cfg memory others fuel c with
   | Ok (Some true, c') => Forall (fun mb => in_first mb /\ c_items c' !! item_ptr (mb_x mb) = mb_map mb !! mb_key mb) mbs
   | Ok (Some false, _) => Exists (fun mb => ~ in_map mb) mbs
   | OutOfFuel => True
   | _ => False
   end) /\
  (Forall (fun mb => in_map mb -> in_first mb) mbs ->
   forall fuel, Forall (fun mb => heap_fuel (mb_heap mb) + length mbs < fuel)%nat mbs ->
   exists ok c', read_sets cfg memory others fuel c = Ok (Some ok, c') /\ (ok = true <-> Forall in_map mbs)) /\
  (Forall in_map mbs -> Exists (fun mb => ~ in_first mb) mbs ->
   forall fuel, read_sets cfg memory others fuel c = OutOfFuel).
Proof using Hnet.
  intros Hw Hne. split; [|split].
  - intros fuel. by apply set_verdict.
  - intros Hf fuel Hfuel. by apply set_answer.
  - intros Hin Hex fuel. pose proof (set_verdict mbs c fuel Hw Hne) as Hv.
    apply Exists_exists in Hex as (mb & Hmb & Hno). rewrite Forall_forall in Hin.
    destruct (read_sets cfg memory others fuel c) as [[[[|]|] c']| | |]; try done; exfalso.
    + rewrite Forall_forall in Hv. by apply Hno, Hv.
    + apply Exists_exists in Hv as (mb' & Hmb' & Hno'). by apply Hno', Hin.
Qed.
End Sets.

(** ** A concrete set, for the witness *)

(** Two reads: key 5 is in the store, key 6 is not. *)
Definition sample_member (i : nat) (key : Z) : member :=
  MkMember (MkDataSetItem i false NOT_FOUND (-1)) (empty_item 1 key) 0 7 sample_store item_heap (<[5 := item_a]> ∅).

Definition sample_members : list member := [sample_member 0 5; sample_member 1 6].

Definition sample_set : client fifo_nic :=
  MkClient (sched sample_thread) (nic sample_thread) (MkBufferAllocator 0 100000 0) ∅ [] new_AddrCache
    [empty_item 1 5; empty_item 1 6]
    [MkDataSetItem 0 false NOT_FOUND (-1); MkDataSetItem 1 false NOT_FOUND (-1)] [] [] [].

Lemma sample_known i key :
  is_key key -> c_items sample_set !! i = Some (empty_item 1 key) ->
  known sample_cfg sample_memory sample_set (sample_member i key).
Proof.
  intros Hk Hi. pose proof (sample_target NOT_FOUND) as [_ _ _ _ _ _ _ Hs]. split; try done.
  exists reserve_sample, (fresh_chains 8192 3). exact item_table.
Qed.

Lemma sample_wanted : wanted sample_cfg sample_memory (running 2 1) sample_set sample_members.
Proof.
  pose proof (sample_target NOT_FOUND) as [Hr _ _ _ _ _ _ _]. split; try done.
  - repeat constructor; set_solver.
  - constructor; [|constructor; [|constructor]]; apply sample_known; (unfold is_key; lia) || done.
Qed.

Lemma lookup_of_several_witness :
  exists ok c', read_sets sample_cfg sample_memory poll_others 100 sample_set = Ok (Some ok, c') /\
    (ok = true <-> Forall in_map sample_members).
Proof.
  apply (proj1 (proj2 (lookup_of_several sample_cfg sample_memory poll_others (running 2 1) (waiting 2 1)
    (Hnet := sample_network) sample_members sample_set sample_wanted ltac:(discriminate)))).
  - constructor; [|constructor; [|constructor]].
    + intros _. exists item_a. split; [done|]. vm_compute. constructor.
    + intros [i Hi]. done.
  - repeat constructor; apply Nat.leb_le; vm_compute; reflexivity.
Defined.
