(* ===== verification/EndToEnd.v ===== *)
(** The whole path of an item: the server loads the micro table, the client learns
    the table's place from the message, and its lookups read the server's memory. *)
From S2P Require Import Prelude Words Outcome Layout Hash Alloc Meta MetaTheorems Verbs Scheduler.
From S2P Require Import HashStore HashStoreRefine HashStoreTheorems Micro MicroTheorems Server ServerTheorems.
From S2P Require Import SchedulerFacts SchedulerInvariant SchedulerTheorems AddrCache Dmc DmcTheorems DmcSets.

(** ** The loaded table *)

Section Loaded.
Context (uninit : Z -> list Z) (bkt_num n : Z) (alloc : MemStoreAllocParam) (st : HashStore).
Context (reserve : MemStoreReserveParam) (h : heap) (L : list (list Z)) (m : gmap Z DataItem).
Context (Halloc : valid_alloc bkt_num alloc) (Hn : 0 <= n < 2 ^ 64).
Context (Hload : table_loaded uninit bkt_num n alloc st reserve h L m) (Hzero : above 0 h).

Lemma loaded_serves (memory : Z -> Z * heap) qp :
  memory qp = (mem_region_start alloc, h) -> serves memory qp st h.
Proof using Halloc Hload Hzero.
  intros Hmem. destruct Hload as [(_ & (_ & Hend & Hdom) & _) _ _ [_ Hb] Hr Hd Hbase].
  destruct Halloc as (Hb0 & Hreg & _ & _ & _ & Hfit). rewrite HashNodeSize_15848 in *. split.
  - by rewrite Hr.
  - done.
  - rewrite Hr, Hd. lia.
  - by rewrite Hb.
  - rewrite Hd, Hb, HashNodeSize_15848. lia.
  - intros a Ha. pose proof (Hzero a Ha). pose proof (Hdom a Ha). lia.
Qed.

(** An item of a chain is an item of the memory. *)
Lemma slot_read l y : y ∈ slots h l -> exists ptr, read_item h ptr = Some y.
Proof using.
  intros Hy. unfold slots in Hy. apply list_elem_of_In, in_concat in Hy as (ys & Hys & Hy).
  apply in_map_iff in Hys as (a & <- & _). apply list_elem_of_In, list_elem_of_lookup in Hy as [j Hj].
  unfold node_items in Hj. exists (a, j). unfold read_item. cbn [fst snd].
  destruct (h !! a); [done|by rewrite lookup_nil in Hj].
Qed.

Lemma loaded_table_of : table_of st reserve h L m kMicroTable.
Proof using Hload.
  split; [apply Hload|]. intros l _. unfold of_table. apply Forall_forall. intros y Hy Hv.
  apply slot_read in Hy as [ptr Hp]. by apply (tl_addressed _ _ _ _ _ _ _ _ _ Hload ptr y Hp).
Qed.

Lemma loaded_in_map key : is_key key -> is_Some (m !! key) <-> key < n.
Proof using Hload.
  intros Hk. destruct (tl_loaded _ _ _ _ _ _ _ _ _ Hload key Hk) as [H1 H2]. split.
  - intros [i Hi]. destruct (Z.lt_ge_cases key n) as [|Hge]; [done|]. rewrite (H2 Hge) in Hi. done.
  - intros Hlt. destruct (H1 Hlt) as [off Hoff]. by exists (micro_record (uninit key) key off).
Qed.

(** The server finds the key in the first node of its bucket, or nowhere. *)
Definition near (key : Z) : bool :=
  match LocalGet st key h with
  | Ok (Some ptr) => fst ptr =? bucket_address st (GetHash st key)
  | _ => true
  end.

Lemma near_first key :
  is_key key -> near key = true -> is_Some (m !! key) ->
  exists item, m !! key = Some item /\ item ∈ node_items h (bucket_address st (GetHash st key)).
Proof using Hload.
  intros Hk Hnear [i Hi]. pose proof (tl_inv _ _ _ _ _ _ _ _ _ Hload) as Hinv. unfold near in Hnear.
  destruct (LocalGet_lemma st reserve h L m Hinv key Hk)
    as [[_ Hnone]|(l & ptr & pre & item & post & E & Hsome & _ & _ & Hloc & _)]; [congruence|].
  rewrite E in Hnear. apply Z.eqb_eq in Hnear. exists item. split; [done|].
  destruct Hloc as (_ & nd & _ & _ & Hnd & Hitem & _). unfold node_items. rewrite <- Hnear, Hnd.
  by eapply list_elem_of_lookup_2.
Qed.

(** The metadata of the table fits its message. *)
Lemma loaded_meta : wf_meta (meta_of_table st).
Proof using Halloc Hload.
  destruct Hload as [_ _ _ [Ht Hb] Hr Hd Hbase]. destruct Halloc as (Hb0 & Hreg & Hd0 & _ & _ & Hfit).
  unfold wf_meta, meta_of_table, new_HashMeta. cbn [hm_table_id hm_data_ptr hm_base_off hm_bucket_num hm_node_size].
  rewrite Ht, Hbase, Hb, Hd, Hr, HashNodeSize_15848 in *. unfold kMicroTable. lia.
Qed.
End Loaded.

(** What the client knows after a message with one table. *)
Lemma one_table_message mid st rest :
  - 2 ^ 31 <= mid < MAX_REMOTE_NODE_NUM -> wf_meta (meta_of_table st) ->
  exists meta, GetMemStoreMeta (client_message mid [meta_of_table st] [] ++ rest) new_MetaManager = Ok (mid, meta) /\
    GetPrimaryHashMetaWithTableID meta (hs_table_id st) = Ok (meta_of_table st) /\
    GetPrimaryNodeID meta (hs_table_id st) = Ok mid.
Proof.
  intros Hmid Hwf. eexists. split.
  - apply GetMemStoreMeta_client_message; [done|cbn; lia|by constructor|constructor..|by split].
  - unfold GetPrimaryHashMetaWithTableID, GetPrimaryNodeID.
    destruct (foldl_add_primary_lookup mid [meta_of_table st] new_MetaManager (meta_of_table st)) as [H1 H2].
    + by apply NoDup_singleton.
    + constructor.
    + cbn [foldl] in *. change (hm_table_id (meta_of_table st)) with (hs_table_id st) in H1, H2. by rewrite H1, H2.
Qed.

(** ** Lookups of the client *)

Section Client.
Context {E : Type} `{Nic E} (cfg : dmc_config) (memory : Z -> Z * heap).
Context (others : CoroutineScheduler -> E -> CoroutineScheduler * E).
Context (run wait : CoroutineScheduler -> E -> Prop).
Context `{Hnet : !ReadNetwork (coro cfg) others run wait}.
Implicit Types c : client E.

(** A member of the set of reads whose address is not known. *)
Definition unknown_item (i : nat) : DataSetItem := MkDataSetItem i false NOT_FOUND (-1).

(** The client [c], which knows the tables of [meta] and the memory of the server
    [mid], is about to look up the keys in the micro table. *)
Record asks (meta : MetaManager) (mid qp region : Z) (h : heap) (keys : list Z) c : Prop := {
  as_meta : global_meta_man cfg = meta;
  as_qp : GetRemoteDataQPWithNodeID cfg mid = Ok qp;
  as_memory : memory qp = (region, h);
  as_run : run (c_sched c) (c_nic c);
  as_transfers : c_transfers c = [];
  as_items : c_items c = map (empty_item kMicroTable) keys;
  as_readers : reader_set c = map unknown_item (seq 0 (length keys));
  as_keys : keys <> [] /\ Forall is_key keys;
  as_buffers : wf_buffer (c_alloc c);
  as_room : 2 * (Z.of_nat (length keys) * HashNodeSize) <= end_ (c_alloc c) - start (c_alloc c);
}.

Definition key_member (mid qp : Z) (st : HashStore) (h : heap) (m : gmap Z DataItem) (i : nat) (key : Z) : member :=
  MkMember (unknown_item i) (empty_item kMicroTable key) mid qp st h m.

Definition key_members mid qp st h m (keys : list Z) : list member :=
  imap (key_member mid qp st h m) keys.

Lemma imap_index {A B} (f : nat -> B) (l : list A) k :
  imap (fun i _ => f (k + i)%nat) l = map f (seq k (length l)).
Proof using.
  revert k. induction l as [|x l IH]; intros k; [done|]. cbn [imap length seq map]. rewrite Nat.add_0_r. f_equal.
  rewrite <- (IH (S k)). apply imap_ext. intros i y _. cbn. f_equal. lia.
Qed.

Lemma key_members_lookup mid qp st h m keys i key :
  keys !! i = Some key -> key_members mid qp st h m keys !! i = Some (key_member mid qp st h m i key).
Proof using. intros Hi. unfold key_members. by rewrite list_lookup_imap, Hi. Qed.

Lemma key_members_Forall mid qp st h m keys (P : member -> Prop) :
  Forall P (key_members mid qp st h m keys) <->
  forall i key, keys !! i = Some key -> P (key_member mid qp st h m i key).
Proof using.
  rewrite Forall_lookup. unfold key_members. split.
  - intros HP i key Hi. apply (HP i). by rewrite list_lookup_imap, Hi.
  - intros HP i mb. rewrite list_lookup_imap. destruct (keys !! i) as [key|] eqn:Hi; [|done].
    intros [= <-]. by apply HP.
Qed.

Section Asking.
Context (uninit : Z -> list Z) (bkt_num n : Z) (alloc : MemStoreAllocParam) (st : HashStore).
Context (reserve : MemStoreReserveParam) (h : heap) (L : list (list Z)) (m : gmap Z DataItem).
Context (Halloc : valid_alloc bkt_num alloc).
Context (Hload : table_loaded uninit bkt_num n alloc st reserve h L m) (Hzero : above 0 h).
Context (meta : MetaManager) (mid qp : Z) (keys : list Z).
Context (Hmeta : GetPrimaryHashMetaWithTableID meta (hs_table_id st) = Ok (meta_of_table st)).
Context (Hnode : GetPrimaryNodeID meta (hs_table_id st) = Ok mid).

Abbreviation mbs := (key_members mid qp st h m keys).

Lemma asks_wanted c :
  asks meta mid qp (mem_region_start alloc) h keys c -> wanted cfg memory run c mbs.
Proof using Halloc Hload Hzero Hmeta Hnode.
  intros [A1 A2 A3 A4 A5 A6 A7 [A8 A9] A10 A11]. destruct (tl_table _ _ _ _ _ _ _ _ _ Hload) as [Ht _].
  rewrite Ht in *. split; try done.
  - rewrite A7. unfold key_members. rewrite <- (imap_index unknown_item keys 0). symmetry.
    exact (fmap_imap (key_member mid qp st h m) mb_x keys).
  - unfold key_members.
    assert (map (fun mb => item_ptr (mb_x mb)) (imap (key_member mid qp st h m) keys) = seq 0 (length keys)) as ->.
    { rewrite <- (map_id (seq 0 (length keys))), <- (imap_index (fun i => i) keys 0).
      exact (fmap_imap (key_member mid qp st h m) (fun mb => item_ptr (mb_x mb)) keys). }
    apply NoDup_ListNoDup, seq_NoDup.
  - apply key_members_Forall. intros i key Hi. rewrite Forall_forall in A9.
    assert (is_key key) as Hk by (apply A9; by eapply list_elem_of_lookup_2).
    split; cbn [mb_x mb_it mb_node mb_qp mb_st mb_heap mb_map key_member unknown_item is_fetched offset
      item_ptr empty_item di_table_id di_key]; try done.
    + rewrite A6. by apply (list_lookup_fmap_Some_2 (empty_item kMicroTable)).
    + by rewrite A1.
    + by rewrite A1.
    + by eapply loaded_serves.
    + exists reserve, L. by eapply loaded_table_of.
  - unfold key_members. by rewrite length_imap.
Qed.

(** The verdict of a lookup of [keys] whose members are known to the theorem on
    sets. *)
Lemma asked_verdict c fuel :
  asks meta mid qp (mem_region_start alloc) h keys c ->
  match read_sets cfg memory others fuel c with
  | Ok (Some true, c') => Forall (fun mb => in_first mb /\ c_items c' !! item_ptr (mb_x mb) = mb_map mb !! mb_key mb) mbs
  | Ok (Some false, _) => Exists (fun mb => ~ in_map mb) mbs
  | OutOfFuel => True
  | _ => False
  end ->
  match read_sets cfg memory others fuel c with
  | Ok (Some true, c') => forall i key, keys !! i = Some key ->
      key < n /\ exists off, c_items c' !! i = Some (micro_record (uninit key) key off)
  | Ok (Some false, _) => Exists (fun key => n <= key) keys
  | OutOfFuel => True
  | _ => False
  end.
Proof using Hload.
  intros [_ _ _ _ _ _ _ [_ A9] _ _]. rewrite Forall_forall in A9.
  destruct (read_sets cfg memory others fuel c) as [[[[|]|] c']| | |]; try done.
  - rewrite key_members_Forall. intros Hall i key Hi.
    assert (is_key key) as Hk by (apply A9; by eapply list_elem_of_lookup_2).
    destruct (Hall i key Hi) as [Hf Hit]. apply in_first_map in Hf.
    apply (loaded_in_map _ _ _ _ _ _ _ _ _ Hload key Hk) in Hf. split; [done|].
    destruct (tl_loaded _ _ _ _ _ _ _ _ _ Hload key Hk) as [H1 _]. destruct (H1 Hf) as [off Hoff].
    exists off. by rewrite <- Hoff.
  - intros Hex. apply Exists_exists in Hex as (mb & [i Hi]%list_elem_of_lookup & Hno).
    unfold key_members in Hi. rewrite list_lookup_imap in Hi.
    destruct (keys !! i) as [key|] eqn:Hk; [|done]. injection Hi as <-.
    apply list_elem_of_lookup_2 in Hk. apply Exists_exists. exists key. split; [done|].
    destruct (Z.lt_ge_cases key n) as [Hlt|]; [|lia]. exfalso. apply Hno.
    by apply (loaded_in_map _ _ _ _ _ _ _ _ _ Hload key (A9 key Hk)).
Qed.
(** Lookups in a loaded table, of a client that knows where the table is. *)
Definition lookups_answered (c : client E) : Prop :=
  (forall fuel, match read_sets cfg memory others fuel c with
   | Ok (Some true, c') => forall i key, keys !! i = Some key ->
       key < n /\ exists off, c_items c' !! i = Some (micro_record (uninit key) key off)
   | Ok (Some false, _) => Exists (fun key => n <= key) keys
   | OutOfFuel => True
   | _ => False
   end) /\
  (Forall (fun key => near st h key = true) keys -> forall fuel, (heap_fuel h + length keys < fuel)%nat ->
   exists ok c', read_sets cfg memory others fuel c = Ok (Some ok, c') /\
     (ok = true <-> Forall (fun key => key < n) keys)).

Lemma asked_answer c : asks meta mid qp (mem_region_start alloc) h keys c -> lookups_answered c.
Proof using Halloc Hload Hzero Hmeta Hnode Hnet.
  intros Hasks. pose proof (asks_wanted c Hasks) as Hw. pose proof (as_keys _ _ _ _ _ _ _ Hasks) as [Hkeys Hk].
  assert (mbs <> []) as Hne by by destruct keys.
  rewrite Forall_forall in Hk. split.
  - intros fuel. apply (asked_verdict c fuel Hasks). by apply (set_verdict cfg memory others run wait).
  - intros Hnear fuel Hfuel. rewrite Forall_forall in Hnear.
    assert (forall i key, keys !! i = Some key -> is_key key /\ near st h key = true) as Hof.
    { intros i key Hi%list_elem_of_lookup_2. auto. }
    destruct (set_answer cfg memory others run wait _ c fuel Hw Hne) as (ok & c' & Hr & Hok).
    + apply key_members_Forall. intros i key Hi. destruct (Hof i key Hi) as [Hk' Hn].
      by eapply near_first.
    + apply key_members_Forall. intros i key _. unfold key_members. rewrite length_imap. exact Hfuel.
    + exists ok, c'. split; [done|]. rewrite Hok, key_members_Forall, Forall_lookup. split; intros Hall i key Hi;
        destruct (Hof i key Hi) as [Hk' _]; apply (loaded_in_map _ _ _ _ _ _ _ _ _ Hload key Hk'); by apply (Hall i).
Qed.
End Asking.

(** From the server's memory to the client: the server loads the micro table into
    its empty region, the client parses a message with the table's metadata (in the
    format that it expects) and looks up any number of keys with one-sided reads.
    A lookup that succeeds delivers for every key the record that the server made
    for it, and a lookup that fails was asked for a key that is not in the table; the
    client never fails otherwise. It returns when no key lies behind the first node of
    its bucket, and then succeeds exactly if all keys are in the table. *)
Theorem load_then_lookup (uninit : Z -> list Z) (num_server bkt_num mid qp : Z) (mi : MICRO) (rest : list Z)
    (alloc : MemStoreAllocParam) (reserve : MemStoreReserveParam) :
  num_server <> 0 -> 0 <= num_keys_global mi < 2 ^ 64 ->
  valid_alloc bkt_num alloc -> valid_region (Z.to_nat (num_keys_global mi)) alloc reserve ∅ ->
  - 2 ^ 31 <= mid < MAX_REMOTE_NODE_NUM ->
  exists table alloc' reserve' h meta,
    LoadTable uninit 0 num_server bkt_num mi alloc reserve ∅ =
      Ok (MkMicro (num_keys_global mi) (Some table) (primary_table_ptrs mi ++ [table]), alloc', reserve', h) /\
    GetMemStoreMeta (client_message mid [meta_of_table table] [] ++ rest) new_MetaManager = Ok (mid, meta) /\
    forall keys c, asks meta mid qp (mem_region_start alloc) h keys c ->
      (forall fuel, match read_sets cfg memory others fuel c with
       | Ok (Some true, c') => forall i key, keys !! i = Some key ->
           key < num_keys_global mi /\ exists off, c_items c' !! i = Some (micro_record (uninit key) key off)
       | Ok (Some false, _) => Exists (fun key => num_keys_global mi <= key) keys
       | OutOfFuel => True
       | _ => False
       end) /\
      (Forall (fun key => near table h key = true) keys -> forall fuel, (heap_fuel h + length keys < fuel)%nat ->
       exists ok c', read_sets cfg memory others fuel c = Ok (Some ok, c') /\
         (ok = true <-> Forall (fun key => key < num_keys_global mi) keys)).
Proof using Hnet.
  intros Hns Hkeys Halloc Hreg Hmid.
  assert (blank ∅) as Hblank by (intros ptr x Hx; unfold read_item in Hx; by rewrite lookup_empty in Hx).
  destruct (LoadTable_lemma uninit num_server bkt_num mi alloc reserve ∅ Hns Hkeys Hblank Halloc Hreg)
    as (st & alloc' & reserve' & h & L & m & Hst & Hload & Hz & _).
  pose proof Halloc as (_ & _ & Hd0 & _). assert (above 0 h) as Hzero by (apply Hz; [lia|intros a Ha; by apply elem_of_empty in Ha]).
  destruct (one_table_message mid st rest Hmid (loaded_meta _ _ _ _ _ _ _ _ _ Halloc Hload))
    as (meta & Hmsg & Hmeta & Hnode).
  exists st, alloc', reserve', h, meta. split; [done|]. split; [done|]. intros keys c Hasks.
  exact (asked_answer uninit bkt_num _ alloc st reserve' h L m Halloc Hload Hzero meta mid qp keys Hmeta Hnode c Hasks).
Qed.

End Client.

(** ** A concrete table and client, for the witness *)

Definition loaded_server := LoadTable (fun _ => []) 0 2 3 micro_sample alloc_sample reserve_sample ∅.

Definition loaded_table : HashStore :=
  match loaded_server with Ok (mi, _, _, _) => default sample_store (micro_table mi) | _ => sample_store end.

Definition loaded_heap : heap := match loaded_server with Ok (_, _, _, h) => h | _ => ∅ end.

Definition loaded_message : list Z := client_message 1 [meta_of_table loaded_table] [] ++ [7; 7].

Definition loaded_cfg : dmc_config :=
  MkConfig 1 (match GetMemStoreMeta loaded_message new_MetaManager with Ok (_, m) => m | _ => new_MetaManager end)
    [None; Some 7] 2 false.

Definition loaded_memory : Z -> Z * heap := fun _ => (4096, loaded_heap).

Definition asking_client : client fifo_nic :=
  MkClient (sched sample_thread) (nic sample_thread) (MkBufferAllocator 0 100000 0) ∅ [] new_AddrCache
    (map (empty_item kMicroTable) [3; 5]) (map unknown_item [0%nat; 1%nat]) [] [] [].

(** The run of two lookups through the whole program. *)
Lemma load_then_lookup_witness :
  exists c' off, read_sets loaded_cfg loaded_memory poll_others 100 asking_client = Ok (Some true, c') /\
    c_items c' !! 1%nat = Some (micro_record [] 5 off).
Proof.
  destruct (load_then_lookup loaded_cfg loaded_memory poll_others (running 2 1) (waiting 2 1) (Hnet := sample_network)
    (fun _ => []) 2 3 1 7 micro_sample [7; 7] alloc_sample reserve_sample)
    as (table & alloc' & reserve' & h & meta & E1 & E2 & Hall).
  - lia.
  - vm_compute. split; [discriminate|reflexivity].
  - unfold valid_alloc, alloc_sample; simpl. rewrite HashNodeSize_15848. lia.
  - replace (num_keys_global micro_sample) with 8 by (vm_compute; reflexivity).
    unfold valid_region, alloc_sample, reserve_sample; simpl. rewrite HashNodeSize_15848.
    repeat split; try lia. intros a Ha. by apply elem_of_empty in Ha.
  - unfold MAX_REMOTE_NODE_NUM. lia.
  - assert (loaded_table = table) as Et by (unfold loaded_table, loaded_server; by rewrite E1).
    assert (loaded_heap = h) as Eh by (unfold loaded_heap, loaded_server; by rewrite E1).
    rewrite <- Et in E2.
    assert (global_meta_man loaded_cfg = meta) as Em.
    { unfold loaded_cfg, loaded_message. cbn [global_meta_man]. by rewrite E2. }
    destruct (Hall [3; 5] asking_client) as [Hv Hp].
    + split; [exact Em|reflexivity|unfold loaded_memory; by rewrite Eh| |reflexivity..| | |].
      * exact (tg_run _ _ _ _ _ _ _ _ _ _ (sample_target NOT_FOUND)).
      * split; [done|]. repeat constructor; unfold is_key; lia.
      * unfold wf_buffer. cbn. lia.
      * cbn [asking_client c_alloc start end_ length]. rewrite HashNodeSize_15848. lia.
    + rewrite <- Et, <- Eh in Hp.
      destruct (Hp ltac:(repeat constructor; vm_compute; reflexivity) 100%nat) as (ok & c' & Hr & Hok).
      { apply Nat.ltb_lt. vm_compute. reflexivity. }
      assert (ok = true) as ->.
      { apply Hok. repeat constructor; apply Z.ltb_lt; vm_compute; reflexivity. }
      specialize (Hv 100%nat). rewrite Hr in Hv. destruct (Hv 1%nat 5 eq_refl) as [_ [off Hoff]].
      exists c', off. split; [exact Hr|exact Hoff].
Defined.

(** ** Concrete rounds, for the witness *)

Definition sample_input : list Ascii.ascii := map Ascii.ascii_of_nat [99; 113]%nat.

Definition sample_rounds : list Server.round :=
  match Server.main sample_config sample_os (fun _ _ => []) (fun _ _ => true) (fun _ _ => ∅) sample_input with
  | Ok rs => rs
  | _ => []
  end.

(** The second round, after the clients removed everything. *)
Definition second_round : Server.round := nth 1 sample_rounds (MkRound [] (new_Server 0 0 0)).

Definition second_heap : heap := Server.memory (waiting_server second_round).

Definition second_table : HashStore :=
  default sample_store (micro_server (waiting_server second_round) ≫= micro_table).

Definition place_message : list Z := client_message 0 [meta_of_table (table_place sample_config 4096)] [] ++ [7].

Definition round_cfg : dmc_config :=
  MkConfig 1 (match GetMemStoreMeta place_message new_MetaManager with Ok (_, m) => m | _ => new_MetaManager end)
    [Some 7] 2 false.

Definition round_memory : Z -> Z * heap := fun _ => (4096, second_heap).

