(* ===== verification/Buckets.v ===== *)
(** The bucket container of the cuckoo map (core/metadata/bucket_container.hh): an
    array of [2 ^ hashpower] buckets with four slots each. A live slot holds a key,
    its value and its partial hash. The array is the finite map [cells] from
    (bucket, slot) to live entries; a slot that is not in the map is not occupied,
    and what its memory holds is never read. *)
From S2P Require Import Prelude Words Outcome.

(** ** Data *)

(** One live slot: the key-value pair and its partial hash. *)
Record entry (V : Type) := MkEntry { e_partial : Z; e_key : Z; e_val : V }.
Arguments MkEntry {V} _ _ _.
Arguments e_partial {V} _.
Arguments e_key {V} _.
Arguments e_val {V} _.

(** [bucket]: its slots in order. *)
Definition bucket (V : Type) := list (option (entry V)).

(** [bucket_container]; [is_deallocated] says that [buckets_] is the null pointer. *)
Record buckets_t (V : Type) := MkBuckets {
  hashpower : Z;
  cells : gmap (Z * Z) (entry V);
  is_deallocated : bool
}.
Arguments MkBuckets {V} _ _ _.
Arguments hashpower {V} _.
Arguments cells {V} _.
Arguments is_deallocated {V} _.

Definition slot_per_bucket : Z := 4.

(** The slot numbers, in the order of every loop over a bucket. *)
Definition slots : list Z := [0; 1; 2; 3].

(** The numbers from [a] to [b - 1]. *)
Fixpoint range_from (n : nat) (a : Z) : list Z :=
  match n with O => [] | S n => a :: range_from n (a + 1) end.

Definition range (a b : Z) : list Z := range_from (Z.to_nat (b - a)) a.

Section Container.
Context {V : Type}.
Implicit Types (c : buckets_t V) (e : entry V).

(** [size()]. *)
Definition size (c : buckets_t V) : Z := wrap 64 (Z.shiftl 1 (hashpower c)).

(** What the allocator grants: never more than [PTRDIFF_MAX] bytes, so never [2 ^ 63]
    buckets; below, [new_ok] is the answer of operator new to a request for [2 ^ hp]
    buckets. *)
Definition allocate (new_ok : Z -> bool) (hp : Z) : bool :=
  (0 <=? hp) && (hp <? 63) && new_ok hp.

(** The constructor: empty buckets, or no container when the allocation fails. *)
Definition bucket_container (new_ok : Z -> bool) (hp : Z) : option (buckets_t V) :=
  if allocate new_ok hp then Some (MkBuckets hp ∅ false) else None.

(** An access of [buckets_[ind]]: of an array that exists, inside of it. *)
Definition accessible (c : buckets_t V) (ind : Z) : bool :=
  negb (is_deallocated c) && (0 <=? ind) && (ind <? size c).

(** [operator[]]. *)
Definition at_ (c : buckets_t V) (ind : Z) : outcome (bucket V) :=
  if accessible c ind then Ok ((fun slot => cells c !! (ind, slot)) <$> slots) else Fault.

(** The element [slot] of the arrays of a bucket. *)
Definition slot_of (b : bucket V) (slot : Z) : outcome (option (entry V)) :=
  deref (if 0 <=? slot then b !! Z.to_nat slot else None).

Definition occupied (b : bucket V) (slot : Z) : outcome bool :=
  o ← slot_of b slot; Ok (match o with Some _ => true | None => false end).

(** [partial(slot)], [key(slot)] and [mapped(slot)] of a live slot; in a slot that is
    not occupied there is no object to read. *)
Definition live (b : bucket V) (slot : Z) : outcome (entry V) :=
  o ← slot_of b slot; deref o.

Definition setKV (ind slot p k : Z) (v : V) (c : buckets_t V) : outcome (buckets_t V) :=
  b ← at_ c ind;
  occ ← occupied b slot;
  assert_ (negb occ);;
  Ok (MkBuckets (hashpower c) (<[(ind, slot) := MkEntry p k v]> (cells c)) (is_deallocated c)).

Definition eraseKV (ind slot : Z) (c : buckets_t V) : outcome (buckets_t V) :=
  b ← at_ c ind;
  occ ← occupied b slot;
  assert_ occ;;
  Ok (MkBuckets (hashpower c) (delete (ind, slot) (cells c)) (is_deallocated c)).

(** A write through the reference [mapped(slot)]. *)
Definition set_mapped (ind slot : Z) (v : V) (c : buckets_t V) : outcome (buckets_t V) :=
  b ← at_ c ind;
  e ← live b slot;
  Ok (MkBuckets (hashpower c) (<[(ind, slot) := MkEntry (e_partial e) (e_key e) v]> (cells c))
        (is_deallocated c)).

(** A loop over a list of indices. *)
Fixpoint fold_steps {A S} (f : A -> S -> outcome S) (l : list A) (s : S) : outcome S :=
  match l with
  | [] => Ok s
  | a :: l => s ← f a s; fold_steps f l s
  end.

(** The body of the inner loop of [clear]. *)
Definition clear_slot (i j : Z) (c : buckets_t V) : outcome (buckets_t V) :=
  b ← at_ c i;
  occ ← occupied b j;
  if (occ : bool) then eraseKV i j c else Ok c.

Definition clear (c : buckets_t V) : outcome (buckets_t V) :=
  fold_steps (fun i => fold_steps (clear_slot i) slots) (range 0 (size c)) c.

Definition destroy_buckets (c : buckets_t V) : outcome (buckets_t V) :=
  if is_deallocated c then Ok c else
  c ← clear c;
  Ok (MkBuckets (hashpower c) (cells c) true).

Definition clear_and_deallocate (c : buckets_t V) : outcome (buckets_t V) := destroy_buckets c.

(** [a.swap(b)]: the new [a] and the new [b]. *)
Definition swap (a b : buckets_t V) : buckets_t V * buckets_t V :=
  (MkBuckets (hashpower b) (cells b) (is_deallocated b),
   MkBuckets (hashpower a) (cells a) (is_deallocated a)).

(** [a = std::move(b)] with equal allocators: the old buckets of [a] are destroyed. *)
Definition move_assign (a b : buckets_t V) : outcome (buckets_t V) :=
  a ← destroy_buckets a;
  Ok (MkBuckets (hashpower b) (cells b) (is_deallocated b)).

End Container.

(** ** Facts *)

Section ContainerFacts.
Context {V : Type}.
Implicit Types (c : buckets_t V) (e : entry V) (b : bucket V).

Lemma size_pow c : 0 <= hashpower c < 64 -> size c = 2 ^ hashpower c.
Proof.
  intros H. unfold size. rewrite Z.shiftl_1_l. apply wrap_small.
  split; [apply Z.pow_nonneg; lia|]. apply Z.pow_lt_mono_r; lia.
Qed.

Lemma range_seqZ (a b : Z) : range a b = seqZ a (b - a).
Proof.
  unfold range. destruct (Z.le_gt_cases 0 (b - a)) as [H|H].
  - rewrite <- (Z2Nat.id (b - a)) at 2 by done. generalize (Z.to_nat (b - a)). clear. intros n. revert a.
    induction n as [|n IH]; intros a; cbn [range_from]; [done|]. rewrite seqZ_cons by lia. f_equal.
    rewrite IH. f_equal; lia.
  - rewrite Z2Nat.nonpos, seqZ_nil by lia. done.
Qed.

Lemma elem_of_range (a b x : Z) : x ∈ range a b <-> a <= x < b.
Proof. rewrite range_seqZ, elem_of_seqZ. lia. Qed.

Lemma elem_of_slots j : j ∈ slots <-> 0 <= j < 4.
Proof.
  unfold slots. rewrite !elem_of_cons. split.
  - intros [->|[->|[->|[->|H]]]]; [lia..|]. by apply not_elem_of_nil in H.
  - intros H. assert (j = 0 \/ j = 1 \/ j = 2 \/ j = 3) by lia. tauto.
Qed.

Lemma accessible_spec c ind :
  0 <= hashpower c < 64 -> is_deallocated c = false -> 0 <= ind < 2 ^ hashpower c -> accessible c ind = true.
Proof.
  intros Hp Hd Hi. unfold accessible. rewrite Hd, size_pow by done.
  test (0 <=? ind) is true. by test (ind <? 2 ^ hashpower c) is true.
Qed.

(** The bucket that [at_] returns. *)
Definition bucket_at c (ind : Z) : bucket V := (fun slot => cells c !! (ind, slot)) <$> slots.

Lemma at_Ok c ind :
  0 <= hashpower c < 64 -> is_deallocated c = false -> 0 <= ind < 2 ^ hashpower c ->
  at_ c ind = Ok (bucket_at c ind).
Proof. intros. unfold at_. by rewrite accessible_spec. Qed.

Lemma slot_of_bucket c ind j : 0 <= j < 4 -> slot_of (bucket_at c ind) j = Ok (cells c !! (ind, j)).
Proof.
  intros Hj. assert (j = 0 \/ j = 1 \/ j = 2 \/ j = 3) as [->|[->|[->| ->]]] by lia; reflexivity.
Qed.

Lemma occupied_bucket c ind j :
  0 <= j < 4 -> occupied (bucket_at c ind) j = Ok (bool_decide (is_Some (cells c !! (ind, j)))).
Proof.
  intros Hj. unfold occupied. rewrite slot_of_bucket by done. simpl.
  destruct (cells c !! (ind, j)); [by rewrite bool_decide_true by by eexists|].
  by rewrite bool_decide_false by by intros [].
Qed.

Lemma live_bucket c ind j e :
  0 <= j < 4 -> cells c !! (ind, j) = Some e -> live (bucket_at c ind) j = Ok e.
Proof. intros Hj He. unfold live. rewrite slot_of_bucket by done. simpl. by rewrite He. Qed.

Lemma setKV_Ok c ind j p k v :
  0 <= hashpower c < 64 -> is_deallocated c = false -> 0 <= ind < 2 ^ hashpower c -> 0 <= j < 4 ->
  cells c !! (ind, j) = None ->
  setKV ind j p k v c = Ok (MkBuckets (hashpower c) (<[(ind, j) := MkEntry p k v]> (cells c)) false).
Proof.
  intros Hp Hd Hi Hj Hn. unfold setKV. rewrite at_Ok by done. simpl.
  rewrite occupied_bucket, Hn by done. by rewrite Hd.
Qed.

Lemma eraseKV_Ok c ind j e :
  0 <= hashpower c < 64 -> is_deallocated c = false -> 0 <= ind < 2 ^ hashpower c -> 0 <= j < 4 ->
  cells c !! (ind, j) = Some e ->
  eraseKV ind j c = Ok (MkBuckets (hashpower c) (delete (ind, j) (cells c)) false).
Proof.
  intros Hp Hd Hi Hj Hn. unfold eraseKV. rewrite at_Ok by done. simpl.
  rewrite occupied_bucket, Hn by done. by rewrite Hd.
Qed.

Lemma set_mapped_Ok c ind j e v :
  0 <= hashpower c < 64 -> is_deallocated c = false -> 0 <= ind < 2 ^ hashpower c -> 0 <= j < 4 ->
  cells c !! (ind, j) = Some e ->
  set_mapped ind j v c =
    Ok (MkBuckets (hashpower c) (<[(ind, j) := MkEntry (e_partial e) (e_key e) v]> (cells c)) false).
Proof.
  intros Hp Hd Hi Hj Hn. unfold set_mapped. rewrite at_Ok by done. simpl.
  rewrite (live_bucket _ _ _ e) by done. simpl. by rewrite Hd.
Qed.

(** A loop whose body always succeeds, with an invariant indexed by what is done. *)
Lemma fold_steps_Ok {A S} (f : A -> S -> outcome S) (I : list A -> S -> Prop) l s :
  I [] s ->
  (forall done_ a rest s, l = done_ ++ a :: rest -> I done_ s -> exists s', f a s = Ok s' /\ I (done_ ++ [a]) s') ->
  exists s', fold_steps f l s = Ok s' /\ I l s'.
Proof.
  intros H0 Hstep.
  enough (forall rest done_ s, l = done_ ++ rest -> I done_ s ->
            exists s', fold_steps f rest s = Ok s' /\ I l s') as H by by apply (H l []).
  clear s H0. induction rest as [|a rest IH]; intros done_ s Hl Hs; simpl.
  - exists s. split; [done|]. by rewrite Hl, app_nil_r.
  - destruct (Hstep done_ a rest s Hl Hs) as (s1 & Hf & Hs1). rewrite Hf. simpl.
    apply (IH (done_ ++ [a])); [by rewrite <- app_assoc|done].
Qed.

(** The positions of a container of [2 ^ hp] buckets. *)
Definition position (hp : Z) (p : Z * Z) : Prop := 0 <= p.1 < 2 ^ hp /\ 0 <= p.2 < 4.

Definition in_bounds c : Prop := forall p e, cells c !! p = Some e -> position (hashpower c) p.

Lemma clear_slot_Ok c i j :
  0 <= hashpower c < 64 -> is_deallocated c = false -> 0 <= i < 2 ^ hashpower c -> 0 <= j < 4 ->
  clear_slot i j c = Ok (MkBuckets (hashpower c) (delete (i, j) (cells c)) false).
Proof.
  intros Hp Hd Hi Hj. unfold clear_slot. rewrite at_Ok by done. simpl. rewrite occupied_bucket by done. simpl.
  case_bool_decide as He.
  - destruct He as [e He]. by rewrite (eraseKV_Ok _ _ _ e).
  - rewrite delete_id by by apply eq_None_not_Some. destruct c; simpl in *; by subst.
Qed.

Lemma clear_bucket_Ok c i :
  0 <= hashpower c < 64 -> is_deallocated c = false -> 0 <= i < 2 ^ hashpower c ->
  exists c', fold_steps (clear_slot i) slots c = Ok c' /\
    hashpower c' = hashpower c /\ is_deallocated c' = false /\
    forall p, cells c' !! p = if decide (p.1 = i /\ 0 <= p.2 < 4) then None else cells c !! p.
Proof.
  intros Hp Hd Hi. unfold slots. cbn [fold_steps].
  rewrite clear_slot_Ok by (done || lia). cbn [mbind outcome_bind].
  do 3 (rewrite clear_slot_Ok by (simpl; done || lia); cbn [mbind outcome_bind hashpower cells is_deallocated]).
  eexists. split; [done|]. simpl. do 2 (split; [done|]). intros [x y]. simpl.
  rewrite !lookup_delete. repeat case_decide; try done; simplify_eq;
    try (exfalso; match goal with H : ~ _ |- _ => apply H; lia end).
  destruct_and?. exfalso. subst.
  assert (y = 0 \/ y = 1 \/ y = 2 \/ y = 3) as [->|[->|[->| ->]]] by lia; congruence.
Qed.

Lemma clear_Ok c :
  0 <= hashpower c < 64 -> is_deallocated c = false -> in_bounds c ->
  clear c = Ok (MkBuckets (hashpower c) ∅ false).
Proof.
  intros Hp Hd Hb. unfold clear.
  destruct (fold_steps_Ok (fun i => fold_steps (clear_slot i) slots)
    (fun l c' => hashpower c' = hashpower c /\ is_deallocated c' = false /\ forall p,
       cells c' !! p = if decide (p.1 ∈ l /\ 0 <= p.2 < 4) then None else cells c !! p)
    (range 0 (size c)) c) as (c' & -> & Hp' & Hd' & Hc').
  - split; [done|]. split; [done|]. intros p. rewrite decide_False; [done|]. intros [H _].
    by apply not_elem_of_nil in H.
  - intros l i rest c1 Hl (Hp1 & Hd1 & Hc1).
    assert (0 <= i < 2 ^ hashpower c1) as Hi.
    { rewrite Hp1, <- size_pow by done. apply elem_of_range. rewrite Hl. set_solver. }
    destruct (clear_bucket_Ok c1 i ltac:(lia) Hd1 Hi) as (c2 & Hf & Hp2 & Hd2 & Hc2).
    exists c2. split; [done|]. split; [congruence|]. split; [done|]. intros p.
    rewrite Hc2, Hc1. repeat case_decide; set_solver.
  - f_equal. destruct c' as [hp' m' d']. simpl in *. subst. f_equal. apply map_eq. intros p.
    rewrite Hc', lookup_empty. case_decide as Hn; [done|]. destruct (cells c !! p) as [e|] eqn:He; [|done].
    exfalso. apply Hn. destruct (Hb _ _ He). split; [|done]. apply elem_of_range. by rewrite size_pow.
Qed.

Lemma clear_and_deallocate_Ok c :
  0 <= hashpower c < 64 -> in_bounds c ->
  exists c', clear_and_deallocate c = Ok c' /\ hashpower c' = hashpower c /\ in_bounds c' /\ is_deallocated c' = true.
Proof.
  intros Hp Hb. unfold clear_and_deallocate, destroy_buckets. destruct (is_deallocated c) eqn:Hd; [by exists c|].
  rewrite clear_Ok by done. eexists. split; [done|]. by split.
Qed.

End ContainerFacts.
