(* ===== verification/Cuckoo.v ===== *)
(** The concurrent hash map behind the address cache (core/metadata/cuckoohash_map.hh,
    with cuckoohash_config.hh and cuckoohash_util.hh): cuckoo hashing with partial keys,
    a breadth-first search for free slots, striped locks, and doubling with lazy
    rehashing. The model is one thread of the map in the instance of the program: keys
    are 64-bit integers (so [is_simple()] and the nothrow moves hold), the hash
    function and the values are parameters.

    Every operation is the whole function of the source, locks and exceptions
    included. A lock that is already taken blocks for ever; a bucket may only be
    touched by the holder of its lock, since any other access is a data race; failed
    assertions, exceptions and accesses out of bounds are results of their own, so a
    theorem that an operation returns excludes all of them. *)
From S2P Require Import Prelude Words Outcome Buckets.

(** ** The monad: state, exceptions and failures *)

Inductive exn :=
| hashpower_changed
| maximum_hashpower_exceeded
| bad_alloc
| out_of_range
| invalid_argument.

(** A computation changes the state and ends with a value or an exception. *)
Definition M (S A : Type) : Type := S -> outcome (S * (A + exn)).

#[export] Instance M_ret S : MRet (M S) := fun A a s => Ok (s, inl a).

#[export] Instance M_bind S : MBind (M S) := fun A B f m s =>
  '(s, r) ← m s;
  match r with
  | inl a => f a s
  | inr e => Ok (s, inr e)
  end.

Section Monad.
Context {S : Type}.

Definition get : M S S := fun s => Ok (s, inl s).
Definition put (s : S) : M S () := fun _ => Ok (s, inl ()).
Definition modify (f : S -> S) : M S () := fun s => Ok (f s, inl ()).
Definition gets {A} (f : S -> A) : M S A := fun s => Ok (s, inl (f s)).
Definition lift {A} (o : outcome A) : M S A := fun s => a ← o; Ok (s, inl a).
Definition throw {A} (e : exn) : M S A := fun s => Ok (s, inr e).
Definition assertM (b : bool) : M S () := lift (assert_ b).
Definition fault {A} : M S A := lift Fault.
Definition hang {A} : M S A := lift OutOfFuel.

(** [try { m } catch (hashpower_changed &) { handler }]. *)
Definition catch {A} (m handler : M S A) : M S A := fun s =>
  '(s, r) ← m s;
  match r with
  | inr hashpower_changed => handler s
  | _ => Ok (s, r)
  end.

(** The destructor [release] of a local object runs when [m] returns or throws. *)
Definition finally {A} (m : M S A) (release : M S ()) : M S A := fun s =>
  '(s, r) ← m s;
  '(s, r') ← release s;
  match r' with
  | inl _ => Ok (s, r)
  | inr e => Ok (s, inr e)
  end.

(** [for (a : l) body] *)
Fixpoint for_each {A} (l : list A) (body : A -> M S ()) : M S () :=
  match l with
  | [] => mret ()
  | a :: l => body a;; for_each l body
  end.

End Monad.

(** ** Constants *)

Definition DEFAULT_SLOT_PER_BUCKET : Z := 4.
Definition DEFAULT_SIZE : Z := Z.shiftl 1 16 * DEFAULT_SLOT_PER_BUCKET.
Definition NO_MAXIMUM_HASHPOWER : Z := 2 ^ 64 - 1.
Definition kMaxNumLocks : Z := Z.shiftl 1 16.
Definition MAX_BFS_PATH_LEN : Z := 5.

Fixpoint const_pow (a : Z) (b : nat) : Z :=
  match b with O => 1 | Datatypes.S b => a * const_pow a b end.

Definition MAX_CUCKOO_COUNT : Z :=
  2 * ((if slot_per_bucket =? 1 then MAX_BFS_PATH_LEN
        else (const_pow slot_per_bucket (Z.to_nat MAX_BFS_PATH_LEN) - 1) / (slot_per_bucket - 1))).

(** ** Hash values and bucket indices *)

Record hash_value := MkHash { hv_hash : Z; hv_partial : Z }.

(** [size_type(1) << hp]. *)
Definition hashsize (hp : Z) : Z := wrap 64 (Z.shiftl 1 hp).

Definition hashmask (hp : Z) : Z := wrap 64 (hashsize hp - 1).

(** The 64 bits folded to 8 by exclusive or. *)
Definition partial_key (hash : Z) : Z :=
  let hash_64bit := wrap 64 hash in
  let hash_32bit := Z.lxor (wrap 32 hash_64bit) (wrap 32 (Z.shiftr hash_64bit 32)) in
  let hash_16bit := Z.lxor (wrap 16 hash_32bit) (wrap 16 (Z.shiftr hash_32bit 16)) in
  Z.lxor (wrap 8 hash_16bit) (wrap 8 (Z.shiftr hash_16bit 8)).

Definition index_hash (hp hv : Z) : Z := Z.land hv (hashmask hp).

Definition alt_index (hp partial index : Z) : Z :=
  let nonzero_tag := wrap 64 (partial + 1) in
  Z.land (Z.lxor index (wrap 64 (nonzero_tag * 0xc6a4a7935bd1e995))) (hashmask hp).

Definition lock_ind (bucket_ind : Z) : Z := Z.land bucket_ind (kMaxNumLocks - 1).

(** The smallest power of two of buckets that holds [n] elements. *)
Fixpoint log2_loop (fuel : nat) (buckets blog2 : Z) : outcome Z :=
  if hashsize blog2 <? buckets then
    match fuel with
    | O => OutOfFuel
    | Datatypes.S fuel => log2_loop fuel buckets (blog2 + 1)
    end
  else Ok blog2.

Definition reserve_calc (n : Z) : outcome Z :=
  let buckets := wrap 64 (n + slot_per_bucket - 1) / slot_per_bucket in
  blog2 ← log2_loop 64 buckets 0;
  assert_ ((n <=? wrap 64 (buckets * slot_per_bucket)) && (buckets <=? hashsize blog2));;
  Ok blog2.

(** ** Data *)

(** A set of lock indices. *)
Abbreviation lock_set := (gmap Z ()).

Definition mem (l : Z) (s : lock_set) : bool :=
  match s !! l with Some _ => true | None => false end.

Definition add (l : Z) (s : lock_set) : lock_set := <[l := ()]> s.

Definition remove (l : Z) (s : lock_set) : lock_set := delete l s.

(** The indices 0 to [n - 1]. *)
Definition full (n : Z) : lock_set := foldr add ∅ (range 0 n).

(** The current array of locks: their number, their counters (0 where absent), those
    that are not migrated, those that are taken. Older arrays stay in memory for
    threads that wait on them; they are not read again. *)
Record locks_t := MkLocks {
  n_locks : Z;
  elem_counters : gmap Z Z;
  unmigrated : lock_set;
  held : lock_set
}.

Record map_t (V : Type) := MkMap {
  buckets_ : buckets_t V;
  old_buckets_ : buckets_t V;
  locks : locks_t;
  num_remaining_lazy_rehash_locks_ : Z;
  maximum_hashpower_ : Z
}.
Arguments MkMap {V} _ _ _ _ _.
Arguments buckets_ {V} _.
Arguments old_buckets_ {V} _.
Arguments locks {V} _.
Arguments num_remaining_lazy_rehash_locks_ {V} _.
Arguments maximum_hashpower_ {V} _.

Definition set_held (h : lock_set) (l : locks_t) : locks_t :=
  MkLocks (n_locks l) (elem_counters l) (unmigrated l) h.

Definition set_unmigrated (u : lock_set) (l : locks_t) : locks_t :=
  MkLocks (n_locks l) (elem_counters l) u (held l).

Definition elem_counter (l : locks_t) (i : Z) : Z := default 0 (elem_counters l !! i).

Definition set_counter (i x : Z) (l : locks_t) : locks_t :=
  MkLocks (n_locks l) (<[i := x]> (elem_counters l)) (unmigrated l) (held l).

Definition LockManager := option Z.

Record TwoBuckets := MkTwo { i1 : Z; i2 : Z; first_manager : LockManager; second_manager : LockManager }.

Inductive cuckoo_status :=
| ok
| failure
| failure_key_not_found
| failure_key_duplicated
| failure_table_full
| failure_under_expansion.

#[export] Instance cuckoo_status_eq_dec : EqDecision cuckoo_status.
Proof. solve_decision. Defined.

Record table_position := MkPos { index : Z; slot : Z; status : cuckoo_status }.

Record CuckooRecord := MkRecord { r_bucket : Z; r_slot : Z; r_hv : hash_value }.

Record b_slot := MkSlot { b_bucket : Z; pathcode : Z; depth : Z }.

(** [b_queue]: the slots between [first_] and [last_], and [last_]. *)
Record b_queue := MkQueue { q_slots : list b_slot; q_last : Z }.

Inductive UpsertContext := NEWLY_INSERTED | ALREADY_EXISTED.

(** A functor for [uprase_fn], with the signature that it can be invoked with. *)
Inductive upsert_functor (V : Type) :=
| WithContext (f : V -> UpsertContext -> V * bool)
| WithoutContext (f : V -> V * bool).
Arguments WithContext {V} _.
Arguments WithoutContext {V} _.

Section Cuckoo.
Context {V : Type} (hash_function : Z -> Z) (new_ok : Z -> bool).

Abbreviation St := (map_t V).

Definition hashed_key (key : Z) : hash_value :=
  let hash := hash_function key in MkHash hash (partial_key hash).

Definition hashed_key_only_hash (key : Z) : Z := hash_function key.

(** ** Access to the members *)

Definition hashpower_now : M St Z := gets (fun s => hashpower (buckets_ s)).

Definition set_buckets (b : buckets_t V) : M St () := modify (fun s =>
  MkMap b (old_buckets_ s) (locks s) (num_remaining_lazy_rehash_locks_ s) (maximum_hashpower_ s)).

Definition set_old_buckets (b : buckets_t V) : M St () := modify (fun s =>
  MkMap (buckets_ s) b (locks s) (num_remaining_lazy_rehash_locks_ s) (maximum_hashpower_ s)).

Definition modify_locks (f : locks_t -> locks_t) : M St () := modify (fun s =>
  MkMap (buckets_ s) (old_buckets_ s) (f (locks s)) (num_remaining_lazy_rehash_locks_ s) (maximum_hashpower_ s)).

Definition set_remaining (n : Z) : M St () := modify (fun s =>
  MkMap (buckets_ s) (old_buckets_ s) (locks s) n (maximum_hashpower_ s)).

(** Only the holder of a lock touches what the lock protects. *)
Definition holds (l : Z) : M St () := s ← get; if mem l (held (locks s)) then mret () else fault.

Definition read_bucket (i : Z) : M St (bucket V) :=
  holds (lock_ind i);; s ← get; lift (at_ (buckets_ s) i).

Definition buckets_setKV (ind slot p k : Z) (v : V) : M St () :=
  holds (lock_ind ind);; s ← get; b ← lift (setKV ind slot p k v (buckets_ s)); set_buckets b.

Definition buckets_eraseKV (ind slot : Z) : M St () :=
  holds (lock_ind ind);; s ← get; b ← lift (eraseKV ind slot (buckets_ s)); set_buckets b.

Definition buckets_set_mapped (ind slot : Z) (v : V) : M St () :=
  holds (lock_ind ind);; s ← get; b ← lift (set_mapped ind slot v (buckets_ s)); set_buckets b.

(** ** Locks *)

(** [locks[l].lock()]: spins until the lock is free. *)
Definition lock (l : Z) : M St () :=
  s ← get;
  if (0 <=? l) && (l <? n_locks (locks s)) then
    if mem l (held (locks s)) then hang else modify_locks (fun k => set_held (add l (held k)) k)
  else fault.

Definition unlock (l : Z) : M St () := modify_locks (fun k => set_held (remove l (held k)) k).

(** The destructor of a [LockManager], and [reset]. *)
Definition release (m : LockManager) : M St () :=
  match m with Some l => unlock l | None => mret () end.

(** [TwoBuckets::unlock]. *)
Definition two_unlock (b : TwoBuckets) : M St TwoBuckets :=
  release (first_manager b);;
  release (second_manager b);;
  mret (MkTwo (i1 b) (i2 b) None None).

(** The destructor of [TwoBuckets]. *)
Definition two_destroy (b : TwoBuckets) : M St () :=
  release (second_manager b);; release (first_manager b).

Definition TwoBuckets_locked (i1_ i2_ : Z) : TwoBuckets := MkTwo i1_ i2_ None None.

Definition TwoBuckets_normal (i1_ i2_ : Z) : TwoBuckets :=
  MkTwo i1_ i2_ (Some (lock_ind i1_))
    (if negb (lock_ind i1_ =? lock_ind i2_) then Some (lock_ind i2_) else None).

(** Unlocks and throws if the hashpower is not the expected one. *)
Definition check_hashpower (hp l : Z) : M St () :=
  hp' ← hashpower_now;
  if negb (hp' =? hp) then unlock l;; throw hashpower_changed else mret ().

(** ** Lazy rehashing *)

(** [num_remaining_lazy_rehash_locks(n)]. *)
Definition num_remaining_lazy_rehash_locks (n : Z) : M St () :=
  set_remaining n;;
  if n =? 0 then
    s ← get; b ← lift (clear_and_deallocate (old_buckets_ s)); set_old_buckets b
  else mret ().

Definition decrement_num_remaining_lazy_rehash_locks : M St () :=
  old_num_remaining ← gets num_remaining_lazy_rehash_locks_;
  set_remaining (wrap 64 (old_num_remaining - 1));;
  assertM (1 <=? old_num_remaining);;
  if old_num_remaining =? 1 then
    s ← get; b ← lift (clear_and_deallocate (old_buckets_ s)); set_old_buckets b
  else mret ().

(** Where an entry of bucket [old_bucket_ind], slot [old_bucket_slot] of the old
    buckets goes, and the next free slot of the new bucket; the assertion of the
    second branch. *)
Definition move_dst (old_hp new_hp old_bucket_ind old_bucket_slot new_bucket_slot : Z) (hv : hash_value) :
    Z * Z * Z * bool :=
  let new_bucket_ind := wrap 64 (old_bucket_ind + hashsize old_hp) in
  let old_ihash := index_hash old_hp (hv_hash hv) in
  let old_ahash := alt_index old_hp (hv_partial hv) old_ihash in
  let new_ihash := index_hash new_hp (hv_hash hv) in
  let new_ahash := alt_index new_hp (hv_partial hv) new_ihash in
  if ((old_bucket_ind =? old_ihash) && (new_ihash =? new_bucket_ind))
     || ((old_bucket_ind =? old_ahash) && (new_ahash =? new_bucket_ind))
  then (new_bucket_ind, new_bucket_slot, new_bucket_slot + 1, true)
  else (old_bucket_ind, old_bucket_slot, new_bucket_slot,
        ((old_bucket_ind =? old_ihash) && (new_ihash =? old_ihash))
        || ((old_bucket_ind =? old_ahash) && (new_ahash =? old_ahash))).

(** The loop of [move_bucket] over the slots of the old bucket, which stay as they are. *)
Fixpoint move_slots (old_bucket_ind : Z) (old_slots : list Z) (new_bucket_slot : Z) : M St () :=
  match old_slots with
  | [] => mret ()
  | old_bucket_slot :: old_slots =>
    s ← get;
    let old_hp := hashpower (old_buckets_ s) in
    let new_hp := hashpower (buckets_ s) in
    old_bucket ← lift (at_ (old_buckets_ s) old_bucket_ind);
    occ ← lift (occupied old_bucket old_bucket_slot);
    if negb occ then move_slots old_bucket_ind old_slots new_bucket_slot else
    e ← lift (live old_bucket old_bucket_slot);
    let hv := hashed_key (e_key e) in
    let '(dst_bucket_ind, dst_bucket_slot, new_bucket_slot, sound) :=
      move_dst old_hp new_hp old_bucket_ind old_bucket_slot new_bucket_slot hv in
    assertM sound;;
    buckets_setKV dst_bucket_ind dst_bucket_slot (e_partial e) (e_key e) (e_val e);;
    move_slots old_bucket_ind old_slots new_bucket_slot
  end.

Definition move_bucket (old_bucket_ind : Z) : M St () :=
  holds (lock_ind old_bucket_ind);;
  move_slots old_bucket_ind slots 0.

(** The buckets [l], [l + kMaxNumLocks], ... below [size]. *)
Definition lock_buckets (l size : Z) : list Z :=
  (fun n => l + n * kMaxNumLocks) <$> range 0 ((size - l + kMaxNumLocks - 1) / kMaxNumLocks).

Definition rehash_lock (is_lazy : bool) (l : Z) : M St () :=
  holds l;;
  s ← get;
  if mem l (unmigrated (locks s)) then
    assertM (n_locks (locks s) =? kMaxNumLocks);;
    assertM (hashpower (old_buckets_ s) + 1 =? hashpower (buckets_ s));;
    assertM (kMaxNumLocks <=? size (old_buckets_ s));;
    for_each (lock_buckets l (size (old_buckets_ s))) move_bucket;;
    modify_locks (fun k => set_unmigrated (remove l (unmigrated k)) k);;
    if is_lazy then decrement_num_remaining_lazy_rehash_locks else mret ()
  else mret ().

(** ** Locking of buckets; [locked] is the mode of a [locked_table] *)

Definition lock_one (locked : bool) (hp i : Z) : M St LockManager :=
  if locked then mret None else
  let l := lock_ind i in
  lock l;;
  check_hashpower hp l;;
  rehash_lock true l;;
  mret (Some l).

Definition lock_two (locked : bool) (hp i1 i2 : Z) : M St TwoBuckets :=
  if locked then mret (TwoBuckets_locked i1 i2) else
  let l1 := lock_ind i1 in
  let l2 := lock_ind i2 in
  let '(l1, l2) := if l2 <? l1 then (l2, l1) else (l1, l2) in
  lock l1;;
  check_hashpower hp l1;;
  (if negb (l2 =? l1) then lock l2 else mret ());;
  rehash_lock true l1;;
  rehash_lock true l2;;
  mret (TwoBuckets_normal i1 i2).

Definition lock_three (locked : bool) (hp i1 i2 i3 : Z) : M St (TwoBuckets * LockManager) :=
  if locked then mret (TwoBuckets_locked i1 i2, None) else
  let l0 := lock_ind i1 in
  let l1 := lock_ind i2 in
  let l2 := lock_ind i3 in
  let '(l1, l2) := if l2 <? l1 then (l2, l1) else (l1, l2) in
  let '(l0, l2) := if l2 <? l0 then (l2, l0) else (l0, l2) in
  let '(l0, l1) := if l1 <? l0 then (l1, l0) else (l0, l1) in
  lock l0;;
  check_hashpower hp l0;;
  (if negb (l1 =? l0) then lock l1 else mret ());;
  (if negb (l2 =? l1) then lock l2 else mret ());;
  rehash_lock true l0;;
  rehash_lock true l1;;
  rehash_lock true l2;;
  mret (TwoBuckets_normal i1 i2,
        if (lock_ind i3 =? lock_ind i1) || (lock_ind i3 =? lock_ind i2) then None else Some (lock_ind i3)).

Fixpoint snapshot_and_lock_two (fuel : nat) (locked : bool) (hv : hash_value) : M St TwoBuckets :=
  match fuel with
  | O => hang
  | Datatypes.S fuel =>
    hp ← hashpower_now;
    let i1 := index_hash hp (hv_hash hv) in
    let i2 := alt_index hp (hv_partial hv) i1 in
    catch (lock_two locked hp i1 i2) (snapshot_and_lock_two fuel locked hv)
  end.

Definition lock_all (locked : bool) : M St () :=
  if locked then mret () else
  s ← get; for_each (range 0 (n_locks (locks s))) lock.

(** [AllUnlocker]. *)
Definition unlock_all (locked : bool) : M St () :=
  if locked then mret () else
  s ← get; for_each (range 0 (n_locks (locks s))) unlock.

(** ** Searching a bucket *)

Fixpoint read_slots (b : bucket V) (key : Z) (l : list Z) : outcome Z :=
  match l with
  | [] => Ok (-1)
  | i :: l =>
    occ ← occupied b i;
    if negb occ then read_slots b key l else
    e ← live b i;
    if e_key e =? key then Ok i else read_slots b key l
  end.

(** With simple keys the partial keys are not compared. *)
Definition try_read_from_bucket (b : bucket V) (partial key : Z) : outcome Z := read_slots b key slots.

Definition cuckoo_find (key partial i1 i2 : Z) : M St table_position :=
  b1 ← read_bucket i1;
  slot ← lift (try_read_from_bucket b1 partial key);
  if negb (slot =? -1) then mret (MkPos i1 slot ok) else
  b2 ← read_bucket i2;
  slot ← lift (try_read_from_bucket b2 partial key);
  if negb (slot =? -1) then mret (MkPos i2 slot ok) else
  mret (MkPos 0 0 failure_key_not_found).

(** The loop of [try_find_insert_bucket]; [slot] is the last empty slot so far. *)
Fixpoint find_insert_slots (b : bucket V) (key slot : Z) (l : list Z) : outcome (bool * Z) :=
  match l with
  | [] => Ok (true, slot)
  | i :: l =>
    occ ← occupied b i;
    if (occ : bool) then
      e ← live b i;
      if e_key e =? key then Ok (false, i) else find_insert_slots b key slot l
    else find_insert_slots b key i l
  end.

Definition try_find_insert_bucket (b : bucket V) (partial key : Z) : outcome (bool * Z) :=
  find_insert_slots b key (-1) slots.

(** ** Breadth-first search for a free slot *)

Definition enqueue (x : b_slot) (q : b_queue) : outcome b_queue :=
  assert_ (negb (q_last q =? MAX_CUCKOO_COUNT));;
  if (0 <=? q_last q) && (q_last q <? MAX_CUCKOO_COUNT)
  then Ok (MkQueue (q_slots q ++ [x]) (q_last q + 1)) else Fault.

Definition dequeue (q : b_queue) : outcome (b_slot * b_queue) :=
  match q_slots q with
  | [] => Exit
  | x :: l => Ok (x, MkQueue l (q_last q))
  end.

(** The constructor of [b_slot], on a 16-bit path code and an 8-bit depth. *)
Definition new_b_slot (b p d : Z) : outcome b_slot :=
  assert_ (d <? MAX_BFS_PATH_LEN);; Ok (MkSlot b (wrap 16 p) (to_signed 8 d)).

(** The inner loop of [slot_search]: a free slot of the bucket of [x], or the queue
    with the alternatives of its entries. *)
Fixpoint scan_slots (hp : Z) (x : b_slot) (b : bucket V) (l : list Z) (q : b_queue) :
    outcome (b_slot + b_queue) :=
  match l with
  | [] => Ok (inr q)
  | i :: l =>
    let starting_slot := pathcode x mod slot_per_bucket in
    let slot := wrap 16 ((starting_slot + i) mod slot_per_bucket) in
    occ ← occupied b slot;
    let code := wrap 16 (pathcode x * slot_per_bucket + slot) in
    if negb occ then Ok (inl (MkSlot (b_bucket x) code (depth x))) else
    e ← live b slot;
    if depth x <? MAX_BFS_PATH_LEN - 1 then
      y ← new_b_slot (alt_index hp (e_partial e) (b_bucket x)) code (depth x + 1);
      q ← enqueue y q;
      scan_slots hp x b l q
    else scan_slots hp x b l q
  end.

Fixpoint search_loop (fuel : nat) (locked : bool) (hp : Z) (q : b_queue) : M St b_slot :=
  match q_slots q with
  | [] => lift (new_b_slot 0 0 (-1))
  | _ =>
    match fuel with
    | O => hang
    | Datatypes.S fuel =>
      '(x, q) ← lift (dequeue q);
      lock_manager ← lock_one locked hp (b_bucket x);
      b ← read_bucket (b_bucket x);
      r ← lift (scan_slots hp x b slots q);
      release lock_manager;;
      match r with
      | inl x => mret x
      | inr q => search_loop fuel locked hp q
      end
    end
  end.

(** The queue never holds more than [MAX_CUCKOO_COUNT] slots, so as many rounds do. *)
Definition slot_search (locked : bool) (hp i1 i2 : Z) : M St b_slot :=
  x1 ← lift (new_b_slot i1 0 0);
  q ← lift (enqueue x1 (MkQueue [] 0));
  x2 ← lift (new_b_slot i2 1 0);
  q ← lift (enqueue x2 q);
  search_loop (Z.to_nat MAX_CUCKOO_COUNT) locked hp q.

(** ** Cuckoo paths *)

(** The array of records before it is filled. *)
Definition new_CuckooRecords : list CuckooRecord :=
  replicate (Z.to_nat MAX_BFS_PATH_LEN) (MkRecord 0 0 (MkHash 0 0)).

(** [cuckoo_path[i]]: an index outside of the array is a bad access. *)
Definition record_at (path : list CuckooRecord) (i : Z) : outcome CuckooRecord :=
  deref (if 0 <=? i then path !! Z.to_nat i else None).

Definition set_record (path : list CuckooRecord) (i : Z) (f : CuckooRecord -> CuckooRecord) :
    outcome (list CuckooRecord) :=
  r ← record_at path i; Ok (<[Z.to_nat i := f r]> path).

Definition set_r_bucket (b : Z) (r : CuckooRecord) : CuckooRecord := MkRecord b (r_slot r) (r_hv r).
Definition set_r_slot (s : Z) (r : CuckooRecord) : CuckooRecord := MkRecord (r_bucket r) s (r_hv r).
Definition set_r_hv (h : hash_value) (r : CuckooRecord) : CuckooRecord := MkRecord (r_bucket r) (r_slot r) h.

(** [for (int i = x.depth; i >= 0; i--)]: the slots, from the end of the path. *)
Fixpoint fill_slots (n : nat) (code : Z) (path : list CuckooRecord) : outcome (Z * list CuckooRecord) :=
  path ← set_record path (Z.of_nat n) (set_r_slot (code mod slot_per_bucket));
  let code := code / slot_per_bucket in
  match n with
  | O => Ok (code, path)
  | Datatypes.S n => fill_slots n code path
  end.

(** Reads the key of the record [i], whose bucket and slot are set; [None] if the slot
    is not occupied. *)
Definition read_record (locked : bool) (hp i : Z) (path : list CuckooRecord) :
    M St (option (list CuckooRecord)) :=
  r ← lift (record_at path i);
  lock_manager ← lock_one locked hp (r_bucket r);
  b ← read_bucket (r_bucket r);
  occ ← lift (occupied b (r_slot r));
  (if negb occ then release lock_manager;; mret None else
   e ← lift (live b (r_slot r));
   path ← lift (set_record path i (set_r_hv (hashed_key (e_key e))));
   release lock_manager;;
   mret (Some path)).

(** [for (int i = 1; i <= x.depth; ++i)]; [n] iterations are left. *)
Fixpoint follow_path (n : nat) (locked : bool) (hp i : Z) (path : list CuckooRecord) :
    M St (Z * list CuckooRecord) :=
  match n with
  | O => mret (i - 1, path)
  | Datatypes.S n =>
    prev ← lift (record_at path (i - 1));
    let h := r_hv prev in
    assertM ((r_bucket prev =? index_hash hp (hv_hash h))
             || (r_bucket prev =? alt_index hp (hv_partial h) (index_hash hp (hv_hash h))));;
    path ← lift (set_record path i (set_r_bucket (alt_index hp (hv_partial h) (r_bucket prev))));
    r ← read_record locked hp i path;
    match r with
    | None => mret (i, path)
    | Some path => follow_path n locked hp (i + 1) path
    end
  end.

(** The depth of a path to a free slot and the path, or the depth -1. *)
Definition cuckoopath_search (locked : bool) (hp i1 i2 : Z) (path : list CuckooRecord) :
    M St (Z * list CuckooRecord) :=
  x ← slot_search locked hp i1 i2;
  if depth x =? -1 then mret (-1, path) else
  '(code, path) ← lift (fill_slots (Z.to_nat (depth x)) (pathcode x) path);
  (if code =? 0 then mret () else assertM (code =? 1));;
  path ← lift (set_record path 0 (set_r_bucket (if code =? 0 then i1 else i2)));
  r ← read_record locked hp 0 path;
  match r with
  | None => mret (0, path)
  | Some path => follow_path (Z.to_nat (depth x)) locked hp 1 path
  end.

(** The body of the loop of [cuckoopath_move] under its locks: moves one entry, or
    finds that the table has changed. *)
Definition move_entry (from to : CuckooRecord) : M St bool :=
  fb ← read_bucket (r_bucket from);
  tb ← read_bucket (r_bucket to);
  t_occ ← lift (occupied tb (r_slot to));
  if (t_occ : bool) then mret false else
  f_occ ← lift (occupied fb (r_slot from));
  if negb f_occ then mret false else
  e ← lift (live fb (r_slot from));
  if negb (hashed_key_only_hash (e_key e) =? hv_hash (r_hv from)) then mret false else
  buckets_setKV (r_bucket to) (r_slot to) (e_partial e) (e_key e) (e_val e);;
  buckets_eraseKV (r_bucket from) (r_slot from);;
  mret true.

(** [while (depth > 0)], where [depth] is the number of moves left. *)
Fixpoint move_loop (depth : nat) (locked : bool) (hp : Z) (path : list CuckooRecord) (b : TwoBuckets) :
    M St (bool * TwoBuckets) :=
  match depth with
  | O => mret (true, b)
  | Datatypes.S depth =>
    from ← lift (record_at path (Z.of_nat depth));
    to ← lift (record_at path (Z.of_nat depth + 1));
    '(twob, extra_manager) ←
      (if Z.of_nat depth =? 0 then lock_three locked hp (i1 b) (i2 b) (r_bucket to)
       else t ← lock_two locked hp (r_bucket from) (r_bucket to); mret (t, None));
    moved ← move_entry from to;
    if negb moved then release extra_manager;; two_destroy twob;; mret (false, b) else
    if Z.of_nat depth =? 0 then release extra_manager;; move_loop depth locked hp path twob
    else release extra_manager;; two_destroy twob;; move_loop depth locked hp path b
  end.

Definition cuckoopath_move (locked : bool) (hp : Z) (path : list CuckooRecord) (depth : Z) (b : TwoBuckets) :
    M St (bool * TwoBuckets) :=
  if depth =? 0 then
    r0 ← lift (record_at path 0);
    let bucket_i := r_bucket r0 in
    assertM ((bucket_i =? i1 b) || (bucket_i =? i2 b));;
    b ← lock_two locked hp (i1 b) (i2 b);
    c ← read_bucket bucket_i;
    occ ← lift (occupied c (r_slot r0));
    if negb occ then mret (true, b) else
    b ← two_unlock b;
    mret (false, b)
  else move_loop (Z.to_nat depth) locked hp path b.

Definition holds_lock (locked : bool) (l : Z) : M St () :=
  s ← get; assertM (locked || mem l (held (locks s))).

(** [while (!done)] of [run_cuckoo]: the position that was freed, if any. *)
Fixpoint cuckoo_loop (fuel : nat) (locked : bool) (hp : Z) (path : list CuckooRecord) (b : TwoBuckets) :
    M St (cuckoo_status * TwoBuckets * Z * Z) :=
  match fuel with
  | O => hang
  | Datatypes.S fuel =>
    '(d, path) ← cuckoopath_search locked hp (i1 b) (i2 b) path;
    if d <? 0 then mret (failure, b, 0, 0) else
    '(moved, b) ← cuckoopath_move locked hp path d b;
    if (moved : bool) then
      r0 ← lift (record_at path 0);
      assertM ((r_bucket r0 =? i1 b) || (r_bucket r0 =? i2 b));;
      holds_lock locked (lock_ind (i1 b));;
      holds_lock locked (lock_ind (i2 b));;
      c ← read_bucket (r_bucket r0);
      occ ← lift (occupied c (r_slot r0));
      assertM (negb occ);;
      mret (ok, b, r_bucket r0, r_slot r0)
    else cuckoo_loop fuel locked hp path b
  end.

Definition run_cuckoo (fuel : nat) (locked : bool) (b : TwoBuckets) : M St (cuckoo_status * TwoBuckets * Z * Z) :=
  hp ← hashpower_now;
  b ← two_unlock b;
  catch (cuckoo_loop fuel locked hp new_CuckooRecords b) (mret (failure_under_expansion, b, 0, 0)).

(** ** Insertion *)

Definition cuckoo_insert (fuel : nat) (locked : bool) (hv : hash_value) (b : TwoBuckets) (key : Z) :
    M St (table_position * TwoBuckets) :=
  b1 ← read_bucket (i1 b);
  '(found, res1) ← lift (try_find_insert_bucket b1 (hv_partial hv) key);
  if negb found then mret (MkPos (i1 b) res1 failure_key_duplicated, b) else
  b2 ← read_bucket (i2 b);
  '(found, res2) ← lift (try_find_insert_bucket b2 (hv_partial hv) key);
  if negb found then mret (MkPos (i2 b) res2 failure_key_duplicated, b) else
  if negb (res1 =? -1) then mret (MkPos (i1 b) res1 ok, b) else
  if negb (res2 =? -1) then mret (MkPos (i2 b) res2 ok, b) else
  '(st, b, insert_bucket, insert_slot) ← run_cuckoo fuel locked b;
  match st with
  | failure_under_expansion => mret (MkPos 0 0 failure_under_expansion, b)
  | ok =>
    holds_lock locked (lock_ind (i1 b));;
    holds_lock locked (lock_ind (i2 b));;
    c ← read_bucket insert_bucket;
    occ ← lift (occupied c insert_slot);
    assertM (negb occ);;
    hp ← hashpower_now;
    assertM ((insert_bucket =? index_hash hp (hv_hash hv))
             || (insert_bucket =? alt_index hp (hv_partial hv) (index_hash hp (hv_hash hv))));;
    pos ← cuckoo_find key (hv_partial hv) (i1 b) (i2 b);
    if decide (status pos = ok) then mret (MkPos (index pos) (slot pos) failure_key_duplicated, b)
    else mret (MkPos insert_bucket insert_slot ok, b)
  | _ => assertM (bool_decide (st = failure));; mret (MkPos 0 0 failure_table_full, b)
  end.

(** ** Resizing *)

Definition check_resize_validity (orig_hp new_hp : Z) : M St cuckoo_status :=
  mhp ← gets maximum_hashpower_;
  if negb (mhp =? NO_MAXIMUM_HASHPOWER) && (mhp <? new_hp) then throw maximum_hashpower_exceeded else
  hp ← hashpower_now;
  if negb (hp =? orig_hp) then mret failure_under_expansion else mret ok.

(** The new array of locks is taken and replaces the current one. *)
Definition maybe_resize_locks (new_bucket_count : Z) : M St () :=
  s ← get;
  let k := locks s in
  if negb ((n_locks k <? kMaxNumLocks) && (n_locks k <? new_bucket_count)) then mret () else
  let n := Z.min kMaxNumLocks new_bucket_count in
  assertM (n_locks k <? n);;
  modify_locks (fun k => MkLocks n (elem_counters k) (unmigrated k) (full n)).

(** Without extra worker threads, as by default. *)
Definition rehash_with_workers : M St () :=
  s ← get;
  for_each (range 0 (n_locks (locks s))) (rehash_lock false);;
  num_remaining_lazy_rehash_locks 0.

(** [old_buckets_.swap(buckets_); buckets_ = buckets_t(new_hp)]: the second statement
    throws when the allocation fails, after the first one. *)
Definition swap_in_new_buckets (new_hp : Z) : M St () :=
  s ← get;
  let '(old, cur) := swap (old_buckets_ s) (buckets_ s) in
  set_old_buckets old;;
  set_buckets cur;;
  match bucket_container new_ok new_hp with
  | None => throw bad_alloc
  | Some new => b ← lift (move_assign cur new); set_buckets b
  end.

Definition cuckoo_fast_double (locked : bool) (current_hp : Z) : M St cuckoo_status :=
  let new_hp := current_hp + 1 in
  lock_all locked;;
  finally
    (st ← check_resize_validity current_hp new_hp;
     if negb (bool_decide (st = ok)) then mret st else
     rehash_with_workers;;
     maybe_resize_locks (hashsize new_hp);;
     swap_in_new_buckets new_hp;;
     s ← get;
     (if size (old_buckets_ s) <? kMaxNumLocks then
        for_each (range 0 (size (old_buckets_ s))) move_bucket;;
        num_remaining_lazy_rehash_locks 0
      else
        modify_locks (fun k => set_unmigrated (full (n_locks k)) k);;
        num_remaining_lazy_rehash_locks (n_locks (locks s));;
        if locked then rehash_with_workers else mret ());;
     mret ok)
    (unlock_all locked).

Fixpoint cuckoo_insert_loop (fuel : nat) (locked : bool) (hv : hash_value) (b : TwoBuckets) (key : Z) :
    M St (table_position * TwoBuckets) :=
  match fuel with
  | O => hang
  | Datatypes.S fuel =>
    hp ← hashpower_now;
    '(pos, b) ← cuckoo_insert (Datatypes.S fuel) locked hv b key;
    match status pos with
    | ok | failure_key_duplicated => mret (pos, b)
    | failure_table_full =>
      cuckoo_fast_double locked hp;;
      b ← snapshot_and_lock_two (Datatypes.S fuel) locked hv;
      cuckoo_insert_loop fuel locked hv b key
    | failure_under_expansion =>
      b ← snapshot_and_lock_two (Datatypes.S fuel) locked hv;
      cuckoo_insert_loop fuel locked hv b key
    | _ => assertM false;; cuckoo_insert_loop fuel locked hv b key
    end
  end.

Definition add_counter (bucket_ind d : Z) : M St () :=
  let l := lock_ind bucket_ind in
  holds l;;
  modify_locks (fun k => set_counter l (elem_counter k l + d) k).

Definition add_to_bucket (bucket_ind slot partial key : Z) (v : V) : M St () :=
  buckets_setKV bucket_ind slot partial key v;;
  add_counter bucket_ind 1.

Definition del_from_bucket (bucket_ind slot : Z) : M St () :=
  buckets_eraseKV bucket_ind slot;;
  add_counter bucket_ind (-1).

(** [buckets_[index].mapped(slot)], read. *)
Definition mapped (index slot : Z) : M St V :=
  b ← read_bucket index; e ← lift (live b slot); mret (e_val e).

(** ** The operations of the map *)

(** [None]: the key was not found; otherwise what the functor computed. *)
Definition find_fn {A} (fuel : nat) (key : Z) (fn : V -> A) : M St (option A) :=
  let hv := hashed_key key in
  b ← snapshot_and_lock_two fuel false hv;
  finally
    (pos ← cuckoo_find key (hv_partial hv) (i1 b) (i2 b);
     if decide (status pos = ok) then v ← mapped (index pos) (slot pos); mret (Some (fn v))
     else mret None)
    (two_destroy b).

Definition update_fn (fuel : nat) (key : Z) (fn : V -> V) : M St bool :=
  let hv := hashed_key key in
  b ← snapshot_and_lock_two fuel false hv;
  finally
    (pos ← cuckoo_find key (hv_partial hv) (i1 b) (i2 b);
     if decide (status pos = ok) then
       v ← mapped (index pos) (slot pos);
       buckets_set_mapped (index pos) (slot pos) (fn v);;
       mret true
     else mret false)
    (two_destroy b).

Definition erase_fn (fuel : nat) (key : Z) (fn : V -> V * bool) : M St bool :=
  let hv := hashed_key key in
  b ← snapshot_and_lock_two fuel false hv;
  finally
    (pos ← cuckoo_find key (hv_partial hv) (i1 b) (i2 b);
     if decide (status pos = ok) then
       v ← mapped (index pos) (slot pos);
       let '(v, erase) := fn v in
       buckets_set_mapped (index pos) (slot pos) v;;
       (if erase then del_from_bucket (index pos) (slot pos) else mret ());;
       mret true
     else mret false)
    (two_destroy b).

(** [internal::InvokeUpraseFn] on the value [v]. *)
Definition InvokeUpraseFn (f : upsert_functor V) (v : V) (context : UpsertContext) : V * bool :=
  match f with
  | WithContext f => f v context
  | WithoutContext f =>
    match context with
    | ALREADY_EXISTED => f v
    | NEWLY_INSERTED => (v, false)
    end
  end.

Definition uprase_fn (fuel : nat) (key : Z) (fn : upsert_functor V) (val : V) : M St bool :=
  let hv := hashed_key key in
  b ← snapshot_and_lock_two fuel false hv;
  '(pos, b) ← cuckoo_insert_loop fuel false hv b key;
  finally
    ((if decide (status pos = ok) then add_to_bucket (index pos) (slot pos) (hv_partial hv) key val else mret ());;
     let upsert_context := if decide (status pos = ok) then NEWLY_INSERTED else ALREADY_EXISTED in
     v ← mapped (index pos) (slot pos);
     let '(v, erase) := InvokeUpraseFn fn v upsert_context in
     buckets_set_mapped (index pos) (slot pos) v;;
     (if erase then del_from_bucket (index pos) (slot pos) else mret ());;
     mret (bool_decide (status pos = ok)))
    (two_destroy b).

(** [internal::UpsertToUpraseFn]: a functor that never erases. *)
Definition UpsertToUpraseFn (f : upsert_functor V) : upsert_functor V :=
  match f with
  | WithContext f => WithContext (fun v context => (fst (f v context), false))
  | WithoutContext f => WithoutContext (fun v => (fst (f v), false))
  end.

Definition upsert (fuel : nat) (key : Z) (fn : upsert_functor V) (val : V) : M St bool :=
  uprase_fn fuel key (UpsertToUpraseFn fn) val.

(** [find(key, val)]: the value that is copied, if the key is found. *)
Definition find (fuel : nat) (key : Z) : M St (option V) := find_fn fuel key (fun v => v).

(** [find(key)]. *)
Definition find_or_throw (fuel : nat) (key : Z) : M St V :=
  let hv := hashed_key key in
  b ← snapshot_and_lock_two fuel false hv;
  finally
    (pos ← cuckoo_find key (hv_partial hv) (i1 b) (i2 b);
     if decide (status pos = ok) then mapped (index pos) (slot pos) else throw out_of_range)
    (two_destroy b).

Definition contains (fuel : nat) (key : Z) : M St bool :=
  r ← find_fn fuel key (fun _ => ()); mret (match r with Some _ => true | None => false end).

Definition update (fuel : nat) (key : Z) (val : V) : M St bool := update_fn fuel key (fun _ => val).

Definition insert (fuel : nat) (key : Z) (val : V) : M St bool :=
  upsert fuel key (WithoutContext (fun v => (v, false))) val.

Definition insert_or_assign (fuel : nat) (key : Z) (val : V) : M St bool :=
  upsert fuel key (WithoutContext (fun _ => (val, false))) val.

Definition erase (fuel : nat) (key : Z) : M St bool := erase_fn fuel key (fun v => (v, true)).

(** [size()]: the sum of the counters of all locks. *)
Definition map_size : M St Z :=
  s ← get;
  let k := locks s in
  if n_locks k =? 0 then mret 0 else
  let n := zsum (elem_counter k <$> range 0 (n_locks k)) in
  assertM (0 <=? n);;
  mret n.

Definition empty : M St bool := n ← map_size; mret (n =? 0).

Definition bucket_count : M St Z := gets (fun s => size (buckets_ s)).

Definition capacity : M St Z := n ← bucket_count; mret (wrap 64 (n * slot_per_bucket)).

Definition set_maximum_hashpower (mhp : Z) : M St () :=
  hp ← hashpower_now;
  if mhp <? hp then throw invalid_argument else
  modify (fun s => MkMap (buckets_ s) (old_buckets_ s) (locks s) (num_remaining_lazy_rehash_locks_ s) mhp).

Definition cuckoo_clear : M St () :=
  s ← get;
  b ← lift (Buckets.clear (buckets_ s));
  set_buckets b;;
  num_remaining_lazy_rehash_locks 0;;
  modify_locks (fun k => MkLocks (n_locks k) ∅ ∅ (held k)).

Definition clear : M St () :=
  lock_all false;; finally cuckoo_clear (unlock_all false).

(** The constructor for [n] elements: no map when the allocation fails. *)
Definition cuckoohash_map (n : Z) : outcome (option St) :=
  hp ← reserve_calc n;
  Ok (match bucket_container new_ok hp, bucket_container new_ok 0 with
      | Some b, Some old =>
        Some (MkMap b old (MkLocks (Z.min (size b) kMaxNumLocks) ∅ ∅ ∅) 0 NO_MAXIMUM_HASHPOWER)
      | _, _ => None
      end).

(** [a.swap(b)]: the new [a] and the new [b]; [old_buckets_] and the number of
    remaining locks stay where they are. *)
Definition map_swap (a b : St) : St * St :=
  let '(ba, bb) := swap (buckets_ a) (buckets_ b) in
  (MkMap ba (old_buckets_ a) (locks b) (num_remaining_lazy_rehash_locks_ a) (maximum_hashpower_ b),
   MkMap bb (old_buckets_ b) (locks a) (num_remaining_lazy_rehash_locks_ b) (maximum_hashpower_ a)).

End Cuckoo.
