(* ===== verification/CuckooFacts.v ===== *)
(** Facts for the cuckoo map: the postconditions of its monad and the algebra of the
    bucket indices. *)
From S2P Require Import Prelude Words Outcome Buckets Cuckoo.

(** ** Postconditions *)

(** [m] returns from [s] with [Q], or throws with [E]; it does not fail, block or run
    out of fuel. *)
Definition wp {S A} (m : M S A) (s : S) (Q : A -> S -> Prop) (E : exn -> S -> Prop) : Prop :=
  match m s with
  | Ok (s', inl a) => Q a s'
  | Ok (s', inr e) => E e s'
  | _ => False
  end.

(** The postcondition of a computation that does not throw. *)
Definition never {S} : exn -> S -> Prop := fun _ _ => False.

Section Rules.
Context {S : Type}.
Implicit Types (s : S) (E : exn -> S -> Prop).

Lemma wp_mono {A} (m : M S A) s Q Q' E E' :
  wp m s Q E -> (forall a s', Q a s' -> Q' a s') -> (forall e s', E e s' -> E' e s') -> wp m s Q' E'.
Proof. unfold wp. destruct (m s) as [[s' [a|e]]| | |]; auto. Qed.

Lemma wp_bind {A B} (m : M S A) (f : A -> M S B) s Q E :
  wp m s (fun a s' => wp (f a) s' Q E) E -> wp (m ≫= f) s Q E.
Proof. unfold wp, mbind, M_bind. destruct (m s) as [[s' [a|e]]| | |]; simpl; auto. Qed.

(** The rule for a step with a specification. *)
Lemma wp_seq {A B} (m : M S A) (f : A -> M S B) s P Q E :
  wp m s P never -> (forall a s', P a s' -> wp (f a) s' Q E) -> wp (m ≫= f) s Q E.
Proof. intros Hm Hf. apply wp_bind. eapply wp_mono; [exact Hm|exact Hf|done]. Qed.

Lemma wp_conseq {A} (m : M S A) s P Q E :
  wp m s P never -> (forall a s', P a s' -> Q a s') -> wp m s Q E.
Proof. intros Hm Hf. eapply wp_mono; [exact Hm|exact Hf|done]. Qed.

Lemma wp_ret {A} (a : A) s (Q : A -> S -> Prop) E : Q a s -> wp (mret a) s Q E.
Proof. done. Qed.

Lemma wp_get s (Q : S -> S -> Prop) E : Q s s -> wp get s Q E.
Proof. done. Qed.

Lemma wp_gets {A} (f : S -> A) s (Q : A -> S -> Prop) E : Q (f s) s -> wp (gets f) s Q E.
Proof. done. Qed.

Lemma wp_modify f s (Q : () -> S -> Prop) E : Q () (f s) -> wp (modify f) s Q E.
Proof. done. Qed.

Lemma wp_lift {A} (o : outcome A) a s (Q : A -> S -> Prop) E : o = Ok a -> Q a s -> wp (lift o) s Q E.
Proof. intros ->. done. Qed.

Lemma wp_assert b s (Q : () -> S -> Prop) E : b = true -> Q () s -> wp (assertM b) s Q E.
Proof. intros ->. done. Qed.

Lemma wp_throw {A} e s (Q : A -> S -> Prop) E : E e s -> wp (throw e) s Q E.
Proof. done. Qed.

Lemma wp_catch {A} (m h : M S A) s Q E :
  wp m s Q (fun e s' => e <> hashpower_changed /\ E e s') -> wp (catch m h) s Q E.
Proof.
  unfold wp, catch. destruct (m s) as [[s' [a|e]]| | |]; simpl; [done| |done..]. intros [Hne He]. by destruct e.
Qed.

Lemma wp_finally {A} (m : M S A) (r : M S ()) s Q E :
  wp m s (fun a s' => wp r s' (fun _ s'' => Q a s'') never) (fun e s' => wp r s' (fun _ s'' => E e s'') never) ->
  wp (finally m r) s Q E.
Proof.
  unfold wp, finally. destruct (m s) as [[s' [a|e]]| | |]; simpl; [| |done..];
    (destruct (r s') as [[s'' [[]|e']]| | |]; simpl; done).
Qed.

(** A loop with an invariant indexed by the elements that are done. *)
Lemma wp_for_each {A} (body : A -> M S ()) (I : list A -> S -> Prop) l s :
  I [] s ->
  (forall dn a rest s, l = dn ++ a :: rest -> I dn s -> wp (body a) s (fun _ s' => I (dn ++ [a]) s') never) ->
  wp (for_each l body) s (fun _ s' => I l s') never.
Proof.
  intros H0 Hstep.
  enough (forall rest dn s, l = dn ++ rest -> I dn s -> wp (for_each rest body) s (fun _ s' => I l s') never) as H
    by by apply (H l []).
  clear s H0. induction rest as [|a rest IH]; intros dn s Hl Hs; cbn [for_each].
  - apply wp_ret. by rewrite Hl, app_nil_r.
  - eapply wp_seq; [by apply (Hstep dn a rest)|]. intros [] s' Hs'.
    apply (IH (dn ++ [a])); [by rewrite <- app_assoc|done].
Qed.

End Rules.

(** Steps of a proof of [wp]: [wp_auto] runs the primitive steps, [wp_use] applies a
    specification to the next one. *)
Ltac wp_step :=
  lazymatch goal with
  | |- wp (mret _) _ _ _ => apply wp_ret
  | |- wp get _ _ _ => apply wp_get
  | |- wp (gets _) _ _ _ => apply wp_gets
  | |- wp (modify _) _ _ _ => apply wp_modify
  | |- wp (throw _) _ _ _ => apply wp_throw
  | |- wp (mbind _ _) _ _ _ => apply wp_bind
  | |- wp (let '(_, _) := ?p in _) _ _ _ => destruct p
  end; cbv beta.

Ltac wp_auto := repeat wp_step.

Tactic Notation "wp_use" uconstr(lem) "as" simple_intropattern(pat) :=
  eapply wp_conseq; [eapply lem|intros ? ? pat].

(** ** Bucket indices *)

Definition small_hp (hp : Z) : Prop := 0 <= hp < 63.

Lemma hashsize_pow hp : 0 <= hp < 64 -> hashsize hp = 2 ^ hp.
Proof.
  intros H. unfold hashsize. rewrite Z.shiftl_1_l. apply wrap_small.
  split; [apply Z.pow_nonneg; lia|]. apply Z.pow_lt_mono_r; lia.
Qed.

Lemma pow2_bounds hp : 0 <= hp < 64 -> 1 <= 2 ^ hp < 2 ^ 64.
Proof.
  intros H. pose proof (Z.pow_pos_nonneg 2 hp ltac:(lia) ltac:(lia)).
  pose proof (Z.pow_lt_mono_r 2 hp 64 ltac:(lia) ltac:(lia) ltac:(lia)). lia.
Qed.

Lemma hashmask_ones hp : 0 <= hp < 64 -> hashmask hp = Z.ones hp.
Proof.
  intros H. unfold hashmask. rewrite hashsize_pow, Z.ones_equiv by lia. pose proof (pow2_bounds hp H).
  rewrite wrap_small; lia.
Qed.

(** The bits below [hp]. *)
Definition low (hp i : Z) : Z := Z.land i (Z.ones hp).

Lemma low_mod hp i : 0 <= hp -> low hp i = i mod 2 ^ hp.
Proof. intros. unfold low. apply Z.land_ones. lia. Qed.

Lemma low_range hp i : 0 <= hp -> 0 <= low hp i < 2 ^ hp.
Proof. intros. rewrite low_mod by done. apply Z.mod_pos_bound. apply Z.pow_pos_nonneg; lia. Qed.

Lemma low_small hp i : 0 <= i < 2 ^ hp -> 0 <= hp -> low hp i = i.
Proof. intros. rewrite low_mod by done. by apply Z.mod_small. Qed.

Lemma low_low m n i : 0 <= m <= n -> low m (low n i) = low m i.
Proof.
  intros H. unfold low. bits_ext b. autorewrite with zbits.
  destruct (Z.leb_spec 0 b), (Z.ltb_spec b m), (Z.ltb_spec b n), (Z.testbit i b); try done; exfalso; lia.
Qed.

Lemma index_hash_low hp h : 0 <= hp < 64 -> index_hash hp h = low hp h.
Proof. intros. unfold index_hash. by rewrite hashmask_ones. Qed.

Lemma index_hash_range hp h : 0 <= hp < 64 -> 0 <= index_hash hp h < 2 ^ hp.
Proof. intros. rewrite index_hash_low by done. apply low_range; lia. Qed.

(** What the alternative index adds to an index. *)
Definition tag (p : Z) : Z := wrap 64 (wrap 64 (p + 1) * 0xc6a4a7935bd1e995).

Lemma alt_index_low hp p i : 0 <= hp < 64 -> alt_index hp p i = low hp (Z.lxor i (tag p)).
Proof. intros H. unfold alt_index. by rewrite hashmask_ones. Qed.

Lemma alt_index_range hp p i : 0 <= hp < 64 -> 0 <= alt_index hp p i < 2 ^ hp.
Proof. intros H. rewrite alt_index_low by done. apply low_range; lia. Qed.

(** The alternative of the alternative is the index itself. *)
Lemma alt_index_invol hp p i :
  0 <= hp < 64 -> 0 <= i < 2 ^ hp -> alt_index hp p (alt_index hp p i) = i.
Proof.
  intros H Hi. rewrite !alt_index_low by done.
  transitivity (low hp i); [|by apply low_small; lia]. unfold low. bits_ext b. autorewrite with zbits.
  destruct (Z.testbit i b), (Z.testbit (tag p) b), ((0 <=? b) && (b <? hp)); done.
Qed.

(** Doubling adds one bit at the top of both indices. *)
Lemma index_hash_double hp h : 0 <= hp < 63 -> low hp (index_hash (hp + 1) h) = index_hash hp h.
Proof. intros. rewrite !index_hash_low by lia. apply low_low. lia. Qed.

Lemma alt_index_double hp p i :
  0 <= hp < 63 -> low hp (alt_index (hp + 1) p i) = alt_index hp p (low hp i).
Proof.
  intros H. rewrite !alt_index_low by lia.
  rewrite low_low by lia. unfold low. bits_ext b. autorewrite with zbits.
  destruct (Z.testbit i b), (Z.testbit (tag p) b), ((0 <=? b) && (b <? hp)); done.
Qed.

(** An index of the doubled table is an index of the old one, or [2 ^ hp] more. *)
Lemma low_cases hp i : 0 <= hp -> 0 <= i < 2 ^ (hp + 1) -> i = low hp i \/ i = low hp i + 2 ^ hp.
Proof.
  intros Hhp Hi. rewrite low_mod by done. rewrite Z.pow_add_r, Z.pow_1_r in Hi by lia.
  assert (0 < 2 ^ hp) by (apply Z.pow_pos_nonneg; lia).
  pose proof (Z.div_mod i (2 ^ hp) ltac:(lia)). pose proof (Z.mod_pos_bound i (2 ^ hp) ltac:(lia)).
  assert (0 <= i / 2 ^ hp < 2) by (split; [apply Z.div_pos; lia|apply Z.div_lt_upper_bound; lia]).
  assert (i / 2 ^ hp = 0 \/ i / 2 ^ hp = 1) as [Hq|Hq] by lia; rewrite Hq in *; lia.
Qed.

Lemma low_add hp i : 0 <= hp -> low hp (i + 2 ^ hp) = low hp i.
Proof.
  intros. rewrite !low_mod by done. rewrite <- (Z.mul_1_l (2 ^ hp)) at 1. apply Z_mod_plus_full.
Qed.

(** ** Locks *)

Lemma lock_ind_low i : lock_ind i = low 16 i.
Proof. reflexivity. Qed.

Lemma lock_ind_range i : 0 <= lock_ind i < kMaxNumLocks.
Proof. rewrite lock_ind_low. apply low_range. lia. Qed.

Lemma lock_ind_of_low hp i : 16 <= hp -> lock_ind (low hp i) = lock_ind i.
Proof. intros. rewrite !lock_ind_low. by apply low_low. Qed.

(** A bucket of a table of at most [2 ^ 16] buckets has its own lock. *)
Lemma lock_ind_bound hp i n :
  0 <= hp -> 0 <= i < 2 ^ hp -> Z.min (2 ^ hp) kMaxNumLocks <= n -> 0 <= lock_ind i < n.
Proof.
  intros Hhp Hi Hn. pose proof (lock_ind_range i) as Hl. split; [lia|].
  destruct (Z.le_gt_cases (2 ^ hp) kMaxNumLocks) as [Hle|Hgt]; [|lia].
  assert (lock_ind i = i) as ->; [|lia]. rewrite lock_ind_low. apply low_small; [|lia].
  unfold kMaxNumLocks in Hle. rewrite Z.shiftl_1_l in Hle. lia.
Qed.

(** ** Homes *)

(** The two buckets of a hash value. *)
Definition home (hp h i : Z) : Prop :=
  i = index_hash hp h \/ i = alt_index hp (partial_key h) (index_hash hp h).

Lemma home_range hp h i : 0 <= hp < 64 -> home hp h i -> 0 <= i < 2 ^ hp.
Proof. intros H [->| ->]; [by apply index_hash_range|by apply alt_index_range]. Qed.

(** The alternative of a home is the other home. *)
Lemma home_alt hp h i : 0 <= hp < 64 -> home hp h i -> home hp h (alt_index hp (partial_key h) i).
Proof.
  intros H [->| ->]; [by right|left]. apply alt_index_invol; [done|]. by apply index_hash_range.
Qed.

Lemma home_double hp h i : 0 <= hp < 63 -> home (hp + 1) h i -> home hp h (low hp i).
Proof.
  intros H [->| ->]; [left; by apply index_hash_double|right].
  rewrite alt_index_double by done. by rewrite index_hash_double.
Qed.
