(* ===== verification/CuckooView.v ===== *)
(** The logical table behind lazy rehashing: [view] is the content of every slot as if
    all locks were migrated, [shape] the invariant of the state, and the operations on
    locks change neither. *)
From S2P Require Import Prelude Words Outcome Buckets Cuckoo CuckooFacts.

Section View.
Context {V : Type} (hash_function : Z -> Z).

Abbreviation St := (map_t V).
Implicit Types (s : St) (e : entry V) (p : Z * Z) (hp ob : Z).

Abbreviation hash_of e := (hash_function (e_key e)).

(** An entry that bucket [i] of a table of [2 ^ hp] buckets may hold. *)
Definition placed (hp i : Z) (e : entry V) : Prop :=
  e_partial e = partial_key (hash_of e) /\ home hp (hash_of e) i.

(** ** Migration of one bucket *)

Lemma move_dst_spec hp ob j n e :
  0 <= hp < 63 -> placed hp ob e ->
  (move_dst hp (hp + 1) ob j n (hashed_key hash_function (e_key e)) = (ob + 2 ^ hp, n, n + 1, true) /\
   placed (hp + 1) (ob + 2 ^ hp) e) \/
  (move_dst hp (hp + 1) ob j n (hashed_key hash_function (e_key e)) = (ob, j, n, true) /\ placed (hp + 1) ob e).
Proof.
  intros Hhp [Hpar Hhome]. set (h := hash_of e) in *.
  assert (0 <= ob < 2 ^ hp) as Hob by (by apply (home_range hp h); [lia|]).
  assert (forall i, 0 <= i < 2 ^ (hp + 1) -> low hp i = ob -> i = ob \/ i = ob + 2 ^ hp) as Hcase.
  { intros i Hi <-. by apply low_cases; [lia|]. }
  pose proof (index_hash_double hp h Hhp) as Hd1. pose proof (index_hash_range (hp + 1) h ltac:(lia)) as Hr1.
  pose proof (alt_index_double hp (partial_key h) (index_hash (hp + 1) h) Hhp) as Hd2.
  pose proof (alt_index_range (hp + 1) (partial_key h) (index_hash (hp + 1) h) ltac:(lia)) as Hr2.
  rewrite Hd1 in Hd2. unfold placed, home. fold h.
  assert (2 ^ hp < 2 ^ 63) by (apply Z.pow_lt_mono_r; lia).
  unfold move_dst. cbn [hashed_key hv_hash hv_partial]. fold h. rewrite hashsize_pow by lia.
  rewrite (wrap_small 64) by (split; [|change (2 ^ 64) with (2 * 2 ^ 63)]; lia).
  set (ih := index_hash (hp + 1) h) in *. set (ah := alt_index (hp + 1) (partial_key h) ih) in *.
  set (oi := index_hash hp h) in *. set (oa := alt_index hp (partial_key h) oi) in *.
  assert (ob = oi -> ih = ob \/ ih = ob + 2 ^ hp) as Hi by (intros ->; by apply Hcase).
  assert (ob = oa -> ah = ob \/ ah = ob + 2 ^ hp) as Ha by (intros ->; by apply Hcase).
  assert (ob = oi \/ ob = oa) as Hor by done. clearbody ih ah oi oa.
  destruct (Z.eqb_spec ob oi) as [E1|E1], (Z.eqb_spec ih (ob + 2 ^ hp)) as [E2|E2],
    (Z.eqb_spec ob oa) as [E3|E3], (Z.eqb_spec ah (ob + 2 ^ hp)) as [E4|E4]; cbn [andb orb];
    try (left; split; [done|]; split; [done|]; lia); right;
    (split; [|split; [done|lia]]); f_equal; rewrite ?orb_true_iff, ?Z.eqb_eq; lia.
Qed.

(** The moves of [move_slots] for the slots [l] of bucket [ob]: the old slot, the new
    position and the entry. *)
Fixpoint plan (hp ob : Z) (old : gmap (Z * Z) (entry V)) (l : list Z) (n : Z) : list (Z * (Z * Z) * entry V) :=
  match l with
  | [] => []
  | j :: l =>
    match old !! (ob, j) with
    | None => plan hp ob old l n
    | Some e =>
      let '(i, j', n, _) := move_dst hp (hp + 1) ob j n (hashed_key hash_function (e_key e)) in
      (j, (i, j'), e) :: plan hp ob old l n
    end
  end.

(** The entries of [old] are where they belong. *)
Definition all_placed (hp : Z) (old : gmap (Z * Z) (entry V)) : Prop :=
  forall i j e, old !! (i, j) = Some e -> placed hp i e.

Lemma plan_origin hp ob old l n j p e :
  (j, p, e) ∈ plan hp ob old l n -> j ∈ l /\ old !! (ob, j) = Some e.
Proof.
  revert n. induction l as [|j0 l IH]; intros n; cbn [plan]; [by intros ?%not_elem_of_nil|].
  destruct (old !! (ob, j0)) as [e0|] eqn:He; [|intros [? ?]%IH; by split; [right|]].
  destruct (move_dst _ _ _ _ _ _) as [[[i j'] n'] b]. rewrite elem_of_cons. intros [Heq|[? ?]%IH].
  - simplify_eq. split; [left|done].
  - by split; [right|].
Qed.

Lemma plan_complete hp ob old l n j e :
  j ∈ l -> old !! (ob, j) = Some e -> exists p, (j, p, e) ∈ plan hp ob old l n.
Proof.
  revert n. induction l as [|j0 l IH]; intros n; [by intros ?%not_elem_of_nil|]. cbn [plan].
  rewrite elem_of_cons. intros [->|Hj] He.
  - rewrite He. destruct (move_dst _ _ _ _ _ _) as [[[i j'] n'] b]. eexists. left.
  - destruct (old !! (ob, j0)) as [e0|]; [|by apply IH].
    destruct (move_dst _ _ _ _ _ _) as [[[i j'] n'] b]. destruct (IH n' Hj He) as [p Hp]. exists p. by right.
Qed.

(** The position of a move: the same slot, or one of the next slots of the new bucket. *)
Lemma plan_position hp ob old l n j p e :
  0 <= hp < 63 -> all_placed hp old -> (j, p, e) ∈ plan hp ob old l n ->
  placed (hp + 1) (p.1) e /\
  (p = (ob, j) \/ (p.1 = ob + 2 ^ hp /\ n <= p.2 < n + Z.of_nat (length l))).
Proof.
  intros Hhp Hold. revert n. induction l as [|j0 l IH]; intros n; cbn [plan length]; [by intros ?%not_elem_of_nil|].
  destruct (old !! (ob, j0)) as [e0|] eqn:He.
  - destruct (move_dst_spec hp ob j0 n e0 Hhp (Hold _ _ _ He)) as [[-> Hpl]|[-> Hpl]];
      rewrite elem_of_cons; (intros [Heq|[? Hor]%IH]; [simplify_eq; simpl; split; [done|]|split; [done|]]).
    + right. lia.
    + destruct Hor as [?|?]; [by left|right; lia].
    + by left.
    + destruct Hor as [?|?]; [by left|right; lia].
  - intros [? [?|?]]%IH; (split; [done|]); [by left|right; lia].
Qed.

Lemma plan_NoDup hp ob old l n :
  0 <= hp < 63 -> all_placed hp old -> NoDup l ->
  NoDup ((fun m => m.1.2) <$> plan hp ob old l n).
Proof.
  intros Hhp Hold Hl. revert n. induction Hl as [|j l Hj Hl IH]; intros n; cbn [plan]; [apply NoDup_nil_2|].
  destruct (old !! (ob, j)) as [e|] eqn:He; [|apply IH].
  assert (0 < 2 ^ hp) by (apply Z.pow_pos_nonneg; lia).
  destruct (move_dst_spec hp ob j n e Hhp (Hold _ _ _ He)) as [[-> _]|[-> _]];
    rewrite fmap_cons; apply NoDup_cons; (split; [|apply IH]); simpl;
    intros ([[j1 p1] e1] & Heq & Hin)%list_elem_of_fmap; simpl in Heq; subst p1;
    pose proof (plan_origin _ _ _ _ _ _ _ _ Hin) as [Hj1 _];
    apply plan_position in Hin as [_ Hin]; try done; simpl in Hin; (destruct Hin as [Hin|?]; [injection Hin; intros|]); first [lia|congruence].
Qed.

(** Each old slot moves to one position. *)
Lemma plan_functional hp ob old l n j p p' e e' :
  NoDup l -> (j, p, e) ∈ plan hp ob old l n -> (j, p', e') ∈ plan hp ob old l n -> p = p'.
Proof.
  intros Hl. revert n. induction Hl as [|j0 l Hj Hl IH]; intros n; cbn [plan]; [by intros ?%not_elem_of_nil|].
  destruct (old !! (ob, j0)) as [e0|]; [|apply IH].
  destruct (move_dst _ _ _ _ _ _) as [[[i k] n'] b]. rewrite !elem_of_cons.
  intros [H1|H1] [H2|H2]; [congruence| | |by apply (IH n')].
  - apply plan_origin in H2 as [? _]. congruence.
  - apply plan_origin in H1 as [? _]. congruence.
Qed.

(** What migration puts into the new buckets. *)
Definition plan_cells (hp ob : Z) (old : gmap (Z * Z) (entry V)) (l : list Z) (n : Z) : gmap (Z * Z) (entry V) :=
  list_to_map ((fun m => (m.1.2, m.2)) <$> plan hp ob old l n).

Lemma plan_cells_spec hp ob old l n p e :
  0 <= hp < 63 -> all_placed hp old -> NoDup l ->
  plan_cells hp ob old l n !! p = Some e <-> exists j, (j, p, e) ∈ plan hp ob old l n.
Proof.
  intros Hhp Hold Hl. unfold plan_cells. rewrite <- elem_of_list_to_map.
  - rewrite list_elem_of_fmap. split.
    + intros ([[j p'] e'] & Heq & Hin). simplify_eq. by exists j.
    + intros [j Hin]. by exists (j, p, e).
  - rewrite <- list_fmap_compose. by apply plan_NoDup.
Qed.

(** ** The logical table *)

(** The content of a slot, migrated or not. *)
Definition view (s : St) (p : Z * Z) : option (entry V) :=
  if mem (lock_ind p.1) (unmigrated (locks s)) then
    let hp := hashpower (old_buckets_ s) in
    plan_cells hp (low hp p.1) (cells (old_buckets_ s)) slots 0 !! p
  else cells (buckets_ s) !! p.

(** The invariant of the state but for the number of remaining locks. *)
Record shape0 (s : St) : Prop := {
  sh_hp : small_hp (hashpower (buckets_ s));
  sh_alive : is_deallocated (buckets_ s) = false;
  sh_locks : Z.min (2 ^ hashpower (buckets_ s)) kMaxNumLocks <= n_locks (locks s) <= kMaxNumLocks;
  sh_bounds : in_bounds (buckets_ s);
  sh_old : small_hp (hashpower (old_buckets_ s)) /\ in_bounds (old_buckets_ s);
  sh_unmigrated : forall l, mem l (unmigrated (locks s)) = true -> 0 <= l < n_locks (locks s);
  sh_lazy : forall l, mem l (unmigrated (locks s)) = true ->
    n_locks (locks s) = kMaxNumLocks /\
    hashpower (old_buckets_ s) + 1 = hashpower (buckets_ s) /\
    16 <= hashpower (old_buckets_ s) /\
    is_deallocated (old_buckets_ s) = false /\
    all_placed (hashpower (old_buckets_ s)) (cells (old_buckets_ s));
  sh_fresh : forall p, mem (lock_ind p.1) (unmigrated (locks s)) = true -> cells (buckets_ s) !! p = None
}.

Definition shape (s : St) : Prop :=
  shape0 s /\ num_remaining_lazy_rehash_locks_ s = Z.of_nat (base.size (unmigrated (locks s))).

(** [s'] has the table [v], and all that locks depend on is as in [s]. *)
Record leads (s s' : St) (v : Z * Z -> option (entry V)) : Prop := {
  ld_shape : shape s';
  ld_hp : hashpower (buckets_ s') = hashpower (buckets_ s);
  ld_view : forall p, view s' p = v p;
  ld_n : n_locks (locks s') = n_locks (locks s);
  ld_counters : elem_counters (locks s') = elem_counters (locks s);
  ld_max : maximum_hashpower_ s' = maximum_hashpower_ s;
  ld_mono : forall l, mem l (unmigrated (locks s')) = true -> mem l (unmigrated (locks s)) = true
}.

(** Only locks and migration have changed. *)
Definition quiet (s s' : St) : Prop := leads s s' (view s).

Lemma quiet_refl s : shape s -> quiet s s.
Proof. by constructor. Qed.

Lemma leads_trans s s' s'' v v' : leads s s' v -> leads s' s'' v' -> leads s s'' v'.
Proof. intros [] []. constructor; try done; try congruence. auto. Qed.

Lemma quiet_trans s s' s'' : quiet s s' -> quiet s' s'' -> quiet s s''.
Proof.
  intros H1 H2. pose proof (leads_trans _ _ _ _ _ H1 H2) as []. constructor; try done.
  intros p. rewrite (ld_view _ _ _ H2). apply H1.
Qed.

Lemma leads_quiet s s' s'' v : leads s s' v -> quiet s' s'' -> leads s s'' v.
Proof.
  intros H1 H2. pose proof (leads_trans _ _ _ _ _ H1 H2) as []. constructor; try done.
  intros p. rewrite (ld_view _ _ _ H2). apply H1.
Qed.

End View.

Arguments view {V} _ _ _.
Arguments shape0 {V} _ _.
Arguments shape {V} _ _.
Arguments leads {V} _ _ _ _.
Arguments quiet {V} _ _ _.
Arguments placed {V} _ _ _ _.
Arguments quiet_trans {V hash_function s s' s''} _ _.
Arguments leads_trans {V hash_function s s' s'' v v'} _ _.
Arguments leads_quiet {V hash_function s s' s'' v} _ _.
Arguments ld_shape {V hash_function s s' v} _.
Arguments ld_hp {V hash_function s s' v} _.
Arguments ld_view {V hash_function s s' v} _ _.
Arguments ld_n {V hash_function s s' v} _.
Arguments ld_counters {V hash_function s s' v} _.
Arguments ld_max {V hash_function s s' v} _.
Arguments ld_mono {V hash_function s s' v} _ _ _.
