(* ===== verification/CuckooLocks.v ===== *)
(** Locks and lazy rehashing of the cuckoo map: taking a lock migrates its buckets, keeps
    the logical table, and gives access to the buckets of the lock. *)
From S2P Require Import Prelude Words Outcome Buckets Cuckoo CuckooFacts CuckooView.

(** ** Sets of locks *)

Lemma mem_add l l' s : mem l (add l' s) = (l =? l') || mem l s.
Proof.
  unfold mem, add. destruct (Z.eqb_spec l l') as [->|H]; [by rewrite lookup_insert_eq|].
  by rewrite lookup_insert_ne.
Qed.

Lemma mem_remove l l' s : mem l (remove l' s) = negb (l =? l') && mem l s.
Proof.
  unfold mem, remove. destruct (Z.eqb_spec l l') as [->|H]; [by rewrite lookup_delete_eq|].
  by rewrite lookup_delete_ne.
Qed.

Lemma mem_empty l : mem l ∅ = false.
Proof. done. Qed.

Lemma remove_add l s : mem l s = false -> remove l (add l s) = s.
Proof. unfold mem, remove, add. intros H. apply delete_insert_id. by destruct (s !! l). Qed.

Lemma add_comm l l' s : add l (add l' s) = add l' (add l s).
Proof.
  unfold add. destruct (decide (l = l')) as [->|Hne]; [done|]. by apply insert_insert_ne.
Qed.

Lemma mem_full l n : mem l (full n) = (0 <=? l) && (l <? n).
Proof.
  unfold full. enough (forall ls, mem l (foldr add ∅ ls) = bool_decide (l ∈ ls)) as ->.
  - destruct ((0 <=? l) && (l <? n)) eqn:E.
    + apply bool_decide_eq_true, elem_of_range. apply andb_true_iff in E. lia.
    + apply bool_decide_eq_false. rewrite elem_of_range. apply andb_false_iff in E. lia.
  - induction ls as [|a ls IH]; cbn [foldr]; [done|]. rewrite mem_add, IH.
    destruct (Z.eqb_spec l a) as [->|Hne]; cbn [orb].
    + symmetry. apply bool_decide_eq_true. left.
    + apply bool_decide_ext. rewrite elem_of_cons. naive_solver.
Qed.

Lemma lock_set_ext (s t : lock_set) : (forall l, mem l s = mem l t) -> s = t.
Proof.
  intros H. apply map_eq. intros l. specialize (H l). unfold mem in H.
  destruct (s !! l) as [[]|], (t !! l) as [[]|]; done.
Qed.

Lemma size_remove l s : mem l s = true -> base.size s = Datatypes.S (base.size (remove l s)).
Proof.
  unfold mem, remove. destruct (s !! l) as [[]|] eqn:H; [|done]. intros _.
  rewrite <- (map_size_insert_None l () (delete l s)) by apply lookup_delete_eq. by rewrite insert_delete_id.
Qed.

Lemma size_full n : 0 <= n -> Z.of_nat (base.size (full n)) <= n.
Proof.
  intros Hn. unfold full. assert (Z.of_nat (length (range 0 n)) = n) as Hl.
  { rewrite range_seqZ, length_seqZ. lia. }
  rewrite <- Hl at 2. clear Hl. apply Nat2Z.inj_le. induction (range 0 n) as [|a ls IH]; cbn [foldr length]; [done|].
  unfold add at 1. rewrite map_size_insert. destruct (_ !! a); unfold id; lia.
Qed.

Lemma mem_subseteq (s t : lock_set) : (forall l, mem l s = true -> mem l t = true) -> s ⊆ t.
Proof.
  intros H. apply map_subseteq_spec. intros l [] Hl. specialize (H l). unfold mem in H. rewrite Hl in H.
  destruct (t !! l) as [[]|]; [done|]. by specialize (H eq_refl).
Qed.

Create Rewrite HintDb locks.
#[export] Hint Rewrite mem_add mem_remove mem_empty mem_full Z.eqb_refl : locks.

(** The set of the locks of a list. *)
Definition lset (L : list Z) : lock_set := foldr add ∅ L.

Lemma mem_lset l L : mem l (lset L) = bool_decide (l ∈ L).
Proof.
  unfold lset. induction L as [|a L IH]; cbn [foldr]; [by rewrite bool_decide_false by apply not_elem_of_nil|].
  rewrite mem_add, IH. destruct (Z.eqb_spec l a) as [->|Hne]; cbn [orb].
  - symmetry. apply bool_decide_eq_true. left.
  - apply bool_decide_ext. rewrite elem_of_cons. naive_solver.
Qed.

(** Equations between sets of locks. *)
Ltac locks_ext :=
  apply lock_set_ext; intros ?; cbn [lset foldr]; autorewrite with locks;
  repeat match goal with |- context [?x =? ?y] => destruct (Z.eqb_spec x y) end; cbn; congruence || (try done).

Section Locks.
Context {V : Type} (hash_function : Z -> Z).

Abbreviation St := (map_t V).
Abbreviation view := (view hash_function).
Abbreviation shape0 := (shape0 hash_function).
Abbreviation shape := (shape hash_function).
Abbreviation leads := (leads hash_function).
Abbreviation quiet := (quiet hash_function).
Abbreviation plan := (plan hash_function).
Abbreviation plan_cells := (plan_cells hash_function).
Implicit Types (s : St) (e : entry V) (p : Z * Z) (hp ob : Z).

(** ** Updates of the state *)

Definition with_held (h : lock_set) (s : St) : St :=
  MkMap (buckets_ s) (old_buckets_ s) (set_held h (locks s)) (num_remaining_lazy_rehash_locks_ s)
    (maximum_hashpower_ s).

Definition with_cells (m : gmap (Z * Z) (entry V)) (s : St) : St :=
  MkMap (MkBuckets (hashpower (buckets_ s)) m (is_deallocated (buckets_ s))) (old_buckets_ s) (locks s)
    (num_remaining_lazy_rehash_locks_ s) (maximum_hashpower_ s).

Lemma shape_with_held h s : shape s -> shape (with_held h s).
Proof. intros [[] ?]. split; [constructor|]; done. Qed.

Lemma quiet_with_held h s : shape s -> quiet s (with_held h s).
Proof. intros H. constructor; try done. by apply shape_with_held. Qed.

Lemma quiet_held h s s' : quiet (with_held h s) s' -> quiet s s'.
Proof. by intros []. Qed.

(** ** Primitive steps *)

Lemma wp_lock l s (Q : () -> St -> Prop) E :
  0 <= l < n_locks (locks s) -> mem l (held (locks s)) = false ->
  Q () (with_held (add l (held (locks s))) s) -> wp (lock l) s Q E.
Proof.
  intros Hl Hm HQ. unfold lock. wp_auto. test (0 <=? l) is true. test (l <? n_locks (locks s)) is true.
  cbn [andb]. by rewrite Hm.
Qed.

Lemma wp_unlock l s (Q : () -> St -> Prop) E :
  Q () (with_held (remove l (held (locks s))) s) -> wp (unlock l) s Q E.
Proof. done. Qed.

Lemma wp_check_hashpower hp l s (Q : () -> St -> Prop) E :
  hp = hashpower (buckets_ s) -> Q () s -> wp (check_hashpower hp l) s Q E.
Proof. intros -> HQ. unfold check_hashpower, hashpower_now. wp_auto. by rewrite Z.eqb_refl. Qed.

Lemma wp_holds l s (Q : () -> St -> Prop) E : mem l (held (locks s)) = true -> Q () s -> wp (holds l) s Q E.
Proof. intros Hm HQ. unfold holds. wp_auto. by rewrite Hm. Qed.

(** ** Migration of a lock *)

Lemma wp_setKV ind j pk k v s (Q : () -> St -> Prop) E :
  small_hp (hashpower (buckets_ s)) -> is_deallocated (buckets_ s) = false ->
  mem (lock_ind ind) (held (locks s)) = true ->
  0 <= ind < 2 ^ hashpower (buckets_ s) -> 0 <= j < 4 -> cells (buckets_ s) !! (ind, j) = None ->
  Q () (with_cells (<[(ind, j) := MkEntry pk k v]> (cells (buckets_ s))) s) ->
  wp (buckets_setKV ind j pk k v) s Q E.
Proof.
  intros Hp Hd Hm Hi Hj Hn HQ. unfold buckets_setKV, small_hp in *. wp_step. apply wp_holds; [done|]. wp_auto.
  eapply wp_lift; [apply setKV_Ok; try done; lia|]. unfold set_buckets. wp_auto.
  unfold with_cells in HQ. by rewrite Hd in HQ.
Qed.

Lemma wp_eraseKV ind j e s (Q : () -> St -> Prop) E :
  small_hp (hashpower (buckets_ s)) -> is_deallocated (buckets_ s) = false ->
  mem (lock_ind ind) (held (locks s)) = true ->
  0 <= ind < 2 ^ hashpower (buckets_ s) -> 0 <= j < 4 -> cells (buckets_ s) !! (ind, j) = Some e ->
  Q () (with_cells (delete (ind, j) (cells (buckets_ s))) s) ->
  wp (buckets_eraseKV ind j) s Q E.
Proof.
  intros Hp Hd Hm Hi Hj Hn HQ. unfold buckets_eraseKV, small_hp in *. wp_step. apply wp_holds; [done|]. wp_auto.
  eapply wp_lift; [eapply eraseKV_Ok; try done; lia|]. unfold set_buckets. wp_auto.
  unfold with_cells in HQ. by rewrite Hd in HQ.
Qed.

Lemma wp_set_mapped ind j e v s (Q : () -> St -> Prop) E :
  small_hp (hashpower (buckets_ s)) -> is_deallocated (buckets_ s) = false ->
  mem (lock_ind ind) (held (locks s)) = true ->
  0 <= ind < 2 ^ hashpower (buckets_ s) -> 0 <= j < 4 -> cells (buckets_ s) !! (ind, j) = Some e ->
  Q () (with_cells (<[(ind, j) := MkEntry (e_partial e) (e_key e) v]> (cells (buckets_ s))) s) ->
  wp (buckets_set_mapped ind j v) s Q E.
Proof.
  intros Hp Hd Hm Hi Hj Hn HQ. unfold buckets_set_mapped, small_hp in *. wp_step. apply wp_holds; [done|]. wp_auto.
  eapply wp_lift; [eapply set_mapped_Ok; try done; lia|]. unfold set_buckets. wp_auto.
  unfold with_cells in HQ. by rewrite Hd in HQ.
Qed.

(** The buckets of both containers are usable and the new one is twice as large. *)
Definition doubling (s : St) : Prop :=
  small_hp (hashpower (buckets_ s)) /\ is_deallocated (buckets_ s) = false /\
  0 <= hashpower (old_buckets_ s) /\ hashpower (old_buckets_ s) + 1 = hashpower (buckets_ s) /\
  is_deallocated (old_buckets_ s) = false /\
  all_placed hash_function (hashpower (old_buckets_ s)) (cells (old_buckets_ s)).

Lemma plan_cells_cons hp ob old j e l n i k n' b :
  0 <= hp < 63 -> all_placed hash_function hp old -> NoDup (j :: l) -> old !! (ob, j) = Some e ->
  move_dst hp (hp + 1) ob j n (hashed_key hash_function (e_key e)) = (i, k, n', b) ->
  plan_cells hp ob old (j :: l) n = <[(i, k) := e]> (plan_cells hp ob old l n') /\
  plan_cells hp ob old l n' !! (i, k) = None.
Proof.
  intros Hhp Hold Hl He Hm. split.
  - unfold CuckooView.plan_cells. cbn [CuckooView.plan]. by rewrite He, Hm.
  - pose proof (plan_NoDup hash_function hp ob old (j :: l) n Hhp Hold Hl) as Hnd. cbn [CuckooView.plan] in Hnd.
    rewrite He, Hm in Hnd. cbn in Hnd. apply NoDup_cons in Hnd as [Hnd _].
    unfold CuckooView.plan_cells. apply not_elem_of_list_to_map_1. rewrite <- list_fmap_compose. exact Hnd.
Qed.

Lemma plan_cells_none (hp ob : Z) (old : gmap (Z * Z) (entry V)) (j : Z) (l : list Z) (n : Z) :
  old !! (ob, j) = None -> plan_cells hp ob old (j :: l) n = plan_cells hp ob old l n.
Proof. intros He. unfold CuckooView.plan_cells. cbn [CuckooView.plan]. by rewrite He. Qed.

(** The moves of one bucket fill empty slots and do nothing else. *)
Lemma wp_move_slots ob l n s :
  doubling s -> 0 <= ob < 2 ^ hashpower (old_buckets_ s) ->
  mem (lock_ind ob) (held (locks s)) = true ->
  mem (lock_ind (ob + 2 ^ hashpower (old_buckets_ s))) (held (locks s)) = true ->
  NoDup l -> Forall (fun j => 0 <= j < 4) l -> 0 <= n -> n + Z.of_nat (length l) <= 4 ->
  (forall p e, plan_cells (hashpower (old_buckets_ s)) ob (cells (old_buckets_ s)) l n !! p = Some e ->
    cells (buckets_ s) !! p = None) ->
  wp (move_slots hash_function ob l n) s (fun _ s' => s' = with_cells
    (plan_cells (hashpower (old_buckets_ s)) ob (cells (old_buckets_ s)) l n ∪ cells (buckets_ s)) s) never.
Proof.
  intros Hd Hob Hm1 Hm2 Hnd Hl. revert n s Hd Hob Hm1 Hm2. induction Hl as [|j l Hj Hl IH];
    intros n s Hd Hob Hm1 Hm2 Hn Hlen Hfree; cbn [move_slots].
  - apply wp_ret. unfold with_cells. unfold CuckooView.plan_cells. cbn. rewrite map_empty_union. by destruct s as [[]].
  - apply NoDup_cons in Hnd as Hnd'. destruct Hnd' as [Hjl Hnd'].
    destruct Hd as (Hhp & Ha & Hop & Heq & Hao & Hold) eqn:Hd'. unfold small_hp in Hhp. wp_auto.
    set (hp := hashpower (old_buckets_ s)) in *. set (old := cells (old_buckets_ s)) in *.
    eapply wp_lift; [apply at_Ok; try done; lia|]. wp_auto. eapply wp_lift; [by apply occupied_bucket|].
    fold old. destruct (old !! (ob, j)) as [e|] eqn:He.
    + rewrite bool_decide_true by by eexists. cbn [negb]. wp_auto. eapply wp_lift; [by apply live_bucket|]. cbv beta.
      rewrite <- Heq. destruct (move_dst _ _ _ _ _ _) as [[[i k] n'] b] eqn:Hdst.
      destruct (plan_cells_cons hp ob old j e l n i k n' b ltac:(lia) Hold Hnd He Hdst) as [Hcons Hnone].
      assert (b = true /\ n <= n' <= n + 1 /\ 0 <= i < 2 ^ (hp + 1) /\ 0 <= k < 4 /\
              mem (lock_ind i) (held (locks s)) = true) as (-> & Hn' & Hi & Hk & Hmi).
      { cbn [length] in Hlen. destruct (move_dst_spec hash_function hp ob j n e ltac:(lia) (Hold _ _ _ He))
          as [[Hmv [_ Hpl]]|[Hmv [_ Hpl]]]; rewrite Hmv in Hdst; simplify_eq;
          apply home_range in Hpl; try lia; repeat split; try done; lia. }
      wp_auto. apply wp_assert; [done|]. wp_step. cbn [length] in Hlen. apply wp_setKV; try done.
      * by rewrite <- Heq.
      * apply (Hfree _ e). rewrite Hcons. apply lookup_insert_eq.
      * destruct e as [pk ky v]. cbn [e_partial e_key e_val].
        eapply wp_conseq; [apply IH; try done; [lia..|]|].
        -- cbn [buckets_ with_cells cells old_buckets_]. fold hp old. intros p e' Hp.
           rewrite lookup_insert_ne; [|intros <-; congruence]. apply (Hfree _ e'). rewrite Hcons.
           rewrite lookup_insert_ne; [done|]. intros <-. congruence.
        -- intros [] s' ->. by rewrite Hcons, <- insert_union_l, insert_union_r.
    + rewrite bool_decide_false by by intros []. cbn [negb]. cbn [length] in Hlen. rewrite plan_cells_none in * by done.
      apply IH; try done; lia.
Qed.

Lemma slots_NoDup : NoDup slots.
Proof. by apply (bool_decide_unpack _). Qed.

Lemma slots_range : Forall (fun j => 0 <= j < 4) slots.
Proof. repeat constructor; lia. Qed.

(** Where the entries of one bucket go. *)
Lemma plan_cells_position hp ob (old : gmap (Z * Z) (entry V)) p e :
  0 <= hp < 63 -> all_placed hash_function hp old ->
  (forall j e, old !! (ob, j) = Some e -> 0 <= j < 4) ->
  plan_cells hp ob old slots 0 !! p = Some e ->
  placed hash_function (hp + 1) (p.1) e /\ (p.1 = ob \/ p.1 = ob + 2 ^ hp) /\ 0 <= p.2 < 4.
Proof.
  intros Hhp Hold Hj Hp. apply plan_cells_spec in Hp as [j Hp]; [|done|done|apply slots_NoDup].
  pose proof (plan_origin _ _ _ _ _ _ _ _ _ Hp) as [_ Ho]. apply Hj in Ho.
  apply plan_position in Hp as [Hpl [->|[? ?]]]; try done; change (Z.of_nat (length slots)) with 4 in *; (split; [exact Hpl|]); simpl in *; lia.
Qed.

Lemma wp_move_bucket ob s :
  doubling s -> in_bounds (old_buckets_ s) -> 0 <= ob < 2 ^ hashpower (old_buckets_ s) ->
  mem (lock_ind ob) (held (locks s)) = true ->
  mem (lock_ind (ob + 2 ^ hashpower (old_buckets_ s))) (held (locks s)) = true ->
  (forall p, low (hashpower (old_buckets_ s)) (p.1) = ob -> cells (buckets_ s) !! p = None) ->
  wp (move_bucket hash_function ob) s (fun _ s' => exists m, s' = with_cells m s /\
    forall p, m !! p = if low (hashpower (old_buckets_ s)) (p.1) =? ob
      then plan_cells (hashpower (old_buckets_ s)) ob (cells (old_buckets_ s)) slots 0 !! p
      else cells (buckets_ s) !! p) never.
Proof.
  intros Hd Hb Hob Hm1 Hm2 Hfree. set (hp := hashpower (old_buckets_ s)) in *.
  assert (forall p e, plan_cells hp ob (cells (old_buckets_ s)) slots 0 !! p = Some e -> low hp (p.1) = ob) as Hlow.
  { intros p e Hp. destruct Hd as (Hhp & _ & Hop & Heq & _ & Hold). unfold small_hp in Hhp.
    apply plan_cells_position in Hp as (_ & Hor & _); try done; [|lia|].
    - destruct Hor as [->| ->]; [|rewrite low_add by done]; by apply low_small.
    - intros j e' He. apply Hb in He. apply He. }
  unfold move_bucket. wp_step. apply wp_holds; [done|].
  wp_use wp_move_slots as ->; try done; [apply slots_NoDup|apply slots_range| |].
  - intros p e Hp. apply Hfree. by eapply Hlow.
  - eexists. split; [done|]. intros p. fold hp. rewrite lookup_union.
    destruct (plan_cells hp ob _ slots 0 !! p) as [e|] eqn:He.
    + rewrite (Hlow p e He), Z.eqb_refl. by destruct (cells (buckets_ s) !! p).
    + destruct (Z.eqb_spec (low hp (p.1)) ob) as [Hl|Hl]; [rewrite (Hfree _ Hl)|]; by destruct (cells (buckets_ s) !! p).
Qed.

Lemma elem_of_lock_buckets l sz ob :
  0 <= l < kMaxNumLocks -> ob ∈ lock_buckets l sz <-> l <= ob < sz /\ lock_ind ob = l.
Proof.
  intros Hl. change kMaxNumLocks with 65536 in *. unfold lock_buckets. rewrite list_elem_of_fmap.
  assert (forall x, lock_ind x = x mod 65536) as Hli by (intros; rewrite lock_ind_low, low_mod by lia; done).
  rewrite Hli. change kMaxNumLocks with 65536.
  pose proof (Z.div_mod (sz - l + 65536 - 1) 65536 ltac:(lia)) as Hdm.
  pose proof (Z.mod_pos_bound (sz - l + 65536 - 1) 65536 ltac:(lia)) as Hmb. split.
  - intros (n & -> & Hn%elem_of_range). rewrite Z_mod_plus_full, Z.mod_small by lia. split; [nia|done].
  - intros [Hr Hm]. exists (ob / 65536). pose proof (Z.div_mod ob 65536 ltac:(lia)).
    split; [lia|]. apply elem_of_range. split; [apply Z.div_pos; lia|]. nia.
Qed.

Lemma lock_buckets_NoDup l sz : NoDup (lock_buckets l sz).
Proof.
  unfold lock_buckets. rewrite range_seqZ. apply NoDup_fmap_2; [|apply NoDup_seqZ].
  intros x y H. change kMaxNumLocks with 65536 in H. lia.
Qed.

(** The loop of [rehash_lock]: the buckets of lock [l] become their logical content. *)
Lemma wp_move_lock l s :
  doubling s -> in_bounds (old_buckets_ s) -> 16 <= hashpower (old_buckets_ s) ->
  0 <= l < kMaxNumLocks -> mem l (held (locks s)) = true ->
  (forall p, lock_ind p.1 = l -> cells (buckets_ s) !! p = None) ->
  wp (for_each (lock_buckets l (size (old_buckets_ s))) (move_bucket hash_function)) s
    (fun _ s' => exists m, s' = with_cells m s /\ forall p, m !! p = if lock_ind p.1 =? l
      then plan_cells (hashpower (old_buckets_ s)) (low (hashpower (old_buckets_ s)) (p.1))
             (cells (old_buckets_ s)) slots 0 !! p
      else cells (buckets_ s) !! p) never.
Proof.
  intros Hd Hb Hge Hl Hm Hfree. set (hp := hashpower (old_buckets_ s)) in *.
  assert (0 <= hp < 63) as Hhp by (destruct Hd as ([? ?] & _ & ? & ? & _); lia).
  assert (forall i, low hp i ∈ lock_buckets l (size (old_buckets_ s)) <-> lock_ind i = l) as Hin.
  { intros i. rewrite elem_of_lock_buckets, lock_ind_of_low by done. split; [by intros []|]. intros Hi. split; [|done].
    rewrite size_pow by (fold hp; lia). fold hp. pose proof (low_range hp i ltac:(lia)). split; [|lia].
    rewrite <- Hi, lock_ind_low, <- (low_low 16 hp i), low_mod by lia. apply Z.mod_le; lia. }
  eapply wp_conseq; [apply (wp_for_each _ (fun dn s' => exists m, s' = with_cells m s /\
      forall p, m !! p = if decide (low hp (p.1) ∈ dn)
        then plan_cells hp (low hp (p.1)) (cells (old_buckets_ s)) slots 0 !! p else cells (buckets_ s) !! p))|].
  - exists (cells (buckets_ s)). split; [by destruct s as [[]]|]. intros p. rewrite decide_False; [done|].
    apply not_elem_of_nil.
  - intros dn ob rest s1 Heq (m & -> & Hmm).
    assert (ob ∈ lock_buckets l (size (old_buckets_ s))) as Hob by (rewrite Heq; set_solver).
    apply elem_of_lock_buckets in Hob as [Hob Hlo]; [|done]. rewrite size_pow in Hob by (fold hp; lia). fold hp in Hob.
    assert (ob ∉ dn) as Hnew.
    { pose proof (lock_buckets_NoDup l (size (old_buckets_ s))) as Hnd. rewrite Heq in Hnd.
      apply NoDup_app in Hnd as (_ & Hnd & _). intros Hob'. apply (Hnd ob Hob'). left. }
    wp_use wp_move_bucket as (m' & -> & Hm'); try done; [cbn [with_cells old_buckets_]; fold hp; lia|cbn; by rewrite Hlo| | |].
    + cbn. fold hp. assert (lock_ind (ob + 2 ^ hp) = l) as ->; [|done].
      rewrite <- (lock_ind_of_low hp (ob + 2 ^ hp)), low_add, lock_ind_of_low by lia. done.
    + cbn. fold hp. intros p Hp. rewrite Hmm, Hp, decide_False by done. apply Hfree.
      rewrite <- (lock_ind_of_low hp (p.1)), Hp by done. done.
    + exists m'. split; [done|]. intros p. rewrite Hm'. cbn. fold hp.
      destruct (Z.eqb_spec (low hp (p.1)) ob) as [->|Hne].
      * rewrite decide_True by set_solver. done.
      * rewrite Hmm. apply decide_ext. set_solver.
  - intros [] s' (m & -> & Hmm). exists m. split; [done|]. intros p. rewrite Hmm.
    destruct (Z.eqb_spec (lock_ind p.1) l) as [Hp|Hp].
    + rewrite decide_True; [done|]. by apply Hin.
    + rewrite decide_False; [done|]. by rewrite Hin.
Qed.

Definition with_unmigrated (u : lock_set) (s : St) : St :=
  MkMap (buckets_ s) (old_buckets_ s) (set_unmigrated u (locks s)) (num_remaining_lazy_rehash_locks_ s)
    (maximum_hashpower_ s).

Lemma remove_absent l (u : lock_set) : mem l u = false -> remove l u = u.
Proof. unfold mem, remove. intros H. apply delete_id. by destruct (u !! l). Qed.

Lemma with_unmigrated_same s : with_unmigrated (unmigrated (locks s)) s = s.
Proof. by destruct s as [? ? []]. Qed.

Lemma shape0_doubling s l : shape0 s -> mem l (unmigrated (locks s)) = true -> doubling s.
Proof.
  intros [] Hl. destruct (sh_lazy l Hl) as (_ & ? & ? & ? & ?). split; [done|]. split; [done|]. split; [lia|]. done.
Qed.

(** The state after the migration of [l]. *)
Lemma migrated_spec l m s :
  shape0 s -> mem l (unmigrated (locks s)) = true ->
  (forall p, m !! p = if lock_ind p.1 =? l
      then plan_cells (hashpower (old_buckets_ s)) (low (hashpower (old_buckets_ s)) (p.1))
             (cells (old_buckets_ s)) slots 0 !! p
      else cells (buckets_ s) !! p) ->
  let s' := with_unmigrated (remove l (unmigrated (locks s))) (with_cells m s) in
  shape0 s' /\ forall p, view s' p = view s p.
Proof.
  intros Hs Hl Hm s'. destruct (sh_lazy _ _ Hs l Hl) as (Hn & Heq & Hge & Ha & Hold).
  destruct (sh_hp _ _ Hs) as [Hhp1 Hhp2]. split.
  - constructor; cbn; try apply Hs.
    + intros p e Hp. cbn in Hp |- *. rewrite Hm in Hp. destruct (lock_ind p.1 =? l); [|by apply (sh_bounds _ _ Hs p e)].
      apply plan_cells_position in Hp as ([_ Hpl] & _ & ?); try done; [|lia|].
      * apply home_range in Hpl; [|lia]. rewrite Heq in Hpl. by split.
      * intros j e' He. by apply (proj2 (sh_old _ _ Hs)) in He as [_ ?].
    + intros l'. rewrite mem_remove, andb_true_iff. intros [_ ?]. by apply (sh_unmigrated _ _ Hs).
    + intros l'. rewrite mem_remove, andb_true_iff. intros [_ ?]. by apply (sh_lazy _ _ Hs l').
    + intros p. rewrite mem_remove, andb_true_iff. intros [Hne ?]. rewrite Hm.
      apply negb_true_iff in Hne. rewrite Hne. by apply (sh_fresh _ _ Hs).
  - intros p. unfold CuckooView.view. cbn. rewrite mem_remove, Hm.
    destruct (Z.eqb_spec (lock_ind p.1) l) as [Hp|Hp]; cbn [negb andb]; [by rewrite Hp, Hl|done].
Qed.

(** [rehash_lock] up to its last statement. *)
Lemma wp_rehash_lock_then (is_lazy : bool) l s (Q : () -> St -> Prop) :
  shape0 s -> mem l (held (locks s)) = true ->
  (mem l (unmigrated (locks s)) = true -> forall m,
     let s' := with_unmigrated (remove l (unmigrated (locks s))) (with_cells m s) in
     shape0 s' -> (forall p, view s' p = view s p) ->
     wp (if is_lazy then decrement_num_remaining_lazy_rehash_locks else mret () : M St ()) s' Q never) ->
  (mem l (unmigrated (locks s)) = false -> Q () s) ->
  wp (rehash_lock hash_function is_lazy l) s Q never.
Proof.
  intros Hs Hh Hyes Hno. unfold rehash_lock. wp_step. apply wp_holds; [done|]. wp_auto.
  destruct (mem l (unmigrated (locks s))) eqn:Hl; [|by apply wp_ret, Hno].
  destruct (sh_lazy _ _ Hs l Hl) as (Hn & Heq & Hge & Ha & Hold). pose proof (sh_unmigrated _ _ Hs l Hl) as Hl'.
  destruct (sh_hp _ _ Hs) as [Hhp1 Hhp2]. rewrite Hn in Hl'.
  wp_auto. apply wp_assert; [by rewrite Hn, Z.eqb_refl|]. wp_auto. apply wp_assert; [by rewrite Heq, Z.eqb_refl|].
  wp_auto. apply wp_assert.
  { rewrite size_pow by lia. apply Z.leb_le. unfold kMaxNumLocks. rewrite Z.shiftl_1_l. apply Z.pow_le_mono_r; lia. }
  eapply wp_seq; [apply wp_move_lock; try done|].
  - by apply (shape0_doubling s l).
  - apply Hs.
  - intros p Hp. apply (sh_fresh _ _ Hs). by rewrite Hp.
  - intros [] s' (m & -> & Hm). wp_step. unfold modify_locks. apply wp_modify.
    destruct (migrated_spec l m s Hs Hl Hm) as [H1 H2]. by apply (Hyes eq_refl m).
Qed.

(** A migration without bookkeeping: all but the cells and the flag of [l] is as it was. *)
Lemma wp_rehash_lock0 l s :
  shape0 s -> mem l (held (locks s)) = true ->
  wp (rehash_lock hash_function false l) s (fun _ s' => exists m,
    s' = with_unmigrated (remove l (unmigrated (locks s))) (with_cells m s) /\
    shape0 s' /\ forall p, view s' p = view s p) never.
Proof.
  intros Hs Hh. apply wp_rehash_lock_then; [done..| |].
  - intros _ m s' H1 H2. apply wp_ret. by exists m.
  - intros Hl. exists (cells (buckets_ s)). rewrite remove_absent by done.
    split; [|done]. unfold with_unmigrated, with_cells. by destruct s as [[] ? []].
Qed.

Definition with_old (b : buckets_t V) (n : Z) (s : St) : St :=
  MkMap (buckets_ s) b (locks s) n (maximum_hashpower_ s).

(** Without locks to migrate, the old buckets do not matter. *)
Lemma shape0_with_old b n s :
  shape0 s -> unmigrated (locks s) = ∅ -> small_hp (hashpower b) -> in_bounds b ->
  shape0 (with_old b n s) /\ forall p, view (with_old b n s) p = view s p.
Proof.
  intros [] Hu Hb1 Hb2. split.
  - constructor; cbn; try done. intros l. by rewrite Hu.
  - intros p. unfold CuckooView.view. cbn. by rewrite Hu.
Qed.

Lemma shape0_remaining n s :
  shape0 s -> shape0 (with_old (old_buckets_ s) n s).
Proof. intros []. by constructor. Qed.

Lemma wp_set_remaining n s (Q : () -> St -> Prop) E :
  Q () (with_old (old_buckets_ s) n s) -> wp (set_remaining n) s Q E.
Proof. done. Qed.

(** Once no lock is left to migrate, the old buckets are freed. *)
Lemma wp_deallocate_old s n (Q : () -> St -> Prop) :
  shape0 s -> unmigrated (locks s) = ∅ -> num_remaining_lazy_rehash_locks_ s = n ->
  (forall b, shape0 (with_old b n s) -> (forall p, view (with_old b n s) p = view s p) ->
     is_deallocated b = true -> hashpower b = hashpower (old_buckets_ s) -> Q () (with_old b n s)) ->
  wp (s ← get; b ← lift (clear_and_deallocate (old_buckets_ s)); set_old_buckets b) s Q never.
Proof.
  intros Hs Hu Hn HQ. destruct (sh_old _ _ Hs) as [[Hb1 Hb1'] Hb2]. wp_auto.
  destruct (clear_and_deallocate_Ok (old_buckets_ s) ltac:(lia) Hb2) as (b & Hb & Hhp & Hbb & Hd).
  eapply wp_lift; [exact Hb|]. unfold set_old_buckets. apply wp_modify. rewrite Hn.
  destruct (shape0_with_old b n s Hs Hu) as [H1 H2]; [by rewrite Hhp|done|]. by apply HQ.
Qed.

Lemma size_unmigrated s : shape0 s -> Z.of_nat (base.size (unmigrated (locks s))) <= n_locks (locks s).
Proof.
  intros Hs. pose proof (sh_unmigrated _ _ Hs) as Hu. revert Hu. generalize (unmigrated (locks s)). intros u Hu.
  assert (0 <= n_locks (locks s)) as Hn.
  { pose proof (sh_locks _ _ Hs). pose proof (Z.pow_nonneg 2 (hashpower (buckets_ s))). unfold kMaxNumLocks in *.
    rewrite Z.shiftl_1_l in *. lia. }
  revert Hn Hu. generalize (n_locks (locks s)). clear. intros n Hn Hu.
  assert (u ⊆ full n) as Hsub%map_subseteq_size by (apply mem_subseteq; intros l Hl; rewrite mem_full; specialize (Hu l Hl); lia).
  pose proof (size_full n Hn). lia.
Qed.

(** The bookkeeping after the migration of [l]. *)
Lemma wp_decrement l s m :
  let s' := with_unmigrated (remove l (unmigrated (locks s))) (with_cells m s) in
  shape s -> mem l (unmigrated (locks s)) = true -> shape0 s' -> (forall p, view s' p = view s p) ->
  wp decrement_num_remaining_lazy_rehash_locks s' (fun _ s' =>
    quiet s s' /\ held (locks s') = held (locks s) /\ unmigrated (locks s') = remove l (unmigrated (locks s))) never.
Proof.
  intros s' [Hs Hr] Hl Hs' Hv. pose proof (size_remove l _ Hl) as Hsz.
  pose proof (size_unmigrated s Hs) as Hle.
  pose proof (sh_locks _ _ Hs) as Hk. change kMaxNumLocks with 65536 in Hk.
  assert (forall s2, shape s2 -> (forall p, view s2 p = view s' p) -> buckets_ s2 = buckets_ s' ->
    locks s2 = locks s' -> maximum_hashpower_ s2 = maximum_hashpower_ s ->
    quiet s s2 /\ held (locks s2) = held (locks s) /\ unmigrated (locks s2) = remove l (unmigrated (locks s))) as Hdone.
  { intros s2 H1 H2 H3 H4 H5. rewrite H4. split; [|done]. constructor; rewrite ?H3, ?H4; try done.
    - intros p. by rewrite H2, Hv.
    - intros l'. cbn. rewrite mem_remove, andb_true_iff. by intros []. }
  assert (num_remaining_lazy_rehash_locks_ s' = num_remaining_lazy_rehash_locks_ s) as Hr' by done.
  assert (unmigrated (locks s') = remove l (unmigrated (locks s))) as Hu' by done.
  assert (maximum_hashpower_ s' = maximum_hashpower_ s) as Hmax by done.
  clearbody s'. unfold decrement_num_remaining_lazy_rehash_locks. wp_step. apply wp_gets. wp_step.
  apply wp_set_remaining. wp_step. apply wp_assert; [apply Z.leb_le; lia|].
  rewrite Hr', wrap_small by lia. destruct (Z.eqb_spec (num_remaining_lazy_rehash_locks_ s) 1) as [H1|H1].
  - assert (unmigrated (locks s') = ∅) as Hempty.
    { apply map_size_empty_inv. rewrite Hu'. lia. }
    eapply (wp_deallocate_old _ 0); [by apply shape0_remaining|done|cbn; lia|].
    intros b Hb Hvb _ _. apply Hdone; [|exact Hvb|done..]. split; [exact Hb|]. cbn. by rewrite Hempty.
  - apply wp_ret. apply Hdone; [|done..]. split; [by apply shape0_remaining|]. cbn. rewrite Hu'. lia.
Qed.

(** A lazy migration of [l]: the table is as it was, and [l] is migrated. *)
Lemma wp_rehash_lock l s :
  shape s -> mem l (held (locks s)) = true ->
  wp (rehash_lock hash_function true l) s (fun _ s' =>
    quiet s s' /\ held (locks s') = held (locks s) /\ unmigrated (locks s') = remove l (unmigrated (locks s))) never.
Proof.
  intros [Hs Hr] Hh. apply wp_rehash_lock_then; [done..| |].
  - intros Hl m s' Hs' Hv. by apply (wp_decrement l s m).
  - intros Hl. rewrite remove_absent by done. split; [|done]. by apply quiet_refl.
Qed.

(** ** Locking of buckets *)

(** The locks [L] and no others are taken and migrated. *)
Record locked_at (s s' : St) (L : list Z) : Prop := {
  lk_quiet : quiet s s';
  lk_held : held (locks s') = lset L;
  lk_migrated : forall l, l ∈ L -> mem l (unmigrated (locks s')) = false
}.

Lemma locked_at_mem s s' L l : locked_at s s' L -> l ∈ L -> mem l (held (locks s')) = true.
Proof. intros [_ -> _] Hl. rewrite mem_lset. by apply bool_decide_eq_true. Qed.

Lemma quiet_shape s s' : quiet s s' -> shape s'.
Proof. by intros []. Qed.

Lemma quiet_hp s s' : quiet s s' -> hashpower (buckets_ s') = hashpower (buckets_ s).
Proof. by intros []. Qed.

Lemma lock_ind_in s i :
  shape s -> 0 <= i < 2 ^ hashpower (buckets_ s) -> 0 <= lock_ind i < n_locks (locks s).
Proof.
  intros [Hs _] Hi. destruct (sh_hp _ _ Hs). apply (lock_ind_bound (hashpower (buckets_ s))); [done|done|].
  apply Hs.
Qed.

(** Migrating a lock that is taken. *)
Lemma wp_rehash_step l s0 s :
  quiet s0 s -> mem l (held (locks s)) = true ->
  wp (rehash_lock hash_function true l) s (fun _ s' =>
    quiet s0 s' /\ held (locks s') = held (locks s) /\ unmigrated (locks s') = remove l (unmigrated (locks s))) never.
Proof.
  intros Hq Hm. wp_use wp_rehash_lock as (H1 & H2 & H3); [by eapply quiet_shape|done|].
  split; [|done]. by eapply quiet_trans.
Qed.

Lemma wp_lock_one hp i s :
  shape s -> hp = hashpower (buckets_ s) -> 0 <= i < 2 ^ hp -> held (locks s) = ∅ ->
  wp (lock_one hash_function false hp i) s (fun m s' => m = Some (lock_ind i) /\ locked_at s s' [lock_ind i]) never.
Proof.
  intros Hs -> Hi Hh. unfold lock_one. wp_step. apply wp_lock; [by apply lock_ind_in|by rewrite Hh|].
  wp_step. apply wp_check_hashpower; [done|]. rewrite Hh.
  eapply wp_seq; [apply (wp_rehash_step _ s)|].
  - by apply quiet_with_held.
  - cbn. by autorewrite with locks.
  - intros [] s' (H1 & H2 & H3). apply wp_ret. split; [done|]. split; [done|by rewrite H2|].
    intros l ->%list_elem_of_singleton. rewrite H3. by autorewrite with locks.
Qed.

Lemma wp_lock_two hp i1 i2 s :
  shape s -> hp = hashpower (buckets_ s) -> 0 <= i1 < 2 ^ hp -> 0 <= i2 < 2 ^ hp -> held (locks s) = ∅ ->
  wp (lock_two hash_function false hp i1 i2) s (fun b s' =>
    b = TwoBuckets_normal i1 i2 /\ locked_at s s' [lock_ind i1; lock_ind i2]) never.
Proof.
  intros Hs -> Hi1 Hi2 Hh. unfold lock_two.
  pose proof (lock_ind_in s i1 Hs Hi1) as Hl1. pose proof (lock_ind_in s i2 Hs Hi2) as Hl2.
  set (l1 := lock_ind i1) in *. set (l2 := lock_ind i2) in *.
  destruct (if l2 <? l1 then (l2, l1) else (l1, l2)) as [a b] eqn:Hab.
  assert ((a = l1 /\ b = l2) \/ (a = l2 /\ b = l1)) as Hor by (destruct (l2 <? l1); injection Hab; lia).
  assert (0 <= a < n_locks (locks s) /\ 0 <= b < n_locks (locks s)) as [Ha Hb] by lia.
  wp_step. apply wp_lock; [done|by rewrite Hh|]. wp_step. apply wp_check_hashpower; [done|]. rewrite Hh.
  wp_step. apply (wp_conseq _ _ (fun _ s' => s' = with_held (lset [a; b]) s)).
  { destruct (Z.eqb_spec b a) as [->|Hne]; cbn [negb].
    - apply wp_ret. f_equal. locks_ext.
    - apply wp_lock; [done|cbn; autorewrite with locks; lia|].
      transitivity (with_held (add b (add a ∅)) s); [done|]. f_equal. locks_ext. }
  intros [] s1 ->. eapply wp_seq; [apply (wp_rehash_step _ s); [by apply quiet_with_held|cbn; by autorewrite with locks]|].
  intros [] s2 (H1 & H2 & H3). eapply wp_seq; [apply (wp_rehash_step _ s); [done|rewrite H2; cbn; autorewrite with locks; lia]|].
  intros [] s3 (H4 & H5 & H6). apply wp_ret. split; [done|]. split; [done| |].
  - rewrite H5, H2. cbn. destruct Hor as [[-> ->]|[-> ->]]; locks_ext.
  - intros l Hl. rewrite H6, H3. autorewrite with locks. rewrite !elem_of_cons in Hl.
    assert (l = a \/ l = b) as [-> | ->] by (destruct Hl as [?|[?|?%not_elem_of_nil]]; lia || done);
      rewrite Z.eqb_refl; cbn; rewrite ?andb_false_r; done.
Qed.

(** Sorting three locks. *)
Definition sort3 (l0 l1 l2 : Z) : Z * Z * Z :=
  let '(l1, l2) := if l2 <? l1 then (l2, l1) else (l1, l2) in
  let '(l0, l2) := if l2 <? l0 then (l2, l0) else (l0, l2) in
  let '(l0, l1) := if l1 <? l0 then (l1, l0) else (l0, l1) in
  (l0, l1, l2).

Lemma sort3_spec l0 l1 l2 a b c :
  sort3 l0 l1 l2 = (a, b, c) -> a <= b <= c /\ (forall l, l ∈ [a; b; c] <-> l ∈ [l0; l1; l2]).
Proof.
  unfold sort3. destruct (Z.ltb_spec l2 l1);
    repeat match goal with |- context [?x <? ?y] => destruct (Z.ltb_spec x y) end;
    intros Heq; simplify_eq; (split; [lia|set_solver]).
Qed.

Lemma wp_lock_three hp i1 i2 i3 s :
  shape s -> hp = hashpower (buckets_ s) -> 0 <= i1 < 2 ^ hp -> 0 <= i2 < 2 ^ hp -> 0 <= i3 < 2 ^ hp ->
  held (locks s) = ∅ ->
  wp (lock_three hash_function false hp i1 i2 i3) s (fun r s' =>
    r = (TwoBuckets_normal i1 i2,
         if (lock_ind i3 =? lock_ind i1) || (lock_ind i3 =? lock_ind i2) then None else Some (lock_ind i3)) /\
    locked_at s s' [lock_ind i1; lock_ind i2; lock_ind i3]) never.
Proof.
  intros Hs -> Hi1 Hi2 Hi3 Hh. unfold lock_three.
  pose proof (lock_ind_in s i1 Hs Hi1) as Hl1. pose proof (lock_ind_in s i2 Hs Hi2) as Hl2.
  pose proof (lock_ind_in s i3 Hs Hi3) as Hl3.
  set (l1 := lock_ind i1) in *. set (l2 := lock_ind i2) in *. set (l3 := lock_ind i3) in *.
  destruct (sort3 l1 l2 l3) as [[a b] c] eqn:Habc. pose proof (sort3_spec _ _ _ _ _ _ Habc) as [Hle Hin].
  unfold sort3 in Habc.
  destruct (if l3 <? l2 then _ else _) as [x2 x3]. destruct (if x3 <? l1 then _ else _) as [x1 x3'].
  destruct (if x2 <? x1 then _ else _) as [x1' x2']. injection Habc as -> -> ->.
  assert (forall l, l ∈ [a; b; c] -> 0 <= l < n_locks (locks s)) as Hr.
  { intros l. rewrite Hin. set_unfold. lia. }
  wp_step. apply wp_lock; [apply Hr; set_solver|by rewrite Hh|]. wp_step. apply wp_check_hashpower; [done|]. rewrite Hh.
  wp_step. apply (wp_conseq _ _ (fun _ s' => s' = with_held (lset [a; b]) s)).
  { destruct (Z.eqb_spec b a) as [->|Hne]; cbn [negb].
    - apply wp_ret. f_equal. locks_ext.
    - apply wp_lock; [apply Hr; set_solver|cbn; autorewrite with locks; lia|].
      transitivity (with_held (add b (add a ∅)) s); [done|]. f_equal. locks_ext. }
  intros [] s1 ->. wp_step. apply (wp_conseq _ _ (fun _ s' => s' = with_held (lset [a; b; c]) s)).
  { destruct (Z.eqb_spec c b) as [->|Hne]; cbn [negb].
    - apply wp_ret. f_equal. locks_ext.
    - apply wp_lock; [apply Hr; set_solver|cbn; autorewrite with locks; lia|].
      transitivity (with_held (add c (lset [a; b])) s); [done|]. f_equal. locks_ext. }
  intros [] s1 ->.
  eapply wp_seq; [apply (wp_rehash_step _ s); [by apply quiet_with_held|cbn; by autorewrite with locks]|].
  intros [] s2 (H1 & H2 & H3). cbn [with_held locks set_held held] in H2.
  eapply wp_seq; [apply (wp_rehash_step _ s); [done|rewrite H2, mem_lset; by apply bool_decide_eq_true; set_solver]|].
  intros [] s3 (H4 & H5 & H6). rewrite H2 in H5.
  eapply wp_seq; [apply (wp_rehash_step _ s); [done|rewrite H5, mem_lset; by apply bool_decide_eq_true; set_solver]|].
  intros [] s4 (H7 & H8 & H9). apply wp_ret. split; [done|]. split; [done| |].
  - rewrite H8, H5. apply lock_set_ext. intros l. rewrite !mem_lset. by apply bool_decide_ext.
  - intros l Hl. apply Hin in Hl. rewrite H9, H6, H3. autorewrite with locks. set_unfold.
    destruct (Z.eqb_spec l a), (Z.eqb_spec l b), (Z.eqb_spec l c); cbn; try done. exfalso. naive_solver.
Qed.

Lemma wp_release_held m h s (Q : () -> St -> Prop) E :
  match m with Some l => remove l (held (locks s)) | None => held (locks s) end = h ->
  Q () (with_held h s) -> wp (release m) s Q E.
Proof.
  intros <- HQ. destruct m; cbn [release]; [by apply wp_unlock|]. apply wp_ret.
  unfold with_held, set_held in HQ. by destruct s as [? ? []].
Qed.

Lemma wp_two_destroy i1 i2 s (Q : () -> St -> Prop) E :
  held (locks s) = lset [lock_ind i1; lock_ind i2] -> Q () (with_held ∅ s) ->
  wp (two_destroy (TwoBuckets_normal i1 i2)) s Q E.
Proof.
  intros Hh HQ. unfold two_destroy, TwoBuckets_normal. cbn [first_manager second_manager]. wp_step.
  eapply wp_release_held; [done|]. eapply wp_release_held; [|exact HQ]. cbn. rewrite Hh.
  destruct (Z.eqb_spec (lock_ind i1) (lock_ind i2)) as [->|Hne]; cbn [negb]; locks_ext.
Qed.

Lemma wp_two_unlock i1 i2 s (Q : TwoBuckets -> St -> Prop) E :
  held (locks s) = lset [lock_ind i1; lock_ind i2] -> Q (MkTwo i1 i2 None None) (with_held ∅ s) ->
  wp (two_unlock (TwoBuckets_normal i1 i2)) s Q E.
Proof.
  intros Hh HQ. unfold two_unlock, TwoBuckets_normal. cbn [first_manager second_manager]. wp_step.
  eapply wp_release_held; [done|]. wp_step. eapply wp_release_held; [|apply wp_ret; exact HQ]. cbn. rewrite Hh.
  destruct (Z.eqb_spec (lock_ind i1) (lock_ind i2)) as [->|Hne]; cbn [negb]; locks_ext.
Qed.

(** The two homes of a hash value are locked. *)
Lemma wp_snapshot fuel hv s :
  shape s -> held (locks s) = ∅ -> (0 < fuel)%nat ->
  wp (snapshot_and_lock_two hash_function fuel false hv) s (fun b s' =>
    let hp := hashpower (buckets_ s) in
    let i := index_hash hp (hv_hash hv) in
    let i' := alt_index hp (hv_partial hv) i in
    b = TwoBuckets_normal i i' /\ locked_at s s' [lock_ind i; lock_ind i']) never.
Proof.
  intros Hs Hh Hf. destruct fuel as [|fuel]; [lia|]. cbn [snapshot_and_lock_two].
  destruct (sh_hp _ _ (proj1 Hs)) as [Hhp1 Hhp2]. wp_step. apply wp_gets. apply wp_catch.
  eapply wp_conseq; [apply wp_lock_two; try done; [apply index_hash_range; lia|apply alt_index_range; lia]|].
  done.
Qed.
End Locks.

Arguments lk_quiet {V hash_function s s' L} _.
Arguments lk_held {V hash_function s s' L} _.
Arguments lk_migrated {V hash_function s s' L} _.
Arguments quiet_shape {V hash_function s s'} _.
Arguments quiet_hp {V hash_function s s'} _.
