(* ===== verification/CuckooTable.v ===== *)
(** The logical table of the cuckoo map: what makes it well formed, the map that it
    represents, and the accesses to buckets under their locks. *)
From S2P Require Import Prelude Words Outcome Buckets Cuckoo CuckooFacts CuckooView CuckooLocks.

(** A slot of a table gets a new content. *)
Definition upd {V} (v : Z * Z -> option (entry V)) (p : Z * Z) (o : option (entry V)) : Z * Z -> option (entry V) :=
  fun q => if decide (q = p) then o else v q.

Lemma upd_eq {V} (v : Z * Z -> option (entry V)) p o : upd v p o p = o.
Proof. unfold upd. by rewrite decide_True. Qed.

Lemma upd_ne {V} (v : Z * Z -> option (entry V)) p q o : q <> p -> upd v p o q = v q.
Proof. intros. unfold upd. by rewrite decide_False. Qed.

Section Bucket.
Context {V : Type}.
Implicit Types (f : Z -> option (entry V)) (e : entry V) (j key : Z).

(** ** Reading a bucket that is given by its slots *)

Lemma slot_of_fmap f j : 0 <= j < 4 -> slot_of (f <$> slots) j = Ok (f j).
Proof. intros Hj. assert (j = 0 \/ j = 1 \/ j = 2 \/ j = 3) as [->|[->|[->| ->]]] by lia; reflexivity. Qed.

Lemma occupied_fmap f j :
  0 <= j < 4 -> occupied (f <$> slots) j = Ok (match f j with Some _ => true | None => false end).
Proof. intros Hj. unfold occupied. by rewrite slot_of_fmap. Qed.

Lemma live_fmap f j e : 0 <= j < 4 -> f j = Some e -> live (f <$> slots) j = Ok e.
Proof. intros Hj He. unfold live. rewrite slot_of_fmap by done. simpl. by rewrite He. Qed.

Lemma read_slots_spec f key l :
  Forall (fun j => 0 <= j < 4) l ->
  exists r, read_slots (f <$> slots) key l = Ok r /\
    ((r = -1 /\ forall j e, j ∈ l -> f j = Some e -> e_key e <> key) \/
     (0 <= r < 4 /\ exists e, f r = Some e /\ e_key e = key)).
Proof.
  induction 1 as [|j l Hj _ IH]; cbn [read_slots].
  - exists (-1). split; [done|]. left. split; [done|]. by intros ? ? ?%not_elem_of_nil.
  - rewrite occupied_fmap by done. cbn [mbind outcome_bind]. destruct (f j) as [e|] eqn:He; cbn [negb].
    + rewrite (live_fmap f j e) by done. cbn [mbind outcome_bind]. destruct (Z.eqb_spec (e_key e) key) as [Hk|Hk].
      * exists j. split; [done|]. right. split; [done|]. by exists e.
      * destruct IH as (r & -> & [[-> Hr]|Hr]); eexists; (split; [done|]); [left|by right].
        split; [done|]. intros j' e' [->|?]%elem_of_cons He'; [congruence|eauto].
    + destruct IH as (r & -> & [[-> Hr]|Hr]); eexists; (split; [done|]); [left|by right].
      split; [done|]. intros j' e' [->|?]%elem_of_cons He'; [congruence|eauto].
Qed.

Lemma find_insert_slots_spec f key l slot :
  Forall (fun j => 0 <= j < 4) l -> slot = -1 \/ (0 <= slot < 4 /\ f slot = None) ->
  exists b r, find_insert_slots (f <$> slots) key slot l = Ok (b, r) /\
    ((b = false /\ 0 <= r < 4 /\ exists e, f r = Some e /\ e_key e = key) \/
     (b = true /\ (forall j e, j ∈ l -> f j = Some e -> e_key e <> key) /\
      ((r = -1 /\ slot = -1 /\ forall j, j ∈ l -> is_Some (f j)) \/ (0 <= r < 4 /\ f r = None)))).
Proof.
  intros Hl. revert slot. induction Hl as [|j l Hj _ IH]; intros slot Hslot; cbn [find_insert_slots].
  - eexists _, _. split; [done|]. right. split; [done|]. split; [by intros ? ? ?%not_elem_of_nil|].
    destruct Hslot as [->|?]; [left|by right]. do 2 (split; [done|]). by intros ? ?%not_elem_of_nil.
  - rewrite occupied_fmap by done. cbn [mbind outcome_bind]. destruct (f j) as [e|] eqn:He.
    + rewrite (live_fmap f j e) by done. cbn [mbind outcome_bind]. destruct (Z.eqb_spec (e_key e) key) as [Hk|Hk].
      * eexists _, _. split; [done|]. left. split; [done|]. split; [done|]. by exists e.
      * destruct (IH slot Hslot) as (b & r & -> & [Hr|(-> & Hno & Hr)]); eexists _, _; (split; [done|]); [by left|right].
        split; [done|]. split; [intros j' e' [->|?]%elem_of_cons He'; [congruence|eauto]|].
        destruct Hr as [(-> & -> & Hr)|?]; [left|by right]. do 2 (split; [done|]).
        intros j' [->|?]%elem_of_cons; [by rewrite He; eexists|eauto].
    + destruct (IH j) as (b & r & -> & [Hr|(-> & Hno & Hr)]); [by right| |]; eexists _, _; (split; [done|]); [by left|right].
      split; [done|]. split; [intros j' e' [->|?]%elem_of_cons He'; [congruence|eauto]|].
      destruct Hr as [(-> & -> & Hr)|?]; [lia|by right].
Qed.
End Bucket.

Section Table.
Context {V : Type} (hash_function : Z -> Z).

Abbreviation St := (map_t V).
Abbreviation view := (view hash_function).
Abbreviation shape := (shape hash_function).
Abbreviation leads := (leads hash_function).
Abbreviation quiet := (quiet hash_function).
Abbreviation placed := (placed hash_function).
Abbreviation table := (Z * Z -> option (entry V)).
Implicit Types (s : St) (e : entry V) (p q : Z * Z) (v : Z * Z -> option (entry V)) (hp i j key : Z).

(** ** Well-formed tables *)

(** Entries are in the table and in one of their two buckets, each key once. *)
Record table_ok hp v : Prop := {
  tb_bounds : forall p e, v p = Some e -> position hp p;
  tb_placed : forall p e, v p = Some e -> placed hp (p.1) e;
  tb_unique : forall p q e e', v p = Some e -> v q = Some e' -> e_key e = e_key e' -> p = q
}.

(** The table represents the finite map [m]. *)
Definition rep v (m : gmap Z V) : Prop :=
  forall key x, m !! key = Some x <-> exists p e, v p = Some e /\ e_key e = key /\ e_val e = x.

Lemma table_ok_ext hp v v' : (forall p, v' p = v p) -> table_ok hp v -> table_ok hp v'.
Proof. intros Heq []. constructor; intros *; rewrite ?Heq; eauto. Qed.

Lemma rep_ext v v' m : (forall p, v' p = v p) -> rep v m -> rep v' m.
Proof. intros Heq H key x. rewrite (H key x). by setoid_rewrite Heq. Qed.

Lemma rep_lookup hp v m p e : table_ok hp v -> rep v m -> v p = Some e -> m !! e_key e = Some (e_val e).
Proof. intros Ht Hr He. apply Hr. by exists p, e. Qed.

Lemma rep_None v m key : rep v m -> (forall p e, v p = Some e -> e_key e <> key) -> m !! key = None.
Proof.
  intros Hr Hno. destruct (m !! key) as [x|] eqn:Hm; [|done]. apply Hr in Hm as (p & e & He & Hk & _).
  by destruct (Hno p e He).
Qed.

(** A new key. *)
Lemma table_ok_insert hp v p e :
  table_ok hp v -> position hp p -> placed hp (p.1) e -> (forall q e', v q = Some e' -> e_key e' <> e_key e) ->
  table_ok hp (upd v p (Some e)).
Proof.
  intros [] Hp Hpl Hno. unfold upd. constructor.
  - intros q e'. case_decide; [intros [= <-]; by subst|]. eauto.
  - intros q e'. case_decide; [intros [= <-]; by subst|]. eauto.
  - intros q q' e' e''. repeat case_decide; intros; simplify_eq; try done; eauto; exfalso; eapply Hno; eauto.
Qed.

Lemma rep_insert v m p e :
  v p = None -> (forall q e', v q = Some e' -> e_key e' <> e_key e) -> rep v m ->
  rep (upd v p (Some e)) (<[e_key e := e_val e]> m).
Proof.
  intros Hp Hno Hr key x. rewrite lookup_insert. case_decide as Hk.
  - subst. split.
    + intros [= <-]. exists p, e. by rewrite upd_eq.
    + intros (q & e' & He & Hk & Hv). unfold upd in He. case_decide; [congruence|].
      by destruct (Hno _ _ He).
  - rewrite (Hr key x). split; intros (q & e' & He & Hk' & Hv); exists q, e'.
    + rewrite upd_ne; [done|]. congruence.
    + unfold upd in He. case_decide; [congruence|done].
Qed.

(** A key that goes. *)
Lemma table_ok_delete hp v p : table_ok hp v -> table_ok hp (upd v p None).
Proof. intros []. unfold upd. constructor; intros *; repeat case_decide; try done; eauto. Qed.

Lemma rep_delete hp v m p e :
  table_ok hp v -> v p = Some e -> rep v m -> rep (upd v p None) (delete (e_key e) m).
Proof.
  intros Ht Hp Hr key x. rewrite lookup_delete. case_decide as Hk.
  - split; [done|]. intros (q & e' & He & Hk' & Hv). unfold upd in He. case_decide as Hq; [done|].
    exfalso. apply Hq. apply (tb_unique _ _ Ht _ _ _ _ He Hp). congruence.
  - rewrite (Hr key x). split; intros (q & e' & He & Hk' & Hv); exists q, e'.
    + rewrite upd_ne; [done|]. congruence.
    + unfold upd in He. by case_decide.
Qed.

(** A new value for a key. *)
Lemma table_ok_update hp v p e x :
  table_ok hp v -> v p = Some e -> table_ok hp (upd v p (Some (MkEntry (e_partial e) (e_key e) x))).
Proof.
  intros [] Hp. unfold upd. constructor.
  - intros q e'. case_decide; [intros [= <-]; subst; eauto|]. eauto.
  - intros q e'. case_decide; [intros [= <-]; subst; by apply (tb_placed0 _ _ Hp)|]. eauto.
  - intros q q' e' e''. repeat case_decide; intros; simplify_eq; simpl in *; try done; eauto; naive_solver.
Qed.

Lemma rep_update hp v m p e x :
  table_ok hp v -> v p = Some e -> rep v m ->
  rep (upd v p (Some (MkEntry (e_partial e) (e_key e) x))) (<[e_key e := x]> m).
Proof.
  intros Ht Hp Hr. set (e' := MkEntry (e_partial e) (e_key e) x).
  assert (rep (upd (upd v p None) p (Some e')) (<[e_key e' := e_val e']> (delete (e_key e) m))) as H.
  { apply rep_insert; [apply upd_eq| |by eapply rep_delete].
    intros q e2. unfold upd. case_decide as Hq; [done|]. intros He Hk. apply Hq.
    by apply (tb_unique _ _ Ht _ _ _ _ He Hp). }
  cbn [e_key e_val e'] in H. rewrite insert_delete_eq in H. eapply rep_ext; [|exact H].
  intros q. unfold upd. by case_decide.
Qed.

(** An entry moves to a free slot of its other bucket. *)
Lemma table_ok_move hp v p q e :
  table_ok hp v -> v p = Some e -> v q = None -> position hp q -> placed hp (q.1) e ->
  table_ok hp (upd (upd v q (Some e)) p None).
Proof.
  intros Ht Hp Hq Hpos Hpl. assert (p <> q) as Hne by congruence.
  eapply (table_ok_ext _ (upd (upd v p None) q (Some e))).
  { intros r. unfold upd. repeat case_decide; congruence. }
  apply table_ok_insert; [by apply table_ok_delete|done|done|]. intros r e'. unfold upd. case_decide as Hr; [done|].
  intros He Hk. apply Hr. by apply (tb_unique _ _ Ht _ _ _ _ He Hp).
Qed.

Lemma rep_move hp v m p q e :
  table_ok hp v -> v p = Some e -> v q = None -> rep v m -> rep (upd (upd v q (Some e)) p None) m.
Proof.
  intros Ht Hp Hq Hr. assert (p <> q) as Hne by congruence.
  eapply (rep_ext (upd (upd v p None) q (Some e))).
  { intros r. unfold upd. repeat case_decide; congruence. }
  rewrite <- (insert_id m (e_key e) (e_val e)) by by eapply rep_lookup. rewrite <- insert_delete_eq.
  apply rep_insert; [by rewrite upd_ne| |by eapply rep_delete].
  intros r e'. unfold upd. case_decide as Hr'; [done|]. intros He Hk. apply Hr'.
  by apply (tb_unique _ _ Ht _ _ _ _ He Hp).
Qed.

(** ** Buckets under their locks *)

(** A bucket that the thread may touch. *)
Record accessible s i : Prop := {
  ac_index : 0 <= i < 2 ^ hashpower (buckets_ s);
  ac_held : mem (lock_ind i) (held (locks s)) = true;
  ac_migrated : mem (lock_ind i) (unmigrated (locks s)) = false
}.

Lemma locked_accessible s s' L i :
  locked_at hash_function s s' L -> 0 <= i < 2 ^ hashpower (buckets_ s) -> lock_ind i ∈ L -> accessible s' i.
Proof.
  intros Hl Hi HL. constructor.
  - destruct Hl as [[] _ _]. by rewrite ld_hp.
  - by eapply locked_at_mem.
  - by apply Hl.
Qed.

Lemma view_accessible s i j : accessible s i -> view s (i, j) = cells (buckets_ s) !! (i, j).
Proof. intros []. unfold CuckooView.view. cbn. by rewrite ac_migrated0. Qed.

Lemma wp_read_bucket i s (Q : bucket V -> St -> Prop) E :
  shape s -> accessible s i -> Q ((fun j => view s (i, j)) <$> slots) s -> wp (read_bucket i) s Q E.
Proof.
  intros [Hs _] Hi HQ. destruct (sh_hp _ _ Hs) as [Hhp1 Hhp2]. unfold read_bucket. wp_step.
  apply wp_holds; [by apply Hi|]. wp_auto. eapply wp_lift; [apply at_Ok; [lia|apply Hs|apply Hi]|].
  unfold bucket_at. erewrite list_fmap_ext; [exact HQ|]. intros k j _. simpl. by rewrite view_accessible.
Qed.

(** A change of one slot of an accessible bucket. *)
Lemma leads_cells s (m : gmap (Z * Z) (entry V)) p o :
  shape s -> accessible s (p.1) -> position (hashpower (buckets_ s)) p ->
  (forall q, m !! q = if decide (q = p) then o else cells (buckets_ s) !! q) ->
  leads s (with_cells m s) (upd (view s) p o).
Proof.
  intros [Hs Hr] Ha Hp Hm. constructor; try done.
  - split; [|done]. destruct Hs. constructor; try done.
    + intros q e. cbn. rewrite Hm. case_decide; [by subst|]. apply sh_bounds.
    + intros q Hq. cbn in *. rewrite Hm. case_decide as E; [|by apply sh_fresh].
      subst. by rewrite (ac_migrated _ _ Ha) in Hq.
  - intros q. unfold CuckooView.view, upd. cbn. rewrite Hm. case_decide as E; [|done].
    subst. by rewrite (ac_migrated _ _ Ha).
Qed.

Lemma wp_add_entry i j pk k x s (Q : () -> St -> Prop) E :
  shape s -> accessible s i -> 0 <= j < 4 -> view s (i, j) = None ->
  (forall s', leads s s' (upd (view s) (i, j) (Some (MkEntry pk k x))) -> locks s' = locks s -> Q () s') ->
  wp (buckets_setKV i j pk k x) s Q E.
Proof.
  intros Hs Ha Hj Hv HQ. destruct Ha as [Hi Hh Hm] eqn:Ha'. destruct (proj1 Hs) eqn:Hs'.
  apply wp_setKV; try done; [by rewrite <- view_accessible|]. apply HQ; [|done].
  apply leads_cells; try done. intros q. rewrite lookup_insert. repeat case_decide; congruence.
Qed.

Lemma wp_erase_entry i j s (Q : () -> St -> Prop) E :
  shape s -> accessible s i -> 0 <= j < 4 -> is_Some (view s (i, j)) ->
  (forall s', leads s s' (upd (view s) (i, j) None) -> locks s' = locks s -> Q () s') ->
  wp (buckets_eraseKV i j) s Q E.
Proof.
  intros Hs Ha Hj [e Hv] HQ. destruct Ha as [Hi Hh Hm] eqn:Ha'. destruct (proj1 Hs) eqn:Hs'.
  rewrite view_accessible in Hv by done. eapply wp_eraseKV; try done. apply HQ; [|done].
  apply leads_cells; try done. intros q. rewrite lookup_delete. repeat case_decide; congruence.
Qed.

Lemma wp_write_mapped i j e x s (Q : () -> St -> Prop) E :
  shape s -> accessible s i -> 0 <= j < 4 -> view s (i, j) = Some e ->
  (forall s', leads s s' (upd (view s) (i, j) (Some (MkEntry (e_partial e) (e_key e) x))) -> locks s' = locks s -> Q () s') ->
  wp (buckets_set_mapped i j x) s Q E.
Proof.
  intros Hs Ha Hj Hv HQ. destruct Ha as [Hi Hh Hm] eqn:Ha'. destruct (proj1 Hs) eqn:Hs'.
  rewrite view_accessible in Hv by done. eapply wp_set_mapped; try done. apply HQ; [|done].
  apply leads_cells; try done. intros q. rewrite lookup_insert. repeat case_decide; congruence.
Qed.

Lemma wp_mapped i j e s (Q : V -> St -> Prop) E :
  shape s -> accessible s i -> 0 <= j < 4 -> view s (i, j) = Some e -> Q (e_val e) s ->
  wp (mapped i j) s Q E.
Proof.
  intros Hs Ha Hj Hv HQ. unfold mapped. wp_step. apply wp_read_bucket; [done..|]. wp_step.
  eapply wp_lift; [by apply live_fmap|]. done.
Qed.

(** What a search for [key] in the buckets [i1] and [i2] finds. *)
Definition found v key i1 i2 (pos : table_position) : Prop :=
  (status pos = ok /\ (index pos = i1 \/ index pos = i2) /\ 0 <= slot pos < 4 /\
   exists e, v (index pos, slot pos) = Some e /\ e_key e = key) \/
  (status pos = failure_key_not_found /\
   forall i j e, i = i1 \/ i = i2 -> 0 <= j < 4 -> v (i, j) = Some e -> e_key e <> key).

Lemma wp_cuckoo_find key partial i1 i2 s :
  shape s -> accessible s i1 -> accessible s i2 ->
  wp (cuckoo_find key partial i1 i2) s (fun pos s' => s' = s /\ found (view s) key i1 i2 pos) never.
Proof.
  intros Hs H1 H2. unfold cuckoo_find, try_read_from_bucket. wp_step. apply wp_read_bucket; [done..|].
  destruct (read_slots_spec (fun j => view s (i1, j)) key slots slots_range) as (r & Hr & Hr').
  wp_step. eapply wp_lift; [exact Hr|]. destruct (Z.eqb_spec r (-1)) as [Hn|Hn]; cbn [negb].
  - wp_step. apply wp_read_bucket; [done..|].
    destruct (read_slots_spec (fun j => view s (i2, j)) key slots slots_range) as (r2 & Hr2 & Hr2').
    wp_step. eapply wp_lift; [exact Hr2|]. destruct (Z.eqb_spec r2 (-1)) as [Hn2|Hn2]; cbn [negb]; apply wp_ret; (split; [done|]).
    + right. split; [done|]. destruct Hr' as [[_ Hr']|?]; [|lia]. destruct Hr2' as [[_ Hr2']|?]; [|lia].
      intros i j e [->| ->] Hj; [apply Hr'|apply Hr2']; by apply elem_of_slots.
    + left. cbn. destruct Hr2' as [[? _]|[? ?]]; [done|]. split_and!; auto; lia.
  - apply wp_ret. split; [done|]. left. cbn. destruct Hr' as [[? _]|[? ?]]; [done|]. split_and!; auto; lia.
Qed.

(** The two buckets of the key of [hv] are all that need to be searched. *)
Lemma found_homes hp v key pos :
  table_ok hp v ->
  let h := hash_function key in
  found v key (index_hash hp h) (alt_index hp (partial_key h) (index_hash hp h)) pos ->
  status pos <> ok -> forall p e, v p = Some e -> e_key e <> key.
Proof.
  intros Ht h [[? _]|[_ Hno]] Hs [i j] e He; [done|]. intros Hk.
  destruct (tb_bounds _ _ Ht _ _ He) as [_ Hj]. destruct (tb_placed _ _ Ht _ _ He) as [_ Hh]. rewrite Hk in Hh.
  by apply (Hno i j e Hh Hj He).
Qed.

End Table.
