(* ===== verification/CuckooSearch.v ===== *)
(** The breadth-first search of the cuckoo map: it finds a path to a free slot with the
    fewest moves, and it fails only if four moves do not reach a free slot. *)
From S2P Require Import Prelude Words Outcome Buckets Cuckoo CuckooFacts CuckooView CuckooLocks CuckooTable.

(** The position that a record names. *)
Abbreviation pos r := (r_bucket r, r_slot r).

Section Search.
Context {V : Type} (hash_function : Z -> Z).

Abbreviation St := (map_t V).
Abbreviation view := (view hash_function).
Abbreviation shape := (shape hash_function).
Abbreviation quiet := (quiet hash_function).
Abbreviation table_ok := (table_ok hash_function).
Implicit Types (s : St) (e : entry V) (p : Z * Z) (q : b_queue) (x : b_slot) (v : Z * Z -> option (entry V)) (hp b i j key : Z).

(** ** Paths of moves *)

Definition full_bucket v b : Prop := forall j, 0 <= j < 4 -> is_Some (v (b, j)).

(** The buckets that [n] moves lead to from [i1] or [i2]: each move takes an entry of a
    bucket to its other bucket. *)
Inductive reach v hp (i1 i2 : Z) : nat -> Z -> Prop :=
| reach_1 : reach v hp i1 i2 0 i1
| reach_2 : reach v hp i1 i2 0 i2
| reach_move n b j e :
    reach v hp i1 i2 n b -> 0 <= j < 4 -> v (b, j) = Some e ->
    reach v hp i1 i2 (Datatypes.S n) (alt_index hp (e_partial e) b).

(** The moves of the entries in the slots [js], starting with bucket [b]. *)
Inductive chain v hp : Z -> list Z -> Z -> Prop :=
| chain_nil b : chain v hp b [] b
| chain_cons b j js e b' :
    0 <= j < 4 -> v (b, j) = Some e -> chain v hp (alt_index hp (e_partial e) b) js b' ->
    chain v hp b (j :: js) b'.

Lemma moves_snoc v hp b js b' j e :
  chain v hp b js b' -> 0 <= j < 4 -> v (b', j) = Some e -> chain v hp b (js ++ [j]) (alt_index hp (e_partial e) b').
Proof.
  induction 1 as [b|b j0 js e0 b' Hj0 He0 _ IH]; intros Hj He; simpl.
  - econstructor; [done..|]. constructor.
  - econstructor; [done..|]. by apply IH.
Qed.

Lemma chain_app v hp b js js' b' :
  chain v hp b (js ++ js') b' <-> exists b1, chain v hp b js b1 /\ chain v hp b1 js' b'.
Proof.
  revert b. induction js as [|j js IH]; intros b; simpl; split.
  - intros H. exists b. split; [constructor|done].
  - intros (b1 & H & ?). by inversion H; subst.
  - intros H. inversion H; subst. apply IH in H6 as (b1 & ? & ?). exists b1. split; [|done]. by econstructor.
  - intros (b1 & H & ?). inversion H; subst. econstructor; [done..|]. apply IH. by exists b1.
Qed.

Lemma chain_reach v hp i1 i2 b js b' n :
  chain v hp b js b' -> reach v hp i1 i2 n b -> reach v hp i1 i2 (n + length js) b'.
Proof.
  intros H. revert n. induction H as [b|b j js e b' Hj He _ IH]; intros n Hn; cbn [length].
  - by rewrite Nat.add_0_r.
  - rewrite Nat.add_succ_r. apply (IH (Datatypes.S n)). by apply reach_move with (j := j).
Qed.

Lemma chain_range v hp b js b' : 0 <= hp < 64 -> 0 <= b < 2 ^ hp -> chain v hp b js b' -> 0 <= b' < 2 ^ hp.
Proof.
  intros Hhp Hb H. induction H as [|b j js e b' Hj He _ IH]; [done|]. apply IH. by apply alt_index_range.
Qed.

(** A path code: the start in front of base-4 digits. *)
Definition encode (k : Z) (js : list Z) : Z := fold_left (fun c j => c * 4 + j) js k.

Lemma encode_snoc k js j : encode k (js ++ [j]) = encode k js * 4 + j.
Proof. unfold encode. by rewrite fold_left_app. Qed.

Lemma encode_bound k js :
  0 <= k < 2 -> Forall (fun j => 0 <= j < 4) js -> 0 <= encode k js < 2 * 4 ^ Z.of_nat (length js).
Proof.
  intros Hk Hjs. induction js as [|j js IH] using rev_ind; [simpl; lia|].
  apply Forall_app in Hjs as [Hjs Hj]. inversion Hj; subst. specialize (IH Hjs).
  rewrite encode_snoc, length_app. cbn [length]. rewrite Nat2Z.inj_add, Z.pow_add_r by lia.
  change (4 ^ Z.of_nat 1) with 4. lia.
Qed.

(** A queue element stands for a chain. *)
Definition start (i1 i2 k : Z) : Z := if k =? 0 then i1 else i2.

Definition stands_for v hp i1 i2 (x : b_slot) (n : nat) : Prop :=
  exists k js, 0 <= k < 2 /\ Forall (fun j => 0 <= j < 4) js /\ length js = n /\
    pathcode x = encode k js /\ depth x = Z.of_nat n /\ chain v hp (start i1 i2 k) js (b_bucket x).

(** ** The scan of one bucket *)

(** The elements that the entries of the bucket of [x] contribute. *)
Definition child hp (x : b_slot) (slot : Z) (e : entry V) : b_slot :=
  MkSlot (alt_index hp (e_partial e) (b_bucket x)) (pathcode x * 4 + slot) (depth x + 1).

Lemma MAX_CUCKOO_COUNT_682 : MAX_CUCKOO_COUNT = 682.
Proof. reflexivity. Qed.

Lemma enqueue_Ok x q : 0 <= q_last q < 682 -> enqueue x q = Ok (MkQueue (q_slots q ++ [x]) (q_last q + 1)).
Proof.
  intros Hq. unfold enqueue. rewrite MAX_CUCKOO_COUNT_682. test (q_last q =? 682) is false.
  test (0 <=? q_last q) is true. by test (q_last q <? 682) is true.
Qed.

Lemma scan_slots_spec hp x (f : Z -> option (entry V)) l q :
  0 <= depth x <= 4 -> 0 <= pathcode x < 512 -> Forall (fun i => 0 <= i < 4) l ->
  0 <= q_last q -> (depth x < 4 -> q_last q + Z.of_nat (length l) <= 682) ->
  exists r, scan_slots hp x (f <$> slots) l q = Ok r /\
    ((exists slot, r = inl (MkSlot (b_bucket x) (pathcode x * 4 + slot) (depth x)) /\ 0 <= slot < 4 /\ f slot = None) \/
     exists cs, r = inr (MkQueue (q_slots q ++ cs) (q_last q + Z.of_nat (length cs))) /\
       (depth x < 4 -> length cs = length l) /\ (depth x = 4 -> cs = []) /\
       (forall c, c ∈ cs -> exists slot e, 0 <= slot < 4 /\ f slot = Some e /\ c = child hp x slot e) /\
       forall i, i ∈ l -> exists e, f ((pathcode x mod 4 + i) mod 4) = Some e /\
         (depth x < 4 -> child hp x ((pathcode x mod 4 + i) mod 4) e ∈ cs)).
Proof.
  intros Hd Hp Hl. revert q. induction Hl as [|i l Hi _ IH]; intros q Hq Hroom; cbn [scan_slots].
  - eexists. split; [done|]. right. exists []. rewrite app_nil_r, Z.add_0_r. split; [by destruct q|].
    split; [done|]. split; [done|]. split; by intros ? ?%not_elem_of_nil.
  - change slot_per_bucket with 4. set (slot := (pathcode x mod 4 + i) mod 4).
    assert (0 <= slot < 4) as Hslot by (apply Z.mod_pos_bound; lia).
    rewrite (wrap_small 16 slot), (wrap_small 16 (pathcode x * 4 + slot)) by lia.
    rewrite occupied_fmap by done. cbn [mbind outcome_bind]. destruct (f slot) as [e|] eqn:He; cbn [negb].
    2: { eexists. split; [done|]. left. by exists slot. }
    rewrite (live_fmap f slot e) by done. cbn [mbind outcome_bind]. change (MAX_BFS_PATH_LEN - 1) with 4.
    cbn [length] in Hroom. destruct (Z.ltb_spec (depth x) 4) as [Hlt|Hge].
    + unfold new_b_slot. change MAX_BFS_PATH_LEN with 5; test (depth x + 1 <? 5) is true. cbn [assert_ mbind outcome_bind].
      rewrite wrap_small by lia. unfold to_signed. rewrite (wrap_small 8) by lia.
      test (depth x + 1 <? 2 ^ (8 - 1)) is true. rewrite enqueue_Ok by lia. cbn [mbind outcome_bind].
      destruct (IH (MkQueue (q_slots q ++ [child hp x slot e]) (q_last q + 1))) as (r & Hr & Hcase);
        [cbn; lia..|]. unfold child in Hr at 1. rewrite Hr. exists r. split; [done|].
      destruct Hcase as [?|(cs & -> & Hlen & _ & Hcs & Hall)]; [by left|right].
      exists (child hp x slot e :: cs). cbn [q_slots q_last length]. split.
      { do 2 f_equal; [by rewrite <- app_assoc|lia]. }
      split; [intros _; by rewrite Hlen|]. split; [lia|]. split.
      * intros c [->|Hc]%elem_of_cons; [by exists slot, e|by apply Hcs].
      * intros i' [->|Hi']%elem_of_cons; [exists e; split; [done|intros _; left]|].
        destruct (Hall i' Hi') as (e' & ? & Hc). exists e'. split; [done|]. intros ?. right. by apply Hc.
    + destruct (IH q) as (r & Hr & Hcase); [done|lia|]. rewrite Hr. exists r. split; [done|].
      destruct Hcase as [?|(cs & -> & _ & Hnil & Hcs & Hall)]; [by left|right]. rewrite Hnil in * by lia.
      exists []. split; [done|]. split; [lia|]. split; [done|]. split; [done|].
      intros i' [->|Hi']%elem_of_cons; [exists e; split; [done|lia]|by apply Hall].
Qed.


(** ** The levels of the search *)

(** The elements of level [n], and those of the levels up to [n]. *)
Fixpoint width (n : nat) : Z := match n with O => 2 | Datatypes.S n => 4 * width n end.
Fixpoint upto (n : nat) : Z := match n with O => 2 | Datatypes.S n => upto n + 4 * width n end.

Lemma width_pos n : 2 <= width n.
Proof. induction n; simpl; lia. Qed.

Lemma upto_pos n : 2 <= upto n.
Proof. induction n as [|n IH]; simpl; [lia|]. pose proof (width_pos n). lia. Qed.

Lemma upto_bound n : (n <= 4)%nat -> upto n <= 682.
Proof. intros H. do 5 (destruct n as [|n]; [done|]). lia. Qed.

Lemma code_bound n : (n <= 4)%nat -> 2 * 4 ^ Z.of_nat n <= 512.
Proof. intros H. do 5 (destruct n as [|n]; [done|]). lia. Qed.

(** Level [n] of the search is being scanned: [l1] is left of it, [l2] is what the next
    level has so far, [last] is the number of elements so far. *)
Record level_inv v hp i1 i2 (n : nat) (l1 l2 : list b_slot) (last : Z) : Prop := {
  lv_n : (n <= 4)%nat;
  lv_left : forall x, x ∈ l1 -> stands_for v hp i1 i2 x n;
  lv_more : forall x, x ∈ l2 -> stands_for v hp i1 i2 x (Datatypes.S n);
  lv_last : last = upto n + Z.of_nat (length l2);
  lv_len : if decide (n = 4%nat) then l2 = [] else Z.of_nat (length l2) = 4 * (width n - Z.of_nat (length l1));
  lv_below : forall m b, (m < n)%nat -> reach v hp i1 i2 m b -> full_bucket v b;
  lv_level : forall b, reach v hp i1 i2 n b -> full_bucket v b \/ exists x, x ∈ l1 /\ b_bucket x = b;
  lv_next : (n < 4)%nat -> forall b j e, reach v hp i1 i2 n b -> 0 <= j < 4 -> v (b, j) = Some e ->
    (exists x, x ∈ l1 /\ b_bucket x = b) \/ (exists y, y ∈ l2 /\ b_bucket y = alt_index hp (e_partial e) b)
}.

Lemma level_init v hp i1 i2 : level_inv v hp i1 i2 0 [MkSlot i1 0 0; MkSlot i2 1 0] [] 2.
Proof.
  assert (forall b, reach v hp i1 i2 0 b -> exists x, x ∈ [MkSlot i1 0 0; MkSlot i2 1 0] /\ b_bucket x = b) as H.
  { intros b Hb. inversion Hb; subst; [exists (MkSlot b 0 0)|exists (MkSlot b 1 0)]; (split; [set_solver|done]). }
  constructor; try done; try lia; [|by intros ? ?%not_elem_of_nil|auto|auto].
  intros x Hx. assert (x = MkSlot i1 0 0 \/ x = MkSlot i2 1 0) as [->| ->] by (set_unfold; naive_solver);
    [exists 0|exists 1]; exists []; repeat split; try lia; constructor.
Qed.

(** The next level. *)
Lemma level_next v hp i1 i2 n l2 last :
  level_inv v hp i1 i2 n [] l2 last -> n <> 4%nat -> level_inv v hp i1 i2 (Datatypes.S n) l2 [] last.
Proof.
  intros [] Hn. rewrite decide_False in lv_len0 by done. cbn [length] in lv_len0. constructor; try lia.
  - done.
  - by intros ? ?%not_elem_of_nil.
  - cbn [upto length]. lia.
  - case_decide; [done|]. cbn [length width]. lia.
  - intros m b Hm Hb. destruct (decide (m = n)) as [->|]; [|by apply (lv_below0 m); [lia|]].
    destruct (lv_level0 b Hb) as [?|(x & ?%not_elem_of_nil & _)]; done.
  - intros b Hb. right. inversion Hb as [| |? b0 j e Hb0 Hj He]; subst.
    destruct (lv_next0 ltac:(lia) b0 j e Hb0 Hj He) as [(x & ?%not_elem_of_nil & _)|(y & ? & ?)]; [done|by exists y].
  - intros Hlt b j e Hb Hj He. left. inversion Hb as [| |? b0 j0 e0 Hb0 Hj0 He0]; subst.
    destruct (lv_next0 ltac:(lia) b0 j0 e0 Hb0 Hj0 He0) as [(x & ?%not_elem_of_nil & _)|(y & ? & ?)]; [done|by exists y].
Qed.

(** The slots of the scan are all slots. *)
Lemma rotate_slot c j : 0 <= j < 4 -> exists i, i ∈ slots /\ (c mod 4 + i) mod 4 = j.
Proof.
  intros Hj. exists ((j - c) mod 4). split.
  - apply elem_of_slots. apply Z.mod_pos_bound. lia.
  - rewrite <- Z.add_mod by lia. replace (c + (j - c)) with j by lia. by apply Z.mod_small.
Qed.

(** The scan of a full bucket. *)
Lemma level_step v hp i1 i2 n x l1 l2 last cs :
  level_inv v hp i1 i2 n (x :: l1) l2 last ->
  (depth x < 4 -> length cs = length slots) -> (depth x = 4 -> cs = []) ->
  (forall c, c ∈ cs -> exists slot e, 0 <= slot < 4 /\ v (b_bucket x, slot) = Some e /\ c = child hp x slot e) ->
  (forall i, i ∈ slots -> exists e, v (b_bucket x, (pathcode x mod 4 + i) mod 4) = Some e /\
     (depth x < 4 -> child hp x ((pathcode x mod 4 + i) mod 4) e ∈ cs)) ->
  level_inv v hp i1 i2 n l1 (l2 ++ cs) (last + Z.of_nat (length cs)).
Proof.
  intros [] Hlen Hnil Hcs Hall. destruct (lv_left0 x ltac:(left)) as (k & js & Hk & Hjs & Hn & Hcode & Hdepth & Hchain).
  assert (forall j, 0 <= j < 4 -> exists e, v (b_bucket x, j) = Some e /\ (depth x < 4 -> child hp x j e ∈ cs)) as Hslot.
  { intros j Hj. destruct (rotate_slot (pathcode x) j Hj) as (i & Hi & <-). by apply Hall. }
  constructor.
  - done.
  - intros y Hy. apply lv_left0. by right.
  - intros y [Hy|Hy]%elem_of_app; [by apply lv_more0|]. destruct (Hcs y Hy) as (j & e & Hj & He & ->).
    exists k, (js ++ [j]). split; [done|]. split; [apply Forall_app; split; [done|repeat constructor; lia]|].
    split; [rewrite length_app; simpl; lia|]. cbn [child pathcode depth b_bucket].
    rewrite encode_snoc, Hcode. split; [done|]. split; [lia|]. by apply moves_snoc.
  - rewrite length_app. lia.
  - case_decide as E.
    + rewrite lv_len0, Hnil by lia. done.
    + rewrite length_app, Hlen by lia. cbn [length] in *. change (length slots) with 4%nat. lia.
  - done.
  - intros b Hb. destruct (lv_level0 b Hb) as [?|(y & [->|Hy]%elem_of_cons & Hyb)]; [by left| |right; by exists y].
    left. intros j Hj. rewrite <- Hyb. destruct (Hslot j Hj) as (e & -> & _). by eexists.
  - intros Hlt b j e Hb Hj He. destruct (lv_next0 Hlt b j e Hb Hj He) as [(y & [->|Hy]%elem_of_cons & Hyb)|(y & Hy & Hyb)].
    + right. destruct (Hslot j Hj) as (e' & He' & Hin). rewrite Hyb, He in He'. injection He' as <-.
      exists (child hp x j e). split; [apply elem_of_app; right; apply Hin; lia|]. cbn. by rewrite Hyb.
    + left. by exists y.
    + right. exists y. split; [apply elem_of_app; by left|done].
Qed.

Lemma level_room v hp i1 i2 n x l1 l2 last :
  level_inv v hp i1 i2 n (x :: l1) l2 last -> 0 <= last /\ ((n < 4)%nat -> last + 4 <= 682).
Proof.
  intros []. pose proof (upto_pos n) as Hu.
  split; [lia|]. intros Hn. rewrite decide_False in lv_len0 by lia. cbn [length] in lv_len0.
  pose proof (upto_bound (Datatypes.S n) ltac:(lia)) as H. cbn [upto] in H. lia.
Qed.

(** What the search finds. *)
Definition search_result v hp i1 i2 (x : b_slot) : Prop :=
  (depth x = -1 /\ forall m b, (m <= 4)%nat -> reach v hp i1 i2 m b -> full_bucket v b) \/
  (exists k js b j, 0 <= k < 2 /\ Forall (fun j => 0 <= j < 4) js /\ 0 <= j < 4 /\
     (length js <= 4)%nat /\ depth x = Z.of_nat (length js) /\ pathcode x = encode k (js ++ [j]) /\
     chain v hp (start i1 i2 k) js b /\ v (b, j) = None /\
     forall m b', (m < length js)%nat -> reach v hp i1 i2 m b' -> full_bucket v b').

Lemma reach_start v hp i1 i2 k : reach v hp i1 i2 0 (start i1 i2 k).
Proof. unfold start. destruct (k =? 0); constructor. Qed.

Lemma start_range hp i1 i2 k : 0 <= i1 < 2 ^ hp -> 0 <= i2 < 2 ^ hp -> 0 <= start i1 i2 k < 2 ^ hp.
Proof. unfold start. by destruct (k =? 0). Qed.

(** An empty queue: the search gives up. *)
Lemma wp_search_end fuel i1 i2 n l1 l2 q s0 s :
  let hp := hashpower (buckets_ s0) in
  quiet s0 s -> held (locks s) = ∅ ->
  level_inv (view s0) hp i1 i2 n l1 l2 (q_last q) -> q_slots q = l1 ++ l2 -> l1 ++ l2 = [] ->
  wp (search_loop hash_function fuel false hp q) s (fun x s' =>
    quiet s0 s' /\ held (locks s') = ∅ /\ search_result (view s0) hp i1 i2 x) never.
Proof.
  intros hp Hq Hh Hinv Hslots Hnil. rewrite Hnil in Hslots. apply app_eq_nil in Hnil as [-> ->].
  assert (search_loop hash_function fuel false hp q = lift (new_b_slot 0 0 (-1))) as ->.
  { destruct fuel; cbn [search_loop]; by rewrite Hslots. }
  eapply wp_lift; [done|]. split; [done|]. split; [done|]. left. split; [done|]. intros m b Hm Hb.
  destruct Hinv. destruct (decide (n = 4%nat)) as [->|Hn].
  - destruct (decide (m = 4%nat)) as [->|]; [|apply (lv_below0 m); [lia|done]].
    destruct (lv_level0 b Hb) as [?|(x & ?%not_elem_of_nil & _)]; done.
  - pose proof (width_pos n). cbn [length] in lv_len0. lia.
Qed.

Lemma wp_search_loop fuel i1 i2 n l1 l2 q s0 s :
  let hp := hashpower (buckets_ s0) in
  quiet s0 s -> held (locks s) = ∅ -> 0 <= i1 < 2 ^ hp -> 0 <= i2 < 2 ^ hp ->
  level_inv (view s0) hp i1 i2 n l1 l2 (q_last q) -> q_slots q = l1 ++ l2 ->
  682 + Z.of_nat (length (l1 ++ l2)) <= Z.of_nat fuel + q_last q ->
  wp (search_loop hash_function fuel false hp q) s (fun x s' =>
    quiet s0 s' /\ held (locks s') = ∅ /\ search_result (view s0) hp i1 i2 x) never.
Proof.
  intros hp Hq Hh Hi1 Hi2. revert n l1 l2 q s Hq Hh.
  induction fuel as [|fuel IH]; intros n l1 l2 q s Hq Hh Hinv Hslots Hfuel;
    (destruct (decide (l1 ++ l2 = [])) as [Hnil|Hne]; [by eapply wp_search_end|]).
  { exfalso. apply Hne. destruct Hinv. pose proof (upto_bound n lv_n0) as Hu. rewrite length_app in Hfuel.
    assert (l1 = []) as -> by (apply length_zero_iff_nil; lia). assert (n = 4%nat) as ->; [|by rewrite decide_True in lv_len0].
    destruct (decide (n = 4%nat)) as [?|Hn]; [done|]. pose proof (upto_bound (Datatypes.S n) ltac:(lia)) as Hu'.
    pose proof (width_pos n). cbn [upto length] in *. lia. }
  assert (exists n x l1' l2', level_inv (view s0) hp i1 i2 n (x :: l1') l2' (q_last q) /\ q_slots q = (x :: l1') ++ l2')
    as (n' & x & l1' & l2' & Hinv' & Hslots').
  { destruct l1 as [|x l1]; [|by exists n, x, l1, l2]. cbn [app] in *. destruct l2 as [|x l2]; [done|].
    exists (Datatypes.S n), x, l2, []. rewrite app_nil_r. split; [|done]. apply level_next; [done|].
    intros ->. destruct Hinv. by rewrite decide_True in lv_len0. }
  assert (length (l1 ++ l2) = Datatypes.S (length (l1' ++ l2'))) as Hlen by (by rewrite <- Hslots, Hslots').
  rewrite Hlen in Hfuel. clear dependent n l1 l2.
  pose proof (lv_n _ _ _ _ _ _ _ _ Hinv') as Hn4. pose proof (code_bound n' Hn4) as Hc4.
  destruct (lv_left _ _ _ _ _ _ _ _ Hinv' x ltac:(left)) as (k & js & Hk & Hjs & Hn & Hcode & Hdepth & Hchain).
  pose proof (encode_bound k js Hk Hjs) as Hcb. rewrite <- Hcode, Hn in Hcb.
  cbn [search_loop]. rewrite Hslots'. cbn [app]. unfold dequeue. rewrite Hslots'. cbn [app]. wp_step.
  eapply wp_lift; [done|]. cbv beta iota.
  assert (0 <= b_bucket x < 2 ^ hp) as Hb.
  { apply (chain_range (view s0) hp (start i1 i2 k) js); [|by apply start_range|exact Hchain]. destruct (sh_hp _ _ (proj1 (quiet_shape Hq))).
    unfold hp. rewrite <- (quiet_hp Hq). lia. }
  eapply wp_seq; [apply wp_lock_one; [by eapply quiet_shape|symmetry; by eapply quiet_hp|done|done]|].
  intros m s1 [-> Hl]. pose proof (quiet_trans Hq (lk_quiet Hl)) as Hq1.
  wp_step. apply (wp_read_bucket hash_function).
  { by eapply quiet_shape. }
  { eapply locked_accessible; [exact Hl|by rewrite (quiet_hp Hq)|left]. }
  assert (forall j, view s1 (b_bucket x, j) = view s0 (b_bucket x, j)) as Hv by (intros; apply Hq1).
  destruct (scan_slots_spec hp x (fun j => view s1 (b_bucket x, j)) slots (MkQueue (l1' ++ l2') (q_last q)))
    as (r & Hr & Hcase); [lia|lia|apply slots_range| | |].
  { cbn. by destruct (level_room _ _ _ _ _ _ _ _ _ Hinv'). }
  { cbn. intros Hlt. destruct (level_room _ _ _ _ _ _ _ _ _ Hinv') as [_ H]. apply H. lia. }
  wp_step. eapply wp_lift; [exact Hr|]. wp_step. eapply wp_release_held; [done|].
  assert (remove (lock_ind (b_bucket x)) (held (locks s1)) = ∅) as -> by (rewrite (lk_held Hl); locks_ext).
  pose proof (quiet_trans Hq1 (quiet_with_held _ ∅ s1 (quiet_shape Hq1))) as Hq2.
  destruct Hcase as [(slot & -> & Hslot & Hfree)|(cs & -> & Hlen1 & Hnil & Hcs & Hall)].
  - apply wp_ret. split; [done|]. split; [done|]. right. exists k, js, (b_bucket x), slot. cbn.
    rewrite encode_snoc, Hn. split_and!; try done; try lia; [by rewrite <- Hv|].
    intros m b' Hm. by apply (lv_below _ _ _ _ _ _ _ _ Hinv').
  - eapply (IH n' l1' (l2' ++ cs)); [done|done| |cbn; by rewrite app_assoc|].
    + apply (level_step _ _ _ _ _ x); [done..| |].
      * intros c Hc. destruct (Hcs c Hc) as (slot & e & ? & ? & ?). exists slot, e. by rewrite <- Hv.
      * intros i Hi. destruct (Hall i Hi) as (e & ? & ?). exists e. by rewrite <- Hv.
    + cbn. rewrite app_assoc, length_app. lia.
Qed.

(** [slot_search] finds a free slot with the fewest moves, or there is none within four. *)
Lemma wp_slot_search i1 i2 s :
  let hp := hashpower (buckets_ s) in
  shape s -> held (locks s) = ∅ -> 0 <= i1 < 2 ^ hp -> 0 <= i2 < 2 ^ hp ->
  wp (slot_search hash_function false hp i1 i2) s (fun x s' =>
    quiet s s' /\ held (locks s') = ∅ /\ search_result (view s) hp i1 i2 x) never.
Proof.
  intros hp Hs Hh Hi1 Hi2. unfold slot_search. wp_step. eapply wp_lift; [done|]. wp_step.
  eapply wp_lift; [by apply enqueue_Ok|]. wp_step. eapply wp_lift; [done|]. wp_step.
  eapply wp_lift; [by apply enqueue_Ok|]. change (Z.to_nat MAX_CUCKOO_COUNT) with 682%nat.
  eapply wp_search_loop; [by apply quiet_refl|done|done|done|apply level_init|done|cbn; lia].
Qed.

(** ** The path *)


(** Records that agree with the table: each but the last is an entry that can move to
    the bucket of the next; the last is a free slot. *)
Fixpoint good_walk v hp (w : list CuckooRecord) : Prop :=
  match w with
  | [] => False
  | r :: w =>
    match w with
    | [] => v (pos r) = None
    | r' :: _ =>
      (exists e, v (pos r) = Some e /\ r_hv r = hashed_key hash_function (e_key e) /\
         r_bucket r' = alt_index hp (e_partial e) (r_bucket r)) /\
      good_walk v hp w
    end
  end.

Lemma record_at_app (l : list CuckooRecord) r l' : record_at (l ++ r :: l') (Z.of_nat (length l)) = Ok r.
Proof.
  unfold record_at. test (0 <=? Z.of_nat (length l)) is true. rewrite Nat2Z.id.
  by rewrite lookup_app_r, Nat.sub_diag by lia.
Qed.

Lemma set_record_app (l : list CuckooRecord) r l' f :
  set_record (l ++ r :: l') (Z.of_nat (length l)) f = Ok (l ++ f r :: l').
Proof.
  unfold set_record. rewrite record_at_app. cbn [mbind outcome_bind]. rewrite Nat2Z.id.
  by rewrite insert_app_r_alt, Nat.sub_diag by lia.
Qed.

(** The digits of a path code go into the slots of the records. *)
Lemma fill_slots_spec k (js : list Z) j l r l' :
  Forall (fun j => 0 <= j < 4) js -> 0 <= j < 4 -> length l = length js ->
  exists l2, fill_slots (length js) (encode k (js ++ [j])) (l ++ r :: l') = Ok (k, l2 ++ set_r_slot j r :: l') /\
    r_slot <$> l2 = js.
Proof.
  revert j l r l'. induction js as [|j0 js IH] using rev_ind; intros j l r l' Hjs Hj Hlen.
  - apply length_zero_iff_nil in Hlen as ->. exists []. cbn [length fill_slots]. rewrite encode_snoc.
    change slot_per_bucket with 4. rewrite Z.add_comm, Z_mod_plus_full, Z.mod_small, Z.div_add, Z.div_small by lia.
    change (Z.of_nat 0) with (Z.of_nat (length (@nil CuckooRecord))). by rewrite set_record_app.
  - apply Forall_app in Hjs as [Hjs Hj0]. inversion Hj0 as [|? ? Hj0' _]; subst.
    rewrite length_app in *. cbn [length] in *. rewrite Nat.add_1_r in *.
    destruct l as [|r0 l0 _] using rev_ind; [done|]. rewrite length_app in Hlen. cbn [length] in Hlen.
    cbn [fill_slots]. rewrite encode_snoc. change slot_per_bucket with 4.
    replace (Z.of_nat (Datatypes.S (length js))) with (Z.of_nat (length (l0 ++ [r0]))) by (rewrite length_app; simpl; lia).
    rewrite set_record_app, (Z.add_comm (_ * 4)), Z_mod_plus_full, Z.mod_small, Z.div_add, Z.div_small by lia.
    cbn [mbind outcome_bind]. rewrite <- app_assoc. cbn [app].
    destruct (IH j0 l0 r0 (set_r_slot j r :: l')) as (l2 & Hf & Hl2); [done|done|lia|].
    rewrite Z.add_0_l, Hf. exists (l2 ++ [set_r_slot j0 r0]). rewrite <- app_assoc. split; [done|].
    by rewrite fmap_app, Hl2.
Qed.

Lemma wp_read_record (l : list CuckooRecord) r l' s0 s :
  let hp := hashpower (buckets_ s0) in
  quiet s0 s -> held (locks s) = ∅ -> 0 <= r_bucket r < 2 ^ hp -> 0 <= r_slot r < 4 ->
  wp (read_record hash_function false hp (Z.of_nat (length l)) (l ++ r :: l')) s (fun o s' =>
    quiet s0 s' /\ held (locks s') = ∅ /\
    o = match view s0 (pos r) with
        | None => None
        | Some e => Some (l ++ set_r_hv (hashed_key hash_function (e_key e)) r :: l')
        end) never.
Proof.
  intros hp Hq Hh Hb Hj. unfold read_record. wp_step. eapply wp_lift; [apply record_at_app|].
  eapply wp_seq; [apply wp_lock_one; [by eapply quiet_shape|symmetry; by eapply quiet_hp|done|done]|].
  intros m s1 [-> Hl]. pose proof (quiet_trans Hq (lk_quiet Hl)) as Hq1.
  wp_step. apply (wp_read_bucket hash_function); [by eapply quiet_shape| |].
  { eapply locked_accessible; [exact Hl|by rewrite (quiet_hp Hq)|left]. }
  assert (view s1 (pos r) = view s0 (pos r)) as Hv by apply Hq1.
  assert (quiet s0 (with_held ∅ s1)) as Hq2 by (eapply quiet_trans; [exact Hq1|apply quiet_with_held; by eapply quiet_shape]).
  assert (remove (lock_ind (r_bucket r)) (held (locks s1)) = ∅) as Hr by (rewrite (lk_held Hl); locks_ext).
  wp_step. eapply wp_lift; [by apply occupied_fmap|]. rewrite Hv.
  destruct (view s0 (pos r)) as [e|] eqn:He; cbn [negb]; wp_step.
  - eapply wp_lift; [by apply live_fmap|]. wp_step. eapply wp_lift; [apply set_record_app|]. wp_step.
    eapply wp_release_held; [exact Hr|]. by apply wp_ret.
  - eapply wp_release_held; [exact Hr|]. by apply wp_ret.
Qed.

(** Following a chain of entries from the record [r]. *)
Lemma wp_follow_path (js : list Z) (l : list CuckooRecord) r rest junk e b j s0 s :
  let hp := hashpower (buckets_ s0) in
  table_ok hp (view s0) -> quiet s0 s -> held (locks s) = ∅ ->
  view s0 (pos r) = Some e -> r_hv r = hashed_key hash_function (e_key e) ->
  r_slot <$> rest = js ++ [j] -> Forall (fun j => 0 <= j < 4) js -> 0 <= j < 4 ->
  chain (view s0) hp (alt_index hp (e_partial e) (r_bucket r)) js b -> view s0 (b, j) = None ->
  wp (follow_path hash_function (length rest) false hp (Z.of_nat (length l) + 1) (l ++ r :: rest ++ junk)) s
    (fun res s' => quiet s0 s' /\ held (locks s') = ∅ /\ exists w,
       res = (Z.of_nat (length l) + Z.of_nat (length rest), l ++ r :: w ++ junk) /\
       length w = length rest /\ r_slot <$> w = js ++ [j] /\ good_walk (view s0) hp (r :: w)) never.
Proof.
  intros hp Ht Hq Hh. revert l r rest e s Hq Hh.
  induction js as [|j1 js IH]; intros l r rest e s Hq Hh Hv Hhv Hrest Hjs Hj Hch Hfree;
    (destruct rest as [|r1 rest]; [by apply (f_equal length) in Hrest; rewrite length_fmap, ?length_app in Hrest; simpl in Hrest; lia|]).
  all: destruct (tb_placed _ _ _ Ht _ _ Hv) as [Hpar Hhome]; cbn [fst] in Hhome.
  all: assert (0 <= hp < 63) as Hhp
    by (destruct (sh_hp _ _ (proj1 (quiet_shape Hq))); unfold hp; rewrite <- (quiet_hp Hq); lia).
  all: cbn [length follow_path]; wp_step; replace (Z.of_nat (length l) + 1 - 1) with (Z.of_nat (length l)) by lia;
    (eapply wp_lift; [apply record_at_app|]); wp_step; (apply wp_assert;
      [apply orb_true_iff; rewrite !Z.eqb_eq, Hhv; exact Hhome|]); wp_step;
    replace (Z.of_nat (length l) + 1) with (Z.of_nat (length (l ++ [r]))) by (rewrite length_app; simpl; lia);
    replace (l ++ r :: (r1 :: rest) ++ junk) with ((l ++ [r]) ++ r1 :: rest ++ junk) by (by rewrite <- app_assoc);
    (eapply wp_lift; [apply set_record_app|]);
    rewrite Hhv; cbn [hashed_key hv_partial]; rewrite <- Hpar;
    set (b1 := alt_index hp (e_partial e) (r_bucket r)) in *; set (r1' := set_r_bucket b1 r1).
  all: assert (0 <= b1 < 2 ^ hp) as Hb1 by (apply alt_index_range; lia).
  all: cbn [fmap list_fmap app] in Hrest; injection Hrest as Hr1 Hrest.
  - inversion Hch; subst b. eapply wp_seq; [apply wp_read_record; [done|done|done|by rewrite <- Hr1 in Hj]|].
    intros o s1 (Hq1 & Hh1 & ->). cbn [r_bucket r_slot r1' set_r_bucket]. rewrite Hr1, Hfree.
    apply fmap_nil_inv in Hrest as ->. apply wp_ret. split; [done|]. split; [done|].
    exists [r1']. rewrite length_app. cbn [length]. split; [f_equal; [lia|by rewrite <- app_assoc]|].
    split; [done|]. split; [cbn; by rewrite Hr1|]. cbn [good_walk]. split; [by exists e|]. cbn. by rewrite Hr1.
  - inversion Hch as [|? ? ? e1 ? Hj1 He1 Hch1]; subst. apply Forall_cons in Hjs as [_ Hjs].
    eapply wp_seq; [apply wp_read_record; [done|done|done|done]|].
    intros o s1 (Hq1 & Hh1 & ->). cbn [r_bucket r_slot r1' set_r_bucket]. rewrite He1.
    set (r2 := set_r_hv _ _). rewrite length_app. cbn [length]. rewrite Nat2Z.inj_add.
    replace (Z.of_nat (length l) + Z.of_nat 1 + 1) with (Z.of_nat (length (l ++ [r])) + 1) by (rewrite length_app; simpl; lia).
    eapply wp_conseq; [apply (IH (l ++ [r]) r2 rest e1 s1); try done|].
    intros res s2 (Hq2 & Hh2 & w & -> & Hlen & Hsl & Hw). split; [done|]. split; [done|]. exists (r2 :: w).
    rewrite length_app. cbn [length]. split; [f_equal; [lia|by rewrite <- app_assoc]|]. split; [by rewrite Hlen|].
    split; [cbn; by rewrite Hsl|]. split; [by exists e|exact Hw].
Qed.

(** What [cuckoopath_search] returns. *)
Definition path_result v hp i1 i2 (d : Z) (path : list CuckooRecord) : Prop :=
  (d = -1 /\ forall m b, (m <= 4)%nat -> reach v hp i1 i2 m b -> full_bucket v b) \/
  (exists r w junk, path = r :: w ++ junk /\ d = Z.of_nat (length w) /\ (length w <= 4)%nat /\
     (r_bucket r = i1 \/ r_bucket r = i2) /\ Forall (fun r => 0 <= r_slot r < 4) (r :: w) /\
     good_walk v hp (r :: w) /\
     forall m b, (m < length w)%nat -> reach v hp i1 i2 m b -> full_bucket v b).

Lemma wp_cuckoopath_search i1 i2 path s :
  let hp := hashpower (buckets_ s) in
  shape s -> table_ok hp (view s) -> held (locks s) = ∅ ->
  0 <= i1 < 2 ^ hp -> 0 <= i2 < 2 ^ hp -> length path = 5%nat ->
  wp (cuckoopath_search hash_function false hp i1 i2 path) s (fun '(d, path') s' =>
    quiet s s' /\ held (locks s') = ∅ /\ path_result (view s) hp i1 i2 d path') never.
Proof.
  intros hp Hs Ht Hh Hi1 Hi2 Hlen. unfold cuckoopath_search.
  eapply wp_seq; [by apply wp_slot_search|]. fold hp.
  intros x s1 (Hq & Hh1 & [[-> Hno]|(k & js & b & j & Hk & Hjs & Hj & Hn & -> & Hcode & Hch & Hfree & Hmin)]).
  { apply wp_ret. split; [done|]. split; [done|]. by left. }
  test (Z.of_nat (length js) =? -1) is false. rewrite Nat2Z.id, Hcode. wp_step.
  assert (exists l r junk, path = l ++ r :: junk /\ length l = length js) as (l & r & junk & -> & Hl).
  { destruct (path !! length js) as [r|] eqn:Hr; [|apply lookup_ge_None in Hr; lia].
    exists (take (length js) path), r, (drop (Datatypes.S (length js)) path).
    split; [symmetry; by apply take_drop_middle|]. rewrite length_take. lia. }
  destruct (fill_slots_spec k js j l r junk Hjs Hj Hl) as (l2 & Hf & Hl2). eapply wp_lift; [exact Hf|]. cbv beta iota.
  wp_step. apply (wp_conseq _ _ (fun _ s' => s' = s1)).
  { destruct (Z.eqb_spec k 0); [by apply wp_ret|]. apply wp_assert; [|done]. zbool. }
  intros [] s' ->. wp_step. fold (start i1 i2 k).
  pose proof (start_range hp i1 i2 k Hi1 Hi2) as Hst. set (b0 := start i1 i2 k) in *.
  assert (b0 = i1 \/ b0 = i2) as Hb0 by (unfold b0, start; destruct (k =? 0); auto).
  destruct js as [|j0 js].
  - apply fmap_nil_inv in Hl2 as ->. inversion Hch; subst b. cbn [app].
    eapply wp_lift; [apply (set_record_app [])|]. cbn [app].
    eapply wp_seq; [apply (wp_read_record [] (set_r_bucket b0 (set_r_slot j r))); [done|done|done|done]|].
    intros o s2 (Hq2 & Hh2 & ->). cbn [r_bucket r_slot set_r_bucket set_r_slot]. rewrite Hfree. cbv iota beta.
    apply wp_ret. split; [done|]. split; [done|]. right. exists (set_r_bucket b0 (set_r_slot j r)), [], junk.
    split; [done|]. split; [done|]. split; [cbn; lia|]. split; [done|]. split; [by apply Forall_singleton|].
    split; [done|]. cbn. lia.
  - destruct l2 as [|r0 l2]; [done|]. cbn [fmap list_fmap] in Hl2. injection Hl2 as Hr0 Hl2. cbn [app].
    inversion Hch as [|? ? ? e ? Hj0 He Hch1]; subst j0 b0 js. apply Forall_cons in Hjs as [_ Hjs].
    eapply wp_lift; [apply (set_record_app [])|]. cbn [app].
    eapply wp_seq; [apply (wp_read_record [] (set_r_bucket (start i1 i2 k) r0)); [done|done|done|done]|].
    intros o s2 (Hq2 & Hh2 & ->). cbn [r_bucket r_slot set_r_bucket]. fold hp. rewrite He. cbv iota beta.
    set (r1 := set_r_hv _ _). cbn [app length]. rewrite length_fmap.
    replace (l2 ++ set_r_slot j r :: junk) with ((l2 ++ [set_r_slot j r]) ++ junk) by (by rewrite <- app_assoc).
    replace (Datatypes.S (length l2)) with (length (l2 ++ [set_r_slot j r])) by (rewrite length_app; simpl; lia).
    eapply wp_conseq; [apply (wp_follow_path (r_slot <$> l2) [] r1 _ junk e b j); try done; by rewrite fmap_app|].
    intros [d p'] s3 (Hq3 & Hh3 & w & Heq & Hlw & Hsl & Hw). injection Heq as -> ->.
    split; [done|]. split; [done|]. right. exists r1, w, junk. rewrite length_app in Hlw. cbn [length] in Hlw, Hn. rewrite length_fmap in Hn.
    rewrite length_app. cbn [length]. split; [done|]. split; [lia|]. split; [lia|]. split; [done|]. split; [|split; [done|]].
    + constructor; [done|]. rewrite <- (Forall_fmap r_slot (fun j => 0 <= j < 4)), Hsl.
      apply Forall_app. split; [done|by apply Forall_singleton].
    + intros m c Hm. apply Hmin. cbn [length]. rewrite length_fmap. lia.
Qed.
End Search.
