(* ===== verification/CuckooMove.v ===== *)
(** Moving entries along a cuckoo path. A path that is stale moves nothing wrong: every
    move keeps the map. A path of the search is never stale when one thread runs: its
    buckets are distinct, so all of its moves succeed. *)
From S2P Require Import Prelude Words Outcome Buckets Cuckoo CuckooFacts CuckooView CuckooLocks CuckooTable CuckooSearch.

(** A relation between neighbours of a list. *)
Definition adjacent {A} (R : A -> A -> Prop) (w : list A) : Prop :=
  forall l1 a b l2, w = l1 ++ a :: b :: l2 -> R a b.

Lemma adjacent_app_l {A} (R : A -> A -> Prop) w w' : adjacent R (w ++ w') -> adjacent R w.
Proof. intros H l1 a b l2 ->. apply (H l1 a b (l2 ++ w')). by rewrite <- app_assoc. Qed.

Lemma adjacent_cons {A} (R : A -> A -> Prop) a b w : R a b -> adjacent R (b :: w) -> adjacent R (a :: b :: w).
Proof.
  intros Hab H l1 x y l2 Heq. destruct l1 as [|z l1]; [by injection Heq as -> -> _|].
  injection Heq as -> Heq. by apply (H l1 x y l2).
Qed.

Lemma adjacent_snoc {A} (R : A -> A -> Prop) l a b : adjacent R (l ++ [a; b]) -> R a b.
Proof. intros H. by apply (H l a b []). Qed.

Lemma adjacent_impl {A} (R R' : A -> A -> Prop) w :
  (forall l1 a b l2, w = l1 ++ a :: b :: l2 -> R a b -> R' a b) -> adjacent R w -> adjacent R' w.
Proof. intros H Hw l1 a b l2 Heq. by eapply H, Hw. Qed.

Section Move.
Context {V : Type} (hash_function : Z -> Z).

Abbreviation St := (map_t V).
Abbreviation view := (view hash_function).
Abbreviation shape := (shape hash_function).
Abbreviation quiet := (quiet hash_function).
Abbreviation leads := (leads hash_function).
Abbreviation table_ok := (table_ok hash_function).
Implicit Types (s : St) (e : entry V) (p : Z * Z) (v : Z * Z -> option (entry V)) (hp b i j key : Z)
  (r from to : CuckooRecord) (l w junk : list CuckooRecord).

(** ** Shapes of paths *)

(** [to] is in the other bucket of the hash value in [from]. *)
Definition linked hp from to : Prop :=
  hv_partial (r_hv from) = partial_key (hv_hash (r_hv from)) /\
  r_bucket to = alt_index hp (hv_partial (r_hv from)) (r_bucket from).

(** [from] is an entry of the table whose other bucket is that of [to]. *)
Definition step_ok v hp from to : Prop :=
  exists e, v (pos from) = Some e /\ r_hv from = hashed_key hash_function (e_key e) /\
    r_bucket to = alt_index hp (e_partial e) (r_bucket from).

Definition record_range hp r : Prop := position hp (pos r).

Lemma good_walk_adjacent v hp w :
  good_walk hash_function v hp w -> adjacent (step_ok v hp) w /\ exists l r, w = l ++ [r] /\ v (pos r) = None.
Proof.
  induction w as [|r w IH]; [done|]. destruct w as [|r' w].
  - intros Hr. split; [|by exists [], r]. intros l1 a b l2 Heq. by destruct l1 as [|? [|]].
  - intros [Hs Hw]. destruct (IH Hw) as (Ha & l & r1 & Heq & Hr1). split; [by apply adjacent_cons|].
    exists (r :: l), r1. by rewrite Heq.
Qed.

Lemma step_ok_linked v hp from to : table_ok hp v -> step_ok v hp from to -> linked hp from to.
Proof.
  intros Ht (e & He & Hh & Hb). destruct (tb_placed _ _ _ Ht _ _ He) as [Hp _]. unfold linked. rewrite Hh. cbn.
  by rewrite <- Hp.
Qed.

Lemma good_walk_ext v v' hp w :
  (forall p, v p = v' p) -> good_walk hash_function v hp w -> good_walk hash_function v' hp w.
Proof.
  intros Heq. induction w as [|r w IH]; [done|]. destruct w as [|r' w]; cbn [good_walk]; [by rewrite Heq|].
  rewrite Heq. intros [? ?]. by split; [|apply IH].
Qed.

Lemma good_walk_range v hp r w :
  0 <= hp < 64 -> good_walk hash_function v hp (r :: w) -> 0 <= r_bucket r < 2 ^ hp ->
  Forall (fun r => 0 <= r_slot r < 4) (r :: w) -> Forall (record_range hp) (r :: w).
Proof.
  intros Hhp. revert r. induction w as [|r' w IH]; intros r Hg Hb [Hj Hw]%Forall_cons.
  - rewrite Forall_singleton. done.
  - constructor; [done|]. destruct Hg as [(e & _ & _ & Hr') Hg]. apply IH; [done| |done].
    rewrite Hr'. by apply alt_index_range.
Qed.

(** From the bucket of [r], the walk reaches a free slot. *)
Lemma good_walk_reach v hp i1 i2 w r n :
  good_walk hash_function v hp (r :: w) -> Forall (fun r => 0 <= r_slot r < 4) (r :: w) ->
  reach v hp i1 i2 n (r_bucket r) ->
  exists b j, reach v hp i1 i2 (n + length w) b /\ 0 <= j < 4 /\ v (b, j) = None.
Proof.
  revert r n. induction w as [|r' w IH]; intros r n Hg [Hj Hw]%Forall_cons Hr; cbn [length].
  - rewrite Nat.add_0_r. by exists (r_bucket r), (r_slot r).
  - destruct Hg as [(e & He & _ & Hb) Hg]. rewrite Nat.add_succ_r. apply (IH r' (Datatypes.S n) Hg Hw).
    rewrite Hb. by apply reach_move with (j := r_slot r).
Qed.

Lemma good_walk_suffix v hp w1 r w2 :
  good_walk hash_function v hp (w1 ++ r :: w2) -> Forall (fun r => 0 <= r_slot r < 4) (w1 ++ r :: w2) ->
  good_walk hash_function v hp (r :: w2) /\ Forall (fun r => 0 <= r_slot r < 4) (r :: w2).
Proof.
  induction w1 as [|x w1 IH]; [done|]. intros Hg [_ Hw]%Forall_cons. apply IH; [|done]. destruct w1; by destruct Hg.
Qed.

(** A shortest walk does not come back to a bucket. *)
Lemma good_walk_NoDup v hp i1 i2 w r n :
  good_walk hash_function v hp (r :: w) -> Forall (fun r => 0 <= r_slot r < 4) (r :: w) ->
  reach v hp i1 i2 n (r_bucket r) ->
  (forall m b, (m < n + length w)%nat -> reach v hp i1 i2 m b -> full_bucket v b) ->
  NoDup (r_bucket <$> r :: w).
Proof.
  revert r n. induction w as [|r' w IH]; intros r n Hg Hw Hr Hmin; [apply NoDup_singleton|].
  destruct (Hg) as [(e & He & _ & Hb) Hg']. change (good_walk hash_function v hp (r' :: w)) in Hg'. apply Forall_cons in Hw as [Hj Hw].
  rewrite fmap_cons. apply NoDup_cons. split.
  - intros (r2 & Heq & Hin)%list_elem_of_fmap. apply list_elem_of_split in Hin as (w1 & w2 & Hsplit).
    rewrite Hsplit in Hg', Hw. destruct (good_walk_suffix v hp w1 r2 w2 Hg' Hw) as [Hg2 Hw2].
    rewrite Heq in Hr. destruct (good_walk_reach v hp i1 i2 w2 r2 n Hg2 Hw2 Hr) as (b & j & Hb' & Hj' & Hfree).
    destruct (Hmin (n + length w2)%nat b) with (j := j) as [? ?]; [|done|done|congruence].
    rewrite Hsplit, length_app. cbn [length]. lia.
  - apply (IH r' (Datatypes.S n)); [done|done| |].
    + rewrite Hb. by apply reach_move with (j := r_slot r).
    + intros m b Hm. apply Hmin. cbn [length]. lia.
Qed.

(** ** What moves keep *)

(** The table still represents [m], and the number of elements is the same. *)
Record keeps s s' (m : gmap Z V) : Prop := {
  kp_shape : shape s';
  kp_table : table_ok (hashpower (buckets_ s')) (view s');
  kp_rep : rep (view s') m;
  kp_hp : hashpower (buckets_ s') = hashpower (buckets_ s);
  kp_n : n_locks (locks s') = n_locks (locks s);
  kp_counters : elem_counters (locks s') = elem_counters (locks s);
  kp_max : maximum_hashpower_ s' = maximum_hashpower_ s
}.

Lemma quiet_keeps s s' m :
  quiet s s' -> table_ok (hashpower (buckets_ s)) (view s) -> rep (view s) m -> keeps s s' m.
Proof.
  intros Hq Ht Hr. destruct (Hq). constructor; try done; [rewrite ld_hp|]; [eapply table_ok_ext|eapply rep_ext]; done.
Qed.

Lemma keeps_trans s s' s'' m : keeps s s' m -> keeps s' s'' m -> keeps s s'' m.
Proof. intros [] []. constructor; try done; congruence. Qed.

Lemma keeps_quiet s s' s'' m : keeps s s' m -> quiet s' s'' -> keeps s s'' m.
Proof. intros Hk Hq. eapply keeps_trans; [exact Hk|]. by apply quiet_keeps; [|apply Hk..]. Qed.

(** One move under the locks of both buckets. *)
Lemma wp_move_entry from to s m :
  let hp := hashpower (buckets_ s) in
  shape s -> table_ok hp (view s) -> rep (view s) m ->
  accessible s (r_bucket from) -> accessible s (r_bucket to) -> record_range hp from -> record_range hp to ->
  linked hp from to ->
  wp (move_entry hash_function from to) s (fun moved s' =>
    keeps s s' m /\ locks s' = locks s /\
    (if moved then exists e, view s (pos from) = Some e /\ view s (pos to) = None /\
       forall p, view s' p = upd (upd (view s) (pos to) (Some e)) (pos from) None p
     else s' = s) /\
    (step_ok (view s) hp from to -> view s (pos to) = None -> moved = true)) never.
Proof.
  intros hp Hs Ht Hr Hf Hto Hrf Hrt [Hpar Hlink]. unfold move_entry.
  wp_step. apply (wp_read_bucket hash_function); [done..|]. wp_step. apply (wp_read_bucket hash_function); [done..|].
  assert (keeps s s m) as Hsame by (apply quiet_keeps; [by apply quiet_refl|done..]).
  destruct Hrf as [_ Hjf], Hrt as [Hbt Hjt]. cbn [fst snd] in *.
  wp_step. eapply wp_lift; [by apply occupied_fmap|]. destruct (view s (pos to)) as [e'|] eqn:Hvt; [by apply wp_ret|].
  wp_step. eapply wp_lift; [by apply occupied_fmap|]. destruct (view s (pos from)) as [e|] eqn:Hvf; cbn [negb].
  2: { apply wp_ret. split; [done|]. split; [done|]. split; [done|]. intros (e & He & _). congruence. }
  wp_step. eapply wp_lift; [by apply live_fmap|]. unfold hashed_key_only_hash.
  destruct (Z.eqb_spec (hash_function (e_key e)) (hv_hash (r_hv from))) as [Hh|Hh]; cbn [negb].
  2: { apply wp_ret. split; [done|]. split; [done|]. split; [done|]. intros (e' & He & Heq & _).
       rewrite Hvf in He. injection He as <-. by rewrite Heq in Hh. }
  destruct (tb_placed _ _ _ Ht _ _ Hvf) as [Hep Heh]. cbn [fst] in Heh.
  destruct (sh_hp _ _ (proj1 Hs)) as [Hhp1 Hhp2].
  assert (placed hash_function hp (r_bucket to) e) as Hpl.
  { split; [done|]. rewrite Hlink, Hpar, <- Hh. apply home_alt; [unfold hp; lia|done]. }
  wp_step. apply (wp_add_entry hash_function); [done..|]. intros s1 H1 Hl1.
  assert (accessible s1 (r_bucket from)) as Hf1.
  { destruct Hf. constructor; rewrite ?Hl1; [by rewrite (ld_hp H1)|done..]. }
  wp_step. apply (wp_erase_entry hash_function); [apply H1|done|done| |].
  { rewrite (ld_view H1), upd_ne, Hvf; [by eexists|]. congruence. }
  intros s2 H2 Hl2. apply wp_ret. assert (MkEntry (e_partial e) (e_key e) (e_val e) = e) as He by by destruct e.
  assert (forall p, view s2 p = upd (upd (view s) (pos to) (Some e)) (pos from) None p) as Hv2.
  { intros p. rewrite (ld_view H2). unfold upd. case_decide; [done|]. rewrite (ld_view H1), He.
    unfold upd. done. }
  assert (hashpower (buckets_ s2) = hp) as Hhp by (by rewrite (ld_hp H2), (ld_hp H1)).
  split; [|split; [by rewrite Hl2|split; [by exists e|done]]].
  constructor; try done; rewrite ?Hl2, ?Hl1; try done.
  - apply H2.
  - rewrite Hhp. eapply table_ok_ext; [exact Hv2|]. by apply table_ok_move.
  - eapply rep_ext; [exact Hv2|]. by eapply rep_move.
  - by rewrite (ld_max H2), (ld_max H1).
Qed.


(** ** The loop over the path *)

(** The locks for the move of [from] to [to], the last one if [d] is 0. *)
Lemma wp_move_locks d from to i1 i2 s :
  let hp := hashpower (buckets_ s) in
  shape s -> held (locks s) = ∅ -> 0 <= i1 < 2 ^ hp -> 0 <= i2 < 2 ^ hp ->
  record_range hp from -> record_range hp to -> (d = 0 -> r_bucket from = i1 \/ r_bucket from = i2) ->
  wp (if d =? 0 then lock_three hash_function false hp i1 i2 (r_bucket to)
      else t ← lock_two hash_function false hp (r_bucket from) (r_bucket to); mret (t, None)) s
    (fun '(twob, extra) s' => quiet s s' /\ accessible s' (r_bucket from) /\ accessible s' (r_bucket to) /\
       exists x y, twob = TwoBuckets_normal x y /\
         match extra with Some l => remove l (held (locks s')) | None => held (locks s') end =
           lset [lock_ind x; lock_ind y] /\
         (d = 0 -> x = i1 /\ y = i2 /\ accessible s' i1 /\ accessible s' i2)) never.
Proof.
  intros hp Hs Hh Hi1 Hi2 [Hf _] [Ht _] Hd. cbn [fst] in *. destruct (Z.eqb_spec d 0) as [->|Hne].
  - specialize (Hd eq_refl). wp_use wp_lock_three as [-> Hl]; try done.
    split; [apply Hl|]. assert (forall i, i = i1 \/ i = i2 \/ i = r_bucket to -> accessible s' i) as Ha.
    { intros i Hi. eapply locked_accessible; [exact Hl|by destruct Hi as [->|[->| ->]]|].
      destruct Hi as [->|[->| ->]]; set_solver. }
    split; [apply Ha; destruct Hd; auto|]. split; [apply Ha; auto|]. exists i1, i2. split; [done|].
    split; [|intros _; do 2 (split; [done|]); split; apply Ha; auto]. rewrite (lk_held Hl).
    destruct (Z.eqb_spec (lock_ind (r_bucket to)) (lock_ind i1)) as [E1|E1]; cbn [orb]; [rewrite E1; locks_ext|].
    destruct (Z.eqb_spec (lock_ind (r_bucket to)) (lock_ind i2)) as [E2|E2]; [rewrite E2; locks_ext|locks_ext].
  - eapply wp_seq; [by apply wp_lock_two|]. intros t s' [-> Hl]. apply wp_ret. split; [apply Hl|].
    split; [eapply locked_accessible; [exact Hl|done|set_solver]|].
    split; [eapply locked_accessible; [exact Hl|done|set_solver]|]. eexists _, _. split; [done|].
    split; [apply Hl|done].
Qed.

(** How the loop ends: with both insert buckets locked and the first slot free, or
    without locks. *)
Definition move_done (i1 i2 : Z) r (moved : bool) (b : TwoBuckets) s : Prop :=
  if moved then b = TwoBuckets_normal i1 i2 /\ held (locks s) = lset [lock_ind i1; lock_ind i2] /\
    accessible s i1 /\ accessible s i2 /\ view s (pos r) = None
  else b = MkTwo i1 i2 None None /\ held (locks s) = ∅.

Lemma accessible_with_held h s i :
  accessible s i -> mem (lock_ind i) h = true -> accessible (with_held h s) i.
Proof. intros [] Hm. by constructor. Qed.

Lemma accessible_locks s s' i :
  accessible s i -> hashpower (buckets_ s') = hashpower (buckets_ s) -> locks s' = locks s -> accessible s' i.
Proof. intros [] H1 H2. constructor; by rewrite ?H1, ?H2. Qed.

Lemma wp_release_both extra x y s (Q : () -> St -> Prop) E :
  match extra with Some l => remove l (held (locks s)) | None => held (locks s) end = lset [lock_ind x; lock_ind y] ->
  Q () (with_held ∅ s) -> wp (release extra;; two_destroy (TwoBuckets_normal x y)) s Q E.
Proof.
  intros Hh HQ. wp_step. eapply wp_release_held; [exact Hh|]. apply wp_two_destroy; [done|]. exact HQ.
Qed.

Lemma with_held_with_held h h' s : with_held h (with_held h' s) = with_held h s.
Proof. done. Qed.

Lemma record_at_snoc l from to junk :
  record_at ((l ++ [from]) ++ to :: junk) (Z.of_nat (length l)) = Ok from /\
  record_at ((l ++ [from]) ++ to :: junk) (Z.of_nat (length l) + 1) = Ok to.
Proof.
  split; [rewrite <- app_assoc; apply record_at_app|].
  replace (Z.of_nat (length l) + 1) with (Z.of_nat (length (l ++ [from]))) by (rewrite length_app; simpl; lia).
  apply record_at_app.
Qed.

Lemma step_ok_ext v v' hp from to : (forall p, v p = v' p) -> step_ok v hp from to -> step_ok v' hp from to.
Proof. intros Heq (e & He & ?). exists e. by rewrite <- Heq. Qed.

Lemma NoDup_fmap_ne {A B} (f : A -> B) (l1 : list A) (a : A) (l2 : list A) (x : A) : NoDup (f <$> l1 ++ a :: l2) -> x ∈ l2 -> f a <> f x.
Proof.
  rewrite fmap_app, fmap_cons. intros (_ & _ & [Hn _]%NoDup_cons)%NoDup_app Hx Heq. apply Hn. rewrite Heq.
  by apply list_elem_of_fmap_2.
Qed.

(** The entries before [from] are where they were after the move of [from]. *)
Lemma step_ok_moved v hp l from to e :
  adjacent (step_ok v hp) (l ++ [from]) -> NoDup ((fun r => pos r) <$> l ++ [from; to]) ->
  adjacent (step_ok (upd (upd v (pos to) (Some e)) (pos from) None) hp) (l ++ [from]).
Proof.
  intros Ha Hnd. eapply adjacent_impl; [|exact Ha]. intros l1 a b l2 Heq (e' & He & Hh & Hb). exists e'.
  split; [|done]. assert (l ++ [from; to] = l1 ++ a :: (b :: l2 ++ [to])) as Heq2.
  { change (l ++ [from; to]) with (l ++ [from] ++ [to]). by rewrite app_assoc, Heq, <- app_assoc. }
  assert (from ∈ b :: l2) as Hin.
  { destruct l2 as [|r l2 _] using rev_ind.
    - change (a :: [b]) with ([a] ++ [b]) in Heq. rewrite app_assoc in Heq. apply app_inj_tail in Heq as [_ ->]. left.
    - rewrite !app_comm_cons, app_assoc in Heq. apply app_inj_tail in Heq as [_ ->]. set_solver. }
  rewrite Heq2 in Hnd. pose proof (NoDup_fmap_ne (fun r => pos r) l1 a _ from Hnd ltac:(set_solver)).
  pose proof (NoDup_fmap_ne (fun r => pos r) l1 a _ to Hnd ltac:(set_solver)). by rewrite !upd_ne.
Qed.

Lemma wp_move_loop l r junk i1 i2 s0 s m r0 :
  let hp := hashpower (buckets_ s0) in
  keeps s0 s m -> held (locks s) = ∅ -> 0 <= i1 < 2 ^ hp -> 0 <= i2 < 2 ^ hp -> l <> [] ->
  adjacent (linked hp) (l ++ [r]) -> Forall (record_range hp) (l ++ [r]) ->
  head (l ++ [r]) = Some r0 -> r_bucket r0 = i1 \/ r_bucket r0 = i2 ->
  wp (move_loop hash_function (length l) false hp (l ++ r :: junk) (MkTwo i1 i2 None None)) s (fun '(moved, b) s' =>
    keeps s0 s' m /\ move_done i1 i2 r0 moved b s' /\
    (adjacent (step_ok (view s) hp) (l ++ [r]) -> view s (pos r) = None ->
     NoDup ((fun r => pos r) <$> l ++ [r]) -> moved = true)) never.
Proof.
  intros hp. revert r junk s. induction l as [|from l IH] using rev_ind; [done|].
  intros r junk s Hk Hh Hi1 Hi2 _ Hadj Hrange Hhead Hr0. rewrite length_app, Nat.add_1_r. cbn [move_loop].
  assert ((l ++ [from]) ++ [r] = l ++ [from; r]) as Happ by (by rewrite <- app_assoc). rewrite Happ in *.
  destruct (record_at_snoc l from r junk) as [Hat1 Hat2]. wp_step. eapply wp_lift; [exact Hat1|].
  wp_step. eapply wp_lift; [exact Hat2|].   pose proof (adjacent_snoc _ _ _ _ Hadj) as Hlink. apply Forall_app in Hrange as [Hrl Hrange].
  apply Forall_cons in Hrange as [Hrf Hrange]. rewrite Forall_singleton in Hrange.
  cbn [Cuckoo.i1 Cuckoo.i2]. assert (hashpower (buckets_ s) = hp) as Hhp by apply Hk. clearbody hp. subst hp.
  eapply wp_seq.
  { apply wp_move_locks; [apply Hk|done..|]. intros Hz. destruct l; [|simpl in Hz; lia].
    cbn in Hhead. by injection Hhead as ->. }
  intros [twob extra] s1 (Hq & Haf & Hat & x & y & -> & Hrel & Hz). cbv iota beta.
  pose proof (keeps_quiet _ _ _ _ Hk Hq) as Hk1.
  pose proof (quiet_hp Hq) as Hhp1. rewrite <- Hhp1 in Hrf, Hrange, Hlink.
  eapply wp_seq; [by apply (wp_move_entry from r s1 m); [apply Hk1..|done|done|done|done|]|].
  intros moved s2 (Hk2 & Hl2 & Hv2 & Hgood). rewrite <- Hl2 in Hrel.
  assert (forall p, view s1 p = view s p) as Hv1 by apply Hq.
  assert (forall h, keeps s0 (with_held h s2) m) as Hk3.
  { intros h. eapply keeps_trans; [exact Hk1|]. eapply keeps_quiet; [exact Hk2|]. apply quiet_with_held, Hk2. }
  assert (adjacent (step_ok (view s) (hashpower (buckets_ s))) (l ++ [from; r]) -> view s (pos r) = None -> moved = true) as Hmoved.
  { intros Ha Hn. apply Hgood; [|by rewrite Hv1]. apply adjacent_snoc in Ha as (e & He & ?). exists e.
    by rewrite Hv1, Hhp1. }
  destruct moved; cbn [negb].
  - destruct Hv2 as (e & He & Hfree & Hv2). destruct l as [|x0 l].
    + cbn [length]. change (Z.of_nat 0 =? 0) with true. cbv iota. destruct (Hz eq_refl) as (-> & -> & Hai1 & Hai2).
      cbn in Hhead. injection Hhead as <-. wp_step. eapply wp_release_held; [exact Hrel|]. apply wp_ret.
      split; [apply Hk3|]. split; [|done]. split; [done|]. split; [done|].
      assert (forall i, accessible s1 i -> lock_ind i ∈ [lock_ind i1; lock_ind i2] ->
                accessible (with_held (lset [lock_ind i1; lock_ind i2]) s2) i) as Hacc.
      { intros i Hi Hin. apply accessible_with_held; [|rewrite mem_lset; by apply bool_decide_eq_true].
        eapply accessible_locks; [exact Hi|by rewrite (kp_hp _ _ _ Hk2)|done]. }
      split; [apply Hacc; [done|left]|]. split; [apply Hacc; [done|right; left]|].
      transitivity (view s2 (pos from)); [done|]. by rewrite Hv2, upd_eq.
    + replace (Z.of_nat (length (x0 :: l)) =? 0) with false by (symmetry; apply Z.eqb_neq; simpl; lia). wp_step. eapply wp_release_held; [exact Hrel|].
      wp_step. apply wp_two_destroy; [done|]. rewrite with_held_with_held, <- app_assoc. cbn [app].
      eapply wp_conseq; [apply (IH from (r :: junk) (with_held ∅ s2)); try done|].
      * apply (adjacent_app_l _ _ [r]). by rewrite <- app_assoc.
      * apply Forall_app. split; [done|]. rewrite Forall_singleton. by rewrite <- Hhp1.
      * intros [moved b] s3 (Hk4 & Hd & Hyes). split; [done|]. split; [done|]. intros Ha Hn Hnd. apply Hyes.
        -- eapply adjacent_impl; [|apply (step_ok_moved (view s) (hashpower (buckets_ s)) _ from r e); [|exact Hnd]].
           ++ intros ? a c ? _. apply step_ok_ext. intros p. transitivity (view s2 p); [|done]. rewrite Hv2. unfold upd.
              repeat case_decide; by rewrite ?Hv1.
           ++ apply (adjacent_app_l _ _ [r]). by rewrite <- app_assoc.
        -- transitivity (view s2 (pos from)); [done|]. by rewrite Hv2, upd_eq.
        -- assert (NoDup ((fun r => pos r) <$> ((x0 :: l) ++ [from]) ++ [r])) as Hnd2 by (rewrite Happ; exact Hnd).
           rewrite fmap_app in Hnd2. by apply NoDup_app in Hnd2 as [? _].
  - wp_step. eapply wp_release_held; [exact Hrel|]. wp_step. apply wp_two_destroy; [done|]. apply wp_ret.
    split; [apply Hk3|]. split; [done|]. intros Ha Hn _. by apply Hmoved.
Qed.

Lemma wp_cuckoopath_move w junk r i1 i2 s m :
  let hp := hashpower (buckets_ s) in
  shape s -> table_ok hp (view s) -> rep (view s) m -> held (locks s) = ∅ ->
  0 <= i1 < 2 ^ hp -> 0 <= i2 < 2 ^ hp -> r_bucket r = i1 \/ r_bucket r = i2 ->
  adjacent (linked hp) (r :: w) -> Forall (record_range hp) (r :: w) ->
  wp (cuckoopath_move hash_function false hp (r :: w ++ junk) (Z.of_nat (length w)) (MkTwo i1 i2 None None)) s
    (fun '(moved, b) s' => keeps s s' m /\ move_done i1 i2 r moved b s' /\
       (good_walk hash_function (view s) hp (r :: w) -> NoDup ((fun r => pos r) <$> r :: w) -> moved = true)) never.
Proof.
  intros hp Hs Ht Hr Hh Hi1 Hi2 Hr0 Hadj Hrange. unfold cuckoopath_move.
  assert (keeps s s m) as Hk by (apply quiet_keeps; [by apply quiet_refl|done..]).
  destruct w as [|r1 w0 _] using rev_ind.
  - cbn [length]. change (Z.of_nat 0 =? 0) with true. cbv iota. wp_step. eapply wp_lift; [done|].
    wp_step. apply wp_assert; [apply orb_true_iff; rewrite !Z.eqb_eq; done|].
    eapply wp_seq; [by apply wp_lock_two|]. intros b s1 [-> Hl]. cbn [Cuckoo.i1 Cuckoo.i2] in *.
    rewrite Forall_singleton in Hrange. destruct Hrange as [_ Hj]. cbn [snd] in Hj.
    assert (accessible s1 i1 /\ accessible s1 i2) as [H1 H2].
    { split; (eapply locked_accessible; [exact Hl|done|]); [left|right; left]. }
    pose proof (keeps_quiet _ _ _ _ Hk (lk_quiet Hl)) as Hk1.
    wp_step. apply (wp_read_bucket hash_function); [apply Hk1|by destruct Hr0 as [->| ->]|].
    wp_step. eapply wp_lift; [by apply occupied_fmap|].
    assert (view s1 (pos r) = view s (pos r)) as Hv by apply Hl. rewrite Hv.
    destruct (view s (pos r)) as [e|] eqn:He; cbn [negb].
    + wp_step. apply wp_two_unlock; [apply Hl|]. apply wp_ret. split; [|split; [done|]].
      * eapply keeps_quiet; [exact Hk1|]. apply quiet_with_held, Hk1.
      * cbn. congruence.
    + apply wp_ret. split; [done|]. split; [|done]. split; [done|]. split; [apply Hl|]. split; [done|]. split; [done|].
      by rewrite Hv.
  - rewrite length_app, Nat.add_1_r. test (Z.of_nat (Datatypes.S (length w0)) =? 0) is false.
    rewrite Nat2Z.id. change (Datatypes.S (length w0)) with (length (r :: w0)). rewrite <- app_assoc. cbn [app].
    wp_use (wp_move_loop (r :: w0) r1 junk i1 i2 s s m r) as H; try done.
    destruct a as [moved b]. destruct H as (H1 & H2 & H3). split; [done|]. split; [done|]. intros Hg Hnd.
    apply good_walk_adjacent in Hg as (Ha & l & r2 & Heq & Hfree). apply H3; try done.
    rewrite app_comm_cons in Heq. by apply app_inj_tail in Heq as [_ <-].
Qed.

(** ** The whole eviction *)

(** The buckets [i1] and [i2] are locked. *)
Record insert_locked (i1 i2 : Z) s : Prop := {
  il_held : held (locks s) = lset [lock_ind i1; lock_ind i2];
  il_1 : accessible s i1;
  il_2 : accessible s i2
}.

Lemma locked_at_insert s0 s i1 i2 :
  locked_at hash_function s0 s [lock_ind i1; lock_ind i2] ->
  0 <= i1 < 2 ^ hashpower (buckets_ s0) -> 0 <= i2 < 2 ^ hashpower (buckets_ s0) -> insert_locked i1 i2 s.
Proof.
  intros Hl H1 H2. constructor; [apply Hl|by eapply locked_accessible; [exact Hl|done|left]|].
  by eapply locked_accessible; [exact Hl|done|right; left].
Qed.

Lemma wp_holds_lock i s (Q : () -> St -> Prop) E :
  accessible s i -> Q () s -> wp (holds_lock false (lock_ind i)) s Q E.
Proof. intros [] HQ. unfold holds_lock. wp_step. apply wp_get. by apply wp_assert. Qed.

(** [run_cuckoo] frees a slot of one of the two buckets, or four moves do not reach a free
    slot; it does not need a second round. *)
Lemma wp_run_cuckoo fuel i1 i2 s m :
  let hp := hashpower (buckets_ s) in
  shape s -> table_ok hp (view s) -> rep (view s) m -> insert_locked i1 i2 s -> (0 < fuel)%nat ->
  wp (run_cuckoo hash_function fuel false (TwoBuckets_normal i1 i2)) s (fun '(st, b, ib, sl) s' => keeps s s' m /\
    ((st = ok /\ b = TwoBuckets_normal i1 i2 /\ insert_locked i1 i2 s' /\ (ib = i1 \/ ib = i2) /\
      0 <= sl < 4 /\ view s' (ib, sl) = None) \/
     (st = failure /\ b = MkTwo i1 i2 None None /\ held (locks s') = ∅ /\
      forall n c, (n <= 4)%nat -> reach (view s) hp i1 i2 n c -> full_bucket (view s) c))) never.
Proof.
  intros hp Hs Ht Hr [Hh H1 H2] Hf. destruct fuel as [|fuel]; [lia|]. unfold run_cuckoo.
  wp_step. apply wp_gets. wp_step. apply wp_two_unlock; [done|]. apply wp_catch. cbn [cuckoo_loop Cuckoo.i1 Cuckoo.i2].
  set (s1 := with_held ∅ s). assert (quiet s s1) as Hq by by apply quiet_with_held.
  assert (keeps s s1 m) as Hk by by apply quiet_keeps.
  eapply wp_seq; [by apply (wp_cuckoopath_search hash_function i1 i2 new_CuckooRecords s1); [apply Hq|..|apply H1|apply H2|]|].
  intros [d path] s2 (Hq2 & Hh2 & Hres). pose proof (keeps_quiet _ _ _ _ Hk Hq2) as Hk2.
  destruct Hres as [[-> Hno]|(r & w & junk & -> & -> & Hlen & Hr0 & Hsl & Hg & Hmin)].
  { test (-1 <? 0) is true. apply wp_ret. split; [done|]. right. done. }
  test (Z.of_nat (length w) <? 0) is false.
  assert (hashpower (buckets_ s2) = hp) as Hhp by apply Hk2.
  assert (0 <= hp < 64) as Hhp64 by (destruct (sh_hp _ _ (proj1 Hs)); unfold hp; lia).
  destruct (good_walk_adjacent _ _ _ Hg) as (Hadj & _).
  assert (Forall (record_range hp) (r :: w)) as Hrange.
  { eapply good_walk_range; [done|exact Hg| |done]. by destruct Hr0 as [->| ->]; [apply H1|apply H2]. }
  eapply wp_seq.
  { fold hp. rewrite <- Hhp. apply (wp_cuckoopath_move w junk r i1 i2 s2 m); try done; try apply Hk2; rewrite Hhp; try done;
      [apply H1|apply H2|]. eapply adjacent_impl; [|exact Hadj]. intros *. intros _. by apply step_ok_linked. }
  intros [moved b] s3 (Hk3 & Hd & Hyes). rewrite Hhp in Hyes.
  assert (moved = true) as ->.
  { apply Hyes.
    - eapply good_walk_ext; [|exact Hg]. intros p. symmetry. apply Hq2.
    - apply (NoDup_fmap_1 fst). rewrite <- list_fmap_compose.
      apply (good_walk_NoDup (view s1) hp i1 i2 w r 0); [done|done| |done].
      destruct Hr0 as [->| ->]; constructor. }
  destruct Hd as (-> & Hh3 & Ha1 & Ha2 & Hfree).
  wp_step. eapply wp_lift; [done|]. wp_step. cbn [Cuckoo.i1 Cuckoo.i2 TwoBuckets_normal].
  apply wp_assert; [apply orb_true_iff; rewrite !Z.eqb_eq; done|]. wp_step. apply wp_holds_lock; [done|].
  wp_step. apply wp_holds_lock; [done|]. wp_step. apply (wp_read_bucket hash_function); [apply Hk3|by destruct Hr0 as [->| ->]|].
  apply Forall_cons in Hsl as [Hj _]. wp_step. eapply wp_lift; [by apply occupied_fmap|]. rewrite Hfree. cbn [negb].
  wp_step. apply wp_assert; [done|]. apply wp_ret. split; [by eapply keeps_trans|]. left. done.
Qed.
End Move.
