(* ===== verification/CuckooDouble.v ===== *)
(** Doubling of the cuckoo map: every key keeps one of its two homes when the table
    doubles, at once or lazily, and what happens when the new buckets cannot be
    allocated. *)
From S2P Require Import Prelude Words Outcome Buckets Cuckoo CuckooFacts CuckooView CuckooLocks CuckooTable CuckooSearch CuckooMove.

Section Double.
Context {V : Type} (hash_function : Z -> Z) (new_ok : Z -> bool).

Abbreviation St := (map_t V).
Abbreviation view := (view hash_function).
Abbreviation shape := (shape hash_function).
Abbreviation shape0 := (shape0 hash_function).
Abbreviation quiet := (quiet hash_function).
Abbreviation table_ok := (table_ok hash_function).
Abbreviation plan_cells := (plan_cells hash_function).
Implicit Types (s : St) (e : entry V) (p : Z * Z) (v : Z * Z -> option (entry V)) (hp b i j key : Z)
  (old : gmap (Z * Z) (entry V)) (m : gmap Z V).

(** ** The doubled table *)

Definition doubled hp old (p : Z * Z) : option (entry V) := plan_cells hp (low hp (p.1)) old slots 0 !! p.

Lemma doubled_origin hp old p e :
  0 <= hp < 63 -> all_placed hash_function hp old -> doubled hp old p = Some e ->
  exists j, (j, p, e) ∈ plan hash_function hp (low hp (p.1)) old slots 0 /\ old !! (low hp (p.1), j) = Some e.
Proof.
  intros Hhp Hold Hp. unfold doubled in Hp. apply plan_cells_spec in Hp as [j Hp]; [|done|done|apply slots_NoDup].
  exists j. split; [done|]. by apply plan_origin in Hp as [_ ?].
Qed.

Lemma doubled_complete hp old ob j e :
  0 <= hp < 63 -> all_placed hash_function hp old -> 0 <= ob < 2 ^ hp -> 0 <= j < 4 -> old !! (ob, j) = Some e ->
  exists p, doubled hp old p = Some e.
Proof.
  intros Hhp Hold Hob Hj He. destruct (plan_complete hash_function hp ob old slots 0 j e) as [p Hp]; [by apply elem_of_slots|done|].
  exists p. unfold doubled. assert (low hp (p.1) = ob) as ->.
  { apply plan_position in Hp as [_ [->|[-> _]]]; try done; cbn; [|rewrite low_add by lia]; apply low_small; lia. }
  apply plan_cells_spec; [done|done|apply slots_NoDup|]. by exists j.
Qed.

Lemma doubled_table_ok hp old :
  0 <= hp < 63 -> table_ok hp (fun p => old !! p) -> table_ok (hp + 1) (doubled hp old).
Proof.
  intros Hhp Ht. assert (all_placed hash_function hp old) as Hold by (intros i j e He; by apply (tb_placed _ _ _ Ht _ _ He)).
  assert (forall p e, doubled hp old p = Some e ->
            placed hash_function (hp + 1) (p.1) e /\ 0 <= p.2 < 4) as Hpos.
  { intros p e Hp. apply plan_cells_position in Hp as (? & _ & ?); [done|done|done|].
    intros j e' He. by apply (tb_bounds _ _ _ Ht _ _ He). }
  constructor.
  - intros p e Hp. destruct (Hpos p e Hp) as [[_ Hh] ?]. split; [|done]. eapply home_range; [|done]. lia.
  - intros p e Hp. by apply Hpos.
  - intros p q e e' Hp Hq Hk. destruct (doubled_origin hp old p e Hhp Hold Hp) as (j & Hin & He).
    destruct (doubled_origin hp old q e' Hhp Hold Hq) as (j' & Hin' & He').
    pose proof (tb_unique _ _ _ Ht _ _ _ _ He He' Hk) as Heq. injection Heq as Hl ->. rewrite <- Hl in Hin'.
    eapply plan_functional; [apply slots_NoDup|done|done].
Qed.

Lemma doubled_rep hp old m :
  0 <= hp < 63 -> table_ok hp (fun p => old !! p) -> rep (fun p => old !! p) m -> rep (doubled hp old) m.
Proof.
  intros Hhp Ht Hr key x. assert (all_placed hash_function hp old) as Hold by (intros i j e He; by apply (tb_placed _ _ _ Ht _ _ He)).
  rewrite (Hr key x). split.
  - intros ([ob j] & e & He & Hk & Hx). destruct (tb_bounds _ _ _ Ht _ _ He) as [Hob Hj].
    destruct (doubled_complete hp old ob j e Hhp Hold Hob Hj He) as [p Hp]. by exists p, e.
  - intros (p & e & Hp & Hk & Hx). destruct (doubled_origin hp old p e Hhp Hold Hp) as (j & _ & He).
    by exists (low hp (p.1), j), e.
Qed.

(** ** All locks *)

Lemma size_full_eq n : 0 <= n -> Z.of_nat (base.size (full n)) = n.
Proof.
  intros Hn. assert (Z.of_nat (length (range 0 n)) = n) as Hl by (rewrite range_seqZ, length_seqZ; lia).
  rewrite <- Hl at 2. f_equal. unfold full. assert (NoDup (range 0 n)) as Hnd by (rewrite range_seqZ; apply NoDup_seqZ).
  clear Hl. induction Hnd as [|a ls Ha Hnd IH]; cbn [foldr length]; [done|]. unfold add at 1.
  rewrite map_size_insert_None, IH; [done|]. pose proof (mem_lset a ls) as Hm. unfold mem, lset in Hm.
  rewrite bool_decide_eq_false_2 in Hm by done. by destruct (foldr add ∅ ls !! a).
Qed.

Lemma range_NoDup a b : NoDup (range a b).
Proof. rewrite range_seqZ. apply NoDup_seqZ. Qed.

Lemma wp_lock_all s :
  held (locks s) = ∅ ->
  wp (lock_all false) s (fun _ s' => s' = with_held (full (n_locks (locks s))) s) never.
Proof.
  intros Hh. unfold lock_all. wp_step. apply wp_get. set (n := n_locks (locks s)).
  eapply wp_conseq; [apply (wp_for_each lock (fun dn s' => exists h, s' = with_held h s /\
    forall l, mem l h = bool_decide (l ∈ dn)))|].
  - exists ∅. split; [unfold with_held, set_held; rewrite <- Hh; by destruct s as [? ? []]|].
    intros l. by rewrite bool_decide_false by apply not_elem_of_nil.
  - intros dn l rest s' Heq (h & -> & Hm). pose proof (range_NoDup 0 n) as Hnd. rewrite Heq in Hnd.
    apply NoDup_app in Hnd as (_ & Hnd & _). assert (l ∉ dn) as Hl by (intros Hl; apply (Hnd l Hl); left).
    apply wp_lock.
    + cbn. apply elem_of_range. fold n. rewrite Heq. set_solver.
    + cbn. rewrite Hm. by apply bool_decide_eq_false.
    + eexists. split; [done|]. intros l'. cbn. rewrite mem_add, Hm. destruct (Z.eqb_spec l' l) as [->|Hne]; cbn [orb].
      * symmetry. apply bool_decide_eq_true. set_solver.
      * apply bool_decide_ext. set_solver.
  - intros [] s' (h & -> & Hm). f_equal. apply lock_set_ext. intros l. rewrite Hm, mem_full.
    rewrite (bool_decide_ext (l ∈ range 0 n) (0 <= l < n)) by apply elem_of_range.
    destruct (Z.leb_spec 0 l), (Z.ltb_spec l n); cbn; (by rewrite bool_decide_true by lia) || (by rewrite bool_decide_false by lia).
Qed.

Lemma wp_unlock_all s (Q : () -> St -> Prop) :
  (forall l, mem l (held (locks s)) = true -> 0 <= l < n_locks (locks s)) ->
  Q () (with_held ∅ s) -> wp (unlock_all false) s Q never.
Proof.
  intros Hh HQ. unfold unlock_all. wp_step. apply wp_get. set (n := n_locks (locks s)) in *.
  eapply wp_conseq; [apply (wp_for_each unlock (fun dn s' => exists h, s' = with_held h s /\
    forall l, mem l h = mem l (held (locks s)) && negb (bool_decide (l ∈ dn))))|].
  - exists (held (locks s)). split; [unfold with_held, set_held; by destruct s as [? ? []]|].
    intros l. rewrite bool_decide_false by apply not_elem_of_nil. by rewrite andb_true_r.
  - intros dn l rest s' Heq (h & -> & Hm). apply wp_unlock. eexists. split; [done|]. intros l'. cbn.
    rewrite mem_remove, Hm. destruct (Z.eqb_spec l' l) as [->|Hne]; cbn [negb andb].
    + rewrite bool_decide_true by set_solver. by rewrite andb_false_r.
    + f_equal. f_equal. apply bool_decide_ext. set_solver.
  - intros [] s' (h & -> & Hm). assert (h = ∅) as ->; [|done]. apply lock_set_ext. intros l. rewrite Hm, mem_empty.
    destruct (mem l (held (locks s))) eqn:Hl; [|done]. cbn. apply Hh, elem_of_range in Hl. by rewrite bool_decide_true.
Qed.

(** Migrating everything that is left. *)
Lemma wp_rehash_with_workers s :
  shape0 s -> (forall l, 0 <= l < n_locks (locks s) -> mem l (held (locks s)) = true) ->
  wp (rehash_with_workers hash_function) s (fun _ s' => quiet s s' /\ held (locks s') = held (locks s) /\
    unmigrated (locks s') = ∅ /\ is_deallocated (old_buckets_ s') = true) never.
Proof.
  intros Hs Hh. unfold rehash_with_workers. wp_step. apply wp_get. set (n := n_locks (locks s)) in *. wp_step.
  eapply wp_conseq; [apply (wp_for_each (rehash_lock hash_function false) (fun dn s' => exists c u,
    s' = with_unmigrated u (with_cells c s) /\ shape0 s' /\ (forall p, view s' p = view s p) /\
    forall l, mem l u = mem l (unmigrated (locks s)) && negb (bool_decide (l ∈ dn))))|].
  - exists (cells (buckets_ s)), (unmigrated (locks s)).
    assert (with_unmigrated (unmigrated (locks s)) (with_cells (cells (buckets_ s)) s) = s) as -> by (by destruct s as [[] ? []]).
    split; [done|]. split; [done|]. split; [done|]. intros l.
    rewrite bool_decide_false by apply not_elem_of_nil. by rewrite andb_true_r.
  - intros dn l rest s' Heq (c & u & -> & Hs' & Hv & Hm).
    wp_use wp_rehash_lock0 as (c' & -> & Hs2 & Hv2); [done|cbn; apply Hh, elem_of_range; fold n; rewrite Heq; set_solver|].
    exists c', (remove l u). split; [done|]. split; [done|]. split; [intros p; by rewrite Hv2|].
    intros l'. rewrite mem_remove, Hm. destruct (Z.eqb_spec l' l) as [->|Hne]; cbn [negb andb].
    + rewrite bool_decide_true by set_solver. by rewrite andb_false_r.
    + f_equal. f_equal. apply bool_decide_ext. set_solver.
  - intros [] s' (c & u & -> & Hs' & Hv & Hm). assert (u = ∅) as ->.
    { apply lock_set_ext. intros l. rewrite Hm, mem_empty. destruct (mem l (unmigrated (locks s))) eqn:Hl; [|done].
      apply (sh_unmigrated _ _ Hs), elem_of_range in Hl. by rewrite bool_decide_true. }
    unfold num_remaining_lazy_rehash_locks. wp_step. apply wp_set_remaining.
    change (0 =? 0) with true. cbv iota. eapply (wp_deallocate_old hash_function _ 0); [by apply shape0_remaining|done|done|].
    intros b Hb Hvb Hd _. split; [|done]. constructor; try done.
Qed.

(** ** The new buckets and locks *)

(** The number of locks after a resize to [c] buckets. *)
Definition resized (n c : Z) : Z := if (n <? kMaxNumLocks) && (n <? c) then Z.min kMaxNumLocks c else n.

Lemma resized_bounds n c : n <= kMaxNumLocks -> n <= resized n c <= kMaxNumLocks /\ Z.min c kMaxNumLocks <= resized n c.
Proof.
  intros Hn. unfold resized. destruct (Z.ltb_spec n kMaxNumLocks), (Z.ltb_spec n c); cbn [andb]; lia.
Qed.

Definition with_locks (n : Z) (h : lock_set) (s : St) : St :=
  MkMap (buckets_ s) (old_buckets_ s) (MkLocks n (elem_counters (locks s)) (unmigrated (locks s)) h)
    (num_remaining_lazy_rehash_locks_ s) (maximum_hashpower_ s).

Lemma wp_maybe_resize_locks c s :
  held (locks s) = full (n_locks (locks s)) ->
  wp (maybe_resize_locks c) s (fun _ s' =>
    s' = with_locks (resized (n_locks (locks s)) c) (full (resized (n_locks (locks s)) c)) s) never.
Proof.
  intros Hh. unfold maybe_resize_locks, resized. wp_step. apply wp_get.
  destruct (Z.ltb_spec (n_locks (locks s)) kMaxNumLocks) as [H1|H1], (Z.ltb_spec (n_locks (locks s)) c) as [H2|H2];
    cbn [andb negb]; try (apply wp_ret; unfold with_locks; rewrite <- Hh; by destruct s as [? ? []]).
  wp_step. apply wp_assert; [zbool|]. unfold modify_locks. by apply wp_modify.
Qed.

(** The state between the two tables. *)
Definition swapped (new_hp : Z) (s : St) : St :=
  MkMap (MkBuckets new_hp ∅ false) (MkBuckets (hashpower (buckets_ s)) (cells (buckets_ s)) (is_deallocated (buckets_ s)))
    (locks s) (num_remaining_lazy_rehash_locks_ s) (maximum_hashpower_ s).

Lemma wp_swap_in_new_buckets new_hp s :
  is_deallocated (old_buckets_ s) = true ->
  wp (swap_in_new_buckets new_ok new_hp) s
    (fun _ s' => allocate new_ok new_hp = true /\ s' = swapped new_hp s)
    (fun x s' => x = bad_alloc /\ allocate new_ok new_hp = false /\ locks s' = locks s /\
       is_deallocated (buckets_ s') = true).
Proof.
  intros Hd. unfold swap_in_new_buckets. wp_step. apply wp_get. unfold swap. cbv beta iota zeta. unfold set_old_buckets, set_buckets.
  wp_step. apply wp_modify. wp_step. apply wp_modify. unfold bucket_container.
  destruct (allocate new_ok new_hp) eqn:Ha; [|by apply wp_throw].
  wp_step. eapply wp_lift.
  - unfold move_assign, destroy_buckets. cbn [is_deallocated]. rewrite Hd. cbn [mbind outcome_bind]. done.
  - apply wp_modify. done.
Qed.

(** Moving every bucket at once. *)
Lemma wp_move_all s :
  doubling hash_function s -> in_bounds (old_buckets_ s) -> cells (buckets_ s) = ∅ ->
  (forall i, 0 <= i < 2 ^ hashpower (buckets_ s) -> mem (lock_ind i) (held (locks s)) = true) ->
  wp (for_each (range 0 (size (old_buckets_ s))) (move_bucket hash_function)) s (fun _ s' => exists c,
    s' = with_cells c s /\ forall p, c !! p = doubled (hashpower (old_buckets_ s)) (cells (old_buckets_ s)) p) never.
Proof.
  intros Hd Hb Hc Hh. destruct (Hd) as ([_ Hhp] & _ & Hop & Heq & _). set (hp := hashpower (old_buckets_ s)) in *.
  assert (size (old_buckets_ s) = 2 ^ hp) as -> by (apply size_pow; fold hp; lia).
  assert (0 < 2 ^ hp) as Hpos by (apply Z.pow_pos_nonneg; lia).
  assert (2 ^ (hp + 1) = 2 * 2 ^ hp) as Hdbl by (rewrite Z.pow_add_r by lia; lia).
  rewrite <- Heq, Hdbl in Hh.
  eapply wp_conseq; [apply (wp_for_each _ (fun dn s' => exists c, s' = with_cells c s /\
      forall p, c !! p = if decide (low hp (p.1) ∈ dn) then doubled hp (cells (old_buckets_ s)) p else None))|].
  - exists ∅. split; [rewrite <- Hc; by destruct s as [[]]|]. intros p. rewrite decide_False; [done|apply not_elem_of_nil].
  - intros dn ob rest s1 Hr (c & -> & Hcc). assert (ob ∈ range 0 (2 ^ hp)) as Hob by (rewrite Hr; set_solver).
    apply elem_of_range in Hob. assert (ob ∉ dn) as Hnew.
    { pose proof (range_NoDup 0 (2 ^ hp)) as Hnd. rewrite Hr in Hnd. apply NoDup_app in Hnd as (_ & Hnd & _).
      intros Hob'. apply (Hnd ob Hob'). left. }
    wp_use (wp_move_bucket hash_function) as (c' & -> & Hc'); try done; [apply Hh; lia|cbn; fold hp; apply Hh; lia| |].
    + cbn. fold hp. intros p Hp. by rewrite Hcc, Hp, decide_False.
    + exists c'. split; [done|]. intros p. rewrite Hc'. cbn. fold hp.
      destruct (Z.eqb_spec (low hp (p.1)) ob) as [Hl|Hne].
      * rewrite decide_True by set_solver. unfold doubled. by rewrite Hl.
      * rewrite Hcc. apply decide_ext. set_solver.
  - intros [] s' (c & -> & Hcc). exists c. split; [done|]. intros p. rewrite Hcc, decide_True; [done|].
    apply elem_of_range. apply low_range. lia.
Qed.

(** ** The theorem of doubling *)

Record grown s s' (m : gmap Z V) : Prop := {
  gr_shape : shape s';
  gr_table : table_ok (hashpower (buckets_ s')) (view s');
  gr_rep : rep (view s') m;
  gr_hp : hashpower (buckets_ s') = hashpower (buckets_ s) + 1;
  gr_alloc : allocate new_ok (hashpower (buckets_ s')) = true;
  gr_held : held (locks s') = ∅;
  gr_n : n_locks (locks s) <= n_locks (locks s');
  gr_counters : elem_counters (locks s') = elem_counters (locks s);
  gr_max : maximum_hashpower_ s' = maximum_hashpower_ s
}.

(** The table before the swap, with everything migrated. *)
Record settled s s1 (m : gmap Z V) : Prop := {
  se_shape : shape s1;
  se_unmigrated : unmigrated (locks s1) = ∅;
  se_alloc : allocate new_ok (hashpower (buckets_ s1) + 1) = true;
  se_table : table_ok (hashpower (buckets_ s1)) (fun p => cells (buckets_ s1) !! p);
  se_rep : rep (fun p => cells (buckets_ s1) !! p) m;
  se_hp : hashpower (buckets_ s1) = hashpower (buckets_ s);
  se_n : n_locks (locks s1) = n_locks (locks s);
  se_counters : elem_counters (locks s1) = elem_counters (locks s);
  se_max : maximum_hashpower_ s1 = maximum_hashpower_ s
}.

(** The state after the swap. *)
Definition after_swap (s1 : St) : St :=
  let n := resized (n_locks (locks s1)) (hashsize (hashpower (buckets_ s1) + 1)) in
  swapped (hashpower (buckets_ s1) + 1) (with_locks n (full n) s1).

Lemma settled_all_placed s s1 m :
  settled s s1 m -> all_placed hash_function (hashpower (buckets_ s1)) (cells (buckets_ s1)).
Proof. intros [] i j e He. by apply (tb_placed _ _ _ se_table0 _ _ He). Qed.

Lemma settled_hp s s1 m : settled s s1 m -> 0 <= hashpower (buckets_ s1) < 62.
Proof. intros []. destruct (sh_hp _ _ (proj1 se_shape0)). unfold allocate in *. lia. Qed.

Lemma settled_locks s s1 m :
  settled s s1 m ->
  let n := n_locks (locks (after_swap s1)) in
  n_locks (locks s) <= n <= kMaxNumLocks /\ Z.min (2 ^ (hashpower (buckets_ s1) + 1)) kMaxNumLocks <= n.
Proof.
  intros Hse. pose proof (settled_hp _ _ _ Hse) as Hhp. destruct Hse. cbn.
  pose proof (sh_locks _ _ (proj1 se_shape0)) as [_ Hn].
  destruct (resized_bounds (n_locks (locks s1)) (hashsize (hashpower (buckets_ s1) + 1)) Hn) as [H1 H2].
  rewrite hashsize_pow in * by lia. lia.
Qed.

(** Any state with the doubled table is a grown one. *)
Lemma grown_intro s s1 s' m :
  settled s s1 m -> shape s' -> (forall p, view s' p = doubled (hashpower (buckets_ s1)) (cells (buckets_ s1)) p) ->
  hashpower (buckets_ s') = hashpower (buckets_ s1) + 1 -> held (locks s') = ∅ ->
  n_locks (locks s') = n_locks (locks (after_swap s1)) -> elem_counters (locks s') = elem_counters (locks s1) ->
  maximum_hashpower_ s' = maximum_hashpower_ s1 -> grown s s' m.
Proof.
  intros Hse Hs' Hv Hhp Hh Hn Hc Hmax. pose proof (settled_hp _ _ _ Hse) as Hr.
  pose proof (settled_locks _ _ _ Hse) as [[Hn' _] _]. destruct Hse. constructor; try done; try congruence.
  - rewrite Hhp. eapply table_ok_ext; [exact Hv|]. apply doubled_table_ok; [lia|done].
  - eapply rep_ext; [exact Hv|]. apply doubled_rep; [lia|done..].
Qed.

(** Fewer buckets than locks: all entries move at once. *)
Lemma shape_eager s s1 m c (b : buckets_t V) :
  settled s s1 m -> (forall p, c !! p = doubled (hashpower (buckets_ s1)) (cells (buckets_ s1)) p) ->
  small_hp (hashpower b) -> in_bounds b ->
  shape (with_held ∅ (with_old b 0 (with_cells c (after_swap s1)))).
Proof.
  intros Hse Hc Hb1 Hb2. pose proof (settled_hp _ _ _ Hse) as Hr. pose proof (settled_locks _ _ _ Hse) as Hl.
  cbn in Hl. destruct Hse. split; [|cbn; by rewrite se_unmigrated0].
  constructor; cbn; try rewrite se_unmigrated0; try done.
  - unfold small_hp. lia.
  - lia.
  - intros p e He. cbn in *. rewrite Hc in He. eapply tb_bounds; [|exact He]. apply doubled_table_ok; [lia|done].
Qed.

(** As many buckets as locks, or more: all locks are to be migrated. *)
Definition lazy_state (s1 : St) : St :=
  let s2 := after_swap s1 in
  let n := n_locks (locks s2) in
  with_held ∅ (with_old (old_buckets_ s2) n (with_unmigrated (full n) s2)).

Lemma kMaxNumLocks_pow : kMaxNumLocks = 2 ^ 16.
Proof. reflexivity. Qed.

Lemma lazy_n s s1 m :
  settled s s1 m -> kMaxNumLocks <= 2 ^ hashpower (buckets_ s1) -> n_locks (locks (after_swap s1)) = kMaxNumLocks.
Proof.
  intros Hse Hge. pose proof (settled_hp _ _ _ Hse) as Hr. pose proof (settled_locks _ _ _ Hse) as Hl. cbn zeta in Hl.
  rewrite Z.pow_add_r in Hl by lia. change (2 ^ 1) with 2 in Hl. rewrite kMaxNumLocks_pow in *. lia.
Qed.

Lemma lazy_view s s1 m p :
  settled s s1 m -> kMaxNumLocks <= 2 ^ hashpower (buckets_ s1) ->
  view (lazy_state s1) p = doubled (hashpower (buckets_ s1)) (cells (buckets_ s1)) p.
Proof.
  intros Hse Hge. pose proof (lazy_n _ _ _ Hse Hge) as Hn. unfold CuckooView.view, lazy_state.
  cbn [locks with_held with_old with_unmigrated set_held set_unmigrated unmigrated]. rewrite mem_full, Hn.
  pose proof (lock_ind_range p.1). test (0 <=? lock_ind p.1) is true. by test (lock_ind p.1 <? kMaxNumLocks) is true.
Qed.

Lemma shape_lazy s s1 m :
  settled s s1 m -> kMaxNumLocks <= 2 ^ hashpower (buckets_ s1) -> shape (lazy_state s1).
Proof.
  intros Hse Hge. pose proof (settled_hp _ _ _ Hse) as Hr. pose proof (settled_locks _ _ _ Hse) as Hl.
  pose proof (lazy_n _ _ _ Hse Hge) as Hn. pose proof (settled_all_placed _ _ _ Hse) as Hpl. destruct Hse.
  cbn zeta in Hl. unfold lazy_state.
  assert (16 <= hashpower (buckets_ s1)) as H16.
  { rewrite kMaxNumLocks_pow in Hge. by apply Z.pow_le_mono_r_iff in Hge; [|lia..]. }
  assert (0 < kMaxNumLocks) by done.
  split; [|cbn [locks with_held with_old with_unmigrated set_held set_unmigrated unmigrated
               num_remaining_lazy_rehash_locks_]; rewrite size_full_eq; lia].
  constructor; cbn [locks with_held with_old with_unmigrated set_held set_unmigrated unmigrated buckets_ old_buckets_ n_locks];
    try rewrite Hn.
  - cbn. unfold small_hp. lia.
  - done.
  - cbn [after_swap swapped hashpower buckets_]. lia.
  - intros p e He. done.
  - split; [cbn; unfold small_hp; lia|]. apply se_shape0.
  - intros l. rewrite mem_full, andb_true_iff. lia.
  - intros l _. split; [done|]. split; [done|]. split; [done|]. split; [|done]. apply se_shape0.
  - done.
Qed.


(** No bucket is left, and no lock is to be migrated. *)
Definition broken (s : St) : Prop := is_deallocated (buckets_ s) = true /\ unmigrated (locks s) = ∅.

(** What is thrown: a table that is too large leaves the map as it was, an allocation
    that fails leaves it without buckets. *)
Definition double_throws (s : St) (m : gmap Z V) (x : exn) (s' : St) : Prop :=
  held (locks s') = ∅ /\
  ((x = maximum_hashpower_exceeded /\ maximum_hashpower_ s <> NO_MAXIMUM_HASHPOWER /\
    maximum_hashpower_ s < hashpower (buckets_ s) + 1 /\ quiet s s') \/
   (x = bad_alloc /\ allocate new_ok (hashpower (buckets_ s) + 1) = false /\ broken s')).

(** The end of the body, once the new buckets are there. *)
Lemma wp_distribute s s1 m :
  settled s s1 m -> is_deallocated (buckets_ s1) = false ->
  wp (s2 ← get;
      (if size (old_buckets_ s2) <? kMaxNumLocks then
         for_each (range 0 (size (old_buckets_ s2))) (move_bucket hash_function);;
         num_remaining_lazy_rehash_locks 0
       else
         modify_locks (fun k => set_unmigrated (full (n_locks k)) k);;
         num_remaining_lazy_rehash_locks (n_locks (locks s2));; mret ());;
      mret ok) (after_swap s1)
    (fun st s' => st = ok /\ held (locks s') = full (n_locks (locks s')) /\ grown s (with_held ∅ s') m) never.
Proof.
  intros Hse Hal. pose proof (settled_hp _ _ _ Hse) as Hr. wp_step. apply wp_get.
  assert (size (old_buckets_ (after_swap s1)) = 2 ^ hashpower (buckets_ s1)) as Hsz by (rewrite size_pow; [done|cbn; lia]).
  rewrite Hsz. destruct (Z.ltb_spec (2 ^ hashpower (buckets_ s1)) kMaxNumLocks) as [Hlt|Hge].
  - rewrite <- Hsz. wp_step. wp_step. eapply wp_conseq; [apply wp_move_all|].
    + split; [cbn; unfold small_hp; lia|]. split; [done|]. split; [cbn; lia|]. split; [done|]. split; [done|].
      cbn. by eapply settled_all_placed.
    + apply (se_shape _ _ _ Hse).
    + done.
    + intros i Hi. cbn. rewrite mem_full. pose proof (settled_locks _ _ _ Hse) as [_ Hl].
      pose proof (lock_ind_bound (hashpower (buckets_ s1) + 1) i _ ltac:(lia) Hi Hl) as Hb. cbn in Hb. lia.
    + intros [] s2 (c & -> & Hc). unfold num_remaining_lazy_rehash_locks. wp_step. apply wp_set_remaining.
      change (0 =? 0) with true. cbv iota. set (s3 := with_old _ 0 _).
      destruct (clear_and_deallocate_Ok (old_buckets_ s3)) as (b & Hb & Hbhp & Hbb & Hbd);
        [cbn; lia|apply (se_shape _ _ _ Hse)|].
      wp_step. apply wp_get. wp_step. eapply wp_lift; [exact Hb|]. unfold set_old_buckets. apply wp_modify. apply wp_ret.
      split; [done|]. split; [done|].
      eapply (grown_intro s s1); [exact Hse| | |reflexivity|reflexivity|reflexivity|reflexivity|reflexivity].
      * eapply shape_eager; [exact Hse|exact Hc| |exact Hbb]. rewrite Hbhp. cbn. unfold small_hp. lia.
      * intros p. rewrite <- Hc. unfold CuckooView.view. cbn. by rewrite (se_unmigrated _ _ _ Hse).
  - wp_step. wp_step. unfold modify_locks. apply wp_modify. pose proof (lazy_n _ _ _ Hse Hge) as Hn.
    unfold num_remaining_lazy_rehash_locks. wp_step. wp_step. apply wp_set_remaining.
    replace (n_locks (locks (after_swap s1)) =? 0) with false by (by rewrite Hn).
    wp_step. wp_step. apply wp_ret. split; [done|]. split; [done|]. change (grown s (lazy_state s1) m).
    eapply (grown_intro s s1); [exact Hse|by eapply shape_lazy|intros p; by eapply lazy_view|reflexivity..].
Qed.

Lemma wp_cuckoo_fast_double s m :
  shape s -> table_ok (hashpower (buckets_ s)) (view s) -> rep (view s) m -> held (locks s) = ∅ ->
  wp (cuckoo_fast_double hash_function new_ok false (hashpower (buckets_ s))) s
    (fun st s' => st = ok /\ grown s s' m) (double_throws s m).
Proof.
  intros Hs Ht Hr Hh. unfold cuckoo_fast_double. eapply wp_seq; [by apply wp_lock_all|]. intros [] s0 ->.
  assert (quiet s (with_held (full (n_locks (locks s))) s)) as Hq0 by by apply quiet_with_held.
  apply wp_finally. unfold check_resize_validity. wp_step. wp_step. apply wp_gets. cbn [maximum_hashpower_ with_held].
  destruct (negb (maximum_hashpower_ s =? NO_MAXIMUM_HASHPOWER) && (maximum_hashpower_ s <? hashpower (buckets_ s) + 1)) eqn:Emax.
  { apply wp_throw. apply wp_unlock_all.
    - intros l. cbn. rewrite mem_full. lia.
    - split; [done|]. left. split; [done|]. apply andb_true_iff in Emax as [Enm Emax].
      split; [by apply negb_true_iff, Z.eqb_neq in Enm|]. split; [lia|].
      change (quiet s (with_held ∅ s)). by apply quiet_with_held. }
  wp_step. apply wp_gets. cbn [buckets_ with_held]. rewrite Z.eqb_refl. cbn [negb]. apply wp_ret.
  rewrite bool_decide_true by done. cbn [negb].
  eapply wp_seq; [apply wp_rehash_with_workers; [apply Hq0|]|].
  { intros l Hl. cbn in *. rewrite mem_full. lia. }
  intros [] s1 (Hq & Hh1 & Hu & Hd). pose proof (quiet_trans Hq0 Hq) as Hq1. cbn [locks with_held set_held held] in Hh1.
  assert (n_locks (locks s1) = n_locks (locks s)) as Hn1 by apply Hq1.
  eapply wp_seq; [apply wp_maybe_resize_locks; by rewrite Hn1|]. intros [] s2 ->.
  assert (hashpower (buckets_ s1) = hashpower (buckets_ s)) as Hhp1 by apply Hq1.
  wp_step. eapply wp_mono; [apply wp_swap_in_new_buckets; exact Hd| |].
  - intros [] s3 [Ha ->]. assert (settled s s1 m) as Hse.
    { assert (forall p, cells (buckets_ s1) !! p = view s p) as Hv.
      { intros p. rewrite <- (ld_view Hq1). unfold CuckooView.view. by rewrite Hu. }
      constructor; try apply Hq1; try done.
      - by rewrite Hhp1.
      - rewrite Hhp1. eapply table_ok_ext; [exact Hv|done].
      - eapply rep_ext; [exact Hv|done]. }
    rewrite <- Hhp1. eapply wp_mono; [apply (wp_distribute s s1 m Hse)|..]; [apply Hq1|..].
    + intros st s' (-> & Hh' & Hg). apply wp_unlock_all; [|done]. intros l. rewrite Hh', mem_full. lia.
    + done.
  - intros x s3 (-> & Ha & Hl & Hd3). apply wp_unlock_all.
    + intros l. rewrite Hl. cbn. rewrite mem_full. lia.
    + split; [done|]. right. split; [done|]. split; [done|]. split; [done|]. cbn. rewrite Hl. exact Hu.
Qed.

End Double.
