(* ===== verification/CuckooInsert.v ===== *)
(** Insertion into the cuckoo map: a free slot for the key, found, freed by evictions or
    made by doubling; the loop ends, since every round doubles the table. *)
From S2P Require Import Prelude Words Outcome Buckets Cuckoo CuckooFacts CuckooView CuckooLocks CuckooTable CuckooSearch CuckooMove.
From S2P Require Import CuckooDouble.

Section Insert.
Context {V : Type} (hash_function : Z -> Z) (new_ok : Z -> bool).

Abbreviation St := (map_t V).
Abbreviation view := (view hash_function).
Abbreviation shape := (shape hash_function).
Abbreviation quiet := (quiet hash_function).
Abbreviation table_ok := (table_ok hash_function).
Abbreviation keeps := (keeps hash_function).
Abbreviation hv_of key := (hashed_key hash_function key).
Implicit Types (s : St) (e : entry V) (p : Z * Z) (v : Z * Z -> option (entry V)) (hp b i j key : Z) (m : gmap Z V).

(** The two buckets of a key. *)
Definition home1 hp key : Z := index_hash hp (hash_function key).
Definition home2 hp key : Z := alt_index hp (partial_key (hash_function key)) (home1 hp key).

Definition absent v key : Prop := forall p e, v p = Some e -> e_key e <> key.

Lemma homes_range hp key : 0 <= hp < 64 -> 0 <= home1 hp key < 2 ^ hp /\ 0 <= home2 hp key < 2 ^ hp.
Proof. intros. split; [by apply index_hash_range|by apply alt_index_range]. Qed.

Lemma shape_hp s : shape s -> 0 <= hashpower (buckets_ s) < 63.
Proof. intros [[] _]. by destruct sh_hp. Qed.

(** A key that is in neither of its buckets is in no bucket. *)
Lemma absent_homes hp v key :
  table_ok hp v ->
  (forall j e, 0 <= j < 4 -> v (home1 hp key, j) = Some e -> e_key e <> key) ->
  (forall j e, 0 <= j < 4 -> v (home2 hp key, j) = Some e -> e_key e <> key) -> absent v key.
Proof.
  intros Ht H1 H2 [i j] e He Hk. destruct (tb_bounds _ _ _ Ht _ _ He) as [_ Hj].
  destruct (tb_placed _ _ _ Ht _ _ He) as [_ [Hi|Hi]]; cbn [fst] in Hi; rewrite Hk in Hi; subst i;
    [by apply (H1 j e)|by apply (H2 j e)].
Qed.

Lemma absent_lookup v m key : rep v m -> absent v key <-> m !! key = None.
Proof.
  intros Hr. split; [by apply rep_None|]. intros Hm p e He Hk.
  assert (m !! key = Some (e_val e)) by (apply Hr; by exists p, e). congruence.
Qed.

(** The result of [cuckoo_insert] in the state [s]. *)
Definition insert_result s m key (tp : table_position) (b : TwoBuckets) s' : Prop :=
  let hp := hashpower (buckets_ s) in
  keeps s s' m /\
  ((status tp = ok /\ b = TwoBuckets_normal (home1 hp key) (home2 hp key) /\
    insert_locked (home1 hp key) (home2 hp key) s' /\ (index tp = home1 hp key \/ index tp = home2 hp key) /\
    0 <= slot tp < 4 /\ view s' (index tp, slot tp) = None /\ m !! key = None) \/
   (status tp = failure_key_duplicated /\ b = TwoBuckets_normal (home1 hp key) (home2 hp key) /\
    insert_locked (home1 hp key) (home2 hp key) s' /\ (index tp = home1 hp key \/ index tp = home2 hp key) /\
    0 <= slot tp < 4 /\ exists e, view s' (index tp, slot tp) = Some e /\ e_key e = key) \/
   (status tp = failure_table_full /\ held (locks s') = ∅ /\ m !! key = None /\
    forall n c, (n <= 4)%nat -> reach (view s) hp (home1 hp key) (home2 hp key) n c -> full_bucket (view s) c)).

Lemma wp_cuckoo_insert fuel s m key :
  let hp := hashpower (buckets_ s) in
  shape s -> table_ok hp (view s) -> rep (view s) m -> insert_locked (home1 hp key) (home2 hp key) s ->
  (0 < fuel)%nat ->
  wp (cuckoo_insert hash_function fuel false (hv_of key) (TwoBuckets_normal (home1 hp key) (home2 hp key)) key) s
    (fun '(tp, b) s' => insert_result s m key tp b s') never.
Proof.
  intros hp Hs Ht Hr Hl Hf. pose proof (shape_hp s Hs) as Hhp. destruct (homes_range hp key) as [Hr1 Hr2]; [unfold hp; lia|].
  assert (keeps s s m) as Hk by (apply quiet_keeps; [by apply quiet_refl|done..]).
  unfold cuckoo_insert, try_find_insert_bucket. cbn [Cuckoo.i1 Cuckoo.i2 TwoBuckets_normal].
  wp_step. apply (wp_read_bucket hash_function); [done|apply Hl|].
  destruct (find_insert_slots_spec (fun j => view s (home1 hp key, j)) key slots (-1)) as (f1 & r1 & Hf1 & Hc1);
    [apply slots_range|by left|].
  wp_step. eapply wp_lift; [exact Hf1|]. cbv beta iota. destruct Hc1 as [(-> & Hj1 & He1)|(-> & Hno1 & Hc1)]; cbn [negb].
  { apply wp_ret. split; [done|]. right; left. cbn. auto 10. }
  wp_step. apply (wp_read_bucket hash_function); [done|apply Hl|].
  destruct (find_insert_slots_spec (fun j => view s (home2 hp key, j)) key slots (-1)) as (f2 & r2 & Hf2 & Hc2);
    [apply slots_range|by left|].
  wp_step. eapply wp_lift; [exact Hf2|]. cbv beta iota. destruct Hc2 as [(-> & Hj2 & He2)|(-> & Hno2 & Hc2)]; cbn [negb].
  { apply wp_ret. split; [done|]. right; left. cbn. auto 10. }
  assert (absent (view s) key) as Habs.
  { apply (absent_homes hp); [done|intros j e Hj|intros j e Hj]; [apply Hno1|apply Hno2]; by apply elem_of_slots. }
  pose proof (proj1 (absent_lookup _ _ _ Hr) Habs) as Hm.
  destruct (Z.eqb_spec r1 (-1)) as [E1|E1]; cbn [negb].
  2: { apply wp_ret. split; [done|]. left. cbn. destruct Hc1 as [[? _]|[? ?]]; [lia|]. auto 10. }
  destruct (Z.eqb_spec r2 (-1)) as [E2|E2]; cbn [negb].
  2: { apply wp_ret. split; [done|]. left. cbn. destruct Hc2 as [[? _]|[? ?]]; [lia|]. auto 10. }
  eapply wp_seq; [by apply (wp_run_cuckoo hash_function fuel _ _ s m)|].
  intros [[[st b] ib] sl] s1 (Hk1 & [(-> & -> & Hl1 & Hib & Hsl & Hfree)|(-> & -> & Hh & Hfull)]).
  - cbn [Cuckoo.i1 Cuckoo.i2 TwoBuckets_normal]. wp_step. apply wp_holds_lock; [apply Hl1|]. wp_step.
    apply wp_holds_lock; [apply Hl1|]. wp_step.
    apply (wp_read_bucket hash_function); [apply Hk1|destruct Hib as [->| ->]; apply Hl1|].
    wp_step. eapply wp_lift; [by apply occupied_fmap|]. rewrite Hfree. cbn [negb]. wp_step. apply wp_assert; [done|].
    wp_step. apply wp_gets. rewrite (kp_hp _ _ _ _ Hk1). fold hp. wp_step.
    apply wp_assert; [apply orb_true_iff; rewrite !Z.eqb_eq; exact Hib|].
    eapply wp_seq; [by apply (wp_cuckoo_find hash_function key _ (home1 hp key) (home2 hp key) s1); [apply Hk1|apply Hl1|apply Hl1]|].
    intros tp s2 (-> & Hfound). destruct Hfound as [(Hst & _ & _ & e & He & Hek)|(Hst & _)].
    + exfalso. apply (absent_lookup (view s1) m key (kp_rep _ _ _ _ Hk1)) in Hm. by apply (Hm _ _ He).
    + rewrite decide_False by congruence. apply wp_ret. split; [done|]. left. cbn. auto 10.
  - wp_step. apply wp_assert; [done|]. apply wp_ret. split; [done|]. right; right. cbn. auto 10.
Qed.

(** ** The loop *)

(** The map after zero or more doublings. *)
Record extends s s' (m : gmap Z V) : Prop := {
  ex_shape : shape s';
  ex_table : table_ok (hashpower (buckets_ s')) (view s');
  ex_rep : rep (view s') m;
  ex_hp : hashpower (buckets_ s) <= hashpower (buckets_ s');
  ex_n : n_locks (locks s) <= n_locks (locks s');
  ex_counters : elem_counters (locks s') = elem_counters (locks s);
  ex_max : maximum_hashpower_ s' = maximum_hashpower_ s
}.

Lemma keeps_extends s s' m : keeps s s' m -> extends s s' m.
Proof. intros []. constructor; try done; lia. Qed.

Lemma grown_extends s s' m : grown hash_function new_ok s s' m -> extends s s' m.
Proof. intros []. constructor; try done; lia. Qed.

Lemma extends_trans s s' s'' m : extends s s' m -> extends s' s'' m -> extends s s'' m.
Proof. intros [] []. constructor; try done; try lia; congruence. Qed.

(** How the insertion throws. *)
Definition insert_throws s m (x : exn) s' : Prop :=
  held (locks s') = ∅ /\
  ((x = maximum_hashpower_exceeded /\ maximum_hashpower_ s <> NO_MAXIMUM_HASHPOWER /\ extends s s' m) \/
   (x = bad_alloc /\ broken s' /\
    exists hp, hashpower (buckets_ s) < hp /\ allocate new_ok hp = false /\
      forall k, hashpower (buckets_ s) < k < hp -> allocate new_ok k = true)).

(** Where the loop ends. *)
Definition loop_result s m key (tp : table_position) (b : TwoBuckets) s' : Prop :=
  let hp := hashpower (buckets_ s') in
  extends s s' m /\ b = TwoBuckets_normal (home1 hp key) (home2 hp key) /\
  insert_locked (home1 hp key) (home2 hp key) s' /\ (index tp = home1 hp key \/ index tp = home2 hp key) /\
  0 <= slot tp < 4 /\
  ((status tp = ok /\ view s' (index tp, slot tp) = None /\ m !! key = None) \/
   (status tp = failure_key_duplicated /\ exists e, view s' (index tp, slot tp) = Some e /\ e_key e = key)).

Lemma keeps_throws s s1 s' m x : keeps s s1 m -> insert_throws s1 m x s' -> insert_throws s m x s'.
Proof.
  intros He [Hh [(-> & Hmax & He')|(-> & Hd & hp & Hhp & Ha)]]; (split; [done|]); [left|right].
  - split; [done|]. split; [by rewrite <- (kp_max _ _ _ _ He)|]. eapply extends_trans; [by apply keeps_extends|done].
  - split; [done|]. split; [done|]. exists hp. by rewrite <- (kp_hp _ _ _ _ He).
Qed.

Lemma grown_throws s s1 s' m x : grown hash_function new_ok s s1 m -> insert_throws s1 m x s' -> insert_throws s m x s'.
Proof.
  intros Hg [Hh [(-> & Hmax & He')|(-> & Hd & hp & Hhp & Ha & Hall)]]; (split; [done|]); [left|right].
  - split; [done|]. split; [by rewrite <- (gr_max _ _ _ _ _ Hg)|]. eapply extends_trans; [by apply grown_extends|done].
  - split; [done|]. split; [done|]. exists hp. pose proof (gr_hp _ _ _ _ _ Hg) as H1. split; [lia|]. split; [done|].
    intros k Hk. destruct (decide (k = hashpower (buckets_ s1))) as [->|]; [apply Hg|]. apply Hall. lia.
Qed.

Lemma wp_cuckoo_insert_loop fuel s m key :
  let hp := hashpower (buckets_ s) in
  shape s -> table_ok hp (view s) -> rep (view s) m -> insert_locked (home1 hp key) (home2 hp key) s ->
  maximum_hashpower_ s <= NO_MAXIMUM_HASHPOWER -> 64 <= Z.of_nat fuel + hp ->
  wp (cuckoo_insert_loop hash_function new_ok fuel false (hv_of key)
        (TwoBuckets_normal (home1 hp key) (home2 hp key)) key) s
    (fun '(tp, b) s' => loop_result s m key tp b s') (insert_throws s m).
Proof.
  intros hp. revert s hp. induction fuel as [|fuel IH]; intros s hp Hs Ht Hr Hl Hmax Hfuel;
    pose proof (shape_hp s Hs) as Hhp; [unfold hp in Hfuel; lia|].
  cbn [cuckoo_insert_loop]. wp_step. apply wp_gets. eapply wp_seq; [by apply (wp_cuckoo_insert _ s m key); [..|lia]|].
  intros [tp b] s1 [Hk [(Hst & -> & Hl1 & Hpos & Hsl & Hfree & Hm)|[(Hst & -> & Hl1 & Hpos & Hsl & He)|(Hst & Hh & Hm & _)]]];
    rewrite Hst.
  - apply wp_ret. unfold loop_result. rewrite (kp_hp _ _ _ _ Hk). split; [by apply keeps_extends|]. auto 10.
  - apply wp_ret. unfold loop_result. rewrite (kp_hp _ _ _ _ Hk). split; [by apply keeps_extends|]. auto 10.
  - wp_step. pose proof (kp_hp _ _ _ _ Hk) as Hhp1. fold hp in Hhp1 |- *. rewrite <- Hhp1.
    eapply wp_mono; [apply (wp_cuckoo_fast_double hash_function new_ok s1 m); [apply Hk..|done]| |].
    + intros st s2 [-> Hg]. pose proof (extends_trans _ _ _ _ (keeps_extends _ _ _ Hk) (grown_extends _ _ _ Hg)) as He2.
      eapply wp_seq; [apply wp_snapshot; [apply Hg|apply Hg|lia]|]. cbn zeta. intros b3 s3 [-> Hl3].
      pose proof (quiet_keeps hash_function s2 s3 m (lk_quiet Hl3) (gr_table _ _ _ _ _ Hg) (gr_rep _ _ _ _ _ Hg)) as Hk3.
      pose proof (extends_trans _ _ _ _ He2 (keeps_extends _ _ _ Hk3)) as He3.
      pose proof (kp_hp _ _ _ _ Hk3) as Hhp3. pose proof (gr_hp _ _ _ _ _ Hg) as Hhp2.
      pose proof (shape_hp s2 (gr_shape _ _ _ _ _ Hg)) as Hb2. destruct (homes_range (hashpower (buckets_ s2)) key ltac:(lia)) as [H1 H2].
      assert (insert_locked (home1 (hashpower (buckets_ s3)) key) (home2 (hashpower (buckets_ s3)) key) s3) as Hl4.
      { rewrite Hhp3. by eapply locked_at_insert. }
      cbn [hv_hash hv_partial hashed_key]. fold (home1 (hashpower (buckets_ s2)) key).
      fold (home2 (hashpower (buckets_ s2)) key). rewrite <- Hhp3.
      eapply wp_mono; [apply IH; [apply He3..|exact Hl4| |]| |].
      * by rewrite (ex_max _ _ _ He3).
      * lia.
      * intros [tp' b'] s4 (He4 & H). split; [by eapply extends_trans|exact H].
      * intros x s4 Hx. eapply keeps_throws; [exact Hk|]. eapply grown_throws; [exact Hg|].
        by eapply keeps_throws.
    + intros x s2 [Hh2 [(-> & Hnm & Hlt & Hq)|(-> & Ha & Hd)]]; (split; [done|]); [left|right].
      * split; [done|]. split; [|].
        -- by rewrite <- (kp_max _ _ _ _ Hk).
        -- apply keeps_extends. eapply keeps_quiet; [exact Hk|exact Hq].
      * split; [done|]. split; [done|]. exists (hashpower (buckets_ s1) + 1).
        unfold hp in Hhp1. split; [lia|]. split; [done|]. lia.
Qed.

End Insert.
