(* ===== verification/CuckooOps.v ===== *)
(** The operations of the cuckoo map against a finite map: [represents] relates a state
    between two operations to the map it stands for, and each operation answers and
    changes the state as the map does. *)
From S2P Require Import Prelude Words Outcome Buckets Cuckoo CuckooFacts CuckooView CuckooLocks CuckooTable CuckooSearch CuckooMove.
From S2P Require Import CuckooDouble CuckooInsert.

(** ** The counters *)

(** The number of elements that [size] computes. *)
Definition counted (k : locks_t) : Z := zsum (elem_counter k <$> range 0 (n_locks k)).

Lemma zsum_fmap_add {A} (f g : A -> Z) l a d :
  NoDup l -> a ∈ l -> f a = g a + d -> (forall x, x ∈ l -> x <> a -> f x = g x) ->
  zsum (f <$> l) = zsum (g <$> l) + d.
Proof.
  intros Hl. revert a. induction Hl as [|x l Hx Hl IH]; intros a Ha Hd Hne; [by apply not_elem_of_nil in Ha|].
  apply elem_of_cons in Ha as [->|Ha]; cbn [fmap list_fmap zsum foldr].
  - assert (f <$> l = g <$> l) as ->; [|unfold zsum; lia]. apply list_fmap_ext. intros i y Hy.
    apply list_elem_of_lookup_2 in Hy. apply Hne; [by right|]. congruence.
  - rewrite (Hne x); [|left|congruence].
    pose proof (IH a Ha Hd ltac:(intros; apply Hne; [by right|done])) as Hs. unfold zsum in *. lia.
Qed.

Lemma zsum_zero (f : Z -> Z) l : (forall x, x ∈ l -> f x = 0) -> zsum (f <$> l) = 0.
Proof.
  induction l as [|x l IH]; intros H; cbn; [done|]. rewrite (H x) by left. unfold zsum in IH.
  rewrite IH; [done|]. intros y Hy. apply H. by right.
Qed.

Lemma range_app a b c : a <= b <= c -> range a c = range a b ++ range b c.
Proof. intros H. rewrite !range_seqZ. replace (c - a) with ((b - a) + (c - b)) by lia. rewrite seqZ_app by lia. do 2 f_equal. lia. Qed.

Lemma size_insert_present {A} (m : gmap Z A) k x : is_Some (m !! k) -> base.size (<[k := x]> m) = base.size m.
Proof. apply map_size_insert_Some. Qed.

Lemma size_delete_present {A} (m : gmap Z A) k : is_Some (m !! k) -> base.size m = Datatypes.S (base.size (delete k m)).
Proof.
  intros [x Hx]. rewrite <- (map_size_insert_None k x (delete k m)) by apply lookup_delete_eq.
  by rewrite insert_delete_id.
Qed.

Section Ops.
Context {V : Type} (hash_function : Z -> Z) (new_ok : Z -> bool).

(** The largest hashpower that is allowed, which no operation here changes. *)
Context (mhp : Z) (Hmhp : mhp <= NO_MAXIMUM_HASHPOWER).

Abbreviation St := (map_t V).
Abbreviation view := (view hash_function).
Abbreviation shape := (shape hash_function).
Abbreviation quiet := (quiet hash_function).
Abbreviation table_ok := (table_ok hash_function).
Abbreviation keeps := (keeps hash_function).
Abbreviation extends := (extends hash_function).
Abbreviation leads := (leads hash_function).
Abbreviation home1 := (home1 hash_function).
Abbreviation home2 := (home2 hash_function).
Abbreviation hv_of key := (hashed_key hash_function key).
Implicit Types (s : St) (e : entry V) (p : Z * Z) (v : Z * Z -> option (entry V)) (hp b i j key : Z) (m : gmap Z V).

(** The counters are those of existing locks. *)
Definition counters_in (k : locks_t) : Prop := forall l x, elem_counters k !! l = Some x -> 0 <= l < n_locks k.

Lemma counted_grow k k' :
  counters_in k -> elem_counters k' = elem_counters k -> 0 <= n_locks k <= n_locks k' -> counted k' = counted k.
Proof.
  intros Hin Heq Hn. unfold counted. rewrite (range_app 0 (n_locks k)) by lia. rewrite fmap_app, zsum_app.
  rewrite (zsum_zero (elem_counter k') (range (n_locks k) (n_locks k'))).
  - rewrite Z.add_0_r. f_equal. apply list_fmap_ext. intros. unfold elem_counter. by rewrite Heq.
  - intros l Hl%elem_of_range. unfold elem_counter. rewrite Heq. destruct (elem_counters k !! l) as [x|] eqn:Hx; [|done].
    apply Hin in Hx. lia.
Qed.

(** The state between operations. *)
Record represents s m : Prop := {
  rp_shape : shape s;
  rp_table : table_ok (hashpower (buckets_ s)) (view s);
  rp_rep : rep (view s) m;
  rp_held : held (locks s) = ∅;
  rp_max : maximum_hashpower_ s = mhp;
  rp_counters : counters_in (locks s);
  rp_count : counted (locks s) = Z.of_nat (base.size m)
}.

(** The state within an operation: as [represents], with the locks of a key held and a
    count that may be behind. *)
Record within s m key (n : Z) : Prop := {
  wi_shape : shape s;
  wi_table : table_ok (hashpower (buckets_ s)) (view s);
  wi_rep : rep (view s) m;
  wi_locked : insert_locked (home1 (hashpower (buckets_ s)) key) (home2 (hashpower (buckets_ s)) key) s;
  wi_max : maximum_hashpower_ s = mhp;
  wi_counters : counters_in (locks s);
  wi_count : counted (locks s) = n
}.

Lemma n_locks_pos s : shape s -> 0 < n_locks (locks s).
Proof.
  intros [Hs _]. pose proof (sh_locks _ _ Hs). destruct (sh_hp _ _ Hs).
  pose proof (pow2_bounds (hashpower (buckets_ s)) ltac:(lia)). rewrite kMaxNumLocks_pow in *. lia.
Qed.

Lemma extends_counted s s' m : shape s -> counters_in (locks s) -> extends s s' m ->
  counters_in (locks s') /\ counted (locks s') = counted (locks s).
Proof.
  intros Hs Hin []. split.
  - intros l x Hx. rewrite ex_counters in Hx. apply Hin in Hx. lia.
  - apply counted_grow; [done|done|]. pose proof (n_locks_pos s Hs). lia.
Qed.

(** Locks and migration do not change the map, and neither does doubling. *)
Lemma quiet_represents s s' m :
  represents s m -> quiet s s' -> held (locks s') = ∅ -> represents s' m.
Proof.
  intros [] Hq Hh. pose proof (quiet_keeps hash_function s s' m Hq rp_table0 rp_rep0) as Hk.
  destruct (extends_counted s s' m) as [H1 H2]; [done|done|by apply keeps_extends|].
  destruct Hk. constructor; try done; congruence.
Qed.

Lemma grown_represents s s' m :
  represents s m -> grown hash_function new_ok s s' m -> represents s' m.
Proof.
  intros [] Hg. destruct (extends_counted s s' m) as [H1 H2]; [done|done|by eapply grown_extends|].
  destruct Hg. constructor; try done; congruence.
Qed.

(** Entering an operation on [key], and leaving it. *)
Lemma wp_enter fuel s m key :
  represents s m -> (0 < fuel)%nat ->
  wp (snapshot_and_lock_two hash_function fuel false (hv_of key)) s (fun tb s' =>
    hashpower (buckets_ s') = hashpower (buckets_ s) /\
    tb = TwoBuckets_normal (home1 (hashpower (buckets_ s)) key) (home2 (hashpower (buckets_ s)) key) /\
    within s' m key (Z.of_nat (base.size m)) /\ extends s s' m) never.
Proof.
  intros [] Hf. wp_use wp_snapshot as [-> Hl]; [done..|]. cbn zeta in Hl.
  pose proof (quiet_keeps hash_function s s' m (lk_quiet Hl) rp_table0 rp_rep0) as Hk.
  pose proof (keeps_extends _ _ _ _ Hk) as He. pose proof (shape_hp _ _ rp_shape0) as Hhp.
  destruct (homes_range hash_function (hashpower (buckets_ s)) key ltac:(lia)) as [H1 H2].
  destruct (extends_counted _ _ _ rp_shape0 rp_counters0 He) as [Hc1 Hc2].
  split; [apply Hk|]. split; [done|]. split; [|done]. constructor; try apply Hk; try done.
  - rewrite (kp_hp _ _ _ _ Hk). by eapply locked_at_insert.
  - by rewrite (kp_max _ _ _ _ Hk).
  - by rewrite Hc2.
Qed.

Lemma wp_leave s m key (Q : () -> St -> Prop) E :
  within s m key (Z.of_nat (base.size m)) ->
  (forall s', represents s' m -> s' = with_held ∅ s -> Q () s') ->
  wp (two_destroy (TwoBuckets_normal (home1 (hashpower (buckets_ s)) key) (home2 (hashpower (buckets_ s)) key))) s Q E.
Proof.
  intros [] HQ. apply wp_two_destroy; [apply wi_locked0|]. apply HQ; [|done].
  constructor; try done. by apply shape_with_held.
Qed.

(** ** Changes of one entry *)

Lemma within_accessible s m key n i :
  within s m key n -> i = home1 (hashpower (buckets_ s)) key \/ i = home2 (hashpower (buckets_ s)) key ->
  accessible s i.
Proof. intros [] [->| ->]; apply wi_locked0. Qed.

Lemma insert_locked_locks i i' s s' :
  insert_locked i i' s -> hashpower (buckets_ s') = hashpower (buckets_ s) -> locks s' = locks s -> insert_locked i i' s'.
Proof. intros [] H1 H2. constructor; [by rewrite H2|by eapply accessible_locks..]. Qed.

(** The table changes under the locks. *)
Lemma within_change s s' m m' key n v :
  within s m key n -> leads s s' v -> locks s' = locks s -> table_ok (hashpower (buckets_ s)) v -> rep v m' ->
  within s' m' key n.
Proof.
  intros [] Hl Hlocks Ht Hr. pose proof (ld_hp Hl) as Hhp. constructor; rewrite ?Hhp, ?Hlocks; try done.
  - apply Hl.
  - eapply table_ok_ext; [apply Hl|done].
  - eapply rep_ext; [apply Hl|done].
  - by eapply insert_locked_locks.
  - by rewrite (ld_max Hl).
Qed.

Lemma wp_set_value i j e x s m key n (Q : () -> St -> Prop) E :
  within s m key n -> i = home1 (hashpower (buckets_ s)) key \/ i = home2 (hashpower (buckets_ s)) key ->
  0 <= j < 4 -> view s (i, j) = Some e -> e_key e = key ->
  (forall s', within s' (<[key := x]> m) key n -> hashpower (buckets_ s') = hashpower (buckets_ s) ->
     view s' (i, j) = Some (MkEntry (e_partial e) key x) -> Q () s') ->
  wp (buckets_set_mapped i j x) s Q E.
Proof.
  intros Hw Hi Hj He <- HQ. pose proof Hw as Hw'. destruct Hw'.
  apply (wp_write_mapped hash_function i j e); try done; [by eapply within_accessible|].
  intros s' Hl Hlocks. apply HQ.
  - eapply within_change; [exact Hw|exact Hl|exact Hlocks|by apply table_ok_update|by eapply rep_update].
  - apply Hl.
  - by rewrite (ld_view Hl), upd_eq.
Qed.

Lemma wp_add_counter i d s m key n (Q : () -> St -> Prop) E :
  within s m key n -> i = home1 (hashpower (buckets_ s)) key \/ i = home2 (hashpower (buckets_ s)) key ->
  (forall s', within s' m key (n + d) -> hashpower (buckets_ s') = hashpower (buckets_ s) ->
     (forall p, view s' p = view s p) -> Q () s') ->
  wp (add_counter i d) s Q E.
Proof.
  intros Hw Hi HQ. unfold add_counter. pose proof (within_accessible _ _ _ _ _ Hw Hi) as Ha. pose proof Hw as Hw'. destruct Hw'.
  wp_step. apply wp_holds; [apply Ha|]. unfold modify_locks. apply wp_modify. apply HQ; [|done|done].
  pose proof (lock_ind_in _ _ _ wi_shape0 (ac_index _ _ Ha)) as Hr. constructor; try done.
  - destruct wi_shape0 as [[] ?]. split; [|done]. by constructor.
  - destruct wi_locked0 as [? [] []]. constructor; [done|by constructor|by constructor].
  - intros l x. cbn. rewrite lookup_insert. case_decide; [by subst|]. apply wi_counters0.
  - unfold counted in *. cbn [locks n_locks set_counter]. rewrite <- wi_count0.
    apply (zsum_fmap_add _ _ _ (lock_ind i)).
    + apply range_NoDup.
    + by apply elem_of_range.
    + unfold elem_counter at 1. cbn. by rewrite lookup_insert_eq.
    + intros l _ Hne. unfold elem_counter. cbn. by rewrite lookup_insert_ne.
Qed.

Lemma wp_add_to_bucket i j x s m key n (Q : () -> St -> Prop) E :
  within s m key n -> i = home1 (hashpower (buckets_ s)) key \/ i = home2 (hashpower (buckets_ s)) key ->
  0 <= j < 4 -> view s (i, j) = None -> m !! key = None ->
  (forall s', within s' (<[key := x]> m) key (n + 1) -> hashpower (buckets_ s') = hashpower (buckets_ s) ->
     view s' (i, j) = Some (MkEntry (partial_key (hash_function key)) key x) -> Q () s') ->
  wp (add_to_bucket i j (partial_key (hash_function key)) key x) s Q E.
Proof.
  intros Hw Hi Hj He Hm HQ. pose proof Hw as Hw'. destruct Hw'. pose proof (within_accessible _ _ _ _ _ Hw Hi) as Ha.
  unfold add_to_bucket. wp_step. apply (wp_add_entry hash_function); try done. intros s' Hl Hlocks.
  pose proof (proj2 (absent_lookup _ _ key wi_rep0) Hm) as Habs. set (e := MkEntry _ key x) in Hl.
  assert (within s' (<[key := x]> m) key n) as Hw1.
  { eapply within_change; [exact Hw|exact Hl|exact Hlocks| |].
    - apply table_ok_insert; [done|by split; [apply Ha|]|by split|exact Habs].
    - by apply (rep_insert _ m (i, j) e). }
  pose proof (ld_hp Hl) as Hhp. eapply wp_add_counter; [exact Hw1|by rewrite Hhp|].
  intros s2 Hw2 Hhp2 Hv2. apply HQ; [done|by rewrite Hhp2|]. by rewrite Hv2, (ld_view Hl), upd_eq.
Qed.

Lemma wp_del_from_bucket i j e s m key n (Q : () -> St -> Prop) E :
  within s m key n -> i = home1 (hashpower (buckets_ s)) key \/ i = home2 (hashpower (buckets_ s)) key ->
  0 <= j < 4 -> view s (i, j) = Some e -> e_key e = key ->
  (forall s', within s' (delete key m) key (n - 1) -> hashpower (buckets_ s') = hashpower (buckets_ s) -> Q () s') ->
  wp (del_from_bucket i j) s Q E.
Proof.
  intros Hw Hi Hj He <- HQ. pose proof Hw as Hw'. destruct Hw'. pose proof (within_accessible _ _ _ _ _ Hw Hi) as Ha.
  unfold del_from_bucket. wp_step. apply (wp_erase_entry hash_function); [done|done|done|by rewrite He; eexists|]. intros s' Hl Hlocks.
  assert (within s' (delete (e_key e) m) (e_key e) n) as Hw1.
  { eapply within_change; [exact Hw|exact Hl|exact Hlocks|by apply table_ok_delete|by eapply rep_delete]. }
  pose proof (ld_hp Hl) as Hhp. eapply wp_add_counter; [exact Hw1|by rewrite Hhp|].
  intros s2 Hw2 Hhp2 _. apply HQ; [done|by rewrite Hhp2].
Qed.

(** The search for the key. *)
Lemma wp_find_key key s m n :
  within s m key n ->
  wp (cuckoo_find key (hv_partial (hv_of key)) (home1 (hashpower (buckets_ s)) key) (home2 (hashpower (buckets_ s)) key)) s
    (fun tp s' => s' = s /\
      ((status tp = ok /\ (index tp = home1 (hashpower (buckets_ s)) key \/ index tp = home2 (hashpower (buckets_ s)) key) /\
        0 <= slot tp < 4 /\ exists e, view s (index tp, slot tp) = Some e /\ e_key e = key /\ m !! key = Some (e_val e)) \/
       (status tp <> ok /\ m !! key = None))) never.
Proof.
  intros []. wp_use (wp_cuckoo_find hash_function) as [-> Hf]; [done|apply wi_locked0..|]. split; [done|].
  destruct (decide (status a = ok)) as [Hok|Hok].
  - left. destruct Hf as [(_ & Hi & Hj & e & He & Hk)|[Hst _]]; [|congruence]. split; [done|]. split; [done|]. split; [done|].
    exists e. split; [done|]. split; [done|]. rewrite <- Hk. by eapply rep_lookup.
  - right. split; [done|]. apply (rep_None _ _ _ wi_rep0). by eapply found_homes.
Qed.


(** ** The operations *)

(** An operation that ends by releasing the locks of [key]. *)
Lemma wp_locked_body_size {A} (body : M St A) s m key n (Q : A -> St -> Prop) (E : exn -> St -> Prop) :
  let hp := hashpower (buckets_ s) in
  within s m key n ->
  wp body s (fun a s' => exists m', within s' m' key (Z.of_nat (base.size m')) /\ hashpower (buckets_ s') = hp /\
      forall s'', represents s'' m' -> hashpower (buckets_ s'') = hp -> Q a s'')
    (fun x s' => exists m', within s' m' key (Z.of_nat (base.size m')) /\ hashpower (buckets_ s') = hp /\
      forall s'', represents s'' m' -> E x s'') ->
  wp (finally body (two_destroy (TwoBuckets_normal (home1 hp key) (home2 hp key)))) s Q E.
Proof.
  intros hp Hw Hb. apply wp_finally. eapply wp_mono; [exact Hb| |].
  - intros a s' (m' & Hw' & Hhp & HQ). rewrite <- Hhp. eapply wp_leave; [exact Hw'|]. intros s'' Hr ->. by apply HQ.
  - intros x s' (m' & Hw' & Hhp & HQ). rewrite <- Hhp. eapply wp_leave; [exact Hw'|]. intros s'' Hr _. by apply HQ.
Qed.

Lemma wp_locked_body {A} (body : M St A) s m key n (Q : A -> St -> Prop) (E : exn -> St -> Prop) :
  let hp := hashpower (buckets_ s) in
  within s m key n ->
  wp body s (fun a s' => exists m', within s' m' key (Z.of_nat (base.size m')) /\ hashpower (buckets_ s') = hp /\
      forall s'', represents s'' m' -> Q a s'')
    (fun x s' => exists m', within s' m' key (Z.of_nat (base.size m')) /\ hashpower (buckets_ s') = hp /\
      forall s'', represents s'' m' -> E x s'') ->
  wp (finally body (two_destroy (TwoBuckets_normal (home1 hp key) (home2 hp key)))) s Q E.
Proof.
  intros hp Hw Hb. eapply wp_locked_body_size; [exact Hw|]. eapply wp_mono; [exact Hb| |done].
  intros a s' (m' & Hw' & Hhp & HQ). exists m'. split; [done|]. split; [done|]. intros s'' Hr _. by apply HQ.
Qed.

Lemma wp_find_fn {A} fuel key (fn : V -> A) s m :
  represents s m -> (0 < fuel)%nat ->
  wp (find_fn hash_function fuel key fn) s (fun r s' => r = fn <$> m !! key /\ represents s' m) never.
Proof.
  intros Hr Hf. unfold find_fn. eapply wp_seq; [by apply wp_enter|]. intros tb s1 (Hhp & -> & Hw & _).
  rewrite <- Hhp. eapply wp_locked_body; [exact Hw|]. cbn [Cuckoo.i1 Cuckoo.i2 TwoBuckets_normal].
  eapply wp_seq; [by eapply wp_find_key|]. intros tp s2 [-> [(Hok & Hi & Hj & e & He & Hk & Hm)|(Hno & Hm)]].
  - rewrite decide_True by done. wp_step.
    apply (wp_mapped hash_function _ _ e); [apply Hw|by eapply within_accessible|done|done|]. apply wp_ret.
    exists m. split; [done|]. split; [done|]. intros s3 H3. by rewrite Hm.
  - rewrite decide_False by done. apply wp_ret. exists m. split; [done|]. split; [done|]. intros s3 H3. by rewrite Hm.
Qed.

Lemma wp_update_fn fuel key (fn : V -> V) s m :
  represents s m -> (0 < fuel)%nat ->
  wp (update_fn hash_function fuel key fn) s (fun r s' =>
    r = (if m !! key then true else false) /\
    represents s' (match m !! key with Some x => <[key := fn x]> m | None => m end)) never.
Proof.
  intros Hr Hf. unfold update_fn. eapply wp_seq; [by apply wp_enter|]. intros tb s1 (Hhp & -> & Hw & _).
  rewrite <- Hhp. eapply wp_locked_body; [exact Hw|]. cbn [Cuckoo.i1 Cuckoo.i2 TwoBuckets_normal].
  eapply wp_seq; [by eapply wp_find_key|]. intros tp s2 [-> [(Hok & Hi & Hj & e & He & Hk & Hm)|(Hno & Hm)]].
  - rewrite decide_True by done. wp_step.
    apply (wp_mapped hash_function _ _ e); [apply Hw|by eapply within_accessible|done|done|]. wp_step.
    eapply wp_set_value; [exact Hw|done..|]. intros s3 Hw3 Hhp3 _. apply wp_ret. rewrite Hm. eexists.
    split; [|split; [done|by split]]. by rewrite size_insert_present by by eexists.
  - rewrite decide_False by done. apply wp_ret. exists m. rewrite Hm. by split.
Qed.

(** Erasing after the functor has run, as [erase_fn] and [uprase_fn] do. *)
Lemma wp_finish {A} i j e (x : V) (er : bool) s m key (k : M St A) (Q : A -> St -> Prop) E :
  within s m key (Z.of_nat (base.size m)) ->
  i = home1 (hashpower (buckets_ s)) key \/ i = home2 (hashpower (buckets_ s)) key ->
  0 <= j < 4 -> view s (i, j) = Some e -> e_key e = key -> is_Some (m !! key) ->
  (forall s', within s' (if er then delete key m else <[key := x]> m) key
       (Z.of_nat (base.size (if er then delete key m else <[key := x]> m))) ->
     hashpower (buckets_ s') = hashpower (buckets_ s) -> wp k s' Q E) ->
  wp (buckets_set_mapped i j x;; (if er then del_from_bucket i j else mret ());; k) s Q E.
Proof.
  intros Hw Hi Hj He Hk Hm HQ. wp_step. eapply wp_set_value; [exact Hw|done..|]. intros s1 Hw1 Hhp1 He1.
  pose proof (size_insert_present m key x Hm) as Hsz. pose proof (size_delete_present m key Hm) as Hd. wp_step.
  destruct er.
  - eapply wp_del_from_bucket; [exact Hw1|by rewrite Hhp1|done|exact He1|done|]. intros s2 Hw2 Hhp2.
    apply HQ; [|by rewrite Hhp2]. rewrite delete_insert_eq in Hw2.
    replace (Z.of_nat (base.size (delete key m))) with (Z.of_nat (base.size m) - 1) by lia. done.
  - apply wp_ret. apply HQ; [|done]. by rewrite Hsz.
Qed.

Lemma wp_erase_fn fuel key (fn : V -> V * bool) s m :
  represents s m -> (0 < fuel)%nat ->
  wp (erase_fn hash_function fuel key fn) s (fun r s' =>
    r = (if m !! key then true else false) /\
    represents s' (match m !! key with
                   | Some x => if snd (fn x) then delete key m else <[key := fst (fn x)]> m
                   | None => m
                   end)) never.
Proof.
  intros Hr Hf. unfold erase_fn. eapply wp_seq; [by apply wp_enter|]. intros tb s1 (Hhp & -> & Hw & _).
  rewrite <- Hhp. eapply wp_locked_body; [exact Hw|]. cbn [Cuckoo.i1 Cuckoo.i2 TwoBuckets_normal].
  eapply wp_seq; [by eapply wp_find_key|]. intros tp s2 [-> [(Hok & Hi & Hj & e & He & Hk & Hm)|(Hno & Hm)]].
  - rewrite decide_True by done. wp_step.
    apply (wp_mapped hash_function _ _ e); [apply Hw|by eapply within_accessible|done|done|].
    destruct (fn (e_val e)) as [x er] eqn:Hfn.
    eapply wp_finish; [exact Hw|done..|by eexists|]. intros s3 Hw3 Hhp3. apply wp_ret. rewrite Hm, Hfn. eexists.
    split; [exact Hw3|]. split; [done|]. done.
  - rewrite decide_False by done. apply wp_ret. exists m. rewrite Hm. by split.
Qed.

(** What [uprase_fn] does to a map. *)
Definition upraise (m : gmap Z V) key (f : upsert_functor V) (val : V) : bool * gmap Z V :=
  match m !! key with
  | Some old =>
    let '(x, er) := InvokeUpraseFn f old ALREADY_EXISTED in (false, if er then delete key m else <[key := x]> m)
  | None =>
    let '(x, er) := InvokeUpraseFn f val NEWLY_INSERTED in (true, if er then m else <[key := x]> m)
  end.

(** How an operation that inserts throws: the map is as it was, or out of memory its
    buckets are gone. *)
Definition op_throws s m (x : exn) s' : Prop :=
  held (locks s') = ∅ /\
  ((x = maximum_hashpower_exceeded /\ mhp <> NO_MAXIMUM_HASHPOWER /\ represents s' m) \/
   (x = bad_alloc /\ broken s' /\
    exists hp, hashpower (buckets_ s) < hp /\ allocate new_ok hp = false /\
      forall k, hashpower (buckets_ s) < k < hp -> allocate new_ok k = true)).

Lemma wp_uprase_fn_size fuel key f val s m :
  represents s m -> 64 <= Z.of_nat fuel ->
  wp (uprase_fn hash_function new_ok fuel key f val) s (fun r s' =>
    r = fst (upraise m key f val) /\ represents s' (snd (upraise m key f val)) /\
    hashpower (buckets_ s) <= hashpower (buckets_ s')) (op_throws s m).
Proof.
  intros Hr Hf. unfold uprase_fn. eapply wp_seq; [by apply wp_enter; [|lia]|]. intros tb s1 (Hhp & -> & Hw & He1).
  rewrite <- Hhp. pose proof Hw as Hw'. destruct Hw'. pose proof (shape_hp _ _ wi_shape0) as Hb.
  wp_step. eapply wp_mono; [apply (wp_cuckoo_insert_loop hash_function new_ok fuel s1 m key); [done|done|done|done|by rewrite wi_max0|lia]| |].
  - intros [tp b2] s2 (He & -> & Hl & Hi & Hj & Hcase).
    destruct (extends_counted _ _ _ wi_shape0 wi_counters0 He) as [Hc1 Hc2].
    assert (within s2 m key (Z.of_nat (base.size m))) as Hw2.
    { constructor; try apply He; try done; [by rewrite (ex_max _ _ _ _ He)|by rewrite Hc2]. }
    assert (hashpower (buckets_ s1) <= hashpower (buckets_ s2)) as Hgrow by apply He.
    eapply wp_locked_body_size; [exact Hw2|]. unfold upraise.
    destruct Hcase as [(Hst & Hfree & Hm)|(Hst & e & He2 & Hk)].
    + rewrite !(decide_True (P := status tp = ok)) by done. rewrite bool_decide_true by done. wp_step.
      eapply wp_add_to_bucket; [exact Hw2|done..|]. intros s3 Hw3 Hhp3 He3. wp_step.
      apply (wp_mapped hash_function _ _ _ _ _ _ ltac:(apply Hw3) ltac:(eapply within_accessible; [exact Hw3|by rewrite Hhp3]) Hj He3).
      cbn [e_val]. destruct (InvokeUpraseFn f val NEWLY_INSERTED) as [x er] eqn:Hfn.
      assert (Z.of_nat (base.size m) + 1 = Z.of_nat (base.size (<[key := val]> m))) as Hsz.
      { rewrite map_size_insert_None by done. lia. }
      rewrite Hsz in Hw3. eapply wp_finish; [exact Hw3|by rewrite Hhp3|done|exact He3|done|rewrite lookup_insert_eq; by eexists|].
      intros s4 Hw4 Hhp4. apply wp_ret. eexists. split; [exact Hw4|]. split; [congruence|]. intros s5 H5 Hhp5. rewrite Hm. split; [done|]. split; [|rewrite Hhp5; exact Hgrow].
      cbn [snd]. destruct er; [by rewrite delete_insert_id in H5|by rewrite insert_insert_eq in H5].
    + assert (status tp <> ok) as Hne by congruence. rewrite !(decide_False (P := status tp = ok)) by done.
      rewrite bool_decide_false by done. wp_step. apply wp_ret. wp_step.
      assert (m !! key = Some (e_val e)) as Hm by (rewrite <- Hk; eapply rep_lookup; [apply He|apply He|done]).
      apply (wp_mapped hash_function _ _ e); [apply Hw2|by eapply within_accessible|done|done|].
      destruct (InvokeUpraseFn f (e_val e) ALREADY_EXISTED) as [x er] eqn:Hfn.
      eapply wp_finish; [exact Hw2|done..|by eexists|]. intros s4 Hw4 Hhp4. apply wp_ret. eexists.
      split; [exact Hw4|]. split; [congruence|]. intros s5 H5 Hhp5. rewrite Hm, Hfn, Hhp5. done.
  - intros x s2 [Hh [(-> & Hmax & He)|(-> & Hd & Hall)]]; (split; [done|]); [left|right].
    + split; [done|]. split; [by rewrite <- wi_max0|].
      destruct (extends_counted _ _ _ wi_shape0 wi_counters0 He) as [Hc1 Hc2].
      constructor; try apply He; try done; [by rewrite (ex_max _ _ _ _ He)|by rewrite Hc2].
    + by rewrite Hhp in Hall.
Qed.
Lemma wp_uprase_fn fuel key f val s m :
  represents s m -> 64 <= Z.of_nat fuel ->
  wp (uprase_fn hash_function new_ok fuel key f val) s (fun r s' =>
    r = fst (upraise m key f val) /\ represents s' (snd (upraise m key f val))) (op_throws s m).
Proof.
  intros Hr Hf. eapply wp_mono; [by apply wp_uprase_fn_size| |done]. by intros r s' (? & ? & _).
Qed.
End Ops.
