(* ===== verification/CuckooSpec.v ===== *)
(** The public operations of the cuckoo map, each against a finite map: the derived
    operations ([find], [insert], [erase], ...), the constructor, [clear] and [size],
    and a sequence of requests of any length. *)
From S2P Require Import Prelude Words Outcome Buckets Cuckoo CuckooFacts CuckooView CuckooLocks CuckooTable CuckooSearch CuckooMove.
From S2P Require Import CuckooDouble CuckooInsert CuckooOps.

(** ** Requests *)

Inductive request (V : Type) :=
| Find (key : Z)
| FindOrThrow (key : Z)
| Contains (key : Z)
| Insert (key : Z) (val : V)
| InsertOrAssign (key : Z) (val : V)
| Upsert (key : Z) (fn : upsert_functor V) (val : V)
| UpraseFn (key : Z) (fn : upsert_functor V) (val : V)
| Update (key : Z) (val : V)
| UpdateFn (key : Z) (fn : V -> V)
| Erase (key : Z)
| EraseFn (key : Z) (fn : V -> V * bool)
| Size
| Clear.
Arguments Find {V} _.
Arguments FindOrThrow {V} _.
Arguments Contains {V} _.
Arguments Insert {V} _ _.
Arguments InsertOrAssign {V} _ _.
Arguments Upsert {V} _ _ _.
Arguments UpraseFn {V} _ _ _.
Arguments Update {V} _ _.
Arguments UpdateFn {V} _ _.
Arguments Erase {V} _.
Arguments EraseFn {V} _ _.
Arguments Size {V}.
Arguments Clear {V}.

Inductive response (V : Type) :=
| RDone
| RBool (b : bool)
| RValue (v : option V)
| RSize (n : Z).
Arguments RDone {V}.
Arguments RBool {V} _.
Arguments RValue {V} _.
Arguments RSize {V} _.

Section Spec.
Context {V : Type} (hash_function : Z -> Z) (new_ok : Z -> bool).
Context (mhp : Z) (Hmhp : mhp <= NO_MAXIMUM_HASHPOWER).

Abbreviation St := (map_t V).
Abbreviation view := (view hash_function).
Abbreviation shape := (shape hash_function).
Abbreviation represents := (represents hash_function mhp).
Abbreviation op_throws := (op_throws hash_function new_ok mhp).
Implicit Types (s : St) (hp key n : Z) (m : gmap Z V).

(** ** Single operations *)

Lemma wp_find fuel key s m :
  represents s m -> (0 < fuel)%nat ->
  wp (find hash_function fuel key) s (fun r s' => r = m !! key /\ represents s' m) never.
Proof.
  intros Hr Hf. unfold find. wp_use wp_find_fn as [-> Hr']; [done..|]. split; [|done]. by destruct (m !! key).
Qed.

Lemma wp_find_or_throw fuel key s m :
  represents s m -> (0 < fuel)%nat ->
  wp (find_or_throw hash_function fuel key) s (fun v s' => m !! key = Some v /\ represents s' m)
    (fun x s' => x = out_of_range /\ m !! key = None /\ represents s' m).
Proof.
  intros Hr Hf. unfold find_or_throw. eapply wp_seq; [by apply wp_enter|]. intros tb s1 (Hhp & -> & Hw & _).
  rewrite <- Hhp. eapply wp_locked_body; [exact Hw|]. cbn [Cuckoo.i1 Cuckoo.i2 TwoBuckets_normal].
  eapply wp_seq; [by eapply wp_find_key|]. intros tp s2 [-> [(Hok & Hi & Hj & e & He & Hk & Hm)|(Hno & Hm)]].
  - rewrite decide_True by done.
    apply (wp_mapped hash_function _ _ e); [apply Hw|by eapply within_accessible|done|done|].
    exists m. split; [done|]. split; [done|]. intros s3 H3. by rewrite Hm.
  - rewrite decide_False by done. apply wp_throw. exists m. split; [done|]. split; [done|]. intros s3 H3. done.
Qed.

Lemma wp_contains fuel key s m :
  represents s m -> (0 < fuel)%nat ->
  wp (contains hash_function fuel key) s
    (fun r s' => r = bool_decide (is_Some (m !! key)) /\ represents s' m) never.
Proof.
  intros Hr Hf. unfold contains. eapply wp_seq; [by apply wp_find_fn|]. intros r s' [-> Hr']. apply wp_ret.
  split; [|done]. by destruct (m !! key).
Qed.

Lemma wp_update fuel key val s m :
  represents s m -> (0 < fuel)%nat ->
  wp (update hash_function fuel key val) s
    (fun r s' => r = bool_decide (is_Some (m !! key)) /\
       represents s' (if m !! key then <[key := val]> m else m)) never.
Proof.
  intros Hr Hf. unfold update. wp_use wp_update_fn as [-> Hr']; [done..|]. by destruct (m !! key).
Qed.

Lemma wp_erase fuel key s m :
  represents s m -> (0 < fuel)%nat ->
  wp (erase hash_function fuel key) s
    (fun r s' => r = bool_decide (is_Some (m !! key)) /\ represents s' (delete key m)) never.
Proof.
  intros Hr Hf. unfold erase. wp_use wp_erase_fn as [-> Hr']; [done..|]. destruct (m !! key) eqn:Hm; (split; [done|]); [done|].
  by rewrite delete_id.
Qed.

(** What [upsert] does: a present value is changed by the functor, an absent one is
    inserted, then changed if the functor asks for the context. *)
Definition upserted m key (fn : upsert_functor V) (val : V) : gmap Z V :=
  <[key := match m !! key with
           | Some old => match fn with WithContext f => fst (f old ALREADY_EXISTED) | WithoutContext f => fst (f old) end
           | None => match fn with WithContext f => fst (f val NEWLY_INSERTED) | WithoutContext _ => val end
           end]> m.

Lemma wp_upsert_size fuel key fn val s m :
  represents s m -> 64 <= Z.of_nat fuel ->
  wp (upsert hash_function new_ok fuel key fn val) s
    (fun r s' => r = bool_decide (m !! key = None) /\ represents s' (upserted m key fn val) /\
       hashpower (buckets_ s) <= hashpower (buckets_ s')) (op_throws s m).
Proof.
  intros Hr Hf. unfold upsert. eapply wp_mono; [by apply wp_uprase_fn_size| |done]. intros r s' (-> & Hr' & Hhp).
  unfold upraise, upserted in *.
  by destruct (m !! key) as [old|] eqn:Hm, fn as [f|f]; cbn in *.
Qed.

Lemma wp_upsert fuel key fn val s m :
  represents s m -> 64 <= Z.of_nat fuel ->
  wp (upsert hash_function new_ok fuel key fn val) s
    (fun r s' => r = bool_decide (m !! key = None) /\ represents s' (upserted m key fn val)) (op_throws s m).
Proof. intros Hr Hf. eapply wp_mono; [by apply wp_upsert_size| |done]. by intros r s' (? & ? & _). Qed.

Lemma wp_insert_size fuel key val s m :
  represents s m -> 64 <= Z.of_nat fuel ->
  wp (insert hash_function new_ok fuel key val) s
    (fun r s' => r = bool_decide (m !! key = None) /\
       represents s' (if m !! key then m else <[key := val]> m) /\
       hashpower (buckets_ s) <= hashpower (buckets_ s')) (op_throws s m).
Proof.
  intros Hr Hf. unfold insert. eapply wp_mono; [by apply wp_upsert_size| |done]. intros r s' (-> & Hr' & Hhp).
  split; [done|]. split; [|done]. unfold upserted in Hr'. destruct (m !! key) as [old|] eqn:Hm; cbn in Hr'; [|done].
  by rewrite insert_id in Hr'.
Qed.

Lemma wp_insert fuel key val s m :
  represents s m -> 64 <= Z.of_nat fuel ->
  wp (insert hash_function new_ok fuel key val) s
    (fun r s' => r = bool_decide (m !! key = None) /\
       represents s' (if m !! key then m else <[key := val]> m)) (op_throws s m).
Proof. intros Hr Hf. eapply wp_mono; [by apply wp_insert_size| |done]. by intros r s' (? & ? & _). Qed.

Lemma wp_insert_or_assign fuel key val s m :
  represents s m -> 64 <= Z.of_nat fuel ->
  wp (insert_or_assign hash_function new_ok fuel key val) s
    (fun r s' => r = bool_decide (m !! key = None) /\ represents s' (<[key := val]> m)) (op_throws s m).
Proof.
  intros Hr Hf. unfold insert_or_assign. eapply wp_mono; [by apply wp_upsert| |done]. intros r s' [-> Hr'].
  split; [done|]. unfold upserted in Hr'. by destruct (m !! key).
Qed.

Lemma wp_map_size s m :
  represents s m -> wp map_size s (fun r s' => r = Z.of_nat (base.size m) /\ s' = s) never.
Proof.
  intros []. unfold map_size. wp_step. apply wp_get. pose proof (n_locks_pos hash_function s rp_shape) as Hn.
  test (n_locks (locks s) =? 0) is false. change (zsum _) with (counted (locks s)). rewrite rp_count.
  wp_step. apply wp_assert; [zbool|]. by apply wp_ret.
Qed.

(** ** Clearing *)

Lemma counted_zero k : elem_counters k = ∅ -> counted k = 0.
Proof. intros H. apply zsum_zero. intros l _. unfold elem_counter. by rewrite H, lookup_empty. Qed.

(** A table without entries represents the empty map. *)
Lemma represents_empty s :
  shape s -> (forall p, view s p = None) -> held (locks s) = ∅ -> maximum_hashpower_ s = mhp ->
  elem_counters (locks s) = ∅ -> represents s ∅.
Proof.
  intros Hs Hv Hh Hm Hc. constructor; try done.
  - constructor; intros *; by rewrite Hv.
  - intros key x. rewrite lookup_empty. split; [done|]. intros (p & e & He & _). by rewrite Hv in He.
  - intros l x. by rewrite Hc, lookup_empty.
  - by rewrite counted_zero.
Qed.

(** The state that [clear] leaves. *)
Definition cleared (b : buckets_t V) s : St :=
  MkMap (MkBuckets (hashpower (buckets_ s)) ∅ false) b (MkLocks (n_locks (locks s)) ∅ ∅ ∅) 0 (maximum_hashpower_ s).

Lemma cleared_represents b s :
  shape s -> maximum_hashpower_ s = mhp -> small_hp (hashpower b) -> in_bounds b ->
  represents (cleared b s) ∅.
Proof.
  intros Hs Hm Hb1 Hb2. destruct (Hs) as [[] _]. by apply represents_empty.
Qed.

Lemma wp_clear s m :
  represents s m -> wp clear s (fun _ s' => represents s' ∅) never.
Proof.
  intros [Hs _ _ Hh Hmax _ _]. destruct (Hs) as [H0 _]. pose proof (shape_hp _ _ Hs) as Hhp. unfold clear.
  eapply wp_seq; [by apply wp_lock_all|]. intros [] s1 ->. apply wp_finally. unfold cuckoo_clear.
  wp_step. apply wp_get. wp_step. eapply wp_lift; [apply clear_Ok; cbn; [lia|apply H0..]|].
  wp_step. unfold set_buckets. apply wp_modify. wp_step. unfold num_remaining_lazy_rehash_locks. wp_step.
  apply wp_set_remaining. change (0 =? 0) with true. cbv iota. wp_step. apply wp_get. wp_step.
  destruct (sh_old _ _ H0) as [Ho1 Ho2].
  destruct (clear_and_deallocate_Ok (old_buckets_ s)) as (b & Hb & Hbhp & Hbb & _); [by destruct Ho1; lia|done|].
  eapply wp_lift; [exact Hb|]. unfold set_old_buckets. apply wp_modify. unfold modify_locks. apply wp_modify.
  change (wp (unlock_all false) (with_held (full (n_locks (locks s))) (cleared b s)) (fun _ s' => represents s' ∅) never).
  apply (wp_unlock_all hash_function new_ok).
  - intros l. cbn. rewrite mem_full. lia.
  - change (represents (cleared b s) ∅). apply cleared_represents; [done|done|by rewrite Hbhp|done].
Qed.

(** ** The constructor *)

Lemma log2_loop_spec (fuel : nat) c l :
  0 <= l <= 62 -> 62 <= l + Z.of_nat fuel -> c <= 2 ^ 62 -> (0 < l -> 2 ^ (l - 1) < c) ->
  exists r, log2_loop fuel c l = Ok r /\ 0 <= r <= 62 /\ c <= 2 ^ r /\ (0 < r -> 2 ^ (r - 1) < c).
Proof.
  revert l. induction fuel as [|fuel IH]; intros l Hl Hf Hc Hlow; cbn [log2_loop];
    rewrite hashsize_pow by lia; (destruct (Z.ltb_spec (2 ^ l) c) as [Hlt|Hge]); [|by exists l| |by exists l].
  - exfalso. replace l with 62 in Hlt by lia. lia.
  - apply IH; [|lia|done|].
    + destruct (decide (l = 62)) as [->|]; lia.
    + intros _. by replace (l + 1 - 1) with l by lia.
Qed.

Lemma reserve_calc_spec n :
  0 <= n <= 2 ^ 64 - 4 ->
  exists hp, reserve_calc n = Ok hp /\ 0 <= hp <= 62 /\ n <= 4 * 2 ^ hp /\ (0 < hp -> 4 * 2 ^ (hp - 1) < n).
Proof.
  intros Hn. unfold reserve_calc, slot_per_bucket. rewrite (wrap_small 64 (n + 4 - 1)) by lia. set (c := (n + 4 - 1) / 4).
  assert (n <= 4 * c <= n + 3) as Hc.
  { unfold c. pose proof (Z.div_mod (n + 4 - 1) 4 ltac:(lia)). pose proof (Z.mod_pos_bound (n + 4 - 1) 4 ltac:(lia)). lia. }
  clearbody c. destruct (log2_loop_spec 64 c 0 ltac:(lia) ltac:(lia) ltac:(change (2 ^ 64) with (4 * 2 ^ 62) in Hn; lia) ltac:(lia)) as (r & -> & Hr & Hle & Hmin).
  cbn [mbind outcome_bind]. rewrite wrap_small, hashsize_pow by lia.
  test (n <=? c * 4) is true. test (c <=? 2 ^ r) is true. exists r. split; [done|]. split; [done|]. split; [lia|].
  intros H0. specialize (Hmin H0). lia.
Qed.

(** The last three element counts wrap around: the assertion on the result fails. *)
Lemma reserve_calc_wraps n : 2 ^ 64 - 4 < n < 2 ^ 64 -> reserve_calc n = Exit.
Proof. intros Hn. assert (n = 2 ^ 64 - 3 \/ n = 2 ^ 64 - 2 \/ n = 2 ^ 64 - 1) as [->|[->| ->]] by lia; by vm_compute. Qed.

(** ** Sequences of requests *)

Definition perform (fuel : nat) (r : request V) : M St (response V) :=
  match r with
  | Find key => v ← find hash_function fuel key; mret (RValue v)
  | FindOrThrow key => v ← find_or_throw hash_function fuel key; mret (RValue (Some v))
  | Contains key => b ← contains hash_function fuel key; mret (RBool b)
  | Insert key val => b ← insert hash_function new_ok fuel key val; mret (RBool b)
  | InsertOrAssign key val => b ← insert_or_assign hash_function new_ok fuel key val; mret (RBool b)
  | Upsert key fn val => b ← upsert hash_function new_ok fuel key fn val; mret (RBool b)
  | UpraseFn key fn val => b ← uprase_fn hash_function new_ok fuel key fn val; mret (RBool b)
  | Update key val => b ← update hash_function fuel key val; mret (RBool b)
  | UpdateFn key fn => b ← update_fn hash_function fuel key fn; mret (RBool b)
  | Erase key => b ← erase hash_function fuel key; mret (RBool b)
  | EraseFn key fn => b ← erase_fn hash_function fuel key fn; mret (RBool b)
  | Size => n ← map_size; mret (RSize n)
  | Clear => clear;; mret RDone
  end.

(** The specification: the answer of a finite map, and the map afterwards. *)
Definition answer (r : request V) (m : gmap Z V) : (response V + exn) * gmap Z V :=
  let present key := bool_decide (is_Some (m !! key)) in
  let fresh key := bool_decide (m !! key = None) in
  match r with
  | Find key => (inl (RValue (m !! key)), m)
  | FindOrThrow key => (match m !! key with Some v => inl (RValue (Some v)) | None => inr out_of_range end, m)
  | Contains key => (inl (RBool (present key)), m)
  | Insert key val => (inl (RBool (fresh key)), if m !! key then m else <[key := val]> m)
  | InsertOrAssign key val => (inl (RBool (fresh key)), <[key := val]> m)
  | Upsert key fn val => (inl (RBool (fresh key)), upserted m key fn val)
  | UpraseFn key fn val => (inl (RBool (fst (upraise m key fn val))), snd (upraise m key fn val))
  | Update key val => (inl (RBool (present key)), if m !! key then <[key := val]> m else m)
  | UpdateFn key fn => (inl (RBool (present key)), match m !! key with Some x => <[key := fn x]> m | None => m end)
  | Erase key => (inl (RBool (present key)), delete key m)
  | EraseFn key fn =>
    (inl (RBool (present key)),
     match m !! key with
     | Some x => if snd (fn x) then delete key m else <[key := fst (fn x)]> m
     | None => m
     end)
  | Size => (inl (RSize (Z.of_nat (base.size m))), m)
  | Clear => (inl RDone, ∅)
  end.

(** [perform] answers as [answer] does, unless the table cannot grow. *)
Lemma wp_perform fuel r s m :
  represents s m -> 64 <= Z.of_nat fuel ->
  wp (perform fuel r) s (fun a s' => inl a = fst (answer r m) /\ represents s' (snd (answer r m)))
    (fun x s' => (inr x = fst (answer r m) /\ represents s' (snd (answer r m))) \/ op_throws s m x s').
Proof.
  intros Hr Hf. assert (0 < fuel)%nat as Hf0 by lia.
  assert (forall key, (if m !! key then true else false) = bool_decide (is_Some (m !! key))) as Hp
    by (intros key; by destruct (m !! key)).
  destruct r as [key|key|key|key val|key val|key fn val|key fn val|key val|key fn|key|key fn| |];
    cbn [perform answer fst snd]; wp_step.
  - wp_use wp_find as [-> H]; by (done || apply wp_ret).
  - eapply wp_mono; [by apply wp_find_or_throw|..].
    + intros v s' [-> H]. by apply wp_ret.
    + intros x s' (-> & -> & H). by left.
  - wp_use wp_contains as [-> H]; by (done || apply wp_ret).
  - eapply wp_mono; [by apply wp_insert| |by right]. intros b s' [-> H]. by apply wp_ret.
  - eapply wp_mono; [by apply wp_insert_or_assign| |by right]. intros b s' [-> H]. by apply wp_ret.
  - eapply wp_mono; [by apply wp_upsert| |by right]. intros b s' [-> H]. by apply wp_ret.
  - eapply wp_mono; [by apply wp_uprase_fn| |by right]. intros b s' [-> H]. by apply wp_ret.
  - wp_use wp_update as [-> H]; by (done || apply wp_ret).
  - wp_use wp_update_fn as [-> H]; [done..|]. apply wp_ret. by rewrite Hp.
  - wp_use wp_erase as [-> H]; by (done || apply wp_ret).
  - wp_use wp_erase_fn as [-> H]; [done..|]. apply wp_ret. by rewrite Hp.
  - wp_use wp_map_size as [-> ->]; by (done || apply wp_ret).
  - wp_use wp_clear as H; by (done || apply wp_ret).
Qed.

(** A sequence of requests; an exception ends it, since no caller catches one. *)
Fixpoint perform_all (fuel : nat) (l : list (request V)) : M St (list (response V)) :=
  match l with
  | [] => mret []
  | r :: l => a ← perform fuel r; al ← perform_all fuel l; mret (a :: al)
  end.

Fixpoint answer_all (l : list (request V)) (m : gmap Z V) : (list (response V) + exn) * gmap Z V :=
  match l with
  | [] => (inl [], m)
  | r :: l =>
    match answer r m with
    | (inr x, m) => (inr x, m)
    | (inl a, m) => let '(al, m) := answer_all l m in (match al with inl al => inl (a :: al) | inr x => inr x end, m)
    end
  end.

(** How a sequence ends that the table is too small for: one of its requests throws, in
    the state that the requests before it have led to. *)
Definition table_full (l : list (request V)) m (x : exn) s' : Prop :=
  exists l1 r l2 s1, l = l1 ++ r :: l2 /\ represents s1 (snd (answer_all l1 m)) /\
    op_throws s1 (snd (answer_all l1 m)) x s'.

Lemma wp_perform_all fuel l s m :
  represents s m -> 64 <= Z.of_nat fuel ->
  wp (perform_all fuel l) s (fun a s' => inl a = fst (answer_all l m) /\ represents s' (snd (answer_all l m)))
    (fun x s' => (inr x = fst (answer_all l m) /\ represents s' (snd (answer_all l m))) \/ table_full l m x s').
Proof.
  intros Hr Hf. revert s m Hr. induction l as [|r l IH]; intros s m Hr; cbn [perform_all answer_all]; [by wp_step|].
  wp_step. eapply wp_mono; [by apply wp_perform|..].
  - intros a s1 [Ha H1]. destruct (answer r m) as [a1 m1] eqn:Heq. cbn [fst snd] in Ha, H1. subst a1.
    wp_step. eapply wp_mono; [by apply IH|..].
    + intros al s2 [Hal H2]. apply wp_ret. destruct (answer_all l m1) as [al1 m2]. cbn in *. by subst.
    + intros x s2 [[Hx H2]|(l1 & r1 & l2 & s3 & -> & H3 & Ht)].
      * left. destruct (answer_all l m1) as [al1 m2]. cbn in *. by subst.
      * right. exists (r :: l1), r1, l2, s3. split; [done|]. cbn [answer_all]. rewrite Heq.
        by destruct (answer_all l1 m1).
  - intros x s1 [[Hx H1]|Ht].
    + left. destruct (answer r m) as [a1 m1]. cbn in *. by subst.
    + right. by exists [], r, l, s.
Qed.

End Spec.

Section Constructor.
Context {V : Type} (hash_function : Z -> Z) (new_ok : Z -> bool).

Lemma constructor_spec n :
  0 <= n <= 2 ^ 64 - 4 ->
  exists hp, 0 <= hp <= 62 /\ n <= 4 * 2 ^ hp /\ (0 < hp -> 4 * 2 ^ (hp - 1) < n) /\
  exists r : option (map_t V), cuckoohash_map new_ok n = Ok r /\
    match r with
    | Some s => allocate new_ok hp && allocate new_ok 0 = true /\ represents hash_function NO_MAXIMUM_HASHPOWER s ∅ /\ hashpower (buckets_ s) = hp /\
        maximum_hashpower_ s = NO_MAXIMUM_HASHPOWER
    | None => allocate new_ok hp && allocate new_ok 0 = false
    end.
Proof.
  intros Hn. destruct (reserve_calc_spec n Hn) as (hp & Hr & Hhp & Hle & Hmin). exists hp.
  split; [done|]. split; [done|]. split; [done|]. unfold cuckoohash_map. rewrite Hr. cbn [mbind outcome_bind].
  unfold bucket_container. eexists. split; [done|].
  destruct (allocate new_ok hp) eqn:Ha, (allocate new_ok 0) eqn:Ha0; cbn; try done. split; [done|]. split; [|done].
  rewrite size_pow by (cbn; lia). cbn [hashpower]. apply represents_empty; try done.
  pose proof (pow2_bounds hp ltac:(lia)) as Hpow. assert (0 < kMaxNumLocks) by done.
  split; [|done]. constructor; cbn; try done; unfold small_hp; try lia.
Qed.

End Constructor.
