(* ===== verification/CuckooTheorems.v ===== *)
(** The theorems of the cuckoo map: it refines a finite map, its search finds a shortest
    path, stale paths and doubling lose nothing, and the cases in which the map is lost. *)
From S2P Require Import Prelude Words Outcome Buckets Cuckoo CuckooFacts CuckooView CuckooLocks CuckooTable CuckooSearch CuckooMove.
From S2P Require Import CuckooDouble CuckooInsert CuckooOps CuckooSpec.

(** ** Tools *)

Lemma wp_elim {S A} (m : M S A) s Q E :
  wp m s Q E -> exists s' r, m s = Ok (s', r) /\ match r with inl a => Q a s' | inr x => E x s' end.
Proof. unfold wp. destruct (m s) as [[s' [a|x]]| | |]; [|intros H..]; try done; by eexists _, _. Qed.

Lemma wp_elim_never {S A} (m : M S A) s Q :
  wp m s Q never -> exists s' a, m s = Ok (s', inl a) /\ Q a s'.
Proof. intros H. apply wp_elim in H as (s' & [a|x] & Hm & HQ); [by eexists _, _|done]. Qed.

(** Distinct elements related one to one to those of a list are not more than these. *)
Lemma relate_length {A B} `{EqDecision B} (R : A -> B -> Prop) (l : list A) (L : list B) :
  NoDup l -> (forall a, a ∈ l -> exists p, p ∈ L /\ R a p) -> (forall a a' p, R a p -> R a' p -> a = a') ->
  (length l <= length L)%nat.
Proof.
  intros Hnd. revert L. induction Hnd as [|a l Ha Hnd IH]; intros L HR Hinj; cbn; [lia|].
  destruct (HR a ltac:(left)) as (p & Hp & Hap). apply list_elem_of_split in Hp as (L1 & L2 & ->).
  assert (length l <= length (L1 ++ L2))%nat as Hle.
  { apply IH; [|done]. intros a' Ha'. destruct (HR a' ltac:(by right)) as (p' & Hp' & Hap'). exists p'. split; [|done].
    apply elem_of_app in Hp' as [?|[->|?]%elem_of_cons]; [by apply elem_of_app; left| |by apply elem_of_app; right].
    destruct Ha. by rewrite (Hinj _ _ _ Hap Hap'). }
  rewrite !length_app in *. cbn. lia.
Qed.

Section Theorems.
Context {V : Type}.

Abbreviation St := (map_t V).
Implicit Types (hash_function : Z -> Z) (new_ok : Z -> bool) (s : St) (hp key n h : Z) (m : gmap Z V).

(** ** Keys of one hash value *)

(** The positions of a key. *)
Definition homes hash_function hp key : list (Z * Z) :=
  (pair (home1 hash_function hp key) <$> slots) ++ (pair (home2 hash_function hp key) <$> slots).

Lemma home_position hash_function hp (v : Z * Z -> option (entry V)) p e :
  table_ok hash_function hp v -> v p = Some e -> p ∈ homes hash_function hp (e_key e).
Proof.
  intros Ht He. destruct p as [i j]. destruct (tb_bounds _ _ _ Ht _ _ He) as [_ Hj].
  destruct (tb_placed _ _ _ Ht _ _ He) as [_ Hi]. apply elem_of_app. cbn [fst snd] in *.
  destruct Hi as [->| ->]; [left|right]; apply list_elem_of_fmap_2, elem_of_slots, Hj.
Qed.

(** Two buckets of four slots hold at most eight keys of one hash value. *)
Lemma at_most_eight hash_function s m ks h :
  table_ok hash_function (hashpower (buckets_ s)) (view hash_function s) -> rep (view hash_function s) m ->
  NoDup ks -> (forall k, k ∈ ks -> hash_function k = h /\ is_Some (m !! k)) -> (length ks <= 8)%nat.
Proof.
  intros Ht Hr Hnd Hks. destruct ks as [|k0 ks]; [cbn; lia|].
  change 8%nat with (length (homes hash_function (hashpower (buckets_ s)) k0)).
  apply (relate_length (fun k p => exists e, view hash_function s p = Some e /\ e_key e = k)); [done| |].
  - intros k Hk. destruct (Hks k Hk) as [Hh [x Hx]]. apply Hr in Hx as (p & e & He & <- & _). exists p.
    split; [|by exists e]. apply (home_position _ _ _ _ _ Ht) in He as Hp. unfold homes, home2, home1 in *.
    rewrite Hh in Hp. by rewrite (proj1 (Hks k0 ltac:(left))).
  - intros k k' p (e & He & <-) (e' & He' & <-). congruence.
Qed.

(** [c] is a bad access or returns with [Q]. *)
Definition may_fault {A} (c : M St A) s (Q : A -> St -> Prop) : Prop :=
  c s = Fault \/ exists s' a, c s = Ok (s', inl a) /\ Q a s'.

Lemma may_ret {A} (a : A) s (Q : A -> St -> Prop) : Q a s -> may_fault (mret a) s Q.
Proof. intros H. right. by exists s, a. Qed.

Lemma may_bind {A B} (c : M St A) (f : A -> M St B) s Q :
  may_fault c s (fun a s' => may_fault (f a) s' Q) -> may_fault (c ≫= f) s Q.
Proof.
  unfold may_fault, mbind, M_bind. intros [->|(s' & a & -> & H)]; [by left|]. exact H.
Qed.

Lemma may_catch {A} (c k : M St A) s Q : may_fault c s Q -> may_fault (catch c k) s Q.
Proof. unfold may_fault, catch. intros [->|(s' & a & -> & H)]; [by left|]. right. by exists s', a. Qed.

Lemma may_finally {A} (c : M St A) r s : may_fault c s (fun _ _ => False) -> may_fault (finally c r) s (fun _ _ => False).
Proof. unfold may_fault, finally. intros [->|(s' & a & -> & [])]. by left. Qed.

Lemma may_lock l s (Q : () -> St -> Prop) :
  mem l (held (locks s)) = false -> Q () (with_held (add l (held (locks s))) s) -> may_fault (lock l) s Q.
Proof.
  intros Hl HQ. unfold may_fault, lock, mbind, M_bind, get. cbn.
  destruct ((0 <=? l) && (l <? n_locks (locks s))); [|by left].
  rewrite Hl. right. by eexists _, _.
Qed.

(** Without buckets every lookup is a bad access. *)
Lemma may_rehash hash_function l (o : lock_set) s :
  unmigrated (locks s) = ∅ -> mem l o = true ->
  may_fault (rehash_lock hash_function true l) (with_held o s) (fun _ s' => s' = with_held o s).
Proof.
  intros Hu Hl. right. exists (with_held o s), (). split; [|done].
  unfold rehash_lock, holds, mbind, M_bind, get. cbn -[mem]. rewrite Hl. cbn -[mem]. by rewrite Hu.
Qed.

Lemma may_lock_two hash_function a b s :
  unmigrated (locks s) = ∅ -> held (locks s) = ∅ ->
  may_fault (lock_two hash_function false (hashpower (buckets_ s)) a b) s
    (fun tb s' => tb = TwoBuckets_normal a b /\ exists o, s' = with_held o s).
Proof.
  intros Hu Hh. unfold lock_two. destruct (if _ <? _ then _ else _) as [l1 l2] eqn:Hl.
  apply may_bind, may_lock; [by rewrite Hh|]. rewrite Hh.
  apply may_bind. right. eexists _, (). split.
  { unfold check_hashpower, mbind, M_bind. cbn. by rewrite Z.eqb_refl. }
  apply may_bind.
  assert (forall o, mem l1 o = true -> mem l2 o = true -> may_fault
    (rehash_lock hash_function true l1;; rehash_lock hash_function true l2;; mret (TwoBuckets_normal a b))
    (with_held o s) (fun tb s' => tb = TwoBuckets_normal a b /\ exists o, s' = with_held o s)) as Hk.
  { intros o H1 H2. apply may_bind. destruct (may_rehash hash_function l1 o s Hu H1) as [H|(s' & u & H & ->)]; [by left|].
    right. eexists _, u. split; [exact H|]. apply may_bind.
    destruct (may_rehash hash_function l2 o s Hu H2) as [H'|(s' & u' & H' & ->)]; [by left|].
    right. eexists _, u'. split; [exact H'|]. apply may_ret. split; [done|]. by exists o. }
  destruct (Z.eqb_spec l2 l1) as [->|Hne]; cbn [negb].
  - apply may_ret, Hk; by rewrite mem_add, Z.eqb_refl.
  - apply may_lock; [cbn; by rewrite mem_add, mem_empty; test (l2 =? l1) is false|].
    apply (Hk (add l2 (add l1 ∅))); rewrite !mem_add, ?Z.eqb_refl; [|done]. by rewrite orb_true_r.
Qed.

(** Without buckets every lookup is a bad access. *)
Lemma broken_lookup {A} hash_function fuel s key (fn : V -> A) :
  broken s -> held (locks s) = ∅ -> (0 < fuel)%nat -> find_fn hash_function fuel key fn s = Fault.
Proof.
  intros [Hd Hu] Hh Hf. destruct fuel as [|fuel]; [lia|].
  enough (may_fault (find_fn hash_function (Datatypes.S fuel) key fn) s (fun _ _ => False)) as [H|(? & ? & ? & [])] by done.
  unfold find_fn. apply may_bind. cbn [snapshot_and_lock_two]. apply may_bind. right. eexists s, _. split; [done|].
  apply may_catch. set (i := index_hash _ _). set (i' := alt_index _ _ _).
  destruct (may_lock_two hash_function i i' s Hu Hh) as [H|(s' & tb & H & -> & o & ->)]; [by left|].
  right. eexists _, _. split; [exact H|]. apply may_finally, may_bind. left. unfold cuckoo_find, read_bucket, holds.
  unfold mbind, M_bind, get. cbn -[mem at_]. destruct (mem (lock_ind i) o); [|done]. cbn -[mem at_].
  unfold at_, Buckets.accessible. by rewrite Hd.
Qed.

(** ** The map *)

(** C2. The cuckoo map is a finite map. A map that is constructed for [n] elements answers
    every sequence of requests (lookups, insertions, upserts with and without context,
    updates, erasures, size, clear) as the finite map [answer_all] does, whatever the
    hash function and through every eviction, doubling and lazy migration; it throws
    [out_of_range] where that map says so. No assertion fails, no lock blocks, no access
    is out of bounds, and the fuel 64 is enough. The only other end is a request whose
    insertion needs a table that cannot be allocated. *)
Theorem cuckoo_map_refines_finite_map hash_function new_ok n fuel (l : list (request V)) s :
  0 <= n < 2 ^ 64 -> cuckoohash_map new_ok n = Ok (Some s) -> 64 <= Z.of_nat fuel ->
  exists s' r, perform_all hash_function new_ok fuel l s = Ok (s', r) /\
    ((r = fst (answer_all l ∅) /\ represents hash_function NO_MAXIMUM_HASHPOWER s' (snd (answer_all l ∅))) \/
     (r = inr bad_alloc /\ broken s' /\
      exists l1 q l2 s1 hp, l = l1 ++ q :: l2 /\
        represents hash_function NO_MAXIMUM_HASHPOWER s1 (snd (answer_all l1 ∅)) /\
        hashpower (buckets_ s1) < hp /\ allocate new_ok hp = false)).
Proof.
  intros Hn Hc Hf. assert (n <= 2 ^ 64 - 4) as Hn'.
  { destruct (Z.leb_spec n (2 ^ 64 - 4)); [done|]. unfold cuckoohash_map in Hc.
    rewrite reserve_calc_wraps in Hc by lia. discriminate. }
  destruct (constructor_spec (V := V) hash_function new_ok n ltac:(lia)) as (hp & _ & _ & _ & r & Hr & Hs).
  rewrite Hc in Hr. injection Hr as <-. destruct Hs as (_ & Hrep & _ & _).
  destruct (wp_elim _ _ _ _ (wp_perform_all hash_function new_ok NO_MAXIMUM_HASHPOWER (Z.le_refl _) fuel l s ∅ Hrep Hf))
    as (s' & r & Hp & Hr). exists s', r. split; [done|]. destruct r as [al|x]; [left; naive_solver|].
  destruct Hr as [[Hx Hr]|(l1 & q & l2 & s1 & -> & H1 & _ & [(_ & Hmax & _)|(-> & Hb & hp' & Hlt & Ha & _)])];
    [left; naive_solver|done|]. right. split; [done|]. split; [done|]. by exists l1, q, l2, s1, hp'.
Qed.


(** ** Searching and moving *)

(** C21. The search for a free slot is complete and finds a shortest way: from two buckets
    of the table, it returns a chain of at most four moves to a bucket with a free slot,
    every bucket that fewer moves reach being full, and the path code stands for the
    start bucket, the slots of the chain and the free slot; or it returns the depth -1
    and every bucket that four moves reach is full. It leaves the content as it is, and
    neither the bounded queue nor the 16-bit path code overflows. *)
Theorem slot_search_shortest hash_function mhp s m i1 i2 :
  let hp := hashpower (buckets_ s) in
  represents hash_function mhp s m -> 0 <= i1 < 2 ^ hp -> 0 <= i2 < 2 ^ hp ->
  exists s' x, slot_search hash_function false hp i1 i2 s = Ok (s', inl x) /\
    (forall p, view hash_function s' p = view hash_function s p) /\ held (locks s') = ∅ /\
    ((depth x = -1 /\ forall k b, (k <= 4)%nat -> reach (view hash_function s) hp i1 i2 k b ->
        full_bucket (view hash_function s) b) \/
     (exists k js b j, 0 <= k < 2 /\ (length js <= 4)%nat /\ depth x = Z.of_nat (length js) /\
        0 <= j < 4 /\ pathcode x = encode k (js ++ [j]) /\
        chain (view hash_function s) hp (if k =? 0 then i1 else i2) js b /\ view hash_function s (b, j) = None /\
        forall k' b', (k' < length js)%nat -> reach (view hash_function s) hp i1 i2 k' b' ->
          full_bucket (view hash_function s) b')).
Proof.
  intros hp [] H1 H2.
  destruct (wp_elim_never _ _ _ (wp_slot_search hash_function i1 i2 s rp_shape rp_held H1 H2)) as (s' & x & Hx & Hq & Hh & Hr).
  exists s', x. split; [exact Hx|]. split; [apply Hq|]. split; [done|].
  destruct Hr as [?|(k & js & b & j & Hk & Hjs & Hj & Hlen & Hd & Hcode & Hch & Hfree & Hmin)]; [by left|right].
  by exists k, js, b, j.
Qed.

(** C22. A cuckoo path may be stale: other threads may have changed the buckets since it
    was found. Moving along any records that are inside of the table and lead from
    bucket to bucket by the partial keys in them, [cuckoopath_move] loses nothing,
    duplicates nothing and moves each entry to one of its own buckets; it ends with the
    locks of both insert buckets and the first slot free, or reports failure and holds
    no lock. A path that still agrees with the table is not refused. *)
Theorem stale_path_harmless hash_function mhp s m r w junk i1 i2 :
  let hp := hashpower (buckets_ s) in
  represents hash_function mhp s m -> 0 <= i1 < 2 ^ hp -> 0 <= i2 < 2 ^ hp -> r_bucket r = i1 \/ r_bucket r = i2 ->
  adjacent (linked hp) (r :: w) -> Forall (record_range hp) (r :: w) ->
  exists s' moved tb,
    cuckoopath_move hash_function false hp (r :: w ++ junk) (Z.of_nat (length w)) (MkTwo i1 i2 None None) s =
      Ok (s', inl (moved, tb)) /\
    table_ok hash_function hp (view hash_function s') /\ rep (view hash_function s') m /\
    (if (moved : bool) then
       tb = TwoBuckets_normal i1 i2 /\ held (locks s') = lset [lock_ind i1; lock_ind i2] /\
       view hash_function s' (r_bucket r, r_slot r) = None
     else held (locks s') = ∅) /\
    (good_walk hash_function (view hash_function s) hp (r :: w) -> NoDup ((fun r => (r_bucket r, r_slot r)) <$> r :: w) ->
     moved = true).
Proof.
  intros hp [] H1 H2 Hr Ha Hrange.
  destruct (wp_elim_never _ _ _ (wp_cuckoopath_move hash_function w junk r i1 i2 s m rp_shape rp_table rp_rep rp_held H1 H2 Hr Ha Hrange))
    as (s' & [moved tb] & Hm & Hk & Hd & Hg).
  exists s', moved, tb. split; [exact Hm|]. pose proof (kp_hp _ _ _ _ Hk) as Hhp.
  split; [fold hp in Hhp; rewrite <- Hhp; apply Hk|]. split; [apply Hk|]. split; [|exact Hg].
  destruct moved; [|apply Hd]. destruct Hd as (-> & Hh & _ & _ & Hfree). done.
Qed.

(** ** Doubling, and how the map is lost *)

(** C23. Doubling keeps the map. It ends with one more bit of hashpower, the same keys and
    values and all locks free, whether the entries are moved at once or each lock's on
    its next use; a table that its limit does not allow is refused and nothing is lost;
    but when the new buckets cannot be allocated, the old ones have been given away
    already, and every later lookup is a bad access. *)
Theorem doubling_keeps_map hash_function new_ok mhp s m :
  represents hash_function mhp s m ->
  let hp := hashpower (buckets_ s) in
  exists s' r, cuckoo_fast_double hash_function new_ok false hp s = Ok (s', r) /\
    ((r = inl ok /\ represents hash_function mhp s' m /\ hashpower (buckets_ s') = hp + 1 /\
      allocate new_ok (hp + 1) = true) \/
     (r = inr maximum_hashpower_exceeded /\ represents hash_function mhp s' m /\
      mhp <> NO_MAXIMUM_HASHPOWER /\ mhp < hp + 1) \/
     (r = inr bad_alloc /\ allocate new_ok (hp + 1) = false /\
      forall fuel key, (0 < fuel)%nat -> find hash_function fuel key s' = Fault)).
Proof.
  intros Hr hp. pose proof Hr as [].
  destruct (wp_elim _ _ _ _ (wp_cuckoo_fast_double hash_function new_ok s m rp_shape rp_table rp_rep rp_held))
    as (s' & r & Hd & Hpost). exists s', r. split; [exact Hd|]. destruct r as [st|x].
  - left. destruct Hpost as [-> Hg]. split; [done|]. split; [by eapply grown_represents|]. split; [apply Hg|].
    unfold hp. rewrite <- (gr_hp _ _ _ _ _ Hg). apply Hg.
  - right. destruct Hpost as [Hh [(-> & Hmax & Hlt & Hq)|(-> & Ha & Hb)]]; [left|right].
    + rewrite rp_max in Hmax, Hlt. split; [done|]. split; [by eapply quiet_represents|]. done.
    + split; [done|]. split; [done|]. intros fuel key Hf. by apply broken_lookup.
Qed.

(** C24. A ninth key of one hash value destroys the map. Its two buckets hold eight keys at
    most however often the table doubles, so when eight keys of the hash value are
    present, inserting another one doubles until an allocation fails, throws [bad_alloc]
    and leaves no buckets: every lookup afterwards is a bad access. *)
Theorem ninth_key_of_a_hash hash_function new_ok fuel s m ks key val :
  represents hash_function NO_MAXIMUM_HASHPOWER s m -> 64 <= Z.of_nat fuel ->
  NoDup (key :: ks) -> length ks = 8%nat ->
  (forall k, k ∈ ks -> hash_function k = hash_function key /\ is_Some (m !! k)) -> m !! key = None ->
  exists s', insert hash_function new_ok fuel key val s = Ok (s', inr bad_alloc) /\
    forall fuel' key', (0 < fuel')%nat -> find hash_function fuel' key' s' = Fault.
Proof.
  intros Hr Hf Hnd Hlen Hks Hkey.
  destruct (wp_elim _ _ _ _ (wp_insert hash_function new_ok _ (Z.le_refl _) fuel key val s m Hr Hf)) as (s' & r & Hi & Hpost).
  exists s'. rewrite Hi. destruct r as [a|x].
  - exfalso. destruct Hpost as [_ Hr']. rewrite Hkey in Hr'. destruct Hr'.
    pose proof (at_most_eight hash_function s' _ (key :: ks) (hash_function key) rp_table rp_rep Hnd) as H8.
    cbn [length] in H8. rewrite Hlen in H8. enough (9 <= 8)%nat by lia. apply H8. intros k [->|Hk]%elem_of_cons.
    + split; [done|]. rewrite lookup_insert_eq. by eexists.
    + destruct (Hks k Hk) as [Hh Hm]. split; [done|]. by apply lookup_insert_is_Some'; right.
  - destruct Hpost as [Hh [(_ & Hmax & _)|(-> & Hb & _)]]; [done|]. split; [done|].
    intros fuel' key' Hf'. by apply broken_lookup.
Qed.

(** ** Bucket indices and sizes *)

(** The two buckets of a key determine each other, by its partial key alone: the
    alternative of the alternative is the bucket itself. In a table twice as large each
    of them is the one of the smaller table or that plus the smaller size, and from
    2^16 buckets on it stays with the same lock. *)
Theorem bucket_pairs hp (hv : Z) :
  0 <= hp < 63 ->
  let p := partial_key hv in
  let i := index_hash hp hv in
  let i' := index_hash (hp + 1) hv in
  0 <= i < 2 ^ hp /\ 0 <= alt_index hp p i < 2 ^ hp /\ alt_index hp p (alt_index hp p i) = i /\
  (i' = i \/ i' = i + 2 ^ hp) /\
  (alt_index (hp + 1) p i' = alt_index hp p i \/ alt_index (hp + 1) p i' = alt_index hp p i + 2 ^ hp) /\
  (16 <= hp -> lock_ind i' = lock_ind i /\ lock_ind (alt_index (hp + 1) p i') = lock_ind (alt_index hp p i)).
Proof.
  intros Hhp p i i'. pose proof (index_hash_range hp hv ltac:(lia)) as Hi. fold i in Hi.
  pose proof (alt_index_range hp p i ltac:(lia)) as Ha.
  pose proof (index_hash_double hp hv Hhp) as Hd. fold i i' in Hd.
  pose proof (alt_index_double hp p i' Hhp) as Hd2. rewrite Hd in Hd2.
  pose proof (index_hash_range (hp + 1) hv ltac:(lia)) as Hi'. fold i' in Hi'.
  pose proof (alt_index_range (hp + 1) p i' ltac:(lia)) as Ha'.
  split; [done|]. split; [done|]. split; [by apply alt_index_invol; lia|].
  split; [rewrite <- Hd; apply low_cases; lia|]. split; [rewrite <- Hd2; apply low_cases; lia|].
  intros H16. split; [rewrite <- Hd|rewrite <- Hd2]; by rewrite lock_ind_of_low.
Qed.

(** The constructor takes the least power of two of buckets, of four slots each, that
    holds [n] elements, and the map is empty (its capacity is a 64-bit number, which is 0
    for the largest table); it throws when one of its two containers
    cannot be allocated. The last three values of [n] wrap around, and an assertion
    fails. *)
Theorem constructor_capacity hash_function new_ok n :
  0 <= n < 2 ^ 64 ->
  (n <= 2 ^ 64 - 4 ->
   exists hp, 0 <= hp <= 62 /\ n <= 4 * 2 ^ hp /\ (0 < hp -> 4 * 2 ^ (hp - 1) < n) /\
   ((exists s, cuckoohash_map (V := V) new_ok n = Ok (Some s) /\ hashpower (buckets_ s) = hp /\
      represents hash_function NO_MAXIMUM_HASHPOWER s ∅ /\ capacity s = Ok (s, inl (wrap 64 (4 * 2 ^ hp)))) \/
    (cuckoohash_map (V := V) new_ok n = Ok None /\ (allocate new_ok hp = false \/ allocate new_ok 0 = false)))) /\
  (2 ^ 64 - 4 < n -> cuckoohash_map (V := V) new_ok n = Exit).
Proof.
  intros Hn. split; intros Hn'; [|unfold cuckoohash_map; by rewrite reserve_calc_wraps by lia].
  destruct (constructor_spec (V := V) hash_function new_ok n ltac:(lia)) as (hp & Hhp & Hle & Hmin & r & Hr & Hs).
  exists hp. split; [done|]. split; [done|]. split; [done|]. destruct r as [s|].
  - left. exists s. destruct Hs as (_ & Hrep & Hs & _). split; [done|]. split; [done|]. split; [done|].
    unfold capacity, mbind, M_bind, bucket_count, gets. cbn. rewrite size_pow by (rewrite Hs; lia). rewrite Hs. unfold slot_per_bucket.
    by rewrite Z.mul_comm.
  - right. split; [done|]. apply andb_false_iff in Hs. tauto.
Qed.

(** ** Swapping *)

Lemma M_bind_Ok {A B} (c : M St A) (f : A -> M St B) s s' a : c s = Ok (s', inl a) -> (c ≫= f) s = f a s'.
Proof. unfold mbind, M_bind. by intros ->. Qed.

Lemma M_bind_Exit {A B} (c : M St A) (f : A -> M St B) s : c s = Exit -> (c ≫= f) s = Exit.
Proof. unfold mbind, M_bind. by intros ->. Qed.

Lemma lock_Ok l s :
  0 <= l < n_locks (locks s) -> mem l (held (locks s)) = false ->
  lock l s = Ok (with_held (add l (held (locks s))) s, inl ()).
Proof.
  intros Hl Hm. unfold lock, mbind, M_bind, get. cbn -[mem]. rewrite Hm.
  test (0 <=? l) is true. by test (l <? n_locks (locks s)) is true.
Qed.

(** A lock to migrate, and old buckets that are not half of the current ones. *)
Lemma rehash_mismatch hash_function l (o : lock_set) s :
  mem l o = true -> hashpower (old_buckets_ s) + 1 <> hashpower (buckets_ s) ->
  rehash_lock hash_function true l (with_held o s) =
    if mem l (unmigrated (locks s)) then Exit else Ok (with_held o s, inl ()).
Proof.
  intros Hl Hne. unfold rehash_lock, holds, assertM, lift, mbind, M_bind, get. cbn -[mem]. rewrite Hl. cbn -[mem].
  destruct (mem l (unmigrated (locks s))); [|done].
  destruct (n_locks (locks s) =? kMaxNumLocks); [|done]. cbn -[mem].
  by test (hashpower (old_buckets_ s) + 1 =? hashpower (buckets_ s)) is false.
Qed.

Lemma lock_two_mismatch hash_function a b s :
  held (locks s) = ∅ -> hashpower (old_buckets_ s) + 1 <> hashpower (buckets_ s) ->
  0 <= lock_ind a < n_locks (locks s) -> 0 <= lock_ind b < n_locks (locks s) ->
  mem (lock_ind a) (unmigrated (locks s)) = true \/ mem (lock_ind b) (unmigrated (locks s)) = true ->
  lock_two hash_function false (hashpower (buckets_ s)) a b s = Exit.
Proof.
  intros Hh Hne Ha Hb Hu. unfold lock_two. set (la := lock_ind a) in *. set (lb := lock_ind b) in *.
  destruct (if _ <? _ then _ else _) as [l1 l2] eqn:Hl.
  assert (0 <= l1 < n_locks (locks s) /\ 0 <= l2 < n_locks (locks s) /\
          (mem l1 (unmigrated (locks s)) = true \/ mem l2 (unmigrated (locks s)) = true)) as (H1 & H2 & Hor).
  { destruct (lb <? la); injection Hl as <- <-; tauto. }
  rewrite (M_bind_Ok _ _ _ _ _ (lock_Ok l1 s H1 ltac:(by rewrite Hh))). rewrite Hh.
  erewrite M_bind_Ok; [|unfold check_hashpower, mbind, M_bind; cbn; by rewrite Z.eqb_refl].
  assert (forall o, mem l1 o = true -> mem l2 o = true ->
    (rehash_lock hash_function true l1;; rehash_lock hash_function true l2;; mret (TwoBuckets_normal a b))
      (with_held o s) = Exit) as Hk.
  { intros o Ho1 Ho2. pose proof (rehash_mismatch hash_function l1 o s Ho1 Hne) as R1.
    pose proof (rehash_mismatch hash_function l2 o s Ho2 Hne) as R2.
    destruct (mem l1 (unmigrated (locks s))); [by apply M_bind_Exit|]. rewrite (M_bind_Ok _ _ _ _ _ R1).
    destruct Hor as [|Hu2]; [done|]. rewrite Hu2 in R2. by apply M_bind_Exit. }
  destruct (Z.eqb_spec l2 l1) as [->|Hl12]; cbn [negb].
  - erewrite M_bind_Ok by done. apply Hk; by rewrite mem_add, Z.eqb_refl.
  - erewrite M_bind_Ok; [|apply lock_Ok; [done|]; cbn -[mem]; rewrite mem_add, mem_empty; by test (l2 =? l1) is false].
    apply (Hk (add l2 (add l1 ∅))); rewrite !mem_add, ?Z.eqb_refl; [|done]. by rewrite orb_true_r.
Qed.

(** [swap] exchanges the buckets and the locks, but not the old buckets that an
    unfinished migration still reads. When [a] has a lock to migrate and is swapped with a
    map [b] whose old buckets do not happen to be of the right size, every lookup of a key
    under that lock, in the map that now has the buckets of [a], fails an assertion. *)
Theorem swap_breaks_migration hash_function mhp (a b : St) m key fuel :
  represents hash_function mhp a m -> (0 < fuel)%nat ->
  hashpower (old_buckets_ b) + 1 <> hashpower (buckets_ a) ->
  mem (lock_ind (home1 hash_function (hashpower (buckets_ a)) key)) (unmigrated (locks a)) = true \/
  mem (lock_ind (home2 hash_function (hashpower (buckets_ a)) key)) (unmigrated (locks a)) = true ->
  find hash_function fuel key (snd (map_swap a b)) = Exit.
Proof.
  intros [Hs _ _ Hh _ _ _] Hf Hne Hu. pose proof (shape_hp _ _ Hs) as Hhp.
  destruct (homes_range hash_function (hashpower (buckets_ a)) key ltac:(lia)) as [H1 H2].
  destruct fuel as [|fuel]; [lia|]. unfold find, find_fn. apply M_bind_Exit. cbn [snapshot_and_lock_two].
  erewrite M_bind_Ok by done. unfold catch. rewrite lock_two_mismatch; try done.
  - by apply (lock_ind_in hash_function a).
  - by apply (lock_ind_in hash_function a).
Qed.

End Theorems.

(** ** Concrete maps *)

(** Sixteen keys share a hash value. *)
Definition hash16 (key : Z) : Z := key / 16.

Definition memory (hp : Z) : bool := true.

(** Four buckets. *)
Definition small_map : map_t Z :=
  MkMap (MkBuckets 2 ∅ false) (MkBuckets 0 ∅ false) (MkLocks 4 ∅ ∅ ∅) 0 NO_MAXIMUM_HASHPOWER.

Lemma small_map_constructed : cuckoohash_map memory 16 = Ok (Some small_map).
Proof. vm_compute. reflexivity. Defined.

Lemma small_map_represents : represents hash16 NO_MAXIMUM_HASHPOWER small_map ∅.
Proof.
  destruct (constructor_spec (V := Z) hash16 memory 16 ltac:(lia)) as (hp & _ & _ & _ & r & Hr & Hs).
  rewrite small_map_constructed in Hr. injection Hr as <-. apply Hs.
Qed.

(** A map after requests that do not throw. *)
Definition returned {A B} (o : outcome (A * (B + exn))) : bool :=
  match o with Ok (_, inl _) => true | _ => false end.

Lemma after_requests (l : list (request Z)) :
  returned (perform_all hash16 memory 64 l small_map) = true ->
  exists s, represents hash16 NO_MAXIMUM_HASHPOWER s (snd (answer_all l ∅)).
Proof.
  intros Hl. destruct (wp_elim _ _ _ _ (wp_perform_all hash16 memory _ (Z.le_refl _) 64 l _ _ small_map_represents
    ltac:(done))) as (s & [al|x] & Hp & Hr); rewrite Hp in Hl; [|done]. exists s. apply Hr.
Qed.

Lemma cuckoo_map_refines_finite_map_witness :
  cuckoohash_map memory 16 = Ok (Some small_map) /\
  exists s r, perform_all hash16 memory 64 [Insert 1 10; Insert 1 20; Find 1; Erase 1; Size] small_map = Ok (s, r) /\
    (r = inl [RBool true; RBool false; RValue (Some 10); RBool true; RSize 0] \/ r = inr bad_alloc).
Proof.
  split; [exact small_map_constructed|].
  destruct (cuckoo_map_refines_finite_map hash16 memory 16 64 [Insert 1 10; Insert 1 20; Find 1; Erase 1; Size]
    small_map ltac:(lia) small_map_constructed ltac:(lia)) as (s & r & Hp & [[-> _]|[-> _]]);
    eexists _, _; (split; [exact Hp|]); [left; vm_compute; reflexivity|right; reflexivity].
Defined.


Lemma slot_search_shortest_witness :
  exists s x, slot_search hash16 false 2 0 1 small_map = Ok (s, inl x) /\
    (forall p, view hash16 s p = view hash16 small_map p).
Proof.
  destruct (slot_search_shortest hash16 NO_MAXIMUM_HASHPOWER small_map ∅ 0 1 small_map_represents
    ltac:(cbn; lia) ltac:(cbn; lia)) as (s & x & Hx & Hv & _).
  exists s, x. split; [exact Hx|exact Hv].
Defined.

(** A path of one move whose entry is gone. *)
Lemma stale_path_harmless_witness :
  let h := MkHash 4 (partial_key 4) in
  let r := MkRecord 0 3 h in
  let w := [MkRecord (alt_index 2 (partial_key 4) 0) 2 h] in
  exists s moved tb, cuckoopath_move hash16 false 2 (r :: w ++ []) 1 (MkTwo 0 1 None None) small_map =
    Ok (s, inl (moved, tb)) /\ rep (view hash16 s) ∅.
Proof.
  intros h r w.
  destruct (stale_path_harmless hash16 NO_MAXIMUM_HASHPOWER small_map ∅ r w [] 0 1 small_map_represents)
    as (s & moved & tb & Hm & _ & Hr & _).
  - cbn. lia.
  - cbn. lia.
  - left. reflexivity.
  - intros l1 a b l2 Heq. unfold r, w in Heq. destruct l1 as [|? [|? [|]]]; simplify_eq/=. split; reflexivity.
  - repeat constructor; cbn; try lia; vm_compute; intuition congruence.
  - exists s, moved, tb. split; [exact Hm|exact Hr].
Defined.

Lemma doubling_keeps_map_witness :
  exists s r, cuckoo_fast_double hash16 memory false 2 small_map = Ok (s, r).
Proof.
  destruct (doubling_keeps_map hash16 memory NO_MAXIMUM_HASHPOWER small_map ∅ small_map_represents) as (s & r & H & _).
  exists s, r. exact H.
Defined.

(** The keys 0 to 7, of hash value 0. *)
Definition eight_inserts : list (request Z) :=
  [Insert 0 0; Insert 1 1; Insert 2 2; Insert 3 3; Insert 4 4; Insert 5 5; Insert 6 6; Insert 7 7].

Lemma ninth_key_of_a_hash_witness :
  exists s s' : map_t Z, insert hash16 memory 64 8 0 s = Ok (s', inr bad_alloc) /\
    find hash16 1 0 s' = Fault.
Proof.
  destruct (after_requests eight_inserts) as (s & Hs); [vm_compute; reflexivity|].
  destruct (ninth_key_of_a_hash hash16 memory 64 s _ [0; 1; 2; 3; 4; 5; 6; 7] 8 0 Hs ltac:(lia)) as (s' & Hi & Hf).
  - refine (bool_decide_eq_true_1 _ _). vm_compute. reflexivity.
  - reflexivity.
  - intros k Hk. repeat (apply elem_of_cons in Hk as [->|Hk]; [split; [reflexivity|eexists; vm_compute; reflexivity]|]).
    by apply not_elem_of_nil in Hk.
  - vm_compute. reflexivity.
  - exists s, s'. split; [exact Hi|]. apply Hf. lia.
Defined.

Lemma bucket_pairs_witness : index_hash 3 13 = 5 /\ alt_index 2 (partial_key 13) (alt_index 2 (partial_key 13) 1) = 1.
Proof. split; [reflexivity|]. apply (bucket_pairs 2 13). lia. Defined.

Lemma constructor_capacity_witness : cuckoohash_map (V := Z) memory (2 ^ 64 - 1) = Exit.
Proof. apply (constructor_capacity hash16 memory (2 ^ 64 - 1)); lia. Defined.

(** A map of 2^17 buckets whose first lock is still to be migrated. *)
Definition migrating_map : map_t Z :=
  MkMap (MkBuckets 17 ∅ false) (MkBuckets 16 ∅ false) (MkLocks kMaxNumLocks ∅ (add 0 ∅) ∅) 1 NO_MAXIMUM_HASHPOWER.

Lemma migrating_map_represents : represents hash16 NO_MAXIMUM_HASHPOWER migrating_map ∅.
Proof.
  assert (forall p, view hash16 migrating_map p = None) as Hv.
  { intros p. unfold view. cbn -[mem add plan_cells lock_ind]. rewrite mem_add, mem_empty.
    destruct (Z.eqb_spec (lock_ind p.1) 0); [|done]. cbn [orb]. apply eq_None_not_Some. intros [ent He].
    apply plan_cells_spec in He as [j Hj]; [|lia|by intros i j e'|apply slots_NoDup].
    by apply plan_origin in Hj as [_ Hj]. }
  apply represents_empty; try done. split; [|done].
  assert (forall l, mem l (unmigrated (locks migrating_map)) = true -> l = 0) as Hl.
  { intros l. cbn -[mem add]. rewrite mem_add, mem_empty, orb_false_r. apply Z.eqb_eq. }
  constructor; cbn -[mem add]; try done.
  - intros l ->%Hl. done.
Qed.

Lemma swap_breaks_migration_witness :
  find hash16 1 0 (snd (map_swap migrating_map small_map)) = Exit.
Proof.
  apply (swap_breaks_migration hash16 NO_MAXIMUM_HASHPOWER migrating_map small_map ∅ 0 1 migrating_map_represents).
  - lia.
  - cbn. lia.
  - left. reflexivity.
Defined.

(** The counter of a lock counts the insertions and erasures under it, not the entries of
    its buckets: the eviction of a key from bucket 0 moves the entry, not its count. Here
    bucket 0 has 4 entries and its lock counts 5. *)
Definition evicting : list (request Z) :=
  Insert (16 * 4) 0 :: eight_inserts.

Example counters_after_eviction :
  exists s al, perform_all hash16 memory 64 evicting small_map = Ok (s, inl al) /\
    elem_counter (locks s) 0 = 5 /\ counted (locks s) = 9.
Proof. eexists _, _. split; [vm_compute; reflexivity|]. split; vm_compute; reflexivity. Qed.
