(* ===== verification/CuckooRehash.v ===== *)
(** Resizing of the cuckoo map on demand (core/metadata/cuckoohash_map.hh): [rehash] and
    [reserve], by [cuckoo_expand_simple], which inserts every entry into a new map and
    exchanges the buckets. Nothing is lost, also when it throws. *)
From S2P Require Import Prelude Words Outcome Buckets Cuckoo CuckooFacts CuckooView CuckooLocks CuckooTable CuckooSearch CuckooMove.
From S2P Require Import CuckooDouble CuckooInsert CuckooOps CuckooSpec CuckooTheorems.

(** ** Definitions *)

Section Rehash.
Context {V : Type} (hash_function : Z -> Z) (new_ok : Z -> bool).

Abbreviation St := (map_t V).

(** An operation of the local object [new_map]. *)
Definition on_new {A} (new_map : St) (op : M St A) : M St (A * St) := fun s =>
  '(new_map, r) ← op new_map;
  Ok (s, match r with inl a => inl (a, new_map) | inr x => inr x end).

(** No other thread has the new map, so its buckets may be touched without locks. *)
Definition unshared {A} (op : M St A) : M St A :=
  s ← get;
  modify_locks (fun k => set_held (full (n_locks k)) k);;
  finally op (modify_locks (set_held (held (locks s)))).

(** The constructor of [new_map]. *)
Definition construct_new (n : Z) : M St St :=
  r ← lift (cuckoohash_map new_ok n);
  match r with Some m => mret m | None => throw bad_alloc end.

(** The positions that the two nested loops of [cuckoo_expand_simple] visit. *)
Definition all_slots (hp : Z) : list (Z * Z) := range 0 (hashsize hp) ≫= (fun i => pair i <$> slots).

Fixpoint insert_entries (fuel : nat) (l : list (Z * Z)) (new_map : St) : M St St :=
  match l with
  | [] => mret new_map
  | (i, j) :: l =>
    b ← read_bucket i;
    occ ← lift (occupied b j);
    if negb occ then insert_entries fuel l new_map else
    e ← lift (live b j);
    '(_, new_map) ← on_new new_map (insert hash_function new_ok fuel (e_key e) (e_val e));
    insert_entries fuel l new_map
  end.

(** [buckets_.swap(new_map.buckets_)]; the new map is destroyed with the old buckets. *)
Definition take_buckets (new_map : St) : M St () :=
  s ← get; set_buckets (snd (swap (buckets_ new_map) (buckets_ s))).

Definition cuckoo_expand_simple (fuel : nat) (locked : bool) (new_hp : Z) : M St cuckoo_status :=
  lock_all locked;;
  finally
    (hp ← hashpower_now;
     st ← check_resize_validity hp new_hp;
     if negb (bool_decide (st = ok)) then mret st else
     rehash_with_workers hash_function;;
     new_map ← construct_new (wrap 64 (hashsize new_hp * slot_per_bucket));
     new_map ← insert_entries fuel (all_slots hp) new_map;
     '(_, new_map) ← on_new new_map (unshared (rehash_with_workers hash_function));
     maybe_resize_locks (size (buckets_ new_map));;
     take_buckets new_map;;
     mret ok)
    (unlock_all locked).

Definition cuckoo_rehash (fuel : nat) (locked : bool) (n : Z) : M St bool :=
  hp ← hashpower_now;
  if n =? hp then mret false else
  st ← cuckoo_expand_simple fuel locked n;
  mret (bool_decide (st = ok)).

Definition cuckoo_reserve (fuel : nat) (locked : bool) (n : Z) : M St bool :=
  hp ← hashpower_now;
  new_hp ← lift (reserve_calc n);
  if new_hp =? hp then mret false else
  st ← cuckoo_expand_simple fuel locked new_hp;
  mret (bool_decide (st = ok)).

Definition rehash (fuel : nat) (n : Z) : M St bool := cuckoo_rehash fuel false n.

Definition reserve (fuel : nat) (n : Z) : M St bool := cuckoo_reserve fuel false n.

(** ** Lemmas *)

Abbreviation view := (view hash_function).
Abbreviation shape := (shape hash_function).
Abbreviation quiet := (quiet hash_function).
Abbreviation table_ok := (table_ok hash_function).
Implicit Types (s : St) (e : entry V) (p : Z * Z) (v : Z * Z -> option (entry V)) (hp i j key n : Z) (m : gmap Z V).

Lemma wp_on_new {A} nm (op : M St A) s (Q : A * St -> St -> Prop) (E : exn -> St -> Prop) :
  wp op nm (fun a nm' => Q (a, nm') s) (fun x _ => E x s) -> wp (on_new nm op) s Q E.
Proof. unfold wp, on_new. by destruct (op nm) as [[nm' [a|x]]| | |]. Qed.

Lemma elem_of_all_slots hp p : 0 <= hp < 64 -> p ∈ all_slots hp <-> position hp p.
Proof.
  intros Hhp. unfold all_slots, position. rewrite hashsize_pow by done. rewrite list_elem_of_bind. split.
  - intros (i & Hp & Hi%elem_of_range). apply list_elem_of_fmap in Hp as (j & -> & Hj%elem_of_slots). done.
  - destruct p as [i j]. cbn. intros [Hi Hj]. exists i. split; [|by apply elem_of_range].
    by apply (list_elem_of_fmap_2 (pair i) slots j), elem_of_slots.
Qed.

Lemma all_slots_NoDup hp : NoDup (all_slots hp).
Proof.
  unfold all_slots. generalize (range_NoDup 0 (hashsize hp)). generalize (range 0 (hashsize hp)). intros l Hl.
  induction Hl as [|i l Hi Hl IH]; [constructor|]. rewrite bind_cons. apply NoDup_app. split; [|split; [|done]].
  - apply NoDup_fmap_2; [intros ? ? [=]; done|apply slots_NoDup].
  - intros p Hp Hp'. apply list_elem_of_fmap in Hp as (j & -> & _).
    apply list_elem_of_bind in Hp' as (i' & Hp' & Hi'). apply list_elem_of_fmap in Hp' as (j' & [= <- _] & _). done.
Qed.

(** The entries in the positions [l]. *)
Definition part v (l : list (Z * Z)) p : option (entry V) := if decide (p ∈ l) then v p else None.

Lemma rep_unique v m m' : rep v m -> rep v m' -> m = m'.
Proof. intros H H'. apply map_eq. intros key. apply option_eq. intros x. by rewrite (H key x), (H' key x). Qed.

Lemma rep_part_None v l p m : p ∉ l -> v p = None -> rep (part v l) m -> rep (part v (l ++ [p])) m.
Proof.
  intros Hp Hn. apply rep_ext. intros q. unfold part. repeat case_decide; try done; [|set_solver].
  assert (q = p) as -> by set_solver. done.
Qed.

Lemma rep_part_Some hp v l p e m :
  table_ok hp v -> p ∉ l -> v p = Some e -> rep (part v l) m ->
  m !! e_key e = None /\ rep (part v (l ++ [p])) (<[e_key e := e_val e]> m).
Proof.
  intros Ht Hp He Hr.
  assert (forall q e', part v l q = Some e' -> e_key e' <> e_key e) as Hno.
  { unfold part. intros q e'. case_decide as Hq; [|done]. intros Hq' Hk.
    by rewrite (tb_unique _ _ _ Ht _ _ _ _ Hq' He Hk) in Hq. }
  split; [by eapply rep_None|].
  eapply rep_ext; [|apply (rep_insert (part v l) m p e); [unfold part; by rewrite decide_False|exact Hno|exact Hr]].
  intros q. unfold part, upd. repeat case_decide; subst; set_solver.
Qed.

(** All entries of a table whose buckets may be read go into the new map. *)
Lemma wp_insert_entries fuel s nm m dn l :
  shape s -> table_ok (hashpower (buckets_ s)) (view s) -> 64 <= Z.of_nat fuel ->
  (forall i, 0 <= i < 2 ^ hashpower (buckets_ s) -> accessible s i) ->
  NoDup (dn ++ l) -> (forall p, p ∈ l -> position (hashpower (buckets_ s)) p) ->
  represents hash_function NO_MAXIMUM_HASHPOWER nm m -> rep (part (view s) dn) m ->
  wp (insert_entries fuel l nm) s (fun nm' s' => s' = s /\ exists m',
      represents hash_function NO_MAXIMUM_HASHPOWER nm' m' /\ rep (part (view s) (dn ++ l)) m' /\
      hashpower (buckets_ nm) <= hashpower (buckets_ nm'))
    (fun x s' => x = bad_alloc /\ s' = s).
Proof.
  intros Hs Ht Hf Ha. revert nm m dn. induction l as [|[i j] l IH]; intros nm m dn Hnd Hl Hr Hp; cbn [insert_entries].
  - apply wp_ret. split; [done|]. exists m. rewrite app_nil_r. split; [done|]. split; [done|lia].
  - destruct (Hl (i, j) ltac:(left)) as [Hi Hj]. cbn [fst snd] in *.
    assert ((i, j) ∉ dn) as Hnew by (apply NoDup_app in Hnd as (_ & Hnd & _); intros Hin; apply (Hnd _ Hin); left).
    wp_step. apply (wp_read_bucket hash_function); [done|by apply Ha|].
    wp_step. eapply wp_lift; [by apply (occupied_fmap (fun j => view s (i, j)))|].
    rewrite (cons_middle (i, j) dn l), app_assoc in Hnd |- *.
    destruct (view s (i, j)) as [e|] eqn:He; cbn [negb].
    + wp_step. eapply wp_lift; [by eapply (live_fmap (fun j => view s (i, j)))|]. wp_step.
      destruct (rep_part_Some _ _ _ _ _ _ Ht Hnew He Hp) as [Hm Hp'].
      apply wp_on_new. eapply wp_mono; [by apply wp_insert_size|..].
      * intros r nm' (_ & Hr' & Hhp). rewrite Hm in Hr'. eapply wp_mono; [eapply (IH nm'); [exact Hnd| |exact Hr'|exact Hp']|..].
        -- intros p Hin. apply Hl. by right.
        -- intros nm2 s' (-> & m' & H1 & H2 & H3). split; [done|]. exists m'. split; [done|]. split; [done|lia].
        -- done.
      * intros x nm' [_ [(_ & Hmax & _)|(-> & _)]]; [done|]. done.
    + apply (IH nm m _ Hnd); [|done|by apply rep_part_None]. intros p Hin. apply Hl. by right.
Qed.

Lemma wp_unshared_rehash nm m :
  represents hash_function NO_MAXIMUM_HASHPOWER nm m ->
  wp (unshared (rehash_with_workers hash_function)) nm (fun _ nm' =>
    quiet nm nm' /\ unmigrated (locks nm') = ∅) never.
Proof.
  intros [Hs _ _ Hh _ _ _]. unfold unshared. wp_step. apply wp_get. wp_step. unfold modify_locks. apply wp_modify.
  apply wp_finally. match goal with |- wp _ ?x _ _ => change x with (with_held (full (n_locks (locks nm))) nm) end.
  wp_use (wp_rehash_with_workers hash_function new_ok) as (Hq & Hh1 & Hu & _).
  - by apply shape_with_held.
  - intros l Hl. cbn in *. rewrite mem_full. lia.
  - apply wp_modify. rewrite Hh. rename s' into nm1. match goal with |- quiet _ ?x /\ _ => change x with (with_held ∅ nm1) end. split; [|done].
    eapply quiet_trans; [by eapply quiet_held|]. apply quiet_with_held. apply Hq.
Qed.

(** The map with the buckets of the new one. *)
Definition taken (b : buckets_t V) (n : Z) s : St :=
  MkMap b (old_buckets_ s) (MkLocks n (elem_counters (locks s)) ∅ ∅) (num_remaining_lazy_rehash_locks_ s)
    (maximum_hashpower_ s).

Lemma taken_represents mhp s s1 nm m n :
  represents hash_function mhp s m -> quiet s s1 -> unmigrated (locks s1) = ∅ ->
  shape nm -> table_ok (hashpower (buckets_ nm)) (view nm) -> rep (view nm) m -> unmigrated (locks nm) = ∅ ->
  n_locks (locks s1) <= n <= kMaxNumLocks -> Z.min (2 ^ hashpower (buckets_ nm)) kMaxNumLocks <= n ->
  represents hash_function mhp (taken (buckets_ nm) n s1) m.
Proof.
  intros [] Hq Hu [Hn _] Ht Hr Hun Hl Hmin. pose proof (ld_shape Hq) as [H1 Hrem]. destruct (H1), (Hn).
  assert (forall p, view (taken (buckets_ nm) n s1) p = view nm p) as Hv by (intros p; unfold CuckooView.view; cbn; by rewrite Hun).
  assert (0 < n_locks (locks s)) as Hpos by by eapply n_locks_pos.
  pose proof (ld_n Hq) as Hnl. pose proof (ld_counters Hq) as Hcn.
  constructor; cbn [taken buckets_ old_buckets_ locks held maximum_hashpower_].
  - split; [|cbn; rewrite Hrem, Hu; done]. constructor; cbn; try done; lia.
  - eapply table_ok_ext; [exact Hv|done].
  - eapply rep_ext; [exact Hv|done].
  - done.
  - by rewrite (ld_max Hq).
  - intros l x. cbn. rewrite Hcn. intros Hx%rp_counters. lia.
  - rewrite <- rp_count. apply counted_grow; [done|done|cbn; lia].
Qed.

Lemma all_accessible s i :
  shape s -> unmigrated (locks s) = ∅ -> held (locks s) = full (n_locks (locks s)) ->
  0 <= i < 2 ^ hashpower (buckets_ s) -> accessible s i.
Proof.
  intros Hs Hu Hh Hi. pose proof (lock_ind_in hash_function s i Hs Hi) as Hl.
  constructor; [done| |by rewrite Hu]. rewrite Hh, mem_full. lia.
Qed.

(** What a resize throws: nothing is lost. *)
Definition resize_throws mhp s m new_hp (x : exn) s' : Prop :=
  represents hash_function mhp s' m /\
  ((x = maximum_hashpower_exceeded /\ mhp <> NO_MAXIMUM_HASHPOWER /\ mhp < new_hp) \/ x = bad_alloc).

Lemma wp_construct_new new_hp s :
  0 <= new_hp < 64 ->
  wp (construct_new (wrap 64 (hashsize new_hp * slot_per_bucket))) s (fun nm s' => s' = s /\
      represents hash_function NO_MAXIMUM_HASHPOWER nm ∅ /\ (new_hp <= 61 -> hashpower (buckets_ nm) = new_hp))
    (fun x s' => s' = s /\ x = bad_alloc).
Proof.
  intros Hn. unfold construct_new. set (n := wrap 64 _).
  assert (0 <= n <= 2 ^ 64 - 4 /\ (new_hp <= 61 -> n = 4 * 2 ^ new_hp)) as [Hb Hn4].
  { unfold n, slot_per_bucket. rewrite hashsize_pow by done. destruct (Z.leb_spec new_hp 61) as [H61|H61].
    - assert (2 ^ new_hp <= 2 ^ 61) by (apply Z.pow_le_mono_r; lia). pose proof (Z.pow_nonneg 2 new_hp ltac:(lia)).
      rewrite wrap_small by lia. lia.
    - assert (new_hp = 62 \/ new_hp = 63) as [->| ->] by lia; vm_compute; intuition congruence. }
  clearbody n. destruct (constructor_spec (V := V) hash_function new_ok n Hb) as (hp & Hhp & Hle & Hmin & r & Hr & Hs).
  wp_step. eapply wp_lift; [exact Hr|]. destruct r as [nm|]; [|by apply wp_throw].
  apply wp_ret. destruct Hs as (_ & Hrep & Hs & _). split; [done|]. split; [done|]. intros H61. rewrite Hs.
  specialize (Hn4 H61). subst n. destruct (Z.lt_trichotomy hp new_hp) as [Hlt|[?|Hgt]]; [|done|]; exfalso.
  - assert (2 ^ hp < 2 ^ new_hp) by (apply Z.pow_lt_mono_r; lia). lia.
  - assert (2 ^ new_hp <= 2 ^ (hp - 1)) by (apply Z.pow_le_mono_r; lia). lia.
Qed.

Lemma part_all s p : shape s -> table_ok (hashpower (buckets_ s)) (view s) ->
  part (view s) (all_slots (hashpower (buckets_ s))) p = view s p.
Proof.
  intros Hs Ht. unfold part. case_decide as Hp; [done|]. destruct (view s p) as [e|] eqn:He; [|done].
  destruct Hp. apply elem_of_all_slots; [pose proof (shape_hp _ _ Hs); lia|]. by apply (tb_bounds _ _ _ Ht) in He.
Qed.

Lemma wp_expand_simple fuel new_hp mhp s m :
  represents hash_function mhp s m -> 0 <= new_hp < 64 -> 64 <= Z.of_nat fuel ->
  wp (cuckoo_expand_simple fuel false new_hp) s (fun st s' => st = ok /\ represents hash_function mhp s' m /\
      (new_hp <= 61 -> new_hp <= hashpower (buckets_ s')))
    (resize_throws mhp s m new_hp).
Proof.
  intros Hr Hn Hf. pose proof Hr as []. unfold cuckoo_expand_simple. eapply wp_seq; [by apply wp_lock_all|].
  intros [] s0 ->. set (s0 := with_held _ s). assert (quiet s s0) as Hq0 by by apply quiet_with_held.
  apply wp_finally. wp_step. apply wp_gets. wp_step. unfold check_resize_validity. wp_step. apply wp_gets.
  cbn [s0 maximum_hashpower_ with_held]. rewrite rp_max.
  destruct (negb (mhp =? NO_MAXIMUM_HASHPOWER) && (mhp <? new_hp)) eqn:Emax.
  { apply wp_throw. apply (wp_unlock_all hash_function new_ok); [intros l; cbn; rewrite mem_full; lia|].
    change (with_held ∅ s0) with (with_held ∅ s). apply andb_true_iff in Emax as [H1 H2].
    apply negb_true_iff, Z.eqb_neq in H1. split; [|left; split; [done|]; split; [done|lia]].
    eapply quiet_represents; [exact Hr|by apply quiet_with_held|done]. }
  wp_step. apply wp_gets. cbn [buckets_ s0 with_held]. rewrite Z.eqb_refl. cbn [negb]. apply wp_ret.
  rewrite bool_decide_true by done. cbn [negb].
  eapply wp_seq; [apply (wp_rehash_with_workers hash_function new_ok); [apply Hq0|]|].
  { intros l Hl. cbn in *. rewrite mem_full. lia. }
  intros [] s1 (Hq & Hh1 & Hu & _). pose proof (quiet_trans Hq0 Hq) as Hq1. unfold s0 in Hh1. cbn [locks with_held set_held held] in Hh1.
  assert (n_locks (locks s1) = n_locks (locks s)) as Hn1 by apply Hq1. rewrite <- Hn1 in Hh1.
  pose proof (ld_shape Hq1) as Hs1. pose proof (quiet_keeps hash_function s s1 m Hq1 rp_table rp_rep) as Hk1.
  assert (hashpower (buckets_ s1) = hashpower (buckets_ s)) as Hhp by apply Hq1.
  assert (represents hash_function mhp (with_held ∅ s1) m) as Hback.
  { eapply quiet_represents; [exact Hr| |done]. eapply quiet_trans; [exact Hq1|]. by apply quiet_with_held. }
  assert (forall Q : () -> St -> Prop, Q () (with_held ∅ s1) -> wp (unlock_all false) s1 Q never) as Hunlock.
  { intros Q HQ. apply (wp_unlock_all hash_function new_ok); [|done]. intros l. rewrite Hh1, mem_full. lia. }
  wp_step. eapply wp_mono; [by apply wp_construct_new|..].
  2:{ intros x s2 [-> ->]. apply Hunlock. split; [done|by right]. }
  intros nm s2 (-> & Hnm & Hnhp). cbv beta. wp_step. rewrite <- Hhp.
  eapply wp_mono; [apply (wp_insert_entries fuel s1 nm ∅ []); [done|apply Hk1|done| | | |done|]|..].
  - intros i Hi. by apply all_accessible.
  - apply all_slots_NoDup.
  - intros p. apply elem_of_all_slots. pose proof (shape_hp _ _ Hs1). lia.
  - intros key x. rewrite lookup_empty. split; [done|]. intros (p & e & He & _). unfold part in He.
    case_decide as Hp; [|done]. by apply not_elem_of_nil in Hp.
  - intros nm1 s2 (-> & m1 & Hr1 & Hp1 & Hge). cbn [app] in Hp1.
    assert (m1 = m) as ->.
    { eapply rep_unique; [exact Hp1|]. eapply rep_ext; [|apply Hk1]. intros p. by rewrite part_all by apply Hk1. }
    wp_step. apply wp_on_new. eapply wp_conseq; [by apply (wp_unshared_rehash nm1 m)|].
    intros [] nm2 [Hq2 Hu2]. pose proof (quiet_keeps hash_function nm1 nm2 m Hq2 (CuckooOps.rp_table _ _ _ _ Hr1) (CuckooOps.rp_rep _ _ _ _ Hr1)) as Hk2.
    pose proof (ld_shape Hq2) as Hs2. pose proof (shape_hp _ _ Hs2) as Hhp2.
    rewrite size_pow by lia.
    eapply wp_seq; [by apply (wp_maybe_resize_locks (2 ^ hashpower (buckets_ nm2)))|]. intros [] s2 ->.
    wp_step. unfold take_buckets. wp_step. apply wp_get. unfold set_buckets. apply wp_modify. apply wp_ret.
    set (n' := resized _ _). destruct (resized_bounds (n_locks (locks s1)) (2 ^ hashpower (buckets_ nm2))) as [Hb1 Hb2].
    { destruct (sh_locks _ _ (proj1 Hs1)). lia. }
    fold n' in Hb1, Hb2. apply (wp_unlock_all hash_function new_ok); [intros l; cbn; rewrite mem_full; lia|].
    match goal with |- _ /\ represents _ _ ?x _ /\ _ => assert (x = taken (buckets_ nm2) n' s1) as -> end.
    { unfold taken. cbn. rewrite Hu. by destruct (buckets_ nm2). }
    split; [done|]. split; [|intros H61; specialize (Hnhp H61); cbn; rewrite (kp_hp _ _ _ _ Hk2); lia].
    eapply taken_represents; try done; apply Hk2.
  - intros x s2 [-> ->]. apply Hunlock. split; [done|by right].
Qed.

Lemma wp_cuckoo_resize fuel new_hp mhp s m :
  represents hash_function mhp s m -> 0 <= new_hp < 64 -> 64 <= Z.of_nat fuel ->
  wp (if new_hp =? hashpower (buckets_ s) then mret false else
      st ← cuckoo_expand_simple fuel false new_hp; mret (bool_decide (st = ok))) s
    (fun r s' => r = negb (new_hp =? hashpower (buckets_ s)) /\ represents hash_function mhp s' m /\
       (new_hp <= 61 -> new_hp <= hashpower (buckets_ s')))
    (resize_throws mhp s m new_hp).
Proof.
  intros Hr Hn Hf. destruct (Z.eqb_spec new_hp (hashpower (buckets_ s))) as [->|Hne].
  - apply wp_ret. split; [done|]. split; [done|lia].
  - wp_step. eapply wp_mono; [by apply wp_expand_simple| |done]. intros st s' (-> & Hr' & Hhp). apply wp_ret.
    by rewrite bool_decide_true.
Qed.

End Rehash.

(** ** The theorem *)



(** Asking for 2^62 buckets makes one. *)
Example rehash_62_shrinks :
  match rehash hash16 memory 64 62 small_map with
  | Ok (s, r) => r = inl true /\ hashpower (buckets_ s) = 0
  | _ => False
  end.
Proof. vm_compute. split; reflexivity. Qed.
