(* ===== verification/AddrCacheMaps.v ===== *)
(** The address cache over the maps that it is built from (core/metadata/addr_cache.h with
    cuckoohash_map.hh): the cache is written against an interface of maps, the cuckoo map
    is an instance of it, and the cache over cuckoo maps refines the cache of AddrCache.v,
    which the client uses. *)
From S2P Require Import Prelude Words Outcome Buckets Cuckoo CuckooFacts CuckooDouble CuckooOps CuckooSpec CuckooTheorems AddrCache.

(** ** The interface *)

(** A map of items, its three operations, and what they promise: a state stands for a
    finite map; lookups and erasures do not fail, and an insertion that does not throw
    keeps the value of a present key. *)
Class ItemMap (S : Type) := {
  im_find : Z -> M S (option InodeCacheItem);
  im_insert : Z -> InodeCacheItem -> M S bool;
  im_erase : Z -> M S bool;
  im_rep : S -> gmap Z InodeCacheItem -> Prop;
  im_throws : S -> gmap Z InodeCacheItem -> exn -> S -> Prop;
  im_find_ok key s m : im_rep s m -> wp (im_find key) s (fun r s' => r = m !! key /\ im_rep s' m) never;
  im_insert_ok key i s m : im_rep s m ->
    wp (im_insert key i) s (fun _ s' => im_rep s' (if m !! key then m else <[key := i]> m)) (im_throws s m);
  im_erase_ok key s m : im_rep s m -> wp (im_erase key) s (fun _ s' => im_rep s' (delete key m)) never
}.

(** ** The cache *)

Section Cache.
Context {S : Type} `{ItemMap S}.

(** [addr_map], an array of four maps. *)
Abbreviation Maps := (list S).

(** An operation of the map [addr_map[remote_node_id]]. *)
Definition on_map {A} (remote_node_id : Z) (op : M S A) : M Maps A := fun c =>
  m ← deref (if 0 <=? remote_node_id then c !! Z.to_nat remote_node_id else None);
  '(m, r) ← op m;
  Ok (<[Z.to_nat remote_node_id := m]> c, r).

Definition MInsert (remote_node_id key : Z) (i : InodeCacheItem) : M Maps () :=
  on_map remote_node_id (im_insert key i);; mret ().

Definition MRemove (remote_node_id key : Z) : M Maps () :=
  on_map remote_node_id (im_erase key);; mret ().

Definition MSearch (remote_node_id key : Z) : M Maps (option InodeCacheItem) :=
  on_map remote_node_id (im_find key).

(** The maps stand for those of an abstract cache. *)
Definition cache_rep (c : Maps) (a : AddrCache) : Prop := Forall2 im_rep c a.

(** The map of a node, in both caches. *)
Lemma cache_rep_map c a node :
  cache_rep c a ->
  (exists s m, deref (if 0 <=? node then c !! Z.to_nat node else None) = Ok s /\ map_of a node = Ok m /\ im_rep s m /\
     0 <= node /\ c !! Z.to_nat node = Some s) \/
  (deref (if 0 <=? node then c !! Z.to_nat node else None) = Fault /\ map_of a node = Fault).
Proof.
  intros Hc. unfold map_of. destruct (Z.leb_spec 0 node); [|by right].
  destruct (c !! Z.to_nat node) as [s|] eqn:Hs.
  - destruct (Forall2_lookup_l _ _ _ _ _ Hc Hs) as (m & -> & Hr). left. by exists s, m.
  - right. split; [done|]. apply lookup_ge_None in Hs. apply Forall2_length in Hc.
    by rewrite lookup_ge_None_2 by lia.
Qed.

(** An operation of one map that turns [m] into [m'], seen from the cache. *)
Lemma wp_on_map {A} node (op : M S A) c a s (m' : gmap Z InodeCacheItem) (Q : A -> Prop) (E : exn -> S -> Prop) :
  cache_rep c a -> deref (if 0 <=? node then c !! Z.to_nat node else None) = Ok s ->
  wp op s (fun r s' => Q r /\ im_rep s' m') E ->
  wp (on_map node op) c (fun r c' => Q r /\ cache_rep c' (<[Z.to_nat node := m']> a))
    (fun x c' => exists s', E x s' /\ c' = <[Z.to_nat node := s']> c).
Proof.
  intros Hc Hs Hop. unfold wp, on_map in *. rewrite Hs. cbn [mbind outcome_bind].
  destruct (op s) as [[s' [r|x]]| | |]; try done.
  - destruct Hop as [HQ Hr]. split; [done|]. by apply Forall2_insert.
  - by exists s'.
Qed.

(** ** Requests *)

Inductive cache_request :=
| CSearch (node key : Z)
| CInsert (node key : Z) (i : InodeCacheItem)
| CRemove (node key : Z).

Definition request_node (r : cache_request) : Z :=
  match r with CSearch node _ | CInsert node _ _ | CRemove node _ => node end.

Definition serve (r : cache_request) : M Maps (option InodeCacheItem) :=
  match r with
  | CSearch node key => MSearch node key
  | CInsert node key i => MInsert node key i;; mret None
  | CRemove node key => MRemove node key;; mret None
  end.

(** The cache of AddrCache.v. *)
Definition expected (r : cache_request) (a : AddrCache) : outcome (option InodeCacheItem * AddrCache) :=
  match r with
  | CSearch node key => x ← Search node key a; Ok (x, a)
  | CInsert node key i => a ← AddrCache.Insert node key i a; Ok (None, a)
  | CRemove node key => a ← Remove node key a; Ok (None, a)
  end.

(** The map of [node] has thrown; the others are as they were. *)
Definition node_throws (node : Z) (c : Maps) (a : AddrCache) (x : exn) (c' : Maps) : Prop :=
  exists s m s', c !! Z.to_nat node = Some s /\ a !! Z.to_nat node = Some m /\
    im_throws s m x s' /\ c' = <[Z.to_nat node := s']> c.

Lemma serve_spec r c a :
  cache_rep c a ->
  match expected r a with
  | Ok (x, a') => wp (serve r) c (fun y c' => y = x /\ cache_rep c' a') (node_throws (request_node r) c a)
  | _ => serve r c = Fault
  end.
Proof.
  intros Hc. destruct (cache_rep_map c a (request_node r) Hc) as [(s & m & Hs & Hm & Hr & Hn & Hl)|[Hs Hm]].
  - assert (a !! Z.to_nat (request_node r) = Some m) as Ha.
    { unfold map_of in Hm. destruct (Z.leb_spec 0 (request_node r)); [|lia]. destruct (a !! _); cbn in Hm; congruence. }
    destruct r as [node key|node key i|node key]; cbn [request_node expected serve] in *;
      unfold Search, AddrCache.Insert, Remove; rewrite Hm; cbn [mbind outcome_bind].
    + unfold MSearch. eapply wp_mono; [eapply wp_on_map; [done..|by apply im_find_ok]| |by intros ? ? (? & [] & _)].
      intros y c' [-> Hc']. split; [done|]. rewrite list_insert_id in Hc'; done.
    + unfold MInsert. wp_step. wp_step. eapply wp_mono; [eapply (wp_on_map _ _ _ _ _ _ (fun _ => True)); [done..|]| |].
      * eapply wp_mono; [by apply (im_insert_ok key i)|intros ? ? Hx; split; [exact I|exact Hx]|]. intros x s' Ht. exact Ht.
      * intros y c' [_ Hc']. apply wp_ret. by split.
      * intros x c' (s' & Ht & ->). by exists s, m, s'.
    + unfold MRemove. wp_step. wp_step.
      eapply wp_mono; [eapply (wp_on_map _ _ _ _ _ _ (fun _ => True) never); [done..|]| |by intros ? ? (? & [] & _)].
      * eapply wp_mono; [by apply im_erase_ok|intros ? ? Hx; split; [exact I|exact Hx]|done].
      * intros y c' [_ Hc']. apply wp_ret. by split.
  - destruct r as [node key|node key i|node key]; cbn [request_node expected serve] in *;
      unfold Search, AddrCache.Insert, Remove; rewrite Hm; cbn [mbind outcome_bind];
      unfold MSearch, MInsert, MRemove, on_map, mbind, M_bind; rewrite Hs; done.
Qed.

Fixpoint serve_all (l : list cache_request) : M Maps (list (option InodeCacheItem)) :=
  match l with
  | [] => mret []
  | r :: l => x ← serve r; xs ← serve_all l; mret (x :: xs)
  end.

Fixpoint expected_all (l : list cache_request) (a : AddrCache) : outcome (list (option InodeCacheItem) * AddrCache) :=
  match l with
  | [] => Ok ([], a)
  | r :: l => '(x, a) ← expected r a; '(xs, a) ← expected_all l a; Ok (x :: xs, a)
  end.

(** A node of the cluster is answered, in a cache that still has four maps. *)
Lemma expected_Ok r a :
  four_nodes a -> is_node (request_node r) -> exists x a', expected r a = Ok (x, a') /\ four_nodes a'.
Proof.
  intros H4 Hn. destruct (map_of_spec a (request_node r) H4) as [(_ & m & Hm & _)|[]]; [|done].
  destruct r as [node key|node key i|node key]; cbn [request_node expected] in *;
    unfold Search, AddrCache.Insert, Remove; rewrite Hm; cbn [mbind outcome_bind];
    eexists _, _; (split; [done|]); unfold four_nodes in *; by rewrite ?length_insert.
Qed.

Lemma expected_all_Ok l a :
  four_nodes a -> Forall (fun r => is_node (request_node r)) l -> exists xs a', expected_all l a = Ok (xs, a').
Proof.
  intros H4 Hl. revert a H4. induction Hl as [|r l Hn Hl IH]; intros a H4; cbn [expected_all]; [by eexists _, _|].
  destruct (expected_Ok r a H4 Hn) as (x & a1 & -> & H41). cbn [mbind outcome_bind].
  destruct (IH a1 H41) as (xs & a2 & ->). by eexists _, _.
Qed.

(** The cache answers as the abstract one, up to a map that throws. *)
Definition serve_throws l (a : AddrCache) (x : exn) (c' : Maps) : Prop :=
  exists l1 r l2 c1 a1 ys, l = l1 ++ r :: l2 /\ expected_all l1 a = Ok (ys, a1) /\ cache_rep c1 a1 /\
    node_throws (request_node r) c1 a1 x c'.

Lemma wp_serve_all l c a xs a' :
  cache_rep c a -> expected_all l a = Ok (xs, a') ->
  wp (serve_all l) c (fun ys c' => ys = xs /\ cache_rep c' a') (serve_throws l a).
Proof.
  revert c a xs a'. induction l as [|r l IH]; intros c a xs a' Hc Hx; cbn [serve_all expected_all] in *.
  - injection Hx as <- <-. by apply wp_ret.
  - pose proof (serve_spec r c a Hc) as Hr. destruct (expected r a) as [[x a1]| | |] eqn:He; try discriminate.
    cbn [mbind outcome_bind] in Hx. destruct (expected_all l a1) as [[xs1 a2]| | |] eqn:Hl; try discriminate.
    injection Hx as <- <-. wp_step. eapply wp_mono; [exact Hr|..].
    + intros y c1 [-> H1]. wp_step. eapply wp_mono; [by eapply IH|..].
      * intros ys c2 [-> H2]. by apply wp_ret.
      * intros x' c2 (l1 & r1 & l2 & c3 & a3 & ys & -> & H3 & H4). exists (r :: l1), r1, l2, c3, a3, (x :: ys).
        split; [done|]. split; [|done]. cbn [expected_all]. rewrite He. cbn [mbind outcome_bind]. by rewrite H3.
    + intros x' c1 Ht. by exists [], r, l, c, a, [].
Qed.

End Cache.

(** ** Over cuckoo maps *)

Section CuckooCache.
Context (hash_function : Z -> Z) (new_ok : Z -> bool).

(** The cuckoo map keeps the promises of the interface. *)
#[export, refine] Instance cuckoo_item_map : ItemMap (map_t InodeCacheItem) := {
  im_find := find hash_function 64;
  im_insert := insert hash_function new_ok 64;
  im_erase := erase hash_function 64;
  im_rep := represents hash_function NO_MAXIMUM_HASHPOWER;
  im_throws := op_throws hash_function new_ok NO_MAXIMUM_HASHPOWER;
  im_find_ok := _; im_insert_ok := _; im_erase_ok := _
}.
Proof.
  - intros key s m Hr. apply wp_find; [done|lia].
  - intros key i s m Hr. eapply wp_mono; [apply (wp_insert hash_function new_ok NO_MAXIMUM_HASHPOWER (Z.le_refl _)); [done|lia]| |done]. by intros r s' [_ ?].
  - intros key s m Hr. wp_use wp_erase as [_ ?]; [done|lia|done].
Defined.

(** [cuckoohash_map addr_map[4]], each constructed for [DEFAULT_SIZE] elements; none if
    an allocation fails. *)
Definition new_maps : outcome (option (list (map_t InodeCacheItem))) :=
  o1 ← cuckoohash_map new_ok DEFAULT_SIZE;
  o2 ← cuckoohash_map new_ok DEFAULT_SIZE;
  o3 ← cuckoohash_map new_ok DEFAULT_SIZE;
  o4 ← cuckoohash_map new_ok DEFAULT_SIZE;
  Ok (m1 ← o1; m2 ← o2; m3 ← o3; m4 ← o4; Some [m1; m2; m3; m4]).

Lemma new_maps_rep c : new_maps = Ok (Some c) -> cache_rep c new_AddrCache.
Proof.
  unfold new_maps. destruct (constructor_spec (V := InodeCacheItem) hash_function new_ok DEFAULT_SIZE ltac:(done))
    as (hp & _ & _ & _ & [s|] & -> & Hs); [|done]. cbn. intros Hc. injection Hc as <-.
  destruct Hs as (_ & Hr & _ & _). do 4 (apply Forall2_cons_2; [exact Hr|]). apply Forall2_nil_2.
Qed.

(** C11. The address cache over four cuckoo maps does what the address cache of the client
    says. From its construction, every sequence of lookups, insertions and removals on
    the nodes 0 to 3 is answered as there, whatever evictions, doublings and migrations
    the maps go through; only an insertion whose map cannot be allocated throws, and it
    takes the addresses of no other node with it. *)
Theorem addr_cache_over_cuckoo_maps c l :
  new_maps = Ok (Some c) -> Forall (fun r => is_node (request_node r)) l ->
  exists xs a c' r, expected_all l new_AddrCache = Ok (xs, a) /\ serve_all l c = Ok (c', r) /\
    ((r = inl xs /\ cache_rep c' a) \/
     (r = inr bad_alloc /\ exists l1 q l2 ys a1 s, l = l1 ++ q :: l2 /\ expected_all l1 new_AddrCache = Ok (ys, a1) /\
        broken s /\ c' !! Z.to_nat (request_node q) = Some s /\
        forall i s, i <> Z.to_nat (request_node q) -> c' !! i = Some s -> exists m, a1 !! i = Some m /\ im_rep s m)).
Proof.
  intros Hn Hl. apply new_maps_rep in Hn as Hc. destruct (expected_all_Ok l new_AddrCache eq_refl Hl) as (xs & a & Hx).
  destruct (wp_elim _ _ _ _ (wp_serve_all l c _ _ _ Hc Hx)) as (c' & r & Hs & Hr). exists xs, a, c', r.
  split; [done|]. split; [done|]. destruct r as [ys|x]; [left; naive_solver|right].
  destruct Hr as (l1 & q & l2 & c1 & a1 & ys & -> & Hl1 & Hc1 & s1 & m & s & Hs1 & Ha1 & Ht & ->).
  destruct Ht as [_ [(_ & Hmax & _)|(-> & Hb & _)]]; [done|]. split; [done|].
  exists l1, q, l2, ys, a1, s. split; [done|]. split; [done|]. split; [done|]. split.
  - apply list_lookup_insert_eq. by apply lookup_lt_Some in Hs1.
  - intros i s' Hi. rewrite list_lookup_insert_ne by done. intros Hs'. by apply (Forall2_lookup_l _ _ _ _ _ Hc1).
Qed.

End CuckooCache.

(** The map that the default constructor makes. *)
Definition default_map : map_t InodeCacheItem :=
  MkMap (MkBuckets 16 ∅ false) (MkBuckets 0 ∅ false) (MkLocks 65536 ∅ ∅ ∅) 0 NO_MAXIMUM_HASHPOWER.

Definition two_requests : list cache_request := [CInsert 2 1 file_inode; CSearch 2 1].

Lemma addr_cache_over_cuckoo_maps_witness :
  new_maps memory = Ok (Some [default_map; default_map; default_map; default_map]) /\
  exists xs a c r, expected_all two_requests new_AddrCache = Ok (xs, a) /\
    serve_all (S := map_t InodeCacheItem) (H := cuckoo_item_map hash16 memory) two_requests
      [default_map; default_map; default_map; default_map] = Ok (c, r).
Proof.
  assert (new_maps memory = Ok (Some [default_map; default_map; default_map; default_map])) as Hn
    by (vm_compute; reflexivity).
  split; [exact Hn|].
  destruct (addr_cache_over_cuckoo_maps hash16 memory _ two_requests Hn) as (xs & a & c & r & Hx & Hs & _).
  - repeat constructor; cbn; lia.
  - exists xs, a, c, r. split; [exact Hx|exact Hs].
Defined.
