(* ===== verification/SplitOrder.v ===== *)
(** The order of the lock-free table (core/util/ct.h): reversed hashes, the parents of
    buckets, the comparison of nodes and the addresses of the buckets in the tree of
    segments. The table keeps all nodes in one sorted list; a bucket is a dummy node
    in it. The theorem is that the nodes of a bucket follow its dummy node, before
    every other dummy node, for every size of the table. *)
From S2P Require Import Prelude Words Outcome.

(** ** Definitions *)

Definition kMaxLevel : Z := 4.
Definition kSegmentSize : Z := 64.
Definition kMaxBucketSize : Z := kSegmentSize ^ kMaxLevel.

(** The macros that list the table of reversed bytes. *)
Definition R2 (n : Z) : list Z := [n; n + 2 * 64; n + 1 * 64; n + 3 * 64].
Definition R4 (n : Z) : list Z := R2 n ++ R2 (n + 2 * 16) ++ R2 (n + 1 * 16) ++ R2 (n + 3 * 16).
Definition R6 (n : Z) : list Z := R4 n ++ R4 (n + 2 * 4) ++ R4 (n + 1 * 4) ++ R4 (n + 3 * 4).

Definition reverse8bits_ : list Z := R6 0 ++ R6 2 ++ R6 1 ++ R6 3.

(** [reverse8bits_[i]], with an index below 256. *)
Definition reverse8 (i : Z) : Z := nth (Z.to_nat i) reverse8bits_ 0.

Definition Reverse (hash : Z) : Z :=
  let byte n := reverse8 (Z.land (Z.shiftr hash n) 0xff) in
  let up x n := wrap 64 (Z.shiftl x n) in
  Z.lor (Z.lor (Z.lor (Z.lor (Z.lor (Z.lor (Z.lor
    (up (byte 0) 56) (up (byte 8) 48)) (up (byte 16) 40)) (up (byte 24) 32))
    (up (byte 32) 24)) (up (byte 40) 16)) (up (byte 48) 8)) (byte 56).

Definition RegularKey (hash : Z) : Z := Reverse (Z.lor hash 0x8000000000000000).
Definition DummyKey (hash : Z) : Z := Reverse hash.

(** What is constant in a node: [Node], [DummyNode] and [RegularNode] without the
    atomic members [next] and [value]. A dummy node has no key. *)
Record node := MkNode {
  hash : Z;
  reverse_hash : Z;
  key_of : option Z
}.

Definition IsDummy (n : node) : bool := bool_decide (key_of n = None).

Definition DummyNode (bucket_index : Z) : node := MkNode bucket_index (DummyKey bucket_index) None.

Section Nodes.
Context (hash_func_ : Z -> Z).

Definition RegularNode (key : Z) : node := MkNode (hash_func_ key) (RegularKey (hash_func_ key)) (Some key).
End Nodes.

(** The static casts are to [RegularNode], which the test for dummies makes sure of. *)
Definition Less (node1 node2 : node) : bool :=
  if negb (reverse_hash node1 =? reverse_hash node2) then reverse_hash node1 <? reverse_hash node2 else
  match key_of node1, key_of node2 with
  | Some k1, Some k2 => k1 <? k2
  | _, _ => false
  end.

Definition GreaterOrEquals (node1 node2 : node) : bool := negb (Less node1 node2).
Definition Equals (node1 node2 : node) : bool := negb (Less node1 node2) && negb (Less node2 node1).

(** The number of leading zeros of a 64-bit word that is not 0. *)
Definition builtin_clzl (x : Z) : Z := 63 - Z.log2 x.

Definition GetBucketParent (bucket_index : Z) : Z :=
  Z.land (wrap 64 (Z.lnot (Z.shiftr 0x8000000000000000 (builtin_clzl bucket_index)))) bucket_index.

(** The index of a bucket at a level of the tree of segments: [level] 1 to 4. *)
Definition level_index (bucket_index level : Z) : Z :=
  (bucket_index / kSegmentSize ^ (kMaxLevel - level)) mod kSegmentSize.

Definition bucket_of_hash (hash bucket_size : Z) : Z := Z.land hash (bucket_size - 1).

Definition is_marked_reference (next : Z) : bool := Z.land next 1 =? 1.
Definition get_marked_reference (next : Z) : Z := Z.lor next 1.
Definition get_unmarked_reference (next : Z) : Z := Z.land next (wrap 64 (Z.lnot 1)).

(** ** Reversed bits *)

Lemma reverse8_testbit b i : 0 <= b < 256 -> 0 <= i < 8 -> Z.testbit (reverse8 b) i = Z.testbit b (7 - i).
Proof.
  intros Hb Hi.
  assert (forallb (fun b => forallb (fun i => eqb (Z.testbit (reverse8 b) i) (Z.testbit b (7 - i)))
    (Z.of_nat <$> seq 0 8)) (Z.of_nat <$> seq 0 256) = true) as H by (vm_compute; reflexivity).
  rewrite forallb_forall in H. specialize (H b). rewrite forallb_forall in H.
  apply eqb_prop, H; apply list_elem_of_In, list_elem_of_fmap; [exists (Z.to_nat b)|exists (Z.to_nat i)];
    rewrite elem_of_seq; lia.
Qed.

Lemma reverse8_range b : 0 <= b < 256 -> 0 <= reverse8 b < 2 ^ 8.
Proof.
  intros Hb.
  assert (forallb (fun x => (0 <=? x) && (x <? 2 ^ 8)) reverse8bits_ = true) as H by (vm_compute; reflexivity).
  rewrite forallb_forall in H. specialize (H (reverse8 b)). rewrite andb_true_iff, Z.leb_le, Z.ltb_lt in H.
  apply H, nth_In. change (length reverse8bits_) with 256%nat. lia.
Qed.

Lemma land_255_range x : 0 <= Z.land x 0xff < 256.
Proof. change 0xff with (Z.ones 8). rewrite Z.land_ones by lia. apply Z.mod_pos_bound. lia. Qed.

(** A byte of the word, reversed, at its place [n]. *)
Lemma reversed_byte_testbit h n i :
  0 <= n <= 56 -> 0 <= i < 64 ->
  Z.testbit (wrap 64 (Z.shiftl (reverse8 (Z.land (Z.shiftr h (56 - n)) 0xff)) n)) i =
  (n <=? i) && (i <? n + 8) && Z.testbit h (63 - i).
Proof.
  intros Hn Hi. pose proof (land_255_range (Z.shiftr h (56 - n))) as Hr.
  rewrite wrap_testbit, shiftl_testbit by lia. test (i <? 64) is true. rewrite andb_true_l.
  destruct (Z.leb_spec n i); [|by rewrite testbit_neg by lia].
  destruct (Z.ltb_spec i (n + 8)); cbn [andb].
  - rewrite reverse8_testbit by lia. change 0xff with (Z.ones 8).
    rewrite Z.land_spec, shiftr_testbit, ones_testbit by lia.
    test (0 <=? 7 - (i - n)) is true. test (7 - (i - n) <? 8) is true. rewrite andb_true_r. f_equal. lia.
  - by rewrite (testbit_high 8) by (by apply reverse8_range || lia).
Qed.

Lemma Reverse_testbit h i : 0 <= i < 64 -> Z.testbit (Reverse h) i = Z.testbit h (63 - i).
Proof.
  intros Hi. unfold Reverse.
  replace (reverse8 (Z.land (Z.shiftr h 56) 0xff)) with
    (wrap 64 (Z.shiftl (reverse8 (Z.land (Z.shiftr h (56 - 0)) 0xff)) 0)).
  2: { rewrite Z.shiftl_0_r. apply wrap_small. pose proof (reverse8_range _ (land_255_range (Z.shiftr h 56))). lia. }
  rewrite !Z.lor_spec.
  rewrite (reversed_byte_testbit h 56), (reversed_byte_testbit h 48), (reversed_byte_testbit h 40),
    (reversed_byte_testbit h 32), (reversed_byte_testbit h 24), (reversed_byte_testbit h 16),
    (reversed_byte_testbit h 8), (reversed_byte_testbit h 0) by lia.
  destruct (Z.testbit h (63 - i)); rewrite ?andb_false_r; [rewrite !andb_true_r|done].
  repeat match goal with |- context [?a <=? i] => destruct (Z.leb_spec a i) end; try lia;
  repeat match goal with |- context [i <? ?a] => destruct (Z.ltb_spec i a) end; try lia; reflexivity.
Qed.

Lemma lor_range n x y : 0 <= n -> 0 <= x < 2 ^ n -> 0 <= y < 2 ^ n -> 0 <= Z.lor x y < 2 ^ n.
Proof.
  intros Hn Hx Hy. assert (0 <= Z.lor x y) by (apply Z.lor_nonneg; lia).
  split; [done|]. apply high_bits_zero; [lia..|]. intros i Hi.
  by rewrite Z.lor_spec, (testbit_high n x), (testbit_high n y) by lia.
Qed.

Lemma Reverse_range h : 0 <= Reverse h < 2 ^ 64.
Proof.
  unfold Reverse. pose proof (reverse8_range _ (land_255_range (Z.shiftr h 56))).
  repeat first [apply lor_range; [lia| |] | apply wrap_range; lia]. lia.
Qed.

(** Reversing twice gives the word back. *)
Lemma Reverse_Reverse h : 0 <= h < 2 ^ 64 -> Reverse (Reverse h) = h.
Proof.
  intros Hh. bits_ext i. destruct (Z.lt_ge_cases i 64).
  - rewrite !Reverse_testbit by lia. f_equal. lia.
  - rewrite !(testbit_high 64) by (try apply Reverse_range; lia). done.
Qed.

(** Numbers are compared by the highest bit in which they differ. *)
Lemma lt_highest_bit a b k :
  0 <= a -> 0 <= b -> 0 <= k -> (forall i, k < i -> Z.testbit a i = Z.testbit b i) ->
  Z.testbit a k = false -> Z.testbit b k = true -> a < b.
Proof.
  intros Ha Hb Hk Hhigh Hak Hbk.
  assert (Z.shiftr a (k + 1) = Z.shiftr b (k + 1)) as Hs.
  { bits_ext i. rewrite !shiftr_testbit by lia. apply Hhigh. lia. }
  rewrite !Z.shiftr_div_pow2 in Hs by lia.
  apply Z.testbit_false in Hak; [|lia]. apply Z.testbit_true in Hbk; [|lia].
  rewrite Z.pow_add_r, Z.pow_1_r, <- !Z.div_div in Hs by lia.
  pose proof (Z.div_mod (a / 2 ^ k) 2). pose proof (Z.div_mod (b / 2 ^ k) 2).
  assert (a / 2 ^ k < b / 2 ^ k) by lia.
  destruct (Z.lt_ge_cases a b); [done|]. pose proof (Z.div_le_mono b a (2 ^ k)). lia.
Qed.

(** Reversed words are compared by the lowest bit in which the words differ. *)
Lemma Reverse_lt x y k :
  0 <= k < 64 -> (forall i, 0 <= i < k -> Z.testbit x i = Z.testbit y i) ->
  Z.testbit x k = false -> Z.testbit y k = true -> Reverse x < Reverse y.
Proof.
  intros Hk Hlow Hx Hy. pose proof (Reverse_range x). pose proof (Reverse_range y).
  apply lt_highest_bit with (k := 63 - k); [lia..| | |].
  - intros i Hi. destruct (Z.lt_ge_cases i 64); [|by rewrite !(testbit_high 64) by lia].
    rewrite !Reverse_testbit by lia. apply Hlow. lia.
  - rewrite Reverse_testbit by lia. rewrite <- Hx. f_equal. lia.
  - rewrite Reverse_testbit by lia. rewrite <- Hy. f_equal. lia.
Qed.

(** The first difference of two words. *)
Lemma first_difference x y n :
  (forall i, 0 <= i < Z.of_nat n -> Z.testbit x i = Z.testbit y i) \/
  exists k, 0 <= k < Z.of_nat n /\ (forall i, 0 <= i < k -> Z.testbit x i = Z.testbit y i) /\
    Z.testbit x k <> Z.testbit y k.
Proof.
  induction n as [|n [IH|(k & ? & ? & ?)]]; [left; lia| |right; exists k; split; [lia|done]].
  destruct (decide (Z.testbit x (Z.of_nat n) = Z.testbit y (Z.of_nat n))) as [He|He].
  - left. intros i Hi. destruct (decide (i = Z.of_nat n)) as [->|]; [done|]. apply IH. lia.
  - right. exists (Z.of_nat n). split; [lia|]. split; [apply IH|done].
Qed.

Lemma Reverse_inj x y : 0 <= x < 2 ^ 64 -> 0 <= y < 2 ^ 64 -> Reverse x = Reverse y -> x = y.
Proof. intros Hx Hy H. by rewrite <- (Reverse_Reverse x), <- (Reverse_Reverse y), H. Qed.

Lemma Reverse_lt_inv x y :
  Reverse x < Reverse y -> exists k, 0 <= k < 64 /\ (forall i, 0 <= i < k -> Z.testbit x i = Z.testbit y i) /\
    Z.testbit x k = false /\ Z.testbit y k = true.
Proof.
  intros Hlt. destruct (first_difference x y 64) as [He|(k & Hk & Hlow & Hne)].
  - assert (Reverse x = Reverse y); [|lia]. bits_ext i. destruct (Z.lt_ge_cases i 64).
    + rewrite !Reverse_testbit by lia. apply He. lia.
    + by rewrite !(testbit_high 64) by (try apply Reverse_range; lia).
  - exists k. split; [done|]. split; [done|].
    destruct (Z.testbit x k) eqn:Hx, (Z.testbit y k) eqn:Hy; try done.
    pose proof (Reverse_lt y x k Hk (fun i Hi => eq_sym (Hlow i Hi)) Hy Hx). lia.
Qed.

(** ** Buckets *)

Lemma bucket_of_hash_mod h i : 0 <= i -> bucket_of_hash h (2 ^ i) = wrap i h.
Proof.
  intros Hi. unfold bucket_of_hash, wrap. by rewrite <- Z.land_ones, Z.ones_equiv by lia.
Qed.

(** A word with the low [i] bits [b] lies between the dummy key of [b] and every greater
    dummy key of a bucket below [2 ^ i]. *)
Lemma between_dummies i x b :
  0 <= i <= 63 -> 0 <= b < 2 ^ i -> wrap i x = b ->
  DummyKey b <= Reverse x /\
  (forall b', 0 <= b' < 2 ^ i -> DummyKey b < DummyKey b' -> Reverse x < DummyKey b').
Proof.
  intros Hi Hb Hx. unfold DummyKey.
  assert (forall j, 0 <= j < i -> Z.testbit b j = Z.testbit x j) as Hlow.
  { intros j Hj. rewrite <- Hx, wrap_testbit by lia. by test (j <? i) is true. }
  split.
  - destruct (first_difference b x 64) as [He|(k & Hk & Hl & Hne)].
    + apply Z.eq_le_incl. bits_ext j. destruct (Z.lt_ge_cases j 64).
      * rewrite !Reverse_testbit by lia. apply He. lia.
      * by rewrite !(testbit_high 64) by (try apply Reverse_range; lia).
    + destruct (Z.lt_ge_cases k i); [by rewrite Hlow in Hne by lia|].
      rewrite (testbit_high i b) in Hne by lia. apply Z.lt_le_incl, Reverse_lt with (k := k); [lia|done| |].
      * by apply (testbit_high i); lia.
      * by destruct (Z.testbit x k).
  - intros b' Hb' (k & Hk & Hl & Hbk & Hbk')%Reverse_lt_inv.
    destruct (Z.lt_ge_cases k i); [|by rewrite (testbit_high i b') in Hbk' by lia].
    apply Reverse_lt with (k := k); [lia| |by rewrite <- Hlow by lia|done].
    intros j Hj. rewrite <- Hlow by lia. apply Hl. lia.
Qed.

Lemma RegularKey_odd h : 0 <= h < 2 ^ 64 -> Z.testbit (RegularKey h) 0 = true.
Proof. intros. unfold RegularKey. rewrite Reverse_testbit, Z.lor_spec by lia. apply orb_true_r. Qed.

Lemma DummyKey_even b : 0 <= b < 2 ^ 63 -> Z.testbit (DummyKey b) 0 = false.
Proof. intros. unfold DummyKey. rewrite Reverse_testbit by lia. by apply (testbit_high 63); lia. Qed.

(** Setting the highest bit keeps the low ones. *)
Lemma wrap_regular i h : 0 <= i <= 63 -> wrap i (Z.lor h 0x8000000000000000) = wrap i h.
Proof.
  intros Hi. bits_ext j. rewrite !wrap_testbit, Z.lor_spec by lia.
  change 0x8000000000000000 with (Z.shiftl 1 63). rewrite shiftl_testbit by lia.
  destruct (Z.ltb_spec j i); [|done]. rewrite (testbit_neg 1) by lia. by rewrite orb_false_r.
Qed.

Lemma regular_in_bucket i h b :
  0 <= i <= 63 -> 0 <= h < 2 ^ 64 -> wrap i h = b ->
  DummyKey b < RegularKey h /\
  (forall b', 0 <= b' < 2 ^ i -> DummyKey b < DummyKey b' -> RegularKey h < DummyKey b').
Proof.
  intros Hi Hh Hb. pose proof (wrap_range i h ltac:(lia)) as Hr. rewrite Hb in Hr.
  destruct (between_dummies i (Z.lor h 0x8000000000000000) b) as [Hle Hlt];
    [done|done|by rewrite wrap_regular|]. split; [|done].
  destruct (Z.eq_dec (DummyKey b) (RegularKey h)) as [He|]; [|unfold RegularKey in *; lia].
  pose proof (RegularKey_odd h Hh) as Ho. rewrite <- He, DummyKey_even in Ho; [done|].
  pose proof (Z.pow_le_mono_r 2 i 63). lia.
Qed.

Lemma GetBucketParent_spec b : 0 < b < 2 ^ 64 -> GetBucketParent b = wrap (Z.log2 b) b.
Proof.
  intros Hb. pose proof (Z.log2_nonneg b). assert (Z.log2 b < 64) by (apply Z.log2_lt_pow2; lia).
  unfold GetBucketParent, builtin_clzl.
  replace (Z.shiftr 0x8000000000000000 (63 - Z.log2 b)) with (2 ^ Z.log2 b).
  2: { change 0x8000000000000000 with (2 ^ 63). rewrite Z.shiftr_div_pow2, <- Z.pow_sub_r by lia. f_equal. lia. }
  bits_ext j. rewrite Z.land_spec, !wrap_testbit, Z.lnot_spec, Z.pow2_bits_eqb by lia.
  destruct (Z.ltb_spec j (Z.log2 b)).
  - test (j <? 64) is true. by test (Z.log2 b =? j) is false.
  - destruct (Z.eqb_spec (Z.log2 b) j) as [He|]; [by rewrite andb_false_r|].
    rewrite (Z.bits_above_log2 b j) by lia. by rewrite !andb_false_r.
Qed.

(** The parent of a bucket that exists since the table has [2 ^ (i + 1)] buckets. *)
Lemma GetBucketParent_split i c : 0 <= i <= 62 -> 2 ^ i <= c < 2 ^ (i + 1) -> GetBucketParent c = c - 2 ^ i.
Proof.
  intros Hi Hc. pose proof (Z.pow_le_mono_r 2 (i + 1) 63). rewrite GetBucketParent_spec by lia.
  rewrite (Z.log2_unique c i) by lia. unfold wrap. rewrite Z.pow_add_r, Z.pow_1_r in Hc by lia.
  symmetry. apply Z.mod_unique with 1; lia.
Qed.

Lemma GetBucketParent_range b : 0 < b < 2 ^ 64 -> 0 <= GetBucketParent b < b.
Proof.
  intros Hb. rewrite GetBucketParent_spec by lia. pose proof (Z.log2_nonneg b).
  pose proof (wrap_range (Z.log2 b) b). pose proof (Z.log2_spec b). lia.
Qed.

(** The four indices of a bucket tell it from every other one. *)
Lemma level_index_inj b b' :
  0 <= b < kMaxBucketSize -> 0 <= b' < kMaxBucketSize ->
  (forall l, 1 <= l <= 4 -> level_index b l = level_index b' l) -> b = b'.
Proof.
  change kMaxBucketSize with (64 * (64 * (64 * 64))). intros Hb Hb' Hl. pose proof (Hl 1) as H1. pose proof (Hl 2) as H2. pose proof (Hl 3) as H3.
  specialize (Hl 4). unfold level_index in *. change kMaxLevel with 4 in *. change kSegmentSize with 64 in *.
  change (64 ^ (4 - 1)) with (64 * (64 * 64)) in H1. change (64 ^ (4 - 2)) with (64 * 64) in H2.
  change (64 ^ (4 - 3)) with 64 in H3. change (64 ^ (4 - 4)) with 1 in Hl.
  rewrite !Z.div_1_r in Hl. rewrite <- !(Z.div_div _ 64) in * by lia.
  specialize (H1 ltac:(lia)). specialize (H2 ltac:(lia)). specialize (H3 ltac:(lia)). specialize (Hl ltac:(lia)).
  pose proof (Z.div_mod b 64). pose proof (Z.div_mod b' 64).
  pose proof (Z.div_mod (b / 64) 64). pose proof (Z.div_mod (b' / 64) 64).
  pose proof (Z.div_mod (b / 64 / 64) 64). pose proof (Z.div_mod (b' / 64 / 64) 64).
  rewrite !(Z.mod_small (_ / 64 / 64 / 64)) in H1.
  2,3: split; [apply Z.div_pos; [apply Z.div_pos; [apply Z.div_pos; lia|lia]|lia]|];
       rewrite !Z.div_div by lia; apply Z.div_lt_upper_bound; lia.
  lia.
Qed.

Lemma level_index_range b l : 0 <= level_index b l < kSegmentSize.
Proof. apply Z.mod_pos_bound. done. Qed.

(** ** The order of nodes *)

Section Order.
Context (hash_func_ : Z -> Z).

(** A node that a constructor has made, for a hash of 64 bits and a bucket of a table
    of at most 2^63. *)
Definition wf_node (n : node) : Prop :=
  match key_of n with
  | Some key => n = RegularNode hash_func_ key /\ 0 <= hash_func_ key < 2 ^ 64
  | None => n = DummyNode (hash n) /\ 0 <= hash n < 2 ^ 63
  end.

Lemma Less_irrefl n : Less n n = false.
Proof. unfold Less. rewrite Z.eqb_refl. cbn. destruct (key_of n); [apply Z.ltb_irrefl|done]. Qed.

Lemma Less_reverse_hash a b : reverse_hash a < reverse_hash b -> Less a b = true.
Proof. intros H. unfold Less. test (reverse_hash a =? reverse_hash b) is false. cbn. by apply Z.ltb_lt. Qed.

(** Dummy and regular nodes differ in the lowest bit of the reversed hash. *)
Lemma wf_node_parity n : wf_node n -> Z.testbit (reverse_hash n) 0 = negb (IsDummy n).
Proof.
  unfold wf_node, IsDummy. destruct (key_of n) as [key|] eqn:Hk; intros [Hn Hr].
  - rewrite bool_decide_false by done. rewrite Hn. cbn. by apply RegularKey_odd.
  - rewrite bool_decide_true by done. rewrite Hn. cbn. by apply DummyKey_even.
Qed.

(** Neither node is less: they are the same node. *)
Lemma Equals_eq a b : wf_node a -> wf_node b -> Equals a b = true -> a = b.
Proof.
  intros Ha Hb He. pose proof (wf_node_parity a Ha) as Pa. pose proof (wf_node_parity b Hb) as Pb.
  unfold Equals, Less in He.
  destruct (Z.eqb_spec (reverse_hash a) (reverse_hash b)) as [Hr|Hr]; cbn [negb] in He.
  2: { rewrite (Z.eqb_sym (reverse_hash b)) in He. destruct (Z.eqb_spec (reverse_hash a) (reverse_hash b)); [done|].
       cbn [negb] in He. apply andb_true_iff in He as [?%negb_true_iff%Z.ltb_ge ?%negb_true_iff%Z.ltb_ge]. lia. }
  rewrite Hr in Pa. rewrite Pa in Pb. rewrite Hr, Z.eqb_refl in He. cbn [negb] in He.
  unfold IsDummy, wf_node in *. destruct (key_of a) as [k|], (key_of b) as [k'|]; try done.
  - destruct Ha as [-> _], Hb as [-> _]. f_equal.
    apply andb_true_iff in He as [?%negb_true_iff%Z.ltb_ge ?%negb_true_iff%Z.ltb_ge]. lia.
  - destruct Ha as [Ha Ra], Hb as [Hb Rb]. rewrite Ha, Hb in Hr. apply Reverse_inj in Hr; [|lia..]. congruence.
Qed.

Lemma Less_trans a b c : wf_node a -> wf_node b -> wf_node c -> Less a b = true -> Less b c = true -> Less a c = true.
Proof.
  intros Ha%wf_node_parity Hb%wf_node_parity Hc%wf_node_parity. unfold Less, IsDummy in *.
  destruct (Z.eqb_spec (reverse_hash a) (reverse_hash b)) as [Hab|],
    (Z.eqb_spec (reverse_hash b) (reverse_hash c)) as [Hbc|],
    (Z.eqb_spec (reverse_hash a) (reverse_hash c)) as [Hac|]; cbn [negb]; rewrite ?Z.ltb_lt; try lia.
  rewrite Hab, Hbc in Ha. rewrite Hbc in Hb.
  destruct (key_of a), (key_of b), (key_of c); cbn in *; rewrite ?Z.ltb_lt; try lia; congruence.
Qed.

Lemma Less_total a b : wf_node a -> wf_node b -> Less a b = true \/ a = b \/ Less b a = true.
Proof.
  intros Ha Hb. destruct (Less a b) eqn:H1; [by left|]. destruct (Less b a) eqn:H2; [by right; right|].
  right; left. apply Equals_eq; [done..|]. unfold Equals. by rewrite H1, H2.
Qed.

Lemma Less_asym a b : wf_node a -> wf_node b -> Less a b = true -> Less b a = false.
Proof.
  intros Ha Hb H1. destruct (Less b a) eqn:H2; [|done].
  pose proof (Less_trans a b a Ha Hb Ha H1 H2) as H. by rewrite Less_irrefl in H.
Qed.

Lemma wf_DummyNode b : 0 <= b < 2 ^ 63 -> wf_node (DummyNode b).
Proof. by split. Qed.

(** A bucket comes after its parent. *)
Lemma parent_less b : 0 < b < 2 ^ 63 -> Less (DummyNode (GetBucketParent b)) (DummyNode b) = true.
Proof.
  intros Hb. pose proof (Z.log2_nonneg b). assert (Z.log2 b < 63) by (apply Z.log2_lt_pow2; lia).
  apply Less_reverse_hash. cbn. unfold DummyKey. rewrite GetBucketParent_spec by lia.
  apply (Reverse_lt _ _ (Z.log2 b)); [lia| | |by apply Z.bit_log2; lia].
  - intros i Hi. rewrite wrap_testbit by lia. by test (i <? Z.log2 b) is true.
  - rewrite wrap_testbit by lia. by test (Z.log2 b <? Z.log2 b) is false.
Qed.

(** An item comes after the dummy node of its bucket. *)
Lemma bucket_less i key :
  0 <= i <= 63 -> 0 <= hash_func_ key < 2 ^ 64 -> Less (DummyNode (wrap i (hash_func_ key))) (RegularNode hash_func_ key) = true.
Proof. intros Hi Hh. apply Less_reverse_hash. destruct (regular_in_bucket i _ _ Hi Hh eq_refl) as [H _]. exact H. Qed.

Lemma wf_RegularNode key : 0 <= hash_func_ key < 2 ^ 64 -> wf_node (RegularNode hash_func_ key).
Proof. by split. Qed.

End Order.

(** ** The theorem *)

(** C5. The order of the list fits every size of the table. In a table of [2 ^ i] buckets,
    an item follows the dummy node of its bucket and precedes that of every bucket that
    comes later; when the size doubles, a new bucket follows its parent, the old bucket
    with the same low bits, and precedes the later old buckets, so that no item moves. *)
Theorem split_ordering i h b' :
  0 <= i <= 62 -> 0 <= h < 2 ^ 64 -> 0 <= b' < 2 ^ i ->
  let b := bucket_of_hash h (2 ^ i) in
  0 <= b < 2 ^ i /\ DummyKey b < RegularKey h /\ (DummyKey b < DummyKey b' -> RegularKey h < DummyKey b') /\
  forall c, 2 ^ i <= c < 2 ^ (i + 1) ->
    GetBucketParent c = c - 2 ^ i /\ DummyKey (GetBucketParent c) < DummyKey c /\
    (DummyKey (GetBucketParent c) < DummyKey b' -> DummyKey c < DummyKey b').
Proof.
  intros Hi Hh Hb'. cbn zeta. rewrite bucket_of_hash_mod by lia. split; [apply wrap_range; lia|].
  destruct (regular_in_bucket i h _ ltac:(lia) Hh eq_refl) as [H1 H2]. split; [done|]. split; [by apply H2|].
  intros c Hc. pose proof (Z.pow_le_mono_r 2 (i + 1) 63 ltac:(lia) ltac:(lia)) as H63.
  rewrite (GetBucketParent_split i c Hi Hc). split; [done|].
  rewrite Z.pow_add_r, Z.pow_1_r in Hc, H63 by lia.
  destruct (between_dummies i c (c - 2 ^ i)) as [Hle Hlt]; [lia|lia| |].
  { unfold wrap. symmetry. apply Z.mod_unique with 1; lia. }
  split; [|by apply Hlt]. assert (DummyKey (c - 2 ^ i) <> DummyKey c); [|unfold DummyKey in *; lia].
  intros He%Reverse_inj; lia.
Qed.

Lemma split_ordering_witness :
  DummyKey 1 < RegularKey 5 /\ RegularKey 5 < DummyKey 3.
Proof.
  destruct (split_ordering 2 5 3 ltac:(lia) ltac:(lia) ltac:(lia)) as (_ & H1 & H2 & _).
  split; [exact H1|]. apply H2. vm_compute. reflexivity.
Defined.
