(* ===== verification/Atomic.v ===== *)
(** Programs of atomic actions, for the lock-free code of core/util: the shared memory of
    objects and atomic variables, what an action does, and threads that interleave.
    Actions are sequentially consistent. A program is a tree of actions, with the local
    variables of a thread in its continuations; a loop that is out of fuel takes no
    further step, so that an execution of the code is an execution of the program for
    some fuel. *)
From S2P Require Import Prelude Words Outcome SplitOrder.

(** ** Memory *)

(** The atomic variables: members of nodes, the segments and buckets of the table, its
    scalars, and the hazard pointers with their list. *)
Inductive loc :=
| Next (a : Z) | Value (a : Z)
| Top (i : Z) | Data (a i : Z) | BucketAt (a i : Z)
| PowerOf2 | Size
| HpHead | HpSize | HpFlag (a : Z) | HpPtr (a : Z) | HpNext (a : Z).

#[export] Instance loc_eq_dec : EqDecision loc.
Proof. solve_decision. Defined.

#[export] Instance loc_countable : Countable loc.
Proof.
  refine (inj_countable'
    (fun l => match l with
      | Next a => (0, a, 0) | Value a => (1, a, 0) | Top i => (2, i, 0) | Data a i => (3, a, i)
      | BucketAt a i => (4, a, i) | PowerOf2 => (5, 0, 0) | Size => (6, 0, 0) | HpHead => (7, 0, 0)
      | HpSize => (8, 0, 0) | HpFlag a => (9, a, 0) | HpPtr a => (10, a, 0) | HpNext a => (11, a, 0) end)
    (fun x => match x with
      | (0, a, _) => Next a | (1, a, _) => Value a | (2, i, _) => Top i | (3, a, i) => Data a i
      | (4, a, i) => BucketAt a i | (5, _, _) => PowerOf2 | (6, _, _) => Size | (7, _, _) => HpHead
      | (8, _, _) => HpSize | (9, a, _) => HpFlag a | (10, a, _) => HpPtr a | (_, a, _) => HpNext a end) _).
  by intros [].
Defined.

(** The segments and buckets come in arrays of [kSegmentSize]. *)
Definition indices : list Z := Z.of_nat <$> seq 0 64.

Section Atomic.
Context {V : Type}.

(** What [new] makes. *)
Inductive obj :=
| ONode (n : node)
| OValue (v : V)
| OSegments (level : Z)
| OBuckets
| OHazard.

(** The atomic members of an object at [a]. *)
Definition members (a : Z) (o : obj) : list loc :=
  match o with
  | ONode n => if IsDummy n then [Next a] else [Next a; Value a]
  | OValue _ => []
  | OSegments _ => Data a <$> indices
  | OBuckets => BucketAt a <$> indices
  | OHazard => [HpFlag a; HpPtr a; HpNext a]
  end.

Record shared := MkShared { objs : gmap Z obj; atoms : gmap loc Z }.

Definition set_atom (l : loc) (x : Z) (s : shared) : shared := MkShared (objs s) (<[l := x]> (atoms s)).

(** An address that [new] may return: aligned, and not of a live object. *)
Definition available (a : Z) (s : shared) : bool :=
  (0 <? a) && (a <? 2 ^ 64) && (a mod 16 =? 0) && bool_decide (objs s !! a = None).

(** A new object; its atomic members are null. *)
Definition allocate (a : Z) (o : obj) (s : shared) : shared :=
  MkShared (<[a := o]> (objs s)) (foldr (fun l => <[l := 0]>) (atoms s) (members a o)).

Definition deallocate (a : Z) (o : obj) (s : shared) : shared :=
  MkShared (delete a (objs s)) (foldr delete (atoms s) (members a o)).

(** ** Actions *)

(** [Fields] reads the constant members of a node, [Deref] a value. [Delete] tells who
    deletes: the reclaimer, or the thread that still owns the object. *)
Inductive act : Type -> Type :=
| Load (l : loc) : act Z
| Store (l : loc) (x : Z) : act ()
| Cas (weak : bool) (l : loc) (expected desired : Z) : act (bool * Z)
| Exchange (l : loc) (x : Z) : act Z
| FetchAdd (width : Z) (l : loc) (d : Z) : act Z
| New (o : obj) : act Z
| Delete (retired : bool) (a : Z) : act ()
| Fields (a : Z) : act node
| Deref (a : Z) : act V.

(** What an action does. The choice [c] is the address of a new object; a weak
    compare-and-exchange fails spuriously if it is not 0. Memory that is not there is a
    fault. *)
Definition exec {X} (e : act X) (c : Z) (s : shared) : outcome (X * shared) :=
  match e in act X return outcome (X * shared) with
  | Load l => x ← deref (atoms s !! l); Ok (x, s)
  | Store l x => _ ← deref (atoms s !! l); Ok ((), set_atom l x s)
  | Cas weak l expected desired =>
    x ← deref (atoms s !! l);
    if (x =? expected) && negb (weak && negb (c =? 0)) then Ok ((true, expected), set_atom l desired s)
    else Ok ((false, x), s)
  | Exchange l x => y ← deref (atoms s !! l); Ok (y, set_atom l x s)
  | FetchAdd width l d => x ← deref (atoms s !! l); Ok (x, set_atom l (wrap width (x + d)) s)
  | New o => Ok (c, allocate c o s)
  | Delete _ a => o ← deref (objs s !! a); Ok ((), deallocate a o s)
  | Fields a => o ← deref (objs s !! a); match o with ONode n => Ok (n, s) | _ => Fault end
  | Deref a => o ← deref (objs s !! a); match o with OValue v => Ok (v, s) | _ => Fault end
  end.

(** The choices that an action has. *)
Definition enabled {X} (e : act X) (c : Z) (s : shared) : bool :=
  match e with New _ => available c s | _ => true end.

(** ** Programs *)

Inductive prog (A : Type) : Type :=
| Ret (a : A)
| Act {X : Type} (e : act X) (k : X -> prog A)
| Fail
| Bad
| Hang.
#[global] Arguments Ret {A}.
#[global] Arguments Act {A X}.
#[global] Arguments Fail {A}.
#[global] Arguments Bad {A}.
#[global] Arguments Hang {A}.

Fixpoint bind {A B} (p : prog A) (f : A -> prog B) : prog B :=
  match p with
  | Ret a => f a
  | Act e k => Act e (fun x => bind (k x) f)
  | Fail => Fail
  | Bad => Bad
  | Hang => Hang
  end.

(** ** Threads *)

Record config (A : Type) := MkConfig { memory_of : shared; threads : list (prog A) }.
#[global] Arguments MkConfig {A}.
#[global] Arguments memory_of {A}.
#[global] Arguments threads {A}.

(** The next action of thread [t]. A thread that is at its end, or for whose action the
    choice is not one, does nothing. *)
Definition step {A} (t : nat) (c : Z) (g : config A) : outcome (config A) :=
  match threads g !! t with
  | Some (Act e k) =>
    if enabled e c (memory_of g) then
      '(x, s) ← exec e c (memory_of g);
      Ok (MkConfig s (<[t := k x]> (threads g)))
    else Ok g
  | Some Fail => Exit
  | Some Bad => Fault
  | _ => Ok g
  end.

(** A schedule says which thread goes on, and with which choice. *)
Fixpoint run {A} (schedule : list (nat * Z)) (g : config A) : outcome (config A) :=
  match schedule with
  | [] => Ok g
  | (t, c) :: schedule => g ← step t c g; run schedule g
  end.

(** ** One thread alone *)

(** [malloc] chooses the addresses; nothing fails spuriously. *)
Fixpoint alone (malloc : shared -> Z) {A} (p : prog A) (s : shared) : outcome (A * shared) :=
  match p with
  | Ret a => Ok (a, s)
  | Act e k =>
    '(x, s) ← exec e (match e with New _ => malloc s | _ => 0 end) s;
    alone malloc (k x) s
  | Fail => Exit
  | Bad => Fault
  | Hang => OutOfFuel
  end.

Lemma alone_bind malloc {A B} (p : prog A) (f : A -> prog B) s :
  alone malloc (bind p f) s = '(a, s) ← alone malloc p s; alone malloc (f a) s.
Proof.
  revert s. induction p as [a|X e k IH| | |]; intros s; cbn; try done.
  destruct (exec e _ s) as [[x s']| | |]; cbn; [apply IH|done..].
Qed.

End Atomic.
#[global] Arguments obj : clear implicits.
#[global] Arguments shared : clear implicits.
#[global] Arguments act : clear implicits.
#[global] Arguments prog : clear implicits.
#[global] Arguments config : clear implicits.
