(* ===== verification/Hazard.v ===== *)
(** Hazard pointers (core/util/hazard_pointer.h) as programs of atomic actions. A thread
    has a [Reclaimer]: the hazard pointers that it has taken from the global list, and
    the objects that it is to delete once no hazard pointer shows them. *)
From S2P Require Import Prelude Words Outcome SplitOrder Atomic.

(** ** The reclaimer of a thread *)

Definition kCoefficient : Z := 4 + 1 / 4.
Definition HP_INDEX_NULL : Z := -1.

(** The two functions that the table passes to [ReclaimLater]. *)
Inductive deleter := OnDeleteNode | delete_value.

Record ReclaimNode := MkReclaimNode { rn_ptr : Z; delete_func : option deleter }.

(** [ReclaimPool]: the nodes from [head] on. *)
Definition ReclaimPool : Type := list ReclaimNode.

Definition new_ReclaimNode : ReclaimNode := MkReclaimNode 0 None.
Definition new_ReclaimPool : ReclaimPool := [new_ReclaimNode].

Definition Push (n : ReclaimNode) (pool : ReclaimPool) : ReclaimPool := n :: pool.

(** The pool keeps its last node. *)
Definition Pop (pool : ReclaimPool) : option (ReclaimNode * ReclaimPool) :=
  match pool with
  | [] => None
  | [_] => Some (new_ReclaimNode, pool)
  | n :: pool => Some (n, pool)
  end.

Record Reclaimer := MkReclaimer {
  hp_list_ : list Z;
  reclaim_map_ : gmap Z ReclaimNode;
  reclaim_pool_ : ReclaimPool
}.

Definition new_Reclaimer : Reclaimer := MkReclaimer [] ∅ new_ReclaimPool.

(** ** Programs of a thread *)

Section Hazard.
Context {V : Type}.

(** A program that has the thread's reclaimer as its state. *)
Definition thread (A : Type) : Type := Reclaimer -> prog V (A * Reclaimer).

#[export] Instance thread_ret : MRet thread := fun A a r => Ret (a, r).
#[export] Instance thread_bind : MBind thread := fun A B f m r => bind (m r) (fun '(a, r) => f a r).

Definition reclaimer : thread Reclaimer := fun r => Ret (r, r).
Definition set_reclaimer (r : Reclaimer) : thread () := fun _ => Ret ((), r).
Definition atomically {X} (e : act V X) : thread X := fun r => Act e (fun x => Ret (x, r)).
Definition fail {A} : thread A := fun _ => Fail.
Definition bad {A} : thread A := fun _ => Bad.
Definition hang {A} : thread A := fun _ => Hang.
Definition assertT (b : bool) : thread () := if b then mret () else fail.

Definition load (l : loc) : thread Z := atomically (Load l).
Definition store (l : loc) (x : Z) : thread () := atomically (Store l x).

(** Of the global list of hazard pointers; [size] is an [int]. *)
Definition get_size : thread Z := n ← load HpSize; mret (wrap 64 (to_signed 32 n)).

(** Every loop may take [fuel] rounds. *)
Context (fuel : nat).

(** ** Marking *)

Definition hp_at (index : Z) : thread Z :=
  r ← reclaimer;
  assertT ((0 <=? index) && (wrap 64 index <? Z.of_nat (length (hp_list_ r))));;
  match hp_list_ r !! Z.to_nat index with Some h => mret h | None => bad end.

Definition UnMarkHazard (index : Z) : thread () :=
  if index =? HP_INDEX_NULL then mret () else
  h ← hp_at index;
  store (HpPtr h) 0.

Definition GetHazardPtr (index : Z) : thread Z :=
  if index =? HP_INDEX_NULL then mret 0 else
  h ← hp_at index;
  load (HpPtr h).

(** The first hazard pointer of the list from [p] on that nobody has. *)
Fixpoint idle_loop (n : nat) (p : Z) : thread Z :=
  match n with
  | O => hang
  | S n =>
    taken ← atomically (Exchange (HpFlag p) 1);
    if taken =? 0 then mret p else
    p ← load (HpNext p);
    if p =? 0 then mret 0 else idle_loop n p
  end.

Fixpoint push_loop (n : nat) (new_head old_head : Z) : thread () :=
  match n with
  | O => hang
  | S n =>
    store (HpNext new_head) old_head;;
    '(done, old_head) ← atomically (Cas true HpHead old_head new_head);
    if (done : bool) then mret () else push_loop n new_head old_head
  end.

Definition TryAcquireHazardPointer : thread () :=
  p ← load HpHead;
  hp ← idle_loop fuel p;
  hp ← (if hp =? 0 then
    new_head ← atomically (New OHazard);
    atomically (Exchange (HpFlag new_head) 1);;
    atomically (FetchAdd 32 HpSize 1);;
    old_head ← load HpHead;
    push_loop fuel new_head old_head;;
    mret new_head
  else mret hp);
  r ← reclaimer;
  set_reclaimer (MkReclaimer (hp_list_ r ++ [hp]) (reclaim_map_ r) (reclaim_pool_ r)).

(** The loop of [MarkHazard] over the thread's hazard pointers from index [i] on. *)
Fixpoint mark_loop (i : Z) (l : list Z) (ptr : Z) : thread (option Z) :=
  match l with
  | [] => mret None
  | h :: l =>
    p ← load (HpPtr h);
    if p =? 0 then store (HpPtr h) ptr;; mret (Some i) else mark_loop (i + 1) l ptr
  end.

Definition MarkHazard (ptr : Z) : thread Z :=
  if ptr =? 0 then mret HP_INDEX_NULL else
  r ← reclaimer;
  i ← mark_loop 0 (hp_list_ r) ptr;
  match i with
  | Some i => mret i
  | None =>
    TryAcquireHazardPointer;;
    r ← reclaimer;
    let index := Z.of_nat (length (hp_list_ r)) - 1 in
    h ← hp_at index;
    store (HpPtr h) ptr;;
    mret index
  end.

(** ** Reclaiming *)

Definition ReclaimLater (ptr : Z) (func : deleter) : thread () :=
  r ← reclaimer;
  match Pop (reclaim_pool_ r) with
  | None => bad
  | Some (_, pool) =>
    let new_node := MkReclaimNode ptr (Some func) in
    set_reclaimer (MkReclaimer (hp_list_ r)
      (if reclaim_map_ r !! ptr then reclaim_map_ r else <[ptr := new_node]> (reclaim_map_ r)) pool)
  end.

(** [delete] of a node: the destructor of a regular node deletes its value. *)
Definition delete_node (retired : bool) (a : Z) : thread () :=
  n ← atomically (Fields a);
  (if IsDummy n then mret () else
   ptr ← load (Value a);
   if ptr =? 0 then mret () else atomically (Delete retired ptr));;
  atomically (Delete retired a).

Definition call_delete (n : ReclaimNode) : thread () :=
  match delete_func n with
  | Some OnDeleteNode => delete_node true (rn_ptr n)
  | Some delete_value => atomically (Delete true (rn_ptr n))
  | None => bad
  end.

(** What the hazard pointers of the list from [p] on show. *)
Fixpoint scan_loop (n : nat) (p : Z) (not_allow_delete_set : gset Z) : thread (gset Z) :=
  match n with
  | O => hang
  | S n =>
    ptr ← load (HpPtr p);
    let s := if ptr =? 0 then not_allow_delete_set else {[ ptr ]} ∪ not_allow_delete_set in
    p ← load (HpNext p);
    if p =? 0 then mret s else scan_loop n p s
  end.

Fixpoint reclaim_loop (l : list (Z * ReclaimNode)) (not_allow_delete_set : gset Z) : thread () :=
  match l with
  | [] => mret ()
  | (ptr, node) :: l =>
    if bool_decide (ptr ∈ not_allow_delete_set) then reclaim_loop l not_allow_delete_set else
    call_delete node;;
    r ← reclaimer;
    set_reclaimer (MkReclaimer (hp_list_ r) (delete ptr (reclaim_map_ r)) (Push node (reclaim_pool_ r)));;
    reclaim_loop l not_allow_delete_set
  end.

(** The order of an unordered map is not specified; here it is that of [map_to_list]. *)
Definition ReclaimNoHazardPointer : thread () :=
  r ← reclaimer;
  n ← get_size;
  if Z.of_nat (size (reclaim_map_ r)) <? wrap 64 (kCoefficient * n) then mret () else
  p ← load HpHead;
  s ← scan_loop fuel p ∅;
  reclaim_loop (map_to_list (reclaim_map_ r)) s.

(** ** The end of a thread *)

Fixpoint hazard_loop (n : nat) (p ptr : Z) : thread bool :=
  match n with
  | O => hang
  | S n =>
    x ← load (HpPtr p);
    if x =? ptr then mret true else
    p ← load (HpNext p);
    if p =? 0 then mret false else hazard_loop n p ptr
  end.

Definition Hazard (ptr : Z) : thread bool := p ← load HpHead; hazard_loop fuel p ptr.

Fixpoint hand_over (l : list Z) : thread () :=
  match l with
  | [] => mret ()
  | h :: l =>
    p ← load (HpPtr h);
    assertT (p =? 0);;
    store (HpFlag h) 0;;
    hand_over l
  end.

Fixpoint await_no_hazard (n : nat) (ptr : Z) : thread () :=
  match n with
  | O => hang
  | S n => h ← Hazard ptr; if (h : bool) then await_no_hazard n ptr else mret ()
  end.

Fixpoint reclaim_all (l : list (Z * ReclaimNode)) : thread () :=
  match l with
  | [] => mret ()
  | (ptr, node) :: l =>
    await_no_hazard fuel ptr;;
    call_delete node;;
    r ← reclaimer;
    set_reclaimer (MkReclaimer (hp_list_ r) (delete ptr (reclaim_map_ r)) (reclaim_pool_ r));;
    reclaim_all l
  end.

(** [~Reclaimer]. *)
Definition Reclaimer_delete : thread () :=
  r ← reclaimer;
  hand_over (hp_list_ r);;
  reclaim_all (map_to_list (reclaim_map_ r)).

End Hazard.
#[global] Arguments thread : clear implicits.
