(* ===== verification/Ct.v ===== *)
(** The lock-free table (core/util/ct.h) as programs of atomic actions: a sorted list of
    nodes with marked references, buckets that are found through a tree of segments, and
    a number of buckets that doubles. *)
From S2P Require Import Prelude Words Outcome SplitOrder Atomic Hazard.

Section Ct.
Context {V : Type} (hash_func_ : Z -> Z) (fuel : nat).

Abbreviation T := (thread V).

(** ** The tree of segments *)

(** [segments[i].data], in the array of the table itself or in an allocated one. *)
Definition data_of (segments : option Z) (i : Z) : loc :=
  match segments with None => Top i | Some a => Data a i end.

Definition NewSegments (level : Z) : T Z := atomically (New (OSegments level)).
Definition NewBuckets : T Z := atomically (New OBuckets).

(** The loop over the inner levels; null if a segment is missing. *)
Fixpoint find_segments (levels : list Z) (segments : option Z) (bucket_index : Z) : T (option Z) :=
  match levels with
  | [] => mret segments
  | level :: levels =>
    sub ← load (data_of segments (level_index bucket_index level));
    if sub =? 0 then mret (Some 0) else find_segments levels (Some sub) bucket_index
  end.

Definition inner_levels : list Z := [1; 2].

Definition GetBucketHeadByIndex (bucket_index : Z) : T Z :=
  segments ← find_segments inner_levels None bucket_index;
  if bool_decide (segments = Some 0) then mret 0 else
  buckets ← load (data_of segments (level_index bucket_index 3));
  if buckets =? 0 then mret 0 else
  load (BucketAt buckets (level_index bucket_index 4)).

(** A member that is null is set to [new]; [new] is deleted if another thread was faster. *)
Definition publish (l : loc) (new : Z) : T Z :=
  '(done, expected) ← atomically (Cas false l 0 new);
  if (done : bool) then mret new else atomically (Delete false new);; mret expected.

Fixpoint make_segments (levels : list Z) (segments : option Z) (bucket_index : Z) : T (option Z) :=
  match levels with
  | [] => mret segments
  | level :: levels =>
    let data := data_of segments (level_index bucket_index level) in
    sub ← load data;
    sub ← (if sub =? 0 then new ← NewSegments (level + 1); publish data new else mret sub);
    make_segments levels (Some sub) bucket_index
  end.

(** ** Searching *)

Definition get_next (a : Z) : T Z := load (Next a).

(** The places where [SearchNode] can go on: the label [try_again], or the loop with
    [prev] and [cur]. *)
Inductive search_state := try_again | looking (prev cur : Z).

Record found_at := MkFound { found : bool; prev : Z; cur : Z; prev_hp : Z; cur_hp : Z }.

Fixpoint search_loop (n : nat) (head : Z) (search_node : node) (at_ : search_state) (prev_hp cur_hp : Z) :
    T found_at :=
  match n with
  | O => hang
  | S n =>
    '(prev, cur) ← (match at_ with
      | try_again => cur ← get_next head; mret (head, cur)
      | looking prev cur => mret (prev, cur)
      end);
    UnMarkHazard cur_hp;;
    cur_hp ← MarkHazard fuel cur;
    c ← get_next prev;
    if negb (c =? cur) then search_loop n head search_node try_again prev_hp cur_hp else
    if cur =? 0 then mret (MkFound false prev cur prev_hp cur_hp) else
    next ← get_next cur;
    if is_marked_reference next then
      '(done, _) ← atomically (Cas false (Next prev) cur (get_unmarked_reference next));
      if negb done then search_loop n head search_node try_again prev_hp cur_hp else
      ReclaimLater cur OnDeleteNode;;
      ReclaimNoHazardPointer fuel;;
      atomically (FetchAdd 64 Size (-1));;
      search_loop n head search_node (looking prev (get_unmarked_reference next)) prev_hp cur_hp
    else
      c ← get_next prev;
      if negb (c =? cur) then search_loop n head search_node try_again prev_hp cur_hp else
      x ← atomically (Fields cur);
      if GreaterOrEquals x search_node then mret (MkFound (Equals x search_node) prev cur prev_hp cur_hp) else
      search_loop n head search_node (looking cur next) cur_hp prev_hp
  end.

Definition SearchNode (head : Z) (search_node : node) (prev_hp cur_hp : Z) : T found_at :=
  search_loop fuel head search_node try_again prev_hp cur_hp.

(** The destructors of [cur_hp] and [prev_hp]. *)
Definition unmark (f : found_at) : T () := UnMarkHazard (cur_hp f);; UnMarkHazard (prev_hp f).

(** ** Buckets *)

(** [true] and the new head, or [false] and the one that is there. *)
Fixpoint insert_dummy_loop (n : nat) (parent_head new_head : Z) (x : node) (prev_hp cur_hp : Z) : T (bool * Z) :=
  match n with
  | O => hang
  | S n =>
    f ← SearchNode parent_head x prev_hp cur_hp;
    if found f then unmark f;; mret (false, cur f) else
    store (Next new_head) (cur f);;
    '(done, _) ← atomically (Cas true (Next (prev f)) (cur f) new_head);
    if (done : bool) then unmark f;; mret (true, new_head)
    else insert_dummy_loop n parent_head new_head x (Ct.prev_hp f) (Ct.cur_hp f)
  end.

Definition InsertDummyNode (parent_head new_head : Z) (x : node) : T (bool * Z) :=
  insert_dummy_loop fuel parent_head new_head x HP_INDEX_NULL HP_INDEX_NULL.

(** The part of [InitializeBucket] after the recursive call. *)
Definition initialize_with (bucket_index parent_head : Z) : T Z :=
  segments ← make_segments inner_levels None bucket_index;
  let data := data_of segments (level_index bucket_index 3) in
  buckets ← load data;
  buckets ← (if buckets =? 0 then new ← NewBuckets; publish data new else mret buckets);
  let bucket := BucketAt buckets (level_index bucket_index 4) in
  head ← load bucket;
  if negb (head =? 0) then mret head else
  let x := DummyNode bucket_index in
  head ← atomically (New (ONode x));
  '(inserted, real_head) ← InsertDummyNode parent_head head x;
  if (inserted : bool) then store bucket head;; mret head
  else delete_node false head;; mret real_head.

(** The parent has fewer bits, so [n = 64] calls are enough for every index. The leading
    zeros of 0 are undefined. *)
Fixpoint InitializeBucket (n : nat) (bucket_index : Z) : T Z :=
  match n with
  | O => hang
  | S n =>
    if bucket_index =? 0 then bad else
    let parent_index := GetBucketParent bucket_index in
    parent_head ← GetBucketHeadByIndex parent_index;
    parent_head ← (if parent_head =? 0 then InitializeBucket n parent_index else mret parent_head);
    initialize_with bucket_index parent_head
  end.

(** [1 << power] on [int], converted to [size_t]. *)
Definition shift_1 (power : Z) : T Z := if power <? 31 then mret (Z.shiftl 1 power) else bad.

Definition bucket_size : T Z := power ← load PowerOf2; shift_1 power.

Definition GetBucketHeadByHash (hash : Z) : T Z :=
  n ← bucket_size;
  let bucket_index := bucket_of_hash hash n in
  head ← GetBucketHeadByIndex bucket_index;
  if head =? 0 then InitializeBucket 64 bucket_index else mret head.

(** ** Operations *)

(** The conversion of an integer to [float]: 24 bits, to nearest, ties to even. *)
Definition to_float (x : Z) : Z :=
  if x <? 2 ^ 24 then x else
  let e := Z.log2 x - 23 in
  let q := x / 2 ^ e in
  let r := x mod 2 ^ e in
  2 ^ e * (if (2 * r <? 2 ^ e) || ((2 * r =? 2 ^ e) && Z.even q) then q else q + 1).

(** [(1 << power) * 0.5 < size]. *)
Definition overloaded (buckets size : Z) : bool := to_float buckets <? 2 * to_float size.

(** After a new node: the size, and twice as many buckets if they are overloaded. *)
Definition grow : T () :=
  old ← atomically (FetchAdd 64 Size 1);
  let size := wrap 64 (old + 1) in
  power ← load PowerOf2;
  buckets ← shift_1 power;
  if overloaded buckets size then
    '(done, _) ← atomically (Cas false PowerOf2 power (power + 1));
    if (done : bool) then n ← bucket_size; assertT (n <=? kMaxBucketSize) else mret ()
  else mret ().

Fixpoint insert_loop (n : nat) (head new_node : Z) (x : node) (prev_hp cur_hp : Z) : T bool :=
  match n with
  | O => hang
  | S n =>
    f ← SearchNode head x prev_hp cur_hp;
    if found f then
      new_value ← load (Value new_node);
      old_value ← atomically (Exchange (Value (cur f)) new_value);
      ReclaimLater old_value delete_value;;
      store (Value new_node) 0;;
      delete_node false new_node;;
      unmark f;; mret false
    else
      store (Next new_node) (cur f);;
      '(done, _) ← atomically (Cas true (Next (prev f)) (cur f) new_node);
      if (done : bool) then grow;; unmark f;; mret true
      else insert_loop n head new_node x (Ct.prev_hp f) (Ct.cur_hp f)
  end.

Definition InsertRegularNode (head new_node : Z) (x : node) : T bool :=
  insert_loop fuel head new_node x HP_INDEX_NULL HP_INDEX_NULL.

Definition Insert (key : Z) (value : V) : T bool :=
  let x := RegularNode hash_func_ key in
  new_node ← atomically (New (ONode x));
  v ← atomically (New (OValue value));
  store (Value new_node) v;;
  head ← GetBucketHeadByHash (hash x);
  InsertRegularNode head new_node x.

(** The two loops of [DeleteNode]: a node that this thread has marked, and its successor. *)
Fixpoint mark_node_loop (n : nat) (head : Z) (x : node) (prev_hp cur_hp : Z) : T (found_at * Z) :=
  match n with
  | O => hang
  | S n =>
    f ← SearchNode head x prev_hp cur_hp;
    if negb (found f) then mret (f, 0) else
    next ← get_next (cur f);
    if is_marked_reference next then mark_node_loop n head x (Ct.prev_hp f) (Ct.cur_hp f) else
    '(done, _) ← atomically (Cas true (Next (cur f)) next (get_marked_reference next));
    if (done : bool) then mret (f, next) else mark_node_loop n head x (Ct.prev_hp f) (Ct.cur_hp f)
  end.

Definition DeleteNode (head : Z) (x : node) : T bool :=
  '(f, next) ← mark_node_loop fuel head x HP_INDEX_NULL HP_INDEX_NULL;
  if negb (found f) then unmark f;; mret false else
  '(done, _) ← atomically (Cas false (Next (prev f)) (cur f) next);
  if (done : bool) then
    atomically (FetchAdd 64 Size (-1));;
    ReclaimLater (cur f) OnDeleteNode;;
    ReclaimNoHazardPointer fuel;;
    unmark f;; mret true
  else
    UnMarkHazard (prev_hp f);;
    UnMarkHazard (cur_hp f);;
    f ← SearchNode head x (prev_hp f) (cur_hp f);
    unmark f;; mret true.

Definition Delete (key : Z) : T bool :=
  let hash := hash_func_ key in
  head ← GetBucketHeadByHash hash;
  DeleteNode head (RegularNode hash_func_ key).

(** [do { ... } while (temp != value_ptr)]. *)
Fixpoint read_value_loop (n : nat) (cur : Z) : T Z :=
  match n with
  | O => hang
  | S n =>
    temp ← load (Value cur);
    value_ptr ← load (Value cur);
    if negb (temp =? value_ptr) then read_value_loop n cur else mret value_ptr
  end.

(** The value, if the key was found. *)
Definition FindNode (head : Z) (x : node) : T (option V) :=
  f ← SearchNode head x HP_INDEX_NULL HP_INDEX_NULL;
  if found f then
    value_ptr ← read_value_loop fuel (cur f);
    ReclaimNoHazardPointer fuel;;
    v ← atomically (Deref value_ptr);
    unmark f;; mret (Some v)
  else unmark f;; mret None.

Definition Find (key : Z) : T (option V) :=
  let hash := hash_func_ key in
  head ← GetBucketHeadByHash hash;
  FindNode head (RegularNode hash_func_ key).

Definition size : T Z := load Size.

(** ** Construction and destruction *)

(** The loop of the constructor over the levels 2 and 3. *)
Fixpoint first_segments (levels : list Z) (segments : option Z) : T (option Z) :=
  match levels with
  | [] => mret segments
  | level :: levels =>
    sub ← NewSegments level;
    store (data_of segments 0) sub;;
    first_segments levels (Some sub)
  end.

(** [CT()], whose members are there and initialized: [head_]. *)
Definition CT : T Z :=
  segments ← first_segments [2; 3] None;
  buckets ← NewBuckets;
  store (data_of segments 0) buckets;;
  head ← atomically (New (ONode (DummyNode 0)));
  store (BucketAt buckets 0) head;;
  mret head.

(** [Release] of the nodes from [p] on. *)
Fixpoint release_loop (n : nat) (p : Z) : T () :=
  if p =? 0 then mret () else
  match n with
  | O => hang
  | S n => next ← get_next p; delete_node false p;; release_loop n next
  end.

(** [~Segment] of a segment whose data is at [l]; [n] levels of segments are below it. *)
Fixpoint delete_segment (n : nat) (l : loc) : T () :=
  ptr ← load l;
  if ptr =? 0 then mret () else
  match n with
  | O => atomically (Atomic.Delete false ptr)
  | S n =>
    foldr (fun i k => delete_segment n (Data ptr i);; k) (mret ()) (rev indices);;
    atomically (Atomic.Delete false ptr)
  end.

(** [~CT]: the nodes, then the member [segments_]. *)
Definition CT_delete (head_ : Z) : T () :=
  release_loop fuel head_;;
  foldr (fun i k => delete_segment 2 (Top i);; k) (mret ()) (rev indices).

(** ** Clients *)

Inductive request := RInsert (key : Z) (value : V) | RDelete (key : Z) | RFind (key : Z) | RSize.
Inductive answer := AInsert (b : bool) | ADelete (b : bool) | AFind (v : option V) | ASize (n : Z).

Definition serve (q : request) : T answer :=
  match q with
  | RInsert key value => b ← Insert key value; mret (AInsert b)
  | RDelete key => b ← Delete key; mret (ADelete b)
  | RFind key => v ← Find key; mret (AFind v)
  | RSize => n ← size; mret (ASize n)
  end.

Fixpoint serve_all (l : list request) : T (list answer) :=
  match l with
  | [] => mret []
  | q :: l => a ← serve q; l ← serve_all l; mret (a :: l)
  end.

(** A thread that serves requests and ends. *)
Definition thread_main (l : list request) : prog V (list answer) :=
  bind ((a ← serve_all l; Reclaimer_delete fuel;; mret a) new_Reclaimer) (fun '(a, _) => Ret a).

End Ct.
#[global] Arguments request : clear implicits.
#[global] Arguments answer : clear implicits.

(** ** The first state *)

Section Init.
Context {V : Type}.

(** Static and member variables before the constructors have run: [power_of_2_] is 1,
    and the list of hazard pointers has one, at [hp]. Its flag is not initialized by the
    constructor before C++20; it is an argument. *)
Definition static_memory (hp flag : Z) : shared V :=
  MkShared {[ hp := OHazard ]}
    (<[PowerOf2 := 1]> (<[Size := 0]> (<[HpHead := hp]> (<[HpSize := 0]>
      (<[HpFlag hp := flag]> (<[HpPtr hp := 0]> (<[HpNext hp := 0]>
        (foldr (fun i => <[Top i := 0]>) ∅ indices)))))))).

End Init.
