(* ===== verification/CtWorld.v ===== *)
(** The lock-free table under interleavings: what holds in every state (the invariant),
    what a thread may rely on while others act (the frame), and when a program is safe
    under these. A world is a state of the memory with what the proofs know about it:
    the list of nodes, the role of each object, and the log of the changes of the map. *)
From stdpp Require Import sorting.
From S2P Require Import Prelude Words Outcome SplitOrder Atomic Hazard Ct.

(** ** The log *)

Section World.
Context {V : Type}.

(** What a thread does to the map. A value that is put into a node that is already removed
    comes too late: the map does not change, as if it had been replaced just before. *)
Inductive change := Added (key : Z) (v : V) | Replaced (key : Z) (v : V) | Removed (key : Z) | Late (key : Z) (v : V).

Definition changed_key (c : change) : Z :=
  match c with Added k _ | Replaced k _ | Removed k | Late k _ => k end.

Definition apply_change (m : gmap Z V) (c : change) : gmap Z V :=
  match c with
  | Added k v | Replaced k v => <[k := v]> m
  | Removed k => delete k m
  | Late _ _ => m
  end.

Definition replay (l : list (nat * change)) : gmap Z V := foldl (fun m e => apply_change m (snd e)) ∅ l.

Lemma replay_snoc l e : replay (l ++ [e]) = apply_change (replay l) (snd e).
Proof. unfold replay. by rewrite foldl_app. Qed.

(** A key is added when it is absent, and replaced or removed when it is present. *)
Definition sound_log (l : list (nat * change)) : Prop := forall i t c, l !! i = Some (t, c) ->
  match c with
  | Added k _ => replay (take i l) !! k = None
  | Replaced k _ | Removed k => is_Some (replay (take i l) !! k)
  | Late _ _ => True
  end.

Lemma sound_log_snoc l t c :
  sound_log l ->
  match c with Added k _ => replay l !! k = None | Replaced k _ | Removed k => is_Some (replay l !! k) | Late _ _ => True end ->
  sound_log (l ++ [(t, c)]).
Proof.
  intros Hl Hc i t' c' Hi. apply lookup_app_Some in Hi as [Hi|[Hge Hi]].
  - rewrite take_app_le by (apply lookup_lt_Some in Hi; lia). by eapply Hl.
  - apply list_lookup_singleton_Some in Hi as [Hi [= <- <-]]. by rewrite take_app_length' by lia.
Qed.

(** ** Worlds *)

(** An object belongs to the thread that has made it, until it is published as a node of
    the list, a value, an array of the tree under the path to it, or a hazard pointer. *)
Inductive role := Private (t : nat) | PNode | PValue | PArray (path : list Z) | PHazard.

Record world := MkWorld {
  mem : shared V;
  order : list (Z * node);
  roles : gmap Z role;
  log : list (nat * change)
}.

Definition obj_at (w : world) (a : Z) : option (obj V) := objs (mem w) !! a.
Definition atom_at (w : world) (l : loc) : option Z := atoms (mem w) !! l.

Definition pub_node (w : world) (a : Z) (n : node) : Prop :=
  roles w !! a = Some PNode /\ obj_at w a = Some (ONode n).
Definition pub_value (w : world) (a : Z) (x : V) : Prop :=
  roles w !! a = Some PValue /\ obj_at w a = Some (OValue x).
Definition array_kind (path : list Z) (o : obj V) : Prop :=
  match path, o with
  | [_], OSegments _ | [_; _], OSegments _ | [_; _; _], OBuckets => True
  | _, _ => False
  end.
Definition pub_array (w : world) (a : Z) (path : list Z) : Prop :=
  roles w !! a = Some (PArray path) /\ exists o, obj_at w a = Some o /\ array_kind path o.
Definition pub_hazard (w : world) (a : Z) : Prop :=
  roles w !! a = Some PHazard /\ obj_at w a = Some OHazard.
Definition mine (t : nat) (w : world) (a : Z) (o : obj V) : Prop :=
  roles w !! a = Some (Private t) /\ obj_at w a = Some o.

(** The mark of a node that is deleted. *)
Definition marked (w : world) (a : Z) : Prop := exists x, atom_at w (Next a) = Some x /\ is_marked_reference x = true.
Definition live (w : world) (a : Z) : Prop := exists x, atom_at w (Next a) = Some x /\ is_marked_reference x = false.

(** ** The list of nodes *)

Definition first (q : Z) (l : list (Z * node)) : Z := match l with [] => q | (a, _) :: _ => a end.

(** A node leads to [b], with or without the mark. *)
Definition leads (w : world) (a b : Z) : Prop :=
  atom_at w (Next a) = Some b \/ atom_at w (Next a) = Some (get_marked_reference b).

(** Each node leads to the next one, and the last one to [q]. *)
Fixpoint linked (w : world) (l : list (Z * node)) (q : Z) : Prop :=
  match l with
  | [] => True
  | (a, _) :: l => leads w a (first q l) /\ linked w l q
  end.

Definition before (x y : Z * node) : Prop := Less (snd x) (snd y) = true.

Definition nonzero_at (w : world) (l : loc) : Prop := exists x, atom_at w l = Some x /\ x <> 0.

Definition bucket_index_of (path : list Z) : Z := foldl (fun b i => b * kSegmentSize + i) 0 path.

(** ** The invariant *)

Context (hash_func_ : Z -> Z) (head_ : Z).

Definition address (a : Z) : Prop := 0 < a < 2 ^ 64 /\ a mod 16 = 0.

Record inv_heap (w : world) : Prop := {
  ih_address : forall a o, obj_at w a = Some o -> address a;
  ih_members : forall a o l, obj_at w a = Some o -> l ∈ members a o -> is_Some (atom_at w l);
  ih_wf : forall a n, obj_at w a = Some (ONode n) -> wf_node hash_func_ n;
  ih_role : forall a o, obj_at w a = Some o -> exists r, roles w !! a = Some r /\
    match r with
    | Private _ => True
    | PNode => exists n, o = ONode n
    | PValue => exists x, o = OValue x
    | PArray path => array_kind path o
    | PHazard => o = OHazard
    end;
  ih_owned : forall a r, roles w !! a = Some r -> is_Some (obj_at w a);
  ih_private : forall a t n, mine t w a (ONode n) -> ~ marked w a
}.

Record inv_list (w : world) : Prop := {
  il_head : exists l, order w = (head_, DummyNode 0) :: l;
  il_linked : linked w (order w) 0;
  il_sorted : StronglySorted before (order w);
  il_nodes : forall a n, (a, n) ∈ order w -> pub_node w a n;
  il_live : forall a n, pub_node w a n -> live w a -> (a, n) ∈ order w;
  il_dummy : forall a n, pub_node w a n -> IsDummy n = true -> live w a;
  il_value : forall a n, pub_node w a n -> IsDummy n = false ->
    exists v x, atom_at w (Value a) = Some v /\ pub_value w v x
}.

(** The log says what the live nodes hold. *)
Definition inv_log (w : world) : Prop := sound_log (log w) /\ forall k x,
  replay (log w) !! k = Some x <->
  exists a n v, (a, n) ∈ order w /\ key_of n = Some k /\ live w a /\ atom_at w (Value a) = Some v /\ pub_value w v x.

Record inv_tree (w : world) : Prop := {
  it_top : forall i, 0 <= i < 64 -> exists s, atom_at w (Top i) = Some s /\ (s = 0 \/ pub_array w s [i]);
  it_data : forall s path o i x, pub_array w s path -> obj_at w s = Some o -> Data s i ∈ members s o ->
    atom_at w (Data s i) = Some x -> x = 0 \/ pub_array w x (path ++ [i]);
  it_bucket : forall s path o i d, pub_array w s path -> obj_at w s = Some o -> BucketAt s i ∈ members s o ->
    atom_at w (BucketAt s i) = Some d -> d = 0 \/ pub_node w d (DummyNode (bucket_index_of (path ++ [i])));
  it_zero : nonzero_at w (Top 0) /\
    (forall s, pub_array w s [0] \/ pub_array w s [0; 0] -> nonzero_at w (Data s 0)) /\
    (forall s, pub_array w s [0; 0; 0] -> nonzero_at w (BucketAt s 0))
}.

Record inv_globals (w : world) : Prop := {
  ig_power : exists p, atom_at w PowerOf2 = Some p /\ 0 <= p <= 24;
  ig_size : is_Some (atom_at w Size);
  ig_hp_size : is_Some (atom_at w HpSize);
  ig_hp_head : exists h, atom_at w HpHead = Some h /\ pub_hazard w h;
  ig_hp_next : forall h x, pub_hazard w h -> atom_at w (HpNext h) = Some x -> x = 0 \/ pub_hazard w x
}.

Record Inv (w : world) : Prop := {
  inv_h : inv_heap w;
  inv_l : inv_list w;
  inv_c : inv_log w;
  inv_t : inv_tree w;
  inv_g : inv_globals w
}.

(** ** Frames *)

(** The node [a] has a value that came too late, after [n] changes. *)
Definition late_value (w : world) (a k : Z) (n : nat) : Prop := exists v x j t,
  atom_at w (Value a) = Some v /\ pub_value w v x /\ (n <= j)%nat /\ log w !! j = Some (t, Late k x).

(** The node [a] has been removed by the change [i]: it has the value of that moment, or
    one that came too late. *)
Definition removed_at (w : world) (a k : Z) (i : nat) : Prop :=
  marked w a /\ (exists t, log w !! i = Some (t, Removed k)) /\
  ((exists v x, atom_at w (Value a) = Some v /\ pub_value w v x /\ replay (take i (log w)) !! k = Some x) \/ late_value w a k i).

(** What no step of any thread undoes: published objects stay, marks stay, the log grows,
    a node that becomes marked is in the log as removed, and a marked node gets only
    values that are in the log as too late. *)
Record grows (w w' : world) : Prop := {
  gr_role : forall a r, roles w !! a = Some r -> (forall t, r <> Private t) ->
    roles w' !! a = Some r /\ obj_at w' a = obj_at w a;
  gr_log : exists ext, log w' = log w ++ ext;
  gr_marked : forall a x, roles w !! a = Some PNode -> atom_at w (Next a) = Some x ->
    is_marked_reference x = true -> atom_at w' (Next a) = Some x;
  gr_live : forall a n, pub_node w a n -> live w a ->
    live w' a \/ exists k i, key_of n = Some k /\ (length (log w) <= i)%nat /\ removed_at w' a k i;
  gr_value : forall a n k, pub_node w a n -> key_of n = Some k -> marked w a ->
    atom_at w' (Value a) = atom_at w (Value a) \/ late_value w' a k (length (log w))
}.

(** What steps of the other threads leave to thread [t]: its private objects, and the
    changes of the log that are its own. *)
Record frame (t : nat) (w w' : world) : Prop := {
  fr_grows : grows w w';
  fr_log : forall i e, (length (log w) <= i)%nat -> log w' !! i = Some e -> fst e <> t;
  fr_mine : forall a, roles w !! a = Some (Private t) -> roles w' !! a = Some (Private t) /\ obj_at w' a = obj_at w a;
  fr_atoms : forall a o l, mine t w a o -> l ∈ members a o -> atom_at w' l = atom_at w l
}.

Lemma grows_refl w : grows w w.
Proof.
  constructor; [done|exists []; by rewrite app_nil_r|done|by left|by left].
Qed.

(** A published object is the same later. *)
Lemma role_grows w w' a r o :
  grows w w' -> roles w !! a = Some r -> (forall t, r <> Private t) -> obj_at w a = Some o ->
  roles w' !! a = Some r /\ obj_at w' a = Some o.
Proof. intros Hg Hr Hp Ho. destruct (gr_role _ _ Hg a r Hr Hp) as [? He]. by rewrite He. Qed.

Lemma pub_node_grows w w' a n : grows w w' -> pub_node w a n -> pub_node w' a n.
Proof. intros Hg [H1 H2]. by eapply role_grows. Qed.
Lemma pub_value_grows w w' a n : grows w w' -> pub_value w a n -> pub_value w' a n.
Proof. intros Hg [H1 H2]. by eapply role_grows. Qed.
Lemma pub_array_grows w w' a n : grows w w' -> pub_array w a n -> pub_array w' a n.
Proof. intros Hg (H1 & o & H2 & Hk). destruct (role_grows w w' a _ o Hg H1) as [? ?]; [done..|]. split; [done|]. by exists o. Qed.
Lemma pub_hazard_grows w w' a : grows w w' -> pub_hazard w a -> pub_hazard w' a.
Proof. intros Hg [H1 H2]. by eapply role_grows. Qed.

Lemma log_grows w w' : grows w w' -> (length (log w) <= length (log w'))%nat.
Proof. intros [_ [ext ->] _ _ _]. rewrite length_app. lia. Qed.

Lemma log_grows_lookup w w' i e : grows w w' -> log w !! i = Some e -> log w' !! i = Some e.
Proof. intros [_ [ext ->] _ _ _] H. by apply lookup_app_l_Some. Qed.

Lemma take_grows w w' i : grows w w' -> (i <= length (log w))%nat -> take i (log w') = take i (log w).
Proof. intros [_ [ext ->] _ _ _] Hi. by rewrite take_app_le. Qed.

Lemma marked_grows w w' a : grows w w' -> roles w !! a = Some PNode -> marked w a -> marked w' a.
Proof. intros Hg Hr (x & Hx & Hm). exists x. split; [|done]. by apply (gr_marked _ _ Hg). Qed.

Lemma late_value_grows w w' a k n :
  grows w w' -> atom_at w' (Value a) = atom_at w (Value a) -> late_value w a k n -> late_value w' a k n.
Proof.
  intros Hg He (v & x & j & t & Hv & Hp & Hj & Hl). exists v, x, j, t. rewrite He. split; [done|].
  split; [by apply (pub_value_grows w)|]. split; [done|]. by apply (log_grows_lookup w).
Qed.

Lemma removed_at_grows w w' a n k i :
  grows w w' -> pub_node w a n -> key_of n = Some k -> removed_at w a k i -> removed_at w' a k i.
Proof.
  intros Hg Hp Hk (Hm & (t & Hi) & Hv). pose proof (lookup_lt_Some _ _ _ Hi) as Hlen.
  split; [by apply (marked_grows w); [|apply Hp|]|]. split; [exists t; by apply (log_grows_lookup w)|].
  destruct (gr_value _ _ Hg a n k Hp Hk Hm) as [He|(v & x & j & t' & Hva & Hpv & Hj & Hl)].
  - destruct Hv as [(v & x & Hva & Hpv & Hx)|Hl]; [left|right; by apply (late_value_grows w)].
    exists v, x. rewrite He, (take_grows w) by (done || lia). split; [done|]. split; [by apply (pub_value_grows w)|done].
  - right. exists v, x, j, t'. split; [done|]. split; [done|]. split; [lia|done].
Qed.

Lemma grows_trans w1 w2 w3 : grows w1 w2 -> grows w2 w3 -> grows w1 w3.
Proof.
  intros H12 H23. pose proof (log_grows _ _ H12) as Hlen. constructor.
  - intros a r Hr Hp. destruct (gr_role _ _ H12 a r Hr Hp) as [H2 <-]. by apply (gr_role _ _ H23).
  - destruct (gr_log _ _ H12) as [e1 He1], (gr_log _ _ H23) as [e2 He2]. exists (e1 ++ e2). by rewrite He2, He1, app_assoc.
  - intros a x Hr Hx Hm. destruct (gr_role _ _ H12 a _ Hr) as [H2 _]; [done|].
    apply (gr_marked _ _ H23); [done| |done]. by apply (gr_marked _ _ H12).
  - intros a n Hp Hl. pose proof (pub_node_grows _ _ _ _ H12 Hp) as Hp2.
    destruct (gr_live _ _ H12 a n Hp Hl) as [Hl'|(k & i & Hk & Hi & Hr)].
    + destruct (gr_live _ _ H23 a n Hp2 Hl') as [?|(k & i & Hk & Hi & Hr)]; [by left|].
      right. exists k, i. split; [done|]. split; [lia|done].
    + right. exists k, i. split; [done|]. split; [done|]. by apply (removed_at_grows w2 w3 a n).
  - intros a n k Hp Hk Hm. pose proof (pub_node_grows _ _ _ _ H12 Hp) as Hp2.
    destruct (gr_value _ _ H23 a n k Hp2 Hk) as [He|(v & x & j & t' & Hva & Hpv & Hj & Hl)].
    + by apply (marked_grows w1); [|apply Hp|].
    + destruct (gr_value _ _ H12 a n k Hp Hk Hm) as [He'|Hl]; [left; congruence|right]. by apply (late_value_grows w2).
    + right. exists v, x, j, t'. split; [done|]. split; [done|]. split; [lia|done].
Qed.

Lemma frame_refl t w : frame t w w.
Proof.
  constructor; [apply grows_refl| |done|done]. intros i e Hi Hl. apply lookup_lt_Some in Hl. lia.
Qed.

Lemma mine_frame t w w' a o : frame t w w' -> mine t w a o -> mine t w' a o.
Proof. intros H [H1 H2]. destruct (fr_mine _ _ _ H a H1) as [? ?]. split; congruence. Qed.

Lemma frame_trans t w1 w2 w3 : frame t w1 w2 -> frame t w2 w3 -> frame t w1 w3.
Proof.
  intros H12 H23. constructor.
  - eapply grows_trans; [apply H12|apply H23].
  - intros i e Hi He. destruct (Nat.lt_ge_cases i (length (log w2))) as [Hlt|Hge].
    + destruct (lookup_lt_is_Some_2 (log w2) i Hlt) as [e' He'].
      assert (log w3 !! i = Some e') as H3 by (eapply log_grows_lookup; [apply H23|done]).
      assert (e = e') as -> by congruence. by apply (fr_log _ _ _ H12 i).
    + by apply (fr_log _ _ _ H23 i).
  - intros a Ha. destruct (fr_mine _ _ _ H12 a Ha) as [H2 <-]. by apply (fr_mine _ _ _ H23).
  - intros a o l Ha Hl. rewrite <- (fr_atoms _ _ _ H12 a o l Ha Hl).
    apply (fr_atoms _ _ _ H23 a o); [|done]. by apply (mine_frame _ w1).
Qed.

(** ** Safe programs *)

(** Deleting what was retired. *)
Definition reclaims {X} (e : act V X) : bool := match e with Atomic.Delete true _ => true | _ => false end.

Definition power_ok (s : shared V) : Prop := forall p, atoms s !! PowerOf2 = Some p -> p <= 24.

(** Whatever the other threads do between its actions, thread [t] does not fail, keeps
    the invariant, leaves the others their frames, and ends with [Q], as long as it
    reclaims nothing and the table does not grow beyond its maximum. *)
Fixpoint safe (t : nat) {A} (p : prog V A) (w : world) (Q : A -> world -> Prop) : Prop :=
  match p with
  | Ret a => forall w1, frame t w w1 -> Inv w1 -> Q a w1
  | Act e k => reclaims e = false -> forall w1 c, frame t w w1 -> Inv w1 -> enabled e c (mem w1) = true ->
      exists x s, exec e c (mem w1) = Ok (x, s) /\
        (power_ok s -> exists w2, mem w2 = s /\ Inv w2 /\ (forall t', t' <> t -> frame t' w1 w2) /\ safe t (k x) w2 Q)
  | Hang => True
  | _ => False
  end.

Lemma safe_frame t {A} (p : prog V A) w w' Q : frame t w w' -> safe t p w Q -> safe t p w' Q.
Proof.
  intros Hf. destruct p as [a|X e k| | |]; cbn; try done.
  - intros H w1 Hw1. apply H. by apply (frame_trans t w w').
  - intros H Hr w1 c Hw1. apply (H Hr). by apply (frame_trans t w w').
Qed.

Lemma safe_mono t {A} (p : prog V A) w (Q Q' : A -> world -> Prop) :
  (forall a w', Q a w' -> Q' a w') -> safe t p w Q -> safe t p w Q'.
Proof.
  intros HQ. revert w. induction p as [a|X e k IH| | |]; intros w; cbn; try done.
  - intros H w1 Hf Hi. apply HQ, H; done.
  - intros H Hr w1 c Hf Hi He. destruct (H Hr w1 c Hf Hi He) as (x & s & Hx & Hs). exists x, s. split; [done|].
    intros Hp. destruct (Hs Hp) as (w2 & Hw2 & Hi2 & Hf2 & Hk). exists w2. naive_solver.
Qed.

Lemma safe_bind t {A B} (p : prog V A) (f : A -> prog V B) w Q :
  Inv w -> safe t p w (fun a w' => safe t (f a) w' Q) -> safe t (bind p f) w Q.
Proof.
  revert w. induction p as [a|X e k IH| | |]; intros w Hw; cbn; try done.
  - intros H. apply H; [apply frame_refl|done].
  - intros H Hr w1 c Hf Hi He. destruct (H Hr w1 c Hf Hi He) as (x & s & Hx & Hs). exists x, s. split; [done|].
    intros Hp. destruct (Hs Hp) as (w2 & Hw2 & Hi2 & Hf2 & Hk). exists w2. naive_solver.
Qed.

End World.
#[global] Arguments change : clear implicits.
#[global] Arguments world : clear implicits.
