(* ===== verification/CtMoves.v ===== *)
(** The steps of the lock-free table on the invariant of CtWorld.v: each kind of step
    keeps it and leaves the other threads their frames. A world that a step reaches is
    built by [write], [alloc], [free], [become] and the changes of the list. *)
From stdpp Require Import sorting.
From S2P Require Import Prelude Words Outcome SplitOrder Atomic Hazard Ct CtWorld.

Section Moves.
Context {V : Type} (hash_func_ : Z -> Z) (head_ : Z).
Implicit Types (w : world V) (t : nat) (a h v : Z) (n : node).

Abbreviation Inv := (Inv hash_func_ head_).
Abbreviation inv_heap := (inv_heap hash_func_).
Abbreviation inv_list := (inv_list head_).

(** ** References *)

Lemma marked_reference_even x : is_marked_reference x = Z.testbit x 0.
Proof.
  unfold is_marked_reference. change (Z.land x 1) with (Z.land x (Z.ones 1)).
  rewrite Z.land_ones, Z.bit0_odd, Z.pow_1_r, Zmod_odd by lia. by destruct (Z.odd x).
Qed.

Lemma address_unmarked a : address a -> is_marked_reference a = false.
Proof.
  intros [_ Hm]. rewrite marked_reference_even, Z.bit0_odd. rewrite (Z.div_mod a 16), Hm, Z.add_0_r by lia.
  change 16 with (2 * 8). rewrite <- Z.mul_assoc, Z.odd_mul. done.
Qed.

Lemma unmarked_0 : is_marked_reference 0 = false.
Proof. done. Qed.

Lemma get_unmarked_testbit x i :
  0 <= i -> Z.testbit (get_unmarked_reference x) i = (1 <=? i) && (i <? 64) && Z.testbit x i.
Proof.
  intros Hi. unfold get_unmarked_reference. rewrite Z.land_spec, wrap_testbit, Z.lnot_spec by lia.
  change 1 with (2 ^ 0) at 1. rewrite Z.pow2_bits_eqb by lia.
  destruct (Z.leb_spec 1 i), (Z.eqb_spec 0 i), (i <? 64), (Z.testbit x i); try lia; done.
Qed.

(** A reference of 64 bits without its mark. *)
Lemma get_unmarked_id x : 0 <= x < 2 ^ 64 -> is_marked_reference x = false -> get_unmarked_reference x = x.
Proof.
  intros Hx Hm. rewrite marked_reference_even in Hm. bits_ext i. rewrite get_unmarked_testbit by lia.
  destruct (Z.leb_spec 1 i), (Z.ltb_spec i 64); cbn [andb]; [done| | |lia].
  - by rewrite (testbit_high 64) by lia.
  - by replace i with 0 by lia.
Qed.

Lemma get_marked_marked x : is_marked_reference (get_marked_reference x) = true.
Proof. rewrite marked_reference_even. unfold get_marked_reference. rewrite Z.lor_spec. apply orb_true_r. Qed.

Lemma get_unmarked_marked x : 0 <= x < 2 ^ 64 -> is_marked_reference x = false ->
  get_unmarked_reference (get_marked_reference x) = x.
Proof.
  intros Hx Hm. rewrite marked_reference_even in Hm. bits_ext i. rewrite get_unmarked_testbit by lia.
  unfold get_marked_reference. rewrite Z.lor_spec. change 1 with (2 ^ 0) at 2. rewrite Z.pow2_bits_eqb by lia.
  destruct (Z.leb_spec 1 i), (Z.ltb_spec i 64); cbn [andb].
  - test (0 =? i) is false. apply orb_false_r.
  - by rewrite (testbit_high 64) by lia.
  - by replace i with 0 by lia.
  - by replace i with 0 by lia.
Qed.

Lemma unmarked_even x : is_marked_reference (get_unmarked_reference x) = false.
Proof. by rewrite marked_reference_even, get_unmarked_testbit by lia. Qed.

(** A node is marked or live, not both. *)
Lemma live_marked w a : live w a -> marked w a -> False.
Proof. intros (x & Hx & Hm) (y & Hy & Hm'). congruence. Qed.

Lemma marked_or_live w a x : atom_at w (Next a) = Some x -> marked w a \/ live w a.
Proof. intros Hx. destruct (is_marked_reference x) eqn:Hm; [left|right]; by exists x. Qed.

(** ** Parts of the invariant that a step does not touch *)

Definition same_node (w w' : world V) (a : Z) : Prop :=
  atom_at w' (Next a) = atom_at w (Next a) /\ atom_at w' (Value a) = atom_at w (Value a).

Lemma same_node_live w w' a : same_node w w' a -> live w' a <-> live w a.
Proof. intros [Hn _]. unfold live. by rewrite Hn. Qed.

Lemma linked_keep w w' l q :
  (forall a n, (a, n) ∈ l -> atom_at w' (Next a) = atom_at w (Next a)) -> linked w l q -> linked w' l q.
Proof.
  induction l as [|[a n] l IH]; cbn; [done|]. intros Hs [Hf Hl]. split.
  - unfold leads. rewrite (Hs a n) by left. done.
  - apply IH; [|done]. intros b m Hb. apply (Hs b m). by right.
Qed.

Lemma list_keep w w' :
  inv_list w -> grows w w' -> order w' = order w ->
  (forall a n, pub_node w a n -> same_node w w' a) ->
  (forall a n, pub_node w' a n -> pub_node w a n) -> inv_list w'.
Proof.
  intros [Hh Hl Hs Hn Hlive Hd Hv] Hg Ho Hsame Hback. constructor; rewrite ?Ho; try done.
  - apply (linked_keep w); [|done]. intros a n Ha. by apply (Hsame a n), Hn.
  - intros a n Ha. by apply (pub_node_grows w), Hn.
  - intros a n Hp%Hback Hl'. apply Hlive; [done|]. by apply (same_node_live w w'), Hl'; eapply Hsame.
  - intros a n Hp%Hback Hi. apply (same_node_live w w'); [by eapply Hsame|]. by eapply Hd.
  - intros a n Hp%Hback Hi. destruct (Hv a n Hp Hi) as (v & x & Hx & Hpv). exists v, x.
    rewrite (proj2 (Hsame a n Hp)). split; [done|]. by apply (pub_value_grows w).
Qed.

Lemma log_keep w w' :
  inv_list w -> inv_log w -> grows w w' -> order w' = order w -> log w' = log w ->
  (forall a n, pub_node w a n -> same_node w w' a) -> inv_log w'.
Proof.
  intros Hl [Hsnd Hc] Hg Ho Hlog Hsame. split; [by rewrite Hlog|]. intros k x. rewrite Hlog, (Hc k x), Ho.
  split; intros (a & n & v & Ha & Hk & Hlv & Hva & Hp); exists a, n, v; pose proof (il_nodes _ _ Hl a n Ha) as Hpn.
  - rewrite (proj2 (Hsame a n Hpn)). split; [done|]. split; [done|]. split; [|split; [done|by apply (pub_value_grows w)]].
    by apply (same_node_live w w'); [eapply Hsame|].
  - rewrite (proj2 (Hsame a n Hpn)) in Hva. split; [done|]. split; [done|].
    split; [by apply (same_node_live w w') in Hlv; [|eapply Hsame]|]. split; [done|].
    destruct (il_value _ _ Hl a n Hpn) as (v' & x' & Hv' & Hp').
    { unfold IsDummy. by rewrite Hk. }
    assert (v' = v) as -> by congruence. destruct (pub_value_grows _ _ _ _ Hg Hp') as [_ H1]. destruct Hp as [_ H2].
    rewrite H1 in H2. by injection H2 as ->.
Qed.

Lemma pub_array_obj w w' s path : grows w w' -> pub_array w s path -> obj_at w' s = obj_at w s.
Proof. intros Hg (Hr & _). by destruct (gr_role _ _ Hg s _ Hr). Qed.

Lemma tree_keep w w' :
  inv_tree w -> grows w w' -> (forall i, atom_at w' (Top i) = atom_at w (Top i)) ->
  (forall s path i, pub_array w s path -> atom_at w' (Data s i) = atom_at w (Data s i) /\
    atom_at w' (BucketAt s i) = atom_at w (BucketAt s i)) ->
  (forall s path, pub_array w' s path -> pub_array w s path) -> inv_tree w'.
Proof.
  intros [Ht Hd Hb Hz] Hg Htop Hsame Hback. constructor.
  - intros i Hi. destruct (Ht i Hi) as (s & Hs & Hp). exists s. rewrite Htop. split; [done|].
    destruct Hp as [->|Hp]; [by left|right]. by apply (pub_array_grows w).
  - intros s path o i x Hp%Hback Ho Hi Hx. rewrite (proj1 (Hsame s path i Hp)) in Hx.
    rewrite (pub_array_obj w w' s path) in Ho by done.
    destruct (Hd _ _ _ _ _ Hp Ho Hi Hx) as [->|Hpx]; [by left|right]. by apply (pub_array_grows w).
  - intros s path o i d Hp%Hback Ho Hi Hx. rewrite (proj2 (Hsame s path i Hp)) in Hx.
    rewrite (pub_array_obj w w' s path) in Ho by done.
    destruct (Hb _ _ _ _ _ Hp Ho Hi Hx) as [->|Hpx]; [by left|right]. by apply (pub_node_grows w).
  - destruct Hz as (H1 & H2 & H3). unfold nonzero_at in *. rewrite Htop. split; [done|]. split.
    + intros s [Hp|Hp]; pose proof (Hback _ _ Hp) as Hp'; rewrite (proj1 (Hsame _ _ 0 Hp')); apply H2; tauto.
    + intros s Hp%Hback. rewrite (proj2 (Hsame _ _ 0 Hp)). by apply H3.
Qed.

Lemma globals_keep w w' :
  inv_globals w -> grows w w' ->
  (exists p, atom_at w' PowerOf2 = Some p /\ 0 <= p <= 24) ->
  is_Some (atom_at w' Size) -> is_Some (atom_at w' HpSize) -> atom_at w' HpHead = atom_at w HpHead ->
  (forall h, pub_hazard w h -> atom_at w' (HpNext h) = atom_at w (HpNext h)) ->
  (forall h, pub_hazard w' h -> pub_hazard w h) -> inv_globals w'.
Proof.
  intros [_ _ _ (h & Hh & Hp) Hn] Hg H1 H2 H3 Hhd Hnx Hback. constructor; try done.
  - exists h. rewrite Hhd. split; [done|]. by apply (pub_hazard_grows w).
  - intros h' x Hh'%Hback Hx. rewrite Hnx in Hx by done. destruct (Hn h' x Hh' Hx) as [->|?]; [by left|right].
    by apply (pub_hazard_grows w).
Qed.

(** ** Steps on one atomic variable *)

Definition owner_of (l : loc) : option Z :=
  match l with
  | Next a | Value a | Data a _ | BucketAt a _ | HpFlag a | HpPtr a | HpNext a => Some a
  | _ => None
  end.

Lemma members_owner a (o : obj V) l : l ∈ members a o -> owner_of l = Some a.
Proof.
  clear hash_func_ head_. destruct o as [n| | | |]; cbn [members].
  - destruct (IsDummy n); rewrite ?elem_of_cons, elem_of_nil; naive_solver.
  - by rewrite elem_of_nil.
  - intros (i & -> & _)%list_elem_of_fmap. done.
  - intros (i & -> & _)%list_elem_of_fmap. done.
  - rewrite !elem_of_cons, elem_of_nil. naive_solver.
Qed.

(** Thread [t] may write to [l]: the object of [l] is not private to another thread. *)
Definition may_touch t w (l : loc) : Prop :=
  forall a t', owner_of l = Some a -> roles w !! a = Some (Private t') -> t' = t.

Lemma frame_of_grows t' w w' :
  grows w w' -> (forall i e, (length (log w) <= i)%nat -> log w' !! i = Some e -> fst e <> t') ->
  (forall a, roles w !! a = Some (Private t') -> roles w' !! a = Some (Private t') /\ obj_at w' a = obj_at w a /\
     forall l, owner_of l = Some a -> atom_at w' l = atom_at w l) ->
  frame t' w w'.
Proof.
  intros Hg Hlog Hp. constructor; [done|done| |].
  - intros a Ha. by destruct (Hp a Ha) as (? & ? & _).
  - intros a o l [Ha _] Hl. destruct (Hp a Ha) as (_ & _ & Hat). by apply Hat, (members_owner _ o).
Qed.

Lemma same_log t' (l l' : list (nat * change V)) :
  l' = l -> forall i e, (length l <= i)%nat -> l' !! i = Some e -> fst e <> t'.
Proof. intros -> i e Hi Hl. apply lookup_lt_Some in Hl. lia. Qed.

Definition write (l : loc) (x : Z) w : world V := MkWorld (set_atom l x (mem w)) (order w) (roles w) (log w).

Lemma atom_write l x w l' : atom_at (write l x w) l' = if decide (l = l') then Some x else atom_at w l'.
Proof.
  unfold atom_at, write. cbn. destruct (decide (l = l')) as [->|]; [by rewrite lookup_insert_eq|by rewrite lookup_insert_ne].
Qed.

Lemma obj_write l x w a : obj_at (write l x w) a = obj_at w a.
Proof. done. Qed.

(** What the invariant says nothing about: sizes, flags and pointers of hazard pointers,
    and the members of private objects. *)
Definition unconstrained w (l : loc) : Prop :=
  match l with
  | Size | HpSize | HpFlag _ | HpPtr _ => True
  | Next a | Value a | Data a _ | BucketAt a _ | HpNext a => exists t, roles w !! a = Some (Private t)
  | Top _ | PowerOf2 | HpHead => False
  end.

Lemma heap_write w l x :
  inv_heap w -> (forall a t, l = Next a -> roles w !! a = Some (Private t) -> is_marked_reference x = false) ->
  inv_heap (write l x w).
Proof.
  intros [Ha Hm Hw Hr Ho Hp] Hx. constructor; try done.
  - intros a o l' Hao Hl. rewrite atom_write. destruct (decide _); [done|]. by apply (Hm a o).
  - intros a t n Hat (y & Hy & Hmy). rewrite atom_write in Hy. destruct (decide (l = Next a)) as [->|].
    + injection Hy as <-. rewrite (Hx a t) in Hmy; [done..|]. apply Hat.
    + apply (Hp a t n Hat). by exists y.
Qed.

(** The heap part looks at the memory and the roles only. *)
Lemma heap_same w w' : mem w' = mem w -> roles w' = roles w -> inv_heap w -> inv_heap w'.
Proof.
  destruct w as [m o r l], w' as [m' o' r' l']. cbn. intros -> -> [Ha Hm Hw Hr Ho Hp]. by constructor.
Qed.

(** A write to a variable that is not a member of a published node. *)
Definition not_in_node w (l : loc) : Prop :=
  match l with Next a | Value a => roles w !! a <> Some PNode | _ => True end.

Lemma grows_write w l x : not_in_node w l -> grows w (write l x w).
Proof.
  intros Hl. constructor; try done.
  - exists []. by rewrite app_nil_r.
  - intros a y Ha Hy Hm. rewrite atom_write. by destruct (decide (l = Next a)) as [->|].
  - intros a n [Ha _] (y & Hy & Hm). left. exists y. rewrite atom_write. by destruct (decide (l = Next a)) as [->|].
  - intros a n k [Ha _] _ _. left. rewrite atom_write. by destruct (decide (l = Value a)) as [->|].
Qed.

Lemma frame_write t t' w l x : grows w (write l x w) -> may_touch t w l -> t' <> t -> frame t' w (write l x w).
Proof.
  intros Hg Ht Hne. apply frame_of_grows; [done|by apply same_log|]. intros a Ha. split; [done|]. split; [done|].
  intros l' Hl'. rewrite atom_write. destruct (decide (l = l')) as [->|]; [|done]. destruct Hne. by apply (Ht a).
Qed.

Lemma unconstrained_Next w l a : unconstrained w l -> l = Next a -> exists t, roles w !! a = Some (Private t).
Proof. by intros Hl ->. Qed.

(** The published objects keep their members. *)
Lemma unconstrained_pub w l x a r :
  unconstrained w l -> roles w !! a = Some r -> (forall t, r <> Private t) ->
  forall l', match l' with Next b | Value b | Data b _ | BucketAt b _ | HpNext b => b = a | _ => False end ->
    atom_at (write l x w) l' = atom_at w l'.
Proof.
  intros Hl Ha Hr l' Hl'. rewrite atom_write. destruct (decide (l = l')) as [->|]; [|done].
  destruct l'; cbn in *; try done; subst; destruct Hl as [t Ht]; rewrite Ha in Ht; injection Ht as ->; by destruct (Hr t).
Qed.

Lemma inv_write w l x :
  Inv w -> unconstrained w l -> (forall a, l = Next a -> is_marked_reference x = false) ->
  Inv (write l x w) /\ grows w (write l x w).
Proof.
  intros [Hh Hl Hc Ht Hg] Hu Hx.
  assert (grows w (write l x w)) as Hgr.
  { apply grows_write. destruct l; try done; intros Ha; destruct Hu as [t Hu]; congruence. }
  pose proof (unconstrained_pub w l x) as Hpub.
  assert (forall a n, pub_node w a n -> same_node w (write l x w) a) as Hsame.
  { intros a n [Ha _]. split; apply (Hpub a PNode); done. }
  split; [|done]. constructor.
  - apply heap_write; [done|]. intros a t Ha _. by apply (Hx a).
  - by apply (list_keep w).
  - by apply (log_keep w).
  - apply (tree_keep w); try done.
    + intros i. rewrite atom_write. by destruct (decide (l = Top i)) as [->|].
    + intros s path i [Hs _]. split; apply (Hpub s (PArray path)); done.
  - destruct Hg as [Hpow Hsz Hhs Hhh Hhn]. apply (globals_keep w); try done.
    + rewrite atom_write. by destruct (decide (l = PowerOf2)) as [->|].
    + rewrite atom_write. by destruct (decide (l = Size)).
    + rewrite atom_write. by destruct (decide (l = HpSize)).
    + rewrite atom_write. by destruct (decide (l = HpHead)) as [->|].
    + intros h [Hhr _]. apply (Hpub h PHazard); done.
Qed.

(** The number of buckets. *)
Lemma inv_write_power w p : Inv w -> 0 <= p <= 24 -> Inv (write PowerOf2 p w) /\ grows w (write PowerOf2 p w).
Proof.
  intros [Hh Hl Hc Ht Hg] Hp.
  assert (grows w (write PowerOf2 p w)) as Hgr by (by apply grows_write).
  assert (forall l, l <> PowerOf2 -> atom_at (write PowerOf2 p w) l = atom_at w l) as Hs.
  { intros l Hne. rewrite atom_write. by destruct (decide (PowerOf2 = l)) as [<-|]. }
  assert (forall a n, pub_node w a n -> same_node w (write PowerOf2 p w) a) as Hsame.
  { intros a n _. split; by apply Hs. }
  split; [|done]. constructor.
  - by apply heap_write.
  - by apply (list_keep w).
  - by apply (log_keep w).
  - apply (tree_keep w); try done; intros; [by apply Hs|split; by apply Hs].
  - destruct Hg as [Hpow Hsz Hhs Hhh Hhn]. apply (globals_keep w); [by constructor|done| | | | | |done].
    + exists p. rewrite atom_write. by rewrite decide_True.
    + by rewrite Hs.
    + by rewrite Hs.
    + by rewrite Hs.
    + intros h _. by apply Hs.
Qed.

(** ** Private objects come and go *)

Definition alloc t a (o : obj V) w : world V :=
  MkWorld (allocate a o (mem w)) (order w) (<[a := Private t]> (roles w)) (log w).

Definition free a (o : obj V) w : world V :=
  MkWorld (deallocate a o (mem w)) (order w) (delete a (roles w)) (log w).

Lemma foldr_insert_lookup (ls : list loc) (m : gmap loc Z) l :
  foldr (fun l => <[l := 0]>) m ls !! l = if decide (l ∈ ls) then Some 0 else m !! l.
Proof.
  induction ls as [|l0 ls IH]; cbn.
  - rewrite decide_False; [done|apply not_elem_of_nil].
  - destruct (decide (l0 = l)) as [->|Hne].
    + rewrite lookup_insert_eq, decide_True; [done|left].
    + rewrite lookup_insert_ne, IH by done. destruct (decide (l ∈ ls)).
      * rewrite decide_True; [done|by right].
      * rewrite decide_False; [done|]. intros [?|?]%elem_of_cons; congruence.
Qed.

Lemma foldr_delete_lookup (ls : list loc) (m : gmap loc Z) l :
  foldr delete m ls !! l = if decide (l ∈ ls) then None else m !! l.
Proof.
  induction ls as [|l0 ls IH]; cbn.
  - rewrite decide_False; [done|apply not_elem_of_nil].
  - destruct (decide (l0 = l)) as [->|Hne].
    + rewrite lookup_delete_eq, decide_True; [done|left].
    + rewrite lookup_delete_ne, IH by done. destruct (decide (l ∈ ls)).
      * rewrite decide_True; [done|by right].
      * rewrite decide_False; [done|]. intros [?|?]%elem_of_cons; congruence.
Qed.

Lemma atom_alloc t a o w l : atom_at (alloc t a o w) l = if decide (l ∈ members a o) then Some 0 else atom_at w l.
Proof. apply foldr_insert_lookup. Qed.

Lemma atom_free a o w l : atom_at (free a o w) l = if decide (l ∈ members a o) then None else atom_at w l.
Proof. apply foldr_delete_lookup. Qed.

Lemma atom_alloc_other t a o w l : owner_of l <> Some a -> atom_at (alloc t a o w) l = atom_at w l.
Proof. intros Hl. rewrite atom_alloc. destruct (decide _) as [H%members_owner|]; done. Qed.

Lemma atom_free_other a o w l : owner_of l <> Some a -> atom_at (free a o w) l = atom_at w l.
Proof. intros Hl. rewrite atom_free. destruct (decide _) as [H%members_owner|]; done. Qed.

(** Two worlds that differ at the object [a] only, which nobody has published. *)
Record same_but (a : Z) (w w' : world V) : Prop := {
  sb_order : order w' = order w;
  sb_log : log w' = log w;
  sb_role : forall b, b <> a -> roles w' !! b = roles w !! b;
  sb_obj : forall b, b <> a -> obj_at w' b = obj_at w b;
  sb_atom : forall l, owner_of l <> Some a -> atom_at w' l = atom_at w l;
  sb_before : forall r, roles w !! a = Some r -> exists t, r = Private t;
  sb_after : forall r, roles w' !! a = Some r -> exists t, r = Private t
}.

Lemma same_but_grows a w w' : same_but a w w' -> grows w w'.
Proof.
  intros [Ho Hlog Hr Hobj Hat Hb Ha].
  assert (forall b r, roles w !! b = Some r -> (forall t, r <> Private t) -> b <> a) as Hne.
  { intros b r Hr' Hp ->. destruct (Hb r Hr') as [t ->]. by destruct (Hp t). }
  constructor.
  - intros b r Hb' Hp. pose proof (Hne b r Hb' Hp). by rewrite Hr, Hobj.
  - exists []. by rewrite app_nil_r.
  - intros b x Hb' Hx Hm. rewrite Hat; [done|]. intros [= ->]. by eapply (Hne a PNode).
  - intros b n [Hb' _] (x & Hx & Hm). left. exists x. rewrite Hat; [done|]. intros [= ->]. by eapply (Hne a PNode).
  - intros b n k [Hb' _] _ _. left. apply Hat. intros [= ->]. by eapply (Hne a PNode).
Qed.

Lemma same_but_frame t a w w' : same_but a w w' -> roles w !! a <> Some (Private t) -> frame t w w'.
Proof.
  intros Hs Ha. apply frame_of_grows; [by apply (same_but_grows a)|apply same_log, Hs|].
  intros b Hb. assert (b <> a) as Hne by congruence. destruct Hs as [Ho Hlog Hr Hobj Hat _ _].
  rewrite Hr, Hobj by done. split; [done|]. split; [done|]. intros l Hl. apply Hat. congruence.
Qed.

(** Everything but the heap survives. *)
Lemma same_but_parts a w w' :
  same_but a w w' -> inv_list w -> inv_log w -> inv_tree w -> inv_globals w ->
  inv_list w' /\ inv_log w' /\ inv_tree w' /\ inv_globals w'.
Proof.
  intros Hs Hl Hc Ht Hg. pose proof (same_but_grows _ _ _ Hs) as Hgr.
  destruct Hs as [Ho Hlog Hr Hobj Hat Hb Ha].
  assert (forall b r, roles w !! b = Some r -> (forall t, r <> Private t) -> b <> a) as Hne.
  { intros b r Hr' Hp ->. destruct (Hb r Hr') as [t ->]. by destruct (Hp t). }
  assert (forall b r, roles w' !! b = Some r -> (forall t, r <> Private t) -> b <> a) as Hne'.
  { intros b r Hr' Hp ->. destruct (Ha r Hr') as [t ->]. by destruct (Hp t). }
  assert (forall b n, pub_node w b n -> same_node w w' b) as Hsame.
  { intros b n [Hb' _]. split; apply Hat; intros [= ->]; by eapply (Hne a PNode). }
  split; [|split; [|split]].
  - apply (list_keep w); try done. intros b n [H1 H2].
    assert (b <> a) by by eapply (Hne' b PNode). split; [by rewrite <- Hr|by rewrite <- Hobj].
  - by apply (log_keep w).
  - apply (tree_keep w); try done.
    + intros i. by apply Hat.
    + intros s path i [Hs _]. split; apply Hat; intros [= ->]; by eapply (Hne a (PArray path)).
    + intros s path [H1 H2]. assert (s <> a) by by eapply (Hne' s (PArray path)).
      split; [by rewrite <- Hr|by rewrite <- Hobj].
  - pose proof Hg as [Hpow Hsz Hhs Hhh Hhn]. apply (globals_keep w); try done; rewrite ?Hat; try done.
    + intros h [Hh _]. apply Hat. intros [= ->]. by eapply (Hne a PHazard).
    + intros h [H1 H2]. assert (h <> a) by by eapply (Hne' h PHazard).
      split; [by rewrite <- Hr|by rewrite <- Hobj].
Qed.

Lemma same_but_alloc t a o w : inv_heap w -> obj_at w a = None -> same_but a w (alloc t a o w).
Proof.
  intros Hh Ha. constructor; try done.
  - intros b Hb. cbn. by rewrite lookup_insert_ne.
  - intros b Hb. unfold obj_at, alloc. cbn. by rewrite lookup_insert_ne.
  - intros l Hl. by apply atom_alloc_other.
  - intros r Hr. destruct (ih_owned _ _ Hh a r Hr) as [o' Ho']. congruence.
  - intros r. cbn. rewrite lookup_insert_eq. intros [= <-]. by exists t.
Qed.

Lemma same_but_free t a o w : mine t w a o -> same_but a w (free a o w).
Proof.
  intros [Hr Ho]. constructor; try done.
  - intros b Hb. cbn. by rewrite lookup_delete_ne.
  - intros b Hb. unfold obj_at, free. cbn. by rewrite lookup_delete_ne.
  - intros l Hl. by apply atom_free_other.
  - intros r Hr'. exists t. congruence.
  - intros r. cbn. by rewrite lookup_delete_eq.
Qed.

Lemma heap_alloc t a o w :
  inv_heap w -> obj_at w a = None -> address a -> (forall n, o = ONode n -> wf_node hash_func_ n) ->
  inv_heap (alloc t a o w).
Proof.
  intros Hh Ha Hadr Hwf. pose proof Hh as [Had Hm Hw Hr Ho Hp].
  assert (forall b, obj_at (alloc t a o w) b = if decide (a = b) then Some o else obj_at w b) as Hobj.
  { intros b. unfold obj_at, alloc. cbn. destruct (decide (a = b)) as [->|]; [by rewrite lookup_insert_eq|by rewrite lookup_insert_ne]. }
  assert (forall b, roles (alloc t a o w) !! b = if decide (a = b) then Some (Private t) else roles w !! b) as Hrole.
  { intros b. cbn. destruct (decide (a = b)) as [->|]; [by rewrite lookup_insert_eq|by rewrite lookup_insert_ne]. }
  constructor.
  - intros b o' Hb. rewrite Hobj in Hb. destruct (decide (a = b)) as [<-|]; [done|by eapply Had].
  - intros b o' l Hb Hl. rewrite Hobj in Hb. rewrite atom_alloc. destruct (decide (l ∈ members a o)); [done|].
    destruct (decide (a = b)) as [<-|]; [|by eapply Hm]. congruence.
  - intros b n Hb. rewrite Hobj in Hb. destruct (decide (a = b)) as [<-|]; [|by eapply Hw]. apply Hwf. congruence.
  - intros b o' Hb. rewrite Hobj in Hb. rewrite Hrole. destruct (decide (a = b)) as [<-|]; [by exists (Private t)|by apply Hr].
  - intros b r Hb. rewrite Hrole in Hb. rewrite Hobj. destruct (decide (a = b)) as [<-|]; [done|by eapply Ho].
  - intros b t' n [Hb Hbo] (x & Hx & Hmx). rewrite Hrole in Hb. rewrite Hobj in Hbo. rewrite atom_alloc in Hx.
    destruct (decide (_ ∈ _)) as [|Hnot]; [by injection Hx as <-|].
    destruct (decide (a = b)) as [<-|].
    + injection Hbo as ->. destruct Hnot. cbn. destruct (IsDummy n); left.
    + apply (Hp b t' n); [done|]. by exists x.
Qed.

Lemma heap_free t a o w : inv_heap w -> mine t w a o -> inv_heap (free a o w).
Proof.
  intros Hh Ha. pose proof Hh as [Had Hm Hw Hr Ho Hp].
  assert (forall b, obj_at (free a o w) b = if decide (a = b) then None else obj_at w b) as Hobj.
  { intros b. unfold obj_at, free. cbn. destruct (decide (a = b)) as [->|]; [by rewrite lookup_delete_eq|by rewrite lookup_delete_ne]. }
  assert (forall b, roles (free a o w) !! b = if decide (a = b) then None else roles w !! b) as Hrole.
  { intros b. cbn. destruct (decide (a = b)) as [->|]; [by rewrite lookup_delete_eq|by rewrite lookup_delete_ne]. }
  constructor.
  - intros b o' Hb. rewrite Hobj in Hb. destruct (decide (a = b)); [done|by eapply Had].
  - intros b o' l Hb Hl. rewrite Hobj in Hb. destruct (decide (a = b)) as [|Hne]; [done|].
    rewrite atom_free_other; [by eapply Hm|]. rewrite (members_owner _ _ _ Hl). congruence.
  - intros b n Hb. rewrite Hobj in Hb. destruct (decide (a = b)); [done|by eapply Hw].
  - intros b o' Hb. rewrite Hobj in Hb. rewrite Hrole. destruct (decide (a = b)); [done|by apply Hr].
  - intros b r Hb. rewrite Hrole in Hb. rewrite Hobj. destruct (decide (a = b)); [done|by eapply Ho].
  - intros b t' n [Hb Hbo] (x & Hx & Hmx). rewrite Hrole in Hb. rewrite Hobj in Hbo.
    destruct (decide (a = b)); [done|]. rewrite atom_free in Hx. destruct (decide (_ ∈ _)); [done|].
    apply (Hp b t' n); [done|]. by exists x.
Qed.

Lemma inv_alloc t a o w :
  Inv w -> obj_at w a = None -> address a -> (forall n, o = ONode n -> wf_node hash_func_ n) ->
  Inv (alloc t a o w) /\ grows w (alloc t a o w) /\ (forall t', frame t' w (alloc t a o w)) /\ mine t (alloc t a o w) a o.
Proof.
  intros [Hh Hl Hc Ht Hg] Ha Had Hwf. pose proof (same_but_alloc t a o w Hh Ha) as Hs.
  destruct (same_but_parts _ _ _ Hs Hl Hc Ht Hg) as (? & ? & ? & ?).
  split; [constructor; try done; by apply heap_alloc|]. split; [by apply (same_but_grows a)|]. split.
  - intros t'. apply (same_but_frame t' a); [done|]. intros Hr. destruct (ih_owned _ _ Hh a _ Hr). congruence.
  - split; [cbn; by rewrite lookup_insert_eq|]. unfold obj_at, alloc. cbn. by rewrite lookup_insert_eq.
Qed.

Lemma inv_free t a o w :
  Inv w -> mine t w a o -> Inv (free a o w) /\ grows w (free a o w) /\ (forall t', t' <> t -> frame t' w (free a o w)).
Proof.
  intros [Hh Hl Hc Ht Hg] Ha. pose proof (same_but_free t a o w Ha) as Hs.
  destruct (same_but_parts _ _ _ Hs Hl Hc Ht Hg) as (? & ? & ? & ?).
  split; [constructor; try done; by apply (heap_free t)|]. split; [by apply (same_but_grows a)|].
  intros t' Hne. apply (same_but_frame t' a); [done|]. destruct Ha as [Hr _]. rewrite Hr. congruence.
Qed.

(** ** Publishing arrays, hazard pointers and buckets *)

(** A private object becomes published with role [r], by a write to [l]. *)
Definition publish_at (l : loc) (x a : Z) (r : role) w : world V :=
  MkWorld (set_atom l x (mem w)) (order w) (<[a := r]> (roles w)) (log w).

Lemma atom_publish l x a r w l' : atom_at (publish_at l x a r w) l' = if decide (l = l') then Some x else atom_at w l'.
Proof. apply (atom_write l x w l'). Qed.

Lemma role_publish l x a r w b :
  roles (publish_at l x a r w) !! b = if decide (a = b) then Some r else roles w !! b.
Proof. cbn. destruct (decide (a = b)) as [->|]; [by rewrite lookup_insert_eq|by rewrite lookup_insert_ne]. Qed.

Definition fits (r : role) (o : obj V) : Prop :=
  match r with
  | Private _ => False
  | PNode => exists n, o = ONode n
  | PValue => exists x, o = OValue x
  | PArray path => array_kind path o
  | PHazard => o = OHazard
  end.

Lemma heap_publish t l x a r o w :
  inv_heap w -> mine t w a o -> fits r o ->
  (forall b t, l = Next b -> roles w !! b = Some (Private t) -> is_marked_reference x = false) ->
  inv_heap (publish_at l x a r w).
Proof.
  intros Hh [Ha Hao] Hf Hx. pose proof (heap_write w l x Hh Hx) as [Had Hm Hw Hr Ho Hp]. constructor; try done.
  - intros b o' Hb. rewrite role_publish. destruct (decide (a = b)) as [<-|]; [|by apply Hr].
    exists r. split; [done|]. assert (o' = o) as -> by (unfold obj_at in *; cbn in *; congruence). by destruct r.
  - intros b r' Hb. rewrite role_publish in Hb. destruct (decide (a = b)) as [<-|]; [by exists o|by eapply Ho].
  - intros b t' n [Hb Hbo]. rewrite role_publish in Hb. destruct (decide (a = b)) as [<-|].
    + injection Hb as ->. done.
    + by apply (Hp b t' n).
Qed.

(** The node at which [l] leads on, if any, stays as it is. *)
Lemma grows_publish t l x a r o w :
  mine t w a o -> not_in_node w l -> grows w (publish_at l x a r w).
Proof.
  intros [Ha _] Hl. constructor.
  - intros b r' Hb Hp. rewrite role_publish. destruct (decide (a = b)) as [<-|]; [|done].
    rewrite Ha in Hb. injection Hb as <-. by destruct (Hp t).
  - exists []. by rewrite app_nil_r.
  - apply (grows_write w l x Hl).
  - intros b n [Hb _] (y & Hy & Hm). left. exists y. rewrite atom_publish. by destruct (decide (l = Next b)) as [->|].
  - intros b n k [Hb _] _ _. left. rewrite atom_publish. by destruct (decide (l = Value b)) as [->|].
Qed.

Lemma frame_publish t t' l x a r o w :
  mine t w a o -> grows w (publish_at l x a r w) -> may_touch t w l -> t' <> t -> frame t' w (publish_at l x a r w).
Proof.
  intros [Ha _] Hg Ht Hne. apply frame_of_grows; [done|by apply same_log|]. intros b Hb.
  assert (a <> b) as Hab by congruence. rewrite role_publish, decide_False by done. split; [done|]. split; [done|].
  intros l' Hl'. rewrite atom_publish. destruct (decide (l = l')) as [->|]; [|done]. destruct Hne. by apply (Ht b).
Qed.

(** Published objects other than [a], and [a] if its role is another one. *)
Lemma publish_back l x a r w b r' :
  roles (publish_at l x a r w) !! b = Some r' -> r' <> r -> roles w !! b = Some r'.
Proof. rewrite role_publish. destruct (decide (a = b)); [congruence|done]. Qed.

(** A segment of the tree points to a new array. *)
Definition array_slot w (l : loc) (path : list Z) : Prop :=
  match l with
  | Top i => path = [i]
  | Data s i => exists p o, pub_array w s p /\ obj_at w s = Some o /\ Data s i ∈ members s o /\ path = p ++ [i]
  | _ => False
  end.

Lemma inv_publish_array t l a o path w :
  Inv w -> mine t w a o -> array_kind path o -> (forall l', l' ∈ members a o -> atom_at w l' = Some 0) ->
  array_slot w l path -> atom_at w l = Some 0 ->
  let w' := publish_at l a a (PArray path) w in
  Inv w' /\ grows w w' /\ (forall t', t' <> t -> frame t' w w') /\ pub_array w' a path.
Proof.
  intros [Hh Hl Hc Ht Hg] Ha Hk H0 Hslot Hold w'.
  assert (forall l', match l' with Next _ | Value _ | PowerOf2 | Size | HpSize | HpHead | HpNext _ | BucketAt _ _ => True | _ => False end ->
    atom_at w' l' = atom_at w l') as Hat.
  { intros l' Hl'. unfold w'. rewrite atom_publish. destruct (decide (l = l')) as [->|]; [|done]. by destruct l'. }
  assert (grows w w') as Hgr by (apply (grows_publish t _ _ _ _ o); [done|by destruct l]).
  assert (forall b n, pub_node w b n -> same_node w w' b) as Hsame by (intros b n _; split; by apply Hat).
  assert (forall b n, pub_node w' b n -> pub_node w b n) as Hback.
  { intros b n [H1 H2]. split; [by eapply publish_back|done]. }
  assert (pub_array w' a path) as Hpa.
  { split; [unfold w'; rewrite role_publish; by rewrite decide_True|]. exists o. split; [apply Ha|done]. }
  split; [|split; [done|split; [|done]]].
  2: { intros t' Hne. apply (frame_publish t t' l a a _ o); [done|done| |done].
       intros b t'' Hb Hr. destruct l; try done. injection Hb as ->. destruct Hslot as (p & o' & [Hp _] & _). congruence. }
  constructor.
  - apply (heap_publish t l a a _ o); [done|done|done|by intros b ? ->].
  - by apply (list_keep w).
  - by apply (log_keep w).
  - destruct Ht as [Htop Hdata Hbucket Hzero].
    assert (forall s p, pub_array w' s p -> s <> a -> pub_array w s p) as Hb.
    { intros s p [H1 H2] Hne. unfold w' in H1. rewrite role_publish, decide_False in H1 by done. by split. }
    assert (forall s p, pub_array w' s p -> s = a -> p = path) as Hpath.
    { intros s p [H1 _] ->. unfold w' in H1. rewrite role_publish, decide_True in H1 by done. congruence. }
    constructor.
    + intros i Hi. unfold w'. rewrite atom_publish. destruct (decide (l = Top i)) as [->|].
      * exists a. split; [done|]. right. cbn in Hslot. by rewrite <- Hslot.
      * destruct (Htop i Hi) as (s & Hs & Hp). exists s. split; [done|].
        destruct Hp as [?|Hp]; [by left|right]. by apply (pub_array_grows w).
    + intros s p o' i x Hp Ho' Hi Hx. unfold w' in Hx. rewrite atom_publish in Hx.
      destruct (decide (l = Data s i)) as [->|].
      * injection Hx as <-. right. destruct Hslot as (p' & o2 & Hp' & _ & _ & ->).
        assert (p = p') as ->; [|done]. destruct (pub_array_grows _ _ _ _ Hgr Hp') as [H1 _]. destruct Hp as [H2 _]. congruence.
      * destruct (decide (s = a)) as [->|Hne].
        -- left. assert (o' = o) as -> by (destruct Ha as [_ Ha]; unfold obj_at, w' in *; cbn in *; congruence).
           rewrite (H0 _ Hi) in Hx. congruence.
        -- destruct (Hdata s p o' i x (Hb _ _ Hp Hne) Ho' Hi Hx) as [?|Hpx]; [by left|right]. by apply (pub_array_grows w).
    + intros s p o' i d Hp Ho' Hi Hx. rewrite Hat in Hx by done. destruct (decide (s = a)) as [->|Hne].
      * left. assert (o' = o) as -> by (destruct Ha as [_ Ha]; unfold obj_at, w' in *; cbn in *; congruence).
        rewrite (H0 _ Hi) in Hx. congruence.
      * destruct (Hbucket s p o' i d (Hb _ _ Hp Hne) Ho' Hi Hx) as [?|Hpx]; [by left|right]. by apply (pub_node_grows w).
    + destruct Hzero as (H1 & H2 & H3).
      assert (forall l', nonzero_at w l' -> nonzero_at w' l') as Hkeep.
      { intros l' (x & Hx & Hx0). exists x. split; [|done]. unfold w'. rewrite atom_publish, decide_False; [done|]. intros ->. congruence. }
      assert (~ nonzero_at w l) as Hzl by (intros (y & Hy & Hy0); congruence).
      split; [by apply Hkeep|]. split.
      * intros s Hp. destruct (decide (s = a)) as [->|Hne]; [|apply Hkeep, H2; destruct Hp; [left|right]; by apply Hb].
        exfalso. destruct Hzl. destruct Hp as [Hp|Hp]; pose proof (Hpath _ _ Hp eq_refl) as Hpe.
        -- destruct l; try done; cbn in Hslot; [congruence|]. destruct Hslot as (p' & o' & Hp' & _ & _ & He).
           destruct p' as [|? [|? ?]]; [|by cbn in He; congruence..]. by destruct Hp' as (_ & ? & _ & ?).
        -- destruct l; try done; cbn in Hslot; [congruence|]. destruct Hslot as (p' & o' & Hp' & _ & _ & He).
           assert (p' = [0] /\ i = 0) as [-> ->]; [|by apply H2; left].
           apply (app_inj_tail p' [0]). cbn. congruence.
      * intros s Hp. destruct (decide (s = a)) as [->|Hne]; [|by apply Hkeep, H3, Hb].
        exfalso. destruct Hzl. pose proof (Hpath _ _ Hp eq_refl) as Hpe.
        destruct l; try done; cbn in Hslot; [congruence|]. destruct Hslot as (p' & o' & Hp' & _ & _ & He).
        assert (p' = [0; 0] /\ i = 0) as [-> ->]; [|by apply H2; right].
        apply (app_inj_tail p' [0; 0]). cbn. congruence.
  - pose proof Hg as [Hpow Hsz Hhs Hhh Hhn]. apply (globals_keep w); rewrite ?Hat by done; try done.
    + intros h _. by apply Hat.
    + intros h [H1 H2]. split; [by eapply publish_back|done].
Qed.

(** The list of hazard pointers gets a new head. *)
Lemma inv_publish_hazard t a w :
  Inv w -> mine t w a OHazard -> (exists x, atom_at w (HpNext a) = Some x /\ atom_at w HpHead = Some x) ->
  let w' := publish_at HpHead a a PHazard w in
  Inv w' /\ grows w w' /\ (forall t', t' <> t -> frame t' w w') /\ pub_hazard w' a.
Proof.
  intros [Hh Hl Hc Ht Hg] Ha (x0 & Hx0 & Hhead) w'.
  assert (forall l, l <> HpHead -> atom_at w' l = atom_at w l) as Hat.
  { intros l Hl'. unfold w'. rewrite atom_publish. by destruct (decide (HpHead = l)) as [<-|]. }
  assert (grows w w') as Hgr by (by apply (grows_publish t _ _ _ _ OHazard)).
  assert (forall b n, pub_node w b n -> same_node w w' b) as Hsame by (intros b n _; split; by apply Hat).
  assert (pub_hazard w' a) as Hpa.
  { split; [unfold w'; rewrite role_publish; by rewrite decide_True|apply Ha]. }
  split; [|split; [done|split; [|done]]].
  2: { intros t' Hne. by apply (frame_publish t t' _ _ _ _ OHazard). }
  constructor.
  - by apply (heap_publish t _ _ _ _ OHazard).
  - apply (list_keep w); try done. intros b n [H1 H2]. split; [by eapply publish_back|done].
  - by apply (log_keep w).
  - apply (tree_keep w); try done; [intros; by apply Hat|intros; split; by apply Hat|].
    intros s p [H1 H2]. split; [by eapply publish_back|done].
  - destruct Hg as [Hpow Hsz Hhs (h0 & Hh0 & Hp0) Hhn]. constructor; rewrite ?Hat by done; try done.
    + exists a. split; [|done]. unfold w'. rewrite atom_publish. by rewrite decide_True.
    + intros h x [H1 H2] Hx. rewrite Hat in Hx by done. unfold w' in H1. rewrite role_publish in H1.
      destruct (decide (a = h)) as [<-|].
      * right. apply (pub_hazard_grows w); [done|]. congruence.
      * destruct (Hhn h x) as [?|Hp]; [by split|done|by left|right]. by apply (pub_hazard_grows w).
Qed.

(** A bucket gets its dummy node. *)
Lemma inv_write_bucket w s path o i d :
  Inv w -> pub_array w s path -> obj_at w s = Some o -> BucketAt s i ∈ members s o ->
  pub_node w d (DummyNode (bucket_index_of (path ++ [i]))) ->
  let w' := write (BucketAt s i) d w in
  Inv w' /\ grows w w' /\ (forall t', frame t' w w').
Proof.
  intros [Hh Hl Hc Ht Hg] Hs Ho Hi Hd w'.
  assert (forall l, l <> BucketAt s i -> atom_at w' l = atom_at w l) as Hat.
  { intros l Hne. unfold w'. rewrite atom_write. by destruct (decide (BucketAt s i = l)) as [<-|]. }
  assert (grows w w') as Hgr by (by apply grows_write).
  assert (forall b n, pub_node w b n -> same_node w w' b) as Hsame by (intros b n _; split; by apply Hat).
  split; [|split; [done|]].
  2: { intros t'. apply frame_of_grows; [done|by apply same_log|]. intros b Hb. split; [done|]. split; [done|].
       intros l Hlo. apply Hat. intros ->. injection Hlo as ->. destruct Hs as [Hs _]. congruence. }
  constructor.
  - by apply heap_write.
  - by apply (list_keep w).
  - by apply (log_keep w).
  - destruct Ht as [Htop Hdata Hbucket Hzero]. constructor.
    + intros j Hj. destruct (Htop j Hj) as (y & Hy & Hp). exists y. by rewrite Hat.
    + intros b p o' j x Hp Ho' Hj Hx. rewrite Hat in Hx by done. by apply (Hdata b p o' j x).
    + intros b p o' j x Hp Ho' Hj Hx. unfold w' in Hx. rewrite atom_write in Hx.
      destruct (decide (BucketAt s i = BucketAt b j)) as [[= <- <-]|].
      * injection Hx as <-. right. destruct Hs as [H1 _], Hp as [H2 _].
        assert (p = path) as -> by (cbn in H2; congruence). done.
      * by apply (Hbucket b p o' j x).
    + destruct Hzero as (H1 & H2 & H3). unfold nonzero_at in *. rewrite Hat by done. split; [done|]. split.
      * intros b Hp. rewrite Hat by done. by apply H2.
      * intros b Hp. unfold w'. rewrite atom_write. destruct (decide _); [|by apply H3].
        exists d. split; [done|]. intros ->. destruct (ih_address _ _ Hh 0 _ (proj2 Hd)). lia.
  - pose proof Hg as [Hpow Hsz Hhs Hhh Hhn]. apply (globals_keep w); rewrite ?Hat by done; try done.
    intros h _. by apply Hat.
Qed.

(** ** The list *)

Lemma first_app q (l1 l2 : list (Z * node)) : first q (l1 ++ l2) = first (first q l2) l1.
Proof. by destruct l1 as [|[a n] l1]. Qed.

Lemma linked_app w l1 l2 q : linked w (l1 ++ l2) q <-> linked w l1 (first q l2) /\ linked w l2 q.
Proof.
  induction l1 as [|[a n] l1 IH]; cbn; [tauto|]. rewrite IH, first_app. tauto.
Qed.

(** The first node of a part of the list is at an address, or there is none. *)
Lemma first_address w l1 l2 :
  inv_heap w -> inv_list w -> order w = l1 ++ l2 -> first 0 l2 = 0 \/ address (first 0 l2).
Proof.
  intros Hh Hl Ho. destruct l2 as [|[a n] l2]; [by left|right]. cbn.
  eapply (ih_address _ _ Hh a (ONode n)), (il_nodes _ _ Hl a n). rewrite Ho. apply elem_of_app. right. left.
Qed.

Lemma unmarked_address b : b = 0 \/ address b -> is_marked_reference b = false /\ get_unmarked_reference (get_marked_reference b) = b.
Proof.
  intros [->|Hb]; [done|]. pose proof (address_unmarked b Hb). split; [done|]. apply get_unmarked_marked; [destruct Hb; lia|done].
Qed.

(** A live node is in the list and leads to its successor there. *)
Lemma order_split w a n x :
  inv_heap w -> inv_list w -> pub_node w a n -> atom_at w (Next a) = Some x -> is_marked_reference x = false ->
  exists l1 l2, order w = l1 ++ (a, n) :: l2 /\ x = first 0 l2.
Proof.
  intros Hh Hl Hp Hx Hm. assert ((a, n) ∈ order w) as Ha by (apply (il_live _ _ Hl); [done|]; by exists x).
  apply list_elem_of_split in Ha as (l1 & l2 & Ho). exists l1, l2. split; [done|].
  pose proof (il_linked _ _ Hl) as Hk. rewrite Ho, linked_app in Hk. destruct Hk as [_ [[Hy|Hy] _]]; [congruence|].
  rewrite Hy in Hx. injection Hx as <-. by rewrite get_marked_marked in Hm.
Qed.

(** A marked node in the list leads to its successor under the mark. *)
Lemma order_split_marked w l1 a n l2 x :
  inv_heap w -> inv_list w -> order w = l1 ++ (a, n) :: l2 -> atom_at w (Next a) = Some x ->
  is_marked_reference x = true -> x = get_marked_reference (first 0 l2) /\ get_unmarked_reference x = first 0 l2.
Proof.
  intros Hh Hl Ho Hx Hm. pose proof (il_linked _ _ Hl) as Hk. rewrite Ho, linked_app in Hk.
  assert (first 0 l2 = 0 \/ address (first 0 l2)) as Hf by (apply (first_address w (l1 ++ [(a, n)])); [done..|]; by rewrite <- app_assoc).
  destruct (unmarked_address _ Hf) as [Hu1 Hu2]. destruct Hk as [_ [[Hy|Hy] _]]; rewrite Hy in Hx; injection Hx as <-.
  - congruence.
  - done.
Qed.

(** Every address is in the list once. *)
Lemma before_irrefl x : ~ before x x.
Proof. unfold before. by rewrite Less_irrefl. Qed.

Lemma order_fst_NoDup w : inv_list w -> NoDup (fst <$> order w).
Proof.
  intros Hl. assert (NoDup (order w)) as Hnd.
  { pose proof (il_sorted _ _ Hl) as Hs. induction Hs as [|x l Hs IH Hx]; [apply NoDup_nil_2|].
    apply NoDup_cons_2; [|done]. intros Hin. rewrite Forall_forall in Hx. by apply (before_irrefl x), Hx. }
  apply NoDup_fmap_2_strong; [|done]. intros [a n] [b m] Ha Hb [= ->].
  destruct (il_nodes _ _ Hl _ _ Ha) as [_ H1], (il_nodes _ _ Hl _ _ Hb) as [_ H2]. congruence.
Qed.

Lemma order_not_elsewhere w l1 a n l2 b m :
  inv_list w -> order w = l1 ++ (a, n) :: l2 -> (b, m) ∈ l1 ++ l2 -> b <> a.
Proof.
  intros Hl Ho Hb ->. pose proof (order_fst_NoDup w Hl) as Hnd. rewrite Ho, fmap_app in Hnd. cbn in Hnd.
  apply NoDup_app in Hnd as (_ & Hd & Hnd). apply NoDup_cons in Hnd as [Hn _].
  apply elem_of_app in Hb as [Hb|Hb].
  - apply (Hd a); [|left]. apply list_elem_of_fmap. by exists (a, m).
  - apply Hn, list_elem_of_fmap. by exists (a, m).
Qed.

(** A key has one node. *)
Lemma wf_same_key n m k :
  wf_node hash_func_ n -> wf_node hash_func_ m -> key_of n = Some k -> key_of m = Some k -> n = m.
Proof. unfold wf_node. intros Hn Hm Hk Hk'. rewrite Hk in Hn. rewrite Hk' in Hm. destruct Hn as [-> _], Hm as [-> _]. done. Qed.

Lemma node_wf w a n : inv_heap w -> inv_list w -> (a, n) ∈ order w -> wf_node hash_func_ n.
Proof. intros Hh Hl Ha. eapply (ih_wf _ _ Hh a), (il_nodes _ _ Hl a n Ha). Qed.

Lemma in_order_key w a n b m k :
  inv_heap w -> inv_list w -> (a, n) ∈ order w -> (b, m) ∈ order w -> key_of n = Some k -> key_of m = Some k -> a = b /\ n = m.
Proof.
  intros Hh Hl Ha Hb Hk Hk'.
  assert (n = m) as -> by (eapply wf_same_key; [by eapply node_wf|by eapply node_wf|done|done]). split; [|done].
  apply list_elem_of_split in Ha as (l1 & l2 & Ho). pose proof (il_sorted _ _ Hl) as Hs. rewrite Ho in Hs, Hb.
  rewrite StronglySorted_app, StronglySorted_cons, Forall_forall in Hs. destruct Hs as (Hs1 & _ & Hs2 & _).
  apply elem_of_app in Hb as [Hb|[[=]|Hb]%elem_of_cons]; [|done|].
  - pose proof (Hs1 (b, m) (a, m) Hb ltac:(left)) as H. unfold before in H. cbn in H. by rewrite Less_irrefl in H.
  - pose proof (Hs2 (b, m) Hb) as H. unfold before in H. cbn in H. by rewrite Less_irrefl in H.
Qed.

(** A value that a thread has made becomes a value of the table. *)
Definition become v (r : role) w : world V := MkWorld (mem w) (order w) (<[v := r]> (roles w)) (log w).

Lemma inv_become_value t v x w :
  Inv w -> mine t w v (OValue x) ->
  let w' := become v PValue w in
  Inv w' /\ grows w w' /\ (forall t', t' <> t -> frame t' w w') /\ pub_value w' v x /\
  (forall a o, a <> v -> mine t w a o -> mine t w' a o).
Proof.
  intros [Hh Hl Hc Ht Hg] [Hv Hvo] w'.
  assert (forall b, roles w' !! b = if decide (v = b) then Some PValue else roles w !! b) as Hrole.
  { intros b. cbn. destruct (decide (v = b)) as [->|]; [by rewrite lookup_insert_eq|by rewrite lookup_insert_ne]. }
  assert (grows w w') as Hgr.
  { constructor; try done.
    - intros b r Hb Hp. rewrite Hrole. destruct (decide (v = b)) as [<-|]; [|done].
      rewrite Hv in Hb. injection Hb as <-. by destruct (Hp t).
    - exists []. by rewrite app_nil_r.
    - by left.
    - by left. }
  assert (forall b r, roles w' !! b = Some r -> r <> PValue -> roles w !! b = Some r) as Hback.
  { intros b r. rewrite Hrole. destruct (decide (v = b)); [congruence|done]. }
  split; [|split; [done|split; [|split]]].
  - constructor.
    + destruct Hh as [Had Hm Hw Hr Ho Hp]. constructor; try done.
      * intros b o Hb. rewrite Hrole. destruct (decide (v = b)) as [<-|]; [|by apply Hr].
        exists PValue. split; [done|]. exists x. unfold obj_at in *. cbn in *. congruence.
      * intros b r Hb. rewrite Hrole in Hb. destruct (decide (v = b)) as [<-|]; [by exists (OValue x)|by eapply Ho].
      * intros b t' n [Hb Hbo]. apply Hback in Hb; [|done]. by apply (Hp b t' n).
    + apply (list_keep w); try done. intros b n [H1 H2]. split; [by apply Hback|done].
    + by apply (log_keep w).
    + apply (tree_keep w); try done. intros b p [H1 H2]. split; [by apply Hback|done].
    + pose proof Hg as [Hpow Hsz Hhs Hhh Hhn]. apply (globals_keep w); try done.
      intros h [H1 H2]. split; [by apply Hback|done].
  - intros t' Hne. apply frame_of_grows; [done|by apply same_log|]. intros b Hb.
    rewrite Hrole, decide_False by congruence. done.
  - split; [|done]. rewrite Hrole. by rewrite decide_True.
  - intros a o Ha [H1 H2]. split; [|done]. by rewrite Hrole, decide_False.
Qed.

Lemma same_first {A} (l1 l2 l r : list A) x y : l1 ++ x :: l2 = y :: l -> exists l', l1 ++ x :: r = y :: l'.
Proof. destruct l1 as [|z l1]; cbn; intros [= -> _]; by eexists. Qed.

(** *** Linking a new node *)

Definition link t prev np new n l1 l2 (ev : list (nat * change V)) w : world V :=
  MkWorld (set_atom (Next prev) new (mem w)) (l1 ++ (prev, np) :: (new, n) :: l2) (<[new := PNode]> (roles w)) (log w ++ ev).

(** What the log says of a new node. *)
Definition link_event t w (new : Z) n (ev : list (nat * change V)) : Prop :=
  match key_of n with
  | None => ev = []
  | Some k => exists v x, atom_at w (Value new) = Some v /\ pub_value w v x /\ ev = [(t, Added k x)]
  end.

Section Link.
Context (t : nat) (w : world V) (prev : Z) (np : node) (new : Z) (n : node) (l1 l2 : list (Z * node))
  (ev : list (nat * change V)).
Hypothesis (Hinv : Inv w).
Hypothesis (Ho : order w = l1 ++ (prev, np) :: l2).
Hypothesis (Hprev : atom_at w (Next prev) = Some (first 0 l2)).
Hypothesis (Hnew : mine t w new (ONode n)).
Hypothesis (Hnext : atom_at w (Next new) = Some (first 0 l2)).
Hypothesis (Hlo : Less np n = true).
Hypothesis (Hhi : forall a m, (a, m) ∈ l2 -> Less n m = true).
Hypothesis (Hev : link_event t w new n ev).

Let w' := link t prev np new n l1 l2 ev w.

Lemma link_atom l : atom_at w' l = if decide (Next prev = l) then Some new else atom_at w l.
Proof. apply (atom_write (Next prev) new w l). Qed.

Lemma link_role b : roles w' !! b = if decide (new = b) then Some PNode else roles w !! b.
Proof. cbn. destruct (decide (new = b)) as [->|]; [by rewrite lookup_insert_eq|by rewrite lookup_insert_ne]. Qed.

Lemma link_prev : pub_node w prev np.
Proof. apply (il_nodes _ _ (inv_l _ _ _ Hinv)). rewrite Ho. apply elem_of_app. right. left. Qed.

Lemma link_new_ne : new <> prev.
Proof. intros ->. destruct Hnew as [H1 _], link_prev as [H2 _]. congruence. Qed.

Lemma link_new_address : address new.
Proof. eapply (ih_address _ _ (inv_h _ _ _ Hinv) new), Hnew. Qed.

Lemma link_old_live : is_marked_reference (first 0 l2) = false.
Proof.
  apply (unmarked_address (first 0 l2)), (first_address w (l1 ++ [(prev, np)])); [apply Hinv..|].
  by rewrite Ho, <- app_assoc.
Qed.

(** Marks are as they were. *)
Lemma link_live b : b <> new -> live w' b <-> live w b.
Proof.
  intros Hb. unfold live. rewrite link_atom. destruct (decide (Next prev = Next b)) as [[= <-]|]; [|done]. split.
  - intros _. exists (first 0 l2). split; [done|apply link_old_live].
  - intros _. exists new. split; [done|]. apply address_unmarked, link_new_address.
Qed.

Lemma link_live_new : live w' new.
Proof.
  exists (first 0 l2). rewrite link_atom, decide_False; [split; [done|apply link_old_live]|].
  intros [= H]. by apply link_new_ne.
Qed.

Lemma link_grows : grows w w'.
Proof.
  destruct Hnew as [Hr _]. constructor.
  - intros b r Hb Hp. rewrite link_role. destruct (decide (new = b)) as [<-|]; [|done].
    rewrite Hr in Hb. injection Hb as <-. by destruct (Hp t).
  - by exists ev.
  - intros b x Hb Hx Hm. rewrite link_atom. destruct (decide (Next prev = Next b)) as [[= <-]|]; [|done].
    rewrite Hprev in Hx. injection Hx as <-. by rewrite link_old_live in Hm.
  - intros b m [Hb _] Hlv. left. apply link_live; [|done]. intros ->. congruence.
  - intros b m k _ _ _. left. by rewrite link_atom, decide_False.
Qed.

Lemma link_back b m : pub_node w' b m -> b <> new -> pub_node w b m.
Proof. intros [H1 H2] Hb. split; [|done]. rewrite link_role, decide_False in H1; congruence. Qed.

Lemma link_pub_new : pub_node w' new n.
Proof. split; [rewrite link_role; by rewrite decide_True|apply Hnew]. Qed.

Lemma link_in b m : (b, m) ∈ order w' <-> (b, m) ∈ order w \/ (b = new /\ m = n).
Proof. cbn. rewrite Ho, !elem_of_app, !elem_of_cons. naive_solver. Qed.

Lemma link_sorted : StronglySorted before (order w').
Proof.
  pose proof (il_sorted _ _ (inv_l _ _ _ Hinv)) as Hs. rewrite Ho in Hs.
  assert (forall a m, (a, m) ∈ order w -> wf_node hash_func_ m) as Hwf by (intros; eapply node_wf; [apply Hinv..|done]).
  assert (wf_node hash_func_ n) as Hwn by (eapply (ih_wf _ _ (inv_h _ _ _ Hinv) new), Hnew).
  assert (wf_node hash_func_ np) as Hwp by (eapply (Hwf prev); rewrite Ho; apply elem_of_app; right; left).
  change (order w') with (l1 ++ ((prev, np) :: (new, n) :: l2)).
  rewrite StronglySorted_app, !StronglySorted_cons, !Forall_forall in *.
  destruct Hs as (H1 & H2 & H3 & H4). split; [|split; [done|split; [|split; [|done]]]].
  - intros [a m] y Hm [->|[->|Hy]%elem_of_cons]%elem_of_cons.
    + apply H1; [done|left].
    + eapply Less_trans; [eapply (Hwf a m); rewrite Ho; apply elem_of_app; by left|exact Hwp|exact Hwn| |exact Hlo].
      apply (H1 (a, m) (prev, np)); [done|left].
    + apply H1; [done|by right].
  - intros y [->|Hy]%elem_of_cons; [exact Hlo|by apply H3].
  - intros [a m] Hy. by eapply Hhi.
Qed.

Lemma link_list : inv_list w'.
Proof.
  pose proof (inv_l _ _ _ Hinv) as Hl. pose proof Hl as [Hh Hk Hs Hn Hlv Hd Hv].
  pose proof link_grows as Hgr. pose proof Hev as Hev'. constructor.
  - destruct Hh as [l Hh]. rewrite Ho in Hh. eapply same_first. exact Hh.
  - rewrite Ho, linked_app in Hk. cbn in Hk. destruct Hk as (H1 & _ & H2).
    change (linked w' (l1 ++ ((prev, np) :: (new, n) :: l2)) 0). rewrite linked_app. cbn [linked first].
    assert (forall b m, (b, m) ∈ l1 ++ l2 -> atom_at w' (Next b) = atom_at w (Next b)) as Hsame.
    { intros b m Hb. rewrite link_atom, decide_False; [done|]. intros [= He].
      by eapply (order_not_elsewhere w l1 prev np l2 b m). }
    split; [|split; [|split]].
    + apply (linked_keep w); [|done]. intros b m Hb. apply (Hsame b m), elem_of_app. by left.
    + left. rewrite link_atom. by rewrite decide_True.
    + left. rewrite link_atom, decide_False; [done|]. intros [= He]. by apply link_new_ne.
    + apply (linked_keep w); [|done]. intros b m Hb. apply (Hsame b m), elem_of_app. by right.
  - apply link_sorted.
  - intros b m [Hb|[-> ->]]%link_in; [|apply link_pub_new]. apply (pub_node_grows w); [exact Hgr|]. by apply Hn.
  - intros b m Hp Hlb. apply link_in. destruct (decide (b = new)) as [->|Hb].
    + right. split; [done|]. destruct Hp as [_ H1], link_pub_new as [_ H2]. congruence.
    + left. apply Hlv; [by apply link_back|]. by apply link_live.
  - intros b m Hp Hi. destruct (decide (b = new)) as [->|Hb]; [apply link_live_new|].
    apply link_live; [done|]. eapply Hd; [by apply link_back|done].
  - intros b m Hp Hi. destruct (decide (b = new)) as [->|Hb].
    + destruct Hp as [_ H1], link_pub_new as [_ H2]. assert (m = n) as -> by congruence.
      unfold link_event in Hev'. unfold IsDummy in Hi. destruct (key_of n) as [k|]; [|done].
      destruct Hev' as (v & x & Hva & Hpv & _). exists v, x. rewrite link_atom, decide_False by done.
      split; [done|]. by apply (pub_value_grows w); [exact Hgr|].
    + destruct (Hv b m (link_back b m Hp Hb) Hi) as (v & x & Hva & Hpv). exists v, x. rewrite link_atom, decide_False by done.
      split; [done|]. by apply (pub_value_grows w); [exact Hgr|].
Qed.

Lemma link_heap : inv_heap w'.
Proof.
  apply (heap_same (publish_at (Next prev) new new PNode w)); [done|done|].
  apply (heap_publish t _ _ _ _ (ONode n)); [apply Hinv|done|by exists n|].
  intros b t' [= <-] Hb. destruct link_prev as [H1 _]. congruence.
Qed.

Lemma link_value_back b m v x :
  (b, m) ∈ order w -> key_of m <> None -> atom_at w' (Value b) = Some v -> pub_value w' v x ->
  atom_at w (Value b) = Some v /\ pub_value w v x.
Proof.
  intros Hb Hk Hva Hp. rewrite link_atom, decide_False in Hva by done. split; [done|].
  destruct (il_value _ _ (inv_l _ _ _ Hinv) b m) as (v' & x' & Hv' & Hp').
  { by apply (il_nodes _ _ (inv_l _ _ _ Hinv)). }
  { unfold IsDummy. by rewrite bool_decide_false. }
  assert (v' = v) as -> by congruence. destruct (pub_value_grows _ _ _ _ link_grows Hp') as [_ H1]. destruct Hp as [_ H2].
  assert (x' = x) as -> by congruence. done.
Qed.

Lemma link_log : inv_log w'.
Proof.
  pose proof (inv_l _ _ _ Hinv) as Hl. destruct (inv_c _ _ _ Hinv) as [Hsnd Hc]. pose proof link_list as Hl'.
  assert (inv_heap w) as Hh by apply Hinv.
  assert (forall b m, (b, m) ∈ order w -> b <> new) as Hne.
  { intros b m Hb ->. destruct (il_nodes _ _ Hl _ _ Hb) as [H1 _], Hnew as [H2 _]. congruence. }
  assert (forall k x, (exists a m v, (a, m) ∈ order w' /\ key_of m = Some k /\ live w' a /\ atom_at w' (Value a) = Some v /\ pub_value w' v x)
    <-> replay (log w) !! k = Some x \/ (key_of n = Some k /\ exists v, atom_at w (Value new) = Some v /\ pub_value w' v x)) as Hcontent.
  { intros k x. rewrite (Hc k x). split.
    - intros (a & m & v & [Ha|[-> ->]]%link_in & Hk & Hlv & Hva & Hp).
      + left. exists a, m, v. destruct (link_value_back a m v x Ha ltac:(congruence) Hva Hp) as [? ?].
        split; [done|]. split; [done|]. split; [|done]. by apply link_live; [by eapply Hne|].
      + right. split; [done|]. exists v. by rewrite link_atom, decide_False in Hva.
    - intros [(a & m & v & Ha & Hk & Hlv & Hva & Hp)|(Hk & v & Hva & Hp)].
      + exists a, m, v. split; [apply link_in; by left|]. split; [done|]. split; [by apply link_live; [by eapply Hne|]|].
        rewrite link_atom, decide_False by done. split; [done|]. by apply (pub_value_grows w); [apply link_grows|].
      + exists new, n, v. split; [apply link_in; by right|]. split; [done|]. split; [apply link_live_new|].
        by rewrite link_atom, decide_False. }
  pose proof link_grows as Hgr. pose proof link_in as Hin. pose proof link_heap as Hheap. pose proof Hev as Hev'.
  assert (forall kn, key_of n = Some kn -> replay (log w) !! kn = None) as Habsent.
  { intros kn Hkn. destruct (replay (log w) !! kn) as [x|] eqn:Hx; [|done]. apply Hc in Hx as (a & m & v & Ha & Hkm & _).
    destruct (in_order_key w' a m new n kn) as [He _]; try done; [apply Hin; by left|apply Hin; by right|].
    by destruct (Hne a m Ha). }
  assert (grows w w' -> forall v x, pub_value w' v x -> forall y, pub_value w v y -> y = x) as Hsame.
  { intros _ v x [_ H1] y Hp. apply (pub_value_grows _ _ _ _ Hgr) in Hp as [_ H2]. congruence. }
  split.
  { unfold w', link. cbn [log]. unfold link_event in Hev'. destruct (key_of n) as [kn|].
    - destruct Hev' as (v0 & x0 & _ & _ & ->). apply sound_log_snoc; [done|]. by apply Habsent.
    - rewrite Hev'. by rewrite app_nil_r. }
  intros k x. rewrite Hcontent. unfold link_event in Hev'. destruct (key_of n) as [kn|].
  - destruct Hev' as (v0 & x0 & Hv0 & Hp0 & Hee).
    assert (replay (log w') = <[kn := x0]> (replay (log w))) as ->.
    { unfold w', link. cbn [log]. by rewrite Hee, replay_snoc. }
    destruct (decide (k = kn)) as [->|Hk].
    + rewrite lookup_insert_eq. split.
      * intros [= <-]. right. split; [done|]. exists v0. split; [done|]. by apply (pub_value_grows w).
      * intros [He|(_ & v & Hv & Hp)]; [by rewrite (Habsent kn eq_refl) in He|].
        assert (v = v0) as -> by congruence. f_equal. by apply (Hsame Hgr v0).
    + rewrite lookup_insert_ne by congruence. split; [by left|]. intros [?|[[= ?] _]]; congruence.
  - assert (log w' = log w) as -> by (unfold w', link; cbn [log]; by rewrite Hev', app_nil_r).
    split; [by left|]. by intros [?|[? _]].
Qed.

Lemma inv_link :
  Inv w' /\ grows w w' /\ (forall t', t' <> t -> frame t' w w') /\ pub_node w' new n.
Proof.
  pose proof link_grows as Hgr. split; [|split; [done|split; [|apply link_pub_new]]].
  - pose proof Hinv as [Hh Hl Hc Ht Hg]. constructor.
    + apply link_heap.
    + apply link_list.
    + apply link_log.
    + apply (tree_keep w); try done; [intros; by rewrite link_atom, decide_False|intros; split; by rewrite link_atom, decide_False|].
      intros s p [H1 H2]. split; [|done]. rewrite link_role in H1. by destruct (decide (new = s)).
    + pose proof Hg as [Hpow Hsz Hhs Hhh Hhn]. apply (globals_keep w); try done; rewrite ?link_atom, ?decide_False by done; try done.
      * intros h _. by rewrite link_atom, decide_False.
      * intros h [H1 H2]. split; [|done]. rewrite link_role in H1. by destruct (decide (new = h)).
  - intros t' Hne. apply frame_of_grows; [done| |].
    + intros i e Hi He. cbn in He. rewrite lookup_app_r in He by done.
      pose proof Hev as Hev'. unfold link_event in Hev'. destruct (key_of n) as [k|].
      * destruct Hev' as (v & x & _ & _ & Hee). rewrite Hee in He. apply list_lookup_singleton_Some in He as [_ <-]. cbn. congruence.
      * by rewrite Hev' in He.
    + intros b Hb. rewrite link_role. destruct (decide (new = b)) as [<-|].
      { destruct Hnew as [H1 _]. congruence. }
      split; [done|]. split; [done|]. intros l Hlo'. rewrite link_atom. destruct (decide (Next prev = l)) as [<-|]; [|done].
      injection Hlo' as <-. destruct link_prev as [H1 _]. congruence.
Qed.

End Link.

(** A step on one variable of the list, with the roles as they are. *)
Definition revise (l : loc) (x : Z) (o : list (Z * node)) (ev : list (nat * change V)) w : world V :=
  MkWorld (set_atom l x (mem w)) o (roles w) (log w ++ ev).

Lemma atom_revise l x o ev w l' : atom_at (revise l x o ev w) l' = if decide (l = l') then Some x else atom_at w l'.
Proof. apply (atom_write l x w l'). Qed.

(** What such a step does not touch. *)
Lemma revise_rest l x o ev w :
  Inv w -> grows w (revise l x o ev w) -> (exists a n, pub_node w a n /\ (l = Next a \/ l = Value a)) ->
  let w' := revise l x o ev w in
  inv_heap w' /\ inv_tree w' /\ inv_globals w' /\
  (forall t, (forall e, e ∈ ev -> fst e = t) -> forall t', t' <> t -> frame t' w w').
Proof.
  intros [Hh Hl Hc Ht Hg] Hgr (a & n & [Ha _] & Hla) w'.
  assert (forall l', match l' with Next _ | Value _ => False | _ => True end -> atom_at w' l' = atom_at w l') as Hat.
  { intros l' Hl'. unfold w'. rewrite atom_revise. destruct (decide (l = l')) as [<-|]; [|done]. by destruct Hla as [->| ->]. }
  split; [|split; [|split]].
  - apply (heap_same (write l x w)); [done|done|]. apply heap_write; [done|].
    intros b t -> Hb. destruct Hla as [[= ->]|]; congruence.
  - apply (tree_keep w); try done; intros; [by apply Hat|split; by apply Hat].
  - pose proof Hg as [Hpow Hsz Hhs Hhh Hhn]. apply (globals_keep w); try done; rewrite ?Hat by done; try done.
    intros h _. by apply Hat.
  - intros t Hev t' Hne. apply frame_of_grows; [done| |].
    + intros i e Hi He. cbn in He. rewrite lookup_app_r in He by done. apply list_elem_of_lookup_2, Hev in He. congruence.
    + intros b Hb. split; [done|]. split; [done|]. intros l' Hl'. unfold w'. rewrite atom_revise.
      destruct (decide (l = l')) as [<-|]; [|done]. destruct Hla as [->| ->]; cbn in Hl'; congruence.
Qed.

(** *** Marking a node *)

Section Mark.
Context (t : nat) (w : world V) (a : Z) (n : node) (k x : Z).
Hypothesis (Hinv : Inv w).
Hypothesis (Hp : pub_node w a n).
Hypothesis (Hk : key_of n = Some k).
Hypothesis (Hx : atom_at w (Next a) = Some x).
Hypothesis (Hm : is_marked_reference x = false).

Definition mark : world V := revise (Next a) (get_marked_reference x) (order w) [(t, Removed k)] w.

Lemma mark_live b : live mark b <-> live w b /\ b <> a.
Proof.
  unfold live, mark. rewrite atom_revise. destruct (decide (Next a = Next b)) as [[= <-]|Hne].
  - split; [|by intros [_ ?]]. intros (y & [= <-] & Hy). by rewrite get_marked_marked in Hy.
  - split; [|by intros [? _]]. intros H. split; [done|]. by intros ->.
Qed.

Lemma mark_grows : grows w mark.
Proof.
  constructor; try done.
  - by eexists.
  - intros b y Hb Hy Hmy. unfold mark. rewrite atom_revise. destruct (decide (Next a = Next b)) as [[= <-]|]; [congruence|done].
  - intros b m Hb Hlv. destruct (decide (b = a)) as [->|Hne]; [right|left; by apply mark_live].
    exists k, (length (log w)). destruct Hb as [_ H1], Hp as [_ H2]. assert (m = n) as -> by congruence.
    split; [done|]. split; [done|]. split; [|split].
    + exists (get_marked_reference x). unfold mark. by rewrite atom_revise, decide_True, get_marked_marked.
    + exists t. unfold mark. cbn. by rewrite list_lookup_middle.
    + left. destruct (il_value _ _ (inv_l _ _ _ Hinv) a n) as (v & y & Hva & Hpv); [done|unfold IsDummy; by rewrite Hk|].
      exists v, y. unfold mark at 1. rewrite atom_revise, decide_False by done. split; [done|]. split; [done|].
      unfold mark. cbn [log revise]. rewrite take_app_length. apply (inv_c _ _ _ Hinv).
      exists a, n, v. split; [by apply (il_live _ _ (inv_l _ _ _ Hinv))|done].
  - intros b m kb _ _ _. left. unfold mark. by rewrite atom_revise, decide_False.
Qed.

Lemma mark_list : inv_list mark.
Proof.
  pose proof (inv_l _ _ _ Hinv) as Hl. pose proof mark_grows as Hgr.
  destruct (order_split w a n x (inv_h _ _ _ Hinv) Hl Hp Hx Hm) as (l1 & l2 & Ho & Hxf).
  pose proof Hl as [Hh Hlk Hs Hn Hlv Hd Hv].
  assert (forall b, b <> a -> atom_at mark (Next b) = atom_at w (Next b)) as Hat.
  { intros b Hb. unfold mark. rewrite atom_revise, decide_False; [done|]. congruence. }
  constructor; try done.
  - change (order mark) with (order w). rewrite Ho, linked_app in *. cbn [linked first] in *. destruct Hlk as (H1 & _ & H2).
    split; [|split].
    + apply (linked_keep w); [|done]. intros b m Hb. apply Hat.
      eapply (order_not_elsewhere w l1 a n l2 b m); [done..|]. apply elem_of_app. by left.
    + right. unfold mark. rewrite atom_revise, decide_True by done. by rewrite Hxf.
    + apply (linked_keep w); [|done]. intros b m Hb. apply Hat.
      eapply (order_not_elsewhere w l1 a n l2 b m); [done..|]. apply elem_of_app. by right.
  - intros b m Hb [Hlb _]%mark_live. by apply Hlv.
  - intros b m Hb Hi. apply mark_live. split; [by eapply Hd|]. intros ->.
    destruct Hb as [_ H1], Hp as [_ H2]. cbn in H1. assert (m = n) as -> by (unfold obj_at in *; cbn in *; congruence).
    unfold IsDummy in Hi. by rewrite Hk in Hi.
  - intros b m Hb Hi. destruct (Hv b m Hb Hi) as (v & y & Hva & Hpv). exists v, y. split; [|done].
    unfold mark. by rewrite atom_revise, decide_False.
Qed.

Lemma mark_log : inv_log mark.
Proof.
  destruct (inv_c _ _ _ Hinv) as [Hsnd Hc]. split.
  { unfold mark. cbn [log revise]. apply sound_log_snoc; [done|].
    assert (live w a) as Hla by (by exists x). destruct (il_value _ _ (inv_l _ _ _ Hinv) a n Hp) as (v & y & Hva & Hpv).
    { unfold IsDummy. by rewrite Hk. }
    exists y. apply Hc. exists a, n, v. split; [by apply (il_live _ _ (inv_l _ _ _ Hinv))|done]. }
  intros k' y. unfold mark at 1. cbn [log revise]. rewrite replay_snoc. cbn [snd apply_change].
  assert (forall b, atom_at mark (Value b) = atom_at w (Value b)) as Hat.
  { intros b. unfold mark. by rewrite atom_revise, decide_False. }
  rewrite lookup_delete_Some. rewrite (Hc k' y). split.
  - intros [Hne (b & m & v & Hb & Hkm & Hlv & Hva & Hpv)]. exists b, m, v. split; [done|]. split; [done|].
    split; [|by rewrite Hat]. apply mark_live. split; [done|]. intros ->.
    destruct (il_nodes _ _ (inv_l _ _ _ Hinv) _ _ Hb) as [_ H1], Hp as [_ H2]. assert (m = n) as -> by congruence. congruence.
  - intros (b & m & v & Hb & Hkm & [Hlv Hne]%mark_live & Hva & Hpv). rewrite Hat in Hva. split.
    + intros ->. destruct (in_order_key w b m a n k' (inv_h _ _ _ Hinv) (inv_l _ _ _ Hinv)) as [? _]; try done.
      apply (il_live _ _ (inv_l _ _ _ Hinv)); [done|]. by exists x.
    + by exists b, m, v.
Qed.

Lemma inv_mark : Inv mark /\ grows w mark /\ (forall t', t' <> t -> frame t' w mark).
Proof.
  destruct (revise_rest (Next a) (get_marked_reference x) (order w) [(t, Removed k)] w Hinv mark_grows) as (? & ? & ? & Hf).
  { exists a, n. split; [done|by left]. }
  split; [constructor; [done|apply mark_list|apply mark_log|done|done]|]. split; [apply mark_grows|].
  apply Hf. by intros e ->%list_elem_of_singleton.
Qed.

End Mark.

(** *** Unlinking a marked node *)

Section Unlink.
Context (w : world V) (prev : Z) (np : node) (cur : Z) (nc : node) (l1 l2 : list (Z * node)).
Hypothesis (Hinv : Inv w).
Hypothesis (Ho : order w = l1 ++ (prev, np) :: (cur, nc) :: l2).
Hypothesis (Hprev : atom_at w (Next prev) = Some cur).
Hypothesis (Hcur : marked w cur).

Definition unlink : world V := revise (Next prev) (first 0 l2) (l1 ++ (prev, np) :: l2) [] w.

Lemma unlink_address : address cur.
Proof.
  eapply (ih_address _ _ (inv_h _ _ _ Hinv) cur (ONode nc)), (il_nodes _ _ (inv_l _ _ _ Hinv) cur nc).
  rewrite Ho. apply elem_of_app. right. right. left.
Qed.

Lemma unlink_first : is_marked_reference (first 0 l2) = false.
Proof.
  apply unmarked_address, (first_address w (l1 ++ [(prev, np); (cur, nc)])); [apply Hinv..|]. by rewrite Ho, <- app_assoc.
Qed.

Lemma unlink_live b : live unlink b <-> live w b.
Proof.
  unfold live, unlink. rewrite atom_revise. destruct (decide (Next prev = Next b)) as [[= <-]|]; [|done]. split; intros _.
  - exists cur. split; [done|]. apply address_unmarked, unlink_address.
  - exists (first 0 l2). split; [done|apply unlink_first].
Qed.

Lemma unlink_grows : grows w unlink.
Proof.
  constructor; try done.
  - by exists [].
  - intros b y Hb Hy Hmy. unfold unlink. rewrite atom_revise. destruct (decide (Next prev = Next b)) as [[= <-]|]; [|done].
    rewrite Hprev in Hy. injection Hy as <-. by rewrite (address_unmarked _ unlink_address) in Hmy.
  - intros b m Hb Hlv. left. by apply unlink_live.
  - intros b m kb _ _ _. left. unfold unlink. by rewrite atom_revise, decide_False.
Qed.

Lemma unlink_in b m : (b, m) ∈ order unlink <-> (b, m) ∈ order w /\ b <> cur.
Proof.
  assert ((b, m) ∈ order unlink <-> (b, m) ∈ (l1 ++ [(prev, np)]) ++ l2) as ->.
  { unfold unlink. cbn. by rewrite <- app_assoc. }
  assert (order w = (l1 ++ [(prev, np)]) ++ (cur, nc) :: l2) as Ho' by (rewrite Ho, <- app_assoc; done).
  split.
  - intros Hb. split; [|by eapply (order_not_elsewhere w); [apply Hinv|exact Ho'|exact Hb]].
    rewrite Ho', elem_of_app, elem_of_cons. apply elem_of_app in Hb. tauto.
  - rewrite Ho', (elem_of_app (l1 ++ [(prev, np)])), (elem_of_app (l1 ++ [(prev, np)])).
    intros [[?|[He|?]%elem_of_cons] Hne]; [by left|congruence|by right].
Qed.

Lemma unlink_list : inv_list unlink.
Proof.
  pose proof (inv_l _ _ _ Hinv) as Hl. pose proof unlink_grows as Hgr. pose proof Hl as [Hh Hlk Hs Hn Hlv Hd Hv].
  assert (forall b, b <> prev -> atom_at unlink (Next b) = atom_at w (Next b)) as Hat.
  { intros b Hb. unfold unlink. rewrite atom_revise, decide_False; [done|]. congruence. }
  constructor.
  - destruct Hh as [l Hh]. rewrite Ho in Hh. eapply same_first. exact Hh.
  - change (order unlink) with (l1 ++ (prev, np) :: l2). rewrite Ho, linked_app in Hlk. rewrite linked_app.
    cbn [linked first] in *. destruct Hlk as (H1 & _ & _ & H2). split; [|split].
    + apply (linked_keep w); [|done]. intros b m Hb. apply Hat.
      eapply (order_not_elsewhere w l1 prev np _ b m); [done|exact Ho|]. apply elem_of_app. by left.
    + left. unfold unlink. by rewrite atom_revise, decide_True.
    + apply (linked_keep w); [|done]. intros b m Hb. apply Hat.
      eapply (order_not_elsewhere w l1 prev np _ b m); [done|exact Ho|]. apply elem_of_app. right. by right.
  - change (order unlink) with (l1 ++ (prev, np) :: l2). rewrite Ho in Hs.
    rewrite StronglySorted_app, !StronglySorted_cons, !Forall_cons in Hs.
    rewrite StronglySorted_app, StronglySorted_cons. destruct Hs as (H1 & H2 & [H3 H3'] & H4 & H5). split; [|done].
    intros y z Hy Hz. apply H1; [done|]. apply elem_of_cons in Hz as [->|Hz]; [left|by right; right].
  - intros b m [Hb _]%unlink_in. apply (pub_node_grows w); [done|]. by apply Hn.
  - intros b m Hb Hlb%unlink_live. apply unlink_in. split; [by apply Hlv|]. intros ->.
    by apply (live_marked w cur).
  - intros b m Hb Hi. apply unlink_live. by eapply Hd.
  - intros b m Hb Hi. destruct (Hv b m Hb Hi) as (v & y & Hva & Hpv). exists v, y. split; [|done].
    unfold unlink. by rewrite atom_revise, decide_False.
Qed.

Lemma unlink_log : inv_log unlink.
Proof.
  destruct (inv_c _ _ _ Hinv) as [Hsnd Hc]. split; [unfold unlink; cbn; by rewrite app_nil_r|].
  intros k y. unfold unlink at 1. cbn [log revise]. rewrite app_nil_r, (Hc k y).
  assert (forall b, atom_at unlink (Value b) = atom_at w (Value b)) as Hat.
  { intros b. unfold unlink. by rewrite atom_revise, decide_False. }
  split; intros (b & m & v & Hb & Hkm & Hlv & Hva & Hpv); exists b, m, v.
  - split; [|split; [done|split; [by apply unlink_live|by rewrite Hat]]]. apply unlink_in. split; [done|]. intros ->.
    by apply (live_marked w cur).
  - apply unlink_in in Hb as [Hb _]. rewrite Hat in Hva. apply unlink_live in Hlv. done.
Qed.

Lemma inv_unlink : Inv unlink /\ grows w unlink /\ (forall t', frame t' w unlink).
Proof.
  destruct (revise_rest (Next prev) (first 0 l2) (l1 ++ (prev, np) :: l2) [] w Hinv unlink_grows) as (? & ? & ? & Hf).
  { exists prev, np. split; [|by left]. apply (il_nodes _ _ (inv_l _ _ _ Hinv)). rewrite Ho. apply elem_of_app. right. left. }
  split; [constructor; [done|apply unlink_list|apply unlink_log|done|done]|]. split; [apply unlink_grows|].
  intros t'. apply (Hf (S t')); [|lia]. by intros e ?%not_elem_of_nil.
Qed.

End Unlink.

(** *** Replacing a value *)

Section Replace.
Context (t : nat) (w : world V) (a : Z) (n : node) (k v : Z) (x : V) (ev : list (nat * change V)).
Hypothesis (Hinv : Inv w).
Hypothesis (Hp : pub_node w a n).
Hypothesis (Hk : key_of n = Some k).
Hypothesis (Hv : pub_value w v x).
Hypothesis (Hev : (live w a /\ ev = [(t, Replaced k x)]) \/ (marked w a /\ ev = [(t, Late k x)])).

Definition replace_value : world V := revise (Value a) v (order w) ev w.

Lemma replace_live b : live replace_value b <-> live w b.
Proof. unfold live, replace_value. by rewrite atom_revise, decide_False. Qed.

Lemma replace_grows : grows w replace_value.
Proof.
  constructor; try done.
  - by exists ev.
  - intros b y Hb Hy Hmy. unfold replace_value. by rewrite atom_revise, decide_False.
  - intros b m Hb Hlv. left. by apply replace_live.
  - intros b m kb Hb Hkb Hm. unfold replace_value. rewrite atom_revise. destruct (decide (Value a = Value b)) as [[= <-]|]; [|by left].
    right. assert (m = n) as -> by (destruct Hb as [_ H1], Hp as [_ H2]; congruence).
    assert (kb = k) as -> by congruence. destruct Hev as [[Hla _]|[_ He]]; [by destruct (live_marked w a)|].
    exists v, x, (length (log w)), t. rewrite atom_revise, decide_True by done. split; [done|]. split; [done|]. split; [done|].
    cbn. rewrite He. by rewrite list_lookup_middle.
Qed.

Lemma replace_list : inv_list replace_value.
Proof.
  pose proof (inv_l _ _ _ Hinv) as [Hh Hlk Hs Hn Hlv Hd Hval]. constructor; try done.
  - apply (linked_keep w); [|done]. intros b m Hb. unfold replace_value. by rewrite atom_revise, decide_False.
  - intros b m Hb Hlb%replace_live. by apply Hlv.
  - intros b m Hb Hi. apply replace_live. by eapply Hd.
  - intros b m Hb Hi. unfold replace_value. rewrite atom_revise. destruct (decide (Value a = Value b)) as [[= <-]|].
    + by exists v, x.
    + by apply (Hval b m).
Qed.

Lemma replace_log : inv_log replace_value.
Proof.
  destruct (inv_c _ _ _ Hinv) as [Hsnd Hc]. pose proof (inv_l _ _ _ Hinv) as Hl.
  assert (forall b, b <> a -> atom_at replace_value (Value b) = atom_at w (Value b)) as Hat.
  { intros b Hb. unfold replace_value. rewrite atom_revise, decide_False; congruence. }
  assert (forall b m, (b, m) ∈ order w -> live w b -> key_of m = Some k -> live w a -> b = a) as Hkey.
  { intros b m Hb Hlb Hkb Hla. destruct (in_order_key w b m a n k (inv_h _ _ _ Hinv) Hl) as [? _]; try done. by apply (il_live _ _ Hl). }
  assert (forall b m k', (b, m) ∈ order w -> key_of m = Some k' -> k' <> k -> b <> a) as Hkey'.
  { intros b m k' Hb Hkb Hne ->. destruct (il_nodes _ _ Hl _ _ Hb) as [_ H1], Hp as [_ H2]. congruence. }
  split.
  { unfold replace_value. cbn [log revise]. destruct Hev as [[Hla He]|[Hma He]]; rewrite He; apply sound_log_snoc; try done.
    destruct (il_value _ _ Hl a n Hp) as (v' & y & Hva & Hpv).
    { unfold IsDummy. by rewrite Hk. }
    exists y. apply Hc. exists a, n, v'. split; [by apply (il_live _ _ Hl)|done]. }
  intros k' y. unfold replace_value at 1. cbn [log revise]. destruct Hev as [[Hla He]|[Hma He]]; rewrite He.
  - rewrite replay_snoc. cbn [snd apply_change]. destruct (decide (k' = k)) as [->|Hne].
    + rewrite lookup_insert_eq. split.
      * intros [= <-]. exists a, n, v. split; [by apply (il_live _ _ Hl)|]. split; [done|]. split; [by apply replace_live|].
        split; [|done]. unfold replace_value. by rewrite atom_revise, decide_True.
      * intros (b & m & v' & Hb & Hkm & Hlv%replace_live & Hva & Hpv). assert (b = a) as -> by by eapply Hkey.
        unfold replace_value in Hva. rewrite atom_revise, decide_True in Hva by done. injection Hva as <-.
        destruct Hpv as [_ H1], Hv as [_ H2]. pose proof (eq_trans (eq_sym H2) H1) as H. by injection H as ->.
    + rewrite lookup_insert_ne, (Hc k' y) by congruence.
      split; intros (b & m & v' & Hb & Hkm & Hlv & Hva & Hpv); exists b, m, v'; (split; [done|]; split; [done|]).
      * split; [by apply replace_live|]. rewrite Hat; [done|]. by eapply Hkey'.
      * apply replace_live in Hlv. rewrite Hat in Hva; [done|]. by eapply Hkey'.
  - rewrite replay_snoc. cbn [snd apply_change]. rewrite (Hc k' y).
    split; intros (b & m & v' & Hb & Hkm & Hlv & Hva & Hpv); exists b, m, v'; (split; [done|]; split; [done|]).
    + split; [by apply replace_live|]. rewrite Hat; [done|]. intros ->. by apply (live_marked w a).
    + apply replace_live in Hlv. rewrite Hat in Hva; [done|]. intros ->. by apply (live_marked w a).
Qed.

Lemma inv_replace : Inv replace_value /\ grows w replace_value /\ (forall t', t' <> t -> frame t' w replace_value).
Proof.
  destruct (revise_rest (Value a) v (order w) ev w Hinv replace_grows) as (? & ? & ? & Hf).
  { exists a, n. split; [done|by right]. }
  split; [constructor; [done|apply replace_list|apply replace_log|done|done]|]. split; [apply replace_grows|].
  apply Hf. destruct Hev as [[_ ->]|[_ ->]]; by intros e ->%list_elem_of_singleton.
Qed.

End Replace.

End Moves.
