(* ===== verification/CtRules.v ===== *)
(** Rules for safe threads of the lock-free table: actions in sequence, and the hazard
    pointers. A specification has the form that a thread is safe if it can go on from
    every world that the specification allows. *)
From stdpp Require Import sorting.
From S2P Require Import Prelude Words Outcome SplitOrder Atomic Hazard Ct CtWorld CtMoves.

Section Rules.
Context {V : Type} (hash_func_ : Z -> Z) (head_ : Z).
Implicit Types (w : world V) (t : nat) (a h v ptr : Z) (n : node) (r : Reclaimer).

Abbreviation Inv := (Inv hash_func_ head_).
Abbreviation safe := (safe hash_func_ head_).

(** ** Safe threads *)

Definition safeT t {A} (m : thread V A) r w (Q : A -> Reclaimer -> world V -> Prop) : Prop :=
  safe t (m r) w (fun '(x, r') w' => Q x r' w').

Lemma safeT_ret t {A} (a : A) r w (Q : A -> Reclaimer -> world V -> Prop) :
  (forall w1, frame t w w1 -> Inv w1 -> Q a r w1) -> safeT t (mret a) r w Q.
Proof. done. Qed.

Lemma safeT_bind t {A B} (m : thread V A) (f : A -> thread V B) r w Q :
  Inv w -> safeT t m r w (fun x r' w' => safeT t (f x) r' w' Q) -> safeT t (m ≫= f) r w Q.
Proof.
  intros Hw H. unfold safeT, mbind, thread_bind. apply safe_bind; [done|].
  eapply safe_mono; [|exact H]. by intros [a r'] w'.
Qed.

Lemma safeT_ret_bind t {A B} (a : A) (f : A -> thread V B) r w Q :
  safeT t (f a) r w Q -> safeT t (mret a ≫= f) r w Q.
Proof. done. Qed.

Lemma safeT_frame t {A} (m : thread V A) r w w' Q : frame t w w' -> safeT t m r w Q -> safeT t m r w' Q.
Proof. apply safe_frame. Qed.

Lemma safeT_reclaimer t {B} (f : Reclaimer -> thread V B) r w Q :
  safeT t (f r) r w Q -> safeT t (reclaimer ≫= f) r w Q.
Proof. done. Qed.

Lemma safeT_set_reclaimer t {B} (f : () -> thread V B) r0 r w Q :
  safeT t (f ()) r0 w Q -> safeT t (set_reclaimer r0 ≫= f) r w Q.
Proof. done. Qed.

Lemma safeT_assert t {B} b (f : () -> thread V B) r w Q :
  b = true -> safeT t (f ()) r w Q -> safeT t (assertT b ≫= f) r w Q.
Proof. by intros ->. Qed.

Lemma safeT_hang t {A} r w (Q : A -> Reclaimer -> world V -> Prop) : safeT t hang r w Q.
Proof. done. Qed.

(** An action, and what the thread does with its result. *)
Lemma safeT_act t {X B} (e : act V X) (f : X -> thread V B) r w Q :
  (reclaims e = false -> forall w1 c, frame t w w1 -> Inv w1 -> enabled e c (mem w1) = true ->
    exists x s, exec e c (mem w1) = Ok (x, s) /\
      (power_ok s -> exists w2, mem w2 = s /\ Inv w2 /\ (forall t', t' <> t -> frame t' w1 w2) /\ safeT t (f x) r w2 Q)) ->
  safeT t (atomically e ≫= f) r w Q.
Proof. intros H. exact H. Qed.

(** An action is the last one. *)
Lemma safeT_last t {X} (e : act V X) r w (Q : X -> Reclaimer -> world V -> Prop) :
  safeT t (atomically e ≫= (fun x => mret x)) r w Q -> safeT t (atomically e) r w Q.
Proof. intros H. exact H. Qed.

Lemma safeT_load t {B} l (f : Z -> thread V B) r w Q :
  (forall w1, frame t w w1 -> Inv w1 -> exists x, atom_at w1 l = Some x /\ safeT t (f x) r w1 Q) ->
  safeT t (load l ≫= f) r w Q.
Proof.
  intros H. apply safeT_act. intros _ w1 c Hf Hi _. destruct (H w1 Hf Hi) as (x & Hx & Hs).
  exists x, (mem w1). cbn. unfold atom_at in Hx. rewrite Hx. split; [done|]. intros _. exists w1. split; [done|].
  split; [done|]. split; [|done]. intros t' _. apply frame_refl.
Qed.

(** An action that reads constants. *)
Lemma safeT_read t {X B} (e : act V X) (f : X -> thread V B) r w Q :
  (forall w1, frame t w w1 -> Inv w1 -> exists x, (forall c, exec e c (mem w1) = Ok (x, mem w1)) /\ safeT t (f x) r w1 Q) ->
  safeT t (atomically e ≫= f) r w Q.
Proof.
  intros H. apply safeT_act. intros _ w1 c Hf Hi _. destruct (H w1 Hf Hi) as (x & Hx & Hs).
  exists x, (mem w1). split; [done|]. intros _. exists w1. split; [done|]. split; [done|]. split; [|done].
  intros t' _. apply frame_refl.
Qed.

Lemma safeT_fields t {B} a n (f : node -> thread V B) r w Q :
  (forall w1, frame t w w1 -> Inv w1 -> obj_at w1 a = Some (ONode n) /\ safeT t (f n) r w1 Q) ->
  safeT t (atomically (Fields a) ≫= f) r w Q.
Proof.
  intros H. apply safeT_read. intros w1 Hf Hi. destruct (H w1 Hf Hi) as [Ho Hs]. exists n. split; [|done].
  intros c. cbn. unfold obj_at in Ho. by rewrite Ho.
Qed.

Lemma safeT_deref t {B} v x (f : V -> thread V B) r w Q :
  (forall w1, frame t w w1 -> Inv w1 -> obj_at w1 v = Some (OValue x) /\ safeT t (f x) r w1 Q) ->
  safeT t (atomically (Deref v) ≫= f) r w Q.
Proof.
  intros H. apply safeT_read. intros w1 Hf Hi. destruct (H w1 Hf Hi) as [Ho Hs]. exists x. split; [|done].
  intros c. cbn. unfold obj_at in Ho. by rewrite Ho.
Qed.

(** What a write may do: the world [w2] that it leads to. *)
Definition can_step t (l : loc) (x : Z) w w2 : Prop :=
  mem w2 = set_atom l x (mem w) /\ Inv w2 /\ (forall t', t' <> t -> frame t' w w2).

Lemma safeT_store t {B} l x (f : () -> thread V B) r w Q :
  (forall w1, frame t w w1 -> Inv w1 -> is_Some (atom_at w1 l) /\ exists w2, can_step t l x w1 w2 /\ safeT t (f ()) r w2 Q) ->
  safeT t (store l x ≫= f) r w Q.
Proof.
  intros H. apply safeT_act. intros _ w1 c Hf Hi _. destruct (H w1 Hf Hi) as ([y Hy] & w2 & (Hm & Hi2 & Hf2) & Hs).
  exists (), (set_atom l x (mem w1)). cbn. unfold atom_at in Hy. rewrite Hy. split; [done|]. intros _. by exists w2.
Qed.

Lemma safeT_exchange t {B} l x (f : Z -> thread V B) r w Q :
  (forall w1, frame t w w1 -> Inv w1 -> exists y, atom_at w1 l = Some y /\ exists w2, can_step t l x w1 w2 /\ safeT t (f y) r w2 Q) ->
  safeT t (atomically (Exchange l x) ≫= f) r w Q.
Proof.
  intros H. apply safeT_act. intros _ w1 c Hf Hi _. destruct (H w1 Hf Hi) as (y & Hy & w2 & (Hm & Hi2 & Hf2) & Hs).
  exists y, (set_atom l x (mem w1)). cbn. unfold atom_at in Hy. rewrite Hy. split; [done|]. intros _. by exists w2.
Qed.

Lemma safeT_fetch_add t {B} width l d (f : Z -> thread V B) r w Q :
  (forall w1, frame t w w1 -> Inv w1 -> exists y, atom_at w1 l = Some y /\
     exists w2, can_step t l (wrap width (y + d)) w1 w2 /\ safeT t (f y) r w2 Q) ->
  safeT t (atomically (FetchAdd width l d) ≫= f) r w Q.
Proof.
  intros H. apply safeT_act. intros _ w1 c Hf Hi _. destruct (H w1 Hf Hi) as (y & Hy & w2 & (Hm & Hi2 & Hf2) & Hs).
  exists y, (set_atom l (wrap width (y + d)) (mem w1)). cbn. unfold atom_at in Hy. rewrite Hy. split; [done|]. intros _. by exists w2.
Qed.

(** A compare-and-exchange succeeds or reports what it has found. *)
Lemma safeT_cas t {B} weak l expected desired (f : bool * Z -> thread V B) r w Q :
  (forall w1, frame t w w1 -> Inv w1 -> exists y, atom_at w1 l = Some y /\
     (weak = true \/ y <> expected -> safeT t (f (false, y)) r w1 Q) /\
     (y = expected -> power_ok (set_atom l desired (mem w1)) ->
      exists w2, can_step t l desired w1 w2 /\ safeT t (f (true, expected)) r w2 Q)) ->
  safeT t (atomically (Cas weak l expected desired) ≫= f) r w Q.
Proof.
  intros H. apply safeT_act. intros _ w1 c Hf Hi _. destruct (H w1 Hf Hi) as (y & Hy & Hfail & Hok).
  cbn. unfold atom_at in Hy. rewrite Hy. cbn. destruct ((y =? expected) && negb (weak && negb (c =? 0))) eqn:Hc.
  - apply andb_true_iff in Hc as [->%Z.eqb_eq _]. exists (true, expected), (set_atom l desired (mem w1)). split; [done|].
    intros Hp. destruct (Hok eq_refl Hp) as (w2 & (Hm & Hi2 & Hf2) & Hs). by exists w2.
  - exists (false, y), (mem w1). split; [done|]. intros _. exists w1. split; [done|]. split; [done|]. split.
    { intros t' _. apply frame_refl. }
    apply Hfail. apply andb_false_iff in Hc as [?%Z.eqb_neq|Hc]; [by right|left]. by destruct weak.
Qed.

Lemma available_spec a (s : shared V) : available a s = true -> address a /\ objs s !! a = None.
Proof.
  unfold available, address. rewrite !andb_true_iff, Z.ltb_lt, Z.ltb_lt, Z.eqb_eq, bool_decide_eq_true. tauto.
Qed.

(** A new object, which the thread owns. *)
Lemma safeT_new t {B} (o : obj V) (f : Z -> thread V B) r w Q :
  (forall n, o = ONode n -> wf_node hash_func_ n) ->
  (forall w1 a, frame t w w1 -> Inv w1 -> obj_at w1 a = None -> address a -> Inv (alloc t a o w1) ->
     frame t w1 (alloc t a o w1) -> mine t (alloc t a o w1) a o -> safeT t (f a) r (alloc t a o w1) Q) ->
  safeT t (atomically (New o) ≫= f) r w Q.
Proof.
  intros Hwf H. apply safeT_act. intros _ w1 a Hf Hi Ha. apply available_spec in Ha as [Ha Hn].
  exists a, (allocate a o (mem w1)). split; [done|]. intros _.
  destruct (inv_alloc hash_func_ head_ t a o w1 Hi Hn Ha Hwf) as (Hi2 & Hg & Hf2 & Hm).
  exists (alloc t a o w1). split; [done|]. split; [done|]. split; [by intros t' _|]. by apply H.
Qed.

(** A private object is deleted. *)
Lemma safeT_free t {B} retired a o (f : () -> thread V B) r w Q :
  mine t w a o ->
  (forall w1, frame t w w1 -> Inv w1 -> mine t w1 a o -> Inv (free a o w1) -> grows w1 (free a o w1) -> safeT t (f ()) r (free a o w1) Q) ->
  safeT t (atomically (Atomic.Delete retired a) ≫= f) r w Q.
Proof.
  intros Ha H. apply safeT_act. intros _ w1 c Hf Hi _. pose proof (mine_frame _ _ _ _ _ Hf Ha) as Ha1.
  exists (), (deallocate a o (mem w1)). cbn. pose proof Ha1 as [_ Ho]. unfold obj_at in Ho. rewrite Ho. split; [done|]. intros _.
  destruct (inv_free hash_func_ head_ t a o w1 Hi Ha1) as (Hi2 & Hg & Hf2). exists (free a o w1). split; [done|]. split; [done|].
  split; [done|]. by apply H.
Qed.

(** Deleting what was retired is not followed further. *)
Lemma safeT_delete_retired t {B} a (f : () -> thread V B) r w Q :
  safeT t (atomically (Atomic.Delete true a) ≫= f) r w Q.
Proof. apply safeT_act. done. Qed.

(** ** Frames with a private object that changes *)

(** The frame of the other private objects than [a]. *)
Record frame_but (a : Z) t w w' : Prop := {
  fb_grows : grows w w';
  fb_log : forall i e, (length (log w) <= i)%nat -> log w' !! i = Some e -> fst e <> t;
  fb_mine : forall b, b <> a -> roles w !! b = Some (Private t) -> roles w' !! b = Some (Private t) /\ obj_at w' b = obj_at w b;
  fb_atoms : forall b o l, b <> a -> mine t w b o -> l ∈ members b o -> atom_at w' l = atom_at w l
}.

Lemma frame_but_of a t w w' : frame t w w' -> frame_but a t w w'.
Proof. intros [Hg Hl Hm Ha]. constructor; eauto. Qed.

Lemma frame_but_trans a t w1 w2 w3 : frame_but a t w1 w2 -> frame_but a t w2 w3 -> frame_but a t w1 w3.
Proof.
  intros H12 H23. constructor.
  - eapply grows_trans; [apply H12|apply H23].
  - intros i e Hi He. destruct (Nat.lt_ge_cases i (length (log w2))) as [Hlt|Hge].
    + destruct (lookup_lt_is_Some_2 (log w2) i Hlt) as [e' He'].
      assert (log w3 !! i = Some e') as H3 by (eapply log_grows_lookup; [apply H23|done]).
      assert (e = e') as -> by congruence. by apply (fb_log _ _ _ _ H12 i).
    + by apply (fb_log _ _ _ _ H23 i).
  - intros b Hne Hb. destruct (fb_mine _ _ _ _ H12 b Hne Hb) as [H2 <-]. by apply (fb_mine _ _ _ _ H23).
  - intros b o l Hne Hb Hl. rewrite <- (fb_atoms _ _ _ _ H12 b o l Hne Hb Hl).
    apply (fb_atoms _ _ _ _ H23 b o); [done| |done]. destruct Hb as [H1 H2].
    destruct (fb_mine _ _ _ _ H12 b Hne H1). split; congruence.
Qed.

Lemma frame_but_close a t w w' : frame_but a t w w' -> roles w !! a <> Some (Private t) -> frame t w w'.
Proof.
  intros [Hg Hl Hm Ha] Hne. constructor; [done|done| |].
  - intros b Hb. apply Hm; [congruence|done].
  - intros b o l Hb. apply Ha; [|done]. destruct Hb. congruence.
Qed.

(** An object that is not there is not private to anyone. *)
Lemma absent_not_private t w w1 a :
  Inv w1 -> frame t w w1 -> obj_at w1 a = None -> roles w !! a <> Some (Private t).
Proof.
  intros Hi Hf Ha Hr. destruct (fr_mine _ _ _ Hf a Hr) as [H1 _].
  destruct (ih_owned _ _ (inv_h _ _ _ Hi) a _ H1). congruence.
Qed.

(** ** What a thread has done to the map *)

(** The changes of thread [t] in a log from place [s] on. *)
Definition own t (s : nat) (l : list (nat * change V)) : list (change V) :=
  snd <$> filter (fun e => fst e = t) (drop s l).

Lemma own_none t (s : nat) (l : list (nat * change V)) :
  (forall i e, (s <= i)%nat -> l !! i = Some e -> fst e <> t) -> own t s l = [].
Proof.
  intros H. assert (forall e, e ∈ drop s l -> fst e <> t) as He.
  { intros e [i Hi]%list_elem_of_lookup. rewrite lookup_drop in Hi. apply (H (s + i)%nat); [lia|done]. }
  unfold own. clear H. induction (drop s l) as [|e l' IH]; [done|]. cbn. rewrite decide_False by (apply He; left).
  apply IH. intros e' He'. apply He. by right.
Qed.

Lemma own_app t (s : nat) (l l' : list (nat * change V)) :
  (s <= length l)%nat -> own t s (l ++ l') = own t s l ++ own t 0 l'.
Proof. intros Hs. unfold own. by rewrite drop_app_le, drop_0, filter_app, fmap_app. Qed.

Record did t (evs : list (change V)) w w' : Prop := {
  did_grows : grows w w';
  did_own : own t (length (log w)) (log w') = evs
}.

Lemma did_but a t w w' : frame_but a t w w' -> did t [] w w'.
Proof. intros [Hg Hl _ _]. constructor; [done|]. by apply own_none. Qed.

Lemma did_frame t w w' : frame t w w' -> did t [] w w'.
Proof. intros Hf. apply (did_but 0). by apply frame_but_of. Qed.

Lemma did_snoc t w w' c : grows w w' -> log w' = log w ++ [(t, c)] -> did t [c] w w'.
Proof.
  intros Hg Hl. constructor; [done|]. rewrite Hl, own_app by done.
  rewrite (own_none t (length (log w)) (log w)); [unfold own; cbn; by rewrite decide_True|].
  intros i e Hi He%lookup_lt_Some. lia.
Qed.

Lemma did_trans t e1 e2 w1 w2 w3 : did t e1 w1 w2 -> did t e2 w2 w3 -> did t (e1 ++ e2) w1 w3.
Proof.
  intros [Hg1 H1] [Hg2 H2]. constructor; [by eapply grows_trans|]. pose proof (log_grows _ _ Hg1) as Hlen.
  destruct (gr_log _ _ Hg2) as [ext Hext]. rewrite Hext in *. rewrite own_app by done. rewrite H1. f_equal.
  rewrite own_app, (own_none t (length (log w2)) (log w2)) in H2; [done| |done].
  intros i e Hi He%lookup_lt_Some. lia.
Qed.

End Rules.
