(* ===== verification/CtHazard.v ===== *)
(** The hazard pointers of the lock-free table are safe under interleavings: marking and
    unmarking, taking a hazard pointer, retiring and looking for what may be deleted. *)
From stdpp Require Import sorting.
From S2P Require Import Prelude Words Outcome SplitOrder Atomic Hazard Ct CtWorld CtMoves CtRules.

Section HazardRules.
Context {V : Type} (hash_func_ : Z -> Z) (head_ : Z) (fuel : nat).
Implicit Types (w : world V) (t : nat) (a h v ptr : Z) (n : node) (r : Reclaimer).

Abbreviation Inv := (Inv hash_func_ head_).
Abbreviation safeT := (safeT hash_func_ head_).
Abbreviation can_step := (can_step hash_func_ head_).

(** ** The reclaimer of a thread *)

(** What is in the map can be deleted by its function. *)
Definition retired w (x : ReclaimNode) : Prop :=
  match delete_func x with
  | Some OnDeleteNode => exists n, pub_node w (rn_ptr x) n
  | Some delete_value => True
  | None => False
  end.

Record good r w : Prop := {
  gd_hp : forall h, h ∈ hp_list_ r -> pub_hazard w h;
  gd_pool : reclaim_pool_ r <> [];
  gd_map : forall p x, reclaim_map_ r !! p = Some x -> retired w x
}.

Definition ok_hp r (i : Z) : Prop := i = HP_INDEX_NULL \/ 0 <= i < Z.of_nat (length (hp_list_ r)).

(** The state of a thread after some of its steps that leave its private objects alone
    and change nothing in the log. *)
Record after t r w r' w' : Prop := {
  af_frame : frame t w w';
  af_inv : Inv w';
  af_good : good r' w';
  af_hp : exists ext, hp_list_ r' = hp_list_ r ++ ext
}.

Lemma good_grows r w w' : grows w w' -> good r w -> good r w'.
Proof.
  intros Hg [Hh Hp Hm]. constructor; [|done|].
  - intros h Hin. apply (pub_hazard_grows w); [done|]. by apply Hh.
  - intros p x Hx. specialize (Hm p x Hx). unfold retired in *. destruct (delete_func x) as [[]|]; [|done..].
    destruct Hm as [n Hn]. exists n. by apply (pub_node_grows w).
Qed.

Lemma after_frame t r w w' : frame t w w' -> Inv w' -> good r w -> after t r w r w'.
Proof.
  intros Hf Hi Hg. constructor; [done|done| |]; [|exists []; by rewrite app_nil_r]. by apply (good_grows r w), Hg; apply Hf.
Qed.

Lemma after_refl t r w : Inv w -> good r w -> after t r w r w.
Proof. intros. apply after_frame; [apply frame_refl|done|done]. Qed.

Lemma after_trans t r1 w1 r2 w2 r3 w3 : after t r1 w1 r2 w2 -> after t r2 w2 r3 w3 -> after t r1 w1 r3 w3.
Proof.
  intros [Hf1 _ _ [e1 H1]] [Hf2 Hi Hg [e2 H2]]. constructor; [by apply (frame_trans t w1 w2)|done|done|].
  exists (e1 ++ e2). by rewrite H2, H1, app_assoc.
Qed.

Lemma ok_hp_after t r w r' w' i : after t r w r' w' -> ok_hp r i -> ok_hp r' i.
Proof. intros [_ _ _ [e He]] [->|Hi]; [by left|right]. rewrite He, length_app. lia. Qed.

(** ** Steps on shared variables that the invariant does not constrain *)

Definition shared_counter w (l : loc) : Prop :=
  match l with
  | Size | HpSize => True
  | HpFlag h | HpPtr h => pub_hazard w h
  | _ => False
  end.

Lemma shared_step t w l x :
  Inv w -> shared_counter w l -> can_step t l x w (write l x w) /\ frame t w (write l x w) /\ Inv (write l x w).
Proof.
  intros Hi Hl.
  destruct (inv_write hash_func_ head_ w l x Hi) as [Hi' Hg]; [by destruct l|by intros a ->|].
  assert (forall t', frame t' w (write l x w)) as Hf.
  { intros t'. apply frame_of_grows; [done|by apply same_log|]. intros a Ha. split; [done|]. split; [done|].
    intros l' Hl'. rewrite atom_write. destruct (decide (l = l')) as [->|]; [|done].
    destruct l'; try done; injection Hl' as ->; destruct Hl as [Hr _]; congruence. }
  split; [|split; [done|done]]. split; [done|]. split; [done|]. intros t' _. apply Hf.
Qed.

Lemma shared_is_Some w l : Inv w -> shared_counter w l -> is_Some (atom_at w l).
Proof.
  intros Hi Hl. destruct l; try done.
  - apply (ig_size _ (inv_g _ _ _ Hi)).
  - apply (ig_hp_size _ (inv_g _ _ _ Hi)).
  - eapply (ih_members _ _ (inv_h _ _ _ Hi)); [apply Hl|left].
  - eapply (ih_members _ _ (inv_h _ _ _ Hi)); [apply Hl|right; left].
Qed.

Lemma shared_counter_frame t w w' l : frame t w w' -> shared_counter w l -> shared_counter w' l.
Proof. intros Hf. destruct l; try done; apply pub_hazard_grows, Hf. Qed.

Section Shared.
Context (t : nat).

Lemma safeT_store_shared {B} l x (f : () -> thread V B) r w Q :
  shared_counter w l -> good r w ->
  (forall w', after t r w r w' -> safeT t (f ()) r w' Q) -> safeT t (store l x ≫= f) r w Q.
Proof.
  intros Hl Hg H. apply safeT_store. intros w1 Hf Hi. pose proof (shared_counter_frame t w w1 l Hf Hl) as Hl1.
  split; [by apply shared_is_Some|]. destruct (shared_step t w1 l x Hi Hl1) as (Hc & Hf2 & Hi2).
  exists (write l x w1). split; [done|]. apply H. apply after_frame; [by apply (frame_trans t w w1)|done|done].
Qed.

Lemma safeT_exchange_shared {B} l x (f : Z -> thread V B) r w Q :
  shared_counter w l -> good r w ->
  (forall y w', after t r w r w' -> safeT t (f y) r w' Q) -> safeT t (atomically (Exchange l x) ≫= f) r w Q.
Proof.
  intros Hl Hg H. apply safeT_exchange. intros w1 Hf Hi. pose proof (shared_counter_frame t w w1 l Hf Hl) as Hl1.
  destruct (shared_is_Some w1 l Hi Hl1) as [y Hy]. exists y. split; [done|].
  destruct (shared_step t w1 l x Hi Hl1) as (Hc & Hf2 & Hi2).
  exists (write l x w1). split; [done|]. apply H. apply after_frame; [by apply (frame_trans t w w1)|done|done].
Qed.

Lemma safeT_fetch_add_shared {B} width l d (f : Z -> thread V B) r w Q :
  shared_counter w l -> good r w ->
  (forall y w', after t r w r w' -> safeT t (f y) r w' Q) -> safeT t (atomically (FetchAdd width l d) ≫= f) r w Q.
Proof.
  intros Hl Hg H. apply safeT_fetch_add. intros w1 Hf Hi. pose proof (shared_counter_frame t w w1 l Hf Hl) as Hl1.
  destruct (shared_is_Some w1 l Hi Hl1) as [y Hy]. exists y. split; [done|].
  destruct (shared_step t w1 l (wrap width (y + d)) Hi Hl1) as (Hc & Hf2 & Hi2).
  exists (write l (wrap width (y + d)) w1). split; [done|]. apply H. apply after_frame; [by apply (frame_trans t w w1)|done|done].
Qed.

Lemma safeT_load_shared {B} l (f : Z -> thread V B) r w Q :
  shared_counter w l -> good r w ->
  (forall y w', after t r w r w' -> safeT t (f y) r w' Q) -> safeT t (load l ≫= f) r w Q.
Proof.
  intros Hl Hg H. apply safeT_load. intros w1 Hf Hi.
  destruct (shared_is_Some w1 l Hi (shared_counter_frame t w w1 l Hf Hl)) as [y Hy]. exists y. split; [done|].
  apply H. by apply after_frame.
Qed.

(** The list of hazard pointers leads on to another one, or ends. *)
Lemma safeT_load_hp_next {B} h (f : Z -> thread V B) r w Q :
  pub_hazard w h -> good r w ->
  (forall x w', after t r w r w' -> x = 0 \/ pub_hazard w' x -> safeT t (f x) r w' Q) -> safeT t (load (HpNext h) ≫= f) r w Q.
Proof.
  intros Hp Hg H. apply safeT_load. intros w1 Hf Hi.
  pose proof (pub_hazard_grows _ _ _ (fr_grows _ _ _ Hf) Hp) as Hp1.
  destruct (ih_members _ _ (inv_h _ _ _ Hi) h OHazard (HpNext h)) as [x Hx]; [apply Hp1|right; right; left|].
  exists x. split; [done|]. apply H; [by apply after_frame|]. by apply (ig_hp_next _ (inv_g _ _ _ Hi) h).
Qed.

Lemma safeT_load_hp_head {B} (f : Z -> thread V B) r w Q :
  good r w -> (forall x w', after t r w r w' -> pub_hazard w' x -> safeT t (f x) r w' Q) -> safeT t (load HpHead ≫= f) r w Q.
Proof.
  intros Hg H. apply safeT_load. intros w1 Hf Hi. destruct (ig_hp_head _ (inv_g _ _ _ Hi)) as (h & Hh & Hp).
  exists h. split; [done|]. apply H; [by apply after_frame|done].
Qed.

(** The program of a thread computes without an action. *)
Lemma safeT_pure {A B} (m : thread V A) (x : A) (f : A -> thread V B) r r' w Q :
  m r = Ret (x, r') -> safeT t (f x) r' w Q -> safeT t (m ≫= f) r w Q.
Proof. intros Hm H. unfold CtRules.safeT, mbind, thread_bind. rewrite Hm. exact H. Qed.

(** ** Marking *)

Lemma hp_at_ret r (i : Z) :
  0 <= i < Z.of_nat (length (hp_list_ r)) -> exists h, h ∈ hp_list_ r /\ hp_at (V := V) i r = Ret (h, r).
Proof.
  intros Hi. destruct (lookup_lt_is_Some_2 (hp_list_ r) (Z.to_nat i)) as [h Hh]; [lia|].
  exists h. split; [by apply list_elem_of_lookup_2 in Hh|].
  unfold hp_at, reclaimer, mbind, thread_bind, assertT. cbn.
  assert (wrap 64 i <= i) by (unfold wrap; apply Z.mod_le; lia).
  test (0 <=? i) is true. test (wrap 64 i <? Z.of_nat (length (hp_list_ r))) is true. cbn. by rewrite Hh.
Qed.

Lemma UnMarkHazard_spec r w i (Q : () -> Reclaimer -> world V -> Prop) :
  Inv w -> good r w -> ok_hp r i -> (forall w', after t r w r w' -> Q () r w') -> safeT t (UnMarkHazard i) r w Q.
Proof.
  intros Hi Hg Hok H. unfold UnMarkHazard. destruct (Z.eqb_spec i HP_INDEX_NULL) as [|Hne].
  - apply safeT_ret. intros w1 Hf Hi1. apply H. by apply after_frame.
  - destruct Hok as [|Hok]; [done|]. destruct (hp_at_ret r i Hok) as (h & Hh & He). eapply safeT_pure; [exact He|].
    apply safeT_last. change (safeT t (store (HpPtr h) 0 ≫= (fun x => mret x)) r w Q).
    apply safeT_store_shared; [by apply (gd_hp _ _ Hg)|done|]. intros w' Ha. apply safeT_ret. intros w1 Hf Hi1.
    apply H. eapply after_trans; [exact Ha|]. apply after_frame; [done|done|apply Ha].
Qed.

Lemma idle_loop_spec m r w p (Q : Z -> Reclaimer -> world V -> Prop) :
  Inv w -> good r w -> pub_hazard w p ->
  (forall x w', after t r w r w' -> x = 0 \/ pub_hazard w' x -> Q x r w') -> safeT t (idle_loop m p) r w Q.
Proof.
  revert r w p. induction m as [|m IH]; intros r w p Hi Hg Hp H; cbn [idle_loop]; [done|].
  apply safeT_exchange_shared; [done|done|]. intros y w1 Ha1. pose proof (pub_hazard_grows _ _ _ (fr_grows _ _ _ (af_frame _ _ _ _ _ Ha1)) Hp) as Hp1.
  destruct (y =? 0).
  - apply safeT_ret. intros w2 Hf Hi2. apply H.
    + eapply after_trans; [exact Ha1|]. apply after_frame; [done|done|apply Ha1].
    + right. by apply (pub_hazard_grows w1); [apply Hf|].
  - apply safeT_load_hp_next; [done|apply Ha1|]. intros x w2 Ha2 Hx.
    pose proof (after_trans _ _ _ _ _ _ _ Ha1 Ha2) as Ha. destruct (Z.eqb_spec x 0) as [->|Hne].
    + apply safeT_ret. intros w3 Hf Hi3. apply H; [|by left]. eapply after_trans; [exact Ha|].
      apply after_frame; [done|done|apply Ha].
    + destruct Hx as [|Hx]; [done|]. apply IH; [apply Ha|apply Ha|done|]. intros z w3 Ha3 Hz. apply H; [|done].
      by eapply after_trans.
Qed.

(** A write to a private object. *)
Lemma private_step w a (o : obj V) l x :
  Inv w -> mine t w a o -> l ∈ members a o -> (forall b, l = Next b -> is_marked_reference x = false) ->
  can_step t l x w (write l x w) /\ frame_but a t w (write l x w) /\ Inv (write l x w) /\ mine t (write l x w) a o.
Proof.
  intros Hi Ha Hl Hx. pose proof (members_owner _ _ _ Hl) as Ho.
  assert (unconstrained w l) as Hu by (destruct l; try done; injection Ho as ->; exists t; apply Ha).
  destruct (inv_write hash_func_ head_ w l x Hi Hu Hx) as [Hi' Hg].
  assert (may_touch t w l) as Ht.
  { intros b t' Hb Hr. rewrite Ho in Hb. injection Hb as <-. destruct Ha as [Ha _]. congruence. }
  split; [|split; [|split; [done|done]]].
  - split; [done|]. split; [done|]. intros t' Hne. by apply (frame_write t).
  - constructor; [done|by apply same_log|done|]. intros b o' l' Hne Hb Hl'. rewrite atom_write, decide_False; [done|].
    intros ->. rewrite (members_owner _ _ _ Hl') in Ho. congruence.
Qed.

Lemma push_loop_spec m r w new old (Q : () -> Reclaimer -> world V -> Prop) :
  Inv w -> mine t w new OHazard ->
  (forall w', frame_but new t w w' -> Inv w' -> pub_hazard w' new -> Q () r w') -> safeT t (push_loop m new old) r w Q.
Proof.
  revert w old. induction m as [|m IH]; intros w old Hi Ha H; cbn [push_loop]; [done|].
  assert (HpNext new ∈ members new (@OHazard V)) as Hmem by (right; right; left).
  apply safeT_store. intros w1 Hf1 Hi1. pose proof (mine_frame _ _ _ _ _ Hf1 Ha) as Ha1.
  split; [by eapply (ih_members _ _ (inv_h _ _ _ Hi1)); [apply Ha1|]|].
  destruct (private_step w1 new OHazard (HpNext new) old Hi1 Ha1 Hmem ltac:(done)) as (Hc & Hfb & Hi2 & Ha2).
  exists (write (HpNext new) old w1). split; [done|]. set (w2 := write (HpNext new) old w1) in *.
  assert (atom_at w2 (HpNext new) = Some old) as Hat by (unfold w2; by rewrite atom_write, decide_True).
  apply safeT_cas. intros w3 Hf3 Hi3. destruct (ig_hp_head _ (inv_g _ _ _ Hi3)) as (h & Hh & _).
  assert (frame_but new t w w3) as Hfb3.
  { eapply frame_but_trans; [by apply frame_but_of|]. eapply frame_but_trans; [exact Hfb|by apply frame_but_of]. }
  pose proof (mine_frame _ _ _ _ _ Hf3 Ha2) as Ha3.
  exists h. split; [done|]. split.
  - intros _. apply IH; [done|done|]. intros w4 Hfb4. apply H. by eapply frame_but_trans.
  - intros -> _. destruct (inv_publish_hazard hash_func_ head_ t new w3 Hi3 Ha3) as (Hi4 & Hg4 & Hf4 & Hp4).
    { exists old. split; [|done]. by rewrite (fr_atoms _ _ _ Hf3 new OHazard). }
    exists (publish_at HpHead new new PHazard w3). split; [done|]. cbn. apply safeT_ret. intros w5 Hf5 Hi5. apply H; [|done|].
    + eapply frame_but_trans; [exact Hfb3|]. eapply frame_but_trans; [|by apply frame_but_of].
      constructor; [done|by apply same_log| |].
      * intros b Hne Hb. rewrite role_publish, decide_False by done. done.
      * intros b o l Hne Hb Hl. rewrite atom_publish, decide_False; [done|]. intros <-. apply members_owner in Hl. done.
    + by apply (pub_hazard_grows (publish_at HpHead new new PHazard w3)); [apply Hf5|].
Qed.

Lemma TryAcquireHazardPointer_spec r w (Q : () -> Reclaimer -> world V -> Prop) :
  Inv w -> good r w ->
  (forall r' w', after t r w r' w' -> (length (hp_list_ r) < length (hp_list_ r'))%nat -> Q () r' w') ->
  safeT t (TryAcquireHazardPointer fuel) r w Q.
Proof.
  intros Hi Hg H. unfold TryAcquireHazardPointer. apply safeT_load_hp_head; [done|]. intros p w1 Ha1 Hp.
  apply safeT_bind; [apply Ha1|]. apply idle_loop_spec; [apply Ha1|apply Ha1|done|]. intros hp w2 Ha2 Hhp.
  pose proof (after_trans _ _ _ _ _ _ _ Ha1 Ha2) as Ha12.
  assert (forall h w3, after t r w r w3 -> pub_hazard w3 h ->
    safeT t (r ← reclaimer; set_reclaimer (MkReclaimer (hp_list_ r ++ [h]) (reclaim_map_ r) (reclaim_pool_ r))) r w3 Q) as Hend.
  { intros h w3 Ha3 Hh. apply safeT_reclaimer. intros w4 Hf4 Hi4. apply H; [|cbn; rewrite length_app; cbn; lia].
    pose proof (after_frame t r w3 w4 Hf4 Hi4 (af_good _ _ _ _ _ Ha3)) as Ha4.
    constructor; [|done| |by eexists].
    - eapply frame_trans; [apply Ha3|done].
    - destruct (af_good _ _ _ _ _ Ha4) as [H1 H2 H3]. constructor; cbn; [|done|done].
      intros h' [Hin| ->%list_elem_of_singleton]%elem_of_app; [by apply H1|]. by apply (pub_hazard_grows w3); [apply Hf4|]. }
  destruct (Z.eqb_spec hp 0) as [->|Hne].
  2: { destruct Hhp as [|Hhp]; [done|]. apply safeT_ret_bind. by apply Hend. }
  apply safeT_bind; [apply Ha12|].
  apply safeT_new; [done|]. intros w3 a Hf3 Hi3 Hnone Haddr Hi4 Hf4 Hm4. set (w4 := alloc t a OHazard w3) in *.
  assert (frame t w w4) as Hfw4 by (eapply frame_trans; [apply Ha12|]; by eapply frame_trans).
  assert (good r w4) as Hg4 by (apply (good_grows r w); [apply Hfw4|done]).
  apply safeT_exchange. intros w5 Hf5 Hi5. pose proof (mine_frame _ _ _ _ _ Hf5 Hm4) as Hm5.
  destruct (ih_members _ _ (inv_h _ _ _ Hi5) a OHazard (HpFlag a)) as [y Hy]; [apply Hm5|left|].
  exists y. split; [done|].
  destruct (private_step w5 a OHazard (HpFlag a) 1 Hi5 Hm5 ltac:(left) ltac:(done)) as (Hc5 & Hfb5 & Hi6 & Hm6).
  exists (write (HpFlag a) 1 w5). split; [done|]. set (w6 := write (HpFlag a) 1 w5) in *.
  assert (frame_but a t w4 w6) as Hfb46 by (eapply frame_but_trans; [by apply frame_but_of|done]).
  assert (good r w6) as Hg6 by (apply (good_grows r w4); [apply Hfb46|done]).
  apply safeT_fetch_add_shared; [done|done|]. intros y' w7 Ha7.
  apply safeT_load_hp_head; [apply Ha7|]. intros old w8 Ha8 _. pose proof (after_trans _ _ _ _ _ _ _ Ha7 Ha8) as Ha78.
  pose proof (mine_frame _ _ _ _ _ (af_frame _ _ _ _ _ Ha78) Hm6) as Hm8.
  apply safeT_bind; [apply Ha78|]. apply push_loop_spec; [apply Ha78|done|]. intros w9 Hfb9 Hi9 Hp9.
  apply safeT_ret. intros w10 Hf10 Hi10.
  assert (frame_but a t w3 w10) as Hfb.
  { eapply frame_but_trans; [by apply frame_but_of|]. eapply frame_but_trans; [exact Hfb46|].
    eapply frame_but_trans; [apply frame_but_of, Ha78|]. eapply frame_but_trans; [exact Hfb9|by apply frame_but_of]. }
  assert (frame t w3 w10) as Hf310.
  { apply (frame_but_close a); [done|]. intros Hr. destruct (ih_owned _ _ (inv_h _ _ _ Hi3) a _ Hr). congruence. }
  apply Hend; [|by apply (pub_hazard_grows w9); [apply Hf10|]].
  apply after_frame; [|done|done]. eapply frame_trans; [apply Ha12|]. by eapply frame_trans.
Qed.

Lemma mark_loop_spec l i r w ptr (Q : option Z -> Reclaimer -> world V -> Prop) :
  Inv w -> good r w -> (forall h, h ∈ l -> pub_hazard w h) ->
  (forall x w', after t r w r w' -> match x with Some j => i <= j < i + Z.of_nat (length l) | None => True end -> Q x r w') ->
  safeT t (mark_loop i l ptr) r w Q.
Proof.
  revert i w. induction l as [|h l IH]; intros i w Hi Hg Hl H; cbn [mark_loop].
  - apply safeT_ret. intros w1 Hf Hi1. apply H; [by apply after_frame|done].
  - apply safeT_load_shared; [apply Hl; left|done|]. intros p w1 Ha1.
    assert (forall h', h' ∈ h :: l -> pub_hazard w1 h') as Hl1.
    { intros h' Hh'. apply (pub_hazard_grows w); [apply Ha1|]. by apply Hl. }
    destruct (p =? 0).
    + apply safeT_store_shared; [apply Hl1; left|apply Ha1|]. intros w2 Ha2. apply safeT_ret. intros w3 Hf3 Hi3.
      apply H; [|cbn; lia]. eapply after_trans; [exact Ha1|]. eapply after_trans; [exact Ha2|]. by apply after_frame; [| |apply Ha2].
    + apply IH; [apply Ha1|apply Ha1|intros h' Hh'; apply Hl1; by right|]. intros x w2 Ha2 Hx.
      apply H; [by eapply after_trans|]. destruct x as [j|]; [cbn; lia|done].
Qed.

Lemma MarkHazard_spec r w ptr (Q : Z -> Reclaimer -> world V -> Prop) :
  Inv w -> good r w -> (forall i r' w', after t r w r' w' -> ok_hp r' i -> Q i r' w') -> safeT t (MarkHazard fuel ptr) r w Q.
Proof.
  intros Hi Hg H. unfold MarkHazard. destruct (ptr =? 0).
  - apply safeT_ret. intros w1 Hf Hi1. apply H; [by apply after_frame|by left].
  - apply safeT_reclaimer. apply safeT_bind; [done|].
    apply mark_loop_spec; [done|done|apply Hg|]. intros [i|] w1 Ha1 Hx.
    + apply safeT_ret. intros w2 Hf2 Hi2. apply H; [|by right].
      eapply after_trans; [exact Ha1|]. by apply after_frame; [| |apply Ha1].
    + apply safeT_bind; [apply Ha1|]. apply TryAcquireHazardPointer_spec; [apply Ha1|apply Ha1|]. intros r2 w2 Ha2 Hlen.
      apply safeT_reclaimer. cbv zeta. destruct (hp_at_ret r2 (Z.of_nat (length (hp_list_ r2)) - 1)) as (h & Hh & He); [lia|].
      eapply safeT_pure; [exact He|]. apply safeT_store_shared; [by apply (gd_hp _ _ (af_good _ _ _ _ _ Ha2))|apply Ha2|].
      intros w3 Ha3. apply safeT_ret. intros w4 Hf4 Hi4. apply H; [|right; lia].
      eapply after_trans; [exact Ha1|]. eapply after_trans; [exact Ha2|]. eapply after_trans; [exact Ha3|].
      by apply after_frame; [| |apply Ha3].
Qed.

(** ** Reclaiming *)

Lemma ReclaimLater_spec {B} (f : () -> thread V B) r w ptr func Q :
  good r w -> Inv w -> (match func with OnDeleteNode => exists n, pub_node w ptr n | delete_value => True end) ->
  (forall r', after t r w r' w -> safeT t (f ()) r' w Q) -> safeT t (ReclaimLater ptr func ≫= f) r w Q.
Proof.
  intros Hg Hi Hf H. destruct (Pop (reclaim_pool_ r)) as [[x pool]|] eqn:Hpop.
  - eapply safeT_pure.
    + unfold ReclaimLater, reclaimer, set_reclaimer, mbind, thread_bind. cbn. rewrite Hpop. reflexivity.
    + apply H. constructor; [apply frame_refl|done| |exists []; by rewrite app_nil_r].
      destruct Hg as [H1 H2 H3]. constructor; cbn; [done| |].
      * unfold Pop in Hpop. destruct (reclaim_pool_ r) as [|y [|z l]]; [done|by injection Hpop as _ <-|by injection Hpop as _ <-].
      * intros p y Hy. destruct (reclaim_map_ r !! ptr); [by eapply H3|].
        apply lookup_insert_Some in Hy as [[_ <-]|[_ Hy]]; [|by eapply H3]. unfold retired. cbn. by destruct func.
  - exfalso. destruct Hg as [_ H2 _]. unfold Pop in Hpop. by destruct (reclaim_pool_ r) as [|y [|z l]].
Qed.

(** A retired node is still there, and deleting it is not followed further. *)
Lemma call_delete_spec {B} (f : () -> thread V B) x r w Q :
  Inv w -> good r w -> retired w x -> safeT t (call_delete x ≫= f) r w Q.
Proof.
  intros Hi Hg Hx. unfold call_delete. unfold retired in Hx. destruct (delete_func x) as [[]|]; [| |done].
  - destruct Hx as [n Hn]. apply safeT_bind; [done|]. unfold delete_node. apply (safeT_fields _ _ t _ n). intros w1 Hf1 Hi1.
    pose proof (pub_node_grows _ _ _ _ (fr_grows _ _ _ Hf1) Hn) as Hn1. split; [apply Hn1|].
    destruct (IsDummy n) eqn:Hd.
    + apply safeT_ret_bind. apply safeT_last, safeT_delete_retired.
    + apply safeT_bind; [done|]. apply safeT_load. intros w2 Hf2 Hi2. pose proof (pub_node_grows _ _ _ _ (fr_grows _ _ _ Hf2) Hn1) as Hn2.
      destruct (il_value _ _ (inv_l _ _ _ Hi2) _ _ Hn2 Hd) as (v & y & Hv & _). exists v. split; [done|].
      destruct (v =? 0).
      * apply safeT_ret. intros w3 Hf3 Hi3. apply safeT_last, safeT_delete_retired.
      * apply safeT_last, safeT_delete_retired.
  - apply safeT_bind; [done|]. apply safeT_last, safeT_delete_retired.
Qed.

Lemma scan_loop_spec m r w p s0 (Q : gset Z -> Reclaimer -> world V -> Prop) :
  Inv w -> good r w -> pub_hazard w p -> (forall s w', after t r w r w' -> Q s r w') -> safeT t (scan_loop m p s0) r w Q.
Proof.
  revert w p s0. induction m as [|m IH]; intros w p s0 Hi Hg Hp H; cbn [scan_loop]; [done|].
  apply safeT_load_shared; [done|done|]. intros ptr w1 Ha1. cbv zeta.
  apply safeT_load_hp_next; [by apply (pub_hazard_grows w); [apply Ha1|]|apply Ha1|]. intros x w2 Ha2 Hx.
  pose proof (after_trans _ _ _ _ _ _ _ Ha1 Ha2) as Ha. destruct (Z.eqb_spec x 0).
  - apply safeT_ret. intros w3 Hf3 Hi3. apply H. eapply after_trans; [exact Ha|]. by apply after_frame; [| |apply Ha].
  - destruct Hx as [|Hx]; [done|]. apply IH; [apply Ha|apply Ha|done|]. intros s w3 Ha3. apply H. by eapply after_trans.
Qed.

Lemma reclaim_loop_spec l r w s (Q : () -> Reclaimer -> world V -> Prop) :
  Inv w -> good r w -> (forall p x, (p, x) ∈ l -> retired w x) -> (forall w', after t r w r w' -> Q () r w') ->
  safeT t (reclaim_loop l s) r w Q.
Proof.
  induction l as [|[p x] l IH]; intros Hi Hg Hl H; cbn [reclaim_loop].
  - apply safeT_ret. intros w1 Hf Hi1. apply H. by apply after_frame.
  - destruct (bool_decide _).
    + apply IH; [done|done| |done]. intros p' x' Hin. apply (Hl p'). by right.
    + apply call_delete_spec; [done|done|]. apply (Hl p). left.
Qed.

Lemma ReclaimNoHazardPointer_spec r w (Q : () -> Reclaimer -> world V -> Prop) :
  Inv w -> good r w -> (forall w', after t r w r w' -> Q () r w') -> safeT t (ReclaimNoHazardPointer fuel) r w Q.
Proof.
  intros Hi Hg H. unfold ReclaimNoHazardPointer. apply safeT_reclaimer.
  apply safeT_bind; [done|]. unfold get_size. apply safeT_load_shared; [done|done|]. intros n w1 Ha1.
  apply safeT_ret. intros w2 Hf2 Hi2. pose proof (after_trans _ _ _ _ _ _ _ Ha1 (after_frame t r w1 w2 Hf2 Hi2 (af_good _ _ _ _ _ Ha1))) as Ha2.
  destruct (_ <? _).
  - apply safeT_ret. intros w3 Hf3 Hi3. apply H. eapply after_trans; [exact Ha2|]. by apply after_frame; [| |apply Ha2].
  - apply safeT_load_hp_head; [apply Ha2|]. intros p w3 Ha3 Hp. apply safeT_bind; [apply Ha3|].
    apply scan_loop_spec; [apply Ha3|apply Ha3|done|]. intros s w4 Ha4.
    apply reclaim_loop_spec; [apply Ha4|apply Ha4| |].
    + intros p' x Hin%elem_of_map_to_list. by apply (gd_map _ _ (af_good _ _ _ _ _ Ha4) p').
    + intros w5 Ha5. apply H. eapply after_trans; [exact Ha2|]. eapply after_trans; [exact Ha3|]. by eapply after_trans.
Qed.

End Shared.

End HazardRules.
