(* ===== verification/CtSearch.v ===== *)
(** [SearchNode] of the lock-free table under interleavings: it keeps the invariant,
    unlinks marked nodes, and tells the truth about one moment of its run. *)
From stdpp Require Import sorting.
From S2P Require Import Prelude Words Outcome SplitOrder Atomic Hazard Ct CtWorld CtMoves CtRules CtHazard.

Section Search.
Context {V : Type} (hash_func_ : Z -> Z) (head_ : Z) (fuel : nat) (t : nat).
Implicit Types (w : world V) (a h v ptr : Z) (n np nc nh sn : node) (r : Reclaimer).

Abbreviation Inv := (Inv hash_func_ head_).
Abbreviation safeT := (safeT hash_func_ head_ t).
Abbreviation after := (after hash_func_ head_ t).

Lemma after_step r w r1 w1 w2 : after r w r1 w1 -> frame t w1 w2 -> Inv w2 -> after r w r1 w2.
Proof. intros Ha Hf Hi. eapply after_trans; [exact Ha|]. apply after_frame; [done|done|apply Ha]. Qed.

Lemma pub_node_after r w r1 w1 a n : after r w r1 w1 -> pub_node w a n -> pub_node w1 a n.
Proof. intros Ha. apply pub_node_grows, Ha. Qed.

Lemma node_next w a n : Inv w -> pub_node w a n -> exists x, atom_at w (Next a) = Some x.
Proof.
  intros Hi [_ Ho]. apply (ih_members _ _ (inv_h _ _ _ Hi) a (ONode n)); [done|]. cbn. destruct (IsDummy n); left.
Qed.

Lemma pub_node_eq w a n m : pub_node w a n -> pub_node w a m -> n = m.
Proof. intros [_ H1] [_ H2]. congruence. Qed.

(** Where the successor of a node that leads to [cur] is. *)
Lemma successor w prev np cur :
  Inv w -> pub_node w prev np -> atom_at w (Next prev) = Some cur -> is_marked_reference cur = false ->
  exists l1 l2, order w = l1 ++ (prev, np) :: l2 /\ cur = first 0 l2 /\
    (cur = 0 /\ l2 = [] \/ exists nc l3, l2 = (cur, nc) :: l3 /\ pub_node w cur nc /\ cur <> 0).
Proof.
  intros Hi Hp Hx Hm. destruct (order_split hash_func_ head_ w prev np cur (inv_h _ _ _ Hi) (inv_l _ _ _ Hi) Hp Hx Hm) as (l1 & l2 & Ho & Hc).
  exists l1, l2. split; [done|]. split; [done|]. destruct l2 as [|[b m] l3]; [by left|right]. cbn in Hc. subst b.
  assert (pub_node w cur m) as Hpc.
  { apply (il_nodes _ _ (inv_l _ _ _ Hi)). rewrite Ho. apply elem_of_app. right. right. left. }
  exists m, l3. split; [done|]. split; [done|]. destruct (ih_address _ _ (inv_h _ _ _ Hi) cur _ (proj2 Hpc)). lia.
Qed.

(** A node that is not in the list. *)
Definition absent w sn : Prop := forall a, (a, sn) ∉ order w.

(** A node between two neighbours is not in the list. *)
Lemma absent_between w l1 prev np l2 sn :
  Inv w -> wf_node hash_func_ sn -> order w = l1 ++ (prev, np) :: l2 -> Less np sn = true ->
  (forall b m l3, l2 = (b, m) :: l3 -> Less sn m = true) -> absent w sn.
Proof.
  intros Hi Hwf Ho Hlo Hhi a Ha. pose proof (il_sorted _ _ (inv_l _ _ _ Hi)) as Hs. rewrite Ho in Hs.
  rewrite StronglySorted_app, StronglySorted_cons, Forall_forall in Hs. destruct Hs as (H1 & _ & H2 & H3).
  assert (forall b m, (b, m) ∈ order w -> wf_node hash_func_ m) as Hwfo by (intros; eapply node_wf; [apply Hi..|done]).
  assert (wf_node hash_func_ np) as Hwp by (eapply (Hwfo prev); rewrite Ho; apply elem_of_app; right; left).
  assert (forall m, wf_node hash_func_ m -> Less m sn = true -> Less sn m = true -> False) as Hno.
  { intros m Hm Hms Hsm. by rewrite (Less_asym hash_func_ m sn Hm Hwf Hms) in Hsm. }
  rewrite Ho in Ha. apply elem_of_app in Ha as [Ha|[[= -> ->]|Ha]%elem_of_cons].
  - specialize (H1 (a, sn) (prev, np) Ha ltac:(left)). by apply (Hno np Hwp).
  - by rewrite Less_irrefl in Hlo.
  - destruct l2 as [|[b m] l3]; [by apply not_elem_of_nil in Ha|]. specialize (Hhi b m l3 eq_refl).
    apply elem_of_cons in Ha as [[= -> ->]|Ha]; [by rewrite Less_irrefl in Hhi|].
    apply StronglySorted_cons in H3 as [H3 _]. rewrite Forall_forall in H3. specialize (H3 (a, sn) Ha).
    assert (wf_node hash_func_ m) as Hwm.
    { eapply (Hwfo b). rewrite Ho. apply elem_of_app. right. right. left. }
    by apply (Hno m Hwm).
Qed.

(** What a search has found. *)
Record search_post w sn (f : found_at) r' w' : Prop := {
  sp_prev_hp : ok_hp r' (prev_hp f);
  sp_cur_hp : ok_hp r' (cur_hp f);
  sp_prev : exists np, pub_node w' (prev f) np /\ Less np sn = true;
  sp_cur : (cur f = 0 /\ found f = false) \/
    exists nc, pub_node w' (cur f) nc /\ GreaterOrEquals nc sn = true /\ found f = Equals nc sn;
  sp_moment : exists w1, frame t w w1 /\ Inv w1 /\ frame t w1 w' /\
    (if found f then exists nc, pub_node w1 (cur f) nc /\ live w1 (cur f) else absent w1 sn)
}.

Lemma search_post_frame w sn f r w1 w2 : frame t w1 w2 -> search_post w sn f r w1 -> search_post w sn f r w2.
Proof.
  intros Hf [H1 H2 (np & Hp & Hl) Hc (w0 & Hf0 & Hi0 & Hf1 & Hm)]. constructor; [done|done| | |].
  - exists np. split; [|done]. by apply (pub_node_grows w1); [apply Hf|].
  - destruct Hc as [?|(nc & Hpc & ?)]; [by left|right]. exists nc. split; [|done]. by apply (pub_node_grows w1); [apply Hf|].
  - exists w0. split; [done|]. split; [done|]. split; [|done]. by eapply frame_trans.
Qed.

Lemma search_loop_spec m r w head nh sn at_ ph ch Q :
  Inv w -> good r w -> pub_node w head nh -> IsDummy nh = true -> Less nh sn = true -> wf_node hash_func_ sn ->
  ok_hp r ph -> ok_hp r ch ->
  match at_ with
  | try_again => True
  | looking prev cur => is_marked_reference cur = false /\ exists np, pub_node w prev np /\ Less np sn = true
  end ->
  (forall f r' w', after r w r' w' -> search_post w sn f r' w' -> Q f r' w') ->
  safeT (search_loop fuel m head sn at_ ph ch) r w Q.
Proof.
  revert r w at_ ph ch. induction m as [|m IH]; intros r w at_ ph ch Hi Hg Hh Hd Hhs Hwf Hph Hch Hat H; cbn [search_loop]; [done|].
  (* [go] of the induction hypothesis from a later world *)
  assert (forall r1 w1 at1 ph1 ch1, after r w r1 w1 -> ok_hp r1 ph1 -> ok_hp r1 ch1 ->
    match at1 with
    | try_again => True
    | looking prev cur => is_marked_reference cur = false /\ exists np, pub_node w1 prev np /\ Less np sn = true
    end -> safeT (search_loop fuel m head sn at1 ph1 ch1) r1 w1 Q) as Hgo.
  { intros r1 w1 at1 ph1 ch1 Ha1 Hp1 Hc1 Hat1. apply IH; try done; [apply Ha1|apply Ha1|by eapply pub_node_after|].
    intros f r2 w2 Ha2 Hpost. apply H; [by eapply after_trans|].
    destruct Hpost as [? ? ? ? (w0 & Hf0 & ?)]. constructor; try done. exists w0. split; [|done].
    eapply frame_trans; [apply Ha1|done]. }
  apply safeT_bind; [done|].
  enough (forall prev cur np w1, after r w r w1 -> is_marked_reference cur = false -> pub_node w1 prev np -> Less np sn = true ->
    safeT (UnMarkHazard ch;;
      cur_hp ← MarkHazard fuel cur;
      c ← get_next prev;
      if negb (c =? cur) then search_loop fuel m head sn try_again ph cur_hp else
      if cur =? 0 then mret (MkFound false prev cur ph cur_hp) else
      next ← get_next cur;
      if is_marked_reference next then
        '(done, _) ← atomically (Cas false (Next prev) cur (get_unmarked_reference next));
        if negb done then search_loop fuel m head sn try_again ph cur_hp else
        ReclaimLater cur OnDeleteNode;;
        ReclaimNoHazardPointer fuel;;
        atomically (FetchAdd 64 Size (-1));;
        search_loop fuel m head sn (looking prev (get_unmarked_reference next)) ph cur_hp
      else
        c ← get_next prev;
        if negb (c =? cur) then search_loop fuel m head sn try_again ph cur_hp else
        x ← atomically (Fields cur);
        if GreaterOrEquals x sn then mret (MkFound (Equals x sn) prev cur ph cur_hp) else
        search_loop fuel m head sn (looking cur next) cur_hp ph) r w1 Q) as Hbody.
  { destruct at_ as [|prev cur].
    - unfold get_next at 1. apply safeT_load. intros w1 Hf1 Hi1.
      pose proof (pub_node_grows _ _ _ _ (fr_grows _ _ _ Hf1) Hh) as Hh1.
      destruct (il_dummy _ _ (inv_l _ _ _ Hi1) head nh Hh1 Hd) as (x & Hx & Hmx). exists x. split; [done|].
      apply safeT_ret. intros w2 Hf2 Hi2. apply (Hbody head x nh); [|done| |done].
      + apply after_frame; [by eapply frame_trans|done|done].
      + by apply (pub_node_grows w1); [apply Hf2|].
    - destruct Hat as [Hm (np & Hp & Hl)]. apply safeT_ret. intros w1 Hf1 Hi1. apply (Hbody prev cur np); [|done| |done].
      + by apply after_frame.
      + by apply (pub_node_grows w); [apply Hf1|]. }
  clear Hat. intros prev cur np w1 Ha1 Hmc Hp1 Hlo.
  apply safeT_bind; [apply Ha1|]. apply UnMarkHazard_spec; [apply Ha1|apply Ha1|done|]. intros w2 Ha2.
  apply safeT_bind; [apply Ha2|]. apply MarkHazard_spec; [apply Ha2|apply Ha2|]. intros i r3 w3 Ha3 Hok3.
  pose proof (after_trans _ _ _ _ _ _ _ _ _ Ha1 (after_trans _ _ _ _ _ _ _ _ _ Ha2 Ha3)) as Ha13.
  assert (ok_hp r3 ph) as Hph3 by (by eapply ok_hp_after).
  assert (pub_node w3 prev np) as Hp3 by (eapply pub_node_after; [exact Ha3|]; by eapply pub_node_after).
  unfold get_next at 1. apply safeT_load. intros w4 Hf4 Hi4.
  pose proof (after_step _ _ _ _ _ Ha13 Hf4 Hi4) as Ha14. pose proof (pub_node_grows _ _ _ _ (fr_grows _ _ _ Hf4) Hp3) as Hp4.
  destruct (node_next w4 prev np Hi4 Hp4) as [c Hc]. exists c. split; [done|].
  destruct (Z.eqb_spec c cur) as [->|Hne]; cbn [negb]; [|by apply Hgo].
  destruct (successor w4 prev np cur Hi4 Hp4 Hc Hmc) as (l1 & l2 & Ho4 & Hcur & Hcase).
  destruct (Z.eqb_spec cur 0) as [Hc0|Hc0].
  { apply safeT_ret. intros w5 Hf5 Hi5. apply H; [by eapply after_step|]. constructor; cbn; try done.
    - exists np. split; [|done]. by apply (pub_node_grows w4); [apply Hf5|].
    - by left.
    - exists w4. split; [apply Ha14|]. split; [done|]. split; [done|]. eapply absent_between; [done|done|exact Ho4|done|].
      destruct Hcase as [[_ ->]|(? & ? & _ & _ & ?)]; done. }
  destruct Hcase as [[? _]|(nc & l3 & -> & Hpc4 & _)]; [done|].
  unfold get_next at 1. apply safeT_load. intros w5 Hf5 Hi5.
  pose proof (pub_node_grows _ _ _ _ (fr_grows _ _ _ Hf5) Hpc4) as Hpc5. pose proof (pub_node_grows _ _ _ _ (fr_grows _ _ _ Hf5) Hp4) as Hp5.
  pose proof (after_step _ _ _ _ _ Ha14 Hf5 Hi5) as Ha15.
  destruct (node_next w5 cur nc Hi5 Hpc5) as [next Hnext]. exists next. split; [done|].
  destruct (is_marked_reference next) eqn:Hmn.
  - (* unlink *)
    apply safeT_cas. intros w6 Hf6 Hi6. pose proof (after_step _ _ _ _ _ Ha15 Hf6 Hi6) as Ha16.
    pose proof (pub_node_grows _ _ _ _ (fr_grows _ _ _ Hf6) Hp5) as Hp6. pose proof (pub_node_grows _ _ _ _ (fr_grows _ _ _ Hf6) Hpc5) as Hpc6.
    destruct (node_next w6 prev np Hi6 Hp6) as [y Hy]. exists y. split; [done|]. cbn [negb]. split; [intros _; by apply Hgo|].
    intros -> _. pose proof (gr_marked _ _ (fr_grows _ _ _ Hf6) cur next (proj1 Hpc5) Hnext Hmn) as Hnext6.
    destruct (successor w6 prev np cur Hi6 Hp6 Hy Hmc) as (k1 & k2 & Ho6 & _ & [[? _]|(nc' & k3 & -> & Hpc6' & _)]); [done|].
    assert (order w6 = (k1 ++ [(prev, np)]) ++ (cur, nc') :: k3) as Ho6' by (rewrite Ho6, <- app_assoc; done).
    destruct (order_split_marked hash_func_ head_ w6 _ cur nc' k3 next (inv_h _ _ _ Hi6) (inv_l _ _ _ Hi6) Ho6' Hnext6 Hmn) as [_ Hun].
    assert (marked w6 cur) as Hmk by (by exists next).
    destruct (inv_unlink hash_func_ head_ w6 prev np cur nc' k1 k3 Hi6 Ho6 Hy Hmk) as (Hi7 & Hg7 & Hf7).
    exists (unlink w6 prev np k1 k3). split.
    { split; [by rewrite Hun|]. split; [done|]. intros t' _. apply Hf7. }
    assert (after r w r3 (unlink w6 prev np k1 k3)) as Ha17 by (by eapply after_step; [exact Ha16|apply Hf7|]).
    pose proof (pub_node_grows _ _ _ _ Hg7 Hpc6) as Hpc7. pose proof (pub_node_grows _ _ _ _ Hg7 Hp6) as Hp7.
    eapply ReclaimLater_spec; [apply Ha17|done|by exists nc|]. intros r8 Ha8.
    apply safeT_bind; [done|]. apply ReclaimNoHazardPointer_spec; [done|apply Ha8|]. intros w9 Ha9.
    eapply safeT_fetch_add_shared; [done|apply Ha9|]. intros z w10 Ha10.
    pose proof (after_trans _ _ _ _ _ _ _ _ _ Ha8 (after_trans _ _ _ _ _ _ _ _ _ Ha9 Ha10)) as Ha810.
    apply Hgo.
    + by eapply after_trans.
    + by eapply ok_hp_after.
    + by eapply ok_hp_after.
    + split; [apply unmarked_even|]. exists np. split; [|done]. by eapply pub_node_after.
  - apply safeT_load. intros w6 Hf6 Hi6. pose proof (after_step _ _ _ _ _ Ha15 Hf6 Hi6) as Ha16.
    pose proof (pub_node_grows _ _ _ _ (fr_grows _ _ _ Hf6) Hp5) as Hp6. pose proof (pub_node_grows _ _ _ _ (fr_grows _ _ _ Hf6) Hpc5) as Hpc6.
    destruct (node_next w6 prev np Hi6 Hp6) as [y Hy]. exists y. split; [done|].
    destruct (Z.eqb_spec y cur) as [->|Hne]; cbn [negb]; [|by apply Hgo].
    destruct (successor w6 prev np cur Hi6 Hp6 Hy Hmc) as (k1 & k2 & Ho6 & _ & [[? _]|(nc' & k3 & -> & Hpc6' & _)]); [done|].
    assert (nc' = nc) as -> by by eapply pub_node_eq.
    apply (safeT_fields _ _ _ _ nc). intros w7 Hf7 Hi7. pose proof (after_step _ _ _ _ _ Ha16 Hf7 Hi7) as Ha17.
    pose proof (pub_node_grows _ _ _ _ (fr_grows _ _ _ Hf7) Hp6) as Hp7. pose proof (pub_node_grows _ _ _ _ (fr_grows _ _ _ Hf7) Hpc6) as Hpc7.
    split; [apply Hpc7|]. destruct (GreaterOrEquals nc sn) eqn:Hge.
    + apply safeT_ret. intros w8 Hf8 Hi8. apply H; [by eapply after_step|]. constructor; cbn; try done.
      * exists np. split; [|done]. by apply (pub_node_grows w7); [apply Hf8|].
      * right. exists nc. split; [|done]. by apply (pub_node_grows w7); [apply Hf8|].
      * destruct (Equals nc sn) eqn:Heq.
        -- exists w5. split; [apply Ha15|]. split; [done|]. split; [eapply frame_trans; [exact Hf6|]; by eapply frame_trans|].
           exists nc. split; [done|]. by exists next.
        -- exists w6. split; [apply Ha16|]. split; [done|]. split; [by eapply frame_trans|].
           eapply absent_between; [done|done|exact Ho6|done|]. intros b n' l' [= <- <- <-].
           unfold Equals in Heq. unfold GreaterOrEquals in Hge. rewrite Hge in Heq. cbn in Heq. by apply negb_false_iff in Heq.
    + apply Hgo; [done|done|done|]. split; [done|]. exists nc. split; [done|]. unfold GreaterOrEquals in Hge. by apply negb_false_iff in Hge.
Qed.

Lemma SearchNode_spec r w head nh sn ph ch Q :
  Inv w -> good r w -> pub_node w head nh -> IsDummy nh = true -> Less nh sn = true -> wf_node hash_func_ sn ->
  ok_hp r ph -> ok_hp r ch ->
  (forall f r' w', after r w r' w' -> search_post w sn f r' w' -> Q f r' w') ->
  safeT (SearchNode fuel head sn ph ch) r w Q.
Proof. intros. by eapply search_loop_spec. Qed.

Lemma unmark_spec f r w (Q : () -> Reclaimer -> world V -> Prop) :
  Inv w -> good r w -> ok_hp r (prev_hp f) -> ok_hp r (cur_hp f) -> (forall w', after r w r w' -> Q () r w') ->
  safeT (unmark f) r w Q.
Proof.
  intros Hi Hg Hp Hc H. unfold unmark. apply safeT_bind; [done|]. apply UnMarkHazard_spec; [done|done|done|]. intros w1 Ha1.
  apply UnMarkHazard_spec; [apply Ha1|apply Ha1|done|]. intros w2 Ha2. apply H. by eapply after_trans.
Qed.

End Search.
