(* ===== verification/CtLink.v ===== *)
(** Linking a new node into the list of the lock-free table, under interleavings: the
    store to the new node and the compare-and-exchange after a search. *)
From stdpp Require Import sorting.
From S2P Require Import Prelude Words Outcome SplitOrder Atomic Hazard Ct CtWorld CtMoves CtRules CtHazard CtSearch.

Section Linking.
Context {V : Type} (hash_func_ : Z -> Z) (head_ : Z) (fuel : nat) (t : nat).
Implicit Types (w : world V) (a h v ptr new : Z) (n np nc nh sn : node) (r : Reclaimer).

Abbreviation Inv := (Inv hash_func_ head_).
Abbreviation safeT := (safeT hash_func_ head_ t).
Abbreviation after := (after hash_func_ head_ t).
Abbreviation can_step := (can_step hash_func_ head_ t).

(** ** A thread that works on a private object *)

(** As [after], except for the private object [a]. *)
Record after_but a r w r' w' : Prop := {
  ab_frame : frame_but a t w w';
  ab_inv : Inv w';
  ab_good : good r' w';
  ab_hp : exists ext, hp_list_ r' = hp_list_ r ++ ext
}.

Lemma after_but_of a r w r' w' : after r w r' w' -> after_but a r w r' w'.
Proof. intros [Hf Hi Hg Hh]. constructor; [by apply frame_but_of|done..]. Qed.

Lemma after_but_frame a r w w' : frame_but a t w w' -> Inv w' -> good r w -> after_but a r w r w'.
Proof.
  intros Hf Hi Hg. constructor; [done|done| |]; [|exists []; by rewrite app_nil_r]. by apply (good_grows r w), Hg; apply Hf.
Qed.

Lemma after_but_trans a r1 w1 r2 w2 r3 w3 :
  after_but a r1 w1 r2 w2 -> after_but a r2 w2 r3 w3 -> after_but a r1 w1 r3 w3.
Proof.
  intros [Hf1 _ _ [e1 H1]] [Hf2 Hi Hg [e2 H2]]. constructor; [by eapply frame_but_trans|done|done|].
  exists (e1 ++ e2). by rewrite H2, H1, app_assoc.
Qed.

Lemma after_but_close a r w r' w' : after_but a r w r' w' -> roles w !! a <> Some (Private t) -> after r w r' w'.
Proof. intros [Hf Hi Hg Hh] Ha. constructor; [by eapply frame_but_close|done..]. Qed.

Lemma ok_hp_after_but a r w r' w' i : after_but a r w r' w' -> ok_hp r i -> ok_hp r' i.
Proof. intros [_ _ _ [e He]] [->|Hi]; [by left|right]. rewrite He, length_app. lia. Qed.

Lemma pub_node_but a r w r' w' b n : after_but a r w r' w' -> pub_node w b n -> pub_node w' b n.
Proof. intros [Hf _ _ _]. apply pub_node_grows, Hf. Qed.

Lemma frame_but_free a (o : obj V) w :
  mine t w a o -> grows w (free a o w) -> frame_but a t w (free a o w).
Proof.
  intros Ha Hg. destruct (same_but_free t a o w Ha) as [Hor Hlog Hr Hobj Hat _ _].
  constructor; [done|by apply same_log| |].
  - intros b Hne Hb. by rewrite Hr, Hobj.
  - intros b o' l Hne Hb Hl. apply Hat. rewrite (members_owner _ _ _ Hl). congruence.
Qed.

(** A node of its own that the thread deletes: a dummy, or a regular one without value. *)
Lemma delete_node_spec {B} a n (f : () -> thread V B) r w Q :
  Inv w -> good r w -> mine t w a (ONode n) -> (IsDummy n = false -> atom_at w (Value a) = Some 0) ->
  (forall w', after_but a r w r w' -> obj_at w' a = None -> safeT (f ()) r w' Q) -> safeT (delete_node false a ≫= f) r w Q.
Proof.
  intros Hi Hg Ha Hv H. apply safeT_bind; [done|]. unfold delete_node. apply (safeT_fields _ _ _ _ n). intros w1 Hf1 Hi1.
  pose proof (mine_frame _ _ _ _ _ Hf1 Ha) as Ha1. split; [apply Ha1|].
  assert (forall w2, frame t w1 w2 -> Inv w2 -> safeT (atomically (Atomic.Delete false a)) r w2 (fun x r' w' => safeT (f x) r' w' Q)) as Hend.
  { intros w2 Hf2 Hi2. apply safeT_last. apply (safeT_free _ _ _ _ _ (ONode n)); [by eapply mine_frame|].
    intros w3 Hf3 Hi3 Hm3 Hi4 Hg4. apply safeT_ret. intros w5 Hf5 Hi5. eapply safeT_frame; [exact Hf5|]. apply H.
    - apply after_but_frame; [|done|done]. eapply frame_but_trans; [apply frame_but_of|by apply frame_but_free].
      eapply frame_trans; [exact Hf1|]. by eapply frame_trans.
    - unfold obj_at. cbn. by rewrite lookup_delete_eq. }
  destruct (IsDummy n) eqn:Hd.
  - apply safeT_ret_bind. by apply Hend; [apply frame_refl|].
  - apply safeT_bind; [done|]. apply safeT_load. intros w2 Hf2 Hi2. exists 0. split.
    { rewrite (fr_atoms _ _ _ Hf2 a (ONode n)), (fr_atoms _ _ _ Hf1 a (ONode n)); [by apply Hv|done| |done|];
        cbn; rewrite Hd; right; left. }
    change (0 =? 0) with true. cbv iota. apply safeT_ret. intros w3 Hf3 Hi3. apply Hend; [|done]. by eapply frame_trans.
Qed.

(** ** Linking *)

(** The node that a search has found is not before [n] and does not equal it. *)
Definition behind w n (cur : Z) : Prop :=
  cur = 0 \/ exists nc, pub_node w cur nc /\ Less n nc = true.

Lemma behind_grows w w' n cur : grows w w' -> behind w n cur -> behind w' n cur.
Proof. intros Hg [->|(nc & Hp & Hl)]; [by left|right]. exists nc. split; [by apply (pub_node_grows w)|done]. Qed.

Lemma behind_unmarked w n cur : Inv w -> behind w n cur -> is_marked_reference cur = false.
Proof.
  intros Hi [->|(nc & [_ Ho] & _)]; [apply unmarked_0|]. by apply address_unmarked, (ih_address _ _ (inv_h _ _ _ Hi) cur (ONode nc)).
Qed.

(** The value that the thread has for a new regular node, and where it is. *)
Definition has_value w new n (hv : option (Z * V)) : Prop :=
  match hv with
  | None => IsDummy n = true
  | Some (v, x) => IsDummy n = false /\ atom_at w (Value new) = Some v /\ mine t w v (OValue x)
  end.

(** What linking has done. *)
Record linked_in w new n (hv : option (Z * V)) w' : Prop := {
  ln_inv : Inv w';
  ln_grows : grows w w';
  ln_node : pub_node w' new n;
  ln_log : match hv with
    | None => frame_but new t w w'
    | Some (_, x) => exists k, key_of n = Some k /\ log w' = log w ++ [(t, Added k x)]
    end
}.

Lemma link_step w prev np cur new n hv :
  Inv w -> pub_node w prev np -> Less np n = true -> behind w n cur -> atom_at w (Next prev) = Some cur ->
  mine t w new (ONode n) -> atom_at w (Next new) = Some cur -> has_value w new n hv ->
  exists w', can_step (Next prev) new w w' /\ linked_in w new n hv w'.
Proof.
  intros Hi Hp Hlo Hb Hcur Hm Hnext Hv.
  destruct (successor hash_func_ head_ w prev np cur Hi Hp Hcur (behind_unmarked _ _ _ Hi Hb)) as (l1 & l2 & Ho & Hf & Hcase).
  assert (wf_node hash_func_ n) as Hwn by (eapply (ih_wf _ _ (inv_h _ _ _ Hi) new), Hm).
  assert (forall a m, (a, m) ∈ l2 -> Less n m = true) as Hhi.
  { intros a m Ha. destruct Hcase as [[_ ->]|(nc & l3 & -> & Hpc & Hne)]; [by apply not_elem_of_nil in Ha|].
    destruct Hb as [?|(nc' & Hpc' & Hl)]; [done|]. assert (nc' = nc) as -> by by eapply pub_node_eq.
    apply elem_of_cons in Ha as [[= -> ->]|Ha]; [done|].
    pose proof (il_sorted _ _ (inv_l _ _ _ Hi)) as Hs. rewrite Ho in Hs.
    rewrite StronglySorted_app, !StronglySorted_cons, Forall_cons in Hs. destruct Hs as (_ & _ & _ & Hs & _).
    rewrite Forall_forall in Hs.
    eapply Less_trans; [exact Hwn|eapply (ih_wf _ _ (inv_h _ _ _ Hi)), Hpc| |exact Hl|apply (Hs (a, m) Ha)].
    eapply (node_wf hash_func_ head_ w a m); [apply Hi..|]. rewrite Ho, elem_of_app, !elem_of_cons. by right; right; right. }
  rewrite Hf in Hcur, Hnext. destruct hv as [[v x]|]; cbn in Hv.
  - destruct Hv as (Hd & Hva & Hmv). unfold IsDummy in Hd. apply bool_decide_eq_false in Hd.
    destruct (key_of n) as [k|] eqn:Hk; [|done].
    destruct (inv_become_value hash_func_ head_ t v x w Hi Hmv) as (Hi1 & Hg1 & Hf1 & Hpv & Hothers).
    assert (mine t (become v PValue w) new (ONode n)) as Hm1.
    { apply Hothers; [|done]. intros ->. destruct Hm as [_ H1], Hmv as [_ H2]. congruence. }
    destruct (inv_link hash_func_ head_ t (become v PValue w) prev np new n l1 l2 [(t, Added k x)] Hi1 Ho Hcur Hm1 Hnext Hlo Hhi) as (Hi' & Hg' & Hf' & Hp').
    { unfold link_event. rewrite Hk. by exists v, x. }
    exists (link t prev np new n l1 l2 [(t, Added k x)] (become v PValue w)). split.
    { split; [done|]. split; [done|]. intros t' Hne. eapply frame_trans; [by apply Hf1|by apply Hf']. }
    constructor; try done; [by eapply grows_trans|]. by exists k.
  - assert (key_of n = None) as Hk by (unfold IsDummy in Hv; by apply bool_decide_eq_true in Hv).
    destruct (inv_link hash_func_ head_ t w prev np new n l1 l2 [] Hi Ho Hcur Hm Hnext Hlo Hhi) as (Hi' & Hg' & Hf' & Hp').
    { unfold link_event. by rewrite Hk. }
    exists (link t prev np new n l1 l2 [] w). split; [done|]. constructor; try done.
    constructor; [done|apply same_log; cbn; by rewrite app_nil_r| |].
    + intros b Hne Hb'. cbn. by rewrite lookup_insert_ne.
    + intros b o l Hne [Hb' _] Hl. rewrite link_atom, decide_False; [done|]. intros <-.
      apply members_owner in Hl as [= ->]. destruct Hp. congruence.
Qed.

(** The store and the exchange of the two loops that insert a node. *)
Lemma link_rule {B} prev np cur new n hv (f : bool -> thread V B) r w Q :
  Inv w -> good r w -> pub_node w prev np -> Less np n = true -> behind w n cur -> mine t w new (ONode n) -> has_value w new n hv ->
  (forall w', after_but new r w r w' -> mine t w' new (ONode n) -> has_value w' new n hv -> safeT (f false) r w' Q) ->
  (forall w1 w', after_but new r w r w1 -> linked_in w1 new n hv w' -> safeT (f true) r w' Q) ->
  safeT (store (Next new) cur;; '(done, _) ← atomically (Cas true (Next prev) cur new); f done) r w Q.
Proof.
  intros Hi Hg Hp Hlo Hb Hm Hv Hfail Hok. apply safeT_store. intros w1 Hf1 Hi1. pose proof (mine_frame _ _ _ _ _ Hf1 Hm) as Hm1.
  assert (Next new ∈ members new (ONode n : obj V)) as Hin by (cbn; destruct (IsDummy n); left).
  split; [eapply (ih_members _ _ (inv_h _ _ _ Hi1)); [apply Hm1|done]|].
  pose proof (behind_unmarked _ _ _ Hi Hb) as Hun.
  destruct (private_step hash_func_ head_ t w1 new (ONode n) (Next new) cur Hi1 Hm1 Hin ltac:(done)) as (Hc & Hfb & Hi2 & Hm2).
  exists (write (Next new) cur w1). split; [done|]. set (w2 := write (Next new) cur w1) in *.
  assert (atom_at w2 (Next new) = Some cur) as Hat by (unfold w2; by rewrite atom_write, decide_True).
  assert (forall w1 w2, frame t w1 w2 -> mine t w1 new (ONode n) -> has_value w1 new n hv -> has_value w2 new n hv) as Hvf.
  { intros u1 u2 Hu Hmu. destruct hv as [[v x]|]; [|done]. intros (Hd & Hva & Hmv). split; [done|].
    rewrite (fr_atoms _ _ _ Hu new (ONode n)); [|done|cbn; rewrite Hd; right; left]. split; [done|]. by apply (mine_frame _ u1). }
  assert (has_value w2 new n hv) as Hv2.
  { apply (Hvf w w1 Hf1 Hm) in Hv. destruct hv as [[v x]|]; [|done]. destruct Hv as (Hd & Hva & Hmv).
    split; [done|]. split; [|done]. unfold w2. by rewrite atom_write, decide_False. }
  apply safeT_cas. intros w3 Hf3 Hi3. pose proof (mine_frame _ _ _ _ _ Hf3 Hm2) as Hm3.
  assert (frame_but new t w w3) as Hfb3.
  { eapply frame_but_trans; [by apply frame_but_of|]. eapply frame_but_trans; [exact Hfb|by apply frame_but_of]. }
  pose proof (Hvf w2 w3 Hf3 Hm2 Hv2) as Hv3.
  pose proof (pub_node_grows _ _ _ _ (fb_grows _ _ _ _ Hfb3) Hp) as Hp3.
  destruct (node_next hash_func_ head_ w3 prev np Hi3 Hp3) as [y Hy]. exists y. split; [done|]. split.
  - intros _. apply Hfail; [by apply after_but_frame|done|done].
  - intros -> _. destruct (link_step w3 prev np cur new n hv) as (w4 & Hs & Hl); try done.
    + eapply behind_grows; [apply Hfb3|done].
    + by rewrite (fr_atoms _ _ _ Hf3 new (ONode n)).
    + exists w4. split; [done|]. apply (Hok w3); [by apply after_but_frame|done].
Qed.

(** A search that has not found the node has found its place. *)
Lemma search_behind w0 sn (f : found_at) r w : search_post hash_func_ head_ t w0 sn f r w -> found f = false -> behind w sn (cur f).
Proof.
  intros [_ _ _ Hc _] Hf. destruct Hc as [[Hc _]|(nc & Hp & Hge & He)]; [by left|right]. exists nc. split; [done|].
  rewrite Hf in He. unfold Equals, GreaterOrEquals in *. destruct (Less nc sn); [done|]. cbn in He. by destruct (Less sn nc).
Qed.

(** A search that has found the node has found it. *)
Lemma search_found w0 sn (f : found_at) r w :
  Inv w -> wf_node hash_func_ sn -> search_post hash_func_ head_ t w0 sn f r w -> found f = true -> pub_node w (cur f) sn.
Proof.
  intros Hi Hwf [_ _ _ Hc _] Hf. destruct Hc as [[_ ?]|(nc & Hp & Hge & He)]; [congruence|]. rewrite Hf in He.
  rewrite <- (Equals_eq hash_func_ nc sn); [done| |done|done]. eapply (ih_wf _ _ (inv_h _ _ _ Hi)), Hp.
Qed.

End Linking.
