(* ===== verification/CtBuckets.v ===== *)
(** The buckets of the lock-free table under interleavings: the tree of segments, new
    segments and dummy nodes, and the head of the bucket of a hash. *)
From stdpp Require Import sorting.
From S2P Require Import Prelude Words Outcome SplitOrder Atomic Hazard Ct CtWorld CtMoves CtRules CtHazard CtSearch CtLink.

Section Buckets.
Context {V : Type} (hash_func_ : Z -> Z) (head_ : Z) (fuel : nat) (t : nat).
Implicit Types (w : world V) (a h v ptr b : Z) (n np nc nh sn : node) (r : Reclaimer).

Abbreviation Inv := (Inv hash_func_ head_).
Abbreviation safeT := (safeT hash_func_ head_ t).
Abbreviation after := (after hash_func_ head_ t).
Abbreviation after_but := (after_but hash_func_ head_ t).
Abbreviation search_post := (search_post hash_func_ head_ t).

(** ** The tree of segments *)

(** The array that a walk down the tree has reached. *)
Definition reached w (segments : option Z) (path : list Z) : Prop :=
  match segments with None => path = [] | Some a => pub_array w a path /\ a <> 0 end.

Lemma reached_grows w w' s path : grows w w' -> reached w s path -> reached w' s path.
Proof. intros Hg. destruct s as [a|]; [|done]. intros [Hp ?]. split; [by apply (pub_array_grows w)|done]. Qed.

Lemma indices_spec i : i ∈ indices <-> 0 <= i < 64.
Proof.
  unfold indices. rewrite list_elem_of_fmap. split.
  - intros (k & -> & Hk%elem_of_seq). lia.
  - intros Hi. exists (Z.to_nat i). rewrite elem_of_seq. lia.
Qed.

Lemma pub_array_address w a path : Inv w -> pub_array w a path -> a <> 0.
Proof. intros Hi (_ & o & Ho & _) ->. destruct (ih_address _ _ (inv_h _ _ _ Hi) 0 o Ho). lia. Qed.

Lemma segments_member w s path i :
  pub_array w s path -> (length path <= 2)%nat -> 0 <= i < 64 ->
  exists o, obj_at w s = Some o /\ Data s i ∈ members s o.
Proof.
  intros (_ & o & Ho & Hk) Hlen Hi. exists o. split; [done|].
  destruct path as [|x [|y [|z [|u l]]]]; cbn in Hlen, Hk; try done; try lia; destruct o; try done;
    change (Data s i ∈ Data s <$> indices); by apply list_elem_of_fmap_2, indices_spec.
Qed.

Lemma buckets_member w s path i :
  pub_array w s path -> length path = 3%nat -> 0 <= i < 64 ->
  exists o, obj_at w s = Some o /\ BucketAt s i ∈ members s o.
Proof.
  intros (_ & o & Ho & Hk) Hlen Hi. exists o. split; [done|].
  destruct path as [|x [|y [|z [|u l]]]]; cbn in Hlen, Hk; try done; destruct o; try done;
    change (BucketAt s i ∈ BucketAt s <$> indices); by apply list_elem_of_fmap_2, indices_spec.
Qed.

(** The path to bucket 0, whose arrays are there from the start. *)
Definition zeros (path : list Z) : Prop := Forall (fun i => i = 0) path.

Lemma data_lookup w s path i :
  Inv w -> reached w s path -> (length path <= 2)%nat -> 0 <= i < 64 ->
  exists x, atom_at w (data_of s i) = Some x /\ (x = 0 /\ ~ zeros (path ++ [i]) \/ pub_array w x (path ++ [i])).
Proof.
  intros Hi Hr Hlen Hij.
  enough (exists x, atom_at w (data_of s i) = Some x /\ (x = 0 \/ pub_array w x (path ++ [i])) /\ (zeros (path ++ [i]) -> x <> 0))
    as (x & Hx & Hc & Hz).
  { exists x. split; [done|]. destruct Hc as [Hc|Hc]; [left; split; [done|]; intros Hzz; by apply Hz in Hzz|by right]. }
  destruct (it_zero _ (inv_t _ _ _ Hi)) as ((x0 & Hx0 & Hn0) & Hz & _). destruct s as [a|]; cbn in *.
  - destruct Hr as [Hp _]. destruct (segments_member w a path i Hp Hlen Hij) as (o & Ho & Hin).
    destruct (ih_members _ _ (inv_h _ _ _ Hi) a o _ Ho Hin) as [x Hx]. exists x. split; [done|].
    split; [by eapply (it_data _ (inv_t _ _ _ Hi))|]. intros Hzp%Forall_app. destruct Hzp as [Hzp Hzi].
    apply Forall_singleton in Hzi as ->. destruct (Hz a) as (y & Hy & Hy0); [|congruence].
    destruct path as [|i1 [|i2 [|i3 l]]]; cbn in Hlen; [|apply Forall_cons in Hzp as [-> _]; by left| |lia].
    + by destruct Hp as (_ & o' & _ & Hk).
    + apply Forall_cons in Hzp as [-> [-> _]%Forall_cons]. by right.
  - subst path. destruct (it_top _ (inv_t _ _ _ Hi) i Hij) as (x & Hx & Hp). exists x. split; [done|]. split; [done|].
    intros Hzi. apply Forall_singleton in Hzi as ->. congruence.
Qed.

Lemma bucket_lookup w s path i :
  Inv w -> pub_array w s path -> length path = 3%nat -> 0 <= i < 64 ->
  exists x, atom_at w (BucketAt s i) = Some x /\
    (x = 0 /\ ~ zeros (path ++ [i]) \/ pub_node w x (DummyNode (bucket_index_of (path ++ [i])))).
Proof.
  intros Hi Hp Hlen Hij. destruct (buckets_member w s path i Hp Hlen Hij) as (o & Ho & Hin).
  destruct (ih_members _ _ (inv_h _ _ _ Hi) s o _ Ho Hin) as [x Hx]. exists x. split; [done|].
  destruct (it_bucket _ (inv_t _ _ _ Hi) s path o i x Hp Ho Hin Hx) as [->|]; [left|by right]. split; [done|].
  intros Hz%Forall_app. destruct Hz as [Hz Hzi]. apply Forall_singleton in Hzi as ->.
  destruct (it_zero _ (inv_t _ _ _ Hi)) as (_ & _ & Hb).
  destruct path as [|i1 [|i2 [|i3 [|? ?]]]]; try done.
  apply Forall_cons in Hz as [-> [-> [-> _]%Forall_cons]%Forall_cons].
  destruct (Hb s Hp) as (y & Hy & Hy0). congruence.
Qed.

(** The indices of a bucket lead to it. *)
Definition path_to (b : Z) : list Z := [level_index b 1; level_index b 2; level_index b 3].

Lemma bucket_index_of_path b : 0 <= b < kMaxBucketSize -> bucket_index_of (path_to b ++ [level_index b 4]) = b.
Proof.
  change kMaxBucketSize with (64 * (64 * (64 * 64))). intros Hb.
  unfold bucket_index_of, path_to, level_index. change kMaxLevel with 4. change kSegmentSize with 64. cbn [foldl app].
  change (64 ^ (4 - 1)) with (64 * (64 * 64)). change (64 ^ (4 - 2)) with (64 * 64).
  change (64 ^ (4 - 3)) with 64. change (64 ^ (4 - 4)) with 1. rewrite Z.div_1_r, <- !(Z.div_div _ 64) by lia.
  pose proof (Z.div_mod b 64). pose proof (Z.div_mod (b / 64) 64). pose proof (Z.div_mod (b / 64 / 64) 64).
  rewrite (Z.mod_small (b / 64 / 64 / 64)); [lia|]. split; [apply Z.div_pos; [apply Z.div_pos; [apply Z.div_pos; lia|lia]|lia]|].
  rewrite !Z.div_div by lia. apply Z.div_lt_upper_bound; lia.
Qed.

Lemma path_to_zeros b : b = 0 -> zeros (path_to b ++ [level_index b 4]).
Proof. intros ->. by repeat constructor. Qed.

Lemma zeros_prefix path path' : zeros (path ++ path') -> zeros path.
Proof. intros Hz%Forall_app. apply Hz. Qed.

Lemma find_segments_spec levels r w s path b Q :
  Inv w -> good r w -> reached w s path -> (length path + length levels <= 2)%nat ->
  (forall s' w', after r w r w' ->
    s' = Some 0 /\ ~ zeros (path ++ (level_index b <$> levels)) \/ s' <> Some 0 /\ reached w' s' (path ++ (level_index b <$> levels)) ->
    Q s' r w') ->
  safeT (find_segments levels s b) r w Q.
Proof.
  revert w s path. induction levels as [|level levels IH]; intros w s path Hi Hg Hs Hlen H; cbn [find_segments].
  - apply safeT_ret. intros w1 Hf1 Hi1. apply H; [by apply after_frame|]. right. cbn. rewrite app_nil_r.
    split; [destruct s as [a|]; [intros [= ->]; by destruct Hs|done]|]. by apply (reached_grows w); [apply Hf1|].
  - apply safeT_load. intros w1 Hf1 Hi1. assert (reached w1 s path) as Hs1 by (by apply (reached_grows w); [apply Hf1|]).
    cbn in Hlen. destruct (data_lookup w1 s path (level_index b level) Hi1 Hs1 ltac:(lia) (level_index_range b level)) as (x & Hx & Hc).
    exists x. split; [done|]. destruct (Z.eqb_spec x 0) as [->|Hne].
    + apply safeT_ret. intros w2 Hf2 Hi2. apply H; [apply after_frame; [by eapply frame_trans|done|done]|]. left. split; [done|].
      destruct Hc as [[_ Hc]|Hc]; [|by destruct (pub_array_address _ _ _ Hi1 Hc)].
      intros Hz. apply Hc. cbn in Hz. by apply (zeros_prefix _ (level_index b <$> levels)); rewrite <- app_assoc.
    + destruct Hc as [[? _]|Hc]; [done|]. eapply (IH w1 (Some x) (path ++ [level_index b level])); [done| |done| |].
      * by apply (good_grows r w); [apply Hf1|].
      * rewrite length_app. cbn. lia.
      * intros s' w2 Ha2 Hs'. apply H; [eapply after_trans; [by apply after_frame|done]|]. by rewrite <- app_assoc in Hs'.
Qed.

(** The head of a bucket, if the bucket is there. *)
Lemma GetBucketHeadByIndex_spec r w b (Q : Z -> Reclaimer -> world V -> Prop) :
  Inv w -> good r w -> 0 <= b < kMaxBucketSize ->
  (forall x w', after r w r w' -> x = 0 /\ b <> 0 \/ x <> 0 /\ pub_node w' x (DummyNode b) -> Q x r w') ->
  safeT (GetBucketHeadByIndex b) r w Q.
Proof.
  intros Hi Hg Hb H. unfold GetBucketHeadByIndex.
  assert (forall path path', path ++ path' = path_to b ++ [level_index b 4] -> ~ zeros path -> b <> 0) as Hnz.
  { intros path path' He Hz Hb0. apply Hz. apply (zeros_prefix _ path'). rewrite He. by apply path_to_zeros. }
  apply safeT_bind; [done|]. apply (find_segments_spec _ _ _ _ []); [done|done|done|done|]. intros s w1 Ha1 Hs.
  case_bool_decide as Hs0.
  { apply safeT_ret. intros w2 Hf2 Hi2. apply H; [by eapply after_step|]. left. split; [done|].
    destruct Hs as [[_ Hz]|[? _]]; [|done]. by apply (Hnz _ [level_index b 3; level_index b 4]) in Hz. }
  destruct Hs as [[? _]|[_ Hs]]; [done|].
  apply safeT_load. intros w2 Hf2 Hi2.
  apply (reached_grows w1 w2) in Hs; [|apply Hf2].
  destruct (data_lookup w2 s _ (level_index b 3) Hi2 Hs ltac:(done) (level_index_range b 3)) as (x & Hx & Hc).
  exists x. split; [done|]. pose proof (after_step _ _ _ _ _ _ _ _ Ha1 Hf2 Hi2) as Ha2. destruct (Z.eqb_spec x 0) as [->|Hne].
  { apply safeT_ret. intros w3 Hf3 Hi3. apply H; [by eapply after_step|]. left. split; [done|].
    destruct Hc as [[_ Hz]|Hc]; [|by destruct (pub_array_address _ _ _ Hi2 Hc)]. by apply (Hnz _ [level_index b 4]) in Hz. }
  destruct Hc as [[? _]|Hc]; [done|]. apply safeT_last. change (safeT (load (BucketAt x (level_index b 4)) ≫= (fun x => mret x)) r w2 Q).
  apply safeT_load. intros w3 Hf3 Hi3. apply (pub_array_grows w2 w3) in Hc; [|apply Hf3].
  destruct (bucket_lookup w3 x _ (level_index b 4) Hi3 Hc ltac:(done) (level_index_range b 4)) as (d & Hd & Hdc).
  exists d. split; [done|]. apply safeT_ret. intros w4 Hf4 Hi4. apply H.
  { eapply after_step; [by eapply after_step|done|done]. }
  destruct Hdc as [[-> Hz]|Hdc]; [left; split; [done|]; by apply (Hnz _ []) in Hz|]. right.
  change (pub_node w3 d (DummyNode (bucket_index_of (path_to b ++ [level_index b 4])))) in Hdc. rewrite bucket_index_of_path in Hdc by done.
  split; [|by apply (pub_node_grows w3); [apply Hf4|]].
  intros ->. destruct Hdc as [_ Hdo]. destruct (ih_address _ _ (inv_h _ _ _ Hi3) 0 _ Hdo). lia.
Qed.

(** ** New arrays *)

(** The thread's other objects stay as they are while [a] becomes published. *)
Lemma frame_but_publish a l x rl w :
  grows w (publish_at l x a rl w) -> (forall b, owner_of l = Some b -> roles w !! b <> Some (Private t)) ->
  frame_but a t w (publish_at l x a rl w).
Proof.
  intros Hg Hl. constructor; [done|by apply same_log| |].
  - intros b Hne Hb. by rewrite role_publish, decide_False.
  - intros b o l' Hne [Hb _] Hl'. rewrite atom_publish, decide_False; [done|]. intros ->.
    by apply (Hl b (members_owner _ _ _ Hl')).
Qed.

(** The place of a new array in the tree. *)
Definition slot_of w (l : loc) (path : list Z) : Prop :=
  array_slot w l path /\ exists x, atom_at w l = Some x /\ (x = 0 \/ pub_array w x path).

Lemma slot_owner w l path b : array_slot w l path -> owner_of l = Some b -> roles w !! b <> Some (Private t).
Proof. destruct l; try done. intros (p & o & [Hp _] & _) [= ->]. congruence. Qed.

Lemma publish_new_spec o l path r w (Q : Z -> Reclaimer -> world V -> Prop) :
  Inv w -> good r w -> array_kind path o -> (forall w', frame t w w' -> Inv w' -> slot_of w' l path) ->
  (forall x w', after r w r w' -> pub_array w' x path -> Q x r w') ->
  safeT (new ← atomically (New o); publish l new) r w Q.
Proof.
  intros Hi Hg Hk Hslot H.
  assert (forall n, o <> ONode n) as Hno by (intros n ->; by destruct path as [|? [|? [|? [|? ?]]]]).
  apply safeT_new; [intros n ->; by destruct (Hno n)|].
  intros w1 a Hf1 Hi1 Hnone Had Hia Hfa Hma. unfold publish. apply safeT_cas. intros w2 Hf2 Hi2.
  pose proof (mine_frame _ _ _ _ _ Hf2 Hma) as Hm2.
  assert (frame t w w2) as Hfw2 by (eapply frame_trans; [exact Hf1|]; by eapply frame_trans).
  destruct (Hslot w2 Hfw2 Hi2) as (Hsl & y & Hy & Hyc). exists y. split; [done|].
  assert (forall w3, frame_but a t w2 w3 -> roles w3 !! a <> Some (Private t) -> frame t w w3) as Hclose.
  { intros w3 Hb Hr. eapply frame_trans; [exact Hf1|]. apply (frame_but_close a); [|by eapply absent_not_private; [|apply frame_refl|]].
    eapply frame_but_trans; [apply frame_but_of, Hfa|]. eapply frame_but_trans; [by apply frame_but_of|done]. }
  split.
  - intros [|Hy0]; [done|]. destruct Hyc as [|Hyc]; [done|].
    apply (safeT_free _ _ _ _ _ o); [done|]. intros w3 Hf3 Hi3 Hm3 Hi4 Hg4. apply safeT_ret. intros w5 Hf5 Hi5.
    assert (frame t w (free a o w3)) as Hfw4.
    { apply Hclose; [|cbn; by rewrite lookup_delete_eq]. eapply frame_but_trans; [by apply frame_but_of|]. by apply frame_but_free. }
    apply H; [apply after_frame; [by eapply frame_trans|done|done]|].
    apply (pub_array_grows (free a o w3)); [apply Hf5|]. apply (pub_array_grows w3); [done|]. apply (pub_array_grows w2); [apply Hf3|done].
  - intros -> _. destruct (inv_publish_array hash_func_ head_ t l a o path w2) as (Hi3 & Hg3 & Hf3 & Hp3); [done|done|done| |done|done|].
    { intros l' Hl'. rewrite (fr_atoms _ _ _ Hf2 a o l' Hma Hl'), atom_alloc. by rewrite decide_True. }
    exists (publish_at l a a (PArray path) w2). split; [done|]. apply safeT_ret. intros w4 Hf4 Hi4.
    assert (frame t w (publish_at l a a (PArray path) w2)) as Hfw3.
    { apply Hclose; [|rewrite role_publish; by rewrite decide_True]. apply frame_but_publish; [done|]. intros b. by apply (slot_owner _ _ path). }
    apply H; [apply after_frame; [by eapply frame_trans|done|done]|]. by apply (pub_array_grows (publish_at l a a (PArray path) w2)); [apply Hf4|].
Qed.

Lemma data_slot w w' s path i :
  reached w s path -> (length path <= 2)%nat -> 0 <= i < 64 -> frame t w w' -> Inv w' -> slot_of w' (data_of s i) (path ++ [i]).
Proof.
  intros Hr Hlen Hij Hf Hi. assert (reached w' s path) as Hr' by (by apply (reached_grows w); [apply Hf|]).
  destruct (data_lookup w' s path i Hi Hr' Hlen Hij) as (x & Hx & Hc). split; [|exists x; split; [done|tauto]].
  destruct s as [a|]; cbn in *; [|by subst path]. destruct Hr' as [Hp _].
  destruct (segments_member w' a path i Hp Hlen Hij) as (o & Ho & Hin). by exists path, o.
Qed.

(** The array under a place, new or not. *)
Lemma array_spec o s path i r w (Q : Z -> Reclaimer -> world V -> Prop) :
  Inv w -> good r w -> array_kind (path ++ [i]) o -> reached w s path -> (length path <= 2)%nat -> 0 <= i < 64 ->
  (forall x w', after r w r w' -> reached w' (Some x) (path ++ [i]) -> Q x r w') ->
  safeT (sub ← load (data_of s i); if sub =? 0 then new ← atomically (New o); publish (data_of s i) new else mret sub) r w Q.
Proof.
  intros Hi Hg Hk Hr Hlen Hij H. apply safeT_load. intros w1 Hf1 Hi1.
  destruct (data_slot w w1 s path i Hr Hlen Hij Hf1 Hi1) as (_ & x & Hx & Hc). exists x. split; [done|].
  assert (after r w r w1) as Ha1 by (by apply after_frame).
  destruct (Z.eqb_spec x 0) as [->|Hne].
  - apply (publish_new_spec o _ (path ++ [i])); [done|apply Ha1|done| |].
    + intros w' Hf'. apply (data_slot w); [done|done|done|]. by eapply frame_trans.
    + intros x w' Ha' Hp. apply H; [by eapply after_trans|]. split; [done|]. eapply pub_array_address; [apply Ha'|done].
  - destruct Hc as [|Hc]; [done|]. apply safeT_ret. intros w2 Hf2 Hi2. apply H; [by eapply after_step|].
    split; [by apply (pub_array_grows w1); [apply Hf2|]|done].
Qed.

Lemma safeT_assoc {X A B} (e : act V X) (m : X -> thread V A) (f : A -> thread V B) r w Q :
  Inv w -> safeT (atomically e ≫= m) r w (fun x r' w' => safeT (f x) r' w' Q) -> safeT (atomically e ≫= (fun x => m x ≫= f)) r w Q.
Proof. intros Hi H. change (safeT ((atomically e ≫= m) ≫= f) r w Q). by apply safeT_bind. Qed.

Lemma make_segments_spec levels r w s path b (Q : option Z -> Reclaimer -> world V -> Prop) :
  Inv w -> good r w -> reached w s path -> (length path + length levels <= 2)%nat ->
  (forall s' w', after r w r w' -> reached w' s' (path ++ (level_index b <$> levels)) -> Q s' r w') ->
  safeT (make_segments levels s b) r w Q.
Proof.
  revert w s path. induction levels as [|level levels IH]; intros w s path Hi Hg Hs Hlen H; cbn [make_segments].
  - apply safeT_ret. intros w1 Hf1 Hi1. apply H; [by apply after_frame|]. cbn. rewrite app_nil_r.
    by apply (reached_grows w); [apply Hf1|].
  - cbn in Hlen. cbv zeta. apply safeT_assoc; [done|].
    apply (array_spec (OSegments (level + 1)) s path (level_index b level)); [done|done| |done|lia|apply level_index_range|].
    { destruct path as [|? [|? ?]]; cbn in Hlen; [done|done|lia]. }
    intros x w1 Ha1 Hr1. eapply IH; [apply Ha1|apply Ha1|exact Hr1|rewrite length_app; cbn; lia|].
    intros s' w2 Ha2 Hs'. apply H; [by eapply after_trans|]. by rewrite <- app_assoc in Hs'.
Qed.

(** ** Dummy nodes *)

Lemma insert_dummy_loop_spec m r w head nh new x ph ch (Q : bool * Z -> Reclaimer -> world V -> Prop) :
  Inv w -> good r w -> pub_node w head nh -> IsDummy nh = true -> Less nh x = true -> wf_node hash_func_ x -> IsDummy x = true ->
  mine t w new (ONode x) -> ok_hp r ph -> ok_hp r ch ->
  (forall (b : bool) h r' w', after_but new r w r' w' -> pub_node w' h x ->
    (if b then h = new else mine t w' new (ONode x)) -> Q (b, h) r' w') ->
  safeT (insert_dummy_loop fuel m head new x ph ch) r w Q.
Proof.
  revert r w ph ch. induction m as [|m IH]; intros r w ph ch Hi Hg Hh Hdh Hlo Hwf Hd Hm Hph Hch H; cbn [insert_dummy_loop]; [done|].
  apply safeT_bind; [done|]. eapply SearchNode_spec; [done|done|exact Hh|done|done|done|done|done|].
  intros f r1 w1 Ha1 Hpost. pose proof (mine_frame _ _ _ _ _ (af_frame _ _ _ _ _ _ _ Ha1) Hm) as Hm1.
  assert (Inv w1) as Hi1 by apply Ha1. assert (good r1 w1) as Hg1 by apply Ha1.
  destruct (found f) eqn:Hfound.
  - apply safeT_bind; [done|]. apply unmark_spec; [done|done|apply Hpost|apply Hpost|]. intros w2 Ha2.
    apply safeT_ret. intros w3 Hf3 Hi3. pose proof (after_step _ _ _ _ _ _ _ _ Ha2 Hf3 Hi3) as Ha3.
    apply H; [|eapply pub_node_after; [exact Ha3|by eapply search_found]|by eapply mine_frame; [apply Ha3|]].
    eapply after_but_trans; apply after_but_of; [exact Ha1|exact Ha3].
  - destruct (sp_prev _ _ _ _ _ _ _ _ Hpost) as (np & Hp & Hlp).
    eapply (link_rule _ _ _ _ _ _ _ _ None); [done|done|exact Hp|done|by eapply search_behind|done|exact Hd| |].
    + intros w2 Ha2 Hm2 _. apply IH; try done; [apply Ha2|apply Ha2| | | |].
      * eapply pub_node_but; [exact Ha2|]. by eapply pub_node_after.
      * eapply ok_hp_after_but; [exact Ha2|]. apply Hpost.
      * eapply ok_hp_after_but; [exact Ha2|]. apply Hpost.
      * intros b h r3 w3 Ha3. apply H. eapply after_but_trans; [apply after_but_of, Ha1|]. by eapply after_but_trans.
    + intros w2 w3 Ha2 Hl. assert (after_but new r1 w1 r1 w3) as Ha3.
      { eapply after_but_trans; [exact Ha2|]. apply after_but_frame; [apply (ln_log _ _ _ _ _ _ _ _ Hl)|apply Hl|apply Ha2]. }
      apply safeT_bind; [apply Ha3|]. apply unmark_spec; [apply Ha3|apply Ha3|eapply ok_hp_after_but; [exact Ha3|apply Hpost]..|].
      intros w4 Ha4. apply safeT_ret. intros w5 Hf5 Hi5. pose proof (after_step _ _ _ _ _ _ _ _ Ha4 Hf5 Hi5) as Ha5.
      apply H; [|eapply pub_node_after; [exact Ha5|eapply ln_node; exact Hl]|done]. eapply after_but_trans; [apply after_but_of, Ha1|].
      eapply after_but_trans; [exact Ha3|]. by apply after_but_of.
Qed.

Lemma initialize_with_spec r w b parent_head (Q : Z -> Reclaimer -> world V -> Prop) :
  Inv w -> good r w -> 0 < b < kMaxBucketSize -> pub_node w parent_head (DummyNode (GetBucketParent b)) ->
  (forall x r' w', after r w r' w' -> pub_node w' x (DummyNode b) -> Q x r' w') ->
  safeT (initialize_with fuel b parent_head) r w Q.
Proof.
  intros Hi Hg Hb Hph H. assert (kMaxBucketSize = 2 ^ 24) as Hmax by reflexivity.
  assert (0 < b < 2 ^ 63) as Hb63 by lia. assert (wf_node hash_func_ (DummyNode b)) as Hwf by (apply wf_DummyNode; lia).
  unfold initialize_with. apply safeT_bind; [done|].
  apply (make_segments_spec _ _ _ _ []); [done|done|done|done|]. intros s w1 Ha1 Hs. cbv zeta.
  apply safeT_assoc; [apply Ha1|].
  apply (array_spec OBuckets s [level_index b 1; level_index b 2] (level_index b 3)); [apply Ha1|apply Ha1|done|exact Hs|done|apply level_index_range|].
  intros bk w2 Ha2 [Hbk Hbk0]. change (pub_array w2 bk (path_to b)) in Hbk. apply safeT_load. intros w3 Hf3 Hi3.
  pose proof (after_step _ _ _ _ _ _ _ _ (after_trans _ _ _ _ _ _ _ _ _ Ha1 Ha2) Hf3 Hi3) as Ha3.
  apply (pub_array_grows w2 w3) in Hbk; [|apply Hf3].
  destruct (bucket_lookup w3 bk (path_to b) (level_index b 4) Hi3 Hbk ltac:(done) (level_index_range b 4)) as (d & Hd & Hdc).
  change (_ ++ [level_index b 4]) with (path_to b ++ [level_index b 4]) in Hdc. rewrite bucket_index_of_path in Hdc by lia.
  exists d. split; [done|]. destruct (Z.eqb_spec d 0) as [->|Hne]; cbn [negb].
  2: { destruct Hdc as [[? _]|Hdc]; [done|]. apply safeT_ret. intros w4 Hf4 Hi4. apply H; [by eapply after_step|].
       by apply (pub_node_grows w3); [apply Hf4|]. }
  clear Hdc. apply safeT_new; [by intros n [= <-]|]. intros w4 a Hf4 Hi4 Hnone Had Hi5 Hf5 Hm5.
  set (w5 := alloc t a (ONode (DummyNode b)) w4) in *.
  pose proof (after_step _ _ _ _ _ _ _ _ Ha3 Hf4 Hi4) as Ha4. pose proof (after_step _ _ _ _ _ _ _ _ Ha4 Hf5 Hi5) as Ha5.
  assert (forall r' w', after_but a r w5 r' w' -> after r w r' w') as Hclose.
  { intros r' w' Hab. eapply after_trans; [exact Ha4|]. apply (after_but_close hash_func_ head_ t a).
    - eapply after_but_trans; [|exact Hab]. apply after_but_of. apply after_frame; [done|done|apply Ha4].
    - eapply absent_not_private; [exact Hi4|apply frame_refl|done]. }
  apply safeT_bind; [done|]. eapply insert_dummy_loop_spec; [done|apply Ha5| | | |done| |exact Hm5| | |].
  { eapply pub_node_after; [exact Ha5|exact Hph]. }
  { done. }
  { by apply (parent_less b). }
  { done. }
  { by left. }
  { by left. }
  intros ins h r6 w6 Ha6 Hp6 Hins. destruct ins.
  - subst h. apply safeT_store. intros w7 Hf7 Hi7.
    assert (pub_array w7 bk (path_to b)) as Hbk7.
    { apply (pub_array_grows w6); [apply Hf7|]. apply (pub_array_grows w5); [apply Ha6|]. apply (pub_array_grows w4); [apply Hf5|].
      apply (pub_array_grows w3); [apply Hf4|done]. }
    assert (pub_node w7 a (DummyNode b)) as Hp7 by (by apply (pub_node_grows w6); [apply Hf7|]).
    destruct (buckets_member w7 bk (path_to b) (level_index b 4) Hbk7 ltac:(done) (level_index_range b 4)) as (o & Ho & Hin).
    split; [by apply (ih_members _ _ (inv_h _ _ _ Hi7) bk o)|].
    destruct (inv_write_bucket hash_func_ head_ w7 bk (path_to b) o (level_index b 4) a) as (Hi8 & Hg8 & Hf8); [done|done|done|done|by rewrite bucket_index_of_path by lia|].
    exists (write (BucketAt bk (level_index b 4)) a w7). split; [split; [done|split; [done|intros t' _; apply Hf8]]|].
    apply safeT_ret. intros w9 Hf9 Hi9. apply H.
    + apply Hclose. eapply after_but_trans; [exact Ha6|]. apply after_but_of. apply after_frame; [|done|apply Ha6].
      eapply frame_trans; [exact Hf7|]. eapply frame_trans; [apply Hf8|done].
    + apply (pub_node_grows w7); [|done]. eapply grows_trans; [exact Hg8|apply Hf9].
  - apply (delete_node_spec _ _ _ _ (DummyNode b)); [apply Ha6|apply Ha6|done|done|]. intros w7 Ha7 _.
    apply safeT_ret. intros w8 Hf8 Hi8. pose proof (after_but_trans _ _ _ _ _ _ _ _ _ _ Ha6 Ha7) as Ha67. apply H.
    + apply Hclose. eapply after_but_trans; [exact Ha67|]. apply after_but_of. apply after_frame; [done|done|apply Ha67].
    + apply (pub_node_grows w7); [apply Hf8|]. eapply pub_node_but; [exact Ha7|exact Hp6].
Qed.

Lemma InitializeBucket_spec m r w b (Q : Z -> Reclaimer -> world V -> Prop) :
  Inv w -> good r w -> 0 < b < kMaxBucketSize -> b < 2 ^ Z.of_nat m ->
  (forall x r' w', after r w r' w' -> pub_node w' x (DummyNode b) -> Q x r' w') ->
  safeT (InitializeBucket fuel m b) r w Q.
Proof.
  revert r w b Q. induction m as [|m IH]; intros r w b Q Hi Hg Hb Hm H; [cbn in Hm; lia|]. cbn [InitializeBucket].
  assert (kMaxBucketSize = 2 ^ 24) as Hmax by reflexivity.
  test (b =? 0) is false. pose proof (GetBucketParent_range b ltac:(lia)) as Hpr.
  assert (GetBucketParent b < 2 ^ Z.of_nat m) as Hpm.
  { rewrite GetBucketParent_spec by lia. pose proof (wrap_range (Z.log2 b) b (Z.log2_nonneg b)).
    assert (Z.log2 b <= Z.of_nat m) by (assert (Z.log2 b < Z.of_nat (S m)) by (apply Z.log2_lt_pow2; lia); lia).
    pose proof (Z.pow_le_mono_r 2 (Z.log2 b) (Z.of_nat m)). lia. }
  apply safeT_bind; [done|]. apply GetBucketHeadByIndex_spec; [done|done|lia|]. intros x w1 Ha1 Hx.
  assert (forall y r2 w2, after r w r2 w2 -> pub_node w2 y (DummyNode (GetBucketParent b)) ->
    safeT (initialize_with fuel b y) r2 w2 Q) as Hrest.
  { intros y r2 w2 Ha2 Hy. apply initialize_with_spec; [apply Ha2|apply Ha2|lia|done|]. intros z r3 w3 Ha3. apply H. by eapply after_trans. }
  apply safeT_bind; [apply Ha1|]. destruct (Z.eqb_spec x 0) as [->|Hne].
  - destruct Hx as [[_ Hp0]|[? _]]; [|done]. apply IH; [apply Ha1|apply Ha1|lia|done|]. intros y r2 w2 Ha2. apply Hrest. by eapply after_trans.
  - destruct Hx as [[? _]|[_ Hx]]; [done|]. apply safeT_ret. intros w2 Hf2 Hi2. apply Hrest; [by eapply after_step|].
    by apply (pub_node_grows w1); [apply Hf2|].
Qed.

(** The head of the bucket of a hash, for the size of the table at some moment. *)
Lemma GetBucketHeadByHash_spec r w hash (Q : Z -> Reclaimer -> world V -> Prop) :
  Inv w -> good r w -> 0 <= hash < 2 ^ 64 ->
  (forall x p r' w', after r w r' w' -> 0 <= p <= 24 -> pub_node w' x (DummyNode (wrap p hash)) -> Q x r' w') ->
  safeT (GetBucketHeadByHash fuel hash) r w Q.
Proof.
  intros Hi Hg Hh H. unfold GetBucketHeadByHash, bucket_size. apply safeT_bind; [done|].
  apply safeT_load. intros w1 Hf1 Hi1. destruct (ig_power _ (inv_g _ _ _ Hi1)) as (p & Hp & Hpr). exists p. split; [done|].
  unfold shift_1. test (p <? 31) is true. apply safeT_ret. intros w2 Hf2 Hi2. cbv zeta.
  rewrite Z.shiftl_1_l, bucket_of_hash_mod by lia. pose proof (wrap_range p hash ltac:(lia)) as Hwr.
  assert (kMaxBucketSize = 2 ^ 24) as Hmax by reflexivity.
  pose proof (Z.pow_le_mono_r 2 p 24 ltac:(lia) ltac:(lia)) as Hp24.
  assert (after r w r w2) as Ha2 by (apply after_frame; [by eapply frame_trans|done|done]).
  apply safeT_bind; [done|]. apply GetBucketHeadByIndex_spec; [done|apply Ha2|lia|]. intros x w3 Ha3 Hx.
  pose proof (after_trans _ _ _ _ _ _ _ _ _ Ha2 Ha3) as Ha23. destruct (Z.eqb_spec x 0) as [->|Hne].
  - destruct Hx as [[_ Hp0]|[? _]]; [|done]. apply InitializeBucket_spec; [apply Ha3|apply Ha3|lia|lia|].
    intros y r4 w4 Ha4. apply H; [by eapply after_trans|done].
  - destruct Hx as [[? _]|[_ Hx]]; [done|]. apply safeT_ret. intros w4 Hf4 Hi4. eapply H; [by eapply after_step|done|].
    by apply (pub_node_grows w3); [apply Hf4|].
Qed.

End Buckets.
