(* ===== verification/CtThreads.v ===== *)
(** The operations of the lock-free table under interleavings: what each of them does to
    the map, and how its answer is explained by the log of the changes while it runs. *)
From stdpp Require Import sorting.
From S2P Require Import Prelude Words Outcome SplitOrder Atomic Hazard Ct CtWorld CtMoves CtRules CtHazard CtSearch CtLink CtBuckets.

(** ** Answers *)

Section Answers.
Context {V : Type}.
Implicit Types (w : world V) (t s : nat) (l : list (nat * change V)).

(** At some moment since the log had length [s]. *)
Definition at_moment s l (P : gmap Z V -> Prop) : Prop :=
  exists i, (s <= i <= length l)%nat /\ P (replay (take i l)).

(** The key was removed, and later the value came too late. *)
Definition came_late s l (k : Z) (x : V) : Prop :=
  exists i j t1 t2, (s <= i < j)%nat /\ l !! i = Some (t1, Removed k) /\ l !! j = Some (t2, Late k x).

(** The changes of thread [t] in the log from [s] on are those of the request, and the
    answer was right at some moment. A change is sound where it is in the log; one that
    came too late is like a replacement just before the removal, in the same period. *)
Definition explained t s l (q : request V) (a : answer V) : Prop :=
  match q, a with
  | RInsert k x, AInsert true => own t s l = [Added k x]
  | RInsert k x, AInsert false => own t s l = [Replaced k x] \/ (own t s l = [Late k x] /\ came_late s l k x)
  | RDelete k, ADelete true => own t s l = [Removed k]
  | RDelete k, ADelete false => own t s l = [] /\ at_moment s l (fun m => m !! k = None)
  | RFind k, AFind None => own t s l = [] /\ at_moment s l (fun m => m !! k = None)
  | RFind k, AFind (Some x) => own t s l = [] /\ (at_moment s l (fun m => m !! k = Some x) \/ came_late s l k x)
  | RSize, ASize _ => own t s l = []
  | _, _ => False
  end.

(** The requests of a thread are answered one after the other. *)
Fixpoint explained_all t s l (qs : list (request V)) (answers : list (answer V)) : Prop :=
  match qs, answers with
  | [], [] => own t s l = []
  | q :: qs, a :: answers => exists e, (s <= e <= length l)%nat /\ explained t s (take e l) q a /\ explained_all t e l qs answers
  | _, _ => False
  end.

Lemma at_moment_wider s s' l ext P : (s' <= s)%nat -> at_moment s l P -> at_moment s' (l ++ ext) P.
Proof. intros Hs (i & Hi & HP). exists i. rewrite length_app, take_app_le by lia. split; [lia|done]. Qed.

Lemma came_late_wider s s' l ext k x : (s' <= s)%nat -> came_late s l k x -> came_late s' (l ++ ext) k x.
Proof.
  intros Hs (i & j & t1 & t2 & Hij & Hi & Hj). exists i, j, t1, t2. split; [lia|]. split; by apply lookup_app_l_Some.
Qed.

(** Changes of other threads before and after do not matter. *)
Lemma explained_wider t s s' l l' ext q a :
  (s' <= s)%nat -> l' = l ++ ext -> own t s' l' = own t s l -> explained t s l q a -> explained t s' l' q a.
Proof.
  intros Hs -> Hown. destruct q, a as [[]|[]|[]|]; cbn; rewrite ?Hown; try done.
  - intros [?|[? ?]]; [by left|right]. split; [done|]. by apply (came_late_wider s).
  - intros [? ?]. split; [done|]. by apply (at_moment_wider s).
  - intros [? [?|?]]; (split; [done|]); [left; by apply (at_moment_wider s)|right; by apply (came_late_wider s)].
  - intros [? ?]. split; [done|]. by apply (at_moment_wider s).
Qed.

Lemma own_split t s l ext : (s <= length l)%nat -> own t s (l ++ ext) = own t s l ++ own t (length l) (l ++ ext).
Proof. intros Hs. rewrite own_app by done. f_equal. unfold own. by rewrite drop_app_length, drop_0. Qed.

Lemma did_wider t evs w0 w1 w2 : did t [] w0 w1 -> did t evs w1 w2 -> did t evs w0 w2.
Proof. intros H1 H2. exact (did_trans t [] evs w0 w1 w2 H1 H2). Qed.

Lemma explained_all_wider t s l ext qs answers :
  (s <= length l)%nat -> own t (length l) (l ++ ext) = [] -> explained_all t s l qs answers -> explained_all t s (l ++ ext) qs answers.
Proof.
  revert s answers. induction qs as [|q qs IH]; intros s [|a answers] Hs Ho; cbn; try done.
  - intros H. by rewrite own_split, H, Ho.
  - intros (e & He & Hq & Hqs). exists e. rewrite length_app, take_app_le by lia. split; [lia|]. split; [done|]. apply IH; [lia|done|done].
Qed.

Lemma own_skip t s s' l : (s' <= s <= length l)%nat -> own t s' (take s l) = [] -> own t s' l = own t s l.
Proof.
  intros Hs Ho. assert (length (take s l) = s) as Hlen by (rewrite length_take; lia).
  rewrite <- (take_drop s l) at 1. rewrite own_split, Ho by lia. cbn. by rewrite Hlen, take_drop.
Qed.

Lemma own_later t s l : own t 0 l = [] -> own t s l = [].
Proof.
  intros Ho. destruct (Nat.le_gt_cases s (length l)) as [Hs|Hs]; [|unfold own; by rewrite drop_ge by lia].
  rewrite <- (take_drop s l) in Ho. rewrite own_split in Ho by lia. rewrite length_take, take_drop in Ho.
  apply app_eq_nil in Ho as [_ Ho]. by replace (s `min` length l)%nat with s in Ho by lia.
Qed.

(** A period may begin earlier if the thread has changed nothing until then. *)
Lemma explained_all_earlier t s s' l qs answers :
  (s' <= s <= length l)%nat -> own t s' (take s l) = [] -> explained_all t s l qs answers -> explained_all t s' l qs answers.
Proof.
  intros Hs Ho. destruct qs as [|q qs], answers as [|a answers]; cbn; try done.
  - by rewrite (own_skip t s s').
  - intros (e & He & Hq & Hqs). exists e. split; [lia|]. split; [|done].
    apply (explained_wider t s s' (take e l) _ []); [lia|by rewrite app_nil_r| |done].
    apply own_skip; [rewrite length_take; lia|]. rewrite take_take. by replace (s `min` e)%nat with s by lia.
Qed.

(** An operation of which the answer is explained. *)
Definition answered t w w' (q : request V) (a : answer V) : Prop :=
  grows w w' /\ explained t (length (log w)) (log w') q a.

Lemma answered_before t w0 w w' q a : did t [] w0 w -> answered t w w' q a -> answered t w0 w' q a.
Proof.
  intros H0 [Hg He]. pose proof (did_grows _ _ _ _ H0) as Hg0. split; [by eapply grows_trans|].
  apply (explained_wider t (length (log w)) _ (log w') _ []); [by apply log_grows|by rewrite app_nil_r| |done].
  exact (did_own _ _ _ _ (did_wider t _ w0 w w' H0 (Build_did t _ w w' Hg eq_refl))).
Qed.

Lemma answered_after t w w' w2 q a : answered t w w' q a -> did t [] w' w2 -> answered t w w2 q a.
Proof.
  intros [Hg He] H2. pose proof (did_grows _ _ _ _ H2) as Hg2. split; [by eapply grows_trans|].
  destruct (gr_log _ _ Hg2) as [ext Hext].
  apply (explained_wider t (length (log w)) _ (log w') _ ext); [done|done| |done].
  pose proof (did_own _ _ _ _ (did_trans t _ [] w w' w2 (Build_did t _ w w' Hg eq_refl) H2)) as Ho. by rewrite app_nil_r in Ho.
Qed.

(** What holds at a moment between two worlds. *)
Lemma moment_of t w0 w1 w' (P : gmap Z V -> Prop) : grows w0 w1 -> grows w1 w' -> P (replay (log w1)) -> at_moment (length (log w0)) (log w') P.
Proof.
  intros H01 H1 HP. pose proof (log_grows _ _ H01). pose proof (log_grows _ _ H1).
  exists (length (log w1)). split; [lia|]. by rewrite (take_grows w1), firstn_all by done.
Qed.

End Answers.

Section Operations.
Context {V : Type} (hash_func_ : Z -> Z) (head_ : Z) (fuel : nat) (t : nat).
Implicit Types (w : world V) (a h v ptr new k : Z) (n np nc nh sn : node) (r : Reclaimer) (x : V).
Hypothesis (Hhash : forall k, 0 <= hash_func_ k < 2 ^ 64).

Abbreviation Inv := (Inv hash_func_ head_).
Abbreviation safeT := (safeT hash_func_ head_ t).
Abbreviation after := (after hash_func_ head_ t).
Abbreviation after_but := (after_but hash_func_ head_ t).
Abbreviation search_post := (search_post hash_func_ head_ t).

Lemma did_after r w r' w' : after r w r' w' -> did t [] w w'.
Proof. intros Ha. by apply did_frame, Ha. Qed.

Lemma did_after_but a r w r' w' : after_but a r w r' w' -> did t [] w w'.
Proof. intros Ha. eapply did_but, Ha. Qed.

(** ** The map and the list *)

Lemma absent_replay w k : Inv w -> absent w (RegularNode hash_func_ k) -> replay (log w) !! k = None.
Proof.
  intros Hi Ha. destruct (replay (log w) !! k) as [x|] eqn:Hx; [|done].
  apply (inv_c _ _ _ Hi) in Hx as (a & n & v & Hin & Hk & _). destruct (Ha a).
  rewrite <- (wf_same_key hash_func_ n (RegularNode hash_func_ k) k); [done| |by apply wf_RegularNode|done|done].
  eapply node_wf; [apply Hi|apply Hi|exact Hin].
Qed.

Lemma live_replay w a n k v x :
  Inv w -> pub_node w a n -> key_of n = Some k -> live w a -> atom_at w (Value a) = Some v -> pub_value w v x ->
  replay (log w) !! k = Some x.
Proof.
  intros Hi Hp Hk Hl Hv Hx. apply (inv_c _ _ _ Hi). exists a, n, v. split; [by apply (il_live _ _ (inv_l _ _ _ Hi))|done].
Qed.

(** The answer of a search that has not found the key. *)
Lemma not_found w0 k (f : found_at) r w :
  search_post w0 (RegularNode hash_func_ k) f r w -> found f = false ->
  own t (length (log w0)) (log w) = [] /\ at_moment (length (log w0)) (log w) (fun m => m !! k = None).
Proof.
  intros [_ _ _ _ (w1 & Hf1 & Hi1 & Hf & Hm)] Hfound. rewrite Hfound in Hm. split.
  - apply (did_own _ [] w0 w). apply did_frame. by eapply frame_trans.
  - apply (moment_of t w0 w1 w); [apply Hf1|apply Hf|]. by apply absent_replay.
Qed.

(** A dummy node of a bucket is a place to start from. *)
Lemma bucket_start p k : 0 <= p <= 24 ->
  IsDummy (DummyNode (wrap p (hash_func_ k))) = true /\ Less (DummyNode (wrap p (hash_func_ k))) (RegularNode hash_func_ k) = true /\
  wf_node hash_func_ (RegularNode hash_func_ k).
Proof. intros Hp. split; [done|]. split; [apply bucket_less; [lia|done]|by apply wf_RegularNode]. Qed.

(** ** Find *)

Lemma read_value_loop_spec m r w a n (Q : Z -> Reclaimer -> world V -> Prop) :
  Inv w -> good r w -> pub_node w a n -> IsDummy n = false ->
  (forall v x w1 w', frame t w w1 -> Inv w1 -> atom_at w1 (Value a) = Some v -> pub_value w1 v x -> after r w1 r w' -> Q v r w') ->
  safeT (read_value_loop m a) r w Q.
Proof.
  revert w. induction m as [|m IH]; intros w Hi Hg Hp Hd H; cbn [read_value_loop]; [done|].
  apply safeT_load. intros w1 Hf1 Hi1. pose proof (pub_node_grows _ _ _ _ (fr_grows _ _ _ Hf1) Hp) as Hp1.
  destruct (il_value _ _ (inv_l _ _ _ Hi1) _ _ Hp1 Hd) as (v1 & x1 & Hv1 & _). exists v1. split; [done|].
  apply safeT_load. intros w2 Hf2 Hi2. pose proof (pub_node_grows _ _ _ _ (fr_grows _ _ _ Hf2) Hp1) as Hp2.
  destruct (il_value _ _ (inv_l _ _ _ Hi2) _ _ Hp2 Hd) as (v & x & Hv & Hx). exists v. split; [done|].
  assert (frame t w w2) as Hf by (by eapply frame_trans).
  assert (good r w2) as Hg2 by (by apply (good_grows r w); [apply Hf|]).
  destruct (Z.eqb_spec v1 v); cbn [negb].
  - apply safeT_ret. intros w3 Hf3 Hi3. apply (H v x w2 w3); [done|done|done|done|]. by apply after_frame.
  - apply IH; [done|done|done|done|]. intros v' x' w3 w4 Hf3. apply H. by eapply frame_trans.
Qed.

(** The value that a thread has read from a node that it has found. *)
Lemma read_explained w0 w1 w2 w' a n k v x :
  grows w0 w1 -> Inv w1 -> pub_node w1 a n -> key_of n = Some k -> live w1 a ->
  grows w1 w2 -> Inv w2 -> atom_at w2 (Value a) = Some v -> pub_value w2 v x -> grows w2 w' ->
  at_moment (length (log w0)) (log w') (fun m => m !! k = Some x) \/ came_late (length (log w0)) (log w') k x.
Proof.
  intros H01 Hi1 Hp Hk Hl H12 Hi2 Hv Hx H2. pose proof (log_grows _ _ H01) as Hlen0.
  pose proof (pub_node_grows _ _ _ _ H12 Hp) as Hp2.
  destruct (gr_live _ _ H12 a n Hp Hl) as [Hl2|(k' & i & Hk' & Hi & Hm & (t' & Hri) & Hr)].
  - left. apply (moment_of t w0 w2 w'); [by eapply grows_trans|done|]. by eapply live_replay.
  - assert (k' = k) as -> by congruence. pose proof (lookup_lt_Some _ _ _ Hri) as Hlt. pose proof (log_grows _ _ H2) as Hlen2.
    destruct Hr as [(v' & x' & Hv' & Hx' & Hrep)|(v' & x' & j & t'' & Hv' & Hx' & Hj & Hlj)].
    + left. exists i. split; [lia|]. rewrite (take_grows w2) by (done || lia).
      assert (v' = v) as -> by congruence. destruct Hx as [_ H1], Hx' as [_ H3]. congruence.
    + right. assert (v' = v) as -> by congruence. assert (x' = x) as -> by (destruct Hx as [_ H1], Hx' as [_ H3]; congruence).
      exists i, j, t', t''. assert (i <> j) by (intros ->; congruence). split; [lia|].
      split; by apply (log_grows_lookup w2).
Qed.

Lemma FindNode_spec r w head nh k (Q : option V -> Reclaimer -> world V -> Prop) :
  Inv w -> good r w -> pub_node w head nh -> IsDummy nh = true -> Less nh (RegularNode hash_func_ k) = true ->
  (forall y r' w', after r w r' w' -> answered t w w' (RFind k) (AFind y) -> Q y r' w') ->
  safeT (FindNode fuel head (RegularNode hash_func_ k)) r w Q.
Proof.
  intros Hi Hg Hh Hd Hlo H. unfold FindNode. pose proof (wf_RegularNode hash_func_ k (Hhash k)) as Hwf.
  apply safeT_bind; [done|]. eapply SearchNode_spec; [done|done|exact Hh|done|done|done|by left|by left|].
  intros f r1 w1 Ha1 Hpost. assert (Inv w1) as Hi1 by apply Ha1. assert (good r1 w1) as Hg1 by apply Ha1.
  destruct (found f) eqn:Hfound.
  - pose proof (search_found _ _ _ _ _ _ _ _ Hi1 Hwf Hpost Hfound) as Hp.
    destruct (sp_moment _ _ _ _ _ _ _ _ Hpost) as (w0 & Hf0 & Hi0 & Hf01 & Hm). rewrite Hfound in Hm. destruct Hm as (nc & Hpc & Hl).
    assert (nc = RegularNode hash_func_ k) as ->.
    { eapply pub_node_eq; [|exact Hp]. by apply (pub_node_grows w0); [apply Hf01|]. }
    apply safeT_bind; [done|]. eapply read_value_loop_spec; [done|done|exact Hp|done|].
    intros v x w2 w3 Hf2 Hi2 Hv Hx Ha3. apply safeT_bind; [apply Ha3|].
    apply ReclaimNoHazardPointer_spec; [apply Ha3|apply Ha3|]. intros w4 Ha4.
    pose proof (after_trans _ _ _ _ _ _ _ _ _ Ha3 Ha4) as Ha24.
    apply (safeT_deref _ _ _ _ x). intros w5 Hf5 Hi5. pose proof (after_step _ _ _ _ _ _ _ _ Ha24 Hf5 Hi5) as Ha25.
    split; [apply (pub_value_grows w2); [apply Ha25|done]|].
    assert (good r1 w5) as Hg5 by apply Ha25.
    apply safeT_bind; [done|]. apply unmark_spec; [done|done|apply Hpost|apply Hpost|]. intros w6 Ha6.
    apply safeT_ret. intros w7 Hf7 Hi7. pose proof (after_step _ _ _ _ _ _ _ _ Ha6 Hf7 Hi7) as Ha7.
    pose proof (after_trans _ _ _ _ _ _ _ _ _ Ha25 Ha7) as Ha27.
    assert (after r w r1 w7) as Haw.
    { eapply after_trans; [exact Ha1|]. eapply after_trans; [by apply after_frame|exact Ha27]. }
    apply H; [done|]. split; [apply Haw|]. split; [by apply (did_own _ [] w w7), (did_after r _ r1)|].
    eapply (read_explained w w0 w2 w7); [apply Hf0|done|exact Hpc|done|done| |done|exact Hv|done|apply Ha27].
    eapply grows_trans; [apply Hf01|apply Hf2].
  - pose proof (not_found _ _ _ _ _ Hpost Hfound) as [Ho Hm].
    apply safeT_bind; [done|]. apply unmark_spec; [done|done|apply Hpost|apply Hpost|]. intros w2 Ha2.
    apply safeT_ret. intros w3 Hf3 Hi3. pose proof (after_step _ _ _ _ _ _ _ _ Ha2 Hf3 Hi3) as Ha3.
    apply H; [by eapply after_trans|]. eapply answered_after; [|by eapply did_after]. split; [apply Ha1|done].
Qed.

(** ** Insert *)

(** The number of buckets doubles, if the table may grow. *)
Lemma grow_spec r w (Q : () -> Reclaimer -> world V -> Prop) :
  Inv w -> good r w -> (forall w', after r w r w' -> Q () r w') -> safeT grow r w Q.
Proof.
  intros Hi Hg H. unfold grow, bucket_size. apply safeT_fetch_add_shared; [done|done|]. intros old w1 Ha1. cbv zeta.
  assert (forall w2, after r w r w2 -> safeT (mret () : thread V ()) r w2 Q) as Hret.
  { intros w2 Ha2. apply safeT_ret. intros w3 Hf3 Hi3. apply H. by eapply after_step. }
  assert (forall B (f : Z -> thread V B) w2 Q', after r w r w2 -> (forall p w3, after r w r w3 -> 0 <= p <= 24 ->
    atom_at w3 PowerOf2 = Some p -> safeT (f (2 ^ p)) r w3 Q') ->
    safeT (n ← bucket_size; f n) r w2 Q') as Hsize.
  { intros B f w2 Q' Ha2 Hf. apply safeT_bind; [apply Ha2|]. unfold bucket_size. apply safeT_load. intros w3 Hf3 Hi3.
    destruct (ig_power _ (inv_g _ _ _ Hi3)) as (p & Hp & Hpr). exists p. split; [done|]. unfold shift_1. test (p <? 31) is true.
    rewrite Z.shiftl_1_l. apply safeT_ret. intros w4 Hf4 Hi4. eapply (safeT_frame _ _ _ _ _ w3); [exact Hf4|]. apply Hf; [|done|done]. by eapply after_step. }
  apply safeT_load. intros w2 Hf2 Hi2. destruct (ig_power _ (inv_g _ _ _ Hi2)) as (p & Hp & Hpr). exists p. split; [done|].
  pose proof (after_step _ _ _ _ _ _ _ _ Ha1 Hf2 Hi2) as Ha2. unfold shift_1. test (p <? 31) is true. apply safeT_ret_bind.
  destruct (overloaded _ _); [|by apply Hret].
  apply safeT_cas. intros w3 Hf3 Hi3. destruct (ig_power _ (inv_g _ _ _ Hi3)) as (p' & Hp' & Hpr'). exists p'. split; [done|].
  pose proof (after_step _ _ _ _ _ _ _ _ Ha2 Hf3 Hi3) as Ha3. split; [intros _; by apply Hret|].
  intros -> Hpow. assert (p + 1 <= 24) as Hp1 by (apply Hpow; cbn; by rewrite lookup_insert_eq).
  destruct (inv_write_power hash_func_ head_ w3 (p + 1) Hi3 ltac:(lia)) as [Hi4 Hg4].
  assert (forall t', frame t' w3 (write PowerOf2 (p + 1) w3)) as Hf4.
  { intros t'. apply (frame_write (S t')); [done|by intros a t''|lia]. }
  exists (write PowerOf2 (p + 1) w3). split; [split; [done|split; [done|by intros]]|].
  apply Hsize; [by eapply after_step|]. intros p3 w5 Ha5 Hp3 _. unfold assertT.
  assert (2 ^ p3 <= kMaxBucketSize) as Hle by (change kMaxBucketSize with (2 ^ 24); apply Z.pow_le_mono_r; lia).
  test (2 ^ p3 <=? kMaxBucketSize) is true. by apply Hret.
Qed.

(** A value is put into a node that a search has found. *)
Lemma replace_step w0 w1 w a n k v x :
  grows w0 w1 -> Inv w1 -> pub_node w1 a n -> key_of n = Some k -> live w1 a -> frame t w1 w -> Inv w -> mine t w v (OValue x) ->
  exists w' c, can_step hash_func_ head_ t (Value a) v w w' /\ grows w w' /\ log w' = log w ++ [(t, c)] /\
    (forall b o, b <> v -> mine t w b o -> mine t w' b o) /\
    (forall l, l <> Value a -> atom_at w' l = atom_at w l) /\
    (c = Replaced k x \/ c = Late k x /\ came_late (length (log w0)) (log w') k x).
Proof.
  intros H01 Hi1 Hp1 Hk Hl1 Hf Hi Hm. pose proof (pub_node_grows _ _ _ _ (fr_grows _ _ _ Hf) Hp1) as Hp.
  destruct (inv_become_value hash_func_ head_ t v x w Hi Hm) as (Hi' & Hg' & Hf' & Hpv & Hothers).
  set (wv := become v PValue w) in *.
  assert (pub_node wv a n) as Hpa by (by apply (pub_node_grows w)).
  assert (exists c, ((live wv a /\ [(t, c)] = [(t, Replaced k x)]) \/ (marked wv a /\ [(t, c)] = [(t, Late k x)])) /\
    (c = Replaced k x \/ c = Late k x /\ came_late (length (log w0)) (log w ++ [(t, c)]) k x)) as (c & Hc & Hlate).
  { destruct (gr_live _ _ (fr_grows _ _ _ Hf) a n Hp1 Hl1) as [Hl|(k' & i & Hk' & Hlen & Hmk & (t' & Hi0) & _)].
    - exists (Replaced k x). split; [left|left]; done.
    - assert (k' = k) as -> by congruence. exists (Late k x). split; [right; done|right]. split; [done|].
      pose proof (lookup_lt_Some _ _ _ Hi0). pose proof (log_grows _ _ H01).
      exists i, (length (log w)), t', t. split; [lia|]. split; [by apply lookup_app_l_Some|by rewrite list_lookup_middle]. }
  destruct (inv_replace hash_func_ head_ t wv a n k v x [(t, c)] Hi' Hpa Hk Hpv Hc) as (Hi2 & Hg2 & Hf2).
  exists (replace_value wv a v [(t, c)]), c. split; [split; [done|split; [done|]]|].
  { intros t' Hne. eapply frame_trans; [by apply Hf'|by apply Hf2]. }
  split; [by eapply grows_trans|]. split; [done|]. split; [by intros b o Hb Hmb; apply Hothers|]. split; [|done].
  intros l Hl. unfold replace_value. rewrite atom_revise, decide_False; [done|congruence].
Qed.

Lemma one_change w0 w w' c : did t [] w0 w -> grows w w' -> log w' = log w ++ [(t, c)] -> own t (length (log w0)) (log w') = [c].
Proof. intros H0 Hg Hl. by apply (did_own _ _ w0 w'), (did_wider t _ w0 w), did_snoc. Qed.

(** The rest of an insertion that has found the key: the new node goes. *)
Lemma discard_spec {B} r w new sn (f : found_at) (g : () -> thread V B) Q :
  Inv w -> good r w -> mine t w new (ONode sn) -> IsDummy sn = false -> ok_hp r (prev_hp f) -> ok_hp r (cur_hp f) ->
  (forall r' w', after_but new r w r' w' -> safeT (g ()) r' w' Q) ->
  safeT (store (Value new) 0;; delete_node false new;; unmark f;; g ()) r w Q.
Proof.
  intros Hi Hg Hm Hd Hph Hch H. apply safeT_store. intros w1 Hf1 Hi1. pose proof (mine_frame _ _ _ _ _ Hf1 Hm) as Hm1.
  assert (Value new ∈ members new (ONode sn : obj V)) as Hin by (cbn; rewrite Hd; right; left).
  split; [eapply (ih_members _ _ (inv_h _ _ _ Hi1)); [apply Hm1|done]|].
  destruct (private_step hash_func_ head_ t w1 new (ONode sn) (Value new) 0 Hi1 Hm1 Hin ltac:(done)) as (Hc & Hfb & Hi2 & Hm2).
  exists (write (Value new) 0 w1). split; [done|].
  assert (after_but new r w r (write (Value new) 0 w1)) as Ha2.
  { apply after_but_frame; [|done|done]. eapply frame_but_trans; [by apply frame_but_of|done]. }
  apply (delete_node_spec _ _ _ _ sn); [done|apply Ha2|done|intros _; by rewrite atom_write, decide_True|]. intros w3 Ha3 _.
  pose proof (after_but_trans _ _ _ _ _ _ _ _ _ _ Ha2 Ha3) as Ha23.
  apply safeT_bind; [apply Ha3|]. apply unmark_spec; [apply Ha3|apply Ha3|done|done|]. intros w4 Ha4. apply H.
  eapply after_but_trans; [exact Ha23|by apply after_but_of].
Qed.

Lemma insert_regular_spec m r w head nh new v k x ph ch (Q : bool -> Reclaimer -> world V -> Prop) :
  Inv w -> good r w -> pub_node w head nh -> IsDummy nh = true -> Less nh (RegularNode hash_func_ k) = true ->
  mine t w new (ONode (RegularNode hash_func_ k)) -> has_value t w new (RegularNode hash_func_ k) (Some (v, x)) ->
  ok_hp r ph -> ok_hp r ch ->
  (forall b r' w', Inv w' -> good r' w' -> answered t w w' (RInsert k x) (AInsert b) -> Q b r' w') ->
  safeT (insert_loop fuel m head new (RegularNode hash_func_ k) ph ch) r w Q.
Proof.
  revert r w ph ch. induction m as [|m IH]; intros r w ph ch Hi Hg Hh Hd Hlo Hm Hv Hph Hch H; cbn [insert_loop]; [done|].
  pose proof (wf_RegularNode hash_func_ k (Hhash k)) as Hwf. set (sn := RegularNode hash_func_ k) in *.
  apply safeT_bind; [done|]. eapply SearchNode_spec; [done|done|exact Hh|done|done|done|done|done|].
  intros f r1 w1 Ha1 Hpost. assert (Inv w1) as Hi1 by apply Ha1. assert (good r1 w1) as Hg1 by apply Ha1.
  assert (forall w2 w3, frame t w2 w3 -> mine t w2 new (ONode sn) -> has_value t w2 new sn (Some (v, x)) -> has_value t w3 new sn (Some (v, x))) as Hvf.
  { intros u1 u2 Hu Hmu (_ & Hva & Hmv). split; [done|].
    rewrite (fr_atoms _ _ _ Hu new (ONode sn)); [|done|right; left]. split; [done|]. by apply (mine_frame _ u1). }
  pose proof (mine_frame _ _ _ _ _ (af_frame _ _ _ _ _ _ _ Ha1) Hm) as Hm1. pose proof (Hvf _ _ (af_frame _ _ _ _ _ _ _ Ha1) Hm Hv) as Hv1.
  destruct (found f) eqn:Hfound.
  - pose proof (search_found _ _ _ _ _ _ _ _ Hi1 Hwf Hpost Hfound) as Hp.
    destruct (sp_moment _ _ _ _ _ _ _ _ Hpost) as (w0 & Hf0 & Hi0 & Hf01 & Hml). rewrite Hfound in Hml. destruct Hml as (nc & Hpc & Hl).
    assert (nc = sn) as ->.
    { eapply pub_node_eq; [|exact Hp]. by apply (pub_node_grows w0); [apply Hf01|]. }
    apply safeT_load. intros w2 Hf2 Hi2. pose proof (mine_frame _ _ _ _ _ Hf2 Hm1) as Hm2. pose proof (Hvf _ _ Hf2 Hm1 Hv1) as Hv2.
    exists v. split; [apply Hv2|].
    apply safeT_exchange. intros w3 Hf3 Hi3. pose proof (mine_frame _ _ _ _ _ Hf3 Hm2) as Hm3. pose proof (Hvf _ _ Hf3 Hm2 Hv2) as (_ & Hva3 & Hmv3).
    assert (pub_node w3 (cur f) sn) as Hp3.
    { apply (pub_node_grows w2); [apply Hf3|]. by apply (pub_node_grows w1); [apply Hf2|]. }
    destruct (il_value _ _ (inv_l _ _ _ Hi3) _ _ Hp3 ltac:(done)) as (y & x' & Hy & _). exists y. split; [done|].
    assert (frame t w0 w3) as Hf03 by (eapply frame_trans; [exact Hf01|by eapply frame_trans]).
    destruct (replace_step w w0 w3 (cur f) sn k v x) as (w4 & c & Hs & Hg4 & Hlog & Hothers & Hat & Hc); try done; [apply Hf0|].
    exists w4. split; [done|]. destruct Hs as (_ & Hi4 & _).
    assert (mine t w4 new (ONode sn)) as Hm4.
    { apply Hothers; [|done]. intros ->. destruct Hm3 as [_ H1], Hmv3 as [_ H2]. congruence. }
    assert (answered t w w4 (RInsert k x) (AInsert false)) as Hans.
    { assert (frame t w w3) as Hfw3 by (eapply frame_trans; [exact Hf0|exact Hf03]).
      split; [eapply grows_trans; [apply Hfw3|done]|]. cbn. rewrite (one_change w w3 w4 c); [|by apply did_frame|done|done].
      destruct Hc as [->|[-> Hc]]; [by left|by right]. }
    assert (good r1 w4) as Hg14.
    { apply (good_grows r1 w1); [|done]. eapply grows_trans; [|exact Hg4]. eapply grows_trans; [apply Hf2|apply Hf3]. }
    apply ReclaimLater_spec; [done|done|done|]. intros r5 Ha5.
    apply (discard_spec _ _ _ sn f (fun _ => mret false)); [done|apply Ha5|done|done|eapply ok_hp_after; [exact Ha5|apply Hpost]..|].
    intros r6 w6 Ha6. apply safeT_ret. intros w7 Hf7 Hi7. apply H; [done|apply (good_grows _ w6); [apply Hf7|apply Ha6]|].
    eapply answered_after; [exact Hans|]. apply (did_wider t [] w4 w6); [by eapply did_after_but|by apply did_frame].
  - destruct (sp_prev _ _ _ _ _ _ _ _ Hpost) as (np & Hp & Hlp).
    eapply (link_rule _ _ _ _ _ _ _ _ (Some (v, x))); [done|done|exact Hp|done|by eapply search_behind|done|exact Hv1| |].
    + intros w2 Ha2 Hm2 Hv2. apply IH; try done; [apply Ha2|apply Ha2| | | |].
      * eapply pub_node_but; [exact Ha2|]. by eapply pub_node_after.
      * eapply ok_hp_after_but; [exact Ha2|]. apply Hpost.
      * eapply ok_hp_after_but; [exact Ha2|]. apply Hpost.
      * intros b r3 w3 Hi3 Hg3 Hans. apply H; [done|done|]. eapply answered_before; [|exact Hans].
        eapply did_wider; [by eapply did_after|by eapply did_after_but].
    + intros w2 w3 Ha2 [Hi3 Hg3 Hn3 (k' & [= <-] & Hlog)].
      assert (did t [] w w2) as Hd2 by (eapply did_wider; [by eapply did_after|by eapply did_after_but]).
      assert (answered t w w3 (RInsert k x) (AInsert true)) as Hans.
      { split; [eapply grows_trans; [apply (did_grows _ _ _ _ Hd2)|done]|]. by apply (one_change w w2 w3). }
      assert (good r1 w3) as Hgr3 by (apply (good_grows r1 w2); [done|apply Ha2]).
      apply safeT_bind; [done|]. apply grow_spec; [done|done|]. intros w4 Ha4.
      apply safeT_bind; [apply Ha4|]. apply unmark_spec; [apply Ha4|apply Ha4|apply Hpost|apply Hpost|]. intros w5 Ha5.
      apply safeT_ret. intros w6 Hf6 Hi6. pose proof (after_step _ _ _ _ _ _ _ _ (after_trans _ _ _ _ _ _ _ _ _ Ha4 Ha5) Hf6 Hi6) as Ha6.
      apply H; [done|apply Ha6|]. eapply answered_after; [exact Hans|by eapply did_after].
Qed.

Lemma Insert_spec r w k x (Q : bool -> Reclaimer -> world V -> Prop) :
  Inv w -> good r w -> (forall b r' w', Inv w' -> good r' w' -> answered t w w' (RInsert k x) (AInsert b) -> Q b r' w') ->
  safeT (Insert hash_func_ fuel k x) r w Q.
Proof.
  intros Hi Hg H. pose proof (wf_RegularNode hash_func_ k (Hhash k)) as Hwf. unfold Insert. cbv zeta.
  set (sn := RegularNode hash_func_ k) in *.
  apply safeT_new; [by intros n [= <-]|]. intros w1 new Hf1 Hi1 _ _ Hi2 Hf2 Hm2. set (w2 := alloc t new (ONode sn) w1) in *.
  apply safeT_new; [done|]. intros w3 v Hf3 Hi3 Hnone _ Hi4 Hf4 Hm4. set (w4 := alloc t v (OValue x) w3) in *.
  apply safeT_store. intros w5 Hf5 Hi5.
  assert (frame t w2 w5) as Hf25 by (eapply frame_trans; [exact Hf3|by eapply frame_trans]).
  pose proof (mine_frame _ _ _ _ _ Hf25 Hm2) as Hm5. pose proof (mine_frame _ _ _ _ _ Hf5 Hm4) as Hmv5.
  assert (Value new ∈ members new (ONode sn : obj V)) as Hin by (right; left).
  split; [eapply (ih_members _ _ (inv_h _ _ _ Hi5)); [apply Hm5|done]|].
  destruct (private_step hash_func_ head_ t w5 new (ONode sn) (Value new) v Hi5 Hm5 Hin ltac:(done)) as (Hc & Hfb & Hi6 & Hm6).
  exists (write (Value new) v w5). split; [done|]. set (w6 := write (Value new) v w5) in *.
  assert (has_value t w6 new sn (Some (v, x))) as Hv6.
  { split; [done|]. split; [unfold w6; by rewrite atom_write, decide_True|done]. }
  assert (after_but new r w r w6) as Ha6.
  { apply after_but_frame; [|done|done]. eapply frame_but_trans; [apply frame_but_of|exact Hfb].
    eapply frame_trans; [exact Hf1|]. by eapply frame_trans. }
  apply safeT_bind; [done|]. apply GetBucketHeadByHash_spec; [done|apply Ha6|apply Hhash|].
  intros head p r7 w7 Ha7 Hp Hh. destruct (bucket_start p k Hp) as (Hd & Hlo & _).
  eapply insert_regular_spec; [apply Ha7|apply Ha7|exact Hh|done|exact Hlo| | |by left|by left|].
  - eapply mine_frame; [apply Ha7|exact Hm6].
  - destruct Hv6 as (_ & Hva & Hmv). split; [done|].
    rewrite (fr_atoms _ _ _ (af_frame _ _ _ _ _ _ _ Ha7) new (ONode sn)); [|done|done]. split; [done|].
    eapply mine_frame; [apply Ha7|exact Hmv].
  - intros b r8 w8 Hi8 Hg8 Hans. apply H; [done|done|]. eapply answered_before; [|exact Hans].
    eapply did_wider; [by eapply did_after_but|by eapply did_after].
Qed.

(** ** Delete *)

(** What the loop that marks a node has done: nothing, or it has removed the key. *)
Record mark_post w0 k (f : found_at) (next : Z) r' w' : Prop := {
  mp_answered : answered t w0 w' (RDelete k) (ADelete (found f));
  mp_prev_hp : ok_hp r' (prev_hp f);
  mp_cur_hp : ok_hp r' (cur_hp f);
  mp_prev : exists np, pub_node w' (prev f) np;
  mp_cur : found f = true -> pub_node w' (cur f) (RegularNode hash_func_ k) /\ (next = 0 \/ address next) /\
    atom_at w' (Next (cur f)) = Some (get_marked_reference next)
}.

Lemma mark_post_before w0 w k f next r' w' : did t [] w0 w -> mark_post w k f next r' w' -> mark_post w0 k f next r' w'.
Proof. intros Hd [Ha ? ? ? ?]. constructor; try done. by eapply answered_before. Qed.

Lemma mark_post_after w0 k f next r w1 w2 : frame t w1 w2 -> mark_post w0 k f next r w1 -> mark_post w0 k f next r w2.
Proof.
  intros Hf [Ha ? ? [np Hp] Hc]. constructor; try done.
  - eapply answered_after; [exact Ha|by apply did_frame].
  - exists np. by apply (pub_node_grows w1); [apply Hf|].
  - intros Hfound. destruct (Hc Hfound) as (Hpc & Hn & Hat). split; [by apply (pub_node_grows w1); [apply Hf|]|]. split; [done|].
    apply (gr_marked _ _ (fr_grows _ _ _ Hf)); [apply Hpc|done|apply get_marked_marked].
Qed.

Lemma mark_node_loop_spec m r w head nh k ph ch (Q : found_at * Z -> Reclaimer -> world V -> Prop) :
  Inv w -> good r w -> pub_node w head nh -> IsDummy nh = true -> Less nh (RegularNode hash_func_ k) = true ->
  ok_hp r ph -> ok_hp r ch ->
  (forall f next r' w', Inv w' -> good r' w' -> mark_post w k f next r' w' -> Q (f, next) r' w') ->
  safeT (mark_node_loop fuel m head (RegularNode hash_func_ k) ph ch) r w Q.
Proof.
  revert r w ph ch. induction m as [|m IH]; intros r w ph ch Hi Hg Hh Hd Hlo Hph Hch H; cbn [mark_node_loop]; [done|].
  pose proof (wf_RegularNode hash_func_ k (Hhash k)) as Hwf. set (sn := RegularNode hash_func_ k) in *.
  apply safeT_bind; [done|]. eapply SearchNode_spec; [done|done|exact Hh|done|done|done|done|done|].
  intros f r1 w1 Ha1 Hpost. assert (Inv w1) as Hi1 by apply Ha1. assert (good r1 w1) as Hg1 by apply Ha1.
  destruct (sp_prev _ _ _ _ _ _ _ _ Hpost) as (np & Hp & _).
  destruct (found f) eqn:Hfound; cbn [negb].
  2: { apply safeT_ret. intros w2 Hf2 Hi2. apply H; [done|by apply (good_grows r1 w1); [apply Hf2|]|].
       apply (mark_post_after _ _ _ _ _ w1); [done|]. constructor; [|apply Hpost|apply Hpost|by exists np|congruence].
       rewrite Hfound. split; [apply Ha1|]. by apply (not_found w k f r1 w1). }
  pose proof (search_found _ _ _ _ _ _ _ _ Hi1 Hwf Hpost Hfound) as Hpc.
  assert (forall w2, frame t w1 w2 -> Inv w2 -> safeT (mark_node_loop fuel m head sn (Ct.prev_hp f) (Ct.cur_hp f)) r1 w2 Q) as Hagain.
  { intros w2 Hf2 Hi2. pose proof (after_step _ _ _ _ _ _ _ _ Ha1 Hf2 Hi2) as Ha2.
    apply IH; try done; [apply Ha2|by eapply pub_node_after|apply Hpost|apply Hpost|].
    intros f' next r3 w3 Hi3 Hg3 Hp3. apply H; [done|done|]. eapply mark_post_before; [by eapply did_after|exact Hp3]. }
  unfold get_next. apply safeT_load. intros w2 Hf2 Hi2. pose proof (pub_node_grows _ _ _ _ (fr_grows _ _ _ Hf2) Hpc) as Hpc2.
  destruct (node_next hash_func_ head_ w2 (cur f) sn Hi2 Hpc2) as [next Hnext]. exists next. split; [done|].
  destruct (is_marked_reference next) eqn:Hmn; [by apply Hagain|].
  apply safeT_cas. intros w3 Hf3 Hi3. pose proof (pub_node_grows _ _ _ _ (fr_grows _ _ _ Hf3) Hpc2) as Hpc3.
  assert (frame t w1 w3) as Hf13 by (by eapply frame_trans).
  destruct (node_next hash_func_ head_ w3 (cur f) sn Hi3 Hpc3) as [y Hy]. exists y. split; [done|]. split; [intros _; by apply Hagain|].
  intros -> _. destruct (inv_mark hash_func_ head_ t w3 (cur f) sn k next Hi3 Hpc3 eq_refl Hy Hmn) as (Hi4 & Hg4 & Hf4).
  exists (mark t w3 (cur f) k next). split; [split; [done|split; done]|].
  apply safeT_ret. intros w5 Hf5 Hi5. apply H; [done| |].
  { apply (good_grows r1 w1); [|done]. eapply grows_trans; [apply Hf13|]. eapply grows_trans; [exact Hg4|apply Hf5]. }
  apply (mark_post_after _ _ _ _ _ (mark t w3 (cur f) k next)); [done|]. constructor; [|apply Hpost|apply Hpost| |].
  - rewrite Hfound. assert (frame t w w3) as Hf03 by (eapply frame_trans; [apply Ha1|done]).
    split; [eapply grows_trans; [apply Hf03|done]|]. apply (one_change w w3); [by apply did_frame|done|done].
  - exists np. apply (pub_node_grows w3); [done|]. by apply (pub_node_grows w1); [apply Hf13|].
  - intros _. split; [by apply (pub_node_grows w3)|]. split.
    + destruct (successor hash_func_ head_ w3 (cur f) sn next Hi3 Hpc3 Hy Hmn) as (l1 & l2 & _ & _ & [[? _]|(nc & l3 & _ & Hpn & _)]); [by left|right].
      by apply (ih_address _ _ (inv_h _ _ _ Hi3) next (ONode nc)), Hpn.
    + unfold mark. by rewrite atom_revise, decide_True.
Qed.

Lemma DeleteNode_spec r w head nh k (Q : bool -> Reclaimer -> world V -> Prop) :
  Inv w -> good r w -> pub_node w head nh -> IsDummy nh = true -> Less nh (RegularNode hash_func_ k) = true ->
  (forall b r' w', Inv w' -> good r' w' -> answered t w w' (RDelete k) (ADelete b) -> Q b r' w') ->
  safeT (DeleteNode fuel head (RegularNode hash_func_ k)) r w Q.
Proof.
  intros Hi Hg Hh Hd Hlo H. unfold DeleteNode. pose proof (wf_RegularNode hash_func_ k (Hhash k)) as Hwf. set (sn := RegularNode hash_func_ k) in *.
  apply safeT_bind; [done|]. eapply mark_node_loop_spec; [done|done|exact Hh|done|done|by left|by left|].
  intros f next r1 w1 Hi1 Hg1 [Hans Hph Hch (np & Hp) Hc].
  assert (forall b r2 w2, after r1 w1 r2 w2 -> found f = b -> safeT (mret b : thread V bool) r2 w2 Q) as Hret.
  { intros b r2 w2 Ha2 Hb. apply safeT_ret. intros w3 Hf3 Hi3. pose proof (after_step _ _ _ _ _ _ _ _ Ha2 Hf3 Hi3) as Ha3.
    apply H; [done|apply Ha3|]. rewrite <- Hb. eapply answered_after; [exact Hans|by eapply did_after]. }
  destruct (found f) eqn:Hfound; cbn [negb].
  2: { apply safeT_bind; [done|]. apply unmark_spec; [done|done|done|done|]. intros w2 Ha2. by apply Hret. }
  destruct (Hc eq_refl) as (Hpc & Hnext & Hat). destruct (unmarked_address next Hnext) as [Hun Hback].
  apply safeT_cas. intros w2 Hf2 Hi2. pose proof (pub_node_grows _ _ _ _ (fr_grows _ _ _ Hf2) Hp) as Hp2.
  pose proof (pub_node_grows _ _ _ _ (fr_grows _ _ _ Hf2) Hpc) as Hpc2.
  assert (after r1 w1 r1 w2) as Ha2 by (by apply after_frame).
  destruct (node_next hash_func_ head_ w2 (prev f) np Hi2 Hp2) as [y Hy]. exists y. split; [done|]. split.
  - intros _. apply safeT_bind; [done|]. apply UnMarkHazard_spec; [done|apply Ha2|done|]. intros w3 Ha3.
    apply safeT_bind; [apply Ha3|]. apply UnMarkHazard_spec; [apply Ha3|apply Ha3|done|]. intros w4 Ha4.
    pose proof (after_trans _ _ _ _ _ _ _ _ _ Ha3 Ha4) as Ha34. assert (after r1 w1 r1 w4) as Ha14 by (by eapply after_trans).
    apply safeT_bind; [apply Ha4|]. eapply SearchNode_spec; [apply Ha4|apply Ha4| |exact Hd|exact Hlo|done|done|done|].
    { eapply (pub_node_after hash_func_ head_ t r1 w1); [exact Ha14|]. apply (pub_node_grows w); [apply Hans|exact Hh]. }
    intros f' r5 w5 Ha5 Hpost. apply safeT_bind; [apply Ha5|]. apply unmark_spec; [apply Ha5|apply Ha5|apply Hpost|apply Hpost|].
    intros w6 Ha6. apply Hret; [|done]. eapply after_trans; [exact Ha14|]. by eapply after_trans.
  - intros -> _. pose proof (gr_marked _ _ (fr_grows _ _ _ Hf2) (cur f) _ (proj1 Hpc) Hat (get_marked_marked next)) as Hat2.
    assert (is_marked_reference (cur f) = false) as Hmc by (by apply address_unmarked, (ih_address _ _ (inv_h _ _ _ Hi2) (cur f) (ONode sn)), Hpc2).
    destruct (successor hash_func_ head_ w2 (prev f) np (cur f) Hi2 Hp2 Hy Hmc) as (k1 & k2 & Ho2 & _ & Hcase).
    destruct Hcase as [[Hc0 _]|(nc' & k3 & -> & Hpc' & _)].
    { destruct (ih_address _ _ (inv_h _ _ _ Hi2) (cur f) (ONode sn)) as [? _]; [apply Hpc2|lia]. }
    assert (order w2 = (k1 ++ [(prev f, np)]) ++ (cur f, nc') :: k3) as Ho2' by (rewrite Ho2, <- app_assoc; done).
    destruct (order_split_marked hash_func_ head_ w2 _ (cur f) nc' k3 _ (inv_h _ _ _ Hi2) (inv_l _ _ _ Hi2) Ho2' Hat2 (get_marked_marked next)) as [_ Hfirst].
    assert (marked w2 (cur f)) as Hmk by (exists (get_marked_reference next); split; [done|apply get_marked_marked]).
    destruct (inv_unlink hash_func_ head_ w2 (prev f) np (cur f) nc' k1 k3 Hi2 Ho2 Hy Hmk) as (Hi3 & Hg3 & Hf3).
    exists (unlink w2 (prev f) np k1 k3). split; [split; [rewrite <- Hback, Hfirst; done|split; [done|by intros t' _]]|].
    pose proof (after_step _ _ _ _ _ _ _ _ Ha2 (Hf3 t) Hi3) as Ha3.
    apply safeT_fetch_add_shared; [done|apply Ha3|]. intros z w4 Ha4. pose proof (after_trans _ _ _ _ _ _ _ _ _ Ha3 Ha4) as Ha14.
    apply ReclaimLater_spec; [apply Ha4|apply Ha4|exists sn; by eapply pub_node_after|]. intros r5 Ha5.
    apply safeT_bind; [apply Ha4|]. apply ReclaimNoHazardPointer_spec; [apply Ha4|apply Ha5|]. intros w6 Ha6.
    pose proof (after_trans _ _ _ _ _ _ _ _ _ Ha14 (after_trans _ _ _ _ _ _ _ _ _ Ha5 Ha6)) as Ha16.
    apply safeT_bind; [apply Ha6|]. apply unmark_spec; [apply Ha6|apply Ha6|by eapply ok_hp_after|by eapply ok_hp_after|].
    intros w7 Ha7. apply Hret; [|done]. by eapply after_trans.
Qed.

(** ** Requests *)

(** The head of the bucket of a key, and what an operation does from there. *)
Lemma from_bucket {A} r w k (m : Z -> thread V A) Q :
  Inv w -> good r w ->
  (forall head nh r' w', after r w r' w' -> pub_node w' head nh -> IsDummy nh = true -> Less nh (RegularNode hash_func_ k) = true ->
    safeT (m head) r' w' Q) ->
  safeT (head ← GetBucketHeadByHash fuel (hash_func_ k); m head) r w Q.
Proof.
  intros Hi Hg H. apply safeT_bind; [done|]. apply GetBucketHeadByHash_spec; [done|done|apply Hhash|].
  intros head p r1 w1 Ha1 Hp Hh. destruct (bucket_start p k Hp) as (Hd & Hlo & _). by eapply H.
Qed.

Lemma request_spec q r w (Q : answer V -> Reclaimer -> world V -> Prop) :
  Inv w -> good r w -> (forall (y : answer V) r' w', Inv w' -> good r' w' -> answered t w w' q y -> Q y r' w') ->
  safeT (serve hash_func_ fuel q) r w Q.
Proof.
  intros Hi Hg H.
  assert (forall (y : answer V) r1 w1, Inv w1 -> good r1 w1 -> answered t w w1 q y -> safeT (mret y : thread V (answer V)) r1 w1 Q) as Hret.
  { intros y r1 w1 Hi1 Hg1 Ha. apply safeT_ret. intros w2 Hf2 Hi2. apply H; [done|by apply (good_grows r1 w1); [apply Hf2|]|].
    eapply answered_after; [exact Ha|by apply did_frame]. }
  destruct q as [k x|k|k|]; cbn [serve]; (apply safeT_bind; [done|]).
  - apply Insert_spec; [done|done|]. intros b r1 w1 Hi1 Hg1. by apply Hret.
  - unfold Delete. cbv zeta. apply from_bucket; [done|done|]. intros head nh r1 w1 Ha1 Hh Hd Hlo.
    eapply DeleteNode_spec; [apply Ha1|apply Ha1|exact Hh|done|done|]. intros b r2 w2 Hi2 Hg2 Hans. apply Hret; [done|done|].
    eapply answered_before; [by eapply did_after|exact Hans].
  - unfold Find. cbv zeta. apply from_bucket; [done|done|]. intros head nh r1 w1 Ha1 Hh Hd Hlo.
    eapply FindNode_spec; [apply Ha1|apply Ha1|exact Hh|done|done|]. intros y r2 w2 Ha2 Hans. apply Hret; [apply Ha2|apply Ha2|].
    eapply answered_before; [by eapply did_after|exact Hans].
  - unfold Ct.size. apply safeT_last. apply safeT_load_shared; [done|done|]. intros n w1 Ha1. apply safeT_ret. intros w2 Hf2 Hi2.
    pose proof (after_step _ _ _ _ _ _ _ _ Ha1 Hf2 Hi2) as Ha2. apply Hret; [done|apply Ha2|].
    split; [apply Ha2|]. by apply (did_own _ [] w w2), (did_after r _ r).
Qed.

Lemma serve_all_spec qs r w (Q : list (answer V) -> Reclaimer -> world V -> Prop) :
  Inv w -> good r w ->
  (forall answers r' w', Inv w' -> grows w w' -> explained_all t (length (log w)) (log w') qs answers -> Q answers r' w') ->
  safeT (serve_all hash_func_ fuel qs) r w Q.
Proof.
  revert r w Q. induction qs as [|q qs IH]; intros r w Q Hi Hg H; cbn [serve_all].
  - apply safeT_ret. intros w1 Hf1 Hi1. apply H; [done|apply Hf1|]. by apply (did_own _ [] w w1), did_frame.
  - apply safeT_bind; [done|]. apply request_spec; [done|done|]. intros y r1 w1 Hi1 Hg1 [Hgr1 Hex].
    apply safeT_bind; [done|]. apply IH; [done|done|]. intros answers r2 w2 Hi2 Hgr2 Hall.
    apply safeT_ret. intros w3 Hf3 Hi3. apply H; [done|eapply grows_trans; [exact Hgr1|]; eapply grows_trans; [exact Hgr2|apply Hf3]|].
    pose proof (fr_grows _ _ _ Hf3) as Hgr3. assert (grows w1 w3) as Hgr13 by (by eapply grows_trans).
    exists (length (log w1)). split; [split; [by apply log_grows|by apply log_grows]|].
    split; [by rewrite (take_grows w1), firstn_all by done|].
    destruct (gr_log _ _ Hgr3) as [ext Hext]. rewrite Hext. apply explained_all_wider; [by apply log_grows| |done].
    rewrite <- Hext. by apply (did_own _ [] w2 w3), did_frame.
Qed.

End Operations.
