(* ===== verification/CtRuns.v ===== *)
(** Runs of many threads on the lock-free table: the first state, after the constructor,
    where the invariant holds; what is in the table, read off the memory; and the
    simulation of a run by worlds. *)
From stdpp Require Import sorting.
From S2P Require Import Prelude Words Outcome SplitOrder Atomic Hazard Ct CtWorld CtMoves CtRules CtHazard CtSearch.
From S2P Require Import CtLink CtBuckets CtThreads.

Section Init.
Context {V : Type} (hash_func_ : Z -> Z).

Lemma atoms_set l x (s : shared V) l' : atoms (set_atom l x s) !! l' = if decide (l = l') then Some x else atoms s !! l'.
Proof. cbn. destruct (decide (l = l')) as [->|]; [by rewrite lookup_insert_eq|by rewrite lookup_insert_ne]. Qed.

Lemma atoms_allocate a o (s : shared V) l :
  atoms (allocate a o s) !! l = if decide (l ∈ members a o) then Some 0 else atoms s !! l.
Proof. apply foldr_insert_lookup. Qed.

Lemma atoms_set_top i x (s : shared V) l : atoms (set_atom (Top i) x s) !! l =
  match l with Top j => if decide (j = i) then Some x else atoms s !! l | _ => atoms s !! l end.
Proof. rewrite atoms_set. case_decide as Hc; [subst l; by rewrite decide_True|]. destruct l; try done. by rewrite decide_False by congruence. Qed.

Lemma atoms_set_data a i x (s : shared V) l : atoms (set_atom (Data a i) x s) !! l =
  match l with Data b j => if decide (b = a) then if decide (j = i) then Some x else atoms s !! l else atoms s !! l | _ => atoms s !! l end.
Proof. rewrite atoms_set. case_decide as Hc; [subst l; by rewrite !decide_True|]. destruct l; try done. repeat case_decide; congruence. Qed.

Lemma atoms_set_bucket a i x (s : shared V) l : atoms (set_atom (BucketAt a i) x s) !! l =
  match l with BucketAt b j => if decide (b = a) then if decide (j = i) then Some x else atoms s !! l else atoms s !! l | _ => atoms s !! l end.
Proof. rewrite atoms_set. case_decide as Hc; [subst l; by rewrite !decide_True|]. destruct l; try done. repeat case_decide; congruence. Qed.

Lemma data_member a b i : Data b i ∈ Data a <$> indices <-> b = a /\ i ∈ indices.
Proof. rewrite list_elem_of_fmap. split; [intros (j & [= -> ->] & ?); done|]. intros [-> ?]. by exists i. Qed.

Lemma bucket_member a b i : BucketAt b i ∈ BucketAt a <$> indices <-> b = a /\ i ∈ indices.
Proof. rewrite list_elem_of_fmap. split; [intros (j & [= -> ->] & ?); done|]. intros [-> ?]. by exists i. Qed.

Lemma atoms_segments a level (s : shared V) l : atoms (allocate a (OSegments level) s) !! l =
  match l with Data b i => if decide (b = a) then if decide (i ∈ indices) then Some 0 else atoms s !! l else atoms s !! l | _ => atoms s !! l end.
Proof.
  rewrite atoms_allocate. change (members a (OSegments level)) with (Data a <$> indices). destruct l;
    try (rewrite decide_False; [done|]; rewrite list_elem_of_fmap; by intros (j & ? & _)).
  pose proof (data_member a a0 i). repeat case_decide; tauto.
Qed.

Lemma atoms_buckets a (s : shared V) l : atoms (allocate a OBuckets s) !! l =
  match l with BucketAt b i => if decide (b = a) then if decide (i ∈ indices) then Some 0 else atoms s !! l else atoms s !! l | _ => atoms s !! l end.
Proof.
  rewrite atoms_allocate. change (members a OBuckets) with (BucketAt a <$> indices). destruct l;
    try (rewrite decide_False; [done|]; rewrite list_elem_of_fmap; by intros (j & ? & _)).
  pose proof (bucket_member a a0 i). repeat case_decide; tauto.
Qed.

Lemma atoms_dummy a i (s : shared V) l : atoms (allocate a (ONode (DummyNode i)) s) !! l =
  match l with Next b => if decide (b = a) then Some 0 else atoms s !! l | _ => atoms s !! l end.
Proof.
  rewrite atoms_allocate. change (members a (ONode (DummyNode i))) with [Next a].
  case_decide as Hc; [apply list_elem_of_singleton in Hc as ->; by rewrite decide_True|].
  rewrite list_elem_of_singleton in Hc. destruct l; try done. by rewrite decide_False by congruence.
Qed.

Lemma objs_allocate a o (s : shared V) b :
  objs (allocate a o s) !! b = if decide (a = b) then Some o else objs s !! b.
Proof. cbn. destruct (decide (a = b)) as [->|]; [by rewrite lookup_insert_eq|by rewrite lookup_insert_ne]. Qed.

Lemma static_lookup hp flag l : atoms (static_memory (V := V) hp flag) !! l = match l with
  | PowerOf2 => Some 1 | Size => Some 0 | HpHead => Some hp | HpSize => Some 0
  | HpFlag a => if decide (a = hp) then Some flag else None
  | HpPtr a | HpNext a => if decide (a = hp) then Some 0 else None
  | Top i => if decide (i ∈ indices) then Some 0 else None
  | _ => None
  end.
Proof.
  assert (forall l', foldr (fun i : Z => <[Top i := 0]>) (∅ : gmap loc Z) indices !! l' =
    match l' with Top i => if decide (i ∈ indices) then Some 0 else None | _ => None end) as Hf.
  { intros l'. clear l. induction indices as [|i ls IH]; cbn.
    - rewrite lookup_empty. destruct l'; try done.
    - destruct (decide (Top i = l')) as [<-|Hne].
      + rewrite lookup_insert_eq, decide_True; [done|left].
      + rewrite lookup_insert_ne, IH by done. destruct l'; try done. destruct (decide (i0 ∈ ls)).
        * rewrite decide_True; [done|by right].
        * rewrite decide_False; [done|]. intros [?|?]%elem_of_cons; congruence. }
  unfold static_memory. cbn [atoms]. destruct l;
    try (repeat first [rewrite lookup_insert_eq|rewrite lookup_insert_ne by done]; rewrite ?Hf; reflexivity);
    case_decide; subst; repeat first [rewrite lookup_insert_eq|rewrite lookup_insert_ne by congruence]; rewrite ?Hf; reflexivity.
Qed.

Section Memory.
Context (hp flag s1 s2 b h : Z).
Hypothesis (Hdistinct : NoDup [hp; s1; s2; b; h]).
Hypothesis (Haddress : Forall address [hp; s1; s2; b; h]).

Lemma apart : hp <> s1 /\ hp <> s2 /\ hp <> b /\ hp <> h /\ s1 <> s2 /\ s1 <> b /\ s1 <> h /\ s2 <> b /\ s2 <> h /\ b <> h.
Proof. rewrite !NoDup_cons, !not_elem_of_cons in Hdistinct. tauto. Qed.

(** What the constructor leaves: a segment at each level, the buckets, and bucket 0. *)
Definition first_memory : shared V :=
  let m1 := set_atom (Top 0) s1 (allocate s1 (OSegments 2) (static_memory hp flag)) in
  let m2 := set_atom (Data s1 0) s2 (allocate s2 (OSegments 3) m1) in
  let m3 := set_atom (Data s2 0) b (allocate b OBuckets m2) in
  set_atom (BucketAt b 0) h (allocate h (ONode (DummyNode 0)) m3).

Lemma first_objs a : objs first_memory !! a =
  if decide (h = a) then Some (ONode (DummyNode 0)) else if decide (b = a) then Some OBuckets else
  if decide (s2 = a) then Some (OSegments 3) else if decide (s1 = a) then Some (OSegments 2) else
  if decide (hp = a) then Some OHazard else None.
Proof.
  unfold first_memory. repeat (cbn [set_atom objs]; rewrite objs_allocate; case_decide; [done|]). cbn.
  case_decide as Hc; [by rewrite Hc, lookup_singleton_eq|by rewrite lookup_singleton_ne].
Qed.

Definition slot (i x : Z) : option Z := if decide (i ∈ indices) then Some (if decide (i = 0) then x else 0) else None.

Lemma slot_Some i x y : slot i x = Some y -> y = 0 \/ (i = 0 /\ y = x).
Proof. unfold slot. repeat case_decide; intros [= <-]; [right|left]; done. Qed.

Lemma zero_index : 0 ∈ indices.
Proof. left. Qed.

Lemma first_atoms l : atoms first_memory !! l = match l with
  | Next a => if decide (a = h) then Some 0 else None
  | Value _ => None
  | Top i => slot i s1
  | Data a i => if decide (a = s1) then slot i s2 else if decide (a = s2) then slot i b else None
  | BucketAt a i => if decide (a = b) then slot i h else None
  | _ => atoms (static_memory (V := V) hp flag) !! l
  end.
Proof.
  destruct apart as (N1 & N2 & N3 & N4 & N5 & N6 & N7 & N8 & N9 & N10).
  unfold first_memory, slot. pose proof zero_index as Hz. destruct l;
    repeat first [rewrite atoms_set_top|rewrite atoms_set_data|rewrite atoms_set_bucket|rewrite atoms_segments|rewrite atoms_buckets|rewrite atoms_dummy];
    rewrite ?static_lookup; repeat case_decide; congruence.
Qed.

(** ** The invariant *)

Definition first_roles : gmap Z role :=
  <[h := PNode]> (<[b := PArray [0; 0; 0]]> (<[s2 := PArray [0; 0]]> (<[s1 := PArray [0]]> {[hp := PHazard]}))).

Definition first_world : world V := MkWorld first_memory [(h, DummyNode 0)] first_roles [].

Definition is_object (a : Z) (o : obj V) (rl : role) : Prop := obj_at first_world a = Some o /\ roles first_world !! a = Some rl.

Lemma first_cases a :
  (a = h /\ is_object a (ONode (DummyNode 0)) PNode) \/ (a = b /\ is_object a OBuckets (PArray [0; 0; 0])) \/
  (a = s2 /\ is_object a (OSegments 3) (PArray [0; 0])) \/ (a = s1 /\ is_object a (OSegments 2) (PArray [0])) \/
  (a = hp /\ is_object a OHazard PHazard) \/ (obj_at first_world a = None /\ roles first_world !! a = None).
Proof.
  unfold is_object, obj_at. change (mem first_world) with first_memory. change (roles first_world) with first_roles.
  rewrite first_objs. unfold first_roles.
  destruct (decide (h = a)) as [->|]; [left; by rewrite lookup_insert_eq|]. rewrite lookup_insert_ne by done. right.
  destruct (decide (b = a)) as [->|]; [left; by rewrite lookup_insert_eq|]. rewrite lookup_insert_ne by done. right.
  destruct (decide (s2 = a)) as [->|]; [left; by rewrite lookup_insert_eq|]. rewrite lookup_insert_ne by done. right.
  destruct (decide (s1 = a)) as [->|]; [left; by rewrite lookup_insert_eq|]. rewrite lookup_insert_ne by done. right.
  destruct (decide (hp = a)) as [->|]; [left; by rewrite lookup_singleton_eq|]. right. by rewrite lookup_singleton_ne.
Qed.

Lemma first_at l : atom_at first_world l = atoms first_memory !! l.
Proof. done. Qed.

Lemma first_pub_node a n : pub_node first_world a n <-> a = h /\ n = DummyNode 0.
Proof.
  split.
  - intros [Hr Ho]. destruct (first_cases a) as [[-> [H1 H2]]|[[-> [H1 H2]]|[[-> [H1 H2]]|[[-> [H1 H2]]|[[-> [H1 H2]]|[H1 H2]]]]]];
      try congruence. split; [done|]. rewrite Ho in H1. by injection H1.
  - intros [-> ->]. destruct (first_cases h) as [[_ [H1 H2]]|Hc]; [done|].
    destruct apart as (N1 & N2 & N3 & N4 & N5 & N6 & N7 & N8 & N9 & N10). destruct Hc as [[? _]|[[? _]|[[? _]|[[? _]|[Hc _]]]]]; [congruence..|].
    unfold obj_at in Hc. change (mem first_world) with first_memory in Hc. by rewrite first_objs, decide_True in Hc.
Qed.

Lemma first_pub_array a path : pub_array first_world a path ->
  (a = s1 /\ path = [0]) \/ (a = s2 /\ path = [0; 0]) \/ (a = b /\ path = [0; 0; 0]).
Proof.
  intros [Hr _]. destruct (first_cases a) as [[-> [_ H2]]|[[-> [_ H2]]|[[-> [_ H2]]|[[-> [_ H2]]|[[-> [_ H2]]|[_ H2]]]]]];
    rewrite Hr in H2; try done; injection H2 as ->; auto.
Qed.

Lemma first_arrays : pub_array first_world s1 [0] /\ pub_array first_world s2 [0; 0] /\ pub_array first_world b [0; 0; 0].
Proof.
  destruct apart as (N1 & N2 & N3 & N4 & N5 & N6 & N7 & N8 & N9 & N10).
  unfold pub_array, obj_at. change (mem first_world) with first_memory. change (roles first_world) with first_roles. unfold first_roles.
  split; [|split]; (split; [repeat first [rewrite lookup_insert_eq; reflexivity|rewrite lookup_insert_ne by congruence]|]); rewrite first_objs.
  - exists (OSegments 2). rewrite !decide_False, decide_True by congruence. done.
  - exists (OSegments 3). rewrite !decide_False, decide_True by congruence. done.
  - exists OBuckets. rewrite decide_False, decide_True by congruence. done.
Qed.

Lemma first_hazard a : pub_hazard first_world a <-> a = hp.
Proof.
  split.
  - intros [Hr Ho]. destruct (first_cases a) as [[-> [H1 H2]]|[[-> [H1 H2]]|[[-> [H1 H2]]|[[-> [H1 H2]]|[[-> [H1 H2]]|[H1 H2]]]]]]; congruence.
  - intros ->. destruct apart as (N1 & N2 & N3 & N4 & N5 & N6 & N7 & N8 & N9 & N10).
    unfold pub_hazard, obj_at. change (mem first_world) with first_memory. change (roles first_world) with first_roles. unfold first_roles.
    split; [by rewrite !lookup_insert_ne, lookup_singleton_eq by congruence|].
    rewrite first_objs, !decide_False, decide_True by congruence. done.
Qed.

Lemma first_heap : inv_heap hash_func_ first_world.
Proof.
  destruct apart as (N1 & N2 & N3 & N4 & N5 & N6 & N7 & N8 & N9 & N10).
  pose proof Haddress as HA. rewrite !Forall_cons in HA. constructor.
  - intros a o Ho. destruct (first_cases a) as [[-> _]|[[-> _]|[[-> _]|[[-> _]|[[-> _]|[H1 _]]]]]]; try tauto. congruence.
  - intros a o l Ho Hl. rewrite first_at, first_atoms.
    destruct (first_cases a) as [[-> [H1 _]]|[[-> [H1 _]]|[[-> [H1 _]]|[[-> [H1 _]]|[[-> [H1 _]]|[H1 _]]]]]]; rewrite H1 in Ho; try done; injection Ho as <-.
    + apply list_elem_of_singleton in Hl as ->. by rewrite decide_True.
    + apply list_elem_of_fmap in Hl as (i & -> & Hi). rewrite decide_True by done. unfold slot. by rewrite decide_True.
    + apply list_elem_of_fmap in Hl as (i & -> & Hi). unfold slot. repeat case_decide; done.
    + apply list_elem_of_fmap in Hl as (i & -> & Hi). unfold slot. repeat case_decide; done.
    + cbn in Hl. rewrite !elem_of_cons in Hl. destruct Hl as [->|[->|[->|Hl]]]; [..|by apply not_elem_of_nil in Hl];
        rewrite static_lookup, decide_True by done; done.
  - intros a n Ho. destruct (first_cases a) as [[-> [H1 _]]|[[-> [H1 _]]|[[-> [H1 _]]|[[-> [H1 _]]|[[-> [H1 _]]|[H1 _]]]]]]; rewrite H1 in Ho; try done.
    injection Ho as <-. by apply wf_DummyNode.
  - intros a o Ho. destruct (first_cases a) as [[-> [H1 H2]]|[[-> [H1 H2]]|[[-> [H1 H2]]|[[-> [H1 H2]]|[[-> [H1 H2]]|[H1 H2]]]]]]; rewrite H1 in Ho; try done;
      injection Ho as <-; eexists; (split; [exact H2|]); cbn; eauto.
  - intros a rl Hr. destruct (first_cases a) as [[-> [H1 H2]]|[[-> [H1 H2]]|[[-> [H1 H2]]|[[-> [H1 H2]]|[[-> [H1 H2]]|[H1 H2]]]]]]; rewrite ?H1; try done. congruence.
  - intros a t n [Hr _]. destruct (first_cases a) as [[-> [H1 H2]]|[[-> [H1 H2]]|[[-> [H1 H2]]|[[-> [H1 H2]]|[[-> [H1 H2]]|[H1 H2]]]]]]; congruence.
Qed.

Lemma first_inv : Inv hash_func_ h first_world.
Proof.
  destruct first_arrays as (Hp1 & Hp2 & Hp3).
  assert (forall a, address a -> a <> 0) as Hn0 by (intros a [? _]; lia).
  pose proof Haddress as HA. rewrite !Forall_cons in HA. destruct HA as (Ahp & A1 & A2 & A3 & A4 & _).
  assert (atom_at first_world (Next h) = Some 0) as Hnext by (rewrite first_at, first_atoms; by rewrite decide_True).
  constructor.
  - apply first_heap.
  - constructor.
    + by exists [].
    + split; [by left|done].
    + by repeat constructor.
    + intros a n [[= -> ->]|Hn]%elem_of_cons; [by apply first_pub_node|by apply not_elem_of_nil in Hn].
    + intros a n [-> ->]%first_pub_node _. left.
    + intros a n [-> ->]%first_pub_node _. by exists 0.
    + by intros a n [-> ->]%first_pub_node.
  - split; [intros i t c Hi; by destruct i|]. intros k x. cbn. rewrite lookup_empty. split; [done|].
    intros (a & n & v & [[= -> ->]|Hn]%elem_of_cons & Hk & _); [done|by apply not_elem_of_nil in Hn].
  - constructor.
    + intros i Hi. rewrite first_at, first_atoms. unfold slot. rewrite decide_True by (apply list_elem_of_fmap; exists (Z.to_nat i); rewrite elem_of_seq; lia).
      case_decide as Hi0; [subst i; by exists s1; split; [|right]|by exists 0; split; [|left]].
    + intros s path o i x Hp _ _ Hx. rewrite first_at, first_atoms in Hx.
      destruct apart as (N1 & N2 & N3 & N4 & N5 & N6 & N7 & N8 & N9 & N10).
      destruct (first_pub_array _ _ Hp) as [[-> ->]|[[-> ->]|[-> ->]]]; repeat case_decide; try congruence;
        apply slot_Some in Hx as [->|[-> ->]]; auto.
    + intros s path o i d Hp _ _ Hx. rewrite first_at, first_atoms in Hx.
      destruct apart as (N1 & N2 & N3 & N4 & N5 & N6 & N7 & N8 & N9 & N10).
      destruct (first_pub_array _ _ Hp) as [[-> ->]|[[-> ->]|[-> ->]]]; repeat case_decide; try congruence;
        apply slot_Some in Hx as [->|[-> ->]]; [by left|right; by apply first_pub_node].
    + unfold nonzero_at, slot. split; [exists s1; rewrite first_at, first_atoms; split; [done|by apply Hn0]|]. destruct apart as (N1 & N2 & N3 & N4 & N5 & N6 & N7 & N8 & N9 & N10). split.
      * intros s Hp. rewrite first_at, first_atoms. destruct Hp as [Hp|Hp]; destruct (first_pub_array _ _ Hp) as [[-> ?]|[[-> ?]|[-> ?]]]; try done.
        -- exists s2. rewrite decide_True by done. split; [done|by apply Hn0].
        -- exists b. rewrite decide_False, decide_True by congruence. split; [done|by apply Hn0].
      * intros s Hp. rewrite first_at, first_atoms. destruct (first_pub_array _ _ Hp) as [[-> ?]|[[-> ?]|[-> _]]]; try done.
        exists h. rewrite decide_True by done. split; [done|by apply Hn0].
  - constructor.
    + exists 1. rewrite first_at, first_atoms, static_lookup. split; [done|lia].
    + by rewrite first_at, first_atoms, static_lookup.
    + by rewrite first_at, first_atoms, static_lookup.
    + exists hp. rewrite first_at, first_atoms, static_lookup. split; [done|by apply first_hazard].
    + intros a x ->%first_hazard. rewrite first_at, first_atoms, static_lookup, decide_True by done. intros [= <-]. by left.
Qed.

End Memory.

(** ** The constructor *)

(** [malloc] returns memory that is free while the table is constructed. *)
Definition roomy (malloc : shared V -> Z) : Prop := forall s, (base.size (objs s) < 5)%nat -> available (malloc s) s = true.

Lemma available_free a (s : shared V) : available a s = true -> address a /\ objs s !! a = None.
Proof. unfold available, address. rewrite !andb_true_iff, !Z.ltb_lt, Z.eqb_eq, bool_decide_eq_true. tauto. Qed.

Lemma free_allocate a b o (s : shared V) l x : objs (set_atom l x (allocate a o s)) !! b = None -> a <> b /\ objs s !! b = None.
Proof.
  cbn. intros H. destruct (decide (a = b)) as [->|Hne]; [by rewrite lookup_insert_eq in H|]. by rewrite lookup_insert_ne in H.
Qed.

Lemma size_allocate a o (s : shared V) : (base.size (objs (allocate a o s)) <= S (base.size (objs s)))%nat.
Proof. cbn. rewrite map_size_insert. destruct (objs s !! a); cbn; lia. Qed.

Lemma alone_new {A} malloc o (k : Z -> prog V A) s :
  alone malloc (Act (New o) k) s = alone malloc (k (malloc s)) (allocate (malloc s) o s).
Proof. done. Qed.

Lemma alone_store {A} malloc l x (k : () -> prog V A) s y :
  atoms s !! l = Some y -> alone malloc (Act (Store l x) k) s = alone malloc (k ()) (set_atom l x s).
Proof. intros Hl. cbn. by rewrite Hl. Qed.

Lemma constructor_run malloc hp flag s1 s2 b h m0 m1 m2 m3 :
  NoDup [hp; s1; s2; b; h] -> m0 = static_memory (V := V) hp flag -> malloc m0 = s1 ->
  m1 = set_atom (Top 0) s1 (allocate s1 (OSegments 2) m0) -> malloc m1 = s2 ->
  m2 = set_atom (Data s1 0) s2 (allocate s2 (OSegments 3) m1) -> malloc m2 = b ->
  m3 = set_atom (Data s2 0) b (allocate b OBuckets m2) -> malloc m3 = h ->
  alone malloc (CT new_Reclaimer) (static_memory hp flag) = Ok (h, new_Reclaimer, first_memory hp flag s1 s2 b h).
Proof.
  intros Hnd H0 E1 H1 E2 H2 E3 H3 E4. pose proof zero_index as Hz.
  assert (s2 <> s1) as Hne by (intros ->; rewrite !NoDup_cons, !not_elem_of_cons in Hnd; tauto).
  unfold CT, first_segments, NewSegments, NewBuckets, store, atomically, mbind, thread_bind, mret, thread_ret.
  cbn [bind data_of]. rewrite <- H0.
  rewrite alone_new, E1, (alone_store _ _ _ _ _ 0), <- H1.
  2: { rewrite atoms_segments, H0, static_lookup. by rewrite decide_True. }
  rewrite alone_new, E2, (alone_store _ _ _ _ _ 0), <- H2.
  2: { rewrite atoms_segments, decide_False, H1, atoms_set_top, atoms_segments by done. by rewrite !decide_True. }
  rewrite alone_new, E3, (alone_store _ _ _ _ _ 0), <- H3.
  2: { rewrite atoms_buckets, H2, atoms_set_data, atoms_segments. by rewrite decide_False, !decide_True. }
  rewrite alone_new, E4, (alone_store _ _ _ _ _ 0).
  { unfold first_memory. cbv zeta. rewrite <- H0, <- H1, <- H2, <- H3. reflexivity. }
  rewrite atoms_dummy, H3, atoms_set_data, atoms_buckets. by rewrite !decide_True.
Qed.

Lemma constructor malloc hp flag :
  roomy malloc -> address hp ->
  exists s1 s2 b h, NoDup [hp; s1; s2; b; h] /\ Forall address [hp; s1; s2; b; h] /\
    alone malloc (CT new_Reclaimer) (static_memory hp flag) = Ok (h, new_Reclaimer, first_memory hp flag s1 s2 b h).
Proof.
  intros Hm Hhp.
  remember (static_memory (V := V) hp flag) as m0 eqn:E0. remember (malloc m0) as s1 eqn:E1.
  remember (set_atom (Top 0) s1 (allocate s1 (OSegments 2) m0)) as m1 eqn:E2. remember (malloc m1) as s2 eqn:E3.
  remember (set_atom (Data s1 0) s2 (allocate s2 (OSegments 3) m1)) as m2 eqn:E4. remember (malloc m2) as b eqn:E5.
  remember (set_atom (Data s2 0) b (allocate b OBuckets m2)) as m3 eqn:E6. remember (malloc m3) as h eqn:E7.
  assert (base.size (objs m0) = 1)%nat as Hs0 by (rewrite E0; cbn; by rewrite map_size_singleton).
  pose proof (size_allocate s1 (OSegments 2) m0) as Hs1. pose proof (size_allocate s2 (OSegments 3) m1) as Hs2.
  pose proof (size_allocate b OBuckets m2) as Hs3.
  assert (objs m1 = objs (allocate s1 (OSegments 2) m0)) as O1 by (by rewrite E2).
  assert (objs m2 = objs (allocate s2 (OSegments 3) m1)) as O2 by (by rewrite E4).
  assert (objs m3 = objs (allocate b OBuckets m2)) as O3 by (by rewrite E6).
  rewrite <- O1 in Hs1. rewrite <- O2 in Hs2. rewrite <- O3 in Hs3.
  destruct (available_free s1 m0) as [A1 F1]; [rewrite E1; apply Hm; lia|]. destruct (available_free s2 m1) as [A2 F2]; [rewrite E3; apply Hm; lia|].
  destruct (available_free b m2) as [A3 F3]; [rewrite E5; apply Hm; lia|]. destruct (available_free h m3) as [A4 F4]; [rewrite E7; apply Hm; lia|].
  exists s1, s2, b, h.
  assert (NoDup [hp; s1; s2; b; h]) as Hnd.
  { rewrite E2 in F2. rewrite E4, E2 in F3. rewrite E6, E4, E2 in F4. apply free_allocate in F2 as [? F2]. apply free_allocate in F3 as [? F3]. apply free_allocate in F3 as [? F3].
    apply free_allocate in F4 as [? F4]. apply free_allocate in F4 as [? F4]. apply free_allocate in F4 as [? F4].
    assert (forall a, objs m0 !! a = None -> hp <> a) as Hm0 by (intros a Ha ->; rewrite E0 in Ha; cbn in Ha; by rewrite lookup_singleton_eq in Ha).
    apply Hm0 in F1, F2, F3, F4.
    rewrite !NoDup_cons, !not_elem_of_cons. pose proof (NoDup_nil_2 (A := Z)). pose proof (not_elem_of_nil (A := Z)).
    repeat split; done || congruence. }
  split; [done|]. split; [repeat (apply Forall_cons; split; [done|]); by apply Forall_nil|].
  rewrite E0. by apply (constructor_run malloc hp flag s1 s2 b h m0 m1 m2 m3).
Qed.

End Init.

(** ** What is in the table *)

Section Contents.
Context {V : Type}.

(** The key and the value of the node at [p], unless it is a dummy or marked. *)
Definition entry (s : shared V) (p : Z) (n : node) (next : Z) : option (Z * V) :=
  if is_marked_reference next then None else
  k ← key_of n;
  v ← atoms s !! Value p;
  o ← objs s !! v;
  match o with OValue x => Some (k, x) | _ => None end.

(** The entries of the list from [p] on, at most [n] nodes. *)
Fixpoint stored (n : nat) (s : shared V) (p : Z) : list (Z * V) :=
  if p =? 0 then [] else
  match n with
  | O => []
  | S n =>
    match objs s !! p, atoms s !! Next p with
    | Some (ONode m), Some next => option_list (entry s p m next) ++ stored n s (get_unmarked_reference next)
    | _, _ => []
    end
  end.

(** The map that a state of the memory stands for. The list has no more nodes than there
    are objects. *)
Definition contents (s : shared V) (head_ : Z) : gmap Z V := list_to_map (stored (base.size (objs s)) s head_).

Context (hash_func_ : Z -> Z) (head_ : Z).
Implicit Types (w : world V) (t : nat) (a v k : Z) (x : V).

Abbreviation Inv := (Inv hash_func_ head_).

Lemma stored_entries w l1 l2 n :
  Inv w -> order w = l1 ++ l2 -> (length l2 <= n)%nat ->
  forall k x, (k, x) ∈ stored n (mem w) (first 0 l2) <->
    exists a m next, (a, m) ∈ l2 /\ atom_at w (Next a) = Some next /\ entry (mem w) a m next = Some (k, x).
Proof.
  intros Hi. revert l1 n. induction l2 as [|[a m] l2 IH]; intros l1 n Ho Hn k x.
  - replace (stored n (mem w) (first 0 [])) with (@nil (Z * V)) by (by destruct n).
    split; [by intros ?%not_elem_of_nil|]. by intros (a & m & next & Ha%not_elem_of_nil & _).
  - destruct n as [|n]; [cbn in Hn; lia|].
    assert (pub_node w a m) as Hp.
    { apply (il_nodes _ _ (inv_l _ _ _ Hi)). rewrite Ho. apply elem_of_app. right. left. }
    destruct (node_next hash_func_ head_ w a m Hi Hp) as [next Hnext].
    assert (address a) as Ha by (by apply (ih_address _ _ (inv_h _ _ _ Hi) a (ONode m)), Hp).
    assert (get_unmarked_reference next = first 0 l2) as Hun.
    { pose proof (il_linked _ _ (inv_l _ _ _ Hi)) as Hk. rewrite Ho, (linked_app hash_func_ head_) in Hk. destruct Hk as [_ [Hle _]].
      assert (first 0 l2 = 0 \/ address (first 0 l2)) as Hf.
      { apply (first_address hash_func_ head_ w (l1 ++ [(a, m)])); [apply Hi..|]. by rewrite <- app_assoc. }
      destruct (unmarked_address _ Hf) as [Hu1 Hu2]. destruct Hle as [Hle|Hle]; rewrite Hle in Hnext; injection Hnext as <-; [|done].
      apply get_unmarked_id; [|done]. destruct Hf as [->|[Hf _]]; lia. }
    cbn [stored first]. destruct Hp as [_ Hobj]. unfold obj_at in Hobj. rewrite Hobj. unfold atom_at in Hnext. rewrite Hnext.
    assert (a <> 0) by (destruct Ha; lia). test (a =? 0) is false. rewrite Hun, elem_of_app, (IH (l1 ++ [(a, m)]) n); [|by rewrite <- app_assoc|cbn in Hn; lia].
    split.
    + intros [He|(b & m' & next' & Hb & Hrest)].
      * exists a, m, next. split; [left|]. split; [done|]. destruct (entry _ _ _ _) as [e|]; [|by apply not_elem_of_nil in He].
        apply list_elem_of_singleton in He. by rewrite He.
      * exists b, m', next'. split; [by right|done].
    + intros (b & m' & next' & [[= -> ->]|Hb]%elem_of_cons & Hnb & He).
      * left. unfold atom_at in Hnb. assert (next' = next) as -> by congruence. rewrite He. left.
      * right. by exists b, m', next'.
Qed.

(** The log says what is in the memory. *)
Lemma contents_log w : Inv w -> contents (mem w) head_ = replay (log w).
Proof.
  intros Hi. unfold contents. destruct (il_head _ _ (inv_l _ _ _ Hi)) as [l Ho].
  assert (head_ = first 0 (order w)) as Hh by (by rewrite Ho).
  assert (length (order w) <= base.size (objs (mem w)))%nat as Hlen.
  { rewrite <- (length_fmap fst), <- (size_list_to_set (C := gset Z)) by (by eapply order_fst_NoDup, Hi).
    rewrite <- (size_dom (D := gset Z)). apply subseteq_size. intros a [[b m] [-> Hb]]%elem_of_list_to_set%list_elem_of_fmap.
    apply elem_of_dom. exists (ONode m). by apply (il_nodes _ _ (inv_l _ _ _ Hi)). }
  assert (forall k x, (k, x) ∈ stored (base.size (objs (mem w))) (mem w) head_ <-> replay (log w) !! k = Some x) as He.
  { intros k x. rewrite Hh, (stored_entries w [] (order w)) by done. destruct (inv_c _ _ _ Hi) as [_ Hc]. rewrite Hc.
    split; intros (a & m & y & Hin & H1 & H2); exists a, m.
    - unfold entry in H2. destruct (is_marked_reference y) eqn:Hm; [done|].
      apply bind_Some in H2 as (k' & Hk & (v & Hv & (o & Hob & Hx)%bind_Some)%bind_Some). destruct o as [|x'| | |]; try done.
      injection Hx as <- <-. exists v. split; [done|]. split; [done|]. split; [by exists y|]. split; [done|].
      destruct (il_value _ _ (inv_l _ _ _ Hi) a m) as (v' & x2 & Hv' & Hp2); [by apply (il_nodes _ _ (inv_l _ _ _ Hi))|unfold IsDummy; by rewrite Hk|].
      unfold atom_at in Hv'. assert (v' = v) as -> by congruence. destruct Hp2 as [Hr Ho2]. split; [done|done].
    - destruct H2 as ((next & Hn & Hm) & Hv & _ & Hx). exists next. split; [done|]. split; [done|].
      unfold entry. rewrite Hm, H1. unfold atom_at, obj_at in *. cbn. rewrite Hv. cbn. by rewrite Hx. }
  apply map_eq. intros k. destruct (replay (log w) !! k) as [x|] eqn:Hx.
  - apply elem_of_list_to_map_1'; [|by apply He]. intros y Hy%He. congruence.
  - apply not_elem_of_list_to_map_1. intros ([k' y] & -> & Hin%He)%list_elem_of_fmap. cbn in Hx. congruence.
Qed.

End Contents.

(** ** Runs *)

Section Runs.
Context {V : Type}.

(** A thread that serves requests, with its reclaimer from the first one on. *)
Definition serving (hash_func_ : Z -> Z) (fuel : nat) (qs : list (request V)) : prog V (list (answer V)) :=
  bind (serve_all hash_func_ fuel qs new_Reclaimer) (fun '(answers, _) => Ret answers).

Definition within_power (s : shared V) : bool :=
  match atoms s !! PowerOf2 with Some p => p <=? 24 | None => true end.

(** The next action of thread [t] reclaims nothing, and the table stays within its
    maximum. *)
Definition mild_step {A} (t : nat) (c : Z) (g : config V A) : bool :=
  match threads g !! t with
  | Some (Act e k) =>
    if enabled e c (memory_of g) then
      negb (reclaims e) && match exec e c (memory_of g) with Ok (_, s) => within_power s | _ => true end
    else true
  | _ => true
  end.

Fixpoint mild {A} (schedule : list (nat * Z)) (g : config V A) : bool :=
  match schedule with
  | [] => true
  | (t, c) :: schedule => mild_step t c g && match step t c g with Ok g => mild schedule g | _ => true end
  end.

(** The thread has not had a turn. *)
Definition unmoved (t : nat) (schedule : list (nat * Z)) : Prop := t ∉ fst <$> schedule.

Lemma run_app {A} (s1 s2 : list (nat * Z)) (g : config V A) : run (s1 ++ s2) g = g ← run s1 g; run s2 g.
Proof.
  revert g. induction s1 as [|[t c] s1 IH]; intros g; cbn; [done|]. destruct (step t c g) as [g'| | |]; cbn; [apply IH|done..].
Qed.

Lemma mild_snoc {A} schedule t c (g g' : config V A) :
  mild (schedule ++ [(t, c)]) g = true -> mild schedule g = true /\ (run schedule g = Ok g' -> mild_step t c g' = true).
Proof.
  revert g. induction schedule as [|[t' c'] schedule IH]; intros g; cbn.
  - intros [H _]%andb_true_iff. split; [done|]. by intros [= <-].
  - intros [-> H]%andb_true_iff. destruct (step t' c' g) as [g1| | |]; cbn; [|done..]. by apply IH.
Qed.

Context (hash_func_ : Z -> Z) (head_ : Z) (fuel : nat).
Hypothesis (Hhash : forall k, 0 <= hash_func_ k < 2 ^ 64).
Implicit Types (w : world V) (t : nat).

Abbreviation Inv := (Inv hash_func_ head_).
Abbreviation server := (serving hash_func_ fuel).

Lemma serving_safe t qs w : Inv w ->
  safe hash_func_ head_ t (server qs) w (fun answers w' => explained_all t (length (log w)) (log w') qs answers).
Proof.
  intros Hi. unfold serving. apply safe_bind; [done|].
  apply (safe_mono hash_func_ head_ t _ w (fun '(answers, _) w' => safe hash_func_ head_ t (Ret answers) w'
    (fun answers w' => explained_all t (length (log w)) (log w') qs answers))); [by intros [answers r'] w'|].
  apply (serve_all_spec hash_func_ head_ fuel t Hhash qs new_Reclaimer w (fun answers _ w' => safe hash_func_ head_ t (Ret answers) w'
    (fun answers w' => explained_all t (length (log w)) (log w') qs answers))); [done| |].
  - constructor; cbn; [by intros h ?%not_elem_of_nil|done|]. intros p x Hx. by rewrite lookup_empty in Hx.
  - intros answers r' w' Hi' Hg Hall w1 Hf1 Hi1. destruct (gr_log _ _ (fr_grows _ _ _ Hf1)) as [ext Hext]. rewrite Hext.
    apply explained_all_wider; [by apply log_grows| |done]. rewrite <- Hext. by apply (did_own t [] w' w1), did_frame.
Qed.

(** ** The simulation *)

(** A thread of a configuration: not started, or started when the log had length [s]. *)
Definition thread_ok t (qs : list (request V)) (p : prog V (list (answer V))) w (started : option nat) : Prop :=
  match started with
  | None => p = server qs /\ own t 0 (log w) = []
  | Some s => (s <= length (log w))%nat /\ own t 0 (take s (log w)) = [] /\
    safe hash_func_ head_ t p w (fun answers w' => explained_all t s (log w') qs answers)
  end.

Lemma thread_ok_frame t qs p w w' started : frame t w w' -> thread_ok t qs p w started -> thread_ok t qs p w' started.
Proof.
  intros Hf. pose proof (log_grows _ _ (fr_grows _ _ _ Hf)) as Hlen. destruct started as [s|]; cbn.
  - intros (Hs & Ho & Hsafe). split; [lia|]. split; [by rewrite (take_grows w) by (apply Hf || done)|]. by eapply safe_frame.
  - intros [-> Ho]. split; [done|]. destruct (gr_log _ _ (fr_grows _ _ _ Hf)) as [ext Hext].
    rewrite Hext, own_split, Ho, <- Hext by lia. by apply (did_own t [] w w'), did_frame.
Qed.

(** A thread that has started may be given a turn. *)
Lemma thread_start t qs p w started : Inv w -> thread_ok t qs p w started ->
  exists s, thread_ok t qs p w (Some s) /\ (match started with Some s' => s = s' | None => s = length (log w) end).
Proof.
  intros Hi. destruct started as [s|]; [by exists s|]. intros [-> Ho]. exists (length (log w)). split; [|done].
  split; [done|]. split; [by rewrite firstn_all|]. by apply serving_safe.
Qed.

Record simulated (requests : list (list (request V))) (started : list (option nat)) (g : config V (list (answer V))) w : Prop := {
  sm_memory : memory_of g = mem w;
  sm_inv : Inv w;
  sm_log : forall e, e ∈ log w -> (fst e < length requests)%nat;
  sm_length : length (threads g) = length requests /\ length started = length requests;
  sm_threads : forall t qs p st, requests !! t = Some qs -> threads g !! t = Some p -> started !! t = Some st -> thread_ok t qs p w st
}.

(** One turn. *)
Lemma simulated_step requests started g w t c :
  simulated requests started g w -> mild_step t c g = true ->
  exists g' w' started', step t c g = Ok g' /\ simulated requests started' g' w' /\ grows w w' /\
    (forall t', started' !! t' = started !! t' \/ (t' = t /\ started !! t = Some None /\ started' !! t = Some (Some (length (log w))))).
Proof.
  intros [Hm Hi Hev [Hl1 Hl2] Ht] Hmild.
  assert (simulated requests started g w) as Hsame by (by constructor).
  unfold step, mild_step in *. destruct (threads g !! t) as [p|] eqn:Hp.
  2: { exists g, w, started. split; [done|]. split; [done|]. split; [apply grows_refl|]. by left. }
  destruct (lookup_lt_is_Some_2 requests t) as [qs Hqs]; [rewrite <- Hl1; by eapply lookup_lt_Some|].
  destruct (lookup_lt_is_Some_2 started t) as [st Hst]; [rewrite Hl2, <- Hl1; by eapply lookup_lt_Some|].
  pose proof (Ht t qs p st Hqs Hp Hst) as Hok. destruct (thread_start t qs p w st Hi Hok) as (s & (Hs & Ho & Hsafe) & Hst').
  destruct p as [a|X e k| | |]; try done.
  1,3: exists g, w, started; split; [done|]; split; [done|]; split; [apply grows_refl|]; by left.
  destruct (enabled e c (memory_of g)) eqn:He.
  2: { exists g, w, started. split; [done|]. split; [done|]. split; [apply grows_refl|]. by left. }
  apply andb_true_iff in Hmild as [Hr%negb_true_iff Hpow]. rewrite Hm in He, Hpow |- *.
  destruct (Hsafe Hr w c (frame_refl t w) Hi He) as (x & s' & Hx & Hrest). rewrite Hx in Hpow |- *. cbn.
  destruct Hrest as (w2 & Hw2 & Hi2 & Hf2 & Hk).
  { intros p' Hp'. unfold within_power in Hpow. rewrite Hp' in Hpow. lia. }
  pose proof (fr_grows _ _ _ (Hf2 (S t) ltac:(lia))) as Hg2. pose proof (log_grows _ _ Hg2) as Hlen.
  exists (MkConfig s' (<[t := k x]> (threads g))), w2, (<[t := Some s]> started). split; [done|]. split; [|split; [done|]].
  - constructor; [by rewrite Hw2|done| |by split; cbn; rewrite length_insert|].
    { intros e' He'. apply list_elem_of_lookup in He' as [i Hi'']. destruct (Nat.lt_ge_cases i (length (log w))) as [Hlt|Hge].
      - apply Hev, list_elem_of_lookup. exists i. destruct (gr_log _ _ Hg2) as [ext Hext]. rewrite Hext, lookup_app_l in Hi'' by done. done.
      - destruct (decide (fst e' = t)) as [->|Hne]; [by eapply lookup_lt_Some|].
        by destruct (fr_log _ _ _ (Hf2 (fst e') Hne) i e' Hge Hi''). }
    cbn. intros t' qs' p' st' Hqs' Hp' Hs'.
    destruct (decide (t = t')) as [<-|Hne].
    + rewrite list_lookup_insert_eq in Hp' by (by eapply lookup_lt_Some). rewrite list_lookup_insert_eq in Hs' by (by eapply lookup_lt_Some).
      injection Hp' as <-. injection Hs' as <-. assert (qs' = qs) as -> by congruence.
      split; [lia|]. split; [by rewrite (take_grows w) by done|done].
    + rewrite list_lookup_insert_ne in Hp' by done. rewrite list_lookup_insert_ne in Hs' by done. apply (thread_ok_frame _ _ _ w); [by apply Hf2|]. by eapply Ht.
  - intros t'. destruct (decide (t = t')) as [<-|Hne]; [|left; by rewrite list_lookup_insert_ne].
    rewrite list_lookup_insert_eq by (by eapply lookup_lt_Some). destruct st as [s0|]; [left; congruence|right]. by subst s.
Qed.

(** What holds of every finished thread. *)
Lemma simulated_answers requests started g w t qs answers s :
  simulated requests started g w -> requests !! t = Some qs -> threads g !! t = Some (Ret answers) ->
  (s <= length (log w))%nat -> (forall s', started !! t = Some (Some s') -> (s <= s')%nat) -> explained_all t s (log w) qs answers.
Proof.
  intros [Hm Hi _ [Hl1 Hl2] Ht] Hqs Hp Hs Hst.
  destruct (lookup_lt_is_Some_2 started t) as [st Hstt]; [rewrite Hl2; by eapply lookup_lt_Some|].
  destruct (thread_start t qs _ w st Hi (Ht t qs _ st Hqs Hp Hstt)) as (s1 & (Hs1 & Ho & Hsafe) & Hst').
  apply (explained_all_earlier t s1); [|by apply own_later|by apply Hsafe; [apply frame_refl|]].
  split; [|done]. destruct st as [s2|]; subst s1; [by apply Hst|done].
Qed.

(** The log after [n] turns is sound, has only changes of the threads and describes the
    memory; a thread that has finished has answers that the log explains, from any moment
    before its first turn on. *)
Definition described (requests : list (list (request V))) (schedule : list (nat * Z)) (logs : nat -> list (nat * change V)) (n : nat)
    (g : config V (list (answer V))) : Prop :=
  sound_log (logs n) /\ (forall e, e ∈ logs n -> (fst e < length requests)%nat) /\
  contents (memory_of g) head_ = replay (logs n) /\
  forall t qs answers n0, requests !! t = Some qs -> threads g !! t = Some (Ret answers) ->
    (n0 <= n)%nat -> unmoved t (take n0 schedule) -> explained_all t (length (logs n0)) (logs n) qs answers.

(** A run has a log of changes after each number of turns, which grows. *)
Definition recorded (requests : list (list (request V))) (schedule : list (nat * Z)) (g0 : config V (list (answer V)))
    (logs : nat -> list (nat * change V)) : Prop :=
  logs 0%nat = [] /\ (forall m n, (m <= n <= length schedule)%nat -> logs m `prefix_of` logs n) /\
  forall n, (n <= length schedule)%nat -> exists g, run (take n schedule) g0 = Ok g /\ described requests schedule logs n g.

Lemma simulated_described requests started g w schedule logs n :
  simulated requests started g w -> logs n = log w -> (forall n0, (n0 <= n)%nat -> (length (logs n0) <= length (log w))%nat) ->
  (forall t s n0, started !! t = Some (Some s) -> (n0 <= n)%nat -> unmoved t (take n0 schedule) -> (length (logs n0) <= s)%nat) ->
  described requests schedule logs n g.
Proof.
  intros Hs Hl Hlen Hst. pose proof (sm_inv _ _ _ _ Hs) as Hi. unfold described. rewrite Hl.
  split; [apply (inv_c _ _ _ Hi)|]. split; [apply (sm_log _ _ _ _ Hs)|].
  split; [rewrite (sm_memory _ _ _ _ Hs); by eapply contents_log|].
  intros t qs answers n0 Hqs Hp Hn0 Hu. eapply simulated_answers; [exact Hs|done|done|by apply Hlen|].
  intros s Ht. by apply (Hst t s n0).
Qed.

Lemma run_recorded requests schedule s0 w0 :
  mem w0 = s0 -> Inv w0 -> log w0 = [] ->
  let g0 := MkConfig s0 (server <$> requests) in
  mild schedule g0 = true -> exists logs, recorded requests schedule g0 logs.
Proof.
  intros Hm0 Hi0 Hl0 g0.
  enough (mild schedule g0 = true -> exists logs g w started, recorded requests schedule g0 logs /\
    run schedule g0 = Ok g /\ simulated requests started g w /\ logs (length schedule) = log w /\
    forall t s, started !! t = Some (Some s) -> forall n, (n <= length schedule)%nat -> unmoved t (take n schedule) ->
      (n < length schedule)%nat /\ (length (logs n) <= s)%nat)
    as H by (intros Hmild; destruct (H Hmild) as (logs & _ & _ & _ & Hr & _); by exists logs).
  induction schedule as [|[t c] schedule IH] using rev_ind; intros Hmild.
  - assert (simulated requests (replicate (length requests) None) g0 w0) as Hs.
    { constructor; [done|done|by rewrite Hl0; intros e ?%not_elem_of_nil|by cbn; rewrite length_fmap, length_replicate|]. cbn. intros t qs p st Hqs Hp Hst.
      apply lookup_replicate in Hst as [-> _]. rewrite list_lookup_fmap, Hqs in Hp. injection Hp as <-. split; [done|]. by rewrite Hl0. }
    exists (fun _ => []), g0, w0, (replicate (length requests) None). split; [|split; [done|split; [done|split; [done|]]]].
    + split; [done|]. split; [done|]. intros n _. exists g0. rewrite take_nil. split; [done|].
      apply (simulated_described requests _ g0 w0 [] (fun _ => [])  n Hs); [done|by intros; rewrite Hl0|].
      intros t s n0 Hst. by apply lookup_replicate in Hst as [? _].
    + intros t s Hst. by apply lookup_replicate in Hst as [? _].
  - destruct (mild_snoc schedule t c g0 g0 Hmild) as [Hmild0 _].
    destruct (IH Hmild0) as (logs & g & w & started & (Hnil & Hpre & Hfacts) & Hrun & Hsim & Hlog & Hstart).
    destruct (mild_snoc schedule t c g0 g Hmild) as [_ Hms].
    destruct (simulated_step requests started g w t c Hsim (Hms Hrun)) as (g' & w' & started' & Hstep & Hsim' & Hg & Hst').
    set (N := length schedule) in *. assert (length (schedule ++ [(t, c)]) = S N) as HN by (rewrite length_app; cbn; lia).
    assert (forall n, (n <= N)%nat -> take n (schedule ++ [(t, c)]) = take n schedule) as Htake.
    { intros n Hn. by rewrite take_app_le. }
    assert (take (S N) (schedule ++ [(t, c)]) = schedule ++ [(t, c)]) as Hall by (by rewrite <- HN, firstn_all).
    assert (forall n, (n <= N)%nat -> (length (logs n) <= length (log w))%nat) as Hlen.
    { intros n Hn. rewrite <- Hlog. apply prefix_length, Hpre. lia. }
    set (logs' := fun n => if decide (n <= N)%nat then logs n else log w').
    assert (forall n, (n <= N)%nat -> logs' n = logs n) as Hold by (intros n Hn; unfold logs'; by rewrite decide_True).
    assert (logs' (S N) = log w') as Hnew by (unfold logs'; rewrite decide_False by lia; done).
    assert (forall t' s n, started' !! t' = Some (Some s) -> (n <= S N)%nat -> unmoved t' (take n (schedule ++ [(t, c)])) ->
      (n < S N)%nat /\ (length (logs' n) <= s)%nat) as Hstart'.
    { intros t' s n Hs Hn Hu. destruct (Nat.le_gt_cases n N) as [Hle|Hgt].
      - rewrite Htake in Hu by done. rewrite Hold by done. split; [lia|]. destruct (Hst' t') as [He|(-> & _ & He)]; rewrite He in Hs.
        + by destruct (Hstart t' s Hs n Hle Hu).
        + injection Hs as <-. by apply Hlen.
      - exfalso. replace n with (S N) in Hu by lia. rewrite Hall in Hu. unfold unmoved in Hu. rewrite fmap_app, elem_of_app in Hu.
        destruct (Hst' t') as [He|(-> & _ & He)]; [|apply Hu; right; left]. rewrite He in Hs.
        destruct (Hstart t' s Hs N) as [? _]; [done| |lia]. unfold N. rewrite firstn_all. intros ?. apply Hu. by left. }
    exists logs', g', w', started'. rewrite HN. split; [split; [by rewrite Hold by lia|split; rewrite HN]|].
    + intros m n [Hmn Hn]. destruct (Nat.le_gt_cases n N) as [Hle|Hgt]; [rewrite !Hold by lia; by apply Hpre|].
      replace n with (S N) by lia. rewrite Hnew. destruct (Nat.le_gt_cases m N) as [Hle'|Hgt'].
      * rewrite Hold by done. trans (log w); [rewrite <- Hlog; apply Hpre; lia|]. destruct (gr_log _ _ Hg) as [ext ->]. by exists ext.
      * replace m with (S N) by lia. by rewrite Hnew.
    + intros n Hn. destruct (Nat.le_gt_cases n N) as [Hle|Hgt].
      * rewrite Htake by done. destruct (Hfacts n Hle) as (gn & Hr & Hs & He & Hc & Ha). exists gn.
        split; [done|]. unfold described. rewrite Hold by done. do 3 (split; [done|]). intros t' qs answers n0 Hqs Hp Hn0 Hu. rewrite Htake in Hu by lia.
        rewrite Hold by lia. by apply Ha.
      * replace n with (S N) by lia. rewrite Hall, run_app, Hrun. cbn. rewrite Hstep. exists g'. split; [done|].
        apply (simulated_described _ started' _ w'); [done|done| |].
        -- intros n0 Hn0. destruct (Nat.le_gt_cases n0 N) as [Hle|Hgt']; [|replace n0 with (S N) by lia; by rewrite Hnew].
           rewrite Hold by done. pose proof (Hlen n0 Hle). pose proof (log_grows _ _ Hg). lia.
        -- intros t' s' n0 Hs' Hn0 Hu. by apply (Hstart' t' s' n0 Hs' Hn0).
    + split; [rewrite run_app, Hrun; cbn; by rewrite Hstep|]. split; [done|]. split; [done|]. intros t' s Hs n. by apply Hstart'.
Qed.

End Runs.
