(* ===== verification/CtTheorems.v ===== *)
(** The theorems about the lock-free table: many threads, one thread, and the two ways
    in which memory is used after it was deleted. *)
From stdpp Require Import sorting.
From S2P Require Import Prelude Words Outcome SplitOrder Atomic Hazard Ct CtWorld CtMoves CtRules CtThreads CtRuns.

(** ** Definitions *)

(** An allocator: the lowest free address of 64. *)
Definition first_fit {V} (s : shared V) : Z :=
  default 0 (find (fun a => available a s) ((fun i => 16 * i) <$> seqZ 1 64)).

(** The schedule of given turns, with the addresses that [malloc] returns and without
    spurious failures. *)
Fixpoint with_malloc {V A} (malloc : shared V -> Z) (turns : list nat) (g : config V A) : list (nat * Z) :=
  match turns with
  | [] => []
  | t :: turns =>
    let c := match threads g !! t with Some (Act (New _) _) => malloc (memory_of g) | _ => 0 end in
    (t, c) :: match step t c g with Ok g => with_malloc malloc turns g | _ => [] end
  end.

(** A table after its constructor, and threads that use it. *)
Definition started_with {V A} (ts : list (prog V A)) : config V A :=
  match alone first_fit (CT new_Reclaimer) (static_memory 16 0) with
  | Ok (_, _, s) => MkConfig s ts
  | _ => MkConfig (static_memory 16 0) []
  end.

(** *** A map that answers requests *)

Section Map.
Context {V : Type}.
Implicit Types (m : gmap Z V).

Definition map_answer m (q : request V) (a : answer V) : Prop :=
  match q, a with
  | RInsert k _, AInsert b => b = bool_decide (m !! k = None)
  | RDelete k, ADelete b => b = bool_decide (is_Some (m !! k))
  | RFind k, AFind y => y = m !! k
  | RSize, ASize _ => True
  | _, _ => False
  end.

Definition map_after m (q : request V) : gmap Z V :=
  match q with
  | RInsert k x => <[k := x]> m
  | RDelete k => delete k m
  | _ => m
  end.

Definition map_answers m (qs : list (request V)) (answers : list (answer V)) : Prop :=
  length answers = length qs /\
  forall i q a, qs !! i = Some q -> answers !! i = Some a -> map_answer (foldl map_after m (take i qs)) q a.

End Map.

(** ** One thread *)

Section OneThread.
Context {V : Type}.
Implicit Types (s e : nat) (l : list (nat * change V)) (k : Z) (x : V).

(** Where every change is that of the thread, the changes of a period are its own. *)
Lemma own_all s l : (forall c, c ∈ l -> fst c = 0%nat) -> own 0 s l = snd <$> drop s l.
Proof.
  intros H. assert (forall c, c ∈ drop s l -> fst c = 0%nat) as Hd by (intros c [i Hi]%list_elem_of_lookup; rewrite lookup_drop in Hi; by eapply H, list_elem_of_lookup_2).
  unfold own. induction (drop s l) as [|c l' IH]; [done|]. cbn. rewrite decide_True by (apply Hd; left). cbn. f_equal.
  apply IH. intros c' Hc'. apply Hd. by right.
Qed.

Lemma no_change s l : (s <= length l)%nat -> snd <$> drop s l = ([] : list (change V)) -> take s l = l.
Proof. intros Hs Hd%fmap_nil_inv. rewrite <- (take_drop s l) at 2. by rewrite Hd, app_nil_r. Qed.

Lemma single_change s l c : (s <= length l)%nat -> snd <$> drop s l = [c] -> exists t, l = take s l ++ [(t, c)] /\ l !! s = Some (t, c).
Proof.
  intros Hs Hd. destruct (drop s l) as [|[t c'] [|]] eqn:He; try done. injection Hd as ->. exists t.
  rewrite <- He, take_drop. split; [done|]. replace s with (s + 0)%nat by lia. by rewrite <- lookup_drop, He.
Qed.

Lemma replay_change s l t c : l = take s l ++ [(t, c)] -> replay l = apply_change (replay (take s l)) c.
Proof. intros He. rewrite He at 1. by rewrite replay_snoc. Qed.

(** One request. *)
Lemma one_answer s l q (a : answer V) :
  (forall c, c ∈ l -> fst c = 0%nat) -> sound_log l -> (s <= length l)%nat -> explained 0 s l q a ->
  map_answer (replay (take s l)) q a /\ replay l = map_after (replay (take s l)) q.
Proof.
  intros H0 Hsnd Hs. unfold explained. rewrite own_all by done.
  assert (forall P, at_moment s l P -> take s l = l -> P (replay (take s l))) as Hmoment.
  { intros P (i & Hi & HP) He. assert (length (take s l) = length l) as Hlen by (by rewrite He). rewrite length_take in Hlen.
    by replace s with i by lia. }
  assert (forall k x, came_late s l k x -> forall c, snd <$> drop s l = [c] -> False) as Hlate.
  { intros k x (i & j & t1 & t2 & Hij & Hi & Hj) c Hc%(f_equal length). rewrite length_fmap, length_drop in Hc.
    apply lookup_lt_Some in Hj. cbn in Hc. lia. }
  destruct q as [k x|k|k|], a as [[]|[]|[x'|]|n]; try done; cbn [map_answer map_after].
  - intros Hc. destruct (single_change s l _ Hs Hc) as (t & He & Hl). rewrite (replay_change s l t _ He).
    pose proof (Hsnd _ _ _ Hl) as Hn. cbn in Hn. by rewrite bool_decide_true.
  - intros [Hc|[Hc Hla]]; [|by destruct (Hlate _ _ Hla _ Hc)]. destruct (single_change s l _ Hs Hc) as (t & He & Hl).
    rewrite (replay_change s l t _ He). pose proof (Hsnd _ _ _ Hl) as [y Hn]. by rewrite Hn, bool_decide_false.
  - intros Hc. destruct (single_change s l _ Hs Hc) as (t & He & Hl). rewrite (replay_change s l t _ He).
    pose proof (Hsnd _ _ _ Hl) as Hn. by rewrite bool_decide_true.
  - intros [Hc Hm]. pose proof (no_change s l Hs Hc) as He. pose proof (Hmoment _ Hm He) as Hn. cbn in Hn.
    rewrite Hn, bool_decide_false by (by intros [? ?]). split; [done|]. rewrite He in *. by rewrite delete_id.
  - intros [Hc [Hm|Hla]]; pose proof (no_change s l Hs Hc) as He.
    + pose proof (Hmoment _ Hm He) as Hn. cbn in Hn. by rewrite Hn, He.
    + destruct Hla as (i & j & t1 & t2 & Hij & _ & Hj%lookup_lt_Some). apply (f_equal length) in He. rewrite length_take in He. lia.
  - intros [Hc Hm]. pose proof (no_change s l Hs Hc) as He. pose proof (Hmoment _ Hm He) as Hn. cbn in Hn. by rewrite Hn, He.
  - intros Hc. by rewrite (no_change s l Hs Hc).
Qed.

Lemma sound_log_take e l : sound_log l -> sound_log (take e l).
Proof.
  intros Hs i t c Hi. apply lookup_take_Some in Hi as [Hi Hlt]. specialize (Hs i t c Hi).
  rewrite take_take. by replace (i `min` e)%nat with i by lia.
Qed.

Lemma all_answers s l qs (answers : list (answer V)) :
  (forall c, c ∈ l -> fst c = 0%nat) -> sound_log l -> (s <= length l)%nat -> explained_all 0 s l qs answers ->
  map_answers (replay (take s l)) qs answers /\ replay l = foldl map_after (replay (take s l)) qs.
Proof.
  intros H0 Hsnd. revert s answers. induction qs as [|q qs IH]; intros s [|a answers] Hs; cbn [explained_all]; try done.
  - rewrite own_all by done. intros Hc. split; [|by rewrite (no_change s l Hs Hc)]. split; [done|]. intros i q a Hi. by destruct i.
  - intros (e & He & Hq & Hqs). destruct (one_answer s (take e l) q a) as [Ha Hr].
    { intros c (i & Hi & _)%elem_of_take. by eapply H0, list_elem_of_lookup_2. }
    { by apply sound_log_take. }
    { rewrite length_take. lia. }
    { done. }
    rewrite take_take in Ha, Hr. replace (s `min` e)%nat with s in Ha, Hr by lia.
    destruct (IH e answers) as [[Hlen Hall] Hrest]; [lia|done|]. rewrite Hr in Hall, Hrest. split; [|done].
    split; [cbn; lia|]. intros [|i] q' a' Hq' Ha'; cbn in *; [congruence|by apply (Hall i)].
Qed.

End OneThread.

(** ** Allocation *)

Lemma first_fit_roomy {V} : roomy (V := V) first_fit.
Proof.
  intros s Hs. unfold first_fit. destruct (find _ _) as [a|] eqn:Hf; [by apply find_some in Hf as [_ ?]|].
  assert (forall a, a ∈ [16; 32; 48; 64; 80] -> a ∈ dom (objs s)) as Hin.
  { intros a Ha. pose proof (find_none _ _ Hf a) as Hn.
    assert (In a ((fun i => 16 * i) <$> seqZ 1 64)) as Hi.
    { apply list_elem_of_In, list_elem_of_fmap. exists (a / 16).
      assert (a mod 16 = 0 /\ 16 <= a <= 80) as [Hm Hr] by (rewrite !elem_of_cons in Ha; destruct Ha as [->|[->|[->|[->|[->|Ha]]]]]; [done..|by apply not_elem_of_nil in Ha]).
      pose proof (Z.div_mod a 16 ltac:(lia)). split; [lia|]. apply elem_of_seqZ. lia. }
    specialize (Hn Hi). apply elem_of_dom. destruct (objs s !! a) eqn:Ho; [done|]. unfold available in Hn. rewrite Ho, bool_decide_true in Hn by done.
    rewrite !elem_of_cons in Ha. destruct Ha as [->|[->|[->|[->|[->|Ha]]]]]; [done..|by apply not_elem_of_nil in Ha]. }
  assert (base.size (list_to_set (C := gset Z) [16; 32; 48; 64; 80]) = 5%nat) as H5 by reflexivity.
  assert (list_to_set [16; 32; 48; 64; 80] ⊆ dom (objs s)) as Hsub by (intros a Ha%elem_of_list_to_set; by apply Hin).
  apply subseteq_size in Hsub. rewrite H5, size_dom in Hsub. lia.
Qed.

(** ** Many threads *)

(** C3. Any number of threads may use a table at once. As long as nothing is reclaimed and
    the table stays within its maximum, no schedule makes a thread fail, whatever the
    addresses and the spurious failures are. There is a log of the changes of the map
    that grows with the turns, in which keys are added when they are absent and replaced
    or removed when they are present, and the entries that can be read off the memory
    after each turn are those of the map that the log describes. The answers of a thread
    that has finished are explained one after the other: an insertion or a removal is one
    change of the log, made while it ran, and an answer without a change was right at a
    moment while it ran. *)
Theorem concurrent_table {V} (hash_func_ : Z -> Z) (fuel : nat) (malloc : shared V -> Z) (hp flag : Z) :
  (forall k, 0 <= hash_func_ k < 2 ^ 64) -> roomy malloc -> address hp ->
  exists head_ s0, alone malloc (CT new_Reclaimer) (static_memory hp flag) = Ok (head_, new_Reclaimer, s0) /\
    forall requests schedule,
      let g0 := MkConfig s0 (serving hash_func_ fuel <$> requests) in
      mild schedule g0 = true -> exists logs, recorded head_ requests schedule g0 logs.
Proof.
  intros Hhash Hm Hhp. destruct (constructor hash_func_ malloc hp flag Hm Hhp) as (s1 & s2 & b & h & Hnd & Had & Hc).
  exists h, (first_memory hp flag s1 s2 b h). split; [done|]. intros requests schedule g0 Hmild.
  apply (run_recorded hash_func_ h fuel Hhash requests schedule _ (first_world hp flag s1 s2 b h)); [done|by apply first_inv|done|done].
Qed.

Definition id_64 (k : Z) : Z := wrap 64 k.

Definition example_requests : list (list (request Z)) :=
  [[RInsert 1 10; RDelete 2; RFind 1]; [RInsert 2 20; RInsert 1 30; RFind 2]].

Definition example_start : config Z (list (answer Z)) := started_with (serving id_64 20 <$> example_requests).

(** The threads take three turns each at a time. *)
Definition example_schedule : list (nat * Z) :=
  with_malloc first_fit (concat (replicate 60 [0; 0; 0; 1; 1; 1]%nat)) example_start.

Definition finished {V A} (g : outcome (config V A)) : option (list A) :=
  match g with Ok g => mapM (fun p => match p with Ret a => Some a | _ => None end) (threads g) | _ => None end.

Lemma concurrent_table_witness :
  mild example_schedule example_start = true /\
  finished (run example_schedule example_start) =
    Some [[AInsert true; ADelete true; AFind (Some 30)]; [AInsert true; AInsert false; AFind (Some 20)]] /\
  exists head_ logs, recorded head_ example_requests example_schedule example_start logs.
Proof.
  assert (mild example_schedule example_start = true) as Hm by (vm_compute; reflexivity). split; [exact Hm|].
  split; [vm_compute; reflexivity|].
  destruct (concurrent_table (V := Z) id_64 20 first_fit 16 0) as (h & s0 & Hs & H).
  - intros k. apply wrap_range. lia.
  - apply first_fit_roomy.
  - split; [lia|reflexivity].
  - exists h. assert (example_start = MkConfig s0 (serving id_64 20 <$> example_requests)) as He by (unfold example_start, started_with; by rewrite Hs).
    rewrite He in Hm |- *. by apply H.
Defined.

(** ** One thread *)

(** A table that one thread uses is a map in every run of [step], spurious failures of weak
    exchanges included: whenever the thread has finished, its answers are those of the map,
    and the table holds what the map holds. *)
Theorem one_thread_schedules {V} (hash_func_ : Z -> Z) (fuel : nat) (malloc : shared V -> Z) (hp flag : Z) :
  (forall k, 0 <= hash_func_ k < 2 ^ 64) -> roomy malloc -> address hp ->
  exists head_ s0, alone malloc (CT new_Reclaimer) (static_memory hp flag) = Ok (head_, new_Reclaimer, s0) /\
    forall qs schedule g answers,
      let g0 := MkConfig s0 [serving hash_func_ fuel qs] in
      mild schedule g0 = true -> run schedule g0 = Ok g -> threads g = [Ret answers] ->
      map_answers ∅ qs answers /\ contents (memory_of g) head_ = foldl map_after ∅ qs.
Proof.
  intros Hhash Hm Hhp. destruct (constructor hash_func_ malloc hp flag Hm Hhp) as (s1 & s2 & b & h & Hnd & Had & Hc).
  exists h, (first_memory hp flag s1 s2 b h). split; [done|]. intros qs schedule g answers g0 Hmild Hrun Hth.
  destruct (run_recorded hash_func_ h fuel Hhash [qs] schedule (first_memory hp flag s1 s2 b h) (first_world hp flag s1 s2 b h)) as (logs & Hnil & _ & Hd);
    [done|by apply first_inv|done|done|].
  destruct (Hd (length schedule) ltac:(done)) as (g' & Hr & Hsnd & Hev & Hcont & Hans). rewrite firstn_all in Hr.
  change (MkConfig (first_memory hp flag s1 s2 b h) (serving hash_func_ fuel <$> [qs])) with g0 in Hr.
  assert (g' = g) as -> by congruence. rewrite Hcont.
  pose proof (Hans 0%nat qs answers 0%nat eq_refl ltac:(by rewrite Hth) ltac:(lia) ltac:(by intros ?%not_elem_of_nil)) as Hall.
  rewrite Hnil in Hall. apply (all_answers 0 (logs (length schedule))) in Hall; [done| |done|cbn; lia].
  intros c Hc'. specialize (Hev c Hc'). cbn in Hev. lia.
Qed.

Definition one_requests : list (request Z) :=
  [RInsert 4 40; RInsert 2 20; RInsert 6 60; RInsert 2 21; RDelete 4; RFind 2; RFind 4].
Definition one_start : config Z (list (answer Z)) := started_with [serving id_64 20 one_requests].
Definition one_schedule : list (nat * Z) := with_malloc first_fit (replicate 250 0%nat) one_start.

Lemma finished_Ok {V A} (o : outcome (config V A)) l : finished o = Some l -> exists g, o = Ok g /\ threads g = Ret <$> l.
Proof.
  destruct o as [[m ts]| | |]; try done. cbn. intros H. eexists. split; [done|]. cbn. revert l H.
  induction ts as [|p ts IH]; intros l H; cbn in H; [by injection H as <-|].
  apply bind_Some in H as (a & Ha & (l' & Hl & [= <-])%bind_Some). destruct p; try done. injection Ha as ->. cbn. by rewrite (IH l').
Qed.

Lemma one_thread_schedules_witness :
  finished (run one_schedule one_start) =
    Some [[AInsert true; AInsert true; AInsert true; AInsert false; ADelete true; AFind (Some 21); AFind None]] /\
  exists head_ g, run one_schedule one_start = Ok g /\ contents (memory_of g) head_ = <[2 := 21]> {[6 := 60]}.
Proof.
  assert (mild one_schedule one_start = true) as Hm by (vm_compute; reflexivity).
  assert (finished (run one_schedule one_start) =
    Some [[AInsert true; AInsert true; AInsert true; AInsert false; ADelete true; AFind (Some 21); AFind None]]) as Hr by (vm_compute; reflexivity).
  split; [exact Hr|].
  destruct (one_thread_schedules (V := Z) id_64 20 first_fit 16 0) as (h & s0 & Hs & H).
  - intros k. apply wrap_range. lia.
  - apply first_fit_roomy.
  - split; [lia|reflexivity].
  - assert (one_start = MkConfig s0 [serving id_64 20 one_requests]) as He by (unfold one_start, started_with; by rewrite Hs).
    destruct (finished_Ok _ _ Hr) as (g & Hrun & Ht). exists h, g. split; [exact Hrun|]. rewrite He in Hm, Hrun.
    destruct (H _ _ g _ Hm Hrun Ht) as [_ Hc]. rewrite Hc. vm_compute. reflexivity.
Defined.

(** ** Memory that is used after it was deleted *)

(** The object that the next action of a thread reads. *)
Definition next_access {V A} (p : prog V A) : option Z :=
  match p with
  | Act (Load (Next a)) _ | Act (Load (Value a)) _ | Act (Fields a) _ | Act (Deref a) _ => Some a
  | _ => None
  end.

(** Thread [t] is about to read an object that is not there. *)
Definition dangling {V A} (t : nat) (g : outcome (config V A)) : bool :=
  match g with
  | Ok g =>
    match threads g !! t ≫= next_access with
    | Some a => bool_decide (objs (memory_of g) !! a = None)
    | None => false
    end
  | _ => false
  end.

Definition find_start : config Z (list (answer Z)) :=
  started_with [thread_main id_64 20 [RFind 1]; thread_main id_64 20 [RInsert 1 1; RInsert 1 2]].

(** Thread 1 has inserted the key, thread 0 has read the address of its value, and
    thread 1 has inserted the key again and has ended. *)
Definition find_schedule : list (nat * Z) :=
  with_malloc first_fit (replicate 26 1 ++ replicate 19 0 ++ replicate 100 1)%nat find_start.


Definition delete_start : config Z (list (answer Z)) :=
  started_with [thread_main (fun _ => 0) 40 [RDelete 2];
    thread_main (fun _ => 0) 40 ([RInsert 1 1; RInsert 2 2; RFind 2] ++ replicate 12 (RInsert 3 7) ++ [RDelete 1])].

Definition delete_schedule : list (nat * Z) :=
  with_malloc first_fit (replicate 38 1 ++ replicate 39 0 ++ replicate 49 1 ++ replicate 12 0 ++ replicate 500 1)%nat delete_start.

