(* ===== verification/Solo.v ===== *)
(** A separation logic for a thread that runs alone on the lock-free table: the
    assertions own atomic variables, objects and the right to allocate, and the
    specifications are of total correctness. A program of atomic actions is a finite
    tree, so its weakest precondition is a structural recursion, and a proof shows that
    the program reaches its end: no fault, no failed assertion, no loop out of fuel. *)
From iris.algebra Require Import auth numbers.
From iris.base_logic.lib Require Import ghost_map.
From iris.proofmode Require Import proofmode.
From S2P Require Import Prelude Words Outcome SplitOrder Atomic Hazard.

#[global] Open Scope Z_scope.

(** ** Resources *)

Class soloGS (V : Type) (Σ : gFunctors) := SoloGS {
  #[local] solo_atoms :: ghost_mapG Σ loc Z;
  #[local] solo_objs :: ghost_mapG Σ Z (obj V);
  #[local] solo_room :: inG Σ (authR natUR);
  atoms_name : gname;
  objs_name : gname;
  room_name : gname;
}.

Class soloGpreS (V : Type) (Σ : gFunctors) := {
  #[local] solo_pre_atoms :: ghost_mapG Σ loc Z;
  #[local] solo_pre_objs :: ghost_mapG Σ Z (obj V);
  #[local] solo_pre_room :: inG Σ (authR natUR);
}.

Definition soloΣ (V : Type) : gFunctors := #[ghost_mapΣ loc Z; ghost_mapΣ Z (obj V); GFunctor (authR natUR)].

#[global] Instance subG_soloGpreS {V Σ} : subG (soloΣ V) Σ -> soloGpreS V Σ.
Proof. solve_inG. Qed.

(** The object that an atomic variable is a member of. *)
Definition owner (l : loc) : option Z :=
  match l with
  | Next a | Value a | Data a _ | BucketAt a _ | HpFlag a | HpPtr a | HpNext a => Some a
  | _ => None
  end.

(** An address that [new] returns. *)
Definition aligned (a : Z) : Prop := 0 < a < 2 ^ 64 /\ a mod 16 = 0.

Section Solo.
Context {V : Type} `{!soloGS V Σ}.

Definition atom_pt (l : loc) (x : Z) : iProp Σ := l ↪[atoms_name] x.
Definition obj_pt (a : Z) (o : obj V) : iProp Σ := a ↪[objs_name] o.

(** The right to make [n] objects. *)
Definition room (n : nat) : iProp Σ := own room_name (◯ n).

#[export] Instance atom_pt_timeless l x : Timeless (atom_pt l x).
Proof. unfold atom_pt. apply _. Qed.
#[export] Instance obj_pt_timeless a o : Timeless (obj_pt a o).
Proof. unfold obj_pt. apply _. Qed.

(** An atomic variable is a member of an object that is there, or a variable of the
    table. *)
Definition members_of_objects (s : shared V) : Prop :=
  forall l a, is_Some (atoms s !! l) -> owner l = Some a -> exists o, objs s !! a = Some o /\ l ∈ members a o.

Definition no_more_than (limit : nat) (s : shared V) (n : nat) : Prop := (base.size (objs s) + n <= limit)%nat.

Context (limit : nat).

Definition memory (s : shared V) : iProp Σ :=
  ghost_map_auth atoms_name 1 (atoms s) ∗ ghost_map_auth objs_name 1 (objs s) ∗
  (∃ n, own room_name (● n) ∗ ⌜no_more_than limit s n⌝) ∗ ⌜members_of_objects s⌝.

(** ** Weakest preconditions *)

(** The choice that an action has when nothing fails spuriously. *)
Definition choice {X} (e : act V X) (c : Z) (s : shared V) : Prop :=
  match e with New _ => available c s = true | _ => c = 0 end.

(** There is an address to choose. *)
Definition choosable {X} (e : act V X) (s : shared V) : Prop :=
  match e with New _ => (base.size (objs s) < limit)%nat | _ => True end.

Fixpoint wp {A} (p : prog V A) (Φ : A -> iProp Σ) : iProp Σ :=
  match p with
  | Ret a => |==> Φ a
  | @Act _ _ X e k => ∀ s, memory s ==∗ ⌜choosable e s⌝ ∗ ∀ c, ⌜choice e c s⌝ -∗
      ∃ x s', ⌜exec e c s = Ok (x, s')⌝ ∗ |==> (memory s' ∗ wp (k x) Φ)
  | _ => False
  end.

(** A program of a thread with a reclaimer. *)
Definition solo {A} (m : thread V A) (r : Reclaimer) (Φ : A -> Reclaimer -> iProp Σ) : iProp Σ :=
  wp (m r) (fun '(a, r') => Φ a r').

Lemma solo_wp_mono {A} (p : prog V A) Φ Ψ : (∀ a, Φ a -∗ Ψ a) -∗ wp p Φ -∗ wp p Ψ.
Proof.
  iIntros "HΦ Hp". iInduction p as [a|X e k IH| | |] "IH" forall (Φ); cbn [wp].
  - iMod "Hp". iModIntro. by iApply "HΦ".
  - iIntros (s) "Hs". iMod ("Hp" with "Hs") as "[$ Hp]". iModIntro. iIntros (c Hc).
    iDestruct ("Hp" $! c Hc) as (x s') "[$ >[Hs' Hp]]". iModIntro. iFrame "Hs'". iApply ("IH" with "HΦ Hp").
  - done.
  - done.
  - done.
Qed.

Lemma solo_wp_bind {A B} (p : prog V A) (f : A -> prog V B) Φ : wp p (fun a => wp (f a) Φ) -∗ wp (bind p f) Φ.
Proof.
  iIntros "Hp". iInduction p as [a|X e k IH| | |] "IH"; cbn [wp bind].
  - destruct (f a) as [b|X e k| | |]; cbn [wp]; [by iMod "Hp"| |by iMod "Hp"..].
    iIntros (s) "Hs". iMod "Hp". by iApply "Hp".
  - iIntros (s) "Hs". iMod ("Hp" with "Hs") as "[$ Hp]". iModIntro. iIntros (c Hc).
    iDestruct ("Hp" $! c Hc) as (x s') "[$ >[Hs' Hp]]". iModIntro. iFrame "Hs'". iApply ("IH" with "Hp").
  - done.
  - done.
  - done.
Qed.

(** ** Rules of threads *)

Lemma solo_mono {A} (m : thread V A) r Φ Ψ : (∀ a r', Φ a r' -∗ Ψ a r') -∗ solo m r Φ -∗ solo m r Ψ.
Proof. iIntros "H Hm". iApply (solo_wp_mono with "[H] Hm"). iIntros ([a r']) "Ha". by iApply "H". Qed.

Lemma solo_bind {A B} (m : thread V A) (f : A -> thread V B) r Φ :
  solo m r (fun a r' => solo (f a) r' Φ) -∗ solo (m ≫= f) r Φ.
Proof.
  iIntros "Hm". unfold solo, mbind, thread_bind. iApply solo_wp_bind. iApply (solo_wp_mono with "[] Hm").
  iIntros ([a r']) "Ha". done.
Qed.

Lemma solo_ret {A} (a : A) r Φ : Φ a r -∗ solo (mret a) r Φ.
Proof. iIntros "H". cbn. by iModIntro. Qed.

Lemma solo_reclaimer r Φ : Φ r r -∗ solo reclaimer r Φ.
Proof. iIntros "H". cbn. by iModIntro. Qed.

Lemma solo_set_reclaimer r r' Φ : Φ () r' -∗ solo (set_reclaimer r') r Φ.
Proof. iIntros "H". cbn. by iModIntro. Qed.

Lemma solo_assert (b : bool) r Φ : b = true -> Φ () r -∗ solo (assertT b) r Φ.
Proof. iIntros (->) "H". by iApply solo_ret. Qed.

Lemma solo_bupd {A} (m : thread V A) r Φ : (|==> solo m r Φ) -∗ solo m r Φ.
Proof.
  iIntros "H". unfold solo. destruct (m r) as [a|X e k| | |]; cbn [wp]; [by iMod "H"| |by iMod "H"..].
  iIntros (s) "Hs". iMod "H". by iApply "H".
Qed.

(** ** The memory and its parts *)

Lemma memory_atom s l x : memory s -∗ atom_pt l x -∗ ⌜atoms s !! l = Some x⌝.
Proof. iIntros "(Ha & _) Hl". by iApply (ghost_map_lookup with "Ha Hl"). Qed.

Lemma memory_obj s a o : memory s -∗ obj_pt a o -∗ ⌜objs s !! a = Some o⌝.
Proof. iIntros "(_ & Ho & _) Hl". by iApply (ghost_map_lookup with "Ho Hl"). Qed.

Lemma memory_set s l x y : memory s -∗ atom_pt l x ==∗ memory (set_atom l y s) ∗ atom_pt l y.
Proof.
  iIntros "Hs Hl". iDestruct (memory_atom with "Hs Hl") as %Hx. iDestruct "Hs" as "(Ha & $ & $ & %Hm)".
  iMod (ghost_map_update y with "Ha Hl") as "[$ $]". iModIntro. iPureIntro. intros l' a Hl' Ho. apply Hm; [|done].
  cbn in Hl'. destruct (decide (l' = l)) as [->|Hne]; [by exists x|]. by rewrite lookup_insert_ne in Hl'.
Qed.

Lemma foldr_insert_other (ls : list loc) (m : gmap loc Z) l :
  l ∉ ls -> foldr (fun l => <[l := 0]>) m ls !! l = m !! l.
Proof.
  induction ls as [|l' ls IH]; intros Hl; [done|]. apply not_elem_of_cons in Hl as [Hne Hl]. cbn.
  rewrite lookup_insert_ne; [by apply IH|done].
Qed.

Lemma atoms_new (ls : list loc) (m : gmap loc Z) :
  NoDup ls -> (forall l, l ∈ ls -> m !! l = None) ->
  ghost_map_auth atoms_name 1 m ==∗
  ghost_map_auth atoms_name 1 (foldr (fun l => <[l := 0]>) m ls) ∗ [∗ list] l ∈ ls, atom_pt l 0.
Proof.
  intros Hnd Hf. iIntros "Hm". iInduction ls as [|l ls IH] "IH"; cbn; [by iFrame|].
  apply NoDup_cons in Hnd as [Hl Hnd]. iMod ("IH" with "[//] [%] Hm") as "[Hm $]".
  { intros l' Hl'. apply Hf. by right. }
  iMod (ghost_map_insert l 0 with "Hm") as "[$ $]"; [|done]. rewrite foldr_insert_other; [apply Hf; left|done].
Qed.

Lemma atoms_gone (ls : list loc) (m : gmap loc Z) :
  ghost_map_auth atoms_name 1 m -∗ ([∗ list] l ∈ ls, ∃ x, atom_pt l x) ==∗
  ghost_map_auth atoms_name 1 (foldr delete m ls).
Proof.
  iIntros "Hm Hls". iInduction ls as [|l ls IH] "IH"; cbn; [done|]. iDestruct "Hls" as "[[%x Hl] Hls]".
  iMod ("IH" with "Hm Hls") as "Hm". by iMod (ghost_map_delete with "Hm Hl") as "$".
Qed.

Lemma members_NoDup a (o : obj V) : NoDup (members a o).
Proof.
  assert (NoDup indices) as Hi by (apply NoDup_fmap; [apply _|apply NoDup_seq]).
  destruct o as [n| | | |]; cbn [members].
  - destruct (IsDummy n); repeat constructor; set_solver.
  - constructor.
  - apply NoDup_fmap; [|done]. by intros ?? [=].
  - apply NoDup_fmap; [|done]. by intros ?? [=].
  - repeat constructor; set_solver.
Qed.

Lemma members_owned a (o : obj V) l : l ∈ members a o -> owner l = Some a.
Proof.
  destruct o as [n| | | |]; cbn [members].
  - destruct (IsDummy n); rewrite ?elem_of_cons elem_of_nil; naive_solver.
  - by rewrite elem_of_nil.
  - intros (i & -> & _)%list_elem_of_fmap. done.
  - intros (i & -> & _)%list_elem_of_fmap. done.
  - rewrite !elem_of_cons elem_of_nil. naive_solver.
Qed.

Lemma foldr_insert_Some (ls : list loc) (m : gmap loc Z) l :
  is_Some (foldr (fun l => <[l := 0]>) m ls !! l) -> l ∈ ls \/ is_Some (m !! l).
Proof.
  induction ls as [|l' ls IH]; cbn; [by right|]. destruct (decide (l = l')) as [->|Hne]; [left; left|].
  rewrite lookup_insert_ne; [|done]. intros [?|?]%IH; [left; by right|by right].
Qed.

Lemma foldr_delete_Some (ls : list loc) (m : gmap loc Z) l :
  is_Some (foldr delete m ls !! l) -> l ∉ ls /\ is_Some (m !! l).
Proof.
  induction ls as [|l' ls IH]; cbn; [intros ?; split; [apply not_elem_of_nil|done]|].
  destruct (decide (l = l')) as [->|Hne]; [rewrite lookup_delete_eq; by intros [? [=]]|].
  rewrite lookup_delete_ne; [|done]. intros [Hn ?]%IH. split; [|done]. rewrite not_elem_of_cons. done.
Qed.

(** A new object, with the right for one used. *)
Lemma memory_new s a o :
  available a s = true -> memory s -∗ room 1 ==∗
  memory (allocate a o s) ∗ obj_pt a o ∗ [∗ list] l ∈ members a o, atom_pt l 0.
Proof.
  intros Hav. iIntros "(Ha & Ho & (%n & Hn & %Hlim) & %Hm) Hr".
  assert (objs s !! a = None) as Hnone.
  { unfold available in Hav. apply andb_true_iff in Hav as [_ ?]. by eapply bool_decide_eq_true_1. }
  iDestruct (own_valid_2 with "Hn Hr") as %[Hle%nat_included _]%auth_both_valid_discrete.
  iMod (own_update_2 with "Hn Hr") as "Hn".
  { apply (auth_update_dealloc _ _ (n - 1)%nat). apply nat_local_update. change (ε : nat) with 0%nat. lia. }
  iMod (ghost_map_insert a o with "Ho") as "[Ho $]"; [done|].
  iMod (atoms_new (members a o) with "Ha") as "[Ha $]"; [apply members_NoDup| |].
  { intros l Hl. apply eq_None_not_Some. intros Hs. destruct (Hm l a Hs (members_owned _ _ _ Hl)) as (o' & Ho' & _). congruence. }
  iModIntro. iFrame "Ha Ho". iSplit.
  - iExists (n - 1)%nat. iFrame. iPureIntro. unfold no_more_than in *. cbn. rewrite map_size_insert_None; [lia|done].
  - iPureIntro. intros l b Hl Hb. cbn in *. apply foldr_insert_Some in Hl as [Hl|Hl].
    + rewrite (members_owned _ _ _ Hl) in Hb. injection Hb as <-. exists o. by rewrite lookup_insert_eq.
    + destruct (Hm l b Hl Hb) as (o' & Ho' & Hin). exists o'. split; [|done]. rewrite lookup_insert_ne; [done|congruence].
Qed.

(** An object less; the right to make one is given back. *)
Lemma memory_delete s a o :
  memory s -∗ obj_pt a o -∗ ([∗ list] l ∈ members a o, ∃ x, atom_pt l x) ==∗ memory (deallocate a o s) ∗ room 1.
Proof.
  iIntros "Hs Hp Hls". iDestruct (memory_obj with "Hs Hp") as %Hob. iDestruct "Hs" as "(Ha & Ho & (%n & Hn & %Hlim) & %Hm)".
  iMod (ghost_map_delete with "Ho Hp") as "Ho". iMod (atoms_gone with "Ha Hls") as "Ha".
  iMod (own_update _ _ (● (n + 1)%nat ⋅ ◯ 1%nat) with "Hn") as "[Hn $]"; [by apply auth_update_alloc, nat_local_update; rewrite right_id_L|].
  iModIntro. iFrame "Ha Ho". iSplit.
  - iExists (n + 1)%nat. iFrame. iPureIntro. unfold no_more_than in *. cbn.
    rewrite map_size_delete_Some; [|by exists o]. assert (base.size (objs s) <> 0%nat); [|lia].
    intros He%map_size_empty_inv. rewrite He in Hob. done.
  - iPureIntro. intros l b Hl Hb. cbn in *. apply foldr_delete_Some in Hl as [Hn Hl].
    destruct (Hm l b Hl Hb) as (o' & Ho' & Hin). exists o'. split; [|done].
    rewrite lookup_delete_ne; [done|]. intros <-. apply Hn. congruence.
Qed.

(** Rights to make objects are objects that are not there. *)
Lemma memory_room s n : memory s -∗ room n -∗ ⌜(base.size (objs s) + n <= limit)%nat⌝.
Proof.
  iIntros "(_ & _ & (%m & Hm & %Hlim) & _) Hr".
  iDestruct (own_valid_2 with "Hm Hr") as %[Hle%nat_included _]%auth_both_valid_discrete.
  iPureIntro. unfold no_more_than in Hlim. lia.
Qed.

(** ** Rules of actions *)

Lemma solo_load l x r Φ : atom_pt l x -∗ (atom_pt l x -∗ Φ x r) -∗ solo (load l) r Φ.
Proof.
  iIntros "Hl HΦ" (s) "Hs". iDestruct (memory_atom with "Hs Hl") as %Hx. iModIntro. iSplit; [done|].
  iIntros (c _). iExists x, s. cbn [exec]. rewrite Hx. iSplit; [done|]. iModIntro. iFrame "Hs". cbn [wp]. iModIntro. by iApply "HΦ".
Qed.

Lemma solo_store l x y r Φ : atom_pt l x -∗ (atom_pt l y -∗ Φ () r) -∗ solo (store l y) r Φ.
Proof.
  iIntros "Hl HΦ" (s) "Hs". iDestruct (memory_atom with "Hs Hl") as %Hx.
  iMod (memory_set _ _ _ y with "Hs Hl") as "[Hs Hl]". iModIntro. iSplit; [done|].
  iIntros (c _). iExists (), (set_atom l y s). cbn [exec]. rewrite Hx. iSplit; [done|]. iModIntro. iFrame "Hs". cbn [wp].
  iModIntro. by iApply "HΦ".
Qed.

(** A compare-and-exchange whose expectation is right succeeds. *)
Lemma solo_cas weak l x y r Φ :
  atom_pt l x -∗ (atom_pt l y -∗ Φ (true, x) r) -∗ solo (atomically (Cas weak l x y)) r Φ.
Proof.
  iIntros "Hl HΦ" (s) "Hs". iDestruct (memory_atom with "Hs Hl") as %Hx.
  iMod (memory_set _ _ _ y with "Hs Hl") as "[Hs Hl]". iModIntro. iSplit; [done|].
  iIntros (c ->). iExists (true, x), (set_atom l y s). cbn [exec]. rewrite Hx. cbn [deref mbind outcome_bind].
  rewrite Z.eqb_refl andb_false_r. iSplit; [done|]. iModIntro. iFrame "Hs". cbn [wp]. iModIntro. by iApply "HΦ".
Qed.

Lemma solo_exchange l x y r Φ :
  atom_pt l x -∗ (atom_pt l y -∗ Φ x r) -∗ solo (atomically (Exchange l y)) r Φ.
Proof.
  iIntros "Hl HΦ" (s) "Hs". iDestruct (memory_atom with "Hs Hl") as %Hx.
  iMod (memory_set _ _ _ y with "Hs Hl") as "[Hs Hl]". iModIntro. iSplit; [done|].
  iIntros (c _). iExists x, (set_atom l y s). cbn [exec]. rewrite Hx. iSplit; [done|]. iModIntro. iFrame "Hs". cbn [wp].
  iModIntro. by iApply "HΦ".
Qed.

Lemma solo_fetch_add w l x d r Φ :
  atom_pt l x -∗ (atom_pt l (wrap w (x + d)) -∗ Φ x r) -∗ solo (atomically (FetchAdd w l d)) r Φ.
Proof.
  iIntros "Hl HΦ" (s) "Hs". iDestruct (memory_atom with "Hs Hl") as %Hx.
  iMod (memory_set _ _ _ (wrap w (x + d)) with "Hs Hl") as "[Hs Hl]". iModIntro. iSplit; [done|].
  iIntros (c _). iExists x, (set_atom l (wrap w (x + d)) s). cbn [exec]. rewrite Hx. iSplit; [done|]. iModIntro.
  iFrame "Hs". cbn [wp]. iModIntro. by iApply "HΦ".
Qed.

Lemma solo_new o r Φ :
  room 1 -∗
  (∀ a, ⌜aligned a⌝ -∗ obj_pt a o -∗ ([∗ list] l ∈ members a o, atom_pt l 0) -∗ Φ a r) -∗
  solo (atomically (New o)) r Φ.
Proof.
  iIntros "Hr HΦ" (s) "Hs". iDestruct (memory_room with "Hs Hr") as %Hlt. iModIntro. iSplit; [iPureIntro; cbn; lia|]. iIntros (c Hc). iExists c, (allocate c o s). iSplit; [done|].
  iMod (memory_new s c o Hc with "Hs Hr") as "($ & Ho & Hls)". iModIntro. cbn [wp]. iModIntro.
  iApply ("HΦ" with "[%] Ho Hls"). cbn [choice] in Hc. unfold available in Hc.
  rewrite !andb_true_iff Z.ltb_lt Z.ltb_lt Z.eqb_eq in Hc. unfold aligned. tauto.
Qed.

Lemma solo_delete retired a o r Φ :
  obj_pt a o -∗ ([∗ list] l ∈ members a o, ∃ x, atom_pt l x) -∗ (room 1 -∗ Φ () r) -∗ solo (atomically (Delete retired a)) r Φ.
Proof.
  iIntros "Ho Hls HΦ" (s) "Hs". iDestruct (memory_obj with "Hs Ho") as %Hob.
  iMod (memory_delete with "Hs Ho Hls") as "[Hs Hr]". iModIntro. iSplit; [done|].
  iIntros (c _). iExists (), (deallocate a o s). cbn [exec]. rewrite Hob. iSplit; [done|]. iModIntro. iFrame "Hs". cbn [wp].
  iModIntro. by iApply "HΦ".
Qed.

Lemma solo_fields a n r Φ : obj_pt a (ONode n) -∗ (obj_pt a (ONode n) -∗ Φ n r) -∗ solo (atomically (Fields a)) r Φ.
Proof.
  iIntros "Ho HΦ" (s) "Hs". iDestruct (memory_obj with "Hs Ho") as %Hob. iModIntro. iSplit; [done|].
  iIntros (c _). iExists n, s. cbn [exec]. rewrite Hob. iSplit; [done|]. iModIntro. iFrame "Hs". cbn [wp]. iModIntro. by iApply "HΦ".
Qed.

Lemma solo_deref a x r Φ : obj_pt a (OValue x) -∗ (obj_pt a (OValue x) -∗ Φ x r) -∗ solo (atomically (Deref a)) r Φ.
Proof.
  iIntros "Ho HΦ" (s) "Hs". iDestruct (memory_obj with "Hs Ho") as %Hob. iModIntro. iSplit; [done|].
  iIntros (c _). iExists x, s. cbn [exec]. rewrite Hob. iSplit; [done|]. iModIntro. iFrame "Hs". cbn [wp]. iModIntro. by iApply "HΦ".
Qed.

(** Two owners of one object, or of one variable, do not exist. *)
Lemma obj_pt_ne a b o o' : obj_pt a o -∗ obj_pt b o' -∗ ⌜a <> b⌝.
Proof. iIntros "H1 H2". iApply (ghost_map_elem_ne with "H1 H2"). Qed.

Lemma room_split n m : room (n + m) ⊣⊢ room n ∗ room m.
Proof. unfold room. rewrite -own_op -auth_frag_op. done. Qed.

Lemma room_le n m : (m <= n)%nat -> room n -∗ room m.
Proof. intros Hle. replace n with (m + (n - m))%nat by lia. rewrite room_split. iIntros "[$ _]". Qed.

(** ** Soundness *)

(** [malloc] finds an address while there are less than [limit] objects. *)
Definition generous (malloc : shared V -> Z) : Prop :=
  forall s, (base.size (objs s) < limit)%nat -> available (malloc s) s = true.

Lemma wp_alone malloc {A} (p : prog V A) s Φ :
  generous malloc -> memory s -∗ wp p Φ ==∗ ∃ a s', ⌜alone malloc p s = Ok (a, s')⌝ ∗ memory s' ∗ Φ a.
Proof.
  iIntros (Hm) "Hs Hp". iInduction p as [a|X e k IH| | |] "IH" forall (s); cbn [wp]; try done.
  - iMod "Hp". iModIntro. iExists a, s. by iFrame.
  - iMod ("Hp" with "Hs") as "[%Hch Hp]".
    assert (choice e (match e with New _ => malloc s | _ => 0 end) s) as Hc.
    { destruct e; cbn in *; try done. by apply Hm. }
    iDestruct ("Hp" $! _ Hc) as (x s') "[%He >[Hs Hp]]". iMod ("IH" with "Hs Hp") as (a s2 Ha) "[Hs HΦ]".
    iModIntro. iExists a, s2. iFrame. iPureIntro. cbn [alone]. by rewrite He.
Qed.
End Solo.

(** A program that runs from a memory whose parts it owns. *)
Lemma wp_adequacy {V A} (limit : nat) (malloc : shared V -> Z) (p : prog V A) (s : shared V) (n : nat) (P : A -> shared V -> Prop) :
  generous limit malloc -> members_of_objects s -> (base.size (objs s) + n <= limit)%nat ->
  (forall Σ `{!soloGS V Σ}, ([∗ map] l ↦ x ∈ atoms s, atom_pt l x) -∗ ([∗ map] a ↦ o ∈ objs s, obj_pt a o) -∗
     room n -∗ wp limit p (fun a => ∀ s', memory limit s' -∗ ⌜P a s'⌝)) ->
  exists a s', alone malloc p s = Ok (a, s') /\ P a s'.
Proof.
  intros Hm Hs Hn Hwp. apply (pure_soundness (PROP := iPropI (soloΣ V))).
  iMod (ghost_map_alloc (atoms s)) as (γa) "[Ha Hat]". iMod (ghost_map_alloc (objs s)) as (γo) "[Ho Hob]".
  iMod (own_alloc (● n ⋅ ◯ n)) as (γr) "[Hr Hroom]"; [by apply auth_both_valid_discrete|].
  pose (G := SoloGS V (soloΣ V) _ _ _ γa γo γr).
  iPoseProof (Hwp (soloΣ V) G with "Hat Hob Hroom") as "Hwp".
  iMod (wp_alone limit malloc p s _ Hm with "[Ha Ho Hr] Hwp") as (a s' Hr) "[Hs HP]".
  { iFrame "Ha Ho". iSplit; [|done]. iExists n. by iFrame. }
  iDestruct ("HP" with "Hs") as %HP. iPureIntro. by exists a, s'.
Qed.
