(* ===== verification/SoloHazard.v ===== *)
(** The reclaimer of a thread that runs alone on the lock-free table: marking and
    unmarking, the objects that wait for their deletion, and the deletion of those that
    no hazard pointer shows. *)
From iris.base_logic.lib Require Import iprop.
From iris.proofmode Require Import proofmode.
From S2P Require Import Prelude Words Outcome SplitOrder Atomic Hazard Solo.

(** ** Indices of hazard pointers *)

Definition ok_hp (r : Reclaimer) (i : Z) : Prop :=
  i = HP_INDEX_NULL \/ 0 <= i < Z.of_nat (length (hp_list_ r)).

(** Only the hazard pointers with an index in [S] show something. *)
Definition shows (ms : list Z) (S : list Z) : Prop :=
  forall (j : nat) v, ms !! j = Some v -> v <> 0 -> Z.of_nat j ∈ S.

Lemma shows_unset ms i S :
  shows ms (i :: S) -> shows (<[Z.to_nat i := 0]> ms) S.
Proof.
  intros H j v Hj Hv. destruct (decide (Z.to_nat i = j)) as [<-|Hne].
  - apply list_lookup_insert_Some in Hj as [(_ & <- & _)|[? _]]; done.
  - rewrite list_lookup_insert_ne in Hj; [|done]. specialize (H j v Hj Hv).
    apply elem_of_cons in H as [<-|?]; [lia|done].
Qed.

Lemma shows_null ms S : shows ms (HP_INDEX_NULL :: S) -> shows ms S.
Proof. intros H j v Hj Hv. specialize (H j v Hj Hv). apply elem_of_cons in H as [H|?]; [unfold HP_INDEX_NULL in H; lia|done]. Qed.

Lemma shows_set ms (i : nat) p S : shows ms S -> shows (<[i := p]> ms) (Z.of_nat i :: S).
Proof.
  intros H j v Hj Hv. destruct (decide (i = j)) as [->|Hne]; [left|]. rewrite list_lookup_insert_ne in Hj; [|done].
  right. by eapply H.
Qed.

Lemma shows_app ms p S : shows ms S -> shows (ms ++ [p]) (Z.of_nat (length ms) :: S).
Proof.
  intros H j v Hj Hv. apply lookup_app_Some in Hj as [Hj|[Hle Hj]]; [right; by eapply H|].
  apply list_lookup_singleton_Some in Hj as [Hj _]. replace j with (length ms) by lia. left.
Qed.

Lemma shows_sub ms S S' : S ⊆ S' -> shows ms S -> shows ms S'.
Proof. intros Hs H j v Hj Hv. by eapply Hs, H. Qed.

(** ** Objects that wait *)

(** The objects that a deletion deletes. *)
Definition cost (n : ReclaimNode) : nat := match delete_func n with Some OnDeleteNode => 2 | _ => 1 end.

Definition weight (m : gmap Z ReclaimNode) : nat := sum_list (cost <$> (map_to_list m).*2).

Lemma weight_insert m a n : m !! a = None -> weight (<[a := n]> m) = (cost n + weight m)%nat.
Proof. intros H. unfold weight. by rewrite (map_to_list_insert m a n H). Qed.

Lemma weight_delete m a n : m !! a = Some n -> weight m = (cost n + weight (delete a m))%nat.
Proof. intros H. rewrite -{1}(insert_delete_id m a n H). apply weight_insert, lookup_delete_eq. Qed.

Section Hazards.
Context {V : Type} `{!soloGS V Σ} (limit : nat).
Implicit Types (r : Reclaimer) (S : list Z).

Abbreviation solo := (solo limit).

(** ** The list of hazard pointers *)

Fixpoint links (hs : list Z) : iProp Σ :=
  match hs with
  | [] => True
  | h :: hs => ⌜h <> 0⌝ ∗ atom_pt (HpNext h) (hd 0 hs) ∗ links hs
  end.

(** What the hazard pointers [hs] of the list show, and the ones that the thread has. *)
Record held (hs mine_ : list Z) (ptrs flags : gmap Z Z) (ms : list Z) : Prop := {
  hd_some : hs <> [];
  hd_ptrs : forall h, h ∈ hs <-> is_Some (ptrs !! h);
  hd_flags : forall h, h ∈ hs <-> is_Some (flags !! h);
  hd_mine : Forall2 (fun h v => ptrs !! h = Some v) mine_ ms;
  hd_nodup : NoDup mine_;
  hd_taken : forall h, h ∈ mine_ -> exists f, flags !! h = Some f /\ f <> 0;
  hd_idle : forall h v, ptrs !! h = Some v -> h ∉ mine_ -> v = 0;
  hd_few : (length mine_ <= 2)%nat /\ (length hs <= length mine_ + 1)%nat;
}.

Definition hazards (mine_ ms : list Z) : iProp Σ :=
  ∃ hs ptrs flags n, ⌜held hs mine_ ptrs flags ms⌝ ∗
    atom_pt HpHead (hd 0 hs) ∗ atom_pt HpSize n ∗ links hs ∗
    ([∗ map] h ↦ v ∈ ptrs, atom_pt (HpPtr h) v) ∗ ([∗ map] h ↦ f ∈ flags, atom_pt (HpFlag h) f) ∗
    room (2 - length mine_).

(** ** Objects that wait for their deletion *)

Definition retired_object (a : Z) (n : ReclaimNode) : iProp Σ :=
  ⌜rn_ptr n = a /\ a <> 0⌝ ∗
  match delete_func n with
  | Some OnDeleteNode => ∃ m x v y, ⌜IsDummy m = false /\ v <> 0⌝ ∗ obj_pt a (ONode m) ∗ atom_pt (Next a) x ∗
      atom_pt (Value a) v ∗ obj_pt v (OValue y)
  | Some delete_value => ∃ y, obj_pt a (OValue y)
  | None => False
  end.

(** [N] counts the objects that wait and those that were deleted. *)
Definition retired (N : nat) (r : Reclaimer) : iProp Σ :=
  ⌜reclaim_pool_ r <> []⌝ ∗ ([∗ map] a ↦ n ∈ reclaim_map_ r, retired_object a n) ∗
  ∃ k, ⌜(k + weight (reclaim_map_ r) = N)%nat⌝ ∗ room k.

(** The state of the thread's reclaimer, with the indices of the hazard pointers that show
    something. *)
Definition mine (N : nat) (r : Reclaimer) (S : list Z) : iProp Σ :=
  retired N r ∗ ∃ ms, ⌜shows ms S⌝ ∗ hazards (hp_list_ r) ms.

Lemma mine_sub N r S S' : S ⊆ S' -> mine N r S -∗ mine N r S'.
Proof. iIntros (Hs) "[$ (%ms & %Hm & H)]". iExists ms. iFrame. iPureIntro. by eapply shows_sub. Qed.

Lemma hazards_lookup mine_ ms (i : nat) h :
  mine_ !! i = Some h -> hazards mine_ ms -∗
  ∃ v, ⌜ms !! i = Some v⌝ ∗ atom_pt (HpPtr h) v ∗ (∀ x, atom_pt (HpPtr h) x -∗ hazards mine_ (<[i := x]> ms)).
Proof.
  iIntros (Hi) "(%hs & %ptrs & %flags & %n & %Hh & H1 & H2 & H3 & Hp & H4 & H5)". destruct Hh as [Hd0 Hd1 Hd2 Hd3 Hd4 Hd5 Hd6 Hd7].
  destruct (Forall2_lookup_l _ _ _ _ _ Hd3 Hi) as (v & Hv & Hptr).
  iDestruct (big_sepM_insert_acc with "Hp") as "[Hv Hp]"; [exact Hptr|]. iExists v. iSplit; [done|]. iFrame "Hv".
  iIntros (x) "Hx". iSpecialize ("Hp" with "Hx"). iExists hs, (<[h := x]> ptrs), flags, n. iFrame. iPureIntro. split; try done.
  - intros h'. rewrite Hd1. destruct (decide (h' = h)) as [->|]; [by rewrite lookup_insert_eq Hptr|by rewrite lookup_insert_ne].
  - apply Forall2_lookup. intros j. rewrite Forall2_lookup in Hd3. specialize (Hd3 j).
    destruct (decide (i = j)) as [->|Hne].
    + rewrite Hi list_lookup_insert_eq; [constructor; apply lookup_insert_eq|by eapply lookup_lt_Some].
    + rewrite list_lookup_insert_ne //. destruct (mine_ !! j) as [h'|] eqn:Hj; inversion Hd3; constructor.
      rewrite lookup_insert_ne //. intros <-. apply Hne. by eapply NoDup_lookup.
  - intros h' v' Hv' Hn'. apply lookup_insert_Some in Hv' as [[<- <-]|[_ ?]]; [|by eapply Hd6].
    exfalso. apply Hn'. by eapply list_elem_of_lookup_2.
Qed.

(** ** Marking *)

Lemma hazards_length mine_ ms : hazards mine_ ms -∗ ⌜length ms = length mine_⌝.
Proof.
  iIntros "(%hs & %ptrs & %flags & %n & %Hh & _)". iPureIntro. symmetry. eapply Forall2_length. apply Hh.
Qed.

Lemma solo_hp_at i r Φ :
  0 <= i < Z.of_nat (length (hp_list_ r)) ->
  (∀ h, ⌜hp_list_ r !! Z.to_nat i = Some h⌝ -∗ Φ h r) -∗ solo (hp_at i) r Φ.
Proof.
  iIntros (Hi) "H". unfold hp_at. iApply solo_bind. iApply solo_reclaimer. iApply solo_bind. iApply solo_assert.
  { rewrite andb_true_iff Z.leb_le Z.ltb_lt. unfold wrap. pose proof (Z.mod_le i (2 ^ 64)). lia. }
  destruct (lookup_lt_is_Some_2 (hp_list_ r) (Z.to_nat i)) as [h Hh]; [lia|]. rewrite Hh. iApply solo_ret. by iApply "H".
Qed.

Lemma solo_UnMarkHazard i N r S Φ :
  ok_hp r i -> mine N r (i :: S) -∗ (mine N r S -∗ Φ () r) -∗ solo (UnMarkHazard i) r Φ.
Proof.
  iIntros (Hok) "[Hr (%ms & %Hms & Hh)] HΦ". unfold UnMarkHazard. destruct (Z.eqb_spec i HP_INDEX_NULL) as [->|Hne].
  - iApply solo_ret. iApply "HΦ". iFrame "Hr". iExists ms. iFrame. iPureIntro. by apply shows_null.
  - destruct Hok as [|Hok]; [done|]. iApply solo_bind. iApply solo_hp_at; [done|]. iIntros (h Hh).
    iDestruct (hazards_lookup _ _ _ _ Hh with "Hh") as (v Hv) "[Hp Hh]".
    iApply (solo_store with "Hp"). iIntros "Hp". iApply "HΦ". iFrame "Hr". iExists (<[Z.to_nat i := 0]> ms).
    iSplit; [iPureIntro; by apply shows_unset|]. by iApply "Hh".
Qed.

(** The loop finds the first hazard pointer of the thread that shows nothing. *)
Lemma solo_mark_loop l1 l2 ms p r Φ :
  hp_list_ r = l1 ++ l2 -> hazards (hp_list_ r) ms -∗
  (∀ o, ⌜match o with
         | Some i => exists j, i = Z.of_nat j /\ ms !! j = Some 0 /\ (j < length (hp_list_ r))%nat
         | None => Forall (fun v => v <> 0) (drop (length l1) ms)
         end⌝ -∗
     hazards (hp_list_ r) (match o with Some i => <[Z.to_nat i := p]> ms | None => ms end) -∗ Φ o r) -∗
  solo (mark_loop (Z.of_nat (length l1)) l2 p) r Φ.
Proof.
  iIntros (Hl) "Hh HΦ". iInduction l2 as [|h l2 IH] "IH" forall (l1 Hl); cbn [mark_loop].
  - iApply solo_ret. iDestruct (hazards_length with "Hh") as %Hlen. iApply ("HΦ" $! None with "[%] Hh").
    rewrite app_nil_r in Hl. rewrite drop_ge; [constructor|]. rewrite Hlen Hl. lia.
  - assert (hp_list_ r !! length l1 = Some h) as Hi by (rewrite Hl; by apply list_lookup_middle).
    iDestruct (hazards_lookup _ _ _ _ Hi with "Hh") as (v Hv) "[Hp Hh]".
    iApply solo_bind. iApply (solo_load with "Hp"). iIntros "Hp". destruct (Z.eqb_spec v 0) as [->|Hv0].
    + iApply solo_bind. iApply (solo_store with "Hp"). iIntros "Hp". iApply solo_ret.
      iApply ("HΦ" $! (Some (Z.of_nat (length l1))) with "[%]").
      { exists (length l1). split; [done|]. split; [done|]. by eapply lookup_lt_Some. }
      rewrite Nat2Z.id. by iApply "Hh".
    + iDestruct ("Hh" with "Hp") as "Hh". rewrite list_insert_id //.
      replace (Z.of_nat (length l1) + 1) with (Z.of_nat (length (l1 ++ [h]))) by (rewrite length_app; cbn; lia).
      iApply ("IH" with "[%] Hh"); [by rewrite -app_assoc|]. iIntros (o Ho). iApply "HΦ". iPureIntro.
      destruct o as [i|]; [done|]. rewrite length_app Nat.add_1_r in Ho.
      rewrite (drop_S _ _ _ Hv). by constructor.
Qed.

(** ** Acquiring a hazard pointer *)

Lemma solo_idle_loop n hs flags r Φ :
  (length hs <= n)%nat -> hs <> [] -> (forall h, h ∈ hs -> is_Some (flags !! h)) ->
  links hs -∗ ([∗ map] h ↦ f ∈ flags, atom_pt (HpFlag h) f) -∗
  (∀ p flags', ⌜(forall h, is_Some (flags !! h) <-> is_Some (flags' !! h)) /\
       (forall h f, flags !! h = Some f -> f <> 0 -> exists f', flags' !! h = Some f' /\ f' <> 0) /\
       (p = 0 \/ p ∈ hs /\ p <> 0 /\ flags !! p = Some 0 /\ flags' !! p = Some 1)⌝ -∗
     links hs -∗ ([∗ map] h ↦ f ∈ flags', atom_pt (HpFlag h) f) -∗ Φ p r) -∗
  solo (idle_loop n (hd 0 hs)) r Φ.
Proof.
  iIntros (Hn Hne Hin) "Hl Hf HΦ". iInduction n as [|n IH] "IH" forall (hs flags Hn Hne Hin Φ); destruct hs as [|h hs]; try done; cbn [length] in Hn; [lia|].
  cbn [links hd idle_loop]. iDestruct "Hl" as "(%Hh0 & Hx & Hl)". destruct (Hin h ltac:(left)) as [f Hf].
  iDestruct (big_sepM_insert_acc with "Hf") as "[Hh Hf]"; [exact Hf|].
  iApply solo_bind. iApply (solo_exchange with "Hh"). iIntros "Hh". iDestruct ("Hf" with "Hh") as "Hf".
  assert (forall h', is_Some (flags !! h') <-> is_Some (<[h := 1]> flags !! h')) as Hdom.
  { intros h'. destruct (decide (h' = h)) as [->|]; [by rewrite lookup_insert_eq Hf|by rewrite lookup_insert_ne]. }
  assert (forall h' f', flags !! h' = Some f' -> f' <> 0 -> exists f2, <[h := 1]> flags !! h' = Some f2 /\ f2 <> 0) as Hkeep.
  { intros h' f' Hf' Hf0. destruct (decide (h' = h)) as [->|]; [exists 1; by rewrite lookup_insert_eq|].
    exists f'. by rewrite lookup_insert_ne. }
  destruct (Z.eqb_spec f 0) as [->|Hf0].
  - iApply solo_ret. iApply ("HΦ" with "[%] [Hx Hl] Hf"); [|by iFrame]. split; [done|]. split; [done|]. right.
    split; [left|]. by rewrite lookup_insert_eq.
  - iApply solo_bind. iApply (solo_load with "Hx"). iIntros "Hx". destruct hs as [|h2 hs].
    + cbn [hd]. rewrite Z.eqb_refl. iApply solo_ret. iApply ("HΦ" with "[%] [Hx Hl] Hf"); [|by iFrame]. by auto.
    + iAssert ⌜h2 <> 0⌝%I as %Hh2; [by iDestruct "Hl" as "(% & _)"|]. cbn [hd]. test (h2 =? 0) is false.
      iApply ("IH" $! (h2 :: hs) with "[%] [%] [%] Hl Hf"); [cbn in *; lia|done| |].
      { intros h' Hh'. apply Hdom, Hin. by right. }
      iIntros (p flags') "(%H1 & %H2 & %H3) Hl Hf". iApply ("HΦ" with "[%] [Hx Hl] Hf"); [|by iFrame].
      split; [intros h'; by rewrite Hdom|]. split.
      { intros h' f' Hf' Hfn. destruct (Hkeep h' f' Hf' Hfn) as (f2 & Hf2 & Hn2). by eapply H2. }
      destruct H3 as [->|(Hp & Hp0 & Hpf & Hpf')]; [by left|right]. split; [by right|]. split; [done|]. split; [|done].
      destruct (decide (p = h)) as [->|]; [by rewrite lookup_insert_eq in Hpf|by rewrite lookup_insert_ne in Hpf].
Qed.

(** An idle hazard pointer is taken. *)
Lemma held_take hs mine_ ptrs flags flags' ms p :
  held hs mine_ ptrs flags ms -> (length mine_ < 2)%nat -> p ∈ hs -> flags !! p = Some 0 -> flags' !! p = Some 1 ->
  (forall h, is_Some (flags !! h) <-> is_Some (flags' !! h)) ->
  (forall h f, flags !! h = Some f -> f <> 0 -> exists f', flags' !! h = Some f' /\ f' <> 0) ->
  held hs (mine_ ++ [p]) ptrs flags' (ms ++ [0]).
Proof.
  intros [H0 H1 H2 H3 H4 H5 H6 H7] Hlt Hp Hf Hf' Hdom Hkeep.
  assert (p ∉ mine_) as Hn. { intros (f & Hfp & Hf0)%H5. congruence. }
  destruct (proj1 (H1 p) Hp) as [v Hv]. split; try done.
  - intros h. by rewrite H2 Hdom.
  - apply Forall2_app; [done|]. constructor; [|done]. rewrite Hv. f_equal. by eapply H6.
  - apply NoDup_app. split; [done|]. split; [|apply NoDup_singleton]. intros h Hh Hh'%list_elem_of_singleton. by subst.
  - intros h [Hh|Hh%list_elem_of_singleton]%elem_of_app; [|subst; by exists 1].
    destruct (H5 h Hh) as (f & Hfh & Hf0). by eapply Hkeep.
  - intros h v' Hv' Hnot. apply (H6 h); [done|]. intros Hh. apply Hnot, elem_of_app. by left.
  - rewrite length_app. cbn. lia.
Qed.

(** A new hazard pointer is put in front of the list. *)
Lemma held_new hs mine_ ptrs flags flags' ms p :
  held hs mine_ ptrs flags ms -> (length mine_ < 2)%nat -> p ∉ hs ->
  (forall h, is_Some (flags !! h) <-> is_Some (flags' !! h)) ->
  (forall h f, flags !! h = Some f -> f <> 0 -> exists f', flags' !! h = Some f' /\ f' <> 0) ->
  held (p :: hs) (mine_ ++ [p]) (<[p := 0]> ptrs) (<[p := 1]> flags') (ms ++ [0]).
Proof.
  intros [H0 H1 H2 H3 H4 H5 H6 H7] Hlt Hp Hdom Hkeep.
  assert (forall h, h ∈ mine_ -> h ∈ hs) as Hsub. { intros h (f & Hfp & _)%H5. apply H2. by exists f. }
  assert (forall h, h ∈ hs -> h <> p) as Hne by (intros h Hh ->; done).
  split; try done.
  - intros h. rewrite elem_of_cons H1. destruct (decide (h = p)) as [->|].
    + rewrite lookup_insert_eq. split; [done|by left].
    + rewrite lookup_insert_ne //. split; [by intros [?|?]|by right].
  - intros h. rewrite elem_of_cons H2 Hdom. destruct (decide (h = p)) as [->|].
    + rewrite lookup_insert_eq. split; [done|by left].
    + rewrite lookup_insert_ne //. split; [by intros [?|?]|by right].
  - apply Forall2_app; [|constructor; [apply lookup_insert_eq|done]].
    apply Forall2_lookup. intros i. rewrite Forall2_lookup in H3. specialize (H3 i).
    destruct (mine_ !! i) as [h|] eqn:Hi; inversion H3; constructor.
    rewrite lookup_insert_ne //. apply list_elem_of_lookup_2, Hsub in Hi. intros <-. done.
  - apply NoDup_app. split; [done|]. split; [|apply NoDup_singleton]. intros h Hh Hh'%list_elem_of_singleton. subst. by apply Hp, Hsub.
  - intros h [Hh|Hh%list_elem_of_singleton]%elem_of_app; [|subst; exists 1; by rewrite lookup_insert_eq].
    destruct (H5 h Hh) as (f & Hfh & Hf0). destruct (Hkeep h f Hfh Hf0) as (f' & ? & ?). exists f'.
    rewrite lookup_insert_ne //. intros <-. by apply Hp, Hsub.
  - intros h v' Hv' Hnot. destruct (decide (h = p)) as [->|]; [rewrite lookup_insert_eq in Hv'; congruence|].
    rewrite lookup_insert_ne // in Hv'. apply (H6 h); [done|]. intros Hh. apply Hnot, elem_of_app. by left.
  - rewrite length_app. cbn. lia.
Qed.

Context (fuel : nat) (Hfuel : (4 <= fuel)%nat).

Definition with_hps (l : list Z) (r : Reclaimer) : Reclaimer := MkReclaimer l (reclaim_map_ r) (reclaim_pool_ r).

(** [TryAcquireHazardPointer] makes a new hazard pointer if no idle one is found. *)
Lemma solo_push_loop n p x y hd_ r Φ :
  (0 < n)%nat -> atom_pt (HpNext p) x -∗ atom_pt HpHead hd_ -∗
  (atom_pt (HpNext p) hd_ -∗ atom_pt HpHead p -∗ Φ y r) -∗ solo (push_loop n p hd_) r Φ.
Proof using.
  clear Hfuel. iIntros (Hn) "Hx Hh HΦ". destruct n as [|n]; [lia|]. cbn [push_loop].
  iApply solo_bind. iApply (solo_store with "Hx"). iIntros "Hx".
  iApply solo_bind. iApply (solo_cas with "Hh"). iIntros "Hh". destruct y. iApply solo_ret. iApply ("HΦ" with "Hx Hh").
Qed.

Lemma solo_TryAcquireHazardPointer r ms Φ :
  (length (hp_list_ r) < 2)%nat -> hazards (hp_list_ r) ms -∗
  (∀ p, hazards (hp_list_ r ++ [p]) (ms ++ [0]) -∗ Φ () (with_hps (hp_list_ r ++ [p]) r)) -∗
  solo (TryAcquireHazardPointer fuel) r Φ.
Proof using Hfuel.
  iIntros (Hlt) "(%hs & %ptrs & %flags & %n & %Hh & Hhead & Hsize & Hl & Hp & Hf & Hr) HΦ".
  pose proof Hh as [H0 _ H2 _ _ _ _ [_ H7]]. unfold TryAcquireHazardPointer.
  iApply solo_bind. iApply (solo_load with "Hhead"). iIntros "Hhead".
  iApply solo_bind. iApply (solo_idle_loop with "Hl Hf"); [lia|done|by intros h Hh'%H2|].
  iIntros (p flags') "(%Hdom & %Hkeep & %Hcase) Hl Hf". iApply solo_bind.
  replace (2 - length (hp_list_ r))%nat with (1 + (2 - length (hp_list_ r ++ [p])))%nat by (rewrite length_app; cbn; lia).
  iDestruct (room_split with "Hr") as "[Hr1 Hr]".
  destruct Hcase as [->|(Hin & Hp0 & Hpf & Hpf')].
  - rewrite Z.eqb_refl. iApply solo_bind. iApply (solo_new with "Hr1"). iIntros (a [Ha _]) "_ (Hfl & Hpt & Hnx & _)".
    iAssert ⌜a ∉ hs⌝%I as %Hfresh.
    { iIntros (Hin). destruct (proj1 (Hdom a) (proj1 (H2 a) Hin)) as [x' Hx'].
      iDestruct (big_sepM_lookup with "Hf") as "Hf'"; [exact Hx'|].
      by iDestruct (ghost_map.ghost_map_elem_ne with "Hfl Hf'") as %?. }
    iApply solo_bind. iApply (solo_exchange with "Hfl"). iIntros "Hfl".
    iApply solo_bind. iApply (solo_fetch_add with "Hsize"). iIntros "Hsize".
    iApply solo_bind. iApply (solo_load with "Hhead"). iIntros "Hhead".
    iApply solo_bind. iApply (solo_push_loop _ _ _ () with "Hnx Hhead"); [lia|]. iIntros "Hnx Hhead".
    iApply solo_ret. iApply solo_bind. iApply solo_reclaimer. iApply solo_set_reclaimer. iApply "HΦ".
    iExists (a :: hs), (<[a := 0]> ptrs), (<[a := 1]> flags'), _.
    assert (flags' !! a = None) as Hf0 by (apply eq_None_not_Some; intros Hs%Hdom%H2; done).
    assert (ptrs !! a = None) as Hq0 by (apply eq_None_not_Some; intros Hs%(hd_ptrs _ _ _ _ _ Hh); done).
    rewrite !big_sepM_insert //. iFrame. iSplit; [iPureIntro; by eapply held_new|]. iSplit; [iPureIntro; lia|].
    by rewrite !length_app.
  - test (p =? 0) is false. iApply solo_ret. iApply solo_bind. iApply solo_reclaimer. iApply solo_set_reclaimer.
    iApply "HΦ". iExists hs, ptrs, flags', n. iFrame. iPureIntro. by eapply held_take.
Qed.

(** [MarkHazard] with at most one hazard pointer in use: another one shows the object. *)
Lemma solo_MarkHazard p i0 N r Φ :
  mine N r [i0] -∗
  (∀ i r', ⌜ok_hp r' i /\ hp_list_ r `prefix_of` hp_list_ r'⌝ -∗ mine N r' [i; i0] -∗ Φ i r') -∗
  solo (MarkHazard fuel p) r Φ.
Proof using Hfuel.
  iIntros "[Hr (%ms & %Hms & Hh)] HΦ". unfold MarkHazard. destruct (Z.eqb_spec p 0) as [->|Hp].
  { iApply solo_ret. iApply ("HΦ" with "[%]"); [split; [by left|done]|]. iFrame "Hr". iExists ms. iFrame. iPureIntro.
    eapply shows_sub; [|exact Hms]. set_solver. }
  iDestruct (hazards_length with "Hh") as %Hlen.
  iApply solo_bind. iApply solo_reclaimer. iApply solo_bind. iApply (solo_mark_loop [] _ _ p with "Hh"); [done|].
  iIntros (o Ho) "Hh". destruct o as [i|].
  - destruct Ho as (j & -> & Hj & Hjl). iApply solo_ret. iApply ("HΦ" with "[%]"); [split; [right; lia|done]|].
    iFrame "Hr". iExists _. iFrame "Hh". iPureIntro. rewrite Nat2Z.id. by apply shows_set.
  - cbn [length] in Ho. rewrite drop_0 in Ho.
    assert (length (hp_list_ r) < 2)%nat as Hlt.
    { rewrite -Hlen. destruct ms as [|v0 [|v1 ms]]; cbn; [lia..|]. exfalso.
      apply Forall_cons in Ho as [Hv0 [Hv1 _]%Forall_cons].
      pose proof (Hms 0%nat v0 eq_refl Hv0) as E0%list_elem_of_singleton.
      pose proof (Hms 1%nat v1 eq_refl Hv1) as E1%list_elem_of_singleton. lia. }
    iApply solo_bind. iApply (solo_TryAcquireHazardPointer with "Hh"); [done|]. iIntros (h) "Hh".
    iApply solo_bind. iApply solo_reclaimer. set (r' := with_hps (hp_list_ r ++ [h]) r).
    assert (Z.of_nat (length (hp_list_ r')) - 1 = Z.of_nat (length ms)) as -> by (cbn; rewrite length_app; cbn; lia).
    iApply solo_bind. iApply solo_hp_at; [cbn; rewrite length_app; cbn; lia|]. iIntros (h' Hh').
    change (hp_list_ r ++ [h]) with (hp_list_ r').
    iDestruct (hazards_lookup _ _ _ _ Hh' with "Hh") as (v Hv) "[Hpt Hh]". iApply solo_bind.
    iApply (solo_store with "Hpt"). iIntros "Hpt". iApply solo_ret. iDestruct ("Hh" with "Hpt") as "Hh".
    rewrite Nat2Z.id insert_app_r_alt // Nat.sub_diag. cbn [list_insert].
    iApply ("HΦ" with "[%]").
    { split; [right; cbn; rewrite length_app; cbn; lia|]. cbn. by apply prefix_app_r. }
    iFrame "Hr". iExists _. iFrame "Hh". iPureIntro. by apply shows_app.
Qed.

(** ** Reclaiming *)

(** The value of a node, if it has one. *)
Definition value_at (v : Z) : iProp Σ := ⌜v = 0⌝ ∨ ⌜v <> 0⌝ ∗ ∃ y, obj_pt v (OValue y).

Lemma solo_delete_node retired_ a m x v r Φ :
  IsDummy m = false ->
  obj_pt a (ONode m) -∗ atom_pt (Next a) x -∗ atom_pt (Value a) v -∗ value_at v -∗
  (room (if (v =? 0)%Z then 1%nat else 2%nat) -∗ Φ () r) -∗ solo (delete_node retired_ a) r Φ.
Proof using.
  clear Hfuel. iIntros (Hm) "Ho Hx Hv Hy HΦ". unfold delete_node. iApply solo_bind. iApply (solo_fields with "Ho"). iIntros "Ho".
  rewrite Hm. iApply solo_bind. iApply solo_bind. iApply (solo_load with "Hv"). iIntros "Hv".
  iAssert (∀ Ψ, (room 1 -∗ Ψ () r) -∗ solo (atomically (Delete retired_ a)) r Ψ)%I with "[Ho Hx Hv]" as "Hlast".
  { iIntros (Ψ). iApply (solo_delete with "Ho [Hx Hv]"). cbn [members]. rewrite Hm. cbn. iSplitL "Hx"; [by iExists x|].
    iSplitL; [by iExists v|done]. }
  iDestruct "Hy" as "[->|[%Hv (%y & Hy)]]"; [iApply solo_ret; by iApply "Hlast"|]. test (v =? 0) is false.
  iApply (solo_delete with "Hy"); [done|]. iIntros "H1". iApply "Hlast". iIntros "H2". iApply "HΦ".
  rewrite (room_split 1 1). by iFrame.
Qed.

Lemma solo_delete_dummy a m x r Φ :
  IsDummy m = true -> obj_pt a (ONode m) -∗ atom_pt (Next a) x -∗ (room 1 -∗ Φ () r) -∗ solo (delete_node false a) r Φ.
Proof using.
  clear Hfuel. iIntros (Hm) "Ho Hx HΦ". unfold delete_node. iApply solo_bind. iApply (solo_fields with "Ho"). iIntros "Ho".
  rewrite Hm. iApply solo_bind. iApply solo_ret. iApply (solo_delete with "Ho [Hx] HΦ"). cbn [members]. rewrite Hm. cbn.
  iSplitL; [by iExists x|done].
Qed.

Lemma solo_call_delete a n r Φ : retired_object a n -∗ (room (cost n) -∗ Φ () r) -∗ solo (call_delete n) r Φ.
Proof using.
  clear Hfuel. iIntros "[[%Ha _] Hn] HΦ". unfold call_delete, cost. rewrite Ha. destruct (delete_func n) as [[]|]; [| |done].
  - iDestruct "Hn" as (m x v y [Hm Hv]) "(Ho & Hx & Hv & Hy)".
    iApply (solo_delete_node with "Ho Hx Hv [Hy] [HΦ]"); [done| |].
    + iRight. iSplit; [done|]. by iExists y.
    + by test (v =? 0) is false.
  - iDestruct "Hn" as (y) "Ho". iApply (solo_delete with "Ho"); done.
Qed.

(** An object that waits for its deletion is owned. *)
Lemma retired_object_owned a n : retired_object a n -∗ ∃ o, obj_pt a o.
Proof using.
  clear Hfuel. iIntros "[_ Hn]". destruct (delete_func n) as [[]|]; [| |done].
  - iDestruct "Hn" as (m x v y _) "(Ho & _)". by iExists _.
  - iDestruct "Hn" as (y) "Ho". by iExists _.
Qed.

Lemma solo_ReclaimLater a f N r S Φ :
  mine N r S -∗ retired_object a (MkReclaimNode a (Some f)) -∗
  (∀ r', ⌜hp_list_ r' = hp_list_ r⌝ -∗ mine (cost (MkReclaimNode a (Some f)) + N) r' S -∗ Φ () r') -∗ solo (ReclaimLater a f) r Φ.
Proof using.
  clear Hfuel. iIntros "[(%Hpool & Hm & (%k & %Hk & Hroom)) Hh] Ha HΦ". unfold ReclaimLater. iApply solo_bind. iApply solo_reclaimer.
  iAssert ⌜reclaim_map_ r !! a = None⌝%I as %Hnone.
  { destruct (reclaim_map_ r !! a) as [n|] eqn:Hn; [|done]. iExFalso.
    iDestruct (big_sepM_lookup with "Hm") as "Hn"; [exact Hn|].
    iDestruct (retired_object_owned with "Hn") as (o) "Hn". iDestruct (retired_object_owned with "Ha") as (o') "Ha".
    by iDestruct (obj_pt_ne with "Hn Ha") as %?. }
  destruct (Pop (reclaim_pool_ r)) as [[n pool]|] eqn:Hpop.
  2: { by destruct (reclaim_pool_ r) as [|? [|]]. }
  iApply solo_set_reclaimer. rewrite Hnone. iApply ("HΦ" with "[%]"); [done|]. iFrame "Hh". cbn. iSplit.
  - iPureIntro. cbn. destruct (reclaim_pool_ r) as [|n1 [|n2 l]]; try done; cbn in Hpop; by injection Hpop as <- <-.
  - cbn. rewrite big_sepM_insert //. iFrame. iPureIntro. rewrite weight_insert //. cbn. lia.
Qed.

(** The scan only reads. *)
Lemma solo_scan_loop n hs ptrs s r Φ :
  (length hs <= n)%nat -> hs <> [] -> (forall h, h ∈ hs -> is_Some (ptrs !! h)) ->
  links hs -∗ ([∗ map] h ↦ v ∈ ptrs, atom_pt (HpPtr h) v) -∗
  (∀ s', links hs -∗ ([∗ map] h ↦ v ∈ ptrs, atom_pt (HpPtr h) v) -∗ Φ s' r) -∗
  solo (scan_loop n (hd 0 hs) s) r Φ.
Proof using.
  clear Hfuel. iIntros (Hn Hne Hin) "Hl Hp HΦ".
  iInduction n as [|n IH] "IH" forall (hs s Hn Hne Hin Φ); destruct hs as [|h hs]; try done; cbn [length] in Hn; [lia|].
  cbn [links hd scan_loop]. iDestruct "Hl" as "(%Hh0 & Hx & Hl)". destruct (Hin h ltac:(left)) as [v Hv].
  iDestruct (big_sepM_lookup_acc with "Hp") as "[Hh Hp]"; [exact Hv|].
  iApply solo_bind. iApply (solo_load with "Hh"). iIntros "Hh". iDestruct ("Hp" with "Hh") as "Hp".
  iApply solo_bind. iApply (solo_load with "Hx"). iIntros "Hx". destruct hs as [|h2 hs].
  - cbn [hd]. rewrite Z.eqb_refl. iApply solo_ret. iApply ("HΦ" with "[Hx Hl] Hp"). by iFrame.
  - iAssert ⌜h2 <> 0⌝%I as %Hh2; [by iDestruct "Hl" as "(% & _)"|]. cbn [hd]. test (h2 =? 0) is false.
    iApply ("IH" $! (h2 :: hs) with "[%] [%] [%] Hl Hp"); [cbn in *; lia|done|intros h' Hh'; apply Hin; by right|].
    iIntros (s') "Hl Hp". iApply ("HΦ" with "[Hx Hl] Hp"). by iFrame.
Qed.

Lemma solo_reclaim_loop l s N r S Φ :
  NoDup l.*1 -> (forall a n, (a, n) ∈ l -> reclaim_map_ r !! a = Some n) ->
  mine N r S -∗ (∀ r', ⌜hp_list_ r' = hp_list_ r⌝ -∗ mine N r' S -∗ Φ () r') -∗ solo (reclaim_loop l s) r Φ.
Proof using.
  clear Hfuel. iIntros (Hnd Hin) "Hm HΦ". iInduction l as [|[a n] l IH] "IH" forall (r Hnd Hin); cbn [reclaim_loop].
  { iApply solo_ret. by iApply ("HΦ" with "[%]"). }
  cbn in Hnd. apply NoDup_cons in Hnd as [Ha Hnd]. case_bool_decide as Hs.
  { iApply ("IH" with "[//] [%] Hm HΦ"). intros a' n' Hin'. apply Hin. by right. }
  iDestruct "Hm" as "[(%Hpool & Hm & (%k & %Hk & Hroom)) Hh]". pose proof (Hin a n ltac:(left)) as Hn.
  iDestruct (big_sepM_delete with "Hm") as "[Hn Hm]"; [exact Hn|].
  iApply solo_bind. iApply (solo_call_delete with "Hn"). iIntros "Hc". iApply solo_bind. iApply solo_reclaimer. iApply solo_bind.
  iApply solo_set_reclaimer. iApply ("IH" with "[//] [%] [Hm Hh Hc Hroom]").
  - intros a' n' Hin'. cbn. rewrite lookup_delete_ne; [apply Hin; by right|]. intros <-. apply Ha.
    by apply (list_elem_of_fmap_2 fst _ (a, n')).
  - iFrame "Hh Hm". iSplit; [done|]. iExists (cost n + k)%nat. rewrite room_split. iFrame "Hc Hroom". iPureIntro.
    rewrite (weight_delete _ _ _ Hn) in Hk. cbn. lia.
  - iIntros (r' Hr') "Hm". by iApply ("HΦ" with "[%]").
Qed.

Lemma solo_ReclaimNoHazardPointer N r S Φ :
  mine N r S -∗ (∀ r', ⌜hp_list_ r' = hp_list_ r⌝ -∗ mine N r' S -∗ Φ () r') -∗ solo (ReclaimNoHazardPointer fuel) r Φ.
Proof using Hfuel.
  iIntros "[Hr (%ms & %Hms & (%hs & %ptrs & %flags & %n & %Hh & Hhead & Hsize & Hl & Hp & Hf & Hroom))] HΦ".
  pose proof Hh as [H0 H1 _ _ _ _ _ H7]. unfold ReclaimNoHazardPointer.
  iApply solo_bind. iApply solo_reclaimer. iApply solo_bind. unfold get_size. iApply solo_bind.
  iApply (solo_load with "Hsize"). iIntros "Hsize". iApply solo_ret.
  iAssert (links hs -∗ ([∗ map] h ↦ v ∈ ptrs, atom_pt (HpPtr h) v) -∗ atom_pt HpHead (hd 0 hs) -∗ mine N r S)%I
    with "[Hr Hsize Hf Hroom]" as "Hm".
  { iIntros "Hl Hp Hhead". iFrame "Hr". iExists ms. iSplit; [done|]. iExists hs, ptrs, flags, n. by iFrame. }
  destruct (_ <? _).
  { iApply solo_ret. iApply ("HΦ" with "[%]"); [done|]. iApply ("Hm" with "Hl Hp Hhead"). }
  iApply solo_bind. iApply (solo_load with "Hhead"). iIntros "Hhead".
  iApply solo_bind. iApply (solo_scan_loop with "Hl Hp"); [lia|done|by intros h Hh'%H1|]. iIntros (s) "Hl Hp".
  iApply (solo_reclaim_loop with "[Hm Hl Hp Hhead] HΦ").
  - apply NoDup_fst_map_to_list.
  - intros a m Ha. by apply elem_of_map_to_list.
  - iApply ("Hm" with "Hl Hp Hhead").
Qed.

(** ** The end of a thread *)

(** No hazard pointer shows the object. *)
Lemma solo_hazard_loop n hs ptrs p r Φ :
  (length hs <= n)%nat -> hs <> [] -> (forall h, h ∈ hs -> is_Some (ptrs !! h)) ->
  (forall h v, ptrs !! h = Some v -> v <> p) ->
  links hs -∗ ([∗ map] h ↦ v ∈ ptrs, atom_pt (HpPtr h) v) -∗
  (links hs -∗ ([∗ map] h ↦ v ∈ ptrs, atom_pt (HpPtr h) v) -∗ Φ false r) -∗
  solo (hazard_loop n (hd 0 hs) p) r Φ.
Proof using.
  clear Hfuel. iIntros (Hn Hne Hin Hno) "Hl Hp HΦ".
  iInduction n as [|n IH] "IH" forall (hs Hn Hne Hin Φ); destruct hs as [|h hs]; try done; cbn [length] in Hn; [lia|].
  cbn [links hd hazard_loop]. iDestruct "Hl" as "(%Hh0 & Hx & Hl)". destruct (Hin h ltac:(left)) as [v Hv].
  iDestruct (big_sepM_lookup_acc with "Hp") as "[Hh Hp]"; [exact Hv|].
  iApply solo_bind. iApply (solo_load with "Hh"). iIntros "Hh". iDestruct ("Hp" with "Hh") as "Hp".
  pose proof (Hno h v Hv). test (v =? p) is false.
  iApply solo_bind. iApply (solo_load with "Hx"). iIntros "Hx". destruct hs as [|h2 hs].
  - cbn [hd]. rewrite Z.eqb_refl. iApply solo_ret. iApply ("HΦ" with "[Hx Hl] Hp"). by iFrame.
  - iAssert ⌜h2 <> 0⌝%I as %Hh2; [by iDestruct "Hl" as "(% & _)"|]. cbn [hd]. test (h2 =? 0) is false.
    iApply ("IH" $! (h2 :: hs) with "[%] [%] [%] Hl Hp"); [cbn in *; lia|done|intros h' Hh'; apply Hin; by right|].
    iIntros "Hl Hp". iApply ("HΦ" with "[Hx Hl] Hp"). by iFrame.
Qed.

Lemma solo_hand_over l ptrs flags r Φ :
  (forall h, h ∈ l -> ptrs !! h = Some 0 /\ is_Some (flags !! h)) ->
  ([∗ map] h ↦ v ∈ ptrs, atom_pt (HpPtr h) v) -∗ ([∗ map] h ↦ f ∈ flags, atom_pt (HpFlag h) f) -∗
  (([∗ map] h ↦ v ∈ ptrs, atom_pt (HpPtr h) v) -∗ Φ () r) -∗ solo (hand_over l) r Φ.
Proof using.
  clear Hfuel. iIntros (Hin) "Hp Hf HΦ". iInduction l as [|h l IH] "IH" forall (flags Hin); cbn [hand_over].
  { iApply solo_ret. by iApply "HΦ". }
  destruct (Hin h ltac:(left)) as [Hh [f Hhf]].
  iDestruct (big_sepM_lookup_acc with "Hp") as "[Hh Hp]"; [exact Hh|].
  iApply solo_bind. iApply (solo_load with "Hh"). iIntros "Hh". iDestruct ("Hp" with "Hh") as "Hp".
  iApply solo_bind. iApply solo_assert; [done|].
  iDestruct (big_sepM_insert_acc with "Hf") as "[Hx Hf]"; [exact Hhf|].
  iApply solo_bind. iApply (solo_store with "Hx"). iIntros "Hx". iDestruct ("Hf" with "Hx") as "Hf".
  iApply ("IH" with "[%] Hp Hf HΦ"). intros h' Hh'. destruct (Hin h' ltac:(by right)) as [H1 H2]. split; [done|].
  destruct (decide (h = h')) as [->|]; [by rewrite lookup_insert_eq|by rewrite lookup_insert_ne].
Qed.

Lemma solo_await_no_hazard n hs ptrs p r Φ :
  (0 < n)%nat -> (length hs <= fuel)%nat -> hs <> [] -> (forall h, h ∈ hs -> is_Some (ptrs !! h)) ->
  (forall h v, ptrs !! h = Some v -> v <> p) ->
  links hs -∗ ([∗ map] h ↦ v ∈ ptrs, atom_pt (HpPtr h) v) -∗ atom_pt HpHead (hd 0 hs) -∗
  (links hs -∗ ([∗ map] h ↦ v ∈ ptrs, atom_pt (HpPtr h) v) -∗ atom_pt HpHead (hd 0 hs) -∗ Φ () r) -∗
  solo (await_no_hazard fuel n p) r Φ.
Proof using.
  clear Hfuel. iIntros (Hn Hf Hne Hin Hno) "Hl Hp Hh HΦ". destruct n as [|n]; [lia|]. cbn [await_no_hazard].
  iApply solo_bind. unfold Hazard. iApply solo_bind. iApply (solo_load with "Hh"). iIntros "Hh".
  iApply (solo_hazard_loop with "Hl Hp"); try done. iIntros "Hl Hp". iApply solo_ret. iApply ("HΦ" with "Hl Hp Hh").
Qed.

Lemma solo_reclaim_all l hs ptrs k r Φ :
  (length hs <= fuel)%nat -> hs <> [] -> (forall h, h ∈ hs -> is_Some (ptrs !! h)) ->
  (forall h v, ptrs !! h = Some v -> v = 0) ->
  links hs -∗ ([∗ map] h ↦ v ∈ ptrs, atom_pt (HpPtr h) v) -∗ atom_pt HpHead (hd 0 hs) -∗
  ([∗ list] x ∈ l, retired_object x.1 x.2) -∗ room k -∗ (∀ r', room (k + sum_list (cost <$> l.*2)) -∗ Φ () r') -∗ solo (reclaim_all fuel l) r Φ.
Proof using.
  clear Hfuel. iIntros (Hn Hne Hin Hz) "Hl Hp Hh Hr Hk HΦ". iInduction l as [|[a n] l IH] "IH" forall (r k Φ); cbn [reclaim_all].
  { iApply solo_ret. iApply "HΦ". cbn. by rewrite Nat.add_0_r. }
  iDestruct "Hr" as "[Hn Hr]". cbn [fst snd]. iAssert ⌜a <> 0⌝%I as %Ha; [by iDestruct "Hn" as "[[_ %] _]"|].
  iApply solo_bind. iApply (solo_await_no_hazard with "Hl Hp Hh"); try done.
  { destruct hs; [done|]. cbn in Hn. lia. }
  { intros h v Hv. rewrite (Hz h v Hv). done. }
  iIntros "Hl Hp Hh". iApply solo_bind. iApply (solo_call_delete with "Hn").
  iIntros "Hc". iApply solo_bind. iApply solo_reclaimer. iApply solo_bind. iApply solo_set_reclaimer.
  iApply ("IH" $! _ (k + cost n)%nat with "Hl Hp Hh Hr [Hk Hc]"); [rewrite room_split; by iFrame|].
  iIntros (r') "Hroom". iApply "HΦ". cbn. by rewrite Nat.add_assoc.
Qed.

(** The end of a thread whose hazard pointers show nothing. *)
Lemma solo_Reclaimer_delete N r Φ : mine N r [] -∗ (∀ r', room N -∗ Φ () r') -∗ solo (Reclaimer_delete fuel) r Φ.
Proof using Hfuel.
  iIntros "[(_ & Hr & (%k & %Hk & Hk)) (%ms & %Hms & (%hs & %ptrs & %flags & %n & %Hh & Hhead & Hsize & Hl & Hp & Hf & Hroom))] HΦ".
  pose proof Hh as [H0 H1 H2 H3 _ H5 H6 H7]. unfold Reclaimer_delete.
  assert (forall h v, ptrs !! h = Some v -> v = 0) as Hz.
  { intros h v Hv. destruct (decide (h ∈ hp_list_ r)) as [Hin|]; [|by eapply H6].
    apply list_elem_of_lookup in Hin as [i Hi]. destruct (Forall2_lookup_l _ _ _ _ _ H3 Hi) as (v' & Hv' & Hp').
    assert (v' = v) as -> by congruence. destruct (decide (v = 0)); [done|].
    pose proof (Hms i v Hv' ltac:(done)) as He. by apply not_elem_of_nil in He. }
  iApply solo_bind. iApply solo_reclaimer. iApply solo_bind. iApply (solo_hand_over with "Hp Hf").
  { intros h Hin. destruct (H5 h Hin) as (f & Hf & _). split; [|by exists f].
    assert (h ∈ hs) as [v Hv]%H1 by (apply H2; by exists f). rewrite Hv. f_equal. by eapply Hz. }
  iIntros "Hp". iApply (solo_reclaim_all with "Hl Hp Hhead [Hr] Hk"); [lia|done|by intros h Hin%H1|done| |].
  - rewrite big_sepM_map_to_list. iApply (big_sepL_impl with "Hr"). by iIntros "!>" (i [a m] _) "Hm".
  - iIntros (r') "Hw". iApply "HΦ". fold (weight (reclaim_map_ r)). by rewrite Hk.
Qed.
End Hazards.
