(* ===== verification/SoloCells.v ===== *)
(** The nodes of the lock-free table in the order of its list, without the memory that
    they are in: where a search ends, and what insertions and removals do to the items
    and to the heads of the buckets. *)
From stdpp Require Import sorting.
From S2P Require Import Prelude Words Outcome SplitOrder.

(** A node at its address; a regular node has a value at an address of its own. *)
Record cell (V : Type) := MkCell { c_addr : Z; c_node : node; c_value : option (Z * V) }.
#[global] Arguments MkCell {V}.
#[global] Arguments c_addr {V}.
#[global] Arguments c_node {V}.
#[global] Arguments c_value {V}.

(** The address of the first node, or [nx] if there is none. *)
Definition start {V} (cs : list (cell V)) (nx : Z) : Z := match cs with [] => nx | c :: _ => c_addr c end.

Section Cells.
Context {V : Type} (hash_func_ : Z -> Z).
Implicit Types (c d q : cell V) (cs l : list (cell V)) (x : node) (k : Z).

(** ** The order *)

Definition below c d : Prop := Less (c_node c) (c_node d) = true.

(** A node of the table: a bucket below 2^24, or an item with a value. *)
Record good_cell c : Prop := {
  gc_wf : wf_node hash_func_ (c_node c);
  gc_valued : c_value c = None <-> IsDummy (c_node c) = true;
  gc_bucket : IsDummy (c_node c) = true -> hash (c_node c) < 2 ^ 24;
}.

Definition ordered cs : Prop := StronglySorted below cs /\ Forall good_cell cs.

(** A place in the list: [q] is less than [x], and the next node is not. *)
Record place cs x l1 q l2 : Prop := {
  pl_split : cs = l1 ++ q :: l2;
  pl_less : Less (c_node q) x = true;
  pl_not_less : match l2 with [] => True | d :: _ => Less (c_node d) x = false end;
}.

Lemma ordered_app l1 l2 : ordered (l1 ++ l2) <-> ordered l1 /\ ordered l2 /\ forall c d, c ∈ l1 -> d ∈ l2 -> below c d.
Proof.
  unfold ordered. rewrite StronglySorted_app, Forall_app. naive_solver.
Qed.

Lemma ordered_cons c l : ordered (c :: l) <-> good_cell c /\ ordered l /\ forall d, d ∈ l -> below c d.
Proof.
  unfold ordered. rewrite Forall_cons. split.
  - intros [Hs [Hc Hl]]. inversion Hs; subst. split; [done|]. split; [done|]. by apply Forall_forall.
  - intros (Hc & [Hs Hl] & Hd). split; [|done]. constructor; [done|]. by apply Forall_forall.
Qed.

Lemma ordered_good cs c : ordered cs -> c ∈ cs -> good_cell c.
Proof. intros [_ H] Hc. rewrite Forall_forall in H. by apply H. Qed.

(** Nodes before [q] are less, and nodes behind the first that is not less are greater. *)
Lemma place_before cs x l1 q l2 c :
  ordered cs -> wf_node hash_func_ x -> place cs x l1 q l2 -> c ∈ l1 ++ [q] -> Less (c_node c) x = true.
Proof.
  intros Hord Hx [Hs Hq _] [Hc|Hc%list_elem_of_singleton]%elem_of_app; [|by subst].
  assert (c ∈ cs) as Hin by (rewrite Hs; apply elem_of_app; by left).
  assert (q ∈ cs) as Hqin by (rewrite Hs; apply elem_of_app; right; left).
  apply Less_trans with (hash_func_ := hash_func_) (b := c_node q); [by apply (ordered_good cs)..|done| |done].
  rewrite Hs in Hord. apply ordered_app in Hord as (_ & _ & H). apply H; [done|left].
Qed.

Lemma place_after cs x l1 q l2 c :
  ordered cs -> wf_node hash_func_ x -> place cs x l1 q l2 -> c ∈ l2 ->
  head l2 = Some c /\ c_node c = x \/ Less x (c_node c) = true.
Proof.
  intros Hord Hx [Hs _ Hn] Hc. rewrite Hs in Hord. apply ordered_app in Hord as (_ & (_ & Hord & _)%ordered_cons & _).
  destruct l2 as [|d l2]; [by apply not_elem_of_nil in Hc|]. apply ordered_cons in Hord as (Hd & Hl2 & Hb).
  apply elem_of_cons in Hc as [->|Hc].
  - destruct (Less_total hash_func_ (c_node d) x) as [H|[H|H]]; [apply Hd|done|congruence|by left|by right].
  - right. specialize (Hb c Hc). pose proof (ordered_good _ _ Hl2 Hc) as Hgc.
    destruct (Less_total hash_func_ (c_node d) x) as [H|[<-|H]]; [apply Hd|done|congruence|done|].
    apply Less_trans with (hash_func_ := hash_func_) (b := c_node d); [done|apply Hd|apply Hgc|done|done].
Qed.

(** The search has found the node, or there is none. *)
Lemma place_found cs x l1 q d l2 :
  ordered cs -> wf_node hash_func_ x -> place cs x l1 q (d :: l2) -> Equals (c_node d) x = true -> c_node d = x.
Proof.
  intros Hord Hx [-> _ _]. apply (Equals_eq hash_func_); [|done]. apply (ordered_good _ d Hord). set_solver.
Qed.

Definition not_found x l2 : Prop := match l2 with [] => True | d :: _ => Equals (c_node d) x = false end.

Lemma place_absent cs x l1 q l2 c :
  ordered cs -> wf_node hash_func_ x -> place cs x l1 q l2 -> not_found x l2 -> c ∈ cs -> c_node c <> x.
Proof.
  intros Hord Hx Hp He Hc Hcx.
  assert (c ∈ l1 ++ [q] \/ c ∈ l2) as [H|H] by (rewrite (pl_split _ _ _ _ _ Hp) in Hc; set_solver).
  - pose proof (place_before _ _ _ _ _ _ Hord Hx Hp H) as Hl. by rewrite Hcx, Less_irrefl in Hl.
  - destruct (place_after _ _ _ _ _ _ Hord Hx Hp H) as [[Hh _]|Hl]; [|by rewrite Hcx, Less_irrefl in Hl].
    destruct l2 as [|d l2]; [done|]. injection Hh as ->. unfold not_found, Equals in He. by rewrite Hcx, Less_irrefl in He.
Qed.

(** ** Changes of the list *)

Lemma ordered_middle l1 q l2 :
  ordered (l1 ++ q :: l2) <-> ordered (l1 ++ [q]) /\ ordered l2 /\ forall c d, c ∈ l1 ++ [q] -> d ∈ l2 -> below c d.
Proof. rewrite cons_middle, app_assoc. apply ordered_app. Qed.

(** A new node at its place. *)
Lemma ordered_insert cs x l1 q l2 c :
  ordered cs -> place cs x l1 q l2 -> not_found x l2 -> good_cell c -> c_node c = x -> ordered (l1 ++ q :: c :: l2).
Proof.
  intros Hord Hp Hnf Hc Hx. assert (wf_node hash_func_ x) as Hwx by (rewrite <- Hx; apply Hc).
  pose proof (fun d => place_before _ _ _ _ _ d Hord Hwx Hp) as Hbefore.
  pose proof (fun d => place_after _ _ _ _ _ d Hord Hwx Hp) as Hafter.
  rewrite (pl_split _ _ _ _ _ Hp), ordered_middle in Hord. destruct Hord as (H1 & H2 & H12).
  rewrite ordered_middle. split; [done|]. split.
  - rewrite ordered_cons. split; [done|]. split; [done|]. intros d Hd. unfold below. rewrite Hx.
    destruct (Hafter d Hd) as [[Hh Hdx]|]; [|done]. destruct l2 as [|d' l2]; [done|]. injection Hh as ->.
    unfold not_found, Equals in Hnf. by rewrite Hdx, Less_irrefl in Hnf.
  - intros d e Hd [->|He]%elem_of_cons; [|by apply H12]. unfold below. rewrite Hx. by apply Hbefore.
Qed.

Lemma ordered_remove l1 q d l2 : ordered (l1 ++ q :: d :: l2) -> ordered (l1 ++ q :: l2).
Proof.
  intros H. apply ordered_middle in H as (H1 & (_ & H2 & _)%ordered_cons & H12). apply ordered_middle. split; [done|]. split; [done|].
  intros c e Hc He. apply H12; [done|by right].
Qed.

Lemma ordered_replace l1 q d d' l2 :
  ordered (l1 ++ q :: d :: l2) -> good_cell d' -> c_node d' = c_node d -> ordered (l1 ++ q :: d' :: l2).
Proof.
  intros H Hd' Hn. apply ordered_middle in H as (H1 & (_ & H2 & Hd)%ordered_cons & H12). apply ordered_middle.
  split; [done|]. split.
  - apply ordered_cons. split; [done|]. split; [done|]. intros e He. unfold below. rewrite Hn. by apply Hd.
  - intros c e Hc [->|He]%elem_of_cons; [|apply H12; [done|by right]].
    unfold below. rewrite Hn. apply H12; [done|left].
Qed.

(** ** What the nodes hold *)

(** The entries that a function finds in the nodes; a key tells a node. *)
Section Index.
Context {A : Type} (f : cell V -> option (Z * A)).
Hypothesis f_key : forall c d k y z,
  good_cell c -> good_cell d -> f c = Some (k, y) -> f d = Some (k, z) -> c_node c = c_node d.

Definition index cs : gmap Z A := list_to_map (omap f cs).

Lemma index_NoDup cs : ordered cs -> NoDup (omap f cs).*1.
Proof.
  induction cs as [|c cs IH]; [constructor|]. intros (Hc & Hcs & Hb)%ordered_cons. cbn.
  destruct (f c) as [[k y]|] eqn:Hf; [|by apply IH]. cbn. constructor; [|by apply IH].
  intros ([k' z] & Hk & (d & Hd & Hfd)%list_elem_of_omap)%list_elem_of_fmap. cbn in Hk. subst k'.
  specialize (Hb d Hd). pose proof (f_key c d k y z Hc (ordered_good _ _ Hcs Hd) Hf Hfd) as He.
  unfold below in Hb. by rewrite He, Less_irrefl in Hb.
Qed.

Lemma index_lookup cs k y : ordered cs -> index cs !! k = Some y <-> exists c, c ∈ cs /\ f c = Some (k, y).
Proof.
  intros Hord. unfold index. rewrite <- elem_of_list_to_map by (by apply index_NoDup). apply list_elem_of_omap.
Qed.

Lemma index_cons_middle l1 q c l2 k y :
  ordered (l1 ++ q :: c :: l2) -> f c = Some (k, y) ->
  index (l1 ++ q :: c :: l2) = <[k := y]> (index (l1 ++ q :: l2)) /\ index (l1 ++ q :: l2) !! k = None.
Proof.
  intros Hord Hf. pose proof (index_NoDup _ Hord) as Hnd.
  assert (omap f (l1 ++ q :: c :: l2) ≡ₚ (k, y) :: omap f (l1 ++ q :: l2)) as Hperm.
  { rewrite (cons_middle q l1 (c :: l2)), (cons_middle q l1 l2), !app_assoc, !omap_app. cbn. rewrite Hf. apply Permutation_sym, Permutation_middle. }
  unfold index. rewrite Hperm in Hnd. cbn in Hnd. apply NoDup_cons in Hnd as [Hk Hnd]. split.
  - rewrite (list_to_map_proper _ _ (index_NoDup _ Hord) Hperm). done.
  - by apply not_elem_of_list_to_map.
Qed.

Lemma index_skip l1 q c l2 : f c = None -> index (l1 ++ q :: c :: l2) = index (l1 ++ q :: l2).
Proof.
  intros Hf. unfold index. f_equal. rewrite (cons_middle q l1 (c :: l2)), (cons_middle q l1 l2), !app_assoc, !omap_app. cbn. by rewrite Hf.
Qed.

Lemma index_size cs : ordered cs -> base.size (index cs) = length (omap f cs).
Proof. intros H. unfold index. apply map_size_list_to_map. by apply index_NoDup. Qed.

End Index.

(** The items of the table, and the heads of its buckets. *)
Definition item c : option (Z * V) :=
  match key_of (c_node c), c_value c with Some k, Some (_, y) => Some (k, y) | _, _ => None end.

Definition bucket_head c : option (Z * Z) :=
  if IsDummy (c_node c) then Some (hash (c_node c), c_addr c) else None.

Definition items cs : gmap Z V := index item cs.
Definition heads cs : gmap Z Z := index bucket_head cs.

Lemma item_key c d k y z :
  good_cell c -> good_cell d -> item c = Some (k, y) -> item d = Some (k, z) -> c_node c = c_node d.
Proof.
  intros [Hc _ _] [Hd _ _]. unfold item, wf_node in *. destruct (key_of (c_node c)) as [k1|], (key_of (c_node d)) as [k2|]; try done.
  destruct (c_value c) as [[? ?]|], (c_value d) as [[? ?]|]; try done. destruct Hc as [-> _], Hd as [-> _]. by intros [= -> _] [= -> _].
Qed.

Lemma bucket_head_key c d k y z :
  good_cell c -> good_cell d -> bucket_head c = Some (k, y) -> bucket_head d = Some (k, z) -> c_node c = c_node d.
Proof.
  intros [Hc _ _] [Hd _ _]. unfold bucket_head, wf_node, IsDummy in *.
  destruct (key_of (c_node c)), (key_of (c_node d)); cbn; try done. destruct Hc as [-> _], Hd as [-> _]. cbn. by intros [= -> _] [= -> _].
Qed.

(** The nodes of buckets. *)
Lemma heads_lookup cs b a :
  ordered cs -> heads cs !! b = Some a <-> exists c, c ∈ cs /\ c_node c = DummyNode b /\ c_addr c = a.
Proof.
  intros Hord. unfold heads. rewrite (index_lookup _ bucket_head_key) by done. apply exist_proper. intros c.
  split; intros [Hc H]; (split; [done|]).
  - pose proof (gc_wf _ (ordered_good _ _ Hord Hc)) as Hw. unfold bucket_head, wf_node, IsDummy in *.
    destruct (key_of (c_node c)); [done|]. cbn in H. injection H as <- <-. by destruct Hw as [<- _].
  - destruct H as [Hn <-]. unfold bucket_head. by rewrite Hn.
Qed.

Lemma heads_absent cs b : ordered cs -> heads cs !! b = None -> forall c, c ∈ cs -> c_node c <> DummyNode b.
Proof.
  intros Hord Hb c Hc Hn. assert (heads cs !! b = Some (c_addr c)) as H by (apply heads_lookup; [done|by exists c]). congruence.
Qed.

Lemma heads_range cs b a : ordered cs -> heads cs !! b = Some a -> 0 <= b < 2 ^ 24.
Proof.
  intros Hord (c & Hc & Hn & _)%heads_lookup; [|done]. destruct (ordered_good _ _ Hord Hc) as [Hw _ Hb].
  rewrite Hn in Hw, Hb. destruct Hw as [_ Hw]. cbn in *. specialize (Hb eq_refl). lia.
Qed.

(** The nodes of items. *)
Lemma items_lookup cs k y :
  ordered cs -> items cs !! k = Some y <-> exists c v, c ∈ cs /\ c_node c = RegularNode hash_func_ k /\ c_value c = Some (v, y).
Proof.
  intros Hord. unfold items. rewrite (index_lookup _ item_key) by done. split.
  - intros (c & Hc & H). pose proof (gc_wf _ (ordered_good _ _ Hord Hc)) as Hw. unfold item, wf_node in *.
    destruct (key_of (c_node c)) as [k'|]; [|done]. destruct (c_value c) as [[v y']|] eqn:Hv; [|done]. injection H as -> ->.
    exists c, v. by destruct Hw.
  - intros (c & v & Hc & Hn & Hv). exists c. split; [done|]. unfold item. by rewrite Hn, Hv.
Qed.

Lemma items_absent cs k : ordered cs -> (forall c, c ∈ cs -> c_node c <> RegularNode hash_func_ k) -> items cs !! k = None.
Proof.
  intros Hord Hn. destruct (items cs !! k) as [y|] eqn:Hk; [|done]. apply items_lookup in Hk as (c & v & Hc & He & _); [|done]. by destruct (Hn c Hc).
Qed.

(** Every node is one or the other. *)
Lemma cells_length cs : ordered cs -> length cs = (base.size (heads cs) + base.size (items cs))%nat.
Proof.
  intros Hord. unfold heads, items. rewrite (index_size _ bucket_head_key), (index_size _ item_key) by done.
  induction cs as [|c cs IH]; [done|]. apply ordered_cons in Hord as ([_ Hv _] & Hord & _). specialize (IH Hord).
  assert (is_Some (bucket_head c) /\ item c = None \/ bucket_head c = None /\ is_Some (item c)) as H.
  { unfold bucket_head, item, IsDummy in *. destruct (key_of (c_node c)) as [k|]; cbn in *; [right|left; by eauto].
    split; [done|]. destruct (c_value c) as [[v y]|]; [by eauto|]. destruct Hv as [Hv _]. specialize (Hv eq_refl). done. }
  cbn. destruct H as [[[? ->] ->]|[-> [? ->]]]; cbn; lia.
Qed.

(** A new bucket. *)
Lemma insert_bucket l1 q c l2 b :
  ordered (l1 ++ q :: c :: l2) -> c_node c = DummyNode b -> c_value c = None ->
  heads (l1 ++ q :: c :: l2) = <[b := c_addr c]> (heads (l1 ++ q :: l2)) /\
  heads (l1 ++ q :: l2) !! b = None /\ items (l1 ++ q :: c :: l2) = items (l1 ++ q :: l2).
Proof.
  intros Hord Hn Hv. assert (bucket_head c = Some (b, c_addr c)) as Hf by (unfold bucket_head; by rewrite Hn).
  destruct (index_cons_middle _ bucket_head_key _ _ _ _ _ _ Hord Hf) as [H1 H2]. split; [done|]. split; [done|].
  apply index_skip. unfold item. by rewrite Hn.
Qed.

(** An item more, or less. *)
Lemma insert_item l1 q c l2 k v y :
  ordered (l1 ++ q :: c :: l2) -> c_node c = RegularNode hash_func_ k -> c_value c = Some (v, y) ->
  items (l1 ++ q :: c :: l2) = <[k := y]> (items (l1 ++ q :: l2)) /\
  items (l1 ++ q :: l2) !! k = None /\ heads (l1 ++ q :: c :: l2) = heads (l1 ++ q :: l2).
Proof.
  intros Hord Hn Hv. assert (item c = Some (k, y)) as Hf by (unfold item; by rewrite Hn, Hv).
  destruct (index_cons_middle _ item_key _ _ _ _ _ _ Hord Hf) as [H1 H2]. split; [done|]. split; [done|].
  apply index_skip. unfold bucket_head. by rewrite Hn.
Qed.

End Cells.
