(* ===== verification/SoloList.v ===== *)
(** The list of nodes of the lock-free table, for a thread that runs alone: the ownership
    of a list, and the search. *)
From iris.base_logic.lib Require Import iprop.
From iris.proofmode Require Import proofmode.
From S2P Require Import Prelude Words Outcome SplitOrder Atomic Hazard Ct Solo SoloHazard SoloCells.

(** ** Nodes *)

Lemma aligned_unmarked a : aligned a -> is_marked_reference a = false.
Proof.
  intros [_ Hm]. unfold is_marked_reference. change 1 with (Z.ones 1) at 1. rewrite Z.land_ones; [|lia].
  pose proof (Z.div_mod a 16). apply Z.eqb_neq. intros He. pose proof (Z.div_mod a (2 ^ 1)).
  change (2 ^ 1) with 2 in *. lia.
Qed.

Section List.
Context {V : Type} `{!soloGS V Σ} (limit : nat).
Implicit Types (r : Reclaimer) (S : list Z) (c : cell V) (cs : list (cell V)) (x : node).

Abbreviation solo := (solo limit).

Definition value_pt c : iProp Σ :=
  match c_value c with
  | None => ⌜IsDummy (c_node c) = true⌝
  | Some (v, y) => ⌜IsDummy (c_node c) = false /\ v <> 0⌝ ∗ atom_pt (Value (c_addr c)) v ∗ obj_pt v (OValue y)
  end.

Definition cell_pt c (nx : Z) : iProp Σ :=
  ⌜aligned (c_addr c)⌝ ∗ obj_pt (c_addr c) (ONode (c_node c)) ∗ atom_pt (Next (c_addr c)) nx ∗ value_pt c.

(** The nodes [cs], each with the next one as its successor, and [nx] after the last. *)
Fixpoint lseg cs (nx : Z) : iProp Σ :=
  match cs with
  | [] => True
  | c :: cs => cell_pt c (start cs nx) ∗ lseg cs nx
  end.

Lemma lseg_app cs1 cs2 nx : lseg (cs1 ++ cs2) nx ⊣⊢ lseg cs1 (start cs2 nx) ∗ lseg cs2 nx.
Proof.
  induction cs1 as [|c cs1 IH]; cbn [lseg app].
  - by rewrite left_id.
  - rewrite IH -assoc. f_equiv. destruct cs1; done.
Qed.

Lemma lseg_start cs nx : lseg cs nx -∗ ⌜start cs nx = nx /\ cs = [] \/ aligned (start cs nx) /\ cs <> []⌝.
Proof.
  destruct cs as [|c cs]; cbn; iIntros "H"; [by auto|]. iDestruct "H" as "[[% _] _]". iPureIntro. right. done.
Qed.

Lemma lseg_aligned cs nx c : c ∈ cs -> lseg cs nx -∗ ⌜aligned (c_addr c)⌝.
Proof.
  iIntros (Hc) "H". apply list_elem_of_split in Hc as (l1 & l2 & Hcs). subst cs.
  iDestruct (lseg_app with "H") as "[_ [[$ _] _]]".
Qed.

(** Nodes of a list have different addresses. *)
Lemma lseg_NoDup cs nx : lseg cs nx -∗ ⌜NoDup (c_addr <$> cs)⌝.
Proof.
  iIntros "H". iInduction cs as [|c cs IH] "IH"; cbn [lseg fmap list_fmap]; [iPureIntro; constructor|].
  iDestruct "H" as "[(_ & Ho & _) H]". iDestruct ("IH" with "H") as %Hnd. rewrite NoDup_cons. iSplit; [|done].
  iIntros (Hin). apply list_elem_of_fmap in Hin as (c' & Hc & Hin). apply list_elem_of_split in Hin as (l1 & l2 & ->).
  rewrite lseg_app. iDestruct "H" as "[_ [(_ & Ho' & _) _]]". rewrite Hc. by iDestruct (obj_pt_ne with "Ho Ho'") as %?.
Qed.

(** ** Searching *)

Context (fuel : nat) (Hfuel : (4 <= fuel)%nat).

(** What a search for [x] from the first node of [cs] on finds: [q] is the last node that
    is less, or the first node of all, and [l2] are the nodes behind it. *)
Record searched cs x (f : found_at) (l1 : list (cell V)) (q : cell V) (l2 : list (cell V)) : Prop := {
  sd_split : cs = l1 ++ q :: l2;
  sd_less : Forall (fun c => Less (c_node c) x = true) (tail (l1 ++ [q]));
  sd_prev : prev f = c_addr q;
  sd_cur : cur f = start l2 0;
  sd_found : match l2 with
             | [] => found f = false
             | c :: _ => Less (c_node c) x = false /\ found f = Equals (c_node c) x
             end;
}.

Lemma solo_search_loop n cs p x head at_ ph ch N r Φ :
  (length cs < n)%nat -> at_ = try_again /\ head = c_addr p \/ at_ = looking (c_addr p) (start cs 0) ->
  ok_hp r ph -> ok_hp r ch ->
  lseg (p :: cs) 0 -∗ mine N r [ch; ph] -∗
  (∀ f l1 q l2 r', ⌜searched (p :: cs) x f l1 q l2⌝ -∗
     ⌜ok_hp r' (prev_hp f) /\ ok_hp r' (cur_hp f) /\ hp_list_ r `prefix_of` hp_list_ r'⌝ -∗
     lseg (p :: cs) 0 -∗ mine N r' [cur_hp f; prev_hp f] -∗ Φ f r') -∗
  solo (search_loop fuel n head x at_ ph ch) r Φ.
Proof using Hfuel.
  iIntros (Hn Hat Hph Hch) "Hl Hm HΦ". iInduction n as [|n IH] "IH" forall (cs p at_ ph ch r Φ Hn Hat Hph Hch); [lia|].
  cbn [search_loop]. iApply solo_bind.
  iAssert (∀ Ψ, (lseg (p :: cs) 0 -∗ Ψ (c_addr p, start cs 0) r) -∗
    solo (match at_ with try_again => cur ← get_next head; mret (head, cur) | looking prev cur => mret (prev, cur) end) r Ψ)%I
    with "[Hl]" as "Hbegin".
  { iIntros (Ψ) "HΨ". destruct Hat as [[-> ->]| ->].
    - iDestruct "Hl" as "[(Ha & Ho & Hx & Hv) Hl]". iApply solo_bind. iApply (solo_load with "Hx"). iIntros "Hx".
      iApply solo_ret. iApply "HΨ". by iFrame.
    - iApply solo_ret. by iApply "HΨ". }
  iApply "Hbegin". iIntros "Hl". iApply solo_bind. iApply (solo_UnMarkHazard with "Hm"); [done|]. iIntros "Hm".
  iApply solo_bind. iApply (solo_MarkHazard with "Hm"); [done|]. iIntros (i r1) "[%Hi %Hpre] Hm".
  iDestruct "Hl" as "[(%Hap & Hop & Hxp & Hvp) Hl]".
  iApply solo_bind. iApply (solo_load with "Hxp"). iIntros "Hxp". rewrite Z.eqb_refl. cbn [negb].
  assert (ok_hp r1 ph) as Hph1.
  { destruct Hph as [|Hph]; [by left|right]. apply prefix_length in Hpre. lia. }
  destruct cs as [|c cs]; cbn [start].
  { rewrite Z.eqb_refl. iApply solo_ret.
    iApply ("HΦ" $! (MkFound false (c_addr p) 0 ph i) [] p [] with "[%] [%] [Hop Hxp Hvp] Hm"); [by split|done|]. by iFrame. }
  iDestruct "Hl" as "[(%Hac & Hoc & Hxc & Hvc) Hl]". assert (c_addr c <> 0) by (destruct Hac; lia).
  test (c_addr c =? 0) is false. iDestruct (lseg_start with "Hl") as %Hst.
  assert (is_marked_reference (start cs 0) = false) as Hmark.
  { destruct Hst as [[-> _]|[Ha _]]; [done|by apply aligned_unmarked]. }
  iApply solo_bind. iApply (solo_load with "Hxc"). iIntros "Hxc". rewrite Hmark.
  iApply solo_bind. iApply (solo_load with "Hxp"). iIntros "Hxp". rewrite Z.eqb_refl. cbn [negb].
  iApply solo_bind. iApply (solo_fields with "Hoc"). iIntros "Hoc".
  unfold GreaterOrEquals. destruct (Less (c_node c) x) eqn:Hless; cbn [negb].
  - iApply ("IH" $! cs c (looking (c_addr c) (start cs 0)) i ph with "[%] [%] [%] [%] [Hoc Hxc Hvc Hl] [Hm]"); try done.
    + cbn in Hn. lia.
    + by right.
    + by iFrame.
    + iApply (mine_sub with "Hm"). set_solver.
    + iIntros (f l1 q l2 r2) "%Hs (%H1 & %H2 & %H3) Hl Hm".
      iApply ("HΦ" $! f (p :: l1) q l2 with "[%] [%] [Hop Hxp Hvp Hl] Hm").
      * destruct Hs as [S1 S2 S3 S4 S5]. split; try done; [cbn; by f_equal|]. cbn [app tail].
        assert (l1 ++ [q] = c :: tail (l1 ++ [q])) as -> by (destruct l1; cbn in *; by injection S1 as <- _).
        by constructor.
      * split; [done|]. split; [done|]. by etrans.
      * cbn [lseg start]. by iFrame.
  - iApply solo_ret.
    iApply ("HΦ" $! (MkFound (Equals (c_node c) x) (c_addr p) (c_addr c) ph i) [] p (c :: cs) with "[%] [%] [Hop Hxp Hvp Hoc Hxc Hvc Hl] Hm").
    + by split.
    + done.
    + cbn [lseg start]. by iFrame.
Qed.

(** What [SearchNode] answers, for a place in the list. *)
Record answer_at (f : found_at) x (q : cell V) (l2 : list (cell V)) : Prop := {
  an_prev : prev f = c_addr q;
  an_cur : cur f = start l2 0;
  an_found : found f = match l2 with [] => false | d :: _ => Equals (c_node d) x end;
}.

Definition marks r (f : found_at) : Prop := ok_hp r (prev_hp f) /\ ok_hp r (cur_hp f).

Lemma searched_place p cs x f l1 q l2 l0 :
  Less (c_node p) x = true -> searched (p :: cs) x f l1 q l2 ->
  place (l0 ++ p :: cs) x (l0 ++ l1) q l2 /\ answer_at f x q l2.
Proof using.
  intros Hp [S1 S2 S3 S4 S5]. split; [split|split]; try done.
  - by rewrite S1 app_assoc.
  - destruct l1 as [|p' l1]; [by injection S1 as <- _|]. cbn in S2. apply Forall_app in S2 as [_ S2].
    by inversion S2.
  - destruct l2; [done|by destruct S5].
  - destruct l2; [done|by destruct S5].
Qed.

(** The search from a node [p] that is less finds the place, and marks it. *)
Lemma solo_SearchNode cs p x ph ch N r Φ :
  (length cs < fuel)%nat -> p ∈ cs -> Less (c_node p) x = true -> ok_hp r ph -> ok_hp r ch ->
  lseg cs 0 -∗ mine N r [ch; ph] -∗
  (∀ f l1 q l2 r', ⌜place cs x l1 q l2 /\ answer_at f x q l2 /\ marks r' f⌝ -∗
     lseg cs 0 -∗ mine N r' [cur_hp f; prev_hp f] -∗ Φ f r') -∗
  solo (SearchNode fuel (c_addr p) x ph ch) r Φ.
Proof using Hfuel.
  iIntros (Hn Hp Hless Hph Hch) "Hl Hm HΦ". apply list_elem_of_split in Hp as (l0 & cs1 & Hcs). subst cs.
  iDestruct (lseg_app with "Hl") as "[Hl0 Hl]". unfold SearchNode. rewrite length_app in Hn. cbn in Hn.
  iApply (solo_search_loop with "Hl Hm"); [lia|by left|done|done|].
  iIntros (f l1 q l2 r') "%Hs (%H1 & %H2 & %H3) Hl Hm". pose proof (searched_place _ _ _ _ _ _ _ l0 Hless Hs) as H.
  iApply ("HΦ" $! f (l0 ++ l1) q l2 with "[%] [Hl0 Hl] Hm"); [split_and!; by destruct H|]. iApply lseg_app. iFrame.
Qed.

(** The hazard pointers are given back. *)
Lemma solo_unmark f N r Φ :
  marks r f -> mine N r [cur_hp f; prev_hp f] -∗ (mine N r [] -∗ Φ () r) -∗ solo (unmark f) r Φ.
Proof using.
  iIntros ([Hp Hc]) "Hm HΦ". unfold unmark. iApply solo_bind. iApply (solo_UnMarkHazard with "Hm"); [done|]. iIntros "Hm".
  iApply (solo_UnMarkHazard with "Hm"); done.
Qed.

(** ** A new node in the list *)

Lemma lseg_middle l1 q l2 nx :
  lseg (l1 ++ q :: l2) nx ⊣⊢ lseg l1 (c_addr q) ∗ cell_pt q (start l2 nx) ∗ lseg l2 nx.
Proof using. by rewrite lseg_app. Qed.

(** The successor of a node is changed. *)
Lemma solo_link weak l1 q c l2 r Φ :
  lseg (l1 ++ q :: l2) 0 -∗ cell_pt c (start l2 0) -∗
  (lseg (l1 ++ q :: c :: l2) 0 -∗ Φ (true, start l2 0) r) -∗
  solo (atomically (Cas weak (Next (c_addr q)) (start l2 0) (c_addr c))) r Φ.
Proof using.
  iIntros "Hl Hc HΦ". iDestruct (lseg_middle with "Hl") as "(Hl1 & (Ha & Ho & Hx & Hv) & Hl2)".
  iApply (solo_cas with "Hx"). iIntros "Hx". iApply "HΦ". iApply lseg_middle. iFrame.
Qed.

Lemma solo_InsertDummyNode cs p x a N r Φ :
  (length cs < fuel)%nat -> p ∈ cs -> Less (c_node p) x = true ->
  (forall l1 q l2, place cs x l1 q l2 -> not_found x l2) ->
  aligned a -> IsDummy x = true ->
  lseg cs 0 -∗ mine N r [] -∗ obj_pt a (ONode x) -∗ atom_pt (Next a) 0 -∗
  (∀ l1 q l2 r', ⌜place cs x l1 q l2⌝ -∗
     lseg (l1 ++ q :: MkCell a x None :: l2) 0 -∗ mine N r' [] -∗ Φ (true, a) r') -∗
  solo (InsertDummyNode fuel (c_addr p) a x) r Φ.
Proof using Hfuel.
  iIntros (Hn Hp Hless Habs Ha Hx) "Hl Hm Ho Hnx HΦ". unfold InsertDummyNode.
  assert (exists n, fuel = S n) as [n Hf] by (exists (pred fuel); lia). rewrite {2}Hf. cbn [insert_dummy_loop].
  iApply solo_bind. iApply (solo_SearchNode with "Hl [Hm]"); [done..|by left|by left| |].
  { iApply (mine_sub with "Hm"). set_solver. }
  iIntros (f l1 q l2 r1 (Hpl & [Hpr Hcu Hfo] & Hmarks)) "Hl Hm".
  assert (found f = false) as -> by (rewrite Hfo; specialize (Habs _ _ _ Hpl); by destruct l2).
  iApply solo_bind. iApply (solo_store with "Hnx"). iIntros "Hnx". rewrite Hpr Hcu.
  pose proof (pl_split _ _ _ _ _ Hpl) as Hs. subst cs.
  iApply solo_bind. iApply (solo_link _ l1 q (MkCell a x None) l2 with "Hl [Ho Hnx]"); [by iFrame|]. iIntros "Hl".
  iApply solo_bind. iApply (solo_unmark with "Hm"); [done|]. iIntros "Hm". iApply solo_ret.
  by iApply ("HΦ" with "[%] Hl Hm").
Qed.

End List.
