(* ===== verification/SoloBuckets.v ===== *)
(** The buckets of the lock-free table, for a thread that runs alone: the tree of segments,
    the heads of the buckets, and a bucket that is used for the first time, which is
    initialized after its parents. *)
From iris.base_logic.lib Require Import iprop.
From iris.proofmode Require Import proofmode.
From S2P Require Import Prelude Words Outcome SplitOrder Atomic Hazard Ct Solo SoloHazard SoloCells SoloList.

(** ** Places in the tree *)

(** The place of an index at the four levels. *)
Lemma place_1 b : 0 <= b < 2 ^ 24 -> 64 * 0 + level_index b 1 = b / 64 ^ 3.
Proof.
  intros Hb. unfold level_index, kMaxLevel, kSegmentSize. change (4 - 1) with 3. rewrite Z.mod_small; [lia|].
  split; [apply Z.div_pos; lia|apply Z.div_lt_upper_bound; lia].
Qed.

Lemma place_step b (d : Z) : 0 < d -> 64 * (b / (d * 64)) + (b / d) mod 64 = b / d.
Proof. intros Hd. rewrite -Z.div_div; [|lia..]. pose proof (Z.div_mod (b / d) 64). lia. Qed.

Lemma place_2 b : 64 * (b / 64 ^ 3) + level_index b 2 = b / 64 ^ 2.
Proof. apply (place_step b (64 ^ 2)). lia. Qed.

Lemma place_3 b : 64 * (b / 64 ^ 2) + level_index b 3 = b / 64.
Proof. apply (place_step b 64). lia. Qed.

Lemma place_4 b : 64 * (b / 64) + level_index b 4 = b.
Proof.
  unfold level_index. change (kSegmentSize ^ (kMaxLevel - 4)) with 1. change kSegmentSize with 64. rewrite Z.div_1_r.
  pose proof (Z.div_mod b 64). lia.
Qed.

Lemma in_indices j : j ∈ indices <-> 0 <= j < 64.
Proof.
  unfold indices. rewrite list_elem_of_fmap. split.
  - intros (i & -> & Hi%elem_of_seq). lia.
  - intros Hj. exists (Z.to_nat j). rewrite elem_of_seq. lia.
Qed.

Lemma indices_lookup j : 0 <= j < 64 -> indices !! Z.to_nat j = Some j.
Proof. intros Hj. unfold indices. rewrite list_lookup_fmap lookup_seq_lt; [cbn; f_equal|]; lia. Qed.

Lemma indices_lookup_inv i j : indices !! i = Some j -> j = Z.of_nat i /\ 0 <= j < 64.
Proof.
  unfold indices. rewrite list_lookup_fmap. intros (k & Hk & ->)%fmap_Some. apply lookup_seq in Hk. lia.
Qed.

(** Every entry has a parent. *)
Definition has_parents (M Ms : gmap Z Z) : Prop := forall q, is_Some (Ms !! q) -> is_Some (M !! (q / 64)).

Record tree (M1 M2 M3 H : gmap Z Z) : Prop := {
  tr_top : forall q, is_Some (M1 !! q) -> 0 <= q < 64;
  tr_2 : has_parents M1 M2;
  tr_3 : has_parents M2 M3;
  tr_heads : has_parents M3 H;
}.

Lemma no_child M Ms q : has_parents M Ms -> M !! (q / 64) = None -> Ms !! q = None.
Proof. intros Hp Hn. apply eq_None_not_Some. intros [? H]%Hp. congruence. Qed.

(** A missing segment has no buckets. *)
Lemma no_bucket M1 M2 M3 H b : tree M1 M2 M3 H ->
  M1 !! (b / 64 ^ 3) = None \/ M2 !! (b / 64 ^ 2) = None \/ M3 !! (b / 64) = None -> H !! b = None.
Proof.
  intros [_ H2 H3 H4] Hn. apply (no_child M3); [done|]. destruct Hn as [Hn|[Hn|Hn]]; [| |done];
    (apply (no_child M2); [done|]); rewrite Z.div_div //; [].
  apply (no_child M1); [done|]. rewrite Z.div_div //.
Qed.

Section Buckets.
Context {V : Type} `{!soloGS V Σ} (limit : nat).
Implicit Types (M Ms H : gmap Z Z) (r : Reclaimer).

Abbreviation solo := (solo limit).

(** ** Resources *)

(** The entries below [p] of an array of atomic members. *)
Definition slots (f : Z -> loc) Ms (p : Z) : iProp Σ :=
  [∗ list] j ∈ indices, atom_pt (f j) (default 0 (Ms !! (64 * p + j))).

Lemma slots_acc f Ms p j : 0 <= j < 64 ->
  slots f Ms p -∗ atom_pt (f j) (default 0 (Ms !! (64 * p + j))) ∗
  (∀ x Ms', ⌜default 0 (Ms' !! (64 * p + j)%Z) = x /\ forall q : Z, q <> (64 * p + j)%Z -> Ms' !! q = Ms !! q⌝ -∗
     atom_pt (f j) x -∗ slots f Ms' p).
Proof.
  iIntros (Hj) "Hs". unfold slots. pose proof (indices_lookup j Hj) as Hi.
  iDestruct (big_sepL_lookup_acc_impl _ _ Hi with "Hs") as "[$ Hs]". iIntros (x Ms' [Hx Hq]) "Hj".
  iApply ("Hs" $! (fun _ j => atom_pt (f j) (default 0 (Ms' !! (64 * p + j)))) with "[] [Hj]"); [|by rewrite Hx]. iIntros "!>" (k y Hk Hne) "Hy". rewrite Hq; [done|].
  apply indices_lookup_inv in Hk as [-> _]. lia.
Qed.

Lemma slots_other f Ms Ms' p : (forall j, 0 <= j < 64 -> Ms' !! (64 * p + j) = Ms !! (64 * p + j)) ->
  slots f Ms p -∗ slots f Ms' p.
Proof.
  iIntros (Hq) "Hs". iApply (big_sepL_impl with "Hs"). iIntros "!>" (k j Hk%indices_lookup_inv) "Hj".
  rewrite Hq; [done|lia].
Qed.

(** Fresh members. *)
Lemma slots_new f Ms p : (forall j, 0 <= j < 64 -> Ms !! (64 * p + j) = None) ->
  ([∗ list] l ∈ f <$> indices, atom_pt l 0) -∗ slots f Ms p.
Proof.
  iIntros (Hq) "Hs". rewrite big_sepL_fmap. iApply (big_sepL_impl with "Hs"). iIntros "!>" (k j Hk%indices_lookup_inv) "Hj".
  rewrite Hq; [done|lia].
Qed.

(** A level of the tree: the objects [o] at the addresses in [M], whose members are the
    addresses in [Ms]. *)
Definition level (o : obj V) (at_ : Z -> Z -> loc) M Ms : iProp Σ :=
  [∗ map] p ↦ a ∈ M, ⌜aligned a⌝ ∗ obj_pt a o ∗ slots (at_ a) Ms p.

Lemma level_acc o at_ M Ms p a j : M !! p = Some a -> 0 <= j < 64 ->
  level o at_ M Ms -∗ atom_pt (at_ a j) (default 0 (Ms !! (64 * p + j))) ∗
  (∀ x Ms', ⌜default 0 (Ms' !! (64 * p + j)%Z) = x /\ forall q : Z, q <> (64 * p + j)%Z -> Ms' !! q = Ms !! q⌝ -∗
     atom_pt (at_ a j) x -∗ level o at_ M Ms').
Proof.
  iIntros (Hp Hj) "Hl". unfold level. iDestruct (big_sepM_delete _ _ _ _ Hp with "Hl") as "[(Ha & Ho & Hs) Hl]".
  iDestruct (slots_acc _ _ _ _ Hj with "Hs") as "[$ Hs]". iIntros (x Ms' Hx) "Hj".
  iDestruct ("Hs" with "[//] Hj") as "Hs". iApply big_sepM_delete; [done|]. iFrame.
  iApply (big_sepM_impl with "Hl"). iIntros "!>" (p' a' Hp') "($ & $ & Hs)". iApply (slots_other with "Hs").
  intros j' Hj'. apply Hx. intros He. assert (p' = p) as -> by lia. by rewrite lookup_delete_eq in Hp'.
Qed.

Lemma level_aligned o at_ M Ms p a : M !! p = Some a -> level o at_ M Ms -∗ ⌜aligned a⌝.
Proof. iIntros (Hp) "Hl". by iDestruct (big_sepM_lookup _ _ _ _ Hp with "Hl") as "[$ _]". Qed.

(** The heads [H] of the buckets in a tree of [n] segments and arrays of buckets. *)
Definition buckets (n : nat) H : iProp Σ :=
  ∃ M1 M2 M3, ⌜tree M1 M2 M3 H /\ n = (base.size M1 + base.size M2 + base.size M3)%nat /\
      forall b a, H !! b = Some a -> a <> 0⌝ ∗
    slots Top M1 0 ∗ level (OSegments 2) Data M1 M2 ∗ level (OSegments 3) Data M2 M3 ∗ level OBuckets BucketAt M3 H.

(** ** Reading *)

Lemma solo_slot f Ms p j r Φ : 0 <= j < 64 ->
  slots f Ms p -∗ (slots f Ms p -∗ Φ (default 0 (Ms !! (64 * p + j))) r) -∗ solo (load (f j)) r Φ.
Proof.
  iIntros (Hj) "Hs HΦ". iDestruct (slots_acc _ _ _ _ Hj with "Hs") as "[Hj Hs]". iApply (solo_load with "Hj").
  iIntros "Hj". iApply "HΦ". by iApply ("Hs" with "[] Hj").
Qed.

Lemma solo_level o at_ M Ms p a j r Φ : M !! p = Some a -> 0 <= j < 64 ->
  level o at_ M Ms -∗ (level o at_ M Ms -∗ Φ (default 0 (Ms !! (64 * p + j))) r) -∗ solo (load (at_ a j)) r Φ.
Proof.
  iIntros (Hp Hj) "Hs HΦ". iDestruct (level_acc _ _ _ _ _ _ _ Hp Hj with "Hs") as "[Hj Hs]". iApply (solo_load with "Hj").
  iIntros "Hj". iApply "HΦ". by iApply ("Hs" with "[] Hj").
Qed.

Lemma solo_GetBucketHeadByIndex b n H r Φ : 0 <= b < 2 ^ 24 ->
  buckets n H -∗ (buckets n H -∗ Φ (default 0 (H !! b)) r) -∗ solo (GetBucketHeadByIndex b) r Φ.
Proof.
  iIntros (Hb) "(%M1 & %M2 & %M3 & [%Ht %Hn] & H1 & H2 & H3 & H4) HΦ".
  pose proof (level_index_range b) as Hi. change kSegmentSize with 64 in Hi.
  unfold GetBucketHeadByIndex. iApply solo_bind. cbn [inner_levels find_segments data_of].
  iApply solo_bind. iApply (solo_slot with "H1"); [done|]. iIntros "H1". rewrite place_1 //.
  iAssert (slots Top M1 0 -∗ level (OSegments 2) Data M1 M2 -∗ level (OSegments 3) Data M2 M3 -∗
    level OBuckets BucketAt M3 H -∗ buckets n H)%I as "Hback".
  { iIntros "H1 H2 H3 H4". iExists M1, M2, M3. by iFrame. }
  destruct (M1 !! (b / 64 ^ 3)) as [a1|] eqn:E1; cbn [default from_option id].
  2: { iApply solo_ret. rewrite bool_decide_true //. iApply solo_ret.
       rewrite (no_bucket _ _ _ _ _ Ht); [|by left]. iApply "HΦ". iApply ("Hback" with "H1 H2 H3 H4"). }
  iDestruct (level_aligned _ _ _ _ _ _ E1 with "H2") as %[Ha1 _]. test (a1 =? 0) is false.
  iApply solo_bind. iApply (solo_level with "H2"); [done..|]. iIntros "H2". rewrite place_2.
  destruct (M2 !! (b / 64 ^ 2)) as [a2|] eqn:E2; cbn [default from_option id].
  2: { iApply solo_ret. rewrite bool_decide_true //. iApply solo_ret.
       rewrite (no_bucket _ _ _ _ _ Ht); [|by right; left]. iApply "HΦ". iApply ("Hback" with "H1 H2 H3 H4"). }
  iDestruct (level_aligned _ _ _ _ _ _ E2 with "H3") as %[Ha2 _]. test (a2 =? 0) is false.
  iApply solo_ret. rewrite bool_decide_false; [|intros [= ->]; lia].
  iApply solo_bind. iApply (solo_level with "H3"); [done..|]. iIntros "H3". rewrite place_3.
  destruct (M3 !! (b / 64)) as [a3|] eqn:E3; cbn [default from_option id].
  2: { iApply solo_ret. rewrite (no_bucket _ _ _ _ _ Ht); [|by right; right]. iApply "HΦ". iApply ("Hback" with "H1 H2 H3 H4"). }
  iDestruct (level_aligned _ _ _ _ _ _ E3 with "H4") as %[Ha3 _]. test (a3 =? 0) is false.
  iApply (solo_level with "H4"); [done..|]. iIntros "H4". rewrite place_4. iApply "HΦ". iApply ("Hback" with "H1 H2 H3 H4").
Qed.

(** ** Making segments *)

(** A new object at [q] of a level, below nothing yet. *)
Lemma level_insert o at_ M Ms q a :
  M !! q = None -> has_parents M Ms -> members a o = at_ a <$> indices -> aligned a ->
  obj_pt a o -∗ ([∗ list] l ∈ members a o, atom_pt l 0) -∗ level o at_ M Ms -∗ level o at_ (<[q := a]> M) Ms.
Proof.
  iIntros (Hq Hp Hm Ha) "Ho Hs Hl". unfold level. rewrite big_sepM_insert //. iFrame. iSplit; [done|].
  rewrite Hm. iApply (slots_new with "Hs"). intros j Hj. apply (no_child M); [done|].
  replace ((64 * q + j) / 64) with q; [done|]. apply Z.div_unique with j; lia.
Qed.

(** The entry [a] at [q], an old one or a new one; [k] and [k'] count the objects that
    can still be made. *)
Definition child M (q : Z) (k : nat) (a : Z) M' (k' : nat) : Prop :=
  aligned a /\ M' !! q = Some a /\ (forall q', q' <> q -> M' !! q' = M !! q') /\
  (k' + base.size M' = k + 1 + base.size M)%nat /\ (k <= k')%nat.

(** The member [l] is loaded; if it is null, a new object is made and published. *)
Lemma solo_child {A} l o at_ M Ms q k (K : Z -> thread V A) r Φ :
  has_parents M Ms -> (forall a, members a o = at_ a <$> indices) ->
  atom_pt l (default 0 (M !! q)) -∗ level o at_ M Ms -∗ room (k + 1) -∗
  (∀ a M' k', ⌜child M q k a M' k'⌝ -∗ atom_pt l a -∗ level o at_ M' Ms -∗ room k' -∗ solo (K a) r Φ) -∗
  solo (sub ← load l; sub ← (if sub =? 0 then new ← atomically (New o); publish l new else mret sub); K sub) r Φ.
Proof.
  iIntros (Hp Hm) "Hl Hlev Hroom HΦ". iApply solo_bind. iApply (solo_load with "Hl"). iIntros "Hl". iApply solo_bind.
  destruct (M !! q) as [a|] eqn:Hq; cbn [default from_option id].
  - iDestruct (level_aligned _ _ _ _ _ _ Hq with "Hlev") as %Ha. destruct Ha as [Ha Ha']. test (a =? 0) is false.
    iApply solo_ret. iApply ("HΦ" with "[%] Hl Hlev Hroom"). split_and!; try done; lia.
  - rewrite room_split. iDestruct "Hroom" as "[Hroom H1]". iApply solo_bind. iApply (solo_new with "H1").
    iIntros (a Ha) "Ho Hs". unfold publish. iApply solo_bind. iApply (solo_cas with "Hl"). iIntros "Hl". iApply solo_ret.
    iDestruct (level_insert with "Ho Hs Hlev") as "Hlev"; [done..|].
    iApply ("HΦ" with "[%] Hl Hlev Hroom"). unfold child. rewrite lookup_insert_eq map_size_insert_None //. split_and!; try done; [|lia..].
    intros q' Hne. by rewrite lookup_insert_ne.
Qed.

Lemma has_parents_grow M Ms M' Ms' q :
  has_parents M Ms -> (forall p, is_Some (M !! p) -> is_Some (M' !! p)) -> is_Some (M' !! (q / 64)) ->
  (forall q', q' <> q -> Ms' !! q' = Ms !! q') -> has_parents M' Ms'.
Proof. intros Hp HM Hq Hs q' Hq'. destruct (decide (q' = q)) as [->|Hne]; [done|]. rewrite Hs // in Hq'. by apply HM, Hp. Qed.

Lemma child_grows M q k a M' k' p : child M q k a M' k' -> is_Some (M !! p) -> is_Some (M' !! p).
Proof. intros (_ & Hq & Hs & _) Hp. destruct (decide (p = q)) as [->|Hne]; [by exists a|]. by rewrite Hs. Qed.

(** The segments on the way to a bucket that has no head. *)
Lemma solo_make_bucket {A} b n H k (rest : loc -> thread V A) r Φ :
  0 <= b < 2 ^ 24 -> H !! b = None -> buckets n H -∗ room (k + 3) -∗
  (∀ l n' k', ⌜(k' + n' = k + 3 + n)%nat /\ (k <= k')%nat⌝ -∗ room k' -∗ atom_pt l 0 -∗
     (∀ x, ⌜x <> 0⌝ -∗ atom_pt l x -∗ buckets n' (<[b := x]> H)) -∗ solo (rest l) r Φ) -∗
  solo (segments ← make_segments inner_levels None b;
        buckets ← load (data_of segments (level_index b 3));
        buckets ← (if buckets =? 0 then new ← NewBuckets; publish (data_of segments (level_index b 3)) new else mret buckets);
        rest (BucketAt buckets (level_index b 4))) r Φ.
Proof.
  iIntros (Hb Hnone) "(%M1 & %M2 & %M3 & (%Ht & %Hn & %Hnz) & H1 & H2 & H3 & H4) Hroom HΦ".
  pose proof (level_index_range b) as Hi. change kSegmentSize with 64 in Hi. destruct Ht as [T1 T2 T3 T4].
  replace (k + 3)%nat with (k + 2 + 1)%nat by lia.
  iApply solo_bind. cbn [inner_levels make_segments data_of]. unfold NewSegments, NewBuckets.
  iDestruct (slots_acc _ _ _ _ (Hi 1) with "H1") as "[Hj H1]". rewrite place_1 //.
  iApply (solo_child with "Hj H2 Hroom"); [done..|]. iIntros (a1 M1' k1 C1) "Hj H2 Hroom".
  iDestruct ("H1" $! a1 M1' with "[%] Hj") as "H1".
  { destruct C1 as (_ & -> & Hs & _). split; [done|]. intros q Hq. by apply Hs. }
  assert (M1' !! (b / 64 ^ 3) = Some a1) as E1 by apply C1. assert (k + 2 <= k1)%nat as Hk1 by apply C1.
  replace k1 with (k1 - 1 + 1)%nat by lia.
  iDestruct (level_acc _ _ _ _ _ _ _ E1 (Hi 2) with "H2") as "[Hj H2]". rewrite place_2.
  iApply (solo_child with "Hj H3 Hroom"); [done..|]. iIntros (a2 M2' k2 C2) "Hj H3 Hroom".
  iDestruct ("H2" $! a2 M2' with "[%] Hj") as "H2".
  { destruct C2 as (_ & -> & Hs & _). split; [done|]. intros q Hq. by apply Hs. }
  assert (M2' !! (b / 64 ^ 2) = Some a2) as E2 by apply C2. assert (k1 - 1 <= k2)%nat as Hk2 by apply C2.
  iApply solo_ret. cbn [data_of]. replace k2 with (k2 - 1 + 1)%nat by lia.
  iDestruct (level_acc _ _ _ _ _ _ _ E2 (Hi 3) with "H3") as "[Hj H3]". rewrite place_3.
  iApply (solo_child with "Hj H4 Hroom"); [done..|]. iIntros (a3 M3' k3 C3) "Hj H4 Hroom".
  iDestruct ("H3" $! a3 M3' with "[%] Hj") as "H3".
  { destruct C3 as (_ & -> & Hs & _). split; [done|]. intros q Hq. by apply Hs. }
  assert (M3' !! (b / 64) = Some a3) as E3 by apply C3.
  iDestruct (level_acc _ _ _ _ _ _ _ E3 (Hi 4) with "H4") as "[Hj H4]". rewrite place_4 Hnone. cbn [default from_option id].
  iApply ("HΦ" $! _ (base.size M1' + base.size M2' + base.size M3')%nat with "[%] Hroom Hj").
  { unfold child in *. lia. }
  iIntros (x Hx) "Hj". iExists M1', M2', M3'. iFrame "H1 H2 H3". iSplit.
  - iPureIntro. split; [split|split; [done|]].
    + intros q Hq. destruct (decide (q = b / 64 ^ 3)) as [->|Hne].
      * split; [apply Z.div_pos; lia|apply Z.div_lt_upper_bound; lia].
      * apply T1. destruct C1 as (_ & _ & Hs & _). by rewrite -Hs.
    + apply (has_parents_grow M1 M2 _ _ (b / 64 ^ 2)); [done|by intros p; eapply child_grows| |apply C2].
      rewrite Z.div_div; [by exists a1|lia..].
    + apply (has_parents_grow M2 M3 _ _ (b / 64)); [done|by intros p; eapply child_grows| |apply C3].
      rewrite Z.div_div; [by exists a2|lia..].
    + apply (has_parents_grow M3 H _ _ b); [done|by intros p; eapply child_grows|by exists a3|].
      intros q Hq. by rewrite lookup_insert_ne.
    + intros b' a [[_ <-]|[_ Hb']]%lookup_insert_Some; [done|by eapply Hnz].
  - iApply ("H4" with "[%] Hj"). rewrite lookup_insert_eq. split; [done|]. intros q Hq. by rewrite lookup_insert_ne.
Qed.
End Buckets.

Section Init.
Context {V : Type} `{!soloGS V Σ} (limit : nat) (hash_func_ : Z -> Z).
Context (fuel : nat) (Hfuel : (4 <= fuel)%nat).
Implicit Types (r : Reclaimer) (cs : list (cell V)) (c p : cell V).

Abbreviation solo := (solo limit).
Abbreviation ordered := (ordered hash_func_).

(** The number of buckets with a node. *)
Definition bucket_count cs : nat := base.size (heads cs).

(** The list [cs] has become [cs'] by new buckets, [d] at most and none above [b]; [n] and [n'] count the
    segments, [k] and [k'] the objects that can still be made. *)
Record more_buckets (d : nat) (b : Z) cs (n k : nat) cs' (n' k' : nat) : Prop := {
  mb_ordered : ordered cs';
  mb_items : items cs' = items cs;
  mb_heads : forall b' a, heads cs !! b' = Some a -> heads cs' !! b' = Some a;
  mb_above : forall b', b < b' -> heads cs' !! b' = heads cs !! b';
  mb_count : (bucket_count cs <= bucket_count cs' <= bucket_count cs + d)%nat;
  mb_total : (k' + n' + bucket_count cs' = k + n + bucket_count cs)%nat;
  mb_room : (k + 4 * bucket_count cs <= k' + 4 * bucket_count cs')%nat;
}.

Lemma more_buckets_refl b cs n k : ordered cs -> more_buckets 0 b cs n k cs n k.
Proof. intros. split; [done..|lia|lia|lia]. Qed.

Lemma more_buckets_trans d d' b b' cs n k cs1 n1 k1 cs2 n2 k2 :
  b <= b' -> more_buckets d b cs n k cs1 n1 k1 -> more_buckets d' b' cs1 n1 k1 cs2 n2 k2 -> more_buckets (d + d') b' cs n k cs2 n2 k2.
Proof.
  intros Hb [A1 A2 A3 A4 A5 A6 A7] [B1 B2 B3 B4 B5 B6 B7]. split; [done|congruence|by eauto| |lia..].
  intros b2 Hb2. rewrite B4; [|done]. apply A4. lia.
Qed.

Lemma more_buckets_le d d' b cs n k cs' n' k' : (d <= d')%nat -> more_buckets d b cs n k cs' n' k' -> more_buckets d' b cs n k cs' n' k'.
Proof. intros Hd [A1 A2 A3 A4 A5 A6 A7]. split; try done. lia. Qed.

(** The nodes with the buckets. *)
Definition nodes cs (n k : nat) : iProp Σ := lseg cs 0 ∗ buckets n (heads cs) ∗ room k.

(** The part of [InitializeBucket] after the parent. *)
Lemma solo_initialize_with cs b p n k N r Φ :
  0 < b < 2 ^ 24 -> ordered cs -> heads cs !! b = None -> p ∈ cs -> c_node p = DummyNode (GetBucketParent b) ->
  (length cs < fuel)%nat -> (4 <= k)%nat ->
  nodes cs n k -∗ mine N r [] -∗
  (∀ cs' c n' k' r', ⌜more_buckets 1 b cs n k cs' n' k' /\ c ∈ cs' /\ c_node c = DummyNode b⌝ -∗
     nodes cs' n' k' -∗ mine N r' [] -∗ Φ (c_addr c) r') -∗
  solo (initialize_with fuel b (c_addr p)) r Φ.
Proof using Hfuel.
  iIntros (Hb Hord Hnone Hp Hpn Hlen Hk) "(Hl & Hb & Hroom) Hm HΦ". unfold initialize_with.
  replace k with ((k - 4 + 1) + 3)%nat by lia.
  iApply (solo_make_bucket _ b n (heads cs) (k - 4 + 1) (fun bucket =>
    head ← load bucket;
    if negb (head =? 0) then mret head else
    head ← atomically (New (ONode (DummyNode b)));
    '(inserted, real_head) ← InsertDummyNode fuel (c_addr p) head (DummyNode b);
    if (inserted : bool) then store bucket head;; mret head
    else delete_node false head;; mret real_head) with "Hb Hroom"); [lia|done|]. iIntros (l n' k1 [Hk1 Hk1']) "Hroom Hat Hback".
  iApply solo_bind. iApply (solo_load with "Hat"). iIntros "Hat". rewrite Z.eqb_refl. cbn [negb].
  replace k1 with (k1 - 1 + 1)%nat by lia. rewrite room_split. iDestruct "Hroom" as "[Hroom H1]".
  iApply solo_bind. iApply (solo_new with "H1"). iIntros (a Ha) "Ho Hs".
  iAssert (atom_pt (Next a) 0) with "[Hs]" as "Hnx"; [cbn; by iDestruct "Hs" as "[$ _]"|].
  assert (forall l1 q l2, place cs (DummyNode b) l1 q l2 -> not_found (DummyNode b) l2) as Habs.
  { intros l1 q l2 Hpl. destruct l2 as [|d l2]; [done|]. cbn. destruct (Equals (c_node d) (DummyNode b)) eqn:He; [|done].
    exfalso. apply (heads_absent hash_func_ cs b Hord Hnone d); [rewrite (pl_split _ _ _ _ _ Hpl); set_solver|].
    by apply (place_found hash_func_ _ _ _ _ _ _ Hord (wf_DummyNode hash_func_ b ltac:(lia)) Hpl). }
  iApply solo_bind. iApply (solo_InsertDummyNode with "Hl Hm Ho Hnx"); [done..| |done|done|done|].
  { rewrite Hpn. apply parent_less. lia. }
  iIntros (l1 q l2 r' Hpl) "Hl Hm". cbn [fst snd].
  iApply solo_bind. iApply (solo_store with "Hat"). iIntros "Hat". iApply solo_ret.
  set (c := MkCell a (DummyNode b) None). pose proof (pl_split _ _ _ _ _ Hpl) as Hs.
  assert (ordered (l1 ++ q :: c :: l2)) as Hord'.
  { eapply ordered_insert; [done|done|by eapply Habs| |done]. split; [by apply wf_DummyNode; lia|done|cbn; lia]. }
  destruct (insert_bucket hash_func_ l1 q c l2 b Hord' eq_refl eq_refl) as (Hh & Hh' & Hi). rewrite -Hs in Hh Hh' Hi.
  iDestruct ("Hback" $! a with "[%] Hat") as "Hb"; [destruct Ha; lia|].
  iApply ("HΦ" $! (l1 ++ q :: c :: l2) c n' (k1 - 1)%nat with "[%] [Hl Hb Hroom] Hm").
  - split; [|split; [set_solver|done]]. assert (bucket_count (l1 ++ q :: c :: l2) = S (bucket_count cs)) as Hc.
    { unfold bucket_count. by rewrite Hh map_size_insert_None. }
    split; [done|done| | |rewrite Hc; lia..].
    + intros b' a' Hb'. rewrite Hh lookup_insert_ne; [done|congruence].
    + intros b' Hb'. rewrite Hh lookup_insert_ne; [done|lia].
  - unfold nodes. rewrite Hh. iFrame.
Qed.

Lemma cells_more d b cs n k cs' n' k' :
  ordered cs -> more_buckets d b cs n k cs' n' k' -> (length cs' <= length cs + d)%nat.
Proof using.
  clear Hfuel. intros Hord [A1 A2 A3 _ A4 A5 A6]. rewrite (cells_length hash_func_ _ Hord) (cells_length hash_func_ _ A1) A2. unfold bucket_count in *. lia.
Qed.

Lemma GetBucketParent_less b (d : nat) : 0 < b < 2 ^ Z.of_nat (S d) -> (d < 64)%nat -> 0 <= GetBucketParent b < 2 ^ Z.of_nat d.
Proof using.
  clear Hfuel. intros Hb Hd. pose proof (Z.pow_le_mono_r 2 (Z.of_nat (S d)) 64). rewrite GetBucketParent_spec; [|lia].
  pose proof (Z.log2_nonneg b). assert (Z.log2 b < Z.of_nat (S d)) by (apply Z.log2_lt_pow2; lia).
  pose proof (wrap_range (Z.log2 b) b ltac:(lia)). pose proof (Z.pow_le_mono_r 2 (Z.log2 b) (Z.of_nat d)). lia.
Qed.

(** A bucket below 2^d needs no more than [d] new nodes, its own and those of its parents. *)
Lemma solo_InitializeBucket (d m : nat) cs b n k N r Φ :
  (d <= 24)%nat -> (d <= m)%nat -> 0 < b < 2 ^ Z.of_nat d -> ordered cs -> is_Some (heads cs !! 0) -> heads cs !! b = None ->
  (length cs + d <= fuel)%nat -> (4 * d <= k)%nat ->
  nodes cs n k -∗ mine N r [] -∗
  (∀ cs' c n' k' r', ⌜more_buckets d b cs n k cs' n' k' /\ c ∈ cs' /\ c_node c = DummyNode b⌝ -∗
     nodes cs' n' k' -∗ mine N r' [] -∗ Φ (c_addr c) r') -∗
  solo (InitializeBucket fuel m b) r Φ.
Proof using Hfuel.
  iIntros (Hd Hm Hb Hord H0 Hnone Hlen Hk) "Hn Hm HΦ".
  iInduction d as [|d IH] "IH" forall (m cs b n k r Φ Hd Hm Hb Hord H0 Hnone Hlen Hk); [cbn in Hb; lia|].
  destruct m as [|m]; [lia|]. cbn [InitializeBucket]. test (b =? 0) is false.
  pose proof (GetBucketParent_less b d Hb ltac:(lia)) as Hpar.
  pose proof (GetBucketParent_range b) as Hparb.
  pose proof (Z.pow_le_mono_r 2 (Z.of_nat (S d)) 24 ltac:(lia) ltac:(lia)).
  pose proof (Z.pow_le_mono_r 2 (Z.of_nat d) 24 ltac:(lia) ltac:(lia)).
  iDestruct "Hn" as "(Hl & Hb & Hroom)". iApply solo_bind. iApply (solo_GetBucketHeadByIndex with "Hb"); [lia|]. iIntros "Hb".
  iAssert (nodes cs n k) with "[$Hl $Hb $Hroom]" as "Hn". iApply solo_bind.
  iAssert (∀ cs' p n' k' r', ⌜more_buckets d (GetBucketParent b) cs n k cs' n' k' /\ p ∈ cs' /\ c_node p = DummyNode (GetBucketParent b)⌝ -∗
     nodes cs' n' k' -∗ mine N r' [] -∗ solo (initialize_with fuel b (c_addr p)) r' Φ)%I with "[HΦ]" as "Hrest".
  { iIntros (cs' p n' k' r' (Hmb & Hp & Hpn)) "Hn Hm". pose proof (cells_more _ _ _ _ _ _ _ _ Hord Hmb).
    assert (heads cs' !! b = None) as Hbn by (rewrite (mb_above _ _ _ _ _ _ _ _ Hmb); [done|lia]).
    iApply (solo_initialize_with with "Hn Hm"); [lia|apply Hmb|done|done|done|lia| |].
    { destruct Hmb. lia. }
    iIntros (cs2 c n2 k2 r2 (Hmb2 & Hc & Hcn)) "Hn Hm". iApply ("HΦ" with "[%] Hn Hm"). split; [|done].
    replace (S d) with (d + 1)%nat by lia. eapply more_buckets_trans; [|done..]. lia. }
  destruct (heads cs !! GetBucketParent b) as [a|] eqn:Ha; cbn [default from_option id].
  - apply (heads_lookup hash_func_) in Ha as (p & Hp & Hpn & <-); [|done].
    iDestruct "Hn" as "(Hl & Hb & Hroom)". iDestruct (lseg_aligned with "Hl") as %Hal; [exact Hp|].
    destruct Hal as [Hal _]. test (c_addr p =? 0) is false. iApply solo_ret.
    iApply ("Hrest" $! cs p n k with "[%] [$Hl $Hb $Hroom] Hm"). split; [|done].
    eapply more_buckets_le; [|by apply more_buckets_refl]. lia.
  - assert (GetBucketParent b <> 0) by (intros He; rewrite He in Ha; destruct H0; congruence).
    iApply ("IH" $! m cs (GetBucketParent b) with "[%] [%] [%] [%] [%] [%] [%] [%] Hn Hm"); try done; try lia.
Qed.

Lemma solo_bucket_size pw r Φ : 0 <= pw < 31 ->
  atom_pt PowerOf2 pw -∗ (atom_pt PowerOf2 pw -∗ Φ (2 ^ pw) r) -∗ solo bucket_size r Φ.
Proof using.
  clear Hfuel. iIntros (Hpw) "Hp HΦ". unfold bucket_size. iApply solo_bind. iApply (solo_load with "Hp"). iIntros "Hp".
  unfold shift_1. test (pw <? 31) is true. iApply solo_ret. rewrite Z.shiftl_1_l. by iApply "HΦ".
Qed.

(** The head of the bucket of a hash. *)
Lemma solo_GetBucketHeadByHash pw h cs n k N r Φ :
  1 <= pw <= 24 -> ordered cs -> is_Some (heads cs !! 0) -> (length cs + 24 <= fuel)%nat -> (96 <= k)%nat ->
  nodes cs n k -∗ mine N r [] -∗ atom_pt PowerOf2 pw -∗
  (∀ cs' c n' k' r', ⌜more_buckets 24 (wrap pw h) cs n k cs' n' k' /\ c ∈ cs' /\ c_node c = DummyNode (wrap pw h)⌝ -∗
     nodes cs' n' k' -∗ mine N r' [] -∗ atom_pt PowerOf2 pw -∗ Φ (c_addr c) r') -∗
  solo (GetBucketHeadByHash fuel h) r Φ.
Proof using Hfuel.
  iIntros (Hpw Hord H0 Hlen Hk) "(Hl & Hb & Hroom) Hm Hp HΦ". unfold GetBucketHeadByHash.
  iApply solo_bind. iApply (solo_bucket_size with "Hp"); [lia|]. iIntros "Hp". rewrite bucket_of_hash_mod; [|lia].
  pose proof (wrap_range pw h ltac:(lia)) as Hw. pose proof (Z.pow_le_mono_r 2 pw 24 ltac:(lia) ltac:(lia)).
  iApply solo_bind. iApply (solo_GetBucketHeadByIndex with "Hb"); [lia|]. iIntros "Hb".
  destruct (heads cs !! wrap pw h) as [a|] eqn:Ha; cbn [default from_option id].
  - apply (heads_lookup hash_func_) in Ha as (c & Hc & Hcn & <-); [|done].
    iDestruct (lseg_aligned with "Hl") as %Hal; [exact Hc|]. destruct Hal as [Hal _]. test (c_addr c =? 0) is false. iApply solo_ret.
    iApply ("HΦ" $! cs c n k with "[%] [$Hl $Hb $Hroom] Hm Hp"). split; [|done].
    eapply more_buckets_le; [|by apply more_buckets_refl]. lia.
  - assert (wrap pw h <> 0) by (intros He; rewrite He in Ha; destruct H0; congruence).
    iApply (solo_InitializeBucket 24 64 cs (wrap pw h) n k N with "[$Hl $Hb $Hroom] Hm"); [lia|lia|cbn; lia|done..|lia|].
    iIntros (cs' c n' k' r' Hmb) "Hn Hm". by iApply ("HΦ" with "[%] Hn Hm Hp").
Qed.
End Init.
