(* ===== verification/SoloTable.v ===== *)
(** The operations of the lock-free table for a thread that runs alone: what they answer,
    what they leave in the table, and the objects that they make and retire. *)
From iris.base_logic.lib Require Import iprop.
From iris.proofmode Require Import proofmode.
From S2P Require Import Prelude Words Outcome SplitOrder Atomic Hazard Ct Solo SoloHazard SoloCells SoloList.
From S2P Require Import SoloBuckets.

Section Table.
Context {V : Type} `{!soloGS V Σ} (limit : nat) (hash_func_ : Z -> Z).
Hypothesis hash_ok : forall key, 0 <= hash_func_ key < 2 ^ 64.
Context (fuel : nat) (Hfuel : (4 <= fuel)%nat) (head_ : Z).
Implicit Types (r : Reclaimer) (cs : list (cell V)) (c p q : cell V) (m : gmap Z V) (key : Z) (y : V) (j N T : nat).

Abbreviation solo := (solo limit).
Abbreviation RegularNode := (RegularNode hash_func_).

(** After [j] requests the table has the items [m]. Of [T] objects in all, [k] can still be
    made, [n] are segments, and [N] wait for their deletion or were deleted. *)
Record table_ok j T N m cs (n k : nat) (pw : Z) : Prop := {
  to_ordered : ordered hash_func_ cs;
  to_first : heads cs !! 0 = Some head_;
  to_items : items cs = m;
  to_power : 1 <= pw <= 24;
  to_total : (k + n + bucket_count cs + 2 * base.size m + N = T)%nat;
  to_buckets : (bucket_count cs <= 1 + 24 * j)%nat;
  to_segments : (n <= 3 * bucket_count cs)%nat;
}.

Definition counts_ok j N m : Prop := (base.size m <= j)%nat /\ (N <= 2 * j)%nat.

Definition table j T N m : iProp Σ :=
  ∃ cs n k pw, ⌜table_ok j T N m cs n k pw /\ counts_ok j N m⌝ ∗
    nodes cs n k ∗ atom_pt PowerOf2 pw ∗ atom_pt Size (Z.of_nat (base.size m)).

(** The list is short enough for the searches, and there is room for new buckets. *)
Lemma table_length j T N m cs n k pw :
  table_ok j T N m cs n k pw -> counts_ok j N m -> (length cs <= 1 + 25 * j)%nat /\ (T <= k + 4 + 100 * j)%nat.
Proof using.
  clear Hfuel hash_ok. intros [A1 A2 A3 A4 A5 A6 A7] [B1 B2]. rewrite (cells_length _ _ A1) A3. unfold bucket_count in *. lia.
Qed.

(** ** The bucket of a key *)

Lemma solo_bucket_of j T N m cs n k pw key r Φ :
  table_ok j T N m cs n k pw -> counts_ok j N m -> (25 * (j + 1) < fuel)%nat -> (100 * (j + 1) <= T)%nat ->
  nodes cs n k -∗ mine N r [] -∗ atom_pt PowerOf2 pw -∗
  (∀ cs' p n' k' r', ⌜table_ok (S j) T N m cs' n' k' pw /\ p ∈ cs' /\ Less (c_node p) (RegularNode key) = true /\ (length cs' < fuel)%nat⌝ -∗
     nodes cs' n' k' -∗ mine N r' [] -∗ atom_pt PowerOf2 pw -∗ Φ (c_addr p) r') -∗
  solo (GetBucketHeadByHash fuel (hash_func_ key)) r Φ.
Proof using Hfuel hash_ok.
  iIntros (Hok Hcount Hf HT) "Hn Hm Hp HΦ". destruct (table_length _ _ _ _ _ _ _ _ Hok Hcount) as [Hlen Hroom].
  pose proof Hok as [A1 A2 A3 A4 A5 A6 A7].
  iApply (solo_GetBucketHeadByHash with "Hn Hm Hp"); [done|done|exact A1|by rewrite A2|lia|lia|].
  iIntros (cs' p n' k' r' (Hmb & Hp & Hpn)) "Hn Hm Hp". iApply ("HΦ" with "[%] Hn Hm Hp").
  pose proof (cells_more _ _ _ _ _ _ _ _ _ A1 Hmb) as Hlen'. destruct Hmb as [B1 B2 B3 B4 B5 B6 B7].
  split; [|split; [done|split; [|lia]]].
  - split; [done|by apply B3|by rewrite B2|done|lia..].
  - rewrite Hpn. apply bucket_less; [lia|apply hash_ok].
Qed.

(** ** The number of buckets *)

Lemma to_float_small x : 0 <= x <= 2 ^ 24 -> to_float x = x.
Proof using.
  clear Hfuel hash_ok. intros Hx. unfold to_float. destruct (Z.ltb_spec x (2 ^ 24)); [done|]. by assert (x = 2 ^ 24) as -> by lia.
Qed.

(** A table of at most 2^23 items does not grow beyond 2^24 buckets. *)
Lemma solo_grow (s : nat) pw r Φ :
  1 <= pw <= 24 -> Z.of_nat (s + 1) <= 2 ^ 23 -> atom_pt Size (Z.of_nat s) -∗ atom_pt PowerOf2 pw -∗
  (∀ pw', ⌜1 <= pw' <= 24⌝ -∗ atom_pt Size (Z.of_nat (s + 1)) -∗ atom_pt PowerOf2 pw' -∗ Φ () r) -∗ solo grow r Φ.
Proof using.
  clear Hfuel hash_ok. iIntros (Hpw Hs) "Hsize Hp HΦ". unfold grow. iApply solo_bind. iApply (solo_fetch_add with "Hsize"). iIntros "Hsize".
  rewrite wrap_small; [|lia]. replace (Z.of_nat s + 1) with (Z.of_nat (s + 1)) by lia.
  iApply solo_bind. iApply (solo_load with "Hp"). iIntros "Hp". iApply solo_bind. unfold shift_1. test (pw <? 31) is true.
  iApply solo_ret. rewrite Z.shiftl_1_l. pose proof (Z.pow_le_mono_r 2 pw 24 ltac:(lia) ltac:(lia)).
  unfold overloaded. rewrite !to_float_small; [|lia..].
  destruct (Z.ltb_spec (2 ^ pw) (2 * Z.of_nat (s + 1))) as [Hlt|Hge].
  2: { iApply solo_ret. by iApply ("HΦ" with "[%] Hsize Hp"). }
  assert (pw < 24) by (destruct (Z.eq_dec pw 24) as [->|]; lia).
  iApply solo_bind. iApply (solo_cas with "Hp"). iIntros "Hp".
  iApply solo_bind. iApply (solo_bucket_size with "Hp"); [lia|]. iIntros "Hp".
  iApply solo_assert; [|iApply ("HΦ" with "[%] Hsize Hp"); lia].
  apply Z.leb_le. pose proof (Z.pow_le_mono_r 2 (pw + 1) 24 ltac:(lia) ltac:(lia)). change kMaxBucketSize with (2 ^ 24). lia.
Qed.

(** ** Insertion *)

Lemma good_regular a key v y : good_cell hash_func_ (MkCell a (RegularNode key) (Some (v, y))).
Proof using hash_ok. clear Hfuel. split; [by apply wf_RegularNode|done|done]. Qed.

(** The items after a new node, or a new value. *)
Lemma table_insert j T N m cs n k pw pw' l1 q l2 a v key y :
  table_ok j (T - 2) N m cs n k pw -> place cs (RegularNode key) l1 q l2 -> not_found (RegularNode key) l2 -> (2 <= T)%nat -> 1 <= pw' <= 24 ->
  table_ok j T N (<[key := y]> m) (l1 ++ q :: MkCell a (RegularNode key) (Some (v, y)) :: l2) n k pw' /\
  m !! key = None /\ heads (l1 ++ q :: MkCell a (RegularNode key) (Some (v, y)) :: l2) = heads cs.
Proof using hash_ok.
  clear Hfuel. intros [A1 A2 A3 A4 A5 A6 A7] Hpl Hnf HT Hpw. set (c := MkCell a (RegularNode key) (Some (v, y))).
  assert (ordered hash_func_ (l1 ++ q :: c :: l2)) as Hord by (eapply ordered_insert; [done|done|done|apply good_regular|done]).
  destruct (insert_item hash_func_ _ _ _ _ key v y Hord eq_refl eq_refl) as (H1 & H2 & H3).
  rewrite -(pl_split _ _ _ _ _ Hpl) in H1 H2 H3. rewrite A3 in H1 H2. split; [|done].
  split; try done; [by rewrite H3| |by unfold bucket_count; rewrite H3..].
  rewrite map_size_insert_None // /bucket_count H3. unfold bucket_count in A5. lia.
Qed.

Lemma table_replace j T N m cs n k pw l1 q d l2 v y key :
  table_ok j (T - 2) N m cs n k pw -> cs = l1 ++ q :: d :: l2 -> c_node d = RegularNode key -> (2 <= T)%nat ->
  table_ok j T (S N) (<[key := y]> m) (l1 ++ q :: MkCell (c_addr d) (c_node d) (Some (v, y)) :: l2) n (k + 1) pw /\
  is_Some (m !! key) /\ heads (l1 ++ q :: MkCell (c_addr d) (c_node d) (Some (v, y)) :: l2) = heads cs /\
  base.size (<[key := y]> m) = base.size m.
Proof using hash_ok.
  clear Hfuel. intros [A1 A2 A3 A4 A5 A6 A7] -> Hd HT. set (c := MkCell (c_addr d) (c_node d) (Some (v, y))).
  assert (good_cell hash_func_ d) as Hgd by (apply (ordered_good _ _ d A1); set_solver).
  assert (exists v0 y0, c_value d = Some (v0, y0)) as (v0 & y0 & Hv0).
  { destruct (c_value d) as [[v0 y0]|] eqn:Hv; [by eauto|]. apply (gc_valued _ _ Hgd) in Hv. by rewrite Hd in Hv. }
  assert (ordered hash_func_ (l1 ++ q :: c :: l2)) as Hord.
  { eapply ordered_replace; [exact A1| |done]. unfold c. rewrite Hd. apply good_regular. }
  destruct (insert_item hash_func_ _ _ _ _ key v0 y0 A1 Hd Hv0) as (H1 & H2 & H3).
  destruct (insert_item hash_func_ _ _ _ _ key v y Hord Hd eq_refl) as (G1 & G2 & G3).
  assert (m !! key = Some y0) as Hm by (by rewrite -A3 H1 lookup_insert_eq).
  assert (items (l1 ++ q :: c :: l2) = <[key := y]> m) as Hi by (by rewrite G1 -A3 H1 insert_insert_eq).
  assert (base.size (<[key := y]> m) = base.size m) as Hsz by (apply map_size_insert_Some; by eexists).
  split; [|split_and!; [by eexists|by rewrite H3|done]].
  split; try done; rewrite /bucket_count ?G3 -?H3; [done| |done..]. unfold bucket_count in A5. lia.
Qed.

(** The parts of the node behind the place of a search. *)
Lemma nodes_found cs l1 q d l2 key y0 v0 n k :
  cs = l1 ++ q :: d :: l2 -> c_node d = RegularNode key -> c_value d = Some (v0, y0) ->
  nodes cs n k ⊣⊢ lseg l1 (c_addr q) ∗ cell_pt q (c_addr d) ∗
    (⌜aligned (c_addr d)⌝ ∗ obj_pt (c_addr d) (ONode (c_node d)) ∗ atom_pt (Next (c_addr d)) (start l2 0) ∗
     ⌜v0 <> 0⌝ ∗ atom_pt (Value (c_addr d)) v0 ∗ obj_pt v0 (OValue y0)) ∗ lseg l2 0 ∗
    buckets n (heads cs) ∗ room k.
Proof using.
  clear Hfuel hash_ok. intros -> Hd Hv. unfold nodes. rewrite lseg_middle /= /cell_pt /value_pt Hv Hd.
  iSplit; iIntros "H".
  - iDestruct "H" as "(($ & $ & ($ & $ & $ & [% %] & $ & $) & $) & $ & $)". done.
  - iDestruct "H" as "($ & $ & ($ & $ & $ & % & $ & $) & $ & $ & $)". done.
Qed.

Lemma regular_value cs d key : ordered hash_func_ cs -> d ∈ cs -> c_node d = RegularNode key -> exists v y, c_value d = Some (v, y).
Proof using.
  clear Hfuel hash_ok. intros Hord Hin Hd. destruct (c_value d) as [[v y]|] eqn:Hv; [by eauto|].
  apply (gc_valued _ _ (ordered_good _ _ _ Hord Hin)) in Hv. by rewrite Hd in Hv.
Qed.

Lemma solo_InsertRegularNode j T N m cs n k pw p a v key y r Φ :
  table_ok (S j) (T - 2) N m cs n k pw -> counts_ok j N m -> Z.of_nat (S j) <= 2 ^ 23 -> (2 <= T)%nat ->
  p ∈ cs -> Less (c_node p) (RegularNode key) = true -> (length cs < fuel)%nat -> aligned a -> v <> 0 ->
  nodes cs n k -∗ mine N r [] -∗ atom_pt PowerOf2 pw -∗ atom_pt Size (Z.of_nat (base.size m)) -∗
  obj_pt a (ONode (RegularNode key)) -∗ atom_pt (Next a) 0 -∗ atom_pt (Value a) v -∗ obj_pt v (OValue y) -∗
  (∀ N' r', table (S j) T N' (<[key := y]> m) -∗ mine N' r' [] -∗ Φ (bool_decide (m !! key = None)) r') -∗
  solo (InsertRegularNode fuel (c_addr p) a (RegularNode key)) r Φ.
Proof using Hfuel hash_ok.
  iIntros (Hok Hcount Hj HT Hp Hless Hlen Ha Hv) "(Hl & Hb & Hroom) Hm Hpw Hsize Ho Hnx Hval Hv HΦ". unfold InsertRegularNode.
  assert (exists f, fuel = S f) as [f Hf] by (exists (pred fuel); lia). rewrite {2}Hf. cbn [insert_loop].
  pose proof (wf_RegularNode hash_func_ key (hash_ok key)) as Hwf. pose proof (to_ordered _ _ _ _ _ _ _ _ Hok) as Hord.
  iApply solo_bind. iApply (solo_SearchNode with "Hl [Hm]"); [done..|by left|by left| |].
  { iApply (mine_sub with "Hm"). set_solver. }
  iIntros (g l1 q l2 r1 (Hpl & [Hpr Hcu Hfo] & Hmarks)) "Hl Hm". pose proof (pl_split _ _ _ _ _ Hpl) as Hs.
  destruct (found g) eqn:Hfound.
  - destruct l2 as [|d l2]; [done|]. pose proof (place_found _ _ _ _ _ _ _ Hord Hwf Hpl (eq_sym Hfo)) as Hd.
    destruct (regular_value cs d key Hord ltac:(rewrite Hs; set_solver) Hd) as (v0 & y0 & Hv0). rewrite Hcu. cbn [start].
    iAssert (nodes cs n k) with "[$Hl $Hb $Hroom]" as "Hn".
    iDestruct (nodes_found _ _ _ _ _ _ _ _ _ _ Hs Hd Hv0 with "Hn") as "(Hl1 & Hq & (Had & Hod & Hxd & %Hv0' & Hvd & Hyd) & Hl2 & Hb & Hroom)".
    iApply solo_bind. iApply (solo_load with "Hval"). iIntros "Hval". iApply solo_bind. iApply (solo_exchange with "Hvd"). iIntros "Hvd".
    iApply solo_bind. iApply (solo_ReclaimLater with "Hm [Hyd]"); [by iFrame "Hyd"|]. iIntros (r2 Hr2) "Hm".
    iApply solo_bind. iApply (solo_store with "Hval"). iIntros "Hval".
    iApply solo_bind. iApply (solo_delete_node with "Ho Hnx Hval []"); [done|by iLeft|]. cbn [Z.eqb]. iIntros "H1".
    iApply solo_bind. iApply (solo_unmark with "Hm"); [by rewrite /marks /ok_hp Hr2|]. iIntros "Hm". iApply solo_ret.
    destruct (table_replace _ _ _ _ _ _ _ _ _ _ _ _ v y _ Hok Hs Hd HT) as (Hok' & [y1 Hy1] & Hheads & Hsz).
    rewrite Hy1 bool_decide_false //. iApply ("HΦ" with "[-Hm] Hm"). iExists _, _, _, _. iFrame "Hpw". rewrite Hsz. iFrame "Hsize".
    iSplit; [iPureIntro; split; [exact Hok'|split; [rewrite Hsz|]; destruct Hcount; cbn; lia]|].
    iApply (nodes_found _ _ _ (MkCell (c_addr d) (c_node d) (Some (v, y))) _ key y v _ _ eq_refl Hd eq_refl).
    rewrite Hheads room_split. cbn. by iFrame.
  - assert (not_found (RegularNode key) l2) as Hnf by (destruct l2; [done|by rewrite /= -Hfo]). rewrite Hpr Hcu.
    destruct (table_insert _ _ _ _ _ _ _ _ pw _ _ _ a v _ y Hok Hpl Hnf HT (to_power _ _ _ _ _ _ _ _ Hok)) as (_ & Hnone & Hheads).
    iApply solo_bind. iApply (solo_store with "Hnx"). iIntros "Hnx". subst cs.
    iApply solo_bind. iApply (solo_link _ _ l1 q (MkCell a (RegularNode key) (Some (v, y))) l2 with "Hl [Ho Hnx Hval Hv]").
    { rewrite /cell_pt /value_pt. cbn. by iFrame. }
    iIntros "Hl". iApply solo_bind. iApply (solo_grow with "Hsize Hpw"); [apply Hok|destruct Hcount; lia|]. iIntros (pw' Hpw') "Hsize Hpw".
    iApply solo_bind. iApply (solo_unmark with "Hm"); [done|]. iIntros "Hm". iApply solo_ret.
    rewrite Hnone bool_decide_true //. iApply ("HΦ" with "[-Hm] Hm"). iExists (l1 ++ q :: MkCell a (RegularNode key) (Some (v, y)) :: l2), n, k, pw'. iFrame "Hpw".
    replace (base.size (<[key := y]> m)) with (base.size m + 1)%nat by (rewrite map_size_insert_None //; lia). iFrame "Hsize". iSplit.
    + iPureIntro. split; [by eapply table_insert|]. destruct Hcount. split; [rewrite map_size_insert_None //; lia|lia].
    + rewrite /nodes Hheads. iFrame.
Qed.

Lemma solo_Insert j T N m key y r Φ :
  (25 * (j + 1) < fuel)%nat -> (100 * (j + 1) + 2 <= T)%nat -> Z.of_nat (S j) <= 2 ^ 23 ->
  table j T N m -∗ mine N r [] -∗
  (∀ N' r', table (S j) T N' (<[key := y]> m) -∗ mine N' r' [] -∗ Φ (bool_decide (m !! key = None)) r') -∗
  solo (Insert hash_func_ fuel key y) r Φ.
Proof using Hfuel hash_ok.
  iIntros (Hf HT Hj) "(%cs & %n & %k & %pw & [%Hok %Hcount] & (Hl & Hb & Hroom) & Hpw & Hsize) Hm HΦ".
  destruct (table_length _ _ _ _ _ _ _ _ Hok Hcount) as [Hlen Hk]. replace k with (k - 2 + 1 + 1)%nat by lia.
  rewrite !room_split. iDestruct "Hroom" as "[[Hroom H1] H2]". unfold Insert.
  iApply solo_bind. iApply (solo_new with "H1"). iIntros (a Ha) "Ho Hs". iDestruct "Hs" as "(Hnx & Hval & _)".
  iApply solo_bind. iApply (solo_new with "H2"). iIntros (v Hva) "Hv _".
  iApply solo_bind. iApply (solo_store with "Hval"). iIntros "Hval". iApply solo_bind. cbn [hash SplitOrder.RegularNode].
  assert (table_ok j (T - 2) N m cs n (k - 2) pw) as Hok2.
  { destruct Hok. split; try done. lia. }
  iApply (solo_bucket_of with "[$Hl $Hb $Hroom] Hm Hpw"); [done|done|lia|lia|].
  iIntros (cs' p n' k' r' (Hok' & Hp & Hless & Hlen')) "Hn Hm Hpw".
  iApply (solo_InsertRegularNode with "Hn Hm Hpw Hsize Ho Hnx Hval Hv HΦ"); try done; [lia|]. destruct Hva. lia.
Qed.

(** ** Removal *)

(** The items without a node. *)
Lemma table_delete j T N m cs n k pw l1 q d l2 key :
  table_ok j T N m cs n k pw -> cs = l1 ++ q :: d :: l2 -> c_node d = RegularNode key ->
  table_ok j T (2 + N) (delete key m) (l1 ++ q :: l2) n k pw /\ is_Some (m !! key) /\ heads (l1 ++ q :: l2) = heads cs.
Proof using.
  clear Hfuel hash_ok. intros [A1 A2 A3 A4 A5 A6 A7] -> Hd.
  destruct (regular_value _ d key A1 ltac:(set_solver) Hd) as (v0 & y0 & Hv0).
  destruct (insert_item hash_func_ _ _ _ _ key v0 y0 A1 Hd Hv0) as (H1 & H2 & H3). rewrite A3 in H1.
  assert (delete key m = items (l1 ++ q :: l2)) as Hi by (by rewrite H1 delete_insert_id).
  assert (base.size m = S (base.size (delete key m))) as Hsz by (by rewrite Hi H1 map_size_insert_None).
  rewrite H3. split; [|split; [rewrite H1 lookup_insert_eq; by eexists|done]].
  split; rewrite /bucket_count -?H3; try done; [by eapply ordered_remove|]. unfold bucket_count in A5. lia.
Qed.

Lemma solo_DeleteNode j T N m cs n k pw p key r Φ :
  table_ok (S j) T N m cs n k pw -> counts_ok j N m -> Z.of_nat (S j) <= 2 ^ 23 ->
  p ∈ cs -> Less (c_node p) (RegularNode key) = true -> (length cs < fuel)%nat ->
  nodes cs n k -∗ mine N r [] -∗ atom_pt PowerOf2 pw -∗ atom_pt Size (Z.of_nat (base.size m)) -∗
  (∀ N' r', table (S j) T N' (delete key m) -∗ mine N' r' [] -∗ Φ (bool_decide (is_Some (m !! key))) r') -∗
  solo (DeleteNode fuel (c_addr p) (RegularNode key)) r Φ.
Proof using Hfuel hash_ok.
  iIntros (Hok Hcount Hj Hp Hless Hlen) "(Hl & Hb & Hroom) Hm Hpw Hsize HΦ". unfold DeleteNode.
  assert (exists f, fuel = S f) as [f Hf] by (exists (pred fuel); lia). rewrite {4}Hf. cbn [mark_node_loop].
  pose proof (wf_RegularNode hash_func_ key (hash_ok key)) as Hwf. pose proof (to_ordered _ _ _ _ _ _ _ _ Hok) as Hord.
  iApply solo_bind. iApply solo_bind. iApply (solo_SearchNode with "Hl [Hm]"); [done..|by left|by left| |].
  { iApply (mine_sub with "Hm"). set_solver. }
  iIntros (g l1 q l2 r1 (Hpl & [Hpr Hcu Hfo] & Hmarks)) "Hl Hm". pose proof (pl_split _ _ _ _ _ Hpl) as Hs.
  destruct (found g) eqn:Hfound; cbn [negb].
  - destruct l2 as [|d l2]; [done|]. pose proof (place_found _ _ _ _ _ _ _ Hord Hwf Hpl (eq_sym Hfo)) as Hd.
    destruct (regular_value cs d key Hord ltac:(rewrite Hs; set_solver) Hd) as (v0 & y0 & Hv0). rewrite Hcu. cbn [start].
    iAssert (nodes cs n k) with "[$Hl $Hb $Hroom]" as "Hn".
    iDestruct (nodes_found _ _ _ _ _ _ _ _ _ _ Hs Hd Hv0 with "Hn") as "(Hl1 & (Haq & Hoq & Hxq & Hvq) & (%Had & Hod & Hxd & %Hv0' & Hvd & Hyd) & Hl2 & Hb & Hroom)".
    iDestruct (lseg_start with "Hl2") as %Hst. assert (is_marked_reference (start l2 0) = false) as Hmark.
    { destruct Hst as [[-> _]|[Ha _]]; [done|by apply aligned_unmarked]. }
    iApply solo_bind. iApply (solo_load with "Hxd"). iIntros "Hxd". rewrite Hmark.
    iApply solo_bind. iApply (solo_cas with "Hxd"). iIntros "Hxd". iApply solo_ret. rewrite Hfound Hcu Hpr. cbn [negb start].
    iApply solo_bind. iApply (solo_cas with "Hxq"). iIntros "Hxq".
    destruct (table_delete _ _ _ _ _ _ _ _ _ _ _ _ _ Hok Hs Hd) as (Hok' & [y1 Hy1] & Hheads).
    assert (base.size m = S (base.size (delete key m))) as Hsz by (rewrite map_size_delete_Some; [|by eexists]; assert (base.size m <> 0%nat); [intros He%map_size_empty_inv; by rewrite He in Hy1|lia]).
    destruct Hcount as [Hc1 Hc2].
    iApply solo_bind. iApply (solo_fetch_add with "Hsize"). iIntros "Hsize". rewrite wrap_small; [|lia].
    replace (Z.of_nat (base.size m) + -1) with (Z.of_nat (base.size (delete key m))) by lia.
    iApply solo_bind. iApply (solo_ReclaimLater with "Hm [Hod Hxd Hvd Hyd]").
    { iSplit; [iPureIntro; destruct Had; cbn; lia|]. cbn. iExists _, _, _, _. iFrame. by rewrite Hd. }
    iIntros (r2 Hr2) "Hm". iApply solo_bind. iApply (solo_ReclaimNoHazardPointer with "Hm"); [done|]. iIntros (r3 Hr3) "Hm".
    iApply solo_bind. iApply (solo_unmark with "Hm"); [by rewrite /marks /ok_hp Hr3 Hr2|]. iIntros "Hm". iApply solo_ret.
    rewrite Hy1 bool_decide_true; [|by eexists]. iApply ("HΦ" with "[-Hm] Hm"). iExists (l1 ++ q :: l2), n, k, pw. iFrame "Hpw Hsize".
    iSplit; [iPureIntro; split; [exact Hok'|split; cbn; lia]|]. rewrite /nodes Hheads. iFrame "Hb Hroom".
    iApply lseg_middle. iFrame.
  - assert (not_found (RegularNode key) l2) as Hnf by (destruct l2; [done|by rewrite /= -Hfo]).
    assert (m !! key = None) as Hnone.
    { rewrite -(to_items _ _ _ _ _ _ _ _ Hok). apply (items_absent hash_func_); [done|]. intros c Hc. by eapply place_absent. }
    iApply solo_ret. rewrite Hfound. cbn [negb]. iApply solo_bind. iApply (solo_unmark with "Hm"); [done|]. iIntros "Hm". iApply solo_ret.
    rewrite Hnone bool_decide_false; [|by intros [? ?]]. iApply ("HΦ" with "[-Hm] Hm"). rewrite delete_id //.
    iExists cs, n, k, pw. iFrame. iPureIntro. split; [done|]. destruct Hcount. split; lia.
Qed.

(** The table at the beginning of a request about a key. *)
Lemma solo_for_key {A} j T N m key (K : Z -> thread V A) r Φ :
  (25 * (j + 1) < fuel)%nat -> (100 * (j + 1) <= T)%nat -> table j T N m -∗ mine N r [] -∗
  (∀ cs n k pw p r', ⌜table_ok (S j) T N m cs n k pw /\ counts_ok j N m /\ p ∈ cs /\ Less (c_node p) (RegularNode key) = true /\ (length cs < fuel)%nat⌝ -∗
     nodes cs n k -∗ mine N r' [] -∗ atom_pt PowerOf2 pw -∗ atom_pt Size (Z.of_nat (base.size m)) -∗ solo (K (c_addr p)) r' Φ) -∗
  solo (head ← GetBucketHeadByHash fuel (hash_func_ key); K head) r Φ.
Proof using Hfuel hash_ok.
  iIntros (Hf HT) "(%cs & %n & %k & %pw & [%Hok %Hcount] & Hn & Hpw & Hsize) Hm HΦ".
  iApply solo_bind. iApply (solo_bucket_of with "Hn Hm Hpw"); [done|done|lia|lia|].
  iIntros (cs' p n' k' r' (Hok' & Hp & Hless & Hlen')) "Hn Hm Hpw". by iApply ("HΦ" with "[%] Hn Hm Hpw Hsize").
Qed.

Lemma solo_Delete j T N m key r Φ :
  (25 * (j + 1) < fuel)%nat -> (100 * (j + 1) <= T)%nat -> Z.of_nat (S j) <= 2 ^ 23 ->
  table j T N m -∗ mine N r [] -∗
  (∀ N' r', table (S j) T N' (delete key m) -∗ mine N' r' [] -∗ Φ (bool_decide (is_Some (m !! key))) r') -∗
  solo (Delete hash_func_ fuel key) r Φ.
Proof using Hfuel hash_ok.
  iIntros (Hf HT Hj) "Ht Hm HΦ". unfold Delete. iApply (solo_for_key with "Ht Hm"); [lia|lia|].
  iIntros (cs n k pw p r' (Hok & Hcount & Hp & Hless & Hlen)) "Hn Hm Hpw Hsize". iApply (solo_DeleteNode with "Hn Hm Hpw Hsize HΦ"); done.
Qed.

(** ** Reading *)

Lemma solo_FindNode j T N m cs n k pw p key r Φ :
  table_ok (S j) T N m cs n k pw -> counts_ok j N m ->
  p ∈ cs -> Less (c_node p) (RegularNode key) = true -> (length cs < fuel)%nat ->
  nodes cs n k -∗ mine N r [] -∗ atom_pt PowerOf2 pw -∗ atom_pt Size (Z.of_nat (base.size m)) -∗
  (∀ r', table (S j) T N m -∗ mine N r' [] -∗ Φ (m !! key) r') -∗
  solo (FindNode fuel (c_addr p) (RegularNode key)) r Φ.
Proof using Hfuel hash_ok.
  iIntros (Hok Hcount Hp Hless Hlen) "(Hl & Hb & Hroom) Hm Hpw Hsize HΦ". unfold FindNode.
  pose proof (wf_RegularNode hash_func_ key (hash_ok key)) as Hwf. pose proof (to_ordered _ _ _ _ _ _ _ _ Hok) as Hord.
  iApply solo_bind. iApply (solo_SearchNode with "Hl [Hm]"); [done..|by left|by left| |].
  { iApply (mine_sub with "Hm"). set_solver. }
  iIntros (g l1 q l2 r1 (Hpl & [Hpr Hcu Hfo] & Hmarks)) "Hl Hm". pose proof (pl_split _ _ _ _ _ Hpl) as Hs.
  iAssert (nodes cs n k) with "[$Hl $Hb $Hroom]" as "Hn".
  iAssert (nodes cs n k -∗ atom_pt PowerOf2 pw -∗ atom_pt Size (Z.of_nat (base.size m)) -∗ table (S j) T N m)%I as "Hback".
  { iIntros "Hn Hpw Hsize". iExists cs, n, k, pw. iFrame. iPureIntro. split; [done|]. destruct Hcount. split; lia. }
  destruct (found g) eqn:Hfound.
  - destruct l2 as [|d l2]; [done|]. pose proof (place_found _ _ _ _ _ _ _ Hord Hwf Hpl (eq_sym Hfo)) as Hd.
    destruct (regular_value cs d key Hord ltac:(rewrite Hs; set_solver) Hd) as (v0 & y0 & Hv0). rewrite Hcu. cbn [start].
    iDestruct (nodes_found _ _ _ _ _ _ _ _ _ _ Hs Hd Hv0 with "Hn") as "(Hl1 & Hq & (%Had & Hod & Hxd & %Hv0' & Hvd & Hyd) & Hl2 & Hb & Hroom)".
    assert (exists f, fuel = S f) as [f Hf] by (exists (pred fuel); lia). rewrite {2}Hf. cbn [read_value_loop].
    iApply solo_bind. iApply solo_bind. iApply (solo_load with "Hvd"). iIntros "Hvd".
    iApply solo_bind. iApply (solo_load with "Hvd"). iIntros "Hvd". rewrite Z.eqb_refl. cbn [negb]. iApply solo_ret.
    iApply solo_bind. iApply (solo_ReclaimNoHazardPointer with "Hm"); [done|]. iIntros (r3 Hr3) "Hm".
    iApply solo_bind. iApply (solo_deref with "Hyd"). iIntros "Hyd".
    iApply solo_bind. iApply (solo_unmark with "Hm"); [by rewrite /marks /ok_hp Hr3|]. iIntros "Hm". iApply solo_ret.
    assert (m !! key = Some y0) as ->.
    { rewrite -(to_items _ _ _ _ _ _ _ _ Hok). apply (items_lookup hash_func_); [done|]. exists d, v0. split; [rewrite Hs; set_solver|done]. }
    iApply ("HΦ" with "[-Hm] Hm"). iApply ("Hback" with "[-Hpw Hsize] Hpw Hsize").
    iApply (nodes_found _ _ _ _ _ _ _ _ _ _ Hs Hd Hv0). by iFrame.
  - assert (not_found (RegularNode key) l2) as Hnf by (destruct l2; [done|by rewrite /= -Hfo]).
    assert (m !! key = None) as ->.
    { rewrite -(to_items _ _ _ _ _ _ _ _ Hok). apply (items_absent hash_func_); [done|]. intros c Hc. by eapply place_absent. }
    iApply solo_bind. iApply (solo_unmark with "Hm"); [done|]. iIntros "Hm". iApply solo_ret.
    iApply ("HΦ" with "[-Hm] Hm"). iApply ("Hback" with "Hn Hpw Hsize").
Qed.

Lemma solo_Find j T N m key r Φ :
  (25 * (j + 1) < fuel)%nat -> (100 * (j + 1) <= T)%nat ->
  table j T N m -∗ mine N r [] -∗
  (∀ r', table (S j) T N m -∗ mine N r' [] -∗ Φ (m !! key) r') -∗ solo (Find hash_func_ fuel key) r Φ.
Proof using Hfuel hash_ok.
  iIntros (Hf HT) "Ht Hm HΦ". unfold Find. iApply (solo_for_key with "Ht Hm"); [lia|lia|].
  iIntros (cs n k pw p r' (Hok & Hcount & Hp & Hless & Hlen)) "Hn Hm Hpw Hsize". iApply (solo_FindNode with "Hn Hm Hpw Hsize HΦ"); done.
Qed.

Lemma solo_size j T N m r Φ :
  table j T N m -∗ (table (S j) T N m -∗ Φ (Z.of_nat (base.size m)) r) -∗ solo size r Φ.
Proof using.
  clear Hfuel hash_ok. iIntros "(%cs & %n & %k & %pw & [%Hok %Hcount] & Hn & Hpw & Hsize) HΦ". iApply (solo_load with "Hsize").
  iIntros "Hsize". iApply "HΦ". iExists cs, n, k, pw. iFrame. iPureIntro. destruct Hok, Hcount. split; split; try done; lia.
Qed.
End Table.
