(* ===== verification/SoloTheorems.v ===== *)
(** The beginning and the end of a lock-free table that one thread uses: the constructor,
    the reclaimer of the thread, and the destructor, which deletes every node and every
    segment. The theorem about such a table: every request gets the answer of a map, and
    nothing is left in the end. *)
From iris.base_logic.lib Require Import iprop.
From iris.proofmode Require Import proofmode.
From S2P Require Import Prelude Words Outcome SplitOrder Atomic Hazard Ct Solo SoloHazard SoloCells SoloList.
From S2P Require Import SoloBuckets SoloTable CtMoves CtRuns CtTheorems.

(** The entries below [q] with an index in [js] are gone, and only entries below [q]. *)
Definition cleared (q : Z) (js : list Z) (Ms Ms' : gmap Z Z) : Prop :=
  (forall j, j ∈ js -> Ms' !! (64 * q + j) = None) /\
  (forall p, Ms' !! p = Ms !! p \/ Ms' !! p = None /\ p / 64 = q).

Section Life.
Context {V : Type} `{!soloGS V Σ} (limit : nat) (hash_func_ : Z -> Z).
Implicit Types (r : Reclaimer) (M Ms H : gmap Z Z) (T : nat) (cs : list (cell V)).

Abbreviation solo := (solo limit).

(** ** The segments *)

(** What is below a level with the entries [M]: [T] counts the objects of [M] and below
    it, and those that can be made. *)
Definition bottom H T M : iProp Σ :=
  ∃ k, ⌜(k + base.size M = T)%nat⌝ ∗ level OBuckets BucketAt M H ∗ room k.

Definition above (o : obj V) (at_ : Z -> Z -> loc) (P : nat -> gmap Z Z -> iProp Σ) T M : iProp Σ :=
  ∃ Ms T', ⌜(T' + base.size M = T)%nat /\ has_parents M Ms⌝ ∗ level o at_ M Ms ∗ P T' Ms.

(** A level whose entries can be deleted by [delete_segment n]. *)
Record deletable (n : nat) (P : nat -> gmap Z Z -> iProp Σ) : Prop := {
  de_room : forall T M, P T M -∗ room 1 -∗ P (T + 1)%nat M;
  de_delete : forall T M l q r Φ,
    P T M -∗ atom_pt l (default 0 (M !! q)) -∗ (P T (delete q M) -∗ atom_pt l (default 0 (M !! q)) -∗ Φ () r) -∗
    solo (delete_segment n l) r Φ;
}.

Lemma delete_size M q : is_Some (M !! q) -> base.size M = S (base.size (delete q M)).
Proof.
  intros Hq. rewrite map_size_delete_Some //. assert (base.size M <> 0%nat); [|lia].
  intros He%map_size_empty_inv. rewrite He in Hq. by destruct Hq.
Qed.

(** An object of a level is deleted. *)
Lemma solo_delete_level o at_ M Ms q a r Φ :
  M !! q = Some a -> (forall a, members a o = at_ a <$> indices) ->
  level o at_ M Ms -∗ (level o at_ (delete q M) Ms -∗ room 1 -∗ Φ () r) -∗ solo (atomically (Atomic.Delete false a)) r Φ.
Proof.
  iIntros (Hq Hm) "Hl HΦ". unfold level. iDestruct (big_sepM_delete _ _ _ _ Hq with "Hl") as "[(_ & Ho & Hs) Hl]".
  iApply (solo_delete with "Ho [Hs]"); [|by iApply "HΦ"]. rewrite Hm big_sepL_fmap.
  iApply (big_sepL_impl with "Hs"). iIntros "!>" (i j _) "Hj". by iExists _.
Qed.

Lemma bottom_deletable H : deletable 0 (bottom H).
Proof.
  split.
  - iIntros (T M) "(%k & %Hk & Hl & Hr) H1". iExists (k + 1)%nat. rewrite room_split. iFrame. iPureIntro. lia.
  - iIntros (T M l q r Φ) "(%k & %Hk & Hl & Hr) Hat HΦ". cbn [delete_segment]. iApply solo_bind.
    iApply (solo_load with "Hat"). iIntros "Hat". destruct (M !! q) as [a|] eqn:Hq; cbn [default from_option id].
    + iDestruct (level_aligned _ _ _ _ _ _ Hq with "Hl") as %Ha. destruct Ha as [Ha _]. test (a =? 0) is false.
      iApply (solo_delete_level with "Hl"); [done|done|]. iIntros "Hl H1". iApply ("HΦ" with "[Hl Hr H1] Hat").
      iExists (k + 1)%nat. rewrite room_split. iFrame. iPureIntro. rewrite (delete_size M q) in Hk; [lia|by eexists].
    + iApply solo_ret. iApply ("HΦ" with "[Hl Hr] Hat"). rewrite delete_id //. iExists k. by iFrame.
Qed.

(** The loop over the members of a segment. *)
Lemma solo_delete_slots n P f q (js : list Z) T Ms r Φ :
  deletable n P -> (forall j, j ∈ js -> 0 <= j < 64) -> NoDup js ->
  ([∗ list] j ∈ js, atom_pt (f j) (default 0 (Ms !! (64 * q + j)))) -∗ P T Ms -∗
  (∀ Ms', ⌜cleared q js Ms Ms'⌝ -∗
     ([∗ list] j ∈ js, ∃ x, atom_pt (f j) x) -∗ P T Ms' -∗ Φ () r) -∗
  solo (foldr (fun i k => delete_segment n (f i);; k) (mret ()) js) r Φ.
Proof.
  iIntros (HP Hjs Hnd) "Hs HP HΦ". iInduction js as [|j js IH] "IH" forall (Ms Φ Hjs Hnd); cbn [foldr].
  { iApply solo_ret. iApply ("HΦ" with "[%] [//] HP"). split; [by intros j ?%not_elem_of_nil|by left]. }
  apply NoDup_cons in Hnd as [Hj Hnd]. iDestruct "Hs" as "[Hx Hs]".
  iApply solo_bind. iApply (de_delete _ _ HP with "HP Hx"). iIntros "HP Hx".
  iApply ("IH" $! (delete (64 * q + j) Ms) with "[%] [//] [Hs] HP").
  { intros j' Hj'. apply Hjs. by right. }
  { iApply (big_sepL_impl with "Hs"). iIntros "!>" (i j' Hj'%list_elem_of_lookup_2) "Hj".
    rewrite lookup_delete_ne //. intros He. apply Hj. by assert (j = j') as -> by lia. }
  iIntros (Ms' [H1 H2]) "Hs HP". iApply ("HΦ" with "[%] [Hs Hx] HP"); [|iFrame; by iExists _].
  assert ((64 * q + j) / 64 = q) as Hq.
  { specialize (Hjs j ltac:(left)). symmetry. apply Z.div_unique with j; lia. }
  split.
  - intros j' [->|Hj']%elem_of_cons; [|by apply H1]. destruct (H2 (64 * q + j)) as [He|[He _]]; rewrite He //. apply lookup_delete_eq.
  - intros p. destruct (H2 p) as [He|He]; [|by right]. rewrite He. destruct (decide (p = 64 * q + j)) as [->|Hne].
    + right. by rewrite lookup_delete_eq.
    + left. by rewrite lookup_delete_ne.
Qed.

Lemma rev_indices_in j : j ∈ rev indices -> 0 <= j < 64.
Proof. intros Hj. apply in_indices. by rewrite list_elem_of_In in_rev -list_elem_of_In. Qed.

Lemma rev_indices : rev indices ≡ₚ indices.
Proof. symmetry. apply Permutation_rev. Qed.

Lemma NoDup_rev_indices : NoDup (rev indices).
Proof. rewrite rev_indices. apply NoDup_fmap; [apply _|apply NoDup_seq]. Qed.

(** Below a deleted entry there is nothing. *)
Lemma cleared_parents M Ms Ms' q :
  has_parents M Ms -> cleared q (rev indices) Ms Ms' -> has_parents (delete q M) Ms'.
Proof.
  intros Hp [H1 H2] p Hs. assert (p / 64 <> q) as Hne.
  { intros Hq. pose proof (Z.div_mod p 64). rewrite (_ : p = 64 * q + p mod 64) in Hs; [|lia].
    rewrite H1 in Hs; [by destruct Hs|]. rewrite rev_indices in_indices. apply Z.mod_pos_bound. lia. }
  rewrite lookup_delete_ne; [|done]. apply Hp. destruct (H2 p) as [He|[He _]]; [by rewrite -He|]. rewrite He in Hs. by destruct Hs.
Qed.

Lemma above_deletable n o P : (forall a, members a o = Data a <$> indices) -> deletable n P -> deletable (S n) (above o Data P).
Proof.
  intros Ho HP. split.
  - iIntros (T M) "(%Ms & %T' & [%HT %Hp] & Hl & HP) H1". iExists Ms, (T' + 1)%nat. iFrame "Hl". iSplit; [iPureIntro; split; [lia|done]|].
    by iApply (de_room _ _ HP with "HP H1").
  - iIntros (T M l q r Φ) "(%Ms & %T' & [%HT %Hp] & Hl & HP) Hat HΦ". cbn [delete_segment]. iApply solo_bind.
    iApply (solo_load with "Hat"). iIntros "Hat". destruct (M !! q) as [a|] eqn:Hq; cbn [default from_option id].
    + iDestruct (level_aligned _ _ _ _ _ _ Hq with "Hl") as %Ha. destruct Ha as [Ha Ha']. test (a =? 0) is false.
      unfold level. iDestruct (big_sepM_delete _ _ _ _ Hq with "Hl") as "[(_ & Ho & Hs) Hl]".
      iApply solo_bind. iApply (solo_delete_slots with "[Hs] HP"); [done|apply rev_indices_in|apply NoDup_rev_indices| |].
      { iApply (big_sepL_submseteq with "Hs"). by rewrite rev_indices. }
      iIntros (Ms' Hc) "Hs HP". iApply (solo_delete with "Ho [Hs]").
      { rewrite Ho big_sepL_fmap. iApply (big_sepL_submseteq with "Hs"). by rewrite rev_indices. }
      iIntros "H1". iApply ("HΦ" with "[Hl HP H1] Hat"). iExists Ms', (T' + 1)%nat. iSplit.
      { iPureIntro. rewrite (delete_size M q) in HT; [|by eexists]. split; [lia|by eapply cleared_parents]. }
      iSplitL "Hl"; [|by iApply (de_room _ _ HP with "HP H1")].
      iApply (big_sepM_impl with "Hl"). iIntros "!>" (p b Hpb) "($ & $ & Hs)". iApply (slots_other with "Hs").
      intros j Hj. destruct (proj2 Hc (64 * p + j)) as [He|[_ He]]; [done|].
      rewrite (_ : (64 * p + j) / 64 = p) in He; [|symmetry; apply Z.div_unique with j; lia]. subst p.
      by rewrite lookup_delete_eq in Hpb.
    + iApply solo_ret. iApply ("HΦ" with "[Hl HP] Hat"). rewrite delete_id //. iExists Ms, T'. by iFrame.
Qed.

(** The whole tree is deleted. *)
Lemma solo_delete_tree n H k r Φ :
  buckets n H -∗ room k -∗ (room (k + n) -∗ Φ () r) -∗
  solo (foldr (fun i k => delete_segment 2 (Top i);; k) (mret ()) (rev indices)) r Φ.
Proof.
  iIntros "(%M1 & %M2 & %M3 & (%Ht & %Hn & _) & H1 & H2 & H3 & H4) Hk HΦ".
  destruct Ht as [T1 T2 T3 T4]. assert (deletable 2 (above (OSegments 2) Data (above (OSegments 3) Data (bottom H)))) as Hd.
  { apply above_deletable; [done|]. apply above_deletable; [done|]. apply bottom_deletable. }
  iApply (solo_delete_slots _ _ _ 0 _ (k + n) with "[H1] [H2 H3 H4 Hk]"); [done|apply rev_indices_in|apply NoDup_rev_indices| | |].
  { iApply (big_sepL_submseteq with "H1"). by rewrite rev_indices. }
  { iExists M2, (k + base.size M3 + base.size M2)%nat. iSplit; [iPureIntro; split; [lia|done]|]. iFrame "H2".
    iExists M3, (k + base.size M3)%nat. iSplit; [done|]. iFrame "H3". iExists k. by iFrame. }
  iIntros (M1' [C1 C2]) "_ (%M2' & %T' & [%HT %Hp2] & _ & (%M3' & %T2' & [%HT2 %Hp3] & _ & (%k' & %Hk' & _ & Hr)))".
  assert (M1' = ∅) as ->.
  { apply map_empty. intros q. destruct (C2 q) as [He|[He _]]; [|done]. destruct (M1 !! q) eqn:Hq; [|done].
    assert (0 <= q < 64) by (apply T1; by eexists). rewrite -(C1 q); [f_equal; lia|]. by rewrite rev_indices in_indices. }
  assert (M2' = ∅) as ->.
  { apply map_empty. intros q. by apply (no_child ∅). }
  assert (M3' = ∅) as ->.
  { apply map_empty. intros q. by apply (no_child ∅). }
  rewrite !map_size_empty in HT HT2 Hk'. replace (k + n)%nat with k' by lia. by iApply "HΦ".
Qed.

(** ** The nodes *)

Definition cell_cost (c : cell V) : nat := if IsDummy (c_node c) then 1%nat else 2%nat.

Lemma cells_cost cs : ordered hash_func_ cs -> sum_list (cell_cost <$> cs) = (bucket_count cs + 2 * base.size (items cs))%nat.
Proof.
  intros Hord. unfold bucket_count, heads, items.
  rewrite (index_size _ _ (bucket_head_key hash_func_)) // (index_size _ _ (item_key hash_func_)) //.
  induction cs as [|c cs IH]; [done|]. apply ordered_cons in Hord as ([_ Hv _] & Hord & _). specialize (IH Hord). cbn.
  unfold cell_cost at 1. rewrite IH /bucket_head /item /IsDummy. unfold IsDummy in Hv. destruct (key_of (c_node c)) as [key|]; cbn in *.
  - destruct (c_value c) as [[v y]|]; cbn; [lia|]. destruct Hv as [Hv _]. by specialize (Hv eq_refl).
  - lia.
Qed.

Lemma solo_release_loop n cs k r Φ :
  (length cs <= n)%nat -> lseg cs 0 -∗ room k -∗ (room (k + sum_list (cell_cost <$> cs)) -∗ Φ () r) -∗
  solo (release_loop n (start cs 0)) r Φ.
Proof.
  iIntros (Hn) "Hl Hk HΦ". iInduction cs as [|c cs IH] "IH" forall (n k Hn Φ); cbn [start].
  { destruct n; (iApply solo_ret; iApply "HΦ"; cbn; by rewrite Nat.add_0_r). }
  cbn [length] in Hn. destruct n as [|n]; [lia|]. cbn [lseg release_loop]. iDestruct "Hl" as "[([%Ha _] & Ho & Hx & Hv) Hl]".
  test (c_addr c =? 0) is false. iApply solo_bind. iApply (solo_load with "Hx"). iIntros "Hx". iApply solo_bind.
  iAssert (∀ Ψ, (room (cell_cost c) -∗ Ψ () r) -∗ solo (delete_node false (c_addr c)) r Ψ)%I with "[Ho Hx Hv]" as "Hdel".
  { iIntros (Ψ) "HΨ". unfold value_pt, cell_cost. destruct (c_value c) as [[v y]|].
    - iDestruct "Hv" as "([%Hd %Hv0] & Hv & Hy)". rewrite Hd. iApply (solo_delete_node with "Ho Hx Hv [Hy]"); [done|iRight; iSplit; [done|by iExists _]|].
      by test (v =? 0) is false.
    - iDestruct "Hv" as %Hd. rewrite Hd. by iApply (solo_delete_dummy with "Ho Hx"). }
  iApply "Hdel". iIntros "Hc". iApply ("IH" $! n (k + cell_cost c)%nat with "[%] Hl [Hk Hc]"); [lia|rewrite room_split; by iFrame|].
  iIntros "Hr". iApply "HΦ". cbn. by rewrite Nat.add_assoc.
Qed.

(** ** The constructor and the destructor *)

(** The first entry of an array of members. *)
Lemma slots_first f : slots f ∅ 0 -∗ atom_pt (f 0) 0 ∗ (∀ x, atom_pt (f 0) x -∗ slots f {[ 0 := x ]} 0).
Proof.
  iIntros "Hs". iDestruct (slots_acc _ _ _ 0 with "Hs") as "[$ Hs]"; [lia|]. iIntros (x) "Hx".
  iApply ("Hs" $! x with "[%] Hx"). split; [done|]. intros q Hq. by rewrite lookup_singleton_ne; [|lia].
Qed.

(** A new array of members. *)
Lemma solo_new_array o at_ r Φ : (forall a, members a o = at_ a <$> indices) -> room 1 -∗
  (∀ a, ⌜aligned a⌝ -∗ obj_pt a o -∗ slots (at_ a) ∅ 0 -∗ Φ a r) -∗ solo (atomically (New o)) r Φ.
Proof.
  iIntros (Hm) "H1 HΦ". iApply (solo_new with "H1"). iIntros (a Ha) "Ho Hs". iApply ("HΦ" with "[//] Ho").
  iApply slots_new; [done|]. by rewrite Hm.
Qed.

Lemma solo_CT T r Φ :
  slots Top ∅ 0 -∗ atom_pt PowerOf2 1 -∗ atom_pt Size 0 -∗ room (T + 4) -∗
  (∀ head_, table hash_func_ head_ 0 (T + 4) 0 ∅ -∗ Φ head_ r) -∗ solo CT r Φ.
Proof.
  iIntros "Ht Hp Hsize Hroom HΦ". replace (T + 4)%nat with (T + 1 + 1 + 1 + 1)%nat by lia. rewrite !room_split.
  iDestruct "Hroom" as "((((Hroom & R1) & R2) & R3) & R4)". unfold CT. cbn [first_segments data_of]. unfold NewSegments, NewBuckets.
  iApply solo_bind. iApply solo_bind. iApply (solo_new_array _ Data with "R1"); [done|]. iIntros (a1 Ha1) "Ho1 Hs1".
  iDestruct (slots_first with "Ht") as "[Hx Ht]". iApply solo_bind. iApply (solo_store with "Hx"). iIntros "Hx". iDestruct ("Ht" with "Hx") as "Ht".
  iApply solo_bind. iApply (solo_new_array _ Data with "R2"); [done|]. iIntros (a2 Ha2) "Ho2 Hs2".
  iDestruct (slots_first with "Hs1") as "[Hx Hs1]". iApply solo_bind. iApply (solo_store with "Hx"). iIntros "Hx". iDestruct ("Hs1" with "Hx") as "Hs1".
  iApply solo_ret. iApply solo_bind. iApply (solo_new_array _ BucketAt with "R3"); [done|]. iIntros (a3 Ha3) "Ho3 Hs3". cbn [data_of].
  iDestruct (slots_first with "Hs2") as "[Hx Hs2]". iApply solo_bind. iApply (solo_store with "Hx"). iIntros "Hx". iDestruct ("Hs2" with "Hx") as "Hs2".
  iApply solo_bind. iApply (solo_new with "R4"). iIntros (h Hh) "Ho Hs". iDestruct "Hs" as "[Hnx _]".
  iDestruct (slots_first with "Hs3") as "[Hx Hs3]". iApply solo_bind. iApply (solo_store with "Hx"). iIntros "Hx". iDestruct ("Hs3" with "Hx") as "Hs3".
  iApply solo_ret. iApply "HΦ". set (c := MkCell (V := V) h (DummyNode 0) None). iExists [c], 3%nat, T, 1.
  assert (heads [c] = {[ 0 := h ]}) as Hheads by done.
  iFrame "Hp Hsize Hroom". iSplit; [iPureIntro; split; [split|rewrite /counts_ok map_size_empty; lia]|iSplitR "Ht Ho1 Hs1 Ho2 Hs2 Ho3 Hs3"].
  - apply ordered_cons. split; [|split; [by split; constructor|by intros d ?%not_elem_of_nil]].
    split; [by apply wf_DummyNode|done|done].
  - by rewrite Hheads lookup_singleton_eq.
  - done.
  - lia.
  - rewrite /bucket_count Hheads map_size_singleton map_size_empty. lia.
  - rewrite /bucket_count Hheads map_size_singleton. lia.
  - rewrite /bucket_count Hheads map_size_singleton. lia.
  - cbn. iFrame. done.
  - rewrite Hheads. iExists {[ 0 := a1 ]}, {[ 0 := a2 ]}, {[ 0 := a3 ]}. rewrite /level !big_sepM_singleton. iFrame.
    iPureIntro. split; [|done]. split; [|split; [by rewrite !map_size_singleton|]].
    + split; intros q; try (intros [[<- _]|[_ ?]]%lookup_insert_is_Some; [lia|by apply lookup_empty_is_Some in H]);
        intros [x [<- <-]%lookup_singleton_Some]; [lia|by eexists..].
    + intros b a [<- <-]%lookup_singleton_Some. destruct Hh. lia.
Qed.

(** The first node of the list is that of bucket 0. *)
Lemma first_node cs head_ : ordered hash_func_ cs -> heads cs !! 0 = Some head_ -> start cs 0 = head_.
Proof.
  intros Hord (c & Hc & Hn & <-)%(heads_lookup hash_func_); [|done]. apply list_elem_of_split in Hc as (l1 & l2 & ->).
  destruct l1 as [|d l1]; [done|]. exfalso. cbn in Hord. apply ordered_cons in Hord as (Hd & _ & Hb).
  specialize (Hb c ltac:(set_solver)). unfold below, Less in Hb. rewrite Hn in Hb. cbn in Hb.
  pose proof (gc_wf _ _ Hd) as Hw. unfold wf_node in Hw.
  assert (0 <= reverse_hash (c_node d)) as H0.
  { destruct (key_of (c_node d)); destruct Hw as [-> _]; apply Reverse_range. }
  change (DummyKey 0) with 0 in Hb. destruct (Z.eqb_spec (reverse_hash (c_node d)) 0) as [E|E]; cbn [negb] in Hb.
  - by destruct (key_of (c_node d)).
  - apply Z.ltb_lt in Hb. lia.
Qed.

(** The destructor gives back everything but what waits for its deletion. *)
Lemma solo_CT_delete fuel head_ j T N m r Φ :
  (25 * j + 1 <= fuel)%nat -> table hash_func_ head_ j T N m -∗ room N -∗ (room T -∗ Φ () r) -∗
  solo (CT_delete fuel head_) r Φ.
Proof.
  iIntros (Hf) "(%cs & %n & %k & %pw & [%Hok %Hcount] & (Hl & Hb & Hk) & _) HN HΦ".
  pose proof (table_length hash_func_ head_ j T N m cs n k pw Hok Hcount) as [Hlen _]. destruct Hok as [A1 A2 A3 A4 A5 A6 A7].
  unfold CT_delete. iApply solo_bind. rewrite -(first_node cs head_) //.
  iApply (solo_release_loop _ _ (k + N)%nat with "Hl [Hk HN]"); [lia|rewrite room_split; iFrame|].
  rewrite cells_cost // A3. iIntros "Hr". iApply (solo_delete_tree with "Hb Hr"). iIntros "Hr". iApply "HΦ".
  by replace T with (k + N + (bucket_count cs + 2 * base.size m) + n)%nat by lia.
Qed.
End Life.

(** ** Definitions *)

Section Replies.
Context {V : Type}.
Implicit Types (m : gmap Z V) (q : request V).

(** What a map answers, the number of its items included. *)
Definition reply m q : answer V :=
  match q with
  | RInsert key _ => AInsert (bool_decide (m !! key = None))
  | RDelete key => ADelete (bool_decide (is_Some (m !! key)))
  | RFind key => AFind (m !! key)
  | RSize => ASize (Z.of_nat (base.size m))
  end.

Fixpoint replies m (qs : list (request V)) : list (answer V) :=
  match qs with
  | [] => []
  | q :: qs => reply m q :: replies (map_after m q) qs
  end.

End Replies.

(** The destructor runs in the main thread, as the constructor does. *)
Definition destroy {V} (fuel : nat) (head_ : Z) : prog V (() * Reclaimer) := CT_delete fuel head_ new_Reclaimer.

(** ** A thread *)

Section Thread.
Context {V : Type} `{!soloGS V Σ} (limit : nat) (hash_func_ : Z -> Z).
Hypothesis hash_ok : forall key, 0 <= hash_func_ key < 2 ^ 64.
Context (fuel : nat) (Hfuel : (4 <= fuel)%nat) (head_ : Z).
Implicit Types (r : Reclaimer) (m : gmap Z V) (qs : list (request V)) (j N T : nat).

Abbreviation solo := (solo limit).
Abbreviation table := (table hash_func_ head_).

Lemma solo_serve j T N m q r Φ :
  (25 * (j + 1) < fuel)%nat -> (100 * (j + 1) + 2 <= T)%nat -> Z.of_nat (S j) <= 2 ^ 23 ->
  table j T N m -∗ mine N r [] -∗
  (∀ N' r', table (S j) T N' (map_after m q) -∗ mine N' r' [] -∗ Φ (reply m q) r') -∗
  solo (serve hash_func_ fuel q) r Φ.
Proof using Hfuel hash_ok.
  iIntros (Hf HT Hj) "Ht Hm HΦ". destruct q as [key y|key|key|]; cbn [serve reply map_after]; iApply solo_bind.
  - iApply (solo_Insert with "Ht Hm"); [done|done|lia|lia|lia|]. iIntros (N' r') "Ht Hm". iApply solo_ret. iApply ("HΦ" with "Ht Hm").
  - iApply (solo_Delete with "Ht Hm"); [done|done|lia|lia|lia|]. iIntros (N' r') "Ht Hm". iApply solo_ret. iApply ("HΦ" with "Ht Hm").
  - iApply (solo_Find with "Ht Hm"); [done|done|lia|lia|]. iIntros (r') "Ht Hm". iApply solo_ret. iApply ("HΦ" with "Ht Hm").
  - iApply (solo_size with "Ht"). iIntros "Ht". iApply solo_ret. iApply ("HΦ" with "Ht Hm").
Qed.

Lemma solo_serve_all qs j T N m r Φ :
  (25 * (j + length qs) < fuel)%nat -> (100 * (j + length qs) + 2 <= T)%nat -> Z.of_nat (j + length qs) <= 2 ^ 23 ->
  table j T N m -∗ mine N r [] -∗
  (∀ N' r', table (j + length qs) T N' (foldl map_after m qs) -∗ mine N' r' [] -∗ Φ (replies m qs) r') -∗
  solo (serve_all hash_func_ fuel qs) r Φ.
Proof using Hfuel hash_ok.
  iIntros (Hf HT Hj) "Ht Hm HΦ". iInduction qs as [|q qs IH] "IH" forall (j N m r Φ Hf HT Hj); cbn [serve_all foldl length].
  { iApply solo_ret. rewrite Nat.add_0_r. iApply ("HΦ" with "Ht Hm"). }
  cbn [length] in *. iApply solo_bind. iApply (solo_serve with "Ht Hm"); [lia..|]. iIntros (N1 r1) "Ht Hm".
  iApply solo_bind. iApply ("IH" with "[%] [%] [%] Ht Hm"); [lia..|]. iIntros (N2 r2) "Ht Hm".
  iApply solo_ret. rewrite Nat.add_succ_comm. iApply ("HΦ" with "Ht Hm").
Qed.

(** A new thread has no hazard pointers. *)
Lemma mine_new hp flag n k : hp <> 0 ->
  atom_pt HpHead hp -∗ atom_pt HpSize n -∗ atom_pt (HpNext hp) 0 -∗ atom_pt (HpPtr hp) 0 -∗ atom_pt (HpFlag hp) flag -∗
  room (k + 2) -∗ room k ∗ mine (V := V) 0 new_Reclaimer [].
Proof using.
  clear Hfuel hash_ok. iIntros (Hhp) "H1 H2 H3 H4 H5 Hr". rewrite room_split. iDestruct "Hr" as "[Hk Hr]".
  iAssert (room (k + 0)) with "[Hk]" as "Hk"; [by rewrite Nat.add_0_r|]. rewrite room_split. iDestruct "Hk" as "[$ H0]".
  iSplitL "H0".
  - iSplit; [done|]. rewrite big_sepM_empty. iSplit; [done|]. iExists 0%nat. by iFrame.
  - iExists []. iSplit; [by iPureIntro|]. iExists [hp], {[ hp := 0 ]}, {[ hp := flag ]}, n. cbn [length].
    rewrite !big_sepM_singleton. iFrame. cbn. iFrame. iPureIntro. split; [|done]. split; try done.
    + intros h. rewrite list_elem_of_singleton. split; [intros ->; by rewrite lookup_singleton_eq|].
      by intros [x [-> _]%lookup_singleton_Some].
    + intros h. rewrite list_elem_of_singleton. split; [intros ->; by rewrite lookup_singleton_eq|].
      by intros [x [-> _]%lookup_singleton_Some].
    + constructor.
    + by intros h ?%not_elem_of_nil.
    + by intros h v [_ <-]%lookup_singleton_Some.
    + cbn. lia.
Qed.

(** The whole thread. *)
Lemma wp_thread_main qs T Φ :
  (25 * length qs < fuel)%nat -> (100 * length qs + 2 <= T)%nat -> Z.of_nat (length qs) <= 2 ^ 23 ->
  table 0 T 0 ∅ -∗ mine 0 new_Reclaimer [] -∗
  (∀ N, table (length qs) T N (foldl map_after ∅ qs) -∗ room N -∗ Φ (replies ∅ qs)) -∗
  wp limit (thread_main hash_func_ fuel qs) Φ.
Proof using Hfuel hash_ok.
  iIntros (Hf HT Hj) "Ht Hm HΦ". unfold thread_main. iApply solo_wp_bind.
  iAssert (solo (a ← serve_all hash_func_ fuel qs; Reclaimer_delete fuel;; mret a) new_Reclaimer
    (fun a _ => Φ a)) with "[-]" as "Hs".
  { iApply solo_bind. iApply (solo_serve_all qs 0 with "Ht Hm"); [done..|]. iIntros (N r') "Ht Hm".
    iApply solo_bind. iApply (solo_Reclaimer_delete with "Hm"); [done|]. iIntros (r2) "Hr". iApply solo_ret. iApply ("HΦ" with "Ht Hr"). }
  unfold Solo.solo. iApply (solo_wp_mono with "[] Hs"). iIntros ([a r']) "Ha". cbn [wp]. by iModIntro.
Qed.
End Thread.

(** ** What is in the memory *)

Section Contents.
Context {V : Type} `{!soloGS V Σ} (limit : nat) (hash_func_ : Z -> Z).
Implicit Types (s : shared V) (cs : list (cell V)).

Lemma lseg_in_memory s cs nx : memory limit s -∗ lseg cs nx -∗ ⌜forall c, c ∈ cs -> is_Some (objs s !! c_addr c)⌝.
Proof.
  iIntros "Hs Hl" (c Hc). apply list_elem_of_split in Hc as (l1 & l2 & Hcs). subst cs.
  iDestruct (lseg_app with "Hl") as "[_ [(_ & Ho & _) _]]". iDestruct (memory_obj with "Hs Ho") as %Ho. iPureIntro. by eexists.
Qed.

Lemma lseg_fits s cs nx : memory limit s -∗ lseg cs nx -∗ ⌜(length cs <= base.size (objs s))%nat⌝.
Proof.
  iIntros "Hs Hl". iDestruct (lseg_NoDup with "Hl") as %Hnd. iDestruct (lseg_in_memory with "Hs Hl") as %Hin. iPureIntro.
  rewrite -(length_fmap c_addr cs) -(size_list_to_set (C := gset Z)) // -size_dom. apply subseteq_size.
  intros a (c & -> & Hc)%elem_of_list_to_set%list_elem_of_fmap. by apply elem_of_dom, Hin.
Qed.

Lemma stored_cells s cs n :
  (length cs <= n)%nat -> memory limit s -∗ lseg cs 0 -∗ ⌜stored n s (start cs 0) = omap item cs⌝.
Proof.
  iIntros (Hn) "Hs Hl". iInduction cs as [|c cs IH] "IH" forall (n Hn); cbn [start]; [by destruct n|].
  cbn [length] in Hn. destruct n as [|n]; [lia|]. iDestruct "Hl" as "[(%Ha & Ho & Hx & Hv) Hl]". destruct Ha as [Ha _].
  iDestruct (memory_obj with "Hs Ho") as %Ho. iDestruct (memory_atom with "Hs Hx") as %Hx. iDestruct (lseg_start with "Hl") as %Hst.
  assert (get_unmarked_reference (start cs 0) = start cs 0 /\ is_marked_reference (start cs 0) = false) as [Hu Hm].
  { destruct Hst as [[-> _]|[Hal _]]; [done|]. pose proof (aligned_unmarked _ Hal). split; [|done].
    apply get_unmarked_id; [|done]. destruct Hal. lia. }
  iAssert ⌜entry s (c_addr c) (c_node c) (start cs 0) = item c⌝%I with "[Hs Hv]" as %He.
  { unfold value_pt, entry, item. rewrite Hm. destruct (c_value c) as [[v y]|].
    - iDestruct "Hv" as "([%Hd _] & Hv & Hy)". iDestruct (memory_atom with "Hs Hv") as %Hv. iDestruct (memory_obj with "Hs Hy") as %Hy.
      iPureIntro. unfold IsDummy in Hd. destruct (key_of (c_node c)); cbn; [by rewrite Hv /= Hy|done].
    - iDestruct "Hv" as %Hd. iPureIntro. unfold IsDummy in Hd. by destruct (key_of (c_node c)). }
  iDestruct ("IH" $! n with "[%] Hs Hl") as %Hrest; [lia|]. iPureIntro. cbn [stored]. test (c_addr c =? 0) is false.
  rewrite Ho Hx He Hu Hrest. cbn. by destruct (item c).
Qed.

Lemma table_contents s head_ j T N m : memory limit s -∗ table hash_func_ head_ j T N m -∗ ⌜contents s head_ = m⌝.
Proof.
  iIntros "Hs (%cs & %n & %k & %pw & [%Hok _] & (Hl & _) & _)". iDestruct (lseg_fits with "Hs Hl") as %Hn.
  iDestruct (stored_cells with "Hs Hl") as %He; [exact Hn|]. iPureIntro. destruct Hok as [A1 A2 A3 _ _ _ _].
  unfold contents. rewrite -(first_node _ _ _ A1 A2) He. exact A3.
Qed.

End Contents.

(** ** The first memory *)

Section Start.
Context {V : Type}.

Lemma static_members hp flag : members_of_objects (V := V) (static_memory hp flag).
Proof.
  intros l a [x Hx] Ho. unfold static_memory in *. cbn [atoms objs] in *.
  repeat (apply lookup_insert_Some in Hx as [[<- <-]|[_ Hx]];
    [first [done | injection Ho as <-; exists OHazard; split; [apply lookup_singleton_eq|cbn; set_solver]]|]).
  exfalso. induction indices as [|i ns IH]; [done|]. cbn in Hx. apply lookup_insert_Some in Hx as [[<- _]|[_ Hx]]; [done|by apply IH].
Qed.

Lemma top_lookup (ns : list Z) l : (forall i, l <> Top i) -> foldr (fun i => <[Top i := 0]>) (∅ : gmap loc Z) ns !! l = None.
Proof. intros Hl. induction ns as [|i ns IH]; [done|]. cbn. by rewrite lookup_insert_ne. Qed.

Lemma top_atoms `{!soloGS V Σ} (ns : list Z) : NoDup ns ->
  ([∗ map] l ↦ x ∈ foldr (fun i => <[Top i := 0]>) ∅ ns, atom_pt l x) -∗ [∗ list] i ∈ ns, atom_pt (Top i) 0.
Proof.
  iIntros (Hnd) "H". iInduction ns as [|i ns IH] "IH"; [done|]. apply NoDup_cons in Hnd as [Hi Hnd]. cbn.
  rewrite big_sepM_insert; [iDestruct "H" as "[$ H]"; by iApply "IH"|].
  clear Hnd. induction ns as [|i' ns IH]; [done|]. cbn. apply not_elem_of_cons in Hi as [Hne Hi].
  rewrite lookup_insert_ne; [by apply IH|congruence].
Qed.

(** The parts of the first memory. *)
Lemma static_parts `{!soloGS V Σ} hp flag :
  ([∗ map] l ↦ x ∈ atoms (static_memory (V := V) hp flag), atom_pt l x) -∗
  slots Top ∅ 0 ∗ atom_pt PowerOf2 1 ∗ atom_pt Size 0 ∗ atom_pt HpHead hp ∗ atom_pt HpSize 0 ∗
  atom_pt (HpNext hp) 0 ∗ atom_pt (HpPtr hp) 0 ∗ atom_pt (HpFlag hp) flag.
Proof.
  iIntros "H". unfold static_memory. cbn [atoms]. pose proof (top_lookup indices) as Hno.
  iAssert (∀ tops, ⌜tops = foldr (fun i => <[Top i := 0]>) (∅ : gmap loc Z) indices⌝ -∗ ([∗ map] l ↦ x ∈ tops, atom_pt l x) -∗ slots Top ∅ 0)%I as "Htops".
  { iIntros (tops ->) "H". iDestruct (top_atoms with "H") as "H"; [apply NoDup_fmap; [apply _|apply NoDup_seq]|].
    iApply (big_sepL_impl with "H"). by iIntros "!>" (i j _) "Hj". }
  remember (foldr (fun i => <[Top i := 0]>) (∅ : gmap loc Z) indices) as tops eqn:Et. clear Et.
  rewrite !big_sepM_insert; try (repeat (rewrite lookup_insert_ne; [|done]); by apply Hno).
  iDestruct "H" as "($ & $ & $ & $ & $ & $ & $ & H)". by iApply "Htops".
Qed.

End Start.

(** ** From the constructor to the destructor *)

Section Life.
Context {V : Type} (hash_func_ : Z -> Z) (fuel : nat) (qs : list (request V)) (hp flag : Z).
Hypothesis hash_ok : forall key, 0 <= hash_func_ key < 2 ^ 64.
Hypothesis hp_ok : hp <> 0.
Hypothesis fuel_ok : (25 * length qs + 4 <= fuel)%nat.
Hypothesis few : Z.of_nat (length qs) <= 2 ^ 23.

(** The objects that there may be at once. *)
Definition enough : nat := 100 * length qs + 16.

(** A program that makes a table, lets a thread serve the requests, and goes on. *)
Definition used_by {A} (k : Z -> list (answer V) -> prog V A) : prog V A :=
  bind (CT new_Reclaimer) (fun '(head_, _) => bind (thread_main hash_func_ fuel qs) (k head_)).

Lemma wp_used_by {A} (k : Z -> list (answer V) -> prog V A) `{!soloGS V Σ} Φ :
  ([∗ map] l ↦ x ∈ atoms (static_memory (V := V) hp flag), atom_pt l x) -∗ room (enough - 1) -∗
  (∀ head_ N, table hash_func_ head_ (length qs) (enough - 3) N (foldl map_after ∅ qs) -∗ room N -∗
     wp enough (k head_ (replies ∅ qs)) Φ) -∗
  wp enough (used_by k) Φ.
Proof using All.
  iIntros "Hs Hroom Hk". iDestruct (static_parts with "Hs") as "(Ht & Hp & Hsize & H1 & H2 & H3 & H4 & H5)".
  unfold enough. replace (100 * length qs + 16 - 1)%nat with (100 * length qs + 9 + 4 + 2)%nat by lia.
  iDestruct (mine_new with "H1 H2 H3 H4 H5 Hroom") as "[Hroom Hm]"; [done|]. unfold used_by. iApply solo_wp_bind.
  iAssert (solo (100 * length qs + 16) CT new_Reclaimer (fun head_ _ => table hash_func_ head_ 0 (100 * length qs + 9 + 4) 0 ∅))
    with "[Ht Hp Hsize Hroom]" as "HCT".
  { iApply (solo_CT with "Ht Hp Hsize Hroom"). by iIntros (head_) "Ht". }
  iApply (solo_wp_mono with "[Hm Hk] HCT"). iIntros ([head_ r]) "Ht". iApply solo_wp_bind.
  iApply (wp_thread_main with "Ht Hm"); [done|lia|lia|lia|done|]. iIntros (N) "Ht HN".
  iApply ("Hk" with "[Ht] HN"). by replace (100 * length qs + 16 - 3)%nat with (100 * length qs + 9 + 4)%nat by lia.
Qed.

(** Such a program runs from the first memory. *)
Lemma used_by_runs {A} malloc (k : Z -> list (answer V) -> prog V A) (P : A -> shared V -> Prop) :
  generous enough malloc ->
  (forall Σ `{!soloGS V Σ} head_ N, table hash_func_ head_ (length qs) (enough - 3) N (foldl map_after ∅ qs) -∗ room N -∗
     wp enough (k head_ (replies ∅ qs)) (fun a => ∀ s', memory enough s' -∗ ⌜P a s'⌝)) ->
  exists a s', alone malloc (used_by k) (static_memory hp flag) = Ok (a, s') /\ P a s'.
Proof using All.
  intros Hm Hk. apply (wp_adequacy enough malloc _ _ (enough - 1)); [done|apply static_members| |].
  - cbn [static_memory objs]. rewrite map_size_singleton. unfold enough. lia.
  - iIntros (Σ ?) "Hs _ Hroom". iApply (wp_used_by with "Hs Hroom"). iIntros (head_ N). iApply Hk.
Qed.

(** What such a program does first. *)
Lemma used_by_parts {A} malloc (k : Z -> list (answer V) -> prog V A) a s0 s3 :
  alone malloc (used_by k) s0 = Ok (a, s3) ->
  exists head_ r s1 answers s2, alone malloc (CT new_Reclaimer) s0 = Ok ((head_, r), s1) /\
    alone malloc (thread_main hash_func_ fuel qs) s1 = Ok (answers, s2) /\ alone malloc (k head_ answers) s2 = Ok (a, s3).
Proof using.
  clear. unfold used_by. rewrite alone_bind. destruct (alone malloc (CT new_Reclaimer) s0) as [[[head_ r] s1]| | |] eqn:E1; [|done..].
  cbn. rewrite alone_bind. destruct (alone malloc (thread_main hash_func_ fuel qs) s1) as [[answers s2]| | |] eqn:E2; [|done..].
  cbn. intros E3. by exists head_, r, s1, answers, s2.
Qed.

End Life.

(** C4. A lock-free table that one thread uses, from its constructor to its destructor. If
    the allocator finds addresses for 100 objects per request and the loops may take 25
    rounds per request, the thread comes to its end: nothing fails, and no loop goes on
    for ever. Every answer is that of a map, the size included; the memory then holds
    the items of the map. After the destructor there are no more than three objects, the
    hazard pointers: every node, value and segment that was made has been deleted, once. *)
Theorem one_thread_map {V} (hash_func_ : Z -> Z) (fuel : nat) (malloc : shared V -> Z) (hp flag : Z) (qs : list (request V)) :
  (forall key, 0 <= hash_func_ key < 2 ^ 64) -> hp <> 0 -> (25 * length qs + 4 <= fuel)%nat ->
  Z.of_nat (length qs) <= 2 ^ 23 -> generous (100 * length qs + 16) malloc ->
  exists head_ r s1 s2 r' s3,
    alone malloc (CT new_Reclaimer) (static_memory hp flag) = Ok ((head_, r), s1) /\
    alone malloc (thread_main hash_func_ fuel qs) s1 = Ok (replies ∅ qs, s2) /\
    contents s2 head_ = foldl map_after ∅ qs /\
    alone malloc (CT_delete fuel head_ new_Reclaimer) s2 = Ok (((), r'), s3) /\
    (base.size (objs s3) <= 3)%nat.
Proof.
  intros Hhash Hhp Hfuel Hfew Hm. pose proof (fun A => used_by_runs (A := A) hash_func_ fuel qs hp flag Hhash Hhp Hfuel Hfew malloc) as Hruns.
  edestruct (Hruns _ (fun head_ answers => Ret (head_, answers))
    (fun '(head_, answers) s2 => answers = replies ∅ qs /\ contents s2 head_ = foldl map_after ∅ qs) Hm) as ([head_ answers] & s2 & Hrun & -> & Hcont).
  { iIntros (Σ ? head_ N) "Ht _". cbn [wp]. iModIntro. iIntros (s') "Hs". by iDestruct (table_contents with "Hs Ht") as %Hc. }
  edestruct (Hruns _ (fun head_ _ => CT_delete fuel head_ new_Reclaimer) (fun _ s3 => (base.size (objs s3) <= 3)%nat) Hm)
    as ([[] r3] & s3 & Hrun3 & Hsize).
  { iIntros (Σ ? head' N) "Ht HN". iAssert (solo (enough qs) (CT_delete fuel head') new_Reclaimer
      (fun _ _ => ∀ s', memory (enough qs) s' -∗ ⌜(base.size (objs s') <= 3)%nat⌝))%I with "[Ht HN]" as "Hs".
    { iApply (solo_CT_delete with "Ht HN"); [lia|]. iIntros "Hr" (s') "Hs". iDestruct (memory_room with "Hs Hr") as %Hle.
      iPureIntro. unfold enough in Hle. lia. }
    iApply (solo_wp_mono with "[] Hs"). by iIntros ([[] r']) "H". }
  apply used_by_parts in Hrun as (h1 & r1 & s1 & a1 & s2' & E1 & E2 & [= -> -> ->]).
  apply used_by_parts in Hrun3 as (h3 & r3' & s1' & a3 & s2' & E1' & E2' & E3). rewrite E1 in E1'. injection E1' as <- <- <-.
  rewrite E2 in E2'. injection E2' as <- <-. by exists head_, r1, s1, s2, r3, s3.
Qed.

(** The lowest free address of the first [n]. *)
Definition lowest_fit {V} (n : nat) (s : shared V) : Z :=
  default 0 (find (fun a => available a s) ((fun i => 16 * i) <$> seqZ 1 (Z.of_nat n))).

Lemma lowest_fit_generous {V} n : 16 * Z.of_nat n < 2 ^ 64 -> generous (V := V) n (lowest_fit n).
Proof.
  intros Hn s Hs. unfold lowest_fit. destruct (find _ _) as [a|] eqn:Hf; [by apply find_some in Hf as [_ ?]|]. exfalso.
  set (l := (fun i => 16 * i) <$> seqZ 1 (Z.of_nat n)) in *.
  assert (NoDup l) as Hnd by (apply NoDup_fmap; [intros x y; lia|apply NoDup_seqZ]).
  assert (list_to_set (C := gset Z) l ⊆ dom (objs s)) as Hsub.
  { intros a Ha%elem_of_list_to_set. pose proof (find_none _ _ Hf a ltac:(by apply list_elem_of_In)) as Hav.
    apply list_elem_of_fmap in Ha as (i & -> & Hi%elem_of_seqZ). apply elem_of_dom. destruct (objs s !! (16 * i)) eqn:Ho; [by eexists|].
    unfold available in Hav. rewrite Ho bool_decide_true // andb_true_r in Hav.
    rewrite (_ : (16 * i) mod 16 = 0) in Hav; [|rewrite Z.mul_comm Z_mod_mult //]. cbn [Z.eqb] in Hav. rewrite andb_true_r in Hav.
    apply andb_false_iff in Hav as [?%Z.ltb_ge|?%Z.ltb_ge]; lia. }
  apply subseteq_size in Hsub. rewrite size_list_to_set // length_fmap length_seqZ size_dom in Hsub. lia.
Qed.

Definition life_requests : list (request Z) :=
  [RInsert 4 40; RInsert 2 20; RSize; RInsert 6 60; RInsert 2 21; RDelete 4; RDelete 4; RSize; RFind 2; RFind 4].

Lemma one_thread_map_witness :
  exists head_ s1 s2,
    alone (lowest_fit 1016) (thread_main id_64 254 life_requests) s1 =
      Ok ([AInsert true; AInsert true; ASize 2; AInsert true; AInsert false; ADelete true; ADelete false; ASize 2; AFind (Some 21); AFind None], s2) /\
    contents s2 head_ = <[2 := 21]> {[6 := 60]}.
Proof.
  destruct (one_thread_map (V := Z) id_64 254 (lowest_fit 1016) 16 0 life_requests) as (h & r & s1 & s2 & r' & s3 & _ & H & Hc & _).
  - intros k. apply wrap_range. lia.
  - done.
  - cbn. lia.
  - cbn. lia.
  - apply lowest_fit_generous. lia.
  - exists h, s1, s2. split; [exact H|]. rewrite Hc. vm_compute. reflexivity.
Defined.
